(* ===== verification/_CoqProject ===== *)
-Q . S2P
Prelude.v
RustStr.v
Hex.v
BTree.v
Cursor.v
Leb128.v
Bloom.v
GroupCounts.v
Postings.v
RowSelection.v
InvertedIndex.v
SegBlock.v
SegWriter.v
SegReader.v
SegGroup.v
SegQuery.v
SegClip.v
SegLayout.v
SegDirectory.v
SegServe.v
SegCorrect.v
SegSafe.v
SegStaged.v
TimeColumn.v
Merge.v
StreamMerge.v
Crc32.v
WalFrame.v
WalDisk.v
WalLifecycle.v
WalWriter.v
WalDurable.v
WalSurvive.v
WalCrash.v
WalConsumer.v
WalCursor.v
WalRetention.v
WalBuffer.v
Eff.v
RelyGuarantee.v
Triples.v
Catalog.v
CatalogInv.v
MirrorSync.v
ConsumedProof.v
DrainCycle.v
DrainInv.v
DrainSafe.v
DrainPass.v
DrainReclaim.v
DrainOther.v
DrainSystem.v
DrainRaces.v
MirrorKeys.v
MirrorUpload.v
MirrorOwner.v
MirrorSafe.v
MirrorRecover.v
MirrorRestore.v
MirrorRaces.v
TableCache.v
FsDrain.v
FsInv.v
FsSafe.v
FsPass.v
FsTask.v
FsLoop.v
FsOther.v
FsSystem.v
FsRaces.v
