(* ===== verification/Prelude.v ===== *)
(** * Verification of loglake

    loglake is a log store.  Ingesters append Arrow batches to a write-ahead log
    (WAL) of segment files and mirror sealed segments to an object store; drains
    claim the segments, through a SQL catalog or by renaming files, and append
    their rows to Iceberg tables; a lost volume is restored from the mirror;
    compaction merges the tables' files in time order; queries prune row groups
    and rows through blooms, footer counts and an inverted index.  The development
    is a shallow embedding of the parts of that path whose behaviour is decided
    by the repository's own code.  Paths below are under [src/crates/] unless
    they say otherwise.

    ** Conventions

    Machine integers are [Z] with wrapping, checking and saturation written out;
    [usize] is 64 bits.  A byte string is a [list Z], a Rust string its UTF-8
    bytes.  Fallible code returns [option] or a sum.  Code the repository only
    calls (Arrow's IPC decoder, zstd, base64, serde_json, the CRC of the index
    crates, floating-point sizing, the object store, the contents of tables) is
    an argument or a class of operations; what the code relies on is a class of
    laws or a named hypothesis, and the theorems' witnesses instantiate them.

    ** The query side

    - [RustStr], [Hex], [BTree], [Cursor], [Leb128]: strings, hexadecimal text,
      [BTreeMap], byte cursors and LEB128, shared by the codecs.
    - [Bloom] (loglake-bloom/src/lib.rs): tokenizers, trigrams, [TokenBloom], the
      per-row-group list.  A token put in is always found; trigram pruning drops
      no group that has a matching row.
    - [GroupCounts] (loglake-bloom/src/group_counts.rs): the footer codec; round
      trip, and every summary that decodes is well formed.
    - [Postings], [RowSelection], [InvertedIndex] (loglake-index/src/lib.rs): the
      v1 index; the builder, term, conjunction and substring queries answer
      exactly what the rows demand, and the blob codec round-trips.
    - [SegBlock], [SegWriter], [SegReader] (loglake-index/src/segmented.rs): the
      segmented index.  A lookup is a tree of range reads.  [SegGroup] states
      what a row group promises ([GroupAnswers]), [SegQuery] and [SegClip] prove
      the lookups against it, [SegLayout], [SegDirectory] and [SegServe] prove
      that the writer's bytes keep it, and [SegCorrect] puts these together:
      every lookup over a written blob is exact, and equals the v1 index on terms
      that normalize.
      [SegSafe] is about bytes nobody vouches for, [SegStaged] about the rounds
      of fetches that drive a lookup ([StagedSource] and
      third_party/iceberg/src/arrow/reader/pruning.rs).

    ** Compaction's merge

    - [TimeColumn] (loglake-core/src/lib.rs): timestamp columns as nanoseconds,
      the events schema and its batch builder.
    - [Merge], [StreamMerge] (loglake-storage/src/merge.rs): the run-length plan
      and the streaming merge refine one specification, the stable order by
      timestamp, and agree with each other.

    ** The write-ahead log (loglake-wal)

    - [Crc32], [WalFrame]: checksums with their error detection, frame headers,
      the IPC framing walk, the segment readers.
    - [WalDisk]: a disk with durable and pending directory entries; programs are
      trees of calls, any of which may fail, and the power may go at any point.
      [always] is the program logic of such trees.
    - [WalLifecycle]: the moves of a segment between directories.  [WalWriter]:
      the writer.  [WalDurable], [WalSurvive], [WalCrash]: acknowledged rows
      survive any run of calls and a power loss, and so does the recovery; the
      one exception is a segment in which an append failed and which stayed open.
    - [WalConsumer], [WalCursor], [WalRetention]: the poll of a consumer, its
      cursor across power losses, and the sweep of committed segments that waits
      for it.
    - [WalBuffer] (loglake-query-server/src/wal_buffer.rs): the segments a query
      reads beside its Iceberg snapshot, while drains move them.  No segment is
      answered twice or although it is consumed, and the cache of decoded
      batches answers what a read would.

    ** The catalog and the drains (loglake-storage, loglake-compactor)

    - [Eff]: processes that act on shared state one atomic statement at a time; a
      statement may fail, or take effect and lose its answer.  [RelyGuarantee]:
      the logic in which processes are proved safe among their rivals.
      [Triples]: Hoare triples over it.
    - [Catalog] (catalog_claim.rs): every operation of [SqlSegmentClaim].
      [CatalogInv]: under any concurrent clients a row's columns agree with its
      status and rows move along the claim lifecycle only.
    - [MirrorSync] (loglake-wal/src/mirror.rs, loglake-compactor/src/lib.rs): the
      uploader's registration and the scan that registers what was not; a
      completed rotation has registered every object that stayed, unless a purge
      took the row away again.
    - [MirrorKeys] (loglake-core/src/tenant.rs, index_config.rs, mirror.rs): the
      names a tenant and an index may have, the keys their segments get, and the
      way back: a key is routed to the place it came from, and the ledger confirms
      a listing only when it is.
    - [MirrorUpload] (mirror.rs): pins, the worker with its retries, active copies
      and the catch-up sweep, over a site of files, objects and a queue.
      [MirrorOwner] (mirror.rs, loglake-compactor/src/lib.rs): the mark of the table
      a prefix belongs to and the drain's claim on it, which remembers whether the
      prefix ever named another table.
      [MirrorSafe]: a pinned segment is kept until its object was stored, whoever
      runs and fails beside.
    - [MirrorRecover] (mirror.rs, loglake-cli/src/main.rs): the restore, from the
      paged listing to the files on a volume, and the command around it, which
      writes only what was asked for and not contradicted.  [MirrorRestore]: a
      restore, of a database or by [wal-recover], brings back what was in the
      mirror when it began.  [MirrorRaces]
      shows by a run what a segment between two pages comes to.
    - [ConsumedProof] (consumed_proof.rs, iceberg.rs): the table property that
      records which segments a table has.
    - [DrainCycle] (loglake-compactor/src/lib.rs): one drain cycle, the reclaim of
      abandoned claims, proof compaction and snapshot expiry, over the catalog and
      the generations of the tables.  [DrainInv] is the invariant, [DrainSafe],
      [DrainPass], [DrainReclaim] and [DrainOther] prove each process safe, and
      [DrainSystem] concludes that every segment reaches its table once.
      [DrainRaces] shows by runs what happens where an assumption fails.
    - [TableCache] (iceberg.rs): the cache of table metadata with its publication
      fence; what a cached read answers refines the bound on staleness that the
      models of the drains use.
    - [FsDrain] (loglake-compactor/src/lib.rs): the drain of a WAL directory
      without a catalog, from orphan disposition to the retention sweep, with its
      commits in flight, its watchdog and its restart, over the disk of [WalDisk]
      and the tables of [DrainCycle].  [FsInv] is the invariant; [FsSafe], [FsPass],
      [FsTask] and [FsLoop] prove the compactor's parts safe, the commits in flight
      as processes of their own, and [FsOther] what runs beside it.  [FsSystem]
      concludes that every sealed segment is appended at most once and stays on
      disk until it is.  [FsRaces] shows by runs what a tripped watchdog and a
      partial left behind do.

    ** Assumptions of the system theorems

    A statement of the catalog is atomic, and so is a transaction, which is what
    SQLite gives; [Catalog] says which schedules of PostgreSQL this leaves out.  A
    PUT to the mirror is atomic, as on an object store.

    [DrainSystem.drain_exactly_once] holds of every interleaving under a clock
    that does not go back, when a drain cycle and the staleness of a cached table
    entry fit together in the reclaim age, claimer ids differ, reclaim passes do
    not overlap and can read the tables, the answers of Iceberg commits are not
    lost, and the names of segments have neither commas nor an [.arrow] suffix of
    their own.  Purges of committed rows and the marks of a local drain are
    outside it.

    [FsSystem.fs_drain_exactly_once] has one compactor per directory, killed and
    started again at will; file-system calls fail in any way and the machine does
    not lose power.  Its watchdog does not trip, the answers of Iceberg commits
    arrive, a segment's name is used once and appears in [sealed/] with its
    contents, a file's time is less than five seconds ahead of the clock, and the
    table is not dropped.

    [MirrorSafe.pinned_until_stored] and [MirrorRestore.restore_brings_back] have
    a mirror prefix that is not empty, segment names used in one lane only, and
    lanes of at most a tenant and an index whose names the layout does not
    reserve, no tenant [_active]; the drain and retention do not touch pins,
    and only sealed objects are reclaimed.  Restores do not overlap.  A listing
    may be cut into pages anywhere, and its keys come in order.

    ** Bounds and fuel

    Loops that are not structural carry fuel computed from their input: the
    staged driver its round budget, which is the code's own; the IPC walk one
    turn per four bytes, which [WalFrame.ipc_walk_ends] proves enough; the sweep of
    the mirror one turn per candidate; the merges
    one step per row, enough by [Merge.merge_plan_order] and
    [StreamMerge.stream_merge_matches_plan].  Nothing else is bounded: the pools
    of processes, their statements and the power losses are arbitrary.  The file-system
    compactor takes the order in which its commits in flight act as an argument;
    the theorems hold of every order and of every prefix.

    ** Not modelled

    Reclustering, delete tasks and cadence gates of the compactor; Iceberg's scans,
    writers and deletes beyond the transactions that carry the consumed proof;
    DataFusion providers and SQL; the HTTP, gRPC and Kubernetes servers;
    configuration, metrics, delays and logging.  These are calls into asynchronous
    libraries with little logic of the repository's own between them, or they
    depend on floating point and on library data structures whose behaviour the
    sources do not state. *)

From stdpp Require Import prelude gmap sorting.
From Stdlib Require Import ZArith Lia.

#[global] Open Scope Z_scope.

Declare Scope loglake_scope.
Delimit Scope loglake_scope with ll.
#[global] Open Scope loglake_scope.

(** * Machine integers

    A Rust unsigned integer of width [w] is a [Z] in [0 <= z < 2^w]; the
    arithmetic the sources use on it (wrapping, checked, saturating) is written
    out.  [usize] is 64 bits wide, the width of every target loglake ships. *)

Definition fits (w z : Z) : Prop := 0 ≤ z < 2 ^ w.
Abbreviation u8 := (fits 8) (only parsing).
Abbreviation u32 := (fits 32) (only parsing).
Abbreviation u64 := (fits 64) (only parsing).

Definition wrap (w z : Z) : Z := z mod 2 ^ w.

Definition checked_add (w a b : Z) : option Z :=
  if a + b <? 2 ^ w then Some (a + b) else None.

Definition saturating_add (w a b : Z) : Z := Z.min (a + b) (2 ^ w - 1).
Definition saturating_sub (a b : Z) : Z := Z.max 0 (a - b).

(** [iter().sum()] in unbounded integers, for stating what saturates. *)
Definition sumZ : list Z → Z := foldr Z.add 0.

Lemma sumZ_app l k : sumZ (l ++ k) = sumZ l + sumZ k.
Proof. induction l as [|x l IH]; [done|]. cbn. unfold sumZ in *. lia. Qed.

Lemma sumZ_nonneg l : Forall (λ x, 0 ≤ x) l → 0 ≤ sumZ l.
Proof. induction 1; simpl; lia. Qed.

(** [u32::try_from(x).ok()] and the like. *)
Definition try_into (w z : Z) : option Z := if z <? 2 ^ w then Some z else None.

#[global] Instance fits_dec w z : Decision (fits w z).
Proof. unfold fits. apply _. Defined.

Lemma wrap_fits w z : 0 ≤ w → fits w (wrap w z).
Proof. intros. unfold fits, wrap. apply Z.mod_pos_bound. lia. Qed.

Lemma wrap_small w z : fits w z → wrap w z = z.
Proof. unfold fits, wrap. intros. by apply Z.mod_small. Qed.

Lemma checked_add_Some w a b c : checked_add w a b = Some c ↔ c = a + b ∧ a + b < 2 ^ w.
Proof. unfold checked_add. destruct (Z.ltb_spec (a + b) (2 ^ w)); naive_solver lia. Qed.

Lemma try_into_Some w z y : try_into w z = Some y ↔ y = z ∧ z < 2 ^ w.
Proof. unfold try_into. destruct (Z.ltb_spec z (2 ^ w)); naive_solver lia. Qed.

Lemma try_into_fits w z : fits w z → try_into w z = Some z.
Proof. intros [??]. by apply try_into_Some. Qed.

(** * Bytes and slices *)

Abbreviation bytes := (list Z).
Abbreviation is_byte := (fits 8).
Definition bytes_ok (bs : bytes) : Prop := Forall is_byte bs.

Definition len {A} (l : list A) : Z := Z.of_nat (length l).

(** [buf.get(s..e)]: out of range is [None]. *)
Definition get_range {A} (l : list A) (s e : Z) : option (list A) :=
  if (s <=? e) && (e <=? len l)
  then Some (take (Z.to_nat (e - s)) (drop (Z.to_nat s) l)) else None.

Lemma len_nil {A} : len (@nil A) = 0.
Proof. reflexivity. Qed.
Lemma len_cons {A} (x : A) l : len (x :: l) = 1 + len l.
Proof. unfold len. simpl. lia. Qed.
Lemma len_app {A} (l k : list A) : len (l ++ k) = len l + len k.
Proof. unfold len. rewrite length_app. lia. Qed.
Lemma to_nat_len {A} (l : list A) : Z.to_nat (len l) = length l.
Proof. unfold len. lia. Qed.
Lemma len_nonneg {A} (l : list A) : 0 ≤ len l.
Proof. unfold len. lia. Qed.
Lemma len_fmap {A B} (f : A → B) l : len (f <$> l) = len l.
Proof. unfold len. by rewrite length_fmap. Qed.
Create Rewrite HintDb len.
#[global] Hint Rewrite @len_nil @len_cons @len_app @len_fmap : len.

(** Normalises lengths, adds the non-negativity of every length in sight and
    calls [lia]. *)
Ltac len_lia :=
  unfold fits in *; autorewrite with len in *;
  repeat match goal with
  | |- context [len ?l] =>
      lazymatch goal with _ : 0 ≤ len l |- _ => fail | _ => pose proof (len_nonneg l) end
  | _ : context [len ?l] |- _ =>
      lazymatch goal with _ : 0 ≤ len l |- _ => fail | _ => pose proof (len_nonneg l) end
  end; lia.

Lemma get_range_app {A} (pre mid post : list A) :
  get_range (pre ++ mid ++ post) (len pre) (len pre + len mid) = Some mid.
Proof.
  unfold get_range. rewrite (proj2 (andb_true_iff _ _)).
  - f_equal. unfold len. rewrite Nat2Z.id, drop_app_length.
    replace (Z.to_nat _) with (length mid) by lia. apply take_app_length.
  - split; apply Z.leb_le; len_lia.
Qed.

Lemma get_range_Some {A} (l x : list A) s e :
  0 ≤ s → get_range l s e = Some x →
  s ≤ e ∧ e ≤ len l ∧ len x = e - s ∧
  l = take (Z.to_nat s) l ++ x ++ drop (Z.to_nat e) l.
Proof.
  unfold get_range. case_match eqn:E; [|done]. intros Hs [= <-].
  apply andb_true_iff in E as [?%Z.leb_le He%Z.leb_le]. unfold len in *.
  rewrite length_take, length_drop.
  split_and!; [lia..|].
  replace (drop (Z.to_nat e) l) with (drop (Z.to_nat (e - s)) (drop (Z.to_nat s) l)).
  - by rewrite take_drop, take_drop.
  - rewrite drop_drop. f_equal. lia.
Qed.

(** The bytes two strings share at their start ([zip], [take_while], [count]):
    the front coding of both the group counts and the segmented dictionary. *)
Fixpoint common_prefix_len (a b : bytes) : Z :=
  match a, b with
  | x :: a, y :: b => if x =? y then 1 + common_prefix_len a b else 0
  | _, _ => 0
  end.

Lemma common_prefix_bound a b : 0 ≤ common_prefix_len a b ≤ Z.min (len a) (len b).
Proof.
  revert b. induction a as [|x a IH]; intros [|y b]; simpl; try len_lia.
  specialize (IH b). destruct (x =? y); len_lia.
Qed.

Lemma common_prefix_take a b :
  take (Z.to_nat (common_prefix_len a b)) a = take (Z.to_nat (common_prefix_len a b)) b.
Proof.
  revert b. induction a as [|x a IH]; intros [|y b]; simpl; try done.
  destruct (Z.eqb_spec x y) as [->|]; [|done].
  pose proof (common_prefix_bound a b).
  rewrite Z2Nat.inj_add by lia. simpl. by rewrite IH.
Qed.

(** ** Little-endian integers: [to_le_bytes] / [from_le_bytes] *)

Fixpoint to_le (n : nat) (z : Z) : bytes :=
  match n with O => [] | S n => z mod 256 :: to_le n (z / 256) end.

Fixpoint from_le (bs : bytes) : Z :=
  match bs with [] => 0 | b :: bs => b + 256 * from_le bs end.

Lemma length_to_le n z : length (to_le n z) = n.
Proof. revert z; induction n; simpl; auto. Qed.

Lemma len_to_le n z : len (to_le n z) = Z.of_nat n.
Proof. unfold len. by rewrite length_to_le. Qed.
#[global] Hint Rewrite len_to_le : len.

Lemma bytes_ok_bind {A} (f : A → bytes) l : Forall (λ x, bytes_ok (f x)) l → bytes_ok (l ≫= f).
Proof. induction 1; simpl; [constructor|]. by apply Forall_app. Qed.

Lemma to_le_ok n z : bytes_ok (to_le n z).
Proof.
  revert z; induction n as [|n IH]; intros z; simpl; constructor; [|apply IH].
  unfold fits. pose proof (Z.mod_pos_bound z 256). lia.
Qed.

Lemma from_to_le n z : 0 ≤ z < 256 ^ Z.of_nat n → from_le (to_le n z) = z.
Proof.
  revert z; induction n as [|n IH]; intros z Hz; simpl from_le.
  - rewrite Z.pow_0_r in Hz. lia.
  - simpl. rewrite Nat2Z.inj_succ, Z.pow_succ_r in Hz by lia.
    rewrite IH; [pose proof (Z.div_mod z 256); lia|].
    split; [apply Z.div_pos; lia|]. apply Z.div_lt_upper_bound; lia.
Qed.

Lemma from_le_bound bs : bytes_ok bs → 0 ≤ from_le bs < 256 ^ len bs.
Proof.
  induction 1 as [|b bs Hb _ IH]; [by cbn|].
  rewrite len_cons, Z.pow_add_r by len_lia. simpl from_le.
  unfold fits in Hb. lia.
Qed.

Lemma to_from_le bs : bytes_ok bs → to_le (length bs) (from_le bs) = bs.
Proof.
  induction 1 as [|b bs Hb _ IH]; [done|]. simpl. unfold fits in Hb.
  rewrite (Z.mul_comm 256), Z.mod_add, Z.div_add by lia.
  rewrite Z.mod_small, Z.div_small, Z.add_0_l by lia. by rewrite IH.
Qed.
#[global] Arguments to_le : simpl never.

(** * Strictly sorted lists

    A strictly sorted list is determined by its members, whatever the order:
    the uniqueness every "exactly these, in order" statement rests on. *)

Section StrictlySorted.
Context {A : Type} (R : relation A) `{!StrictOrder R}.

Lemma sorted_ext a b :
  StronglySorted R a → StronglySorted R b → (∀ x, x ∈ a ↔ x ∈ b) → a = b.
Proof.
  intros Ha. revert b. induction Ha as [|x a Ha IH Hx]; intros b Hb Heq.
  - destruct b as [|y b]; [done|]. exfalso. specialize (Heq y). set_solver.
  - destruct Hb as [|y b Hb Hy]; [exfalso; specialize (Heq x); set_solver|].
    rewrite Forall_forall in Hx, Hy.
    assert (x = y) as ->.
    { pose proof (proj1 (Heq x) ltac:(left)) as [|Hin1]%elem_of_cons; [done|].
      pose proof (proj2 (Heq y) ltac:(left)) as [|Hin2]%elem_of_cons; [done|].
      destruct (irreflexivity R x). transitivity y; auto. }
    f_equal. apply IH; [done|]. intros z. specialize (Heq z). rewrite !elem_of_cons in Heq.
    split; intros Hz; [pose proof (Hx z Hz) as Hr|pose proof (Hy z Hz) as Hr]; destruct Heq as [H1 H2];
      [destruct H1 as [->|]|destruct H2 as [->|]]; auto; by destruct (irreflexivity R y).
Qed.

Lemma sorted_app a b :
  StronglySorted R (a ++ b)
  ↔ StronglySorted R a ∧ StronglySorted R b ∧ ∀ x y, x ∈ a → y ∈ b → R x y.
Proof.
  induction a as [|x a IH]; simpl.
  - split; [|tauto]. intros H. split_and!; [constructor|done|set_solver].
  - split.
    + intros [H Hx]%StronglySorted_inv. apply IH in H as (Ha & Hb & Hab).
      apply Forall_app in Hx as [Hxa Hxb]. rewrite Forall_forall in Hxb.
      split; [by constructor|]. split; [done|]. intros y z [->|?]%elem_of_cons; auto.
    + intros ([Ha Hx]%StronglySorted_inv & Hb & Hab). constructor.
      * apply IH. split; [done|]. split; [done|]. intros y z ??. apply Hab; [by right|done].
      * apply Forall_app. split; [done|]. apply Forall_forall. intros z ?. apply Hab; [left|done].
Qed.

(** Members of an earlier run precede those of a later one. *)
Lemma sorted_concat_lt (ls : list (list A)) i j a b x y :
  StronglySorted R (concat ls) → (i < j)%nat →
  ls !! i = Some a → ls !! j = Some b → x ∈ a → y ∈ b → R x y.
Proof.
  revert i j. induction ls as [|l ls IH]; intros i j Hs Hij Hi Hj Hx Hy; [done|].
  simpl in Hs. apply sorted_app in Hs as (_ & Hs & Hlt). destruct j as [|j]; [lia|].
  destruct i as [|i]; simpl in *; [|by apply (IH i j); auto with lia].
  injection Hi as ->. apply Hlt; [done|]. apply list_elem_of_In, in_concat. exists b.
  split; apply list_elem_of_In; [by apply (list_elem_of_lookup_2 _ j)|done].
Qed.

Lemma sorted_NoDup l : StronglySorted R l → NoDup l.
Proof.
  induction 1 as [|x l _ IH Hx]; constructor; [|done]. intros Hin.
  rewrite Forall_forall in Hx. by apply (irreflexivity R x), Hx.
Qed.
End StrictlySorted.

(** * Binary search *)

(** [partition_point] on a partitioned slice: the length of the prefix the
    predicate holds on. *)
Fixpoint partition_point {A} (p : A → bool) (l : list A) : nat :=
  match l with
  | [] => 0
  | x :: l => if p x then S (partition_point p l) else 0
  end.

Lemma partition_point_lookup {A} (p : A → bool) l n x :
  (n < partition_point p l)%nat → l !! n = Some x → p x = true.
Proof.
  revert n. induction l as [|y l IH]; intros n; simpl; [lia|].
  destruct (p y) eqn:E; [|lia]. destruct n as [|n]; simpl; [by intros _ [= <-]|].
  intros. apply (IH n); [lia|done].
Qed.

Lemma partition_point_le {A} (p : A → bool) l : (partition_point p l ≤ length l)%nat.
Proof. induction l as [|x l IH]; simpl; [done|]. destruct (p x); lia. Qed.

Lemma partition_point_pos {A} (p : A → bool) l x :
  head l = Some x → p x = true → (0 < partition_point p l)%nat.
Proof. destruct l; simpl; [done|]. intros [= ->] ->. lia. Qed.

Lemma partition_point_stop {A} (p : A → bool) l x :
  l !! partition_point p l = Some x → p x = false.
Proof.
  induction l as [|y l IH]; simpl; [done|]. destruct (p y) eqn:E; simpl; [done|]. by intros [= <-].
Qed.
