(* ===== verification/RustStr.v ===== *)
(** Rust strings.

    A [str]/[String] is its UTF-8 byte sequence (a [list Z] of bytes), exactly
    as Rust represents it; [chars] decodes it.  The file models the parts of
    [core::str] the sources use: [from_utf8] with the validation table of the
    standard library, [chars], [trim], [split] on a character predicate,
    [to_ascii_lowercase], [contains], [strip_suffix], and the byte-lexicographic
    order of [str]. *)

From stdpp Require Import prelude strings.
From Stdlib Require Import ZArith Lia Ascii.
From S2P Require Import Prelude.

Abbreviation rstr := (list Z).

(** A string literal of the source, as its bytes. *)
Definition lit (s : string) : rstr :=
  (λ a, Z.of_N (N_of_ascii a)) <$> String.list_ascii_of_string s.

Lemma lit_ok s : bytes_ok (lit s).
Proof.
  unfold lit, bytes_ok. apply Forall_fmap, Forall_true. intros a. simpl. unfold fits.
  pose proof (N_ascii_bounded a). lia.
Qed.

(** * UTF-8 *)

(** A Unicode scalar value: a code point that is not a surrogate. *)
Definition is_scalar (c : Z) : Prop := 0 ≤ c < 0xD800 ∨ 0xE000 ≤ c < 0x110000.

Definition encode_char (c : Z) : bytes :=
  if c <? 0x80 then [c]
  else if c <? 0x800 then [0xC0 + c / 64; 0x80 + c mod 64]
  else if c <? 0x10000 then [0xE0 + c / 4096; 0x80 + c / 64 mod 64; 0x80 + c mod 64]
  else [0xF0 + c / 262144; 0x80 + c / 4096 mod 64; 0x80 + c / 64 mod 64; 0x80 + c mod 64].

Definition utf8_encode (cs : list Z) : bytes := mbind encode_char cs.

Definition between (lo b hi : Z) : bool := (lo <=? b) && (b <=? hi).

(** One character off the front, under [core::str::from_utf8]'s table: no
    overlong forms, no surrogates, nothing above U+10FFFF. *)
Definition utf8_next (bs : bytes) : option (Z * bytes) :=
  match bs with
  | [] => None
  | b0 :: t0 =>
    if between 0 b0 0x7F then Some (b0, t0)
    else if between 0xC2 b0 0xDF then
      match t0 with
      | b1 :: t1 =>
        if between 0x80 b1 0xBF then Some ((b0 - 0xC0) * 64 + (b1 - 0x80), t1) else None
      | _ => None
      end
    else if between 0xE0 b0 0xEF then
      match t0 with
      | b1 :: b2 :: t2 =>
        let lo := if b0 =? 0xE0 then 0xA0 else 0x80 in
        let hi := if b0 =? 0xED then 0x9F else 0xBF in
        if between lo b1 hi && between 0x80 b2 0xBF
        then Some ((b0 - 0xE0) * 4096 + (b1 - 0x80) * 64 + (b2 - 0x80), t2) else None
      | _ => None
      end
    else if between 0xF0 b0 0xF4 then
      match t0 with
      | b1 :: b2 :: b3 :: t3 =>
        let lo := if b0 =? 0xF0 then 0x90 else 0x80 in
        let hi := if b0 =? 0xF4 then 0x8F else 0xBF in
        if between lo b1 hi && between 0x80 b2 0xBF && between 0x80 b3 0xBF
        then Some ((b0 - 0xF0) * 262144 + (b1 - 0x80) * 4096 + (b2 - 0x80) * 64
                   + (b3 - 0x80), t3) else None
      | _ => None
      end
    else None
  end.

Fixpoint utf8_go (fuel : nat) (bs : bytes) : option (list Z) :=
  match bs, fuel with
  | [], _ => Some []
  | _, O => None
  | _, S fuel =>
    match utf8_next bs with
    | Some (c, rest) => cons c <$> utf8_go fuel rest
    | None => None
    end
  end.

(** Every character takes at least one byte, so the length is enough fuel. *)
Definition utf8_decode (bs : bytes) : option (list Z) := utf8_go (length bs) bs.

Definition utf8_valid (bs : bytes) : bool := bool_decide (is_Some (utf8_decode bs)).
Definition valid_str (s : rstr) : Prop := ∃ cs, Forall is_scalar cs ∧ s = utf8_encode cs.

(** [std::str::from_utf8(bs).ok()] *)
Definition from_utf8 (bs : bytes) : option rstr := if utf8_valid bs then Some bs else None.

(** [s.chars()] *)
Definition chars (s : rstr) : list Z := default [] (utf8_decode s).

Ltac split_ifs :=
  repeat match goal with
  | |- context [if (?a <? ?b) then _ else _] => destruct (Z.ltb_spec a b)
  | |- context [if (?a =? ?b) then _ else _] => destruct (Z.eqb_spec a b)
  | H : context [if (?a <? ?b) then _ else _] |- _ => destruct (Z.ltb_spec a b)
  | H : context [if (?a =? ?b) then _ else _] |- _ => destruct (Z.eqb_spec a b)
  end.

Lemma between_true lo b hi : between lo b hi = true ↔ lo ≤ b ≤ hi.
Proof. unfold between. rewrite andb_true_iff, !Z.leb_le. done. Qed.
Lemma between_false lo b hi : between lo b hi = false ↔ ¬ (lo ≤ b ≤ hi).
Proof. rewrite <- between_true. by destruct (between lo b hi). Qed.
Lemma between_spec lo b hi : reflect (lo ≤ b ≤ hi) (between lo b hi).
Proof. apply iff_reflect. by rewrite between_true. Qed.

Lemma encode_char_pos c : (0 < length (encode_char c))%nat.
Proof. unfold encode_char. split_ifs; simpl; lia. Qed.

Ltac solve_between :=
  repeat match goal with
  | |- context [between ?a ?b ?c] =>
      first [ rewrite (proj2 (between_true a b c)) by (Z.div_mod_to_equations; lia)
            | rewrite (proj2 (between_false a b c)) by (Z.div_mod_to_equations; lia) ]
  | |- context [?a =? ?b] =>
      destruct (Z.eqb_spec a b)
  end.

Lemma utf8_next_encode c rest :
  is_scalar c → utf8_next (encode_char c ++ rest) = Some (c, rest).
Proof.
  intros Hc. unfold encode_char, is_scalar in *.
  split_ifs; simpl; unfold utf8_next; solve_between; simpl;
    repeat f_equal; Z.div_mod_to_equations; lia.
Qed.

Lemma utf8_next_Some bs c rest :
  utf8_next bs = Some (c, rest) → is_scalar c ∧ bs = encode_char c ++ rest.
Proof.
  destruct bs as [|b0 t0]; [done|]. unfold utf8_next.
  destruct (between_spec 0 b0 0x7F) as [?|?].
  { intros [= -> ->]. split; [unfold is_scalar; lia|].
    unfold encode_char. by rewrite (proj2 (Z.ltb_lt _ _)) by lia. }
  destruct (between_spec 0xC2 b0 0xDF) as [?|?].
  { destruct t0 as [|b1 t1]; [done|].
    destruct (between_spec 0x80 b1 0xBF); [|done]. intros [= <- ->].
    split; [unfold is_scalar; lia|]. unfold encode_char. split_ifs; try lia.
    simpl. repeat f_equal; Z.div_mod_to_equations; lia. }
  destruct (between_spec 0xE0 b0 0xEF) as [?|?].
  { destruct t0 as [|b1 [|b2 t2]]; [done..|].
    destruct (between_spec (if b0 =? 0xE0 then 0xA0 else 0x80) b1
                           (if b0 =? 0xED then 0x9F else 0xBF)); [|done].
    destruct (between_spec 0x80 b2 0xBF); [|done]. intros [= <- ->].
    split_ifs; subst; (split; [unfold is_scalar; lia|]); unfold encode_char; split_ifs;
      try lia; simpl; repeat f_equal; Z.div_mod_to_equations; lia. }
  destruct (between_spec 0xF0 b0 0xF4) as [?|?]; [|done].
  destruct t0 as [|b1 [|b2 [|b3 t3]]]; [done..|].
  destruct (between_spec (if b0 =? 0xF0 then 0x90 else 0x80) b1
                         (if b0 =? 0xF4 then 0x8F else 0xBF)); [|done].
  destruct (between_spec 0x80 b2 0xBF); [|done].
  destruct (between_spec 0x80 b3 0xBF); [|done]. intros [= <- ->].
  split_ifs; subst; (split; [unfold is_scalar; lia|]); unfold encode_char; split_ifs;
    try lia; simpl; repeat f_equal; Z.div_mod_to_equations; lia.
Qed.

Lemma utf8_encode_cons c cs : utf8_encode (c :: cs) = encode_char c ++ utf8_encode cs.
Proof. reflexivity. Qed.

Lemma utf8_encode_app cs ds : utf8_encode (cs ++ ds) = utf8_encode cs ++ utf8_encode ds.
Proof. apply bind_app. Qed.

Lemma utf8_go_encode fuel cs :
  Forall is_scalar cs → (length (utf8_encode cs) ≤ fuel)%nat →
  utf8_go fuel (utf8_encode cs) = Some cs.
Proof.
  intros Hcs. revert fuel. induction Hcs as [|c cs Hc Hcs IH]; intros fuel Hf.
  - by destruct fuel.
  - rewrite utf8_encode_cons in *. pose proof (encode_char_pos c).
    rewrite length_app in Hf. destruct fuel as [|fuel]; [lia|].
    destruct (encode_char c ++ utf8_encode cs) as [|b t] eqn:E.
    { apply (f_equal length) in E. rewrite length_app in E. simpl in E. lia. }
    cbn [utf8_go]. rewrite <- E, utf8_next_encode by done. rewrite IH by lia. done.
Qed.

Lemma utf8_go_Some fuel bs cs :
  utf8_go fuel bs = Some cs → Forall is_scalar cs ∧ bs = utf8_encode cs.
Proof.
  revert bs cs. induction fuel as [|fuel IH]; intros [|b t] cs; cbn [utf8_go].
  1,3: by intros [= <-].
  1: done.
  destruct (utf8_next (b :: t)) as [[c rest]|] eqn:E; [|done].
  apply utf8_next_Some in E as [Hc ->].
  destruct (utf8_go fuel rest) as [cs'|] eqn:E'; [|done]. intros [= <-].
  apply IH in E' as [? ->]. split; [by constructor|done].
Qed.

(** Decoding and encoding are inverse, and decoding accepts exactly the
    encodings of scalar values. *)
Lemma utf8_decode_spec bs cs :
  utf8_decode bs = Some cs ↔ Forall is_scalar cs ∧ bs = utf8_encode cs.
Proof.
  split; [apply utf8_go_Some|]. intros [? ->]. by apply utf8_go_encode.
Qed.

Lemma utf8_valid_spec bs : utf8_valid bs = true ↔ valid_str bs.
Proof.
  unfold utf8_valid. rewrite bool_decide_eq_true. split.
  - intros [cs Hcs]. exists cs. by apply utf8_decode_spec.
  - intros [cs Hcs]. exists cs. by apply utf8_decode_spec.
Qed.

#[global] Instance valid_str_dec s : Decision (valid_str s).
Proof.
  refine (cast_if (decide (utf8_valid s = true))); by rewrite <- utf8_valid_spec.
Defined.

Lemma from_utf8_valid s : valid_str s → from_utf8 s = Some s.
Proof. intros H%utf8_valid_spec. unfold from_utf8. by rewrite H. Qed.

Lemma from_utf8_Some bs s : from_utf8 bs = Some s → s = bs ∧ valid_str s.
Proof.
  unfold from_utf8. case_match eqn:E; [|done]. intros [= <-].
  by apply utf8_valid_spec in E.
Qed.

Lemma chars_encode cs : Forall is_scalar cs → chars (utf8_encode cs) = cs.
Proof.
  intros. unfold chars.
  by rewrite (proj2 (utf8_decode_spec (utf8_encode cs) cs)).
Qed.

Lemma encode_chars s : valid_str s → utf8_encode (chars s) = s.
Proof. intros (cs & ? & ->). by rewrite chars_encode. Qed.

Lemma chars_scalar s : valid_str s → Forall is_scalar (chars s).
Proof. intros (cs & ? & ->). by rewrite chars_encode. Qed.

Lemma valid_str_app s t : valid_str s → valid_str t → valid_str (s ++ t).
Proof.
  intros (cs & ? & ->) (ds & ? & ->). exists (cs ++ ds).
  split; [by apply Forall_app|by rewrite utf8_encode_app].
Qed.

Lemma chars_app s t : valid_str s → valid_str t → chars (s ++ t) = chars s ++ chars t.
Proof.
  intros (cs & ? & ->) (ds & ? & ->). rewrite <- utf8_encode_app.
  rewrite !chars_encode; [done|done|done|by apply Forall_app].
Qed.

Lemma encode_char_bytes c : is_scalar c → bytes_ok (encode_char c).
Proof.
  unfold is_scalar, encode_char, bytes_ok, fits. intros Hc.
  split_ifs; repeat constructor; Z.div_mod_to_equations; lia.
Qed.

Lemma valid_str_bytes s : valid_str s → bytes_ok s.
Proof.
  intros (cs & Hcs & ->). induction Hcs as [|c cs Hc _ IH]; [constructor|].
  rewrite utf8_encode_cons. apply Forall_app; split; [by apply encode_char_bytes|done].
Qed.

(** * ASCII *)

Definition is_ascii_digit (c : Z) : bool := between 0x30 c 0x39.
Definition is_ascii_upper (c : Z) : bool := between 0x41 c 0x5A.
Definition is_ascii_lower (c : Z) : bool := between 0x61 c 0x7A.
Definition is_ascii_alphanumeric (c : Z) : bool :=
  is_ascii_digit c || is_ascii_upper c || is_ascii_lower c.

(** [u8::to_ascii_lowercase] and [char::to_ascii_lowercase] *)
Definition lower (c : Z) : Z := if is_ascii_upper c then c + 32 else c.

(** [str::to_ascii_lowercase] works byte by byte. *)
Definition to_ascii_lowercase (s : rstr) : rstr := lower <$> s.

(** The scalar values [char::is_whitespace] accepts. *)
Definition is_whitespace (c : Z) : bool :=
  between 0x09 c 0x0D || (c =? 0x20) || (c =? 0x85) || (c =? 0xA0) || (c =? 0x1680)
  || between 0x2000 c 0x200A || (c =? 0x2028) || (c =? 0x2029) || (c =? 0x202F)
  || (c =? 0x205F) || (c =? 0x3000).

Fixpoint drop_while {A} (p : A → bool) (l : list A) : list A :=
  match l with
  | [] => []
  | x :: l' => if p x then drop_while p l' else l
  end.

(** [str::trim] *)
Definition trim (s : rstr) : rstr :=
  utf8_encode (reverse (drop_while is_whitespace (reverse (drop_while is_whitespace (chars s))))).

(** [split] on a predicate: [n] separators give [n + 1] pieces. *)
Fixpoint split_list {A} (p : A → bool) (l : list A) : list (list A) :=
  match l with
  | [] => [[]]
  | x :: l =>
    if p x then [] :: split_list p l
    else match split_list p l with
         | [] => [[x]]
         | w :: ws => (x :: w) :: ws
         end
  end.

(** [s.split(p)] over characters. *)
Definition str_split (p : Z → bool) (s : rstr) : list rstr :=
  utf8_encode <$> split_list p (chars s).

(** [k] occurs as a contiguous run of [l]. *)
Fixpoint is_prefix_of (k l : list Z) : bool :=
  match k, l with
  | [], _ => true
  | x :: k, y :: l => (x =? y) && is_prefix_of k l
  | _, [] => false
  end.

Fixpoint contains (l k : list Z) : bool :=
  is_prefix_of k l || match l with [] => false | _ :: l => contains l k end.

(** [s.strip_suffix(t)] *)
Definition strip_suffix (s t : rstr) : option rstr :=
  if is_prefix_of (reverse t) (reverse s)
  then Some (take (length s - length t) s) else None.

(** ** Byte-level facts *)

Lemma is_prefix_of_spec k l : is_prefix_of k l = true ↔ ∃ r, l = k ++ r.
Proof.
  revert l. induction k as [|x k IH]; intros l; simpl.
  - split; [by exists l|done].
  - destruct l as [|y l]; [split; [done|by intros [? ?]]|].
    rewrite andb_true_iff, Z.eqb_eq, IH. split.
    + intros [-> [r ->]]. by exists r.
    + intros [r [= -> ->]]. eauto.
Qed.

Lemma contains_spec l k : contains l k = true ↔ ∃ a b, l = a ++ k ++ b.
Proof.
  revert k. induction l as [|x l IH]; intros k; simpl; rewrite orb_true_iff, is_prefix_of_spec.
  - split.
    + intros [[r Hr]|]; [|done]. by exists [], r.
    + intros (a & b & Hab). left. symmetry in Hab. apply app_eq_nil in Hab as [_ Hk].
      exists b. by rewrite Hk.
  - rewrite IH. split.
    + intros [[r ->]|(a & b & ->)]; [by exists [], r|by exists (x :: a), b].
    + intros ([|y a] & b & Hab); [left; by exists b|].
      right. injection Hab as -> ->. eauto.
Qed.

Lemma strip_suffix_Some s t r : strip_suffix s t = Some r ↔ s = r ++ t.
Proof.
  unfold strip_suffix. split.
  - case_match eqn:E; [|done]. intros [= <-].
    apply is_prefix_of_spec in E as [u Hu].
    apply (f_equal reverse) in Hu. rewrite reverse_involutive, reverse_app, reverse_involutive in Hu.
    subst s. rewrite length_app, Nat.add_sub, take_app_length. done.
  - intros ->. rewrite (proj2 (is_prefix_of_spec _ _)).
    + by rewrite length_app, Nat.add_sub, take_app_length.
    + rewrite reverse_app. eauto.
Qed.

Lemma lower_idemp c : lower (lower c) = lower c.
Proof.
  unfold lower, is_ascii_upper. destruct (between_spec 0x41 c 0x5A).
  2: by rewrite (proj2 (between_false _ _ _)).
  by rewrite (proj2 (between_false _ _ _)) by lia.
Qed.

Lemma lower_alnum c : is_ascii_alphanumeric (lower c) = is_ascii_alphanumeric c.
Proof.
  unfold is_ascii_alphanumeric, lower, is_ascii_digit, is_ascii_upper, is_ascii_lower.
  destruct (between_spec 0x41 c 0x5A).
  2: by rewrite (proj2 (between_false 0x41 c 0x5A)).
  rewrite (proj2 (between_false 0x30 (c+32) 0x39)), (proj2 (between_false 0x41 (c+32) 0x5A)) by lia.
  rewrite (proj2 (between_true 0x61 (c+32) 0x7A)) by lia.
  by destruct (between 0x30 c 0x39).
Qed.

Lemma lower_small c : lower c < 0x80 ↔ c < 0x80.
Proof. unfold lower, is_ascii_upper. destruct (between_spec 0x41 c 0x5A); lia. Qed.

Lemma alnum_ascii c : is_ascii_alphanumeric c = true → 0 ≤ c < 0x80.
Proof.
  unfold is_ascii_alphanumeric, is_ascii_digit, is_ascii_upper, is_ascii_lower.
  rewrite !orb_true_iff, !between_true. lia.
Qed.

Lemma utf8_encode_ascii cs : Forall (λ c, 0 ≤ c < 0x80) cs → utf8_encode cs = cs.
Proof.
  induction 1 as [|c cs Hc _ IH]; [done|]. rewrite utf8_encode_cons, IH.
  unfold encode_char. by rewrite (proj2 (Z.ltb_lt _ _)) by lia.
Qed.

Lemma ascii_valid cs : Forall (λ c, 0 ≤ c < 0x80) cs → valid_str cs.
Proof.
  intros H. exists cs. rewrite utf8_encode_ascii by done. split; [|done].
  eapply Forall_impl; [exact H|]. unfold is_scalar. intros; simpl in *; lia.
Qed.

Lemma chars_ascii cs : Forall (λ c, 0 ≤ c < 0x80) cs → chars cs = cs.
Proof.
  intros H. rewrite <- (utf8_encode_ascii cs H) at 1. apply chars_encode.
  eapply Forall_impl; [exact H|]. unfold is_scalar. intros; simpl in *; lia.
Qed.

(** ** The order of strings: byte-lexicographic *)

Fixpoint lex_cmp (a b : bytes) : comparison :=
  match a, b with
  | [], [] => Eq
  | [], _ => Lt
  | _, [] => Gt
  | x :: a, y :: b => match x ?= y with Eq => lex_cmp a b | c => c end
  end.

Definition lex_lt (a b : bytes) : Prop := lex_cmp a b = Lt.
(** [a <= b] on strings *)
Definition lex_leb (a b : bytes) : bool := match lex_cmp a b with Gt => false | _ => true end.

Lemma lex_cmp_eq a b : lex_cmp a b = Eq ↔ a = b.
Proof.
  revert b. induction a as [|x a IH]; intros [|y b]; simpl; try done.
  destruct (Z.compare_spec x y) as [->|?|?].
  - rewrite IH. naive_solver.
  - split; [done|]. intros [= ? ?]. lia.
  - split; [done|]. intros [= ? ?]. lia.
Qed.

Lemma lex_cmp_refl a : lex_cmp a a = Eq.
Proof. by apply lex_cmp_eq. Qed.

Lemma lex_cmp_antisym a b : lex_cmp b a = CompOpp (lex_cmp a b).
Proof.
  revert b. induction a as [|x a IH]; intros [|y b]; simpl; try done.
  rewrite (Z.compare_antisym x y). destruct (x ?= y); simpl; auto.
Qed.

Lemma lex_lt_trans a b c : lex_lt a b → lex_lt b c → lex_lt a c.
Proof.
  unfold lex_lt. revert b c. induction a as [|x a IH]; intros [|y b] [|z c]; simpl; try done.
  destruct (Z.compare_spec x y), (Z.compare_spec y z); try done; intros; subst.
  - rewrite Z.compare_refl. eauto.
  - by rewrite (proj2 (Z.compare_lt_iff _ _)).
  - by rewrite (proj2 (Z.compare_lt_iff _ _)).
  - by rewrite (proj2 (Z.compare_lt_iff _ _)) by lia.
Qed.

Lemma lex_lt_irrefl a : ¬ lex_lt a a.
Proof. unfold lex_lt. by rewrite lex_cmp_refl. Qed.

#[global] Instance lex_lt_strict : StrictOrder lex_lt.
Proof. split; [intros ?; apply lex_lt_irrefl|intros ???; apply lex_lt_trans]. Qed.

#[global] Instance lex_lt_dec a b : Decision (lex_lt a b).
Proof. unfold lex_lt. apply _. Defined.

Lemma lex_cmp_gt a b : lex_cmp a b = Gt ↔ lex_lt b a.
Proof. unfold lex_lt. rewrite (lex_cmp_antisym a b). destruct (lex_cmp a b); naive_solver. Qed.

Lemma lex_leb_false a b : lex_leb a b = false ↔ lex_lt b a.
Proof. unfold lex_leb. rewrite <- lex_cmp_gt. by destruct (lex_cmp a b). Qed.

(** [a <= b], the order [sort] sorts by. *)
Definition lex_le (a b : bytes) : Prop := lex_leb a b = true.

#[global] Instance lex_le_dec : RelDecision lex_le.
Proof. unfold RelDecision, lex_le. apply _. Defined.

Lemma lex_le_lt_eq a b : lex_le a b ↔ lex_lt a b ∨ a = b.
Proof.
  unfold lex_le, lex_leb, lex_lt. rewrite <- lex_cmp_eq. destruct (lex_cmp a b); naive_solver.
Qed.

#[global] Instance lex_le_preorder : PreOrder lex_le.
Proof.
  split.
  - intros a. apply lex_le_lt_eq. by right.
  - intros a b c. rewrite !lex_le_lt_eq. intros [?| ->]; [|done]. intros [?| <-]; [|by left].
    left. by etransitivity.
Qed.

#[global] Instance lex_le_total : Total lex_le.
Proof.
  intros a b. rewrite !lex_le_lt_eq. destruct (lex_cmp a b) eqn:E.
  - apply lex_cmp_eq in E. auto.
  - auto.
  - apply lex_cmp_gt in E. auto.
Qed.

(** ** Lower-casing and substrings respect character boundaries *)

Lemma encode_char_lower c : is_scalar c → lower <$> encode_char c = encode_char (lower c).
Proof.
  intros Hc. assert (lower c = c ∨ c < 0x80 ∧ lower c < 0x80) as Hl.
  { destruct (Z.lt_ge_cases c 0x80); [right; split; [done|by apply lower_small]|left].
    unfold lower, is_ascii_upper. by rewrite (proj2 (between_false _ _ _)) by lia. }
  assert (∀ b, 0x80 ≤ b → lower b = b) as Hhi.
  { intros b Hb. unfold lower, is_ascii_upper. by rewrite (proj2 (between_false _ _ _)) by lia. }
  destruct (Z.lt_ge_cases c 0x80) as [Hlt|Hge].
  - assert (lower c < 0x80) by (by apply lower_small). unfold encode_char.
    by rewrite !(proj2 (Z.ltb_lt _ 0x80)) by lia.
  - rewrite Hhi by done. assert (Forall (λ b, 0x80 ≤ b) (encode_char c)) as Hall.
    { unfold encode_char, is_scalar in *. split_ifs; repeat constructor; Z.div_mod_to_equations; lia. }
    clear -Hall Hhi. induction Hall as [|b l Hb _ IH]; [done|].
    rewrite fmap_cons, IH. by rewrite Hhi.
Qed.

Lemma lower_scalar c : is_scalar c → is_scalar (lower c).
Proof.
  unfold is_scalar, lower, is_ascii_upper. destruct (between_spec 0x41 c 0x5A); lia.
Qed.

Lemma to_ascii_lowercase_encode cs :
  Forall is_scalar cs → to_ascii_lowercase (utf8_encode cs) = utf8_encode (lower <$> cs).
Proof.
  unfold to_ascii_lowercase. induction 1 as [|c cs Hc _ IH]; [done|].
  by rewrite fmap_cons, !utf8_encode_cons, fmap_app, IH, encode_char_lower.
Qed.

Lemma Forall_lower_scalar cs : Forall is_scalar cs → Forall is_scalar (lower <$> cs).
Proof. intros. apply Forall_fmap. eapply Forall_impl; [done|]. apply lower_scalar. Qed.

Lemma to_ascii_lowercase_valid s : valid_str s → valid_str (to_ascii_lowercase s).
Proof.
  intros (cs & Hcs & ->). rewrite to_ascii_lowercase_encode by done.
  exists (lower <$> cs). split; [by apply Forall_lower_scalar|done].
Qed.

Lemma chars_lowercase s : valid_str s → chars (to_ascii_lowercase s) = lower <$> chars s.
Proof.
  intros (cs & Hcs & ->). rewrite to_ascii_lowercase_encode, !chars_encode; [done|done| |done].
  by apply Forall_lower_scalar.
Qed.

Lemma utf8_encode_inj_prefix cs ds r :
  Forall is_scalar cs → Forall is_scalar ds →
  utf8_encode cs = utf8_encode ds ++ r → ∃ es, cs = ds ++ es ∧ r = utf8_encode es.
Proof.
  intros Hcs Hds. revert cs Hcs. induction Hds as [|d ds Hd _ IH]; intros cs Hcs E.
  { exists cs. done. }
  rewrite utf8_encode_cons, <- app_assoc in E.
  destruct Hcs as [|c cs Hc Hcs].
  { pose proof (encode_char_pos d). apply (f_equal length) in E.
    rewrite !length_app in E. simpl in E. lia. }
  rewrite utf8_encode_cons in E. apply (f_equal utf8_next) in E.
  rewrite !utf8_next_encode in E by done. injection E as -> E.
  apply IH in E as (es & -> & ->); [|done]. by exists es.
Qed.

(** The first byte of a character is never a continuation byte; the others
    always are. *)
Definition is_cont (b : Z) : bool := between 0x80 b 0xBF.

Lemma encode_char_lead c :
  is_scalar c → ∃ b t, encode_char c = b :: t ∧ is_cont b = false ∧ Forall (λ x, is_cont x = true) t.
Proof.
  intros Hc. unfold encode_char, is_cont, is_scalar in *.
  split_ifs; eexists _, _; (split; [reflexivity|]); (split;
    [apply between_false|repeat constructor; apply between_true]); Z.div_mod_to_equations; lia.
Qed.

Lemma boundary_prefix cs a q :
  Forall is_scalar cs → utf8_encode cs = a ++ q → (∀ b t, q = b :: t → is_cont b = false) →
  valid_str a.
Proof.
  intros Hcs. revert a. induction Hcs as [|c cs Hc Hcs IH]; intros a E Hq.
  - exists []. split; [constructor|]. simpl in E. symmetry in E. by apply app_eq_nil in E as [-> _].
  - destruct a as [|x a]; [by exists []|].
    destruct (encode_char_lead c Hc) as (b & t & Ec & _ & Ht).
    rewrite utf8_encode_cons, Ec in E. simpl in E. injection E as -> E.
    destruct (app_eq_inv t (utf8_encode cs) a q E) as [(k & -> & Ek)|(k & -> & Ek)].
    + destruct k as [|y k].
      * exists [c]. split; [by constructor|].
        rewrite utf8_encode_cons, Ec. simpl. by rewrite !app_nil_r.
      * exfalso. apply Forall_app in Ht as [_ Ht]. inversion_clear Ht as [|?? Hy _].
        simpl in Ek. specialize (Hq y (k ++ utf8_encode cs) Ek). congruence.
    + destruct (IH k Ek Hq) as (ds & Hds & ->). exists (c :: ds).
      split; [by constructor|]. by rewrite utf8_encode_cons, Ec.
Qed.

(** A valid non-empty substring splits a valid string at character
    boundaries. *)
Lemma substring_valid a q b :
  valid_str (a ++ q ++ b) → valid_str q → q ≠ [] → valid_str a ∧ valid_str b.
Proof.
  intros (cs & Hcs & E) (ds & Hds & Eq) Hne.
  assert (valid_str a) as (es & Hes & Ea).
  { eapply boundary_prefix; [exact Hcs|symmetry; exact E|]. intros x t Hx.
    destruct Hds as [|d ds Hd Hds]; [by subst|].
    destruct (encode_char_lead d Hd) as (b0 & t0 & Ed & Hb0 & _).
    rewrite utf8_encode_cons, Ed in Eq. subst q. simpl in Hx. injection Hx as -> _. done. }
  split; [by exists es|].
  subst a q. rewrite app_assoc, <- utf8_encode_app in E. symmetry in E.
  apply utf8_encode_inj_prefix in E as (fs & -> & ->); [|done|by apply Forall_app].
  exists fs. split; [by apply Forall_app in Hcs as [_ ?]|done].
Qed.

Lemma drop_while_none {A} (p : A → bool) l : Forall (λ x, p x = false) l → drop_while p l = l.
Proof. destruct 1 as [|x l Hx _]; simpl; [done|]. by rewrite Hx. Qed.

Lemma trim_id s : Forall (λ c, 0 ≤ c < 0x80 ∧ is_whitespace c = false) s → trim s = s.
Proof.
  intros [Ha Hw]%Forall_and.
  unfold trim. rewrite chars_ascii by done. rewrite (drop_while_none _ s) by done.
  rewrite drop_while_none by (by apply Forall_reverse).
  rewrite reverse_involutive. by apply utf8_encode_ascii.
Qed.

(** ** Pieces of a split *)

Lemma split_list_head {A} (p : A → bool) l w ws :
  split_list p l = w :: ws → ∃ b, l = w ++ b ∧ Forall (λ x, p x = false) w.
Proof.
  revert w ws. induction l as [|x l IH]; intros w ws; simpl.
  - intros [= <- <-]. by exists [].
  - destruct (p x) eqn:Hp; [intros [= <- <-]; by exists (x :: l)|].
    destruct (split_list p l) as [|w0 ws0] eqn:E; intros [= <- <-].
    + exists l. by repeat constructor.
    + destruct (IH w0 ws0 eq_refl) as (b & -> & Hall). exists b. by repeat constructor.
Qed.

Lemma split_list_app_run {A} (p : A → bool) n b :
  n ≠ [] → Forall (λ x, p x = false) n → ∃ y ws, split_list p (n ++ b) = (n ++ y) :: ws.
Proof.
  intros Hne H. induction H as [|x n Hx Hn IH]; [done|]. simpl. rewrite Hx.
  destruct (decide (n = [])) as [->|Hn0].
  - simpl. destruct (split_list p b) as [|w ws]; [by exists [], []|by exists w, ws].
  - destruct (IH Hn0) as (y & ws & ->). by exists y, ws.
Qed.

Lemma split_list_pieces {A} (p : A → bool) l w :
  w ∈ split_list p l → ∃ a b, l = a ++ w ++ b ∧ Forall (λ x, p x = false) w.
Proof.
  revert w. induction l as [|x l IH]; intros w; simpl.
  - intros ->%list_elem_of_singleton. by exists [], [].
  - destruct (p x) eqn:Hp.
    + intros [->|Hw]%elem_of_cons; [by exists [], (x :: l)|].
      destruct (IH w Hw) as (a & b & -> & Hall). by exists (x :: a), b.
    + destruct (split_list p l) as [|w0 ws] eqn:E; [by destruct l; simpl in E; repeat case_match|].
      intros [->|Hw]%elem_of_cons.
      * destruct (split_list_head p l w0 ws E) as (b & -> & Hall).
        exists [], b. by repeat constructor.
      * destruct (IH w) as (a & b & -> & Hall); [set_solver|]. by exists (x :: a), b.
Qed.

(** A run with no separator in it lies inside one piece. *)
Lemma split_list_run {A} (p : A → bool) a n b :
  n ≠ [] → Forall (λ x, p x = false) n →
  ∃ w x y, w ∈ split_list p (a ++ n ++ b) ∧ w = x ++ n ++ y.
Proof.
  intros Hne Hall. induction a as [|c a IH]; simpl.
  - destruct (split_list_app_run p n b Hne Hall) as (y & ws & E).
    exists (n ++ y), [], y. rewrite E. split; [left|done].
  - destruct IH as (w & x & y & Hw & Hxy). destruct (p c).
    + exists w, x, y. split; [by right|done].
    + destruct (split_list p (a ++ n ++ b)) as [|w0 ws] eqn:E; [set_solver|].
      apply elem_of_cons in Hw as [->|Hw].
      * exists (c :: w0), (c :: x), y. split; [left|]. by rewrite Hxy.
      * exists w, x, y. split; [by right|done].
Qed.

Lemma drop_while_suffix {A} (p : A → bool) l : ∃ a, l = a ++ drop_while p l.
Proof.
  induction l as [|x l [a IH]]; simpl; [by exists []|].
  destruct (p x); [|by exists []]. exists (x :: a). simpl. by rewrite <- IH.
Qed.

Lemma trim_valid s : valid_str s → valid_str (trim s).
Proof.
  intros Hs%chars_scalar. unfold trim. eexists. split; [|reflexivity].
  destruct (drop_while_suffix is_whitespace (chars s)) as [a Ha]. set (l := drop_while _ _) in *.
  rewrite Ha in Hs. apply Forall_app in Hs as [_ Hs].
  destruct (drop_while_suffix is_whitespace (reverse l)) as [b Hb].
  apply Forall_reverse. apply Forall_reverse in Hs. rewrite Hb in Hs. by apply Forall_app in Hs as [_ ?].
Qed.
