(* ===== verification/Hex.v ===== *)
(** Lower-case hexadecimal text, the form in which binary blobs travel in the
    UTF-8-only key-value metadata of a Parquet footer ([to_hex] and [from_hex] of
    loglake-bloom and loglake-index, which write the same loop). *)

From stdpp Require Import prelude strings.
From Stdlib Require Import ZArith Lia.
From S2P Require Import Prelude RustStr.

Definition HEX : bytes := lit "0123456789abcdef".
Definition hex_digit (n : Z) : Z := default 0 (HEX !! Z.to_nat n).

Definition hex_encode (bs : bytes) : rstr :=
  mbind (λ b, [hex_digit (Z.shiftr b 4); hex_digit (Z.land b 0x0F)]) bs.

Definition nibble (c : Z) : option Z :=
  if between 0x30 c 0x39 then Some (c - 0x30)
  else if between 0x61 c 0x66 then Some (c - 0x61 + 10)
  else if between 0x41 c 0x46 then Some (c - 0x41 + 10)
  else None.

(** The pairs of an even-length string; a lone last byte is not reached. *)
Fixpoint hex_pairs (s : rstr) : option bytes :=
  match s with
  | c0 :: c1 :: s =>
    hi ← nibble c0; lo ← nibble c1;
    rest ← hex_pairs s;
    Some (Z.lor (wrap 8 (Z.shiftl hi 4)) lo :: rest)
  | _ => Some []
  end.

Definition hex_decode (s : rstr) : option bytes :=
  if len s mod 2 =? 0 then hex_pairs s else None.

Lemma nibble_hex n : 0 ≤ n < 16 → nibble (hex_digit n) = Some n.
Proof.
  intros Hn. assert (n ∈ seqZ 0 16) as Hin by (apply elem_of_seqZ; lia).
  revert n Hin Hn. rewrite <- (Forall_forall (λ n, 0 ≤ n < 16 → nibble (hex_digit n) = Some n)).
  repeat (constructor; [reflexivity|]). constructor.
Qed.

Lemma nibbles_join b : is_byte b → Z.lor (wrap 8 (Z.shiftl (Z.shiftr b 4) 4)) (Z.land b 0x0F) = b.
Proof.
  intros Hb. unfold fits in Hb. rewrite wrap_small.
  - apply Z.bits_inj'. intros n Hn.
    rewrite Z.lor_spec, Z.shiftl_spec, Z.land_spec by lia.
    change 0x0F with (Z.ones 4). rewrite Z.testbit_ones_nonneg by lia.
    destruct (Z.ltb_spec n 4).
    + rewrite Z.testbit_neg_r by lia. by rewrite andb_true_r.
    + rewrite Z.shiftr_spec by lia. rewrite andb_false_r, orb_false_r. f_equal. lia.
  - unfold fits. rewrite Z.shiftl_mul_pow2, Z.shiftr_div_pow2 by lia.
    Z.div_mod_to_equations. lia.
Qed.

Lemma hex_encode_cons b bs :
  hex_encode (b :: bs) = hex_digit (Z.shiftr b 4) :: hex_digit (Z.land b 0x0F) :: hex_encode bs.
Proof. reflexivity. Qed.

Lemma byte_nibbles b : is_byte b → 0 ≤ Z.shiftr b 4 < 16 ∧ 0 ≤ Z.land b 0x0F < 16.
Proof.
  intros Hb. unfold fits in Hb. change 0x0F with (Z.ones 4).
  rewrite Z.shiftr_div_pow2, Z.land_ones by lia. Z.div_mod_to_equations. lia.
Qed.

Lemma hex_pairs_encode bs : bytes_ok bs → hex_pairs (hex_encode bs) = Some bs.
Proof.
  induction 1 as [|b bs Hb _ IH]; [done|]. rewrite hex_encode_cons. cbn [hex_pairs].
  pose proof (byte_nibbles b Hb) as [??].
  rewrite !nibble_hex by done. simpl. rewrite IH. simpl. by rewrite nibbles_join.
Qed.

Lemma len_hex_encode bs : len (hex_encode bs) = 2 * len bs.
Proof.
  induction bs as [|b bs IH]; [done|]. rewrite hex_encode_cons, !len_cons. lia.
Qed.

Lemma hex_decode_encode bs : bytes_ok bs → hex_decode (hex_encode bs) = Some bs.
Proof.
  intros. unfold hex_decode. rewrite len_hex_encode, Z.mul_comm, Z.mod_mul by lia. simpl.
  by apply hex_pairs_encode.
Qed.

Lemma hex_alphanumeric bs :
  bytes_ok bs → Forall (λ c, is_ascii_alphanumeric c = true) (hex_encode bs).
Proof.
  assert (∀ n, 0 ≤ n < 16 → is_ascii_alphanumeric (hex_digit n) = true) as Hd.
  { intros n Hn. assert (n ∈ seqZ 0 16) as Hin by (apply elem_of_seqZ; lia).
    revert n Hin Hn.
    rewrite <- (Forall_forall (λ n, 0 ≤ n < 16 → is_ascii_alphanumeric (hex_digit n) = true)).
    repeat (constructor; [reflexivity|]). constructor. }
  induction 1 as [|b bs Hb _ IH]; [constructor|]. rewrite hex_encode_cons.
  apply byte_nibbles in Hb as [??]. repeat (constructor; [by apply Hd|]). done.
Qed.
