(* ===== verification/BTree.v ===== *)
(** [BTreeMap<String, V>] as an association list in strictly ascending key
    order, the order its iterator yields.  [insert] keeps the order and replaces
    the value of a key that is present, as [BTreeMap::insert] does. *)

From stdpp Require Import prelude sorting.
From Stdlib Require Import ZArith Lia.
From S2P Require Import Prelude RustStr.

Abbreviation btree V := (list (rstr * V)).

Section BTree.
Context {V : Type}.
Implicit Types (m : btree V) (k : rstr) (v : V).

Fixpoint bt_insert (k : rstr) (v : V) (m : btree V) : btree V :=
  match m with
  | [] => [(k, v)]
  | (k', v') :: m' =>
    match lex_cmp k k' with
    | Lt => (k, v) :: m
    | Eq => (k, v) :: m'
    | Gt => (k', v') :: bt_insert k v m'
    end
  end.

Fixpoint bt_get (k : rstr) (m : btree V) : option V :=
  match m with
  | [] => None
  | (k', v) :: m => match lex_cmp k k' with Eq => Some v | _ => bt_get k m end
  end.

(** [map.last_key_value()] *)
Definition bt_last (m : btree V) : option (rstr * V) := last m.

Definition bt_wf (m : btree V) : Prop := StronglySorted lex_lt m.*1.

#[global] Instance bt_wf_dec m : Decision (bt_wf m).
Proof. unfold bt_wf. apply _. Defined.

Lemma bt_wf_nil : bt_wf [].
Proof. constructor. Qed.

Lemma bt_wf_cons k v m : bt_wf ((k, v) :: m) ↔ Forall (lex_lt k) m.*1 ∧ bt_wf m.
Proof.
  unfold bt_wf. rewrite fmap_cons. simpl. split.
  - by inversion 1.
  - intros [??]. by constructor.
Qed.

Lemma bt_insert_keys k v m x : x ∈ (bt_insert k v m).*1 ↔ x = k ∨ x ∈ m.*1.
Proof.
  induction m as [|[k' v'] m IH]; simpl.
  - rewrite list_elem_of_singleton. set_solver.
  - destruct (lex_cmp k k') eqn:E; rewrite ?fmap_cons, ?elem_of_cons; simpl; try set_solver.
    apply lex_cmp_eq in E as ->. set_solver.
Qed.

Lemma bt_insert_wf k v m : bt_wf m → bt_wf (bt_insert k v m).
Proof.
  induction m as [|[k' v'] m IH]; simpl.
  - intros _. apply bt_wf_cons. split; [constructor|apply bt_wf_nil].
  - rewrite bt_wf_cons. intros [Hk Hm]. destruct (lex_cmp k k') eqn:E.
    + apply lex_cmp_eq in E as ->. by apply bt_wf_cons.
    + apply bt_wf_cons. split; [|by apply bt_wf_cons].
      rewrite fmap_cons. constructor; [exact E|].
      eapply Forall_impl; [exact Hk|]. simpl. intros. by eapply lex_lt_trans.
    + apply bt_wf_cons. split; [|by apply IH].
      rewrite Forall_forall in *. intros x [->|Hx]%bt_insert_keys; [by apply lex_cmp_gt|eauto].
Qed.

Lemma bt_get_insert k v m : bt_get k (bt_insert k v m) = Some v.
Proof.
  induction m as [|[k' v'] m IH]; simpl.
  - by rewrite lex_cmp_refl.
  - destruct (lex_cmp k k') eqn:E; simpl; rewrite ?lex_cmp_refl, ?E; auto.
Qed.

Lemma bt_get_insert_ne j k v m : j ≠ k → bt_get j (bt_insert k v m) = bt_get j m.
Proof.
  intros Hne. assert (lex_cmp j k ≠ Eq) as Hjk by (by rewrite lex_cmp_eq).
  induction m as [|[k' v'] m IH]; simpl.
  - by destruct (lex_cmp j k).
  - destruct (lex_cmp k k') eqn:E; simpl.
    + apply lex_cmp_eq in E as ->. by destruct (lex_cmp j k').
    + by destruct (lex_cmp j k).
    + by rewrite IH.
Qed.

Lemma bt_get_Some_elem k v m : bt_get k m = Some v → (k, v) ∈ m.
Proof.
  induction m as [|[k' v'] m IH]; simpl; [done|].
  destruct (lex_cmp k k') eqn:E; intros H; [|set_solver..].
  apply lex_cmp_eq in E as ->. injection H as ->. set_solver.
Qed.

Lemma bt_get_elem k v m : bt_wf m → (k, v) ∈ m → bt_get k m = Some v.
Proof.
  induction m as [|[k' v'] m IH]; simpl; [set_solver|].
  rewrite bt_wf_cons, elem_of_cons. intros [Hk Hm] [[= -> ->]|Hin].
  - by rewrite lex_cmp_refl.
  - assert (lex_lt k' k) as Hlt.
    { rewrite Forall_forall in Hk. apply Hk. apply list_elem_of_fmap. by exists (k, v). }
    destruct (lex_cmp k k') eqn:E; [|eauto..].
    apply lex_cmp_eq in E as ->. by apply lex_lt_irrefl in Hlt.
Qed.

Lemma bt_get_iff k v m : bt_wf m → bt_get k m = Some v ↔ (k, v) ∈ m.
Proof. split; [apply bt_get_Some_elem|by apply bt_get_elem]. Qed.

Lemma bt_get_None k m : bt_get k m = None → k ∉ m.*1.
Proof.
  induction m as [|[k' v'] m IH]; simpl; [set_solver|].
  destruct (lex_cmp k k') eqn:E; rewrite not_elem_of_cons; simpl; try done;
    intros H; split; try (by apply IH); intros ->; by rewrite lex_cmp_refl in E.
Qed.

(** Inserting a key above every key present appends it: a decoder that reads
    an encoded map back rebuilds it entry by entry. *)
Lemma bt_insert_last k v m :
  Forall (λ x, lex_lt x k) m.*1 → bt_insert k v m = m ++ [(k, v)].
Proof.
  induction m as [|[k' v'] m IH]; simpl; [done|].
  inversion 1 as [|?? Hlt Hm]; subst. apply lex_cmp_gt in Hlt. rewrite Hlt. by rewrite IH.
Qed.

Lemma bt_insert_Forall (Q : rstr * V → Prop) k v m :
  Q (k, v) → Forall Q m → Forall Q (bt_insert k v m).
Proof.
  intros Hkv. induction 1 as [|[k' v'] m Hx Hm IH]; simpl; [by repeat constructor|].
  destruct (lex_cmp k k'); repeat constructor; done.
Qed.

Lemma bt_wf_app m m' :
  bt_wf (m ++ m') ↔ bt_wf m ∧ bt_wf m' ∧ ∀ x y, x ∈ m.*1 → y ∈ m'.*1 → lex_lt x y.
Proof.
  induction m as [|[k v] m IH]; simpl.
  - split; [|tauto]. intros H. split_and!; [apply bt_wf_nil|done|set_solver].
  - rewrite !bt_wf_cons, IH, fmap_app, Forall_app, !Forall_forall. set_solver.
Qed.

Lemma bt_last_lt k v m x y :
  bt_wf m → bt_last m = Some (x, y) → lex_lt x k → bt_insert k v m = m ++ [(k, v)].
Proof.
  intros Hwf [l ->]%last_Some Hlt. apply bt_insert_last.
  apply bt_wf_app in Hwf as (_ & _ & Hl). rewrite fmap_app, Forall_app. split.
  - rewrite Forall_forall. intros z Hz. eapply lex_lt_trans; [|exact Hlt].
    apply Hl; [done|]. set_solver.
  - by constructor.
Qed.

(** [for (k, v) in l { map.insert(k, v) }] *)
Definition bt_of_list (l : list (rstr * V)) (m : btree V) : btree V :=
  foldl (λ m kv, bt_insert kv.1 kv.2 m) m l.

Lemma bt_of_list_wf l m : bt_wf m → bt_wf (bt_of_list l m).
Proof. revert m. induction l; simpl; auto using bt_insert_wf. Qed.

Lemma bt_of_list_sorted l m : bt_wf (m ++ l) → bt_of_list l m = m ++ l.
Proof.
  revert m. induction l as [|[k v] l IH]; intros m; simpl.
  - by rewrite app_nil_r.
  - intros Hwf. rewrite bt_insert_last.
    + rewrite IH; by rewrite <- app_assoc.
    + apply bt_wf_app in Hwf as (_ & _ & H). apply Forall_forall. intros x Hx.
      apply H; [done|]. set_solver.
Qed.
Lemma bt_filter_wf (P : rstr * V → Prop) `{!∀ x, Decision (P x)} m : bt_wf m → bt_wf (filter P m).
Proof.
  induction m as [|[k v] m IH]; [done|]. rewrite bt_wf_cons. intros [Hk Hwf].
  rewrite filter_cons. case_decide; [|by apply IH]. apply bt_wf_cons. split; [|by apply IH].
  rewrite Forall_forall in *. intros x (kv & -> & [_ ?]%list_elem_of_filter)%list_elem_of_fmap.
  apply Hk. apply list_elem_of_fmap. eauto.
Qed.

(** [map.retain(P)] *)
Lemma bt_get_filter (P : rstr * V → Prop) `{!∀ x, Decision (P x)} k m :
  bt_wf m → bt_get k (filter P m) = v ← bt_get k m; if decide (P (k, v)) then Some v else None.
Proof.
  intros Hwf. apply option_eq. intros v.
  rewrite bt_get_iff, list_elem_of_filter by (by apply bt_filter_wf). rewrite <- (bt_get_iff k v m) by done.
  destruct (bt_get k m) as [u|]; simpl; [|naive_solver]. case_decide; naive_solver.
Qed.
End BTree.
