(* ===== verification/Cursor.v ===== *)
(** Forward byte cursors.

    Three decoders of the sources walk a byte slice with the same private
    struct, [struct Cursor { buf, pos }] ([loglake-bloom/src/group_counts.rs],
    [loglake-index/src/lib.rs]) and [struct Reader] ([segmented.rs]).  The file
    models that struct, its [take]/[u8]/[remaining] operations as a small
    state-and-failure monad, the LEB128 writers and readers, and the
    specification [reads m bs a] ("at any position where the bytes [bs] come
    next, [m] consumes exactly them and returns [a]") in which the round-trip
    theorems of the codecs are composed. *)

From stdpp Require Import prelude.
From Stdlib Require Import ZArith Lia.
From S2P Require Import Prelude.

Record cursor := Cur { buf : bytes; pos : Z }.

Definition P (A : Type) : Type := cursor → option (A * cursor).

Definition p_ret {A} (a : A) : P A := λ c, Some (a, c).
Definition p_fail {A} : P A := λ _, None.
Definition p_bind {A B} (m : P A) (f : A → P B) : P B :=
  λ c, match m c with Some (a, c') => f a c' | None => None end.

(** [let x = m?; k] *)
Notation "'let*' x := m 'in' k" := (p_bind m (λ x, k))
  (at level 10, x pattern, m at level 100, k at level 200) : loglake_scope.

(** [o?] on an option inside a cursor operation. *)
Definition p_opt {A} (o : option A) : P A :=
  match o with Some a => p_ret a | None => p_fail end.

(** [if !b { return None; }] *)
Definition p_guard (b : bool) : P unit := if b then p_ret tt else p_fail.

(** [for _ in 0..n { out.push(m?) }] *)
Fixpoint p_times {A} (n : nat) (m : P A) : P (list A) :=
  match n with
  | O => p_ret []
  | S n => let* x := m in let* xs := p_times n m in p_ret (x :: xs)
  end.

(** ** Operations of the struct *)

Definition p_take (n : Z) : P bytes := λ c,
  match checked_add 64 (pos c) n with
  | None => None
  | Some e =>
    match get_range (buf c) (pos c) e with
    | None => None
    | Some slice => Some (slice, Cur (buf c) e)
    end
  end.

Definition p_u8 : P Z := λ c,
  match p_take 1 c with
  | Some (b :: _, c') => Some (b, c')
  | _ => None
  end.

(** [self.buf.len().saturating_sub(self.pos)] *)
Definition remaining (c : cursor) : Z := saturating_sub (len (buf c)) (pos c).
Definition p_remaining : P Z := λ c, Some (remaining c, c).

(** ** The reading specification *)

(** Every buffer a 64-bit process can hold is below [2^64] bytes, so the
    position never overflows. *)
Definition reads {A} (m : P A) (bs : bytes) (a : A) : Prop :=
  ∀ pre post, len (pre ++ bs ++ post) < 2 ^ 64 →
    m (Cur (pre ++ bs ++ post) (len pre))
    = Some (a, Cur (pre ++ bs ++ post) (len pre + len bs)).

Create HintDb reads discriminated.

Lemma reads_ret {A} (a : A) : reads (p_ret a) [] a.
Proof. intros pre post _. unfold p_ret. simpl. by rewrite len_nil, Z.add_0_r. Qed.

Lemma reads_bind {A B} (m : P A) (f : A → P B) bs1 bs2 a b :
  reads m bs1 a → reads (f a) bs2 b → reads (p_bind m f) (bs1 ++ bs2) b.
Proof.
  intros Hm Hf pre post Hlen. unfold p_bind.
  rewrite <- app_assoc in Hlen |- *. rewrite (Hm pre (bs2 ++ post) Hlen).
  rewrite app_assoc in Hlen |- *. rewrite <- len_app.
  rewrite (Hf (pre ++ bs1) post Hlen). do 3 f_equal. rewrite !len_app. lia.
Qed.

Lemma reads_opt {A} (o : option A) a : o = Some a → reads (p_opt o) [] a.
Proof. intros ->. apply reads_ret. Qed.

Lemma reads_guard b : b = true → reads (p_guard b) [] tt.
Proof. intros ->. apply reads_ret. Qed.

Lemma reads_times {A} n (m : P A) (bss : list bytes) (xs : list A) :
  Forall2 (reads m) bss xs → n = length xs → reads (p_times n m) (concat bss) xs.
Proof.
  intros H. revert n. induction H as [|bs x bss xs Hx _ IH]; intros n ->; simpl.
  - apply reads_ret.
  - eapply reads_bind; [exact Hx|]. rewrite <- (app_nil_r (concat bss)).
    eapply reads_bind; [by apply IH|apply reads_ret].
Qed.

Lemma reads_take bs n : n = len bs → reads (p_take n) bs bs.
Proof.
  intros -> pre post Hlen. unfold p_take. simpl.
  unfold checked_add. rewrite (proj2 (Z.ltb_lt _ _)) by len_lia.
  by rewrite get_range_app.
Qed.

Lemma reads_u8 b : reads p_u8 [b] b.
Proof.
  intros pre post Hlen. unfold p_u8.
  by rewrite (reads_take [b] 1 eq_refl pre post Hlen).
Qed.

#[global] Hint Resolve reads_ret reads_opt reads_guard reads_take reads_u8 : reads.

(** At any position where the bytes [bs] come next, [m] fails. *)
Definition refuses {A} (m : P A) (bs : bytes) : Prop :=
  ∀ pre post, len (pre ++ bs ++ post) < 2 ^ 64 → m (Cur (pre ++ bs ++ post) (len pre)) = None.

Lemma refuses_bind {A B} (m : P A) (f : A → P B) bs1 bs2 a :
  reads m bs1 a → refuses (f a) bs2 → refuses (p_bind m f) (bs1 ++ bs2).
Proof.
  intros Hm Hf pre post Hlen. unfold p_bind.
  rewrite <- app_assoc in Hlen |- *. rewrite (Hm pre (bs2 ++ post) Hlen).
  rewrite app_assoc in Hlen |- *. rewrite <- len_app. by apply Hf.
Qed.

Lemma reads_bind_nil {A B} (m : P A) (f : A → P B) bs a b :
  reads m bs a → reads (f a) [] b → reads (p_bind m f) bs b.
Proof. intros. rewrite <- (app_nil_r bs). by eapply reads_bind. Qed.

Lemma reads_nil_bind {A B} (m : P A) (f : A → P B) bs a b :
  reads m [] a → reads (f a) bs b → reads (p_bind m f) bs b.
Proof. intros. by eapply (reads_bind m f [] bs). Qed.

(** Reading from the start of a buffer, and reading the whole of it. *)
Lemma reads_prefix {A} (m : P A) bs post a :
  reads m bs a → len (bs ++ post) < 2 ^ 64 →
  m (Cur (bs ++ post) 0) = Some (a, Cur (bs ++ post) (len bs)).
Proof. intros Hm Hl. by apply (Hm []). Qed.

Lemma refuses_run {A} (m : P A) bs : refuses m bs → len bs < 2 ^ 64 → m (Cur bs 0) = None.
Proof. intros Hm Hl. pose proof (Hm [] []) as H. rewrite app_nil_r in H. by apply H. Qed.

Lemma reads_run {A} (m : P A) bs a :
  reads m bs a → len bs < 2 ^ 64 → m (Cur bs 0) = Some (a, Cur bs (len bs)).
Proof.
  intros Hm Hl. pose proof (Hm [] []) as H. rewrite app_nil_r in H. by apply H.
Qed.

(** ** What any successful run consumes *)

(** [m] moves the position forward inside the buffer and changes nothing else. *)
Definition forward {A} (m : P A) : Prop :=
  ∀ c a c', 0 ≤ pos c ≤ len (buf c) → m c = Some (a, c') →
    buf c' = buf c ∧ pos c ≤ pos c' ≤ len (buf c).

(** The same with a postcondition on the result. *)
Definition ensures {A} (m : P A) (Q : A → Prop) : Prop :=
  ∀ c a c', 0 ≤ pos c ≤ len (buf c) → m c = Some (a, c') →
    Q a ∧ buf c' = buf c ∧ pos c ≤ pos c' ≤ len (buf c).

Lemma ensures_weaken {A} (m : P A) (Q R : A → Prop) :
  ensures m Q → (∀ a, Q a → R a) → ensures m R.
Proof. intros Hm HQ c a c' Hc Hrun. apply Hm in Hrun as [? ?]; auto. Qed.

Lemma forward_ensures {A} (m : P A) : forward m → ensures m (λ _, True).
Proof. intros H c a c' Hc Hm. split; [done|]. by eapply H. Qed.

Lemma ensures_ret {A} (a : A) (Q : A → Prop) : Q a → ensures (p_ret a) Q.
Proof. intros Ha c a' c' Hc [= <- <-]. split; [done|]. split; [done|lia]. Qed.

Lemma ensures_fail {A} (Q : A → Prop) : ensures p_fail Q.
Proof. done. Qed.

Lemma ensures_bind {A B} (m : P A) (f : A → P B) (Q : A → Prop) (R : B → Prop) :
  ensures m Q → (∀ a, Q a → ensures (f a) R) → ensures (p_bind m f) R.
Proof.
  intros Hm Hf c b c'' Hc. unfold p_bind. destruct (m c) as [[a c']|] eqn:E; [|done].
  intros E'. apply Hm in E as (Ha & Hb & ?); [|done].
  apply (Hf a Ha) in E' as (HR & Hb' & ?); [|by rewrite Hb; lia].
  rewrite Hb in *. split; [done|]. split; [done|lia].
Qed.

Lemma ensures_opt {A} (o : option A) : ensures (p_opt o) (λ a, o = Some a).
Proof. destruct o; [by apply ensures_ret|apply ensures_fail]. Qed.

Lemma ensures_guard b : ensures (p_guard b) (λ _, b = true).
Proof. destruct b; [by apply ensures_ret|apply ensures_fail]. Qed.

Lemma ensures_take n : 0 ≤ n → ensures (p_take n) (λ bs, len bs = n).
Proof.
  intros Hn c a c' Hc. unfold p_take. destruct (checked_add 64 (pos c) n) as [e|] eqn:E; [|done].
  apply checked_add_Some in E as [-> _].
  destruct (get_range _ _ _) as [s|] eqn:E; [|done]. intros [= <- <-].
  apply get_range_Some in E; [|lia]. simpl. split; [lia|]. split; [done|lia].
Qed.

Lemma forward_u8 : forward p_u8.
Proof.
  intros c a c' Hc. unfold p_u8. destruct (p_take 1 c) as [[[|b s] c1]|] eqn:E; [done| |done].
  intros [= <- <-]. by apply (ensures_take 1 ltac:(lia)) in E as [_ ?].
Qed.

Lemma ensures_times {A} n (m : P A) Q :
  ensures m Q → ensures (p_times n m) (λ xs, length xs = n ∧ Forall Q xs).
Proof.
  intros Hm. induction n as [|n IH]; simpl; [by apply ensures_ret|].
  eapply ensures_bind; [exact Hm|]. intros x Hx. eapply ensures_bind; [exact IH|].
  intros xs [Hl Hxs]. apply ensures_ret. simpl. split; [by rewrite Hl|by constructor].
Qed.

(** ** Bytes left

    [remaining] sees past the bytes a reader is responsible for, so its reading
    rule asks that the rest work for every amount of trailing input. *)

Lemma reads_remaining {B} (f : Z → P B) bs b :
  (∀ r, len bs ≤ r → reads (f r) bs b) → reads (p_bind p_remaining f) bs b.
Proof.
  intros H pre post Hlen. unfold p_bind, p_remaining. apply H; [|done].
  unfold remaining, saturating_sub. simpl. len_lia.
Qed.

Lemma ensures_remaining : ensures p_remaining (λ r, 0 ≤ r).
Proof.
  intros c r c' Hc [= <- <-]. split; [|split; [done|lia]]. unfold remaining, saturating_sub. lia.
Qed.

Create HintDb ensures discriminated.
#[export] Hint Constants Opaque : ensures.
#[export] Hint Resolve ensures_opt ensures_guard ensures_remaining : ensures.

(** One step of a reader on arbitrary input: run the first parser, name what it
    guarantees. *)
Tactic Notation "p_step" "as" simple_intropattern(a) simple_intropattern(H) :=
  eapply ensures_bind; [by eauto with ensures|cbv beta; intros a H].
