(* ===== verification/Leb128.v ===== *)
(** LEB128 variable-length integers.

    The sources carry two writers and three readers of the same encoding:
    [put_uvarint]/[uvarint] in [group_counts.rs], [write_varint]/[varint] in
    [loglake-index/src/lib.rs], and [write_varint]/[varint] in [segmented.rs].
    The readers differ in what they refuse; all of them read back what either
    writer wrote, and only the segmented reader is strict enough that a value
    has one accepted encoding. *)

From stdpp Require Import prelude.
From Stdlib Require Import ZArith Lia.
From S2P Require Import Prelude Cursor.

(** * Writers *)

(** [while v >= 0x80 { out.push((v as u8) | 0x80); v >>= 7; } out.push(v as u8)];
    a [u64] has at most ten groups of seven bits, the fuel. *)
Fixpoint put_uvarint_loop (fuel : nat) (v : Z) : bytes :=
  match fuel with
  | O => []
  | S fuel =>
    if 0x80 <=? v then Z.lor (wrap 8 v) 0x80 :: put_uvarint_loop fuel (Z.shiftr v 7)
    else [wrap 8 v]
  end.
Definition put_uvarint (v : Z) : bytes := put_uvarint_loop 10 v.

(** [loop { byte = v & 0x7f; v >>= 7; if v == 0 { push(byte); break } push(byte | 0x80) }] *)
Fixpoint write_varint_loop (fuel : nat) (v : Z) : bytes :=
  match fuel with
  | O => []
  | S fuel =>
    let byte := wrap 8 (Z.land v 0x7F) in
    let v := Z.shiftr v 7 in
    if v =? 0 then [byte] else Z.lor byte 0x80 :: write_varint_loop fuel v
  end.
Definition write_varint (v : Z) : bytes := write_varint_loop 10 v.

(** * Readers *)

(** [let byte = *self.buf.get(self.pos)?; self.pos += 1;] *)
Definition p_next : P Z := λ c,
  match buf c !! Z.to_nat (pos c) with
  | Some b => Some (b, Cur (buf c) (pos c + 1))
  | None => None
  end.

(** [x << shift] on [u64] *)
Definition shl64 (x shift : Z) : Z := wrap 64 (Z.shiftl x shift).

(** [group_counts.rs]: at most ten bytes, and a tenth byte of at most one bit.
    The shift reaches 70 after ten continuation bytes, where the eleventh
    iteration refuses: eleven iterations always decide. *)
Fixpoint uvarint_loop (fuel : nat) (value shift : Z) : P Z :=
  match fuel with
  | O => p_fail
  | S fuel =>
    let* byte := p_next in
    if 64 <=? shift then p_fail else
    let value := Z.lor value (shl64 (Z.land byte 0x7F) shift) in
    if Z.land byte 0x80 =? 0 then
      if (shift =? 63) && (1 <? Z.land byte 0x7F) then p_fail else p_ret value
    else uvarint_loop fuel value (shift + 7)
  end.
Definition uvarint : P Z := uvarint_loop 11 0 0.

(** [loglake-index/src/lib.rs]: refuses a group whose bits the shift would drop. *)
Fixpoint varint_loop (fuel : nat) (result shift : Z) : P Z :=
  match fuel with
  | O => p_fail
  | S fuel =>
    let* byte := p_u8 in
    if 64 <=? shift then p_fail else
    let payload := Z.land byte 0x7F in
    if negb (Z.shiftr (shl64 payload shift) shift =? payload) then p_fail else
    let result := Z.lor result (shl64 payload shift) in
    if Z.land byte 0x80 =? 0 then p_ret result else varint_loop fuel result (shift + 7)
  end.
Definition varint : P Z := varint_loop 11 0 0.

(** [segmented.rs]: additionally refuses a trailing zero group. *)
Fixpoint seg_varint_loop (fuel : nat) (result shift : Z) : P Z :=
  match fuel with
  | O => p_fail
  | S fuel =>
    let* byte := p_u8 in
    let payload := Z.land byte 0x7F in
    if (64 <=? shift) || negb (Z.shiftr (shl64 payload shift) shift =? payload) then p_fail else
    let result := Z.lor result (shl64 payload shift) in
    if Z.land byte 0x80 =? 0 then
      if (0 <? shift) && (payload =? 0) then p_fail else p_ret result
    else seg_varint_loop fuel result (shift + 7)
  end.
Definition seg_varint : P Z := seg_varint_loop 11 0 0.

(** * The reference encoding *)

(** [n] is a bound on the number of groups. *)
Fixpoint leb128 (n : nat) (v : Z) : bytes :=
  match n with
  | O => []
  | S n => if v <? 128 then [v] else (128 + v mod 128) :: leb128 n (v / 128)
  end.

(** Facts about single bytes, by checking all 256 of them. *)
Lemma byte_cases (Q : Z → bool) :
  forallb Q (seqZ 0 256) = true → ∀ b, is_byte b → Q b = true.
Proof.
  intros H b Hb. rewrite forallb_forall in H. apply H, list_elem_of_In, elem_of_seqZ.
  unfold fits in Hb. lia.
Qed.

Lemma land_7f b : Z.land b 0x7F = b mod 128.
Proof. apply (Z.land_ones b 7). lia. Qed.

Lemma lor_80 b : is_byte b → Z.lor b 0x80 = 128 + b mod 128.
Proof.
  intros Hb. apply Z.eqb_eq. revert b Hb. apply byte_cases. by vm_compute.
Qed.

Lemma land_80 b : is_byte b → (Z.land b 0x80 =? 0) = (b <? 128).
Proof.
  intros Hb. apply Bool.eqb_prop. revert b Hb.
  apply (byte_cases (λ b, Bool.eqb (Z.land b 0x80 =? 0) (b <? 128))). by vm_compute.
Qed.

Lemma shiftr_7 v : Z.shiftr v 7 = v / 128.
Proof. by rewrite Z.shiftr_div_pow2 by lia. Qed.

Lemma wrap8_mod128 v : wrap 8 v mod 128 = v mod 128.
Proof. unfold wrap. change (2 ^ 8) with 256. Z.div_mod_to_equations. lia. Qed.

Lemma put_uvarint_leb128 n v :
  0 ≤ v < 128 ^ Z.of_nat n → put_uvarint_loop n v = leb128 n v.
Proof.
  revert v. induction n as [|n IH]; intros v Hv; [done|].
  rewrite Nat2Z.inj_succ, Z.pow_succ_r in Hv by lia. simpl.
  rewrite Z.leb_antisym. destruct (Z.ltb_spec v 0x80); simpl.
  - rewrite wrap_small; [done|]. unfold fits. lia.
  - rewrite lor_80 by (apply wrap_fits; lia). rewrite wrap8_mod128, shiftr_7, IH; [done|].
    split; [apply Z.div_pos; lia|]. apply Z.div_lt_upper_bound; lia.
Qed.

Lemma write_varint_leb128 n v :
  0 ≤ v < 128 ^ Z.of_nat n → write_varint_loop n v = leb128 n v.
Proof.
  revert v. induction n as [|n IH]; intros v Hv; [done|].
  rewrite Nat2Z.inj_succ, Z.pow_succ_r in Hv by lia. simpl.
  rewrite land_7f, shiftr_7.
  assert (is_byte (v mod 128)) as Hb by (unfold fits; Z.div_mod_to_equations; lia).
  rewrite (wrap_small 8 (v mod 128)) by done.
  destruct (Z.eqb_spec (v / 128) 0) as [Hz|Hz], (Z.ltb_spec v 128) as [?|?];
    try (Z.div_mod_to_equations; lia).
  - f_equal. rewrite Z.mod_small; lia.
  - rewrite lor_80 by done. rewrite Z.mod_mod by lia. rewrite IH; [done|].
    split; [apply Z.div_pos; lia|]. apply Z.div_lt_upper_bound; lia.
Qed.

Lemma u64_lt_128_10 v : u64 v → 0 ≤ v < 128 ^ Z.of_nat 10.
Proof. unfold fits. change (128 ^ Z.of_nat 10) with (2 ^ 70). lia. Qed.

Lemma put_uvarint_spec v : u64 v → put_uvarint v = leb128 10 v.
Proof. intros. by apply put_uvarint_leb128, u64_lt_128_10. Qed.

(** The two writers emit the same bytes. *)
Lemma write_varint_spec v : u64 v → write_varint v = leb128 10 v.
Proof. intros. by apply write_varint_leb128, u64_lt_128_10. Qed.

Lemma leb128_ok n v : 0 ≤ v → bytes_ok (leb128 n v).
Proof.
  revert v. induction n as [|n IH]; intros v Hv; simpl; [constructor|].
  destruct (Z.ltb_spec v 128).
  - repeat constructor; lia.
  - constructor; [unfold fits; Z.div_mod_to_equations; lia|].
    apply IH. apply Z.div_pos; lia.
Qed.

Lemma leb128_pos n v : (0 < n)%nat → 1 ≤ len (leb128 n v).
Proof. destruct n; [lia|]. intros _. simpl. destruct (v <? 128); len_lia. Qed.

Lemma leb128_length n v : (length (leb128 n v) ≤ n)%nat.
Proof. revert v. induction n as [|n IH]; intros v; simpl; [lia|]. destruct (v <? 128); simpl; [lia|]. specialize (IH (v/128)). lia. Qed.

(** * The readers read what the writers wrote *)

Lemma shl64_small p s : 0 ≤ p → 0 ≤ s → p * 2 ^ s < 2 ^ 64 → shl64 p s = p * 2 ^ s.
Proof.
  intros. unfold shl64. rewrite Z.shiftl_mul_pow2 by lia. apply wrap_small. unfold fits. lia.
Qed.

Lemma lor_disjoint acc p s :
  0 ≤ s → 0 ≤ acc < 2 ^ s → 0 ≤ p → Z.lor acc (p * 2 ^ s) = acc + p * 2 ^ s.
Proof.
  intros Hs Hacc Hp. rewrite <- Z.lxor_lor, <- Z.add_nocarry_lxor; [done|..];
    rewrite <- Z.shiftl_mul_pow2 by lia; apply Z.bits_inj'; intros n Hn;
    rewrite Z.land_spec, Z.bits_0, Z.shiftl_spec by lia;
    (destruct (Z.lt_ge_cases n s);
      [rewrite (Z.testbit_neg_r p) by lia; apply andb_false_r|]);
    rewrite <- (Z.mod_small acc (2 ^ s)) by lia; by rewrite Z.mod_pow2_bits_high by lia.
Qed.

Lemma shiftr_shl64 p s :
  0 ≤ p → 0 ≤ s → p * 2 ^ s < 2 ^ 64 → Z.shiftr (shl64 p s) s = p.
Proof.
  intros. rewrite shl64_small, Z.shiftr_div_pow2 by lia. apply Z.div_mul. lia.
Qed.

(** The state of a reader's loop that has consumed the groups below [s]. *)
Definition group_inv (n : nat) (v acc s : Z) : Prop :=
  (0 < n)%nat ∧ 0 ≤ v < 128 ^ Z.of_nat n ∧ 0 ≤ s < 64 ∧ 0 ≤ acc < 2 ^ s ∧ v * 2 ^ s < 2 ^ 64
  ∧ (s = 0 ∨ 1 ≤ v).

Lemma group_inv_payload n v acc s :
  group_inv n v acc s →
  0 ≤ v mod 128 ≤ v ∧ v mod 128 * 2 ^ s < 2 ^ 64
  ∧ Z.lor acc (shl64 (v mod 128) s) = acc + v mod 128 * 2 ^ s
  ∧ (Z.shiftr (shl64 (v mod 128) s) s =? v mod 128) = true.
Proof.
  intros (_ & Hv & Hs & Ha & Hb & _).
  assert (0 ≤ v mod 128 ≤ v) as Hm by (Z.div_mod_to_equations; lia).
  assert (v mod 128 * 2 ^ s < 2 ^ 64) by nia.
  split_and!; [lia..| |].
  - rewrite shl64_small, lor_disjoint; lia.
  - rewrite shiftr_shl64 by lia. apply Z.eqb_refl.
Qed.

Lemma group_inv_step n v acc s :
  group_inv (S n) v acc s → 128 ≤ v →
  group_inv n (v / 128) (acc + v mod 128 * 2 ^ s) (s + 7)
  ∧ acc + v mod 128 * 2 ^ s + v / 128 * 2 ^ (s + 7) = acc + v * 2 ^ s.
Proof.
  intros (_ & Hv & Hs & Ha & Hb & _) Hge.
  rewrite Nat2Z.inj_succ, Z.pow_succ_r in Hv by lia.
  assert (2 ^ (s + 7) = 128 * 2 ^ s) as E by (rewrite Z.pow_add_r; lia).
  assert (v = 128 * (v / 128) + v mod 128) as Hdm by (apply Z.div_mod; lia).
  pose proof (Z.mod_pos_bound v 128 ltac:(lia)).
  assert (1 ≤ v / 128) by (apply Z.div_le_lower_bound; lia).
  assert (0 < 2 ^ s) by lia.
  split; [|rewrite E; nia].
  unfold group_inv. rewrite E. split_and!; try nia.
  - destruct n; [|lia]. rewrite Z.pow_0_r in Hv. lia.
  - assert (s + 7 < 64 ∨ 64 ≤ s + 7) as [?|Hs7] by lia; [done|exfalso].
    assert (2 ^ 64 ≤ 2 ^ (s + 7)) by (apply Z.pow_le_mono_r; lia). nia.
Qed.

Lemma group_inv_start v : u64 v → group_inv 10 v 0 0.
Proof.
  intros Hv. pose proof (u64_lt_128_10 v Hv). unfold group_inv, fits in *. lia.
Qed.

Lemma reads_next b : reads p_next [b] b.
Proof.
  intros pre post _. unfold p_next. simpl. unfold len. rewrite Nat2Z.id.
  by rewrite lookup_app_r, Nat.sub_diag by lia.
Qed.

(** The byte a writer emits for the low group of [v]. *)
Definition group_byte (v : Z) : Z := if v <? 128 then v else 128 + v mod 128.

Lemma leb128_S n v :
  leb128 (S n) v = group_byte v :: (if v <? 128 then [] else leb128 n (v / 128)).
Proof. unfold group_byte. simpl. by destruct (v <? 128). Qed.

Lemma group_byte_spec v :
  0 ≤ v →
  is_byte (group_byte v) ∧ Z.land (group_byte v) 0x7F = v mod 128
  ∧ (Z.land (group_byte v) 0x80 =? 0) = (v <? 128).
Proof.
  intros Hv. assert (is_byte (group_byte v)) as Hb.
  { unfold group_byte, fits. destruct (Z.ltb_spec v 128); Z.div_mod_to_equations; lia. }
  split_and!; [done| |].
  - rewrite land_7f. unfold group_byte.
    destruct (Z.ltb_spec v 128); Z.div_mod_to_equations; lia.
  - rewrite land_80 by done. unfold group_byte. destruct (Z.ltb_spec v 128) as [?|?].
    + by apply Z.ltb_lt.
    + apply Z.ltb_ge. Z.div_mod_to_equations; lia.
Qed.

(** Runs a reader's loop over one group: [Hrd] reads one byte, [Hinv] is the
    loop's state. *)
Ltac read_group Hrd Hinv :=
  let Hg := fresh in
  pose proof (group_inv_payload _ _ _ _ Hinv) as (? & ? & Hlor & Hshift);
  pose proof Hinv as (_ & Hv & Hs & _ & Hfit & Hz);
  pose proof (group_byte_spec _ (proj1 Hv)) as (_ & Hpay & Hcont);
  rewrite leb128_S; eapply (reads_bind _ _ [_]); [apply Hrd|]; cbv beta zeta;
  rewrite ?Hpay, ?Hcont, ?Hlor, ?Hshift, (proj2 (Z.leb_gt 64 _)) by lia;
  cbn [negb orb]; clear Hlor Hshift Hpay Hcont.

Lemma reads_uvarint_loop n fuel v acc s :
  (n ≤ fuel)%nat → group_inv n v acc s →
  reads (uvarint_loop fuel acc s) (leb128 n v) (acc + v * 2 ^ s).
Proof.
  revert fuel v acc s. induction n as [|n IH]; intros fuel v acc s Hf Hinv.
  { destruct Hinv as [? _]. lia. }
  destruct fuel as [|fuel]; [lia|]. cbn [uvarint_loop]. read_group reads_next Hinv.
  destruct (Z.ltb_spec v 128) as [Hlt|Hge].
  - rewrite Z.mod_small by lia.
    destruct (Z.eqb_spec s 63) as [->|?]; simpl; [|apply reads_ret].
    destruct (Z.ltb_spec 1 v); [lia|apply reads_ret].
  - apply group_inv_step in Hinv as [Hinv <-]; [|done]. apply IH; [lia|done].
Qed.

Lemma reads_varint_loop n fuel v acc s :
  (n ≤ fuel)%nat → group_inv n v acc s →
  reads (varint_loop fuel acc s) (leb128 n v) (acc + v * 2 ^ s).
Proof.
  revert fuel v acc s. induction n as [|n IH]; intros fuel v acc s Hf Hinv.
  { destruct Hinv as [? _]. lia. }
  destruct fuel as [|fuel]; [lia|]. cbn [varint_loop]. read_group reads_u8 Hinv.
  destruct (Z.ltb_spec v 128) as [Hlt|Hge].
  - rewrite Z.mod_small by lia. apply reads_ret.
  - apply group_inv_step in Hinv as [Hinv <-]; [|done]. apply IH; [lia|done].
Qed.

Lemma reads_seg_varint_loop n fuel v acc s :
  (n ≤ fuel)%nat → group_inv n v acc s →
  reads (seg_varint_loop fuel acc s) (leb128 n v) (acc + v * 2 ^ s).
Proof.
  revert fuel v acc s. induction n as [|n IH]; intros fuel v acc s Hf Hinv.
  { destruct Hinv as [? _]. lia. }
  destruct fuel as [|fuel]; [lia|]. cbn [seg_varint_loop]. read_group reads_u8 Hinv.
  destruct (Z.ltb_spec v 128) as [Hlt|Hge].
  - rewrite Z.mod_small by lia.
    destruct (Z.ltb_spec 0 s), (Z.eqb_spec v 0); try lia; apply reads_ret.
  - apply group_inv_step in Hinv as [Hinv <-]; [|done]. apply IH; [lia|done].
Qed.

Lemma reads_uvarint v : u64 v → reads uvarint (put_uvarint v) v.
Proof.
  intros Hv. rewrite put_uvarint_spec by done.
  pose proof (reads_uvarint_loop 10 11 v 0 0 ltac:(lia) (group_inv_start v Hv)) as H.
  by rewrite Z.mul_1_r in H.
Qed.

Lemma reads_varint v : u64 v → reads varint (write_varint v) v.
Proof.
  intros Hv. rewrite write_varint_spec by done.
  pose proof (reads_varint_loop 10 11 v 0 0 ltac:(lia) (group_inv_start v Hv)) as H.
  by rewrite Z.mul_1_r in H.
Qed.

Lemma reads_seg_varint v : u64 v → reads seg_varint (write_varint v) v.
Proof.
  intros Hv. rewrite write_varint_spec by done.
  pose proof (reads_seg_varint_loop 10 11 v 0 0 ltac:(lia) (group_inv_start v Hv)) as H.
  by rewrite Z.mul_1_r in H.
Qed.
#[global] Hint Resolve reads_uvarint reads_varint reads_seg_varint : reads.

(** * The readers on arbitrary bytes *)

Lemma lor_fits w a b : 0 ≤ w → fits w a → fits w b → fits w (Z.lor a b).
Proof.
  unfold fits. intros Hw Ha Hb. split; [apply Z.lor_nonneg; lia|].
  assert (Z.lor a b mod 2 ^ w = Z.lor a b) as <-; [|apply Z.mod_pos_bound; lia].
  rewrite <- Z.land_ones, Z.land_lor_distr_l, !Z.land_ones by lia.
  by rewrite !Z.mod_small by lia.
Qed.

Lemma forward_next : forward p_next.
Proof.
  intros c b c' Hc. unfold p_next. destruct (buf c !! _) eqn:E; [|done]. intros [= <- <-].
  apply lookup_lt_Some in E. unfold len in *. simpl. split; [done|lia].
Qed.

(** Runs that consume at least one byte and yield a [u64]. *)
Definition yields_u64 (m : P Z) : Prop :=
  ∀ c v c', 0 ≤ pos c ≤ len (buf c) → m c = Some (v, c') →
    u64 v ∧ buf c' = buf c ∧ pos c < pos c' ≤ len (buf c).

Lemma p_next_pos c b c' : p_next c = Some (b, c') → pos c' = pos c + 1.
Proof. unfold p_next. case_match; [|done]. by intros [= _ <-]. Qed.

Lemma p_u8_pos c b c' : p_u8 c = Some (b, c') → pos c' = pos c + 1.
Proof.
  unfold p_u8, p_take. destruct (checked_add _ _ _) eqn:E; [|done].
  apply checked_add_Some in E as [-> _]. destruct (get_range _ _ _) as [[|? ?]|]; [done| |done].
  by intros [= _ <-].
Qed.

Lemma shl64_fits p s : u64 (shl64 p s).
Proof. apply wrap_fits. lia. Qed.

(** One iteration: a byte is read, then either the loop ends with the
    accumulated value or it goes on with it. *)
Ltac loop_iter rd fwd :=
  let b := fresh "b" in let c1 := fresh "c1" in let E := fresh "E" in
  unfold p_bind at 1;
  match goal with |- context [rd ?c] => destruct (rd c) as [[b c1]|] eqn:E; [|done] end;
  pose proof (fwd _ _ _ ltac:(eassumption) E) as [Hbuf ?].

Lemma uvarint_yields fuel acc s : u64 acc → yields_u64 (uvarint_loop fuel acc s).
Proof.
  revert acc s. induction fuel as [|fuel IH]; intros acc s Hacc c v c' Hc; [done|].
  cbn [uvarint_loop]. loop_iter p_next forward_next. apply p_next_pos in E.
  destruct (64 <=? s); [done|].
  assert (u64 (Z.lor acc (shl64 (Z.land b 0x7F) s))) by (apply lor_fits; [lia|done|apply shl64_fits]).
  destruct (Z.land b 0x80 =? 0).
  - destruct ((s =? 63) && (1 <? Z.land b 127)); [done|]. intros [= <- <-].
    rewrite Hbuf. repeat (split; [done|]). lia.
  - intros Hrun. apply IH in Hrun as (? & Hb & ?); [|done|rewrite Hbuf; lia].
    rewrite Hbuf in *. repeat (split; [done|]). lia.
Qed.

Lemma varint_yields fuel acc s : u64 acc → yields_u64 (varint_loop fuel acc s).
Proof.
  revert acc s. induction fuel as [|fuel IH]; intros acc s Hacc c v c' Hc; [done|].
  cbn [varint_loop]. loop_iter p_u8 forward_u8. apply p_u8_pos in E.
  destruct (64 <=? s); [done|]. destruct (negb _); [done|].
  assert (u64 (Z.lor acc (shl64 (Z.land b 0x7F) s))) by (apply lor_fits; [lia|done|apply shl64_fits]).
  destruct (Z.land b 0x80 =? 0).
  - intros [= <- <-]. rewrite Hbuf. repeat (split; [done|]). lia.
  - intros Hrun. apply IH in Hrun as (? & Hb & ?); [|done|rewrite Hbuf; lia].
    rewrite Hbuf in *. repeat (split; [done|]). lia.
Qed.

Lemma seg_varint_yields fuel acc s : u64 acc → yields_u64 (seg_varint_loop fuel acc s).
Proof.
  revert acc s. induction fuel as [|fuel IH]; intros acc s Hacc c v c' Hc; [done|].
  cbn [seg_varint_loop]. loop_iter p_u8 forward_u8. apply p_u8_pos in E.
  destruct (_ || _); [done|].
  assert (u64 (Z.lor acc (shl64 (Z.land b 0x7F) s))) by (apply lor_fits; [lia|done|apply shl64_fits]).
  destruct (Z.land b 0x80 =? 0).
  - destruct (_ && _); [done|]. intros [= <- <-]. rewrite Hbuf. repeat (split; [done|]). lia.
  - intros Hrun. apply IH in Hrun as (? & Hb & ?); [|done|rewrite Hbuf; lia].
    rewrite Hbuf in *. repeat (split; [done|]). lia.
Qed.

Lemma seg_varint_u64 : yields_u64 seg_varint.
Proof. apply seg_varint_yields. unfold fits. lia. Qed.
Lemma uvarint_u64 : yields_u64 uvarint.
Proof. apply uvarint_yields. unfold fits. lia. Qed.
Lemma varint_u64 : yields_u64 varint.
Proof. apply varint_yields. unfold fits. lia. Qed.

Lemma yields_ensures m : yields_u64 m → ensures m (fits 64).
Proof. intros H c a c' Hc Hm. apply H in Hm as (? & ? & ?); [|done]. split; [done|]. split; [done|lia]. Qed.

Lemma ensures_uvarint : ensures uvarint (fits 64).
Proof. apply yields_ensures, uvarint_u64. Qed.
Lemma ensures_varint : ensures varint (fits 64).
Proof. apply yields_ensures, varint_u64. Qed.

Lemma ensures_seg_varint : ensures seg_varint (fits 64).
Proof. apply yields_ensures, seg_varint_u64. Qed.

#[export] Hint Resolve ensures_uvarint ensures_varint ensures_seg_varint : ensures.

Lemma write_varint_ok v : u64 v → bytes_ok (write_varint v).
Proof. intros H. rewrite write_varint_spec by done. apply leb128_ok. apply H. Qed.

Lemma write_varint_pos v : u64 v → 1 ≤ len (write_varint v).
Proof. intros H. rewrite write_varint_spec by done. apply leb128_pos. lia. Qed.

(** ** The segmented reader is canonical *)

Lemma leb128_mono n m v :
  (0 < n ≤ m)%nat → 0 ≤ v < 128 ^ Z.of_nat n → leb128 m v = leb128 n v.
Proof.
  revert m v. induction n as [|n IH]; intros m v Hm Hv; [lia|].
  destruct m as [|m]; [lia|]. rewrite Nat2Z.inj_succ, Z.pow_succ_r in Hv by lia. simpl.
  destruct (Z.ltb_spec v 128) as [|Hge]; [done|].
  destruct n as [|n]; [rewrite Z.pow_0_r in Hv; lia|].
  rewrite (IH m); [done|lia|].
  split; [apply Z.div_pos; lia|]. apply Z.div_lt_upper_bound; lia.
Qed.

Lemma p_u8_range c b c' :
  bytes_ok (buf c) → 0 ≤ pos c → p_u8 c = Some (b, c') →
  is_byte b ∧ c' = Cur (buf c) (pos c + 1) ∧ pos c + 1 ≤ len (buf c)
  ∧ drop (Z.to_nat (pos c)) (buf c) = b :: drop (Z.to_nat (pos c + 1)) (buf c).
Proof.
  intros Hok Hp. unfold p_u8, p_take. destruct (checked_add _ _ _) eqn:E; [|done].
  apply checked_add_Some in E as [-> _].
  destruct (get_range _ _ _) as [[|x l]|] eqn:E; [done| |done]. intros [= -> <-].
  apply get_range_Some in E as (? & ? & Hl & Hbuf); [|done].
  destruct l as [|? ?]; [|exfalso; len_lia].
  assert (is_byte b) as Hb.
  { rewrite Hbuf in Hok. unfold bytes_ok in Hok.
    apply Forall_app in Hok as [_ Hok]. by inversion Hok. }
  split_and!; [done..|].
  rewrite Hbuf at 1. rewrite drop_app_length'; [done|].
  rewrite length_take. unfold len in *. lia.
Qed.

Lemma shl64_lossless p s :
  0 ≤ p → 0 ≤ s → Z.shiftr (shl64 p s) s = p → p * 2 ^ s < 2 ^ 64.
Proof.
  intros Hp Hs E. rewrite Z.shiftr_div_pow2 in E by lia.
  pose proof (shl64_fits p s) as Hf. unfold fits in Hf.
  pose proof (Z.mul_div_le (shl64 p s) (2 ^ s) ltac:(lia)). nia.
Qed.

(** A multiple of [2^(s+7)] below [2^64] leaves room for the bits under it. *)
Lemma groups_room v s :
  0 ≤ s → 1 ≤ v → v * (2 ^ s * 128) < 2 ^ 64 → (v + 1) * (2 ^ s * 128) ≤ 2 ^ 64.
Proof.
  intros Hs Hv H. replace (2 ^ s * 128) with (2 ^ (s + 7)) in * by (rewrite Z.pow_add_r; lia).
  assert (s + 7 < 64) as Hlt.
  { apply (Z.pow_lt_mono_r_iff 2); [lia..|]. nia. }
  replace (2 ^ 64) with (2 ^ (57 - s) * 2 ^ (s + 7)) in *
    by (rewrite <- Z.pow_add_r by lia; f_equal; lia).
  apply Z.mul_le_mono_pos_r; [lia|]. apply Z.mul_lt_mono_pos_r in H; lia.
Qed.

Lemma seg_varint_loop_canonical fuel acc s c r c' :
  bytes_ok (buf c) → 0 ≤ pos c → 0 ≤ s → 0 ≤ acc < 2 ^ s →
  seg_varint_loop fuel acc s c = Some (r, c') →
  ∃ v, r = acc + v * 2 ^ s ∧ 0 ≤ v < 128 ^ Z.of_nat fuel ∧ v * 2 ^ s < 2 ^ 64
    ∧ (s = 0 ∨ 1 ≤ v) ∧ buf c' = buf c ∧ pos c < pos c' ≤ len (buf c)
    ∧ drop (Z.to_nat (pos c)) (buf c) = leb128 fuel v ++ drop (Z.to_nat (pos c')) (buf c).
Proof.
  revert acc s c. induction fuel as [|fuel IH]; intros acc s c Hok Hp Hs Hacc; [done|].
  cbn [seg_varint_loop]. unfold p_bind at 1.
  destruct (p_u8 c) as [[b c1]|] eqn:E; [|done].
  apply p_u8_range in E as (Hb & -> & Hle & Hd); [|done..].
  destruct (Z.leb_spec 64 s); [done|].
  destruct (Z.eqb_spec (Z.shiftr (shl64 (Z.land b 0x7F) s) s) (Z.land b 0x7F)) as [Hl|]; [|done].
  cbn [orb negb]. rewrite land_7f in *.
  assert (0 ≤ b mod 128 < 128) as Hm by (apply Z.mod_pos_bound; lia).
  apply shl64_lossless in Hl as Hfit; [|lia..].
  rewrite shl64_small, lor_disjoint, land_80 by (done || lia).
  rewrite Nat2Z.inj_succ, Z.pow_succ_r by lia.
  destruct (Z.ltb_spec b 128) as [Hlt|Hge].
  - unfold fits in Hb. rewrite (Z.mod_small b 128) in * by lia.
    destruct (Z.ltb_spec 0 s), (Z.eqb_spec b 0); cbn [andb]; try done;
      intros [= <- <-]; exists b; simpl;
      rewrite (proj2 (Z.ltb_lt b 128)) by lia; (split_and!; [done || nia..]).
  - intros Hrun. apply IH in Hrun as (v & -> & Hv & Hf & Hz & Hbuf & Hpos & Hd');
      [|simpl in *; try done; try lia..].
    2: { rewrite Z.pow_add_r by lia. nia. }
    simpl in *. rewrite Z.pow_add_r in * by lia. change (2 ^ 7) with 128 in *.
    exists (b mod 128 + 128 * v).
    assert (b mod 128 = b - 128) as Hbm by (unfold fits in Hb; Z.div_mod_to_equations; lia).
    rewrite (proj2 (Z.ltb_ge _ 128)) by lia.
    rewrite (Z.mul_comm 128 v), Z.mod_add, Z.div_add, Z.mod_mod, Z.div_small by lia.
    assert ((v + 1) * (2 ^ s * 128) ≤ 2 ^ 64) by (apply groups_room; lia).
    assert (0 < 2 ^ s) by lia. unfold fits in Hb.
    rewrite Hd, Hd', Hbm. split_and!; [ring|lia|lia| |lia|done|lia|lia|].
    + clear IH Hd Hd' Hl. nia.
    + rewrite Z.add_0_l. simpl. f_equal. lia.
Qed.

(** A value has exactly one encoding the segmented reader accepts: what it
    consumed is what the writer emits for the value it returned. *)
Lemma seg_varint_canonical c v c' :
  bytes_ok (buf c) → 0 ≤ pos c → seg_varint c = Some (v, c') →
  u64 v ∧ buf c' = buf c ∧ pos c < pos c' ≤ len (buf c)
  ∧ drop (Z.to_nat (pos c)) (buf c) = write_varint v ++ drop (Z.to_nat (pos c')) (buf c).
Proof.
  intros Hok Hp Hrun.
  apply seg_varint_loop_canonical in Hrun as (w & -> & Hw & Hf & _ & Hbuf & Hpos & Hd);
    [|done|done|lia|lia].
  rewrite Z.mul_1_r, Z.add_0_l in *.
  assert (u64 w) as Hw64 by (unfold fits; lia).
  rewrite write_varint_spec by done.
  rewrite (leb128_mono 10 11) in Hd by (apply u64_lt_128_10 in Hw64; lia).
  split; [done|]. split; [done|]. split; [done|]. exact Hd.
Qed.
