(* ===== verification/Bloom.v ===== *)
(** The token and trigram blooms: [crates/loglake-bloom/src/lib.rs].

    Tokenizers and the lite stemmer, character trigrams, query-term
    normalisation, the [TokenBloom] filter with its FNV-1a double hashing, its
    byte and hex forms, and the per-row-group bloom list.  The floating-point
    sizing of a bloom is a parameter (any bit count and any probe count); every
    theorem holds whatever it returns. *)

From stdpp Require Import prelude gmap strings.
From Stdlib Require Import ZArith Lia.
From S2P Require Import Prelude RustStr Hex Cursor.

Definition BLOOM_MAGIC : bytes := lit "LKBF".
Definition ROWGROUP_LIST_MAGIC : bytes := lit "LKBL".
Definition BLOOM_FORMAT_VERSION : Z := 1.
Definition TRIGRAM_LEN : Z := 3.
Definition MIN_TOKEN_LEN : Z := 3.
Definition MAX_TOKENS_PER_ROW : Z := 64.

(** * Tokenizers *)

Inductive Tokenizer := Default | Raw | Stem.

Definition parse (name : rstr) : option Tokenizer :=
  let n := to_ascii_lowercase (trim name) in
  if bool_decide (n = lit "default") then Some Default
  else if bool_decide (n = lit "raw") then Some Raw
  else if bool_decide (n = lit "stem") then Some Stem
  else None.

Fixpoint default_tokenize_loop (pieces : list rstr) (out : list rstr) : list rstr :=
  match pieces with
  | [] => out
  | piece :: pieces =>
    if len piece <? MIN_TOKEN_LEN then default_tokenize_loop pieces out
    else
      let out := out ++ [to_ascii_lowercase piece] in
      if MAX_TOKENS_PER_ROW <=? len out then out else default_tokenize_loop pieces out
  end.

Definition default_tokenize (raw : rstr) : list rstr :=
  default_tokenize_loop (str_split (λ c, negb (is_ascii_alphanumeric c)) raw) [].

Definition is_vowel (b : Z) : bool :=
  bool_decide (b ∈ lit "aeiouy").

Definition strip_suffix_with_guard (token suffix : rstr) (min_stem_len : Z) : option rstr :=
  stem ← strip_suffix token suffix;
  let has_vowel := existsb is_vowel stem in
  if (min_stem_len <=? len stem) && has_vowel then Some stem else None.

Definition strip_plural_es (token : rstr) : option rstr :=
  stem ← strip_suffix token (lit "es");
  if (MIN_TOKEN_LEN <=? len stem) && negb (bool_decide (stem = [])) then Some stem else None.

Definition ends_with (s t : rstr) : bool := is_prefix_of (reverse t) (reverse s).

Definition strip_plural_s (token : rstr) : option rstr :=
  stem ← strip_suffix token (lit "s");
  if negb (ends_with token (lit "ss")) && (MIN_TOKEN_LEN <=? len stem) then Some stem else None.

Definition lite_stem (token : rstr) : option rstr :=
  let stemmed :=
    match strip_suffix_with_guard token (lit "ing") 4 with
    | Some stem => stem
    | None =>
      match strip_suffix_with_guard token (lit "ed") 3 with
      | Some stem => stem
      | None =>
        match strip_plural_es token with
        | Some stem => stem
        | None =>
          match strip_plural_s token with
          | Some stem => stem
          | None => token
          end
        end
      end
    end in
  if MIN_TOKEN_LEN <=? len stemmed then Some stemmed else None.

Definition tokenize_with (t : Tokenizer) (text : rstr) : list rstr :=
  match t with
  | Default => default_tokenize text
  | Raw => [to_ascii_lowercase text]
  | Stem => omap lite_stem (default_tokenize text)
  end.

Definition tokenize (raw : rstr) : list rstr := tokenize_with Default raw.

(** * Trigrams *)

(** [chars.windows(3)] *)
Fixpoint windows3 {A} (l : list A) : list (list A) :=
  match l with
  | a :: ((b :: c :: _) as t) => [a; b; c] :: windows3 t
  | _ => []
  end.

Definition trigrams (raw : rstr) : list rstr :=
  let cs := lower <$> chars raw in
  if len cs <? TRIGRAM_LEN then [] else utf8_encode <$> windows3 cs.

(** [TrigramSet]: the grams seen so far and the two scratch buffers. *)
Record TrigramSet := mkTrigramSet {
  grams : gset rstr;
  ts_chars : list Z;
  ts_gram : rstr;
}.

Definition TrigramSet_new : TrigramSet := mkTrigramSet ∅ [] [].

Definition TrigramSet_add_gram (s : TrigramSet) (w : list Z) : TrigramSet :=
  let gram := utf8_encode w in
  if bool_decide (gram ∈ grams s) then mkTrigramSet (grams s) (ts_chars s) gram
  else mkTrigramSet ({[gram]} ∪ grams s) (ts_chars s) gram.

Definition TrigramSet_add (s : TrigramSet) (value : rstr) : TrigramSet :=
  let cs := lower <$> chars value in
  let s := mkTrigramSet (grams s) cs (ts_gram s) in
  if len cs <? TRIGRAM_LEN then s else foldl TrigramSet_add_gram s (windows3 cs).

(** [filter(|t| seen.insert(t.clone()))]: the first occurrence of each. *)
Fixpoint dedup_seen (seen : gset rstr) (l : list rstr) : list rstr :=
  match l with
  | [] => []
  | t :: l =>
    if bool_decide (t ∈ seen) then dedup_seen seen l else t :: dedup_seen ({[t]} ∪ seen) l
  end.

Definition query_trigrams (substr : rstr) : option (list rstr) :=
  let tris := trigrams substr in
  match tris with [] => None | _ => Some (dedup_seen ∅ tris) end.

Definition normalize_query_term (term : rstr) : option rstr :=
  let trimmed := trim term in
  if (len trimmed <? MIN_TOKEN_LEN) || negb (forallb is_ascii_alphanumeric (chars trimmed))
  then None else Some (to_ascii_lowercase trimmed).

(** * Hashing *)

Definition fnv1a (data : bytes) (seed : Z) : Z :=
  foldl (λ hash byte, wrap 64 (Z.lxor hash byte * 0x100000001B3)) seed data.

Definition double_hash (token : rstr) : Z * Z :=
  (fnv1a token 0xCBF29CE484222325, Z.lor (fnv1a token 0x10000000000001B3) 1).

(** * The filter *)

Record TokenBloom := mkBloom { bits : bytes; k : Z }.

#[global] Instance TokenBloom_eq_dec : EqDecision TokenBloom.
Proof. solve_decision. Defined.

(** The bit the [i]-th probe of a key looks at. *)
Definition probe (nbits h1 h2 i : Z) : Z := wrap 64 (h1 + wrap 64 (i * h2)) mod nbits.

Definition nbits (b : TokenBloom) : Z := wrap 64 (len (bits b) * 8).

Definition probes (b : TokenBloom) (token : rstr) : list Z :=
  let '(h1, h2) := double_hash token in
  (λ i, probe (nbits b) h1 h2 i) <$> seqZ 0 (k b).

(** [bits[(bit / 8) as usize] |= 1u8 << (bit % 8)] *)
Definition set_bit (bs : bytes) (bit : Z) : bytes :=
  alter (λ x, Z.lor x (Z.shiftl 1 (bit mod 8))) (Z.to_nat (bit / 8)) bs.

(** [bits[(bit / 8) as usize] & (1u8 << (bit % 8)) == 0] *)
Definition bit_clear (bs : bytes) (bit : Z) : bool :=
  Z.land (default 0 (bs !! Z.to_nat (bit / 8))) (Z.shiftl 1 (bit mod 8)) =? 0.

Definition insert (b : TokenBloom) (token : rstr) : TokenBloom :=
  mkBloom (foldl set_bit (bits b) (probes b token)) (k b).

Definition maybe_contains (b : TokenBloom) (token : rstr) : bool :=
  forallb (λ bit, negb (bit_clear (bits b) bit)) (probes b token).

Definition div_ceil (a b : Z) : Z := (a + b - 1) / b.
Definition clamp (lo x hi : Z) : Z := Z.min (Z.max x lo) hi.

Section Build.
(** The two floating-point expressions of [build], as functions of the integers
    that enter them and of the false-positive probability: the unclamped bit
    count [(-(n) * ln p / ln2^2).ceil() as usize] and the unclamped probe count
    [((bytes * 8) / n * ln2).round()]. *)
Context {f64 : Type} (ideal_bits : Z → f64 → Z) (ideal_k : Z → Z → Z).

Definition build (expected_tokens : Z) (fpp : f64) (tokens : list rstr) : TokenBloom :=
  let n := Z.max expected_tokens 1 in
  let m_bits := Z.max (ideal_bits n fpp) 64 in
  let nbytes := div_ceil m_bits 8 in
  let k := clamp 1 (ideal_k nbytes n) 16 in
  foldl insert (mkBloom (replicate (Z.to_nat nbytes) 0) k) tokens.
End Build.

(** * Serialised forms *)

Definition to_bytes (b : TokenBloom) : bytes :=
  BLOOM_MAGIC ++ [BLOOM_FORMAT_VERSION; k b] ++ bits b.

(** [bytes.strip_prefix(p)] *)
Definition strip_prefix (p bs : bytes) : option bytes :=
  if is_prefix_of p bs then Some (drop (length p) bs) else None.

Definition from_bytes (bs : bytes) : option TokenBloom :=
  rest ← strip_prefix BLOOM_MAGIC bs;
  match rest with
  | [] => None
  | version :: rest =>
    if negb (version =? BLOOM_FORMAT_VERSION) then None else
    match rest with
    | [] => None
    | k :: bits =>
      if (k =? 0) || bool_decide (bits = []) then None else Some (mkBloom bits k)
    end
  end.

Definition to_hex (b : TokenBloom) : rstr := hex_encode (to_bytes b).
Definition from_hex (s : rstr) : option TokenBloom :=
  bs ← hex_decode s; from_bytes bs.

Definition rowgroup_entry (bloom : TokenBloom) : bytes :=
  let b := to_bytes bloom in to_le 4 (wrap 32 (len b)) ++ b.

Definition rowgroup_body (blooms : list TokenBloom) : bytes :=
  to_le 4 (wrap 32 (len blooms)) ++ mbind rowgroup_entry blooms.

Definition rowgroup_bytes (blooms : list TokenBloom) : bytes :=
  ROWGROUP_LIST_MAGIC ++ [BLOOM_FORMAT_VERSION] ++ rowgroup_body blooms.

Definition rowgroup_blooms_to_hex (blooms : list TokenBloom) : rstr :=
  hex_encode (rowgroup_bytes blooms).

(** The [read_u32] closure. *)
Definition read_u32 : P Z := let* b := p_take 4 in p_ret (from_le b).

Definition read_bloom : P TokenBloom :=
  let* n := read_u32 in
  let* chunk := p_take n in
  p_opt (from_bytes chunk).

Definition read_blooms : P (list TokenBloom) :=
  let* count := read_u32 in p_times (Z.to_nat count) read_bloom.

Definition rowgroup_blooms_from_hex (s : rstr) : option (list TokenBloom) :=
  bs ← hex_decode s;
  rest ← strip_prefix ROWGROUP_LIST_MAGIC bs;
  match rest with
  | [] => None
  | v :: rest =>
    if negb (v =? BLOOM_FORMAT_VERSION) then None else fst <$> read_blooms (Cur rest 0)
  end.

(** * The filter never says no to a key it holds *)

(** A filter a process can hold: at least one byte, and a bit count that fits a
    [u64]. *)
Definition bloom_ok (b : TokenBloom) : Prop := 0 < len (bits b) < 2 ^ 61.

Lemma land_shiftl_1 x j : 0 ≤ j → (Z.land x (Z.shiftl 1 j) =? 0) = negb (Z.testbit x j).
Proof.
  intros Hj. rewrite Z.shiftl_1_l. destruct (Z.testbit x j) eqn:E; simpl.
  - apply Z.eqb_neq. intros H. apply (f_equal (λ z, Z.testbit z j)) in H.
    by rewrite Z.land_spec, E, Z.pow2_bits_true, Z.bits_0 in H by lia.
  - apply Z.eqb_eq, Z.bits_inj'. intros n Hn.
    rewrite Z.land_spec, Z.pow2_bits_eqb, Z.bits_0 by lia.
    destruct (Z.eqb_spec j n) as [->|]; [by rewrite E|apply andb_false_r].
Qed.

Lemma bit_clear_testbit bs bit :
  bit_clear bs bit = negb (Z.testbit (default 0 (bs !! Z.to_nat (bit / 8))) (bit mod 8)).
Proof. apply land_shiftl_1. apply Z.mod_pos_bound. lia. Qed.

Lemma length_set_bit bs bit : length (set_bit bs bit) = length bs.
Proof. apply length_alter. Qed.

(** Setting a bit in range clears nothing and sets exactly that bit. *)
Lemma bit_clear_set_bit bs bit j :
  0 ≤ bit < len bs * 8 → 0 ≤ j →
  bit_clear (set_bit bs bit) j = bit_clear bs j && negb (j =? bit).
Proof.
  intros Hbit Hj. rewrite !bit_clear_testbit. unfold set_bit.
  pose proof (Z.mod_pos_bound bit 8). pose proof (Z.mod_pos_bound j 8).
  destruct (decide (Z.to_nat (j / 8) = Z.to_nat (bit / 8))) as [E|E].
  - rewrite E, list_lookup_alter_eq.
    destruct (lookup_lt_is_Some_2 bs (Z.to_nat (bit / 8))) as [x Hx].
    { unfold len in Hbit. Z.div_mod_to_equations. lia. }
    rewrite Hx. simpl. rewrite Z.lor_spec, Z.shiftl_1_l, Z.pow2_bits_eqb by lia.
    rewrite negb_orb. f_equal. f_equal.
    destruct (Z.eqb_spec j bit) as [->|Hne]; [apply Z.eqb_refl|].
    apply Z.eqb_neq. intros Hmod. apply Hne. Z.div_mod_to_equations. lia.
  - rewrite list_lookup_alter_ne by congruence.
    destruct (Z.eqb_spec j bit) as [->|_]; [done|]. by rewrite andb_true_r.
Qed.

Lemma bit_clear_foldl bs l j :
  Forall (λ bit, 0 ≤ bit < len bs * 8) l → 0 ≤ j →
  bit_clear (foldl set_bit bs l) j = bit_clear bs j && negb (existsb (Z.eqb j) l).
Proof.
  intros Hl Hj. revert bs Hl. induction l as [|bit l IH]; intros bs Hl; simpl.
  - by rewrite andb_true_r.
  - inversion_clear Hl as [|?? Hbit Hl']. rewrite IH.
    + rewrite bit_clear_set_bit by done. rewrite negb_orb. by rewrite andb_assoc.
    + unfold len in *. by rewrite length_set_bit.
Qed.

Lemma nbits_ok b : bloom_ok b → nbits b = len (bits b) * 8.
Proof.
  unfold bloom_ok, nbits. intros. apply wrap_small. unfold fits.
  change (2 ^ 64) with (2 ^ 61 * 8). lia.
Qed.

(** Every probe of a filter lands inside its bits: the indexing of [insert] and
    [maybe_contains] is in range. *)
Lemma probes_range b token :
  bloom_ok b → Forall (λ bit, 0 ≤ bit < len (bits b) * 8) (probes b token).
Proof.
  intros Hb. unfold probes. destruct (double_hash token) as [h1 h2].
  rewrite nbits_ok by done. apply Forall_fmap, Forall_true. intros i. simpl.
  unfold probe. apply Z.mod_pos_bound. unfold bloom_ok in Hb. lia.
Qed.

Lemma length_foldl_set_bit bs l : length (foldl set_bit bs l) = length bs.
Proof. revert bs. induction l as [|x l IH]; intros; simpl; [done|]. by rewrite IH, length_set_bit. Qed.

Lemma len_bits_insert b t : len (bits (insert b t)) = len (bits b).
Proof. unfold len, insert. simpl. by rewrite length_foldl_set_bit. Qed.

Lemma probes_insert b t t' : probes (insert b t) t' = probes b t'.
Proof. unfold probes, nbits. by rewrite len_bits_insert. Qed.

Lemma insert_ok b t : bloom_ok b → bloom_ok (insert b t).
Proof. unfold bloom_ok. by rewrite len_bits_insert. Qed.

Lemma bit_clear_insert b t j :
  bloom_ok b → 0 ≤ j →
  bit_clear (bits (insert b t)) j = bit_clear (bits b) j && negb (existsb (Z.eqb j) (probes b t)).
Proof. intros. apply bit_clear_foldl; [by apply probes_range|done]. Qed.

(** Inserting a key makes the filter answer yes for it and never turns a yes
    into a no. *)
Lemma maybe_contains_insert b t t' :
  bloom_ok b → t = t' ∨ maybe_contains b t' = true → maybe_contains (insert b t) t' = true.
Proof.
  intros Hb Ht. unfold maybe_contains in *. rewrite probes_insert.
  apply forallb_forall. intros j Hj.
  assert (0 ≤ j) as Hj0.
  { pose proof (probes_range b t' Hb) as Hr. rewrite List.Forall_forall in Hr. apply Hr in Hj. lia. }
  rewrite bit_clear_insert, negb_andb, negb_involutive by done. apply orb_true_iff.
  destruct Ht as [->|Ht].
  - right. apply existsb_exists. exists j. split; [done|]. apply Z.eqb_refl.
  - left. rewrite forallb_forall in Ht. by apply Ht.
Qed.

Lemma maybe_contains_foldl b l t :
  bloom_ok b → t ∈ l ∨ maybe_contains b t = true →
  maybe_contains (foldl insert b l) t = true.
Proof.
  revert b. induction l as [|x l IH]; intros b Hb Ht; simpl.
  - destruct Ht as [?%not_elem_of_nil|?]; done.
  - apply IH; [by apply insert_ok|]. rewrite elem_of_cons in Ht.
    destruct Ht as [[->|?]|?]; [right|by left|right];
      apply maybe_contains_insert; naive_solver.
Qed.

Section BuildFacts.
Context {f64 : Type} (ideal_bits : Z → f64 → Z) (ideal_k : Z → Z → Z).
Implicit Types (fpp : f64).

(** Within the memory a process has, every built filter is well formed. *)
Lemma build_ok n fpp tokens :
  ideal_bits (Z.max n 1) fpp < 2 ^ 63 → bloom_ok (build ideal_bits ideal_k n fpp tokens).
Proof.
  intros Hm. unfold build.
  assert (∀ b l, bloom_ok b → bloom_ok (foldl insert b l)) as Hf.
  { intros b l. revert b. induction l; simpl; auto using insert_ok. }
  apply Hf. unfold bloom_ok. simpl. unfold len. rewrite length_replicate.
  unfold div_ceil. Z.div_mod_to_equations. lia.
Qed.
End BuildFacts.

(** * Trigrams and tokens *)

Lemma windows3_app_r {A} (a l : list A) w : w ∈ windows3 l → w ∈ windows3 (a ++ l).
Proof.
  intros Hw. induction a as [|x a IH]; [done|].
  destruct a as [|y [|z a]]; simpl in *.
  - destruct l as [|b [|c l]]; [by apply not_elem_of_nil in Hw| |set_solver].
    by apply not_elem_of_nil in Hw.
  - destruct l as [|b l]; [by apply not_elem_of_nil in Hw|]. set_solver.
  - set_solver.
Qed.

Lemma windows3_app_l {A} (l b : list A) w : w ∈ windows3 l → w ∈ windows3 (l ++ b).
Proof.
  induction l as [|x l IH]; [by intros ?%not_elem_of_nil|].
  destruct l as [|y [|z l]]; [by intros ?%not_elem_of_nil..|].
  simpl. rewrite !elem_of_cons. intros [->|?]; [by left|right]. by apply IH.
Qed.

Lemma windows3_short {A} (l : list A) : (length l < 3)%nat → windows3 l = [].
Proof. destruct l as [|? [|? [|? ?]]]; simpl; [done..|lia]. Qed.

Lemma trigrams_windows s : trigrams s = utf8_encode <$> windows3 (lower <$> chars s).
Proof.
  unfold trigrams, TRIGRAM_LEN. destruct (Z.ltb_spec (len (lower <$> chars s)) 3); [|done].
  rewrite windows3_short; [done|]. unfold len in *. lia.
Qed.

(** Every trigram of a substring is a trigram of the string, letter case
    ignored on both sides. *)
Lemma trigrams_substring row q t :
  valid_str row → valid_str q →
  contains (to_ascii_lowercase row) (to_ascii_lowercase q) = true →
  t ∈ trigrams q → t ∈ trigrams row.
Proof.
  intros Hrow Hq (a & b & E)%contains_spec. rewrite !trigrams_windows.
  rewrite <- !chars_lowercase by done. rewrite E.
  destruct (decide (to_ascii_lowercase q = [])) as [->|Hne]; [by intros ?%not_elem_of_nil|].
  apply to_ascii_lowercase_valid in Hq. apply to_ascii_lowercase_valid in Hrow.
  rewrite E in Hrow. destruct (substring_valid a _ b Hrow Hq Hne) as [Ha Hb].
  rewrite (chars_app a) by (done || by apply valid_str_app). rewrite chars_app by done.
  rewrite !list_elem_of_fmap. intros (w & -> & Hw). exists w. split; [done|].
  by apply windows3_app_r, windows3_app_l.
Qed.

Lemma grams_add_gram s w : grams (TrigramSet_add_gram s w) = {[utf8_encode w]} ∪ grams s.
Proof. unfold TrigramSet_add_gram. case_bool_decide; simpl; set_solver. Qed.

Lemma grams_foldl s ws :
  grams (foldl TrigramSet_add_gram s ws) = list_to_set (utf8_encode <$> ws) ∪ grams s.
Proof.
  revert s. induction ws as [|w ws IH]; intros s; simpl; [set_solver|].
  rewrite IH, grams_add_gram. set_solver.
Qed.

Lemma grams_add s v : grams (TrigramSet_add s v) = list_to_set (trigrams v) ∪ grams s.
Proof.
  unfold TrigramSet_add, trigrams. destruct (len _ <? TRIGRAM_LEN); simpl; [set_solver|].
  by rewrite grams_foldl.
Qed.

Lemma grams_foldl_add s rows :
  grams (foldl TrigramSet_add s rows) = list_to_set (rows ≫= trigrams) ∪ grams s.
Proof.
  revert s. induction rows as [|r rows IH]; intros s; simpl; [set_solver|].
  rewrite IH, grams_add, list_to_set_app_L. set_solver.
Qed.

Lemma dedup_seen_spec seen l t : t ∈ dedup_seen seen l ↔ t ∈ l ∧ t ∉ seen.
Proof.
  revert seen. induction l as [|x l IH]; intros seen; simpl; [set_solver|].
  case_bool_decide; rewrite ?elem_of_cons, IH; [set_solver|].
  destruct (decide (t = x)); set_solver.
Qed.

Lemma dedup_seen_NoDup seen l : NoDup (dedup_seen seen l).
Proof.
  revert seen. induction l as [|x l IH]; intros seen; simpl; [constructor|].
  case_bool_decide; [done|]. constructor; [|done]. rewrite dedup_seen_spec. set_solver.
Qed.

Lemma query_trigrams_elem q ts t : query_trigrams q = Some ts → t ∈ ts → t ∈ trigrams q.
Proof.
  unfold query_trigrams. destruct (trigrams q) as [|x l]; [done|]. intros E.
  assert (ts = dedup_seen ∅ (x :: l)) as -> by congruence.
  rewrite dedup_seen_spec. tauto.
Qed.

(** The loop keeps the first [MAX_TOKENS_PER_ROW] pieces of indexable length. *)
Lemma default_tokenize_loop_spec pieces out :
  len out < MAX_TOKENS_PER_ROW →
  default_tokenize_loop pieces out =
  take 64 (out ++ (to_ascii_lowercase <$> filter (λ p, MIN_TOKEN_LEN ≤ len p) pieces)).
Proof.
  unfold MAX_TOKENS_PER_ROW. revert out. induction pieces as [|p pieces IH]; intros out Hout; simpl.
  - rewrite app_nil_r, take_ge; [done|]. unfold len in Hout. lia.
  - destruct (Z.ltb_spec (len p) MIN_TOKEN_LEN).
    + rewrite IH by done. by rewrite filter_cons_False by lia.
    + rewrite filter_cons_True, fmap_cons by lia.
      unfold MAX_TOKENS_PER_ROW. destruct (Z.leb_spec 64 (len (out ++ [to_ascii_lowercase p]))).
      * trans (take 64 ((out ++ [to_ascii_lowercase p]) ++
          (to_ascii_lowercase <$> filter (λ p, MIN_TOKEN_LEN ≤ len p) pieces)));
          [|by rewrite <- app_assoc].
        unfold len in *. rewrite length_app in *. simpl in *.
        rewrite take_app_length'; [done|]. rewrite length_app. simpl. lia.
      * rewrite IH by done. by rewrite <- app_assoc.
Qed.

Lemma default_tokenize_spec raw :
  default_tokenize raw =
  take 64 (to_ascii_lowercase <$>
    filter (λ p, MIN_TOKEN_LEN ≤ len p) (str_split (λ c, negb (is_ascii_alphanumeric c)) raw)).
Proof. unfold default_tokenize. by rewrite default_tokenize_loop_spec. Qed.

(** * Serialisation *)

(** What a filter must be for its bytes to be accepted again. *)
Definition wire_ok (b : TokenBloom) : Prop :=
  1 ≤ k b ≤ 255 ∧ bits b ≠ [] ∧ bytes_ok (bits b).

Lemma strip_prefix_Some p bs r : strip_prefix p bs = Some r ↔ bs = p ++ r.
Proof.
  unfold strip_prefix. destruct (is_prefix_of p bs) eqn:E.
  - apply is_prefix_of_spec in E as [t ->]. rewrite drop_app_length. split.
    + by intros [= ->].
    + intros ->%app_inv_head. done.
  - split; [done|]. intros ->. rewrite (proj2 (is_prefix_of_spec _ _)) in E by eauto. done.
Qed.

Lemma from_bytes_Some bs b :
  from_bytes bs = Some b ↔ bs = to_bytes b ∧ k b ≠ 0 ∧ bits b ≠ [].
Proof.
  unfold from_bytes, to_bytes. split.
  - destruct (strip_prefix BLOOM_MAGIC bs) as [rest|] eqn:E; [|done].
    apply strip_prefix_Some in E as ->. cbn [mbind option_bind].
    destruct rest as [|v rest]; [done|].
    destruct (Z.eqb_spec v BLOOM_FORMAT_VERSION) as [->|]; [|done]. cbn [negb].
    destruct rest as [|k' bits']; [done|].
    destruct (Z.eqb_spec k' 0), (bool_decide_reflect (bits' = [])); simpl; try done.
    by intros [= <-].
  - intros (-> & Hk & Hb). rewrite (proj2 (strip_prefix_Some _ _ _) eq_refl).
    cbn [mbind option_bind]. simpl. rewrite (proj2 (Z.eqb_neq _ _)) by done.
    rewrite bool_decide_false by done. by destruct b.
Qed.

Lemma to_bytes_ok b : wire_ok b → bytes_ok (to_bytes b).
Proof.
  intros (Hk & _ & Hb). unfold to_bytes. repeat (apply Forall_app; split); [apply lit_ok| |done].
  repeat constructor; unfold fits, BLOOM_FORMAT_VERSION; lia.
Qed.

Lemma from_to_bytes b : wire_ok b → from_bytes (to_bytes b) = Some b.
Proof. intros (? & ? & ?). apply from_bytes_Some. split; [done|]. split; [lia|done]. Qed.

Lemma reads_u32 z : fits 32 z → reads read_u32 (to_le 4 z) z.
Proof.
  intros Hz. unfold read_u32. rewrite <- (app_nil_r (to_le 4 z)).
  eapply reads_bind; [apply reads_take; by rewrite len_to_le|].
  cbv beta. rewrite from_to_le by (unfold fits in Hz; simpl; lia). apply reads_ret.
Qed.

(** A list of row-group blooms whose lengths fit the [u32] fields. *)
Definition rowgroup_ok (blooms : list TokenBloom) : Prop :=
  Forall wire_ok blooms ∧ len blooms < 2 ^ 32 ∧ Forall (λ b, len (to_bytes b) < 2 ^ 32) blooms
  ∧ len (rowgroup_bytes blooms) < 2 ^ 64.

Lemma reads_bloom b :
  wire_ok b → len (to_bytes b) < 2 ^ 32 → reads read_bloom (rowgroup_entry b) b.
Proof.
  intros Hw Hl. unfold read_bloom, rowgroup_entry.
  assert (fits 32 (len (to_bytes b))) by (pose proof (len_nonneg (to_bytes b)); unfold fits; lia).
  rewrite wrap_small by done. eapply reads_bind; [by apply reads_u32|].
  rewrite <- (app_nil_r (to_bytes b)) at 2.
  eapply reads_bind; [by apply reads_take|]. apply reads_opt. by apply from_to_bytes.
Qed.

Lemma rowgroup_bytes_ok blooms : Forall wire_ok blooms → bytes_ok (rowgroup_bytes blooms).
Proof.
  intros H. unfold rowgroup_bytes, rowgroup_body.
  repeat (apply Forall_app; split); [apply lit_ok| |apply to_le_ok|].
  - repeat constructor; unfold BLOOM_FORMAT_VERSION; lia.
  - apply bytes_ok_bind. eapply Forall_impl; [exact H|]. intros b Hb.
    apply Forall_app; split; [apply to_le_ok|by apply to_bytes_ok].
Qed.

Lemma concat_fmap {A B} (f : A → list B) l : concat (f <$> l) = l ≫= f.
Proof. induction l as [|x l IH]; [done|]. rewrite fmap_cons. simpl. by rewrite IH. Qed.

Lemma reads_blooms blooms : rowgroup_ok blooms → reads read_blooms (rowgroup_body blooms) blooms.
Proof.
  intros (Hw & Hc & Hl & _). unfold rowgroup_body, read_blooms.
  assert (fits 32 (len blooms)) by (pose proof (len_nonneg blooms); unfold fits; lia).
  rewrite wrap_small by done. eapply reads_bind; [by apply reads_u32|].
  rewrite <- concat_fmap. apply reads_times; [|unfold len; lia]. clear Hc H.
  induction blooms as [|b blooms IH]; [constructor|]. inversion_clear Hw. inversion_clear Hl.
  rewrite fmap_cons. constructor; [by apply reads_bloom|]. by apply IH.
Qed.

(** * The properties *)

(** No false negatives, whatever the sizing arithmetic returned: a filter
    built over a list of tokens answers "maybe present" for each of them.  The
    premise bounds the bit count by what memory can hold. *)
Theorem bloom_no_false_negative {f64 : Type} (ideal_bits : Z → f64 → Z) (ideal_k : Z → Z → Z)
    (expected : Z) (fpp : f64) (tokens : list rstr) (t : rstr) :
  ideal_bits (Z.max expected 1) fpp < 2 ^ 63 →
  t ∈ tokens →
  maybe_contains (build ideal_bits ideal_k expected fpp tokens) t = true.
Proof.
  intros Hm Ht. pose proof (build_ok ideal_bits ideal_k expected fpp [] Hm) as Hb.
  unfold build in *. apply maybe_contains_foldl; [exact Hb|by left].
Qed.

Lemma bloom_no_false_negative_witness :
  maybe_contains (build (λ n (_ : unit), 10 * n) (λ _ _, 7) 2 tt
    [lit "error"; lit "timeout"]) (lit "timeout") = true.
Proof.
  apply (bloom_no_false_negative (λ n (_ : unit), 10 * n) (λ _ _, 7) 2 tt
    [lit "error"; lit "timeout"] (lit "timeout")).
  - vm_compute. reflexivity.
  - right. left.
Defined.

(** C28. Pruning a row group by trigrams is sound: when a row of the group
    contains the query substring (letter case ignored), the group's bloom, built
    over the grams its rows put into a [TrigramSet], admits every trigram the
    query is decomposed into. *)
Theorem trigram_prune_sound {f64 : Type} (ideal_bits : Z → f64 → Z) (ideal_k : Z → Z → Z)
    (expected : Z) (fpp : f64) (rows tokens ts : list rstr) (row q : rstr) :
  ideal_bits (Z.max expected 1) fpp < 2 ^ 63 →
  Forall valid_str rows → valid_str q → row ∈ rows →
  (∀ t, t ∈ tokens ↔ t ∈ grams (foldl TrigramSet_add TrigramSet_new rows)) →
  contains (to_ascii_lowercase row) (to_ascii_lowercase q) = true →
  query_trigrams q = Some ts →
  forallb (maybe_contains (build ideal_bits ideal_k expected fpp tokens)) ts = true.
Proof.
  intros Hm Hrows Hq Hrow Htok Hc Hts. apply forallb_forall. intros t Ht%list_elem_of_In.
  pose proof (build_ok ideal_bits ideal_k expected fpp [] Hm) as Hb.
  unfold build in *. apply maybe_contains_foldl; [exact Hb|left].
  apply Htok. rewrite grams_foldl_add. apply elem_of_union_l, elem_of_list_to_set.
  apply list_elem_of_bind. exists row. split; [|done].
  eapply trigrams_substring; [|exact Hq|exact Hc|].
  - rewrite Forall_forall in Hrows. by apply Hrows.
  - by eapply query_trigrams_elem.
Qed.

Lemma trigram_prune_sound_witness :
  let row := lit "GET /api Error 500" in let q := lit "error 5" in
  forallb (maybe_contains (build (λ n (_ : unit), 10 * n) (λ _ _, 7) 20 tt
    (elements (grams (foldl TrigramSet_add TrigramSet_new [row])))))
    [lit "err"; lit "rro"; lit "ror"; lit "or "; lit "r 5"] = true.
Proof.
  intros row q.
  apply (trigram_prune_sound (λ n (_ : unit), 10 * n) (λ _ _, 7) 20 tt [row]
    (elements (grams (foldl TrigramSet_add TrigramSet_new [row]))) _ row q).
  - vm_compute. reflexivity.
  - constructor; [|constructor]. apply (bool_decide_unpack _). vm_compute. exact I.
  - apply (bool_decide_unpack _). vm_compute. exact I.
  - left.
  - intros t. apply elem_of_elements.
  - vm_compute. reflexivity.
  - vm_compute. reflexivity.
Defined.

(** [TrigramSet] holds exactly the trigrams of the strings added to it:
    its reused buffers never leak a gram into or out of the set. *)
Theorem trigram_set_exact (rows : list rstr) (t : rstr) :
  t ∈ grams (foldl TrigramSet_add TrigramSet_new rows) ↔ ∃ row, row ∈ rows ∧ t ∈ trigrams row.
Proof.
  rewrite grams_foldl_add, elem_of_union, elem_of_list_to_set, list_elem_of_bind. simpl.
  set_solver.
Qed.

(** [from_bytes] inverts [to_bytes] and accepts nothing else: a payload
    that is not, byte for byte, the serialisation of a filter with probes and
    bits is refused. *)
Theorem bloom_from_bytes_exact (bs : bytes) (b : TokenBloom) :
  from_bytes bs = Some b ↔ bs = to_bytes b ∧ k b ≠ 0 ∧ bits b ≠ [].
Proof. apply from_bytes_Some. Qed.

(** The per-row-group bloom list survives its hex footer value: decoding
    returns the blooms in row-group order. *)
Theorem rowgroup_blooms_roundtrip (blooms : list TokenBloom) :
  rowgroup_ok blooms → rowgroup_blooms_from_hex (rowgroup_blooms_to_hex blooms) = Some blooms.
Proof.
  intros Hok. pose proof Hok as (Hw & _ & _ & Hl).
  unfold rowgroup_blooms_from_hex, rowgroup_blooms_to_hex.
  rewrite hex_decode_encode by by apply rowgroup_bytes_ok. cbn [mbind option_bind].
  unfold rowgroup_bytes in *. rewrite (proj2 (strip_prefix_Some _ _ _) eq_refl). cbn [mbind option_bind app].
  simpl negb. cbn iota. rewrite (reads_run _ _ _ (reads_blooms _ Hok)); [done|].
  rewrite !len_app in Hl. pose proof (len_nonneg ROWGROUP_LIST_MAGIC).
  pose proof (len_nonneg [BLOOM_FORMAT_VERSION]). lia.
Qed.

Lemma rowgroup_blooms_roundtrip_witness :
  rowgroup_blooms_from_hex (rowgroup_blooms_to_hex [mkBloom [1; 255] 3; mkBloom [7] 1])
  = Some [mkBloom [1; 255] 3; mkBloom [7] 1].
Proof.
  apply (rowgroup_blooms_roundtrip [mkBloom [1; 255] 3; mkBloom [7] 1]).
  unfold rowgroup_ok, wire_ok, bytes_ok, fits.
  repeat (split || constructor); simpl; try done; try (vm_compute; reflexivity); lia.
Defined.
