(* ===== verification/GroupCounts.v ===== *)
(** The group-count footer codec: [crates/loglake-bloom/src/group_counts.rs].

    A file's exact row count per distinct value of each designated column,
    front-coded and varint-packed into the Parquet footer.  The base64 engine
    and the zstd codec are third-party code and enter as parameters; what the
    module relies on is stated as hypotheses where it is used. *)

From stdpp Require Import prelude strings.
From Stdlib Require Import ZArith Lia.
From S2P Require Import Prelude RustStr Hex BTree Cursor Leb128.

Definition MAGIC : bytes := lit "LGCF".
Definition FORMAT_VERSION : Z := 1.
Definition CODEC_RAW : Z := 0.
Definition CODEC_ZSTD : Z := 1.
Definition MAX_DECODED_BYTES : Z := 64 * 1024 * 1024.

(** One column: distinct value to rows, and the rows where it is null. *)
Record ColumnCounts := mkCounts { values : btree Z; nulls : Z }.

(** A file's summary, [GroupCounts::columns]. *)
Abbreviation columns_t := (btree ColumnCounts).

(** * Encoding *)

Definition put_bytes (bs : bytes) : bytes := put_uvarint (len bs) ++ bs.

Definition encode_value (prev value : bytes) (count : Z) : bytes :=
  let shared := common_prefix_len prev value in
  put_uvarint shared ++ put_bytes (drop (Z.to_nat shared) value) ++ put_uvarint count.

Fixpoint encode_values (prev : bytes) (vs : btree Z) : bytes :=
  match vs with
  | [] => []
  | (value, count) :: vs => encode_value prev value count ++ encode_values value vs
  end.

Definition encode_column (name : rstr) (col : ColumnCounts) : bytes :=
  put_bytes name ++ put_uvarint (nulls col) ++ put_uvarint (len (values col))
  ++ encode_values [] (values col).

Definition encode_cols (columns : columns_t) : bytes :=
  mbind (λ '(name, col), encode_column name col) columns.

#[global] Arguments encode_cols : simpl never.

Definition encode_body (columns : columns_t) : bytes :=
  put_uvarint (len columns) ++ encode_cols columns.

(** * Decoding *)

(** [Cursor::bytes]: a length-prefixed byte run. *)
Definition p_bytes : P bytes := let* n := uvarint in p_take n.

(** Reads one front-coded value; the value read is the next predecessor. *)
Definition next_value (prev : bytes) : P (rstr * Z) :=
  let* shared := uvarint in
  let* _ := p_guard (shared <=? len prev) in
  let* suffix := p_bytes in
  let value := take (Z.to_nat shared) prev ++ suffix in
  let* count := uvarint in
  let* value := p_opt (from_utf8 value) in
  p_ret (value, count).

(** [for _ in 0..n_values { values.insert(next_value(..)?) }] *)
Fixpoint decode_values (n : nat) (prev : bytes) (acc : btree Z) : P (btree Z) :=
  match n with
  | O => p_ret acc
  | S n =>
    let* vc := next_value prev in
    decode_values n vc.1 (bt_insert vc.1 vc.2 acc)
  end.

Fixpoint decode_columns_loop (n : nat) (acc : columns_t) : P columns_t :=
  match n with
  | O => p_ret acc
  | S n =>
    let* nb := p_bytes in
    let* name := p_opt (from_utf8 nb) in
    let* nulls := uvarint in
    let* n_values := uvarint in
    let* vs := decode_values (Z.to_nat n_values) [] [] in
    decode_columns_loop n (bt_insert name (mkCounts vs nulls) acc)
  end.

Definition decode_body (body : bytes) : option columns_t :=
  match (let* n_columns := uvarint in decode_columns_loop (Z.to_nat n_columns) []) (Cur body 0) with
  | Some (columns, c) => if pos c =? len body then Some columns else None
  | None => None
  end.

Fixpoint skip_values (n : nat) : P unit :=
  match n with
  | O => p_ret tt
  | S n =>
    let* _ := uvarint in
    let* _ := p_bytes in
    let* _ := uvarint in
    skip_values n
  end.

(** The values of one column in stored order, without building a map. *)
Fixpoint list_values (n : nat) (prev : bytes) : P (list (rstr * Z)) :=
  match n with
  | O => p_ret []
  | S n =>
    let* vc := next_value prev in
    let* vs := list_values n vc.1 in
    p_ret (vc :: vs)
  end.

Fixpoint decode_column_loop (n : nat) (column : rstr) : P (list (rstr * Z) * Z) :=
  match n with
  | O => p_fail
  | S n =>
    let* name := p_bytes in
    let* nulls := uvarint in
    let* n_values := uvarint in
    if bool_decide (name = column) then
      let* vs := list_values (Z.to_nat n_values) [] in p_ret (vs, nulls)
    else
      let* _ := skip_values (Z.to_nat n_values) in decode_column_loop n column
  end.

Fixpoint sum_values (n : nat) (total : Z) : P Z :=
  match n with
  | O => p_ret total
  | S n =>
    let* _ := uvarint in
    let* _ := p_bytes in
    let* count := uvarint in
    sum_values n (saturating_add 64 total count)
  end.

Definition column_total : P (rstr * Z) :=
  let* nb := p_bytes in
  let* name := p_opt (from_utf8 nb) in
  let* nulls := uvarint in
  let* n_values := uvarint in
  let* total := sum_values (Z.to_nat n_values) nulls in
  p_ret (name, total).

Definition column_name : P rstr :=
  let* nb := p_bytes in
  let* name := p_opt (from_utf8 nb) in
  let* _ := uvarint in
  let* n_values := uvarint in
  let* _ := skip_values (Z.to_nat n_values) in
  p_ret name.

(** The third-party codecs the blob goes through: the standard base64 engine,
    [zstd::encode_all(body, 3).ok()], and [zstd::stream::read::Decoder] read to
    its end through [take(limit)]. *)
Class FooterCodecs := {
  b64_encode : bytes → rstr;
  b64_decode : rstr → option bytes;
  zstd_encode : bytes → option bytes;
  zstd_read : bytes → Z → option bytes;
}.

(** Standard base64 text: letters, digits, [+], [/] and [=] padding. *)
Definition is_b64_char (c : Z) : bool :=
  is_ascii_alphanumeric c || (c =? 0x2B) || (c =? 0x2F) || (c =? 0x3D).

(** Their documented behaviour, on byte strings. *)
Class FooterCodecsLaws (F : FooterCodecs) : Prop := {
  b64_roundtrip b : bytes_ok b → b64_decode (b64_encode b) = Some b;
  b64_alphabet b : bytes_ok b → Forall (λ c, is_b64_char c = true) (b64_encode b);
  zstd_encode_bytes body c : bytes_ok body → zstd_encode body = Some c → bytes_ok c;
  zstd_roundtrip body c limit :
    bytes_ok body → zstd_encode body = Some c → 0 ≤ limit → zstd_read c limit = Some (take (Z.to_nat limit) body);
}.

Section Blob.
Context {F : FooterCodecs}.

Definition encode_columns (columns : columns_t) : option rstr :=
  match columns with
  | [] => None
  | _ =>
    let body := encode_body columns in
    let '(codec, payload) :=
      match zstd_encode body with
      | Some c => if len c <? len body then (CODEC_ZSTD, c) else (CODEC_RAW, body)
      | None => (CODEC_RAW, body)
      end in
    Some (b64_encode (MAGIC ++ [FORMAT_VERSION; codec] ++ payload))
  end.

Definition zstd_decode_bounded (payload : bytes) : option bytes :=
  out ← zstd_read payload (MAX_DECODED_BYTES + 1);
  if MAX_DECODED_BYTES <? len out then None else Some out.

Definition blob_body (s : rstr) : option bytes :=
  blob ← b64_decode (trim s);
  if (len blob <? len MAGIC + 2) || negb (bool_decide (take 4 blob = MAGIC))
     || negb (default 0 (blob !! 4%nat) =? FORMAT_VERSION)
  then None else
  let codec := default 0 (blob !! 5%nat) in
  if codec =? CODEC_RAW then Some (drop 6 blob)
  else if codec =? CODEC_ZSTD then zstd_decode_bounded (drop 6 blob)
  else None.

Definition decode_columns (s : rstr) : option columns_t :=
  body ← blob_body s; decode_body body.

Definition decode_column (s : rstr) (column : rstr) : option (list (rstr * Z) * Z) :=
  body ← blob_body s;
  fst <$> (let* n_columns := uvarint in decode_column_loop (Z.to_nat n_columns) column) (Cur body 0).

Definition decode_column_totals (s : rstr) : option (list (rstr * Z)) :=
  body ← blob_body s;
  fst <$> (let* n_columns := uvarint in p_times (Z.to_nat n_columns) column_total) (Cur body 0).

Definition decode_column_names (s : rstr) : option (list rstr) :=
  body ← blob_body s;
  fst <$> (let* n_columns := uvarint in p_times (Z.to_nat n_columns) column_name) (Cur body 0).
End Blob.

(** * What the writer hands over *)

(** A value of the Rust types: every string is a string, every count and every
    length a [u64], every map sorted. *)
Definition value_ok (vc : rstr * Z) : Prop :=
  valid_str vc.1 ∧ u64 (len vc.1) ∧ u64 vc.2.
Definition counts_ok (c : ColumnCounts) : Prop :=
  bt_wf (values c) ∧ u64 (len (values c)) ∧ u64 (nulls c) ∧ Forall value_ok (values c).
Definition column_ok (nc : rstr * ColumnCounts) : Prop :=
  valid_str nc.1 ∧ u64 (len nc.1) ∧ counts_ok nc.2.
Definition columns_ok (cols : columns_t) : Prop :=
  bt_wf cols ∧ u64 (len cols) ∧ Forall column_ok cols.

#[global] Instance value_ok_dec vc : Decision (value_ok vc).
Proof. unfold value_ok. apply _. Defined.
#[global] Instance counts_ok_dec c : Decision (counts_ok c).
Proof. unfold counts_ok. apply _. Defined.
#[global] Instance column_ok_dec nc : Decision (column_ok nc).
Proof. unfold column_ok. apply _. Defined.
#[global] Instance columns_ok_dec cols : Decision (columns_ok cols).
Proof. unfold columns_ok. apply _. Defined.

(** * Reading back *)

Lemma reads_p_bytes bs : u64 (len bs) → reads p_bytes (put_bytes bs) bs.
Proof.
  intros Hl. unfold p_bytes, put_bytes. eapply reads_bind; [by apply reads_uvarint|].
  by apply reads_take.
Qed.
#[local] Hint Resolve reads_p_bytes : reads.

Lemma reads_next_value prev value count :
  value_ok (value, count) → reads (next_value prev) (encode_value prev value count) (value, count).
Proof.
  intros (Hv & Hl & Hc). simpl in *. unfold next_value, encode_value.
  pose proof (common_prefix_bound prev value) as Hb. unfold fits in Hl.
  eapply reads_bind; [apply reads_uvarint; unfold fits; lia|].
  eapply reads_nil_bind; [apply reads_guard, Z.leb_le; lia|].
  eapply reads_bind.
  { apply reads_p_bytes. unfold len, fits in *. rewrite length_drop. lia. }
  cbv beta zeta. eapply reads_bind_nil; [by apply reads_uvarint|].
  eapply reads_nil_bind; [|apply reads_ret]. apply reads_opt.
  rewrite common_prefix_take, take_drop. by apply from_utf8_valid.
Qed.

Lemma reads_decode_values vs prev acc :
  Forall value_ok vs → reads (decode_values (length vs) prev acc) (encode_values prev vs) (bt_of_list vs acc).
Proof.
  intros H. revert prev acc. induction H as [|[v c] vs Hv _ IH]; intros prev acc; simpl.
  - apply reads_ret.
  - eapply reads_bind; [by apply reads_next_value|]. apply IH.
Qed.

Lemma reads_list_values vs prev :
  Forall value_ok vs → reads (list_values (length vs) prev) (encode_values prev vs) vs.
Proof.
  intros H. revert prev. induction H as [|[v c] vs Hv _ IH]; intros prev; simpl.
  - apply reads_ret.
  - eapply reads_bind; [by apply reads_next_value|]. eapply reads_bind_nil; [apply IH|apply reads_ret].
Qed.

(** A pass that skips over the three fields of a value. *)
Lemma reads_value_fields {B} prev v c (f : Z → P B) bs b :
  value_ok (v, c) → reads (f c) bs b →
  reads (let* _ := uvarint in let* _ := p_bytes in let* n := uvarint in f n)
        (encode_value prev v c ++ bs) b.
Proof.
  intros (Hv & Hl & Hc) Hf. simpl in *. unfold encode_value. rewrite <- !app_assoc.
  pose proof (common_prefix_bound prev v) as Hb. unfold fits in Hl.
  eapply reads_bind; [apply reads_uvarint; unfold fits; lia|].
  eapply reads_bind.
  { apply reads_p_bytes. unfold len, fits in *. rewrite length_drop. lia. }
  eapply reads_bind; [by apply reads_uvarint|]. done.
Qed.

Lemma reads_skip_values vs prev :
  Forall value_ok vs → reads (skip_values (length vs)) (encode_values prev vs) tt.
Proof.
  intros H. revert prev. induction H as [|[v c] vs Hv _ IH]; intros prev; simpl; [apply reads_ret|].
  apply (reads_value_fields prev v c (λ _, skip_values (length vs))); [done|apply IH].
Qed.

Definition saturating_sum (total : Z) (vs : btree Z) : Z := foldl (saturating_add 64) total vs.*2.

Lemma saturating_sum_min vs total :
  Forall value_ok vs → u64 total →
  saturating_sum total vs = Z.min (2 ^ 64 - 1) (total + sumZ vs.*2).
Proof.
  unfold saturating_sum. intros H. revert total.
  induction H as [|[v c] vs (_ & _ & Hc) Hvs IH]; intros total Ht; simpl in *.
  - unfold fits in Ht. lia.
  - assert (0 ≤ sumZ vs.*2) as Hs.
    { apply sumZ_nonneg, Forall_fmap. eapply Forall_impl; [done|]. intros [??] (_ & _ & ?).
      unfold fits in *; simpl in *; lia. }
    unfold fits, saturating_add in *. rewrite IH by lia.
    change (list_fmap (rstr * Z)%type Z snd vs) with (vs.*2). lia.
Qed.

Lemma reads_sum_values vs prev total :
  Forall value_ok vs →
  reads (sum_values (length vs) total) (encode_values prev vs) (saturating_sum total vs).
Proof.
  intros H. revert prev total. induction H as [|[v c] vs Hv _ IH]; intros prev total; simpl; [apply reads_ret|].
  apply (reads_value_fields prev v c (λ n, sum_values (length vs) (saturating_add 64 total n)));
    [done|apply IH].
Qed.

(** ** Columns *)

Lemma reads_column_header {B} name (n1 n2 : Z) (f : rstr → Z → Z → P B) bs b :
  u64 (len name) → u64 n1 → u64 n2 → reads (f name n1 n2) bs b →
  reads (let* nb := p_bytes in let* x := uvarint in let* y := uvarint in f nb x y)
        (put_bytes name ++ put_uvarint n1 ++ put_uvarint n2 ++ bs) b.
Proof.
  intros. eapply reads_bind; [by apply reads_p_bytes|].
  eapply reads_bind; [by apply reads_uvarint|]. eapply reads_bind; [by apply reads_uvarint|]. done.
Qed.

Lemma reads_utf8_header {B} name (n1 n2 : Z) (f : rstr → Z → Z → P B) bs b :
  valid_str name → u64 (len name) → u64 n1 → u64 n2 → reads (f name n1 n2) bs b →
  reads (let* nb := p_bytes in let* s := p_opt (from_utf8 nb) in
         let* x := uvarint in let* y := uvarint in f s x y)
        (put_bytes name ++ put_uvarint n1 ++ put_uvarint n2 ++ bs) b.
Proof.
  intros. eapply reads_bind; [by apply reads_p_bytes|].
  eapply reads_nil_bind; [by apply reads_opt, from_utf8_valid|].
  eapply reads_bind; [by apply reads_uvarint|]. eapply reads_bind; [by apply reads_uvarint|]. done.
Qed.

Lemma bt_of_list_nil (vs : btree Z) : bt_wf vs → bt_of_list vs [] = vs.
Proof. intros. by rewrite bt_of_list_sorted. Qed.

Lemma encode_cols_cons name col cols :
  encode_cols ((name, col) :: cols) = encode_column name col ++ encode_cols cols.
Proof. reflexivity. Qed.

Lemma reads_decode_columns cols acc :
  Forall column_ok cols →
  reads (decode_columns_loop (length cols) acc) (encode_cols cols) (bt_of_list cols acc).
Proof.
  intros H. revert acc. induction H as [|[name col] cols Hc _ IH]; intros acc; [apply reads_ret|].
  destruct Hc as (Hv & Hl & Hwf & Hn & Hnulls & Hvs). simpl in *.
  rewrite encode_cols_cons. unfold encode_column. rewrite <- !app_assoc.
  apply (reads_utf8_header name (nulls col) (len (values col))
    (λ s x y, let* vs := decode_values (Z.to_nat y) [] [] in
              decode_columns_loop (length cols) (bt_insert s (mkCounts vs x) acc))); [done..|].
  rewrite to_nat_len. eapply reads_bind; [by apply reads_decode_values|].
  rewrite bt_of_list_nil by done. destruct col. apply IH.
Qed.

Lemma reads_column_total name col :
  column_ok (name, col) →
  reads column_total (encode_column name col) (name, saturating_sum (nulls col) (values col)).
Proof.
  intros (Hv & Hl & Hwf & Hn & Hnulls & Hvs). simpl in *. unfold encode_column, column_total.
  apply (reads_utf8_header name (nulls col) (len (values col))
    (λ s x y, let* t := sum_values (Z.to_nat y) x in p_ret (s, t))); [done..|].
  rewrite to_nat_len. eapply reads_bind_nil; [by apply reads_sum_values|apply reads_ret].
Qed.

Lemma reads_column_name name col :
  column_ok (name, col) → reads column_name (encode_column name col) name.
Proof.
  intros (Hv & Hl & Hwf & Hn & Hnulls & Hvs). simpl in *. unfold encode_column, column_name.
  apply (reads_utf8_header name (nulls col) (len (values col))
    (λ s x y, let* _ := skip_values (Z.to_nat y) in p_ret s)); [done..|].
  rewrite to_nat_len. eapply reads_bind_nil; [by apply reads_skip_values|apply reads_ret].
Qed.

(** Every column's entry read by the same pass. *)
Lemma reads_times_columns {A} (m : P A) (g : rstr * ColumnCounts → A) cols :
  (∀ name col, column_ok (name, col) → reads m (encode_column name col) (g (name, col))) →
  Forall column_ok cols →
  reads (p_times (length cols) m) (encode_cols cols) (g <$> cols).
Proof.
  intros Hm H. induction H as [|[name col] cols Hc _ IH]; [apply reads_ret|].
  rewrite encode_cols_cons, fmap_cons. simpl. eapply reads_bind; [by apply Hm|].
  eapply reads_bind_nil; [exact IH|apply reads_ret].
Qed.

Lemma reads_body {A} (f : nat → P A) cols a :
  u64 (len cols) → reads (f (length cols)) (encode_cols cols) a →
  reads (let* n := uvarint in f (Z.to_nat n)) (encode_body cols) a.
Proof.
  intros Hl Hf. unfold encode_body. eapply reads_bind; [by apply reads_uvarint|].
  by rewrite to_nat_len.
Qed.

(** The column pass finds the column whatever precedes it, and refuses when the
    body has no such column. *)
Lemma reads_decode_column pre name col k :
  Forall column_ok pre → column_ok (name, col) → name ∉ pre.*1 →
  reads (decode_column_loop (length pre + S k) name)
    (encode_cols pre ++ encode_column name col) (values col, nulls col).
Proof.
  intros Hpre (Hv & Hl & Hwf & Hn & Hnulls & Hvs). simpl in *.
  induction Hpre as [|[n c] pre Hc _ IH]; intros Hnin.
  - simpl. unfold encode_column. apply (reads_column_header name (nulls col) (len (values col))
      (λ nb x y, if bool_decide (nb = name)
        then let* vs := list_values (Z.to_nat y) [] in p_ret (vs, x)
        else let* _ := skip_values (Z.to_nat y) in decode_column_loop k name)); [done..|].
    rewrite bool_decide_true, to_nat_len by done.
    eapply reads_bind_nil; [by apply reads_list_values|apply reads_ret].
  - rewrite fmap_cons, not_elem_of_cons in Hnin. destruct Hnin as [Hne Hnin]. simpl in Hne.
    destruct Hc as (Hv' & Hl' & Hwf' & Hn' & Hnulls' & Hvs'). simpl in *.
    rewrite encode_cols_cons. unfold encode_column at 1. rewrite <- !app_assoc.
    apply (reads_column_header n (nulls c) (len (values c))
      (λ nb x y, if bool_decide (nb = name)
        then let* vs := list_values (Z.to_nat y) [] in p_ret (vs, x)
        else let* _ := skip_values (Z.to_nat y) in decode_column_loop (length pre + S k) name)); [done..|].
    rewrite bool_decide_false, to_nat_len by done.
    eapply reads_bind; [by apply reads_skip_values|]. by apply IH.
Qed.

Lemma refuses_decode_column cols name :
  Forall column_ok cols → name ∉ cols.*1 →
  refuses (decode_column_loop (length cols) name) (encode_cols cols).
Proof.
  induction 1 as [|[n c] cols Hc _ IH]; intros Hnin; [by intros pre post _|].
  rewrite fmap_cons, not_elem_of_cons in Hnin. destruct Hnin as [Hne Hnin]. simpl in Hne.
  destruct Hc as (Hv' & Hl' & Hwf' & Hn' & Hnulls' & Hvs'). simpl in *.
  rewrite encode_cols_cons. unfold encode_column at 1. rewrite <- !app_assoc.
  eapply refuses_bind; [by apply reads_p_bytes|].
  eapply refuses_bind; [by apply reads_uvarint|]. eapply refuses_bind; [by apply reads_uvarint|].
  cbv beta. rewrite bool_decide_false, to_nat_len by done.
  eapply refuses_bind; [by apply reads_skip_values|]. by apply IH.
Qed.

Lemma encode_body_split pre nc post :
  encode_body (pre ++ nc :: post)
  = (put_uvarint (len (pre ++ nc :: post)) ++ encode_cols pre ++ encode_column nc.1 nc.2)
    ++ encode_cols post.
Proof.
  destruct nc as [n c]. unfold encode_body, encode_cols at 1. rewrite bind_app, <- !app_assoc. done.
Qed.

Lemma reads_column_in_body pre name col post :
  bt_wf (pre ++ (name, col) :: post) → u64 (len (pre ++ (name, col) :: post)) →
  Forall column_ok (pre ++ (name, col) :: post) →
  reads (let* n := uvarint in decode_column_loop (Z.to_nat n) name)
    (put_uvarint (len (pre ++ (name, col) :: post)) ++ encode_cols pre ++ encode_column name col)
    (values col, nulls col).
Proof.
  intros Hwf Hl [Hpre [Hcol _]%Forall_cons]%Forall_app.
  eapply reads_bind; [by apply reads_uvarint|]. rewrite to_nat_len, length_app. simpl.
  apply reads_decode_column; [done..|].
  apply bt_wf_app in Hwf as (_ & _ & Hlt). intros Hin.
  apply (irreflexivity lex_lt name). apply Hlt; [done|]. rewrite fmap_cons. by left.
Qed.

Lemma put_uvarint_ok v : u64 v → bytes_ok (put_uvarint v).
Proof. intros H. rewrite put_uvarint_spec by done. apply leb128_ok. apply H. Qed.

Lemma put_bytes_ok bs : bytes_ok bs → u64 (len bs) → bytes_ok (put_bytes bs).
Proof. intros. apply Forall_app. by split; [apply put_uvarint_ok|]. Qed.

Lemma encode_values_ok prev vs :
  Forall value_ok vs → bytes_ok (encode_values prev vs).
Proof.
  intros H. revert prev. induction H as [|[v c] vs (Hv & Hl & Hc) _ IH]; intros prev; [constructor|].
  simpl in *. apply Forall_app; split; [|apply IH]. unfold encode_value.
  pose proof (common_prefix_bound prev v) as Hp. unfold fits in Hl.
  repeat (apply Forall_app; split); try apply put_uvarint_ok; try done; try (unfold fits; lia).
  - unfold fits. unfold len in *. rewrite length_drop. lia.
  - by apply Forall_drop, valid_str_bytes.
Qed.

Lemma encode_body_ok cols : columns_ok cols → bytes_ok (encode_body cols).
Proof.
  intros (_ & Hl & Hall). apply Forall_app. split; [by apply put_uvarint_ok|].
  apply bytes_ok_bind. eapply Forall_impl; [done|].
  intros [n c] (Hn & Hln & _ & Hlv & Hnu & Hvs). unfold encode_column; simpl in *.
  repeat (apply Forall_app; split); try (by apply put_uvarint_ok); [by apply valid_str_bytes|].
  by apply encode_values_ok.
Qed.

(** ** The blob *)

Section BlobFacts.
Context {F : FooterCodecs} {FL : FooterCodecsLaws F}.

Lemma b64_char_plain c : is_b64_char c = true → 0 ≤ c < 0x80 ∧ is_whitespace c = false.
Proof.
  intros H. assert (0 ≤ c < 0x80) as Hc.
  { unfold is_b64_char in H. rewrite !orb_true_iff, !Z.eqb_eq in H.
    destruct H as [[[H|H]|H]|H]; [by apply alnum_ascii in H|lia..]. }
  split; [done|]. assert (c ∈ seqZ 0 128) as Hin by (apply elem_of_seqZ; lia).
  assert (forallb (λ c, implb (is_b64_char c) (negb (is_whitespace c))) (seqZ 0 128) = true) as Hall
    by (vm_compute; reflexivity).
  rewrite forallb_forall in Hall. apply list_elem_of_In, Hall in Hin.
  rewrite H in Hin. simpl in Hin. by apply negb_true_iff in Hin.
Qed.

Lemma trim_b64 b : bytes_ok b → trim (b64_encode b) = b64_encode b.
Proof.
  intros. apply trim_id. eapply Forall_impl; [by apply b64_alphabet|]. apply b64_char_plain.
Qed.

Lemma blob_body_of codec payload :
  is_byte codec → bytes_ok payload →
  blob_body (b64_encode (MAGIC ++ [FORMAT_VERSION; codec] ++ payload)) =
  if codec =? CODEC_RAW then Some payload
  else if codec =? CODEC_ZSTD then zstd_decode_bounded payload else None.
Proof.
  intros Hc Hp. assert (bytes_ok (MAGIC ++ [FORMAT_VERSION; codec] ++ payload)) as Hok.
  { apply Forall_app; split; [apply lit_ok|]. repeat (constructor; [done|]). done. }
  unfold blob_body. rewrite trim_b64, b64_roundtrip by done. cbn [mbind option_bind].
  rewrite (proj2 (Z.ltb_ge _ _)); [done|]. len_lia.
Qed.

Lemma zstd_decode_encode body c :
  bytes_ok body → zstd_encode body = Some c →
  zstd_decode_bounded c = if MAX_DECODED_BYTES <? len body then None else Some body.
Proof.
  intros Hok Hz. unfold zstd_decode_bounded. rewrite (zstd_roundtrip body c) by (done || unfold MAX_DECODED_BYTES; lia).
  cbn [mbind option_bind]. unfold len. rewrite length_take.
  destruct (Z.ltb_spec MAX_DECODED_BYTES (Z.of_nat (length body))) as [Hb|Hb].
  - rewrite (proj2 (Z.ltb_lt _ _)); [done|]. unfold MAX_DECODED_BYTES in *. lia.
  - rewrite (proj2 (Z.ltb_ge _ _)) by (unfold MAX_DECODED_BYTES in *; lia).
    rewrite take_ge; [done|]. unfold MAX_DECODED_BYTES in *. lia.
Qed.

Lemma encode_columns_blob cols s :
  columns_ok cols → encode_columns cols = Some s →
  blob_body s = Some (encode_body cols)
  ∨ blob_body s = None ∧ MAX_DECODED_BYTES < len (encode_body cols).
Proof.
  intros Hok%encode_body_ok. unfold encode_columns. destruct cols as [|nc cols]; [done|].
  set (body := encode_body _) in *.
  destruct (zstd_encode body) as [c|] eqn:Hz; [destruct (len c <? len body)|];
    intros <-%(inj Some); rewrite blob_body_of by (done || by eapply zstd_encode_bytes); [|by left..].
  simpl. rewrite (zstd_decode_encode body c Hok Hz).
  destruct (Z.ltb_spec MAX_DECODED_BYTES (len body)); [by right|by left].
Qed.

(** A body the ceiling admits reads back whole. *)
Lemma encode_columns_body cols :
  columns_ok cols → cols ≠ [] → len (encode_body cols) ≤ MAX_DECODED_BYTES →
  ∃ s, encode_columns cols = Some s ∧ blob_body s = Some (encode_body cols).
Proof.
  intros Hok Hne Hl. destruct (encode_columns cols) as [s|] eqn:E.
  - exists s. split; [done|]. apply encode_columns_blob in E; [|done]. destruct E as [?|[_ ?]]; [done|lia].
  - exfalso. unfold encode_columns in E. destruct cols; [done|]. by repeat case_match.
Qed.
End BlobFacts.

Lemma small_body {A} (l : list A) : len l ≤ MAX_DECODED_BYTES → len l < 2 ^ 64.
Proof. unfold MAX_DECODED_BYTES. lia. Qed.

(** ** Arbitrary bodies *)

(** What the decoder promises of a summary it accepts. *)
Definition parsed_value (vc : rstr * Z) : Prop := valid_str vc.1 ∧ u64 vc.2.
Definition parsed_column (nc : rstr * ColumnCounts) : Prop :=
  valid_str nc.1 ∧ u64 (nulls nc.2) ∧ bt_wf (values nc.2) ∧ Forall parsed_value (values nc.2).

Lemma ensures_p_bytes : ensures p_bytes (λ _, True).
Proof.
  eapply ensures_bind; [apply ensures_uvarint|]. intros n Hn.
  eapply ensures_weaken; [apply ensures_take; unfold fits in Hn; lia|done].
Qed.

Lemma ensures_utf8 bs : ensures (p_opt (from_utf8 bs)) valid_str.
Proof. eapply ensures_weaken; [apply ensures_opt|]. by intros s [_ ?]%from_utf8_Some. Qed.

Lemma ensures_next_value prev : ensures (next_value prev) parsed_value.
Proof.
  unfold next_value. eapply ensures_bind; [apply ensures_uvarint|]. intros shared _.
  eapply ensures_bind; [apply ensures_guard|]. intros _ _.
  eapply ensures_bind; [apply ensures_p_bytes|]. intros suffix _. cbv zeta.
  eapply ensures_bind; [apply ensures_uvarint|]. intros count Hc.
  eapply ensures_bind; [apply ensures_utf8|]. intros v Hv. by apply ensures_ret.
Qed.

Lemma ensures_decode_values n prev acc :
  bt_wf acc → Forall parsed_value acc →
  ensures (decode_values n prev acc) (λ vs, bt_wf vs ∧ Forall parsed_value vs).
Proof.
  revert prev acc. induction n as [|n IH]; intros prev acc Hwf Hall; simpl; [by apply ensures_ret|].
  eapply ensures_bind; [apply ensures_next_value|]. intros [v c] Hvc. simpl.
  apply IH; [by apply bt_insert_wf|by apply bt_insert_Forall].
Qed.

Lemma ensures_decode_columns n acc :
  bt_wf acc → Forall parsed_column acc →
  ensures (decode_columns_loop n acc) (λ cols, bt_wf cols ∧ Forall parsed_column cols).
Proof.
  revert acc. induction n as [|n IH]; intros acc Hwf Hall; simpl; [by apply ensures_ret|].
  eapply ensures_bind; [apply ensures_p_bytes|]. intros nb _.
  eapply ensures_bind; [apply ensures_utf8|]. intros name Hname.
  eapply ensures_bind; [apply ensures_uvarint|]. intros nl Hnl.
  eapply ensures_bind; [apply ensures_uvarint|]. intros nv _.
  eapply ensures_bind; [by apply ensures_decode_values; [apply bt_wf_nil|]|]. intros vs [Hvs Hvs'].
  apply IH; [by apply bt_insert_wf|by apply bt_insert_Forall].
Qed.

(** ** A concrete pair of codecs

    Hexadecimal text in place of base64 and a one-entry dictionary in place of
    zstd: they satisfy the laws, so the properties below have instances. *)
Section Sample.
Variable dictionary : bytes.

Definition sample_codecs : FooterCodecs := {|
  b64_encode := hex_encode;
  b64_decode := hex_decode;
  zstd_encode body := if bool_decide (body = dictionary) then Some [0] else None;
  zstd_read payload limit :=
    if bool_decide (payload = [0]) then Some (take (Z.to_nat limit) dictionary) else None;
|}.

Lemma sample_codecs_laws : FooterCodecsLaws sample_codecs.
Proof.
  split; simpl.
  - apply hex_decode_encode.
  - intros b Hb. eapply Forall_impl; [by apply hex_alphanumeric|].
    intros c Hc. unfold is_b64_char. by rewrite Hc.
  - intros body c _. case_bool_decide; [|done]. intros [= <-]. by repeat constructor.
  - intros body c limit _. case_bool_decide; [|done]. intros [= <-] _. by subst.
Qed.
End Sample.

Definition sample_columns : columns_t :=
  [(lit "host", mkCounts [(lit "web-1", 7); (lit "web-10", 2 ^ 64 - 1)] 3);
   (lit "sev", mkCounts [(lit "error", 2)] 0)].

Lemma sample_columns_ok : columns_ok sample_columns.
Proof.
  apply (bool_decide_unpack _). vm_compute. exact I.
Qed.

Abbreviation sample_in := (sample_codecs (encode_body sample_columns)).
Abbreviation sample_laws := (sample_codecs_laws (encode_body sample_columns)).

(** * The properties *)

(** A footer summary survives its encoding: what a writer stamps decodes to
    the same columns, nulls and counts. *)
Theorem group_counts_roundtrip {F : FooterCodecs} {FL : FooterCodecsLaws F} (cols : columns_t) :
  columns_ok cols → cols ≠ [] → len (encode_body cols) ≤ MAX_DECODED_BYTES →
  ∃ s, encode_columns cols = Some s ∧ decode_columns s = Some cols.
Proof.
  intros (Hwf & Hl & Hall) Hne Hlen.
  destruct (encode_columns_body cols (conj Hwf (conj Hl Hall)) Hne Hlen) as (s & Hs & Hb). exists s. split; [done|].
  unfold decode_columns. rewrite Hb. cbn [mbind option_bind]. unfold decode_body.
  rewrite (reads_run _ _ (bt_of_list cols [])).
  - simpl. by rewrite Z.eqb_refl, bt_of_list_sorted.
  - apply (reads_body (λ n, decode_columns_loop n [])); [done|]. by apply reads_decode_columns.
  - by apply small_body.
Qed.

Lemma group_counts_roundtrip_witness :
  ∃ s, encode_columns (F := sample_in) sample_columns = Some s
       ∧ decode_columns (F := sample_in) s = Some sample_columns.
Proof.
  apply (group_counts_roundtrip (FL := sample_laws) sample_columns sample_columns_ok).
  - done.
  - vm_compute. congruence.
Defined.

(** Reading one column skips the others and returns exactly that column's
    values in stored order, or nothing when the file does not cover it. *)
Theorem group_counts_one_column {F : FooterCodecs} {FL : FooterCodecsLaws F}
    (cols : columns_t) (s column : rstr) :
  columns_ok cols → encode_columns cols = Some s → len (encode_body cols) ≤ MAX_DECODED_BYTES →
  decode_column s column = (λ c, (values c, nulls c)) <$> bt_get column cols.
Proof.
  intros Hok Hs Hlen.
  apply encode_columns_blob in Hs as [Hb|[_ ?]]; [|lia|done]. destruct Hok as (Hwf & Hl & Hall).
  unfold decode_column. rewrite Hb. cbn [mbind option_bind]. apply small_body in Hlen.
  destruct (bt_get column cols) as [col|] eqn:Hg.
  - apply bt_get_Some_elem in Hg. apply list_elem_of_split in Hg as (pre & post & ->).
    rewrite encode_body_split in *. by erewrite reads_prefix; [|by apply reads_column_in_body|].
  - rewrite refuses_run; [done| |done]. unfold encode_body.
    eapply refuses_bind; [by apply reads_uvarint|].
    rewrite to_nat_len. apply refuses_decode_column; [done|]. by apply bt_get_None.
Qed.

Lemma group_counts_one_column_witness :
  decode_column (F := sample_in) (lit "4c47434601010") (lit "sev") = None
  ∧ decode_column (F := sample_in) (lit "4c474346010100") (lit "sev") = Some ([(lit "error", 2)], 0)
  ∧ decode_column (F := sample_in) (lit "4c474346010100") (lit "index") = None.
Proof.
  split; [reflexivity|].
  split; (etransitivity;
    [apply (group_counts_one_column (FL := sample_laws) sample_columns _ _ sample_columns_ok)|]);
    vm_compute; congruence.
Defined.

(** The two whole-blob passes agree with the full decode: each column's row
    total is its nulls plus its value counts, saturating at the top of [u64], and
    the names are the columns', in order. *)
Theorem group_counts_passes {F : FooterCodecs} {FL : FooterCodecsLaws F}
    (cols : columns_t) (s : rstr) :
  columns_ok cols → encode_columns cols = Some s → len (encode_body cols) ≤ MAX_DECODED_BYTES →
  decode_column_totals s
    = Some ((λ nc, (nc.1, Z.min (2 ^ 64 - 1) (nulls nc.2 + sumZ (values nc.2).*2))) <$> cols)
  ∧ decode_column_names s = Some cols.*1.
Proof.
  intros Hok Hs Hlen.
  apply encode_columns_blob in Hs as [Hb|[_ ?]]; [|lia|done]. destruct Hok as (Hwf & Hl & Hall). apply small_body in Hlen.
  unfold decode_column_totals, decode_column_names. rewrite Hb. cbn [mbind option_bind]. split.
  - erewrite reads_run; [reflexivity| |done].
    apply (reads_body (λ n, p_times n column_total)); [done|].
    apply reads_times_columns; [|done]. intros name col Hc.
    rewrite <- saturating_sum_min by (by destruct Hc as (_ & _ & _ & _ & ? & ?)).
    by apply reads_column_total.
  - erewrite reads_run; [reflexivity| |done].
    apply (reads_body (λ n, p_times n column_name)); [done|].
    apply reads_times_columns; [|done]. apply reads_column_name.
Qed.

Lemma group_counts_passes_witness :
  decode_column_totals (F := sample_in) (lit "4c474346010100")
    = Some [(lit "host", 2 ^ 64 - 1); (lit "sev", 2)]
  ∧ decode_column_names (F := sample_in) (lit "4c474346010100") = Some [lit "host"; lit "sev"].
Proof.
  destruct (group_counts_passes (FL := sample_laws) sample_columns (lit "4c474346010100")
    sample_columns_ok) as [Ht Hn]; [vm_compute; congruence..|].
  split; [rewrite Ht|rewrite Hn]; vm_compute; reflexivity.
Defined.

(** The size ceiling never truncates: the body read back from a stamped
    blob is the stamped body, byte for byte, or nothing at all, and nothing only
    when the body is above the ceiling. *)
Theorem group_counts_never_truncated {F : FooterCodecs} {FL : FooterCodecsLaws F}
    (cols : columns_t) (s : rstr) :
  columns_ok cols → encode_columns cols = Some s →
  blob_body s = Some (encode_body cols)
  ∨ blob_body s = None ∧ MAX_DECODED_BYTES < len (encode_body cols).
Proof. apply encode_columns_blob. Qed.

Lemma group_counts_never_truncated_witness :
  blob_body (F := sample_in) (lit "4c474346010100") = Some (encode_body sample_columns)
  ∨ blob_body (F := sample_in) (lit "4c474346010100") = None
    ∧ MAX_DECODED_BYTES < len (encode_body sample_columns).
Proof.
  apply (group_counts_never_truncated (FL := sample_laws) sample_columns _ sample_columns_ok).
  vm_compute. reflexivity.
Defined.

(** Whatever the footer holds, a summary that decodes is well formed: its
    columns and values sorted and unique, its strings valid UTF-8, its counts
    [u64]s. *)
Theorem group_counts_parsed_ok {F : FooterCodecs} (s : rstr) (cols : columns_t) :
  decode_columns s = Some cols →
  bt_wf cols ∧ Forall parsed_column cols.
Proof.
  unfold decode_columns. intros (body & _ & H)%bind_Some. unfold decode_body in H.
  destruct (p_bind _ _ _) as [[cs c]|] eqn:E; [|done]. simpl in H.
  destruct (_ =? _); [|done]. assert (cs = cols) as -> by congruence.
  eapply (ensures_bind uvarint _ _ (λ cols, bt_wf cols ∧ Forall parsed_column cols))
    in E as [? _]; [done|apply ensures_uvarint| |simpl; len_lia].
  intros n _. by apply ensures_decode_columns; [apply bt_wf_nil|].
Qed.

Lemma group_counts_parsed_ok_witness :
  bt_wf [(lit "b", mkCounts [(lit "x", 5)] 1)]
  ∧ Forall parsed_column [(lit "b", mkCounts [(lit "x", 5)] 1)].
Proof.
  apply (group_counts_parsed_ok (F := sample_in)
    (lit "4c474346010002016200000162010100017805") [(lit "b", mkCounts [(lit "x", 5)] 1)]).
  vm_compute. reflexivity.
Defined.
