(* ===== verification/Postings.v ===== *)
(** Ascending posting lists, the currency of both index formats
    ([union_sorted] and [intersect_sorted] of [crates/loglake-index/src/lib.rs]
    and [segmented.rs], written twice with the same body).

    A posting list is a strictly ascending list of row ordinals, so it is the
    one list of its members in order: [ascending_ext] turns every statement
    about which rows an operation returns into an equation. *)

From stdpp Require Import prelude sorting.
From Stdlib Require Import ZArith Lia.
From S2P Require Import Prelude.

(** The two cursors [i] and [j] advance together over the rest of each list. *)
Fixpoint union_sorted (a : list Z) : list Z → list Z :=
  fix go (b : list Z) : list Z :=
    match a, b with
    | [], _ => b
    | _, [] => a
    | x :: a', y :: b' =>
      match x ?= y with
      | Lt => x :: union_sorted a' b
      | Gt => y :: go b'
      | Eq => x :: union_sorted a' b'
      end
    end.

Fixpoint intersect_sorted (a : list Z) : list Z → list Z :=
  fix go (b : list Z) : list Z :=
    match a, b with
    | [], _ => []
    | _, [] => []
    | x :: a', y :: b' =>
      match x ?= y with
      | Lt => intersect_sorted a' b
      | Gt => go b'
      | Eq => x :: intersect_sorted a' b'
      end
    end.

(** * Ascending lists *)

Definition ascending : list Z → Prop := StronglySorted Z.lt.

#[global] Instance ascending_dec l : Decision (ascending l).
Proof. unfold ascending. apply _. Defined.

Create HintDb postings.

Lemma ascending_nil : ascending [].
Proof. constructor. Qed.

Lemma ascending_cons x l : ascending (x :: l) ↔ Forall (Z.lt x) l ∧ ascending l.
Proof.
  split; [by intros [??]%StronglySorted_inv|]. intros [??]. by constructor.
Qed.

Lemma ascending_singleton x : ascending [x].
Proof. by repeat constructor. Qed.

Lemma ascending_app a b :
  ascending (a ++ b) ↔ ascending a ∧ ascending b ∧ ∀ x y, x ∈ a → y ∈ b → x < y.
Proof. apply (sorted_app Z.lt). Qed.

Lemma ascending_head_notin x l : ascending (x :: l) → x ∉ l.
Proof.
  rewrite ascending_cons, Forall_forall. intros [H _] Hin. specialize (H x Hin). lia.
Qed.

Lemma ascending_ext a b : ascending a → ascending b → (∀ x, x ∈ a ↔ x ∈ b) → a = b.
Proof. apply (sorted_ext Z.lt). Qed.

Lemma ascending_seqZ m n : ascending (seqZ m n).
Proof.
  destruct (Z.le_gt_cases n 0) as [|Hn]; [rewrite seqZ_nil by lia; apply ascending_nil|].
  assert (0 ≤ n) as Hn' by lia. clear Hn. revert n Hn' m. apply (natlike_ind (λ n, ∀ m, ascending (seqZ m n))).
  - intros m. rewrite seqZ_nil by lia. apply ascending_nil.
  - intros k Hk IH m. rewrite seqZ_cons, Z.pred_succ by lia. apply ascending_cons. split; [|done].
    rewrite Forall_forall. intros x [? ?]%elem_of_seqZ. lia.
Qed.

Lemma ascending_filter (Q : Z → Prop) `{∀ x, Decision (Q x)} l : ascending l → ascending (filter Q l).
Proof.
  induction 1 as [|x l Hl IH Hx]; [apply ascending_nil|]. rewrite filter_cons.
  destruct (decide (Q x)); [|done]. apply ascending_cons. split; [|done].
  rewrite Forall_forall in *. intros y [_ ?]%list_elem_of_filter. auto.
Qed.

#[export] Hint Resolve ascending_nil ascending_singleton ascending_seqZ ascending_filter : postings.

(** * Union and intersection *)

Lemma elem_of_union_sorted a b x : x ∈ union_sorted a b ↔ x ∈ a ∨ x ∈ b.
Proof.
  revert b. induction a as [|y a IHa]; [destruct b; set_solver|].
  induction b as [|z b IHb]; [set_solver|]. simpl.
  destruct (Z.compare_spec y z); rewrite elem_of_cons; [rewrite IHa|rewrite IHa|rewrite IHb]; set_solver.
Qed.

Lemma union_sorted_ascending a b : ascending a → ascending b → ascending (union_sorted a b).
Proof.
  intros Ha. revert b. induction Ha as [|x a Ha IHa Hx]; [by destruct b|].
  induction 1 as [|y b Hb IHb Hy]; [by constructor|]. simpl.
  rewrite Forall_forall in Hx, Hy.
  destruct (Z.compare_spec x y); apply ascending_cons; rewrite Forall_forall; (split; [|auto]).
  - intros z Hz. apply elem_of_union_sorted in Hz as [?|?]; [auto|subst; auto].
  - intros z Hz. apply elem_of_union_sorted in Hz as [?|[->|?]%elem_of_cons]; [auto|lia|].
    specialize (Hy z). lia || (assert (y < z) by auto; lia).
  - apply IHa. by constructor; [|apply Forall_forall].
  - intros z Hz. apply (elem_of_union_sorted (x :: a) b) in Hz as [[->|?]%elem_of_cons|?]; [lia| |auto].
    assert (x < z) by auto. lia.
Qed.

Lemma elem_of_intersect_sorted a b x :
  ascending a → ascending b → x ∈ intersect_sorted a b ↔ x ∈ a ∧ x ∈ b.
Proof.
  intros Ha. revert b. induction Ha as [|y a Ha IHa Hy]; [destruct b; set_solver|].
  induction 1 as [|z b Hb IHb Hz]; [set_solver|]. simpl.
  rewrite Forall_forall in Hy, Hz. destruct (Z.compare_spec y z) as [->|Hlt|Hlt].
  - rewrite elem_of_cons, IHa by done. set_solver.
  - rewrite IHa by (by constructor; [|apply Forall_forall]). rewrite !elem_of_cons.
    split; [naive_solver|]. intros [[->|?] [->|Hb']]; try tauto; [lia|].
    specialize (Hz _ Hb'). lia.
  - setoid_rewrite IHb. rewrite !elem_of_cons. split; [naive_solver|].
    intros [[->|Ha'] [->|?]]; try tauto; [lia|]. specialize (Hy _ Ha'). lia.
Qed.

Lemma intersect_sorted_ascending a b : ascending a → ascending b → ascending (intersect_sorted a b).
Proof.
  intros Ha. revert b. induction Ha as [|x a Ha IHa Hx]; [destruct b; intros; apply ascending_nil|].
  induction 1 as [|y b Hb IHb Hy]; [apply ascending_nil|]. simpl.
  destruct (Z.compare_spec x y); [|by apply IHa; constructor|done].
  apply ascending_cons. split; [|by apply IHa]. rewrite Forall_forall in *. intros z Hz.
  apply elem_of_intersect_sorted in Hz as [??]; auto.
Qed.

#[export] Hint Resolve union_sorted_ascending intersect_sorted_ascending : postings.
