(* ===== verification/RowSelection.v ===== *)
(** Row-selection runs, [row_selection_runs] of
    [crates/loglake-index/src/lib.rs]: the rows an index admits as the
    alternating select and skip runs a Parquet reader is given. *)

From stdpp Require Import prelude.
From Stdlib Require Import ZArith Lia.
From S2P Require Import Prelude Postings.

(** The [push] closure: a zero-length run is dropped, a run of the last kind is
    merged into it. *)
Definition push_run (runs : list (bool * Z)) (kind : bool) (l : Z) : list (bool * Z) :=
  if l =? 0 then runs else
  match last runs with
  | Some (k, l0) => if Bool.eqb k kind then removelast runs ++ [(k, l0 + l)] else runs ++ [(kind, l)]
  | None => runs ++ [(kind, l)]
  end.

Definition select_ordinal (n_rows : Z) (s : list (bool * Z) * Z) (ord : Z) : list (bool * Z) * Z :=
  let '(runs, cursor) := s in
  if (n_rows <=? ord) || (ord <? cursor) then s
  else (push_run (push_run runs false (ord - cursor)) true 1, ord + 1).

Definition row_selection_runs (selected : list Z) (n_rows : Z) : list (bool * Z) :=
  let '(runs, cursor) := foldl (select_ordinal n_rows) ([], 0) selected in
  push_run runs false (saturating_sub n_rows cursor).

(** * What the runs mean *)

(** The decision the runs make on each row, in row order. *)
Definition expand (runs : list (bool * Z)) : list bool :=
  mbind (λ '(kind, l), replicate (Z.to_nat l) kind) runs.

Definition alternating (runs : list (bool * Z)) : Prop :=
  ∀ i r r', runs !! i = Some r → runs !! S i = Some r' → r.1 ≠ r'.1.

Definition runs_ok (runs : list (bool * Z)) : Prop :=
  Forall (λ r, 0 < r.2) runs ∧ alternating runs.

Lemma expand_app a b : expand (a ++ b) = expand a ++ expand b.
Proof. apply bind_app. Qed.

Lemma expand_one kind l : expand [(kind, l)] = replicate (Z.to_nat l) kind.
Proof. apply app_nil_r. Qed.

Lemma alternating_snoc runs r :
  alternating (runs ++ [r]) ↔ alternating runs ∧ ∀ r', last runs = Some r' → r'.1 ≠ r.1.
Proof.
  split.
  - intros H. split.
    + intros i a b Ha Hb. by apply (H i); apply lookup_app_l_Some.
    + intros a Ha. apply (H (length runs - 1)%nat).
      * rewrite last_lookup in Ha. apply lookup_app_l_Some. by rewrite Nat.sub_1_r.
      * destruct runs as [|x runs]; [done|].
        replace (S (length (x :: runs) - 1)) with (length (x :: runs)) by (simpl; lia).
        apply list_lookup_middle. done.
  - intros [Ha Hl] i a b Hi Hi'. destruct (decide (S i < length runs)%nat) as [Hlt|Hge].
    + rewrite !lookup_app_l in * by lia. by eapply Ha.
    + assert (i < length runs)%nat as Hi0.
      { apply lookup_lt_Some in Hi'. rewrite length_app in Hi'. simpl in Hi'. lia. }
      rewrite lookup_app_l in Hi by lia. rewrite lookup_app_r in Hi' by lia.
      replace (S i - length runs)%nat with 0%nat in Hi' by lia. injection Hi' as <-.
      apply Hl. rewrite last_lookup. by replace (Nat.pred (length runs)) with i by lia.
Qed.

Lemma push_run_spec runs kind l :
  runs_ok runs → 0 ≤ l →
  runs_ok (push_run runs kind l)
  ∧ expand (push_run runs kind l) = expand runs ++ replicate (Z.to_nat l) kind.
Proof.
  intros [Hpos Halt] Hl. unfold push_run. destruct (Z.eqb_spec l 0) as [->|Hl0].
  { split; [done|]. by rewrite app_nil_r. }
  destruct runs as [|[k l0] runs _] using rev_ind.
  { split; [|apply expand_one]. split; [repeat constructor; simpl; lia|].
    by apply (alternating_snoc []). }
  rewrite last_snoc. apply alternating_snoc in Halt as [Halt Hlast].
  apply Forall_app in Hpos as [Hpos [Hp0 _]%Forall_cons]. simpl in Hp0.
  destruct (Bool.eqb_spec k kind) as [->|Hne].
  - rewrite removelast_last. split.
    + split; [apply Forall_app; split; [done|]; repeat constructor; simpl; lia|].
      by apply alternating_snoc.
    + rewrite !expand_app, !expand_one, <- app_assoc, <- replicate_add. do 2 f_equal. lia.
  - split; [|by rewrite (expand_app _ [_]), expand_one]. split.
    + rewrite !Forall_app. repeat constructor; simpl; try done; lia.
    + apply alternating_snoc. split; [by apply alternating_snoc|].
      intros r'. rewrite last_snoc. by intros [= <-].
Qed.

Lemma fmap_seqZ_const {A} (f : Z → A) a n b :
  (∀ i, a ≤ i < a + n → f i = b) → f <$> seqZ a n = replicate (Z.to_nat n) b.
Proof.
  intros H. rewrite <- (length_seqZ a n).
  assert (∀ i, i ∈ seqZ a n → f i = b) as Hin by (intros i [??]%elem_of_seqZ; by apply H).
  induction (seqZ a n) as [|i l IH]; [done|]. rewrite fmap_cons. simpl.
  f_equal; [apply Hin; left|]. apply IH. intros j Hj. apply Hin. by right.
Qed.

(** The cursor's invariant: what was emitted decides exactly the rows below it. *)
Definition selection_inv (n_rows : Z) (seen : list Z) (s : list (bool * Z) * Z) : Prop :=
  runs_ok s.1 ∧ 0 ≤ s.2 ≤ n_rows ∧ (s.2 = 0 ∨ s.2 - 1 ∈ seen)
  ∧ (∀ i, i ∈ seen → i < s.2 ∨ n_rows ≤ i)
  ∧ expand s.1 = (λ i, bool_decide (i ∈ seen)) <$> seqZ 0 s.2.

Lemma seqZ_split n m : 0 ≤ m ≤ n → seqZ 0 n = seqZ 0 m ++ seqZ m (n - m).
Proof. intros. replace n with (m + (n - m)) at 1 by lia. by rewrite seqZ_app by lia. Qed.

Lemma fmap_mem_stable (seen : list Z) ord m :
  m ≤ ord → (λ i, bool_decide (i ∈ seen ++ [ord])) <$> seqZ 0 m
            = (λ i, bool_decide (i ∈ seen)) <$> seqZ 0 m.
Proof.
  intros Hm. apply list_fmap_ext. intros j i [-> ?]%lookup_seqZ.
  apply bool_decide_ext. rewrite elem_of_app, list_elem_of_singleton. split; [|by left].
  intros [?|E]; [done|]. lia.
Qed.

Lemma select_ordinal_inv n_rows seen s ord :
  0 ≤ ord → Forall (λ i, i < ord) seen →
  selection_inv n_rows seen s → selection_inv n_rows (seen ++ [ord]) (select_ordinal n_rows s ord).
Proof.
  intros Hord Hlt (Hok & Hc & Hlast & Hseen & Hexp). destruct s as [runs cursor]. simpl in *.
  rewrite Forall_forall in Hlt.
  assert (cursor ≤ ord) as Hcur by (destruct Hlast as [->|H%Hlt]; lia).
  unfold select_ordinal. rewrite (proj2 (Z.ltb_ge ord cursor)) by done.
  destruct (Z.leb_spec n_rows ord) as [Hge|Hin]; simpl; unfold selection_inv; simpl.
  { rewrite fmap_mem_stable by lia. split; [done|]. split; [done|]. split; [set_solver|]. split; [|done].
    intros i [?| ->%list_elem_of_singleton]%elem_of_app; auto. }
  destruct (push_run_spec runs false (ord - cursor)) as [Hok1 He1]; [done|lia|].
  destruct (push_run_spec _ true 1 Hok1) as [Hok2 He2]; [lia|].
  split; [done|]. split; [lia|]. split; [right; rewrite Z.add_simpl_r; set_solver|]. split.
  { intros i [Hi| ->%list_elem_of_singleton]%elem_of_app; [specialize (Hlt i Hi)|]; lia. }
  rewrite He2, He1, Hexp, (seqZ_split (ord + 1) cursor), fmap_app by lia.
  rewrite fmap_mem_stable, <- app_assoc by lia. f_equal.
  replace (ord + 1 - cursor) with ((ord - cursor) + 1) by lia. rewrite seqZ_app, fmap_app by lia.
  replace (cursor + (ord - cursor)) with ord by lia. f_equal.
  - symmetry. apply fmap_seqZ_const. intros i Hi. apply bool_decide_eq_false.
    rewrite elem_of_app, list_elem_of_singleton. intros [H|H]; [apply Hseen in H|]; lia.
  - symmetry. apply fmap_seqZ_const. intros i Hi. apply bool_decide_eq_true.
    replace i with ord by lia. set_solver.
Qed.

Lemma selection_inv_fold n_rows selected seen s :
  Forall (λ i, 0 ≤ i) selected → ascending (seen ++ selected) → selection_inv n_rows seen s →
  selection_inv n_rows (seen ++ selected) (foldl (select_ordinal n_rows) s selected).
Proof.
  intros Hpos. revert seen s. induction Hpos as [|ord selected Hord _ IH]; intros seen s Hasc Hinv; simpl.
  - by rewrite app_nil_r.
  - rewrite cons_middle, app_assoc in *. apply IH; [done|]. apply select_ordinal_inv; [done| |done].
    apply ascending_app in Hasc as (Hasc & _ & _). apply ascending_app in Hasc as (_ & _ & Hlt).
    apply Forall_forall. intros i Hi. apply Hlt; [done|left].
Qed.

Lemma row_selection_runs_spec selected n_rows :
  ascending selected → Forall (λ i, 0 ≤ i) selected → 0 ≤ n_rows →
  runs_ok (row_selection_runs selected n_rows)
  ∧ expand (row_selection_runs selected n_rows)
    = (λ i, bool_decide (i ∈ selected)) <$> seqZ 0 n_rows.
Proof.
  intros Hasc Hpos Hn. unfold row_selection_runs.
  pose proof (selection_inv_fold n_rows selected [] ([], 0) Hpos Hasc) as H.
  destruct (foldl _ _ _) as [runs cursor]. destruct H as (Hok & Hc & Hlast & Hseen & Hexp).
  { split; [by split|]. split; [simpl; lia|]. split; [by left|]. split; [set_solver|done]. }
  simpl in *. destruct (push_run_spec runs false (saturating_sub n_rows cursor)) as [Hok' He];
    [done|unfold saturating_sub; lia|].
  split; [done|]. rewrite He, Hexp, (seqZ_split n_rows cursor), fmap_app by lia. f_equal.
  replace (saturating_sub n_rows cursor) with (n_rows - cursor) by (unfold saturating_sub; lia).
  symmetry. apply fmap_seqZ_const. intros i Hi. apply bool_decide_eq_false.
  intros H%Hseen. lia.
Qed.
