(* ===== verification/InvertedIndex.v ===== *)
(** The per-file inverted index, format v1: [crates/loglake-index/src/lib.rs].

    The builder, the queries (single term, conjunction, substring), the
    row-selection runs handed to Parquet, and the blob codec with its checks on
    untrusted input.  The CRC-32 implementation is third-party code and enters
    as a parameter. *)

From stdpp Require Import prelude sorting strings.
From Stdlib Require Import ZArith Lia.
From S2P Require Import Prelude RustStr Hex BTree Cursor Leb128 Bloom Postings RowSelection.

Definition INDEX_MAGIC : bytes := lit "KIDX".
Definition INDEX_VERSION : Z := 1.
Definition INVERTED_INDEX_KV_KEY : rstr := lit "loglake.inverted_index.v1".
Definition INVERTED_INDEX_CRC32_KV_KEY : rstr := lit "loglake.inverted_index.crc32.v1".

Definition inverted_index_kv_key (column : rstr) : rstr :=
  if bool_decide (column = lit "raw") then INVERTED_INDEX_KV_KEY
  else INVERTED_INDEX_KV_KEY ++ lit "." ++ column.

Definition inverted_index_crc32_kv_key (column : rstr) : rstr :=
  if bool_decide (column = lit "raw") then INVERTED_INDEX_CRC32_KV_KEY
  else INVERTED_INDEX_CRC32_KV_KEY ++ lit "." ++ column.

(** * Building *)

Record InvertedIndex := mkIndex {
  ix_postings : btree (list Z);
  ix_rows : Z;
}.

Record IndexBuilder := mkBuilder {
  ib_postings : btree (list Z);
  ib_rows : Z;
  ib_tokenizer : Tokenizer;
}.

Definition with_tokenizer (t : Tokenizer) : IndexBuilder := mkBuilder [] 0 t.

(** [seen.sort()] *)
Definition sort_terms (l : list rstr) : list rstr :=
  merge_sort lex_le l.

(** [seen.dedup()]: of every run of equal neighbours the first stays. *)
Fixpoint dedup (l : list rstr) : list rstr :=
  match l with
  | x :: ((y :: _) as l') => if bool_decide (x = y) then dedup l' else x :: dedup l'
  | _ => l
  end.

(** [self.postings.entry(token).or_default().push(ordinal)] *)
Definition push_posting (ordinal : Z) (m : btree (list Z)) (token : rstr) : btree (list Z) :=
  bt_insert token (default [] (bt_get token m) ++ [ordinal]) m.

Definition push_row (b : IndexBuilder) (raw : rstr) : IndexBuilder :=
  let seen := dedup (sort_terms (tokenize_with (ib_tokenizer b) raw)) in
  mkBuilder (foldl (push_posting (ib_rows b)) (ib_postings b) seen)
    (wrap 32 (ib_rows b + 1)) (ib_tokenizer b).

Definition ib_build (b : IndexBuilder) : InvertedIndex := mkIndex (ib_postings b) (ib_rows b).

Definition from_rows_with_tokenizer (rows : list rstr) (t : Tokenizer) : InvertedIndex :=
  ib_build (foldl push_row (with_tokenizer t) rows).

Definition from_rows (rows : list rstr) : InvertedIndex := from_rows_with_tokenizer rows Default.

(** The allowance per dictionary entry: a [String] and a [Vec], 24 bytes each. *)
Definition heap_size_bytes (ix : InvertedIndex) : Z :=
  32 + sumZ ((λ '(term, rows), 48 + len term + len rows * 4) <$> ix_postings ix).

(** * Queries *)

Definition postings (ix : InvertedIndex) (term : rstr) : option (list Z) :=
  norm ← normalize_query_term term; bt_get norm (ix_postings ix).

(** The term loop: one miss and nothing matches. *)
Fixpoint resolve_all (ix : InvertedIndex) (terms : list rstr) : option (list (list Z)) :=
  match terms with
  | [] => Some []
  | t :: terms => p ← postings ix t; ps ← resolve_all ix terms; Some (p :: ps)
  end.

Definition shorter (a b : list Z) : Prop := len a ≤ len b.
#[global] Instance shorter_dec : RelDecision shorter.
Proof. unfold RelDecision, shorter. apply _. Defined.

(** The intersection loop with its early exit. *)
Fixpoint intersect_all (acc : list Z) (lists : list (list Z)) : list Z :=
  match lists with
  | [] => acc
  | l :: lists =>
    match intersect_sorted acc l with
    | [] => []
    | acc => intersect_all acc lists
    end
  end.

Definition matching_rows_all (ix : InvertedIndex) (terms : list rstr) : list Z :=
  match terms with
  | [] => []
  | _ =>
    match resolve_all ix terms with
    | None => []
    | Some lists =>
      match merge_sort shorter lists with
      | [] => []
      | l :: lists => intersect_all l lists
      end
    end
  end.

Definition rows_containing (ix : InvertedIndex) (substr : rstr) : option (list Z) :=
  norm ← normalize_query_term substr;
  Some (foldl (λ acc '(term, rows), if contains term norm then union_sorted acc rows else acc)
    [] (ix_postings ix)).

Definition matching_row_selection (ix : InvertedIndex) (terms : list rstr) : list (bool * Z) :=
  row_selection_runs (matching_rows_all ix terms) (ix_rows ix).

(** * The blob *)

(** Delta coding in [u32] arithmetic. *)
Fixpoint encode_deltas (prev : Z) (rows : list Z) : bytes :=
  match rows with
  | [] => []
  | r :: rows => write_varint (wrap 32 (r - prev)) ++ encode_deltas r rows
  end.

Definition encode_term (term : rstr) (rows : list Z) : bytes :=
  write_varint (len term) ++ term ++ write_varint (len rows) ++ encode_deltas 0 rows.

Definition encode_terms (m : btree (list Z)) : bytes :=
  mbind (λ '(term, rows), encode_term term rows) m.
#[global] Arguments encode_terms : simpl never.

Definition ix_to_bytes (ix : InvertedIndex) : bytes :=
  INDEX_MAGIC ++ [INDEX_VERSION] ++ write_varint (ix_rows ix)
  ++ write_varint (len (ix_postings ix)) ++ encode_terms (ix_postings ix).

Definition ix_to_hex (ix : InvertedIndex) : rstr := hex_encode (ix_to_bytes ix).

(** [c.varint()?.try_into().ok()?] at [u32] and at [usize]. *)
Definition varint_u32 : P Z := let* v := varint in p_opt (try_into 32 v).

(** The postings loop: [nth] counts the deltas read, [rows] grows at its end. *)
Fixpoint decode_deltas (n : nat) (first : bool) (n_rows prev : Z) (rows : list Z) : P (list Z) :=
  match n with
  | O => p_ret rows
  | S n =>
    let* delta := varint_u32 in
    let* _ := p_guard (negb (negb first && (delta =? 0))) in
    let* prev := p_opt (checked_add 32 prev delta) in
    let* _ := p_guard (prev <? n_rows) in
    decode_deltas n false n_rows prev (rows ++ [prev])
  end.

Definition above_last (m : btree (list Z)) (term : rstr) : bool :=
  match bt_last m with Some (l, _) => negb (lex_leb term l) | None => true end.

Definition decode_term (n_rows : Z) (m : btree (list Z)) : P (btree (list Z)) :=
  let* tlen := varint in
  let* tb := p_take tlen in
  let* term := p_opt (from_utf8 tb) in
  let* _ := p_guard (above_last m term) in
  let* plen := varint in
  let* rem := p_remaining in
  let* _ := p_guard (negb ((plen =? 0) || (rem <? plen))) in
  let* rows := decode_deltas (Z.to_nat plen) true n_rows 0 [] in
  p_ret (bt_insert term rows m).

Fixpoint decode_terms (n : nat) (n_rows : Z) (m : btree (list Z)) : P (btree (list Z)) :=
  match n with
  | O => p_ret m
  | S n => let* m := decode_term n_rows m in decode_terms n n_rows m
  end.

Definition decode_dictionary : P InvertedIndex :=
  let* magic := p_take 4 in
  let* _ := p_guard (bool_decide (magic = INDEX_MAGIC)) in
  let* version := p_u8 in
  let* _ := p_guard (version =? INDEX_VERSION) in
  let* n_rows := varint_u32 in
  let* n_terms := varint in
  let* rem := p_remaining in
  let* _ := p_guard (n_terms <=? rem / 3) in
  let* m := decode_terms (Z.to_nat n_terms) n_rows [] in
  p_ret (mkIndex m n_rows).

Definition decode_index : P InvertedIndex :=
  let* ix := decode_dictionary in
  let* rem := p_remaining in
  let* _ := p_guard (rem =? 0) in
  p_ret ix.

Definition ix_from_bytes (bs : bytes) : option InvertedIndex := fst <$> decode_index (Cur bs 0).

Definition ix_from_hex (s : rstr) : option InvertedIndex :=
  bs ← hex_decode s; ix_from_bytes bs.

(** [crc32fast]: the one-shot hash and the streaming hasher. *)
Class Crc32 := {
  hasher : Type;
  hasher_new : hasher;
  hasher_update : hasher → bytes → hasher;
  hasher_finalize : hasher → Z;
  crc32_hash : bytes → Z;
}.

Definition inverted_index_crc32 `{Crc32} (bs : bytes) : Z := crc32_hash bs.

(** The pair loop, feeding the hasher a byte at a time. *)
Fixpoint hex_crc_loop `{Crc32} (h : hasher) (s : rstr) : option hasher :=
  match s with
  | c0 :: c1 :: s =>
    hi ← nibble c0; lo ← nibble c1;
    hex_crc_loop (hasher_update h [Z.lor (wrap 8 (Z.shiftl hi 4)) lo]) s
  | _ => Some h
  end.

Definition inverted_index_hex_crc32 `{Crc32} (hex : rstr) : option Z :=
  if len hex mod 2 =? 0 then hasher_finalize <$> hex_crc_loop hasher_new hex else None.

(** * The builder *)

(** The ordinals of the rows a predicate holds of, the reference every query is
    compared with. *)
Definition rows_where (Q : rstr → bool) (rows : list rstr) : list Z :=
  filter (λ i, Q (default [] (rows !! Z.to_nat i)) = true) (seqZ 0 (len rows)).

Lemma elem_of_rows_where Q rows i :
  i ∈ rows_where Q rows ↔ 0 ≤ i < len rows ∧ Q (default [] (rows !! Z.to_nat i)) = true.
Proof. unfold rows_where. rewrite list_elem_of_filter, elem_of_seqZ. lia || naive_solver lia. Qed.

Lemma rows_where_ascending Q rows : ascending (rows_where Q rows).
Proof. apply ascending_filter, ascending_seqZ. Qed.

Lemma rows_where_snoc Q rows r :
  rows_where Q (rows ++ [r]) = rows_where Q rows ++ if Q r then [len rows] else [].
Proof.
  apply ascending_ext.
  - apply rows_where_ascending.
  - apply ascending_app. split; [apply rows_where_ascending|]. split.
    + destruct (Q r); auto with postings.
    + intros x y [? _]%elem_of_rows_where. destruct (Q r); [|set_solver].
      intros ->%list_elem_of_singleton. lia.
  - intros i. rewrite elem_of_app, (elem_of_rows_where Q rows), (elem_of_rows_where Q (rows ++ [r])).
    autorewrite with len.
    destruct (decide (i = len rows)) as [->|Hne].
    + rewrite lookup_app_r by (unfold len; lia).
      replace (Z.to_nat (len rows) - length rows)%nat with 0%nat by (unfold len; lia). simpl.
      destruct (Q r); [rewrite list_elem_of_singleton|]; split; try naive_solver lia.
      * intros _. split; [len_lia|done].
      * intros [?|?]; [lia|set_solver].
    + split.
      * intros [Hi HQ]. left. split; [lia|]. rewrite lookup_app_l in HQ by (unfold len in *; lia). done.
      * intros [[Hi HQ]|Hin]; [|destruct (Q r); set_solver].
        split; [lia|]. by rewrite lookup_app_l by (unfold len in *; lia).
Qed.

Lemma rows_where_ext Q R rows :
  (∀ r, r ∈ rows → Q r = R r) → rows_where Q rows = rows_where R rows.
Proof.
  intros H. apply ascending_ext; [apply rows_where_ascending..|]. intros i.
  rewrite !elem_of_rows_where. split; intros [Hi HQ]; (split; [done|]);
    destruct (lookup_lt_is_Some_2 rows (Z.to_nat i)) as [r Hr]; try (unfold len in *; lia);
    rewrite Hr in *; simpl in *; (rewrite <- H || rewrite H); try done; by eapply list_elem_of_lookup_2.
Qed.

(** Sorting and deduplicating leaves each term once, in order. *)
Lemma dedup_elem l x : x ∈ dedup l ↔ x ∈ l.
Proof.
  induction l as [|a [|b l] IH]; [done..|]. change (dedup (a :: b :: l)) with
    (if bool_decide (a = b) then dedup (b :: l) else a :: dedup (b :: l)).
  case_bool_decide; [subst; rewrite IH; set_solver|]. rewrite elem_of_cons, IH. set_solver.
Qed.

Lemma dedup_sorted l : StronglySorted lex_le l → StronglySorted lex_lt (dedup l).
Proof.
  induction 1 as [|a l Hl IH Ha]; [constructor|]. destruct l as [|b l]; [by repeat constructor|].
  change (dedup (a :: b :: l)) with
    (if bool_decide (a = b) then dedup (b :: l) else a :: dedup (b :: l)).
  case_bool_decide as Hab; [done|]. constructor; [done|].
  apply Forall_cons in Ha as [Ha _]. apply lex_le_lt_eq in Ha as [Ha|]; [|done].
  apply StronglySorted_inv in Hl as [_ Hb].
  rewrite Forall_forall in *. intros x Hx. rewrite dedup_elem in Hx. apply elem_of_cons in Hx as [->|Hx]; [done|].
  specialize (Hb x Hx). apply lex_le_lt_eq in Hb as [?|<-]; [by etransitivity|done].
Qed.

Definition row_terms (t : Tokenizer) (raw : rstr) : list rstr :=
  dedup (sort_terms (tokenize_with t raw)).

Lemma row_terms_elem t raw x : x ∈ row_terms t raw ↔ x ∈ tokenize_with t raw.
Proof.
  unfold row_terms, sort_terms. rewrite dedup_elem. by rewrite merge_sort_Permutation.
Qed.

Lemma row_terms_NoDup t raw : NoDup (row_terms t raw).
Proof. apply (sorted_NoDup lex_lt), dedup_sorted, StronglySorted_merge_sort; apply _. Qed.

Lemma push_postings_get ordinal terms m x :
  NoDup terms →
  bt_get x (foldl (push_posting ordinal) m terms)
  = if decide (x ∈ terms) then Some (default [] (bt_get x m) ++ [ordinal]) else bt_get x m.
Proof.
  intros H. revert m. induction H as [|t terms Ht _ IH]; intros m; simpl; [done|].
  rewrite IH. unfold push_posting. destruct (decide (x = t)) as [->|Hne].
  - rewrite (decide_False (P := t ∈ terms)) by done. rewrite decide_True by set_solver.
    apply bt_get_insert.
  - rewrite bt_get_insert_ne by done.
    destruct (decide (x ∈ terms)); [rewrite decide_True by set_solver|rewrite decide_False by set_solver]; done.
Qed.

Lemma push_postings_wf ordinal terms m : bt_wf m → bt_wf (foldl (push_posting ordinal) m terms).
Proof. revert m. induction terms; intros; simpl; [done|]. apply IHterms. by apply bt_insert_wf. Qed.

(** The builder's invariant: after [rows], the dictionary maps every term to
    exactly the ordinals of the rows that tokenize to it. *)
Definition builder_inv (t : Tokenizer) (rows : list rstr) (b : IndexBuilder) : Prop :=
  ib_tokenizer b = t ∧ ib_rows b = len rows ∧ bt_wf (ib_postings b) ∧
  ∀ x, bt_get x (ib_postings b)
       = match rows_where (λ raw, bool_decide (x ∈ tokenize_with t raw)) rows with
         | [] => None
         | l => Some l
         end.

Lemma push_row_inv t rows b raw :
  len rows < 2 ^ 32 - 1 → builder_inv t rows b → builder_inv t (rows ++ [raw]) (push_row b raw).
Proof.
  intros Hlen (Ht & Hr & Hwf & Hget). unfold push_row. rewrite Ht, Hr.
  split; [done|]. split.
  { simpl. rewrite len_app, len_cons, len_nil. apply wrap_small. unfold fits. len_lia. }
  split; [by apply push_postings_wf|]. intros x. simpl.
  change (dedup (sort_terms (tokenize_with t raw))) with (row_terms t raw).
  rewrite push_postings_get by apply row_terms_NoDup.
  rewrite rows_where_snoc, Hget. destruct (decide (x ∈ row_terms t raw)) as [Hx|Hx];
    rewrite row_terms_elem in Hx; [rewrite bool_decide_true by done|rewrite bool_decide_false by done].
  - by destruct (rows_where _ rows).
  - by rewrite app_nil_r.
Qed.

Lemma from_rows_inv t rows :
  len rows < 2 ^ 32 → builder_inv t rows (foldl push_row (with_tokenizer t) rows).
Proof.
  induction rows as [|raw rows IH] using rev_ind; intros Hlen; [by split_and!; [..|apply bt_wf_nil|]|].
  rewrite len_app, len_cons, len_nil in Hlen. rewrite foldl_app. apply push_row_inv; [lia|].
  apply IH. lia.
Qed.

(** * Well-formedness *)

Definition postings_ok (n_rows : Z) (tr : rstr * list Z) : Prop :=
  valid_str tr.1 ∧ tr.2 ≠ [] ∧ ascending tr.2 ∧ Forall (λ r, 0 ≤ r < n_rows) tr.2.

(** What the readers of an index rely on. *)
Definition index_wf (ix : InvertedIndex) : Prop :=
  u32 (ix_rows ix) ∧ bt_wf (ix_postings ix) ∧ Forall (postings_ok (ix_rows ix)) (ix_postings ix).

#[global] Instance postings_ok_dec n tr : Decision (postings_ok n tr).
Proof. unfold postings_ok. apply _. Defined.
#[global] Instance index_wf_dec ix : Decision (index_wf ix).
Proof. unfold index_wf. apply _. Defined.

Lemma index_wf_get ix x l :
  index_wf ix → bt_get x (ix_postings ix) = Some l →
  l ≠ [] ∧ ascending l ∧ Forall (λ r, 0 ≤ r < ix_rows ix) l.
Proof.
  intros (_ & _ & Hall) Hget%bt_get_Some_elem. rewrite Forall_forall in Hall.
  by apply Hall in Hget as (_ & ? & ? & ?).
Qed.

(** Every stemming rule strips a suffix, under its own guard. *)
Ltac stem_prefix :=
  match goal with
  | H : _ = Some ?s |- ∃ r, _ = ?s ++ r =>
    apply bind_Some in H as (stem & Hs%strip_suffix_Some & H);
    cbv zeta in H; case_match; [|discriminate H]; injection H as <-; by eauto
  end.

Lemma lite_stem_prefix tok s : lite_stem tok = Some s → ∃ r, tok = s ++ r.
Proof.
  unfold lite_stem. set (stemmed := match _ with Some _ => _ | None => _ end).
  assert (∃ r, tok = stemmed ++ r) as Hp.
  { unfold stemmed. repeat match goal with
    | |- context [match ?o with Some _ => _ | None => _ end] => destruct o as [?|] eqn:?
    end; [stem_prefix..|]. exists []. by rewrite app_nil_r. }
  clearbody stemmed. case_match; [|done]. by intros [= <-].
Qed.

Lemma split_piece_alnum raw p :
  p ∈ str_split (λ c, negb (is_ascii_alphanumeric c)) raw →
  Forall (λ c, is_ascii_alphanumeric c = true) p.
Proof.
  unfold str_split. intros (w & -> & Hw)%list_elem_of_fmap.
  apply split_list_pieces in Hw as (_ & _ & _ & Hw).
  assert (Forall (λ c, is_ascii_alphanumeric c = true) w) as Ha.
  { eapply Forall_impl; [exact Hw|]. intros c. apply negb_false_iff. }
  rewrite utf8_encode_ascii; [done|].
  eapply Forall_impl; [exact Ha|]. apply alnum_ascii.
Qed.

Lemma lower_alnum_list p :
  Forall (λ c, is_ascii_alphanumeric c = true) p → Forall (λ c, 0 ≤ c < 0x80) (to_ascii_lowercase p).
Proof.
  intros H. apply Forall_fmap. eapply Forall_impl; [exact H|]. intros c Hc. simpl.
  apply alnum_ascii. by rewrite lower_alnum.
Qed.

Lemma default_tokens_ascii raw tok : tok ∈ default_tokenize raw → Forall (λ c, 0 ≤ c < 0x80) tok.
Proof.
  rewrite default_tokenize_spec. intros (i & Hin%list_elem_of_lookup_2 & _)%elem_of_take.
  apply list_elem_of_fmap in Hin as (p & -> & [_ Hp]%list_elem_of_filter).
  by apply lower_alnum_list, (split_piece_alnum raw).
Qed.

Lemma tokenize_with_valid t raw tok : valid_str raw → tok ∈ tokenize_with t raw → valid_str tok.
Proof.
  intros Hraw. destruct t; simpl.
  - intros H%default_tokens_ascii. by apply ascii_valid.
  - intros ->%list_elem_of_singleton. by apply to_ascii_lowercase_valid.
  - intros (x & Hx & Hs)%list_elem_of_omap. apply default_tokens_ascii in Hx.
    apply lite_stem_prefix in Hs as [r ->]. apply Forall_app in Hx as [Hx _]. by apply ascii_valid.
Qed.

Lemma from_rows_wf t rows :
  len rows < 2 ^ 32 → Forall valid_str rows → index_wf (from_rows_with_tokenizer rows t).
Proof.
  intros Hlen Hval. pose proof (from_rows_inv t rows Hlen) as (_ & Hr & Hwf & Hget).
  unfold from_rows_with_tokenizer, ib_build. set (b := foldl _ _ _) in *.
  split; [simpl; rewrite Hr; unfold fits; len_lia|]. split; [done|].
  apply Forall_forall. intros [x l] Hin. simpl in *.
  apply bt_get_elem in Hin; [|done]. rewrite Hget, Hr in *.
  destruct (rows_where _ rows) as [|i l'] eqn:E; [done|]. injection Hin as <-.
  split; simpl; [|split; [done|split]].
  - assert (i ∈ rows_where (λ raw, bool_decide (x ∈ tokenize_with t raw)) rows) as Hi
      by (rewrite E; left).
    apply elem_of_rows_where in Hi as [Hi Hx%bool_decide_eq_true].
    eapply tokenize_with_valid, Hx.
    destruct (lookup_lt_is_Some_2 rows (Z.to_nat i)) as [r Hrow]; [unfold len in *; lia|].
    rewrite Hrow. simpl. rewrite Forall_forall in Hval. by eapply Hval, list_elem_of_lookup_2.
  - rewrite <- E. apply rows_where_ascending.
  - rewrite <- E. apply Forall_forall. by intros j [? _]%elem_of_rows_where.
Qed.

(** * Queries *)

Lemma resolve_all_Some ix terms lists :
  resolve_all ix terms = Some lists → Forall2 (λ t l, postings ix t = Some l) terms lists.
Proof.
  revert lists. induction terms as [|t terms IH]; intros lists; simpl.
  - intros [= <-]. constructor.
  - intros (p & Hp & (ps & Hps & [= <-])%bind_Some)%bind_Some. constructor; auto.
Qed.

Lemma resolve_all_None ix terms :
  resolve_all ix terms = None → ∃ t, t ∈ terms ∧ postings ix t = None.
Proof.
  induction terms as [|t terms IH]; simpl; [done|].
  destruct (postings ix t) as [p|] eqn:E; [|exists t; split; [left|done]]. simpl.
  destruct (resolve_all ix terms); [done|]. intros _.
  destruct IH as (t' & ? & ?); [done|]. exists t'. split; [by right|done].
Qed.

Lemma intersect_all_spec lists acc :
  ascending acc → Forall ascending lists →
  ascending (intersect_all acc lists)
  ∧ ∀ x, x ∈ intersect_all acc lists ↔ x ∈ acc ∧ ∀ l, l ∈ lists → x ∈ l.
Proof.
  intros Hacc H. revert acc Hacc. induction H as [|l lists Hl _ IH]; intros acc Hacc; simpl.
  - split; [done|]. set_solver.
  - pose proof (elem_of_intersect_sorted acc l) as He.
    pose proof (intersect_sorted_ascending acc l Hacc Hl) as Ha.
    destruct (intersect_sorted acc l) as [|y acc'] eqn:E.
    + split; [apply ascending_nil|]. intros x. specialize (He x Hacc Hl). set_solver.
    + destruct (IH (y :: acc') Ha) as [Hasc Hx]. split; [done|]. intros x. rewrite Hx, He by done.
      set_solver.
Qed.

Lemma postings_ascending ix t l : index_wf ix → postings ix t = Some l → ascending l.
Proof.
  intros Hwf (n & _ & Hget)%bind_Some. by apply index_wf_get in Hget as (_ & ? & _).
Qed.

Lemma matching_rows_all_spec ix terms :
  index_wf ix →
  ascending (matching_rows_all ix terms)
  ∧ ∀ x, x ∈ matching_rows_all ix terms
         ↔ terms ≠ [] ∧ ∀ t, t ∈ terms → ∃ l, postings ix t = Some l ∧ x ∈ l.
Proof.
  intros Hwf. unfold matching_rows_all. destruct terms as [|t0 terms0].
  { split; [apply ascending_nil|]. set_solver. }
  set (terms := t0 :: terms0). destruct (resolve_all ix terms) as [lists|] eqn:E.
  2:{ apply resolve_all_None in E as (t & Ht & Hnone). split; [apply ascending_nil|]. intros x.
      split; [set_solver|]. intros [_ H]. destruct (H t Ht) as (? & ? & _). congruence. }
  apply resolve_all_Some in E.
  assert (Forall ascending lists) as Hasc.
  { apply Forall_forall. intros l Hl. destruct (list_elem_of_lookup_1 _ _ Hl) as [i Hi].
    destruct (Forall2_lookup_r _ _ _ _ _ E Hi) as (t & _ & Ht). by eapply postings_ascending. }
  pose proof (merge_sort_Permutation shorter lists) as Hperm.
  assert (∀ x, (∀ l, l ∈ merge_sort shorter lists → x ∈ l)
    ↔ ∀ t, t ∈ terms → ∃ l, postings ix t = Some l ∧ x ∈ l) as Hiff.
  { intros x. setoid_rewrite Hperm. split.
    - intros H t Ht. destruct (list_elem_of_lookup_1 _ _ Ht) as [i Hi].
      destruct (Forall2_lookup_l _ _ _ _ _ E Hi) as (l & Hl & Hp).
      exists l. split; [done|]. by eapply H, list_elem_of_lookup_2.
    - intros H l Hl. destruct (list_elem_of_lookup_1 _ _ Hl) as [i Hi].
      destruct (Forall2_lookup_r _ _ _ _ _ E Hi) as (t & Ht & Hp).
      destruct (H t) as (l' & ? & ?); [by eapply list_elem_of_lookup_2|]. congruence. }
  destruct (merge_sort shorter lists) as [|l ls] eqn:Em.
  { apply Permutation_nil_l in Hperm. subst lists. inversion E. }
  rewrite <- Hperm in Hasc. apply Forall_cons in Hasc as [Hl Hls].
  destruct (intersect_all_spec ls l Hl Hls) as [Ha Hx]. split; [done|]. intros x.
  rewrite Hx, <- Hiff. set_solver.
Qed.

(** ** Substring search *)

Lemma rows_containing_fold norm m acc :
  ascending acc → Forall (λ tr : rstr * list Z, ascending tr.2) m →
  let res := foldl (λ acc '(term, rows), if contains term norm then union_sorted acc rows else acc) acc m in
  ascending res
  ∧ ∀ x, x ∈ res ↔ x ∈ acc ∨ ∃ term rows, (term, rows) ∈ m ∧ contains term norm = true ∧ x ∈ rows.
Proof.
  intros Hacc H. revert acc Hacc. induction H as [|[t l] m Hl _ IH]; intros acc Hacc; simpl.
  - split; [done|]. set_solver.
  - destruct (IH (if contains t norm then union_sorted acc l else acc)) as [Ha Hx].
    { destruct (contains t norm); auto with postings. }
    split; [done|]. intros x. rewrite Hx. setoid_rewrite elem_of_cons.
    destruct (contains t norm) eqn:E; rewrite ?elem_of_union_sorted.
    + split; [intros [[?|?]|(?&?&?&?&?)]|intros [?|(?&?&[[= -> ->]|?]&?&?)]]; eauto 9.
    + split; [intros [?|(?&?&?&?&?)]|intros [?|(?&?&[[= -> ->]|?]&?&?)]]; eauto 9. congruence.
Qed.

Lemma rows_containing_spec ix substr norm res :
  index_wf ix → normalize_query_term substr = Some norm → rows_containing ix substr = Some res →
  ascending res
  ∧ ∀ x, x ∈ res ↔ ∃ term rows, bt_get term (ix_postings ix) = Some rows
                                 ∧ contains term norm = true ∧ x ∈ rows.
Proof.
  intros (Hr & Hwf & Hall) Hn. unfold rows_containing. rewrite Hn. intros <-%(inj Some).
  destruct (rows_containing_fold norm (ix_postings ix) []) as [Ha Hx]; [apply ascending_nil| |].
  { eapply Forall_impl; [exact Hall|]. by intros [??] (_ & _ & ? & _). }
  split; [done|]. intros x. rewrite Hx. setoid_rewrite bt_get_iff; [|done].
  rewrite elem_of_nil. tauto.
Qed.

(** The rows a substring query should return, in terms of their tokens. *)
Definition some_token_contains (t : Tokenizer) (norm raw : rstr) : bool :=
  existsb (λ tok, contains tok norm) (tokenize_with t raw).

Lemma rows_containing_tokens t rows substr norm :
  len rows < 2 ^ 32 → Forall valid_str rows → normalize_query_term substr = Some norm →
  rows_containing (from_rows_with_tokenizer rows t) substr
  = Some (rows_where (some_token_contains t norm) rows).
Proof.
  intros Hlen Hval Hn. pose proof (from_rows_wf t rows Hlen Hval) as Hwf.
  pose proof (from_rows_inv t rows Hlen) as (_ & _ & _ & Hget).
  destruct (rows_containing (from_rows_with_tokenizer rows t) substr) as [res|] eqn:E.
  2:{ unfold rows_containing in E. by rewrite Hn in E. }
  destruct (rows_containing_spec _ _ _ _ Hwf Hn E) as [Ha Hx]. f_equal.
  apply ascending_ext; [done|apply rows_where_ascending|]. intros i. rewrite Hx, elem_of_rows_where.
  unfold from_rows_with_tokenizer, ib_build, some_token_contains. simpl.
  setoid_rewrite Hget. setoid_rewrite existsb_exists. setoid_rewrite <- list_elem_of_In. split.
  - intros (tok & l & Hl & Hc & Hi).
    assert (i ∈ rows_where (λ raw, bool_decide (tok ∈ tokenize_with t raw)) rows) as Hi'.
    { destruct (rows_where _ _); [done|]. by injection Hl as ->. }
    apply elem_of_rows_where in Hi' as [? Htok%bool_decide_eq_true]. eauto.
  - intros (Hi & tok & Htok & Hc).
    assert (i ∈ rows_where (λ raw, bool_decide (tok ∈ tokenize_with t raw)) rows) as Hi'
      by (apply elem_of_rows_where; by rewrite bool_decide_true).
    exists tok. destruct (rows_where _ rows) as [|j l]; [set_solver|]. eauto.
Qed.

(** ** The token cap *)

(** The tokens of a row before the cap: the pieces long enough to be kept. *)
Definition indexable_pieces (raw : rstr) : list rstr :=
  filter (λ p, MIN_TOKEN_LEN ≤ len p) (str_split (λ c, negb (is_ascii_alphanumeric c)) raw).

Lemma default_tokens_uncapped raw :
  len (indexable_pieces raw) ≤ MAX_TOKENS_PER_ROW →
  default_tokenize raw = to_ascii_lowercase <$> indexable_pieces raw.
Proof.
  intros H. rewrite default_tokenize_spec. apply take_ge. rewrite length_fmap.
  unfold indexable_pieces, len, MAX_TOKENS_PER_ROW in *. lia.
Qed.

Lemma normalize_query_term_alnum q norm :
  valid_str q → normalize_query_term q = Some norm →
  MIN_TOKEN_LEN ≤ len norm ∧ Forall (λ c, is_ascii_alphanumeric c = true) norm.
Proof.
  intros Hq%trim_valid. unfold normalize_query_term.
  destruct (Z.ltb_spec (len (trim q)) MIN_TOKEN_LEN); [done|]. simpl.
  destruct (forallb _ _) eqn:Hall; [|done]. simpl. intros <-%(inj Some).
  assert (Forall (λ c, is_ascii_alphanumeric c = true) (chars (trim q))) as Hc.
  { apply Forall_forall. intros c Hin. rewrite forallb_forall in Hall. by apply Hall, list_elem_of_In. }
  assert (trim q = chars (trim q)) as E.
  { rewrite <- (encode_chars (trim q)) at 1 by done. apply utf8_encode_ascii.
    eapply Forall_impl; [exact Hc|]. apply alnum_ascii. }
  unfold to_ascii_lowercase. split; [unfold len in *; by rewrite length_fmap|].
  rewrite E. apply Forall_fmap. eapply Forall_impl; [exact Hc|].
  intros c Ha. simpl. by rewrite lower_alnum.
Qed.

Lemma lowercase_app (a b : rstr) :
  to_ascii_lowercase (a ++ b) = to_ascii_lowercase a ++ to_ascii_lowercase b.
Proof. apply fmap_app. Qed.

(** A delimiter-free string occurs in a row exactly when it occurs in a piece. *)
Lemma contains_piece raw norm :
  valid_str raw → norm ≠ [] → Forall (λ c, is_ascii_alphanumeric c = true) norm →
  contains (to_ascii_lowercase raw) norm = true
  ↔ ∃ p, p ∈ str_split (λ c, negb (is_ascii_alphanumeric c)) raw
         ∧ contains (to_ascii_lowercase p) norm = true.
Proof.
  intros Hv Hne Hn.
  assert (Forall (λ c, 0 ≤ c < 0x80) norm) as Hasc
    by (eapply Forall_impl; [exact Hn|]; apply alnum_ascii).
  setoid_rewrite contains_spec. unfold str_split. split.
  - intros (a & b & E).
    assert (valid_str (a ++ norm ++ b)) as Hab by (rewrite <- E; by apply to_ascii_lowercase_valid).
    pose proof (ascii_valid norm Hasc) as Hvn.
    destruct (substring_valid a norm b Hab Hvn Hne) as [Hva Hvb].
    assert (lower <$> chars raw = chars a ++ norm ++ chars b) as Ec.
    { rewrite <- chars_lowercase by done. rewrite E.
      rewrite !chars_app, (chars_ascii norm) by (done || by apply valid_str_app). done. }
    apply fmap_app_inv in Ec as (ca & rest & Hca & Ec & Er).
    symmetry in Ec. apply fmap_app_inv in Ec as (n' & cb & Hn' & Ec & Er'). subst rest.
    destruct (split_list_run (λ c, negb (is_ascii_alphanumeric c)) ca n' cb) as (w & x & y & Hw & Exy).
    { intros ->. by rewrite fmap_nil in Hn'. }
    { rewrite Hn' in Hn. apply Forall_fmap in Hn. eapply Forall_impl; [exact Hn|].
      intros c Hc. simpl in Hc. rewrite <- lower_alnum. by rewrite Hc. }
    rewrite <- Er in Hw. exists (utf8_encode w). split; [by apply list_elem_of_fmap_2|].
    assert (Forall is_scalar w) as Hws.
    { apply split_list_pieces in Hw as (u & v & Hu & _). pose proof (chars_scalar raw Hv) as Hs.
      rewrite Hu in Hs. by apply Forall_app in Hs as [_ [? _]%Forall_app]. }
    rewrite to_ascii_lowercase_encode by done. rewrite Exy, !fmap_app, !utf8_encode_app, <- Hn'.
    rewrite (utf8_encode_ascii norm) by done. eauto.
  - intros (p & (w & -> & Hw)%list_elem_of_fmap & a & b & E).
    apply split_list_pieces in Hw as (u & v & Hu & _).
    rewrite <- (encode_chars raw) by done. rewrite Hu, !utf8_encode_app, !lowercase_app, E.
    exists (to_ascii_lowercase (utf8_encode u) ++ a), (b ++ to_ascii_lowercase (utf8_encode v)).
    by rewrite <- !app_assoc.
Qed.

Lemma contains_len l k : contains l k = true → len k ≤ len l.
Proof. intros (a & b & ->)%contains_spec. len_lia. Qed.

Lemma some_token_contains_raw norm raw :
  valid_str raw → MIN_TOKEN_LEN ≤ len norm → Forall (λ c, is_ascii_alphanumeric c = true) norm →
  len (indexable_pieces raw) ≤ MAX_TOKENS_PER_ROW →
  some_token_contains Default norm raw = contains (to_ascii_lowercase raw) norm.
Proof.
  intros Hv Hl Hn Hcap. apply eq_true_iff_eq. unfold some_token_contains. simpl.
  rewrite default_tokens_uncapped, existsb_exists, contains_piece; try done.
  2:{ intros ->. unfold MIN_TOKEN_LEN in Hl. by rewrite len_nil in Hl. }
  setoid_rewrite <- list_elem_of_In. unfold indexable_pieces. split.
  - intros (tok & (p & -> & [_ Hp]%list_elem_of_filter)%list_elem_of_fmap & Hc). eauto.
  - intros (p & Hp & Hc). exists (to_ascii_lowercase p). split; [|done].
    apply list_elem_of_fmap_2, list_elem_of_filter. split; [|done].
    apply contains_len in Hc. unfold to_ascii_lowercase, len in *. rewrite length_fmap in Hc. lia.
Qed.

(** * The blob codec *)

Lemma reads_varint_u32 v : u32 v → reads varint_u32 (write_varint v) v.
Proof.
  intros Hv. unfold fits in Hv. eapply reads_bind_nil; [apply reads_varint; unfold fits; lia|].
  apply reads_opt. unfold try_into. by rewrite (proj2 (Z.ltb_lt _ _)) by lia.
Qed.

Lemma ensures_varint_u32 : ensures varint_u32 (fits 32).
Proof.
  unfold varint_u32. p_step as v Hv. eapply ensures_weaken; [apply ensures_opt|].
  unfold try_into. intros a. destruct (Z.ltb_spec v (2 ^ 32)); [|done]. intros [= <-].
  unfold fits in *. lia.
Qed.
#[export] Hint Resolve ensures_varint_u32 : ensures.

(** The next ordinal a list may hold after [prev]. *)
Definition next_ok (first : bool) (prev r : Z) : Prop := if first then prev ≤ r else prev < r.

Lemma reads_deltas n_rows rows first prev acc :
  u32 n_rows → 0 ≤ prev → ascending rows →
  Forall (next_ok first prev) rows → Forall (λ r, r < n_rows) rows →
  reads (decode_deltas (length rows) first n_rows prev acc) (encode_deltas prev rows) (acc ++ rows).
Proof.
  intros Hn Hprev Hasc. revert first prev acc Hprev.
  induction Hasc as [|r rows Hasc IH Hr]; intros first prev acc Hprev Hnx Hall; simpl.
  { rewrite app_nil_r. apply reads_ret. }
  apply Forall_cons in Hnx as [Hnext _]. apply Forall_cons in Hall as [Hlt Hall]. unfold fits in Hn.
  assert (prev ≤ r) as Hle by (destruct first; simpl in Hnext; lia).
  rewrite (wrap_small 32 (r - prev)) by (unfold fits; lia).
  eapply reads_bind; [apply reads_varint_u32; unfold fits; lia|].
  eapply reads_nil_bind.
  { apply reads_guard. destruct first; [done|]. simpl in *. by rewrite (proj2 (Z.eqb_neq _ _)) by lia. }
  eapply reads_nil_bind; [apply reads_opt; unfold checked_add; by rewrite (proj2 (Z.ltb_lt _ _)) by lia|].
  replace (prev + (r - prev)) with r by lia.
  eapply reads_nil_bind; [apply reads_guard; by apply Z.ltb_lt|].
  replace (acc ++ r :: rows) with ((acc ++ [r]) ++ rows) by by rewrite <- app_assoc.
  by apply IH; [lia|..].
Qed.

Lemma wrap32_u64 z : u64 (wrap 32 z).
Proof. unfold fits, wrap. pose proof (Z.mod_pos_bound z (2 ^ 32) ltac:(lia)). lia. Qed.

Lemma encode_deltas_ok prev rows : bytes_ok (encode_deltas prev rows).
Proof.
  revert prev. induction rows as [|r rows IH]; intros prev; simpl; [constructor|].
  apply Forall_app. split; [apply write_varint_ok, wrap32_u64|apply IH].
Qed.

Lemma encode_term_len term rows :
  u64 (len term) → rows ≠ [] → u64 (len rows) → 3 ≤ len (encode_term term rows).
Proof.
  intros Ht Hr Hl. unfold encode_term. rewrite !len_app.
  pose proof (write_varint_pos _ Ht). pose proof (write_varint_pos _ Hl).
  pose proof (len_nonneg term). destruct rows as [|r rows]; [done|]. simpl. rewrite len_app.
  pose proof (len_nonneg (encode_deltas r rows)).
  assert (1 ≤ len (write_varint (wrap 32 (r - 0)))); [|lia].
  apply write_varint_pos, wrap32_u64.
Qed.

Lemma encode_terms_cons term rows m :
  encode_terms ((term, rows) :: m) = encode_term term rows ++ encode_terms m.
Proof. reflexivity. Qed.

Lemma encode_deltas_len prev rows : len rows ≤ len (encode_deltas prev rows).
Proof.
  revert prev. induction rows as [|r rows IH]; intros prev; simpl; [done|].
  rewrite len_cons, len_app. specialize (IH r).
  assert (1 ≤ len (write_varint (wrap 32 (r - prev)))); [|lia].
  apply write_varint_pos, wrap32_u64.
Qed.

(** Sizes a blob that fits in memory implies. *)
Definition term_fits (tr : rstr * list Z) : Prop := u64 (len tr.1) ∧ u64 (len tr.2).

Lemma encode_terms_fit m :
  len (encode_terms m) < 2 ^ 64 → Forall term_fits m.
Proof.
  induction m as [|[t l] m IH]; [done|]. rewrite encode_terms_cons, len_app. intros H.
  pose proof (len_nonneg (encode_terms m)).
  constructor; [|apply IH; pose proof (len_nonneg (encode_term t l)); lia].
  unfold encode_term in H. rewrite !len_app in H. pose proof (encode_deltas_len 0 l).
  pose proof (len_nonneg (write_varint (len t))). pose proof (len_nonneg (write_varint (len l))).
  pose proof (len_nonneg t). pose proof (len_nonneg l).
  unfold term_fits, fits. simpl. lia.
Qed.

Lemma encode_terms_len n m :
  Forall (postings_ok n) m → Forall term_fits m → 3 * len m ≤ len (encode_terms m).
Proof.
  intros Hok Hfit. induction Hok as [|[t l] m (_ & Hne & _) _ IH]; [done|].
  apply Forall_cons in Hfit as [[Ht Hl] Hfit]. rewrite encode_terms_cons, len_app, len_cons.
  pose proof (encode_term_len t l Ht Hne Hl). specialize (IH Hfit). lia.
Qed.

Lemma reads_term n_rows m term rows :
  u32 n_rows → postings_ok n_rows (term, rows) → term_fits (term, rows) → bt_wf (m ++ [(term, rows)]) →
  reads (decode_term n_rows m) (encode_term term rows) (m ++ [(term, rows)]).
Proof.
  intros Hn (Hv & Hne & Hasc & Hall) (Htl & Hrl) Hwf. simpl in *. unfold decode_term, encode_term.
  apply bt_wf_app in Hwf as (Hm & _ & Hlt).
  eapply reads_bind; [by apply reads_varint|]. eapply reads_bind; [by apply reads_take|].
  eapply reads_nil_bind; [apply reads_opt; by apply from_utf8_valid|].
  eapply reads_nil_bind.
  { apply reads_guard. unfold above_last. destruct (bt_last m) as [[k v]|] eqn:E; [|done].
    apply negb_true_iff, lex_leb_false, Hlt; [|left]. apply last_Some in E as [l ->].
    rewrite fmap_app. set_solver. }
  eapply reads_bind; [by apply reads_varint|]. apply reads_remaining. intros r Hr.
  pose proof (encode_deltas_len 0 rows) as Hd.
  assert (0 < len rows) as Hpos by (destruct rows; [done|len_lia]).
  eapply reads_nil_bind.
  { apply reads_guard. apply negb_true_iff, orb_false_iff. split; [apply Z.eqb_neq|apply Z.ltb_ge]; lia. }
  rewrite to_nat_len. eapply reads_bind_nil.
  - apply reads_deltas; [done|lia|done|..]; (eapply Forall_impl; [exact Hall|]); simpl; lia.
  - simpl. rewrite bt_insert_last; [apply reads_ret|].
    apply Forall_forall. intros x Hx. apply Hlt; [done|left].
Qed.

Lemma reads_terms n_rows rest m :
  u32 n_rows → Forall (postings_ok n_rows) rest → Forall term_fits rest → bt_wf (m ++ rest) →
  reads (decode_terms (length rest) n_rows m) (encode_terms rest) (m ++ rest).
Proof.
  intros Hn Hok. revert m. induction Hok as [|[t l] rest Hx _ IH]; intros m Hfit Hwf; simpl.
  { rewrite app_nil_r. apply reads_ret. }
  apply Forall_cons in Hfit as [Hf Hfit]. rewrite encode_terms_cons.
  rewrite cons_middle, app_assoc in *. eapply reads_bind; [|by apply IH].
  apply reads_term; [done..|]. by apply bt_wf_app in Hwf as [? _].
Qed.

Lemma ix_blob_fits ix :
  index_wf ix → len (ix_to_bytes ix) < 2 ^ 64 →
  Forall term_fits (ix_postings ix) ∧ u64 (len (ix_postings ix)).
Proof.
  intros (_ & _ & Hall) Hl. unfold ix_to_bytes in Hl. rewrite !len_app in Hl.
  pose proof (len_nonneg INDEX_MAGIC). pose proof (len_nonneg [INDEX_VERSION]).
  pose proof (len_nonneg (write_varint (ix_rows ix))).
  pose proof (len_nonneg (write_varint (len (ix_postings ix)))).
  assert (Forall term_fits (ix_postings ix)) as Hf by (apply encode_terms_fit; lia).
  split; [done|]. pose proof (encode_terms_len _ _ Hall Hf).
  pose proof (len_nonneg (ix_postings ix)). unfold fits. lia.
Qed.

Lemma reads_dictionary ix :
  index_wf ix → len (ix_to_bytes ix) < 2 ^ 64 → reads decode_dictionary (ix_to_bytes ix) ix.
Proof.
  intros Hwf Hl. destruct (ix_blob_fits ix Hwf Hl) as [Hf Hn]. destruct Hwf as (Hr & Hwf & Hall).
  unfold decode_dictionary, ix_to_bytes.
  eapply reads_bind; [by apply reads_take|].
  eapply reads_nil_bind; [apply reads_guard; by apply bool_decide_eq_true|].
  eapply reads_bind; [apply reads_u8|]. eapply reads_nil_bind; [by apply reads_guard|].
  eapply reads_bind; [by apply reads_varint_u32|]. eapply reads_bind; [by apply reads_varint|].
  apply reads_remaining. intros r Hrem. pose proof (encode_terms_len _ _ Hall Hf).
  eapply reads_nil_bind.
  { apply reads_guard, Z.leb_le. apply Z.div_le_lower_bound; lia. }
  rewrite to_nat_len. eapply reads_bind_nil; [by apply (reads_terms _ _ [])|].
  destruct ix. apply reads_ret.
Qed.

Lemma ix_from_to_bytes ix :
  index_wf ix → len (ix_to_bytes ix) < 2 ^ 64 → ix_from_bytes (ix_to_bytes ix) = Some ix.
Proof.
  intros Hwf Hl. unfold ix_from_bytes, decode_index, p_bind.
  rewrite (reads_run _ _ _ (reads_dictionary ix Hwf Hl) Hl).
  unfold p_remaining, remaining, saturating_sub. cbn [buf pos]. by rewrite Z.sub_diag.
Qed.

(** ** Arbitrary blobs *)

Lemma ensures_deltas n (first : bool) n_rows prev acc :
  ascending acc → Forall (λ r, 0 ≤ r < n_rows) acc → 0 ≤ prev →
  (if first then acc = [] else Forall (λ r, r ≤ prev) acc) →
  ensures (decode_deltas n first n_rows prev acc)
    (λ rows, ascending rows ∧ Forall (λ r, 0 ≤ r < n_rows) rows ∧ length rows = (length acc + n)%nat).
Proof.
  revert first prev acc. induction n as [|n IH]; intros first prev acc Hasc Hall Hprev Hfirst; simpl.
  { apply ensures_ret. split; [done|]. split; [done|lia]. }
  p_step as delta Hdelta. p_step as ? Hg. p_step as prev' Hp. p_step as ? Hlt.
  apply checked_add_Some in Hp as [-> _]. apply Z.ltb_lt in Hlt. unfold fits in Hdelta.
  assert (∀ x, x ∈ acc → x < prev + delta) as Habove.
  { intros x Hx. destruct first; [subst; set_solver|]. rewrite Forall_forall in Hfirst.
    specialize (Hfirst x Hx). simpl in Hg. apply negb_true_iff, Z.eqb_neq in Hg. lia. }
  eapply ensures_weaken; [apply IH|].
  - apply ascending_app. split; [done|]. split; [apply ascending_singleton|].
    intros x y Hx ->%list_elem_of_singleton. auto.
  - apply Forall_app. split; [done|]. repeat constructor; lia.
  - lia.
  - apply Forall_app. split; [|by repeat constructor].
    apply Forall_forall. intros x Hx. specialize (Habove x Hx). lia.
  - intros rows (? & ? & Hl). split; [done|]. split; [done|]. rewrite length_app in Hl. simpl in Hl. lia.
Qed.

Lemma above_last_Forall m term : bt_wf m → above_last m term = true → Forall (λ k, lex_lt k term) m.*1.
Proof.
  intros Hwf. unfold above_last. destruct (bt_last m) as [[k v]|] eqn:E.
  - intros Hlt%negb_true_iff%lex_leb_false. apply last_Some in E as [l ->].
    apply bt_wf_app in Hwf as (_ & _ & Hl). rewrite fmap_app. apply Forall_app. split.
    + apply Forall_forall. intros x Hx. etransitivity; [apply Hl; [done|left]|done].
    + by repeat constructor.
  - apply last_None in E as ->. constructor.
Qed.

Lemma ensures_term n_rows m :
  bt_wf m → Forall (postings_ok n_rows) m →
  ensures (decode_term n_rows m) (λ m', bt_wf m' ∧ Forall (postings_ok n_rows) m').
Proof.
  intros Hwf Hall. unfold decode_term. p_step as tlen Htl.
  eapply ensures_bind; [apply ensures_take; unfold fits in Htl; lia|]. intros tb _.
  p_step as term Hterm. apply from_utf8_Some in Hterm as [_ Hterm].
  p_step as ? Habove. p_step as plen Hplen. p_step as rem Hrem. p_step as ? Hg.
  apply negb_true_iff, orb_false_iff in Hg as [Hne%Z.eqb_neq _]. unfold fits in Hplen.
  eapply ensures_bind; [by apply ensures_deltas; [apply ascending_nil|..]|].
  intros rows (Hasc & Hin & Hlen). apply ensures_ret. split; [by apply bt_insert_wf|].
  apply bt_insert_Forall; [|done]. split; [done|]. split; [|done].
  intros E. simpl in E. subst rows. simpl in Hlen. lia.
Qed.

Lemma ensures_terms n n_rows m :
  bt_wf m → Forall (postings_ok n_rows) m →
  ensures (decode_terms n n_rows m) (λ m', bt_wf m' ∧ Forall (postings_ok n_rows) m').
Proof.
  revert m. induction n as [|n IH]; intros m Hwf Hall; simpl; [by apply ensures_ret|].
  eapply ensures_bind; [by apply ensures_term|]. intros m' [??]. by apply IH.
Qed.

Lemma ensures_dictionary : ensures decode_dictionary index_wf.
Proof.
  unfold decode_dictionary. eapply ensures_bind; [by apply ensures_take|]. intros magic _.
  p_step as ? ?. eapply ensures_bind; [apply forward_ensures, forward_u8|]. intros version _.
  p_step as ? ?. p_step as n_rows Hn. p_step as n_terms ?. p_step as rem ?. p_step as ? ?.
  eapply ensures_bind; [by apply ensures_terms; [apply bt_wf_nil|]|]. intros m [??].
  by apply ensures_ret.
Qed.

Lemma ix_to_bytes_ok ix : index_wf ix → len (ix_to_bytes ix) < 2 ^ 64 → bytes_ok (ix_to_bytes ix).
Proof.
  intros Hwf Hl. destruct (ix_blob_fits ix Hwf Hl) as [Hf Hn]. destruct Hwf as (Hr & _ & Hall).
  unfold fits in Hr. unfold ix_to_bytes. repeat (apply Forall_app; split);
    [apply lit_ok|by repeat constructor|apply write_varint_ok; unfold fits; lia|by apply write_varint_ok|].
  apply bytes_ok_bind. rewrite Forall_forall in *. intros [t l] Hin.
  destruct (Hall _ Hin) as (Hv & _). destruct (Hf _ Hin) as [Ht Hlr]. simpl in *.
  unfold encode_term. repeat (apply Forall_app; split); try (by apply write_varint_ok).
  - by apply valid_str_bytes.
  - apply encode_deltas_ok.
Qed.

(** ** The checksum *)

(** [crc32fast]'s contract: updating with each part in turn hashes the whole. *)
Class Crc32Laws (C : Crc32) : Prop := {
  crc32_streaming chunks :
    hasher_finalize (foldl hasher_update hasher_new chunks) = crc32_hash (concat chunks);
}.

Lemma hex_crc_loop_pairs `{Crc32} s h :
  hex_crc_loop h s = (λ bs, foldl hasher_update h ((λ b, [b]) <$> bs)) <$> hex_pairs s.
Proof.
  remember (length s) as n eqn:Hn. revert s h Hn. induction n as [n IH] using lt_wf_ind.
  intros [|c0 [|c1 s]] h Hn; [done..|]. cbn [hex_crc_loop hex_pairs].
  destruct (nibble c0) as [hi|]; [|done]. destruct (nibble c1) as [lo|]; [|done].
  cbn [mbind option_bind]. rewrite (IH (length s)) by (simpl in *; done || lia).
  by destruct (hex_pairs s).
Qed.

Lemma concat_singletons (bs : bytes) : concat ((λ b, [b]) <$> bs) = bs.
Proof. induction bs as [|b bs IH]; [done|]. rewrite fmap_cons. simpl. by rewrite IH. Qed.

(** * The properties *)

(** The predicate a conjunction of terms asks of a row. *)
Definition row_has_all (t : Tokenizer) (terms : list rstr) (raw : rstr) : bool :=
  forallb (λ term, match normalize_query_term term with
                   | Some norm => bool_decide (norm ∈ tokenize_with t raw)
                   | None => false
                   end) terms.

Lemma matching_rows_all_rows (t : Tokenizer) (rows terms : list rstr) :
  len rows < 2 ^ 32 → Forall valid_str rows → terms ≠ [] →
  matching_rows_all (from_rows_with_tokenizer rows t) terms = rows_where (row_has_all t terms) rows.
Proof.
  intros Hlen Hval Hne. pose proof (from_rows_wf t rows Hlen Hval) as Hwf.
  pose proof (from_rows_inv t rows Hlen) as (_ & _ & _ & Hget).
  destruct (matching_rows_all_spec _ terms Hwf) as [Ha Hx].
  apply ascending_ext; [done|apply rows_where_ascending|]. intros i.
  rewrite Hx, elem_of_rows_where. unfold row_has_all. rewrite forallb_forall.
  setoid_rewrite <- list_elem_of_In.
  assert (∀ term, (∃ l, postings (from_rows_with_tokenizer rows t) term = Some l ∧ i ∈ l)
    ↔ 0 ≤ i < len rows ∧ match normalize_query_term term with
      | Some norm => bool_decide (norm ∈ tokenize_with t (default [] (rows !! Z.to_nat i)))
      | None => false end = true) as Hterm.
  { intros term. unfold postings, from_rows_with_tokenizer, ib_build. simpl.
    destruct (normalize_query_term term) as [norm|]; simpl; [|by split; [intros (?&?&?)|intros []]]. rewrite Hget.
    pose proof (elem_of_rows_where (λ raw, bool_decide (norm ∈ tokenize_with t raw)) rows i) as Hi.
    rewrite <- Hi. destruct (rows_where _ rows); [set_solver|]. split; [|by eauto].
    by intros (? & <-%(inj Some) & ?). }
  setoid_rewrite Hterm. destruct terms as [|t0 terms]; [done|]. split.
  - intros [_ H]. split; [by apply (H t0); left|]. intros x Hin. by apply H.
  - intros [? H]. split; [done|]. auto.
Qed.

(** The builder is exact: after any rows, the dictionary holds a term if
    and only if some row tokenizes to it, with exactly the ordinals of those rows
    in ascending order; and the index is well formed. *)
Theorem index_build_exact (t : Tokenizer) (rows : list rstr) :
  len rows < 2 ^ 32 → Forall valid_str rows →
  index_wf (from_rows_with_tokenizer rows t)
  ∧ ix_rows (from_rows_with_tokenizer rows t) = len rows
  ∧ ∀ term, bt_get term (ix_postings (from_rows_with_tokenizer rows t))
      = match rows_where (λ raw, bool_decide (term ∈ tokenize_with t raw)) rows with
        | [] => None
        | l => Some l
        end.
Proof.
  intros Hlen Hval. split; [by apply from_rows_wf|].
  by pose proof (from_rows_inv t rows Hlen) as (_ & ? & _ & ?).
Qed.

Definition sample_rows : list rstr :=
  [lit "GET /api error"; lit "ok ok"; lit "Error: api timeout"].

Lemma index_build_exact_witness :
  bt_get (lit "error") (ix_postings (from_rows sample_rows)) = Some [0; 2].
Proof.
  destruct (index_build_exact Default sample_rows) as (_ & _ & H).
  - vm_compute. reflexivity.
  - apply (bool_decide_unpack _). vm_compute. exact I.
  - unfold from_rows. rewrite H. vm_compute. reflexivity.
Defined.

(** A conjunctive term query is exact: the rows returned are those all the
    normalized terms occur in as tokens, in ascending order. *)
Theorem index_match_all_exact (t : Tokenizer) (rows terms : list rstr) :
  len rows < 2 ^ 32 → Forall valid_str rows → terms ≠ [] →
  matching_rows_all (from_rows_with_tokenizer rows t) terms = rows_where (row_has_all t terms) rows.
Proof. apply matching_rows_all_rows. Qed.

Lemma index_match_all_exact_witness :
  matching_rows_all (from_rows sample_rows) [lit " API "; lit "error"] = [0; 2].
Proof.
  etransitivity; [apply (index_match_all_exact Default sample_rows)|].
  - vm_compute. reflexivity.
  - apply (bool_decide_unpack _). vm_compute. exact I.
  - done.
  - vm_compute. reflexivity.
Defined.

(** Substring search is exact up to letter case for rows within the token
    cap: an answerable query returns precisely the rows whose text contains the
    normalized substring. *)
Theorem index_substring_exact (rows : list rstr) (substr norm : rstr) :
  len rows < 2 ^ 32 → Forall valid_str rows → valid_str substr →
  normalize_query_term substr = Some norm →
  Forall (λ raw, len (indexable_pieces raw) ≤ MAX_TOKENS_PER_ROW) rows →
  rows_containing (from_rows rows) substr
  = Some (rows_where (λ raw, contains (to_ascii_lowercase raw) norm) rows).
Proof.
  intros Hlen Hval Hq Hn Hcap. unfold from_rows.
  rewrite (rows_containing_tokens Default rows substr norm) by done. f_equal.
  destruct (normalize_query_term_alnum substr norm Hq Hn) as [Hl Ha].
  apply rows_where_ext. intros raw Hin. rewrite Forall_forall in Hval, Hcap.
  apply some_token_contains_raw; auto.
Qed.

Lemma index_substring_exact_witness :
  rows_containing (from_rows sample_rows) (lit "Rro") = Some [0; 2].
Proof.
  etransitivity; [apply (index_substring_exact sample_rows (lit "Rro") (lit "rro"))|].
  - vm_compute. reflexivity.
  - apply (bool_decide_unpack _). vm_compute. exact I.
  - apply (bool_decide_unpack _). vm_compute. exact I.
  - vm_compute. reflexivity.
  - apply (bool_decide_unpack _). vm_compute. exact I.
  - vm_compute. reflexivity.
Defined.

(** Past the token cap the substring answer is not a superset: a row of 65
    three-letter words contains its last word and is not returned. *)
Theorem index_substring_capped :
  let row := mjoin (replicate 64 (lit "abc ")) ++ lit "xyz" in
  contains (to_ascii_lowercase row) (lit "xyz") = true
  ∧ rows_containing (from_rows [row]) (lit "xyz") = Some [].
Proof. vm_compute. done. Qed.

(** An index survives its blob, as bytes and as footer hex. *)
Theorem index_blob_roundtrip (ix : InvertedIndex) :
  index_wf ix → len (ix_to_bytes ix) < 2 ^ 64 →
  ix_from_bytes (ix_to_bytes ix) = Some ix ∧ ix_from_hex (ix_to_hex ix) = Some ix.
Proof.
  intros Hwf Hl. split; [by apply ix_from_to_bytes|]. unfold ix_from_hex, ix_to_hex.
  rewrite hex_decode_encode by by apply ix_to_bytes_ok. by apply ix_from_to_bytes.
Qed.

Lemma index_blob_roundtrip_witness :
  ix_from_bytes (ix_to_bytes (mkIndex [([], [1]); (lit "api", [0; 2])] 3))
    = Some (mkIndex [([], [1]); (lit "api", [0; 2])] 3)
  ∧ ix_from_hex (lit "4b494458010302000101036170690200" ++ lit "02")
    = Some (mkIndex [([], [1]); (lit "api", [0; 2])] 3).
Proof.
  destruct (index_blob_roundtrip (mkIndex [([], [1]); (lit "api", [0; 2])] 3)) as [Hb Hh].
  - apply (bool_decide_unpack _). vm_compute. exact I.
  - vm_compute. reflexivity.
  - split; [exact Hb|]. etransitivity; [|exact Hh]. f_equal.
Defined.

(** Whatever the blob, an index that parses is well formed: terms valid
    UTF-8 and strictly ascending, postings non-empty, strictly ascending and
    within the row count the reader selects from. *)
Theorem index_parse_wf (bs : bytes) (ix : InvertedIndex) :
  ix_from_bytes bs = Some ix → index_wf ix.
Proof.
  unfold ix_from_bytes, decode_index. destruct (p_bind _ _ _) as [[ix' c]|] eqn:E; [|done].
  intros [= <-]. eapply (ensures_bind decode_dictionary _ _ index_wf ensures_dictionary) in E as [? _].
  - done.
  - intros i Hi. p_step as r ?. p_step as ? ?. by apply ensures_ret.
  - simpl. pose proof (len_nonneg bs). lia.
Qed.

Lemma index_parse_wf_witness : index_wf (mkIndex [(lit "a", [0; 130])] 300).
Proof.
  apply (index_parse_wf (INDEX_MAGIC ++ [1; 0xAC; 0x02; 1; 1; 0x61; 2; 0; 0x82; 0x01])).
  vm_compute. reflexivity.
Defined.

(** The selection handed to the reader covers every row once and selects
    exactly the matching rows, in maximal alternating runs. *)
Theorem index_selection_exact (ix : InvertedIndex) (terms : list rstr) :
  index_wf ix →
  runs_ok (matching_row_selection ix terms)
  ∧ expand (matching_row_selection ix terms)
    = (λ i, bool_decide (terms ≠ [] ∧ Forall (λ t, i ∈ default [] (postings ix t)) terms))
      <$> seqZ 0 (ix_rows ix).
Proof.
  intros Hwf. destruct (matching_rows_all_spec ix terms Hwf) as [Ha Hx].
  assert (∀ t, ∀ x, x ∈ default [] (postings ix t) ↔ ∃ l, postings ix t = Some l ∧ x ∈ l) as Hd.
  { intros t x. destruct (postings ix t); simpl; [|set_solver]. naive_solver. }
  unfold matching_row_selection. destruct (row_selection_runs_spec _ (ix_rows ix) Ha) as [Hok He].
  - apply Forall_forall. intros x [Hne H]%Hx. destruct terms as [|t terms]; [done|].
    destruct (H t) as (l & (n & _ & Hl)%bind_Some & Hin); [left|].
    apply index_wf_get in Hl as (_ & _ & Hr); [|done]. rewrite Forall_forall in Hr.
    by apply Hr in Hin as [? _].
  - destruct Hwf as [Hr _]. unfold fits in Hr. lia.
  - split; [done|]. rewrite He. apply list_fmap_ext. intros _ i _. apply bool_decide_ext.
    rewrite Hx, Forall_forall. by setoid_rewrite Hd.
Qed.

Lemma index_selection_exact_witness :
  expand (matching_row_selection (from_rows sample_rows) [lit "error"]) = [true; false; true].
Proof.
  destruct (index_selection_exact (from_rows sample_rows) [lit "error"]) as [_ H].
  - apply (bool_decide_unpack _). vm_compute. exact I.
  - rewrite H. vm_compute. reflexivity.
Defined.

(** The checksum taken over footer hex without decoding it is the checksum
    of the bytes the text decodes to, and text that does not decode has none. *)
Theorem index_hex_crc32 (C : Crc32) (CL : Crc32Laws C) (hex : rstr) :
  inverted_index_hex_crc32 hex = inverted_index_crc32 <$> hex_decode hex.
Proof.
  unfold inverted_index_hex_crc32, hex_decode. destruct (_ =? _); [|done].
  rewrite hex_crc_loop_pairs. destruct (hex_pairs hex) as [bs|]; [|done]. simpl. f_equal.
  rewrite crc32_streaming. by rewrite concat_singletons.
Qed.

(** A checksum that satisfies the contract: the byte sum. *)
Definition sum_crc32 : Crc32 := {|
  hasher := Z;
  hasher_new := 0;
  hasher_update h bs := h + sumZ bs;
  hasher_finalize h := wrap 32 h;
  crc32_hash bs := wrap 32 (sumZ bs);
|}.

Lemma sum_crc32_laws : Crc32Laws sum_crc32.
Proof.
  split. intros chunks. simpl. f_equal. rewrite <- (Z.add_0_l (sumZ (concat chunks))).
  generalize 0. induction chunks as [|c chunks IH]; intros h; simpl; [unfold sumZ; simpl; lia|].
  rewrite IH, sumZ_app. lia.
Qed.

Lemma index_hex_crc32_witness :
  inverted_index_hex_crc32 (H := sum_crc32) (lit "4b4944") = Some 0xD8
  ∧ inverted_index_hex_crc32 (H := sum_crc32) (lit "4b4") = None.
Proof. split; exact (index_hex_crc32 sum_crc32 sum_crc32_laws _). Defined.
