(* ===== verification/SegBlock.v ===== *)
(** Dictionary blocks of the segmented index:
    [encode_block], [first_term_of] and [scan_block] of
    [crates/loglake-index/src/segmented.rs].

    A block holds consecutive terms, front-coded, each with its document
    frequency and the byte length of its postings.  A reader walks it with a
    visitor that may stop early; walking an encoded block shows the visitor
    exactly the terms that went in, with the postings offsets accumulated from
    the block's base. *)

From stdpp Require Import prelude sorting.
From Stdlib Require Import ZArith Lia.
From S2P Require Import Prelude RustStr Cursor Leb128.

(** A dictionary entry: the term, its document frequency, its postings length. *)
Record TermEntry := mkEntry { te_term : rstr; te_df : Z; te_len : Z }.

Definition shared_prefix_len (a b : bytes) : Z := common_prefix_len a b.

Fixpoint encode_entries (prev : rstr) (terms : list TermEntry) : bytes :=
  match terms with
  | [] => []
  | e :: terms =>
    let term := te_term e in
    let shared := shared_prefix_len prev term in
    write_varint shared ++ write_varint (len term - shared) ++ drop (Z.to_nat shared) term
    ++ write_varint (te_df e) ++ write_varint (te_len e) ++ encode_entries term terms
  end.

Definition encode_block (terms : list TermEntry) : bytes :=
  write_varint (len terms) ++ encode_entries [] terms.

(** [first_term_of], whose [expect]s are [None] here. *)
Definition first_term_of (block : bytes) : option rstr :=
  fst <$> (let* _ := seg_varint in
           let* _ := seg_varint in
           let* n := seg_varint in
           let* bs := p_take n in
           p_opt (from_utf8 bs)) (Cur block 0).

(** [u32::try_from(c.varint()?).ok()?] *)
Definition seg_u32 : P Z := let* v := seg_varint in p_opt (try_into 32 v).

(** One entry: read, checked against its predecessor. *)
Definition scan_entry (first : bool) (previous : bytes) : P TermEntry :=
  let* shared := seg_varint in
  let* suffix_len := seg_varint in
  let* _ := p_guard ((shared <=? len previous) && negb (first && negb (shared =? 0))) in
  let* suffix := p_take suffix_len in
  let term := take (Z.to_nat shared) previous ++ suffix in
  let* df := seg_u32 in
  let* l := seg_u32 in
  let* _ := p_guard (negb ((df =? 0) || (l <? df))) in
  let* _ := p_guard (first || negb (lex_leb term previous)) in
  p_ret (mkEntry term df l).

Section Scan.
(** The visitor: its state, and whether to go on, given a term and the offset of
    its postings. *)
Context {S : Type} (visit : S → TermEntry → Z → S * bool).

(** The state survives an error, as the closure's captures do; the flag is
    [Ok(())]. *)
Fixpoint scan_terms (n : nat) (first : bool) (previous : bytes) (offset : Z) (s : S) (c : cursor)
    : S * bool :=
  match n with
  | O => (s, remaining c =? 0)
  | Datatypes.S n =>
    match scan_entry first previous c with
    | None => (s, false)
    | Some (e, c) =>
      let '(s, continue) := visit s e offset in
      if continue then
        match checked_add 64 offset (te_len e) with
        | None => (s, false)
        | Some offset => scan_terms n false (te_term e) offset s c
        end
      else (s, true)
    end
  end.

Definition scan_block (bs : bytes) (postings_base : Z) (s : S) : S * bool :=
  match seg_varint (Cur bs 0) with
  | None => (s, false)
  | Some (n_terms, c) =>
    if remaining c <? n_terms then (s, false)
    else scan_terms (Z.to_nat n_terms) true [] postings_base s c
  end.

(** The walk a well-formed block gives: every entry in turn until the visitor
    stops. *)
Fixpoint walk (terms : list TermEntry) (offset : Z) (s : S) : S :=
  match terms with
  | [] => s
  | e :: terms =>
    let '(s, continue) := visit s e offset in
    if continue then walk terms (offset + te_len e) s else s
  end.
End Scan.

(** * Walking an encoded block *)

Definition entry_ok (e : TermEntry) : Prop :=
  valid_str (te_term e) ∧ u64 (len (te_term e)) ∧ u32 (te_df e) ∧ u32 (te_len e)
  ∧ 1 ≤ te_df e ≤ te_len e.

Definition terms_ok (terms : list TermEntry) : Prop :=
  Forall entry_ok terms ∧ StronglySorted lex_lt (te_term <$> terms).

Lemma u32_u64 z : u32 z → u64 z.
Proof. unfold fits. lia. Qed.

Lemma reads_seg_u32 v : u32 v → reads seg_u32 (write_varint v) v.
Proof.
  intros Hv. eapply reads_bind_nil; [by apply reads_seg_varint, u32_u64|].
  apply reads_opt. unfold try_into, fits in *. by rewrite (proj2 (Z.ltb_lt _ _)) by lia.
Qed.

Lemma ensures_seg_u32 : ensures seg_u32 (fits 32).
Proof.
  unfold seg_u32. p_step as v Hv. eapply ensures_weaken; [apply ensures_opt|].
  unfold try_into. intros a. destruct (Z.ltb_spec v (2 ^ 32)); [|done]. intros [= <-].
  unfold fits in *. lia.
Qed.
#[export] Hint Resolve ensures_seg_u32 : ensures.

Definition encode_entry (prev : rstr) (e : TermEntry) : bytes :=
  let shared := shared_prefix_len prev (te_term e) in
  write_varint shared ++ write_varint (len (te_term e) - shared) ++ drop (Z.to_nat shared) (te_term e)
  ++ write_varint (te_df e) ++ write_varint (te_len e).

Lemma encode_entries_cons prev e terms :
  encode_entries prev (e :: terms) = encode_entry prev e ++ encode_entries (te_term e) terms.
Proof. unfold encode_entry. simpl. by rewrite <- !app_assoc. Qed.

Lemma reads_entry (first : bool) prev e :
  entry_ok e → (if first then prev = [] else lex_lt prev (te_term e)) →
  reads (scan_entry first prev) (encode_entry prev e) e.
Proof.
  intros (Hv & Hl & Hdf & Hlen & Hle) Hprev. unfold scan_entry, encode_entry, shared_prefix_len.
  pose proof (common_prefix_bound prev (te_term e)) as Hs. unfold fits in Hl.
  set (shared := common_prefix_len prev (te_term e)) in *.
  eapply reads_bind; [apply reads_seg_varint; unfold fits; lia|].
  eapply reads_bind; [apply reads_seg_varint; unfold fits; lia|].
  eapply reads_nil_bind.
  { apply reads_guard, andb_true_iff. split; [apply Z.leb_le; lia|].
    destruct first; [|done]. subst prev. by assert (shared = 0) as -> by (unfold len in Hs; simpl in Hs; lia). }
  eapply reads_bind; [apply reads_take; unfold len in *; rewrite length_drop; lia|]. cbv zeta.
  eapply reads_bind; [by apply reads_seg_u32|]. eapply reads_bind_nil; [by apply reads_seg_u32|].
  eapply reads_nil_bind.
  { apply reads_guard, negb_true_iff, orb_false_iff. split; [apply Z.eqb_neq|apply Z.ltb_ge]; lia. }
  assert (take (Z.to_nat shared) prev ++ drop (Z.to_nat shared) (te_term e) = te_term e) as ->.
  { unfold shared. rewrite common_prefix_take. apply take_drop. }
  eapply reads_nil_bind.
  { apply reads_guard. destruct first; [done|]. simpl. by apply negb_true_iff, lex_leb_false. }
  destruct e. apply reads_ret.
Qed.

Lemma encode_entry_pos prev e : entry_ok e → 1 ≤ len (encode_entry prev e).
Proof.
  intros (_ & _ & Hdf & Hl & _). unfold encode_entry. rewrite !len_app.
  pose proof (write_varint_pos _ (u32_u64 _ Hdf)). pose proof (len_nonneg (write_varint (te_len e))).
  pose proof (len_nonneg (write_varint (shared_prefix_len prev (te_term e)))).
  pose proof (len_nonneg (write_varint (len (te_term e) - shared_prefix_len prev (te_term e)))).
  pose proof (len_nonneg (drop (Z.to_nat (shared_prefix_len prev (te_term e))) (te_term e))). lia.
Qed.

Lemma encode_entries_len prev terms : Forall entry_ok terms → len terms ≤ len (encode_entries prev terms).
Proof.
  intros H. revert prev. induction H as [|e terms He _ IH]; intros prev; [done|].
  rewrite encode_entries_cons, len_app, len_cons. pose proof (encode_entry_pos prev e He).
  specialize (IH (te_term e)). lia.
Qed.

(** The offsets a walk accumulates stay within [u64]. *)
Definition lens_fit (offset : Z) (terms : list TermEntry) : Prop :=
  0 ≤ offset ∧ offset + sumZ (te_len <$> terms) < 2 ^ 64.

Lemma sum_lens_nonneg terms : Forall entry_ok terms → 0 ≤ sumZ (te_len <$> terms).
Proof.
  intros H. apply sumZ_nonneg, Forall_fmap. eapply Forall_impl; [exact H|].
  intros e (_ & _ & _ & Hl & _). simpl. unfold fits in Hl. lia.
Qed.

Section ScanSpec.
Context {S : Type} (visit : S → TermEntry → Z → S * bool).

Lemma scan_terms_spec terms (first : bool) prev offset s pre :
  Forall entry_ok terms → StronglySorted lex_lt (te_term <$> terms) →
  (if first then prev = [] else Forall (lex_lt prev) (te_term <$> terms)) →
  lens_fit offset terms → len (pre ++ encode_entries prev terms) < 2 ^ 64 →
  scan_terms visit (length terms) first prev offset s (Cur (pre ++ encode_entries prev terms) (len pre))
  = (walk visit terms offset s, true).
Proof.
  intros Hok. revert first prev offset s pre.
  induction Hok as [|e terms He Hok IH]; intros first prev offset s pre Hsort Hprev Hfit Hlen;
    cbn [length scan_terms walk].
  { unfold remaining, saturating_sub. simpl. rewrite app_nil_r. by rewrite Z.sub_diag. }
  apply StronglySorted_inv in Hsort as [Hsort Hlt]. rewrite encode_entries_cons in *.
  rewrite (reads_entry first prev e He); [|destruct first; [done|]; by apply Forall_cons in Hprev as [? _]|done].
  destruct (visit s e offset) as [s' []]; [|done].
  pose proof (sum_lens_nonneg terms Hok). destruct Hfit as [Ho Hfit]. rewrite fmap_cons in Hfit. simpl in Hfit.
  unfold checked_add. rewrite (proj2 (Z.ltb_lt _ _)) by (destruct He as (_ & _ & _ & Hl & _); unfold fits in Hl; lia).
  rewrite <- len_app, app_assoc. apply (IH false); [done|done| |by rewrite <- app_assoc].
  split; [destruct He as (_ & _ & _ & Hl & _); unfold fits in Hl; lia|lia].
Qed.

Lemma scan_block_spec terms base s :
  terms_ok terms → lens_fit base terms → len (encode_block terms) < 2 ^ 64 →
  scan_block visit (encode_block terms) base s = (walk visit terms base s, true).
Proof.
  intros [Hok Hsort] Hfit Hlen. unfold scan_block, encode_block in *.
  pose proof (encode_entries_len [] terms Hok) as Hl. pose proof (len_nonneg terms).
  rewrite len_app in Hlen. pose proof (len_nonneg (write_varint (len terms))).
  assert (u64 (len terms)) as Hu by (unfold fits; lia).
  rewrite (reads_prefix _ _ _ _ (reads_seg_varint (len terms) Hu)) by (rewrite len_app; lia).
  unfold remaining, saturating_sub. cbn [buf pos].
  rewrite (proj2 (Z.ltb_ge _ _)) by (rewrite len_app; lia). rewrite to_nat_len.
  by apply (scan_terms_spec terms true); [..|rewrite len_app; lia].
Qed.
End ScanSpec.

Lemma block_count_u64 terms :
  Forall entry_ok terms → len (encode_block terms) < 2 ^ 64 → u64 (len terms).
Proof.
  intros Hok Hlen. unfold encode_block in Hlen. rewrite len_app in Hlen.
  pose proof (encode_entries_len [] terms Hok). pose proof (len_nonneg (write_varint (len terms))).
  pose proof (len_nonneg terms). unfold fits. lia.
Qed.

Lemma first_term_of_encode e terms :
  Forall entry_ok (e :: terms) → len (encode_block (e :: terms)) < 2 ^ 64 →
  first_term_of (encode_block (e :: terms)) = Some (te_term e).
Proof.
  intros Hok Hlen. pose proof (block_count_u64 _ Hok Hlen) as Hu.
  apply Forall_cons in Hok as [(Hv & Hl & _) _]. unfold first_term_of.
  assert (encode_block (e :: terms) = (write_varint (len (e :: terms)) ++ write_varint 0
    ++ write_varint (len (te_term e)) ++ te_term e)
    ++ write_varint (te_df e) ++ write_varint (te_len e) ++ encode_entries (te_term e) terms) as E.
  { unfold encode_block. rewrite encode_entries_cons. unfold encode_entry.
    change (shared_prefix_len [] (te_term e)) with 0. change (Z.to_nat 0) with 0%nat.
    by rewrite Z.sub_0_r, drop_0, <- !app_assoc. }
  rewrite E in *. erewrite reads_prefix; [reflexivity| |done].
  eapply reads_bind; [by apply reads_seg_varint|].
  eapply reads_bind; [apply reads_seg_varint; unfold fits; lia|].
  eapply reads_bind; [by apply reads_seg_varint|]. eapply reads_bind_nil; [by apply reads_take|].
  apply reads_opt. by apply from_utf8_valid.
Qed.
