(* ===== verification/SegWriter.v ===== *)
(** Writing the segmented index: [SegmentedWriter], [encode_directory] and
    [append_directory_and_trailer] of [crates/loglake-index/src/segmented.rs],
    for both layouts (seg1 plain, seg2 with a compressed frame per block).

    CRC-32 and the Zstd codec are third-party code and enter as parameters. *)

From stdpp Require Import prelude sorting strings.
From Stdlib Require Import ZArith Lia.
From S2P Require Import Prelude RustStr BTree Cursor Leb128 Bloom Postings InvertedIndex SegBlock.

Definition SEGMENTED_MAGIC : bytes := lit "KIDS".
Definition SEGMENTED_VERSION : Z := 1.
Definition SEGMENTED_V2_VERSION : Z := 2.
Definition SEGMENTED_TRAILER_LEN : Z := 8 + 8 + 4 + 1 + 4.
Definition SEGMENTED_V2_INDEX_KV_KEY : rstr := lit "loglake.inverted_index.seg2".
Definition DEFAULT_TARGET_BLOCK_BYTES : Z := 4096.

Definition segmented_v2_index_kv_key (column : rstr) : rstr :=
  if bool_decide (column = lit "raw") then SEGMENTED_V2_INDEX_KV_KEY
  else SEGMENTED_V2_INDEX_KV_KEY ++ lit "." ++ column.

(** [crc32fast::hash], [zstd::bulk::compress(_, 3)] and
    [zstd::bulk::decompress(_, capacity)]. *)
Class SegCodecs := {
  crc32 : bytes → Z;
  compress : bytes → bytes;
  decompress : bytes → Z → option bytes;
}.

Record V2BlockEntry := mkV2 {
  raw_len : Z;
  v2_postings_offset : Z;
  v2_postings_len : Z;
  postings_raw_len : Z;
  postings_crc : Z;
}.

Record BlockEntry := mkBlock {
  first_term : rstr;
  b_offset : Z;
  b_len : Z;
  postings_base : Z;
  b_crc : Z;
  b_v2 : option V2BlockEntry;
}.

Inductive SegmentedFormat := Seg1 | Seg2.

Definition version (f : SegmentedFormat) : Z :=
  match f with Seg1 => SEGMENTED_VERSION | Seg2 => SEGMENTED_V2_VERSION end.

Record GroupEntry := mkGroup {
  first_row : Z;
  g_rows : Z;
  dict_offset : Z;
  dict_len : Z;
  postings_offset : Z;
  postings_len : Z;
  blocks : list BlockEntry;
}.

Record SegmentedWriter := mkWriter {
  sw_out : bytes;
  sw_groups : list GroupEntry;
  next_row : Z;
  target_block_bytes : Z;
  sw_tokenizer : Tokenizer;
  sw_format : SegmentedFormat;
}.

Definition with_format (target_block_bytes : Z) (format : SegmentedFormat) : SegmentedWriter :=
  mkWriter (SEGMENTED_MAGIC ++ [version format]) [] 0 (Z.max target_block_bytes 64) Default format.

Definition sw_new (target_block_bytes : Z) : SegmentedWriter := with_format target_block_bytes Seg1.
Definition sw_new_v2 (target_block_bytes : Z) : SegmentedWriter := with_format target_block_bytes Seg2.

Definition sw_with_tokenizer (w : SegmentedWriter) (t : Tokenizer) : SegmentedWriter :=
  mkWriter (sw_out w) (sw_groups w) (next_row w) (target_block_bytes w) t (sw_format w).

(** A term's postings appended to a section, and its dictionary entry. *)
Definition push_term (s : bytes * list TermEntry) (tr : rstr * list Z) : bytes * list TermEntry :=
  let '(out, entries) := s in
  let '(term, rows) := tr in
  let out' := out ++ encode_deltas 0 rows in
  (out', entries ++ [mkEntry term (wrap 32 (len rows)) (wrap 32 (len out' - len out))]).

(** The running size estimate that closes a block. *)
Definition estimate (terms : list TermEntry) : Z :=
  sumZ ((λ e, len (te_term e) + 6) <$> terms) + 2.

Section Write.
Context {C : SegCodecs}.

Definition flush_block (out block : bytes) (dict_offset base : Z) : bytes * BlockEntry :=
  (out ++ block,
   mkBlock (default [] (first_term_of block)) (wrap 32 (len out - dict_offset)) (wrap 32 (len block))
     base (crc32 block) None).

(** ** Seg1 *)

Record BlockLoop := mkLoop {
  bl_out : bytes;
  bl_blocks : list BlockEntry;
  bl_terms : list TermEntry;
  bl_cursor : Z;
  bl_base : Z;
}.

Definition v1_entry (target dict_offset : Z) (st : BlockLoop) (e : TermEntry) : BlockLoop :=
  let terms := bl_terms st ++ [e] in
  let cursor := bl_cursor st + te_len e in
  if target <=? estimate terms then
    let '(out, be) := flush_block (bl_out st) (encode_block terms) dict_offset (bl_base st) in
    mkLoop out (bl_blocks st ++ [be]) [] cursor cursor
  else mkLoop (bl_out st) (bl_blocks st) terms cursor (bl_base st).

Definition v1_blocks (target dict_offset : Z) (out : bytes) (entries : list TermEntry)
    : bytes * list BlockEntry :=
  let st := foldl (v1_entry target dict_offset) (mkLoop out [] [] 0 0) entries in
  match bl_terms st with
  | [] => (bl_out st, bl_blocks st)
  | terms =>
    let '(out, be) := flush_block (bl_out st) (encode_block terms) dict_offset (bl_base st) in
    (out, bl_blocks st ++ [be])
  end.

Definition push_group_index_v1 (w : SegmentedWriter) (group : InvertedIndex) : SegmentedWriter :=
  let p_off := len (sw_out w) in
  let '(out, entries) := foldl push_term (sw_out w, []) (ix_postings group) in
  let p_len := len out - p_off in
  let d_off := len out in
  let '(out, bs) := v1_blocks (target_block_bytes w) d_off out entries in
  let d_len := len out - d_off in
  mkWriter out
    (sw_groups w ++ [mkGroup (next_row w) (ix_rows group) d_off d_len p_off p_len bs])
    (wrap 32 (next_row w + ix_rows group)) (target_block_bytes w) (sw_tokenizer w) (sw_format w).

(** ** Seg2 *)

(** A raw dictionary block and the span of the raw postings it covers. *)
Record RawBlock := mkRaw { raw_dict : bytes; raw_start : Z; raw_end : Z }.

Record RawLoop := mkRawLoop {
  rl_blocks : list RawBlock;
  rl_terms : list TermEntry;
  rl_cursor : Z;
  rl_base : Z;
}.

Definition v2_entry (target : Z) (st : RawLoop) (e : TermEntry) : RawLoop :=
  let terms := rl_terms st ++ [e] in
  let cursor := rl_cursor st + te_len e in
  if target <=? estimate terms
  then mkRawLoop (rl_blocks st ++ [mkRaw (encode_block terms) (rl_base st) cursor]) [] cursor cursor
  else mkRawLoop (rl_blocks st) terms cursor (rl_base st).

Definition v2_raw_blocks (target : Z) (entries : list TermEntry) : list RawBlock :=
  let st := foldl (v2_entry target) (mkRawLoop [] [] 0 0) entries in
  match rl_terms st with
  | [] => rl_blocks st
  | terms => rl_blocks st ++ [mkRaw (encode_block terms) (rl_base st) (rl_cursor st)]
  end.

(** [&raw_postings[start..end]] *)
Definition raw_span (raw_postings : bytes) (b : RawBlock) : bytes :=
  default [] (get_range raw_postings (raw_start b) (raw_end b)).

(** The posting-span loop. *)
Definition v2_postings (raw_postings : bytes) (p_off : Z) (s : bytes * list BlockEntry) (b : RawBlock)
    : bytes * list BlockEntry :=
  let '(out, bs) := s in
  let span := raw_span raw_postings b in
  let compressed := compress span in
  (out ++ compressed,
   bs ++ [mkBlock (default [] (first_term_of (raw_dict b))) 0 0 0 (crc32 (raw_dict b))
     (Some (mkV2 (wrap 32 (len (raw_dict b))) (len out - p_off) (wrap 32 (len compressed))
              (wrap 32 (len span)) (crc32 span)))]).

(** The dictionary loop, which fills in where each block went. *)
Definition v2_dict (d_off : Z) (s : bytes * list BlockEntry) (be : RawBlock * BlockEntry)
    : bytes * list BlockEntry :=
  let '(out, bs) := s in
  let '(raw, b) := be in
  let compressed := compress (raw_dict raw) in
  (out ++ compressed,
   bs ++ [mkBlock (first_term b) (wrap 32 (len out - d_off)) (wrap 32 (len compressed))
     (postings_base b) (b_crc b) (b_v2 b)]).

Definition push_group_index_v2 (w : SegmentedWriter) (group : InvertedIndex) : SegmentedWriter :=
  let '(raw_postings, entries) := foldl push_term ([], []) (ix_postings group) in
  let raws := v2_raw_blocks (target_block_bytes w) entries in
  let p_off := len (sw_out w) in
  let '(out, bs) := foldl (v2_postings raw_postings p_off) (sw_out w, []) raws in
  let p_len := len out - p_off in
  let d_off := len out in
  let '(out, bs) := foldl (v2_dict d_off) (out, []) (zip raws bs) in
  let d_len := len out - d_off in
  mkWriter out
    (sw_groups w ++ [mkGroup (next_row w) (ix_rows group) d_off d_len p_off p_len bs])
    (wrap 32 (next_row w + ix_rows group)) (target_block_bytes w) (sw_tokenizer w) (sw_format w).

Definition push_group_index (w : SegmentedWriter) (group : InvertedIndex) : SegmentedWriter :=
  match sw_format w with
  | Seg1 => push_group_index_v1 w group
  | Seg2 => push_group_index_v2 w group
  end.

Definition push_group_rows (w : SegmentedWriter) (rows : list rstr) : SegmentedWriter :=
  push_group_index w (from_rows_with_tokenizer rows (sw_tokenizer w)).

(** ** The directory *)

Definition encode_block_entry (format : SegmentedFormat) (b : BlockEntry) : bytes :=
  write_varint (len (first_term b)) ++ first_term b
  ++ write_varint (b_offset b) ++ write_varint (b_len b)
  ++ match format with
     | Seg1 => write_varint (postings_base b) ++ to_le 4 (b_crc b)
     | Seg2 =>
       let v2 := default (mkV2 0 0 0 0 0) (b_v2 b) in
       write_varint (raw_len v2) ++ write_varint (v2_postings_offset v2)
       ++ write_varint (v2_postings_len v2) ++ write_varint (postings_raw_len v2)
       ++ to_le 4 (postings_crc v2) ++ to_le 4 (b_crc b)
     end.

Definition encode_group (format : SegmentedFormat) (g : GroupEntry) : bytes :=
  write_varint (first_row g) ++ write_varint (g_rows g) ++ write_varint (dict_offset g)
  ++ write_varint (dict_len g) ++ write_varint (postings_offset g) ++ write_varint (postings_len g)
  ++ write_varint (len (blocks g)) ++ mbind (encode_block_entry format) (blocks g).

Definition encode_directory (n_rows : Z) (groups : list GroupEntry) (format : SegmentedFormat) : bytes :=
  write_varint n_rows ++ write_varint (len groups) ++ mbind (encode_group format) groups.

Definition append_directory_and_trailer (out dir : bytes) (ver : Z) : bytes :=
  out ++ dir ++ to_le 8 (len out) ++ to_le 8 (len dir) ++ to_le 4 (crc32 dir) ++ [ver] ++ SEGMENTED_MAGIC.

Definition finish (w : SegmentedWriter) : bytes :=
  append_directory_and_trailer (sw_out w) (encode_directory (next_row w) (sw_groups w) (sw_format w))
    (version (sw_format w)).

(** [encode_from_rows]: full groups of [group_rows], then the remainder. *)
Definition feed_row (group_rows : Z) (s : SegmentedWriter * list rstr) (row : rstr)
    : SegmentedWriter * list rstr :=
  let '(w, buffer) := s in
  let buffer := buffer ++ [row] in
  if len buffer =? group_rows then (push_group_rows w buffer, []) else (w, buffer).

Definition encode_from_rows (rows : list rstr) (group_rows : Z) : bytes :=
  let '(w, buffer) := foldl (feed_row (Z.max group_rows 1)) (sw_new DEFAULT_TARGET_BLOCK_BYTES, []) rows in
  finish (match buffer with [] => w | _ => push_group_rows w buffer end).
End Write.
