(* ===== verification/SegReader.v ===== *)
(** Reading the segmented index: [SegmentedDirectory] and [SegmentedReader] of
    [crates/loglake-index/src/segmented.rs].

    A lookup is a pure function of the ranges it reads, so it is written as a
    [Query]: a tree of range reads whose leaves are answers.  A [RangeSource] is
    whatever runs the tree; the theorems of [SegCorrect.v] run it over a blob,
    those of [SegStaged.v] over the source that fetches in rounds. *)

From stdpp Require Import prelude sorting.
From Stdlib Require Import ZArith Lia.
From S2P Require Import Prelude RustStr Cursor Leb128 Bloom Postings RowSelection InvertedIndex.
From S2P Require Import SegBlock SegWriter.

(** * Queries *)

Inductive Query (A : Type) : Type :=
  | Done (a : A)
  | Fetch (offset length : Z) (k : option bytes → Query A).
#[global] Arguments Done {_} _.
#[global] Arguments Fetch {_} _ _ _.

Fixpoint q_bind {A B} (q : Query A) (f : A → Query B) : Query B :=
  match q with
  | Done a => f a
  | Fetch o l k => Fetch o l (λ r, q_bind (k r) f)
  end.

Definition q_read (offset length : Z) : Query (option bytes) := Fetch offset length Done.

Notation "'let!' x := q 'in' k" := (q_bind q (λ x, k))
  (at level 10, x pattern, q at level 200, k at level 200).

(** [for x in l { s = f(s, x) }] *)
Fixpoint q_fold {A S} (f : S → A → Query S) (s : S) (l : list A) : Query S :=
  match l with
  | [] => Done s
  | x :: l => let! s := f s x in q_fold f s l
  end.

(** A source that answers every read from a function. *)
Fixpoint run {A} (read : Z → Z → option bytes) (q : Query A) : A :=
  match q with
  | Done a => a
  | Fetch o l k => run read (k (read o l))
  end.

(** [SliceSource::read]: the blob is in memory. *)
Definition slice_read (blob : bytes) (offset length : Z) : option bytes :=
  e ← checked_add 64 offset length; get_range blob offset e.

(** * The directory *)

Record SegmentedDirectory := mkDirectory {
  d_groups : list GroupEntry;
  d_rows : Z;
  d_format : SegmentedFormat;
  blob_len : Z;
}.

(** What the block loop carries from one entry to the next. *)
Record BlockScan := mkScan {
  previous_term : option rstr;
  previous_base : option Z;
  dict_cursor : Z;
  postings_cursor : Z;
}.

Definition decode_block_fields (format : SegmentedFormat) : P BlockEntry :=
  let* term_len := seg_varint in
  let* tb := p_take term_len in
  let* ft := p_opt (from_utf8 tb) in
  let* offset := seg_u32 in
  let* l := seg_u32 in
  match format with
  | Seg1 =>
    let* base := seg_varint in
    let* crc := p_take 4 in
    p_ret (mkBlock ft offset l base (from_le crc) None)
  | Seg2 =>
    let* rl := seg_u32 in
    let* po := seg_varint in
    let* pl := seg_u32 in
    let* prl := seg_u32 in
    let* pcrc := p_take 4 in
    let* crc := p_take 4 in
    p_ret (mkBlock ft offset l 0 (from_le crc) (Some (mkV2 rl po pl prl (from_le pcrc))))
  end.

Definition block_checks (format : SegmentedFormat) (group_dict_len group_postings_len : Z)
    (st : BlockScan) (b : BlockEntry) : option BlockScan :=
  if match previous_term st with Some p => lex_leb (first_term b) p | None => false end then None else
  match format with
  | Seg1 =>
    let marches := match previous_base st with
                   | None => postings_base b =? 0
                   | Some p => p <? postings_base b
                   end in
    e ← checked_add 64 (b_offset b) (b_len b);
    if (group_dict_len <? e) || negb marches || (group_postings_len <=? postings_base b) then None
    else Some (mkScan (Some (first_term b)) (Some (postings_base b)) (dict_cursor st) (postings_cursor st))
  | Seg2 =>
    v2 ← b_v2 b;
    if (b_len b =? 0) || (raw_len v2 =? 0) || (v2_postings_len v2 =? 0) || (postings_raw_len v2 =? 0)
       || negb (b_offset b =? dict_cursor st) || negb (v2_postings_offset v2 =? postings_cursor st)
    then None else
    dc ← checked_add 64 (dict_cursor st) (b_len b);
    pc ← checked_add 64 (postings_cursor st) (v2_postings_len v2);
    Some (mkScan (Some (first_term b)) (previous_base st) dc pc)
  end.

Fixpoint decode_blocks (n : nat) (format : SegmentedFormat) (gdl gpl : Z) (st : BlockScan)
    (acc : list BlockEntry) : P (list BlockEntry * BlockScan) :=
  match n with
  | O => p_ret (acc, st)
  | S n =>
    let* b := decode_block_fields format in
    let* st := p_opt (block_checks format gdl gpl st b) in
    decode_blocks n format gdl gpl st (acc ++ [b])
  end.

(** The group loop's [expected_first_row] and [body_cursor]. *)
Record GroupScan := mkGroupScan { expected_first_row : Z; body_cursor : Z }.

Definition decode_group (format : SegmentedFormat) (st : GroupScan) : P (GroupEntry * GroupScan) :=
  let* fr := seg_u32 in
  let* rows := seg_u32 in
  let* d_off := seg_varint in
  let* d_len := seg_varint in
  let* p_off := seg_varint in
  let* p_len := seg_varint in
  let* n_blocks := seg_varint in
  let* _ := p_guard (fr =? expected_first_row st) in
  let* expected := p_opt (checked_add 32 (expected_first_row st) rows) in
  let* p_end := p_opt (checked_add 64 p_off p_len) in
  let* _ := p_guard ((p_off =? body_cursor st) && (d_off =? p_end)) in
  let* cursor := p_opt (checked_add 64 d_off d_len) in
  let* rem := p_remaining in
  let* _ := p_guard (n_blocks <=? rem) in
  let* (bs, scan) := decode_blocks (Z.to_nat n_blocks) format d_len p_len (mkScan None None 0 0) [] in
  let* _ := p_guard (match format with
                     | Seg1 => true
                     | Seg2 => (dict_cursor scan =? d_len) && (postings_cursor scan =? p_len)
                     end) in
  p_ret (mkGroup fr rows d_off d_len p_off p_len bs, mkGroupScan expected cursor).

Fixpoint decode_groups (n : nat) (format : SegmentedFormat) (st : GroupScan) (acc : list GroupEntry)
    : P (list GroupEntry * GroupScan) :=
  match n with
  | O => p_ret (acc, st)
  | S n =>
    let* (g, st) := decode_group format st in
    decode_groups n format st (acc ++ [g])
  end.

Definition decode_directory (format : SegmentedFormat) : P (Z * list GroupEntry * GroupScan) :=
  let* n_rows := seg_u32 in
  let* n_groups := seg_varint in
  let* rem := p_remaining in
  let* _ := p_guard (n_groups <=? rem) in
  let* (gs, st) := decode_groups (Z.to_nat n_groups) format (mkGroupScan 0 5) [] in
  p_ret (n_rows, gs, st).

Definition parse_directory (format : SegmentedFormat) (dir_offset : Z) (dir : bytes)
    : option (Z * list GroupEntry) :=
  match decode_directory format (Cur dir 0) with
  | Some (n_rows, gs, st, c) =>
    if negb (remaining c =? 0) || negb (expected_first_row st =? n_rows) || negb (body_cursor st =? dir_offset)
    then None else Some (n_rows, gs)
  | None => None
  end.

(** The trailer's fields, [None] on a foreign magic or version. *)
Definition parse_trailer (trailer : bytes) : option (SegmentedFormat * Z * Z * Z) :=
  if bool_decide (drop 21 trailer = SEGMENTED_MAGIC) then
    format ← (let v := default 0 (trailer !! 20%nat) in
              if v =? SEGMENTED_VERSION then Some Seg1
              else if v =? SEGMENTED_V2_VERSION then Some Seg2 else None);
    Some (format, from_le (take 8 trailer), from_le (take 8 (drop 8 trailer)),
          from_le (take 4 (drop 16 trailer)))
  else None.

Section Read.
Context {C : SegCodecs}.

Definition directory_read (total : Z) : Query (option SegmentedDirectory) :=
  if total <? SEGMENTED_TRAILER_LEN + 5 then Done None else
  let! trailer := q_read (total - SEGMENTED_TRAILER_LEN) SEGMENTED_TRAILER_LEN in
  match t ← trailer; parse_trailer t with
  | None => Done None
  | Some (format, dir_offset, dir_len, dir_crc) =>
    match checked_add 64 dir_offset dir_len with
    | None => Done None
    | Some dir_end =>
      if (dir_offset <? 5) || negb (dir_end =? total - SEGMENTED_TRAILER_LEN) then Done None else
      let! dir := q_read dir_offset dir_len in
      Done (dir ← dir;
            if negb (crc32 dir =? dir_crc) then None else
            '(n_rows, gs) ← parse_directory format dir_offset dir;
            Some (mkDirectory gs n_rows format total))
    end
  end.

Definition open_with_directory (total : Z) (d : SegmentedDirectory) : option SegmentedDirectory :=
  if total =? blob_len d then Some d else None.

Definition group_rows (d : SegmentedDirectory) : list Z := g_rows <$> d_groups d.

Definition matches_row_groups (d : SegmentedDirectory) (parquet_row_counts : list Z) : bool :=
  (len (d_groups d) =? len parquet_row_counts)
  && forallb (λ '(g, rows), g_rows g =? rows) (zip (d_groups d) parquet_row_counts).

(** * Sections *)

Context (d : SegmentedDirectory).

Definition read_block (g : GroupEntry) (b : BlockEntry) : Query (option bytes) :=
  let! stored := q_read (wrap 64 (dict_offset g + b_offset b)) (b_len b) in
  Done (stored ← stored;
        bs ← (match d_format d with
              | Seg1 => Some stored
              | Seg2 => v2 ← b_v2 b; decompress stored (raw_len v2)
              end);
        let raw := match b_v2 b with Some v2 => raw_len v2 | None => b_len b end in
        if negb (len bs =? raw) then None
        else if negb (crc32 bs =? b_crc b) then None else Some bs).

(** One delta of a term's postings. *)
Definition next_posting (g : GroupEntry) (first : bool) (previous : Z) : P Z :=
  let* delta := seg_u32 in
  let* _ := p_guard (negb (negb first && (delta =? 0))) in
  let* prev := p_opt (checked_add 32 previous delta) in
  let* _ := p_guard (prev <? g_rows g) in
  p_ret prev.

(** The delta loop over one term's postings: at least a byte a turn. *)
Fixpoint decode_postings (fuel : nat) (g : GroupEntry) (first : bool) (previous : Z) (rows : list Z)
    (c : cursor) : option (list Z) :=
  if remaining c =? 0 then Some rows else
  match fuel with
  | O => None
  | S fuel =>
    match next_posting g first previous c with
    | None => None
    | Some (prev, c) => decode_postings fuel g false prev (rows ++ [wrap 32 (prev + first_row g)]) c
    end
  end.

Definition check_postings (g : GroupEntry) (df : Z) (bs : bytes) : option (list Z) :=
  rows ← decode_postings (length bs) g true 0 [] (Cur bs 0);
  if bool_decide (rows = []) || negb (len rows =? df) then None else Some rows.

(** A hit: block, postings offset and length, document frequency. *)
Record Located := mkHit { h_block : nat; h_offset : Z; h_len : Z; h_df : Z }.

Definition read_postings (g : GroupEntry) (h : Located) : Query (option (list Z)) :=
  match d_format d with
  | Seg1 =>
    if postings_len g <? wrap 64 (h_offset h + h_len h) then Done None else
    let! bs := q_read (wrap 64 (postings_offset g + h_offset h)) (h_len h) in
    Done (bs ← bs; check_postings g (h_df h) bs)
  | Seg2 =>
    match b ← blocks g !! h_block h; b_v2 b with
    | None => Done None
    | Some v2 =>
      if postings_raw_len v2 <? wrap 64 (h_offset h + h_len h) then Done None else
      let! stored := q_read (wrap 64 (postings_offset g + v2_postings_offset v2)) (v2_postings_len v2) in
      Done (stored ← stored;
            span ← decompress stored (postings_raw_len v2);
            if negb (len span =? postings_raw_len v2) || negb (crc32 span =? postings_crc v2) then None else
            bs ← get_range span (h_offset h) (wrap 64 (h_offset h + h_len h));
            check_postings g (h_df h) bs)
    end
  end.

(** Where a block's offsets start. *)
Definition scan_base (b : BlockEntry) : Z :=
  match d_format d with Seg1 => postings_base b | Seg2 => 0 end.

(** The visitor of a point lookup: up to the term, or past where it would be. *)
Definition find_term (normalized : rstr) (hit : option (Z * Z * Z)) (e : TermEntry) (offset : Z)
    : option (Z * Z * Z) * bool :=
  match lex_cmp (te_term e) normalized with
  | Lt => (hit, true)
  | Eq => (Some (offset, te_len e, te_df e), false)
  | Gt => (hit, false)
  end.

(** [None] is malformed, [Some None] a group without the term. *)
Definition locate_term (g : GroupEntry) (normalized : rstr) : Query (option (option Located)) :=
  match partition_point (λ b, lex_leb (first_term b) normalized) (blocks g) with
  | O => Done (Some None)
  | S i =>
    match blocks g !! i with
    | None => Done None
    | Some b =>
      let! bs := read_block g b in
      Done (bs ← bs;
            let '(hit, ok) := scan_block (find_term normalized) bs (scan_base b) None in
            if ok then Some ((λ '(offset, l, df), mkHit i offset l df) <$> hit) else None)
    end
  end.

Definition group_postings (g : GroupEntry) (normalized : rstr) : Query (option (option (list Z))) :=
  let! hit := locate_term g normalized in
  match hit with
  | None => Done None
  | Some None => Done (Some None)
  | Some (Some h) => let! rows := read_postings g h in Done (Some <$> rows)
  end.

(** * Row-group selections *)

Fixpoint selection_ok (n : nat) (previous : option nat) (selected : list nat) : bool :=
  match selected with
  | [] => true
  | i :: selected =>
    (i <? n)%nat && (match previous with Some p => (p <? i)%nat | None => true end)
    && selection_ok n (Some i) selected
  end.

Definition group_indices (groups : option (list nat)) : option (list nat) :=
  match groups with
  | None => Some (seq 0 (length (d_groups d)))
  | Some selected => if selection_ok (length (d_groups d)) None selected then Some selected else None
  end.

Definition group_at (i : nat) : GroupEntry := default (mkGroup 0 0 0 0 0 0 []) (d_groups d !! i).

(** * Lookups *)

Inductive Lookup := Rows (rows : list Z) | Absent | Unanswerable.

Definition lookup_rows (l : Lookup) : option (list Z) :=
  match l with Rows rows => Some rows | Absent => Some [] | Unanswerable => None end.

Record Gather := mkGather { ga_rows : list Z; ga_found : bool; ga_failed : bool }.

Definition gather_group (normalized : rstr) (s : Gather) (i : nat) : Query Gather :=
  let! r := group_postings (group_at i) normalized in
  Done (match r with
        | Some (Some rows) => mkGather (ga_rows s ++ rows) true (ga_failed s)
        | Some None => s
        | None => mkGather (ga_rows s) (ga_found s) true
        end).

Definition postings_in_groups (term : rstr) (groups : option (list nat)) : Query Lookup :=
  match normalize_query_term term, group_indices groups with
  | Some normalized, Some indices =>
    let! s := q_fold (gather_group normalized) (mkGather [] false false) indices in
    Done (if ga_failed s then Unanswerable else if ga_found s then Rows (ga_rows s) else Absent)
  | _, _ => Done Unanswerable
  end.

(** ** Conjunction *)

(** Every term located, or the terms before the first absent one; and whether a
    block could not be read. *)
Fixpoint locate_all (g : GroupEntry) (terms : list rstr) (located : list Located) (failed : bool)
    : Query (list Located * bool) :=
  match terms with
  | [] => Done (located, failed)
  | t :: terms =>
    let! r := locate_term g t in
    match r with
    | Some (Some h) => locate_all g terms (located ++ [h]) failed
    | Some None => Done (located, failed)
    | None => locate_all g terms located true
    end
  end.

Definition rarer (a b : Located) : Prop := h_df a ≤ h_df b.
#[global] Instance rarer_dec : RelDecision rarer.
Proof. unfold RelDecision, rarer. apply _. Defined.

(** Postings in ascending frequency, until a read fails or nothing is left. *)
Fixpoint intersect_located (g : GroupEntry) (located : list Located) (acc : option (list Z))
    : Query (option (list Z) * bool) :=
  match located with
  | [] => Done (acc, false)
  | h :: located =>
    let! r := read_postings g h in
    match r with
    | None => Done (acc, true)
    | Some l =>
      match (match acc with None => l | Some previous => intersect_sorted previous l end) with
      | [] => Done (Some [], false)
      | acc => intersect_located g located (Some acc)
      end
    end
  end.

Definition conjoin_group (normalized : list rstr) (s : list Z * bool) (i : nat) : Query (list Z * bool) :=
  let '(rows, failed) := s in
  let g := group_at i in
  let! (located, failed) := locate_all g normalized [] failed in
  if negb (len located =? len normalized) then Done (rows, failed) else
  let! (acc, bad) := intersect_located g (merge_sort rarer located) None in
  Done (rows ++ default [] acc, failed || bad).

Definition matching_rows_all_in_groups (terms : list rstr) (groups : option (list nat))
    : Query (option (list Z)) :=
  match group_indices groups with
  | None => Done None
  | Some indices =>
    match terms with
    | [] => Done (Some [])
    | _ =>
      match mapM normalize_query_term terms with
      | None => Done None
      | Some normalized =>
        let! (rows, failed) := q_fold (conjoin_group normalized) ([], false) indices in
        Done (if failed : bool then None else Some rows)
      end
    end
  end.

(** ** Disjunction *)

Definition disjoin_term (groups : option (list nat)) (s : list Z * bool) (term : rstr)
    : Query (list Z * bool) :=
  let! r := postings_in_groups term groups in
  Done (match r with
        | Rows l => (union_sorted (fst s) l, snd s)
        | Absent => s
        | Unanswerable => (fst s, true)
        end).

Definition matching_rows_any_in_groups (terms : list rstr) (groups : option (list nat))
    : Query (option (list Z)) :=
  match group_indices groups, mapM normalize_query_term terms with
  | Some _, Some _ =>
    let! (rows, failed) := q_fold (disjoin_term groups) ([], false) terms in
    Done (if failed : bool then None else Some rows)
  | _, _ => Done None
  end.

(** ** Point terms under a document-frequency budget *)

Inductive ClippedLookup := ClipRows (rows : list Z) | OverBudget | ClipUnanswerable.

(** The ALL terms of a group: whether every one is present, the frequencies
    summed, the hits.  [None] is the early return on a malformed section. *)
Fixpoint locate_required (g : GroupEntry) (terms : list rstr) (group_df : Z) (all : list Located)
    : Query (option (bool * Z * list Located)) :=
  match terms with
  | [] => Done (Some (true, group_df, all))
  | t :: terms =>
    let! r := locate_term g t in
    match r with
    | Some (Some h) => locate_required g terms (saturating_add 64 group_df (h_df h)) (all ++ [h])
    | Some None => Done (Some (false, group_df, all))
    | None => Done None
    end
  end.

Fixpoint locate_optional (g : GroupEntry) (terms : list rstr) (group_df : Z) (any : list Located)
    : Query (option (Z * list Located)) :=
  match terms with
  | [] => Done (Some (group_df, any))
  | t :: terms =>
    let! r := locate_term g t in
    match r with
    | Some (Some h) => locate_optional g terms (saturating_add 64 group_df (h_df h)) (any ++ [h])
    | Some None => locate_optional g terms group_df any
    | None => Done None
    end
  end.

Definition prepare_group (g : GroupEntry) (all_terms any_terms : list rstr)
    : Query (option (bool * Z * list Located * list Located)) :=
  let! r := locate_required g all_terms 0 [] in
  match r with
  | None => Done None
  | Some (false, group_df, all) => Done (Some (false, group_df, all, []))
  | Some (true, group_df, all) =>
    let! r := locate_optional g any_terms group_df [] in
    Done ('(group_df, any) ← r;
          Some (bool_decide (any_terms = []) || negb (bool_decide (any = [])), group_df, all, any))
  end.

Definition Plan : Type := option (list Located) * list Located.

(** The estimate: every selected group located before any postings are read.
    [inl] is an early return. *)
Fixpoint prepare (all_terms any_terms : list rstr) (max_df : Z) (indices : list nat) (summed_df : Z)
    (prepared : list Plan) : Query (ClippedLookup + list Plan) :=
  match indices with
  | [] => Done (inr prepared)
  | i :: indices =>
    let! r := prepare_group (group_at i) all_terms any_terms in
    match r with
    | None => Done (inl ClipUnanswerable)
    | Some (false, _, _, any) => prepare all_terms any_terms max_df indices summed_df (prepared ++ [(None, any)])
    | Some (true, group_df, all, any) =>
      let summed_df := saturating_add 64 summed_df group_df in
      if max_df <? summed_df then Done (inl OverBudget)
      else prepare all_terms any_terms max_df indices summed_df (prepared ++ [(Some all, any)])
    end
  end.

Fixpoint union_located (g : GroupEntry) (any : list Located) (any_rows : list Z) : Query (option (list Z)) :=
  match any with
  | [] => Done (Some any_rows)
  | h :: any =>
    let! r := read_postings g h in
    match r with
    | None => Done None
    | Some l => union_located g any (union_sorted any_rows l)
    end
  end.

(** One prepared group's rows; [None] is the early return. *)
Definition clip_group (g : GroupEntry) (any_terms : list rstr) (all any : list Located)
    : Query (option (list Z)) :=
  let! (group_rows, bad) := intersect_located g (merge_sort rarer all) None in
  if bad : bool then Done None else
  match group_rows with
  | Some [] => Done (Some [])
  | _ =>
    if bool_decide (any_terms = []) then Done (Some (default [] group_rows)) else
    let! any_rows := union_located g any [] in
    Done (any_rows ← any_rows;
          Some (match group_rows with
                | Some all_rows => intersect_sorted all_rows any_rows
                | None => any_rows
                end))
  end.

Fixpoint clip_groups (groups : option (list nat)) (any_terms : list rstr) (index : nat)
    (prepared : list Plan) (rows : list Z) : Query ClippedLookup :=
  match prepared with
  | [] => Done (ClipRows rows)
  | (None, _) :: prepared => clip_groups groups any_terms (S index) prepared rows
  | (Some all, any) :: prepared =>
    let group_index := match groups with Some selected => default O (selected !! index) | None => index end in
    let! r := clip_group (group_at group_index) any_terms all any in
    match r with
    | None => Done ClipUnanswerable
    | Some l => clip_groups groups any_terms (S index) prepared (rows ++ l)
    end
  end.

Definition matching_point_rows_with_df_limit_in_groups (all_terms any_terms : list rstr)
    (groups : option (list nat)) (max_document_frequency : Z) : Query ClippedLookup :=
  match group_indices groups with
  | None => Done ClipUnanswerable
  | Some indices =>
    if bool_decide (all_terms = []) && bool_decide (any_terms = []) then Done ClipUnanswerable else
    match mapM normalize_query_term all_terms, mapM normalize_query_term any_terms with
    | Some all_terms, Some any_terms =>
      let! r := prepare all_terms any_terms max_document_frequency indices 0 [] in
      match r with
      | inl early => Done early
      | inr prepared => clip_groups groups any_terms 0 prepared []
      end
    | _, _ => Done ClipUnanswerable
    end
  end.

(** ** Substring sweep *)

(** The visitor of the sweep: every term that contains the substring. *)
Definition sweep_term (normalized : rstr) (block_index : nat) (hits : list Located) (e : TermEntry)
    (offset : Z) : list Located * bool :=
  (match from_utf8 (te_term e) with
   | Some t => if contains t normalized then hits ++ [mkHit block_index offset (te_len e) (te_df e)] else hits
   | None => hits
   end, true).

Definition sweep_block (normalized : rstr) (g : GroupEntry) (s : list Located * bool) (ib : nat * BlockEntry)
    : Query (list Located * bool) :=
  let '(hits, failed) := s in
  let '(i, b) := ib in
  let! bs := read_block g b in
  Done (match bs with
        | None => (hits, true)
        | Some bs =>
          let '(hits, ok) := scan_block (sweep_term normalized i) bs (scan_base b) hits in
          (hits, failed || negb ok)
        end).

Definition sweep_hit (g : GroupEntry) (s : list Z * bool) (h : Located) : Query (list Z * bool) :=
  let! r := read_postings g h in
  Done (match r with
        | Some l => (union_sorted (fst s) l, snd s)
        | None => (fst s, true)
        end).

Definition sweep_group (normalized : rstr) (s : list Z * bool) (i : nat) : Query (list Z * bool) :=
  let g := group_at i in
  let! (hits, failed) := q_fold (sweep_block normalized g) ([], snd s) (imap pair (blocks g)) in
  q_fold (sweep_hit g) (fst s, failed) hits.

Definition rows_containing_in_groups (substr : rstr) (groups : option (list nat))
    : Query (option (list Z)) :=
  match normalize_query_term substr, group_indices groups with
  | Some normalized, Some indices =>
    let! (rows, failed) := q_fold (sweep_group normalized) ([], false) indices in
    Done (if failed : bool then None else Some rows)
  | _, _ => Done None
  end.

Definition seg_matching_row_selection (terms : list rstr) : Query (option (list (bool * Z))) :=
  let! r := matching_rows_all_in_groups terms None in
  Done (matching ← r; Some (row_selection_runs matching (d_rows d))).
End Read.
