(* ===== verification/SegGroup.v ===== *)
(** What one row group of a segmented blob promises its lookups.

    [GroupAnswers] is the interface: a term is located exactly when the group's
    index has it, a substring sweep finds exactly the terms that contain it, and
    every hit reads back the rows of its term.  The lookups of
    [crates/loglake-index/src/segmented.rs] are proved against it in
    [SegQuery.v].  [group_serves], what the writers establish for either layout
    block by block, implies it here. *)

From stdpp Require Import prelude sorting.
From Stdlib Require Import ZArith Lia.
From S2P Require Import Prelude RustStr BTree Cursor Leb128 Bloom Postings InvertedIndex.
From S2P Require Import SegBlock SegWriter SegReader.

Create HintDb seg.

(** * Running a query *)

Section Run.
Context (read : Z → Z → option bytes).

Lemma run_bind {A B} (q : Query A) (f : A → Query B) : run read (q_bind q f) = run read (f (run read q)).
Proof. induction q as [a|o l k IH]; simpl; [done|]. by rewrite IH. Qed.

Lemma run_fold {A S} (f : S → A → Query S) s l :
  run read (q_fold f s l) = foldl (λ s x, run read (f s x)) s l.
Proof. revert s. induction l as [|x l IH]; intros s; simpl; [done|]. by rewrite run_bind, IH. Qed.
End Run.

(** The dictionary entry of a term and its rows. *)
Definition entry_of (tr : rstr * list Z) : TermEntry :=
  mkEntry tr.1 (len tr.2) (len (encode_deltas 0 tr.2)).

Definition lens_of (m : list (rstr * list Z)) : Z := sumZ (te_len <$> (entry_of <$> m)).

Lemma lens_of_app m m' : lens_of (m ++ m') = lens_of m + lens_of m'.
Proof. unfold lens_of. by rewrite !fmap_app, sumZ_app. Qed.

Lemma lens_of_nonneg m : 0 ≤ lens_of m.
Proof.
  unfold lens_of. apply sumZ_nonneg, Forall_fmap, Forall_fmap, Forall_true. intros tr. apply len_nonneg.
Qed.

(** Group-relative ordinals as file-physical ones. *)
Definition shift (base : Z) (rows : list Z) : list Z := (λ r, r + base) <$> rows.

(** * Walks *)

Lemma walk_find_hit t rows pre post base :
  Forall (λ x, lex_lt x t) pre.*1 →
  walk (find_term t) (entry_of <$> pre ++ (t, rows) :: post) base None
  = Some (base + lens_of pre, te_len (entry_of (t, rows)), te_df (entry_of (t, rows))).
Proof.
  revert base. induction pre as [|[x l] pre IH]; intros base; simpl.
  - intros _. unfold find_term at 1. simpl. rewrite lex_cmp_refl. unfold lens_of. simpl. by rewrite Z.add_0_r.
  - intros [Hx Hpre]%Forall_cons. unfold find_term at 1. simpl. unfold lex_lt in Hx. rewrite Hx.
    rewrite IH by done. unfold lens_of. simpl. by rewrite Z.add_assoc.
Qed.

Lemma walk_find_miss t m base :
  t ∉ m.*1 → walk (find_term t) (entry_of <$> m) base None = None.
Proof.
  revert base. induction m as [|[x l] m IH]; intros base; simpl; [done|].
  intros [Hx Hm]%not_elem_of_cons. unfold find_term at 1. simpl.
  destruct (lex_cmp x t) eqn:E; [by apply lex_cmp_eq in E as ->|by apply IH|done].
Qed.

Section Group.
Context {C : SegCodecs} (read : Z → Z → option bytes) (d : SegmentedDirectory).

Definition hit_reads (g : GroupEntry) (h : Located) (rows : list Z) : Prop :=
  h_df h = len rows ∧ run read (read_postings d g h) = Some (shift (first_row g) rows).

Class GroupAnswers (g : GroupEntry) (m : btree (list Z)) : Prop := {
  answers_miss t : bt_get t m = None → run read (locate_term d g t) = Some None;
  answers_hit t rows :
    bt_get t m = Some rows →
    ∃ h, run read (locate_term d g t) = Some (Some h) ∧ hit_reads g h rows;
  answers_sweep norm failed :
    ∃ hits, run read (q_fold (sweep_block d norm g) ([], failed) (imap pair (blocks g))) = (hits, failed)
      ∧ Forall2 (hit_reads g) hits (snd <$> filter (λ tr, contains tr.1 norm = true) m);
}.

(** * The writers' side *)

Record block_serves (g : GroupEntry) (i : nat) (b : BlockEntry) (chunk : list (rstr * list Z)) : Prop := {
  serves_first : head chunk.*1 = Some (first_term b);
  serves_block : run read (read_block d g b) = Some (encode_block (entry_of <$> chunk));
  serves_terms : terms_ok (entry_of <$> chunk);
  serves_fit : lens_fit (scan_base d b) (entry_of <$> chunk);
  serves_len : len (encode_block (entry_of <$> chunk)) < 2 ^ 64;
  serves_postings pre tr post :
    chunk = pre ++ tr :: post →
    run read (read_postings d g
      (mkHit i (scan_base d b + lens_of pre) (te_len (entry_of tr)) (te_df (entry_of tr))))
    = Some (shift (first_row g) tr.2);
}.

Definition group_serves (g : GroupEntry) (m : btree (list Z)) : Prop :=
  bt_wf m ∧ ∃ chunks, concat chunks = m ∧ length (blocks g) = length chunks
  ∧ ∀ i b c, blocks g !! i = Some b → chunks !! i = Some c → block_serves g i b c.

Lemma serves_scan {S} (visit : S → TermEntry → Z → S * bool) g i b c s :
  block_serves g i b c →
  scan_block visit (encode_block (entry_of <$> c)) (scan_base d b) s
  = (walk visit (entry_of <$> c) (scan_base d b) s, true).
Proof. intros []. by apply scan_block_spec. Qed.

(** The postings side of a walked entry. *)
Lemma serves_hit g i b c pre tr post :
  block_serves g i b c → c = pre ++ tr :: post →
  hit_reads g (mkHit i (scan_base d b + lens_of pre) (te_len (entry_of tr)) (te_df (entry_of tr))) tr.2.
Proof. intros Hb Hc. split; [done|]. by eapply serves_postings. Qed.

Section Locate.
Context (g : GroupEntry) (chunks : list (list (rstr * list Z))).
Hypothesis (Hwf : bt_wf (concat chunks)) (Hlen : length (blocks g) = length chunks).
Hypothesis Hserves : ∀ i b c, blocks g !! i = Some b → chunks !! i = Some c → block_serves g i b c.

Lemma keys_sorted : StronglySorted lex_lt (concat ((λ c : list (rstr * list Z), c.*1) <$> chunks)).
Proof.
  unfold bt_wf in Hwf. clear Hlen Hserves. assert ((concat chunks).*1
    = concat ((λ c : list (rstr * list Z), c.*1) <$> chunks)) as <-; [|done].
  clear Hwf. induction chunks as [|c cs IH]; simpl; [done|]. by rewrite fmap_app, IH.
Qed.

Lemma chunk_keys_lt i j a b x y :
  (i < j)%nat → chunks !! i = Some a → chunks !! j = Some b → x ∈ a.*1 → y ∈ b.*1 → lex_lt x y.
Proof.
  intros Hij Hi Hj. eapply (sorted_concat_lt lex_lt _ i j); [apply keys_sorted|done|..];
    rewrite list_lookup_fmap; [by rewrite Hi|by rewrite Hj].
Qed.

Lemma block_first_elem i b c : blocks g !! i = Some b → chunks !! i = Some c → first_term b ∈ c.*1.
Proof.
  intros Hb Hc. pose proof (serves_first _ _ _ _ (Hserves i b c Hb Hc)) as Hf.
  destruct c.*1; [done|]. injection Hf as ->. left.
Qed.

(** The first term of a block is at most any of its terms. *)
Lemma block_first_le i b c t :
  blocks g !! i = Some b → chunks !! i = Some c → t ∈ c.*1 → lex_le (first_term b) t.
Proof.
  intros Hb Hc Ht. destruct (Hserves i b c Hb Hc) as [Hf _ [_ Hs] _ _ _].
  rewrite <- list_fmap_compose in Hs. change (te_term ∘ entry_of) with (fst : rstr * list Z → rstr) in Hs.
  destruct c.*1 as [|x l]; [done|]. injection Hf as ->. apply StronglySorted_inv in Hs as [_ Hs].
  rewrite Forall_forall in Hs. apply elem_of_cons in Ht as [->|Ht]; apply lex_le_lt_eq; auto.
Qed.

(** A term of the group lies in the block the partition point selects. *)
Lemma located_block t k c :
  chunks !! k = Some c → t ∈ c.*1 →
  partition_point (λ b, lex_leb (first_term b) t) (blocks g) = S k.
Proof.
  intros Hk Ht. set (p := λ b, lex_leb (first_term b) t). pose proof (partition_point_le p (blocks g)) as Hle.
  destruct (lookup_lt_is_Some_2 (blocks g) k) as [bk Hbk].
  { rewrite Hlen. by apply lookup_lt_Some in Hk. }
  destruct (lt_eq_lt_dec (partition_point p (blocks g)) (S k)) as [[Hlt| ->]|Hgt]; [|done|]; exfalso.
  - destruct (lookup_lt_is_Some_2 (blocks g) (partition_point p (blocks g))) as [b Hb].
    { apply lookup_lt_Some in Hbk. lia. }
    destruct (lookup_lt_is_Some_2 chunks (partition_point p (blocks g))) as [c' Hc'].
    { rewrite <- Hlen. by apply lookup_lt_Some in Hb. }
    apply partition_point_stop in Hb as Hp. apply lex_leb_false in Hp.
    apply (lex_lt_irrefl t). destruct (decide (partition_point p (blocks g) = k)) as [E|].
    + rewrite E in Hb. pose proof (block_first_le _ _ _ _ Hb Hk Ht) as Hx%lex_le_lt_eq.
      destruct Hx as [Hx|Hx]; [by apply (lex_lt_trans _ (first_term b))|by rewrite Hx in Hp].
    + apply (lex_lt_trans _ (first_term b)); [done|].
      apply (chunk_keys_lt (partition_point p (blocks g)) k c' c); [lia|done|done| |done]. by eapply block_first_elem.
  - destruct (lookup_lt_is_Some_2 (blocks g) (S k)) as [b Hb]; [lia|].
    destruct (lookup_lt_is_Some_2 chunks (S k)) as [c' Hc'].
    { rewrite <- Hlen. by apply lookup_lt_Some in Hb. }
    pose proof (partition_point_lookup p _ (S k) b Hgt Hb) as Hp. unfold p in Hp.
    assert (lex_lt t (first_term b)) as Hlt.
    { apply (chunk_keys_lt k (S k) c c'); [lia|done|done|done|]. by eapply block_first_elem. }
    apply lex_leb_false in Hlt. congruence.
Qed.

Lemma locate_hit t rows :
  bt_get t (concat chunks) = Some rows →
  ∃ h, run read (locate_term d g t) = Some (Some h) ∧ hit_reads g h rows.
Proof.
  intros Hin%bt_get_Some_elem%list_elem_of_In%in_concat.
  destruct Hin as (c & [k Hk]%list_elem_of_In%list_elem_of_lookup_1 & Hin%list_elem_of_In).
  destruct (lookup_lt_is_Some_2 (blocks g) k) as [b Hb]; [rewrite Hlen; by apply lookup_lt_Some in Hk|].
  pose proof (Hserves k b c Hb Hk) as Hbs. unfold locate_term.
  rewrite (located_block t k c Hk) by by apply (list_elem_of_fmap_2' fst c (t, rows)).
  rewrite Hb, run_bind, (serves_block _ _ _ _ Hbs). simpl. rewrite (serves_scan _ _ _ _ _ _ Hbs).
  apply list_elem_of_split in Hin as (pre & post & ->).
  assert (Forall (λ x, lex_lt x t) pre.*1) as Hpre.
  { destruct (serves_terms _ _ _ _ Hbs) as [_ Hs]. rewrite <- list_fmap_compose in Hs.
    change (te_term ∘ entry_of) with (fst : rstr * list Z → rstr) in Hs. rewrite fmap_app in Hs.
    apply (sorted_app lex_lt) in Hs as (_ & _ & Hs). apply Forall_forall. intros x Hx. apply Hs; [done|left]. }
  rewrite walk_find_hit by done. eexists. split; [reflexivity|].
  by apply (serves_hit g k b _ pre (t, rows) post Hbs).
Qed.

Lemma locate_miss t : bt_get t (concat chunks) = None → run read (locate_term d g t) = Some None.
Proof.
  intros Hin%bt_get_None. unfold locate_term.
  destruct (partition_point _ _) as [|i] eqn:E; [done|].
  destruct (lookup_lt_is_Some_2 (blocks g) i) as [b Hb].
  { pose proof (partition_point_le (λ b, lex_leb (first_term b) t) (blocks g)). lia. }
  destruct (lookup_lt_is_Some_2 chunks i) as [c Hc]; [rewrite <- Hlen; by apply lookup_lt_Some in Hb|].
  pose proof (Hserves i b c Hb Hc) as Hbs.
  rewrite Hb, run_bind, (serves_block _ _ _ _ Hbs). simpl. rewrite (serves_scan _ _ _ _ _ _ Hbs).
  rewrite walk_find_miss; [done|]. intros Ht. apply Hin. apply list_elem_of_fmap in Ht as ([x l] & -> & Hx).
  apply (list_elem_of_fmap_2' fst _ (x, l)); [|done]. apply list_elem_of_In, in_concat. exists c.
  split; apply list_elem_of_In; [by apply (list_elem_of_lookup_2 _ i)|done].
Qed.

End Locate.

(** ** The sweep *)

Lemma walk_sweep g norm i b c pre rest hits :
  block_serves g i b c → c = pre ++ rest →
  ∃ hs, walk (sweep_term norm i) (entry_of <$> rest) (scan_base d b + lens_of pre) hits = hits ++ hs
    ∧ Forall2 (hit_reads g) hs (snd <$> filter (λ tr, contains tr.1 norm = true) rest).
Proof.
  intros Hb. revert pre hits. induction rest as [|tr rest IH]; intros pre hits Hc.
  { exists []. by rewrite app_nil_r. }
  assert (c = (pre ++ [tr]) ++ rest) as Hc' by by rewrite <- app_assoc.
  assert (scan_base d b + lens_of pre + te_len (entry_of tr) = scan_base d b + lens_of (pre ++ [tr])) as Eo.
  { rewrite lens_of_app. unfold lens_of at 3. simpl. lia. }
  assert (from_utf8 (te_term (entry_of tr)) = Some tr.1) as Hu.
  { apply from_utf8_valid. destruct (serves_terms _ _ _ _ Hb) as [Hok _]. rewrite Forall_fmap, Forall_forall in Hok.
    destruct (Hok tr) as [Hv _]; [rewrite Hc; set_solver|done]. }
  rewrite fmap_cons. cbn [walk]. unfold sweep_term at 1. rewrite Hu, Eo, filter_cons.
  destruct (contains tr.1 norm) eqn:E.
  - destruct (IH _ (hits ++ [mkHit i (scan_base d b + lens_of pre) (te_len (entry_of tr)) (te_df (entry_of tr))]) Hc')
      as (hs & -> & Hhs). eexists (_ :: hs). split; [by rewrite <- app_assoc|].
    rewrite decide_True by done. constructor; [by eapply serves_hit|done].
  - destruct (IH _ hits Hc') as (hs & -> & Hhs). exists hs. by rewrite decide_False by done.
Qed.

Lemma sweep_blocks g norm failed n bs cs hits :
  length bs = length cs →
  (∀ i b c, bs !! i = Some b → cs !! i = Some c → block_serves g (n + i) b c) →
  ∃ hs, foldl (λ s x, run read (sweep_block d norm g s x)) (hits, failed) (imap (λ i b, ((n + i)%nat, b)) bs)
    = (hits ++ hs, failed)
    ∧ Forall2 (hit_reads g) hs (snd <$> filter (λ tr, contains tr.1 norm = true) (concat cs)).
Proof.
  revert n cs hits. induction bs as [|b bs IH]; intros n [|c cs] hits Hl Hall; simpl in Hl; try lia.
  { exists []. by rewrite app_nil_r. }
  pose proof (Hall O b c eq_refl eq_refl) as Hb. rewrite Nat.add_0_r in Hb. rewrite imap_cons. cbn [foldl].
  unfold sweep_block at 2. rewrite run_bind, (serves_block _ _ _ _ Hb), Nat.add_0_r. cbn [run].
  rewrite (serves_scan _ _ _ _ _ _ Hb).
  destruct (walk_sweep g norm n b c [] c hits Hb eq_refl) as (hs & Hw & Hhs).
  unfold lens_of in Hw. simpl in Hw. rewrite Z.add_0_r in Hw. rewrite Hw, orb_false_r.
  destruct (IH (S n) cs (hits ++ hs)) as (hs' & Hf & Hhs'); [lia| |].
  { intros i b' c' Hi Hc. replace (S n + i)%nat with (n + S i)%nat by lia. by apply Hall. }
  exists (hs ++ hs'). split; [|cbn [concat]; rewrite filter_app, fmap_app; by apply Forall2_app].
  rewrite app_assoc, <- Hf. f_equal. apply imap_ext. intros i x _. simpl. f_equal. lia.
Qed.

Lemma group_serves_answers g m : group_serves g m → GroupAnswers g m.
Proof.
  intros (Hwf & chunks & <- & Hlen & Hall). split.
  - intros t. by apply locate_miss.
  - intros t rows. by apply locate_hit.
  - intros norm failed. rewrite run_fold.
    destruct (sweep_blocks g norm failed 0 (blocks g) chunks [] Hlen Hall) as (hs & E & Hhs).
    exists hs. split; [|done]. exact E.
Qed.
End Group.
#[global] Arguments answers_miss {_ _ _ _ _ _} t _.
#[global] Arguments answers_hit {_ _ _ _ _ _} t rows _.
#[global] Arguments answers_sweep {_ _ _ _ _ _} norm failed.
#[export] Hint Resolve group_serves_answers : seg.
