(* ===== verification/SegQuery.v ===== *)
(** The lookups of [SegmentedReader] ([crates/loglake-index/src/segmented.rs])
    against the interface of a row group.

    A file is a list of per-group indexes; its reference answer to a predicate
    on rows is [file_where], group by group.  Every lookup over a file whose
    groups answer ([GroupAnswers]) returns that reference, whatever source runs
    it. *)

From stdpp Require Import prelude sorting.
From Stdlib Require Import ZArith Lia.
From S2P Require Import Prelude RustStr BTree Cursor Leb128 Bloom Postings RowSelection InvertedIndex.
From S2P Require Import SegBlock SegWriter SegReader SegGroup.

(** * Reference answers *)

(** Row [r] of the indexed group has the term. *)
Definition has (ix : InvertedIndex) (r : Z) (t : rstr) : bool :=
  bool_decide (r ∈ default [] (bt_get t (ix_postings ix))).

Definition has_infix (ix : InvertedIndex) (r : Z) (norm : rstr) : bool :=
  existsb (λ tr, contains tr.1 norm && bool_decide (r ∈ tr.2)) (ix_postings ix).

Definition rows_if (ix : InvertedIndex) (φ : Z → bool) : list Z :=
  filter (λ r, φ r = true) (seqZ 0 (ix_rows ix)).

Definition empty_index : InvertedIndex := mkIndex [] 0.

Section File.
Context (ixs : list InvertedIndex).

Definition ix_at (i : nat) : InvertedIndex := default empty_index (ixs !! i).
Definition base_of (i : nat) : Z := sumZ (ix_rows <$> take i ixs).

Definition file_where (φ : InvertedIndex → Z → bool) (indices : list nat) : list Z :=
  indices ≫= λ i, shift (base_of i) (rows_if (ix_at i) (φ (ix_at i))).
End File.

Lemma elem_of_rows_if ix φ r : r ∈ rows_if ix φ ↔ 0 ≤ r < ix_rows ix ∧ φ r = true.
Proof. unfold rows_if. rewrite list_elem_of_filter, elem_of_seqZ. split; intros; split_and!; try tauto; lia. Qed.

Lemma rows_if_ascending ix φ : ascending (rows_if ix φ).
Proof. apply ascending_filter, ascending_seqZ. Qed.

Lemma rows_if_ext ix φ ψ : (∀ r, 0 ≤ r < ix_rows ix → φ r = ψ r) → rows_if ix φ = rows_if ix ψ.
Proof.
  intros H. apply ascending_ext; [apply rows_if_ascending..|]. intros r. rewrite !elem_of_rows_if.
  split; intros [Hr Hφ]; (split; [done|]); specialize (H r Hr); congruence.
Qed.

Lemma elem_of_shift b l x : x ∈ shift b l ↔ x - b ∈ l.
Proof.
  unfold shift. rewrite list_elem_of_fmap. split.
  - intros (r & -> & Hr). by replace (r + b - b) with r by lia.
  - intros H. exists (x - b). split; [lia|done].
Qed.

Lemma shift_ascending b l : ascending l → ascending (shift b l).
Proof.
  induction 1 as [|x l _ IH Hx]; [constructor|]. constructor; [done|].
  apply Forall_fmap. eapply Forall_impl; [exact Hx|]. simpl. lia.
Qed.
#[export] Hint Resolve rows_if_ascending shift_ascending : postings.

(** A term's postings are the rows that have it. *)
Lemma postings_rows_if ix t rows :
  index_wf ix → bt_get t (ix_postings ix) = Some rows → rows = rows_if ix (λ r, has ix r t).
Proof.
  intros Hwf Hget. destruct (index_wf_get ix t rows Hwf Hget) as (_ & Hasc & Hb). rewrite Forall_forall in Hb.
  apply ascending_ext; [done|apply rows_if_ascending|]. intros r. rewrite elem_of_rows_if. unfold has.
  rewrite Hget, bool_decide_eq_true. simpl. split; [auto|tauto].
Qed.

Lemma absent_rows_if ix t : bt_get t (ix_postings ix) = None → rows_if ix (λ r, has ix r t) = [].
Proof.
  intros Hget. apply elem_of_nil_inv. intros r [_ Hr]%elem_of_rows_if. unfold has in Hr. rewrite Hget in Hr.
  apply bool_decide_eq_true in Hr. by apply elem_of_nil in Hr.
Qed.

Section Reference.
Context (ixs : list InvertedIndex).
Hypothesis Hwf : Forall index_wf ixs.

Lemma ix_at_wf i : index_wf (ix_at ixs i).
Proof.
  unfold ix_at. destruct (ixs !! i) as [ix|] eqn:E; simpl.
  - rewrite Forall_forall in Hwf. apply Hwf. by eapply list_elem_of_lookup_2.
  - split_and!; [unfold fits; simpl; lia|constructor|constructor].
Qed.

Lemma ix_rows_nonneg i : 0 ≤ ix_rows (ix_at ixs i).
Proof. destruct (ix_at_wf i) as [H _]. unfold fits in H. lia. Qed.

Lemma base_of_S i : base_of ixs (S i) = base_of ixs i + ix_rows (ix_at ixs i).
Proof.
  unfold base_of, ix_at. destruct (ixs !! i) as [ix|] eqn:E; simpl.
  - by rewrite (take_S_r _ _ _ E), fmap_app, sumZ_app; simpl; rewrite Z.add_0_r.
  - apply lookup_ge_None in E. rewrite !take_ge by lia. lia.
Qed.

Lemma base_of_mono i j : (i < j)%nat → base_of ixs i + ix_rows (ix_at ixs i) ≤ base_of ixs j.
Proof.
  induction 1 as [|j _ IH]; [by rewrite base_of_S|]. rewrite base_of_S. pose proof (ix_rows_nonneg j). lia.
Qed.

Lemma elem_of_file_where φ indices x :
  x ∈ file_where ixs φ indices
  ↔ ∃ i, i ∈ indices ∧ 0 ≤ x - base_of ixs i < ix_rows (ix_at ixs i)
      ∧ φ (ix_at ixs i) (x - base_of ixs i) = true.
Proof.
  unfold file_where. rewrite list_elem_of_bind. split.
  - intros (i & Hx%elem_of_shift%elem_of_rows_if & Hi). by exists i.
  - intros (i & Hi & Hx). exists i. by rewrite elem_of_shift, elem_of_rows_if.
Qed.

Lemma file_where_ascending φ indices : StronglySorted lt indices → ascending (file_where ixs φ indices).
Proof.
  induction 1 as [|i indices _ IH Hi]; [constructor|]. unfold file_where. simpl.
  apply ascending_app. split_and!; [auto with postings|done|].
  intros x y Hx%elem_of_shift%elem_of_rows_if (j & Hj & Hy & _)%elem_of_file_where.
  rewrite Forall_forall in Hi. pose proof (base_of_mono i j (Hi j Hj)). lia.
Qed.

Lemma file_where_ext φ ψ indices :
  (∀ i r, i ∈ indices → φ (ix_at ixs i) r = ψ (ix_at ixs i) r) →
  file_where ixs φ indices = file_where ixs ψ indices.
Proof.
  induction indices as [|i indices IH]; intros H; [done|]. unfold file_where in *. cbn [mbind list_bind].
  f_equal; [|apply IH; intros; apply H; by right]. f_equal. apply rows_if_ext. intros r _. apply H. left.
Qed.

Lemma file_where_snoc φ indices i :
  file_where ixs φ (indices ++ [i])
  = file_where ixs φ indices ++ shift (base_of ixs i) (rows_if (ix_at ixs i) (φ (ix_at ixs i))).
Proof. unfold file_where. rewrite bind_app. simpl. by rewrite app_nil_r. Qed.

Lemma file_where_union φ ψ indices :
  StronglySorted lt indices →
  union_sorted (file_where ixs φ indices) (file_where ixs ψ indices)
  = file_where ixs (λ ix r, φ ix r || ψ ix r) indices.
Proof.
  intros Hi. apply ascending_ext.
  - by apply union_sorted_ascending; apply file_where_ascending.
  - by apply file_where_ascending.
  - intros x. rewrite elem_of_union_sorted, !elem_of_file_where. setoid_rewrite orb_true_iff.
    split; [intros [(i & ?)|(i & ?)]; exists i; tauto|].
    intros (i & ? & ? & [|]); [left|right]; exists i; tauto.
Qed.
End Reference.

(** * One group *)

Section OneGroup.
Context {C : SegCodecs} (read : Z → Z → option bytes) (d : SegmentedDirectory).
Context (g : GroupEntry) (ix : InvertedIndex).
Hypothesis Hix : index_wf ix.
Context `{HA : !GroupAnswers read d g (ix_postings ix)}.

(** A hit whose rows are those satisfying [φ]. *)
Definition hit_for (h : Located) (φ : Z → bool) : Prop :=
  h_df h = len (rows_if ix φ)
  ∧ run read (read_postings d g h) = Some (shift (first_row g) (rows_if ix φ)).

Lemma locate_cases t :
  (rows_if ix (λ r, has ix r t) = [] ∧ run read (locate_term d g t) = Some None)
  ∨ (rows_if ix (λ r, has ix r t) ≠ [] ∧
     ∃ h, run read (locate_term d g t) = Some (Some h) ∧ hit_for h (λ r, has ix r t)).
Proof.
  destruct (bt_get t (ix_postings ix)) as [rows|] eqn:E; [right|left].
  - pose proof (index_wf_get ix t rows Hix E) as (Hne & _).
    pose proof (postings_rows_if ix t rows Hix E) as Hrows.
    destruct (answers_hit t rows E) as (h & Hl & Hdf & Hr). rewrite <- Hrows. split; [done|].
    exists h. unfold hit_for. by rewrite <- Hrows.
  - split; [by apply absent_rows_if|by apply answers_miss].
Qed.

Lemma group_postings_spec t :
  run read (group_postings d g t)
  = Some (match rows_if ix (λ r, has ix r t) with
          | [] => None
          | rows => Some (shift (first_row g) rows)
          end).
Proof.
  unfold group_postings. rewrite run_bind.
  destruct (locate_cases t) as [[-> ->]|[Hne (h & -> & _ & Hr)]]; [done|].
  rewrite run_bind, Hr. simpl. by destruct (rows_if _ _).
Qed.

(** Located hits, one per term. *)
Definition hits_for (hs : list Located) (terms : list rstr) : Prop :=
  Forall2 (λ h t, hit_for h (λ r, has ix r t)) hs terms.

Lemma locate_all_spec terms located failed :
  (∃ hs, run read (locate_all d g terms located failed) = (located ++ hs, failed) ∧ hits_for hs terms)
  ∨ (rows_if ix (λ r, forallb (has ix r) terms) = [] ∧
     ∃ hs, run read (locate_all d g terms located failed) = (located ++ hs, failed)
       ∧ (length hs < length terms)%nat).
Proof.
  revert located. induction terms as [|t terms IH]; intros located; simpl.
  { left. exists []. rewrite app_nil_r. split; [done|constructor]. }
  rewrite run_bind. destruct (locate_cases t) as [[Hno ->]|[_ (h & -> & Hh)]].
  - right. split.
    + apply elem_of_nil_inv. intros r [Hr [Ht _]%andb_true_iff]%elem_of_rows_if.
      apply (not_elem_of_nil r). rewrite <- Hno. by apply elem_of_rows_if.
    + exists []. rewrite app_nil_r. split; [done|simpl; lia].
  - destruct (IH (located ++ [h])) as [(hs & -> & Hhs)|(Hno & hs & -> & Hl)]; [left|right].
    + exists (h :: hs). rewrite <- app_assoc. split; [done|by constructor].
    + split; [|exists (h :: hs); rewrite <- app_assoc; split; [done|simpl; lia]].
      apply elem_of_nil_inv. intros r [Hr [_ Ht]%andb_true_iff]%elem_of_rows_if.
      apply (not_elem_of_nil r). rewrite <- Hno. by apply elem_of_rows_if.
Qed.

Lemma intersect_located_spec hs acc :
  (∀ h, h ∈ hs → ∃ φ, hit_for h φ) → (∀ a, acc = Some a → ascending a) →
  ∃ res bad, run read (intersect_located d g hs acc) = (res, bad) ∧ bad = false
    ∧ (res = None → hs = [] ∧ acc = None)
    ∧ ∀ rows, res = Some rows → ascending rows ∧ ∀ x, x ∈ rows ↔
        (∀ a, acc = Some a → x ∈ a) ∧ ∀ h φ, h ∈ hs → hit_for h φ → x ∈ shift (first_row g) (rows_if ix φ).
Proof.
  revert acc. induction hs as [|h hs IH]; intros acc Hhs Hacc; simpl.
  { exists acc, false. split_and!; try done. intros rows ->. split; [by apply Hacc|].
    intros x. split; [|intros [H _]; by apply H]. intros Hx. split; [by intros a [= ->]|]. by intros h φ ?%elem_of_nil. }
  destruct (Hhs h ltac:(left)) as (φ & Hdf & Hr). rewrite run_bind, Hr.
  set (l := shift (first_row g) (rows_if ix φ)).
  assert (ascending l) as Hlasc by (apply shift_ascending, rows_if_ascending).
  set (next := match acc with None => l | Some previous => intersect_sorted previous l end).
  assert (ascending next) as Hnext.
  { unfold next. destruct acc as [a|]; [|done]. apply intersect_sorted_ascending; auto. }
  assert (∀ x, x ∈ next ↔ (∀ a, acc = Some a → x ∈ a) ∧ x ∈ l) as Hin.
  { intros x. unfold next. destruct acc as [a|]; [|by split; [|intros [_ ?]]].
    rewrite elem_of_intersect_sorted by auto.
    split; intros [H1 H2]; (split; [|done]); [by intros ? [= <-]|by apply H1]. }
  assert (∀ ψ, hit_for h ψ → shift (first_row g) (rows_if ix ψ) = l) as Huniq.
  { intros ψ [_ Hψ]. rewrite Hr in Hψ. by injection Hψ. }
  destruct next as [|y next'] eqn:En.
  - exists (Some []), false. split_and!; try done. intros rows [= <-]. split; [constructor|]. intros x.
    split; [by intros ?%elem_of_nil|]. intros [Ha Hh]. apply Hin. split; [done|].
    rewrite <- (Huniq φ) by done. by apply (Hh h φ ltac:(left)).
  - destruct (IH (Some (y :: next'))) as (res & bad & -> & -> & Hnone & Hsome).
    { intros h' ?. apply Hhs. by right. } { by intros a [= <-]. }
    exists res, false. split_and!; [done|done|by intros [_ ?]%Hnone|].
    intros rows Hres. destruct (Hsome rows Hres) as [Hasc Hx]. split; [done|]. intros x. rewrite Hx. split.
    + intros [Ha Hh]. destruct (proj1 (Hin x) (Ha _ eq_refl)) as [Hacc' Hl]. split; [done|].
      intros h' ψ [->|Hh']%elem_of_cons Hψ; [by rewrite Huniq|by apply (Hh h')].
    + intros [Ha Hh]. split; [|intros; eapply Hh; [by right|done]].
      intros a [= <-]. apply Hin. split; [done|]. rewrite <- (Huniq φ) by done. by apply (Hh h φ ltac:(left)).
Qed.

(** The postings of every located term, intersected rarest first. *)
Lemma intersect_terms hs terms :
  terms ≠ [] → hits_for hs terms →
  run read (intersect_located d g (merge_sort rarer hs) None)
  = (Some (shift (first_row g) (rows_if ix (λ r, forallb (has ix r) terms))), false).
Proof.
  intros Hne Hhs. pose proof (merge_sort_Permutation rarer hs) as Hp.
  assert (∀ h, h ∈ hs → ∃ t, t ∈ terms ∧ hit_for h (λ r, has ix r t)) as Hh.
  { intros h [i Hi]%list_elem_of_lookup_1. destruct (Forall2_lookup_l _ _ _ _ _ Hhs Hi) as (t & Ht & ?).
    exists t. split; [by eapply list_elem_of_lookup_2|done]. }
  destruct (intersect_located_spec (merge_sort rarer hs) None) as (res & bad & -> & -> & Hnone & Hsome); [|done|].
  { intros h Hin. rewrite Hp in Hin. destruct (Hh h Hin) as (t & _ & ?). eauto. }
  destruct res as [rows|]; [|].
  - destruct (Hsome rows eq_refl) as [Hasc Hx]. do 2 f_equal.
    apply ascending_ext; [done|auto with postings|]. intros x.
    rewrite Hx, elem_of_shift, elem_of_rows_if, forallb_forall. split.
    + intros [_ H]. assert (∀ t, t ∈ terms → x - first_row g ∈ rows_if ix (λ r, has ix r t)) as Hall.
      { intros t [i Hi]%list_elem_of_lookup_1. destruct (Forall2_lookup_r _ _ _ _ _ Hhs Hi) as (h & Hhi & Hφ).
        apply elem_of_shift. apply (H h); [|done]. rewrite Hp. by eapply list_elem_of_lookup_2. }
      split; [|intros t Ht%list_elem_of_In; by apply Hall, elem_of_rows_if in Ht as [_ ?]].
      destruct terms as [|t ?]; [done|]. by pose proof (Hall t ltac:(left)) as [? _]%elem_of_rows_if.
    + intros [Hr H]. split; [done|]. intros h φ Hin Hφ. rewrite Hp in Hin. destruct (Hh h Hin) as (t & Ht & Ht').
      assert (shift (first_row g) (rows_if ix φ) = shift (first_row g) (rows_if ix (λ r, has ix r t))) as ->.
      { destruct Hφ as [_ E1], Ht' as [_ E2]. rewrite E1 in E2. by injection E2. }
      rewrite elem_of_shift, elem_of_rows_if. split; [done|]. by apply H, list_elem_of_In.
  - destruct (Hnone eq_refl) as [Hnil _]. exfalso. rewrite Hnil in Hp. apply Permutation_nil_l in Hp. subst hs.
    inversion Hhs. by subst.
Qed.

(** ** Reads that are unioned *)

Lemma union_hits hs lists acc (read_one : list Z → Located → list Z) :
  Forall2 (λ h l, ∀ a, read_one a h = union_sorted a l) hs lists → Forall ascending lists → ascending acc →
  ascending (foldl read_one acc hs)
  ∧ ∀ x, x ∈ foldl read_one acc hs ↔ x ∈ acc ∨ ∃ l, l ∈ lists ∧ x ∈ l.
Proof.
  intros H. revert acc. induction H as [|h l hs lists Hh _ IH]; intros acc Hl Ha; simpl.
  { split; [done|]. intros x. split; [by left|]. intros [?|(? & ?%elem_of_nil & _)]; done. }
  apply Forall_cons in Hl as [Hl Hls]. rewrite Hh.
  destruct (IH (union_sorted acc l) Hls) as [Hasc Hx]; [by apply union_sorted_ascending|].
  split; [done|]. intros x. rewrite Hx, elem_of_union_sorted. split.
  - intros [[?|?]|(l' & ? & ?)]; [by left|right; exists l; split; [left|done]|right; exists l'; split; [by right|done]].
  - intros [?|(l' & [->|?]%elem_of_cons & ?)]; [by left; left|by left; right|right; by exists l'].
Qed.
End OneGroup.

(** * The file *)

Record file_serves `{C : SegCodecs} (read : Z → Z → option bytes) (d : SegmentedDirectory)
    (ixs : list InvertedIndex) : Prop := {
  file_len : length (d_groups d) = length ixs;
  file_wf : Forall index_wf ixs;
  file_rows : d_rows d = base_of ixs (length ixs);
  file_group i g :
    d_groups d !! i = Some g →
    first_row g = base_of ixs i ∧ GroupAnswers read d g (ix_postings (ix_at ixs i));
}.

Lemma selection_ok_spec n previous selected :
  selection_ok n previous selected = true
  ↔ StronglySorted lt selected ∧ Forall (λ i, (i < n)%nat) selected
    ∧ ∀ p, previous = Some p → Forall (lt p) selected.
Proof.
  revert previous. induction selected as [|i l IH]; intros previous; simpl.
  { split; [|done]. intros _. split_and!; [constructor|constructor|]. intros. constructor. }
  rewrite !andb_true_iff, IH, Nat.ltb_lt. split.
  - intros [[Hi Hp] (Hs & Hn & Hlt)]. specialize (Hlt i eq_refl). split_and!; [by constructor|by constructor|].
    intros p ->. apply Nat.ltb_lt in Hp. constructor; [done|]. eapply Forall_impl; [exact Hlt|]. simpl. lia.
  - intros ([Hs Hlt]%StronglySorted_inv & [Hi Hn]%Forall_cons & Hp). split_and!; [done| |done|done|by intros ? [= <-]].
    destruct previous as [p|]; [|done]. apply Nat.ltb_lt. by specialize (Hp p eq_refl) as [? _]%Forall_cons.
Qed.

Lemma seq_sorted m n : StronglySorted lt (seq m n).
Proof.
  revert m. induction n as [|n IH]; intros m; simpl; constructor; [done|].
  apply Forall_forall. intros i ?%elem_of_seq. lia.
Qed.

(** A selection the reader serves is ascending and in range. *)
Lemma group_indices_spec d groups indices :
  group_indices d groups = Some indices →
  StronglySorted lt indices ∧ Forall (λ i, (i < length (d_groups d))%nat) indices.
Proof.
  unfold group_indices. destruct groups as [selected|].
  - destruct (selection_ok _ _ _) eqn:E; [|done]. intros [= <-]. apply selection_ok_spec in E. tauto.
  - intros [= <-]. split; [apply seq_sorted|]. apply Forall_forall. intros i ?%elem_of_seq. lia.
Qed.

Section Lookups.
Context {C : SegCodecs} (read : Z → Z → option bytes) (d : SegmentedDirectory) (ixs : list InvertedIndex).
Hypothesis Hfile : file_serves read d ixs.

Lemma group_at_answers i :
  (i < length (d_groups d))%nat →
  first_row (group_at d i) = base_of ixs i ∧ GroupAnswers read d (group_at d i) (ix_postings (ix_at ixs i)).
Proof.
  intros [g Hg]%lookup_lt_is_Some_2. unfold group_at. rewrite Hg. simpl. by apply (file_group _ _ _ Hfile).
Qed.

Lemma at_wf i : index_wf (ix_at ixs i).
Proof. apply ix_at_wf, (file_wf _ _ _ Hfile). Qed.
Hint Resolve at_wf : seg.

(** A loop over the selection whose step appends its group's rows. *)
Lemma fold_groups {S} (f : S → nat → Query S) (inv : list nat → S → Prop) indices :
  Forall (λ i, (i < length (d_groups d))%nat) indices →
  (∀ done i s, (i < length (d_groups d))%nat → inv done s → inv (done ++ [i]) (run read (f s i))) →
  ∀ s, inv [] s → inv indices (run read (q_fold f s indices)).
Proof.
  intros Hin Hstep. cut (∀ done s, inv done s → inv (done ++ indices) (run read (q_fold f s indices))); [|].
  { intros H s. by apply (H [] s). }
  induction Hin as [|i indices Hi _ IH]; intros done s Hs; simpl; [by rewrite app_nil_r|].
  rewrite run_bind. replace (done ++ i :: indices) with ((done ++ [i]) ++ indices) by by rewrite <- app_assoc.
  apply IH. by apply Hstep.
Qed.

(** ** Point lookup *)

Lemma gather_spec t indices :
  Forall (λ i, (i < length (d_groups d))%nat) indices →
  let rows := file_where ixs (λ ix r, has ix r t) indices in
  run read (q_fold (gather_group d t) (mkGather [] false false) indices)
  = mkGather rows (negb (bool_decide (rows = []))) false.
Proof.
  intros Hin. apply (fold_groups _ (λ done s, s =
    mkGather (file_where ixs (λ ix r, has ix r t) done)
      (negb (bool_decide (file_where ixs (λ ix r, has ix r t) done = []))) false) indices Hin); [|done].
  intros done i s Hi ->. destruct (group_at_answers i Hi) as [Hb HA]. unfold gather_group.
  rewrite run_bind, (group_postings_spec read d _ (ix_at ixs i)) by auto with seg.
  rewrite file_where_snoc, Hb. destruct (rows_if _ _) as [|r rows]; simpl; [by rewrite app_nil_r|].
  f_equal. symmetry. apply negb_true_iff, bool_decide_eq_false. by intros [_ ?]%app_eq_nil.
Qed.

Lemma postings_in_groups_spec term groups :
  run read (postings_in_groups d term groups)
  = match normalize_query_term term, group_indices d groups with
    | Some t, Some indices =>
      match file_where ixs (λ ix r, has ix r t) indices with [] => Absent | rows => Rows rows end
    | _, _ => Unanswerable
    end.
Proof.
  unfold postings_in_groups. destruct (normalize_query_term term) as [t|]; [|done].
  destruct (group_indices d groups) as [indices|] eqn:E; [|done]. apply group_indices_spec in E as [_ Hin].
  rewrite run_bind, gather_spec by done. simpl. by destruct (file_where _ _ _).
Qed.

(** ** Conjunction *)

Lemma conjoin_spec terms indices :
  terms ≠ [] → Forall (λ i, (i < length (d_groups d))%nat) indices →
  run read (q_fold (conjoin_group d terms) ([], false) indices)
  = (file_where ixs (λ ix r, forallb (has ix r) terms) indices, false).
Proof.
  intros Hne Hin. apply (fold_groups _ (λ done s, s =
    (file_where ixs (λ ix r, forallb (has ix r) terms) done, false)) indices Hin); [|done].
  intros done i s Hi ->. destruct (group_at_answers i Hi) as [Hb HA]. unfold conjoin_group.
  rewrite run_bind, file_where_snoc.
  destruct (locate_all_spec read d (group_at d i) (ix_at ixs i) (at_wf i) terms [] false)
    as [(hs & -> & Hhs)|(Hno & hs & -> & Hl)]; simpl.
  - pose proof (Forall2_length _ _ _ Hhs) as Hlen. unfold len. rewrite Hlen, Z.eqb_refl. simpl.
    rewrite run_bind, (intersect_terms read d _ (ix_at ixs i) hs terms Hne Hhs). simpl. by rewrite Hb.
  - rewrite Hno, (proj2 (Z.eqb_neq _ _)) by (unfold len; lia). simpl. by rewrite app_nil_r.
Qed.

Lemma matching_rows_all_in_groups_spec terms groups :
  run read (matching_rows_all_in_groups d terms groups)
  = indices ← group_indices d groups;
    match terms with
    | [] => Some []
    | _ => ts ← mapM normalize_query_term terms;
           Some (file_where ixs (λ ix r, forallb (has ix r) ts) indices)
    end.
Proof.
  unfold matching_rows_all_in_groups. destruct (group_indices d groups) as [indices|] eqn:E; [|done].
  apply group_indices_spec in E as [_ Hin]. destruct terms as [|t terms]; [done|].
  cbn [option_bind mbind]. destruct (mapM _ (t :: terms)) as [ts|] eqn:Et; [|done]. cbn [option_bind].
  assert (ts ≠ []) as Hne by (intros ->; apply mapM_Some, Forall2_length in Et; done).
  by rewrite run_bind, conjoin_spec.
Qed.

(** ** Disjunction *)

Lemma matching_rows_any_in_groups_spec terms groups :
  run read (matching_rows_any_in_groups d terms groups)
  = indices ← group_indices d groups;
    ts ← mapM normalize_query_term terms;
    Some (file_where ixs (λ ix r, existsb (has ix r) ts) indices).
Proof.
  unfold matching_rows_any_in_groups. destruct (group_indices d groups) as [indices|] eqn:E; [|done].
  cbn [option_bind mbind]. destruct (mapM _ terms) as [ts|] eqn:Et; [|done]. cbn [option_bind].
  rewrite run_bind, run_fold. apply group_indices_spec in E as Hi. destruct Hi as [Hs _].
  assert (∀ done, foldl (λ s x, run read (disjoin_term d groups s x))
      (file_where ixs (λ ix r, existsb (has ix r) done) indices, false) terms
    = (file_where ixs (λ ix r, existsb (has ix r) (done ++ ts)) indices, false)) as H.
  { apply mapM_Some in Et. induction Et as [|x t terms ts Hx _ IH]; intros done; simpl; [by rewrite app_nil_r|].
    replace (done ++ t :: ts) with ((done ++ [t]) ++ ts) by by rewrite <- app_assoc. rewrite <- IH. f_equal.
    unfold disjoin_term. rewrite run_bind, postings_in_groups_spec, Hx, E. simpl.
    assert (union_sorted (file_where ixs (λ ix r, existsb (has ix r) done) indices)
      (file_where ixs (λ ix r, has ix r t) indices)
      = file_where ixs (λ ix r, existsb (has ix r) (done ++ [t])) indices) as Hu.
    { rewrite file_where_union by (try apply (file_wf _ _ _ Hfile); done). apply file_where_ext.
      intros i r _. rewrite existsb_app. simpl. by rewrite orb_false_r. }
    rewrite <- Hu. destruct (file_where ixs (λ ix r, has ix r t) indices) as [|r l]; [|done].
    do 2 f_equal. by destruct (file_where _ _ _). }
  specialize (H []). simpl in H.
  replace (file_where ixs (λ (ix : InvertedIndex) (_ : Z), false) indices) with (@nil Z) in H; [by rewrite H|].
  symmetry. apply elem_of_nil_inv. intros x (i & _ & _ & ?)%elem_of_file_where. done.
Qed.

(** ** Substring sweep *)

Lemma sweep_group_spec norm i rows :
  (i < length (d_groups d))%nat → ascending rows →
  ∃ rows', run read (sweep_group d norm (rows, false) i) = (rows', false) ∧ ascending rows'
    ∧ ∀ x, x ∈ rows' ↔ x ∈ rows ∨ x ∈ shift (base_of ixs i) (rows_if (ix_at ixs i) (λ r, has_infix (ix_at ixs i) r norm)).
Proof.
  intros Hi Hrows. destruct (group_at_answers i Hi) as [Hb HA]. unfold sweep_group. rewrite run_bind.
  destruct (answers_sweep (GroupAnswers := HA) norm false) as (hits & E & Hhits). cbn [snd fst]. rewrite E.
  set (lists := shift (base_of ixs i) <$> (snd <$> filter (λ tr, contains tr.1 norm = true) (ix_postings (ix_at ixs i)))).
  assert (∀ a, run read (q_fold (sweep_hit d (group_at d i)) (a, false) hits)
    = (foldl (λ a h, union_sorted a (default [] (run read (read_postings d (group_at d i) h)))) a hits, false)) as ->.
  { intros a. rewrite run_fold. revert a. clear E. induction Hhits as [|h l hs ls [_ Hr] _ IH]; intros a; simpl; [done|].
    unfold sweep_hit at 2. rewrite run_bind, Hr. simpl. apply IH. }
  destruct (at_wf i) as (_ & _ & Hok). rewrite Forall_forall in Hok.
  destruct (union_hits hits lists rows
    (λ a h, union_sorted a (default [] (run read (read_postings d (group_at d i) h))))) as [Hasc Hx]; [| |done|].
  { unfold lists. apply Forall2_fmap_r. eapply Forall2_impl; [exact Hhits|]. intros h l [_ Hr] a. by rewrite Hr, Hb. }
  { unfold lists. apply Forall_fmap, Forall_fmap, Forall_forall. intros tr [_ Htr]%list_elem_of_filter. simpl.
    apply shift_ascending. by destruct (Hok tr Htr) as (_ & _ & ? & _). }
  eexists. split; [reflexivity|]. split; [done|]. intros x. rewrite Hx, elem_of_shift, elem_of_rows_if. f_equiv.
  unfold lists, has_infix. rewrite existsb_exists. split.
  - intros (l & (l' & -> & (tr & -> & [Hc Htr]%list_elem_of_filter)%list_elem_of_fmap)%list_elem_of_fmap & Hl%elem_of_shift).
    destruct (Hok tr Htr) as (_ & _ & _ & Hr). rewrite Forall_forall in Hr. split; [by apply Hr|].
    exists tr. split; [by apply list_elem_of_In|]. rewrite Hc. simpl. by apply bool_decide_eq_true.
  - intros (_ & tr & Htr%list_elem_of_In & [Hc Hr%bool_decide_eq_true]%andb_true_iff).
    exists (shift (base_of ixs i) tr.2). rewrite elem_of_shift. split; [|done].
    apply list_elem_of_fmap_2, list_elem_of_fmap_2, list_elem_of_filter. done.
Qed.

Lemma rows_containing_in_groups_spec substr groups :
  run read (rows_containing_in_groups d substr groups)
  = norm ← normalize_query_term substr;
    indices ← group_indices d groups;
    Some (file_where ixs (λ ix r, has_infix ix r norm) indices).
Proof.
  unfold rows_containing_in_groups. destruct (normalize_query_term substr) as [norm|]; [|done].
  cbn [mbind option_bind]. destruct (group_indices d groups) as [indices|] eqn:E; [|done].
  apply group_indices_spec in E as [Hs Hin]. cbn [option_bind]. rewrite run_bind.
  assert (∃ rows, run read (q_fold (sweep_group d norm) ([], false) indices) = (rows, false) ∧ ascending rows
    ∧ ∀ x, x ∈ rows ↔ x ∈ file_where ixs (λ ix r, has_infix ix r norm) indices) as (rows & -> & Hasc & Hx).
  { apply (fold_groups _ (λ done s, ∃ rows, s = (rows, false) ∧ ascending rows
      ∧ ∀ x, x ∈ rows ↔ x ∈ file_where ixs (λ ix r, has_infix ix r norm) done) indices Hin).
    - intros done i s Hi (rows & -> & Hasc & Hx).
      destruct (sweep_group_spec norm i rows Hi Hasc) as (rows' & -> & Hasc' & Hx').
      exists rows'. split_and!; [done|done|]. intros x. by rewrite Hx', Hx, file_where_snoc, elem_of_app.
    - exists []. split_and!; [done|constructor|done]. }
  simpl. f_equal. apply ascending_ext; [done| |done].
  by apply file_where_ascending; [apply (file_wf _ _ _ Hfile)|].
Qed.
End Lookups.
