(* ===== verification/SegClip.v ===== *)
(** The document-frequency-limited point lookup,
    [SegmentedReader::matching_point_rows_with_df_limit_in_groups]
    ([crates/loglake-index/src/segmented.rs]), against the group interface: it
    declines exactly when the summed frequencies of the groups that can match
    exceed the limit, and otherwise returns the rows of the formula. *)

From stdpp Require Import prelude sorting.
From Stdlib Require Import ZArith Lia.
From S2P Require Import Prelude RustStr BTree Cursor Leb128 Bloom Postings InvertedIndex.
From S2P Require Import SegBlock SegWriter SegReader SegGroup SegQuery.

(** * Reference *)

(** A term's document frequency in a group. *)
Definition term_df (ix : InvertedIndex) (t : rstr) : Z := len (rows_if ix (λ r, has ix r t)).

Definition present (ix : InvertedIndex) (t : rstr) : bool := 0 <? term_df ix t.

Definition can_match (all any : list rstr) (ix : InvertedIndex) : bool :=
  forallb (present ix) all && (bool_decide (any = []) || existsb (present ix) any).

Definition dfs (ix : InvertedIndex) (terms : list rstr) : Z := sumZ (term_df ix <$> terms).

(** What the lookup would read, in document occurrences. *)
Definition clip_cost (ixs : list InvertedIndex) (all any : list rstr) (indices : list nat) : Z :=
  sumZ ((λ i, let ix := ix_at ixs i in
              if can_match all any ix then dfs ix all + dfs ix any else 0) <$> indices).

Definition clip_match (all any : list rstr) (ix : InvertedIndex) (r : Z) : bool :=
  forallb (has ix r) all && (bool_decide (any = []) || existsb (has ix r) any).

Definition U64_MAX : Z := 2 ^ 64 - 1.

Lemma sat_min s b : 0 ≤ b → saturating_add 64 (Z.min s U64_MAX) b = Z.min (s + b) U64_MAX.
Proof. unfold saturating_add, U64_MAX. lia. Qed.

Lemma dfs_nonneg ix terms : 0 ≤ dfs ix terms.
Proof. unfold dfs. apply sumZ_nonneg, Forall_fmap, Forall_true. intros t. apply len_nonneg. Qed.

Lemma clip_cost_nonneg ixs all any indices : 0 ≤ clip_cost ixs all any indices.
Proof.
  unfold clip_cost. apply sumZ_nonneg, Forall_fmap, Forall_true. intros i. simpl.
  pose proof (dfs_nonneg (ix_at ixs i) all). pose proof (dfs_nonneg (ix_at ixs i) any).
  destruct (can_match _ _ _); lia.
Qed.

Lemma present_false ix t : rows_if ix (λ r, has ix r t) = [] → present ix t = false ∧ term_df ix t = 0.
Proof. unfold present, term_df. by intros ->. Qed.

Lemma present_true ix t : rows_if ix (λ r, has ix r t) ≠ [] → present ix t = true.
Proof.
  unfold present, term_df. intros H. apply Z.ltb_lt. destruct (rows_if _ _); [done|].
  rewrite len_cons. pose proof (len_nonneg l). lia.
Qed.

(** * One group *)

Section OneGroup.
Context {C : SegCodecs} (read : Z → Z → option bytes) (d : SegmentedDirectory).
Context (g : GroupEntry) (ix : InvertedIndex).
Hypothesis Hix : index_wf ix.
Context `{HA : !GroupAnswers read d g (ix_postings ix)}.
Context (all any : list rstr).

Local Abbreviation hits_for := (hits_for read d g ix).

Lemma locate_required_spec terms s located :
  if forallb (present ix) terms
  then ∃ hs, run read (locate_required d g terms (Z.min s U64_MAX) located)
      = Some (true, Z.min (s + dfs ix terms) U64_MAX, located ++ hs) ∧ hits_for hs terms
  else ∃ df hs, run read (locate_required d g terms (Z.min s U64_MAX) located) = Some (false, df, hs).
Proof.
  revert s located. induction terms as [|t terms IH]; intros s located; simpl.
  { exists []. rewrite app_nil_r. unfold dfs. simpl. rewrite Z.add_0_r. split; [done|constructor]. }
  rewrite run_bind. destruct (locate_cases read d g ix Hix t) as [[Hno ->]|[Hne (h & -> & Hh)]].
  - apply present_false in Hno as [-> _]. simpl. eauto.
  - rewrite (present_true ix t Hne). simpl. pose proof Hh as [Hdf _].
    rewrite Hdf, sat_min by apply len_nonneg.
    specialize (IH (s + len (rows_if ix (λ r, has ix r t))) (located ++ [h])).
    destruct (forallb (present ix) terms); [|done]. destruct IH as (hs & -> & Hhs). exists (h :: hs).
    rewrite <- app_assoc. split; [|by constructor]. unfold dfs. simpl. by rewrite Z.add_assoc.
Qed.

Lemma locate_optional_spec terms s located :
  ∃ hs, run read (locate_optional d g terms (Z.min s U64_MAX) located)
    = Some (Z.min (s + dfs ix terms) U64_MAX, located ++ hs)
    ∧ hits_for hs (filter (λ t, present ix t = true) terms).
Proof.
  revert s located. induction terms as [|t terms IH]; intros s located; simpl.
  { exists []. rewrite app_nil_r. unfold dfs. simpl. rewrite Z.add_0_r. split; [done|constructor]. }
  rewrite run_bind, filter_cons. destruct (locate_cases read d g ix Hix t) as [[Hno ->]|[Hne (h & -> & Hh)]].
  - apply present_false in Hno as [Hp Hdf]. rewrite decide_False by (rewrite Hp; done).
    destruct (IH s located) as (hs & -> & Hhs). exists hs. split; [|done]. unfold dfs. simpl. by rewrite Hdf.
  - rewrite decide_True by by apply present_true. pose proof Hh as [Hdf _].
    rewrite Hdf, sat_min by apply len_nonneg.
    destruct (IH (s + len (rows_if ix (λ r, has ix r t))) (located ++ [h])) as (hs & -> & Hhs).
    exists (h :: hs). rewrite <- app_assoc. split; [|by constructor]. unfold dfs. simpl. by rewrite Z.add_assoc.
Qed.

(** A prepared group: what was located when the group can match. *)
Definition plan_for (p : Plan) : Prop :=
  if can_match all any ix
  then ∃ hs ha, p = (Some hs, ha) ∧ hits_for hs all
         ∧ hits_for ha (filter (λ t, present ix t = true) any)
  else p.1 = None.

Lemma prepare_group_spec :
  ∃ df hs ha, run read (prepare_group d g all any) = Some (can_match all any ix, df, hs, ha)
    ∧ (can_match all any ix = true → df = Z.min (dfs ix all + dfs ix any) U64_MAX)
    ∧ plan_for (if can_match all any ix then Some hs else None, ha).
Proof.
  unfold prepare_group, plan_for, can_match. rewrite run_bind.
  pose proof (locate_required_spec all 0 []) as H. change (Z.min 0 U64_MAX) with 0 in H. rewrite Z.add_0_l in H.
  destruct (forallb (present ix) all); simpl; [|destruct H as (df & hs & ->); by exists df, hs, []].
  destruct H as (hs & -> & Hhs). rewrite run_bind. simpl.
  destruct (locate_optional_spec any (dfs ix all) []) as (ha & -> & Hha). simpl.
  assert (negb (bool_decide (ha = [])) = existsb (present ix) any) as ->.
  { apply Forall2_length in Hha. destruct (existsb (present ix) any) eqn:E.
    - apply existsb_exists in E as (t & Ht%list_elem_of_In & Hp). apply negb_true_iff, bool_decide_eq_false.
      intros ->. symmetry in Hha. apply nil_length_inv in Hha. apply (not_elem_of_nil t). rewrite <- Hha.
      by apply list_elem_of_filter.
    - apply negb_false_iff, bool_decide_eq_true. destruct ha; [done|exfalso].
      destruct (filter _ any) as [|t ts] eqn:Ef; [done|].
      assert (t ∈ filter (λ t, present ix t = true) any) as [Hp Ht]%list_elem_of_filter by (rewrite Ef; left).
      assert (existsb (present ix) any = true); [|congruence]. apply existsb_exists. exists t.
      split; [by apply list_elem_of_In|done]. }
  eexists _, hs, ha. split; [reflexivity|]. split; [done|].
  destruct (bool_decide (any = []) || existsb (present ix) any); [|done]. by exists hs, ha.
Qed.

Lemma union_located_spec hs terms acc :
  hits_for hs terms → ascending acc →
  ∃ rows, run read (union_located d g hs acc) = Some rows ∧ ascending rows
    ∧ ∀ x, x ∈ rows ↔ x ∈ acc ∨ ∃ t, t ∈ terms ∧ x ∈ shift (first_row g) (rows_if ix (λ r, has ix r t)).
Proof.
  intros H. revert acc. induction H as [|h t hs terms [_ Hr] _ IH]; intros acc Ha; simpl.
  { exists acc. split_and!; [done|done|]. intros x. split; [by left|]. by intros [?|(? & ?%elem_of_nil & _)]. }
  rewrite run_bind, Hr. set (l := shift (first_row g) (rows_if ix (λ r, has ix r t))).
  destruct (IH (union_sorted acc l)) as (rows & -> & Hasc & Hx).
  { apply union_sorted_ascending; [done|]. apply shift_ascending, rows_if_ascending. }
  exists rows. split_and!; [done|done|]. intros x. rewrite Hx, elem_of_union_sorted. split.
  - intros [[?|?]|(t' & ? & ?)]; [by left|right; exists t; split; [left|done]|right; exists t'; split; [by right|done]].
  - intros [?|(t' & [->|?]%elem_of_cons & ?)]; [by left; left|by left; right|right; by exists t'].
Qed.

(** The disjuncts that are present cover every row with a disjunct. *)
Lemma present_cover x :
  (∃ t, t ∈ filter (λ t, present ix t = true) any ∧ x ∈ shift (first_row g) (rows_if ix (λ r, has ix r t)))
  ↔ 0 ≤ x - first_row g < ix_rows ix ∧ existsb (has ix (x - first_row g)) any = true.
Proof.
  setoid_rewrite elem_of_shift. setoid_rewrite elem_of_rows_if. rewrite existsb_exists. split.
  - intros (t & [_ Ht]%list_elem_of_filter & Hr & Hh). split; [done|]. exists t. by rewrite <- list_elem_of_In.
  - intros (Hr & t & Ht%list_elem_of_In & Hh). exists t. split; [|done]. apply list_elem_of_filter. split; [|done].
    apply present_true. intros E. apply (not_elem_of_nil (x - first_row g)). rewrite <- E. by apply elem_of_rows_if.
Qed.

Lemma clip_group_spec hs ha :
  all ≠ [] ∨ any ≠ [] → hits_for hs all → hits_for ha (filter (λ t, present ix t = true) any) →
  run read (clip_group d g any hs ha) = Some (shift (first_row g) (rows_if ix (clip_match all any ix))).
Proof.
  intros Hne Hhs Hha. unfold clip_group. rewrite run_bind.
  destruct (union_located_spec ha _ [] Hha (ascending_nil)) as (rows & Hu & Hasc & Hx).
  assert (∀ x, x ∈ rows ↔ 0 ≤ x - first_row g < ix_rows ix ∧ existsb (has ix (x - first_row g)) any = true) as Hx'.
  { intros x. rewrite Hx, present_cover. split; [intros [?%elem_of_nil|?]; done|by right]. }
  destruct (decide (all = [])) as [->|Hall].
  - inversion Hhs; subst hs. simpl. destruct Hne as [|Hany]; [done|]. rewrite bool_decide_false by done.
    rewrite run_bind, Hu. simpl. f_equal. apply ascending_ext; [done|auto with postings|]. intros x.
    rewrite Hx', elem_of_shift, elem_of_rows_if. unfold clip_match. by rewrite bool_decide_false.
  - rewrite (intersect_terms read d g ix hs all Hall Hhs). simpl. unfold clip_match.
    set (A := shift (first_row g) (rows_if ix (λ r, forallb (has ix r) all))).
    assert (∀ x, x ∈ A ↔ 0 ≤ x - first_row g < ix_rows ix ∧ forallb (has ix (x - first_row g)) all = true) as HA'.
    { intros x. unfold A. by rewrite elem_of_shift, elem_of_rows_if. }
    assert (ascending A) as HAasc by (apply shift_ascending, rows_if_ascending).
    destruct (decide (any = [])) as [->|Hany].
    + rewrite bool_decide_true by done. transitivity (Some A); [by destruct A|]. unfold A. do 2 f_equal.
      apply rows_if_ext. intros. simpl. by rewrite andb_true_r.
    + rewrite bool_decide_false by done. simpl. transitivity (Some (intersect_sorted A rows)).
      { destruct A as [|a A']; [by destruct rows|]. by rewrite run_bind, Hu. }
      f_equal. apply ascending_ext; [by apply intersect_sorted_ascending|auto with postings|]. intros x.
      rewrite elem_of_intersect_sorted, HA', Hx', elem_of_shift, elem_of_rows_if, andb_true_iff by done. tauto.
Qed.
End OneGroup.

(** * The file *)

Section Lookup.
Context {C : SegCodecs} (read : Z → Z → option bytes) (d : SegmentedDirectory) (ixs : list InvertedIndex).
Hypothesis Hfile : file_serves read d ixs.
Context (all any : list rstr).

Definition plan_at (i : nat) (p : Plan) : Prop := plan_for read d (group_at d i) (ix_at ixs i) all any p.

Lemma prepare_spec max indices s prepared :
  Forall (λ i, (i < length (d_groups d))%nat) indices → 0 ≤ s → Z.min s U64_MAX ≤ max →
  if max <? Z.min (s + clip_cost ixs all any indices) U64_MAX
  then run read (prepare d all any max indices (Z.min s U64_MAX) prepared) = inl OverBudget
  else ∃ plans, run read (prepare d all any max indices (Z.min s U64_MAX) prepared) = inr (prepared ++ plans)
         ∧ Forall2 plan_at indices plans.
Proof.
  intros Hin. revert s prepared. induction Hin as [|i indices Hi _ IH]; intros s prepared Hs0 Hs; simpl.
  { unfold clip_cost. simpl. rewrite Z.add_0_r, (proj2 (Z.ltb_ge _ _)) by lia.
    exists []. rewrite app_nil_r. split; [done|constructor]. }
  destruct (group_at_answers read d ixs Hfile i Hi) as [_ HA]. rewrite run_bind.
  destruct (prepare_group_spec read d (group_at d i) (ix_at ixs i) (at_wf read d ixs Hfile i) all any)
    as (df & hs & ha & -> & Hdf & Hplan).
  assert (clip_cost ixs all any (i :: indices) = (if can_match all any (ix_at ixs i)
    then dfs (ix_at ixs i) all + dfs (ix_at ixs i) any else 0) + clip_cost ixs all any indices) as -> by done.
  pose proof (clip_cost_nonneg ixs all any indices) as Hpos.
  destruct (can_match all any (ix_at ixs i)) eqn:Ec.
  - rewrite Hdf by done. clear Hdf. set (c := dfs (ix_at ixs i) all + dfs (ix_at ixs i) any).
    pose proof (dfs_nonneg (ix_at ixs i) all). pose proof (dfs_nonneg (ix_at ixs i) any).
    assert (saturating_add 64 (Z.min s U64_MAX) (Z.min c U64_MAX) = Z.min (s + c) U64_MAX) as ->.
    { unfold saturating_add, U64_MAX. lia. }
    destruct (Z.ltb_spec max (Z.min (s + c) U64_MAX)) as [Hover|Hok].
    + by rewrite (proj2 (Z.ltb_lt _ _)) by lia.
    + specialize (IH (s + c) (prepared ++ [(Some hs, ha)]) ltac:(lia) Hok). rewrite Z.add_assoc.
      destruct (max <? _); [done|]. destruct IH as (plans & -> & Hplans).
      exists ((Some hs, ha) :: plans). rewrite <- app_assoc. split; [done|by constructor].
  - specialize (IH s (prepared ++ [(None, ha)]) Hs0 Hs). rewrite Z.add_0_l.
    destruct (max <? _); [done|]. destruct IH as (plans & -> & Hplans).
    exists ((None, ha) :: plans). rewrite <- app_assoc. split; [done|by constructor].
Qed.

Lemma no_match ix : can_match all any ix = false → rows_if ix (clip_match all any ix) = [].
Proof.
  intros Hc. apply elem_of_nil_inv. intros r [Hr Hm]%elem_of_rows_if.
  assert (∀ t, has ix r t = true → present ix t = true) as Hp.
  { intros t Ht. apply present_true. intros E. apply (not_elem_of_nil r). rewrite <- E. by apply elem_of_rows_if. }
  unfold can_match in Hc. unfold clip_match in Hm. apply andb_true_iff in Hm as [Ha Ho].
  rewrite (proj2 (forallb_forall _ _)) in Hc by (rewrite forallb_forall in Ha; auto). simpl in Hc.
  apply orb_false_iff in Hc as [Hn He]. rewrite Hn in Ho. simpl in Ho. apply existsb_exists in Ho as (t & Ht & Hh).
  assert (existsb (present ix) any = true); [|congruence]. apply existsb_exists. eauto.
Qed.

Lemma clip_groups_spec groups k indices plans rows :
  all ≠ [] ∨ any ≠ [] → Forall (λ i, (i < length (d_groups d))%nat) indices → Forall2 plan_at indices plans →
  (∀ j i, indices !! j = Some i →
    match groups with Some selected => default O (selected !! (k + j)%nat) | None => (k + j)%nat end = i) →
  run read (clip_groups d groups any k plans rows)
  = ClipRows (rows ++ file_where ixs (clip_match all any) indices).
Proof.
  intros Hne Hin Hplans. revert k rows Hin.
  induction Hplans as [|i p indices plans Hp _ IH]; intros k rows Hin Hidx; simpl; [by rewrite app_nil_r|].
  apply Forall_cons in Hin as [Hi Hin]. destruct (group_at_answers read d ixs Hfile i Hi) as [Hb HA].
  assert (∀ rows', run read (clip_groups d groups any (S k) plans rows')
    = ClipRows (rows' ++ file_where ixs (clip_match all any) indices)) as Hrec.
  { intros rows'. apply IH; [done|]. intros j i' Hj. specialize (Hidx (S j) i' Hj).
    by replace (S k + j)%nat with (k + S j)%nat by lia. }
  specialize (Hidx O i eq_refl). rewrite Nat.add_0_r in Hidx. unfold plan_at, plan_for in Hp.
  unfold file_where. cbn [mbind list_bind]. fold (file_where ixs (clip_match all any) indices).
  destruct (can_match all any (ix_at ixs i)) eqn:Ec.
  - destruct Hp as (hs & ha & -> & Hhs & Hha). rewrite Hidx, run_bind.
    rewrite (clip_group_spec read d _ (ix_at ixs i) all any hs ha Hne Hhs Hha), Hrec, Hb, <- app_assoc. done.
  - destruct p as [o ha]. simpl in Hp. subst o. rewrite Hrec, (no_match _ Ec). done.
Qed.

End Lookup.

Lemma df_limit_spec `{C : SegCodecs} read d ixs all_terms any_terms groups max all any indices :
  file_serves read d ixs → group_indices d groups = Some indices → 0 ≤ max →
  all_terms ≠ [] ∨ any_terms ≠ [] →
  mapM normalize_query_term all_terms = Some all → mapM normalize_query_term any_terms = Some any →
  run read (matching_point_rows_with_df_limit_in_groups d all_terms any_terms groups max)
  = if max <? Z.min (clip_cost ixs all any indices) U64_MAX then OverBudget
    else ClipRows (file_where ixs (clip_match all any) indices).
Proof.
  intros Hfile Hidx Hmax Hne Hall Hany. pose proof (group_indices_spec _ _ _ Hidx) as [_ Hin].
  unfold matching_point_rows_with_df_limit_in_groups. rewrite Hidx, Hall, Hany.
  assert (all ≠ [] ∨ any ≠ []) as Hne'.
  { apply mapM_Some, Forall2_length in Hall, Hany. destruct Hne as [H|H]; [left|right]; intros ->; apply H;
      by apply nil_length_inv. }
  assert (bool_decide (all_terms = []) && bool_decide (any_terms = []) = false) as ->.
  { destruct Hne; [rewrite bool_decide_false by done; done|].
    rewrite andb_comm, bool_decide_false by done. done. }
  rewrite run_bind. pose proof (prepare_spec read d ixs Hfile all any max indices 0 [] Hin) as H.
  change (Z.min 0 U64_MAX) with 0 in H. rewrite Z.add_0_l in H. specialize (H ltac:(lia) Hmax).
  destruct (max <? _); [by rewrite H|]. destruct H as (plans & -> & Hplans). simpl.
  apply (clip_groups_spec read d ixs Hfile all any groups 0 indices plans []); [done..|].
  intros j i Hj. simpl. unfold group_indices in Hidx. destruct groups as [selected|].
  - destruct (selection_ok _ _ _); [|done]. injection Hidx as ->. by rewrite Hj.
  - injection Hidx as <-. apply lookup_seq in Hj. lia.
Qed.
