(* ===== verification/SegLayout.v ===== *)
(** The shape of what [SegmentedWriter] ([crates/loglake-index/src/segmented.rs])
    writes, in closed form: how a group's terms are cut into blocks, and that
    either layout's loops produce the blocks' stored bytes one after the other
    with directory entries that say where each lies. *)

From stdpp Require Import prelude sorting.
From Stdlib Require Import ZArith Lia.
From S2P Require Import Prelude RustStr BTree Cursor Leb128 Bloom Postings InvertedIndex.
From S2P Require Import SegBlock SegWriter SegReader SegGroup SegQuery.

Abbreviation terms := (list (rstr * list Z)).

(** The postings bytes of consecutive terms. *)
Definition deltas (m : terms) : bytes := m ≫= λ tr, encode_deltas 0 tr.2.

(** The dictionary block of consecutive terms. *)
Definition block (c : terms) : bytes := encode_block (entry_of <$> c).

(** The cut: a block closes as soon as its estimate reaches the target. *)
Fixpoint chunk_from (target : Z) (acc m : terms) : list terms :=
  match m with
  | [] => match acc with [] => [] | _ => [acc] end
  | tr :: m =>
    let acc := acc ++ [tr] in
    if target <=? estimate (entry_of <$> acc) then acc :: chunk_from target [] m
    else chunk_from target acc m
  end.

Definition chunks (target : Z) (m : terms) : list terms := chunk_from target [] m.

Lemma chunk_from_concat target acc m : concat (chunk_from target acc m) = acc ++ m.
Proof.
  revert acc. induction m as [|tr m IH]; intros acc; cbn [chunk_from].
  { destruct acc; simpl; by rewrite ?app_nil_r. }
  cbv zeta. destruct (_ <=? _); cbn [concat]; rewrite IH, <- app_assoc; done.
Qed.

Lemma chunk_from_nonempty target acc m : Forall (λ c, c ≠ []) (chunk_from target acc m).
Proof.
  revert acc. induction m as [|tr m IH]; intros acc; cbn [chunk_from].
  { destruct acc; by repeat constructor. }
  cbv zeta. destruct (_ <=? _); [|done]. constructor; [by destruct acc|done].
Qed.

Lemma chunks_concat target m : concat (chunks target m) = m.
Proof. apply chunk_from_concat. Qed.

Lemma deltas_app m m' : deltas (m ++ m') = deltas m ++ deltas m'.
Proof. apply bind_app. Qed.

Lemma deltas_len m : len (deltas m) = lens_of m.
Proof.
  induction m as [|tr m IH]; [done|]. change (deltas (tr :: m)) with (encode_deltas 0 tr.2 ++ deltas m).
  rewrite len_app, IH. done.
Qed.

Lemma deltas_concat cs : deltas (concat cs) = cs ≫= deltas.
Proof. induction cs as [|c cs IH]; simpl; [done|]. by rewrite deltas_app, IH. Qed.

(** ** Sizes *)

(** An upper bound on what a group's terms take, raw: five varints a term. *)
Definition raw_size (m : terms) : Z :=
  sumZ ((λ tr, len tr.1 + 50 + len (encode_deltas 0 tr.2)) <$> m).

Lemma raw_size_app m m' : raw_size (m ++ m') = raw_size m + raw_size m'.
Proof. unfold raw_size. by rewrite fmap_app, sumZ_app. Qed.

Lemma raw_size_nonneg m : 0 ≤ raw_size m.
Proof.
  apply sumZ_nonneg, Forall_fmap, Forall_true. intros tr. simpl.
  pose proof (len_nonneg tr.1). pose proof (len_nonneg (encode_deltas 0 tr.2)). lia.
Qed.

Lemma raw_size_elem m tr : tr ∈ m → len tr.1 + 50 + len (encode_deltas 0 tr.2) ≤ raw_size m.
Proof.
  intros (a & b & ->)%list_elem_of_split. rewrite raw_size_app. change (tr :: b) with ([tr] ++ b).
  rewrite raw_size_app. unfold raw_size at 2. simpl. pose proof (raw_size_nonneg a). pose proof (raw_size_nonneg b). lia.
Qed.

Lemma write_varint_le v : u64 v → len (write_varint v) ≤ 10.
Proof. intros H. rewrite write_varint_spec by done. pose proof (leb128_length 10 v). unfold len. lia. Qed.

Definition small (m : terms) : Prop := raw_size m < 2 ^ 32.

(** What the writers' [as u32] casts see of a small group. *)
Lemma small_entries m :
  small m → (λ tr : rstr * list Z, mkEntry tr.1 (wrap 32 (len tr.2)) (wrap 32 (len (encode_deltas 0 tr.2)))) <$> m
            = entry_of <$> m.
Proof.
  intros Hm. apply list_fmap_ext. intros i tr Hi%list_elem_of_lookup_2. unfold entry_of.
  pose proof (raw_size_elem m tr Hi). pose proof (encode_deltas_len 0 tr.2). unfold small in Hm.
  pose proof (len_nonneg tr.1). pose proof (len_nonneg tr.2).
  rewrite !wrap_small by (unfold fits; lia). done.
Qed.

Lemma entries_ok n m : small m → Forall (postings_ok n) m → Forall entry_ok (entry_of <$> m).
Proof.
  intros Hm Hok. apply Forall_fmap, Forall_forall. intros tr Htr. rewrite Forall_forall in Hok.
  destruct (Hok tr Htr) as (Hv & Hne & _). pose proof (raw_size_elem m tr Htr). unfold small in Hm.
  pose proof (encode_deltas_len 0 tr.2). pose proof (len_nonneg tr.1). pose proof (len_nonneg tr.2).
  assert (1 ≤ len tr.2) by (destruct tr.2; [done|]; rewrite len_cons; pose proof (len_nonneg l); lia).
  unfold entry_ok, entry_of, fits. simpl. split_and!; [done|lia..].
Qed.

Lemma encode_entry_le prev e : entry_ok e → len (encode_entry prev e) ≤ len (te_term e) + 40.
Proof.
  intros (_ & Hl & Hdf & Hlen & _). unfold encode_entry, shared_prefix_len.
  pose proof (common_prefix_bound prev (te_term e)) as Hs. unfold fits in Hl. rewrite !len_app.
  pose proof (write_varint_le _ (u32_u64 _ Hdf)). pose proof (write_varint_le _ (u32_u64 _ Hlen)).
  assert (len (write_varint (common_prefix_len prev (te_term e))) ≤ 10) by (apply write_varint_le; unfold fits; lia).
  assert (len (write_varint (len (te_term e) - common_prefix_len prev (te_term e))) ≤ 10)
    by (apply write_varint_le; unfold fits; lia).
  assert (len (drop (Z.to_nat (common_prefix_len prev (te_term e))) (te_term e)) ≤ len (te_term e))
    by (unfold len; rewrite length_drop; lia). lia.
Qed.

Lemma encode_entries_le prev es :
  Forall entry_ok es → len (encode_entries prev es) ≤ sumZ ((λ e, len (te_term e) + 40) <$> es).
Proof.
  intros H. revert prev. induction H as [|e es He _ IH]; intros prev; [done|].
  rewrite encode_entries_cons, len_app, fmap_cons. pose proof (encode_entry_le prev e He).
  specialize (IH (te_term e)). simpl. lia.
Qed.

(** A block of at least one term is no larger than the bound on its terms. *)
Lemma block_le c :
  c ≠ [] → Forall entry_ok (entry_of <$> c) → u64 (len c) → len (block c) + lens_of c ≤ raw_size c.
Proof.
  intros Hne Hok Hu. unfold block, encode_block. rewrite len_app, len_fmap.
  pose proof (write_varint_le _ Hu) as Hv. pose proof (encode_entries_le [] _ Hok) as He.
  assert (sumZ ((λ e, len (te_term e) + 40) <$> (entry_of <$> c)) + 10 + lens_of c ≤ raw_size c); [|lia].
  unfold raw_size, lens_of. clear -Hne. assert (∀ m : terms,
    sumZ ((λ e, len (te_term e) + 40) <$> (entry_of <$> m)) + 10 * len m + sumZ (te_len <$> (entry_of <$> m))
    = sumZ ((λ tr, len tr.1 + 50 + len (encode_deltas 0 tr.2)) <$> m)) as H.
  { induction m as [|tr m IH]; [done|]. rewrite !fmap_cons, len_cons. simpl in *. lia. }
  rewrite <- H. destruct c; [done|]. rewrite len_cons. pose proof (len_nonneg c). lia.
Qed.

Lemma len_terms_le m : len m ≤ raw_size m.
Proof.
  induction m as [|tr m IH]; [done|]. change (tr :: m) with ([tr] ++ m). rewrite len_app, raw_size_app.
  unfold raw_size at 1. simpl. pose proof (len_nonneg tr.1). pose proof (len_nonneg (encode_deltas 0 tr.2)).
  change (len [tr]) with 1. lia.
Qed.

(** * Stored sections *)

Section Layout.
Context {C : SegCodecs} (format : SegmentedFormat).

Definition stored (bs : bytes) : bytes := match format with Seg1 => bs | Seg2 => compress bs end.

(** The directory's entry for a block whose dictionary bytes start at [d_at] and
    whose postings start at [p_at] within the group's sections. *)
Definition block_of (d_at p_at : Z) (c : terms) : BlockEntry :=
  let first := default [] (first_term_of (block c)) in
  match format with
  | Seg1 => mkBlock first (wrap 32 d_at) (wrap 32 (len (block c))) p_at (crc32 (block c)) None
  | Seg2 => mkBlock first (wrap 32 d_at) (wrap 32 (len (compress (block c)))) 0 (crc32 (block c))
      (Some (mkV2 (wrap 32 (len (block c))) p_at (wrap 32 (len (compress (deltas c))))
               (wrap 32 (len (deltas c))) (crc32 (deltas c))))
  end.

Fixpoint blocks_of (d_at p_at : Z) (cs : list terms) : list BlockEntry :=
  match cs with
  | [] => []
  | c :: cs => block_of d_at p_at c
      :: blocks_of (d_at + len (stored (block c))) (p_at + len (stored (deltas c))) cs
  end.

Definition postings_section (cs : list terms) : bytes := cs ≫= λ c, stored (deltas c).
Definition dict_section (cs : list terms) : bytes := cs ≫= λ c, stored (block c).

Definition group_of (row at_ : Z) (ix : InvertedIndex) (cs : list terms) : GroupEntry :=
  mkGroup row (ix_rows ix) (at_ + len (postings_section cs)) (len (dict_section cs)) at_
    (len (postings_section cs)) (blocks_of 0 0 cs).
End Layout.

(** * The loops *)

Lemma push_terms m out es :
  small m →
  foldl push_term (out, es) m = (out ++ deltas m, es ++ (entry_of <$> m)).
Proof.
  intros Hm. rewrite <- small_entries by done. clear Hm. revert out es.
  induction m as [|[t rows] m IH]; intros out es; cbn [foldl fmap list_fmap].
  { unfold deltas. simpl. by rewrite !app_nil_r. }
  unfold push_term at 2. rewrite IH. change (deltas ((t, rows) :: m)) with (encode_deltas 0 rows ++ deltas m).
  replace (len (out ++ encode_deltas 0 rows) - len out) with (len (encode_deltas 0 rows)) by (rewrite len_app; lia).
  by rewrite <- !app_assoc.
Qed.

Section Loops.
Context {C : SegCodecs} (target : Z).

(** What [v1_blocks] does once the entries are through. *)
Definition v1_close (d_off : Z) (st : BlockLoop) : bytes * list BlockEntry :=
  match bl_terms st with
  | [] => (bl_out st, bl_blocks st)
  | terms =>
    let '(out, be) := flush_block (bl_out st) (encode_block terms) d_off (bl_base st) in
    (out, bl_blocks st ++ [be])
  end.

Lemma fmap_snoc_entry (acc : terms) tr : (entry_of <$> acc) ++ [entry_of tr] = entry_of <$> acc ++ [tr].
Proof. by rewrite fmap_app. Qed.

Lemma lens_of_snoc base acc tr : base + lens_of acc + te_len (entry_of tr) = base + lens_of (acc ++ [tr]).
Proof. rewrite lens_of_app. unfold lens_of at 3. simpl. lia. Qed.

Lemma v1_loop_spec d_off m out bs acc base :
  v1_close d_off (foldl (v1_entry target d_off)
    (mkLoop out bs (entry_of <$> acc) (base + lens_of acc) base) (entry_of <$> m))
  = (out ++ dict_section Seg1 (chunk_from target acc m),
     bs ++ blocks_of Seg1 (len out - d_off) base (chunk_from target acc m)).
Proof.
  revert out bs acc base. induction m as [|tr m IH]; intros out bs acc base.
  { simpl. destruct acc as [|x acc]; simpl; [by rewrite !app_nil_r|]. unfold dict_section. simpl. by rewrite app_nil_r. }
  cbn [fmap list_fmap foldl chunk_from]. unfold v1_entry at 2. cbn [bl_terms bl_cursor bl_out bl_blocks bl_base].
  cbv zeta. rewrite fmap_snoc_entry, lens_of_snoc. destruct (_ <=? _); [|apply IH]. set (c := acc ++ [tr]).
  change (flush_block out (encode_block (entry_of <$> c)) d_off base)
    with (out ++ block c, block_of Seg1 (len out - d_off) base c). cbv beta iota.
  replace (mkLoop _ _ [] (base + lens_of c) (base + lens_of c)) with
    (mkLoop (out ++ block c) (bs ++ [block_of Seg1 (len out - d_off) base c]) (entry_of <$> []) (base + lens_of c + lens_of [])
      (base + lens_of c)) by (f_equal; apply Z.add_0_r).
  rewrite IH. unfold dict_section. cbn [mbind list_bind blocks_of]. rewrite <- !app_assoc, len_app.
  change (stored Seg1 (deltas c)) with (deltas c). rewrite deltas_len. change (stored Seg1 (block c)) with (block c).
  by replace (len out + len (block c) - d_off) with (len out - d_off + len (block c)) by lia.
Qed.

Lemma v1_blocks_spec d_off out m :
  v1_blocks target d_off out (entry_of <$> m)
  = (out ++ dict_section Seg1 (chunks target m), blocks_of Seg1 (len out - d_off) 0 (chunks target m)).
Proof. exact (v1_loop_spec d_off m out [] [] 0). Qed.

(** The raw blocks of seg2 and their spans. *)
Fixpoint raws_of (base : Z) (cs : list terms) : list RawBlock :=
  match cs with
  | [] => []
  | c :: cs => mkRaw (block c) base (base + lens_of c) :: raws_of (base + lens_of c) cs
  end.

Definition v2_close (st : RawLoop) : list RawBlock :=
  match rl_terms st with
  | [] => rl_blocks st
  | terms => rl_blocks st ++ [mkRaw (encode_block terms) (rl_base st) (rl_cursor st)]
  end.

Lemma v2_loop_spec m bs acc base :
  v2_close (foldl (v2_entry target) (mkRawLoop bs (entry_of <$> acc) (base + lens_of acc) base) (entry_of <$> m))
  = bs ++ raws_of base (chunk_from target acc m).
Proof.
  revert bs acc base. induction m as [|tr m IH]; intros bs acc base.
  { simpl. destruct acc as [|x acc]; simpl; [by rewrite app_nil_r|done]. }
  cbn [fmap list_fmap foldl chunk_from]. unfold v2_entry at 2. cbn [rl_terms rl_cursor rl_blocks rl_base].
  cbv zeta. rewrite fmap_snoc_entry, lens_of_snoc. destruct (_ <=? _); [|apply IH]. set (c := acc ++ [tr]).
  replace (mkRawLoop _ [] (base + lens_of c) (base + lens_of c)) with
    (mkRawLoop (bs ++ [mkRaw (block c) base (base + lens_of c)]) (entry_of <$> []) (base + lens_of c + lens_of [])
      (base + lens_of c)) by (f_equal; apply Z.add_0_r).
  rewrite IH. by rewrite <- app_assoc.
Qed.

Lemma v2_raw_blocks_spec m : v2_raw_blocks target (entry_of <$> m) = raws_of 0 (chunks target m).
Proof. exact (v2_loop_spec m [] [] 0). Qed.
End Loops.

(** Entries as the posting-span loop leaves them: where the dictionary goes is
    still to be filled in. *)
Fixpoint half_of `{C : SegCodecs} (p_at : Z) (cs : list terms) : list BlockEntry :=
  match cs with
  | [] => []
  | c :: cs =>
    mkBlock (default [] (first_term_of (block c))) 0 0 0 (crc32 (block c))
      (Some (mkV2 (wrap 32 (len (block c))) p_at (wrap 32 (len (compress (deltas c))))
               (wrap 32 (len (deltas c))) (crc32 (deltas c))))
    :: half_of (p_at + len (compress (deltas c))) cs
  end.

Section Push.
Context {C : SegCodecs}.

Lemma v2_postings_spec p_off cs pre post out bs :
  foldl (v2_postings (pre ++ deltas (concat cs) ++ post) p_off) (out, bs) (raws_of (len pre) cs)
  = (out ++ postings_section Seg2 cs, bs ++ half_of (len out - p_off) cs).
Proof.
  revert pre out bs. induction cs as [|c cs IH]; intros pre out bs; simpl; [by rewrite !app_nil_r|].
  assert (raw_span (pre ++ deltas (c ++ concat cs) ++ post) (mkRaw (block c) (len pre) (len pre + lens_of c))
    = deltas c) as ->.
  { unfold raw_span. cbn [raw_start raw_end]. rewrite deltas_app, <- app_assoc, <- deltas_len, get_range_app. done. }
  rewrite deltas_app. replace (pre ++ (deltas c ++ deltas (concat cs)) ++ post)
    with ((pre ++ deltas c) ++ deltas (concat cs) ++ post) by by rewrite <- !app_assoc.
  rewrite <- deltas_len, <- len_app, IH. unfold postings_section. cbn [mbind list_bind].
  rewrite <- !app_assoc, len_app. cbn [app].
  by replace (len out + len (compress (deltas c)) - p_off) with (len out - p_off + len (compress (deltas c))) by lia.
Qed.

Lemma v2_dict_spec d_off cs base p_at out bs :
  foldl (v2_dict d_off) (out, bs) (zip (raws_of base cs) (half_of p_at cs))
  = (out ++ dict_section Seg2 cs, bs ++ blocks_of Seg2 (len out - d_off) p_at cs).
Proof.
  revert base p_at out bs. induction cs as [|c cs IH]; intros base p_at out bs; simpl; [by rewrite !app_nil_r|].
  rewrite IH. unfold dict_section. cbn [mbind list_bind]. rewrite <- !app_assoc, len_app. cbn [app].
  by replace (len out + len (compress (block c)) - d_off) with (len out - d_off + len (compress (block c))) by lia.
Qed.

(** A group's bytes and its directory entry, either layout. *)
Lemma push_group_index_spec w ix :
  small (ix_postings ix) →
  let cs := chunks (target_block_bytes w) (ix_postings ix) in
  push_group_index w ix
  = mkWriter (sw_out w ++ postings_section (sw_format w) cs ++ dict_section (sw_format w) cs)
      (sw_groups w ++ [group_of (sw_format w) (next_row w) (len (sw_out w)) ix cs])
      (wrap 32 (next_row w + ix_rows ix)) (target_block_bytes w) (sw_tokenizer w) (sw_format w).
Proof.
  intros Hs cs. unfold push_group_index. destruct (sw_format w) eqn:Ef.
  - unfold push_group_index_v1. rewrite push_terms by done. cbn [app]. rewrite v1_blocks_spec, Z.sub_diag.
    fold cs. rewrite Ef, <- (chunks_concat (target_block_bytes w) (ix_postings ix)). fold cs.
    rewrite deltas_concat. change (cs ≫= deltas) with (postings_section Seg1 cs).
    unfold group_of. rewrite <- !app_assoc. do 3 f_equal. f_equal; rewrite !len_app; lia.
  - unfold push_group_index_v2. rewrite push_terms by done. cbn [app]. rewrite v2_raw_blocks_spec. fold cs.
    pose proof (v2_postings_spec (len (sw_out w)) cs [] [] (sw_out w) []) as H.
    cbn [app] in H. rewrite app_nil_r, Z.sub_diag in H. unfold cs in H at 1. rewrite chunks_concat in H.
    change (len []) with 0 in H. rewrite H, v2_dict_spec, Z.sub_diag. cbn [app].
    rewrite Ef. unfold group_of. rewrite <- !app_assoc. do 3 f_equal. f_equal; rewrite !len_app; lia.
Qed.
End Push.

(** * The whole file *)

Section WholeFile.
Context {C : SegCodecs} (format : SegmentedFormat) (target : Z).

Definition cut (ix : InvertedIndex) : list terms := chunks (Z.max target 64) (ix_postings ix).

Definition section_of (ix : InvertedIndex) : bytes :=
  postings_section format (cut ix) ++ dict_section format (cut ix).

Fixpoint groups_of (row at_ : Z) (ixs : list InvertedIndex) : list GroupEntry :=
  match ixs with
  | [] => []
  | ix :: ixs => group_of format row at_ ix (cut ix) :: groups_of (row + ix_rows ix) (at_ + len (section_of ix)) ixs
  end.

Definition header : bytes := SEGMENTED_MAGIC ++ [version format].
Definition body (ixs : list InvertedIndex) : bytes := header ++ (ixs ≫= section_of).
Definition total_rows (ixs : list InvertedIndex) : Z := sumZ (ix_rows <$> ixs).

(** Every group pushed in order. *)
Definition written (t : Tokenizer) (ixs : list InvertedIndex) : SegmentedWriter :=
  foldl push_group_index (sw_with_tokenizer (with_format target format) t) ixs.

Lemma written_spec t ixs :
  Forall (λ ix, small (ix_postings ix)) ixs → Forall (λ ix, 0 ≤ ix_rows ix) ixs → total_rows ixs < 2 ^ 32 →
  written t ixs = mkWriter (body ixs) (groups_of 0 5 ixs) (total_rows ixs) (Z.max target 64) t format.
Proof.
  intros Hs Hr Hn. unfold written, total_rows in *.
  cut (∀ out gs row, 0 ≤ row → row + sumZ (ix_rows <$> ixs) < 2 ^ 32 →
    foldl push_group_index (mkWriter out gs row (Z.max target 64) t format) ixs
    = mkWriter (out ++ (ixs ≫= section_of)) (gs ++ groups_of row (len out) ixs) (row + sumZ (ix_rows <$> ixs))
        (Z.max target 64) t format).
  { intros H. specialize (H header [] 0). rewrite Z.add_0_l in H. by apply H. }
  clear Hn. induction Hs as [|ix ixs Hix Hs IH]; intros out gs row Hrow Hn.
  { simpl. by rewrite !app_nil_r, Z.add_0_r. }
  apply Forall_cons in Hr as [Hr0 Hr]. rewrite fmap_cons in *.
  change (sumZ (ix_rows ix :: (ix_rows <$> ixs))) with (ix_rows ix + sumZ (ix_rows <$> ixs)) in *.
  cbn [foldl mbind list_bind groups_of]. pose proof (sumZ_nonneg (ix_rows <$> ixs)) as Hpos.
  rewrite Forall_fmap in Hpos. specialize (Hpos Hr). rewrite push_group_index_spec by done.
  cbn [sw_out sw_groups next_row target_block_bytes sw_tokenizer sw_format]. fold (cut ix). fold (section_of ix).
  rewrite wrap_small by (unfold fits; lia). rewrite IH by (try done; lia).
  rewrite <- !app_assoc, len_app. cbn [app]. f_equal. lia.
Qed.
End WholeFile.
