(* ===== verification/SegDirectory.v ===== *)
(** The directory of a segmented blob, written and read back:
    [encode_directory], [append_directory_and_trailer] and
    [SegmentedDirectory::read] of [crates/loglake-index/src/segmented.rs].

    [groups_ok] says what the reader checks of a directory, one group after the
    other.  A directory that satisfies it survives the round trip, and any
    directory the reader accepts satisfies it. *)

From stdpp Require Import prelude sorting.
From Stdlib Require Import ZArith Lia.
From S2P Require Import Prelude RustStr BTree Cursor Leb128 Bloom Postings InvertedIndex.
From S2P Require Import SegBlock SegWriter SegReader SegGroup.

(** What the formats rely on: the checksum is a [u32]; a frame is never empty,
    and decompresses to what was compressed given room for it. *)
Class SegCodecLaws (C : SegCodecs) : Prop := {
  crc32_u32 bs : u32 (crc32 bs);
  compress_nonempty bs : compress bs ≠ [];
  decompress_compress bs cap : len bs ≤ cap → decompress (compress bs) cap = Some bs;
}.

Lemma slice_read_at pre mid post :
  len (pre ++ mid ++ post) < 2 ^ 64 → slice_read (pre ++ mid ++ post) (len pre) (len mid) = Some mid.
Proof.
  intros H. unfold slice_read, checked_add. rewrite !len_app in H.
  pose proof (len_nonneg pre). pose proof (len_nonneg mid). pose proof (len_nonneg post).
  rewrite (proj2 (Z.ltb_lt _ _)) by lia. cbn [mbind option_bind]. apply get_range_app.
Qed.

(** * Well-formed entries *)

Definition v2_ok (v : V2BlockEntry) : Prop :=
  u32 (raw_len v) ∧ u64 (v2_postings_offset v) ∧ u32 (v2_postings_len v) ∧ u32 (postings_raw_len v)
  ∧ u32 (postings_crc v).

Definition block_ok (format : SegmentedFormat) (b : BlockEntry) : Prop :=
  valid_str (first_term b) ∧ u64 (len (first_term b)) ∧ u32 (b_offset b) ∧ u32 (b_len b) ∧ u32 (b_crc b)
  ∧ match format with
    | Seg1 => u64 (postings_base b) ∧ b_v2 b = None
    | Seg2 => postings_base b = 0 ∧ ∃ v, b_v2 b = Some v ∧ v2_ok v
    end.

Fixpoint blocks_pass (format : SegmentedFormat) (gdl gpl : Z) (st : BlockScan) (bs : list BlockEntry)
    : option BlockScan :=
  match bs with
  | [] => Some st
  | b :: bs => st ← block_checks format gdl gpl st b; blocks_pass format gdl gpl st bs
  end.

(** One group against what the groups before it ended at. *)
Record group_ok (format : SegmentedFormat) (st : GroupScan) (g : GroupEntry) (st' : GroupScan) : Prop := {
  ok_first : first_row g = expected_first_row st;
  ok_rows : u32 (first_row g) ∧ u32 (g_rows g) ∧ first_row g + g_rows g < 2 ^ 32;
  ok_postings : postings_offset g = body_cursor st;
  ok_dict : dict_offset g = postings_offset g + postings_len g;
  ok_lens : 0 ≤ postings_offset g ∧ 0 ≤ postings_len g ∧ 0 ≤ dict_len g ∧ dict_offset g + dict_len g < 2 ^ 64;
  ok_blocks : Forall (block_ok format) (blocks g) ∧ u64 (len (blocks g));
  ok_scan : ∃ scan, blocks_pass format (dict_len g) (postings_len g) (mkScan None None 0 0) (blocks g) = Some scan
    ∧ (format = Seg2 → dict_cursor scan = dict_len g ∧ postings_cursor scan = postings_len g);
  ok_next : st' = mkGroupScan (first_row g + g_rows g) (dict_offset g + dict_len g);
}.

Inductive groups_ok (format : SegmentedFormat) : GroupScan → list GroupEntry → GroupScan → Prop :=
  | groups_ok_nil st : groups_ok format st [] st
  | groups_ok_cons st g st' gs st'' :
      group_ok format st g st' → groups_ok format st' gs st'' → groups_ok format st (g :: gs) st''.

(** * Round trip *)

Section RoundTrip.
Context (format : SegmentedFormat).

Lemma from_to_le4 z : u32 z → from_le (to_le 4 z) = z.
Proof. intros Hz. apply from_to_le. unfold fits in Hz. simpl. lia. Qed.

Lemma reads_block_fields b : block_ok format b → reads (decode_block_fields format) (encode_block_entry format b) b.
Proof.
  intros (Hv & Hl & Ho & Hlen & Hcrc & Hf). unfold decode_block_fields, encode_block_entry.
  eapply reads_bind; [by apply reads_seg_varint|]. eapply reads_bind; [by apply reads_take|].
  eapply reads_nil_bind; [by apply reads_opt, from_utf8_valid|].
  eapply reads_bind; [by apply reads_seg_u32|]. eapply reads_bind; [by apply reads_seg_u32|].
  destruct b as [ft off l base crc v2]. cbn [first_term b_offset b_len postings_base b_crc b_v2] in *. destruct format.
  - destruct Hf as [Hb ->]. eapply reads_bind; [by apply reads_seg_varint|].
    eapply reads_bind_nil; [apply reads_take; by rewrite len_to_le|]. rewrite from_to_le4 by done. apply reads_ret.
  - destruct Hf as (-> & v & -> & Hr & Hpo & Hpl & Hprl & Hpc). destruct v as [rl po pl prl pc].
    cbn [default from_option raw_len v2_postings_offset v2_postings_len postings_raw_len postings_crc] in *. cbv zeta.
    eapply reads_bind; [by apply reads_seg_u32|]. eapply reads_bind; [by apply reads_seg_varint|].
    eapply reads_bind; [by apply reads_seg_u32|]. eapply reads_bind; [by apply reads_seg_u32|].
    eapply reads_bind; [apply reads_take; by rewrite len_to_le|].
    eapply reads_bind_nil; [apply reads_take; by rewrite len_to_le|]. rewrite !from_to_le4 by done. apply reads_ret.
Qed.

Lemma reads_blocks gdl gpl bs st st' acc :
  Forall (block_ok format) bs → blocks_pass format gdl gpl st bs = Some st' →
  reads (decode_blocks (length bs) format gdl gpl st acc) (bs ≫= encode_block_entry format) (acc ++ bs, st').
Proof.
  intros Hok. revert st acc. induction Hok as [|b bs Hb _ IH]; intros st acc; simpl.
  { intros [= ->]. rewrite app_nil_r. apply reads_ret. }
  intros (st1 & Hc & Hp)%bind_Some. eapply reads_bind; [by apply reads_block_fields|].
  eapply reads_nil_bind; [by apply reads_opt|].
  replace (acc ++ b :: bs) with ((acc ++ [b]) ++ bs) by by rewrite <- app_assoc. by apply IH.
Qed.

Lemma encode_block_entry_pos b : block_ok format b → 1 ≤ len (encode_block_entry format b).
Proof.
  intros (_ & Hl & _). unfold encode_block_entry. rewrite !len_app. pose proof (write_varint_pos _ Hl).
  pose proof (len_nonneg (first_term b)). pose proof (len_nonneg (write_varint (b_offset b))).
  pose proof (len_nonneg (write_varint (b_len b))).
  match goal with |- 1 ≤ _ + (_ + (_ + (_ + len ?x))) => pose proof (len_nonneg x) end. lia.
Qed.

(** Every entry costs a byte, so the reader's count guards hold. *)
Lemma encoded_count {A} (f : A → bytes) l : Forall (λ x, 1 ≤ len (f x)) l → len l ≤ len (l ≫= f).
Proof.
  induction 1 as [|x l Hx _ IH]; [done|]. change ((x :: l) ≫= f) with (f x ++ (l ≫= f)).
  rewrite len_cons, len_app. lia.
Qed.

Lemma reads_group st g st' :
  group_ok format st g st' → reads (decode_group format st) (encode_group format g) (g, st').
Proof.
  intros [Hf (Hr1 & Hr2 & Hr3) Hp Hd (Hl1 & Hl2 & Hl3 & Hl4) [Hb Hn] (scan & Hs & Hcur) ->].
  unfold decode_group, encode_group.
  eapply reads_bind; [by apply reads_seg_u32|]. eapply reads_bind; [by apply reads_seg_u32|].
  do 4 (eapply reads_bind; [apply reads_seg_varint; unfold fits; lia|]).
  eapply reads_bind; [by apply reads_seg_varint|].
  eapply reads_nil_bind; [apply reads_guard; by apply Z.eqb_eq|]. rewrite <- Hf, <- Hp.
  eapply reads_nil_bind; [by apply reads_opt, checked_add_Some|].
  eapply reads_nil_bind; [apply reads_opt, checked_add_Some; split; [done|lia]|].
  eapply reads_nil_bind; [apply reads_guard; by rewrite Hd, !Z.eqb_refl|].
  eapply reads_nil_bind; [by apply reads_opt, checked_add_Some|].
  apply reads_remaining. intros r Hrem. eapply reads_nil_bind.
  { apply reads_guard, Z.leb_le. pose proof (encoded_count (encode_block_entry format) (blocks g)) as H.
    etransitivity; [apply H|done]. eapply Forall_impl; [exact Hb|apply encode_block_entry_pos]. }
  rewrite to_nat_len. eapply reads_bind_nil; [by apply (reads_blocks _ _ (blocks g) _ scan [])|]. simpl.
  eapply reads_nil_bind; [|destruct g; apply reads_ret].
  apply reads_guard. destruct format; [done|]. destruct Hcur as [-> ->]; [done|]. by rewrite !Z.eqb_refl.
Qed.

Lemma reads_groups gs st st' acc :
  groups_ok format st gs st' →
  reads (decode_groups (length gs) format st acc) (gs ≫= encode_group format) (acc ++ gs, st').
Proof.
  intros H. revert acc. induction H as [st|st g st1 gs st2 Hg _ IH]; intros acc; simpl.
  { rewrite app_nil_r. apply reads_ret. }
  eapply reads_bind; [by apply reads_group|]. simpl.
  replace (acc ++ g :: gs) with ((acc ++ [g]) ++ gs) by by rewrite <- app_assoc. apply IH.
Qed.

Lemma encode_group_pos st g st' : group_ok format st g st' → 1 ≤ len (encode_group format g).
Proof.
  intros [_ (Hr & _) _ _ _ _ _ _]. unfold encode_group. rewrite len_app. pose proof (write_varint_pos _ (u32_u64 _ Hr)).
  match goal with |- 1 ≤ _ + len ?x => pose proof (len_nonneg x) end. lia.
Qed.

Lemma groups_ok_count gs st st' : groups_ok format st gs st' → len gs ≤ len (gs ≫= encode_group format).
Proof.
  intros H. apply encoded_count. induction H; constructor; [by eapply encode_group_pos|done].
Qed.

Lemma parse_encode_directory n_rows gs at_ :
  u32 n_rows → groups_ok format (mkGroupScan 0 5) gs (mkGroupScan n_rows at_) →
  len (encode_directory n_rows gs format) < 2 ^ 64 →
  parse_directory format at_ (encode_directory n_rows gs format) = Some (n_rows, gs).
Proof.
  intros Hn Hok Hl. pose proof (groups_ok_count _ _ _ Hok) as Hc. unfold parse_directory.
  rewrite (reads_run _ _ (n_rows, gs, mkGroupScan n_rows at_)); [| |done].
  - unfold remaining, saturating_sub. cbn [buf pos]. rewrite Z.sub_diag. cbn [expected_first_row body_cursor].
    by rewrite !Z.eqb_refl.
  - unfold decode_directory, encode_directory in *. rewrite !len_app in Hl.
    pose proof (len_nonneg (write_varint n_rows)). pose proof (len_nonneg (write_varint (len gs))). pose proof (len_nonneg gs).
    eapply reads_bind; [by apply reads_seg_u32|]. eapply reads_bind; [apply reads_seg_varint; unfold fits; lia|].
    apply reads_remaining. intros r Hr. eapply reads_nil_bind; [apply reads_guard, Z.leb_le; lia|].
    rewrite to_nat_len. eapply reads_bind_nil; [by apply (reads_groups gs _ (mkGroupScan n_rows at_) [])|]. apply reads_ret.
Qed.
End RoundTrip.

(** The trailer, as its reader takes it apart. *)
Lemma parse_trailer_spec format off l crc :
  u64 off → u64 l → u32 crc →
  parse_trailer (to_le 8 off ++ to_le 8 l ++ to_le 4 crc ++ [version format] ++ SEGMENTED_MAGIC)
  = Some (format, off, l, crc).
Proof.
  intros Ho Hl Hc. unfold parse_trailer.
  assert (∀ z, u64 z → from_le (to_le 8 z) = z) as H8 by (intros z Hz; apply from_to_le; unfold fits in Hz; simpl; lia).
  assert (∀ n z (bs : bytes), take n (to_le n z ++ bs) = to_le n z) as Ht.
  { intros n z bs. rewrite <- (length_to_le n z) at 1. apply take_app_length. }
  assert (∀ n m z (bs : bytes), drop (n + m) (to_le n z ++ bs) = drop m bs) as Hd.
  { intros n m z bs. rewrite <- (length_to_le n z) at 1. apply drop_app_add. }
  assert (∀ n m z (bs : bytes), (to_le n z ++ bs) !! (n + m)%nat = bs !! m) as Hlk.
  { intros n m z bs. rewrite lookup_app_r by (rewrite length_to_le; lia).
    rewrite length_to_le. f_equal. lia. }
  rewrite (Hd 8%nat 13%nat), (Hd 8%nat 5%nat), (Hd 4%nat 1%nat). rewrite bool_decide_true by done.
  rewrite (Hlk 8%nat 12%nat), (Hlk 8%nat 4%nat), (Hlk 4%nat 0%nat), Ht, (Hd 8%nat 0%nat), drop_0, Ht.
  rewrite (Hd 8%nat 8%nat), (Hd 8%nat 0%nat), drop_0, Ht, !H8, from_to_le4 by done. by destruct format.
Qed.

Lemma directory_read_spec `{C : SegCodecs, !SegCodecLaws C} format out n_rows gs :
  let blob := append_directory_and_trailer out (encode_directory n_rows gs format) (version format) in
  u32 n_rows → 5 ≤ len out → groups_ok format (mkGroupScan 0 5) gs (mkGroupScan n_rows (len out)) →
  len blob < 2 ^ 64 →
  run (slice_read blob) (directory_read (len blob)) = Some (mkDirectory gs n_rows format (len blob)).
Proof.
  intros blob Hn Ho Hok Hl. set (dir := encode_directory n_rows gs format) in *.
  set (trailer := to_le 8 (len out) ++ to_le 8 (len dir) ++ to_le 4 (crc32 dir) ++ [version format] ++ SEGMENTED_MAGIC).
  assert (len trailer = SEGMENTED_TRAILER_LEN) as Ht by (unfold trailer; rewrite !len_app, !len_to_le; done).
  assert (len blob = len out + len dir + SEGMENTED_TRAILER_LEN) as Eb.
  { unfold blob, append_directory_and_trailer. fold trailer. rewrite !len_app, Ht. lia. }
  pose proof (len_nonneg dir) as Hd0. assert (SEGMENTED_TRAILER_LEN = 25) as E25 by done.
  unfold directory_read. rewrite (proj2 (Z.ltb_ge _ _)) by lia. rewrite run_bind. cbn [q_read run].
  replace (slice_read blob _ _) with (Some trailer).
  2: { symmetry. replace (len blob - SEGMENTED_TRAILER_LEN) with (len (out ++ dir)) by (rewrite len_app; lia).
    rewrite <- Ht. assert (blob = (out ++ dir) ++ trailer ++ []) as E by
      (unfold blob, append_directory_and_trailer; fold trailer; by rewrite app_nil_r, <- app_assoc).
    rewrite E in *. by apply slice_read_at. }
  cbn [mbind option_bind]. unfold trailer. rewrite parse_trailer_spec by (try apply crc32_u32; unfold fits; lia).
  fold trailer. unfold checked_add. rewrite (proj2 (Z.ltb_lt _ _)) by lia.
  rewrite (proj2 (Z.ltb_ge _ _)) by lia. rewrite (proj2 (Z.eqb_eq _ _)) by lia. cbn [negb orb].
  rewrite run_bind. cbn [q_read run]. assert (slice_read blob (len out) (len dir) = Some dir) as ->.
  { unfold blob, append_directory_and_trailer in *. by apply slice_read_at. }
  cbn [mbind option_bind]. rewrite Z.eqb_refl. cbn [negb]. unfold dir.
  rewrite parse_encode_directory by (try done; fold dir; lia). done.
Qed.

(** * Whatever is accepted tiles the file *)

(** The groups tile the rows and the body, and their blocks passed. *)
Inductive tiles (format : SegmentedFormat) : GroupScan → list GroupEntry → GroupScan → Prop :=
  | tiles_nil st : tiles format st [] st
  | tiles_cons g gs st scan :
      0 ≤ g_rows g → 0 ≤ postings_len g → 0 ≤ dict_len g →
      dict_offset g = postings_offset g + postings_len g →
      first_row g + g_rows g < 2 ^ 32 → dict_offset g + dict_len g < 2 ^ 64 →
      blocks_pass format (dict_len g) (postings_len g) (mkScan None None 0 0) (blocks g) = Some scan →
      tiles format (mkGroupScan (first_row g + g_rows g) (dict_offset g + dict_len g)) gs st →
      tiles format (mkGroupScan (first_row g) (postings_offset g)) (g :: gs) st.

Section Accepted.
Context (format : SegmentedFormat).

Lemma tiles_snoc st gs g scan :
  tiles format st gs (mkGroupScan (first_row g) (postings_offset g)) →
  0 ≤ g_rows g → 0 ≤ postings_len g → 0 ≤ dict_len g →
  dict_offset g = postings_offset g + postings_len g →
  first_row g + g_rows g < 2 ^ 32 → dict_offset g + dict_len g < 2 ^ 64 →
  blocks_pass format (dict_len g) (postings_len g) (mkScan None None 0 0) (blocks g) = Some scan →
  tiles format st (gs ++ [g]) (mkGroupScan (first_row g + g_rows g) (dict_offset g + dict_len g)).
Proof.
  intros H. remember (mkGroupScan (first_row g) (postings_offset g)) as e.
  induction H as [st|g' gs st scan' H1 H2 H3 H4 H5 H6 H7 _ IH]; subst; intros; simpl.
  - eapply tiles_cons; [done..|]. constructor.
  - eapply tiles_cons; [done..|]. by apply IH.
Qed.

Lemma ensures_block_fields : ensures (decode_block_fields format) (λ _, True).
Proof.
  unfold decode_block_fields. p_step as tl Htl. eapply ensures_bind; [apply ensures_take; unfold fits in Htl; lia|].
  intros tb _. p_step as ft Hft. p_step as off Ho. p_step as l Hl. destruct format.
  - p_step as base Hb. eapply ensures_bind; [by apply ensures_take|]. intros. by apply ensures_ret.
  - p_step as rl Hrl. p_step as po Hpo. p_step as pl Hpl. p_step as prl Hprl.
    eapply ensures_bind; [by apply ensures_take|]. intros.
    eapply ensures_bind; [by apply ensures_take|]. intros. by apply ensures_ret.
Qed.

Lemma blocks_pass_snoc gdl gpl st bs b st1 :
  blocks_pass format gdl gpl st bs = Some st1 →
  blocks_pass format gdl gpl st (bs ++ [b]) = block_checks format gdl gpl st1 b.
Proof.
  revert st. induction bs as [|x bs IH]; intros st; simpl.
  { intros [= ->]. by destruct (block_checks _ _ _ _ _). }
  intros (st2 & -> & H)%bind_Some. simpl. by apply IH.
Qed.

Lemma ensures_blocks n gdl gpl st0 st acc :
  blocks_pass format gdl gpl st0 acc = Some st →
  ensures (decode_blocks n format gdl gpl st acc)
    (λ '(bs, scan), blocks_pass format gdl gpl st0 bs = Some scan).
Proof.
  revert st acc. induction n as [|n IH]; intros st acc H; simpl; [by apply ensures_ret|].
  eapply ensures_bind; [apply ensures_block_fields|]. intros b _. p_step as st1 Hst1.
  apply IH. by rewrite (blocks_pass_snoc _ _ _ _ _ _ H).
Qed.

Lemma ensures_group st0 st acc :
  tiles format st0 acc st → 0 ≤ expected_first_row st → 0 ≤ body_cursor st →
  ensures (decode_group format st)
    (λ '(g, st'), tiles format st0 (acc ++ [g]) st' ∧ 0 ≤ expected_first_row st' ∧ 0 ≤ body_cursor st').
Proof.
  intros Ht He Hb. unfold decode_group.
  p_step as fr Hfr. p_step as rows Hrows. p_step as d_off Hdo. p_step as d_len Hdl. p_step as p_off Hpo.
  p_step as p_len Hpl. p_step as nb Hnb. p_step as u1 H1%Z.eqb_eq. p_step as ex Hex. p_step as pe Hpe.
  p_step as u2 H2. p_step as cur Hcur. p_step as rem Hrem. p_step as u3 H3.
  eapply ensures_bind; [by apply (ensures_blocks _ _ _ (mkScan None None 0 0) _ [])|]. intros [bs scan] Hs.
  p_step as u4 H4. apply ensures_ret. apply andb_true_iff in H2 as [Hpo'%Z.eqb_eq Hdo'%Z.eqb_eq].
  apply checked_add_Some in Hex as [-> Hex]. apply checked_add_Some in Hpe as [-> Hpe].
  apply checked_add_Some in Hcur as [-> Hcur]. unfold fits in *. subst p_off d_off fr. split.
  - apply (tiles_snoc _ _ (mkGroup (expected_first_row st) rows (body_cursor st + p_len) d_len (body_cursor st) p_len bs) scan);
      simpl; try done; try lia. by destruct st.
  - simpl. lia.
Qed.

Lemma ensures_groups n st0 st acc :
  tiles format st0 acc st → 0 ≤ expected_first_row st → 0 ≤ body_cursor st →
  ensures (decode_groups n format st acc) (λ '(gs, st'), tiles format st0 gs st').
Proof.
  revert st acc. induction n as [|n IH]; intros st acc Ht He Hb; simpl; [by apply ensures_ret|].
  eapply ensures_bind; [by apply (ensures_group st0 st acc)|]. intros [g st'] (? & ? & ?). by apply IH.
Qed.

Lemma parse_directory_tiles at_ dir n_rows gs :
  parse_directory format at_ dir = Some (n_rows, gs) →
  u32 n_rows ∧ tiles format (mkGroupScan 0 5) gs (mkGroupScan n_rows at_).
Proof.
  unfold parse_directory. destruct (decode_directory format (Cur dir 0)) as [[[[n gs'] st] c]|] eqn:E; [|done].
  destruct (_ || _) eqn:Eg; [done|]. intros [= -> ->].
  assert (ensures (decode_directory format) (λ '(n, gs, st), u32 n ∧ tiles format (mkGroupScan 0 5) gs st)) as H.
  { unfold decode_directory. p_step as n Hn. p_step as ng Hng. p_step as r Hr. p_step as u Hu.
    eapply ensures_bind; [apply (ensures_groups _ (mkGroupScan 0 5) _ []); [constructor|done|done]|].
    intros [gs' st'] Ht. by apply ensures_ret. }
  apply H in E as [[Hn Ht] _]; [|simpl; pose proof (len_nonneg dir); lia]. split; [done|].
  apply orb_false_iff in Eg as [[_ E1%negb_false_iff%Z.eqb_eq]%orb_false_iff E2%negb_false_iff%Z.eqb_eq].
  destruct st. simpl in *. by subst.
Qed.
End Accepted.
