(* ===== verification/SegServe.v ===== *)
(** What [SegmentedWriter] writes, [SegmentedReader] serves: a group's section
    anywhere inside a blob answers as the group's index does, for both layouts
    ([crates/loglake-index/src/segmented.rs]: the write side's loops against
    [read_block] and [read_postings]). *)

From stdpp Require Import prelude sorting.
From Stdlib Require Import ZArith Lia.
From S2P Require Import Prelude RustStr BTree Cursor Leb128 Bloom Postings InvertedIndex.
From S2P Require Import SegBlock SegWriter SegReader SegGroup SegQuery SegLayout SegDirectory.

(** * Postings *)

Lemma reads_next_posting g first prev r :
  0 ≤ prev → prev ≤ r → r < g_rows g → g_rows g < 2 ^ 32 → next_ok first prev r →
  reads (next_posting g first prev) (write_varint (r - prev)) r.
Proof.
  intros Hp Hle Hlt Hg Hnext. unfold next_posting.
  eapply reads_bind_nil; [apply reads_seg_u32; unfold fits; lia|].
  eapply reads_nil_bind.
  { apply reads_guard. destruct first; [done|]. simpl in *. by rewrite (proj2 (Z.eqb_neq _ _)) by lia. }
  eapply reads_nil_bind; [apply reads_opt; unfold checked_add; by rewrite (proj2 (Z.ltb_lt _ _)) by lia|].
  replace (prev + (r - prev)) with r by lia.
  eapply reads_nil_bind; [apply reads_guard; by apply Z.ltb_lt|]. apply reads_ret.
Qed.

Lemma decode_postings_spec g rows fuel first prev acc pre :
  0 ≤ prev → 0 ≤ first_row g → first_row g + g_rows g < 2 ^ 32 →
  ascending rows → Forall (next_ok first prev) rows → Forall (λ r, r < g_rows g) rows →
  (length rows ≤ fuel)%nat → len (pre ++ encode_deltas prev rows) < 2 ^ 64 →
  decode_postings fuel g first prev acc (Cur (pre ++ encode_deltas prev rows) (len pre))
  = Some (acc ++ shift (first_row g) rows).
Proof.
  intros Hp Hf0 Hf Hasc. revert fuel first prev acc pre Hp.
  induction Hasc as [|r rows Hasc IH Hr]; intros fuel first prev acc pre Hp Hnx Hall Hfuel Hlen.
  { unfold shift. simpl. rewrite !app_nil_r. destruct fuel; simpl; unfold remaining, saturating_sub; simpl;
      by rewrite Z.sub_diag. }
  apply Forall_cons in Hnx as [Hnext _]. apply Forall_cons in Hall as [Hlt Hall].
  assert (prev ≤ r) as Hle by (destruct first; simpl in Hnext; lia).
  cbn [encode_deltas] in *. rewrite (wrap_small 32 (r - prev)) in * by (unfold fits; lia).
  set (v := write_varint (r - prev)) in *. simpl in Hfuel. destruct fuel as [|fuel]; [lia|]. cbn [decode_postings].
  assert (1 ≤ len v) as Hv by (apply write_varint_pos; unfold fits; lia).
  assert ((remaining (Cur (pre ++ v ++ encode_deltas r rows) (len pre)) =? 0) = false) as ->.
  { apply Z.eqb_neq. unfold remaining, saturating_sub. simpl. rewrite !len_app.
    pose proof (len_nonneg (encode_deltas r rows)). lia. }
  rewrite (reads_next_posting g first prev r) by (try done; lia).
  rewrite wrap_small by (unfold fits; lia). rewrite app_assoc, <- len_app, (IH fuel false) by
    (try done; try lia; by rewrite <- app_assoc). unfold shift. simpl. by rewrite <- app_assoc.
Qed.

Lemma check_postings_spec g n rows t :
  first_row g + g_rows g < 2 ^ 32 → 0 ≤ first_row g → g_rows g = n → postings_ok n (t, rows) →
  len (encode_deltas 0 rows) < 2 ^ 64 →
  check_postings g (len rows) (encode_deltas 0 rows) = Some (shift (first_row g) rows).
Proof.
  intros Hf Hf0 <- (_ & Hne & Hasc & Hall) Hlen. unfold check_postings. simpl in *.
  rewrite (decode_postings_spec g rows _ true 0 [] []); try done.
  - cbn [mbind option_bind app]. rewrite bool_decide_false by (by destruct rows). unfold shift.
    rewrite len_fmap, Z.eqb_refl. done.
  - eapply Forall_impl; [exact Hall|]. simpl. lia.
  - eapply Forall_impl; [exact Hall|]. simpl. lia.
  - pose proof (encode_deltas_len 0 rows). unfold len in *. lia.
Qed.

(** * Where a block lies *)

Section Where.
Context {C : SegCodecs} (format : SegmentedFormat).

Lemma blocks_of_length d_at p_at cs : length (blocks_of format d_at p_at cs) = length cs.
Proof. revert d_at p_at. induction cs as [|c cs IH]; intros; simpl; [done|]. by rewrite IH. Qed.

Lemma blocks_of_lookup d_at p_at cs i b c :
  blocks_of format d_at p_at cs !! i = Some b → cs !! i = Some c →
  b = block_of format (d_at + len (dict_section format (take i cs)))
        (p_at + len (postings_section format (take i cs))) c.
Proof.
  revert d_at p_at i. induction cs as [|x cs IH]; intros d_at p_at [|i]; simpl; try done.
  - intros <-%(inj Some) <-%(inj Some). unfold dict_section, postings_section. simpl. by rewrite !Z.add_0_r.
  - intros Hb Hc. rewrite (IH _ _ _ Hb Hc). unfold dict_section, postings_section. cbn [take mbind list_bind].
    rewrite !len_app, !Z.add_assoc. done.
Qed.

Lemma blocks_of_at d_at p_at cs i c :
  cs !! i = Some c →
  blocks_of format d_at p_at cs !! i
  = Some (block_of format (d_at + len (dict_section format (take i cs)))
      (p_at + len (postings_section format (take i cs))) c).
Proof.
  intros Hc. destruct (lookup_lt_is_Some_2 (blocks_of format d_at p_at cs) i) as [b Hb].
  { rewrite blocks_of_length. by apply lookup_lt_Some in Hc. }
  rewrite Hb. f_equal. by apply blocks_of_lookup with (i := i).
Qed.

Lemma section_split (f : terms → bytes) (cs : list terms) i c :
  cs !! i = Some c → cs ≫= f = (take i cs ≫= f) ++ f c ++ (drop (S i) cs ≫= f).
Proof. intros Hi. rewrite <- (take_drop_middle cs i c Hi) at 1. by rewrite bind_app. Qed.
End Where.

(** * A group inside a blob *)

Section Serve.
Context {C : SegCodecs} {L : SegCodecLaws C} (d : SegmentedDirectory).
Context (pre post : bytes) (row : Z) (ix : InvertedIndex) (cs : list terms).
Context (format : SegmentedFormat) (Hformat : d_format d = format).
Local Abbreviation blob := (pre ++ postings_section format cs ++ dict_section format cs ++ post).
Local Abbreviation g := (group_of format row (len pre) ix cs).
Hypothesis Hblob : len blob < 2 ^ 32.
Hypothesis Hix : index_wf ix.
Hypothesis Hsmall : small (ix_postings ix).
Hypothesis Hcs : concat cs = ix_postings ix.
Hypothesis Hne : Forall (λ c, c ≠ []) cs.
Hypothesis Hrow : 0 ≤ row ∧ row + ix_rows ix < 2 ^ 32.

Section Block.
Context (i : nat) (c : terms).
Hypothesis Hi : cs !! i = Some c.

Lemma chunk_split : ix_postings ix = concat (take i cs) ++ c ++ concat (drop (S i) cs).
Proof. rewrite <- Hcs, <- (take_drop_middle cs i c Hi) at 1. by rewrite concat_app. Qed.

Lemma chunk_sizes : raw_size (concat (take i cs)) + raw_size c < 2 ^ 32.
Proof.
  unfold small in Hsmall. rewrite chunk_split, !raw_size_app in Hsmall.
  pose proof (raw_size_nonneg (concat (drop (S i) cs))). lia.
Qed.

Lemma chunk_small : small c.
Proof. unfold small. pose proof chunk_sizes. pose proof (raw_size_nonneg (concat (take i cs))). lia. Qed.

Lemma chunk_nonempty : c ≠ [].
Proof. rewrite Forall_forall in Hne. apply Hne. by eapply list_elem_of_lookup_2. Qed.

Lemma chunk_ok : Forall (postings_ok (ix_rows ix)) c.
Proof. destruct Hix as (_ & _ & H). rewrite chunk_split, !Forall_app in H. tauto. Qed.

Lemma chunk_entries : Forall entry_ok (entry_of <$> c).
Proof. by eapply entries_ok; [apply chunk_small|apply chunk_ok]. Qed.

Lemma chunk_terms_ok : terms_ok (entry_of <$> c).
Proof.
  split; [apply chunk_entries|]. destruct Hix as (_ & H & _). unfold bt_wf in H.
  rewrite chunk_split, !fmap_app in H. apply (sorted_app lex_lt) in H as (_ & H & _).
  apply (sorted_app lex_lt) in H as (H & _). by rewrite <- list_fmap_compose.
Qed.

Lemma chunk_block_len : len (block c) + lens_of c < 2 ^ 32.
Proof.
  pose proof chunk_small as Hs. unfold small in Hs. pose proof (len_terms_le c). pose proof (len_nonneg c).
  assert (len (block c) + lens_of c ≤ raw_size c); [|lia].
  apply block_le; [apply chunk_nonempty|apply chunk_entries|unfold fits; lia].
Qed.

Lemma lens_le_raw m : lens_of m ≤ raw_size m.
Proof.
  induction m as [|tr m IH]; [done|]. change (tr :: m) with ([tr] ++ m). rewrite lens_of_app, raw_size_app.
  assert (lens_of [tr] ≤ raw_size [tr]); [|lia]. unfold lens_of, raw_size. simpl. pose proof (len_nonneg tr.1). lia.
Qed.

Local Abbreviation d_at := (len (dict_section format (take i cs))).
Local Abbreviation p_at := (len (postings_section format (take i cs))).

(** The stored block and postings, as slices of the blob. *)
Lemma read_dict :
  slice_read blob (wrap 64 (dict_offset g + d_at)) (len (stored format (block c))) = Some (stored format (block c)).
Proof.
  set (s := stored format (block c)).
  assert (blob = (pre ++ postings_section format cs ++ dict_section format (take i cs)) ++ s
    ++ (drop (S i) cs ≫= λ c, stored format (block c)) ++ post) as E.
  { unfold dict_section at 1. rewrite (section_split _ cs i c Hi), <- !app_assoc. done. }
  rewrite wrap_small.
  - rewrite E in *. simpl. rewrite <- Z.add_assoc, <- !len_app. apply slice_read_at. lia.
  - rewrite E, !len_app in Hblob. unfold fits. simpl. pose proof (len_nonneg s). pose proof (len_nonneg post).
    pose proof (len_nonneg pre). pose proof (len_nonneg (postings_section format cs)).
    pose proof (len_nonneg (dict_section format (take i cs))).
    pose proof (len_nonneg (drop (S i) cs ≫= λ c, stored format (block c))). lia.
Qed.

Lemma read_section (a s b : bytes) off :
  postings_section format cs = a ++ s ++ b → off = len a →
  slice_read blob (wrap 64 (postings_offset g + off)) (len s) = Some s.
Proof.
  intros E ->. assert (blob = (pre ++ a) ++ s ++ b ++ dict_section format cs ++ post) as E'.
  { rewrite E, <- !app_assoc. done. }
  rewrite wrap_small.
  - rewrite E' in *. simpl. rewrite <- len_app. apply slice_read_at. lia.
  - rewrite E', !len_app in Hblob. unfold fits. simpl. pose proof (len_nonneg s). pose proof (len_nonneg post).
    pose proof (len_nonneg pre). pose proof (len_nonneg a). pose proof (len_nonneg b).
    pose proof (len_nonneg (dict_section format cs)). lia.
Qed.

Lemma stored_len_u32 bs : (∃ a b, blob = a ++ stored format bs ++ b) → u32 (len (stored format bs)).
Proof.
  intros (a & b & E). rewrite E, !len_app in Hblob. unfold fits.
  pose proof (len_nonneg (stored format bs)). pose proof (len_nonneg a). pose proof (len_nonneg b). lia.
Qed.

Lemma stored_dict_u32 : u32 (len (stored format (block c))).
Proof.
  apply stored_len_u32. exists (pre ++ postings_section format cs ++ dict_section format (take i cs)),
    ((drop (S i) cs ≫= λ c, stored format (block c)) ++ post).
  unfold dict_section at 1. rewrite (section_split _ cs i c Hi), <- !app_assoc. done.
Qed.

Lemma stored_postings_u32 : u32 (len (stored format (deltas c))).
Proof.
  apply stored_len_u32. exists (pre ++ postings_section format (take i cs)),
    ((drop (S i) cs ≫= λ c, stored format (deltas c)) ++ dict_section format cs ++ post).
  unfold postings_section at 1. rewrite (section_split _ cs i c Hi), <- !app_assoc. done.
Qed.

Lemma postings_len_u32 : u32 (len (postings_section format cs)).
Proof.
  rewrite !len_app in Hblob. unfold fits. pose proof (len_nonneg (postings_section format cs)).
  pose proof (len_nonneg pre). pose proof (len_nonneg post). pose proof (len_nonneg (dict_section format cs)). lia.
Qed.

Lemma d_at_u32 : u32 d_at.
Proof.
  assert (len (dict_section format (take i cs)) ≤ len blob) as H.
  { unfold dict_section at 2. rewrite (section_split _ cs i c Hi), !len_app.
    fold (dict_section format (take i cs)). pose proof (len_nonneg pre). pose proof (len_nonneg post).
    pose proof (len_nonneg (postings_section format cs)). pose proof (len_nonneg (stored format (block c))).
    pose proof (len_nonneg (drop (S i) cs ≫= λ c, stored format (block c))). lia. }
  unfold fits. pose proof (len_nonneg (dict_section format (take i cs))). lia.
Qed.

Lemma read_block_spec : run (slice_read blob) (read_block d g (block_of format d_at p_at c)) = Some (block c).
Proof.
  pose proof read_dict as Hr. pose proof chunk_block_len. pose proof (lens_of_nonneg c). pose proof (len_nonneg (block c)).
  assert (u32 (len (block c))) as Hu by (unfold fits; lia). pose proof stored_dict_u32 as Hs. pose proof d_at_u32 as Hd.
  set (B := blob) in *. clearbody B. unfold read_block. rewrite Hformat, run_bind. unfold block_of.
  destruct format; cbn [b_offset b_len b_v2 b_crc run q_read stored raw_len mbind option_bind] in *;
    rewrite (wrap_small 32 (len (dict_section _ _))), (wrap_small 32 (len (block c))) by done.
  - rewrite Hr. cbn [mbind option_bind]. by rewrite !Z.eqb_refl.
  - rewrite (wrap_small 32 (len (compress (block c)))), Hr by done. cbn [mbind option_bind].
    rewrite decompress_compress by lia. cbn [mbind option_bind].
    by rewrite !Z.eqb_refl.
Qed.

(** A term's slice of the postings: within the section for seg1, within the
    block's span for seg2. *)
Lemma read_postings_spec a tr b :
  c = a ++ tr :: b →
  run (slice_read blob) (read_postings d g
    (mkHit i (scan_base d (block_of format d_at p_at c) + lens_of a) (te_len (entry_of tr)) (te_df (entry_of tr))))
  = Some (shift row tr.2).
Proof.
  intros Hc. pose proof chunk_ok as Hok. rewrite Hc, Forall_app, Forall_cons in Hok. destruct Hok as (_ & Htr & _).
  pose proof chunk_block_len as Hcl. pose proof (len_nonneg (block c)). pose proof (lens_of_nonneg a).
  assert (deltas c = deltas a ++ encode_deltas 0 tr.2 ++ deltas b) as Ed by by rewrite Hc, deltas_app.
  assert (lens_of a + len (encode_deltas 0 tr.2) ≤ lens_of c) as Hle.
  { rewrite <- !deltas_len, Ed, !len_app. pose proof (len_nonneg (deltas b)). lia. }
  pose proof (len_nonneg (encode_deltas 0 tr.2)) as Hn.
  assert (check_postings g (len tr.2) (encode_deltas 0 tr.2) = Some (shift row tr.2)) as Hcheck.
  { apply (check_postings_spec g (ix_rows ix) tr.2 tr.1); simpl; [lia|lia|done|by destruct tr|lia]. }
  unfold read_postings, scan_base. rewrite Hformat. cbn [h_offset h_len h_df h_block].
  pose proof stored_postings_u32 as Hsu. pose proof read_section as Hsec. pose proof postings_len_u32 as Hpl. set (B := blob) in *. clearbody B.
  destruct format; cbn [block_of postings_base te_len te_df entry_of].
  - pose proof (section_split deltas cs i c Hi) as Es. rewrite Ed in Es.
    set (rest := drop (S i) cs ≫= deltas) in Es. change (take i cs ≫= deltas) with (postings_section Seg1 (take i cs)) in Es.
    change (cs ≫= deltas) with (postings_section Seg1 cs) in Es. rewrite <- !app_assoc, (app_assoc _ (deltas a)) in Es.
    assert (len (postings_section Seg1 (take i cs)) + lens_of a + len (encode_deltas 0 tr.2)
      ≤ len (postings_section Seg1 cs)) as Hp.
    { rewrite Es, !len_app, deltas_len. pose proof (len_nonneg (deltas b)). pose proof (len_nonneg rest). lia. }
    pose proof (len_nonneg (postings_section Seg1 (take i cs))). unfold fits in Hpl.
    rewrite (wrap_small 64) by (unfold fits; lia). rewrite (proj2 (Z.ltb_ge _ _)) by (simpl; lia).
    rewrite run_bind. cbn [q_read run]. rewrite (Hsec _ _ _ _ Es) by by rewrite len_app, deltas_len.
    cbn [mbind option_bind]. exact Hcheck.
  - rewrite Z.add_0_l. unfold group_of at 1. cbn [blocks]. rewrite (blocks_of_at Seg2 0 0 cs i c Hi).
    unfold block_of. cbn [mbind option_bind b_v2 postings_raw_len v2_postings_offset v2_postings_len postings_crc].
    assert (u32 (len (deltas c))) as Hu by (rewrite deltas_len; unfold fits; lia).
    rewrite (wrap_small 32 (len (deltas c))), (wrap_small 32 (len (compress (deltas c)))) by done.
    rewrite (wrap_small 64 (lens_of a + _)) by (unfold fits; lia).
    rewrite (proj2 (Z.ltb_ge _ _)) by (rewrite deltas_len; lia).
    rewrite run_bind. cbn [q_read run]. rewrite (Hsec _ _ _ _ (section_split _ cs i c Hi)) by apply Z.add_0_l.
    cbn [mbind option_bind stored]. rewrite decompress_compress by lia. cbn [mbind option_bind].
    rewrite !Z.eqb_refl. cbn [negb orb]. rewrite Ed, <- deltas_len, get_range_app. exact Hcheck.
Qed.

Lemma block_serves_at :
  block_serves (slice_read blob) d g i (block_of format d_at p_at c) c.
Proof.
  pose proof chunk_block_len as Hcl. pose proof (lens_of_nonneg c) as Hl0. pose proof (len_nonneg (block c)) as Hb0.
  split.
  - assert (first_term (block_of format d_at p_at c) = default [] (first_term_of (block c))) as -> by by destruct format.
    pose proof chunk_entries as He. pose proof chunk_nonempty as Hn. unfold block in *. destruct c as [|[t rows] c']; [done|].
    change (entry_of <$> (t, rows) :: c') with (entry_of (t, rows) :: (entry_of <$> c')) in *.
    rewrite first_term_of_encode by (try done; lia). done.
  - apply read_block_spec.
  - apply chunk_terms_ok.
  - unfold lens_fit, scan_base. rewrite Hformat. fold (lens_of c). destruct format; cbn [block_of postings_base]; [|lia].
    change (len (postings_section Seg1 (take i cs))) with (len (take i cs ≫= deltas)).
    rewrite <- deltas_concat, deltas_len. pose proof chunk_sizes. pose proof (lens_le_raw (concat (take i cs))).
    pose proof (lens_le_raw c). pose proof (lens_of_nonneg (concat (take i cs))). lia.
  - fold (block c). lia.
  - apply read_postings_spec.
Qed.

(** ** The directory's view of the block *)

Lemma block_first : ∃ t rows c', c = (t, rows) :: c' ∧ first_term (block_of format d_at p_at c) = t ∧ valid_str t
  ∧ u64 (len t).
Proof.
  pose proof chunk_block_len. pose proof (lens_of_nonneg c).
  assert (first_term (block_of format d_at p_at c) = default [] (first_term_of (block c))) as E by by destruct format.
  pose proof chunk_entries as He. pose proof chunk_nonempty as Hn. destruct c as [|[t rows] c']; [done|].
  exists t, rows, c'. split; [done|]. rewrite E. unfold block in *.
  change (entry_of <$> (t, rows) :: c') with (entry_of (t, rows) :: (entry_of <$> c')) in *.
  rewrite first_term_of_encode by (try done; lia). apply Forall_cons in He as [(? & ? & _) _]. done.
Qed.

Lemma p_at_u32 : u32 p_at.
Proof.
  pose proof postings_len_u32 as [_ Hp]. unfold fits. unfold postings_section in Hp.
  rewrite (section_split _ cs i c Hi) in Hp.
  unfold postings_section. rewrite !len_app in Hp.
  pose proof (len_nonneg (take i cs ≫= λ c, stored format (deltas c))).
  pose proof (len_nonneg (stored format (deltas c))).
  pose proof (len_nonneg (drop (S i) cs ≫= λ c, stored format (deltas c))). lia.
Qed.

Lemma block_ok_at : block_ok format (block_of format d_at p_at c).
Proof.
  destruct block_first as (t & rows & c' & _ & Hf & Hv & Hu). unfold block_ok. rewrite Hf.
  pose proof (crc32_u32 (block c)). pose proof (crc32_u32 (deltas c)). pose proof (u32_u64 _ p_at_u32).
  clear Hf. destruct format; cbn [block_of b_offset b_len b_crc postings_base b_v2].
  - split_and!; try done; by apply wrap_fits.
  - split_and!; try done; try by apply wrap_fits. eexists. split; [done|]. split_and!; try done; by apply wrap_fits.
Qed.

Lemma deltas_pos : 1 ≤ len (deltas c).
Proof.
  pose proof chunk_ok as Hok. pose proof chunk_nonempty as Hn. destruct c as [|[t rows] c']; [done|].
  apply Forall_cons in Hok as [(_ & Hne' & _) _]. simpl in Hne'.
  change (deltas ((t, rows) :: c')) with (encode_deltas 0 rows ++ deltas c'). rewrite len_app.
  pose proof (encode_deltas_len 0 rows). pose proof (len_nonneg (deltas c')).
  destruct rows; [done|]. rewrite len_cons in *. pose proof (len_nonneg rows). lia.
Qed.

Lemma block_pos : 1 ≤ len (block c).
Proof.
  unfold block, encode_block. rewrite len_app, len_fmap. pose proof (len_nonneg (encode_entries [] (entry_of <$> c))).
  pose proof chunk_small as Hs. unfold small in Hs. pose proof (len_terms_le c). pose proof (len_nonneg c).
  assert (1 ≤ len (write_varint (len c))); [|lia]. apply write_varint_pos. unfold fits. lia.
Qed.

Lemma stored_pos bs : 1 ≤ len bs → 1 ≤ len (stored format bs).
Proof.
  intros H. destruct format; [done|]. cbn [stored]. pose proof (compress_nonempty bs).
  destruct (compress bs); [done|]. rewrite len_cons. pose proof (len_nonneg l). lia.
Qed.

(** The block passes the directory's checks after the blocks before it. *)
Definition scan_ready (st : BlockScan) : Prop :=
  (∀ p, previous_term st = Some p → Forall (lex_lt p) c.*1)
  ∧ match format with
    | Seg1 => match previous_base st with None => p_at = 0 | Some p => p < p_at end
    | Seg2 => dict_cursor st = d_at ∧ postings_cursor st = p_at
    end.

Lemma block_checks_pass st :
  scan_ready st →
  block_checks format (dict_len g) (postings_len g) st (block_of format d_at p_at c)
  = Some (mkScan (Some (first_term (block_of format d_at p_at c)))
      (match format with Seg1 => Some p_at | Seg2 => previous_base st end)
      (match format with Seg1 => dict_cursor st | Seg2 => d_at + len (stored format (block c)) end)
      (match format with Seg1 => postings_cursor st | Seg2 => p_at + len (stored format (deltas c)) end)).
Proof.
  intros [Hprev Hst]. destruct block_first as (t & rows & c' & Hc & Hf & _). unfold block_checks.
  assert (match previous_term st with Some p => lex_leb (first_term (block_of format d_at p_at c)) p | None => false end
    = false) as ->.
  { destruct (previous_term st) as [p|]; [|done]. specialize (Hprev p eq_refl). rewrite Hc in Hprev.
    apply Forall_cons in Hprev as [Hp _]. rewrite Hf. by apply lex_leb_false. }
  clear Hf Hprev. pose proof chunk_block_len. pose proof (lens_of_nonneg c). pose proof (len_nonneg (block c)).
  pose proof d_at_u32 as Hd. pose proof p_at_u32 as Hp. pose proof stored_dict_u32 as Hsd.
  pose proof stored_postings_u32 as Hsp. pose proof block_pos as Hbp. pose proof deltas_pos as Hdp.
  pose proof (stored_pos _ Hbp). pose proof (stored_pos _ Hdp).
  pose proof (section_split (λ c, stored format (block c)) cs i c Hi) as E1.
  pose proof (section_split (λ c, stored format (deltas c)) cs i c Hi) as E2.
  fold (dict_section format cs) (dict_section format (take i cs)) in E1.
  fold (postings_section format cs) (postings_section format (take i cs)) in E2.
  apply (f_equal len) in E1, E2. rewrite !len_app in E1, E2.
  pose proof (len_nonneg (drop (S i) cs ≫= λ c, stored format (block c))).
  pose proof (len_nonneg (drop (S i) cs ≫= λ c, stored format (deltas c))).
  cbn [group_of dict_len postings_len]. clear Hblob. unfold fits in *. destruct format;
    cbn [block_of b_offset b_len b_v2 postings_base first_term stored] in *; rewrite (wrap_small 32 (len (dict_section _ _))) by done.
  - rewrite wrap_small by (unfold fits; lia). unfold checked_add. rewrite (proj2 (Z.ltb_lt _ _)) by lia.
    cbn [mbind option_bind]. rewrite (proj2 (Z.ltb_ge _ _)) by lia. rewrite (proj2 (Z.leb_gt _ _)) by lia.
    destruct (previous_base st); [rewrite (proj2 (Z.ltb_lt _ _)) by lia|rewrite Hst]; done.
  - destruct Hst as [-> ->]. cbn [mbind option_bind raw_len v2_postings_len postings_raw_len v2_postings_offset].
    rewrite deltas_len in *. rewrite !wrap_small by (unfold fits; lia). rewrite !Z.eqb_refl.
    rewrite !(proj2 (Z.eqb_neq _ 0)) by lia. cbn [negb orb]. unfold checked_add.
    rewrite !(proj2 (Z.ltb_lt _ _)) by lia. done.
Qed.
End Block.

(** The scan's state once the first [i] blocks are read. *)
Definition scan_inv (i : nat) (st : BlockScan) : Prop :=
  (∀ p, previous_term st = Some p → Forall (lex_lt p) (concat (drop i cs)).*1)
  ∧ match format with
    | Seg1 => match previous_base st with
              | None => len (postings_section format (take i cs)) = 0
              | Some p => p < len (postings_section format (take i cs))
              end
    | Seg2 => dict_cursor st = len (dict_section format (take i cs))
              ∧ postings_cursor st = len (postings_section format (take i cs))
    end.

Lemma section_S (f : terms → bytes) i c :
  cs !! i = Some c → len (take (S i) cs ≫= f) = len (take i cs ≫= f) + len (f c).
Proof. intros Hi. rewrite (take_S_r _ _ _ Hi), bind_app, len_app. cbn [mbind list_bind]. by rewrite app_nil_r. Qed.

Lemma blocks_pass_all rest i st :
  drop i cs = rest → scan_inv i st →
  ∃ st', blocks_pass format (dict_len g) (postings_len g) st
      (blocks_of format (len (dict_section format (take i cs))) (len (postings_section format (take i cs))) rest)
    = Some st' ∧ scan_inv (i + length rest) st'.
Proof.
  revert i st. induction rest as [|c rest IH]; intros i st Hd Hinv.
  { exists st. rewrite Nat.add_0_r. done. }
  assert (cs !! i = Some c) as Hi by (rewrite <- (Nat.add_0_r i), <- lookup_drop, Hd; done).
  assert (drop (S i) cs = rest) as Hd' by (rewrite <- Nat.add_1_r, <- drop_drop, Hd; done).
  assert (∀ t, t ∈ c.*1 → Forall (lex_lt t) (concat (drop (S i) cs)).*1) as Hlt.
  { intros t Ht. destruct Hix as (_ & Hwf & _). unfold bt_wf in Hwf. rewrite (chunk_split i c Hi), !fmap_app in Hwf.
    apply (sorted_app lex_lt) in Hwf as (_ & Hwf & _). apply (sorted_app lex_lt) in Hwf as (_ & _ & Hwf).
    apply Forall_forall. intros x Hx. by apply Hwf. }
  destruct Hinv as [Hprev Hcur]. cbn [blocks_of blocks_pass]. rewrite (block_checks_pass i c Hi).
  2: { split; [|done]. intros p Hp. specialize (Hprev p Hp). rewrite Hd in Hprev. cbn [concat] in Hprev.
    rewrite fmap_app in Hprev. by apply Forall_app in Hprev as [? _]. }
  pose proof (section_S (λ c, stored format (deltas c)) i c Hi) as Ep.
  pose proof (section_S (λ c, stored format (block c)) i c Hi) as Eb.
  fold (postings_section format (take (S i) cs)) (postings_section format (take i cs)) in Ep.
  fold (dict_section format (take (S i) cs)) (dict_section format (take i cs)) in Eb.
  cbn [mbind option_bind]. rewrite <- Ep, <- Eb.
  replace (i + length (c :: rest))%nat with (S i + length rest)%nat by (simpl; lia). apply IH; [done|]. split.
  - intros p [= <-]. destruct (block_first i c Hi) as (t & rows & c' & Hc & -> & _). apply Hlt. rewrite Hc. left.
  - pose proof (stored_pos _ (deltas_pos i c Hi)). clear Hprev Hblob Hcur.
    destruct format; cbn [previous_base dict_cursor postings_cursor]; [lia|done].
Qed.

Lemma group_of_ok :
  0 ≤ len pre →
  group_ok format (mkGroupScan row (len pre)) g
    (mkGroupScan (row + ix_rows ix) (len (pre ++ postings_section format cs ++ dict_section format cs))).
Proof.
  intros Hpre. pose proof Hblob as Hb. rewrite !len_app in Hb. pose proof (len_nonneg post).
  pose proof (len_nonneg (postings_section format cs)). pose proof (len_nonneg (dict_section format cs)).
  destruct Hix as (Hr & _). unfold fits in Hr. split; cbn [group_of first_row g_rows postings_offset dict_offset postings_len dict_len blocks expected_first_row body_cursor]; try done.
  - unfold fits. lia.
  - lia.
  - split.
    + apply Forall_lookup. intros i b Hi. destruct (lookup_lt_is_Some_2 cs i) as [c Hc].
      { rewrite <- (blocks_of_length format 0 0 cs). by apply lookup_lt_Some in Hi. }
      rewrite (blocks_of_lookup _ _ _ _ _ _ _ Hi Hc). by apply block_ok_at.
    + unfold len, fits. rewrite blocks_of_length. fold (len cs). pose proof (len_nonneg cs).
      pose proof (encoded_count (λ c, stored format (deltas c)) cs) as Hc. unfold postings_section in *.
      assert (len cs ≤ len (cs ≫= λ c, stored format (deltas c))); [|lia]. apply Hc. apply Forall_lookup.
      intros i c Hi. apply stored_pos. by eapply deltas_pos.
  - destruct (blocks_pass_all cs 0 (mkScan None None 0 0)) as (st' & Hp & _ & Hcur); [done| |].
    { split; [done|]. by destruct format. }
    exists st'. split; [done|]. intros ->. simpl in Hcur. rewrite firstn_all in Hcur. done.
  - f_equal. rewrite !len_app. lia.
Qed.

Lemma group_of_serves : group_serves (slice_read blob) d g (ix_postings ix).
Proof.
  destruct Hix as (_ & Hwf & _). split; [done|]. exists cs. split; [done|].
  split; [apply blocks_of_length|]. intros i b c Hb Hc. cbn [group_of blocks] in Hb.
  rewrite (blocks_of_lookup _ _ _ _ _ _ _ Hb Hc). by apply block_serves_at.
Qed.
End Serve.
