(* ===== verification/SegCorrect.v ===== *)
(** The segmented index end to end ([crates/loglake-index/src/segmented.rs]):
    the blob [SegmentedWriter] finishes, opened by [SegmentedReader], answers
    every lookup as the rows demand, in either layout and under any row-group
    selection; and over any bytes at all an answer stays inside the file. *)

From stdpp Require Import prelude sorting strings.
From Stdlib Require Import ZArith Lia.
From S2P Require Import Prelude RustStr BTree Cursor Leb128 Bloom Postings RowSelection InvertedIndex.
From S2P Require Import SegBlock SegWriter SegReader SegGroup SegQuery SegClip SegLayout SegDirectory SegServe.

(** * The writer's file *)

Section WholeFile.
Context {C : SegCodecs} {L : SegCodecLaws C} (format : SegmentedFormat) (target : Z).

Lemma cut_concat ix : concat (cut target ix) = ix_postings ix.
Proof. apply chunks_concat. Qed.

Lemma cut_nonempty ix : Forall (λ c, c ≠ []) (cut target ix).
Proof. apply chunk_from_nonempty. Qed.

(** A group of the file, at its place in the blob. *)
Lemma groups_of_lookup row at_ ixs i g :
  groups_of format target row at_ ixs !! i = Some g →
  ∃ ix, ixs !! i = Some ix
    ∧ g = group_of format (row + base_of ixs i) (at_ + len (take i ixs ≫= section_of format target)) ix (cut target ix).
Proof.
  revert row at_ i. induction ixs as [|ix ixs IH]; intros row at_ [|i]; simpl; try done.
  - intros [= <-]. exists ix. split; [done|]. unfold base_of. simpl. by rewrite !Z.add_0_r.
  - intros (ix' & Hi & ->)%IH. exists ix'. split; [done|].
    change (take (S i) (ix :: ixs) ≫= section_of format target)
      with (section_of format target ix ++ (take i ixs ≫= section_of format target)).
    rewrite len_app. unfold base_of. cbn [take fmap list_fmap]. simpl. by rewrite !Z.add_assoc.
Qed.

Lemma groups_of_length row at_ ixs : length (groups_of format target row at_ ixs) = length ixs.
Proof. revert row at_. induction ixs as [|ix ixs IH]; intros; simpl; [done|]. by rewrite IH. Qed.

Lemma group_rows_of row at_ ixs : g_rows <$> groups_of format target row at_ ixs = ix_rows <$> ixs.
Proof. revert row at_. induction ixs as [|ix ixs IH]; intros; simpl; [done|]. by rewrite IH. Qed.

Context (ixs : list InvertedIndex).
Hypothesis Hwf : Forall index_wf ixs.
Hypothesis Hsmall : Forall (λ ix, small (ix_postings ix)) ixs.
Hypothesis Hrows : total_rows ixs < 2 ^ 32.

Lemma base_of_le i : base_of ixs i + ix_rows (ix_at ixs i) ≤ total_rows ixs.
Proof.
  pose proof (base_of_S ixs i) as E. rewrite <- E. unfold base_of, total_rows.
  rewrite <- (take_drop (S i) ixs) at 2. rewrite fmap_app, sumZ_app.
  assert (0 ≤ sumZ (ix_rows <$> drop (S i) ixs)); [|lia]. apply sumZ_nonneg, Forall_fmap.
  eapply Forall_impl; [apply Forall_drop, Hwf|]. intros ix [H _]. unfold fits in H. simpl. lia.
Qed.

Lemma base_of_nonneg i : 0 ≤ base_of ixs i.
Proof.
  unfold base_of. apply sumZ_nonneg, Forall_fmap. eapply Forall_impl; [apply Forall_take, Hwf|].
  intros ix [H _]. unfold fits in H. simpl. lia.
Qed.

(** What is known of group [i] for any blob that starts with the body. *)
Lemma group_at_body rest i g :
  len (body format target ixs ++ rest) < 2 ^ 32 →
  groups_of format target 0 5 ixs !! i = Some g →
  ∃ ix pre post, ixs !! i = Some ix ∧ g = group_of format (base_of ixs i) (len pre) ix (cut target ix)
    ∧ len pre = 5 + len (take i ixs ≫= section_of format target)
    ∧ body format target ixs ++ rest
      = pre ++ postings_section format (cut target ix) ++ dict_section format (cut target ix) ++ post
    ∧ index_wf ix ∧ small (ix_postings ix) ∧ 0 ≤ base_of ixs i ∧ base_of ixs i + ix_rows ix < 2 ^ 32.
Proof.
  intros Hl (ix & Hi & ->)%groups_of_lookup.
  exists ix, (header format ++ (take i ixs ≫= section_of format target)),
    ((drop (S i) ixs ≫= section_of format target) ++ rest).
  assert (len (header format ++ (take i ixs ≫= section_of format target))
    = 5 + len (take i ixs ≫= section_of format target)) as Ep by (rewrite len_app; by destruct format).
  pose proof (Forall_lookup_1 _ _ _ _ Hwf Hi). pose proof (Forall_lookup_1 _ _ _ _ Hsmall Hi).
  pose proof (base_of_le i) as Hb. unfold ix_at in Hb. rewrite Hi in Hb. simpl in Hb.
  split; [done|]. split; [by rewrite Ep, Z.add_0_l|]. split; [done|]. split_and!; auto using base_of_nonneg; [|lia].
  unfold body. rewrite <- (take_drop_middle ixs i ix Hi) at 1. rewrite bind_app. cbn [mbind list_bind].
  unfold section_of at 2. by rewrite <- !app_assoc.
Qed.

Lemma writer_file_serves rest d :
  len (body format target ixs ++ rest) < 2 ^ 32 →
  d_groups d = groups_of format target 0 5 ixs → d_rows d = total_rows ixs → d_format d = format →
  file_serves (slice_read (body format target ixs ++ rest)) d ixs.
Proof.
  intros Hl Hg Hn Hf. split; [by rewrite Hg, groups_of_length|done| |].
  - rewrite Hn. unfold base_of, total_rows. by rewrite firstn_all.
  - intros i g Hi. rewrite Hg in Hi.
    destruct (group_at_body rest i g Hl Hi) as (ix & pre & post & Hix & -> & _ & E & Hw & Hs & Hb0 & Hb).
    unfold ix_at. rewrite Hix. split; [done|]. rewrite E in *. apply group_serves_answers.
    by apply (group_of_serves d pre post _ ix _ format Hf Hl Hw Hs (cut_concat ix) (cut_nonempty ix)).
Qed.

Lemma groups_of_ok rest :
  len (body format target ixs ++ rest) < 2 ^ 32 →
  groups_ok format (mkGroupScan 0 5) (groups_of format target 0 5 ixs)
    (mkGroupScan (total_rows ixs) (len (body format target ixs))).
Proof.
  intros Hl. unfold body. rewrite len_app. change (len (header format)) with (len (header format)).
  assert (len (header format) = 5) as -> by by destruct format.
  cut (∀ n, (n ≤ length ixs)%nat →
    groups_ok format (mkGroupScan (base_of ixs n) (5 + len (take n ixs ≫= section_of format target)))
      (drop n (groups_of format target 0 5 ixs))
      (mkGroupScan (total_rows ixs) (5 + len (ixs ≫= section_of format target)))).
  { intros H. apply (H O). lia. }
  intros n Hn. remember (length ixs - n)%nat as k eqn:Hk. revert n Hn Hk.
  induction k as [|k IH]; intros n Hn Hk.
  { rewrite drop_ge by (rewrite groups_of_length; lia). unfold base_of, total_rows.
    rewrite take_ge by lia. constructor. }
  destruct (lookup_lt_is_Some_2 (groups_of format target 0 5 ixs) n) as [g Hg]; [rewrite groups_of_length; lia|].
  destruct (group_at_body rest n g Hl Hg) as (ix & pre & post & Hix & Eg & Ep & E & Hw & Hs & Hb0 & Hb).
  rewrite (drop_S _ _ _ Hg). rewrite E in Hl. rewrite <- Ep, Eg. eapply groups_ok_cons.
  - apply (group_of_ok (mkDirectory [] 0 format 0) pre post _ ix _ format eq_refl Hl Hw Hs (cut_concat ix)
      (cut_nonempty ix)); [done|apply len_nonneg].
  - specialize (IH (S n)). rewrite base_of_S in IH. unfold ix_at in IH. rewrite Hix in IH. simpl default in IH.
    rewrite (take_S_r _ _ _ Hix), bind_app, len_app in IH. cbn [mbind list_bind] in IH. rewrite app_nil_r in IH.
    rewrite len_app, Ep. unfold section_of at 2 in IH. rewrite Z.add_assoc in IH. apply IH; lia.
Qed.
End WholeFile.

(** * Rows in, answers out *)

Section Rows.
Context {C : SegCodecs} {L : SegCodecLaws C}.

(** The blob of a file whose row groups hold these rows. *)
Definition blob_of (format : SegmentedFormat) (target : Z) (t : Tokenizer) (rss : list (list rstr)) : bytes :=
  finish (foldl push_group_rows (sw_with_tokenizer (with_format target format) t) rss).

(** Open the blob in memory and run a lookup. *)
Definition lookup_blob {A} (blob : bytes) (q : SegmentedDirectory → Query A) : option A :=
  run (slice_read blob)
    (let! d := directory_read (len blob) in
     match d with None => Done None | Some d => let! r := q d in Done (Some r) end).

(** What fits the format: below 2^32 rows, valid text, a blob below 4 GiB whose
    groups stay below it uncompressed. *)
Record file_fits (format : SegmentedFormat) (target : Z) (t : Tokenizer) (rss : list (list rstr)) : Prop := {
  fits_rows : sumZ (len <$> rss) < 2 ^ 32;
  fits_text : Forall (Forall valid_str) rss;
  fits_groups : Forall (λ rows, small (ix_postings (from_rows_with_tokenizer rows t))) rss;
  fits_blob : len (blob_of format target t rss) < 2 ^ 32;
}.

(** The reference: the kept groups' rows that satisfy the predicate, by their
    ordinals in the file. *)
Definition kept_rows (rss : list (list rstr)) (Q : rstr → bool) (indices : list nat) : list Z :=
  indices ≫= λ i, shift (sumZ (len <$> take i rss)) (rows_where Q (default [] (rss !! i))).

Definition row_has (t : Tokenizer) (norm raw : rstr) : bool := bool_decide (norm ∈ tokenize_with t raw).

Definition indexes (t : Tokenizer) (rss : list (list rstr)) : list InvertedIndex :=
  (λ rows, from_rows_with_tokenizer rows t) <$> rss.

Lemma push_rows_written format target t rss :
  foldl push_group_rows (sw_with_tokenizer (with_format target format) t) rss
  = written format target t (indexes t rss).
Proof.
  unfold written, indexes. set (w := sw_with_tokenizer _ _).
  assert (sw_tokenizer w = t) as Hw by done. clearbody w. revert w Hw.
  induction rss as [|rows rss IH]; intros w Hw; simpl; [done|].
  rewrite IH; [unfold push_group_rows; by rewrite Hw|].
  unfold push_group_rows, push_group_index, push_group_index_v1, push_group_index_v2. rewrite Hw.
  destruct (sw_format w); repeat case_match; done.
Qed.

Section Fits.
Context (format : SegmentedFormat) (target : Z) (t : Tokenizer) (rss : list (list rstr)).
Hypothesis Hfits : file_fits format target t rss.

Lemma group_len rows : rows ∈ rss → len rows < 2 ^ 32.
Proof.
  intros (a & b & E)%list_elem_of_split. pose proof (fits_rows _ _ _ _ Hfits) as H.
  rewrite E, fmap_app, fmap_cons, sumZ_app in H. simpl in H.
  assert (∀ l : list (list rstr), 0 ≤ sumZ (len <$> l)) as Hn.
  { intros l. apply sumZ_nonneg, Forall_fmap, Forall_true. intros x. apply len_nonneg. }
  pose proof (Hn a). pose proof (Hn b). unfold sumZ in *. lia.
Qed.

Lemma index_rows rows : rows ∈ rss → ix_rows (from_rows_with_tokenizer rows t) = len rows.
Proof. intros Hr. by destruct (from_rows_inv t rows (group_len rows Hr)) as (_ & ? & _). Qed.

Lemma indexes_wf : Forall index_wf (indexes t rss).
Proof.
  apply Forall_fmap, Forall_forall. intros rows Hr. apply from_rows_wf; [by apply group_len|].
  pose proof (fits_text _ _ _ _ Hfits) as H. rewrite Forall_forall in H. by apply H.
Qed.

Lemma indexes_small : Forall (λ ix, small (ix_postings ix)) (indexes t rss).
Proof. apply Forall_fmap. apply (fits_groups _ _ _ _ Hfits). Qed.

Lemma indexes_rows l : l ⊆ rss → ix_rows <$> indexes t l = len <$> l.
Proof.
  intros Hl. unfold indexes. rewrite <- list_fmap_compose. apply list_fmap_ext.
  intros i rows Hi%list_elem_of_lookup_2. simpl. apply index_rows. by apply Hl.
Qed.

Lemma indexes_total : total_rows (indexes t rss) = sumZ (len <$> rss).
Proof. unfold total_rows. by rewrite indexes_rows. Qed.

Lemma indexes_base i : base_of (indexes t rss) i = sumZ (len <$> take i rss).
Proof.
  unfold base_of, indexes. rewrite <- fmap_take. fold (indexes t (take i rss)). rewrite indexes_rows; [done|].
  intros x Hx. apply (elem_of_take x i rss) in Hx as (j & Hj & _). by eapply list_elem_of_lookup_2.
Qed.

(** Opening the blob gives the directory of its groups. *)
Lemma open_blob :
  ∃ d, file_serves (slice_read (blob_of format target t rss)) d (indexes t rss)
    ∧ group_rows d = len <$> rss ∧ d_rows d = sumZ (len <$> rss) ∧ length (d_groups d) = length rss
    ∧ (∀ A (q : SegmentedDirectory → Query A),
        lookup_blob (blob_of format target t rss) q = Some (run (slice_read (blob_of format target t rss)) (q d))).
Proof.
  pose proof (fits_blob _ _ _ _ Hfits) as Hl. pose proof indexes_wf as Hwf. pose proof indexes_small as Hs.
  assert (total_rows (indexes t rss) < 2 ^ 32) as Hn by (rewrite indexes_total; apply (fits_rows _ _ _ _ Hfits)).
  assert (Forall (λ ix, 0 ≤ ix_rows ix) (indexes t rss)) as H0.
  { eapply Forall_impl; [exact Hwf|]. intros ix [H _]. unfold fits in H. lia. }
  set (ixs := indexes t rss) in *. set (gs := groups_of format target 0 5 ixs).
  assert (blob_of format target t rss = append_directory_and_trailer (body format target ixs)
    (encode_directory (total_rows ixs) gs format) (version format)) as Eb.
  { unfold blob_of. rewrite push_rows_written. fold ixs. by rewrite written_spec. }
  rewrite Eb in *. set (blob := append_directory_and_trailer _ _ _) in *.
  exists (mkDirectory gs (total_rows ixs) format (len blob)). split_and!.
  - unfold blob, append_directory_and_trailer in *. by apply writer_file_serves.
  - unfold group_rows. cbn [d_groups]. rewrite <- indexes_rows by done. apply group_rows_of.
  - cbn [d_rows]. apply indexes_total.
  - cbn [d_groups]. unfold gs, ixs, indexes. by rewrite groups_of_length, length_fmap.
  - intros A q. unfold lookup_blob. rewrite run_bind. unfold blob.
    rewrite (directory_read_spec format (body format target ixs) (total_rows ixs) gs); fold blob.
    + by rewrite run_bind.
    + unfold fits. pose proof (sumZ_nonneg (ix_rows <$> ixs)) as Hp. rewrite Forall_fmap in Hp. specialize (Hp H0).
      unfold total_rows in *. lia.
    + unfold body. rewrite len_app. pose proof (len_nonneg (ixs ≫= section_of format target)).
      assert (len (header format) = 5) as -> by by destruct format. lia.
    + unfold blob, append_directory_and_trailer in Hl. by eapply groups_of_ok.
    + lia.
Qed.

(** ** Reference predicates on the groups' indexes and on the rows *)

Lemma index_has rows r norm :
  rows ∈ rss → 0 ≤ r < len rows →
  has (from_rows_with_tokenizer rows t) r norm = row_has t norm (default [] (rows !! Z.to_nat r)).
Proof.
  intros Hin Hr. destruct (from_rows_inv t rows (group_len rows Hin)) as (_ & _ & _ & Hget).
  unfold has, from_rows_with_tokenizer, ib_build. cbn [ix_postings]. rewrite Hget. unfold row_has.
  pose proof (elem_of_rows_where (λ raw, bool_decide (norm ∈ tokenize_with t raw)) rows r) as H.
  apply bool_decide_ext. rewrite bool_decide_eq_true in H. destruct (rows_where _ rows); simpl; tauto.
Qed.

Lemma index_has_infix rows r norm :
  rows ∈ rss → 0 ≤ r < len rows →
  has_infix (from_rows_with_tokenizer rows t) r norm = some_token_contains t norm (default [] (rows !! Z.to_nat r)).
Proof.
  intros Hin Hr. pose proof (from_rows_inv t rows (group_len rows Hin)) as (_ & _ & Hwf & _).
  change (bt_wf (ix_postings (from_rows_with_tokenizer rows t))) in Hwf.
  assert (∀ tok, (∃ l, (tok, l) ∈ ix_postings (from_rows_with_tokenizer rows t) ∧ r ∈ l)
    ↔ tok ∈ tokenize_with t (default [] (rows !! Z.to_nat r))) as Htok.
  { intros tok. pose proof (index_has rows r tok Hin Hr) as H. unfold has, row_has in H.
    rewrite <- (bool_decide_eq_true (tok ∈ _)), <- H, bool_decide_eq_true. split.
    - intros (l & Hl & Hrl). by rewrite (bt_get_elem _ _ _ Hwf Hl).
    - destruct (bt_get tok _) as [l|] eqn:E; [|by intros ?%elem_of_nil]. apply bt_get_Some_elem in E. eauto. }
  unfold has_infix, some_token_contains. apply eq_true_iff_eq. rewrite !existsb_exists.
  setoid_rewrite andb_true_iff. setoid_rewrite bool_decide_eq_true. setoid_rewrite <- list_elem_of_In. split.
  - intros ([tok l] & Hl & Hc & Hrl). exists tok. split; [|done]. apply Htok. eauto.
  - intros (tok & (l & Hl & Hrl)%Htok & Hc). by exists (tok, l).
Qed.

Lemma file_where_rows φ Q indices :
  Forall (λ i, (i < length rss)%nat) indices →
  (∀ rows r, rows ∈ rss → 0 ≤ r < len rows →
    φ (from_rows_with_tokenizer rows t) r = Q (default [] (rows !! Z.to_nat r))) →
  file_where (indexes t rss) φ indices = kept_rows rss Q indices.
Proof.
  intros Hin HQ. unfold file_where, kept_rows. induction Hin as [|i indices Hi _ IH]; [done|].
  cbn [mbind list_bind]. f_equal; [|exact IH]. rewrite indexes_base. f_equal.
  destruct (lookup_lt_is_Some_2 rss i Hi) as [rows Hrows]. apply list_elem_of_lookup_2 in Hrows as Hin.
  unfold ix_at, indexes. rewrite list_lookup_fmap, Hrows. simpl.
  apply ascending_ext; [apply rows_if_ascending|apply rows_where_ascending|]. intros r.
  rewrite elem_of_rows_if, elem_of_rows_where, index_rows by done.
  split; intros [Hr H]; (split; [done|]); by rewrite (HQ rows r Hin Hr) in *.
Qed.

(** The selection the reader serves, in terms of the file's groups. *)
Definition kept (groups : option (list nat)) : option (list nat) :=
  match groups with
  | None => Some (seq 0 (length rss))
  | Some selected => if selection_ok (length rss) None selected then Some selected else None
  end.

Lemma kept_indices d groups : length (d_groups d) = length rss → group_indices d groups = kept groups.
Proof. intros H. unfold group_indices, kept. by rewrite H. Qed.

Lemma kept_in groups indices : kept groups = Some indices → Forall (λ i, (i < length rss)%nat) indices.
Proof.
  unfold kept. destruct groups as [selected|].
  - destruct (selection_ok _ _ _) eqn:E; [|done]. intros [= <-]. apply selection_ok_spec in E. tauto.
  - intros [= <-]. apply Forall_forall. intros i ?%elem_of_seq. lia.
Qed.
End Fits.
End Rows.

(** Every group kept is every row of the file. *)
Lemma len_concat {A} (rss : list (list A)) : len (concat rss) = sumZ (len <$> rss).
Proof. induction rss as [|r rss IH]; [done|]. cbn [concat]. rewrite len_app, IH. done. Qed.

Lemma kept_rows_all rss Q : kept_rows rss Q (seq 0 (length rss)) = rows_where Q (concat rss).
Proof.
  induction rss as [|rows rss IH] using rev_ind; [done|].
  unfold kept_rows in *. rewrite length_app, seq_app, bind_app. cbn [length seq mbind list_bind].
  rewrite app_nil_r, Nat.add_0_l, take_app_length, lookup_app_r, Nat.sub_diag by lia. cbn [lookup list_lookup default from_option id].
  replace (seq 0 (length rss) ≫= λ i, shift (sumZ (len <$> take i (rss ++ [rows])))
    (rows_where Q (default [] ((rss ++ [rows]) !! i)))) with (rows_where Q (concat rss)).
  2: { rewrite <- IH. apply Forall_bind_ext, Forall_forall. intros i Hi%elem_of_seq. by rewrite take_app_le, lookup_app_l by lia. }
  rewrite concat_app. cbn [concat]. rewrite app_nil_r, <- len_concat. generalize (concat rss) as l. clear. intros l.
  induction rows as [|r rows IH] using rev_ind; [unfold shift; simpl; by rewrite !app_nil_r|].
  rewrite (app_assoc l), !rows_where_snoc, <- IH. unfold shift.
  rewrite fmap_app, app_assoc. f_equal.
  destruct (Q r); [|done]. simpl. rewrite len_app. f_equal. lia.
Qed.

(** Every term normalizes. *)
Definition indexable (terms : list rstr) : bool :=
  forallb (λ x, match normalize_query_term x with Some _ => true | None => false end) terms.

Lemma indexable_spec terms : indexable terms = true ↔ Forall (λ x, is_Some (normalize_query_term x)) terms.
Proof.
  unfold indexable. rewrite forallb_forall, Forall_forall. setoid_rewrite <- list_elem_of_In.
  split; intros H x Hx; specialize (H x Hx); destruct (normalize_query_term x) as [y|];
    first [done|by exists y|by destruct H].
Qed.

(** To the shipped index a term that does not normalize matches nothing. *)
Lemma shipped_unindexable ix terms : indexable terms = false → matching_rows_all ix terms = [].
Proof.
  intros H. unfold matching_rows_all. destruct terms as [|x terms]; [done|].
  assert (resolve_all ix (x :: terms) = None) as ->; [|done]. revert H. generalize (x :: terms). clear. unfold indexable.
  induction l as [|x l IH]; cbn [forallb resolve_all]; [done|]. unfold postings.
  destruct (normalize_query_term x); [|done]. cbn [mbind option_bind]. intros ->%IH. by destruct (bt_get _ _).
Qed.

Section Shipped.
Context {C : SegCodecs} {L : SegCodecLaws C} (format : SegmentedFormat) (target : Z) (t : Tokenizer) (rss : list (list rstr)).
Hypothesis Hfits : file_fits format target t rss.

Lemma concat_fits : len (concat rss) < 2 ^ 32 ∧ Forall valid_str (concat rss).
Proof.
  split; [rewrite len_concat; apply (fits_rows _ _ _ _ Hfits)|].
  pose proof (fits_text _ _ _ _ Hfits) as H. clear -H.
  induction H; [constructor|]. cbn [concat]. by apply Forall_app_2.
Qed.

Lemma whole_file_all d terms :
  file_serves (slice_read (blob_of format target t rss)) d (indexes t rss) → length (d_groups d) = length rss →
  run (slice_read (blob_of format target t rss)) (matching_rows_all_in_groups d terms None)
  = if indexable terms then Some (matching_rows_all (from_rows_with_tokenizer (concat rss) t) terms) else None.
Proof.
  intros Hd Hl. destruct concat_fits as [Hlen Hval].
  rewrite (matching_rows_all_in_groups_spec _ _ _ Hd), (kept_indices rss _ _ Hl). cbn [kept mbind option_bind].
  destruct terms as [|x terms]; [done|]. destruct (indexable _) eqn:Ei; last first.
  { destruct (mapM _ _) as [norms|] eqn:E; [|done]. assert (indexable (x :: terms) = true) as Hi; [|by rewrite Hi in Ei].
    apply indexable_spec, mapM_is_Some. by exists norms. }
  apply indexable_spec in Ei as Hterms. apply mapM_is_Some in Hterms as [norms Hnorms]. rewrite Hnorms. cbn [mbind option_bind].
  rewrite matching_rows_all_rows, <- kept_rows_all by done. f_equal. apply (file_where_rows _ _ _ _ Hfits).
  - by apply (kept_in rss None).
  - intros rows r Hin Hr. unfold row_has_all. apply mapM_Some in Hnorms. clear Ei.
    induction Hnorms as [|y n ys ns Hy _ IH]; [done|]. cbn [forallb]. by rewrite Hy, IH, (index_has _ _ _ _ Hfits).
Qed.
End Shipped.

(** ** The frequency budget, on rows *)

(** How many of a group's rows have the term. *)
Definition rows_df (t : Tokenizer) (rows : list rstr) (norm : rstr) : Z := len (rows_where (row_has t norm) rows).

(** What a group adds to the estimate: nothing unless it has every required term
    and, when there are alternatives, one of them. *)
Definition group_cost (t : Tokenizer) (all any : list rstr) (rows : list rstr) : Z :=
  let occurs norm := 0 <? rows_df t rows norm in
  if forallb occurs all && (bool_decide (any = []) || existsb occurs any)
  then sumZ (rows_df t rows <$> all) + sumZ (rows_df t rows <$> any) else 0.

Definition estimated_cost (t : Tokenizer) (rss : list (list rstr)) (all any : list rstr) (indices : list nat) : Z :=
  sumZ ((λ i, group_cost t all any (default [] (rss !! i))) <$> indices).

Definition row_matches (t : Tokenizer) (all any : list rstr) (raw : rstr) : bool :=
  forallb (λ norm, row_has t norm raw) all
  && (bool_decide (any = []) || existsb (λ norm, row_has t norm raw) any).

Section Clip.
Context {C : SegCodecs} {L : SegCodecLaws C} (format : SegmentedFormat) (target : Z) (t : Tokenizer) (rss : list (list rstr)).
Hypothesis Hfits : file_fits format target t rss.

Lemma term_df_rows rows norm : rows ∈ rss → term_df (from_rows_with_tokenizer rows t) norm = rows_df t rows norm.
Proof.
  intros Hin. unfold term_df, rows_df. f_equal.
  apply ascending_ext; [apply rows_if_ascending|apply rows_where_ascending|]. intros r.
  rewrite elem_of_rows_if, elem_of_rows_where, (index_rows _ _ _ _ Hfits) by done.
  split; intros [Hr H]; (split; [done|]); by rewrite (index_has _ _ _ _ Hfits) in *.
Qed.

Lemma clip_cost_rows all any indices :
  Forall (λ i, (i < length rss)%nat) indices →
  clip_cost (indexes t rss) all any indices = estimated_cost t rss all any indices.
Proof.
  intros Hin. unfold clip_cost, estimated_cost. f_equal. apply list_fmap_ext. intros j i Hj%list_elem_of_lookup_2.
  rewrite Forall_forall in Hin. destruct (lookup_lt_is_Some_2 rss i (Hin i Hj)) as [rows Hrows].
  unfold ix_at, indexes. rewrite list_lookup_fmap, Hrows. simpl. apply list_elem_of_lookup_2 in Hrows.
  unfold group_cost, can_match, present, dfs. assert (∀ l : list rstr, term_df (from_rows_with_tokenizer rows t) <$> l = rows_df t rows <$> l) as E.
  { intros l. apply list_fmap_ext. intros ? x _. by apply term_df_rows. }
  rewrite !E. assert (∀ l, forallb (λ n, 0 <? term_df (from_rows_with_tokenizer rows t) n) l
    = forallb (λ n, 0 <? rows_df t rows n) l) as ->.
  { induction l as [|x l IH]; [done|]. cbn [forallb]. by rewrite IH, term_df_rows. }
  assert (∀ l, existsb (λ n, 0 <? term_df (from_rows_with_tokenizer rows t) n) l
    = existsb (λ n, 0 <? rows_df t rows n) l) as ->.
  { induction l as [|x l IH]; [done|]. cbn [existsb]. by rewrite IH, term_df_rows. }
  done.
Qed.

Lemma clip_match_rows all any rows r :
  rows ∈ rss → 0 ≤ r < len rows →
  clip_match all any (from_rows_with_tokenizer rows t) r = row_matches t all any (default [] (rows !! Z.to_nat r)).
Proof.
  intros Hin Hr. unfold clip_match, row_matches. f_equal; [|f_equal].
  - induction all as [|x l IH]; [done|]. cbn [forallb]. by rewrite IH, (index_has _ _ _ _ Hfits).
  - induction any as [|x l IH]; [done|]. cbn [existsb]. by rewrite IH, (index_has _ _ _ _ Hfits).
Qed.
End Clip.

(** * Samples *)

(** A codec that satisfies the laws: a byte sum and a framing byte. *)
Definition sample_seg_codecs : SegCodecs := {|
  crc32 bs := sumZ bs mod 2 ^ 32;
  compress bs := 0 :: bs;
  decompress bs cap := match bs with 0 :: bs => if len bs <=? cap then Some bs else None | _ => None end;
|}.

Lemma sample_seg_laws : SegCodecLaws sample_seg_codecs.
Proof.
  split.
  - intros bs. unfold fits. simpl. pose proof (Z.mod_pos_bound (sumZ bs) (2 ^ 32)). lia.
  - done.
  - intros bs cap H. simpl. by rewrite (proj2 (Z.leb_le _ _)).
Qed.

#[global] Instance small_dec m : Decision (small m).
Proof. unfold small. apply _. Defined.

Lemma file_fits_iff `{C : SegCodecs} format target t rss :
  (sumZ (len <$> rss) < 2 ^ 32 ∧ Forall (Forall valid_str) rss
   ∧ Forall (λ rows, small (ix_postings (from_rows_with_tokenizer rows t))) rss
   ∧ len (blob_of format target t rss) < 2 ^ 32) ↔ file_fits format target t rss.
Proof. split; [by intros (? & ? & ? & ?)|by intros []]. Qed.

#[global] Instance file_fits_dec `{C : SegCodecs} format target t rss : Decision (file_fits format target t rss).
Proof.
  destruct (decide (sumZ (len <$> rss) < 2 ^ 32 ∧ Forall (Forall valid_str) rss
   ∧ Forall (λ rows, small (ix_postings (from_rows_with_tokenizer rows t))) rss
   ∧ len (blob_of format target t rss) < 2 ^ 32)) as [H|H]; [left|right]; rewrite <- file_fits_iff; exact H.
Defined.

Lemma matches_row_groups_spec d counts : matches_row_groups d counts = true ↔ counts = group_rows d.
Proof.
  unfold matches_row_groups, group_rows. generalize (d_groups d) as gs. intros gs. revert counts.
  induction gs as [|g gs IH]; intros [|c counts]; try done. specialize (IH counts).
  rewrite !len_cons. cbn [zip zip_with forallb fmap list_fmap]. rewrite !andb_true_iff, !Z.eqb_eq in *. split.
  - intros (Hl & -> & Hall). f_equal. apply IH. split; [lia|done].
  - intros [= -> Hc]. apply IH in Hc as [? ?]. split_and!; [lia|done|done].
Qed.

(** * Properties *)

Section Exact.
Context (C : SegCodecs) (L : SegCodecLaws C).
Context (format : SegmentedFormat) (target : Z) (t : Tokenizer) (rss : list (list rstr)).

(** Every lookup property below is the file's reference rewritten into rows. *)
Ltac open_file H :=
  destruct (open_blob _ _ _ _ H) as (d & Hd & Hgroups & Hn & Hlen & Hq); rewrite Hq; clear Hq; f_equal.

(** Opening a written blob recovers the file's row groups: a reader takes it
    for exactly the Parquet row groups it was written for, and for no others. *)
Theorem seg_open_exact (counts : list Z) :
  file_fits format target t rss →
  lookup_blob (blob_of format target t rss) (λ d, Done (group_rows d, d_rows d, matches_row_groups d counts))
  = Some (len <$> rss, sumZ (len <$> rss), bool_decide (counts = len <$> rss)).
Proof.
  intros H. open_file H. cbn [run]. rewrite Hgroups, Hn. f_equal. rewrite <- Hgroups.
  apply eq_true_iff_eq. rewrite bool_decide_eq_true. apply matches_row_groups_spec.
Qed.

(** C7. A point lookup is exact under any row-group selection: the rows of the
    kept groups that have the term, [Absent] when there are none, and
    [Unanswerable] just for a term that does not normalize or a selection that is
    not ascending and in range. *)
Theorem seg_postings_exact (term : rstr) (groups : option (list nat)) :
  file_fits format target t rss →
  lookup_blob (blob_of format target t rss) (λ d, postings_in_groups d term groups)
  = Some (match normalize_query_term term, kept rss groups with
          | Some norm, Some indices =>
            match kept_rows rss (row_has t norm) indices with [] => Absent | rows => Rows rows end
          | _, _ => Unanswerable
          end).
Proof.
  intros H. open_file H. rewrite (postings_in_groups_spec _ _ _ Hd), (kept_indices rss _ _ Hlen).
  destruct (normalize_query_term term) as [norm|]; [|done]. destruct (kept rss groups) as [indices|] eqn:E; [|done].
  by rewrite (file_where_rows _ _ _ _ H _ (row_has t norm)) by eauto using kept_in, index_has.
Qed.

(** C8. A conjunction is exact: the rows of the kept groups that have every term,
    however the postings are ordered and cut short; declined only when a term
    does not normalize or the selection is not servable. *)
Theorem seg_match_all_exact (terms : list rstr) (groups : option (list nat)) :
  file_fits format target t rss →
  lookup_blob (blob_of format target t rss) (λ d, matching_rows_all_in_groups d terms groups)
  = Some (indices ← kept rss groups;
          match terms with
          | [] => Some []
          | _ => norms ← mapM normalize_query_term terms;
                 Some (kept_rows rss (λ raw, forallb (λ norm, row_has t norm raw) norms) indices)
          end).
Proof.
  intros H. open_file H. rewrite (matching_rows_all_in_groups_spec _ _ _ Hd), (kept_indices rss _ _ Hlen).
  destruct (kept rss groups) as [indices|] eqn:E; [|done]. cbn [mbind option_bind]. destruct terms as [|x terms]; [done|].
  destruct (mapM _ _) as [norms|]; [|done]. cbn [mbind option_bind]. f_equal.
  apply (file_where_rows _ _ _ _ H); [by eapply kept_in|]. intros rows r Hr Hin.
  induction norms as [|n norms IH]; [done|]. cbn [forallb]. by rewrite IH, (index_has _ _ _ _ H).
Qed.

(** A disjunction is exact: the rows of the kept groups that have some term. *)
Theorem seg_match_any_exact (terms : list rstr) (groups : option (list nat)) :
  file_fits format target t rss →
  lookup_blob (blob_of format target t rss) (λ d, matching_rows_any_in_groups d terms groups)
  = Some (indices ← kept rss groups;
          norms ← mapM normalize_query_term terms;
          Some (kept_rows rss (λ raw, existsb (λ norm, row_has t norm raw) norms) indices)).
Proof.
  intros H. open_file H. rewrite (matching_rows_any_in_groups_spec _ _ _ Hd), (kept_indices rss _ _ Hlen).
  destruct (kept rss groups) as [indices|] eqn:E; [|done]. cbn [mbind option_bind].
  destruct (mapM _ _) as [norms|]; [|done]. cbn [mbind option_bind]. f_equal.
  apply (file_where_rows _ _ _ _ H); [by eapply kept_in|]. intros rows r Hr Hin.
  induction norms as [|n norms IH]; [done|]. cbn [existsb]. by rewrite IH, (index_has _ _ _ _ H).
Qed.

(** C9. A substring sweep is exact: the rows of the kept groups with a token that
    contains the normalized substring. *)
Theorem seg_substring_exact (substr : rstr) (groups : option (list nat)) :
  file_fits format target t rss →
  lookup_blob (blob_of format target t rss) (λ d, rows_containing_in_groups d substr groups)
  = Some (norm ← normalize_query_term substr;
          indices ← kept rss groups;
          Some (kept_rows rss (some_token_contains t norm) indices)).
Proof.
  intros H. open_file H. rewrite (rows_containing_in_groups_spec _ _ _ Hd), (kept_indices rss _ _ Hlen).
  destruct (normalize_query_term substr) as [norm|]; [|done]. cbn [mbind option_bind].
  destruct (kept rss groups) as [indices|] eqn:E; [|done]. cbn [mbind option_bind]. f_equal.
  apply (file_where_rows _ _ _ _ H); [by eapply kept_in|]. intros. by apply (index_has_infix _ _ _ _ H).
Qed.

(** C6. Over the whole file the segmented index and the shipped one agree on
    every conjunction of terms that normalize, on every substring, and on the row
    selection.  On a conjunction with a term that does not normalize they part as
    the format documents: the segmented index answers that it cannot tell, the
    shipped one that no row matches. *)
Theorem seg_equals_shipped (terms : list rstr) (substr : rstr) :
  file_fits format target t rss →
  let shipped := from_rows_with_tokenizer (concat rss) t in
  lookup_blob (blob_of format target t rss) (λ d, matching_rows_all_in_groups d terms None)
    = Some (if indexable terms then Some (matching_rows_all shipped terms) else None)
  ∧ lookup_blob (blob_of format target t rss) (λ d, rows_containing_in_groups d substr None)
    = Some (rows_containing shipped substr)
  ∧ lookup_blob (blob_of format target t rss) (λ d, seg_matching_row_selection d terms)
    = Some (if indexable terms then Some (matching_row_selection shipped terms) else None)
  ∧ (indexable terms = false → matching_rows_all shipped terms = []).
Proof.
  intros H shipped. pose proof (concat_fits _ _ _ _ H) as [Hlen Hval].
  assert (run_all : lookup_blob (blob_of format target t rss) (λ d, matching_rows_all_in_groups d terms None)
    = Some (if indexable terms then Some (matching_rows_all shipped terms) else None)).
  { destruct (open_blob _ _ _ _ H) as (d & Hd & _ & _ & Hl & Hq). rewrite Hq. f_equal. by apply whole_file_all. }
  split_and!; [done| | |apply shipped_unindexable].
  - destruct (open_blob _ _ _ _ H) as (d & Hd & _ & _ & Hl & Hq). rewrite Hq. f_equal.
    rewrite (rows_containing_in_groups_spec _ _ _ Hd), (kept_indices rss _ _ Hl).
    destruct (normalize_query_term substr) as [norm|] eqn:E; [|unfold rows_containing; by rewrite E].
    unfold shipped. rewrite (rows_containing_tokens t (concat rss) substr norm) by done. cbn [mbind option_bind kept].
    rewrite <- kept_rows_all. f_equal. apply (file_where_rows _ _ _ _ H).
    + by apply (kept_in rss None).
    + intros. by apply (index_has_infix _ _ _ _ H).
  - destruct (open_blob _ _ _ _ H) as (d & Hd & _ & Hn & Hl & Hq). rewrite Hq in run_all. rewrite Hq. f_equal.
    unfold seg_matching_row_selection. rewrite run_bind. apply (inj Some) in run_all. rewrite run_all.
    destruct (indexable terms); [|done]. cbn [run mbind option_bind]. unfold matching_row_selection. do 2 f_equal. rewrite Hn.
    destruct (from_rows_inv t (concat rss) Hlen) as (_ & Hr & _). unfold shipped, from_rows_with_tokenizer, ib_build.
    cbn [ix_rows]. by rewrite Hr, len_concat.
Qed.

(** The frequency-limited lookup declines exactly when the document
    frequencies of the groups that can match add up to more than the limit, and
    otherwise returns the kept rows with every required term and one of the
    alternatives. *)
Theorem seg_df_limit_exact (all_terms any_terms all any : list rstr) (groups : option (list nat)) (indices : list nat)
    (limit : Z) :
  file_fits format target t rss → kept rss groups = Some indices → 0 ≤ limit →
  all_terms ≠ [] ∨ any_terms ≠ [] →
  mapM normalize_query_term all_terms = Some all → mapM normalize_query_term any_terms = Some any →
  lookup_blob (blob_of format target t rss)
    (λ d, matching_point_rows_with_df_limit_in_groups d all_terms any_terms groups limit)
  = Some (if limit <? Z.min (estimated_cost t rss all any indices) U64_MAX then OverBudget
          else ClipRows (kept_rows rss (row_matches t all any) indices)).
Proof.
  intros H Hk Hl Hne Hall Hany. open_file H. pose proof (kept_in rss groups indices Hk) as Hin.
  rewrite <- (kept_indices rss d groups Hlen) in Hk.
  rewrite (df_limit_spec _ d _ all_terms any_terms groups limit all any indices Hd Hk Hl Hne Hall Hany).
  rewrite (clip_cost_rows _ _ _ _ H) by done. case_match; [done|]. f_equal.
  apply (file_where_rows _ _ _ _ H); [done|]. intros. by apply (clip_match_rows _ _ _ _ H).
Qed.
End Exact.

(** ** Witnesses *)

#[local] Existing Instance sample_seg_codecs.

Definition sample_file : list (list rstr) := [sample_rows; []; [lit "api ok"; lit "disk error"]].

Lemma sample_fits format : @file_fits sample_seg_codecs format 8 Default sample_file.
Proof. apply (bool_decide_unpack _). destruct format; vm_compute; exact I. Qed.

Abbreviation sample_blob := (@blob_of sample_seg_codecs Seg2 8 Default sample_file).

Lemma seg_open_exact_witness :
  @lookup_blob sample_seg_codecs _ sample_blob (λ d, Done (group_rows d, d_rows d, matches_row_groups d [3; 0; 2]))
  = Some ([3; 0; 2], 5, true).
Proof. exact (seg_open_exact _ sample_seg_laws Seg2 8 Default sample_file [3; 0; 2] (sample_fits Seg2)). Defined.

Lemma seg_postings_exact_witness :
  @lookup_blob sample_seg_codecs _ sample_blob (λ d, postings_in_groups d (lit "Error") (Some [0%nat; 2%nat])) = Some (Rows [0; 2; 4]).
Proof.
  etransitivity; [exact (seg_postings_exact _ sample_seg_laws Seg2 8 Default sample_file (lit "Error")
    (Some [0%nat; 2%nat]) (sample_fits Seg2))|]. vm_compute. reflexivity.
Defined.

Lemma seg_match_all_exact_witness :
  @lookup_blob sample_seg_codecs _ sample_blob (λ d, matching_rows_all_in_groups d [lit "api"; lit "error"] None)
  = Some (Some [0; 2]).
Proof.
  etransitivity; [exact (seg_match_all_exact _ sample_seg_laws Seg2 8 Default sample_file [lit "api"; lit "error"]
    None (sample_fits Seg2))|]. vm_compute. reflexivity.
Defined.

Lemma seg_match_any_exact_witness :
  @lookup_blob sample_seg_codecs _ sample_blob (λ d, matching_rows_any_in_groups d [lit "timeout"; lit "disk"] None)
  = Some (Some [2; 4]).
Proof.
  etransitivity; [exact (seg_match_any_exact _ sample_seg_laws Seg2 8 Default sample_file [lit "timeout"; lit "disk"]
    None (sample_fits Seg2))|]. vm_compute. reflexivity.
Defined.

Lemma seg_substring_exact_witness :
  @lookup_blob sample_seg_codecs _ sample_blob (λ d, rows_containing_in_groups d (lit "rro") (Some [2%nat])) = Some (Some [4]).
Proof.
  etransitivity; [exact (seg_substring_exact _ sample_seg_laws Seg2 8 Default sample_file (lit "rro")
    (Some [2%nat]) (sample_fits Seg2))|]. vm_compute. reflexivity.
Defined.

Lemma seg_equals_shipped_witness :
  @lookup_blob sample_seg_codecs _ sample_blob (λ d, matching_rows_all_in_groups d [lit "api"] None)
  = Some (Some (matching_rows_all (from_rows (concat sample_file)) [lit "api"])).
Proof.
  exact (proj1 (seg_equals_shipped _ sample_seg_laws Seg2 8 Default sample_file [lit "api"] (lit "api") (sample_fits Seg2))).
Defined.

Lemma seg_df_limit_exact_witness :
  @lookup_blob sample_seg_codecs _ sample_blob
    (λ d, matching_point_rows_with_df_limit_in_groups d [lit "api"] [lit "error"; lit "timeout"] None 7)
  = Some (ClipRows [0; 2]).
Proof.
  etransitivity; [refine (seg_df_limit_exact _ sample_seg_laws Seg2 8 Default sample_file [lit "api"]
    [lit "error"; lit "timeout"] [lit "api"] [lit "error"; lit "timeout"] None [0%nat; 1%nat; 2%nat] 7 (sample_fits Seg2) _ _ _ _ _)|].
  - reflexivity.
  - lia.
  - by left.
  - vm_compute. reflexivity.
  - vm_compute. reflexivity.
  - vm_compute. reflexivity.
Defined.
