(* ===== verification/SegSafe.v ===== *)
(** Segmented lookups over bytes nobody vouches for.

    Whatever a [RangeSource] returns, a directory [SegmentedDirectory::read]
    accepts tiles the file, and rows a lookup reports are strictly ascending
    ordinals of that file: a corrupt section is declined or answers within the
    row domain, never outside it
    ([crates/loglake-index/src/segmented.rs]). *)

From stdpp Require Import prelude sorting strings.
From Stdlib Require Import ZArith Lia.
From S2P Require Import Prelude RustStr BTree Cursor Leb128 Bloom Postings InvertedIndex.
From S2P Require Import SegBlock SegWriter SegReader SegGroup SegQuery SegDirectory SegCorrect.

(** * One term's postings *)

Lemma ensures_next_posting g first prev :
  0 ≤ prev →
  ensures (next_posting g first prev) (λ p, (if first then prev ≤ p else prev < p) ∧ p < g_rows g).
Proof.
  intros Hp. unfold next_posting. p_step as delta Hd. p_step as u Hu. p_step as p Hpp. p_step as u' Hlt%Z.ltb_lt.
  apply ensures_ret. apply checked_add_Some in Hpp as [-> _]. unfold fits in Hd. split; [|done].
  destruct first; [lia|]. simpl in Hu. apply negb_true_iff, Z.eqb_neq in Hu. lia.
Qed.

(** The rows so far are ascending ordinals of the group, the last one [previous]. *)
Definition postings_so_far (g : GroupEntry) (first : bool) (previous : Z) (rows : list Z) : Prop :=
  0 ≤ previous ∧ ascending rows
  ∧ Forall (λ r, first_row g ≤ r < first_row g + g_rows g ∧ r ≤ previous + first_row g) rows
  ∧ (first = true → rows = []).

Lemma decode_postings_safe g fuel first previous rows c out :
  0 ≤ first_row g → first_row g + g_rows g < 2 ^ 32 → 0 ≤ pos c ≤ len (buf c) →
  postings_so_far g first previous rows → decode_postings fuel g first previous rows c = Some out →
  ascending out ∧ Forall (λ r, first_row g ≤ r < first_row g + g_rows g) out.
Proof.
  intros Hf0 Hf. revert first previous rows c.
  induction fuel as [|fuel IH]; intros first previous rows c Hc (Hp & Hasc & Hall & Hfirst); cbn [decode_postings];
    (destruct (remaining c =? 0); [intros [= <-]; split; [done|]; eapply Forall_impl; [exact Hall|]; simpl; tauto|]);
    [done|].
  destruct (next_posting g first previous c) as [[p c']|] eqn:E; [|done].
  apply (ensures_next_posting g first previous Hp) in E as ([Hn Hlt] & Hbuf & Hpos); [|done].
  apply IH; [rewrite Hbuf; lia|]. assert (previous ≤ p) by (destruct first; lia).
  rewrite wrap_small by (unfold fits; lia). split_and!; [lia| | |done].
  - apply ascending_app. split_and!; [done|apply ascending_singleton|]. intros x y Hx ->%list_elem_of_singleton.
    destruct first; [rewrite Hfirst in Hx by done; by apply elem_of_nil in Hx|].
    rewrite Forall_forall in Hall. specialize (Hall x Hx). lia.
  - apply Forall_app. split; [|repeat constructor; lia]. eapply Forall_impl; [exact Hall|]. simpl. lia.
Qed.

Section Safe.
Context {C : SegCodecs} (read : Z → Z → option bytes) (d : SegmentedDirectory).

(** The rows lie in the group's part of the file. *)
Definition in_group (g : GroupEntry) (rows : list Z) : Prop :=
  ascending rows ∧ Forall (λ r, first_row g ≤ r < first_row g + g_rows g) rows.

Definition group_bounds (g : GroupEntry) : Prop := 0 ≤ first_row g ∧ first_row g + g_rows g < 2 ^ 32.

Lemma check_postings_safe g df bs rows :
  group_bounds g → check_postings g df bs = Some rows → in_group g rows.
Proof.
  intros [H0 H1]. unfold check_postings. intros (out & Hout & H)%bind_Some. destruct (_ || _); [done|].
  injection H as ->. eapply (decode_postings_safe g _ true 0 [] (Cur bs 0)); [done|done| | |exact Hout].
  - simpl. pose proof (len_nonneg bs). lia.
  - split_and!; [lia|constructor|constructor|done].
Qed.

Lemma read_postings_safe g h rows :
  group_bounds g → run read (read_postings d g h) = Some rows → in_group g rows.
Proof.
  intros Hg. unfold read_postings. destruct (d_format d).
  - case_match; [done|]. rewrite run_bind. cbn [run]. intros (bs & _ & Hck)%bind_Some. by eapply check_postings_safe.
  - destruct (_ ≫= b_v2) as [v2|]; [|done]. case_match; [done|]. rewrite run_bind. cbn [run].
    intros (st & _ & (span & _ & Hck)%bind_Some)%bind_Some. case_match; [done|].
    apply bind_Some in Hck as (bs & _ & Hck). by eapply check_postings_safe.
Qed.

Lemma intersect_located_safe g hs acc res bad :
  group_bounds g → (∀ a, acc = Some a → in_group g a) →
  run read (intersect_located d g hs acc) = (res, bad) → ∀ rows, res = Some rows → in_group g rows.
Proof.
  intros Hg. revert acc. induction hs as [|h hs IH]; intros acc Hacc; simpl.
  { intros [= <- <-]. done. }
  rewrite run_bind. destruct (run read (read_postings d g h)) as [l|] eqn:E; [|by intros [= <- <-]].
  apply read_postings_safe in E as [Ha Hl]; [|done].
  assert (in_group g (match acc with None => l | Some previous => intersect_sorted previous l end)) as Hn.
  { destruct acc as [a|]; [|done]. destruct (Hacc a eq_refl) as [Haa _].
    split; [by apply intersect_sorted_ascending|]. apply Forall_forall. intros x Hx.
    apply elem_of_intersect_sorted in Hx as [_ Hx]; [|done..]. rewrite Forall_forall in Hl. by apply Hl. }
  destruct (match acc with None => l | Some previous => intersect_sorted previous l end) as [|x next].
  - intros [= <- <-] rows [= <-]. done.
  - apply IH. by intros a [= <-].
Qed.

(** * Groups in order *)

Lemma tiles_bounds format st gs st' i g :
  tiles format st gs st' → 0 ≤ expected_first_row st → gs !! i = Some g →
  expected_first_row st ≤ first_row g ∧ 0 ≤ g_rows g ∧ first_row g + g_rows g ≤ expected_first_row st'
  ∧ first_row g + g_rows g < 2 ^ 32.
Proof.
  intros H. revert i. induction H as [st|g' gs st' scan Hr Hp Hd Ho Hn Hb Hs Ht IH]; intros i H0 Hi; [done|].
  simpl in *. assert (first_row g' + g_rows g' ≤ expected_first_row st') as Hmono.
  { clear -Ht. remember (mkGroupScan (first_row g' + g_rows g') (dict_offset g' + dict_len g')) as s eqn:Es.
    replace (first_row g' + g_rows g') with (expected_first_row s) by by rewrite Es. clear Es.
    induction Ht; simpl in *; lia. }
  destruct i as [|i]; simpl in Hi; [injection Hi as <-; lia|].
  destruct (IH i) as (? & ? & ? & ?); [lia|done|]. lia.
Qed.

Lemma tiles_order format st gs st' i j g h :
  tiles format st gs st' → 0 ≤ expected_first_row st → (i < j)%nat → gs !! i = Some g → gs !! j = Some h →
  first_row g + g_rows g ≤ first_row h.
Proof.
  intros H. revert i j. induction H as [st|g' gs st' scan Hr Hp Hd Ho Hn Hb Hs Ht IH]; intros i j H0 Hij Hi Hj; [done|].
  simpl in *. destruct j as [|j]; [lia|]. simpl in Hj. destruct i as [|i]; simpl in Hi.
  - injection Hi as <-. by destruct (tiles_bounds _ _ _ _ _ _ Ht ltac:(simpl; lia) Hj) as [? _].
  - apply (IH i j); [simpl; lia|lia|done|done].
Qed.

Context (format : SegmentedFormat) (at_ : Z).
Hypothesis Htiles : tiles format (mkGroupScan 0 5) (d_groups d) (mkGroupScan (d_rows d) at_).

Lemma group_at_bounds i : (i < length (d_groups d))%nat → group_bounds (group_at d i).
Proof.
  intros [g Hg]%lookup_lt_is_Some_2. unfold group_at. rewrite Hg. simpl.
  destruct (tiles_bounds _ _ _ _ _ _ Htiles ltac:(done) Hg) as (? & ? & ? & ?). simpl in *. split; lia.
Qed.

(** Rows that come from the groups walked so far. *)
Definition in_groups (walked : list nat) (rows : list Z) : Prop :=
  ascending rows
  ∧ ∀ r, r ∈ rows → ∃ i, i ∈ walked ∧ (i < length (d_groups d))%nat
      ∧ first_row (group_at d i) ≤ r < first_row (group_at d i) + g_rows (group_at d i).

Definition in_file (rows : list Z) : Prop := ascending rows ∧ Forall (λ r, 0 ≤ r < d_rows d) rows.

Lemma in_groups_nil walked : in_groups walked [].
Proof. split; [constructor|]. by intros r ?%elem_of_nil. Qed.

Lemma in_groups_snoc walked i rows :
  in_groups walked rows → in_groups (walked ++ [i]) rows.
Proof. intros [Ha H]. split; [done|]. intros r (j & ? & ?)%H. exists j. split; [|done]. apply elem_of_app. by left. Qed.

Lemma in_groups_app walked i a b :
  (i < length (d_groups d))%nat → Forall (λ j, (j < i)%nat) walked →
  in_groups walked a → in_group (group_at d i) b → in_groups (walked ++ [i]) (a ++ b).
Proof.
  intros Hi Hw [Ha Hina] [Hb Hinb]. rewrite Forall_forall in Hw. rewrite Forall_forall in Hinb. split.
  - apply ascending_app. split_and!; [done|done|]. intros x y (j & Hj & Hjl & Hx)%Hina Hy%Hinb.
    destruct (lookup_lt_is_Some_2 _ _ Hjl) as [gj Hgj]. destruct (lookup_lt_is_Some_2 _ _ Hi) as [gi Hgi].
    unfold group_at in *. rewrite Hgj in Hx. rewrite Hgi in Hy. simpl in *.
    pose proof (tiles_order _ _ _ _ j i _ _ Htiles ltac:(done) (Hw j Hj) Hgj Hgi). lia.
  - intros r [Hr|Hr]%elem_of_app.
    + destruct (Hina r Hr) as (j & ? & ?). exists j. split; [|done]. apply elem_of_app. by left.
    + exists i. split; [apply elem_of_app; right; left|]. split; [done|]. by apply Hinb.
Qed.

Lemma in_groups_union walked a b : in_groups walked a → in_groups walked b → in_groups walked (union_sorted a b).
Proof.
  intros [Ha Hina] [Hb Hinb]. split; [by apply union_sorted_ascending|].
  intros r [?|?]%elem_of_union_sorted; auto.
Qed.

Lemma in_groups_one walked i rows :
  i ∈ walked → (i < length (d_groups d))%nat → in_group (group_at d i) rows → in_groups walked rows.
Proof.
  intros Hi Hl [Ha H]. rewrite Forall_forall in H. split; [done|]. intros r Hr. exists i. auto.
Qed.

Lemma in_groups_file walked rows : in_groups walked rows → in_file rows.
Proof.
  intros [Ha H]. split; [done|]. apply Forall_forall. intros r (i & _ & [g Hg]%lookup_lt_is_Some_2 & Hr)%H.
  unfold group_at in Hr. rewrite Hg in Hr. simpl in Hr.
  destruct (tiles_bounds _ _ _ _ _ _ Htiles ltac:(done) Hg) as (? & ? & ? & ?). simpl in *. lia.
Qed.

(** A loop over an ascending selection. *)
Lemma fold_walk {S} (f : S → nat → Query S) (inv : list nat → S → Prop) groups indices s :
  group_indices d groups = Some indices →
  (∀ walked i s, (i < length (d_groups d))%nat → Forall (λ j, (j < i)%nat) walked →
     inv walked s → inv (walked ++ [i]) (run read (f s i))) →
  inv [] s → inv indices (run read (q_fold f s indices)).
Proof.
  intros [Hs Hin]%group_indices_spec Hstep.
  cut (∀ walked s, StronglySorted lt (walked ++ indices) → inv walked s →
    inv (walked ++ indices) (run read (q_fold f s indices))); [intros H Hi; by apply (H [] s)|].
  clear Hs s. induction Hin as [|i indices Hi _ IH]; intros walked s Hs Hinv; simpl; [by rewrite app_nil_r|].
  rewrite run_bind. replace (walked ++ i :: indices) with ((walked ++ [i]) ++ indices) in * by by rewrite <- app_assoc.
  apply IH; [done|]. apply Hstep; [done| |done]. apply (sorted_app lt) in Hs as (Hs & _ & _).
  apply (sorted_app lt) in Hs as (_ & _ & Hlt). apply Forall_forall. intros j Hj. apply Hlt; [done|left].
Qed.

(** * The lookups *)

Lemma group_postings_safe i t rows :
  (i < length (d_groups d))%nat → run read (group_postings d (group_at d i) t) = Some (Some rows) →
  in_group (group_at d i) rows.
Proof.
  intros Hi. unfold group_postings. rewrite run_bind.
  destruct (run read (locate_term d (group_at d i) t)) as [[h|]|]; [|done|done]. rewrite run_bind.
  destruct (run read (read_postings d (group_at d i) h)) as [l|] eqn:E; [|done]. intros [= <-].
  by eapply read_postings_safe; [apply group_at_bounds|].
Qed.

Lemma gather_safe t groups indices :
  group_indices d groups = Some indices →
  in_groups indices (ga_rows (run read (q_fold (gather_group d t) (mkGather [] false false) indices))).
Proof.
  intros Hi. apply (fold_walk _ (λ w s, in_groups w (ga_rows s)) groups); [done| |apply in_groups_nil].
  intros w i s Hl Hw Hs. unfold gather_group. rewrite run_bind.
  destruct (run read (group_postings d (group_at d i) t)) as [[rows|]|] eqn:E; cbn [run ga_rows].
  - apply in_groups_app; [done|done|done|]. by eapply group_postings_safe.
  - by apply in_groups_snoc.
  - by apply in_groups_snoc.
Qed.

Lemma postings_safe term groups rows :
  run read (postings_in_groups d term groups) = Rows rows →
  ∃ indices, group_indices d groups = Some indices ∧ in_groups indices rows.
Proof.
  unfold postings_in_groups. destruct (normalize_query_term term) as [t|]; [|done].
  destruct (group_indices d groups) as [indices|] eqn:E; [|done]. rewrite run_bind. cbn [run].
  case_match; [done|]. case_match; [|done]. intros [= <-]. exists indices. split; [done|]. by eapply gather_safe.
Qed.

Lemma match_all_safe terms groups rows :
  run read (matching_rows_all_in_groups d terms groups) = Some rows → in_file rows.
Proof.
  unfold matching_rows_all_in_groups. destruct (group_indices d groups) as [indices|] eqn:E; [|done].
  destruct terms as [|t terms]; [intros [= <-]; split; constructor|].
  destruct (mapM _ _) as [norms|]; [|done]. rewrite run_bind.
  assert (in_groups indices (fst (run read (q_fold (conjoin_group d norms) ([], false) indices)))) as H.
  { apply (fold_walk _ (λ w s, in_groups w (fst s)) groups); [done| |apply in_groups_nil].
    intros w i [a failed] Hl Hw Hs. unfold conjoin_group. rewrite run_bind.
    destruct (run read (locate_all _ _ _ _ _)) as [located failed']. cbn [fst] in Hs.
    case_match; [by apply in_groups_snoc|]. rewrite run_bind.
    destruct (run read (intersect_located _ _ _ _)) as [acc bad] eqn:Ei. cbn [run fst].
    apply in_groups_app; [done|done|done|]. destruct acc as [b|]; [|split; constructor].
    by eapply (intersect_located_safe _ _ None); [apply group_at_bounds|done|exact Ei|]. }
  destruct (run read (q_fold _ _ _)) as [a failed]. cbn [run fst] in *. case_match; [done|]. intros [= <-].
  by eapply in_groups_file.
Qed.

Lemma match_any_safe terms groups rows :
  run read (matching_rows_any_in_groups d terms groups) = Some rows → in_file rows.
Proof.
  unfold matching_rows_any_in_groups. destruct (group_indices d groups) as [indices|] eqn:E; [|done].
  destruct (mapM _ _) as [norms|]; [|done]. rewrite run_bind, run_fold.
  assert (∀ s : list Z * bool, in_groups indices (fst s) →
    in_groups indices (fst (foldl (λ s x, run read (disjoin_term d groups s x)) s terms))) as H.
  { induction terms as [|t terms IH]; intros s Hs; simpl; [done|]. apply IH. unfold disjoin_term. rewrite run_bind.
    destruct (run read (postings_in_groups d t groups)) as [l| |] eqn:El; cbn [run fst]; [|done|done].
    apply in_groups_union; [done|]. apply postings_safe in El as (ind & Ei & Hl). congruence. }
  specialize (H ([], false) (in_groups_nil _)).
  destruct (foldl _ _ _) as [a failed]. cbn [run fst] in *. case_match; [done|]. intros [= <-].
  by eapply in_groups_file.
Qed.

Lemma sweep_safe substr groups rows :
  run read (rows_containing_in_groups d substr groups) = Some rows → in_file rows.
Proof.
  unfold rows_containing_in_groups. destruct (normalize_query_term substr) as [norm|]; [|done].
  destruct (group_indices d groups) as [indices|] eqn:E; [|done]. rewrite run_bind.
  assert (in_groups indices (fst (run read (q_fold (sweep_group d norm) ([], false) indices)))) as H.
  { apply (fold_walk _ (λ w s, in_groups w (fst s)) groups); [done| |apply in_groups_nil].
    intros w i s Hl Hw Hs. unfold sweep_group. rewrite run_bind.
    destruct (run read (q_fold _ _ _)) as [hits failed]. rewrite run_fold.
    assert (∀ s : list Z * bool, in_groups (w ++ [i]) (fst s) →
      in_groups (w ++ [i]) (fst (foldl (λ s x, run read (sweep_hit d (group_at d i) s x)) s hits))) as Hf.
    { clear Hs. induction hits as [|h hits IH]; intros s' Hs'; simpl; [done|]. apply IH. unfold sweep_hit. rewrite run_bind.
      destruct (run read (read_postings d (group_at d i) h)) as [l|] eqn:El; cbn [run fst]; [|done].
      apply in_groups_union; [done|]. apply (in_groups_one _ i); [apply elem_of_app; right; left|done|].
      by eapply read_postings_safe; [apply group_at_bounds|]. }
    apply Hf. by apply in_groups_snoc. }
  destruct (run read (q_fold _ _ _)) as [a failed]. cbn [run fst] in *. case_match; [done|]. intros [= <-].
  by eapply in_groups_file.
Qed.
End Safe.

(** What an accepted directory guarantees of a source that returns bytes. *)
Lemma directory_read_tiles `{C : SegCodecs} read total d :
  (∀ o n bs, read o n = Some bs → bytes_ok bs) →
  run read (directory_read total) = Some d →
  ∃ at_, tiles (d_format d) (mkGroupScan 0 5) (d_groups d) (mkGroupScan (d_rows d) at_) ∧ u32 (d_rows d)
    ∧ 5 ≤ at_ ≤ total - SEGMENTED_TRAILER_LEN ∧ blob_len d = total.
Proof.
  intros Hbytes. unfold directory_read. case_match; [done|]. rewrite run_bind.
  destruct (run read (q_read _ _) ≫= parse_trailer) as [[[[format at_] l] crc]|] eqn:Et; [|done].
  destruct (checked_add 64 at_ l) as [e|] eqn:Ee; [|done]. destruct (_ || _) eqn:Eg; [done|].
  rewrite run_bind. cbn [run]. intros (dir & _ & Hd)%bind_Some. case_match; [done|].
  apply bind_Some in Hd as ([n gs] & [Hn Ht]%parse_directory_tiles & [= <-]). simpl.
  exists at_. split; [done|]. split; [done|]. split; [|done].
  apply orb_false_iff in Eg as [Hlo%Z.ltb_ge Hend%negb_false_iff%Z.eqb_eq].
  apply checked_add_Some in Ee as [-> _].
  apply bind_Some in Et as (trailer & Hread & Hparse). cbn [run q_read] in Hread. apply Hbytes in Hread.
  unfold parse_trailer in Hparse. case_match; [|done]. apply bind_Some in Hparse as (f & _ & [= _ _ Hl _]).
  pose proof (from_le_bound (take 8 (drop 8 trailer))) as Hb. rewrite Hl in Hb.
  destruct Hb as [? _]; [by apply Forall_take, Forall_drop|]. lia.
Qed.

(** * Properties *)

(** The groups' rows and sections tile the rows and the body of a file of
    [total] bytes. *)
Definition tiles_file (total : Z) (d : SegmentedDirectory) : Prop :=
  ∃ at_, tiles (d_format d) (mkGroupScan 0 5) (d_groups d) (mkGroupScan (d_rows d) at_)
    ∧ 5 ≤ at_ ≤ total - SEGMENTED_TRAILER_LEN.

(** A directory the reader accepts tiles the file, whatever the bytes were:
    the groups partition the rows [0..n_rows) in order, every group's postings
    and dictionary sections follow one another from the header to the directory
    without gap or overlap, and every block passed its checks. *)
Theorem seg_accepted_tiles (C : SegCodecs) (read : Z → Z → option bytes) (total : Z) (d : SegmentedDirectory) :
  (∀ o n bs, read o n = Some bs → bytes_ok bs) →
  run read (directory_read total) = Some d →
  tiles_file total d
  ∧ ∀ i j g h, (i < j)%nat → d_groups d !! i = Some g → d_groups d !! j = Some h →
      0 ≤ first_row g ∧ first_row g + g_rows g ≤ first_row h ∧ first_row h + g_rows h ≤ d_rows d.
Proof.
  intros Hb (at_ & Ht & _ & Hat & _)%directory_read_tiles; [|done]. split; [by exists at_|].
  intros i j g h Hij Hg Hh. pose proof (tiles_order _ _ _ _ _ _ _ _ Ht ltac:(done) Hij Hg Hh).
  pose proof (tiles_bounds _ _ _ _ _ _ Ht ltac:(done) Hg). pose proof (tiles_bounds _ _ _ _ _ _ Ht ltac:(done) Hh).
  simpl in *. lia.
Qed.

(** C30. No answer leaves the file: over any source, what a point lookup, a
    conjunction, a disjunction or a substring sweep returns on an accepted
    directory is strictly ascending and below its row count. *)
Theorem seg_answers_in_file (C : SegCodecs) (read : Z → Z → option bytes) (total : Z) (d : SegmentedDirectory)
    (groups : option (list nat)) (rows : list Z) :
  (∀ o n bs, read o n = Some bs → bytes_ok bs) →
  run read (directory_read total) = Some d →
  (∃ term, run read (postings_in_groups d term groups) = Rows rows)
  ∨ (∃ terms, run read (matching_rows_all_in_groups d terms groups) = Some rows)
  ∨ (∃ terms, run read (matching_rows_any_in_groups d terms groups) = Some rows)
  ∨ (∃ substr, run read (rows_containing_in_groups d substr groups) = Some rows) →
  in_file d rows.
Proof.
  intros Hb (at_ & Ht & _)%directory_read_tiles; [|done].
  intros [[term H]|[[terms H]|[[terms H]|[substr H]]]].
  - apply (postings_safe _ _ _ _ Ht) in H as (indices & _ & H). by eapply in_groups_file.
  - by eapply match_all_safe.
  - by eapply match_any_safe.
  - by eapply sweep_safe.
Qed.

(** ** Witnesses *)

Lemma slice_read_bytes blob o n bs : bytes_ok blob → 0 ≤ o → slice_read blob o n = Some bs → bytes_ok bs.
Proof.
  intros Hb Ho. unfold slice_read. intros (e & _ & H)%bind_Some. apply get_range_Some in H as (_ & _ & _ & E); [|done].
  unfold bytes_ok in *. rewrite E, !Forall_app in Hb. tauto.
Qed.

#[local] Existing Instance sample_seg_codecs.

(** A source of the sample blob that refuses negative offsets, which no [u64] is. *)
Definition sample_read (o n : Z) : option bytes := if 0 <=? o then slice_read sample_blob o n else None.

Lemma sample_read_bytes o n bs : sample_read o n = Some bs → bytes_ok bs.
Proof.
  unfold sample_read. destruct (Z.leb_spec 0 o); [|done]. apply slice_read_bytes; [|done].
  apply (bool_decide_unpack _). vm_compute. exact I.
Qed.

Definition sample_directory : SegmentedDirectory :=
  Eval vm_compute in default (mkDirectory [] 0 Seg1 0) (run sample_read (directory_read (len sample_blob))).

Lemma seg_accepted_tiles_witness :
  ∃ at_, tiles Seg2 (mkGroupScan 0 5) (d_groups sample_directory) (mkGroupScan 5 at_)
    ∧ 5 ≤ at_ ≤ len sample_blob - SEGMENTED_TRAILER_LEN.
Proof.
  refine (proj1 (seg_accepted_tiles sample_seg_codecs sample_read (len sample_blob) sample_directory
    sample_read_bytes _)). vm_compute. reflexivity.
Defined.

Lemma seg_answers_in_file_witness : ascending [0; 2; 4] ∧ Forall (λ r, 0 ≤ r < 5) [0; 2; 4].
Proof.
  refine (seg_answers_in_file sample_seg_codecs sample_read (len sample_blob) sample_directory None [0; 2; 4]
    sample_read_bytes _ _).
  - vm_compute. reflexivity.
  - left. exists (lit "error"). vm_compute. reflexivity.
Defined.
