(* ===== verification/SegStaged.v ===== *)
(** Lookups served in rounds: [StagedSource]
    ([crates/loglake-index/src/segmented.rs]) and the driver that fetches what a
    round missed, [segmented_matching_rows] and [segmented_lookup]
    ([third_party/iceberg/src/arrow/reader/pruning.rs]).

    The store is a parameter: what [BlobRangeReader::read_at] returns for a
    range.  [view] is the source a reader would see if every range were fetched
    when asked for.  A round that misses nothing answers as [view] does, and the
    rounds end within the reads that answer takes; but the frequency-limited
    lookup stops at its first miss, so its rounds are its reads, and the driver's
    budget of rounds declines files it should answer. *)

From stdpp Require Import prelude sorting strings gmap.
From Stdlib Require Import ZArith Lia.
From S2P Require Import Prelude RustStr BTree Cursor Leb128 Bloom Postings InvertedIndex.
From S2P Require Import SegBlock SegWriter SegReader SegGroup SegQuery SegDirectory SegCorrect.

(** * The staged source *)

Abbreviation range := (Z * Z)%type.

Record StagedState := mkStaged {
  held : gmap range (option bytes);
  misses : list range;
  requests : Z;
  fetched_reads : Z;
  fetched_bytes : Z;
  held_bytes : Z;
}.

Definition staged_new : StagedState := mkStaged ∅ [] 0 0 0 0.

Definition take_misses (st : StagedState) : list range * StagedState :=
  (misses st, mkStaged (held st) [] (requests st) (fetched_reads st) (fetched_bytes st) (held_bytes st)).

Definition fill_unreadable (st : StagedState) (r : range) : StagedState :=
  mkStaged (<[r := None]> (held st)) (misses st) (requests st) (fetched_reads st) (fetched_bytes st) (held_bytes st).

Definition fill (st : StagedState) (r : range) (bs : bytes) : StagedState :=
  if negb (len bs =? r.2) then fill_unreadable st r
  else mkStaged (<[r := Some bs]> (held st)) (misses st) (requests st)
         (fetched_reads st + 1) (fetched_bytes st + r.2) (held_bytes st + r.2).

(** [StagedSource::read] on a blob of [total] bytes. *)
Definition staged_read (total : Z) (st : StagedState) (offset length : Z) : option bytes * StagedState :=
  match checked_add 64 offset length with
  | None => (None, st)
  | Some e =>
    if total <? e then (None, st) else
    let asked m := mkStaged (held st) m (requests st + 1) (fetched_reads st) (fetched_bytes st) (held_bytes st) in
    match held st !! (offset, length) with
    | Some bs => (bs, asked (misses st))
    | None =>
      (None, asked (if bool_decide ((offset, length) ∈ misses st) then misses st
                    else misses st ++ [(offset, length)]))
    end
  end.

Fixpoint run_staged {A} (total : Z) (q : Query A) (st : StagedState) : A * StagedState :=
  match q with
  | Done a => (a, st)
  | Fetch o l k => let '(r, st) := staged_read total st o l in run_staged total (k r) st
  end.

(** * The driver *)

Record RawPruneSpec := mkSpec {
  all_terms : list rstr;
  any_terms : list rstr;
  index_substrings : list rstr;
  segmented_clipped_limit : option Z;
}.

Inductive SegmentedOutcome := Matching (rows : list Z) (resident_bytes : Z) | Declined (reason : rstr).

(** The sizes the compiler gives the resident types. *)
Class Layout := { size_directory : Z; size_group : Z; size_block : Z; size_v2 : Z }.

Definition resident_bytes `{Layout} (d : SegmentedDirectory) : Z :=
  size_directory
  + sumZ ((λ g, size_group
       + sumZ ((λ b, size_block + len (first_term b)
                 + match b_v2 b with None => 0 | Some _ => size_v2 end) <$> blocks g)) <$> d_groups d).

Section Driver.
Context {C : SegCodecs} {Y : Layout}.

(** [matching = Some(match matching { Some(existing) => intersect, None => rows })] *)
Definition narrow (matching : option (list Z)) (rows : list Z) : option (list Z) :=
  Some (match matching with Some existing => intersect_sorted existing rows | None => rows end).

(** The substring loop; [None] is the early return. *)
Fixpoint narrow_substrings (d : SegmentedDirectory) (groups : option (list nat)) (substrings : list rstr)
    (matching : option (list Z)) : Query (option (option (list Z))) :=
  match substrings with
  | [] => Done (Some matching)
  | s :: substrings =>
    let! r := rows_containing_in_groups d s groups in
    match r with
    | None => Done None
    | Some rows => narrow_substrings d groups substrings (narrow matching rows)
    end
  end.

Definition unclipped (d : SegmentedDirectory) (groups : option (list nat)) (spec : RawPruneSpec)
    : Query (option (option (list Z))) :=
  let! all := (match all_terms spec with
               | [] => Done (Some None)
               | terms => let! r := matching_rows_all_in_groups d terms groups in
                          Done (rows ← r; Some (Some rows))
               end) in
  match all with
  | None => Done None
  | Some matching =>
    let! any := (match any_terms spec with
                 | [] => Done (Some matching)
                 | terms => let! r := matching_rows_any_in_groups d terms groups in
                            Done (rows ← r; Some (narrow matching rows))
                 end) in
    match any with
    | None => Done None
    | Some matching => narrow_substrings d groups (index_substrings spec) matching
    end
  end.

Definition answer (d : SegmentedDirectory) (groups : option (list nat)) (spec : RawPruneSpec)
    : Query SegmentedOutcome :=
  let finish matching :=
    match matching with
    | Some rows => Matching rows (resident_bytes d)
    | None => Declined (lit "no_hints")
    end in
  match segmented_clipped_limit spec with
  | Some clip =>
    match index_substrings spec with
    | _ :: _ => Done (Declined (lit "clipped_estimate_unavailable"))
    | [] =>
      let! r := matching_point_rows_with_df_limit_in_groups d (all_terms spec) (any_terms spec) groups clip in
      Done (match r with
            | ClipRows rows => finish (Some rows)
            | OverBudget => Declined (lit "clipped_document_frequency")
            | ClipUnanswerable => Declined (lit "unanswerable")
            end)
    end
  | None =>
    let! r := unclipped d groups spec in
    Done (match r with Some matching => finish matching | None => Declined (lit "unanswerable") end)
  end.

(** [SegmentedReader::open], or on a held directory when its length agrees; the
    directory comes back when it was parsed here. *)
Definition open_reader (total : Z) (held_dir : option SegmentedDirectory)
    : Query (option (SegmentedDirectory * option SegmentedDirectory)) :=
  match held_dir ≫= open_with_directory total with
  | Some d => Done (Some (d, None))
  | None => let! d := directory_read total in Done ((λ d, (d, Some d)) <$> d)
  end.

Definition segmented_lookup (total : Z) (row_counts : list Z) (groups : option (list nat)) (spec : RawPruneSpec)
    (held_dir : option SegmentedDirectory) : Query (SegmentedOutcome * option SegmentedDirectory) :=
  let! opened := open_reader total held_dir in
  match opened with
  | None => Done (Declined (lit "open"), None)
  | Some (d, parsed) =>
    if negb (matches_row_groups d row_counts) then Done (Declined (lit "row_domain"), parsed) else
    let! outcome := answer d groups spec in
    Done (outcome, parsed)
  end.

(** One range handed back by the store. *)
Definition fetch (store : Z → Z → option bytes) (st : StagedState) (r : range) : StagedState :=
  match store r.1 r.2 with
  | Some bs => fill st r bs
  | None => fill_unreadable st r
  end.

Definition stage_budget (spec : RawPruneSpec) : Z :=
  8 + 4 * Z.max (len (all_terms spec) + len (any_terms spec) + len (index_substrings spec)) 1.

(** The loop of [segmented_matching_rows]: the outcome, the rounds of store
    waits, and the directory to cache. *)
Fixpoint drive (fuel : nat) (store : Z → Z → option bytes) (total : Z) (row_counts : list Z)
    (groups : option (list nat)) (spec : RawPruneSpec) (directory parsed_here : option SegmentedDirectory)
    (stages : Z) (st : StagedState) : option (SegmentedOutcome * Z * option SegmentedDirectory * StagedState) :=
  match fuel with
  | O => None
  | S fuel =>
    let '((outcome, parsed), st) := run_staged total (segmented_lookup total row_counts groups spec directory) st in
    let parsed_here := match parsed with Some d => Some d | None => parsed_here end in
    let directory := match parsed with Some d => Some d | None => directory end in
    let '(ms, st) := take_misses st in
    match ms with
    | [] => Some (outcome, stages, parsed_here, st)
    | _ =>
      let stages := stages + 1 in
      if stage_budget spec <? stages then Some (Declined (lit "stages"), stages, None, st)
      else drive fuel store total row_counts groups spec directory parsed_here stages (foldl (fetch store) st ms)
    end
  end.

(** [reader]: the range reader of the blob, which a compressed one has not.  A
    round more than the budget is always enough. *)
Definition segmented_matching_rows (reader : option (Z → Z → option bytes)) (total : Z) (row_counts : list Z)
    (groups : option (list nat)) (spec : RawPruneSpec) (held_dir : option SegmentedDirectory)
    : option (SegmentedOutcome * Z * option SegmentedDirectory * StagedState) :=
  match reader with
  | None => Some (Declined (lit "compressed"), 0, None, staged_new)
  | Some store => drive (Z.to_nat (stage_budget spec) + 1) store total row_counts groups spec held_dir None 0 staged_new
  end.
End Driver.

(** * What a round sees *)

Section Rounds.
Context (store : Z → Z → option bytes) (total : Z).

(** What the store's answer to a range is held as. *)
Definition fetched (r : range) : option bytes :=
  bs ← store r.1 r.2; if len bs =? r.2 then Some bs else None.

Definition in_blob (r : range) : bool :=
  match checked_add 64 r.1 r.2 with Some e => negb (total <? e) | None => false end.

(** The source a caller that fetched every range on demand would give. *)
Definition view (o l : Z) : option bytes := if in_blob (o, l) then fetched (o, l) else None.

Definition coherent (h : gmap range (option bytes)) : Prop := ∀ r b, h !! r = Some b → b = fetched r.

(** The read needs no fetch. *)
Definition known (h : gmap range (option bytes)) (r : range) : bool :=
  negb (in_blob r) || bool_decide (is_Some (h !! r)).

Lemma staged_read_known st o l :
  coherent (held st) → known (held st) (o, l) = true →
  ∃ n, staged_read total st o l
    = (view o l, mkStaged (held st) (misses st) n (fetched_reads st) (fetched_bytes st) (held_bytes st)).
Proof.
  intros Hc Hk. unfold staged_read, known, view, in_blob in *. cbn [fst snd] in *.
  destruct (checked_add 64 o l) as [e|]; [|exists (requests st); by destruct st].
  destruct (total <? e); [exists (requests st); by destruct st|]. simpl in Hk. apply bool_decide_eq_true in Hk as [b Hb].
  rewrite Hb. exists (requests st + 1). by rewrite (Hc _ _ Hb).
Qed.

Lemma staged_read_missing st o l :
  known (held st) (o, l) = false →
  ∃ ms n, staged_read total st o l
      = (None, mkStaged (held st) ms n (fetched_reads st) (fetched_bytes st) (held_bytes st))
    ∧ (o, l) ∈ ms ∧ ∀ r, r ∈ ms ↔ r ∈ misses st ∨ r = (o, l).
Proof.
  intros Hk. unfold staged_read, known, in_blob in *. cbn [fst snd] in *. apply orb_false_iff in Hk as [Hb Hh].
  destruct (checked_add 64 o l) as [e|]; [|done]. destruct (total <? e); [done|].
  apply bool_decide_eq_false, eq_None_not_Some in Hh. rewrite Hh. eexists _, _. split; [reflexivity|].
  case_bool_decide as Hin; set_solver.
Qed.

(** A round keeps what is held and only adds misses. *)
Lemma run_staged_misses {A : Type} (q : Query A) st :
  let st' := snd (run_staged total q st) in
  held st' = held st ∧ ∀ r, r ∈ misses st → r ∈ misses st'.
Proof.
  revert st. induction q as [a|o l k IH]; intros st; simpl; [done|].
  destruct (staged_read total st o l) as [r st1] eqn:E.
  assert (held st1 = held st ∧ ∀ x, x ∈ misses st → x ∈ misses st1) as [Hh Hm].
  { unfold staged_read in E. repeat case_match; simplify_eq; simpl; set_solver. }
  destruct (IH r st1) as [Hh' Hm']. split; [by rewrite Hh'|auto].
Qed.

(** Reads an uninterrupted run makes, and those from the first unknown on. *)
Fixpoint path_len {A : Type} (q : Query A) : nat :=
  match q with Done _ => 0 | Fetch o l k => S (path_len (k (view o l))) end.

Fixpoint todo {A : Type} (h : gmap range (option bytes)) (q : Query A) : nat :=
  match q with
  | Done _ => 0
  | Fetch o l k => if known h (o, l) then todo h (k (view o l)) else S (path_len (k (view o l)))
  end.

Lemma todo_le {A : Type} h (q : Query A) : (todo h q ≤ path_len q)%nat.
Proof. induction q as [a|o l k IH]; simpl; [done|]. specialize (IH (view o l)). case_match; lia. Qed.

(** A round with nothing left to fetch is the uninterrupted run, and records no
    miss. *)
Lemma run_staged_done {A : Type} (q : Query A) st :
  coherent (held st) → todo (held st) q = 0%nat →
  fst (run_staged total q st) = run view q ∧ misses (snd (run_staged total q st)) = misses st.
Proof.
  revert st. induction q as [a|o l k IH]; intros st Hc Ht; simpl in *; [done|].
  destruct (known (held st) (o, l)) eqn:Ek; [|done].
  destruct (staged_read_known st o l Hc Ek) as [n ->].
  exact (IH (view o l) (mkStaged (held st) (misses st) n (fetched_reads st) (fetched_bytes st) (held_bytes st)) Hc Ht).
Qed.

Definition learned (ms : list range) (h h' : gmap range (option bytes)) : Prop :=
  (∀ r, is_Some (h !! r) → is_Some (h' !! r)) ∧ ∀ r, r ∈ ms → is_Some (h' !! r).

Lemma known_mono ms h h' r : learned ms h h' → known h r = true → known h' r = true.
Proof.
  intros [Hl _]. unfold known. rewrite !orb_true_iff, !bool_decide_eq_true. intros [?|?]; [by left|right; auto].
Qed.

Lemma todo_mono {A : Type} ms h h' (q : Query A) : learned ms h h' → (todo h' q ≤ todo h q)%nat.
Proof.
  intros Hl. induction q as [a|o l k IH]; simpl; [done|]. pose proof (todo_le h' (k (view o l))).
  destruct (known h (o, l)) eqn:E; [rewrite (known_mono _ _ _ _ Hl E); apply IH|]. case_match; lia.
Qed.

(** A round that is short of something learns the first thing it was short of,
    so less is left to do. *)
Lemma run_staged_progress {A : Type} (q : Query A) st h' :
  coherent (held st) → todo (held st) q ≠ 0%nat →
  misses (snd (run_staged total q st)) ≠ []
  ∧ (learned (misses (snd (run_staged total q st))) (held st) h' → (todo h' q < todo (held st) q)%nat).
Proof.
  revert st. induction q as [a|o l k IH]; intros st Hc Ht; simpl in *; [done|].
  destruct (known (held st) (o, l)) eqn:Ek.
  - destruct (staged_read_known st o l Hc Ek) as [n ->]. 
    destruct (IH (view o l) (mkStaged (held st) (misses st) n (fetched_reads st) (fetched_bytes st) (held_bytes st)) Hc Ht)
      as [Hne Hlt]. split; [done|].
    intros Hl. rewrite (known_mono _ _ _ _ Hl Ek). by apply Hlt.
  - destruct (staged_read_missing st o l Ek) as (ms & n & -> & Hin & _).
    destruct (run_staged_misses (k None) (mkStaged (held st) ms n (fetched_reads st) (fetched_bytes st) (held_bytes st)))
      as [_ Hm]. simpl in Hm. split; [intros E; apply Hm in Hin; rewrite E in Hin; by apply elem_of_nil in Hin|].
    intros [_ Hl]. assert (known h' (o, l) = true) as ->.
    { unfold known. apply orb_true_iff. right. apply bool_decide_eq_true, Hl, Hm, Hin. }
    pose proof (todo_le h' (k (view o l))). lia.
Qed.

(** Fetching a round's misses. *)
Lemma fetch_all ms st :
  coherent (held st) →
  coherent (held (foldl (fetch store) st ms)) ∧ learned ms (held st) (held (foldl (fetch store) st ms))
  ∧ misses (foldl (fetch store) st ms) = misses st.
Proof.
  revert st. induction ms as [|r ms IH]; intros st Hc; simpl; [by split_and!; [|split; [done|set_solver]|]|].
  assert (held (fetch store st r) = <[r := fetched r]> (held st) ∧ misses (fetch store st r) = misses st) as [Eh Em].
  { unfold fetch, fetched, fill, fill_unreadable. destruct (store r.1 r.2) as [bs|]; [|done]. simpl.
    by destruct (len bs =? r.2). }
  destruct (IH (fetch store st r)) as (Hc' & [Hl1 Hl2] & Hm).
  { rewrite Eh. intros x b. destruct (decide (x = r)) as [->|Hne]; [rewrite lookup_insert_eq; by intros [= <-]|].
    rewrite lookup_insert_ne by done. apply Hc. }
  split_and!; [done| |by rewrite Hm]. rewrite Eh in Hl1. split.
  - intros x Hx. apply Hl1. destruct (decide (x = r)) as [->|]; [rewrite lookup_insert_eq; eauto|by rewrite lookup_insert_ne].
  - intros x [->|Hx]%elem_of_cons; [apply Hl1; rewrite lookup_insert_eq; eauto|by apply Hl2].
Qed.

Lemma todo_bind {A B : Type} h (q : Query A) (f : A → Query B) :
  todo h q = 0%nat → todo h (q_bind q f) = todo h (f (run view q)).
Proof.
  induction q as [a|o l k IH]; simpl; [done|]. destruct (known h (o, l)); [|done]. apply IH.
Qed.

Lemma path_len_bind {A B : Type} (q : Query A) (f : A → Query B) :
  path_len (q_bind q f) = (path_len q + path_len (f (run view q)))%nat.
Proof. induction q as [a|o l k IH]; simpl; [done|]. by rewrite IH. Qed.

Lemma run_staged_bind {A B : Type} (q : Query A) (f : A → Query B) st :
  run_staged total (q_bind q f) st
  = let '(a, st') := run_staged total q st in run_staged total (f a) st'.
Proof.
  revert st. induction q as [a|o l k IH]; intros st; simpl; [done|]. destruct (staged_read total st o l). apply IH.
Qed.
End Rounds.

(** * The driver's rounds *)

Section DriverSpec.
Context {C : SegCodecs} {Y : Layout} (store : Z → Z → option bytes) (total : Z).
Context (row_counts : list Z) (groups : option (list nat)) (spec : RawPruneSpec).

Local Abbreviation Q := (segmented_lookup total row_counts groups spec).
Local Abbreviation view := (view store total).
Local Abbreviation pending := (todo store total).

(** [segmented_lookup] once a reader is open. *)
Definition lookup_opened (opened : option (SegmentedDirectory * option SegmentedDirectory))
    : Query (SegmentedOutcome * option SegmentedDirectory) :=
  match opened with
  | None => Done (Declined (lit "open"), None)
  | Some (d, parsed) =>
    if negb (matches_row_groups d row_counts) then Done (Declined (lit "row_domain"), parsed) else
    let! outcome := answer d groups spec in
    Done (outcome, parsed)
  end.

Lemma lookup_opened_parsed st opened a st' :
  run_staged total (lookup_opened opened) st = (a, st') → snd a = opened ≫= snd.
Proof.
  destruct opened as [[d parsed]|]; simpl; [|by intros [= <- <-]]. case_match; [by intros [= <- <-]|].
  rewrite run_staged_bind. destruct (run_staged total (answer d groups spec) st). by intros [= <- <-].
Qed.

(** Whether the directory was parsed here changes nothing else. *)
Lemma lookup_opened_same d p p' h :
  pending h (lookup_opened (Some (d, p))) = pending h (lookup_opened (Some (d, p')))
  ∧ fst (run view (lookup_opened (Some (d, p)))) = fst (run view (lookup_opened (Some (d, p')))).
Proof.
  cbn [lookup_opened]. case_match; [done|]. rewrite !run_bind. split; [|done].
  induction (answer d groups spec) as [a|o l k IH]; simpl; [done|].
  destruct (known total h (o, l)); [apply IH|]. by rewrite !path_len_bind.
Qed.

(** A directory parsed in a round came from ranges already held. *)
Lemma directory_staged st d st' :
  coherent store (held st) → run_staged total (directory_read total) st = (Some d, st') →
  pending (held st) (directory_read total) = 0%nat ∧ run view (directory_read total) = Some d ∧ blob_len d = total.
Proof.
  intros Hc. unfold directory_read. destruct (total <? _); [done|]. cbn [q_bind q_read run_staged run todo].
  destruct (known total (held st) (total - SEGMENTED_TRAILER_LEN, SEGMENTED_TRAILER_LEN)) eqn:Ek.
  2: { destruct (staged_read_missing store total st _ _ Ek) as (ms & n & -> & _). done. }
  destruct (staged_read_known store total st _ _ Hc Ek) as [n ->].
  destruct (view _ _ ≫= parse_trailer) as [[[[f o] l] crc]|]; [|done].
  destruct (checked_add 64 o l) as [e|]; [|done]. destruct (_ || _); [done|]. cbn [q_bind q_read run_staged run todo].
  set (st1 := mkStaged _ _ _ _ _ _). destruct (known total (held st) (o, l)) eqn:Ek2.
  2: { destruct (staged_read_missing store total st1 _ _ Ek2) as (ms & n' & -> & _). done. }
  destruct (staged_read_known store total st1 _ _ Hc Ek2) as [n' ->]. cbn [run_staged run todo].
  intros [= Hd _]. split; [done|]. split; [done|]. apply bind_Some in Hd as (dir & _ & Hd). case_match; [done|].
  by apply bind_Some in Hd as ([? ?] & _ & [= <-]).
Qed.

(** Carrying the parsed directory into the next round skips reads, and nothing
    else. *)
Lemma parsed_round dir st outcome d st' h :
  coherent store (held st) → run_staged total (Q dir) st = ((outcome, Some d), st') →
  (∀ r, is_Some (held st !! r) → is_Some (h !! r)) →
  pending h (Q (Some d)) = pending h (Q dir) ∧ fst (run view (Q (Some d))) = fst (run view (Q dir)).
Proof.
  intros Hc Hrun Hh. change (Q dir) with (q_bind (open_reader total dir) lookup_opened) in *.
  rewrite run_staged_bind in Hrun. unfold open_reader in *.
  destruct (dir ≫= open_with_directory total) as [d0|] eqn:Eo.
  { simpl in Hrun. by apply (lookup_opened_parsed st (Some (d0, None))) in Hrun. }
  rewrite run_staged_bind in Hrun. destruct (run_staged total (directory_read total) st) as [r st1] eqn:Ed.
  simpl in Hrun. apply lookup_opened_parsed in Hrun. destruct r as [d1|]; [|done]. injection Hrun as ->.
  destruct (directory_staged st d1 st1 Hc Ed) as (Ht & Hr & Hbl).
  assert (pending h (directory_read total) = 0%nat) as Ht'.
  { pose proof (todo_mono store total [] (held st) h (directory_read total)) as H.
    assert (pending h (directory_read total) ≤ 0)%nat; [|lia]. rewrite <- Ht. apply H.
    split; [done|by intros ? ?%elem_of_nil]. }
  change (Q (Some d1)) with (q_bind (open_reader total (Some d1)) lookup_opened).
  assert (open_reader total (Some d1) = Done (Some (d1, None))) as ->.
  { unfold open_reader, open_with_directory. simpl. by rewrite Hbl, Z.eqb_refl. }
  cbn [q_bind]. destruct (lookup_opened_same d1 None (Some d1) h) as [E1 E2]. rewrite E1, E2. split.
  - rewrite todo_bind; [by rewrite run_bind, Hr|]. rewrite todo_bind by done. done.
  - by rewrite !run_bind, Hr.
Qed.

Lemma stage_budget_pos : 12 ≤ stage_budget spec.
Proof. unfold stage_budget. lia. Qed.

(** The loop ends with the uninterrupted answer, or out of budget with more
    reads left than rounds. *)
Lemma drive_spec fuel dir parsed_here stages st :
  coherent store (held st) → misses st = [] → stages ≤ stage_budget spec →
  stage_budget spec - stages < Z.of_nat fuel →
  ∃ outcome stages' cached st',
    drive fuel store total row_counts groups spec dir parsed_here stages st = Some (outcome, stages', cached, st')
    ∧ (outcome = fst (run view (Q dir)) ∧ stages' ≤ stages + Z.of_nat (pending (held st) (Q dir))
       ∨ outcome = Declined (lit "stages") ∧ stages' = stage_budget spec + 1
         ∧ stage_budget spec < stages + Z.of_nat (pending (held st) (Q dir))).
Proof.
  revert dir parsed_here stages st. induction fuel as [|fuel IH]; intros dir ph stages st Hc Hm Hs Hf; [lia|].
  cbn [drive]. destruct (run_staged total (Q dir) st) as [[outcome parsed] st1] eqn:E.
  pose proof (run_staged_misses store total (Q dir) st) as [Hheld _]. rewrite E in Hheld. cbn [snd] in Hheld.
  destruct (decide (pending (held st) (Q dir) = 0%nat)) as [Ht|Ht].
  - destruct (run_staged_done store total (Q dir) st Hc Ht) as [Ho Hm1]. rewrite E in Ho, Hm1. cbn [fst snd] in *.
    cbn [take_misses]. rewrite Hm1, Hm. eexists _, _, _, _. split; [reflexivity|]. left. rewrite <- Ho. split; [done|lia].
  - set (st2 := snd (take_misses st1)).
    destruct (fetch_all store (misses st1) st2) as (Hc' & Hl & Hm').
    { unfold st2. cbn [take_misses snd held]. by rewrite Hheld. }
    destruct (run_staged_progress store total (Q dir) st (held (foldl (fetch store) st2 (misses st1))) Hc Ht)
      as [Hne Hlt]. rewrite E in Hne, Hlt. cbn [snd] in Hne, Hlt.
    assert (learned (misses st1) (held st) (held (foldl (fetch store) st2 (misses st1)))) as Hl'.
    { rewrite <- Hheld. exact Hl. }
    specialize (Hlt Hl'). cbn [take_misses]. destruct (misses st1) as [|m ms] eqn:Em; [done|].
    destruct (Z.ltb_spec (stage_budget spec) (stages + 1)).
    { eexists _, _, _, _. split; [reflexivity|]. right. split; [done|]. lia. }
    set (dir' := match parsed with Some d => Some d | None => dir end).
    set (ph' := match parsed with Some d => Some d | None => ph end).
    assert (pending (held (foldl (fetch store) st2 (m :: ms))) (Q dir') = pending (held (foldl (fetch store) st2 (m :: ms))) (Q dir)
      ∧ fst (run view (Q dir')) = fst (run view (Q dir))) as [Et Er].
    { destruct parsed as [d|]; [|done]. eapply parsed_round; [exact Hc|exact E|]. apply Hl'. }
    destruct (IH dir' ph' (stages + 1) (foldl (fetch store) st2 (m :: ms)) Hc') as (o & s & c & st' & Hd & Hres).
    { rewrite Hm'. done. } { lia. } { lia. }
    exists o, s, c, st'. split; [exact Hd|]. rewrite Et, Er in Hres. destruct Hres as [[-> ?]|(-> & -> & ?)]; [left|right].
    + split; [done|lia].
    + split_and!; [done|done|lia].
Qed.
End DriverSpec.

(** * Properties *)

(** C29. A staged lookup of a blob whose ranges can be read (a compressed one is
    declined at once) always comes to an end, and its answer is the one an
    uninterrupted reader over the same store gives, in no more rounds than that
    reader makes reads; the only other outcome is running out of the budget of
    rounds, which needs more reads than the budget. *)
Theorem staged_driver_exact (C : SegCodecs) (Y : Layout) (store : Z → Z → option bytes) (total : Z)
    (row_counts : list Z) (groups : option (list nat)) (spec : RawPruneSpec) (held_dir : option SegmentedDirectory) :
  let lookup := segmented_lookup total row_counts groups spec held_dir in
  ∃ outcome stages cached st,
    segmented_matching_rows (Some store) total row_counts groups spec held_dir = Some (outcome, stages, cached, st)
    ∧ (outcome = fst (run (view store total) lookup) ∧ stages ≤ Z.of_nat (path_len store total lookup)
       ∨ outcome = Declined (lit "stages") ∧ stages = stage_budget spec + 1
         ∧ stage_budget spec < Z.of_nat (path_len store total lookup)).
Proof.
  intros lookup. pose proof (stage_budget_pos spec) as Hb.
  destruct (drive_spec store total row_counts groups spec (Z.to_nat (stage_budget spec) + 1) held_dir None 0 staged_new)
    as (o & s & c & st & Hd & Hres); [done|done|lia|lia|].
  exists o, s, c, st. split; [exact Hd|]. cbn [staged_new held] in Hres. fold lookup in Hres.
  pose proof (todo_le store total ∅ lookup). destruct Hres as [[? ?]|(? & ? & ?)]; [left|right]; split_and!; [done|lia|done|done|lia].
Qed.

#[local] Existing Instance sample_seg_codecs.

Definition sample_layout : Layout := {| size_directory := 56; size_group := 64; size_block := 56; size_v2 := 32 |}.
#[local] Existing Instance sample_layout.

(** Six row groups of one row, each with the term. *)
Definition six_groups : list (list rstr) := replicate 6 [lit "disk error"].
Definition six_blob : bytes := blob_of Seg1 4096 Default six_groups.

Definition plain_spec : RawPruneSpec := mkSpec [lit "error"] [] [] None.
Definition clipped_spec : RawPruneSpec := mkSpec [lit "error"] [] [] (Some 100).

(** The outcome and rounds of a cold lookup of the six groups. *)
Definition cold (spec : RawPruneSpec) : option (SegmentedOutcome * Z) :=
  '(o, s, _, _) ← segmented_matching_rows (Some (slice_read six_blob)) (len six_blob) (replicate 6 1) None spec None; Some (o, s).

(** A clipped lookup gives up where it should answer: over six row groups
    that all have the term the uninterrupted lookup returns the six rows, well
    under the limit, and the same lookup without the limit is answered in four
    rounds; but each round of the limited one stops at its first missing range,
    so the budget of twelve rounds is spent and the file is declined. *)
Theorem staged_clipped_declines :
  fst (run (view (slice_read six_blob) (len six_blob))
         (segmented_lookup (len six_blob) (replicate 6 1) None clipped_spec None))
    = Matching [0; 1; 2; 3; 4; 5] 800
  ∧ cold plain_spec = Some (Matching [0; 1; 2; 3; 4; 5] 800, 4)
  ∧ cold clipped_spec = Some (Declined (lit "stages"), 13).
Proof. vm_compute. done. Qed.
