(* ===== verification/TimeColumn.v ===== *)
(** Time columns: the timestamp helpers of [crates/loglake-core/src/lib.rs].

    [timestamp] is kept in microseconds and its exact sibling [timestamp_ns] in
    nanoseconds; every ordered path reads one of them as unix nanoseconds
    through [column_nanos].  An Arrow primitive array is its value buffer and its
    validity. *)

From stdpp Require Import prelude sorting strings.
From Stdlib Require Import ZArith Lia.
From S2P Require Import Prelude RustStr.

Definition i64 (z : Z) : Prop := - 2 ^ 63 ≤ z < 2 ^ 63.

(** [i64::saturating_mul] *)
Definition saturating_mul (a b : Z) : Z := Z.max (- 2 ^ 63) (Z.min (a * b) (2 ^ 63 - 1)).

Inductive TimeUnit := Second | Millisecond | Microsecond | Nanosecond.

Inductive DataType :=
  | Int64
  | Timestamp (unit : TimeUnit) (tz : option rstr)
  | Utf8
  | Float64
  | Boolean.

Definition TIMESTAMP_TZ : rstr := lit "+00:00".
Definition TIMESTAMP_UNIT : TimeUnit := Microsecond.
Definition TIMESTAMP_NS_COLUMN : rstr := lit "timestamp_ns".

Definition timestamp_data_type : DataType := Timestamp TIMESTAMP_UNIT (Some TIMESTAMP_TZ).

(** A [PrimitiveArray] of 64-bit values. *)
Record PrimArray := mkPrim { prim_values : list Z; prim_nulls : option (list bool) }.

(** What a column may be, as far as [downcast_ref] tells it apart. *)
Inductive AnyArray :=
  | Int64Array (a : PrimArray)
  | TimestampArray (unit : TimeUnit) (a : PrimArray)
  | OtherArray (n : nat).

Definition array_len (a : AnyArray) : nat :=
  match a with
  | Int64Array a | TimestampArray _ a => length (prim_values a)
  | OtherArray n => n
  end.

Definition scale (a : PrimArray) (factor : Z) : PrimArray :=
  mkPrim ((λ v, saturating_mul v factor) <$> prim_values a) (prim_nulls a).

Definition column_nanos (array : AnyArray) : option PrimArray :=
  match array with
  | Int64Array a => Some a
  | TimestampArray Nanosecond a => Some (mkPrim (prim_values a) (prim_nulls a))
  | TimestampArray Microsecond a => Some (scale a 1000)
  | TimestampArray Millisecond a => Some (scale a 1000000)
  | TimestampArray Second a => Some (scale a 1000000000)
  | OtherArray _ => None
  end.

Definition nanos_per_value (t : DataType) : option Z :=
  match t with
  | Int64 => Some 1
  | Timestamp Nanosecond _ => Some 1
  | Timestamp Microsecond _ => Some 1000
  | Timestamp Millisecond _ => Some 1000000
  | Timestamp Second _ => Some 1000000000
  | _ => None
  end.

(** [div_euclid] by a positive divisor. *)
Definition micros_from_nanos (nanos : Z) : Z := nanos / 1000.

(** [schema] by its column names. *)
Definition nanos_source_column (names : list rstr) (declared : rstr) : rstr :=
  if bool_decide (declared = lit "timestamp") && bool_decide (TIMESTAMP_NS_COLUMN ∈ names)
  then TIMESTAMP_NS_COLUMN else declared.

(** * Facts *)

Lemma column_nanos_length a p : column_nanos a = Some p → length (prim_values p) = array_len a.
Proof.
  destruct a as [a|[] a|n]; simpl; try done; intros [= <-]; simpl; by rewrite ?length_fmap.
Qed.

(** Reading a column as nanoseconds keeps its order, saturation included. *)
Lemma saturating_mul_mono f a b : 0 ≤ f → a ≤ b → saturating_mul a f ≤ saturating_mul b f.
Proof.
  intros Hf Hab. unfold saturating_mul. pose proof (Z.mul_le_mono_nonneg_r a b f Hf Hab). lia.
Qed.

Lemma column_nanos_sorted a p :
  column_nanos a = Some p →
  StronglySorted Z.le (match a with Int64Array v | TimestampArray _ v => prim_values v | _ => [] end) →
  StronglySorted Z.le (prim_values p).
Proof.
  assert (∀ f l, 0 ≤ f → StronglySorted Z.le l →
    StronglySorted Z.le ((λ v, saturating_mul v f) <$> l)) as Hscale.
  { intros f l Hf. induction 1 as [|x l _ IH Hx]; [constructor|]. rewrite fmap_cons. constructor; [done|].
    apply Forall_fmap. eapply Forall_impl; [exact Hx|]. intros y. by apply saturating_mul_mono. }
  destruct a as [a|[] a|n]; simpl; try done; intros [= <-]; simpl; try done; by apply Hscale.
Qed.

(** The microsecond map keeps the order of the nanoseconds, below the epoch too. *)
Lemma micros_from_nanos_mono a b : a ≤ b → micros_from_nanos a ≤ micros_from_nanos b.
Proof. intros. unfold micros_from_nanos. apply Z.div_le_mono; lia. Qed.

Lemma micros_from_nanos_bounds n :
  1000 * micros_from_nanos n ≤ n < 1000 * micros_from_nanos n + 1000.
Proof. unfold micros_from_nanos. Z.div_mod_to_equations. lia. Qed.
