(* ===== verification/Merge.v ===== *)
(** The k-way timestamp merge of compaction: [crates/loglake-storage/src/merge.rs].

    Two engines produce one row order.  [compute_merge_plan] plans whole runs
    over the timestamp columns; [TimestampKwayMerge] pops a row at a time from
    streamed batches.  Both refine one specification, [merge_order]: the rows of
    all inputs, each once, sorted by timestamp in the merge direction, ties by
    input and then by row.  Wall-clock attribution is left out. *)

From stdpp Require Import prelude sorting.
From Stdlib Require Import ZArith Lia.
From S2P Require Import Prelude.

(** * The heap

    [BinaryHeap<(i64, Reverse<usize>)>]: the greatest key first, the lowest index
    on a tie.  The standard library promises which element [pop] returns, not how
    the heap is laid out, so the heap is the list of its elements. *)

Definition beats (x y : Z * nat) : bool :=
  (y.1 <? x.1) || ((x.1 =? y.1) && (x.2 <? y.2)%nat).

Fixpoint heap_max (h : list (Z * nat)) : option (Z * nat) :=
  match h with
  | [] => None
  | x :: h => match heap_max h with
              | Some y => if beats y x then Some y else Some x
              | None => Some x
              end
  end.

Fixpoint remove_one (x : Z * nat) (h : list (Z * nat)) : list (Z * nat) :=
  match h with
  | [] => []
  | y :: h => if bool_decide (x = y) then h else y :: remove_one x h
  end.

Definition heap_pop (h : list (Z * nat)) : option ((Z * nat) * list (Z * nat)) :=
  m ← heap_max h; Some (m, remove_one m h).

Lemma beats_trans x y z : beats x y = true → beats y z = true → beats x z = true.
Proof.
  unfold beats. rewrite !orb_true_iff, !andb_true_iff, !Z.ltb_lt, !Z.eqb_eq, !Nat.ltb_lt. lia.
Qed.

Lemma beats_total x y : beats x y = false → x = y ∨ beats y x = true.
Proof.
  destruct x as [k i], y as [k' j]. unfold beats. simpl.
  rewrite orb_false_iff, andb_false_iff, orb_true_iff, andb_true_iff, !Z.ltb_lt, !Z.ltb_ge,
    !Z.eqb_eq, !Z.eqb_neq, Nat.ltb_lt, Nat.ltb_ge.
  intros [? ?]. destruct (decide (k = k')) as [->|]; [|lia].
  destruct (decide (i = j)) as [->|]; [by left|lia].
Qed.

Lemma heap_max_spec h m :
  heap_max h = Some m → m ∈ h ∧ ∀ x, x ∈ h → x = m ∨ beats m x = true.
Proof.
  revert m. induction h as [|x h IH]; intros m; simpl; [done|].
  destruct (heap_max h) as [y|] eqn:E.
  - destruct (IH y eq_refl) as [Hy Hmax]. destruct (beats y x) eqn:Eb; intros [= <-].
    + split; [by right|]. intros z [->|Hz]%elem_of_cons; auto.
    + split; [left|]. intros z [->|Hz]%elem_of_cons; [by left|].
      apply beats_total in Eb as [->|Eb]; [auto|].
      destruct (Hmax z Hz) as [->|?]; [by right|right; by eapply beats_trans].
  - intros [= <-]. split; [left|]. destruct h as [|z h]; [set_solver|].
    simpl in E. by destruct (heap_max h) as [w|]; [destruct (beats w z)|].
Qed.

Lemma heap_max_None h : heap_max h = None → h = [].
Proof. destruct h as [|x h]; [done|]. simpl. by destruct (heap_max h) as [y|]; [destruct (beats y x)|]. Qed.

Lemma remove_one_Permutation x h : x ∈ h → h ≡ₚ x :: remove_one x h.
Proof.
  induction h as [|y h IH]; [set_solver|]. simpl. case_bool_decide as E; [by subst|].
  intros [?|Hin]%elem_of_cons; [done|]. rewrite (IH Hin) at 1. apply Permutation_swap.
Qed.

Lemma heap_pop_None h : heap_pop h = None → h = [].
Proof. unfold heap_pop. destruct (heap_max h) eqn:E; [done|]. intros _. by apply heap_max_None. Qed.

Lemma heap_pop_Some h m h' :
  heap_pop h = Some (m, h') → h ≡ₚ m :: h' ∧ ∀ x, x ∈ h' → x = m ∨ beats m x = true.
Proof.
  unfold heap_pop. intros (m' & [Hin Hmax]%heap_max_spec & [= -> <-])%bind_Some.
  pose proof (remove_one_Permutation m h Hin) as Hp. split; [done|].
  intros x Hx. apply Hmax. rewrite Hp. by right.
Qed.

(** * The plan *)

Record MergeRun := mkRun { input_index : nat; start_row : nat; row_count : nat }.

(** [i64::wrapping_neg] *)
Definition wrapping_neg (ts : Z) : Z := if ts =? - 2 ^ 63 then - 2 ^ 63 else - ts.

Definition key (descending : bool) (ts : Z) : Z := if descending then ts else wrapping_neg ts.

Definition initial_heap (inputs : list (list Z)) (descending : bool) : list (Z * nat) :=
  omap (λ '(i, a), match a with [] => None | ts :: _ => Some (key descending ts, i) end)
    (imap pair inputs).

(** The win predicate: ahead of the rival's head, or level with it from a lower
    input. *)
Definition still_wins (descending : bool) (i : nat) (rival : Z * nat) (ts : Z) : bool :=
  let k := key descending ts in
  (rival.1 <? k) || ((k =? rival.1) && (i <? rival.2)%nat).

(** Where the winner's run ends. *)
Definition run_end (descending : bool) (a : list Z) (i start : nat) (h : list (Z * nat)) : nat :=
  match heap_max h with
  | None => length a
  | Some rival => (start + partition_point (still_wins descending i rival) (drop start a))%nat
  end.

Fixpoint plan_loop (fuel : nat) (inputs : list (list Z)) (descending : bool)
    (h : list (Z * nat)) (pos : list nat) (plan : list MergeRun) : option (list MergeRun) :=
  match fuel with
  | O => None
  | S fuel =>
    match heap_pop h with
    | None => Some plan
    | Some ((_, i), h) =>
      let a := default [] (inputs !! i) in
      let start := default 0%nat (pos !! i) in
      let e := run_end descending a i start h in
      let plan := plan ++ [mkRun i start (e - start)] in
      let pos := <[i := e]> pos in
      match a !! e with
      | Some ts => plan_loop fuel inputs descending ((key descending ts, i) :: h) pos plan
      | None => plan_loop fuel inputs descending h pos plan
      end
    end
  end.

Definition total_rows (inputs : list (list Z)) : nat := sum_list_with length inputs.

Definition compute_merge_plan (inputs : list (list Z)) (descending : bool) : option (list MergeRun) :=
  plan_loop (S (total_rows inputs)) inputs descending (initial_heap inputs descending)
    (replicate (length inputs) 0%nat) [].

(** ** Chunks *)

(** The inner [while remaining > 0], a run cut at chunk boundaries.  [fuel] bounds
    its turns: each takes at least one row. *)
Fixpoint split_run (fuel : nat) (chunk_rows i start remaining : nat)
    (chunks : list (list MergeRun)) (cur : list MergeRun) (cur_rows : nat)
    : list (list MergeRun) * list MergeRun * nat :=
  match fuel, remaining with
  | S fuel, S _ =>
    let take := Nat.min remaining (chunk_rows - cur_rows) in
    let cur := cur ++ [mkRun i start take] in
    let cur_rows := (cur_rows + take)%nat in
    let start := (start + take)%nat in
    let remaining := (remaining - take)%nat in
    if (cur_rows =? chunk_rows)%nat
    then split_run fuel chunk_rows i start remaining (chunks ++ [cur]) [] 0
    else split_run fuel chunk_rows i start remaining chunks cur cur_rows
  | _, _ => (chunks, cur, cur_rows)
  end.

Definition split_step (chunk_rows : nat) (s : list (list MergeRun) * list MergeRun * nat)
    (run : MergeRun) : list (list MergeRun) * list MergeRun * nat :=
  let '(chunks, cur, cur_rows) := s in
  split_run (row_count run) chunk_rows (input_index run) (start_row run) (row_count run)
    chunks cur cur_rows.

Definition split_plan_chunks (plan : list MergeRun) (chunk_rows : nat) : list (list MergeRun) :=
  let '(chunks, cur, _) := foldl (split_step (Nat.max chunk_rows 1)) ([], [], 0%nat) plan in
  match cur with [] => chunks | _ => chunks ++ [cur] end.

(** The rows a plan takes, in order. *)
Definition run_rows (r : MergeRun) : list (nat * nat) :=
  pair (input_index r) <$> seq (start_row r) (row_count r).
Definition plan_rows (plan : list MergeRun) : list (nat * nat) := plan ≫= run_rows.
#[global] Arguments plan_rows : simpl never.

Lemma plan_rows_cons r p : plan_rows (r :: p) = run_rows r ++ plan_rows p.
Proof. reflexivity. Qed.

Lemma plan_rows_app p q : plan_rows (p ++ q) = plan_rows p ++ plan_rows q.
Proof. apply bind_app. Qed.

(** * The specification *)

Section Order.
Context (descending : bool).

(** [a] comes strictly before [b] in the merge direction. *)
Definition ts_before (a b : Z) : Prop := if descending then b < a else a < b.
Definition ts_le (a b : Z) : Prop := if descending then b ≤ a else a ≤ b.

(** A timestamp the merge can order: an [i64], and not the one [wrapping_neg]
    maps to itself when the merge negates. *)
Definition ts_ok (ts : Z) : Prop := - 2 ^ 63 ≤ ts < 2 ^ 63 ∧ (descending = false → ts ≠ - 2 ^ 63).

Definition input_ok (a : list Z) : Prop := StronglySorted ts_le a ∧ Forall ts_ok a.

Lemma key_lt a b : ts_ok a → ts_ok b → key descending b < key descending a ↔ ts_before a b.
Proof.
  unfold ts_ok, ts_before, key, wrapping_neg. destruct descending; [lia|].
  intros [_ Ha] [_ Hb]. rewrite !(proj2 (Z.eqb_neq _ _)) by auto. lia.
Qed.

Lemma key_eq a b : ts_ok a → ts_ok b → key descending a = key descending b ↔ a = b.
Proof.
  unfold ts_ok, key, wrapping_neg. destruct descending; [lia|].
  intros [_ Ha] [_ Hb]. rewrite !(proj2 (Z.eqb_neq _ _)) by auto. lia.
Qed.

Context (inputs : list (list Z)).

(** A row of the output: input and offset in it. *)
Abbreviation row := (nat * nat)%type (only parsing).

Definition ts_at (x : row) : Z := default 0 (a ← inputs !! x.1; a !! x.2).
Definition is_row (x : row) : Prop := ∃ a, inputs !! x.1 = Some a ∧ (x.2 < length a)%nat.

Definition row_before (x y : row) : Prop :=
  ts_before (ts_at x) (ts_at y)
  ∨ ts_at x = ts_at y ∧ ((x.1 < y.1)%nat ∨ x.1 = y.1 ∧ (x.2 < y.2)%nat).

(** The one row order a merge may produce. *)
Definition merge_order (out : list row) : Prop :=
  StronglySorted row_before out ∧ ∀ x, x ∈ out ↔ is_row x.

#[global] Instance row_before_strict : StrictOrder row_before.
Proof.
  unfold row_before, ts_before. split.
  - intros x. unfold complement. destruct descending; lia.
  - intros x y z. destruct descending; lia.
Qed.

Lemma merge_order_unique out out' : merge_order out → merge_order out' → out = out'.
Proof. intros [H1 H2] [H3 H4]. apply (sorted_ext row_before); [done..|]. intros x. by rewrite H2, H4. Qed.

(** ** Merging in progress *)

Definition taken (off : list nat) (x : row) : Prop := ∃ o, off !! x.1 = Some o ∧ (x.2 < o)%nat.

(** What both engines maintain: [off] rows of each input are out, in order, and
    nothing left belongs before them. *)
Definition merge_inv (out : list row) (off : list nat) : Prop :=
  length off = length inputs
  ∧ (∀ i a o, inputs !! i = Some a → off !! i = Some o → (o ≤ length a)%nat)
  ∧ StronglySorted row_before out
  ∧ (∀ x, x ∈ out ↔ taken off x)
  ∧ ∀ x y, x ∈ out → is_row y → ¬ taken off y → row_before x y.

Context (Hin : Forall input_ok inputs).

Lemma input_ok_at i a : inputs !! i = Some a → input_ok a.
Proof. intros H. rewrite Forall_forall in Hin. by eapply Hin, list_elem_of_lookup_2. Qed.

Lemma ts_at_lookup i a r ts : inputs !! i = Some a → a !! r = Some ts → ts_at (i, r) = ts.
Proof. unfold ts_at. simpl. intros -> H. simpl. by rewrite H. Qed.

Lemma ts_ok_at i a r ts : inputs !! i = Some a → a !! r = Some ts → ts_ok ts.
Proof.
  intros Ha Hr. apply input_ok_at in Ha as [_ Ha]. rewrite Forall_forall in Ha.
  by eapply Ha, list_elem_of_lookup_2.
Qed.

Lemma sorted_lookup a r s x y :
  StronglySorted ts_le a → (r < s)%nat → a !! r = Some x → a !! s = Some y → ts_le x y.
Proof.
  intros H. revert r s. induction H as [|z a _ IH Hz]; intros [|r] [|s] Hrs Hx Hy; try (done || lia).
  - injection Hx as ->. rewrite Forall_forall in Hz. by eapply Hz, list_elem_of_lookup_2.
  - apply (IH r s); [lia|done..].
Qed.

Lemma row_before_same i a r s :
  inputs !! i = Some a → (r < s)%nat → (s < length a)%nat → row_before (i, r) (i, s).
Proof.
  intros Ha Hrs Hs. destruct (lookup_lt_is_Some_2 a r) as [x Hx]; [lia|].
  destruct (lookup_lt_is_Some_2 a s) as [y Hy]; [lia|].
  unfold row_before. rewrite (ts_at_lookup i a r x), (ts_at_lookup i a s y) by done. simpl.
  pose proof (sorted_lookup a r s x y (proj1 (input_ok_at i a Ha)) Hrs Hx Hy).
  unfold ts_le, ts_before in *. destruct descending; lia.
Qed.

Lemma taken_insert off i s e x :
  off !! i = Some s → taken (<[i := e]> off) x ↔ if decide (x.1 = i) then (x.2 < e)%nat else taken off x.
Proof.
  intros Hi. unfold taken. destruct x as [j r]. simpl. destruct (decide (j = i)) as [->|Hne].
  - rewrite list_lookup_insert_eq by (by eapply lookup_lt_Some). naive_solver.
  - by rewrite list_lookup_insert_ne.
Qed.

(** Emitting a run that stays ahead of everything left in the other inputs. *)
Lemma merge_inv_run out off i a s n :
  merge_inv out off → inputs !! i = Some a → off !! i = Some s → (s + n ≤ length a)%nat →
  (∀ j y, (j < n)%nat → is_row y → ¬ taken off y → y.1 ≠ i → row_before (i, (s + j)%nat) y) →
  merge_inv (out ++ (pair i <$> seq s n)) (<[i := (s + n)%nat]> off).
Proof.
  intros (Hlen & Hle & Hsort & Hout & Hrest) Ha Hs Hn Hahead.
  assert (∀ x, x ∈ pair i <$> seq s n ↔ x.1 = i ∧ (s ≤ x.2 < s + n)%nat) as Hrun.
  { intros [j r]. rewrite list_elem_of_fmap. setoid_rewrite elem_of_seq. simpl. split.
    - intros (? & [= -> ->] & ?). done.
    - intros [-> ?]. eauto. }
  assert (∀ x, ¬ taken off x → x.1 = i → (s ≤ x.2)%nat) as Hnt.
  { intros [j r] H E. simpl in *. subst j. destruct (decide (s ≤ r)%nat); [done|].
    exfalso. apply H. exists s. simpl. split; [done|lia]. }
  split; [by rewrite length_insert|]. split.
  { intros j b o Hb. destruct (decide (j = i)) as [->|Hne].
    - rewrite list_lookup_insert_eq by (by eapply lookup_lt_Some). intros [= <-]. by simplify_eq.
    - rewrite list_lookup_insert_ne by done. eauto. }
  split; [|split].
  - apply sorted_app; [apply _|]. split; [done|]. split.
    + clear -Ha Hn Hin. revert s Hn. induction n as [|n IH]; intros s Hn; simpl; constructor.
      * apply IH. lia.
      * apply Forall_fmap, Forall_seq. intros r Hr. simpl. apply (row_before_same i a); [done|lia..].
    + intros x y Hx Hy%Hrun. destruct y as [j r]. simpl in *. destruct Hy as [-> Hr].
      apply Hrest; [done| |].
      * exists a. simpl. split; [done|lia].
      * intros (o & Ho & Hlt). simpl in *. simplify_eq. lia.
  - intros x. rewrite elem_of_app, Hout, Hrun, (taken_insert off i s) by done.
    destruct (decide (x.1 = i)) as [E|]; [|tauto]. unfold taken. rewrite E, Hs. split.
    + intros [(o & [= <-] & ?)|[_ ?]]; lia.
    + intros ?. destruct (decide (x.2 < s)%nat); [left; eauto|right; lia].
  - intros x y Hx Hy Hnty. rewrite (taken_insert off i s) in Hnty by done.
    apply elem_of_app in Hx as [Hx|Hx].
    + apply Hrest; [done..|]. intros Ht. apply Hnty. destruct (decide (y.1 = i)) as [E|]; [|done].
      destruct Ht as (o & Ho & Hlt). rewrite E in Ho. simplify_eq. lia.
    + apply Hrun in Hx. destruct x as [j r]. simpl in Hx. destruct Hx as [-> Hr].
      destruct y as [j r']. simpl in *. destruct (decide (j = i)) as [->|Hne].
      * destruct Hy as (b & Hb & Hr'). simpl in *. simplify_eq.
        apply (row_before_same i a); [done|lia..].
      * replace r with (s + (r - s))%nat by lia. apply Hahead; [lia|done..].
Qed.

(** ** The heap of heads *)

(** [k] is the key of the next row of input [i]. *)
Definition head_of (off : list nat) (i : nat) (k : Z) : Prop :=
  ∃ a s ts, inputs !! i = Some a ∧ off !! i = Some s ∧ a !! s = Some ts ∧ k = key descending ts.

Definition heap_inv (off : list nat) (h : list (Z * nat)) : Prop :=
  NoDup h.*2 ∧ ∀ k i, (k, i) ∈ h ↔ head_of off i k.

Lemma beats_before i r a ts j r' b ts' :
  inputs !! i = Some a → a !! r = Some ts → inputs !! j = Some b → b !! r' = Some ts' →
  beats (key descending ts, i) (key descending ts', j) = true → row_before (i, r) (j, r').
Proof.
  intros Ha Hr Hb Hr' H. unfold beats in H. simpl in H.
  pose proof (ts_ok_at i a r ts Ha Hr). pose proof (ts_ok_at j b r' ts' Hb Hr').
  unfold row_before. rewrite (ts_at_lookup i a r ts), (ts_at_lookup j b r' ts') by done. simpl.
  apply orb_true_iff in H as [H%Z.ltb_lt|[H%Z.eqb_eq Hij%Nat.ltb_lt]%andb_true_iff].
  - left. by apply key_lt.
  - right. split; [by apply (key_eq ts ts')|]. by left.
Qed.

(** A row still to come is at or after the head of its input. *)
Lemma remaining_head out off y :
  merge_inv out off → is_row y → ¬ taken off y →
  ∃ b s ts, inputs !! y.1 = Some b ∧ off !! y.1 = Some s ∧ b !! s = Some ts
    ∧ ((y.1, s) = y ∨ row_before (y.1, s) y).
Proof.
  intros (Hlen & _) (b & Hb & Hr) Hnt. destruct y as [j r]. simpl in *.
  destruct (lookup_lt_is_Some_2 off j) as [s Hs].
  { rewrite Hlen. by eapply lookup_lt_Some. }
  assert (s ≤ r)%nat as Hsr.
  { destruct (decide (s ≤ r)%nat); [done|]. exfalso. apply Hnt. exists s. simpl. split; [done|lia]. }
  destruct (lookup_lt_is_Some_2 b s) as [ts Hts]; [lia|].
  exists b, s, ts. do 3 (split; [done|]). destruct (decide (s = r)) as [->|]; [by left|right].
  apply (row_before_same j b); [done|lia..].
Qed.

Lemma ahead_of_rest out off i r a ts (h : list (Z * nat)) :
  merge_inv out off → inputs !! i = Some a → a !! r = Some ts →
  (∀ k j, (k, j) ∈ h ↔ j ≠ i ∧ head_of off j k) →
  (∀ x, x ∈ h → beats (key descending ts, i) x = true) →
  ∀ y, is_row y → ¬ taken off y → y.1 ≠ i → row_before (i, r) y.
Proof.
  intros Hinv Ha Hr Hh Hwin y Hy Hnt Hne.
  destruct (remaining_head out off y Hinv Hy Hnt) as (b & s & ts' & Hb & Hs & Hts & Hle).
  assert (beats (key descending ts, i) (key descending ts', y.1) = true) as Hbeat.
  { apply Hwin, Hh. split; [done|]. by exists b, s, ts'. }
  pose proof (beats_before i r a ts y.1 s b ts' Ha Hr Hb Hts Hbeat).
  destruct Hle as [<-|]; [done|]. by transitivity (y.1, s).
Qed.

(** ** The plan loop *)

Lemma heap_inv_pop off h k i h' :
  heap_inv off h → h ≡ₚ (k, i) :: h' →
  head_of off i k ∧ NoDup h'.*2 ∧ ∀ k' j, (k', j) ∈ h' ↔ j ≠ i ∧ head_of off j k'.
Proof.
  intros [Hnd Hh] Hp. rewrite Hp in Hnd. apply NoDup_cons in Hnd as [Hni Hnd]. simpl in Hni.
  split; [apply Hh; rewrite Hp; left|]. split; [done|]. intros k' j. rewrite <- Hh, Hp, elem_of_cons.
  split.
  - intros Hin'. split; [|by right]. intros ->. apply Hni. apply list_elem_of_fmap. by exists (k', i).
  - intros [Hne [[= -> ->]|?]]; done.
Qed.

(** The heap after input [i] moved on to row [e]. *)
Lemma heap_inv_advance off i a s e h' :
  inputs !! i = Some a → off !! i = Some s → NoDup h'.*2 →
  (∀ k' j, (k', j) ∈ h' ↔ j ≠ i ∧ head_of off j k') →
  heap_inv (<[i := e]> off)
    (match a !! e with Some ts => (key descending ts, i) :: h' | None => h' end).
Proof.
  intros Ha Hs Hnd Hh.
  assert (∀ j k', head_of (<[i := e]> off) j k' ↔
    if decide (j = i) then ∃ ts, a !! e = Some ts ∧ k' = key descending ts else head_of off j k') as Hhead.
  { intros j k'. unfold head_of. destruct (decide (j = i)) as [->|Hne].
    - rewrite list_lookup_insert_eq by (by eapply lookup_lt_Some). rewrite Ha. naive_solver.
    - by rewrite list_lookup_insert_ne. }
  assert (i ∉ h'.*2) as Hni.
  { intros ([k j] & -> & Hin')%list_elem_of_fmap. by apply Hh in Hin' as [? _]. }
  split.
  - destruct (a !! e); [|done]. by apply NoDup_cons.
  - intros k j. rewrite Hhead. destruct (decide (j = i)) as [->|Hne].
    + destruct (a !! e) as [ts|]; [rewrite elem_of_cons|]; rewrite Hh; naive_solver.
    + destruct (a !! e) as [ts|]; [rewrite elem_of_cons|]; rewrite Hh; naive_solver.
Qed.

Lemma run_end_spec out off i a s ts h h' :
  merge_inv out off → inputs !! i = Some a → off !! i = Some s → a !! s = Some ts →
  (∀ k' j, (k', j) ∈ h' ↔ j ≠ i ∧ head_of off j k') →
  (∀ x, x ∈ h' → x = h ∨ beats (key descending ts, i) x = true) → h = (key descending ts, i) →
  let e := run_end descending a i s h' in
  (s < e ≤ length a)%nat
  ∧ ∀ j y, (s + j < e)%nat → is_row y → ¬ taken off y → y.1 ≠ i → row_before (i, (s + j)%nat) y.
Proof.
  intros Hinv Ha Hs Hts Hh Hbest -> e. apply lookup_lt_Some in Hts as Hlt.
  unfold e, run_end. destruct (heap_max h') as [rival|] eqn:Em.
  - apply heap_max_spec in Em as [Hriv Hmax]. destruct rival as [rk r].
    assert (r ≠ i) as Hne by (by apply Hh in Hriv as [? _]).
    set (p := still_wins _ _ _). pose proof (partition_point_le p (drop s a)) as Hle.
    rewrite length_drop in Hle.
    assert (0 < partition_point p (drop s a))%nat as Hpos.
    { apply (partition_point_pos _ _ ts); [by rewrite head_lookup, lookup_drop, Nat.add_0_r|].
      destruct (Hbest _ Hriv) as [[= -> ->]|Hb]; [done|]. exact Hb. }
    split; [lia|]. intros j y Hj. destruct (lookup_lt_is_Some_2 a (s + j)) as [t Ht]; [lia|].
    assert (p t = true) as Hp
      by (apply (partition_point_lookup p (drop s a) j); [lia|by rewrite lookup_drop]).
    eapply ahead_of_rest; [done..|]. intros x Hx.
    destruct (Hmax x Hx) as [->|?]; [exact Hp|]. by apply (beats_trans _ (rk, r)).
  - apply heap_max_None in Em as ->. split; [lia|]. intros j y Hj Hy Hnt Hne.
    destruct (remaining_head out off y Hinv Hy Hnt) as (b & s' & t & Hb & Hs' & Ht & _).
    exfalso. apply (not_elem_of_nil (key descending t, y.1)). apply Hh. split; [done|].
    by exists b, s', t.
Qed.

Definition all_rows : list (nat * nat) := concat (imap (λ i a, pair i <$> seq 0 (length a)) inputs).

Lemma merge_inv_length out off : merge_inv out off → (length out ≤ total_rows inputs)%nat.
Proof.
  intros (Hlen & Hle & Hsort & Hout & _).
  assert (length all_rows = total_rows inputs) as <-.
  { unfold all_rows, total_rows. clear. generalize (pair : nat → nat → nat * nat).
    induction inputs as [|a l IH] using rev_ind; intros f; [done|].
    rewrite imap_app, concat_app, length_app, IH, sum_list_with_app. simpl.
    by rewrite app_nil_r, length_fmap, length_seq, Nat.add_0_r. }
  apply submseteq_length, NoDup_submseteq; [by apply (sorted_NoDup row_before)|].
  intros [i r] (o & Ho & Hr)%Hout. simpl in *.
  destruct (lookup_lt_is_Some_2 inputs i) as [a Ha]; [rewrite <- Hlen; by eapply lookup_lt_Some|].
  specialize (Hle i a o Ha Ho). unfold all_rows. apply list_elem_of_In, in_concat.
  exists (pair i <$> seq 0 (length a)). split; apply list_elem_of_In.
  - apply elem_of_lookup_imap. eauto.
  - apply list_elem_of_fmap. exists r. split; [done|]. apply elem_of_seq. lia.
Qed.

Lemma merge_inv_done out off : merge_inv out off → heap_inv off [] → merge_order out.
Proof.
  intros Hinv [_ Hh]. split; [by destruct Hinv as (_ & _ & ? & _)|]. intros x.
  pose proof Hinv as (Hlen & Hle & _ & Hout & _). rewrite Hout. split.
  - intros (o & Ho & Hx). destruct (lookup_lt_is_Some_2 inputs x.1) as [a Ha].
    { rewrite <- Hlen. by eapply lookup_lt_Some. }
    exists a. split; [done|]. specialize (Hle _ _ _ Ha Ho). lia.
  - intros Hx. destruct (lookup_lt_is_Some_2 off x.1) as [o Ho].
    { rewrite Hlen. destruct Hx as (a & Ha & _). by eapply lookup_lt_Some. }
    exists o. split; [done|]. destruct (decide (x.2 < o)%nat); [done|]. exfalso.
    destruct (remaining_head out off x Hinv Hx) as (b & s & t & Hb & Hs & Ht & _).
    { intros (o' & Ho' & ?). simplify_eq. lia. }
    apply (not_elem_of_nil (key descending t, x.1)), Hh. by exists b, s, t.
Qed.

Lemma plan_loop_spec fuel h off plan :
  merge_inv (plan_rows plan) off → heap_inv off h →
  (total_rows inputs < fuel + length (plan_rows plan))%nat →
  ∃ plan', plan_loop fuel inputs descending h off plan = Some plan' ∧ merge_order (plan_rows plan').
Proof.
  revert h off plan. induction fuel as [|fuel IH]; intros h off plan Hinv Hheap Hfuel.
  { apply merge_inv_length in Hinv. lia. }
  cbn [plan_loop]. destruct (heap_pop h) as [[[k i] h']|] eqn:Ep.
  2:{ apply heap_pop_None in Ep as ->. exists plan. split; [done|]. by eapply merge_inv_done. }
  apply heap_pop_Some in Ep as [Hp Hbest].
  destruct (heap_inv_pop off h k i h' Hheap Hp) as ((a & s & ts & Ha & Hs & Hts & ->) & Hnd & Hh').
  rewrite Ha, Hs. cbv zeta. cbn [from_option id].
  destruct (run_end_spec (plan_rows plan) off i a s ts _ h' Hinv Ha Hs Hts Hh' Hbest eq_refl)
    as [He Hahead]. set (e := run_end _ _ _ _ _) in *.
  assert (plan_rows (plan ++ [mkRun i s (e - s)]) = plan_rows plan ++ (pair i <$> seq s (e - s))) as Hrows.
  { rewrite plan_rows_app. unfold plan_rows at 2. simpl. by rewrite app_nil_r. }
  pose proof (heap_inv_advance off i a s e h' Ha Hs Hnd Hh') as Hheap'.
  assert (merge_inv (plan_rows (plan ++ [mkRun i s (e - s)])) (<[i := e]> off)) as Hinv'.
  { rewrite Hrows. replace e with (s + (e - s))%nat at 2 by lia.
    apply (merge_inv_run _ _ i a s (e - s)); [done..|lia|]. intros j y Hj. apply Hahead. lia. }
  assert (total_rows inputs < fuel + length (plan_rows (plan ++ [mkRun i s (e - s)])))%nat as Hf.
  { rewrite Hrows, length_app, length_fmap, length_seq. lia. }
  destruct (a !! e) as [t|]; by apply IH.
Qed.

Lemma initial_heap_elem k i :
  (k, i) ∈ initial_heap inputs descending ↔
  ∃ a ts, inputs !! i = Some a ∧ a !! 0%nat = Some ts ∧ k = key descending ts.
Proof.
  unfold initial_heap. rewrite list_elem_of_omap. split.
  - intros ([j a] & (n & b & [= -> ->] & Hb)%elem_of_lookup_imap & H). destruct b as [|ts b]; [done|].
    injection H as <- <-. by exists (ts :: b), ts.
  - intros (a & ts & Ha & Hts & ->). exists (i, a). split; [apply elem_of_lookup_imap; eauto|].
    destruct a; [done|]. by injection Hts as ->.
Qed.

Lemma initial_heap_NoDup : NoDup (initial_heap inputs descending).*2.
Proof.
  unfold initial_heap. clear Hin. induction inputs as [|a l IH] using rev_ind; [constructor|].
  rewrite imap_app, omap_app, fmap_app, NoDup_app. split; [done|]. simpl. split.
  - intros x ([k i] & -> & ([j b] & (n & c & [= -> ->] & Hc)%elem_of_lookup_imap & H)%list_elem_of_omap)
      %list_elem_of_fmap. destruct c as [|t c]; [done|]. injection H as _ <-. simpl.
    apply lookup_lt_Some in Hc. destruct a; simpl; [set_solver|].
    rewrite list_elem_of_singleton. lia.
  - destruct a; simpl; [constructor|apply NoDup_singleton].
Qed.

Lemma initial_heap_inv : heap_inv (replicate (length inputs) 0%nat) (initial_heap inputs descending).
Proof.
  split; [apply initial_heap_NoDup|]. intros k i. rewrite initial_heap_elem. unfold head_of. split.
  - intros (a & ts & Ha & Hts & ->). exists a, 0%nat, ts. split; [done|]. split; [|done].
    apply lookup_replicate. split; [done|]. by eapply lookup_lt_Some.
  - intros (a & s & ts & Ha & [-> _]%lookup_replicate & Hts & ->). eauto.
Qed.

Lemma initial_merge_inv : merge_inv [] (replicate (length inputs) 0%nat).
Proof.
  clear Hin. split; [by rewrite length_replicate|]. split; [by intros i a o _ [-> _]%lookup_replicate; lia|].
  split; [constructor|]. split; [|set_solver]. intros x. split; [set_solver|].
  intros (o & [-> _]%lookup_replicate & ?). lia.
Qed.

Lemma compute_merge_plan_order :
  ∃ plan, compute_merge_plan inputs descending = Some plan ∧ merge_order (plan_rows plan).
Proof.
  apply (plan_loop_spec _ _ _ []); [apply initial_merge_inv|apply initial_heap_inv|]. lia.
Qed.

(** One row popped: the step of the streaming engine. *)
Lemma merge_step out off h k i h' :
  merge_inv out off → heap_inv off h → heap_pop h = Some ((k, i), h') →
  ∃ a s ts, inputs !! i = Some a ∧ off !! i = Some s ∧ a !! s = Some ts
    ∧ merge_inv (out ++ [(i, s)]) (<[i := S s]> off)
    ∧ NoDup h'.*2 ∧ ∀ k' j, (k', j) ∈ h' ↔ j ≠ i ∧ head_of off j k'.
Proof.
  intros Hinv Hheap [Hp Hbest]%heap_pop_Some.
  destruct (heap_inv_pop off h k i h' Hheap Hp) as ((a & s & ts & Ha & Hs & Hts & ->) & Hnd & Hh').
  exists a, s, ts. do 3 (split; [done|]). split; [|done].
  replace (S s) with (s + 1)%nat by lia. apply (merge_inv_run _ _ i a s 1); [done..| |].
  { apply lookup_lt_Some in Hts. lia. }
  intros j y Hj. replace (s + j)%nat with s by lia. eapply ahead_of_rest; [done..|].
  intros [k' j'] Hx. destruct (Hbest _ Hx) as [[= -> ->]|?]; [|done].
  by apply Hh' in Hx as [? _].
Qed.
End Order.

(** * Chunks *)

Definition runs_nonempty (rs : list MergeRun) : Prop := Forall (λ r, (0 < row_count r)%nat) rs.

(** The chunker's invariant: what was emitted so far, every closed chunk full,
    the open one not. *)
Definition split_inv (C : nat) (emitted : list (nat * nat))
    (s : list (list MergeRun) * list MergeRun * nat) : Prop :=
  let '(chunks, cur, cur_rows) := s in
  plan_rows (concat chunks) ++ plan_rows cur = emitted
  ∧ Forall (λ c, length (plan_rows c) = C ∧ runs_nonempty c) chunks
  ∧ cur_rows = length (plan_rows cur) ∧ (cur_rows < C)%nat ∧ runs_nonempty cur.

Lemma plan_rows_one i start n : plan_rows [mkRun i start n] = pair i <$> seq start n.
Proof. apply app_nil_r. Qed.

Lemma split_run_inv C fuel i start remaining emitted chunks cur cur_rows :
  (remaining ≤ fuel)%nat → split_inv C emitted (chunks, cur, cur_rows) →
  split_inv C (emitted ++ (pair i <$> seq start remaining))
    (split_run fuel C i start remaining chunks cur cur_rows).
Proof.
  revert start remaining emitted chunks cur cur_rows.
  induction fuel as [|fuel IH]; intros start remaining emitted chunks cur cur_rows Hf Hinv.
  { assert (remaining = 0)%nat as -> by lia. simpl. by rewrite app_nil_r. }
  cbn [split_run]. destruct remaining as [|remaining]; [by rewrite app_nil_r|].
  set (t := Nat.min (S remaining) (C - cur_rows)). cbv zeta.
  destruct Hinv as (Hrows & Hfull & Hcur & Hlt & Hpos).
  assert (0 < t ≤ S remaining)%nat as Ht by (unfold t; lia).
  assert (length (plan_rows (cur ++ [mkRun i start t])) = cur_rows + t)%nat as Hlen.
  { rewrite plan_rows_app, length_app, plan_rows_one, length_fmap, length_seq. lia. }
  assert (runs_nonempty (cur ++ [mkRun i start t])) as Hpos'.
  { apply Forall_app. split; [done|]. repeat constructor. simpl. lia. }
  replace (seq start (S remaining)) with (seq start t ++ seq (start + t) (S remaining - t))
    by (rewrite <- seq_app; f_equal; lia).
  rewrite fmap_app, app_assoc. destruct (Nat.eqb_spec (cur_rows + t) C) as [Hc|Hc];
    (apply IH; [lia|]); unfold split_inv.
  - rewrite concat_app, plan_rows_app, <- Hrows. cbn [concat].
    rewrite (app_nil_r (cur ++ _)), plan_rows_app, plan_rows_one.
    split; [by rewrite app_nil_r, <- !app_assoc|]. split; [|split; [done|split; [lia|constructor]]].
    apply Forall_app. split; [done|]. repeat constructor; [by rewrite Hlen|done].
  - rewrite plan_rows_app, plan_rows_one, <- Hrows, app_assoc. split; [done|].
    split; [done|]. split; [by rewrite <- Hlen, plan_rows_app, plan_rows_one|]. split; [|done].
    unfold t in *. lia.
Qed.

Lemma split_fold_inv C plan emitted s :
  split_inv C emitted s → split_inv C (emitted ++ plan_rows plan) (foldl (split_step C) s plan).
Proof.
  revert emitted s. induction plan as [|r plan IH]; intros emitted s Hinv; simpl.
  { by rewrite app_nil_r. }
  rewrite plan_rows_cons, app_assoc. apply IH. destruct s as [[chunks cur] cur_rows].
  destruct r as [i start n]. by apply split_run_inv.
Qed.

Lemma split_plan_chunks_inv plan chunk_rows :
  ∃ full cur, split_plan_chunks plan chunk_rows = full ++ cur
    ∧ plan_rows (concat (full ++ cur)) = plan_rows plan
    ∧ Forall (λ c, length (plan_rows c) = Nat.max chunk_rows 1 ∧ runs_nonempty c) full
    ∧ (cur = [] ∨ ∃ c, cur = [c] ∧ (0 < length (plan_rows c) < Nat.max chunk_rows 1)%nat ∧ runs_nonempty c).
Proof.
  unfold split_plan_chunks. set (C := Nat.max chunk_rows 1).
  pose proof (split_fold_inv C plan [] ([], [], 0%nat)) as H.
  destruct (foldl _ _ _) as [[chunks cur] cur_rows]. destruct H as (Hrows & Hfull & Hcur & Hlt & Hpos).
  { split; [done|]. split; [constructor|]. split; [done|]. split; [unfold C; lia|constructor]. }
  exists chunks, (match cur with [] => [] | _ => [cur] end). split; [by destruct cur; rewrite ?app_nil_r|].
  split.
  { rewrite app_nil_l in Hrows. rewrite concat_app, plan_rows_app, <- Hrows. f_equal.
    destruct cur; simpl; [done|]. by rewrite app_nil_r. }
  split; [done|]. destruct cur as [|r cur]; [by left|right]. exists (r :: cur). split; [done|]. split; [|done].
  split; [|lia]. apply Forall_cons in Hpos as [Hr _]. destruct r as [i s n]. simpl in *.
  rewrite plan_rows_cons, length_app. unfold run_rows. simpl. rewrite length_fmap, length_seq. lia.
Qed.

(** ** An input's rows within a chunk *)

Definition rows_of_input (i : nat) (l : list (nat * nat)) : list (nat * nat) := filter (λ x, x.1 = i) l.

Lemma merge_order_input descending inputs out i a :
  Forall (input_ok descending) inputs → merge_order descending inputs out → inputs !! i = Some a →
  rows_of_input i out = pair i <$> seq 0 (length a).
Proof.
  intros Hin [Hs Hm] Ha. apply (sorted_ext (row_before descending inputs)).
  - unfold rows_of_input. clear Hm. induction Hs as [|x out _ IH Hx]; [constructor|].
    rewrite filter_cons. destruct (decide (x.1 = i)); [|done]. constructor; [done|].
    rewrite Forall_forall in *. intros y [_ ?]%list_elem_of_filter. auto.
  - assert (∀ s n, (s + n ≤ length a)%nat →
      StronglySorted (row_before descending inputs) (pair i <$> seq s n)) as H; [|by apply H].
    intros s n. revert s. induction n as [|n IH]; intros s Hn; simpl; constructor; [apply IH; lia|].
    apply Forall_fmap, Forall_seq. intros r Hr. simpl. eapply row_before_same; [done..|lia|lia].
  - intros [j r]. unfold rows_of_input. rewrite list_elem_of_filter, Hm, list_elem_of_fmap.
    setoid_rewrite elem_of_seq. unfold is_row. simpl. split.
    + intros [-> (b & Hb & Hr)]. simplify_eq. exists r. split; [done|lia].
    + intros (? & [= -> ->] & Hr). split; [done|]. exists a. split; [done|lia].
Qed.

Lemma fmap_seq_segment {A} (f : nat → A) s n a b c :
  f <$> seq s n = a ++ b ++ c → b = f <$> seq (s + length a) (length b).
Proof.
  intros E. assert (n = length a + length b + length c)%nat as ->.
  { apply (f_equal length) in E. rewrite length_fmap, length_seq, !length_app in E. lia. }
  rewrite !seq_app, !fmap_app, <- app_assoc in E.
  apply app_inj_1 in E as [_ E]; [|by rewrite length_fmap, length_seq].
  apply app_inj_1 in E as [E _]; [done|]. by rewrite length_fmap, length_seq.
Qed.

(** * The properties *)

#[global] Instance ts_le_dec d a b : Decision (ts_le d a b).
Proof. unfold ts_le. destruct d; apply _. Defined.
#[global] Instance ts_ok_dec d ts : Decision (ts_ok d ts).
Proof. unfold ts_ok. destruct d; apply _. Defined.
#[global] Instance input_ok_dec d a : Decision (input_ok d a).
Proof. unfold input_ok. apply _. Defined.

(** C26. Planning terminates and is correct: over inputs of [i64] timestamps
    sorted in the merge direction, none of them the least [i64] when the merge is
    ascending, the plan takes every row of every input exactly once, in timestamp
    order, ties by input and then by row.  ([merge_plan_wraps]: with the least
    [i64] in an ascending merge the order is lost.) *)
Theorem merge_plan_order (descending : bool) (inputs : list (list Z)) :
  Forall (input_ok descending) inputs →
  ∃ plan, compute_merge_plan inputs descending = Some plan
    ∧ merge_order descending inputs (plan_rows plan).
Proof. apply compute_merge_plan_order. Qed.

Lemma merge_plan_order_witness :
  ∃ plan, compute_merge_plan [[1; 4; 4]; []; [2; 4; 9]] false = Some plan
    ∧ merge_order false [[1; 4; 4]; []; [2; 4; 9]] (plan_rows plan).
Proof.
  apply (merge_plan_order false [[1; 4; 4]; []; [2; 4; 9]]).
  apply (bool_decide_unpack _). vm_compute. exact I.
Defined.

(** Cutting a plan into chunks keeps its rows and bounds the working set:
    the chunks' rows are the plan's in order, every run is non-empty, every chunk
    but the last holds exactly [max chunk_rows 1] rows and the last fewer, and
    within a chunk the rows of one input are one contiguous range. *)
Theorem merge_chunks_bounded (descending : bool) (inputs : list (list Z)) (plan : list MergeRun)
    (chunk_rows : nat) :
  Forall (input_ok descending) inputs → compute_merge_plan inputs descending = Some plan →
  let chunks := split_plan_chunks plan chunk_rows in
  plan_rows (concat chunks) = plan_rows plan
  ∧ (∀ i c, chunks !! i = Some c →
      runs_nonempty c ∧ (0 < length (plan_rows c) ≤ Nat.max chunk_rows 1)%nat
      ∧ ((S i < length chunks)%nat → length (plan_rows c) = Nat.max chunk_rows 1)
      ∧ ∀ j, (j < length inputs)%nat →
          ∃ s n, rows_of_input j (plan_rows c) = pair j <$> seq s n).
Proof.
  intros Hin Hp chunks. destruct (compute_merge_plan_order descending inputs Hin) as (plan' & Hp' & Hord).
  assert (plan' = plan) as -> by congruence. clear Hp'.
  destruct (split_plan_chunks_inv plan chunk_rows) as (full & cur & E & Hrows & Hfull & Hcur).
  assert (plan_rows (concat chunks) = plan_rows plan) as Hall by (unfold chunks; by rewrite E).
  split; [done|]. intros i c Hc. unfold chunks in Hc |- *. rewrite E in Hc |- *.
  assert (runs_nonempty c ∧ (0 < length (plan_rows c) ≤ Nat.max chunk_rows 1)%nat
    ∧ ((S i < length (full ++ cur))%nat → length (plan_rows c) = Nat.max chunk_rows 1)) as (H1 & H2 & H3).
  { apply lookup_app_Some in Hc as [Hc|[Hge Hc]].
    - rewrite Forall_forall in Hfull. destruct (Hfull c) as [? ?]; [by eapply list_elem_of_lookup_2|].
      split; [done|]. split; [lia|done].
    - destruct Hcur as [->|(c' & -> & Hb & Hne)]; [done|].
      destruct (i - length full)%nat as [|n] eqn:Ei; [|done]. injection Hc as <-.
      split; [done|]. split; [lia|]. rewrite length_app. simpl. lia. }
  do 3 (split; [done|]). intros j Hj. destruct (lookup_lt_is_Some_2 inputs j Hj) as [a Ha].
  pose proof (merge_order_input descending inputs _ j a Hin Hord Ha) as Hseg.
  apply list_elem_of_lookup_2, list_elem_of_split in Hc as (l1 & l2 & El).
  rewrite <- Hrows, El, concat_app in Hseg. simpl in Hseg.
  rewrite !plan_rows_app in Hseg. unfold rows_of_input in Hseg. rewrite !filter_app in Hseg.
  symmetry in Hseg. apply fmap_seq_segment in Hseg. eauto.
Qed.

Lemma merge_chunks_bounded_witness :
  split_plan_chunks [mkRun 0 0 3; mkRun 1 0 2] 2
    = [[mkRun 0 0 2]; [mkRun 0 2 1; mkRun 1 0 1]; [mkRun 1 1 1]]
  ∧ plan_rows (concat (split_plan_chunks [mkRun 0 0 3; mkRun 1 0 2] 2))
    = plan_rows [mkRun 0 0 3; mkRun 1 0 2].
Proof.
  split; [reflexivity|].
  apply (merge_chunks_bounded false [[1; 2; 3]; [4; 5]] [mkRun 0 0 3; mkRun 1 0 2] 2).
  - apply (bool_decide_unpack _). vm_compute. exact I.
  - vm_compute. reflexivity.
Defined.

(** The exclusion of the least [i64] is needed: negating it for an
    ascending merge wraps to itself, and the row is emitted out of order. *)
Theorem merge_plan_wraps :
  ∃ plan, compute_merge_plan [[- 2 ^ 63]; [5]] false = Some plan
    ∧ ts_at [[- 2 ^ 63]; [5]] <$> plan_rows plan = [5; - 2 ^ 63].
Proof. exists [mkRun 1 0 1; mkRun 0 0 1]. split; vm_compute; reflexivity. Qed.
