(* ===== verification/StreamMerge.v ===== *)
(** The streaming merge, [TimestampKwayMerge] of
    [crates/loglake-storage/src/merge.rs]: batches pulled from each source, one
    row popped at a time, an output batch cut at [target_rows] or when a source
    runs out of its batch.

    Arrow's row gather [interleave_record_batch] and its column access are
    third-party code and enter as parameters; a stream is the list of the items
    it will yield, [None] standing for an error.  Wall-clock attribution is left
    out. *)

From stdpp Require Import prelude sorting.
From Stdlib Require Import ZArith Lia.
From S2P Require Import Prelude TimeColumn Merge.

Section Stream.
Context {A : Type}.
(** A record batch is the list of its rows. *)
Context (ts_column : list A → AnyArray).
Context (interleave : list (list A) → list (nat * nat) → option (list A)).

Abbreviation batch := (list A) (only parsing).
Abbreviation stream := (list (option (list A))) (only parsing).

Fixpoint pull_nonempty (s : stream) : option (option batch * stream) :=
  match s with
  | [] => Some (None, [])
  | None :: _ => None
  | Some b :: s => match b with [] => pull_nonempty s | _ => Some (Some b, s) end
  end.

Record KwayMerge := mkKway {
  sources : list stream;
  current : list batch;
  ts_arrays : list (list Z);
  kpos : list nat;
  kheap : list (Z * nat);
  target_rows : nat;
  kdesc : bool;
  started : bool;
}.

Definition kway_new (sources : list stream) (target_rows : nat) (descending : bool) : KwayMerge :=
  mkKway sources [] [] [] [] (Nat.max target_rows 1) descending false.

Definition cache_ts_array (m : KwayMerge) (i : nat) : option KwayMerge :=
  arr ← column_nanos (ts_column (default [] (current m !! i)));
  let arrs := if (i <? length (ts_arrays m))%nat then <[i := prim_values arr]> (ts_arrays m)
              else ts_arrays m ++ [prim_values arr] in
  Some (mkKway (sources m) (current m) arrs (kpos m) (kheap m) (target_rows m) (kdesc m) (started m)).

Definition head_key (m : KwayMerge) (i : nat) : Z * nat :=
  let ts := default 0 (default [] (ts_arrays m !! i) !! default 0%nat (kpos m !! i)) in
  (key (kdesc m) ts, i).

Definition push_head (m : KwayMerge) (i : nat) : KwayMerge :=
  mkKway (sources m) (current m) (ts_arrays m) (kpos m) (head_key m i :: kheap m)
    (target_rows m) (kdesc m) (started m).

(** The [for mut s in sources] loop: a source that yields no row is dropped. *)
Fixpoint start_loop (srcs : list stream) (m : KwayMerge) : option KwayMerge :=
  match srcs with
  | [] => Some m
  | s :: srcs =>
    '(b, s) ← pull_nonempty s;
    match b with
    | None => start_loop srcs m
    | Some b =>
      let i := length (current m) in
      m ← cache_ts_array (mkKway (sources m ++ [s]) (current m ++ [b]) (ts_arrays m) (kpos m ++ [0%nat])
            (kheap m) (target_rows m) (kdesc m) (started m)) i;
      start_loop srcs (push_head m i)
    end
  end.

Definition start (m : KwayMerge) : option KwayMerge :=
  m' ← start_loop (sources m)
    (mkKway [] (current m) (ts_arrays m) (kpos m) (kheap m) (target_rows m) (kdesc m) (started m));
  Some (mkKway (sources m') (current m') (ts_arrays m') (kpos m') (kheap m') (target_rows m')
    (kdesc m') true).

(** The row loop.  It pushes an index a turn and stops at [target_rows] of them,
    so that many turns are enough. *)
Fixpoint fill (fuel : nat) (m : KwayMerge) (indices : list (nat * nat))
    : KwayMerge * list (nat * nat) * option nat :=
  match fuel with
  | O => (m, indices, None)
  | S fuel =>
    match heap_pop (kheap m) with
    | None => (m, indices, None)
    | Some ((_, i), h) =>
      let p := default 0%nat (kpos m !! i) in
      let indices := indices ++ [(i, p)] in
      let m := mkKway (sources m) (current m) (ts_arrays m) (<[i := S p]> (kpos m)) h
                 (target_rows m) (kdesc m) (started m) in
      if (length (default [] (current m !! i)) <=? S p)%nat then (m, indices, Some i) else
      let m := push_head m i in
      if (target_rows m <=? length indices)%nat then (m, indices, None) else fill fuel m indices
    end
  end.

(** The refill after the batch is built. *)
Definition refill (m : KwayMerge) (i : nat) : option KwayMerge :=
  '(b, s) ← pull_nonempty (default [] (sources m !! i));
  let srcs := <[i := s]> (sources m) in
  match b with
  | None => Some (mkKway srcs (current m) (ts_arrays m) (kpos m) (kheap m) (target_rows m) (kdesc m) (started m))
  | Some b =>
    m ← cache_ts_array (mkKway srcs (<[i := b]> (current m)) (ts_arrays m) (<[i := 0%nat]> (kpos m))
          (kheap m) (target_rows m) (kdesc m) (started m)) i;
    Some (push_head m i)
  end.

(** One output batch, with the gathered row positions it was built from. *)
Definition next_batch (m : KwayMerge) : option (option batch * KwayMerge) :=
  m ← (if started m then Some m else start m);
  match current m with
  | [] => Some (None, m)
  | _ =>
    let '(m', indices, boundary) := fill (target_rows m) m [] in
    match indices with
    | [] => Some (None, m')
    | _ =>
      b ← interleave (current m') indices;
      m' ← (match boundary with Some i => refill m' i | None => Some m' end);
      Some (Some b, m')
    end
  end.

(** The caller's loop: batches until the merge is drained. *)
Fixpoint drain (fuel : nat) (m : KwayMerge) : option (list batch) :=
  match fuel with
  | O => None
  | S fuel =>
    '(b, m) ← next_batch m;
    match b with
    | None => Some []
    | Some b => bs ← drain fuel m; Some (b :: bs)
    end
  end.

(** * Correctness *)

(** A batch the merge accepts: its time column reads as nanoseconds, a value a
    row. *)
Definition nanos (b : batch) : list Z :=
  match column_nanos (ts_column b) with Some p => prim_values p | None => [] end.
Definition batch_ok (b : batch) : Prop :=
  is_Some (column_nanos (ts_column b)) ∧ array_len (ts_column b) = length b.

Lemma batch_ok_nanos b :
  batch_ok b → length (nanos b) = length b ∧ ∃ p, column_nanos (ts_column b) = Some p ∧ prim_values p = nanos b.
Proof.
  intros [[p Hp] Hl]. unfold nanos. rewrite Hp. split; [|eauto].
  rewrite <- Hl. by apply column_nanos_length.
Qed.

Lemma concat_nanos_length (bs : list batch) :
  Forall batch_ok bs → length (concat (nanos <$> bs)) = length (concat bs).
Proof.
  induction 1 as [|b bs Hb _ IH]; [done|]. rewrite fmap_cons. simpl. rewrite !length_app, IH.
  by rewrite (proj1 (batch_ok_nanos b Hb)).
Qed.

(** The gather Arrow documents. *)
Definition gather (src : list batch) (idx : list (nat * nat)) : option (list A) :=
  mapM (λ x, b ← src !! x.1; b !! x.2) idx.

Lemma pull_nonempty_spec (bs : list batch) :
  (concat bs = [] ∧ pull_nonempty (Some <$> bs) = Some (None, []))
  ∨ ∃ es b rs, bs = es ++ b :: rs ∧ concat es = [] ∧ b ≠ []
      ∧ pull_nonempty (Some <$> bs) = Some (Some b, Some <$> rs).
Proof.
  induction bs as [|b bs IH]; [by left|]. rewrite fmap_cons. destruct b as [|x b]; simpl.
  - destruct IH as [?|(es & b & rs & -> & He & Hb & Hp)]; [by left|right].
    exists ([] :: es), b, rs. by rewrite Hp.
  - right. by exists [], (x :: b), bs.
Qed.

(** ** The state of a source *)

(** [R] and [T] are all the rows and timestamps of the source; [o] of them are
    out, the rest of the current batch and of the stream to come. *)
Definition src_inv (R : list A) (T : list Z) (cur : batch) (arr : list Z) (p o : nat) (rest : stream) : Prop :=
  ∃ D DN rs, R = D ++ cur ++ concat rs ∧ T = DN ++ nanos cur ++ concat (nanos <$> rs)
    ∧ length DN = length D ∧ arr = nanos cur ∧ rest = Some <$> rs
    ∧ batch_ok cur ∧ Forall batch_ok rs ∧ o = (length D + p)%nat ∧ (p ≤ length cur)%nat.

Lemma src_inv_row R T cur arr p o rest :
  src_inv R T cur arr p o rest → (p < length cur)%nat →
  R !! o = cur !! p ∧ T !! o = arr !! p ∧ is_Some (arr !! p).
Proof.
  intros (D & DN & rs & -> & -> & HD & -> & _ & Hok & _ & -> & _) Hp.
  destruct (batch_ok_nanos cur Hok) as [Hl _].
  rewrite (lookup_app_r D), (lookup_app_r DN) by lia.
  replace (length D + p - length D)%nat with p by lia.
  replace (length D + p - length DN)%nat with p by lia.
  rewrite !lookup_app_l by lia. split; [done|]. split; [done|]. apply lookup_lt_is_Some. lia.
Qed.

Lemma src_inv_length R T cur arr p o rest :
  src_inv R T cur arr p o rest → length T = length R.
Proof.
  intros (D & DN & rs & -> & -> & HD & _ & _ & Hok & Hrs & _).
  rewrite !length_app, HD, concat_nanos_length by done. by rewrite (proj1 (batch_ok_nanos cur Hok)).
Qed.

(** ** The state of the merge *)

Section State.
Context (desc : bool) (rows : list (list A)) (inputs : list (list Z)).

(** Every source holds a next row or is spent; [ex] names one that may stand at
    the end of its batch, to be refilled. *)
Definition kinv (ex : option nat) (m : KwayMerge) (off : list nat) : Prop :=
  kdesc m = desc ∧ length rows = length inputs ∧ length (current m) = length inputs
  ∧ ∀ i R T, rows !! i = Some R → inputs !! i = Some T →
      ∃ cur arr p o rest, current m !! i = Some cur ∧ ts_arrays m !! i = Some arr ∧ kpos m !! i = Some p
        ∧ off !! i = Some o ∧ sources m !! i = Some rest ∧ src_inv R T cur arr p o rest
        ∧ (Some i ≠ ex → (p < length cur)%nat ∨ o = length T).

(** The row an output position names, and the row a batch position names. *)
Definition row_at (x : nat * nat) : option A := R ← rows !! x.1; R !! x.2.
Definition local_at (cur : list batch) (x : nat * nat) : option A := b ← cur !! x.1; b !! x.2.

(** The positions a batch is gathered from name the rows it stands for. *)
Definition same_rows (cur : list batch) (idx out : list (nat * nat)) : Prop :=
  Forall2 (λ l g, is_Some (local_at cur l) ∧ local_at cur l = row_at g) idx out.

Lemma gather_same_rows cur idx out :
  same_rows cur idx out → ∃ b, gather cur idx = Some b ∧ Some <$> b = row_at <$> out.
Proof.
  induction 1 as [|l g idx out [[a Ha] He] _ (b & Hb & Hr)]; [by exists []|].
  exists (a :: b). unfold gather, local_at in *. cbn [mapM]. rewrite Ha. cbn [mbind option_bind].
  rewrite Hb. split; [done|]. by rewrite !fmap_cons, Hr, <- He, Ha.
Qed.

(** The source behind a head of the heap. *)
Lemma kinv_head ex m off i a o ts :
  kinv ex m off → inputs !! i = Some a → off !! i = Some o → a !! o = Some ts → Some i ≠ ex →
  ∃ R cur p, rows !! i = Some R ∧ current m !! i = Some cur ∧ kpos m !! i = Some p
    ∧ (p < length cur)%nat ∧ R !! o = cur !! p ∧ head_key m i = (key desc ts, i).
Proof.
  intros (Hd & Hl & _ & Hk) Ha Ho Hts Hex.
  destruct (lookup_lt_is_Some_2 rows i) as [R HR]; [rewrite Hl; by eapply lookup_lt_Some|].
  destruct (Hk i R a HR Ha) as (cur & arr & p & o' & rest & H1 & H2 & H3 & H4 & H5 & Hs & Hset).
  simplify_eq. exists R, cur, p. assert (p < length cur)%nat as Hp.
  { destruct (Hset Hex) as [?| ->]; [done|]. apply lookup_lt_Some in Hts. lia. }
  destruct (src_inv_row _ _ _ _ _ _ _ Hs Hp) as (Hr & Ht & _).
  do 5 (split; [done|]). unfold head_key. rewrite H2, H3. simpl. by rewrite <- Ht, Hts.
Qed.

Lemma kinv_advance m off i p o h :
  kinv None m off → kpos m !! i = Some p → off !! i = Some o →
  (p < length (default [] (current m !! i)))%nat →
  kinv (Some i) (mkKway (sources m) (current m) (ts_arrays m) (<[i := S p]> (kpos m)) h (target_rows m)
          (kdesc m) (started m)) (<[i := S o]> off).
Proof.
  intros (Hd & Hl & Hc & Hk) Hp Ho Hlt. split; [done|]. split; [done|]. split; [done|].
  intros j R T HR HT.
  destruct (Hk j R T HR HT) as (cur & arr & p' & o' & rest & H1 & H2 & H3 & H4 & H5 & Hs & Hset).
  exists cur, arr. destruct (decide (j = i)) as [->|Hne].
  - simplify_eq. exists (S p), (S o), rest. simpl.
    rewrite !list_lookup_insert_eq by (by eapply lookup_lt_Some).
    do 5 (split; [done|]). split; [|done].
    destruct Hs as (D & DN & rs & ? & ? & ? & ? & ? & ? & ? & -> & ?).
    exists D, DN, rs. rewrite H1 in Hlt. simpl in Hlt. split_and!; try done; lia.
  - exists p', o', rest. simpl. rewrite !list_lookup_insert_ne by done.
    do 6 (split; [done|]). intros _. by apply Hset.
Qed.

Lemma kinv_settle m off i p cur :
  kinv (Some i) m off → kpos m !! i = Some p → current m !! i = Some cur → (p < length cur)%nat →
  kinv None m off.
Proof.
  intros (Hd & Hl & Hc & Hk) Hp Hcur Hlt. do 3 (split; [done|]). intros j R T HR HT.
  destruct (Hk j R T HR HT) as (c & arr & p' & o & rest & H1 & H2 & H3 & H4 & H5 & Hs & Hset).
  exists c, arr, p', o, rest. do 6 (split; [done|]). intros _.
  destruct (decide (j = i)) as [->|Hne]; [simplify_eq; by left|]. apply Hset. congruence.
Qed.

Context (Hin : Forall (input_ok desc) inputs).

(** What the heap holds after the row loop: every head, or every head but that
    of the source to refill, which stands at the end of its batch. *)
Definition after_fill (m : KwayMerge) (off : list nat) (boundary : option nat) : Prop :=
  match boundary with
  | None => heap_inv desc inputs off (kheap m)
  | Some i => NoDup (kheap m).*2
      ∧ (∀ k j, (k, j) ∈ kheap m ↔ j ≠ i ∧ head_of desc inputs off j k)
      ∧ (i < length inputs)%nat
      ∧ kpos m !! i = length <$> current m !! i
  end.

Lemma head_of_ne off i e j k :
  j ≠ i → head_of desc inputs (<[i := e]> off) j k ↔ head_of desc inputs off j k.
Proof. intros. unfold head_of. by rewrite list_lookup_insert_ne. Qed.

(** The merge after one popped row, the heap not yet given a new head. *)
Definition popped (m : KwayMerge) (i p : nat) (h : list (Z * nat)) : KwayMerge :=
  mkKway (sources m) (current m) (ts_arrays m) (<[i := S p]> (kpos m)) h
    (target_rows m) (kdesc m) (started m).

(** A source with rows left in its batch goes back on the heap. *)
Lemma push_head_inv m off i a o h :
  kinv None m (<[i := o]> off) → inputs !! i = Some a → is_Some (off !! i) →
  (∃ p cur, kpos m !! i = Some p ∧ current m !! i = Some cur ∧ (p < length cur)%nat) →
  heap_inv desc inputs (<[i := o]> off)
    (match a !! o with Some ts => (key desc ts, i) :: h | None => h end) →
  kheap m = h → heap_inv desc inputs (<[i := o]> off) (kheap (push_head m i)).
Proof.
  intros Hk Ha [o0 Ho] (p & cur & Hp & Hcur & Hlt) Hheap <-. simpl.
  assert (<[i := o]> off !! i = Some o) as Hoi
    by (apply list_lookup_insert_eq; by eapply lookup_lt_Some).
  pose proof Hk as (_ & Hl & _ & Hk').
  destruct (lookup_lt_is_Some_2 rows i) as [R HR]; [rewrite Hl; by eapply lookup_lt_Some|].
  destruct (Hk' i R a HR Ha) as (c & arr & p' & o' & rest & H1 & H2 & H3 & H4 & H5 & Hs & _). simplify_eq.
  destruct (src_inv_row _ _ _ _ _ _ _ Hs Hlt) as (_ & Ht & [ts Hts]). rewrite Hts in Ht.
  destruct (kinv_head None m _ i a o ts Hk Ha Hoi Ht) as (_ & _ & _ & _ & _ & _ & _ & _ & ->); [done|].
  by rewrite Ht in Hheap.
Qed.

Lemma fill_step m off out k i h :
  kinv None m off → merge_inv desc inputs out off → heap_inv desc inputs off (kheap m) →
  heap_pop (kheap m) = Some ((k, i), h) →
  ∃ p o cur, kpos m !! i = Some p ∧ current m !! i = Some cur
    ∧ is_Some (local_at (current m) (i, p)) ∧ local_at (current m) (i, p) = row_at (i, o)
    ∧ merge_inv desc inputs (out ++ [(i, o)]) (<[i := S o]> off)
    ∧ if (length cur <=? S p)%nat
      then kinv (Some i) (popped m i p h) (<[i := S o]> off)
           ∧ after_fill (popped m i p h) (<[i := S o]> off) (Some i)
      else kinv None (push_head (popped m i p h) i) (<[i := S o]> off)
           ∧ heap_inv desc inputs (<[i := S o]> off) (kheap (push_head (popped m i p h) i)).
Proof.
  intros Hk Hm Hh Ep.
  destruct (merge_step desc inputs Hin out off _ k i h Hm Hh Ep)
    as (a & o & ts & Ha & Ho & Hts & Hm' & Hnd & Hh').
  destruct (kinv_head None m off i a o ts Hk Ha Ho Hts) as (R & cur & p & HR & Hcur & Hp & Hlt & Hrow & _);
    [done|].
  exists p, o, cur. do 2 (split; [done|]). unfold local_at, row_at. simpl. rewrite Hcur, HR. simpl.
  rewrite Hrow. split; [by apply lookup_lt_is_Some|]. split; [done|]. split; [done|].
  pose proof (kinv_advance m off i p o h Hk Hp Ho) as Hk'. rewrite Hcur in Hk'. specialize (Hk' Hlt).
  assert (kpos (popped m i p h) !! i = Some (S p)) as Hp1
    by (simpl; apply list_lookup_insert_eq; by eapply lookup_lt_Some).
  destruct (Nat.leb_spec (length cur) (S p)) as [Hend|Hmore].
  - split; [done|]. split; [done|]. split.
    + intros k' j. simpl. rewrite Hh'. destruct (decide (j = i)); [by split; intros [? _]|]. by rewrite head_of_ne.
    + split; [by eapply lookup_lt_Some|]. simpl in Hp1 |- *. rewrite Hp1. simpl. f_equal. lia.
  - assert (kinv None (popped m i p h) (<[i := S o]> off)) as Hk1 by (by eapply kinv_settle).
    split; [exact Hk1|]. apply (push_head_inv (popped m i p h) off i a (S o) h); [done|done|by eauto|..].
    + by exists (S p), cur.
    + by apply (heap_inv_advance desc inputs off i a o).
    + done.
Qed.

Lemma fill_spec n m off out idx gidx :
  kinv None m off → merge_inv desc inputs out off → heap_inv desc inputs off (kheap m) →
  same_rows (current m) idx gidx → (n + length idx)%nat = target_rows m →
  let '(m', idx', boundary) := fill n m idx in
  ∃ off' new,
    kinv boundary m' off' ∧ merge_inv desc inputs (out ++ new) off'
    ∧ same_rows (current m') idx' (gidx ++ new) ∧ after_fill m' off' boundary
    ∧ target_rows m' = target_rows m ∧ started m' = started m
    ∧ (length idx' ≤ target_rows m)%nat
    ∧ (n ≠ 0%nat → new = [] → kheap m = []).
Proof.
  revert m off out idx gidx. induction n as [|n IH]; intros m off out idx gidx Hk Hm Hh Hs Hn; simpl.
  { exists off, []. rewrite !app_nil_r. repeat (split; [done || (simpl in *; lia)|]). done. }
  destruct (heap_pop (kheap m)) as [[[k i] h]|] eqn:Ep.
  2:{ exists off, []. rewrite !app_nil_r. repeat (split; [done || (simpl in *; lia)|]).
      intros _ _. by apply heap_pop_None. }
  destruct (fill_step m off out k i h Hk Hm Hh Ep) as (p & o & cur & Hp & Hcur & Hsome & Hrow & Hm' & Hcase).
  rewrite Hp, Hcur. cbn [from_option id]. fold (popped m i p h).
  assert (same_rows (current m) (idx ++ [(i, p)]) (gidx ++ [(i, o)])) as Hs'
    by (apply Forall2_app; [done|]; by repeat constructor).
  assert (length (idx ++ [(i, p)]) = S (length idx)) as Hl by (rewrite length_app; simpl; lia).
  destruct (length cur <=? S p)%nat.
  { destruct Hcase as [??]. exists (<[i := S o]> off), [(i, o)].
    do 6 (split; [done|]). split; [simpl in *; lia|done]. }
  destruct Hcase as [Hk1 Hh1]. simpl. rewrite Hl.
  destruct (Nat.leb_spec (target_rows m) (S (length idx))) as [Hfull|Hroom].
  { exists (<[i := S o]> off), [(i, o)]. do 6 (split; [done|]). split; [simpl in *; lia|done]. }
  specialize (IH _ _ _ (idx ++ [(i, p)]) (gidx ++ [(i, o)]) Hk1 Hm' Hh1 Hs').
  destruct (fill n _ _) as [[m' idx'] bd]. destruct IH as (off' & new & H1 & H2 & H3 & H4 & H5 & H6 & H7 & _).
  { rewrite Hl. simpl in *. lia. }
  exists off', ((i, o) :: new).
  rewrite (cons_middle (i, o) out new), (cons_middle (i, o) gidx new), !app_assoc.
  do 7 (split; [done|]). done.
Qed.

(** ** Refilling *)

Lemma concat_nanos_nil (es : list batch) :
  Forall batch_ok es → concat es = [] → concat (nanos <$> es) = [].
Proof.
  intros Hok He. apply nil_length_inv. by rewrite concat_nanos_length, He.
Qed.

(** Replacing the state of one source. *)
Lemma kinv_update ex m m' off i R T cur arr p o rest :
  kinv ex m off → (ex = None ∨ ex = Some i) → rows !! i = Some R → inputs !! i = Some T → off !! i = Some o →
  kdesc m' = kdesc m →
  sources m' = <[i := rest]> (sources m) → current m' = <[i := cur]> (current m) →
  ts_arrays m' = <[i := arr]> (ts_arrays m) → kpos m' = <[i := p]> (kpos m) →
  src_inv R T cur arr p o rest → ((p < length cur)%nat ∨ o = length T) →
  kinv None m' off.
Proof.
  intros (Hd & Hl & Hc & Hk) Hex HR HT Ho Ed Es Ec Ea Ep Hs Hset.
  split; [by rewrite Ed|]. split; [done|]. split; [by rewrite Ec, length_insert|].
  intros j R' T' HR' HT'.
  destruct (Hk j R' T' HR' HT') as (c & ar & p' & o' & rs & H1 & H2 & H3 & H4 & H5 & Hs' & Hset').
  rewrite Es, Ec, Ea, Ep. destruct (decide (j = i)) as [->|Hne].
  - simplify_eq. exists cur, arr, p, o, rest.
    rewrite !list_lookup_insert_eq by (by eapply lookup_lt_Some). done.
  - exists c, ar, p', o', rs. rewrite !list_lookup_insert_ne by done. do 6 (split; [done|]).
    intros _. apply Hset'. destruct Hex as [->| ->]; [done|congruence].
Qed.

Lemma refill_spec m off i :
  kinv (Some i) m off → after_fill m off (Some i) →
  ∃ m', refill m i = Some m' ∧ kinv None m' off ∧ heap_inv desc inputs off (kheap m')
    ∧ target_rows m' = target_rows m ∧ started m' = started m.
Proof.
  intros Hk (Hnd & Hh & Hi & Hpos). pose proof Hk as (Hd & Hl & Hc & Hk').
  destruct (lookup_lt_is_Some_2 inputs i Hi) as [T HT].
  destruct (lookup_lt_is_Some_2 rows i) as [R HR]; [by rewrite Hl|].
  destruct (Hk' i R T HR HT) as (cur & arr & p & o & rest & H1 & H2 & H3 & H4 & H5 & Hs & _).
  rewrite H1, H3 in Hpos. injection Hpos as ->.
  pose proof (heap_inv_advance desc inputs off i T o o (kheap m) HT H4 Hnd Hh) as Hheap.
  pose proof (list_insert_id off i o H4) as Hid. rewrite Hid in Hheap.
  destruct Hs as (D & DN & rs & ER & ET & HD & -> & -> & Hok & Hrs & Eo & _).
  unfold refill. rewrite H5. cbn [from_option id].
  destruct (batch_ok_nanos cur Hok) as [Hlc _].
  destruct (pull_nonempty_spec rs) as [[Hnil ->]|(es & b & rs' & -> & Hes & Hb & ->)]; cbn [mbind option_bind].
  - eexists. split; [done|]. pose proof (concat_nanos_nil rs Hrs Hnil) as Hnil'.
    rewrite Hnil in ER. rewrite Hnil' in ET. rewrite app_nil_r in ER, ET.
    assert (o = length T) as HoT by (rewrite ET, length_app; lia).
    split; [|split; [|done]].
    + eapply (kinv_update (Some i) m _ off i R T cur (nanos cur) (length cur) o []); try done.
      * by right.
      * simpl. by rewrite list_insert_id.
      * simpl. by rewrite list_insert_id.
      * simpl. by rewrite list_insert_id.
      * exists D, DN, []. rewrite !app_nil_r. by split_and!.
      * by right.
    + simpl. destruct (T !! o) eqn:E; [|done]. apply lookup_lt_Some in E. lia.
  - apply Forall_app in Hrs as [Hesok [Hbok Hrs]%Forall_cons].
    pose proof (concat_nanos_nil es Hesok Hes) as Hes'.
    destruct (batch_ok_nanos b Hbok) as [Hlb (pr & Hpr & Epr)].
    unfold cache_ts_array. simpl. rewrite list_lookup_insert_eq by (by eapply lookup_lt_Some). simpl.
    rewrite Hpr. simpl. rewrite (proj2 (Nat.ltb_lt _ _)) by (by eapply lookup_lt_Some). rewrite Epr.
    set (m1 := mkKway _ _ _ _ _ _ _ _).
    assert (kinv None m1 off) as Hk1.
    { eapply (kinv_update (Some i) m m1 off i R T b (nanos b) 0 o (Some <$> rs')); try done.
      - by right.
      - exists (D ++ cur), (DN ++ nanos cur), rs'.
        rewrite ER, ET, !fmap_app, !fmap_cons, !concat_app, Hes, Hes'. simpl. rewrite <- !app_assoc.
        rewrite !length_app, Hlc, HD. split_and!; try done; lia.
      - left. destruct b; [done|]. simpl. lia. }
    eexists. split; [done|]. split; [exact Hk1|]. split; [|done].
    rewrite <- Hid. apply (push_head_inv m1 off i T o (kheap m)); [by rewrite Hid|done|by eauto| |by rewrite Hid|done].
    exists 0%nat, b. simpl. rewrite !list_lookup_insert_eq by (by eapply lookup_lt_Some).
    split; [done|]. split; [done|]. destruct b; [done|]. simpl. lia.
Qed.

(** ** Batches *)

Context (interleave_gathers : ∀ src idx b, gather src idx = Some b → interleave src idx = Some b).

(** What the merge keeps between calls. *)
Definition merge_state (m : KwayMerge) (out : list (nat * nat)) : Prop :=
  started m = true ∧ (1 ≤ target_rows m)%nat
  ∧ ∃ off, kinv None m off ∧ merge_inv desc inputs out off ∧ heap_inv desc inputs off (kheap m).

Lemma next_batch_spec m out :
  merge_state m out →
  ∃ m', (next_batch m = Some (None, m') ∧ merge_order desc inputs out)
  ∨ ∃ b new, next_batch m = Some (Some b, m') ∧ merge_state m' (out ++ new)
      ∧ target_rows m' = target_rows m ∧ b ≠ [] ∧ (length b ≤ target_rows m)%nat
      ∧ Some <$> b = row_at <$> new.
Proof.
  intros (Hst & Htr & off & Hk & Hm & Hh). unfold next_batch. rewrite Hst. cbn [mbind option_bind].
  assert (kheap m = [] → merge_order desc inputs out) as Hdone.
  { intros E. rewrite E in Hh. by eapply merge_inv_done. }
  destruct (decide (current m = [])) as [Hnil|Hne].
  { exists m. left. rewrite Hnil. split; [done|]. apply Hdone. apply elem_of_nil_inv.
    intros [k i] Hin'. apply Hh in Hin' as (a & _ & _ & Ha & _). apply lookup_lt_Some in Ha.
    destruct Hk as (_ & _ & Hc & _). rewrite Hnil in Hc. simpl in Hc. lia. }
  pose proof (fill_spec (target_rows m) m off out [] [] Hk Hm Hh ltac:(constructor)) as Hf.
  destruct (fill (target_rows m) m []) as [[m1 idx] bd] eqn:Ef.
  destruct Hf as (off' & new & Hk' & Hm' & Hs & Haf & Ht & Hst' & Hle & Hnew); [simpl; lia|].
  simpl in Hs. pose proof (Forall2_length _ _ _ Hs) as Hlen.
  destruct idx as [|x idx].
  { exists m1. left. destruct (current m); [done|]. split; [done|]. apply Hdone, Hnew; [lia|].
    by destruct new. }
  destruct (gather_same_rows _ _ _ Hs) as (b & Hb & Hrows). apply interleave_gathers in Hb as Hi.
  assert (length b = length new) as Hbl by (apply (f_equal length) in Hrows; by rewrite !length_fmap in Hrows).
  assert (∃ m', match bd with Some i => refill m1 i | None => Some m1 end = Some m'
    ∧ kinv None m' off' ∧ heap_inv desc inputs off' (kheap m')
    ∧ target_rows m' = target_rows m1 ∧ started m' = started m1) as (m' & Hr & Hk2 & Hh2 & Ht2 & Hs2).
  { destruct bd as [i|]; [by apply refill_spec|]. by exists m1. }
  exists m'. right. exists b, new. destruct (current m); [done|]. rewrite Hi. cbn [mbind option_bind].
  rewrite Hr. cbn [mbind option_bind]. split; [done|]. split.
  { split; [by rewrite Hs2, Hst', Hst|]. split; [by rewrite Ht2, Ht|]. by exists off'. }
  split; [by rewrite Ht2, Ht|]. split; [intros ->; simpl in *; lia|]. split; [simpl in *; lia|done].
Qed.

Lemma drain_spec fuel m out :
  merge_state m out → (total_rows inputs < fuel + length out)%nat →
  ∃ bs rest, drain fuel m = Some bs ∧ merge_order desc inputs (out ++ rest)
    ∧ Some <$> concat bs = row_at <$> rest
    ∧ Forall (λ b, b ≠ [] ∧ (length b ≤ target_rows m)%nat) bs.
Proof.
  revert m out. induction fuel as [|fuel IH]; intros m out Hst Hf.
  { destruct Hst as (_ & _ & off & _ & Hm & _). apply merge_inv_length in Hm. lia. }
  cbn [drain]. destruct (next_batch_spec m out Hst) as [m' [[-> Hord]|(b & new & -> & Hst' & Ht & Hb & Hl & Hr)]].
  - cbn [mbind option_bind]. exists [], []. rewrite app_nil_r. by split_and!; [..|constructor].
  - cbn [mbind option_bind]. destruct (IH m' (out ++ new) Hst') as (bs & rest & -> & Hord & Hrs & Hall).
    { rewrite length_app. apply (f_equal length) in Hr. rewrite !length_fmap in Hr.
      destruct b; [done|]. simpl in Hr. lia. }
    cbn [mbind option_bind]. exists (b :: bs), (new ++ rest). rewrite <- Ht. rewrite app_assoc.
    split; [done|]. split; [done|]. split; [|constructor; [by rewrite Ht|done]].
    simpl. by rewrite !fmap_app, Hr, Hrs.
Qed.
End State.

(** ** Starting *)

(** The sources that hold a row, and what they hold. *)
Definition live (batches : list (list batch)) : list (list batch) := filter (λ bs, concat bs ≠ []) batches.
Definition live_rows (batches : list (list batch)) : list (list A) := (λ bs, concat bs) <$> live batches.
Definition live_nanos (batches : list (list batch)) : list (list Z) :=
  (λ bs, concat (nanos <$> bs)) <$> live batches.

Lemma live_snoc batches bs :
  live (batches ++ [bs]) = live batches ++ if decide (concat bs ≠ []) then [bs] else [].
Proof. unfold live. by rewrite filter_app. Qed.

(** A merge being started, its first sources in place. *)
Definition starting (desc : bool) (batches : list (list batch)) (m : KwayMerge) : Prop :=
  let n := length (live batches) in
  length (sources m) = n ∧ length (ts_arrays m) = n ∧ length (kpos m) = n
  ∧ kinv desc (live_rows batches) (live_nanos batches) None m (replicate n 0%nat)
  ∧ heap_inv desc (live_nanos batches) (replicate n 0%nat) (kheap m).

Lemma heap_inv_snoc desc inputs off h T ts :
  length off = length inputs → T !! 0%nat = Some ts → heap_inv desc inputs off h →
  heap_inv desc (inputs ++ [T]) (off ++ [0%nat]) ((key desc ts, length inputs) :: h).
Proof.
  intros Hl Hts [Hnd Hh].
  assert (∀ j k, (j < length inputs)%nat →
    head_of desc (inputs ++ [T]) (off ++ [0%nat]) j k ↔ head_of desc inputs off j k) as Hold.
  { intros j k Hj. unfold head_of. by rewrite !lookup_app_l by lia. }
  assert (∀ k j, head_of desc inputs off j k → (j < length inputs)%nat) as Hlt.
  { intros k j (a & _ & _ & Ha & _). by eapply lookup_lt_Some. }
  split.
  - apply NoDup_cons. split; [|done]. intros ([k j] & Hj & Hin)%list_elem_of_fmap. simpl in Hj. subst j.
    apply Hh, Hlt in Hin. lia.
  - intros k j. rewrite elem_of_cons, Hh. destruct (decide (j < length inputs)%nat) as [Hj|Hj].
    + rewrite Hold by done. split; [|by right]. intros [[= -> ->]|?]; [lia|done].
    + split.
      * intros [[= -> ->]|Hhd]; [|by apply Hlt in Hhd]. exists T, 0%nat, ts.
        rewrite lookup_app_r, Nat.sub_diag by lia. rewrite <- Hl, lookup_app_r, Nat.sub_diag by lia. done.
      * intros (a & s & t & Ha & Hs & Ht & ->). apply lookup_lt_Some in Ha as Hj'.
        rewrite length_app in Hj'. simpl in Hj'. assert (j = length inputs) as -> by lia.
        rewrite lookup_app_r, Nat.sub_diag in Ha by lia. rewrite <- Hl, lookup_app_r, Nat.sub_diag in Hs by lia.
        simpl in *. simplify_eq. by left.
Qed.

Lemma start_loop_one desc pre bs m b rs es :
  starting desc pre m → bs = es ++ b :: rs → concat es = [] → b ≠ [] → Forall batch_ok bs →
  ∃ m', cache_ts_array (mkKway (sources m ++ [Some <$> rs]) (current m ++ [b]) (ts_arrays m)
          (kpos m ++ [0%nat]) (kheap m) (target_rows m) (kdesc m) (started m)) (length (current m)) = Some m'
    ∧ starting desc (pre ++ [bs]) (push_head m' (length (current m)))
    ∧ target_rows m' = target_rows m.
Proof.
  intros (Hls & Hla & Hlp & Hk & Hh) Ebs Hes Hb Hok. rewrite Ebs in Hok.
  pose proof Hk as (Hd & Hl & Hc & Hk').
  apply Forall_app in Hok as [Hesok [Hbok Hrs]%Forall_cons].
  destruct (batch_ok_nanos b Hbok) as [Hlb (pr & Hpr & Epr)].
  assert (length (live_nanos pre) = length (live pre)) as Hn by apply length_fmap.
  assert (concat bs = b ++ concat rs) as Hcb by (rewrite Ebs, concat_app, Hes; done).
  assert (concat (nanos <$> bs) = nanos b ++ concat (nanos <$> rs)) as Hcn.
  { rewrite Ebs, fmap_app, concat_app, (concat_nanos_nil es) by done. done. }
  assert (live (pre ++ [bs]) = live pre ++ [bs]) as Hlive.
  { rewrite live_snoc, decide_True; [done|]. rewrite Hcb. by destruct b. }
  unfold cache_ts_array. simpl. rewrite lookup_app_r, Nat.sub_diag by lia. simpl.
  rewrite Hpr. simpl. rewrite (proj2 (Nat.ltb_ge _ _)) by lia. rewrite Epr.
  eexists. split; [done|]. split; [|done].
  destruct (lookup_lt_is_Some_2 (nanos b) 0) as [ts Hts]; [destruct b; [done|]; simpl in *; lia|].
  unfold starting. rewrite Hlive, length_app. simpl. rewrite !length_app. simpl.
  do 3 (split; [lia|]). unfold live_rows, live_nanos. rewrite Hlive, !fmap_app, replicate_add. simpl. split.
  - split; [done|]. split; [by rewrite !length_app, !length_fmap|].
    split; [simpl; rewrite !length_app, Hc, Hn, length_fmap; done|].
    intros j R T HR HT. destruct (decide (j < length (live pre))%nat) as [Hj|Hj].
    + rewrite lookup_app_l in HR by (by rewrite length_fmap).
      rewrite lookup_app_l in HT by (by rewrite length_fmap).
      destruct (Hk' j R T HR HT) as (c & ar & p & o & rest & H1 & H2 & H3 & H4 & H5 & Hs & Hset).
      exists c, ar, p, o, rest. simpl. rewrite !lookup_app_l by (rewrite ?length_replicate; lia). done.
    + apply lookup_lt_Some in HR as Hj'. rewrite length_app, length_fmap in Hj'. simpl in Hj'.
      assert (j = length (live pre)) as -> by lia.
      rewrite lookup_app_r, length_fmap, Nat.sub_diag in HR by (rewrite length_fmap; lia).
      rewrite lookup_app_r, length_fmap, Nat.sub_diag in HT by (rewrite length_fmap; lia).
      simpl in HR, HT. injection HR as <-. injection HT as <-.
      exists b, (nanos b), 0%nat, 0%nat, (Some <$> rs). simpl.
      rewrite !lookup_app_r by (rewrite ?length_replicate; lia).
      rewrite length_replicate, Hls, Hla, Hlp, Hc, Hn, !Nat.sub_diag. simpl. do 5 (split; [done|]).
      split; [|left; destruct b; [done|]; simpl; lia].
      exists [], [], rs. rewrite Hcb, Hcn. simpl. split_and!; try done; lia.
  - unfold head_key. simpl. rewrite !lookup_app_r by lia.
    rewrite Hla, Hlp, Hc, Hn, !Nat.sub_diag. simpl. rewrite Hts. simpl. rewrite Hd, <- Hn.
    apply (heap_inv_snoc desc (live_nanos pre)); [by rewrite length_replicate| |by rewrite Hn].
    rewrite Hcn. rewrite lookup_app_l; [done|]. by eapply lookup_lt_Some.
Qed.

Lemma start_loop_spec desc bss pre m :
  starting desc pre m → Forall (Forall batch_ok) bss →
  ∃ m', start_loop ((λ bs : list batch, Some <$> bs) <$> bss) m = Some m'
    ∧ starting desc (pre ++ bss) m' ∧ target_rows m' = target_rows m.
Proof.
  intros Hst Hok. revert pre m Hst. induction Hok as [|bs bss Hbs _ IH]; intros pre m Hst.
  { exists m. by rewrite app_nil_r. }
  rewrite fmap_cons. cbn [start_loop]. rewrite (cons_middle bs pre bss), (app_assoc pre [bs]).
  destruct (pull_nonempty_spec bs) as [[Hnil ->]|(es & b & rs & Ebs & Hes & Hb & ->)]; cbn [mbind option_bind].
  - apply IH. assert (live (pre ++ [bs]) = live pre) as E.
    { rewrite live_snoc, decide_False, app_nil_r by (by intros H). done. }
    unfold starting, live_rows, live_nanos in *. by rewrite E.
  - destruct (start_loop_one desc pre bs m b rs es Hst Ebs Hes Hb Hbs) as (m1 & -> & Hst1 & Ht1).
    cbn [mbind option_bind]. destruct (IH _ _ Hst1) as (m' & Hm' & Hst' & Ht'). exists m'.
    split; [done|]. split; [done|]. by rewrite Ht'.
Qed.

Lemma start_spec desc batches target :
  Forall (Forall batch_ok) batches →
  ∃ m, start (kway_new ((λ bs : list batch, Some <$> bs) <$> batches) target desc) = Some m
    ∧ target_rows m = Nat.max target 1
    ∧ merge_state desc (live_rows batches) (live_nanos batches) m [].
Proof.
  intros Hok. unfold start, kway_new. simpl.
  destruct (start_loop_spec desc batches [] (mkKway [] [] [] [] [] (Nat.max target 1) desc false))
    as (m & -> & (Hls & Hla & Hlp & Hk & Hh) & Ht); [|done|].
  { do 3 (split; [done|]). split; [|split; [constructor|]].
    - do 3 (split; [done|]). intros i R T HR. done.
    - intros k i. split; [set_solver|]. by intros (a & _ & _ & ? & _). }
  cbn [mbind option_bind]. eexists. split; [done|]. split; [done|].
  split; [done|]. split; [rewrite Ht; simpl; lia|]. exists (replicate (length (live batches)) 0%nat).
  split; [done|]. split; [|done].
  replace (length (live batches)) with (length (live_nanos batches)) by apply length_fmap.
  apply initial_merge_inv.
Qed.

(** A first call starts the merge and then is an ordinary call. *)
Lemma drain_start fuel desc srcs target m :
  start (kway_new srcs target desc) = Some m → started m = true →
  drain (S fuel) (kway_new srcs target desc) = drain (S fuel) m.
Proof.
  intros Hs Hst. cbn [drain]. unfold next_batch at 1. cbn [started kway_new]. rewrite Hs.
  unfold next_batch. by rewrite Hst.
Qed.
End Stream.

(** * The property *)

(** C27. The two engines agree: draining the streaming merge yields non-empty
    batches of at most [target_rows] rows whose concatenation is the row order of
    the merge plan over the sources' timestamps, so it is sorted, conserves every
    row, and pairs each timestamp with its own row. *)
Theorem stream_merge_matches_plan {A} (ts_column : list A → AnyArray)
    (interleave : list (list A) → list (nat * nat) → option (list A))
    (desc : bool) (batches : list (list (list A))) (target : nat) :
  (∀ src idx b, gather src idx = Some b → interleave src idx = Some b) →
  Forall (Forall (batch_ok ts_column)) batches →
  Forall (input_ok desc) (live_nanos ts_column batches) →
  ∃ plan bs, compute_merge_plan (live_nanos ts_column batches) desc = Some plan
    ∧ drain ts_column interleave (S (total_rows (live_nanos ts_column batches)))
        (kway_new ((λ bs : list (list A), Some <$> bs) <$> batches) target desc) = Some bs
    ∧ Some <$> concat bs = row_at (live_rows batches) <$> plan_rows plan
    ∧ Forall (λ b, b ≠ [] ∧ (length b ≤ Nat.max target 1)%nat) bs.
Proof.
  intros Hint Hok Hin.
  destruct (compute_merge_plan_order desc _ Hin) as (plan & Hplan & Hord).
  destruct (start_spec ts_column desc batches target Hok) as (m & Hs & Ht & Hst).
  destruct (drain_spec ts_column interleave desc _ _ Hin Hint
    (S (total_rows (live_nanos ts_column batches))) m [] Hst) as (bs & rest & Hd & Hord' & Hrows & Hall).
  { simpl. lia. }
  exists plan, bs. split; [done|]. split.
  { rewrite (drain_start ts_column interleave _ _ _ _ m Hs); [done|]. by destruct Hst. }
  split; [|by rewrite Ht in Hall]. rewrite Hrows. f_equal. by eapply merge_order_unique.
Qed.

(** Rows carrying their own nanoseconds, gathered by position. *)
Definition sample_column (b : list (Z * nat)) : AnyArray := Int64Array (mkPrim (fst <$> b) None).

Lemma stream_merge_matches_plan_witness :
  drain sample_column gather 6
    (kway_new [[Some [(1, 10%nat); (4, 11%nat)]; Some [(4, 12%nat)]]; [Some []];
               [Some [(2, 20%nat)]; Some []; Some [(9, 21%nat)]]] 2 false)
  = Some [[(1, 10%nat); (2, 20%nat)]; [(4, 11%nat)]; [(4, 12%nat)]; [(9, 21%nat)]].
Proof.
  destruct (stream_merge_matches_plan sample_column gather false
    [[[(1, 10%nat); (4, 11%nat)]; [(4, 12%nat)]]; [[]]; [[(2, 20%nat)]; []; [(9, 21%nat)]]] 2)
    as (plan & bs & _ & Hd & _).
  - done.
  - repeat constructor; simpl; eauto.
  - apply (bool_decide_unpack _). vm_compute. exact I.
  - etransitivity; [exact Hd|]. rewrite <- Hd. vm_compute. reflexivity.
Defined.
