(* ===== verification/Crc32.v ===== *)
(** CRC-32 as the WAL computes it ([crates/loglake-wal/src/lib.rs]: the table,
    [crc32_update], [crc32] and the [CrcWriter] adapter), with the algebra
    behind its error detection: over any run of bytes the register is the
    [n]-fold image of the initial register xored with the run read as a
    little-endian integer, under a map that is injective on 32-bit words.  Two
    runs of at most four bytes therefore never collide. *)

From stdpp Require Import prelude.
From Stdlib Require Import ZArith Lia.
From S2P Require Import Prelude.

(** * The code *)

(** One round of the table's inner loop. *)
Definition crc_round (c : Z) : Z :=
  if negb (Z.land c 1 =? 0) then Z.lxor 0xEDB88320 (Z.shiftr c 1) else Z.shiftr c 1.

Definition CRC32_TABLE : list Z :=
  Eval vm_compute in (λ i, Nat.iter 8 crc_round (Z.of_nat i)) <$> seq 0 256.

(** [CRC32_TABLE[i]]; every use masks the index to a byte. *)
Definition crc_table (i : Z) : Z := nth (Z.to_nat i) CRC32_TABLE 0.

Definition crc32_step (c b : Z) : Z :=
  Z.lxor (crc_table (Z.land (Z.lxor c b) 0xFF)) (Z.shiftr c 8).

Definition crc32_update (state : Z) (bs : bytes) : Z := foldl crc32_step state bs.

Definition crc32 (bs : bytes) : Z := Z.lxor (crc32_update 0xFFFFFFFF bs) 0xFFFFFFFF.

(** The [Write] adapter: the bytes its inner writer took and the register. *)
Record CrcWriter : Type := mkCrcWriter { inner : bytes; state : Z }.

Definition crc_new (inner : bytes) : CrcWriter := mkCrcWriter inner 0xFFFFFFFF.

(** [write]: the inner writer takes the first [n] bytes of [buf]. *)
Definition crc_write (n : nat) (buf : bytes) (w : CrcWriter) : CrcWriter :=
  mkCrcWriter (inner w ++ take n buf) (crc32_update (state w) (take n buf)).

Definition into_parts (w : CrcWriter) : Z * bytes := (Z.lxor (state w) 0xFFFFFFFF, inner w).

(** * Algebra *)

Lemma lxor_fits w a b : 0 ≤ w → fits w a → fits w b → fits w (Z.lxor a b).
Proof.
  intros Hw [Ha1 Ha2] [Hb1 Hb2]. unfold fits.
  assert (0 ≤ Z.lxor a b) by (apply Z.lxor_nonneg; lia). split; [done|].
  destruct (Z.eq_dec (Z.lxor a b) 0) as [->|]; [lia|].
  apply Z.log2_lt_pow2; [lia|].
  pose proof (Z.log2_lxor a b Ha1 Hb1).
  destruct (Z.eq_dec w 0) as [->|].
  { assert (a = 0) as -> by lia. assert (b = 0) as -> by lia. done. }
  assert (∀ x, 0 ≤ x → x < 2 ^ w → Z.log2 x < w) as Hlog.
  { intros x Hx Hlt. destruct (Z.eq_dec x 0) as [->|]; [cbn; lia|]. apply Z.log2_lt_pow2; lia. }
  pose proof (Hlog a Ha1 Ha2). pose proof (Hlog b Hb1 Hb2). lia.
Qed.

Lemma land_byte x : fits 8 (Z.land x 0xFF).
Proof.
  change 0xFF with (Z.ones 8). rewrite Z.land_ones by lia. unfold fits. apply Z.mod_pos_bound. lia.
Qed.

Lemma shiftr_byte b : is_byte b → Z.shiftr b 8 = 0.
Proof. intros [??]. rewrite Z.shiftr_div_pow2 by lia. by apply Z.div_small. Qed.

(** The step applied to the register with the byte already xored in. *)
Definition crc_f (x : Z) : Z := Z.lxor (crc_table (Z.land x 0xFF)) (Z.shiftr x 8).

Lemma crc32_step_f c b : is_byte b → crc32_step c b = crc_f (Z.lxor c b).
Proof.
  intros Hb. unfold crc32_step, crc_f. by rewrite Z.shiftr_lxor, (shiftr_byte b), Z.lxor_0_r.
Qed.

Lemma crc_f_shift x y : crc_f (Z.lxor x (Z.shiftl y 8)) = Z.lxor (crc_f x) y.
Proof.
  unfold crc_f. rewrite Z.shiftr_lxor, Z.shiftr_shiftl_l, Z.sub_diag, Z.shiftl_0_r by lia.
  rewrite Z.lxor_assoc. do 2 f_equal. change 0xFF with (Z.ones 8).
  rewrite !Z.land_ones, Z.shiftl_mul_pow2 by lia.
  apply Z.bits_inj'. intros n Hn. destruct (decide (n < 8)).
  - rewrite !Z.mod_pow2_bits_low, Z.lxor_spec, Z.mul_pow2_bits_low, xorb_false_r by lia. done.
  - rewrite !Z.mod_pow2_bits_high by lia. done.
Qed.

Lemma lxor_le c b L :
  is_byte b → Z.lxor c (b + 256 * L) = Z.lxor (Z.lxor c b) (Z.shiftl L 8).
Proof.
  intros Hb. rewrite Z.lxor_assoc. f_equal. rewrite Z.shiftl_mul_pow2 by lia.
  change (2 ^ 8) with 256. rewrite (Z.mul_comm L). symmetry. rewrite <- Z.add_nocarry_lxor; [done|].
  apply Z.bits_inj'. intros n Hn. rewrite Z.land_spec, Z.bits_0. change 256 with (2 ^ 8).
  destruct (decide (n < 8)).
  - rewrite (Z.mul_comm (2 ^ 8)), Z.mul_pow2_bits_low by lia. apply andb_false_r.
  - destruct Hb as [Hb1 Hb2]. rewrite (Z.bits_above_log2 b); [done|lia|].
    destruct (Z.eq_dec b 0) as [->|]; [cbn; lia|].
    apply (Z.lt_le_trans _ 8); [apply Z.log2_lt_pow2; lia|lia].
Qed.

Lemma iter_swap {A} n (f : A → A) x : Nat.iter n f (f x) = f (Nat.iter n f x).
Proof. induction n as [|n IH]; simpl; [done|]. by rewrite IH. Qed.

(** The closed form of a run. *)
Lemma crc32_update_le bs c :
  bytes_ok bs → crc32_update c bs = Nat.iter (length bs) crc_f (Z.lxor c (from_le bs)).
Proof.
  intros Hbs. revert c. induction Hbs as [|b bs Hb _ IH]; intros c; cbn [from_le length].
  - by rewrite Z.lxor_0_r.
  - change (crc32_update c (b :: bs)) with (crc32_update (crc32_step c b) bs).
    rewrite IH, crc32_step_f, lxor_le by done. rewrite <- crc_f_shift. by rewrite iter_swap.
Qed.

(** ** Injectivity *)

Lemma table_fits i : fits 32 (crc_table i).
Proof.
  assert (Forall (fits 32) CRC32_TABLE) as H by (apply (bool_decide_unpack _); vm_compute; exact I).
  unfold crc_table. destruct (nth_in_or_default (Z.to_nat i) CRC32_TABLE 0) as [Hin| ->].
  - rewrite Forall_forall in H. apply H. by apply list_elem_of_In.
  - unfold fits. lia.
Qed.

Lemma table_top_inj i j :
  fits 8 i → fits 8 j → Z.shiftr (crc_table i) 24 = Z.shiftr (crc_table j) 24 → i = j.
Proof.
  assert (NoDup ((λ t, Z.shiftr t 24) <$> CRC32_TABLE)) as H
    by (apply (bool_decide_unpack _); vm_compute; exact I).
  intros [Hi1 Hi2] [Hj1 Hj2] E.
  assert (∀ k, fits 8 k → ((λ t, Z.shiftr t 24) <$> CRC32_TABLE) !! Z.to_nat k
                          = Some (Z.shiftr (crc_table k) 24)) as Hlk.
  { intros k [Hk1 Hk2]. rewrite list_lookup_fmap.
    assert (is_Some (CRC32_TABLE !! Z.to_nat k)) as [t Ht].
    { apply lookup_lt_is_Some. change (length CRC32_TABLE) with 256%nat. change (2 ^ 8) with 256 in Hk2. lia. }
    rewrite Ht. unfold crc_table. by rewrite (nth_lookup_Some _ _ 0 _ Ht). }
  pose proof (Hlk i (conj Hi1 Hi2)) as Li. pose proof (Hlk j (conj Hj1 Hj2)) as Lj.
  rewrite <- E in Lj. pose proof (NoDup_lookup _ _ _ _ H Li Lj). lia.
Qed.

Lemma crc_f_fits x : fits 32 x → fits 32 (crc_f x).
Proof.
  intros [??]. apply lxor_fits; [lia|apply table_fits|].
  unfold fits. rewrite Z.shiftr_div_pow2 by lia. split; [apply Z.div_pos; lia|].
  apply Z.div_lt_upper_bound; lia.
Qed.

Lemma crc_f_top x : fits 32 x → Z.shiftr (crc_f x) 24 = Z.shiftr (crc_table (Z.land x 0xFF)) 24.
Proof.
  intros [??]. unfold crc_f. rewrite Z.shiftr_lxor, Z.shiftr_shiftr by lia.
  rewrite (Z.shiftr_div_pow2 x) by lia. rewrite (Z.div_small x) by lia. apply Z.lxor_0_r.
Qed.

Lemma crc_f_inj x y : fits 32 x → fits 32 y → crc_f x = crc_f y → x = y.
Proof.
  intros Hx Hy E.
  assert (Z.land x 0xFF = Z.land y 0xFF) as El.
  { apply table_top_inj; [apply land_byte..|]. by rewrite <- !crc_f_top, E by done. }
  unfold crc_f in E. rewrite El in E. apply (f_equal (Z.lxor (crc_table (Z.land y 0xFF)))) in E.
  rewrite <- !Z.lxor_assoc, Z.lxor_nilpotent, !Z.lxor_0_l in E.
  change 0xFF with (Z.ones 8) in El. rewrite !Z.land_ones in El by lia.
  rewrite !Z.shiftr_div_pow2 in E by lia.
  rewrite (Z.div_mod x (2 ^ 8)), (Z.div_mod y (2 ^ 8)) by lia. by rewrite E, El.
Qed.

Lemma crc_iter_inj n x y :
  fits 32 x → fits 32 y → Nat.iter n crc_f x = Nat.iter n crc_f y → x = y.
Proof.
  revert x y. induction n as [|n IH]; intros x y Hx Hy; [done|].
  change (crc_f (Nat.iter n crc_f x) = crc_f (Nat.iter n crc_f y) → x = y).
  rewrite <- !(iter_swap n crc_f). intros E. apply crc_f_inj; [done..|]. apply IH; auto using crc_f_fits.
Qed.

Lemma crc32_update_fits bs c : bytes_ok bs → fits 32 c → fits 32 (crc32_update c bs).
Proof.
  intros Hbs. revert c. induction Hbs as [|b bs Hb _ IH]; intros c Hc; [done|]. cbn. apply IH.
  rewrite crc32_step_f by done. apply crc_f_fits, lxor_fits; [lia|done|].
  unfold fits in *. change (2 ^ 8) with 256 in Hb. lia.
Qed.

Lemma crc32_fits bs : bytes_ok bs → fits 32 (crc32 bs).
Proof.
  intros. apply lxor_fits; [lia| |by (unfold fits)]. by apply crc32_update_fits; [|unfold fits].
Qed.

(** Runs of one length: the register after them determines the register before
    them, and, up to four bytes, the run itself. *)
Lemma crc32_update_inj_state bs c d :
  bytes_ok bs → fits 32 c → fits 32 d → crc32_update c bs = crc32_update d bs → c = d.
Proof.
  intros Hbs. revert c d. induction Hbs as [|b bs Hb Hbs IH]; intros c d Hc Hd; [done|].
  cbn. intros E.
  assert (∀ x, fits 32 x → fits 32 (Z.lxor x b)) as Hx.
  { intros x Hx. apply lxor_fits; [lia|done|]. unfold fits in *. change (2 ^ 8) with 256 in Hb. lia. }
  rewrite !crc32_step_f in E by done. apply IH in E; [|auto using crc_f_fits..].
  apply crc_f_inj in E; [|auto..].
  apply (f_equal (λ x, Z.lxor x b)) in E. by rewrite !Z.lxor_assoc, Z.lxor_nilpotent, !Z.lxor_0_r in E.
Qed.

Lemma crc32_update_inj_run v w c :
  bytes_ok v → bytes_ok w → length v = length w → (length v ≤ 4)%nat → fits 32 c →
  crc32_update c v = crc32_update c w → v = w.
Proof.
  intros Hv Hw Hlen H4 Hc E.
  assert (∀ u, bytes_ok u → (length u ≤ 4)%nat → fits 32 (from_le u)) as Hle.
  { intros u Hu Hl. pose proof (from_le_bound u Hu) as [? Hlt]. split; [done|].
    eapply Z.lt_le_trans; [exact Hlt|]. change (2 ^ 32) with (256 ^ 4).
    apply Z.pow_le_mono_r; unfold len; lia. }
  rewrite !crc32_update_le, Hlen in E by done.
  apply crc_iter_inj in E; [|apply lxor_fits; auto with lia..].
  apply (f_equal (Z.lxor c)) in E. rewrite <- !Z.lxor_assoc, Z.lxor_nilpotent, !Z.lxor_0_l in E.
  by rewrite <- (to_from_le v), <- (to_from_le w), E, Hlen by done.
Qed.

(** A change confined to four consecutive bytes always changes the CRC. *)
Lemma crc32_burst pre v w post :
  bytes_ok pre → bytes_ok v → bytes_ok w → bytes_ok post →
  length v = length w → (length v ≤ 4)%nat → v ≠ w →
  crc32 (pre ++ v ++ post) ≠ crc32 (pre ++ w ++ post).
Proof.
  intros Hpre Hv Hw Hpost Hlen H4 Hne E. apply Hne. unfold crc32 in E.
  apply (f_equal (λ x, Z.lxor x 0xFFFFFFFF)) in E.
  rewrite !Z.lxor_assoc, Z.lxor_nilpotent, !Z.lxor_0_r in E.
  unfold crc32_update in E. rewrite !foldl_app in E.
  change (foldl crc32_step) with crc32_update in E.
  assert (fits 32 (crc32_update 0xFFFFFFFF pre)) by (by apply crc32_update_fits; [|unfold fits]).
  apply crc32_update_inj_state in E; [|auto using crc32_update_fits..].
  by eapply crc32_update_inj_run.
Qed.

(** However the writes are split, the adapter ends with the CRC of the bytes
    the inner writer took since it was wrapped. *)
Lemma crc_writer_exact ws hdr :
  into_parts (foldl (λ w '(n, buf), crc_write n buf w) (crc_new hdr) ws)
  = (crc32 (concat ((λ '(n, buf), take n buf) <$> ws)),
     hdr ++ concat ((λ '(n, buf), take n buf) <$> ws)).
Proof.
  unfold crc32, crc_new. generalize 0xFFFFFFFF at 1 2 as c.
  revert hdr. induction ws as [|[n buf] ws IH]; intros hdr c.
  - cbn. by rewrite app_nil_r.
  - cbn [foldl fmap list_fmap concat]. unfold crc_write at 2. cbn [inner state]. rewrite IH. unfold crc32_update. by rewrite foldl_app, <- app_assoc.
Qed.
