(* ===== verification/WalFrame.v ===== *)
(** The framed WAL segment ([crates/loglake-wal/src/lib.rs]): building and
    verifying the header, the header's time bounds and owner, the walk over the
    Arrow IPC messages of a body, and the segment readers on top of them.

    Arrow's flatbuffer verifier, its stream decoder and zstd are third-party
    code: [ArrowIpc] lists the entry points the WAL calls, [ArrowIpcLaws] what
    their documentation promises of a stream that [StreamWriter] wrote. *)

From stdpp Require Import prelude strings.
From Stdlib Require Import ZArith Lia.
From S2P Require Import Prelude RustStr Crc32.

(** * Data *)

Definition WAL_FRAME_MAGIC : bytes := Eval vm_compute in lit "LWAL".
Definition WAL_FRAME_VERSION_V1 : Z := 1.
Definition WAL_FRAME_VERSION : Z := 2.
Definition WAL_FRAME_HEADER_LEN_V1 : Z := 36.
Definition WAL_FRAME_HEADER_LEN : Z := 52.
Definition WAL_FRAME_FLAG_ZSTD : Z := 1.
Definition WAL_FRAME_FLAG_PARTIAL : Z := 2.
Definition IPC_CONTINUATION_MARKER : bytes := [0xFF; 0xFF; 0xFF; 0xFF].

(** A [Uuid] is its sixteen bytes. *)
Abbreviation Uuid := bytes (only parsing).
Definition uuid_nil : Uuid := replicate 16 0.

Record WalFrameMeta := mkMeta { min_ts_nanos : Z; max_ts_nanos : Z }.

(** The [bail!]s of the readers. *)
Inductive FrameError :=
  | ShortHeader
  | UnsupportedVersion (version : Z)
  | ShortVersionHeader (version : Z)
  | BodyLength (body header : Z)
  | BodyCrc (actual header : Z)
  | SidecarParse
  | SidecarCrc (expected actual : Z)
  | IpcFraming (offset : Z)
  | DecodeError.

Abbreviation Res A := (FrameError + A)%type (only parsing).

(** [bytes[s..e]]; every use is behind a length check. *)
Definition slice (bs : bytes) (s e : nat) : bytes := take (e - s) (drop s bs).

Definition byte_at (bs : bytes) (i : nat) : Z := nth i bs 0.

(** [i64::from_le_bytes] and [i32::from_le_bytes]. *)
Definition signed_le (w : Z) (bs : bytes) : Z :=
  let z := from_le bs in if z <? 2 ^ (w - 1) then z else z - 2 ^ w.

Definition flag_set (flags bit : Z) : bool := negb (Z.land flags bit =? 0).

(** * The header *)

Definition is_framed (bs : bytes) : bool :=
  (4 <=? len bs) && bool_decide (slice bs 0 4 = WAL_FRAME_MAGIC).

Definition frame_header_len (version : Z) : option Z :=
  if version =? WAL_FRAME_VERSION_V1 then Some WAL_FRAME_HEADER_LEN_V1
  else if version =? WAL_FRAME_VERSION then Some WAL_FRAME_HEADER_LEN
  else None.

Definition build_wal_frame (flags min_ts max_ts : Z) (owner : option Uuid) (body : bytes)
    (body_crc : Z) : bytes :=
  WAL_FRAME_MAGIC ++ [WAL_FRAME_VERSION] ++ [flags] ++ to_le 2 0
  ++ to_le 8 min_ts ++ to_le 8 max_ts ++ to_le 8 (len body) ++ to_le 4 body_crc
  ++ default uuid_nil owner ++ body.

Definition verify_wal_frame (bs : bytes) : Res (bool * bytes) :=
  if len bs <? WAL_FRAME_HEADER_LEN_V1 then inl ShortHeader else
  let version := byte_at bs 4 in
  match frame_header_len version with
  | None => inl (UnsupportedVersion version)
  | Some header_len =>
      if len bs <? header_len then inl (ShortVersionHeader version) else
      let zstd := flag_set (byte_at bs 5) WAL_FRAME_FLAG_ZSTD in
      let body := drop (Z.to_nat header_len) bs in
      if flag_set (byte_at bs 5) WAL_FRAME_FLAG_PARTIAL then inr (zstd, body) else
      let body_len := from_le (slice bs 24 32) in
      let body_crc := from_le (slice bs 32 36) in
      if negb (len body =? body_len) then inl (BodyLength (len body) body_len) else
      let actual := crc32 body in
      if negb (actual =? body_crc) then inl (BodyCrc actual body_crc) else
      inr (zstd, body)
  end.

Definition frame_meta (hdr : bytes) : option WalFrameMeta :=
  if (len hdr <? WAL_FRAME_HEADER_LEN_V1) || negb (bool_decide (slice hdr 0 4 = WAL_FRAME_MAGIC))
  then None else
  match frame_header_len (byte_at hdr 4) with
  | None => None
  | Some _ =>
      if flag_set (byte_at hdr 5) WAL_FRAME_FLAG_PARTIAL then None else
      Some (mkMeta (signed_le 64 (slice hdr 8 16)) (signed_le 64 (slice hdr 16 24)))
  end.

(** [read_segment_meta] reads the common prefix of the header. *)
Definition read_segment_meta (file : bytes) : option WalFrameMeta :=
  if len file <? WAL_FRAME_HEADER_LEN_V1 then None else frame_meta (slice file 0 36).

Definition segment_owner_from_bytes (bs : bytes) : option Uuid :=
  if negb (is_framed bs) || (len bs <? WAL_FRAME_HEADER_LEN) then None else
  if negb (byte_at bs 4 =? WAL_FRAME_VERSION) then None else
  let uuid := slice bs 36 52 in
  if bool_decide (uuid = uuid_nil) then None else Some uuid.

Inductive WalOwner := Unmarked | Owned | Stale (owner : rstr).

(** [to_string] is the uuid crate's hyphenated form. *)
Definition classify_segment_owner_bytes (to_string : Uuid → rstr) (bs : bytes) (expected : rstr)
    : WalOwner :=
  match segment_owner_from_bytes bs with
  | None => Unmarked
  | Some owner => if bool_decide (to_string owner = expected) then Owned else Stale (to_string owner)
  end.

Definition segment_serves_table (to_string : Uuid → rstr) (bs : bytes) (expected : rstr) : bool :=
  match classify_segment_owner_bytes to_string bs expected with Stale _ => false | _ => true end.

(** * The legacy sidecar *)

(** [str::parse::<u32>]: an optional plus sign and at least one digit. *)
Fixpoint parse_digits (acc : Z) (s : rstr) : option Z :=
  match s with
  | [] => Some acc
  | c :: s =>
      if is_ascii_digit c then
        let acc := acc * 10 + (c - 0x30) in
        if acc <? 2 ^ 32 then parse_digits acc s else None
      else None
  end.

Definition parse_u32 (s : rstr) : option Z :=
  let s := match s with 0x2B :: s => s | _ => s end in
  match s with [] => None | _ => parse_digits 0 s end.

(** [sidecar] is what the [.crc] file holds, [None] when there is none. *)
Definition validate_segment_crc (sidecar : option bytes) (bs : bytes) : Res unit :=
  match sidecar ≫= from_utf8 with
  | None => inr tt
  | Some text =>
      match parse_u32 (trim text) with
      | None => inl SidecarParse
      | Some expected =>
          let actual := crc32 bs in
          if negb (actual =? expected) then inl (SidecarCrc expected actual) else inr tt
      end
  end.

(** * Arrow IPC *)

Class ArrowIpc (batch : Type) := {
  (** [root_as_message(meta)] and the [bodyLength] of the message it verifies. *)
  root_as_message : bytes → option Z;
  (** [StreamReader]: every batch of the stream, or an error. *)
  decode_ipc_stream : bytes → option (list batch);
  (** What [StreamWriter] writes for the schema, a batch and the end of stream. *)
  ipc_schema : bytes;
  ipc_batch : batch → bytes;
  ipc_eos : bytes;
  zstd_encode : bytes → bytes;
  zstd_decode : bytes → option bytes;
}.
#[global] Arguments root_as_message {batch _} _.
#[global] Arguments ipc_schema {batch _}.
#[global] Arguments ipc_eos {batch _}.
#[global] Arguments zstd_encode {batch _} _.
#[global] Arguments zstd_decode {batch _} _.

Inductive IpcStreamExtent :=
  | Complete
  | Truncated (offset : Z)
  | Malformed (offset : Z).

Section Readers.
Context {batch : Type} `{!ArrowIpc batch}.
Implicit Types bs : bytes.

(** One turn of the walk's [loop], on the bytes left from [start] on: a verdict,
    or the bytes the message takes. *)
Definition ipc_message_extent (start : Z) (rest : bytes) : IpcStreamExtent + nat :=
  if len rest <? 4 then inl Complete else
  let marked := bool_decide (take 4 rest = IPC_CONTINUATION_MARKER) in
  let rest' := drop 4 rest in
  if marked && (len rest' <? 4) then inl (Truncated start) else
  let '(prefix, rest') := if marked then (take 4 rest', drop 4 rest') else (take 4 rest, rest') in
  let declared_meta := signed_le 32 prefix in
  if declared_meta =? 0 then inl Complete else
  if declared_meta <? 0 then inl (Malformed start) else
  if len rest' <? declared_meta then inl (Truncated start) else
  match root_as_message (batch:=batch) (take (Z.to_nat declared_meta) rest') with
  | None => inl (Malformed start)
  | Some declared_body =>
      let rest' := drop (Z.to_nat declared_meta) rest' in
      if declared_body <? 0 then inl (Malformed start) else
      if len rest' <? declared_body then inl (Truncated start) else
      inr (length rest - (length rest' - Z.to_nat declared_body))%nat
  end.

(** The [loop]: [None] only when the fuel runs out. *)
Fixpoint ipc_walk (fuel : nat) (pos : Z) (rest : bytes) : option IpcStreamExtent :=
  match fuel with
  | O => None
  | S fuel =>
      match ipc_message_extent pos rest with
      | inl e => Some e
      | inr n => ipc_walk fuel (pos + Z.of_nat n) (drop n rest)
      end
  end.

(** Each turn takes at least four bytes, so this fuel is never used up
    ([ipc_walk_total]). *)
Definition ipc_stream_extent (bs : bytes) : IpcStreamExtent :=
  default Complete (ipc_walk (S (length bs)) 0 bs).

Definition decode_or_error (bs : bytes) : Res (list batch) :=
  match decode_ipc_stream bs with None => inl DecodeError | Some l => inr l end.

Definition read_segment_bytes (bs : bytes) : Res (list batch) :=
  match ipc_stream_extent bs with
  | Complete => decode_or_error bs
  | Truncated offset | Malformed offset => inl (IpcFraming offset)
  end.

Definition read_partial_segment_bytes (bs : bytes) : Res (list batch) :=
  match ipc_stream_extent bs with
  | Complete => decode_or_error bs
  | Malformed offset => inl (IpcFraming offset)
  | Truncated torn_at =>
      match decode_or_error (take (Z.to_nat torn_at) bs) with
      | inl e => inl e
      | inr [] => inl (IpcFraming torn_at)
      | inr batches => inr batches
      end
  end.

Definition decode_wal_frame (bs : bytes) : Res (list batch) :=
  match verify_wal_frame bs with
  | inl e => inl e
  | inr (zstd, body) =>
      if zstd : bool then
        match zstd_decode (batch:=batch) body with
        | None => inl DecodeError
        | Some raw => read_segment_bytes raw
        end
      else if flag_set (byte_at bs 5) WAL_FRAME_FLAG_PARTIAL then read_partial_segment_bytes body
      else read_segment_bytes body
  end.

Definition read_segment (sidecar : option bytes) (file : bytes) : Res (list batch) :=
  if is_framed file then decode_wal_frame file
  else match validate_segment_crc sidecar file with
       | inl e => inl e
       | inr _ => read_segment_bytes file
       end.

Definition read_segment_from_bytes (bs : bytes) : Res (list batch) :=
  if is_framed bs then decode_wal_frame bs else read_segment_bytes bs.
End Readers.

(** * The header's fields *)

Definition uuid_ok (owner : option Uuid) : Prop :=
  match owner with Some u => length u = 16%nat | None => True end.

Lemma from_to_le_mod n z : from_le (to_le n z) = z mod 256 ^ Z.of_nat n.
Proof.
  revert z. induction n as [|n IH]; intros z.
  - symmetry. apply Z.mod_1_r.
  - change (to_le (S n) z) with (z mod 256 :: to_le n (z / 256)). cbn [from_le].
    rewrite IH, Nat2Z.inj_succ, Z.pow_succ_r, Z.rem_mul_r by lia. done.
Qed.

(** The two's complement round trip of [to_le_bytes] and [from_le_bytes]. *)
Lemma signed_le_i64 z : - 2 ^ 63 ≤ z < 2 ^ 63 → signed_le 64 (to_le 8 z) = z.
Proof.
  intros Hz. unfold signed_le. rewrite from_to_le_mod.
  change (256 ^ Z.of_nat 8) with (2 ^ 64). change (2 ^ (64 - 1)) with (2 ^ 63).
  destruct (decide (0 ≤ z)).
  - rewrite Z.mod_small by lia. by rewrite (proj2 (Z.ltb_lt _ _)) by lia.
  - rewrite <- (Z.mod_add z 1 (2 ^ 64)), Z.mod_small by lia.
    rewrite (proj2 (Z.ltb_ge _ _)) by lia. lia.
Qed.

Lemma signed_le_i32 z : 0 ≤ z < 2 ^ 31 → signed_le 32 (to_le 4 z) = z.
Proof.
  intros Hz. unfold signed_le. rewrite from_to_le by (cbn; lia).
  change (2 ^ (32 - 1)) with (2 ^ 31). by rewrite (proj2 (Z.ltb_lt _ _)) by lia.
Qed.

Section Header.
Context (flags mn mx : Z) (owner : option Uuid) (body : bytes) (crc : Z).
Context (Howner : uuid_ok owner).
Local Abbreviation frame := (build_wal_frame flags mn mx owner body crc).

Lemma frame_split : ∃ hdr, frame = hdr ++ body ∧ length hdr = 52%nat.
Proof.
  exists (WAL_FRAME_MAGIC ++ [WAL_FRAME_VERSION] ++ [flags] ++ to_le 2 0
    ++ to_le 8 mn ++ to_le 8 mx ++ to_le 8 (len body) ++ to_le 4 crc ++ default uuid_nil owner).
  unfold build_wal_frame. rewrite <- !app_assoc. split; [done|].
  rewrite !length_app, !length_to_le. destruct owner; cbn in *; lia.
Qed.

Lemma frame_len : len frame = 52 + len body.
Proof. destruct frame_split as (hdr & -> & H). rewrite len_app. unfold len at 1. lia. Qed.

Lemma frame_body : drop 52 frame = body.
Proof. destruct frame_split as (hdr & -> & <-). apply drop_app_length. Qed.

Lemma frame_fields :
  slice frame 0 4 = WAL_FRAME_MAGIC ∧ byte_at frame 4 = WAL_FRAME_VERSION ∧ byte_at frame 5 = flags
  ∧ slice frame 8 16 = to_le 8 mn ∧ slice frame 16 24 = to_le 8 mx
  ∧ slice frame 24 32 = to_le 8 (len body) ∧ slice frame 32 36 = to_le 4 crc.
Proof. split_and!; reflexivity. Qed.

Lemma frame_owner : slice frame 36 52 = default uuid_nil owner.
Proof.
  change (slice frame 36 52) with (take 16 (default uuid_nil owner ++ body)).
  replace 16%nat with (length (default uuid_nil owner)) by (destruct owner; done).
  apply take_app_length.
Qed.

Lemma frame_framed : is_framed frame = true.
Proof.
  unfold is_framed. rewrite frame_len, (proj2 (Z.leb_le _ _)) by len_lia. by apply bool_decide_true.
Qed.

End Header.

(** The same header over another body: what an open segment is once rows are
    appended to its header, and what damage to a body looks like. *)
Definition with_body (frame body : bytes) : bytes := take 52 frame ++ body.

Lemma with_body_same flags mn mx owner body crc :
  uuid_ok owner →
  with_body (build_wal_frame flags mn mx owner body crc) body = build_wal_frame flags mn mx owner body crc.
Proof.
  intros Ho. unfold with_body. destruct (frame_split flags mn mx owner body crc Ho) as (hdr & -> & Hh).
  by rewrite take_app_length'.
Qed.

Lemma with_body_header flags mn mx owner body crc body' i :
  uuid_ok owner → (i < 52)%nat →
  byte_at (with_body (build_wal_frame flags mn mx owner body crc) body') i
  = byte_at (build_wal_frame flags mn mx owner body crc) i.
Proof.
  intros Ho Hi. unfold with_body, byte_at.
  destruct (frame_split flags mn mx owner body crc Ho) as (hdr & -> & Hh).
  rewrite take_app_length' by done. by rewrite !app_nth1 by lia.
Qed.

Lemma with_body_verify flags mn mx owner body crc body' :
  uuid_ok owner → len body < 2 ^ 64 → fits 32 crc →
  verify_wal_frame (with_body (build_wal_frame flags mn mx owner body crc) body') =
    if flag_set flags WAL_FRAME_FLAG_PARTIAL then inr (flag_set flags WAL_FRAME_FLAG_ZSTD, body')
    else if negb (len body' =? len body) then inl (BodyLength (len body') (len body))
    else if negb (crc32 body' =? crc) then inl (BodyCrc (crc32 body') crc)
    else inr (flag_set flags WAL_FRAME_FLAG_ZSTD, body').
Proof.
  intros Ho Hlen Hcrc. unfold with_body.
  destruct (frame_fields flags mn mx owner body crc) as (_ & F4 & F5 & _ & _ & F24 & F32).
  destruct (frame_split flags mn mx owner body crc Ho) as (hdr & Ef & Hh).
  rewrite Ef, <- Hh, take_app_length in *.
  assert (∀ i, (i < 52)%nat → byte_at (hdr ++ body') i = byte_at (hdr ++ body) i) as Hb.
  { intros i Hi. unfold byte_at. rewrite !app_nth1 by lia. done. }
  assert (∀ s e, (s ≤ e ≤ 52)%nat → slice (hdr ++ body') s e = slice (hdr ++ body) s e) as Hs.
  { intros s e Hse. unfold slice. rewrite !drop_app_le, !take_app_le by (rewrite ?length_drop; lia). done. }
  unfold verify_wal_frame. rewrite len_app, !Hb, !Hs by lia. rewrite F4, F5, F24, F32.
  assert (len hdr = 52) as -> by (unfold len; lia).
  change (frame_header_len WAL_FRAME_VERSION) with (Some 52). cbv beta iota zeta.
  unfold WAL_FRAME_HEADER_LEN_V1. rewrite !(proj2 (Z.ltb_ge _ _)) by len_lia.
  change (Z.to_nat 52) with 52%nat. rewrite drop_app_length' by done.
  by rewrite !from_to_le by (cbn; unfold fits in *; len_lia).
Qed.

(** * The walk over a written stream *)

Section Walk.
Context {batch : Type} `{!ArrowIpc batch}.
Implicit Types (m t rest : bytes).

(** An encapsulated message as [StreamWriter] lays it out. *)
Definition is_message m : Prop :=
  ∃ meta body, 0 < len meta < 2 ^ 31 ∧ root_as_message (batch:=batch) meta = Some (len body)
    ∧ m = IPC_CONTINUATION_MARKER ++ to_le 4 (len meta) ++ meta ++ body.

Lemma take_marker rest : take 4 (IPC_CONTINUATION_MARKER ++ rest) = IPC_CONTINUATION_MARKER.
Proof. reflexivity. Qed.

(** A marked message whose length prefix is all there. *)
Lemma extent_marked pos n rest :
  0 < n < 2 ^ 31 →
  ipc_message_extent pos (IPC_CONTINUATION_MARKER ++ to_le 4 n ++ rest) =
    if len rest <? n then inl (Truncated pos) else
    match root_as_message (batch:=batch) (take (Z.to_nat n) rest) with
    | None => inl (Malformed pos)
    | Some b =>
        if b <? 0 then inl (Malformed pos) else
        if len (drop (Z.to_nat n) rest) <? b then inl (Truncated pos) else
        inr (8 + Z.to_nat n + Z.to_nat b)%nat
    end.
Proof.
  intros Hn. unfold ipc_message_extent. rewrite !len_app, len_to_le.
  change (len IPC_CONTINUATION_MARKER) with 4.
  rewrite (proj2 (Z.ltb_ge (4 + _) 4)) by len_lia.
  rewrite take_marker, bool_decide_true by done. cbn [andb].
  change (drop 4 (IPC_CONTINUATION_MARKER ++ to_le 4 n ++ rest)) with (to_le 4 n ++ rest).
  rewrite len_app, len_to_le, (proj2 (Z.ltb_ge _ 4)) by len_lia.
  rewrite take_app_length', drop_app_length' by (by rewrite length_to_le).
  rewrite signed_le_i32 by lia. rewrite (proj2 (Z.eqb_neq _ _)), (proj2 (Z.ltb_ge n 0)) by lia.
  destruct (Z.ltb_spec (len rest) n) as [|Hle]; [done|].
  destruct (root_as_message _) as [b|]; [|done]. destruct (Z.ltb_spec b 0); [done|].
  destruct (Z.ltb_spec (len (drop (Z.to_nat n) rest)) b) as [|Hb]; [done|]. f_equal.
  unfold len in *. rewrite length_drop in *. rewrite !length_app, length_to_le. change (length IPC_CONTINUATION_MARKER) with 4%nat. lia.
Qed.

Lemma extent_message pos m rest :
  is_message m → ipc_message_extent pos (m ++ rest) = inr (length m).
Proof.
  intros (meta & body & Hn & Hr & ->). rewrite <- !app_assoc. rewrite extent_marked by done.
  rewrite !to_nat_len, take_app_length, drop_app_length, Hr.
  rewrite !(proj2 (Z.ltb_ge _ _)) by len_lia. f_equal.
  rewrite !length_app, length_to_le, to_nat_len. change (length IPC_CONTINUATION_MARKER) with 4%nat. lia.
Qed.

(** A continuation marker without a whole length after it. *)
Lemma extent_short_marker pos t :
  len t < 4 → ipc_message_extent pos (IPC_CONTINUATION_MARKER ++ t) = inl (Truncated pos).
Proof.
  intros Ht. unfold ipc_message_extent. rewrite len_app. change (len IPC_CONTINUATION_MARKER) with 4.
  rewrite (proj2 (Z.ltb_ge (4 + _) 4)) by len_lia.
  rewrite take_marker, bool_decide_true by done. cbn [andb].
  change (drop 4 (IPC_CONTINUATION_MARKER ++ t)) with t. by rewrite (proj2 (Z.ltb_lt _ _)).
Qed.

(** A prefix at least as long as the first part contains it. *)
Lemma app_prefix_split {A} (t u a b : list A) :
  t ++ u = a ++ b → len a ≤ len t → ∃ r : list A, t = a ++ r ∧ r ++ u = b.
Proof.
  intros E Hle. destruct (app_eq_inv t u a b E) as [(k & -> & ?)|(k & Ek & ?)]; [by exists k|].
  exists []. apply (f_equal len) in Ek as El. rewrite len_app in El.
  destruct k; [|len_lia]. rewrite app_nil_r in *. by subst.
Qed.

(** A message cut short: fewer than four bytes end the stream, anything longer
    is reported as torn where the message starts. *)
Lemma extent_torn pos t u :
  is_message (t ++ u) → u ≠ [] →
  ipc_message_extent pos t = inl (if len t <? 4 then Complete else Truncated pos).
Proof.
  intros (meta & body & Hn & Hr & E) Hu.
  destruct (Z.ltb_spec (len t) 4) as [|H4].
  { unfold ipc_message_extent. by rewrite (proj2 (Z.ltb_lt _ _)). }
  destruct (app_prefix_split t u _ _ E) as (t' & -> & E'); [done|].
  destruct (Z.ltb_spec (len t') 4) as [Hs|H8]; [by rewrite extent_short_marker|].
  destruct (app_prefix_split t' u _ _ E') as (r & -> & Er); [by rewrite len_to_le|].
  rewrite extent_marked by done.
  destruct (Z.ltb_spec (len r) (len meta)) as [|Hle]; [done|].
  destruct (app_prefix_split r u _ _ Er) as (b & -> & <-); [done|].
  rewrite to_nat_len, take_app_length, drop_app_length, Hr, len_app.
  rewrite (proj2 (Z.ltb_ge _ 0)) by len_lia.
  destruct u; [done|]. by rewrite (proj2 (Z.ltb_lt _ _)) by len_lia.
Qed.

Lemma extent_progress pos rest n : ipc_message_extent pos rest = inr n → (4 ≤ n ≤ length rest)%nat.
Proof.
  unfold ipc_message_extent. case_match eqn:H4; [done|]. apply Z.ltb_ge in H4.
  destruct (_ && _) eqn:Hm; [done|]. unfold len in *.
  assert (∀ p r k, (k ≤ length rest - 4)%nat →
    (let '(prefix, rest') := (p, drop k (drop 4 rest)) in
     let declared_meta := signed_le 32 prefix in
     if declared_meta =? 0 then inl Complete else
     if declared_meta <? 0 then inl (Malformed pos) else
     if Z.of_nat (length rest') <? declared_meta then inl (Truncated pos) else
     match root_as_message (batch:=batch) (take (Z.to_nat declared_meta) rest') with
     | None => inl (Malformed pos)
     | Some declared_body =>
         let rest' := drop (Z.to_nat declared_meta) rest' in
         if declared_body <? 0 then inl (Malformed pos) else
         if Z.of_nat (length rest') <? declared_body then inl (Truncated pos) else
         inr (length rest - (length rest' - Z.to_nat declared_body))%nat
     end) = inr r → (4 ≤ r ≤ length rest)%nat) as Hgen.
  { intros p r k Hk. cbv beta iota zeta. repeat case_match; try done. intros [= <-].
    rewrite !length_drop. lia. }
  destruct (bool_decide _); cbn [andb] in Hm.
  - apply Z.ltb_ge in Hm. rewrite length_drop in Hm. intros H. eapply (Hgen _ _ 4%nat); [lia|exact H].
  - intros H. eapply (Hgen _ _ 0%nat); [lia|exact H].
Qed.

Lemma ipc_walk_total fuel pos rest : (length rest < fuel)%nat → is_Some (ipc_walk fuel pos rest).
Proof.
  revert pos rest. induction fuel as [|fuel IH]; intros pos rest Hf; [lia|]. simpl.
  destruct (ipc_message_extent pos rest) as [e|n] eqn:E; [by eexists|].
  apply extent_progress in E. apply IH. rewrite length_drop. lia.
Qed.

Definition extent_within (lo hi : Z) (e : IpcStreamExtent) : Prop :=
  match e with Complete => True | Truncated o | Malformed o => lo ≤ o ≤ hi - 4 end.

Lemma extent_at pos rest e : ipc_message_extent pos rest = inl e → extent_within pos (pos + len rest) e.
Proof.
  unfold ipc_message_extent. destruct (Z.ltb_spec (len rest) 4) as [|Hl]; [by intros [= <-]|].
  destruct (_ && _); [intros [= <-]; cbn; lia|]. destruct (if bool_decide _ then _ else _) as [prefix rest'].
  repeat case_match; intros [= <-]; cbn; lia.
Qed.

Lemma ipc_walk_bounded fuel pos rest :
  (length rest < 4 * fuel)%nat →
  ∃ e, (∀ fuel', (fuel ≤ fuel')%nat → ipc_walk fuel' pos rest = Some e) ∧ extent_within pos (pos + len rest) e.
Proof.
  revert pos rest. induction fuel as [|fuel IH]; intros pos rest Hf; [lia|].
  destruct (ipc_message_extent pos rest) as [e|n] eqn:E.
  - exists e. split; [|by apply extent_at]. intros [|fuel'] Hle; [lia|]. cbn [ipc_walk]. by rewrite E.
  - pose proof (extent_progress _ _ _ E) as Hn.
    destruct (IH (pos + Z.of_nat n) (drop n rest)) as (e & He & Hb); [rewrite length_drop; lia|]. exists e. split.
    + intros [|fuel'] Hle; [lia|]. cbn [ipc_walk]. rewrite E. apply He. lia.
    + unfold len in *. rewrite length_drop in Hb. destruct e; cbn in *; lia.
Qed.

Lemma ipc_walk_messages ms fuel pos t :
  Forall is_message ms → (length (concat ms ++ t) < fuel)%nat →
  ∃ fuel', (length t < fuel')%nat ∧
    ipc_walk fuel pos (concat ms ++ t) = ipc_walk fuel' (pos + len (concat ms)) t.
Proof.
  intros Hms. revert fuel pos. induction Hms as [|m ms Hm _ IH]; intros fuel pos Hf.
  - exists fuel. change (len (concat (@nil bytes))) with 0. by rewrite Z.add_0_r.
  - simpl concat in *. rewrite <- app_assoc in *. destruct fuel as [|fuel]; [lia|].
    cbn [ipc_walk]. rewrite extent_message by done. rewrite drop_app_length.
    pose proof (extent_message 0 m [] Hm) as Hp%extent_progress. rewrite length_app in Hf.
    destruct (IH fuel (pos + Z.of_nat (length m))) as (f' & ? & ->); [rewrite app_nil_r in Hp; lia|].
    exists f'. split; [done|]. f_equal. rewrite len_app. unfold len. lia.
Qed.

(** The verdict on a stream is the one on what follows its whole messages. *)
Lemma extent_messages ms t (e : Z → IpcStreamExtent) :
  Forall is_message ms → (∀ pos, ipc_message_extent pos t = inl (e pos)) →
  ipc_stream_extent (concat ms ++ t) = e (len (concat ms)).
Proof.
  intros Hms Ht. unfold ipc_stream_extent.
  destruct (ipc_walk_messages ms (S (length (concat ms ++ t))) 0 t Hms) as (f & Hf & ->); [lia|].
  destruct f as [|f]; [lia|]. cbn [ipc_walk]. by rewrite Ht.
Qed.

Lemma extent_messages_torn ms t u :
  Forall is_message ms → is_message (t ++ u) → u ≠ [] → 4 ≤ len t →
  ipc_stream_extent (concat ms ++ t) = Truncated (len (concat ms)).
Proof.
  intros Hms Hm Hu H4. apply (extent_messages ms t Truncated); [done|]. intros pos.
  rewrite (extent_torn _ t u) by done. by rewrite (proj2 (Z.ltb_ge _ _)) by lia.
Qed.
End Walk.

(** * What the readers return *)

(** C33. The framing walk ends on any bytes: whatever body lengths the message
    headers declare, one turn for every four bytes and one more reach the
    verdict, and a fault is reported at an offset with a length prefix inside
    the file. *)
Theorem ipc_walk_ends {batch : Type} `{!ArrowIpc batch} (bs : bytes) :
  ∃ e, (∀ fuel, (length bs < 4 * fuel)%nat → ipc_walk (batch:=batch) fuel 0 bs = Some e)
    ∧ ipc_stream_extent (batch:=batch) bs = e ∧ extent_within 0 (len bs) e.
Proof.
  destruct (ipc_walk_bounded (batch:=batch) (S (length bs / 4)) 0 bs) as (e & He & Hb).
  { pose proof (Nat.div_mod_eq (length bs) 4). pose proof (Nat.mod_upper_bound (length bs) 4). lia. }
  exists e. split_and!; [|unfold ipc_stream_extent; rewrite He; [done|]|done].
  - intros fuel Hf. apply He. apply Nat.Div0.div_lt_upper_bound. lia.
  - apply le_n_S, Nat.Div0.div_le_upper_bound. lia.
Qed.

Class ArrowIpcLaws (batch : Type) `{!ArrowIpc batch} : Prop := {
  schema_message : is_message (ipc_schema (batch:=batch));
  (** One message per batch: the events schema has no dictionary column. *)
  batch_message b : is_message (ipc_batch b);
  eos_marker : ipc_eos (batch:=batch) = IPC_CONTINUATION_MARKER ++ to_le 4 0;
  (** [StreamReader] takes the end-of-stream marker, or the end of the file
      before the next length prefix, as the end of the stream. *)
  decode_stream (bs : list batch) t :
    len t < 4 ∨ t = ipc_eos (batch:=batch) →
    decode_ipc_stream (ipc_schema (batch:=batch) ++ concat (ipc_batch <$> bs) ++ t) = Some bs;
  schema_bytes : bytes_ok (ipc_schema (batch:=batch));
  batch_bytes (b : batch) : bytes_ok (ipc_batch b);
  zstd_bytes bs : bytes_ok bs → bytes_ok (zstd_encode (batch:=batch) bs);
  zstd_roundtrip bs : zstd_decode (batch:=batch) (zstd_encode (batch:=batch) bs) = Some bs;
  (** A zstd frame starts with its magic number. *)
  zstd_nonempty bs : 0 < len (zstd_encode (batch:=batch) bs);
}.

Section Files.
Context {batch : Type} `{!ArrowIpc batch}.

(** The body of a segment of [bs] with [t] after it, and the two files the
    writer makes of one: the open one and the sealed one. *)
Definition ipc_body (bs : list batch) (t : bytes) : bytes :=
  ipc_schema (batch:=batch) ++ concat (ipc_batch <$> bs) ++ t.

Definition open_header (owner : option Uuid) : bytes :=
  build_wal_frame WAL_FRAME_FLAG_PARTIAL 0 0 owner [] 0.

Definition sealed_file (mn mx : Z) (owner : option Uuid) (raw_body : bytes) : bytes :=
  let comp := zstd_encode (batch:=batch) raw_body in
  build_wal_frame WAL_FRAME_FLAG_ZSTD mn mx owner comp (crc32 comp).

Context `{!ArrowIpcLaws batch}.

Lemma body_messages (bs : list batch) :
  Forall is_message (ipc_schema (batch:=batch) :: (ipc_batch <$> bs)).
Proof. constructor; [apply schema_message|]. apply Forall_fmap, Forall_true. intros b. apply batch_message. Qed.

Lemma ipc_body_concat bs t :
  ipc_body bs t = concat (ipc_schema (batch:=batch) :: (ipc_batch <$> bs)) ++ t.
Proof. unfold ipc_body. cbn [concat]. by rewrite <- app_assoc. Qed.

Lemma ipc_body_ok bs t : bytes_ok t → bytes_ok (ipc_body bs t).
Proof.
  intros Ht. unfold ipc_body, bytes_ok. rewrite !Forall_app. split_and!; [apply schema_bytes| |done].
  apply Forall_concat, Forall_fmap, Forall_true. intros b. apply batch_bytes.
Qed.

Lemma read_complete_body bs t :
  len t < 4 ∨ t = ipc_eos (batch:=batch) → ipc_stream_extent (ipc_body bs t) = Complete.
Proof.
  intros Ht. rewrite ipc_body_concat. apply (extent_messages _ _ (λ _, Complete)); [apply body_messages|]. intros pos.
  destruct Ht as [Hlt| ->].
  - unfold ipc_message_extent. by rewrite (proj2 (Z.ltb_lt _ _)).
  - rewrite eos_marker. reflexivity.
Qed.

Lemma read_segment_bytes_body bs t :
  len t < 4 ∨ t = ipc_eos (batch:=batch) → read_segment_bytes (ipc_body bs t) = inr bs.
Proof.
  intros Ht. unfold read_segment_bytes, decode_or_error. rewrite read_complete_body by done.
  unfold ipc_body. by rewrite decode_stream.
Qed.

(** A body cut inside the message of the batch after [bs]. *)
Lemma read_partial_body bs b t u :
  t ++ u = ipc_batch b → u ≠ [] → bs ≠ [] → read_partial_segment_bytes (ipc_body bs t) = inr bs.
Proof.
  intros E Hu Hbs. unfold read_partial_segment_bytes. destruct (Z.ltb_spec (len t) 4) as [Hlt|Hge].
  { rewrite read_complete_body by (by left). unfold decode_or_error, ipc_body.
    by rewrite decode_stream by (by left). }
  rewrite ipc_body_concat, (extent_messages_torn _ t u); [|apply body_messages|rewrite E; apply batch_message|done..].
  rewrite to_nat_len, take_app_length.
  assert (concat (ipc_schema (batch:=batch) :: (ipc_batch <$> bs)) = ipc_body bs []) as ->.
  { by rewrite ipc_body_concat, app_nil_r. }
  unfold decode_or_error, ipc_body. rewrite decode_stream by (by left). by destruct bs.
Qed.

Lemma open_header_len owner : uuid_ok owner → len (open_header owner) = 52.
Proof. intros Ho. unfold open_header. by rewrite frame_len. Qed.

Lemma read_open_file sc owner body :
  uuid_ok owner →
  read_segment sc (open_header owner ++ body) = read_partial_segment_bytes body.
Proof.
  intros Ho. pose proof (open_header_len owner Ho) as Hl.
  assert (is_framed (open_header owner ++ body) = true) as Hfr.
  { unfold is_framed. rewrite bool_decide_true by done. rewrite andb_true_r, len_app.
    apply Z.leb_le. len_lia. }
  assert (open_header owner ++ body = with_body (open_header owner) body) as E.
  { unfold with_body. f_equal. symmetry. apply take_ge. unfold len in Hl. lia. }
  rewrite E in *.
  unfold read_segment, decode_wal_frame. rewrite Hfr. unfold open_header.
  rewrite with_body_verify by (done || unfold fits; cbn; lia). cbn [flag_set].
  rewrite (with_body_header _ _ _ _ _ _ _ 5) by (done || lia). reflexivity.
Qed.

Lemma read_sealed_file sc mn mx owner bs :
  uuid_ok owner → len (zstd_encode (batch:=batch) (ipc_body bs ipc_eos)) < 2 ^ 64 →
  read_segment sc (sealed_file mn mx owner (ipc_body bs ipc_eos)) = inr bs.
Proof.
  intros Ho Hlen. unfold sealed_file. set (comp := zstd_encode _) in *.
  assert (fits 32 (crc32 comp)).
  { apply crc32_fits, zstd_bytes, ipc_body_ok. rewrite eos_marker.
    apply Forall_app. split; [by repeat constructor|apply to_le_ok]. }
  unfold read_segment, decode_wal_frame. rewrite frame_framed by done.
  rewrite <- with_body_same by done. rewrite with_body_verify by done. cbn [flag_set].
  change (flag_set WAL_FRAME_FLAG_ZSTD WAL_FRAME_FLAG_PARTIAL) with false. cbv iota.
  rewrite !Z.eqb_refl. cbn [negb]. change (flag_set WAL_FRAME_FLAG_ZSTD WAL_FRAME_FLAG_ZSTD) with true.
  unfold comp. rewrite zstd_roundtrip. apply read_segment_bytes_body. by right.
Qed.
End Files.

(** * Properties *)

(** Damage to a body: another length, or a change within four bytes in a row. *)
Definition damaged (body body' : bytes) : Prop :=
  len body' ≠ len body
  ∨ ∃ pre v w post, body = pre ++ v ++ post ∧ body' = pre ++ w ++ post
      ∧ bytes_ok w ∧ length v = length w ∧ (length v ≤ 4)%nat ∧ v ≠ w.

(** C32. A sealed frame, one without the PARTIAL flag, verifies and gives back
    its body, its event-time bounds and its owner, whatever the body, the bounds
    and the other flags.  The owner is not the nil UUID, which stands for none. *)
Theorem wal_frame_roundtrip flags mn mx owner body :
  uuid_ok owner → owner ≠ Some uuid_nil →
  - 2 ^ 63 ≤ mn < 2 ^ 63 → - 2 ^ 63 ≤ mx < 2 ^ 63 → bytes_ok body → len body < 2 ^ 64 →
  flag_set flags WAL_FRAME_FLAG_PARTIAL = false →
  let f := build_wal_frame flags mn mx owner body (crc32 body) in
  verify_wal_frame f = inr (flag_set flags WAL_FRAME_FLAG_ZSTD, body)
  ∧ read_segment_meta f = Some (mkMeta mn mx)
  ∧ segment_owner_from_bytes f = owner.
Proof.
  intros Ho Hnil Hmn Hmx Hok Hlen Hp f. pose proof (crc32_fits body Hok).
  pose proof (frame_len flags mn mx owner body (crc32 body) Ho) as Hl.
  pose proof (frame_framed flags mn mx owner body (crc32 body) Ho) as Hfr.
  pose proof (frame_owner flags mn mx owner body (crc32 body) Ho) as How.
  fold f in Hl, Hfr, How. split_and!.
  - unfold f. rewrite <- with_body_same, with_body_verify, Hp by done. by rewrite !Z.eqb_refl.
  - unfold read_segment_meta. rewrite (proj2 (Z.ltb_ge _ _)) by (unfold WAL_FRAME_HEADER_LEN_V1; len_lia).
    change (frame_meta (slice f 0 36)) with
      (if flag_set flags WAL_FRAME_FLAG_PARTIAL then None
       else Some (mkMeta (signed_le 64 (to_le 8 mn)) (signed_le 64 (to_le 8 mx)))).
    by rewrite Hp, !signed_le_i64.
  - unfold segment_owner_from_bytes. rewrite Hfr, (proj2 (Z.ltb_ge _ _)) by (unfold WAL_FRAME_HEADER_LEN; len_lia).
    cbn [negb orb]. change (byte_at f 4) with WAL_FRAME_VERSION. rewrite Z.eqb_refl, How. cbn [negb].
    destruct owner as [u|]; [|done]. change (default uuid_nil (Some u)) with u.
    rewrite bool_decide_false; [done|]. by intros ->.
Qed.

(** C31. A sealed frame whose body lost or gained bytes, or changed anywhere
    within four consecutive whole bytes, never verifies: the error is the length
    mismatch or the CRC mismatch, never a body handed to the decoder. *)
Theorem wal_damage_detected flags mn mx owner body body' :
  uuid_ok owner → bytes_ok body → len body < 2 ^ 64 →
  flag_set flags WAL_FRAME_FLAG_PARTIAL = false → damaged body body' →
  verify_wal_frame (with_body (build_wal_frame flags mn mx owner body (crc32 body)) body')
  = inl (if len body' =? len body then BodyCrc (crc32 body') (crc32 body)
         else BodyLength (len body') (len body)).
Proof.
  intros Ho Hok Hlen Hp Hd. rewrite with_body_verify, Hp by auto using crc32_fits.
  destruct (Z.eqb_spec (len body') (len body)) as [Hl|]; [|done]. cbn [negb].
  destruct Hd as [|(pre & v & w & post & -> & -> & Hw & Hvw & H4 & Hne)]; [done|].
  unfold bytes_ok in Hok. rewrite !Forall_app in Hok. destruct Hok as (? & ? & ?).
  pose proof (crc32_burst pre v w post) as Hb.
  destruct (Z.eqb_spec (crc32 (pre ++ w ++ post)) (crc32 (pre ++ v ++ post))) as [E|]; [|done].
  by destruct Hb.
Qed.

(** A crash that cuts an open segment anywhere inside the message of the
    batch being appended loses that batch and nothing before it: reading the
    file back gives exactly the batches already complete. *)
Theorem wal_torn_tail_recovered {batch : Type} `{!ArrowIpc batch} `{!ArrowIpcLaws batch}
    sidecar owner (bs : list batch) (b : batch) t u :
  uuid_ok owner → bs ≠ [] → t ++ u = ipc_batch b → u ≠ [] →
  read_segment sidecar (open_header owner ++ ipc_body bs t) = inr bs.
Proof. intros. rewrite read_open_file by done. by eapply read_partial_body. Qed.

(** * Witnesses: a one-bit batch type with Arrow's message layout *)

Definition sample_message (meta : bytes) (body : bytes) : bytes :=
  IPC_CONTINUATION_MARKER ++ to_le 4 (len meta) ++ meta ++ body.

Fixpoint sample_decode (fuel : nat) (bs : bytes) : list bool :=
  match fuel, bs with
  | S fuel, _ :: _ :: _ :: _ :: _ :: _ :: _ :: _ :: 1 :: x :: rest => (x =? 1) :: sample_decode fuel rest
  | _, _ => []
  end.

#[local] Instance sample_arrow : ArrowIpc bool := {|
  root_as_message meta :=
    match meta with [1] => Some 1 | [2] => Some 0 | _ => None end;
  decode_ipc_stream bs := Some (sample_decode (length bs) (drop 9 bs));
  ipc_schema := sample_message [2] [];
  ipc_batch b := sample_message [1] [if b : bool then 1 else 0];
  ipc_eos := IPC_CONTINUATION_MARKER ++ to_le 4 0;
  zstd_encode bs := 0x28 :: bs;
  zstd_decode bs := match bs with [] => None | _ :: raw => Some raw end;
|}.

Lemma sample_decode_stream bs t fuel :
  (length bs < fuel)%nat → len t < 4 ∨ t = ipc_eos (batch:=bool) →
  sample_decode fuel (concat (ipc_batch <$> bs) ++ t) = bs.
Proof.
  revert fuel. induction bs as [|b bs IH]; intros fuel Hf Ht; (destruct fuel as [|fuel]; [cbn in Hf; lia|]).
  - destruct Ht as [Hlt| ->]; [|done]. unfold len in Hlt.
    do 4 (destruct t as [|? t]; [done|]). cbn [length] in Hlt. lia.
  - cbn in Hf. cbn [fmap list_fmap concat]. rewrite <- app_assoc. destruct b; cbn; f_equal; apply IH; auto with lia.
Qed.

#[local] Instance sample_arrow_laws : ArrowIpcLaws bool.
Proof.
  split.
  - exists [2], []. split_and!; done.
  - intros b. exists [1], [if b then 1 else 0]. split_and!; done.
  - done.
  - intros bs t Ht. cbn [decode_ipc_stream sample_arrow]. f_equal.
    rewrite drop_app_length' by done. apply sample_decode_stream; [|done].
    rewrite !length_app. enough (length bs ≤ length (concat (ipc_batch <$> bs)))%nat
      by (change (length (ipc_schema (batch:=bool))) with 9%nat; lia).
    clear. induction bs as [|b bs IH]; [done|]. cbn [fmap list_fmap concat]. rewrite length_app.
    change (length (ipc_batch b)) with 10%nat. cbn [length]. lia.
  - apply (bool_decide_unpack _). vm_compute. exact I.
  - intros []; apply (bool_decide_unpack _); vm_compute; exact I.
  - intros bs Hbs. constructor; [unfold is_byte; lia|done].
  - done.
  - intros bs. cbn [zstd_encode sample_arrow]. rewrite len_cons. pose proof (len_nonneg bs). lia.
Qed.

Definition sample_uuid : Uuid := [1; 2; 3; 4; 5; 6; 7; 8; 9; 10; 11; 12; 13; 14; 15; 16].

Lemma wal_frame_roundtrip_witness :
  let f := build_wal_frame 1 (-5) 7 (Some sample_uuid) [10; 20; 30] (crc32 [10; 20; 30]) in
  verify_wal_frame f = inr (true, [10; 20; 30])
  ∧ read_segment_meta f = Some (mkMeta (-5) 7) ∧ segment_owner_from_bytes f = Some sample_uuid.
Proof.
  apply (wal_frame_roundtrip 1 (-5) 7 (Some sample_uuid) [10; 20; 30]);
    try done; apply (bool_decide_unpack _); vm_compute; exact I.
Defined.

Lemma wal_damage_detected_witness :
  verify_wal_frame (with_body (build_wal_frame 1 0 0 None [10; 20; 30] (crc32 [10; 20; 30])) [10; 21; 30])
  = inl (BodyCrc (crc32 [10; 21; 30]) (crc32 [10; 20; 30])).
Proof.
  apply (wal_damage_detected 1 0 0 None [10; 20; 30] [10; 21; 30]); try done.
  - apply (bool_decide_unpack _). vm_compute. exact I.
  - right. exists [10], [20], [21], [30]. split_and!; try done; [|cbn; lia].
    apply (bool_decide_unpack _). vm_compute. exact I.
Defined.

Lemma wal_torn_tail_recovered_witness :
  read_segment None (open_header None ++ ipc_body [true; false] (take 7 (ipc_batch true)))
  = inr [true; false].
Proof.
  apply (wal_torn_tail_recovered None None [true; false] true _ (drop 7 (ipc_batch true))); try done.
Defined.
