(* ===== verification/WalDisk.v ===== *)
(** The file system under the WAL, as far as the crate's durability rules see
    it ([mod durability] of [crates/loglake-wal/src/lib.rs]).

    A disk has inodes, the directory entries a running process sees, the
    entries that are durable, and the entry changes that are not durable yet.
    An fsync of a file covers its contents and says nothing about its name; an
    fsync of a directory covers the entries of that directory only.  After a
    power loss any of the pending changes may be missing.  A rename is ordered,
    as the crate assumes: the old name is never gone without the new one being
    there, unless an fsync of the old name's directory forced that half out
    alone.

    The crate's functions are trees of file-system calls ([Prog]); [exec] gives
    every outcome of a call, failures included, and [always] is the program
    logic of such trees: a predicate that holds wherever a power loss may
    strike, and a postcondition. *)

From stdpp Require Import prelude gmap strings.
From Stdlib Require Import ZArith Lia.
From S2P Require Import Prelude RustStr.

(** * Names *)

(** The subdirectories of one WAL directory, and the state directories of its
    consumers. *)
Inductive Dir :=
  | WalRoot | ActiveDir | SealedDir | ProcessingDir | OrphansDir | PoisonDir
  | CommittedDir | ConsumersDir | StaleDir (owner : rstr) | StateDir (consumer : rstr).

#[global] Instance Dir_eq_dec : EqDecision Dir.
Proof. solve_decision. Defined.

#[global] Instance Dir_countable : Countable Dir.
Proof.
  refine (inj_countable'
    (λ D, match D with
          | WalRoot => inl 0%N | ActiveDir => inl 1%N | SealedDir => inl 2%N
          | ProcessingDir => inl 3%N | OrphansDir => inl 4%N | PoisonDir => inl 5%N
          | CommittedDir => inl 6%N | ConsumersDir => inl 7%N | StaleDir o => inr (inl o)
          | StateDir c => inr (inr c)
          end)
    (λ x, match x with
          | inl 0%N => WalRoot | inl 1%N => ActiveDir | inl 2%N => SealedDir
          | inl 3%N => ProcessingDir | inl 4%N => OrphansDir | inl 5%N => PoisonDir
          | inl 6%N => CommittedDir | inl _ => ConsumersDir | inr (inl o) => StaleDir o
          | inr (inr c) => StateDir c
          end) _).
  by intros [].
Defined.

Abbreviation path := (Dir * rstr)%type.

(** * Disks *)

(** [synced] bytes of the contents are durable. *)
Record Inode := mkInode { data : bytes; synced : nat }.

Inductive DirOp :=
  | Link (p : path) (i : N)
  | Unlink (p : path)
  | Move (s d : path) (i : N).

Record Disk := mkDisk {
  inodes : gmap N Inode;
  live : gmap path N;
  durable : gmap path N;
  pending : list DirOp;
}.

Definition apply_op (ns : gmap path N) (op : DirOp) : gmap path N :=
  match op with
  | Link p i => <[p := i]> ns
  | Unlink p => delete p ns
  | Move s d i => <[d := i]> (delete s ns)
  end.

Definition replay (ops : list DirOp) (ns : gmap path N) : gmap path N := foldl apply_op ns ops.

(** The halves of a pending change that an fsync of [D] makes durable, and the
    ones it leaves pending. *)
Definition flushed (D : Dir) (op : DirOp) : list DirOp :=
  match op with
  | Link p _ | Unlink p => if decide (p.1 = D) then [op] else []
  | Move s d i =>
      match decide (s.1 = D), decide (d.1 = D) with
      | left _, left _ => [op]
      | left _, right _ => [Unlink s]
      | right _, left _ => [Link d i]
      | right _, right _ => []
      end
  end.

Definition kept (D : Dir) (op : DirOp) : list DirOp :=
  match op with
  | Link p _ | Unlink p => if decide (p.1 = D) then [] else [op]
  | Move s d i =>
      match decide (s.1 = D), decide (d.1 = D) with
      | left _, left _ => []
      | left _, right _ => [Link d i]
      | right _, left _ => [Unlink s]
      | right _, right _ => [op]
      end
  end.

Definition sync_dir (D : Dir) (d : Disk) : Disk :=
  mkDisk (inodes d) (live d)
    (replay (pending d ≫= flushed D) (durable d)) (pending d ≫= kept D).

Definition change (op : DirOp) (d : Disk) : Disk :=
  mkDisk (inodes d) (apply_op (live d) op) (durable d) (pending d ++ [op]).

Definition set_inode (i : N) (nd : Inode) (d : Disk) : Disk :=
  mkDisk (<[i := nd]> (inodes d)) (live d) (durable d) (pending d).

(** ** Power loss *)

(** The names a power loss may leave. *)
Inductive survives : list DirOp → gmap path N → gmap path N → Prop :=
  | sv_nil ns : survives [] ns ns
  | sv_drop op l ns ns' : survives l ns ns' → survives (op :: l) ns ns'
  | sv_apply op l ns ns' : survives l (apply_op ns op) ns' → survives (op :: l) ns ns'
  | sv_half s d i l ns ns' : survives l (<[d := i]> ns) ns' → survives (Move s d i :: l) ns ns'.

Definition torn (cut : N → nat) (i : N) (nd : Inode) : option Inode :=
  let c := take (Nat.max (synced nd) (cut i)) (data nd) in Some (mkInode c (length c)).

Inductive crash : Disk → Disk → Prop :=
  | crash_intro d ns cut :
      survives (pending d) (durable d) ns →
      crash d (mkDisk (map_imap (torn cut) (inodes d)) ns ns []).

(** * File-system calls *)

(** [OpMkdir] is [durability::create_dir_all], which returns once the directory
    is durable; the directories themselves are not part of the state.
    [OpAppend] is [write_all]: it answers with the number of bytes written,
    fewer than asked for when the write failed part of the way. *)
Inductive Op : Type → Type :=
  | OpExists (p : path) : Op bool
  | OpCreate (p : path) : Op (option N)
  | OpAppend (i : N) (bs : bytes) : Op nat
  | OpSyncFile (i : N) : Op (option unit)
  | OpSyncDir (D : Dir) : Op (option unit)
  | OpRename (s d : path) : Op (option unit)
  | OpRemove (p : path) : Op (option unit)
  | OpMkdir (D : Dir) : Op (option unit)
  | OpRead (p : path) : Op (option bytes)
  | OpReadDir (D : Dir) : Op (option (list rstr)).

(** Every outcome of a call.  [None] is an I/O error; any call that can fail
    may fail without having done anything. *)
Definition exec (d : Disk) {R : Type} (op : Op R) : R → Disk → Prop :=
  match op with
  | OpExists p => λ r d', r = bool_decide (is_Some (live d !! p)) ∧ d' = d
  | OpCreate p => λ r d',
      (r = None ∧ d' = d)
      ∨ ∃ i, r = Some i ∧
          ((live d !! p = None ∧ inodes d !! i = None
            ∧ d' = change (Link p i) (set_inode i (mkInode [] 0) d))
           ∨ (live d !! p = Some i ∧ d' = set_inode i (mkInode [] 0) d))
  | OpAppend i bs => λ k d',
      (k ≤ length bs)%nat ∧ ∃ nd, inodes d !! i = Some nd
        ∧ d' = set_inode i (mkInode (data nd ++ take k bs) (synced nd)) d
  | OpSyncFile i => λ r d',
      (r = None ∧ d' = d)
      ∨ ∃ nd, r = Some tt ∧ inodes d !! i = Some nd
          ∧ d' = set_inode i (mkInode (data nd) (length (data nd))) d
  | OpSyncDir D => λ r d', (r = None ∧ d' = d) ∨ (r = Some tt ∧ d' = sync_dir D d)
  | OpRename s t => λ r d',
      (r = None ∧ d' = d)
      ∨ ∃ i, r = Some tt ∧ live d !! s = Some i ∧ d' = change (Move s t i) d
  | OpRemove p => λ r d',
      (r = None ∧ d' = d)
      ∨ ∃ i, r = Some tt ∧ live d !! p = Some i ∧ d' = change (Unlink p) d
  | OpMkdir D => λ r d', (r = None ∨ r = Some tt) ∧ d' = d
  | OpRead p => λ r d',
      d' = d ∧ (r = None ∨ ∃ i nd, live d !! p = Some i ∧ inodes d !! i = Some nd ∧ r = Some (data nd))
  | OpReadDir D => λ r d',
      d' = d ∧ (r = None ∨ ∃ names, r = Some names ∧ NoDup names
                              ∧ ∀ n, n ∈ names ↔ is_Some (live d !! (D, n)))
  end.

(** Opens the outcomes of a call. *)
Ltac inv_outcome H :=
  lazymatch type of H with
  | _ ∨ _ => destruct H as [H|H]; inv_outcome H
  | ∃ x, _ => let y := fresh x in destruct H as [y H]; inv_outcome H
  | _ ∧ _ => let H1 := fresh "Hx" in destruct H as [H1 H]; inv_outcome H1; inv_outcome H
  | _ => idtac
  end.
Ltac inv_exec H := cbn [exec] in H; inv_outcome H; simplify_eq.

(** * Programs *)

Inductive Prog (A : Type) : Type :=
  | Ret (a : A)
  | Step {R : Type} (op : Op R) (k : R → Prog A).
Arguments Ret {A} a.
Arguments Step {A R} op k.

Fixpoint prog_bind {A B} (p : Prog A) (f : A → Prog B) : Prog B :=
  match p with Ret a => f a | Step op k => Step op (λ r, prog_bind (k r) f) end.

Definition call {R} (op : Op R) : Prog R := Step op Ret.

(** [let!] is sequencing, [let?] sequencing through the [?] operator. *)
Notation "'let!' x := p 'in' q" := (prog_bind p (λ x, q))
  (at level 10, x name, p at level 100, q at level 200) : loglake_scope.
Notation "'let?' x := p 'in' q" :=
  (prog_bind p (λ r, match r with None => Ret None | Some x => q end))
  (at level 10, x name, p at level 100, q at level 200) : loglake_scope.

(** One call of a running program. *)
Definition step {A} (x y : Disk * Prog A) : Prop :=
  match x.2 with
  | Ret _ => False
  | Step op k => ∃ r, exec x.1 op r y.1 ∧ y.2 = k r
  end.

(** ** The durability helpers *)

(** [durability::persist_move]: destination first. *)
Definition persist_move (dest source : Dir) : Prog (option unit) :=
  let? _ := call (OpSyncDir dest) in call (OpSyncDir source).

(** [durability::write_sync]; a short write is an error. *)
Definition write_sync (p : path) (bs : bytes) : Prog (option unit) :=
  let? i := call (OpCreate p) in
  let! k := call (OpAppend i bs) in
  if (k <? length bs)%nat then Ret None else call (OpSyncFile i).

(** [durability::publish_file] *)
Definition publish_file (p tmp : path) (bs : bytes) : Prog (option unit) :=
  let? _ := write_sync tmp bs in
  let? _ := call (OpRename tmp p) in
  call (OpSyncDir p.1).

(** * The program logic *)

Section Always.
Context {A : Type}.
Implicit Types (I : Disk → Prop) (Q : A → Disk → Prop).

(** [I] holds before and after every call, [Q] of the result. *)
Fixpoint always {A} (I : Disk → Prop) (Q : A → Disk → Prop) (p : Prog A) (d : Disk) : Prop :=
  match p with
  | Ret a => I d ∧ Q a d
  | Step op k => I d ∧ ∀ r d', exec d op r d' → always I Q (k r) d'
  end.

Lemma always_here I Q p d : always I Q p d → I d.
Proof. by destruct p; intros [? _]. Qed.

Lemma always_mono I I' Q Q' p d :
  (∀ d, I d → I' d) → (∀ a d, I d → Q a d → Q' a d) → always I Q p d → always I' Q' p d.
Proof.
  intros HI HQ. revert d. induction p as [a|R op k IH]; intros d [H1 H2]; (split; [by auto|]); [by auto|].
  intros r d' He. by apply IH, H2.
Qed.

Lemma always_bind {B} I (Q : B → Disk → Prop) p (f : A → Prog B) d :
  always I (λ a d', always I Q (f a) d') p d → always I Q (prog_bind p f) d.
Proof.
  revert d. induction p as [a|R op k IH]; intros d [H1 H2]; simpl; [done|]. split; [done|].
  intros r d' He. by apply IH, H2.
Qed.

(** What the logic says of a run: [I] wherever it is stopped, [Q] when it is
    done. *)
Lemma always_step I Q d p d' p' : step (d, p) (d', p') → always I Q p d → always I Q p' d'.
Proof. destruct p as [a|R op k]; cbn; [done|]. intros (r & He & ->) [_ H]. by apply H. Qed.

Lemma always_run I Q d p d' p' : rtc step (d, p) (d', p') → always I Q p d → always I Q p' d'.
Proof.
  intros Hr. remember (d, p) as x eqn:Ex. remember (d', p') as y eqn:Ey. revert d p Ex.
  induction Hr as [x|x [d1 p1] z Hs Hr IH]; intros d p ->; [by intros; simplify_eq|].
  intros H. apply (IH Ey d1 p1); [done|]. by eapply always_step.
Qed.
End Always.

Lemma always_call {R} (I : Disk → Prop) (Q : R → Disk → Prop) (op : Op R) d :
  I d → (∀ r d', exec d op r d' → I d' ∧ Q r d') → always I Q (call op) d.
Proof. intros HI H. split; [done|]. intros r d' He. by apply H. Qed.

Lemma always_op {R B} (I : Disk → Prop) (Q : B → Disk → Prop) (op : Op R) (f : R → Prog B) d :
  I d → (∀ r d', exec d op r d' → always I Q (f r) d') → always I Q (prog_bind (call op) f) d.
Proof. by split. Qed.

Lemma always_ret {A} (I : Disk → Prop) (Q : A → Disk → Prop) a d : I d → Q a d → always I Q (Ret a) d.
Proof. by split. Qed.

Lemma rtc_call {R A} d (op : Op R) (k : R → Prog A) r d' z :
  exec d op r d' → rtc step (d', k r) z → rtc step (d, Step op k) z.
Proof. intros He. apply rtc_l. exists r. auto. Qed.

(** One call of a program under [always]: its outcomes, one goal each. *)
Tactic Notation "always_op" ident(H) :=
  apply always_op;
  [try done
  |let r := fresh "r" in let d := fresh "d" in
   intros r d H; inv_exec H; cbv beta iota; try (by apply always_ret)].

(** A sub-program, through its own specification. *)
Tactic Notation "always_use" constr(L) :=
  apply always_bind; eapply always_mono; [done| |apply L]; try done; cbv beta iota.

(** * Names under power loss *)

Definition touches (op : DirOp) : list path :=
  match op with Link p _ | Unlink p => [p] | Move s d _ => [s; d] end.

Definition inside (D : Dir) (op : DirOp) : Prop := ∀ p, p ∈ touches op → p.1 = D.
Definition outside (D : Dir) (op : DirOp) : Prop := ∀ p, p ∈ touches op → p.1 ≠ D.

(** No pending rename leads out of [D]. *)
Definition no_out (D : Dir) (op : DirOp) : Prop :=
  match op with Move s d _ => s.1 = D → d.1 = D | _ => True end.

Lemma apply_op_other ns op p : p ∉ touches op → apply_op ns op !! p = ns !! p.
Proof.
  destruct op; simpl; rewrite ?not_elem_of_cons; intros; destruct_and?; rewrite ?lookup_insert_ne, ?lookup_delete_ne by done; done.
Qed.

Lemma apply_op_comm ns a b :
  (∀ p, p ∈ touches a → p ∉ touches b) →
  apply_op (apply_op ns a) b = apply_op (apply_op ns b) a.
Proof.
  intros H. apply map_eq. intros p. destruct (decide (p ∈ touches a)) as [Ha|Ha].
  - rewrite (apply_op_other _ b) by auto. destruct a; simpl in *;
      rewrite ?list_elem_of_singleton, ?elem_of_cons in Ha; rewrite ?lookup_insert, ?lookup_delete;
      repeat case_decide; try done; try (symmetry; apply apply_op_other, H; set_solver).
  - rewrite (apply_op_other _ a) by done. destruct b; simpl in *;
      rewrite ?lookup_insert, ?lookup_delete; repeat case_decide; try done; by rewrite (apply_op_other _ a).
Qed.

Lemma inside_outside_comm D ns a b :
  inside D a → outside D b → apply_op (apply_op ns a) b = apply_op (apply_op ns b) a.
Proof. intros Ha Hb. apply apply_op_comm. intros p Hpa Hpb. by apply (Hb p), Ha. Qed.

Lemma replay_cons op l ns : replay (op :: l) ns = replay l (apply_op ns op).
Proof. done. Qed.

Lemma replay_comm D F ns op :
  Forall (inside D) F → outside D op → apply_op (replay F ns) op = replay F (apply_op ns op).
Proof.
  intros HF Ho. revert ns. induction HF as [|a F Ha _ IH]; intros ns; [done|].
  rewrite !replay_cons, IH. by rewrite (inside_outside_comm D).
Qed.

Lemma flushed_inside D op : Forall (inside D) (flushed D op).
Proof.
  destruct op as [p i|p|s t i]; simpl; repeat case_decide; rewrite ?Forall_singleton; try done;
    intros q; simpl; rewrite ?list_elem_of_singleton, ?elem_of_cons, ?elem_of_nil; naive_solver.
Qed.

Lemma kept_outside D op : Forall (outside D) (kept D op).
Proof.
  destruct op as [p i|p|s t i]; simpl; repeat case_decide; rewrite ?Forall_singleton; try done;
    intros q; simpl; rewrite ?list_elem_of_singleton, ?elem_of_cons, ?elem_of_nil; naive_solver.
Qed.

Lemma flushed_all_inside D l : Forall (inside D) (l ≫= flushed D).
Proof. induction l as [|op l IH]; [constructor|]. apply Forall_app. auto using flushed_inside. Qed.

Lemma kept_all_outside D l : Forall (outside D) (l ≫= kept D).
Proof. induction l as [|op l IH]; [constructor|]. apply Forall_app. auto using kept_outside. Qed.

Lemma split_op D ns op : replay (kept D op) (replay (flushed D op) ns) = apply_op ns op.
Proof.
  destruct op as [p i|p|s t i]; simpl; repeat case_decide; cbn; try done.
  apply map_eq. intros q. rewrite !lookup_delete, !lookup_insert, !lookup_delete.
  repeat case_decide; naive_solver.
Qed.

Lemma replay_outside_comm D F ns K :
  Forall (inside D) F → Forall (outside D) K → replay K (replay F ns) = replay F (replay K ns).
Proof.
  intros HF HK. revert ns. induction HK as [|op K Ho _ IH]; intros ns; [done|].
  rewrite !replay_cons, (replay_comm D) by done. apply IH.
Qed.

Lemma replay_app a b ns : replay (a ++ b) ns = replay b (replay a ns).
Proof. apply foldl_app. Qed.

Lemma sync_replay D l ns : replay (l ≫= kept D) (replay (l ≫= flushed D) ns) = replay l ns.
Proof.
  revert ns. induction l as [|op l IH]; intros ns; [done|]. cbn [mbind list_bind].
  rewrite !replay_app.
  rewrite (replay_outside_comm D _ _ (kept D op)) by auto using flushed_all_inside, kept_outside.
  rewrite split_op. apply IH.
Qed.

(** ** What survives *)

Lemma survives_replay l ns : survives l ns (replay l ns).
Proof. revert ns. induction l as [|op l IH]; intros ns; [constructor|]. apply sv_apply, IH. Qed.

Lemma survives_app a b ns ns' :
  survives (a ++ b) ns ns' ↔ ∃ m, survives a ns m ∧ survives b m ns'.
Proof.
  revert ns. induction a as [|op a IH]; intros ns; simpl.
  - split; [intros; exists ns; split; [constructor|done]|]. intros (m & Hm & ?). by inversion Hm; subst.
  - split.
    + intros H. inversion H; subst;
        match goal with Hs : survives (a ++ b) _ _ |- _ => apply IH in Hs as (m & ? & ?) end;
        exists m; (split; [|done]); by (apply sv_drop + apply sv_apply + apply sv_half).
    + intros (m & H & Hb). inversion H; subst;
        (apply sv_drop + apply sv_apply + apply sv_half); apply IH; by exists m.
Qed.

Lemma survives_one_inv op ns ns' :
  survives [op] ns ns' →
  ns' = ns ∨ ns' = apply_op ns op ∨ ∃ s d i, op = Move s d i ∧ ns' = <[d := i]> ns.
Proof.
  intros H. inversion H; subst; match goal with Hs : survives [] _ _ |- _ => inversion Hs; subst end;
    naive_solver.
Qed.

Lemma survives_comm D F K ns m :
  Forall (inside D) F → Forall (outside D) K →
  survives K (replay F ns) m → ∃ m', survives K ns m' ∧ m = replay F m'.
Proof.
  intros HF HK. revert ns. induction HK as [|op K Ho _ IH]; intros ns H.
  - inversion H; subst. exists ns. split; [constructor|done].
  - inversion H; subst.
    + destruct (IH ns) as (m' & ? & ->); [done|]. exists m'. split; [by apply sv_drop|done].
    + rewrite (replay_comm D) in * by done.
      match goal with Hs : survives K (replay F ?x) _ |- _ => destruct (IH x Hs) as (m' & ? & ->) end.
      exists m'. split; [by apply sv_apply|done].
    + match goal with Hs : survives K _ _ |- _ => revert Hs end.
      change (<[d := i]> (replay F ns)) with (apply_op (replay F ns) (Link d i)).
      rewrite (replay_comm D) by (done || intros q ->%list_elem_of_singleton; apply Ho; right; left).
      intros Hs. destruct (IH _ Hs) as (m' & ? & ->). exists m'. split; [by apply sv_half|done].
Qed.

(** An fsync of a directory no pending rename leads out of only rules
    survivors out. *)
Lemma survives_sync D l ns ns' :
  Forall (no_out D) l →
  survives (l ≫= kept D) (replay (l ≫= flushed D) ns) ns' → survives l ns ns'.
Proof.
  intros Hout. revert ns. induction Hout as [|op l Ho _ IH]; intros ns; [done|].
  cbn [mbind list_bind]. rewrite replay_app. intros H. apply survives_app in H as (m & H1 & H2).
  apply (survives_comm D) in H1 as (m' & H1 & ->); [|auto using flushed_all_inside, kept_outside..].
  change (op :: l) with ([op] ++ l). apply survives_app. exists m'. split; [|by apply IH].
  destruct op as [p i|p|s t i]; simpl in *; repeat case_decide; cbn in H1; try done;
    try (by inversion H1; subst; repeat constructor); [exfalso; auto|].
  apply survives_one_inv in H1 as [->|[->|(?&?&?&?&?)]]; [apply sv_half; constructor| |done].
  apply sv_apply. cbn. rewrite delete_insert_ne; [constructor|]. congruence.
Qed.

(** ** Entries that survive *)

(** [i] is reachable under one of the names [P] whatever a power loss leaves. *)
Definition reachable (P : path → Prop) (i : N) (d : Disk) : Prop :=
  ∀ ns, survives (pending d) (durable d) ns → ∃ p, P p ∧ ns !! p = Some i.

(** [p] names [i] whatever a power loss leaves. *)
Definition anchored (p : path) (i : N) : Disk → Prop := reachable (eq p) i.

Lemma anchored_spec p i d :
  anchored p i d ↔ ∀ ns, survives (pending d) (durable d) ns → ns !! p = Some i.
Proof.
  split; intros H ns Hs; [by destruct (H ns Hs) as (? & <- & ?)|]. exists p. auto.
Qed.

Lemma reachable_mono (P P' : path → Prop) i d :
  (∀ p, P p → P' p) → reachable P i d → reachable P' i d.
Proof. intros HP H ns Hs. destruct (H ns Hs) as (p & ? & ?). eauto. Qed.

Lemma reachable_frame P i d op :
  (∀ p, P p → p ∉ touches op) → reachable P i d → reachable P i (change op d).
Proof.
  intros Hop H ns Hs. cbn in Hs. apply survives_app in Hs as (m & Hm & Hs).
  destruct (H m Hm) as (p & Hp & Hi). exists p. split; [done|]. specialize (Hop p Hp).
  apply survives_one_inv in Hs as [->|[->|(s & t & j & -> & ->)]]; [done|by rewrite apply_op_other|].
  rewrite lookup_insert_ne; [done|]. intros ->. apply Hop. right. left.
Qed.

(** A rename of the file itself, to another of its names. *)
Lemma reachable_rename (P : path → Prop) s t i d :
  P t → reachable P i d → reachable P i (change (Move s t i) d).
Proof.
  intros Ht H ns Hs. cbn in Hs. apply survives_app in Hs as (m & Hm & Hs).
  apply survives_one_inv in Hs as [->|[->|(?&?&?&?&?)]]; [by apply H| |]; exists t; simplify_eq;
    (split; [done|]); cbn; by rewrite lookup_insert_eq.
Qed.

Lemma reachable_sync P i d D :
  Forall (no_out D) (pending d) → reachable P i d → reachable P i (sync_dir D d).
Proof. intros Hout H ns Hs. apply H. by eapply survives_sync. Qed.

Lemma reachable_inode P i d j nd : reachable P i d → reachable P i (set_inode j nd d).
Proof. done. Qed.

(** A power loss leaves a name nothing is pending on as it is. *)
Lemma survives_other p l ns ns' :
  Forall (λ op, p ∉ touches op) l → survives l ns ns' → ns' !! p = ns !! p.
Proof.
  intros Hp Hs. induction Hs as [|op l ns ns' _ IH|op l ns ns' _ IH|s t j l ns ns' _ IH];
    [done|inversion Hp as [|?? Ho Hl]; subst..].
  - auto.
  - rewrite IH by done. by apply apply_op_other.
  - rewrite IH by done. apply lookup_insert_ne. intros ->. apply Ho. right. left.
Qed.

Lemma anchored_durable p i d :
  durable d !! p = Some i → Forall (λ op, p ∉ touches op) (pending d) → anchored p i d.
Proof. intros Hd Hp. apply anchored_spec. intros ns Hs. by rewrite (survives_other p _ _ _ Hp Hs). Qed.

(** ** Consistency *)

(** What a process sees is what the disk would hold with everything flushed. *)
Definition consistent (d : Disk) : Prop := replay (pending d) (durable d) = live d.

Definition settled (d : Disk) : Prop := pending d = [] ∧ durable d = live d.

Lemma consistent_sync D d : consistent d → consistent (sync_dir D d).
Proof. intros H. etransitivity; [apply sync_replay|exact H]. Qed.

Lemma consistent_change op d : consistent d → consistent (change op d).
Proof.
  unfold consistent. intros H. etransitivity; [apply replay_app|]. cbn [durable change]. by rewrite H.
Qed.

Lemma settled_consistent d : settled d → consistent d.
Proof. intros [Hp Hd]. unfold consistent. by rewrite Hp. Qed.

Lemma kept_both D E op : (∀ p, p ∈ touches op → p.1 = D ∨ p.1 = E) → kept D op ≫= kept E = [].
Proof.
  intros H.
  assert (∀ p, p ∈ touches op → p.1 ≠ D → p.1 = E) as HE by (intros p Hp; destruct (H p Hp); done).
  destruct op as [p j|p|s t j]; cbn [kept]; repeat case_decide; cbn; repeat case_decide; try done;
    exfalso; match goal with Hn : ?p.1 ≠ E |- _ => apply Hn, HE; [cbn; set_solver|done] end.
Qed.

(** Once both directories of every pending change are synced, nothing is
    pending. *)
Lemma settled_sync D E d :
  consistent d → Forall (λ op, ∀ p, p ∈ touches op → p.1 = D ∨ p.1 = E) (pending d) →
  settled (sync_dir E (sync_dir D d)).
Proof.
  intros Hc Hp.
  assert ((pending d ≫= kept D) ≫= kept E = []) as Hnil.
  { clear Hc. induction Hp as [|op l Ho _ IH]; [done|]. cbn [mbind list_bind]. rewrite bind_app.
    rewrite IH, app_nil_r. apply kept_both. intros p Hin. naive_solver. }
  split; [done|]. apply (consistent_sync D) in Hc. apply (consistent_sync E) in Hc.
  unfold consistent in Hc.
  change (pending (sync_dir E (sync_dir D d))) with ((pending d ≫= kept D) ≫= kept E) in *.
  by rewrite Hnil in Hc.
Qed.

(** The calls keep what a process sees and what the disk holds in step. *)
Lemma exec_consistent {R} d (op : Op R) r d' : exec d op r d' → consistent d → consistent d'.
Proof.
  intros He Hc. destruct op; inv_exec He; auto using consistent_change, consistent_sync.
Qed.

(** ** Entries with nothing pending on them *)

Definition fixed (p : path) (i : N) (d : Disk) : Prop :=
  durable d !! p = Some i ∧ Forall (λ op, p ∉ touches op) (pending d).

Lemma fixed_anchored p i d : fixed p i d → anchored p i d.
Proof. intros [? ?]. by apply anchored_durable. Qed.

Lemma settled_fixed p i d : settled d → live d !! p = Some i → fixed p i d.
Proof. intros [Hp Hd] Hl. split; [by rewrite Hd|by rewrite Hp]. Qed.

Lemma fixed_frame p i op d : p ∉ touches op → fixed p i d → fixed p i (change op d).
Proof. intros Hop [Hd Hp]. split; [done|]. apply Forall_app. auto. Qed.

Lemma replay_other p l ns : Forall (λ op, p ∉ touches op) l → replay l ns !! p = ns !! p.
Proof.
  intros Hl. revert ns. induction Hl as [|op l Ho _ IH]; intros ns; [done|].
  rewrite replay_cons, IH. by apply apply_op_other.
Qed.

Lemma halves_touch D op q op' : (op' ∈ flushed D op ∨ op' ∈ kept D op) → q ∈ touches op' → q ∈ touches op.
Proof.
  destruct op as [p j|p|s t j]; cbn [flushed kept]; repeat case_decide; intros [Hin|Hin];
    rewrite ?list_elem_of_singleton, ?elem_of_nil in Hin; try done; subst; cbn [touches];
    rewrite ?elem_of_cons, ?elem_of_nil; tauto.
Qed.

Lemma halves_frame p D l :
  Forall (λ op, p ∉ touches op) l →
  Forall (λ op, p ∉ touches op) (l ≫= flushed D) ∧ Forall (λ op, p ∉ touches op) (l ≫= kept D).
Proof.
  intros Hl. rewrite Forall_forall in Hl.
  split; apply Forall_forall; intros op' (op & Hop & Hin)%list_elem_of_bind Hp;
    apply (Hl op Hin); eapply halves_touch; eauto.
Qed.

Lemma fixed_sync p i D d : fixed p i d → fixed p i (sync_dir D d).
Proof.
  intros [Hd Hp]. destruct (halves_frame p D _ Hp) as [Hf Hk]. split; [|done].
  cbn [durable sync_dir]. by rewrite replay_other.
Qed.

(** An fsync of its directory fixes every entry a process sees there. *)
Lemma sync_fixes p i d : consistent d → live d !! p = Some i → fixed p i (sync_dir p.1 d).
Proof.
  intros Hc Hl.
  assert (Forall (λ op, p ∉ touches op) (pending d ≫= kept p.1)) as Hk.
  { eapply Forall_impl; [apply (kept_all_outside p.1)|]. cbn. intros op Ho Hin. by apply (Ho p). }
  split; [|done]. apply (consistent_sync p.1) in Hc. unfold consistent in Hc.
  rewrite <- Hl. change (live d) with (live (sync_dir p.1 d)). rewrite <- Hc.
  symmetry. by apply replay_other.
Qed.

(** What a crash leaves of a file that is reachable and synced. *)
Lemma crash_reachable P i nd d d' :
  crash d d' → reachable P i d → inodes d !! i = Some nd → synced nd = length (data nd) →
  ∃ p, P p ∧ live d' !! p = Some i ∧ inodes d' !! i = Some nd.
Proof.
  intros Hc. destruct Hc as [d ns cut Hs]. intros Hr Hi Hsy. destruct (Hr ns Hs) as (p & Hp & Hl).
  exists p. split; [done|]. split; [done|]. cbn. rewrite map_lookup_imap, Hi. cbn. unfold torn.
  rewrite take_ge by lia. rewrite <- Hsy. by destruct nd.
Qed.

Lemma settled_change_sync D op d :
  settled d → inside D op → settled (sync_dir D (change op d)).
Proof.
  intros Hs Ho. pose proof (consistent_sync D _ (consistent_change op d (settled_consistent d Hs))) as Hc.
  destruct Hs as [Hp Hd].
  assert (pending (sync_dir D (change op d)) = []) as Hnil.
  { cbn. rewrite Hp. cbn. rewrite app_nil_r.
    destruct op as [p j|p|s t j]; cbn [kept]; repeat case_decide; try done; exfalso;
      match goal with Hn : ?p.1 ≠ D |- _ => apply Hn, Ho; cbn; set_solver end. }
  split; [done|]. unfold consistent in Hc. by rewrite Hnil in Hc.
Qed.

(** * Running programs *)

(** The names in a directory. *)
Definition names_in (D : Dir) (m : gmap path N) : list rstr :=
  (λ e : path * N, e.1.2) <$> filter (λ e : path * N, e.1.1 = D) (map_to_list m).

Lemma names_in_spec D m : NoDup (names_in D m) ∧ ∀ n, n ∈ names_in D m ↔ is_Some (m !! (D, n)).
Proof.
  unfold names_in. split.
  - apply NoDup_fmap_2_strong; [|apply NoDup_filter, NoDup_map_to_list].
    intros [[D1 a] i] [[D2 b] j] [E1 H1]%list_elem_of_filter [E2 H2]%list_elem_of_filter E. cbn in *. subst.
    apply elem_of_map_to_list in H1, H2. congruence.
  - intros n. rewrite list_elem_of_fmap. setoid_rewrite list_elem_of_filter. split.
    + intros ([[D1 a] i] & -> & E & H). cbn in *. subst. apply elem_of_map_to_list in H. by exists i.
    + intros [i Hi]. exists ((D, n), i). by rewrite elem_of_map_to_list.
Qed.

(** One outcome of a call, picked by [ok] (does the call succeed) and [n] (the
    bytes a short write gets through). *)
Definition perform (d : Disk) (ok : bool) (n : nat) {R : Type} (op : Op R) : option (R * Disk) :=
  match op in Op R return option (R * Disk) with
  | OpExists p => Some (bool_decide (is_Some (live d !! p)), d)
  | OpCreate p =>
      if negb ok then Some (None, d) else
      match live d !! p with
      | Some i => Some (Some i, set_inode i (mkInode [] 0) d)
      | None =>
          let i := fresh (dom (inodes d)) in
          Some (Some i, change (Link p i) (set_inode i (mkInode [] 0) d))
      end
  | OpAppend i bs =>
      let k := if ok then length bs else Nat.min n (length bs) in
      match inodes d !! i with
      | Some nd => Some (k, set_inode i (mkInode (data nd ++ take k bs) (synced nd)) d)
      | None => None
      end
  | OpSyncFile i =>
      match inodes d !! i with
      | Some nd => if ok then Some (Some tt, set_inode i (mkInode (data nd) (length (data nd))) d) else Some (None, d)
      | None => Some (None, d)
      end
  | OpSyncDir D => if ok then Some (Some tt, sync_dir D d) else Some (None, d)
  | OpRename s t =>
      match live d !! s with
      | Some i => if ok then Some (Some tt, change (Move s t i) d) else Some (None, d)
      | None => Some (None, d)
      end
  | OpRemove p =>
      match live d !! p with
      | Some i => if ok then Some (Some tt, change (Unlink p) d) else Some (None, d)
      | None => Some (None, d)
      end
  | OpMkdir D => Some (if ok then Some tt else None, d)
  | OpRead p =>
      match live d !! p ≫= λ i, inodes d !! i with
      | Some nd => Some (if ok then Some (data nd) else None, d)
      | None => Some (None, d)
      end
  | OpReadDir D =>
      Some (if ok then Some (names_in D (live d)) else None, d)
  end.

Lemma perform_exec d ok n {R} (op : Op R) r d' : perform d ok n op = Some (r, d') → exec d op r d'.
Proof.
  destruct op; cbn [perform exec]; intros H; repeat case_match; simplify_eq; eauto 8.
  - right. eexists. split; [done|]. left. split_and!; try done.
    apply not_elem_of_dom, is_fresh.
  - split; [lia|]. eauto.
  - split; [done|]. right. match goal with E : _ ≫= _ = Some _ |- _ => apply bind_Some in E as (j & ? & ?) end. eauto.
  - split; [done|]. right. eexists. split; [done|]. apply names_in_spec.
Qed.

(** A run by script; every call past its end succeeds. *)
Fixpoint runs {A} (p : Prog A) (script : list (bool * nat)) (d : Disk) : option (Disk * A) :=
  match p with
  | Ret a => Some (d, a)
  | Step op k =>
      let '(ok, n) := default (true, 0%nat) (head script) in
      match perform d ok n op with
      | Some (r, d') => runs (k r) (tail script) d'
      | None => None
      end
  end.

Lemma runs_step {A} (p : Prog A) script d d' a : runs p script d = Some (d', a) → rtc step (d, p) (d', Ret a).
Proof.
  revert script d. induction p as [b|R op k IH]; intros script d; cbn [runs].
  - intros [= -> ->]. apply rtc_refl.
  - destruct (default _ _) as [ok n]. destruct (perform d ok n op) as [[r d1]|] eqn:E; [|done].
    intros H%IH. apply perform_exec in E. eapply rtc_l; [|exact H]. by exists r.
Qed.
