(* ===== verification/WalLifecycle.v ===== *)
(** The moves a sealed segment makes between the directories of a WAL
    ([crates/loglake-wal/src/lib.rs]): claim, release, finish, the two
    quarantines and the requeue, the startup sweep of [processing/], the owner
    marker and the consumer watermark.

    The theorems are about power loss: started on a disk with nothing pending,
    each move keeps the segment reachable, whole, under its old or its new name
    at every instant and under every combination of failing calls, and has put
    it durably under the new name alone once it reports success. *)

From stdpp Require Import prelude gmap strings.
From Stdlib Require Import ZArith Lia.
From S2P Require Import Prelude RustStr WalFrame WalDisk.

(** * Names *)

Definition CRC_SIDECAR_EXT : rstr := Eval vm_compute in lit "crc".
Definition DOT_CRC : rstr := Eval vm_compute in lit ".crc".
Definition DOT_ARROW : rstr := Eval vm_compute in lit ".arrow".
Definition DOT_TMP : rstr := Eval vm_compute in lit ".tmp".
Definition POISON_NOTE_EXT : rstr := Eval vm_compute in lit ".poison.json".
Definition OWNER_FILE : rstr := Eval vm_compute in lit "owner".

Definition crc_sidecar_path (segment : path) : path := (segment.1, segment.2 ++ DOT_CRC).
Definition poison_note_path (segment : path) : path := (segment.1, segment.2 ++ POISON_NOTE_EXT).

(** [extension() == Some("arrow")]: a name that is nothing but [.arrow] has no
    extension. *)
Definition is_arrow (name : rstr) : bool :=
  match strip_suffix name DOT_ARROW with Some (_ :: _) => true | _ => false end.

Definition sidecar_segment_name (name : rstr) : rstr :=
  match strip_suffix name CRC_SIDECAR_EXT with
  | Some n => match strip_suffix n (lit ".") with Some segment => segment | None => name end
  | None => name
  end.

(** [for x in l { .. }] with [?] inside. *)
Fixpoint prog_each {A S} (f : S → A → Prog (option S)) (l : list A) (s : S) : Prog (option S) :=
  match l with
  | [] => Ret (Some s)
  | x :: l => let? s' := f s x in prog_each f l s'
  end.

(** * Sidecars *)

Definition move_sidecar (from to : path) : Prog unit :=
  let! e := call (OpExists (crc_sidecar_path from)) in
  if e : bool then
    let! _ := call (OpRename (crc_sidecar_path from) (crc_sidecar_path to)) in Ret tt
  else Ret tt.

Definition remove_sidecar (segment : path) : Prog unit :=
  let! _ := call (OpRemove (crc_sidecar_path segment)) in Ret tt.

Definition delete_segment (p : path) : Prog (option unit) :=
  let? _ := call (OpRemove p) in
  let! _ := remove_sidecar p in
  Ret (Some tt).

(** * Moves *)

Definition release_segment (processing_path : path) : Prog (option path) :=
  let target := (SealedDir, processing_path.2) in
  let? _ := call (OpRename processing_path target) in
  let! _ := move_sidecar processing_path target in
  let? _ := persist_move SealedDir processing_path.1 in
  Ret (Some target).

Definition claim_segment (sealed_path : path) : Prog (option path) :=
  let? _ := call (OpMkdir ProcessingDir) in
  let target := (ProcessingDir, sealed_path.2) in
  let? _ := call (OpRename sealed_path target) in
  let! _ := move_sidecar sealed_path target in
  let! r := persist_move ProcessingDir sealed_path.1 in
  match r with
  | None => let! _ := release_segment target in Ret None
  | Some _ => Ret (Some target)
  end.

Definition finish_segment (processing_path : path) : Prog (option path) :=
  let? _ := call (OpMkdir CommittedDir) in
  let target := (CommittedDir, processing_path.2) in
  let? _ := call (OpRename processing_path target) in
  let! _ := move_sidecar processing_path target in
  let? _ := persist_move CommittedDir processing_path.1 in
  Ret (Some target).

Definition quarantine_stale_segment (p : path) (owner : rstr) : Prog (option path) :=
  let? _ := call (OpMkdir (StaleDir owner)) in
  let dest := (StaleDir owner, p.2) in
  let! e := call (OpExists dest) in
  if e : bool then let? _ := delete_segment p in Ret (Some dest) else
  let? _ := call (OpRename p dest) in
  let! _ := move_sidecar p dest in
  let? _ := persist_move (StaleDir owner) p.1 in
  Ret (Some dest).

(** [note] is the serialized [PoisonNote], [pid] the process id in the name of
    its temporary file. *)
Definition poison_tmp (pid name : rstr) : path :=
  (PoisonDir, lit "." ++ name ++ lit ".poison." ++ pid ++ DOT_TMP).

Definition quarantine_poison_segment (note : bytes) (pid : rstr) (p : path) : Prog (option path) :=
  let? _ := call (OpMkdir PoisonDir) in
  let dest := (PoisonDir, p.2) in
  let! e := call (OpExists dest) in
  if e : bool then Ret None else
  let? _ := publish_file (poison_note_path dest) (poison_tmp pid p.2) note in
  let? _ := call (OpRename p dest) in
  let! _ := move_sidecar p dest in
  let? _ := persist_move PoisonDir p.1 in
  Ret (Some dest).

Definition requeue_poisoned_segment (p : path) : Prog (option path) :=
  let? _ := call (OpMkdir SealedDir) in
  let dest := (SealedDir, p.2) in
  let! e := call (OpExists dest) in
  if e : bool then Ret None else
  let? _ := call (OpRename p dest) in
  let! _ := move_sidecar p dest in
  let? _ := persist_move SealedDir p.1 in
  let note := poison_note_path p in
  let! n := call (OpExists note) in
  if n : bool then
    let? _ := call (OpRemove note) in
    let? _ := call (OpSyncDir p.1) in
    Ret (Some dest)
  else Ret (Some dest).

(** * Sweeps *)

Definition recover_one (moved : nat) (name : rstr) : Prog (option nat) :=
  let dest := (OrphansDir, name) in
  let! e := call (OpExists dest) in
  if e : bool then let! _ := call (OpRemove (ProcessingDir, name)) in Ret (Some moved) else
  let? _ := call (OpRename (ProcessingDir, name) dest) in
  Ret (Some (S moved)).

Definition recover_orphaned_processing : Prog (option nat) :=
  let? _ := call (OpMkdir OrphansDir) in
  let? names := call (OpReadDir ProcessingDir) in
  let? moved := prog_each recover_one names 0%nat in
  if (0 <? moved)%nat then
    let? _ := persist_move OrphansDir ProcessingDir in Ret (Some moved)
  else Ret (Some moved).

(** * Published files *)

Definition read_wal_owner : Prog (option rstr) :=
  let! raw := call (OpRead (WalRoot, OWNER_FILE)) in
  Ret (match raw ≫= from_utf8 with
       | None => None
       | Some text => match trim text with [] => None | owner => Some owner end
       end).

Definition classify_wal_owner (expected : rstr) : Prog WalOwner :=
  let! r := read_wal_owner in
  Ret (match r with
       | None => Unmarked
       | Some owner => if bool_decide (owner = expected) then Owned else Stale owner
       end).

Definition owner_tmp (pid : rstr) : path := (WalRoot, OWNER_FILE ++ lit "." ++ pid ++ DOT_TMP).

Definition stamp_wal_owner (pid owner : rstr) : Prog (option unit) :=
  publish_file (WalRoot, OWNER_FILE) (owner_tmp pid) (owner ++ [10]).

Definition watermark_tmp (consumer_id : rstr) : path := (ConsumersDir, lit "." ++ consumer_id ++ DOT_TMP).

Definition publish_consumer_watermark (consumer_id last_segment : rstr) : Prog (option unit) :=
  let? _ := call (OpMkdir ConsumersDir) in
  publish_file (ConsumersDir, consumer_id) (watermark_tmp consumer_id) last_segment.

(** * Quarantine of a whole directory *)

Record WalRestamp := mkRestamp { quarantined : nat; kept_count : nat }.

(** [segment_owner]: the header read off disk; a file shorter than the header
    is [None]. *)
Definition segment_owner (p : path) : Prog (option Uuid) :=
  let! r := call (OpRead p) in
  Ret (match r with
       | Some file => if len file <? WAL_FRAME_HEADER_LEN then None
                      else segment_owner_from_bytes (take 52 file)
       | None => None
       end).

Definition classify_segment_owner (to_string : Uuid → rstr) (p : path) (expected : rstr) : Prog WalOwner :=
  let! u := segment_owner p in
  Ret (match u with
       | None => Unmarked
       | Some u => if bool_decide (to_string u = expected) then Owned else Stale (to_string u)
       end).

(** The residents of [sub] whose own header names [owner], sidecars excluded. *)
Fixpoint kept_residents (to_string : Uuid → rstr) (owner : rstr) (sub : Dir) (names : list rstr)
    : Prog (list rstr) :=
  match names with
  | [] => Ret []
  | name :: names =>
      let! u := segment_owner (sub, name) in
      let! rest := kept_residents to_string owner sub names in
      Ret (match u with
           | Some u => if bool_decide (to_string u = owner)
                          && bool_decide (sidecar_segment_name name = name)
                       then name :: rest else rest
           | None => rest
           end)
  end.

(** One resident: the count of segments moved and whether anything moved. *)
Definition quarantine_one (previous : rstr) (sub : Dir) (keep : list rstr) (s : nat * bool) (name : rstr)
    : Prog (option (nat * bool)) :=
  if bool_decide (sidecar_segment_name name ∈ keep) then Ret (Some s) else
  let? _ := call (OpMkdir (StaleDir previous)) in
  let dest := (StaleDir previous, name) in
  let! e := call (OpExists dest) in
  if e : bool then
    let? _ := call (OpRemove (sub, name)) in Ret (Some (s.1, true))
  else
    let? _ := call (OpRename (sub, name) dest) in
    Ret (Some (if is_arrow name then S s.1 else s.1, true)).

Definition quarantine_sub (to_string : Uuid → rstr) (owner previous : rstr) (o : WalRestamp) (sub : Dir)
    : Prog (option WalRestamp) :=
  let? residents := call (OpReadDir sub) in
  let! keep := kept_residents to_string owner sub residents in
  let? s := prog_each (quarantine_one previous sub keep) residents (0%nat, false) in
  let o' := mkRestamp (quarantined o + s.1) (kept_count o + length keep) in
  if s.2 then let? _ := persist_move (StaleDir previous) sub in Ret (Some o')
  else Ret (Some o').

Definition quarantine_stale_wal_dir (to_string : Uuid → rstr) (pid owner : rstr)
    : Prog (option WalRestamp) :=
  let! prev := read_wal_owner in
  let previous := default (lit "unknown") prev in
  let? o := prog_each (quarantine_sub to_string owner previous)
              [ActiveDir; SealedDir; ProcessingDir; CommittedDir; OrphansDir] (mkRestamp 0 0) in
  let? _ := stamp_wal_owner pid owner in
  Ret (Some o).

(** * Programs that make calls of one kind *)

Fixpoint calls (P : ∀ R, Op R → Prop) {A} (p : Prog A) : Prop :=
  match p with Ret _ => True | Step op k => P _ op ∧ ∀ r, calls P (k r) end.

Lemma calls_bind P {A B} (p : Prog A) (f : A → Prog B) : calls P p → (∀ a, calls P (f a)) → calls P (prog_bind p f).
Proof. intros Hp Hf. induction p as [a|R op k IH]; [apply Hf|]. destruct Hp as [? Hk]. split; [done|]. intros r. by apply IH. Qed.

Lemma calls_each P {A S} (f : S → A → Prog (option S)) l s : (∀ s x, calls P (f s x)) → calls P (prog_each f l s).
Proof.
  intros Hf. revert s. induction l as [|x l IH]; intros s; [done|]. cbn [prog_each]. apply calls_bind; [done|].
  intros [s'|]; [apply IH|done].
Qed.

(** A call that only looks, and the programs that do. *)
Definition looks {R} (op : Op R) : Prop :=
  match op with OpExists _ | OpRead _ | OpReadDir _ => True | _ => False end.

Abbreviation looking := (calls (@looks)).

(** * One segment on the move *)

Section Moves.
Context (s t : path) (i : N) (nd : Inode).
Context (Hdir : s.1 ≠ t.1).

Definition either_name (p : path) : Prop := p = s ∨ p = t.

(** The segment is inode [i], under no name but its two, reachable after any
    power loss; only the two directories have anything pending. *)
Record moving (d : Disk) : Prop := mkMoving {
  mv_consistent : consistent d;
  mv_reachable : reachable either_name i d;
  mv_inode : inodes d !! i = Some nd;
  mv_sole p : live d !! p = Some i → either_name p;
  mv_within : Forall (λ op, ∀ p, p ∈ touches op → p.1 = t.1 ∨ p.1 = s.1) (pending d);
}.

(** A call that concerns neither of the two names nor the inode. *)
Definition elsewhere {R} (op : Op R) : Prop :=
  let out p := ¬ either_name p ∧ (p.1 = t.1 ∨ p.1 = s.1) in
  match op with
  | OpCreate p | OpRemove p => out p
  | OpRename p q => out p ∧ out q
  | OpAppend j _ | OpSyncFile j => j ≠ i
  | OpSyncDir _ => False
  | _ => True
  end.

Lemma moving_change op d :
  (∀ p, p ∈ touches op → ¬ either_name p ∧ (p.1 = t.1 ∨ p.1 = s.1)) →
  (∀ p, apply_op (live d) op !! p = Some i → either_name p) →
  moving d → moving (change op d).
Proof.
  intros Hop Hsole [Hc Hr Hi _ Hw]. split; [by apply consistent_change| |done|done|].
  - apply reachable_frame; [|done]. intros p Hp Hin. by destruct (Hop p Hin).
  - apply Forall_app. split; [done|]. apply Forall_singleton. intros p Hp. apply (Hop p Hp).
Qed.

Lemma moving_inode j nd' d : j ≠ i → moving d → moving (set_inode j nd' d).
Proof. intros Hj [Hc Hr Hi Hs Hw]. split; try done. cbn. by rewrite lookup_insert_ne. Qed.

Lemma moving_elsewhere {R} (op : Op R) d r d' :
  elsewhere op → exec d op r d' → moving d → moving d'.
Proof.
  intros He Hx Hm. pose proof (mv_sole d Hm) as Hsole. pose proof (mv_inode d Hm) as Hi.
  destruct op; cbn [elsewhere] in He; inv_exec Hx; auto using moving_inode; try done.
  - apply moving_change; [set_solver| |apply moving_inode; [congruence|done]]. cbn.
    intros q. rewrite lookup_insert. case_decide; [congruence|]. apply Hsole.
  - apply moving_inode; [|done]. intros ->. by eapply He, Hsole.
  - apply moving_change; [set_solver| |done]. cbn. intros q. rewrite lookup_insert, lookup_delete.
    repeat case_decide; try done; [|apply Hsole]. intros [= ->]. exfalso. naive_solver.
  - apply moving_change; [set_solver| |done]. cbn. intros q. rewrite lookup_delete.
    case_decide; [done|]. apply Hsole.
Qed.

Lemma fixed_elsewhere {R} p (op : Op R) d r d' :
  either_name p → elsewhere op → exec d op r d' → fixed p i d → fixed p i d'.
Proof.
  intros Hp He Hx Hf. destruct op; cbn [elsewhere] in He; inv_exec Hx; try done;
    (apply fixed_frame; [|done]); cbn [touches]; set_solver.
Qed.

Lemma moving_rename p q d :
  either_name q → live d !! p = Some i → moving d → moving (change (Move p q i) d).
Proof.
  intros Hq Hp [Hc Hr Hi Hs Hw]. split; [by apply consistent_change|by apply reachable_rename|done| |].
  - cbn. intros x. rewrite lookup_insert, lookup_delete. repeat case_decide; try done; [by subst|apply Hs].
  - apply Forall_app. split; [done|]. apply Forall_singleton. intros x.
    assert (either_name p) as Hp' by auto. unfold either_name in *. cbn.
    rewrite !elem_of_cons, elem_of_nil. naive_solver.
Qed.

Lemma moving_sync p E d :
  either_name p → fixed p i (sync_dir E d) → moving d → moving (sync_dir E d).
Proof.
  intros Hp Hf [Hc Hr Hi Hs Hw]. split; [by apply consistent_sync| |done|done|].
  - apply (reachable_mono (eq p)); [by intros ? <-|]. by apply fixed_anchored.
  - rewrite Forall_forall in *. intros op' (op & Hop & Hin)%list_elem_of_bind q Hq.
    apply (Hw op Hin). eapply halves_touch; eauto.
Qed.

(** ** Steps of a move *)

Lemma sidecar_elsewhere p : t.2 = s.2 → either_name p → ¬ either_name (crc_sidecar_path p).
Proof.
  intros Ht Hp. assert (p.2 = s.2) as Hn by (by destruct Hp; subst).
  assert (p.2 ++ DOT_CRC ≠ s.2) as Hne.
  { rewrite Hn. intros E. apply (f_equal length) in E. rewrite length_app in E. cbn in E. lia. }
  intros [E|E]; apply (f_equal snd) in E; cbn in E; congruence.
Qed.

Lemma either_dir p : either_name p → p.1 = t.1 ∨ p.1 = s.1.
Proof. intros [->| ->]; auto. Qed.

Lemma move_sidecar_always p q d :
  t.2 = s.2 → either_name p → either_name q → moving d →
  always moving (λ _ d', live d' !! p = live d !! p ∧ live d' !! q = live d !! q) (move_sidecar p q) d.
Proof.
  intros Ht Hp Hq Hm. pose proof (sidecar_elsewhere p Ht Hp) as Hp'. pose proof (sidecar_elsewhere q Ht Hq) as Hq'.
  split; [done|]. intros b d1 He. inv_exec He. case_bool_decide; [|by split].
  split; [done|]. intros r d2 He. assert (moving d2).
  { eapply (moving_elsewhere (OpRename _ _)); [|exact He|done]. split; (split; [done|]); [apply (either_dir p Hp)|apply (either_dir q Hq)]. }
  split; [done|]. inv_exec He; [done|]. cbn. unfold either_name in *.
  split; (rewrite lookup_insert_ne by naive_solver); by rewrite lookup_delete_ne by naive_solver.
Qed.

(** Both directories synced, the one the segment now is in first. *)
Lemma persist_always p E d :
  either_name p → live d !! p = Some i → moving d →
  always moving (λ r d', live d' = live d
                  ∧ (r = Some tt → fixed p i d' ∧ d' = sync_dir E (sync_dir p.1 d)))
    (persist_move p.1 E) d.
Proof.
  intros Hp Hl Hm. pose proof (sync_fixes p i d (mv_consistent d Hm) Hl) as Hf.
  split; [done|]. intros r d1 He. inv_exec He; [by split_and!|].
  assert (moving (sync_dir p.1 d)) as Hm1 by (by apply (moving_sync p)).
  split; [done|]. intros r d2 He. inv_exec He; [by split_and!|]. apply (fixed_sync _ _ E) in Hf.
  split; [by apply (moving_sync p)|]. split; [done|]. by intros _.
Qed.

Lemma moving_settled p E d :
  moving d → either_name p → p.1 ≠ E → (E = t.1 ∨ E = s.1) → settled (sync_dir E (sync_dir p.1 d)).
Proof.
  intros Hm Hp Hne HE. apply settled_sync; [apply Hm|].
  eapply Forall_impl; [apply (mv_within d Hm)|]. cbn. intros op Ho x Hx. specialize (Ho x Hx).
  apply either_dir in Hp. destruct Ho, Hp, HE; (left; congruence) || (right; congruence) || congruence.
Qed.

(** The common body of the moves, from [p] to [q]. *)
Definition relocate (p q : path) : Prog (option path) :=
  let? _ := call (OpRename p q) in
  let! _ := move_sidecar p q in
  let? _ := persist_move q.1 p.1 in
  Ret (Some q).

(** Where a move that reports success leaves the segment. *)
Definition moved_to (p q : path) (d : Disk) : Prop :=
  settled d ∧ fixed q i d ∧ live d !! p = None.

Lemma relocate_then {B} p q (k : Prog (option B)) (Q : option B → Disk → Prop) d :
  t.2 = s.2 → either_name p → either_name q → p.1 ≠ q.1 → live d !! p = Some i → moving d →
  (∀ d', Q None d') → (∀ d', moving d' → moved_to p q d' → always moving Q k d') →
  always moving Q (let? _ := call (OpRename p q) in
                   let! _ := move_sidecar p q in
                   let? _ := persist_move q.1 p.1 in k) d.
Proof.
  intros Ht Hp Hq Hne Hl Hm Herr Hk. always_op He.
  assert (moving (change (Move p q i) d)) as Hm1 by (by apply moving_rename).
  assert (p ≠ q) as Hpq by congruence.
  always_use move_sidecar_always. cbn [live change apply_op].
  rewrite lookup_insert_eq, lookup_insert_ne, lookup_delete_eq by done.
  intros _ d2 Hm2 [Hp2 Hq2]. always_use persist_always.
  intros [[]|] d3 Hm3 [Hlive Hok]; [|by split]. destruct (Hok eq_refl) as [Hf ->].
  apply Hk; [done|]. split; [|by rewrite Hlive].
  apply moving_settled; try done. apply either_dir in Hp. naive_solver.
Qed.

Lemma relocate_always p q d :
  t.2 = s.2 → either_name p → either_name q → p.1 ≠ q.1 → live d !! p = Some i → moving d →
  always moving (λ r d', match r with Some x => x = q ∧ moved_to p q d' | None => True end)
    (relocate p q) d.
Proof. intros. by apply relocate_then. Qed.
End Moves.

(** * Every move *)

Inductive Transition :=
  | Claim | Release | Finish
  | QuarantineStale (owner : rstr)
  | QuarantinePoison (note : bytes) (pid : rstr)
  | Requeue.

Definition run (tr : Transition) (p : path) : Prog (option path) :=
  match tr with
  | Claim => claim_segment p
  | Release => release_segment p
  | Finish => finish_segment p
  | QuarantineStale owner => quarantine_stale_segment p owner
  | QuarantinePoison note pid => quarantine_poison_segment note pid p
  | Requeue => requeue_poisoned_segment p
  end.

Definition target_dir (tr : Transition) : Dir :=
  match tr with
  | Claim => ProcessingDir
  | Release | Requeue => SealedDir
  | Finish => CommittedDir
  | QuarantineStale owner => StaleDir owner
  | QuarantinePoison _ _ => PoisonDir
  end.

(** Where the callers apply it: a claim out of [sealed/], any other move out of
    another directory than its target. *)
Definition applies (tr : Transition) (p : path) : Prop :=
  match tr with Claim => p.1 = SealedDir | _ => p.1 ≠ target_dir tr end.

Section Transitions.
Context (p : path) (i : N) (nd : Inode).

Definition outcome (D : Dir) (r : option path) (d : Disk) : Prop :=
  match r with Some x => x = (D, p.2) ∧ moved_to i p (D, p.2) d | None => True end.

Lemma relocate_spec D d :
  p.1 ≠ D → live d !! p = Some i → moving p (D, p.2) i nd d →
  always (moving p (D, p.2) i nd) (outcome D) (relocate p (D, p.2)) d.
Proof. intros. apply relocate_always; first [done|by left|by right]. Qed.

Lemma finish_always d :
  p.1 ≠ CommittedDir → live d !! p = Some i → moving p (CommittedDir, p.2) i nd d →
  always (moving p (CommittedDir, p.2) i nd) (outcome CommittedDir) (finish_segment p) d.
Proof. intros. unfold finish_segment. always_op He. by apply relocate_spec. Qed.

Lemma claim_always d :
  p.1 = SealedDir → live d !! p = Some i → moving p (ProcessingDir, p.2) i nd d →
  always (moving p (ProcessingDir, p.2) i nd) (outcome ProcessingDir) (claim_segment p) d.
Proof.
  intros Hp Hl Hm. assert (p.1 ≠ ProcessingDir) as Hne by congruence.
  unfold claim_segment. always_op He. always_op He.
  set (q := (ProcessingDir, p.2)) in *.
  assert (either_name p (ProcessingDir, p.2) p) as Ep by (by left).
  assert (either_name p (ProcessingDir, p.2) q) as Eq by (by right).
  assert (p ≠ q) as Hpq by (intros E; apply (f_equal fst) in E; cbn in E; congruence).
  assert (moving p (ProcessingDir, p.2) i nd (change (Move p q i) d)) as Hm1 by (by apply moving_rename).
  always_use (move_sidecar_always p (ProcessingDir, p.2) i nd). cbn [live change apply_op].
  rewrite lookup_insert_eq, lookup_insert_ne, lookup_delete_eq by done.
  intros _ d2 Hm2 [Hp2 Hq2]. always_use (persist_always p (ProcessingDir, p.2) i nd q).
  intros [[]|] d3 Hm3 [Hlive Hok].
  - destruct (Hok eq_refl) as [Hf ->]. split; [done|]. split; [done|].
    split; [|by rewrite Hlive]. apply (moving_settled p (ProcessingDir, p.2) i nd q); auto.
  - apply always_bind. eapply always_mono; [done|intros r d4 Hm4 _; by split|].
    change (release_segment q) with (relocate q (SealedDir, q.2)).
    replace (SealedDir, q.2) with p by (rewrite (surjective_pairing p), Hp; done).
    apply (relocate_always p (ProcessingDir, p.2) i nd Hne q); try done. by rewrite Hlive.
Qed.

Lemma stale_always owner d :
  p.1 ≠ StaleDir owner → live d !! (StaleDir owner, p.2) = None → live d !! p = Some i →
  moving p (StaleDir owner, p.2) i nd d →
  always (moving p (StaleDir owner, p.2) i nd) (outcome (StaleDir owner)) (quarantine_stale_segment p owner) d.
Proof.
  intros Hne Hd Hl Hm. unfold quarantine_stale_segment. always_op He. always_op He.
  rewrite bool_decide_false by (rewrite Hd; by intros [? ?]). by apply relocate_spec.
Qed.

(** ** The poison note *)

Lemma write_sync_always D q bs d :
  p.1 ≠ D → ¬ either_name p (D, p.2) q → (q.1 = D ∨ q.1 = p.1) → moving p (D, p.2) i nd d → fixed p i d → live d !! p = Some i →
  always (moving p (D, p.2) i nd)
    (λ _ d', fixed p i d' ∧ live d' !! p = Some i ∧ ∀ x, x ≠ q → live d' !! x = live d !! x)
    (write_sync q bs) d.
Proof.
  intros Hne Hq Hdir Hm Hf Hl. assert (either_name p (D, p.2) p) as Ep by (by left).
  assert (p ≠ q) as Hpq by (intros E; apply Hq; by rewrite <- E).
  unfold write_sync. apply always_op; [done|]. intros r d1 He.
  assert (moving p (D, p.2) i nd d1) as Hm1 by (eapply moving_elsewhere with (op := OpCreate q); [done|by split|exact He|done]).
  assert (fixed p i d1) as Hf1 by (eapply (fixed_elsewhere p (D, p.2) i Hne p (OpCreate q)); [exact Ep|by split|exact He|done]).
  assert (∀ x, x ≠ q → live d1 !! x = live d !! x) as Hlive.
  { intros x Hx. inv_exec He; try done. cbn. by rewrite lookup_insert_ne. }
  assert (∀ j, r = Some j → j ≠ i) as Hj.
  { intros j -> ->. apply Hq, (mv_sole p (D, p.2) i nd d1 Hm1). inv_exec He; [cbn; by rewrite lookup_insert_eq|done]. }
  assert (live d1 !! p = Some i) as Hl1 by (by rewrite Hlive).
  clear He. destruct r as [j|]; [|by split]. specialize (Hj j eq_refl).
  always_op He. case_match; [by apply always_ret; [apply moving_inode|]|].
  apply always_call; [by apply moving_inode|].
  intros r' d' He. inv_exec He; by (split; [repeat apply moving_inode|]).
Qed.

Lemma publish_always D q tmp bs d :
  p.1 ≠ D → ¬ either_name p (D, p.2) q → ¬ either_name p (D, p.2) tmp → q.1 = D → tmp.1 = D →
  moving p (D, p.2) i nd d → fixed p i d → live d !! p = Some i →
  always (moving p (D, p.2) i nd)
    (λ _ d', fixed p i d' ∧ live d' !! p = Some i
             ∧ ∀ x, x ≠ q → x ≠ tmp → live d' !! x = live d !! x)
    (publish_file q tmp bs) d.
Proof.
  intros Hne Hq Htmp Hqd Htd Hm Hf Hl. assert (either_name p (D, p.2) p) as Ep by (by left).
  assert (∀ x, ¬ either_name p (D, p.2) x → x ≠ p) as Hout by (intros x Hx ->; done).
  unfold publish_file. always_use (write_sync_always D tmp bs d); auto.
  intros r d1 Hm1 (Hf1 & Hl1 & Hv1). destruct r as [[]|]; [|by apply always_ret; auto].
  apply always_op; [done|]. intros r d2 He.
  assert (elsewhere p (D, p.2) i (OpRename tmp q)) as Hel by (split; split; auto).
  assert (moving p (D, p.2) i nd d2) as Hm2 by (by eapply moving_elsewhere with (op := OpRename tmp q)).
  assert (fixed p i d2) as Hf2 by (by eapply (fixed_elsewhere p (D, p.2) i Hne p (OpRename tmp q))).
  assert (∀ x, x ≠ q → x ≠ tmp → live d2 !! x = live d !! x) as Hv2.
  { intros x Hx Hx'. inv_exec He; [by apply Hv1|]. cbn.
    rewrite lookup_insert_ne, lookup_delete_ne by done. by apply Hv1. }
  assert (live d2 !! p = Some i) as Hl2 by (by rewrite Hv2 by (apply not_eq_sym; auto)).
  clear He. destruct r as [[]|]; [|by apply always_ret]. apply always_call; [done|].
  intros r d3 He. inv_exec He; [done|]. apply (fixed_sync _ _ q.1) in Hf2.
  split; [by apply (moving_sync p _ i nd p)|done].
Qed.

Lemma longer_name D (n : rstr) : (length p.2 < length n)%nat → ∀ E, ¬ either_name p (D, p.2) (E, n).
Proof. intros Hn E [Eq|Eq]; apply (f_equal snd) in Eq; cbn in Eq; subst n; lia. Qed.

Lemma poison_always note pid d :
  p.1 ≠ PoisonDir → live d !! (PoisonDir, p.2) = None → live d !! p = Some i → fixed p i d →
  moving p (PoisonDir, p.2) i nd d →
  always (moving p (PoisonDir, p.2) i nd) (outcome PoisonDir) (quarantine_poison_segment note pid p) d.
Proof.
  intros Hne Hd Hl Hf Hm. unfold quarantine_poison_segment. always_op He. always_op He.
  rewrite bool_decide_false by (rewrite Hd; by intros [? ?]).
  always_use (publish_always PoisonDir (poison_note_path (PoisonDir, p.2)) (poison_tmp pid p.2) note d).
  - intros [[]|] d1 Hm1 (_ & Hl1 & _); [by apply relocate_spec|by split].
  - apply longer_name. cbn [fst snd]. rewrite length_app. cbn. lia.
  - apply longer_name. cbn [fst snd]. rewrite !length_app. cbn. lia.
Qed.

Lemma requeue_always d :
  p.1 ≠ SealedDir → live d !! (SealedDir, p.2) = None → live d !! p = Some i →
  moving p (SealedDir, p.2) i nd d →
  always (moving p (SealedDir, p.2) i nd) (outcome SealedDir) (requeue_poisoned_segment p) d.
Proof.
  intros Hne Hd Hl Hm. unfold requeue_poisoned_segment. always_op He. always_op He.
  rewrite bool_decide_false by (rewrite Hd; by intros [? ?]).
  assert (either_name p (SealedDir, p.2) p) as Ep by (by left).
  assert (either_name p (SealedDir, p.2) (SealedDir, p.2)) as Eq by (by right).
  apply relocate_then; try done. intros d' Hm' (Hs' & Hf' & Hl'). always_op He.
  case_bool_decide; [|by apply always_ret].
  assert (¬ either_name p (SealedDir, p.2) (poison_note_path p)) as Hnote.
  { apply longer_name. cbn [snd]. rewrite length_app. cbn. lia. }
  always_op He. assert (elsewhere p (SealedDir, p.2) i (OpRemove (poison_note_path p))) as Hel by (split; auto).
  set (d2 := change (Unlink (poison_note_path p)) d').
  assert (exec d' (OpRemove (poison_note_path p)) (Some tt) d2) as He2 by (right; eauto).
  assert (moving p (SealedDir, p.2) i nd d2) as Hm2 by (by eapply moving_elsewhere with (op := OpRemove _)).
  assert (fixed (SealedDir, p.2) i d2) as Hf2 by (by eapply (fixed_elsewhere p (SealedDir, p.2) i Hne _ (OpRemove _))).
  apply (fixed_sync _ _ p.1) in Hf2.
  always_op He2'. apply always_ret; [by apply (moving_sync p _ i nd (SealedDir, p.2))|].
  split; [done|]. split; [|split; [done|]].
  - apply settled_change_sync; [done|]. by intros x ->%list_elem_of_singleton.
  - cbn. rewrite lookup_delete. by case_decide.
Qed.
End Transitions.

(** * The startup sweep *)

Section Sweep.
Context (n : rstr) (i : N) (nd : Inode).
Local Abbreviation s := (ProcessingDir, n).
Local Abbreviation t := (OrphansDir, n).
Local Abbreviation mv := (moving s t i nd).

(** Before the sweep reaches the segment, and after. *)
Definition not_yet (d : Disk) : Prop := live d !! s = Some i ∧ live d !! t = None.
Definition swept (d : Disk) : Prop := live d !! t = Some i ∧ live d !! s = None.

Lemma recover_other m k d :
  m ≠ n → mv d →
  always mv (λ r d', live d' !! s = live d !! s ∧ live d' !! t = live d !! t
                     ∧ match r with Some k' => (k ≤ k')%nat | None => True end)
    (recover_one k m) d.
Proof.
  intros Hmn Hm.
  assert (∀ D, D = ProcessingDir ∨ D = OrphansDir →
    ¬ either_name s t (D, m) ∧ ((D, m).1 = OrphansDir ∨ (D, m).1 = s.1)) as Hout.
  { intros D HD. split; [|naive_solver]. by intros [E|E]; simplify_eq. }
  unfold recover_one. always_op He. case_bool_decide; (apply always_op; [done|]); intros r d1 He.
  - assert (mv d1) as Hm1.
    { eapply moving_elsewhere with (op := OpRemove (ProcessingDir, m)); [done|apply Hout; by left|exact He|done]. }
    inv_exec He; apply always_ret; try done. cbn. by rewrite !lookup_delete_ne by congruence.
  - assert (mv d1) as Hm1.
    { eapply moving_elsewhere with (op := OpRename (ProcessingDir, m) (OrphansDir, m));
        [done|split; apply Hout; auto|exact He|done]. }
    inv_exec He; apply always_ret; try done. cbn.
    rewrite !lookup_insert_ne, !lookup_delete_ne by congruence. auto with lia.
Qed.

Lemma recover_self k d :
  mv d → not_yet d →
  always mv (λ r d', match r with Some k' => k' = S k ∧ swept d' | None => True end) (recover_one k n) d.
Proof.
  intros Hm [Hs Ht]. unfold recover_one. always_op He.
  rewrite bool_decide_false by (rewrite Ht; by intros [? ?]). always_op He.
  apply always_ret; [apply moving_rename; [by right|done..]|]. split; [done|].
  split; cbn; [by rewrite lookup_insert_eq|by rewrite lookup_insert_ne, lookup_delete_eq by congruence].
Qed.

Lemma recover_rest names k d :
  n ∉ names → mv d → swept d →
  always mv (λ r d', match r with Some k' => (k ≤ k')%nat ∧ swept d' | None => True end)
    (prog_each recover_one names k) d.
Proof.
  revert k d. induction names as [|m names IH]; intros k d Hn Hm Hsw; [by apply always_ret|].
  apply not_elem_of_cons in Hn as [Hne Hn]. cbn [prog_each].
  always_use (recover_other m k d). intros [k'|] d' Hm' (Es & Et & Hk); [|by apply always_ret].
  eapply always_mono; [done| |apply (IH k'); [done..|]].
  - intros [k''|] d'' _; [|done]. intros [? ?]. split; [lia|done].
  - split; [by rewrite Et; apply Hsw|by rewrite Es; apply Hsw].
Qed.

Lemma recover_all names k d :
  NoDup names → n ∈ names → mv d → not_yet d →
  always mv (λ r d', match r with Some k' => (k < k')%nat ∧ swept d' | None => True end)
    (prog_each recover_one names k) d.
Proof.
  intros Hnd. revert k d. induction Hnd as [|m names Hm0 _ IH]; intros k d Hin Hm Hny; [by apply elem_of_nil in Hin|].
  cbn [prog_each]. destruct (decide (m = n)) as [->|Hne].
  - always_use (recover_self k d). intros [k'|] d' Hm' Hk; [|by apply always_ret]. destruct Hk as [-> Hsw].
    eapply always_mono; [done| |by apply (recover_rest names (S k))].
    intros [k''|] d'' _; [|done]. intros [? ?]. split; [lia|done].
  - apply elem_of_cons in Hin as [->|Hin]; [done|].
    always_use (recover_other m k d). intros [k'|] d' Hm' (Es & Et & Hk); [|by apply always_ret].
    eapply always_mono; [done| |apply (IH k'); [done..|]].
    + intros [k''|] d'' _; [|done]. intros [? ?]. split; [lia|done].
    + split; [by rewrite Es; apply Hny|by rewrite Et; apply Hny].
Qed.

Lemma sweep_always d :
  mv d → not_yet d →
  always mv (λ r d', r ≠ None → fixed t i d' ∧ live d' !! s = None) recover_orphaned_processing d.
Proof.
  intros Hm Hny. unfold recover_orphaned_processing. always_op He. always_op He.
  assert (n ∈ names) as Hin by (apply He; eexists; apply Hny).
  always_use (recover_all names 0 d). intros [k|] d' Hm' Hk; [|by apply always_ret].
  destruct Hk as [Hk Hsw]. rewrite (proj2 (Nat.ltb_lt _ _)) by done.
  always_use (persist_always s t i nd t ProcessingDir d'); [|by right|apply Hsw].
  intros [[]|] d2 Hm2 [Hl Hok]; apply always_ret; try done. intros _.
  destruct (Hok eq_refl) as [Hf _]. split; [done|]. rewrite Hl. apply Hsw.
Qed.
End Sweep.

(** * Properties *)

(** A segment file before a move: nothing pending, one name, contents synced. *)
Definition at_rest (p : path) (i : N) (nd : Inode) (d : Disk) : Prop :=
  settled d ∧ live d !! p = Some i ∧ (∀ x, live d !! x = Some i → x = p)
  ∧ inodes d !! i = Some nd ∧ synced nd = length (data nd).

Lemma at_rest_moving p q i nd d : at_rest p i nd d → moving p q i nd d.
Proof.
  intros (Hs & Hl & Hsole & Hi & _). split; [by apply settled_consistent| |done|by left; auto|].
  - apply (reachable_mono (eq p)); [by intros ? <-; left|]. by apply fixed_anchored, settled_fixed.
  - by rewrite (proj1 Hs).
Qed.

Lemma run_always tr p i nd d :
  at_rest p i nd d → applies tr p → live d !! (target_dir tr, p.2) = None →
  always (moving p (target_dir tr, p.2) i nd) (outcome p i (target_dir tr)) (run tr p) d.
Proof.
  intros Hr Ha Hd. pose proof (at_rest_moving p (target_dir tr, p.2) i nd d Hr) as Hm.
  destruct Hr as (Hs & Hl & _). destruct tr; cbn in *.
  - by apply claim_always.
  - by apply relocate_spec.
  - by apply finish_always.
  - by apply stale_always.
  - apply poison_always; try done. by apply settled_fixed.
  - by apply requeue_always.
Qed.

(** What is left of a segment whose move was cut off, or had reported [y]. *)
Lemma moving_crash p D i nd d d2 :
  moving p (D, p.2) i nd d → synced nd = length (data nd) → crash d d2 →
  ∃ x, (x = p ∨ x = (D, p.2)) ∧ live d2 !! x = Some i ∧ inodes d2 !! i = Some nd.
Proof. intros Hm Hsy Hc. eapply crash_reachable; [exact Hc|apply Hm..|done]. Qed.

Lemma moved_crash p D i nd d d2 :
  moving p (D, p.2) i nd d → moved_to i p (D, p.2) d → synced nd = length (data nd) → crash d d2 →
  live d2 !! (D, p.2) = Some i ∧ inodes d2 !! i = Some nd ∧ live d2 !! p = None.
Proof.
  intros Hm ([Hp Hd] & Hf & Hl) Hsy Hc.
  destruct (crash_reachable _ i nd d d2 Hc (fixed_anchored _ _ _ Hf)) as (x & <- & ? & ?); [apply Hm|done|].
  split_and!; [done..|]. destruct Hc as [d ns cut Hs]. rewrite Hp in Hs. inversion Hs; subst.
  cbn. by rewrite Hd.
Qed.

(** C3. Claim, release, finish, both quarantines and the requeue never lose a
    segment to a power loss, when it is at rest and synced under its old name and
    its new name is free.  Stop the move at any of its file-system calls,
    with any of the calls before it failing, and cut the power: the segment is
    there, with the contents it had, under its old name or its new one.  Once
    the move has reported success it is there under the new name, and no longer
    under the old one. *)
Theorem lifecycle_power_loss tr p i nd d d1 q d2 :
  at_rest p i nd d → applies tr p → live d !! (target_dir tr, p.2) = None →
  rtc step (d, run tr p) (d1, q) → crash d1 d2 →
  (∃ x, (x = p ∨ x = (target_dir tr, p.2)) ∧ live d2 !! x = Some i ∧ inodes d2 !! i = Some nd)
  ∧ ∀ y, q = Ret (Some y) →
      y = (target_dir tr, p.2) ∧ live d2 !! y = Some i ∧ live d2 !! p = None.
Proof.
  intros Hr Ha Hd Hrun Hc. pose proof (run_always tr p i nd d Hr Ha Hd) as H.
  apply (always_run _ _ _ _ _ _ Hrun) in H. pose proof (always_here _ _ _ _ H) as Hm.
  destruct Hr as (_ & _ & _ & _ & Hsy). split; [by eapply moving_crash|].
  intros y ->. destruct H as [_ [-> Hmv]]. split; [done|].
  destruct (moved_crash p (target_dir tr) i nd d1 d2 Hm Hmv Hsy Hc) as (? & _ & ?). done.
Qed.

(** The startup sweep of [processing/] is as safe for every segment it
    finds: cut off anywhere, each is whole in [processing/] or in [orphans/],
    and a sweep that reported success has put it in [orphans/] for good. *)
Theorem orphan_sweep_power_loss n i nd d d1 q d2 :
  at_rest (ProcessingDir, n) i nd d → live d !! (OrphansDir, n) = None →
  rtc step (d, recover_orphaned_processing) (d1, q) → crash d1 d2 →
  (∃ x, (x = (ProcessingDir, n) ∨ x = (OrphansDir, n)) ∧ live d2 !! x = Some i
        ∧ inodes d2 !! i = Some nd)
  ∧ ∀ k, q = Ret (Some k) → live d2 !! (OrphansDir, n) = Some i.
Proof.
  intros Hr Ht Hrun Hc. pose proof (at_rest_moving _ (OrphansDir, n) i nd d Hr) as Hm0.
  pose proof (sweep_always n i nd d Hm0 (conj (proj1 (proj2 Hr)) Ht)) as H.
  apply (always_run _ _ _ _ _ _ Hrun) in H. pose proof (always_here _ _ _ _ H) as Hm.
  destruct Hr as (_ & _ & _ & _ & Hsy). split; [by eapply (moving_crash (ProcessingDir, n))|].
  intros k ->. destruct H as [_ H]. destruct (H ltac:(done)) as [Hf _].
  by destruct (crash_reachable _ i nd d1 d2 Hc (fixed_anchored _ _ _ Hf)) as (x & <- & ? & ?); [apply Hm|..].
Qed.

(** * Witnesses: one segment, claimed, and one swept, both cut off before the
    last fsync *)

Definition sample_name : rstr := Eval vm_compute in lit "a-1.arrow".
Definition sample_inode : Inode := mkInode [7; 8] 2.

Definition sample_disk (D : Dir) : Disk :=
  mkDisk {[1%N := sample_inode]} {[(D, sample_name) := 1%N]} {[(D, sample_name) := 1%N]} [].

Lemma sample_at_rest D : at_rest (D, sample_name) 1%N sample_inode (sample_disk D).
Proof.
  split_and!; try done; [by cbn; rewrite lookup_singleton_eq|].
  intros x. cbn. rewrite lookup_singleton. by case_decide.
Qed.

(** One more call of a run, with the outcome given. *)
Ltac run_call v :=
  cbn; eapply (rtc_call _ _ _ v); [cbn [exec]|cbv beta iota].

Lemma lifecycle_power_loss_witness :
  ∃ d1 d2, crash d1 d2 ∧
  (∃ x, (x = (SealedDir, sample_name) ∨ x = (ProcessingDir, sample_name))
        ∧ live d2 !! x = Some 1%N ∧ inodes d2 !! 1%N = Some sample_inode).
Proof.
  assert (∃ d1 q, rtc step (sample_disk SealedDir, run Claim (SealedDir, sample_name)) (d1, q)
                  ∧ ∃ d2, crash d1 d2) as (d1 & q & Hrun & d2 & Hc).
  { do 2 eexists. split.
    - run_call (Some tt); [split; [by right|reflexivity]|].
      run_call (Some tt); [right; exists 1%N; split_and!; reflexivity|].
      run_call false; [split; reflexivity|].
      run_call (Some tt); [right; split; reflexivity|]. apply rtc_refl.
    - eexists. eapply crash_intro with (cut := λ _, 0%nat). apply sv_drop, sv_nil. }
  exists d1, d2. split; [done|].
  apply (lifecycle_power_loss Claim (SealedDir, sample_name) 1%N sample_inode
           (sample_disk SealedDir) d1 q d2); try done. apply sample_at_rest.
Defined.

Lemma orphan_sweep_power_loss_witness :
  ∃ d1 d2, crash d1 d2 ∧
  (∃ x, (x = (ProcessingDir, sample_name) ∨ x = (OrphansDir, sample_name))
        ∧ live d2 !! x = Some 1%N ∧ inodes d2 !! 1%N = Some sample_inode).
Proof.
  assert (∃ d1 q, rtc step (sample_disk ProcessingDir, recover_orphaned_processing) (d1, q)
                  ∧ ∃ d2, crash d1 d2) as (d1 & q & Hrun & d2 & Hc).
  { do 2 eexists. split.
    - run_call (Some tt); [split; [by right|reflexivity]|].
      run_call (Some [sample_name]).
      { split; [reflexivity|]. right. exists [sample_name]. split_and!; [done|apply NoDup_singleton|].
        intros m. cbn. rewrite list_elem_of_singleton, lookup_singleton. case_decide as E.
        - injection E as <-. split; [by eexists|done].
        - split; [intros ->; done|by intros [? ?]]. }
      run_call false; [split; reflexivity|].
      run_call (Some tt); [right; exists 1%N; split_and!; reflexivity|].
      run_call (Some tt); [right; split; reflexivity|]. apply rtc_refl.
    - eexists. eapply crash_intro with (cut := λ _, 0%nat). apply sv_apply, sv_nil. }
  exists d1, d2. split; [done|].
  apply (orphan_sweep_power_loss sample_name 1%N sample_inode
           (sample_disk ProcessingDir) d1 q d2); try done. apply sample_at_rest.
Defined.
