(* ===== verification/WalWriter.v ===== *)
(** The WAL writer ([WalWriter] of [crates/loglake-wal/src/lib.rs]): opening a
    segment, appending to it through the buffered writer, the explicit sync
    behind [commit=wait_for], sealing, and the recovery of the partial segments
    a dead writer left behind. *)

From stdpp Require Import prelude gmap strings.
From Stdlib Require Import ZArith Lia.
From S2P Require Import Prelude RustStr WalFrame WalDisk WalLifecycle.

(** * What the writer calls *)

(** [StreamWriter] hands its sink one [write_all] per piece.  [batch_nanos] is
    the event-time column in nanoseconds ([None]: no such column). *)
Class WalBatch (batch : Type) `{!ArrowIpc batch} := {
  schema_pieces : list bytes;
  batch_pieces : batch → list bytes;
  eos_pieces : list bytes;
  num_rows : batch → Z;
  batch_nanos : batch → option (list (option Z));
}.
#[global] Arguments schema_pieces {batch _ _}.
#[global] Arguments eos_pieces {batch _ _}.

(** * State *)

Definition DOT_PARTIAL : rstr := Eval vm_compute in lit ".arrow.partial".
Definition DOT_ARROW_TMP : rstr := Eval vm_compute in lit ".arrow.tmp".

Definition active_path (id : rstr) : path := (ActiveDir, id ++ DOT_PARTIAL).
Definition final_path (id : rstr) : path := (SealedDir, id ++ DOT_ARROW).
Definition framed_tmp (id : rstr) : path := (SealedDir, id ++ DOT_ARROW_TMP).

(** [buf] is what the [BufWriter] holds, [ino] the open file; [id] stands for
    both paths. *)
Record ActiveSegment := mkActive {
  id : rstr; ino : N; buf : bytes; rows : Z;
  min_ts : Z; max_ts : Z; owner : option Uuid; dir_synced : bool;
}.

Record WalWriter := mkWriter {
  ingester_id : rstr;
  max_events : Z;
  current : option ActiveSegment;
  mirror_subdir : option rstr;
  table_uuid : option Uuid;
}.

Record WalSegment := mkSegment {
  seg_path : path; seg_rows : Z; seg_bytes : Z; mirror_key_suffix : rstr;
}.

Definition with_current (w : WalWriter) (c : option ActiveSegment) : WalWriter :=
  mkWriter (ingester_id w) (max_events w) c (mirror_subdir w) (table_uuid w).

Definition with_buf (a : ActiveSegment) (b : bytes) : ActiveSegment :=
  mkActive (id a) (ino a) b (rows a) (min_ts a) (max_ts a) (owner a) (dir_synced a).

Definition I64_MIN : Z := - 2 ^ 63.
Definition I64_MAX : Z := 2 ^ 63 - 1.

(** * The buffered writer *)

(** [BufWriter]'s default capacity. *)
Definition BUF_CAPACITY : Z := 8192.

(** [flush_buf]: what the file did not take stays buffered. *)
Definition flush_buf (i : N) (buf : bytes) : Prog (bytes * bool) :=
  match buf with
  | [] => Ret ([], true)
  | _ => let! k := call (OpAppend i buf) in Ret (drop k buf, (k =? length buf)%nat)
  end.

(** [write_all]: buffered when it fits, straight to the file when it is as
    large as the buffer. *)
Definition buf_write_all (i : N) (buf piece : bytes) : Prog (bytes * bool) :=
  let spare := BUF_CAPACITY - len buf in
  if len piece <? spare then Ret (buf ++ piece, true) else
  let! fl := (if spare <? len piece then flush_buf i buf else Ret (buf, true)) in
  if negb fl.2 then Ret fl else
  if BUF_CAPACITY <=? len piece then
    let! k := call (OpAppend i piece) in Ret (fl.1, (k =? length piece)%nat)
  else Ret (fl.1 ++ piece, true).

Fixpoint write_pieces (i : N) (buf : bytes) (pieces : list bytes) : Prog (bytes * bool) :=
  match pieces with
  | [] => Ret (buf, true)
  | piece :: pieces =>
      let! r := buf_write_all i buf piece in
      if r.2 then write_pieces i r.1 pieces else Ret r
  end.

Section Writer.
Context {batch : Type} `{!ArrowIpc batch, !WalBatch batch}.

(** The event-time range of a batch; nulls are skipped. *)
Definition batch_ts_min_max (b : batch) : option (Z * Z) :=
  match batch_nanos b with
  | None => None
  | Some arr =>
      let '(mn, mx) :=
        foldl (λ '(mn, mx) v, match v with Some v => (Z.min mn v, Z.max mx v) | None => (mn, mx) end)
          (I64_MAX, I64_MIN) arr in
      if mn <=? mx then Some (mn, mx) else None
  end.

(** * Operations *)

(** [uuid] is the fresh UUIDv7 in the segment's name. *)
Definition start_segment (uuid : rstr) (w : WalWriter) : Prog (WalWriter * option unit) :=
  let id := ingester_id w ++ lit "-" ++ uuid in
  let! r := call (OpCreate (active_path id)) in
  match r with
  | None => Ret (w, None)
  | Some i =>
      let owner := table_uuid w in
      let hdr := build_wal_frame WAL_FRAME_FLAG_PARTIAL 0 0 owner [] 0 in
      let! k := call (OpAppend i hdr) in
      if (k <? length hdr)%nat then Ret (w, None) else
      let! r := write_pieces i [] (schema_pieces (batch:=batch)) in
      if negb r.2 then Ret (w, None) else
      Ret (with_current w (Some (mkActive id i r.1 0 I64_MAX I64_MIN owner false)), Some tt)
  end.

Definition mirror_key (w : WalWriter) (filename : rstr) : rstr :=
  match mirror_subdir w with
  | Some (c :: subdir) => (c :: subdir) ++ lit "/" ++ filename
  | _ => filename
  end.

(** The part of [seal] that runs once the body is complete and synced: frame
    it, publish it under its final name, drop the active copy. *)
Definition publish_sealed (w : WalWriter) (a : ActiveSegment) : Prog (option (option WalSegment)) :=
  let? raw := call (OpRead (active_path (id a))) in
  match get_range raw WAL_FRAME_HEADER_LEN (len raw) with
  | None => Ret None
  | Some raw_body =>
      let '(mn, mx) := if min_ts a <=? max_ts a then (min_ts a, max_ts a) else (0, 0) in
      let framed := sealed_file (batch:=batch) mn mx (owner a) raw_body in
      let? j := call (OpCreate (framed_tmp (id a))) in
      let! k := call (OpAppend j framed) in
      if (k <? length framed)%nat then Ret None else
      let? _ := call (OpSyncFile j) in
      let? _ := call (OpRename (framed_tmp (id a)) (final_path (id a))) in
      let? _ := call (OpSyncDir SealedDir) in
      let! _ := call (OpRemove (active_path (id a))) in
      Ret (Some (Some (mkSegment (final_path (id a)) (rows a) (len framed)
                         (mirror_key w (id a ++ DOT_ARROW)))))
  end.

Definition seal (w : WalWriter) : Prog (WalWriter * option (option WalSegment)) :=
  match current w with
  | None => Ret (w, Some None)
  | Some a =>
      let w := with_current w None in
      if rows a =? 0 then let! _ := call (OpRemove (active_path (id a))) in Ret (w, Some None) else
      let! r := write_pieces (ino a) (buf a) (eos_pieces (batch:=batch)) in
      if negb r.2 then Ret (w, None) else
      let! r := flush_buf (ino a) r.1 in
      if negb r.2 then Ret (w, None) else
      let! s := call (OpSyncFile (ino a)) in
      match s with
      | None => Ret (w, None)
      | Some _ => let! r := publish_sealed w a in Ret (w, r)
      end
  end.

(** The body of [append_batch] once a segment is open. *)
Definition append_current (aged : bool) (b : batch) (w : WalWriter) (a : ActiveSegment)
    : Prog (WalWriter * option (option WalSegment)) :=
  let! r := write_pieces (ino a) (buf a) (batch_pieces b) in
  let a := with_buf a r.1 in
  if negb r.2 then Ret (with_current w (Some a), None) else
  let '(mn, mx) :=
    match batch_ts_min_max b with
    | Some (mn, mx) => (Z.min (min_ts a) mn, Z.max (max_ts a) mx)
    | None => (min_ts a, max_ts a)
    end in
  let a := mkActive (id a) (ino a) (buf a) (rows a + num_rows b) mn mx (owner a) (dir_synced a) in
  let! r := flush_buf (ino a) (buf a) in
  let a := with_buf a r.1 in
  let w := with_current w (Some a) in
  if negb r.2 then Ret (w, None) else
  if (max_events w <=? rows a) || aged then seal w else Ret (w, Some None).

(** [aged]: the segment is older than [max_age]. *)
Definition append_batch (uuid : rstr) (aged : bool) (b : batch) (w : WalWriter)
    : Prog (WalWriter * option (option WalSegment)) :=
  match current w with
  | Some a => append_current aged b w a
  | None =>
      let! st := start_segment uuid w in
      match st.2, current st.1 with
      | Some _, Some a => append_current aged b st.1 a
      | _, _ => Ret (st.1, None)
      end
  end.

Definition sync_active (w : WalWriter) : Prog (WalWriter * option bool) :=
  match current w with
  | None => Ret (w, Some false)
  | Some a =>
      if rows a =? 0 then Ret (w, Some false) else
      let! r := flush_buf (ino a) (buf a) in
      let a := with_buf a r.1 in
      let w := with_current w (Some a) in
      if negb r.2 then Ret (w, None) else
      let! s := call (OpSyncFile (ino a)) in
      match s with
      | None => Ret (w, None)
      | Some _ =>
          if dir_synced a then Ret (w, Some true) else
          let! s := call (OpSyncDir (active_path (id a)).1) in
          match s with
          | None => Ret (w, None)
          | Some _ =>
              let a := mkActive (id a) (ino a) (buf a) (rows a) (min_ts a) (max_ts a) (owner a) true in
              Ret (with_current w (Some a), Some true)
          end
      end
  end.

(** [flush_active_for_mirror]: the path and its size on disk. *)
Definition flush_active_for_mirror (w : WalWriter) : Prog (WalWriter * option (option (path * Z))) :=
  match current w with
  | None => Ret (w, Some None)
  | Some a =>
      if rows a =? 0 then Ret (w, Some None) else
      let! r := flush_buf (ino a) (buf a) in
      let w := with_current w (Some (with_buf a r.1)) in
      if negb r.2 then Ret (w, None) else
      let! m := call (OpRead (active_path (id a))) in
      match m with
      | None => Ret (w, None)
      | Some file => Ret (w, Some (Some (active_path (id a), len file)))
      end
  end.

Definition tick (aged : bool) (w : WalWriter) : Prog (WalWriter * option (option WalSegment)) :=
  match current w with
  | Some a => if (0 <? rows a) && aged then seal w else Ret (w, Some None)
  | None => Ret (w, Some None)
  end.

Definition bind_table_uuid (uuid : option Uuid) (w : WalWriter)
    : Prog (WalWriter * option (option WalSegment)) :=
  if bool_decide (table_uuid w = uuid) then Ret (w, Some None) else
  let! r := seal w in
  match r.2 with
  | None => Ret (r.1, None)
  | Some sealed =>
      let w := r.1 in
      Ret (mkWriter (ingester_id w) (max_events w) (current w) (mirror_subdir w) uuid, Some sealed)
  end.

(** [set_mirror_subdir]: slashes trimmed at both ends. *)
Definition trim_slashes (s : rstr) : rstr :=
  reverse (drop_while (Z.eqb 0x2F) (reverse (drop_while (Z.eqb 0x2F) s))).

Definition set_mirror_subdir (subdir : option rstr) (w : WalWriter) : WalWriter :=
  mkWriter (ingester_id w) (max_events w) (current w) (trim_slashes <$> subdir) (table_uuid w).

(** [Drop]: a last seal, whose failure is only logged. *)
Definition drop_writer (w : WalWriter) : Prog unit :=
  let! _ := seal w in Ret tt.

Definition current_rows (w : WalWriter) : Z := default 0 (rows <$> current w).
End Writer.

(** * Recovery *)

(** [idle] tells whether another writer's partial sat untouched past the
    adoption threshold.  The body of the loop, once the file is opened: *)
Definition recover_read (owner_prefix : rstr) (idle : rstr → bool) (recovered : nat) (stem : rstr)
    (file : bytes) : Prog (option nat) :=
  let p := active_path stem in
  if negb (is_prefix_of owner_prefix stem) && negb (idle stem) then Ret (Some recovered) else
  if (len file =? 0) || ((len file <=? WAL_FRAME_HEADER_LEN) && is_framed file) then
    let! _ := call (OpRemove p) in Ret (Some recovered)
  else
    let dest := final_path stem in
    let! e := call (OpExists dest) in
    if e : bool then let! _ := call (OpRemove p) in Ret (Some recovered) else
    let? _ := call (OpRename p dest) in
    Ret (Some (S recovered)).

Definition recover_partial (owner_prefix : rstr) (idle : rstr → bool) (recovered : nat) (name : rstr)
    : Prog (option nat) :=
  match strip_suffix name DOT_PARTIAL with
  | None => Ret (Some recovered)
  | Some stem =>
      let? file := call (OpRead (ActiveDir, name)) in
      recover_read owner_prefix idle recovered stem file
  end.

(** [active/] exists: [with_thresholds] makes it first, and where it is missing
    the code answers zero at once. *)
Definition recover_orphaned_partials (owner : rstr) (idle : rstr → bool) : Prog (option nat) :=
  let? _ := call (OpMkdir SealedDir) in
  let? names := call (OpReadDir ActiveDir) in
  let? recovered := prog_each (recover_partial (owner ++ lit "-") idle) names 0%nat in
  if (0 <? recovered)%nat then
    let? _ := call (OpSyncDir SealedDir) in
    let? _ := call (OpSyncDir ActiveDir) in
    Ret (Some recovered)
  else Ret (Some recovered).

(** [WalWriter::with_thresholds]. *)
Definition with_thresholds (ingester : rstr) (max_events : Z) (idle : rstr → bool)
    : Prog (option WalWriter) :=
  let? _ := prog_each (λ _ D, call (OpMkdir D)) [ActiveDir; SealedDir; ProcessingDir; CommittedDir] tt in
  let? _ := recover_orphaned_partials ingester idle in
  Ret (Some (mkWriter ingester max_events None None None)).
