(* ===== verification/WalDurable.v ===== *)
(** Power loss and the WAL writer: whatever the writer was doing, every batch
    it had acknowledged as durable ([commit=wait_for], or a seal that returned)
    is still in a readable segment file, and the recovery pass of the next
    writer keeps it. *)

From stdpp Require Import prelude gmap strings.
From Stdlib Require Import ZArith Lia.
From S2P Require Import Prelude RustStr WalFrame WalDisk WalLifecycle WalWriter.

(** What [StreamWriter] and the batches are taken to do. *)
Class WalBatchLaws (batch : Type) `{!ArrowIpc batch, !WalBatch batch} : Prop := {
  schema_pieces_ok : concat (schema_pieces (batch:=batch)) = ipc_schema (batch:=batch);
  batch_pieces_ok (b : batch) : concat (batch_pieces b) = ipc_batch b;
  eos_pieces_ok : concat (eos_pieces (batch:=batch)) = ipc_eos (batch:=batch);
  num_rows_nonneg (b : batch) : 0 ≤ num_rows b;
}.

(** * Files cut short *)

Section Cut.
Context {batch : Type} `{!ArrowIpc batch, !ArrowIpcLaws batch}.
Implicit Types (L M acked : list batch) (c t u : bytes).

Lemma ipc_body_app L M t : ipc_body (L ++ M) t = ipc_body L (concat (ipc_batch <$> M) ++ t).
Proof. unfold ipc_body. by rewrite fmap_app, concat_app, <- app_assoc. Qed.

Lemma ipc_body_nil L t : ipc_body L t = ipc_body L [] ++ t.
Proof. unfold ipc_body. by rewrite !app_nil_r, <- app_assoc. Qed.

(** Every cut of a stream that keeps the first batches falls inside the message
    of a later batch or inside the end-of-stream marker. *)
Lemma cut_body M R c :
  c `prefix_of` concat (ipc_batch <$> R) ++ ipc_eos →
  ∃ N t, ipc_body M [] ++ c = ipc_body (M ++ N) t
    ∧ ((∃ b u, t ++ u = ipc_batch b ∧ u ≠ []) ∨ ∃ u, t ++ u = ipc_eos (batch:=batch)).
Proof.
  revert M c. induction R as [|b R IH]; intros M c Hc.
  - exists [], c. rewrite app_nil_r, <- ipc_body_nil. split; [done|]. right.
    destruct Hc as [u Hu]. exists u. done.
  - cbn [fmap list_fmap concat] in Hc. rewrite <- app_assoc in Hc. destruct Hc as [u Hu].
    destruct (app_eq_inv _ _ _ _ Hu) as [(k & Hk & ?)|(k & -> & ?)]; subst.
    + destruct k as [|x k].
      * exists [b], []. rewrite app_nil_r in *. subst. split.
        -- rewrite ipc_body_app. cbn. rewrite !app_nil_r. by rewrite (ipc_body_nil M (ipc_batch b)).
        -- destruct (batch_message b) as (meta & body & ? & ? & ?). right. by exists (ipc_eos (batch:=batch)).
      * exists [], c. rewrite app_nil_r, <- ipc_body_nil. split; [done|]. left. exists b, (x :: k). done.
    + destruct (IH (M ++ [b]) k) as (N & t & E & Ht).
      { by exists u. }
      exists (b :: N), t. split; [|done]. rewrite <- (assoc_L (++)) in E. cbn in E. rewrite <- E.
      rewrite (ipc_body_app M [b]). cbn. rewrite !app_nil_r, (ipc_body_nil M (ipc_batch b)).
      by rewrite <- app_assoc.
Qed.

(** An end-of-stream marker cut short ends the stream all the same. *)
Lemma read_partial_eos M t u :
  t ++ u = ipc_eos (batch:=batch) → M ≠ [] → read_partial_segment_bytes (ipc_body M t) = inr M.
Proof.
  intros E HM. unfold read_partial_segment_bytes.
  destruct (Z.ltb_spec (len t) 4) as [Hlt|Hge].
  { rewrite read_complete_body by (by left). unfold decode_or_error, ipc_body.
    by rewrite decode_stream by (by left). }
  destruct u as [|x u].
  { rewrite app_nil_r in E. rewrite read_complete_body by (by right). unfold decode_or_error, ipc_body.
    by rewrite decode_stream by (by right). }
  rewrite eos_marker in E.
  destruct (app_prefix_split t (x :: u) _ _ E) as (t' & -> & E'); [done|].
  assert (len t' < 4) as Hlt.
  { apply (f_equal len) in E'. rewrite len_app, len_to_le, len_cons in E'. len_lia. }
  assert (ipc_stream_extent (ipc_body M (IPC_CONTINUATION_MARKER ++ t'))
          = Truncated (len (ipc_body M []))) as ->.
  { rewrite !ipc_body_concat, app_nil_r. apply (extent_messages _ _ Truncated); [apply body_messages|].
    intros pos. by apply extent_short_marker. }
  rewrite to_nat_len, (ipc_body_nil M (_ ++ _)), take_app_length.
  unfold decode_or_error, ipc_body. rewrite decode_stream by (by left). by destruct M.
Qed.

(** ** Open segment files *)

(** What the seal reads back after the header. *)
Lemma open_header_range o c :
  uuid_ok o → get_range (open_header o ++ c) WAL_FRAME_HEADER_LEN (len (open_header o ++ c)) = Some c.
Proof.
  intros Ho. pose proof (open_header_len o Ho) as Hl.
  change WAL_FRAME_HEADER_LEN with 52. rewrite <- Hl, len_app.
  pose proof (get_range_app (open_header o) c []) as H. by rewrite app_nil_r in H.
Qed.

(** A cut of an open segment that keeps the bytes of [acked] reads back at
    least [acked]. *)
Lemma read_cut o L acked c :
  uuid_ok o → acked ≠ [] → acked `prefix_of` L →
  c `prefix_of` open_header o ++ ipc_body L ipc_eos →
  (length (open_header o ++ ipc_body acked []) ≤ length c)%nat →
  ∃ l, read_segment None c = inr l ∧ acked `prefix_of` l.
Proof.
  intros Ho Hne [R ->] [x Hx] Hlen. rewrite ipc_body_app, ipc_body_nil, app_assoc in Hx.
  set (pre := open_header o ++ ipc_body acked []) in *.
  assert (∃ c', c = pre ++ c' ∧ concat (ipc_batch <$> R) ++ ipc_eos = c' ++ x) as (c' & -> & Hc').
  { symmetry in Hx. destruct (app_eq_inv _ _ _ _ Hx) as [(k & -> & ?)|(k & -> & ?)]; [by exists k|].
    exists []. rewrite length_app in Hlen. destruct k; [|cbn in Hlen; lia]. by rewrite !app_nil_r. }
  destruct (cut_body acked R c') as (N & t & E & Ht); [by exists x|].
  unfold pre. rewrite <- app_assoc, E, read_open_file by done. exists (acked ++ N).
  split; [|by apply prefix_app_r]. assert (acked ++ N ≠ []) by (by destruct acked).
  destruct Ht as [(b & u & Ht & Hu)|[u Ht]]; [by eapply read_partial_body|by eapply read_partial_eos].
Qed.

(** The file reads back at least [acked] however much of what is not synced a
    power loss takes. *)
Definition file_ok (nd : Inode) (acked : list batch) : Prop :=
  ∀ k, (synced nd ≤ k)%nat → WAL_FRAME_HEADER_LEN < len (take k (data nd))
    ∧ ∃ l, read_segment None (take k (data nd)) = inr l ∧ acked `prefix_of` l.

Lemma open_file_ok o L acked nd :
  uuid_ok o → acked ≠ [] → acked `prefix_of` L →
  data nd `prefix_of` open_header o ++ ipc_body L ipc_eos →
  (length (open_header o ++ ipc_body acked []) ≤ synced nd ≤ length (data nd))%nat →
  file_ok nd acked.
Proof.
  intros Ho Hne Hp Hd Hlen k Hk.
  assert (WAL_FRAME_HEADER_LEN < len (open_header o ++ ipc_body acked [])) as Hl.
  { rewrite len_app, open_header_len by done. unfold ipc_body. destruct schema_message as (meta & body & Hm & _ & ->).
    unfold WAL_FRAME_HEADER_LEN. rewrite !len_app. len_lia. }
  split; [unfold len in *; rewrite length_take; lia|]. eapply read_cut; [done..| |].
  - etransitivity; [|exact Hd]. exists (drop k (data nd)). by rewrite take_drop.
  - rewrite length_take. lia.
Qed.

Lemma sealed_file_ok o mn mx L c :
  uuid_ok o → len (zstd_encode (batch:=batch) (ipc_body L ipc_eos)) < 2 ^ 64 →
  c = sealed_file (batch:=batch) mn mx o (ipc_body L ipc_eos) → file_ok (mkInode c (length c)) L.
Proof.
  intros Ho Hz -> k Hk. cbn [data synced] in *. rewrite take_ge by done. split.
  - pose proof (zstd_nonempty (ipc_body L ipc_eos)). unfold sealed_file. rewrite frame_len by done.
    unfold WAL_FRAME_HEADER_LEN. lia.
  - exists L. by rewrite read_sealed_file.
Qed.
End Cut.

(** * Names *)

(** The names of one segment. *)
Definition own (id : rstr) (p : path) : Prop :=
  p = active_path id ∨ p = final_path id ∨ p = framed_tmp id.

Lemma app_suffix_neq (a b x y : rstr) : last x ≠ last y → x ≠ [] → y ≠ [] → a ++ x ≠ b ++ y.
Proof.
  intros Hl Hx Hy E. apply Hl. apply (f_equal last) in E. rewrite !last_app in E.
  destruct (last x) eqn:Ex; [|by apply last_None in Ex]. destruct (last y) eqn:Ey; [done|by apply last_None in Ey].
Qed.

Lemma final_not_tmp id id' : final_path id ≠ framed_tmp id'.
Proof. intros E. apply (f_equal snd) in E. by eapply app_suffix_neq in E. Qed.

Lemma own_inj id id' p : own id p → own id' p → id = id'.
Proof.
  intros [->|[->| ->]] [E|[E|E]]; try (by apply (f_equal fst) in E);
    try (by apply (f_equal snd) in E; cbn in E; apply (inj (λ x, x ++ _)) in E);
    [by apply final_not_tmp in E|by symmetry in E; apply final_not_tmp in E].
Qed.

(** The names an inode may have after a power loss. *)
Definition only (X : path → Prop) (j : N) (d : Disk) : Prop :=
  (∀ p, durable d !! p = Some j → X p)
  ∧ Forall (λ op, match op with Link p i | Move _ p i => i = j → X p | Unlink _ => True end) (pending d).

Lemma only_survives X j d ns p :
  only X j d → survives (pending d) (durable d) ns → ns !! p = Some j → X p.
Proof.
  intros [Hd Hp] Hs. revert p. induction Hs as [ns|op l ns ns' _ IH|op l ns ns' _ IH|s t i l ns ns' _ IH];
    [done|inversion Hp as [|?? Ho Hl]; subst; apply IH; try done..].
  - intros p. destruct op as [q i|q|s t i]; cbn; rewrite ?lookup_insert, ?lookup_delete;
      repeat case_decide; try done; subst; auto; intros [= ->]; auto.
  - intros p. rewrite lookup_insert. case_decide; [|auto]. subst. intros [= ->]. auto.
Qed.

Lemma only_live X j d p : consistent d → only X j d → live d !! p = Some j → X p.
Proof. intros Hc Ho. rewrite <- Hc. apply (only_survives X j d _ p Ho), survives_replay. Qed.

Lemma only_mono (X Y : path → Prop) j d : (∀ p, X p → Y p) → only X j d → only Y j d.
Proof.
  intros HXY [Hd Hp]. split; [auto|]. eapply Forall_impl; [exact Hp|]. intros []; cbn; auto.
Qed.

Lemma only_change X j op d :
  only X j d → match op with Link p i | Move _ p i => i = j → X p | Unlink _ => True end →
  only X j (change op d).
Proof. intros [Hd Hp] Ho. split; [done|]. apply Forall_app. by rewrite Forall_singleton. Qed.

Lemma only_sync X j D d : only X j d → only X j (sync_dir D d).
Proof.
  intros Ho. pose proof Ho as [Hd Hp]. split.
  - intros p Hl. cbn in Hl. revert Hl.
    assert (∀ l ns, (∀ p, ns !! p = Some j → X p) →
      Forall (λ op, match op with Link p i | Move _ p i => i = j → X p | Unlink _ => True end) l →
      replay l ns !! p = Some j → X p) as H.
    { intros l ns H1 H2. eapply (only_survives X j (mkDisk ∅ ∅ ns l)); [by split|]. apply survives_replay. }
    apply H; [done|]. rewrite Forall_forall in *. intros op' (op & Hop & Hin)%list_elem_of_bind.
    specialize (Hp op Hin). destruct op; cbn in Hop; repeat case_decide;
      rewrite ?list_elem_of_singleton, ?elem_of_nil in Hop; by subst.
  - cbn. rewrite Forall_forall in *. intros op' (op & Hop & Hin)%list_elem_of_bind.
    specialize (Hp op Hin). destruct op; cbn in Hop; repeat case_decide;
      rewrite ?list_elem_of_singleton, ?elem_of_nil in Hop; by subst.
Qed.

(** A name nothing durable or pending mentions. *)
Definition untouched (p : path) (d : Disk) : Prop :=
  durable d !! p = None ∧ Forall (λ op, p ∉ touches op) (pending d).

Lemma untouched_survives p d ns :
  untouched p d → survives (pending d) (durable d) ns → ns !! p = None.
Proof.
  intros [Hd Hp] Hs. by rewrite (survives_other p _ _ _ Hp Hs).
Qed.

Lemma untouched_live p d : consistent d → untouched p d → live d !! p = None.
Proof. intros Hc Hu. rewrite <- Hc. eapply untouched_survives; [done|]. apply survives_replay. Qed.

Lemma untouched_change p op d : p ∉ touches op → untouched p d → untouched p (change op d).
Proof. intros Hop [Hd Hp]. split; [done|]. apply Forall_app. auto. Qed.

Lemma untouched_sync p D d : untouched p d → untouched p (sync_dir D d).
Proof.
  intros [Hd Hp]. destruct (halves_frame p D _ Hp) as [Hf Hk]. split; [|done].
  cbn [durable sync_dir]. by rewrite replay_other.
Qed.

(** * The invariant *)

Section Invariant.
Context {batch : Type} `{!ArrowIpc batch, !ArrowIpcLaws batch}.
Implicit Types (d : Disk) (acked : list batch) (sealed : list (rstr * list batch)).

(** Whatever a power loss leaves, the segment is there: under its final name
    or, when that is missing, under its active one. *)
Definition held (d : Disk) (id : rstr) (acked : list batch) : Prop :=
  ∀ ns, survives (pending d) (durable d) ns →
    ∃ i nd, (ns !! final_path id = Some i ∨ ns !! final_path id = None ∧ ns !! active_path id = Some i)
      ∧ inodes d !! i = Some nd ∧ file_ok nd acked.

(** [ids]: the segments begun so far; [sealed]: those the writer has let go of,
    with the batches it owes. *)
Record wal_inv (ids : list rstr) (sealed : list (rstr * list batch)) (d : Disk) : Prop := mkInv {
  inv_consistent : consistent d;
  inv_local : Forall (λ op, ∀ D, no_out D op) (pending d);
  inv_alloc j : inodes d !! j = None → only (λ _, False) j d;
  inv_fresh id p : id ∉ ids → own id p → untouched p d;
  inv_held id acked : (id, acked) ∈ sealed → id ∈ ids ∧ held d id acked;
}.

Lemma held_change d id acked op :
  (∀ p, p ∈ touches op → ¬ own id p) → held d id acked → held (change op d) id acked.
Proof.
  intros Hop H ns Hs. cbn in Hs. apply survives_app in Hs as (m & Hm & Hs).
  destruct (H m Hm) as (i & nd & Hi & ?). exists i, nd. split; [|done].
  assert (∀ p, own id p → ns !! p = m !! p) as E.
  { intros p Hp. apply (survives_other p [op]); [|done]. apply Forall_singleton. intros Hin. by apply (Hop p). }
  rewrite !E by (unfold own; auto). done.
Qed.

Lemma held_sync d id acked D :
  Forall (λ op, ∀ D, no_out D op) (pending d) → held d id acked → held (sync_dir D d) id acked.
Proof.
  intros Hl H ns Hs. apply H. eapply survives_sync; [|exact Hs].
  eapply Forall_impl; [exact Hl|]. auto.
Qed.

Lemma held_inode d id acked j nd :
  (∀ ns p, survives (pending d) (durable d) ns → own id p → ns !! p ≠ Some j) →
  held d id acked → held (set_inode j nd d) id acked.
Proof.
  intros Hj H ns Hs. destruct (H ns Hs) as (i & nd' & Hi & Hin & Hok). exists i, nd'.
  split; [done|]. split; [|done]. cbn. rewrite lookup_insert_ne; [done|]. intros ->.
  destruct Hi as [Hi|[_ Hi]]; revert Hi; apply Hj; unfold own; auto.
Qed.

(** ** Steps that concern one segment's names only *)

Section Own.
Context (ids : list rstr) (sealed : list (rstr * list batch)) (id : rstr).
Context (Hid : id ∈ ids) (Hsealed : ∀ acked, (id, acked) ∉ sealed).

Lemma sealed_other id' acked p : (id', acked) ∈ sealed → own id p → ¬ own id' p.
Proof. intros Hin Hp Hp'. pose proof (own_inj _ _ _ Hp Hp'). subst. by apply (Hsealed acked). Qed.

Lemma inv_change op d :
  (∀ p, p ∈ touches op → own id p) → (∀ D, no_out D op) →
  match op with Link _ i | Move _ _ i => is_Some (inodes d !! i) | Unlink _ => True end →
  wal_inv ids sealed d → wal_inv ids sealed (change op d).
Proof.
  intros Hop Hno Hal [Hc Hl Ha Hf Hh]. split.
  - by apply consistent_change.
  - apply Forall_app. by rewrite Forall_singleton.
  - intros j Hj. apply only_change; [by apply Ha|]. cbn in Hj.
    destruct op; try done; intros ->; rewrite Hj in Hal; by destruct Hal.
  - intros id' p Hid' Hp. apply untouched_change; [|by eapply Hf].
    intros Hin. apply Hid'. by rewrite (own_inj _ _ _ Hp (Hop p Hin)).
  - intros id' acked Hin. destruct (Hh _ _ Hin) as [? Hheld]. split; [done|].
    apply held_change; [|done]. intros p Hp. eapply sealed_other; [exact Hin|auto].
Qed.

Lemma inv_sync D d : wal_inv ids sealed d → wal_inv ids sealed (sync_dir D d).
Proof.
  intros [Hc Hl Ha Hf Hh]. split.
  - by apply consistent_sync.
  - cbn. rewrite Forall_forall in *. intros op' (op & Hop & Hin)%list_elem_of_bind D'.
    specialize (Hl op Hin D'). destruct op; cbn in Hop; repeat case_decide;
      rewrite ?list_elem_of_singleton, ?elem_of_nil in Hop; by subst.
  - intros j Hj. apply only_sync. by apply Ha.
  - intros id' p Hid' Hp. apply untouched_sync. by eapply Hf.
  - intros id' acked Hin. destruct (Hh _ _ Hin) as [? Hheld]. split; [done|]. by apply held_sync.
Qed.

Lemma inv_inode j nd d : only (own id) j d → wal_inv ids sealed d → wal_inv ids sealed (set_inode j nd d).
Proof.
  intros Ho [Hc Hl Ha Hf Hh]. split; [done..| |done|].
  - intros k. cbn. rewrite lookup_insert. case_decide; [done|]. apply Ha.
  - intros id' acked Hin. destruct (Hh _ _ Hin) as [? Hheld]. split; [done|].
    apply held_inode; [|done]. intros ns p Hs Hp Hj.
    eapply sealed_other; [exact Hin| |exact Hp]. by eapply only_survives.
Qed.
End Own.

(** Beginning a segment, and letting go of one. *)
Lemma inv_begin ids sealed id d : wal_inv ids sealed d → wal_inv (id :: ids) sealed d.
Proof.
  intros [Hc Hl Ha Hf Hh]. split; [done..| |].
  - intros id' p Hid'. apply Hf. by apply not_elem_of_cons in Hid' as [_ ?].
  - intros id' acked Hin. destruct (Hh _ _ Hin). split; [by right|done].
Qed.

Lemma inv_release ids sealed id acked d :
  id ∈ ids → held d id acked → wal_inv ids sealed d → wal_inv ids ((id, acked) :: sealed) d.
Proof.
  intros Hid Hheld [Hc Hl Ha Hf Hh]. split; [done..|].
  intros id' acked' [E|Hin]%elem_of_cons; [|by apply Hh]. by injection E as -> ->.
Qed.
End Invariant.

(** * The buffered writer *)

Definition put (i : N) (c : bytes) (sy : nat) (d : Disk) : Disk := set_inode i (mkInode c sy) d.

Lemma put_put i c c' sy sy' d : put i c' sy' (put i c sy d) = put i c' sy' d.
Proof. unfold put, set_inode. cbn. by rewrite insert_insert_eq. Qed.

Lemma put_self i c sy d : inodes d !! i = Some (mkInode c sy) → put i c sy d = d.
Proof. intros H. unfold put, set_inode. rewrite insert_id by done. by destruct d. Qed.

Section Buffered.
Context (i : N) (sy : nat) (d : Disk) (c0 T : bytes).

(** While a run of writes is on its way the file holds part of it. *)
Definition writing (d' : Disk) : Prop :=
  ∃ c, c0 `prefix_of` c ∧ c `prefix_of` T ∧ d' = put i c sy d.

(** After it: all of it, part of it still buffered, unless a write failed. *)
Definition wrote (S : bytes) (r : bytes * bool) (d' : Disk) : Prop :=
  ∃ c, c0 `prefix_of` c ∧ c `prefix_of` T ∧ d' = put i c sy d ∧ (r.2 = true → c ++ r.1 = S).

Lemma append_outcome c bs k d' :
  c0 `prefix_of` c → c ++ bs `prefix_of` T → exec (put i c sy d) (OpAppend i bs) k d' →
  (k ≤ length bs)%nat ∧ d' = put i (c ++ take k bs) sy d
  ∧ c0 `prefix_of` c ++ take k bs ∧ c ++ take k bs `prefix_of` T.
Proof.
  intros Hc HT He. inv_exec He. cbn in *. rewrite lookup_insert_eq in *. simplify_eq.
  split_and!; [done|by apply put_put| |].
  - etransitivity; [exact Hc|]. by exists (take k bs).
  - etransitivity; [|exact HT]. apply prefix_app. exists (drop k bs). by rewrite take_drop.
Qed.

Lemma flush_buf_always c b :
  c0 `prefix_of` c → c ++ b `prefix_of` T →
  always writing
    (λ r d', ∃ c', c0 `prefix_of` c' ∧ c' `prefix_of` T ∧ d' = put i c' sy d
       ∧ c' ++ r.1 = c ++ b ∧ (r.2 = true → r.1 = []))
    (flush_buf i b) (put i c sy d).
Proof.
  intros Hc HT. assert (c `prefix_of` T) as HcT by (etransitivity; [|exact HT]; by exists b).
  assert (writing (put i c sy d)) as Hw by (by exists c).
  unfold flush_buf. destruct b as [|x b]; [by apply always_ret; [|exists c]|].
  apply always_op; [done|]. intros k d' He. apply append_outcome in He as (Hk & -> & H1 & H2); [|done..].
  apply always_ret; [by eexists|]. eexists. split_and!; [exact H1|exact H2|done| |].
  - cbn [fst]. by rewrite <- app_assoc, take_drop.
  - cbn [fst snd]. intros ->%Nat.eqb_eq. apply drop_all.
Qed.

Lemma buf_write_all_always c b piece :
  c0 `prefix_of` c → (c ++ b) ++ piece `prefix_of` T →
  always writing (wrote ((c ++ b) ++ piece)) (buf_write_all i b piece) (put i c sy d).
Proof.
  intros Hc HT.
  assert (c ++ b `prefix_of` T) as HbT by (etransitivity; [|exact HT]; by exists piece).
  assert (c `prefix_of` T) as HcT by (etransitivity; [|exact HbT]; by exists b).
  assert (writing (put i c sy d)) as Hw by (by exists c).
  unfold buf_write_all. destruct (len piece <? _).
  { apply always_ret; [done|]. exists c. split_and!; try done. intros _. cbn [fst]. by rewrite (assoc_L (++)). }
  set (Q := λ (r : bytes * bool) d', ∃ c', c0 `prefix_of` c' ∧ c' `prefix_of` T ∧ d' = put i c' sy d
    ∧ c' ++ r.1 = c ++ b ∧ (r.2 = true → BUF_CAPACITY ≤ len piece → r.1 = [])).
  assert (always writing Q (if BUF_CAPACITY - len b <? len piece then flush_buf i b else Ret (b, true))
            (put i c sy d)) as Hfl.
  { destruct (Z.ltb_spec (BUF_CAPACITY - len b) (len piece)).
    - eapply always_mono; [done| |by apply flush_buf_always]. intros r d' _ (c' & ? & ? & ? & ? & Hr).
      exists c'. split_and!; auto.
    - apply always_ret; [done|]. exists c. split_and!; try done. intros _ Hbig. cbn.
      destruct b; [done|]. len_lia. }
  apply always_bind. eapply always_mono; [done| |exact Hfl].
  intros [b' ok] d' _ (c' & Hc' & HcT' & -> & E & Hb). cbn [fst snd] in *.
  assert (writing (put i c' sy d)) as Hw' by (by exists c').
  destruct ok; cbn [negb]; [|apply always_ret; [done|]; by exists c'].
  destruct (Z.leb_spec BUF_CAPACITY (len piece)) as [Hbig|].
  - rewrite (Hb eq_refl Hbig), app_nil_r in E. subst c'. apply always_op; [done|]. intros k d' He.
    apply append_outcome in He as (Hk & -> & H1 & H2); [|done..].
    apply always_ret; [by eexists|]. eexists. split_and!; [exact H1|exact H2|done|].
    cbn [fst snd]. intros ->%Nat.eqb_eq. by rewrite (Hb eq_refl Hbig), app_nil_r, firstn_all.
  - apply always_ret; [done|]. exists c'. split_and!; try done. intros _. cbn [fst].
    by rewrite (assoc_L (++)), E.
Qed.

Lemma write_pieces_always pieces c b :
  c0 `prefix_of` c → (c ++ b) ++ concat pieces `prefix_of` T →
  always writing (wrote ((c ++ b) ++ concat pieces)) (write_pieces i b pieces) (put i c sy d).
Proof.
  revert c b. induction pieces as [|piece pieces IH]; intros c b Hc HT.
  - cbn [concat] in *. rewrite app_nil_r in *. assert (c `prefix_of` T) by (etransitivity; [|exact HT]; by exists b).
    apply always_ret; [by exists c|]. by exists c.
  - cbn [concat] in *. rewrite (assoc_L (++)) in HT |- *. cbn [write_pieces]. apply always_bind.
    eapply always_mono; [done| |apply buf_write_all_always; [exact Hc|]].
    + intros [b' ok] d' _ (c' & Hc' & HcT' & -> & E). cbn [fst snd] in *.
      destruct ok; [|apply always_ret; by exists c']. specialize (E eq_refl).
      rewrite <- E in *. by apply IH.
    + etransitivity; [|exact HT]. by eexists.
Qed.
End Buffered.

(** * The open segment *)

Section Open.
Context {batch : Type} `{!ArrowIpc batch, !ArrowIpcLaws batch}.
Implicit Types (d : Disk) (L acked : list batch).

(** Segment [sid] is open as inode [i] with the bytes [c] in its file, the
    first [sy] of them synced; [L] is what has been appended, [acked] what has
    been acknowledged as durable. *)
Record opened (sid : rstr) (i : N) (o : option Uuid) (L acked : list batch) (sy : nat) (c : bytes)
    (d : Disk) : Prop := mkOpened {
  op_inode : inodes d !! i = Some (mkInode c sy);
  op_data : c `prefix_of` open_header o ++ ipc_body L ipc_eos;
  op_synced : (sy ≤ length c)%nat;
  op_uuid : uuid_ok o;
  op_only : only (eq (active_path sid)) i d;
  op_live : live d !! active_path sid = Some i;
  op_final : untouched (final_path sid) d;
  op_tmp : untouched (framed_tmp sid) d;
  op_acked : acked ≠ [] → acked `prefix_of` L ∧ fixed (active_path sid) i d
      ∧ (length (open_header o ++ ipc_body acked []) ≤ sy)%nat;
}.

Lemma open_held sid i nd acked d :
  untouched (final_path sid) d → fixed (active_path sid) i d → inodes d !! i = Some nd →
  file_ok nd acked → held d sid acked.
Proof.
  intros Hf Ha Hi Hok ns Hs. exists i, nd. split; [|done]. right. split.
  - by eapply untouched_survives.
  - by apply (proj1 (anchored_spec _ _ _) (fixed_anchored _ _ _ Ha)).
Qed.

Lemma opened_file_ok sid i o L acked sy c d :
  opened sid i o L acked sy c d → acked ≠ [] → file_ok (mkInode c sy) acked.
Proof.
  intros [] Hne. destruct (op_acked0 Hne) as (? & ? & ?). by eapply open_file_ok.
Qed.

Lemma opened_held sid i o L acked sy c d :
  opened sid i o L acked sy c d → acked ≠ [] → held d sid acked.
Proof.
  intros Ho Hne. pose proof (opened_file_ok _ _ _ _ _ _ _ _ Ho Hne).
  destruct Ho. destruct (op_acked0 Hne) as (? & ? & ?). by eapply open_held.
Qed.

(** More bytes in the file. *)
Lemma opened_put sid i o L L' acked sy c c' d :
  opened sid i o L acked sy c d → L `prefix_of` L' → c `prefix_of` c' →
  c' `prefix_of` open_header o ++ ipc_body L' ipc_eos →
  opened sid i o L' acked sy c' (put i c' sy d).
Proof.
  intros [] HL Hc Hc'. split; try done.
  - cbn. by rewrite lookup_insert_eq.
  - apply prefix_length in Hc. lia.
  - intros Hne. destruct (op_acked0 Hne) as (? & ? & ?). split_and!; try done. by etransitivity.
Qed.

Lemma opened_sync_file sid i o L acked sy c d :
  opened sid i o L acked sy c d → opened sid i o L acked (length c) c (put i c (length c) d).
Proof.
  intros []. split; try done.
  - cbn. by rewrite lookup_insert_eq.
  - intros Hne. destruct (op_acked0 Hne) as (? & ? & ?). split_and!; try done. lia.
Qed.

Lemma opened_sync_dir sid i o L acked sy c D d :
  opened sid i o L acked sy c d → opened sid i o L acked sy c (sync_dir D d).
Proof.
  intros []. split; try done; auto using only_sync, untouched_sync.
  intros Hne. destruct (op_acked0 Hne) as (? & ? & ?). split_and!; auto using fixed_sync.
Qed.

(** Acknowledging all that has been appended and synced. *)
Lemma opened_ack sid i o L acked sy d :
  opened sid i o L acked sy (open_header o ++ ipc_body L []) d → fixed (active_path sid) i d →
  sy = length (open_header o ++ ipc_body L []) →
  opened sid i o L L sy (open_header o ++ ipc_body L []) d.
Proof. intros [] Hf ->. split; try done. Qed.
End Open.
