(* ===== verification/WalSurvive.v ===== *)
(** The writer's operations keep the invariant of [WalDurable], and the
    theorem they add up to: acknowledged batches survive a power loss. *)

From stdpp Require Import prelude gmap strings.
From Stdlib Require Import ZArith Lia.
From S2P Require Import Prelude RustStr WalFrame WalDisk WalLifecycle WalWriter WalDurable.

(** What a call answers: an optional segment, or whether anything was synced;
    [None] is an error. *)
Abbreviation Reply := (option (option WalSegment) + option bool)%type (only parsing).

Section Ops.
Context {batch : Type} `{!ArrowIpc batch, !ArrowIpcLaws batch, !WalBatch batch, !WalBatchLaws batch}.
Implicit Types (d : Disk) (L acked : list batch) (sealed : list (rstr * list batch)) (w : WalWriter).

(** The body of [L] is one a [Vec] can hold once compressed. *)
Definition body_fits L : Prop := len (zstd_encode (batch:=batch) (ipc_body L ipc_eos)) < 2 ^ 64.

(** A segment the writer lets go of, owing [S]. *)
Definition let_go (sid : rstr) (S : list batch) sealed : list (rstr * list batch) :=
  match S with [] => sealed | _ => (sid, S) :: sealed end.

(** How a seal ends: all of [L] is owed once it returned a segment. *)
Definition seal_post (ids : list rstr) sealed (sid : rstr) L acked w
    (x : WalWriter * option (option WalSegment)) d : Prop :=
  x.1 = w ∧ wal_inv ids (let_go sid (match x.2 with Some (Some _) => L | _ => acked end) sealed) d.

(** What holds wherever the power may go while segment [sid] is open. *)
Definition safe (ids : list rstr) sealed (sid : rstr) acked d : Prop :=
  wal_inv ids sealed d ∧ (acked ≠ [] → held d sid acked).

Record current_ok (ids : list rstr) sealed L acked d (a : ActiveSegment) : Prop := mkCurrentOk {
  co_id : id a ∈ ids;
  co_sealed S : (id a, S) ∉ sealed;
  co_open : ∃ sy c, opened (id a) (ino a) (owner a) L acked sy c d
              ∧ c ++ buf a = open_header (owner a) ++ ipc_body L [];
  co_dir : dir_synced a = true → fixed (active_path (id a)) (ino a) d;
  co_rows : 0 ≤ rows a;
  co_acked : acked ≠ [] → rows a ≠ 0;
}.

Lemma safe_let_go ids sealed sid acked d :
  sid ∈ ids → safe ids sealed sid acked d → wal_inv ids (let_go sid acked sealed) d.
Proof. intros Hid [Hi Hh]. destruct acked; [done|]. apply inv_release; auto. Qed.

Section OneSegment.
Context (ids : list rstr) (sealed : list (rstr * list batch)) (sid : rstr) (acked : list batch).
Context (Hid : sid ∈ ids) (Hsealed : ∀ S, (sid, S) ∉ sealed).
Local Abbreviation safe' := (safe ids sealed sid acked).

Lemma opened_safe i o L sy c d :
  wal_inv ids sealed d → opened sid i o L acked sy c d → safe' d.
Proof. intros Hi Ho. split; [done|]. intros. by eapply opened_held. Qed.

Lemma opened_inode_inv i o L sy c nd d :
  wal_inv ids sealed d → opened sid i o L acked sy c d → wal_inv ids sealed (set_inode i nd d).
Proof.
  intros Hi Ho. apply (inv_inode ids sealed sid); try done.
  eapply only_mono; [|apply Ho]. intros p <-. by left.
Qed.

(** ** Sealing *)

Lemma file_ok_prefix nd (L M : list batch) : M `prefix_of` L → file_ok nd L → file_ok nd M.
Proof. intros Hp Hok k Hk. destruct (Hok k Hk) as (? & l & ? & ?). split; [done|]. exists l. split; [done|]. by etransitivity. Qed.

(** From the creation of the temporary file on: the active copy is complete and
    synced, the framed one is inode [j]. *)
Record sealing (i j : N) (d : Disk) : Prop := mkSealing {
  sl_inv : wal_inv ids sealed d;
  sl_final : untouched (final_path sid) d;
  sl_only : only (own sid) j d;
  sl_active : acked ≠ [] → fixed (active_path sid) i d ∧ ∃ nd, inodes d !! i = Some nd ∧ file_ok nd acked;
  sl_ne : i ≠ j;
}.

Lemma sealing_safe i j d : sealing i j d → safe' d.
Proof.
  intros []. split; [done|]. intros Hne. destruct (sl_active0 Hne) as (? & nd & ? & ?). by eapply open_held.
Qed.

Lemma sealing_put i j nd d : sealing i j d → sealing i j (set_inode j nd d).
Proof.
  intros []. split; try done; [by apply (inv_inode ids sealed sid)|].
  intros Hne. destruct (sl_active0 Hne) as (? & nd' & ? & ?). split; [done|]. exists nd'.
  split; [|done]. cbn. by rewrite lookup_insert_ne.
Qed.

(** The rename into place: whichever of its halves survive, one of the two
    copies is reachable and good. *)
Lemma renamed_safe i j L framed d :
  sealing i j d → inodes d !! j = Some framed → file_ok framed L → acked `prefix_of` L →
  safe' (change (Move (framed_tmp sid) (final_path sid) j) d).
Proof.
  intros Hs Hj Hok Hp. pose proof Hs as []. split.
  - apply (inv_change ids sealed sid); [done..| |by intros D ?|by eexists|done].
    intros p. cbn. rewrite !elem_of_cons, elem_of_nil. unfold own. naive_solver.
  - intros Hne. destruct (sl_active0 Hne) as (Hf & nd & Hi & Hnd). intros ns Hsv.
    cbn in Hsv. apply survives_app in Hsv as (m & Hm & Hsv).
    pose proof (untouched_survives _ _ _ sl_final0 Hm) as Hfin.
    pose proof (proj1 (anchored_spec _ _ _) (fixed_anchored _ _ _ Hf) m Hm) as Hact.
    assert (ns !! active_path sid = Some i) as Hact'.
    { rewrite <- Hact. eapply survives_other; [|exact Hsv]. apply Forall_singleton. cbn.
      rewrite !elem_of_cons, elem_of_nil. intros [E|[E|[]]]; by apply (f_equal fst) in E. }
    destruct (ns !! final_path sid) as [x|] eqn:Ex; [|by exists i, nd; auto].
    exists j, framed. split_and!; [|done|].
    + left. f_equal. apply survives_one_inv in Hsv as [->|[->|(?&?&?&?&->)]]; simplify_eq.
      * cbn in Ex. rewrite lookup_insert_eq in Ex. congruence.
      * rewrite lookup_insert_eq in Ex. congruence.
    + by eapply file_ok_prefix.
Qed.

(** The temporary file is a new inode. *)
Lemma create_tmp i o L sy c d r d1 :
  wal_inv ids sealed d → opened sid i o L acked sy c d →
  exec d (OpCreate (framed_tmp sid)) r d1 →
  (r = None ∧ d1 = d)
  ∨ ∃ j, r = Some j ∧ inodes d1 !! j = Some (mkInode [] 0) ∧ live d1 !! framed_tmp sid = Some j
         ∧ sealing i j d1.
Proof.
  intros Hi Ho He. pose proof (untouched_live _ _ (inv_consistent _ _ _ Hi) (op_tmp _ _ _ _ _ _ _ _ Ho)) as Ht.
  inv_exec He; [by left|]. right. rename i0 into j. exists j. split; [done|].
  cbn [inodes live change set_inode apply_op]. rewrite !lookup_insert_eq. split; [done|]. split; [done|].
  assert (i ≠ j) as Hij by (intros ->; rewrite (op_inode _ _ _ _ _ _ _ _ Ho) in *; done).
  assert (only (own sid) j d) as Hon.
  { eapply only_mono; [|by apply Hi]. done. }
  split; [| | | |done].
  - apply (inv_change ids sealed sid); [done..| |by intros D|by cbn; rewrite lookup_insert_eq; eexists|].
    + intros p ->%list_elem_of_singleton. unfold own. auto.
    + by apply (inv_inode ids sealed sid).
  - apply untouched_change; [|apply Ho]. intros E%list_elem_of_singleton. by apply final_not_tmp in E.
  - apply only_change; [done|]. intros _. unfold own. auto.
  - intros Hne. pose proof (opened_file_ok _ _ _ _ _ _ _ _ Ho Hne). split.
    + apply fixed_frame; [|by apply Ho]. by intros E%list_elem_of_singleton.
    + eexists. split; [|done]. cbn. rewrite lookup_insert_ne by done. apply Ho.
Qed.

Lemma final_held j nd (S : list batch) d :
  fixed (final_path sid) j d → inodes d !! j = Some nd → file_ok nd S → held d sid S.
Proof.
  intros Hf Hj Hok ns Hs. exists j, nd. split; [|done]. left.
  by apply (proj1 (anchored_spec _ _ _) (fixed_anchored _ _ _ Hf)).
Qed.

(** The last steps: into place, durable, and the active copy dropped. *)
Lemma install_always {A} i j nd L (x : A) d :
  sealing i j d → inodes d !! j = Some nd → file_ok nd L → live d !! framed_tmp sid = Some j →
  acked `prefix_of` L →
  always safe' (λ r d', match r with Some y => y = x ∧ wal_inv ids (let_go sid L sealed) d' | None => True end)
    (let? _ := call (OpRename (framed_tmp sid) (final_path sid)) in
     let? _ := call (OpSyncDir SealedDir) in
     let! _ := call (OpRemove (active_path sid)) in
     Ret (Some x)) d.
Proof.
  intros Hs Hj Hok Hlt Hp. pose proof (sealing_safe _ _ _ Hs). always_op He.
  set (d1 := change (Move (framed_tmp sid) (final_path sid) j) d).
  assert (safe' d1) as [Hi1 Hh1] by (by eapply renamed_safe).
  always_op He. set (d2 := sync_dir SealedDir d1).
  assert (fixed (final_path sid) j d2) as Hf.
  { apply (sync_fixes (final_path sid)); [apply Hi1|]. cbn. by rewrite lookup_insert_eq. }
  assert (wal_inv ids sealed d2) as Hi2 by (by apply inv_sync).
  assert (∀ d3, fixed (final_path sid) j d3 → wal_inv ids sealed d3 → inodes d3 = inodes d →
    always safe' (λ r d', match r with Some y => y = x ∧ wal_inv ids (let_go sid L sealed) d' | None => True end)
      (Ret (Some x)) d3) as Hend.
  { intros d3 Hf3 Hi3 E. assert (∀ S, S `prefix_of` L → held d3 sid S) as Hh3.
    { intros S HS. eapply final_held; [exact Hf3|by rewrite E|by eapply file_ok_prefix]. }
    apply always_ret; [by split; auto|]. split; [done|]. apply safe_let_go; [done|]. split; auto. }
  always_op He; [|by apply Hend|].
  - split; [done|]. intros _. eapply final_held; [exact Hf|exact Hj|by eapply file_ok_prefix].
  - apply Hend; [|apply (inv_change ids sealed sid); try done|done].
    + apply fixed_frame; [|done]. by intros E%list_elem_of_singleton.
    + intros p ->%list_elem_of_singleton. by left.
Qed.

Lemma publish_sealed_always w a L d sy :
  id a = sid → wal_inv ids sealed d → acked `prefix_of` L → body_fits L →
  opened sid (ino a) (owner a) L acked sy (open_header (owner a) ++ ipc_body L ipc_eos) d →
  always safe'
    (λ r d', match r with
             | Some (Some _) => wal_inv ids (let_go sid L sealed) d'
             | Some None => False
             | None => True
             end)
    (publish_sealed (batch:=batch) w a) d.
Proof.
  intros Ea Hi Hp Hfit Ho. pose proof (opened_safe _ _ _ _ _ _ Hi Ho) as Hsafe.
  unfold publish_sealed. rewrite Ea. clear Ea. always_op He. pose proof (op_live _ _ _ _ _ _ _ _ Ho) as Hl.
  pose proof (op_inode _ _ _ _ _ _ _ _ Ho) as Hin. simplify_eq. cbn [data].
  rewrite open_header_range by apply Ho.
  destruct (if min_ts a <=? max_ts a then _ else _) as [mn mx].
  set (framed := sealed_file mn mx (owner a) (ipc_body L ipc_eos)).
  apply always_op; [done|]. intros r d1 He. destruct (create_tmp _ _ _ _ _ _ _ _ Hi Ho He) as [[-> ->]|(j & -> & Hj & Hlt & Hs)].
  { by apply always_ret. }
  always_op He2; [by apply (sealing_safe (ino a) j)|]. simplify_eq. cbn [data synced app] in *.
  pose proof (sealing_put (ino a) j (mkInode (take r framed) 0) d1 Hs) as Hs2.
  destruct (Nat.ltb_spec r (length framed)) as [|Hk].
  { apply always_ret; [|done]. by apply (sealing_safe (ino a) j). }
  rewrite take_ge in * by done.
  always_op He3; [by apply (sealing_safe (ino a) j)|apply always_ret; [by apply (sealing_safe (ino a) j)|done]|].
  cbn in Hx3. rewrite lookup_insert_eq in Hx3. simplify_eq. cbn [data].
  eapply always_mono; [done| |eapply (install_always (ino a) j (mkInode framed (length framed)) L)].
  - intros [y|] d3 _; [|done]. by intros [-> ?].
  - by apply sealing_put.
  - cbn. by rewrite lookup_insert_eq.
  - eapply sealed_file_ok; [apply Ho|done|done].
  - done.
  - done.
Qed.

(** ** Writes to the active file *)

Lemma writing_safe i o L L' sy c T d d' :
  wal_inv ids sealed d → opened sid i o L acked sy c d → L `prefix_of` L' →
  T `prefix_of` open_header o ++ ipc_body L' ipc_eos → writing i sy d c T d' → safe' d'.
Proof.
  intros Hi Ho HL HT (c' & Hc & Hc' & ->). eapply opened_safe; [by eapply opened_inode_inv|].
  eapply opened_put; [done..|]. by etransitivity.
Qed.

(** Complete the stream, then publish it. *)
Lemma seal_body_always w a L sy c d :
  id a = sid → wal_inv ids sealed d → acked `prefix_of` L → body_fits L →
  opened sid (ino a) (owner a) L acked sy c d → c ++ buf a = open_header (owner a) ++ ipc_body L [] →
  always safe'
    (seal_post ids sealed sid L acked w)
    (let! r := write_pieces (ino a) (buf a) (eos_pieces (batch:=batch)) in
     if negb r.2 then Ret (w, None) else
     let! r := flush_buf (ino a) r.1 in
     if negb r.2 then Ret (w, None) else
     let! s := call (OpSyncFile (ino a)) in
     match s with
     | None => Ret (w, None)
     | Some _ => let! r := publish_sealed (batch:=batch) w a in Ret (w, r)
     end) d.
Proof.
  intros Ea' Hi Hp Hfit Ho Hc. assert (unit → id a = sid) as Ea by done. clear Ea'.
  set (T := open_header (owner a) ++ ipc_body L ipc_eos).
  assert ((c ++ buf a) ++ concat (eos_pieces (batch:=batch)) = T) as HT.
  { rewrite Hc, eos_pieces_ok. unfold T. by rewrite (ipc_body_nil L ipc_eos), (assoc_L (++)). }
  assert (∀ d', writing (ino a) sy d c T d' → safe' d') as Hsafe.
  { intros d'. by eapply writing_safe. }
  assert (∀ d', safe' d' → always safe'
    (seal_post ids sealed sid L acked w)
    (Ret (w, None)) d') as Hfail.
  { intros d' Hs. apply always_ret; [done|]. split; [done|]. by apply safe_let_go. }
  rewrite <- (put_self (ino a) c sy d) by apply Ho. apply always_bind.
  eapply always_mono; [exact Hsafe| |apply write_pieces_always; [done|by rewrite HT]].
  rewrite HT. intros [b ok] d1 Hw (c1 & H1 & H2 & -> & E). cbn [fst snd] in *.
  destruct ok; cbn [negb]; [|by apply Hfail, Hsafe]. specialize (E eq_refl).
  apply always_bind.
  eapply always_mono; [exact Hsafe| |apply flush_buf_always; [exact H1|by rewrite E]].
  intros [b2 ok] d2 Hw2 (c2 & H3 & H4 & -> & E2 & Hb2). cbn [fst snd] in *.
  destruct ok; cbn [negb]; [|by apply Hfail, Hsafe].
  rewrite (Hb2 eq_refl), app_nil_r, E in E2. subst c2.
  assert (opened sid (ino a) (owner a) L acked sy T (put (ino a) T sy d)) as Ho2.
  { eapply opened_put; [exact Ho|done| |done]. exists (buf a ++ ipc_eos (batch:=batch)).
    unfold T. by rewrite (ipc_body_nil L ipc_eos), (assoc_L (++)), <- Hc, <- app_assoc. }
  assert (wal_inv ids sealed (put (ino a) T sy d)) as Hi2 by (by eapply opened_inode_inv).
  always_op He; [by apply Hsafe|by apply Hfail, Hsafe|].
  rewrite (op_inode _ _ _ _ _ _ _ _ Ho2) in *. simplify_eq. cbn [data].
  pose proof (opened_sync_file _ _ _ _ _ _ _ _ Ho2) as Ho3.
  apply always_bind. eapply (always_mono safe' safe'); [done| |eapply (publish_sealed_always w a L)].
  - intros [[seg|]|] d3 Hs3 H; [|done|by apply Hfail].
    apply always_ret; [done|]. done.
  - apply (Ea tt).
  - by eapply opened_inode_inv.
  - done.
  - done.
  - exact Ho3.
Qed.
End OneSegment.

Lemma acked_prefix ids sealed L acked d a : current_ok ids sealed L acked d a → acked `prefix_of` L.
Proof.
  intros Hc. destruct (co_open _ _ _ _ _ _ Hc) as (sy & c & Ho & _). destruct acked; [apply prefix_nil|].
  by apply Ho.
Qed.

Lemma current_safe ids sealed L acked d a :
  wal_inv ids sealed d → current_ok ids sealed L acked d a → safe ids sealed (id a) acked d.
Proof.
  intros Hi Hc. destruct (co_open _ _ _ _ _ _ Hc) as (sy & c & Ho & _). by eapply opened_safe.
Qed.

Lemma seal_always ids sealed L acked w a d :
  wal_inv ids sealed d → current w = Some a → current_ok ids sealed L acked d a → body_fits L →
  always (safe ids sealed (id a) acked)
    (seal_post ids sealed (id a) L acked (with_current w None))
    (seal (batch:=batch) w) d.
Proof.
  intros Hi Hw Hc Hfit. pose proof (current_safe _ _ _ _ _ _ Hi Hc) as Hs.
  pose proof (acked_prefix _ _ _ _ _ _ Hc) as Hp. pose proof Hc as [].
  unfold seal. rewrite Hw. destruct (Z.eqb_spec (rows a) 0) as [H0|H0].
  - assert (acked = []) as -> by (destruct acked; [done|]; by destruct co_acked0).
    assert (∀ r d', exec d (OpRemove (active_path (id a))) r d' → wal_inv ids sealed d') as Hrm.
    { intros r d' He. inv_exec He; [done|]. apply (inv_change ids sealed (id a)); try done.
      intros p ->%list_elem_of_singleton. by left. }
    apply always_op; [done|]. intros r d' He. apply Hrm in He. by apply always_ret.
  - destruct co_open0 as (sy & c & Ho & E). by eapply seal_body_always.
Qed.

(** ** Opening a segment *)

Definition new_id (w : WalWriter) (uuid : rstr) : rstr := ingester_id w ++ lit "-" ++ uuid.

Lemma body_prefix L t : open_header t ++ ipc_body L [] `prefix_of` open_header t ++ ipc_body L ipc_eos.
Proof. rewrite (ipc_body_nil L ipc_eos). apply prefix_app. by eexists. Qed.

Lemma create_active ids sealed sid o d r d1 :
  sid ∉ ids → wal_inv ids sealed d → uuid_ok o → exec d (OpCreate (active_path sid)) r d1 →
  wal_inv (sid :: ids) sealed d1
  ∧ ∀ i, r = Some i → opened sid i o ([] : list batch) [] 0 [] d1.
Proof.
  intros Hid Hi0 Ho He. assert (∀ S, (sid, S) ∉ sealed) as Hsl.
  { intros S Hin. by destruct (inv_held _ _ _ Hi0 _ _ Hin). }
  pose proof (inv_begin ids sealed sid d Hi0) as Hi.
  assert (∀ p, own sid p → untouched p d) as Hun by (intros p; by apply (inv_fresh _ _ _ Hi0)).
  pose proof (untouched_live _ _ (inv_consistent _ _ _ Hi) (Hun (active_path sid) ltac:(by left))) as Hl.
  inv_exec He; [done|]. assert (only (λ _, False) i d) as Hal by (by apply Hi0).
  split.
  - apply (inv_change (sid :: ids) sealed sid); [left|done| |by intros D|by cbn; rewrite lookup_insert_eq; eexists|].
    + intros p ->%list_elem_of_singleton. by left.
    + apply (inv_inode (sid :: ids) sealed sid); [left|done| |done]. by eapply only_mono; [|exact Hal].
  - intros j [= <-]. split; try done.
    + cbn. by rewrite lookup_insert_eq.
    + apply prefix_nil.
    + apply only_change; [by eapply only_mono; [|exact Hal]|done].
    + cbn. by rewrite lookup_insert_eq.
    + apply untouched_change; [|apply Hun; unfold own; auto]. by intros E%list_elem_of_singleton.
    + apply untouched_change; [|apply Hun; unfold own; auto]. by intros E%list_elem_of_singleton.
Qed.

Lemma start_segment_always ids sealed uuid w d :
  new_id w uuid ∉ ids → wal_inv ids sealed d → uuid_ok (table_uuid w) →
  always (wal_inv (new_id w uuid :: ids) sealed)
    (λ x d', match x.2 with
             | None => x.1 = w
             | Some _ => ∃ a, x.1 = with_current w (Some a) ∧ id a = new_id w uuid ∧ rows a = 0
                 ∧ current_ok (new_id w uuid :: ids) sealed [] [] d' a
             end)
    (start_segment (batch:=batch) uuid w) d.
Proof.
  intros Hid Hi0 Huu. unfold start_segment. set (sid := new_id w uuid) in *.
  assert (∀ S, (sid, S) ∉ sealed) as Hsl by (intros S Hin; by destruct (inv_held _ _ _ Hi0 _ _ Hin)).
  assert (sid ∈ sid :: ids) as Hin by left.
  apply always_op; [by apply inv_begin|]. intros r d1 He. change (_ ++ lit "-" ++ uuid) with sid in He.
  destruct (create_active ids sealed sid (table_uuid w) d r d1 Hid Hi0 Huu He) as [Hi1 Hop]. clear He.
  destruct r as [i|]; [|by apply always_ret]. specialize (Hop i eq_refl).
  change (build_wal_frame WAL_FRAME_FLAG_PARTIAL 0 0 (table_uuid w) [] 0)
    with (open_header (table_uuid w)).
  set (hdr := open_header (table_uuid w)) in *.
  always_op He. rewrite (op_inode _ _ _ _ _ _ _ _ Hop) in *. simplify_eq. cbn [data synced app].
  assert (∀ nd, wal_inv (sid :: ids) sealed (set_inode i nd d1)) as Hi2 by (intros; by eapply opened_inode_inv).
  destruct (Nat.ltb_spec r (length hdr)); [by apply always_ret|]. rewrite take_ge by done.
  set (T := hdr ++ ipc_body ([] : list batch) []).
  assert (T `prefix_of` hdr ++ ipc_body ([] : list batch) ipc_eos) as HT by apply body_prefix.
  assert ((hdr ++ []) ++ concat (schema_pieces (batch:=batch)) = T) as HT'.
  { rewrite app_nil_r, schema_pieces_ok. unfold T, ipc_body.
    cbn [fmap list_fmap concat app]. by rewrite app_nil_r. }
  apply always_bind. change (set_inode i (mkInode hdr 0) d1) with (put i hdr 0 d1).
  eapply always_mono; [| |apply (write_pieces_always i 0 d1 hdr T); [done|by rewrite HT']].
  { intros d' (c & _ & _ & ->). apply Hi2. }
  intros [b ok] d2 _ (c & H1 & H2 & -> & E). cbn [fst snd] in *.
  destruct ok; cbn [negb]; [|apply always_ret; [apply Hi2|done]]. specialize (E eq_refl).
  apply always_ret; [apply Hi2|]. eexists. split; [done|]. split; [done|]. split; [done|].
  split; cbn [id ino buf owner rows dir_synced]; try done. exists 0%nat, c. split; [|by rewrite E, HT'].
  eapply opened_put; [exact Hop|done|apply prefix_nil|]. by etransitivity.
Qed.

(** ** A segment an append failed in *)

(** Once the write of a batch failed with the segment left open, the file holds
    a torn message and nothing is known of its content.  What the writer goes
    on to do with it stays within the segment's own names and inodes, so every
    other segment is unharmed. *)
Section Tame.
Context (sid : rstr).

Definition own_op (hs : list N) {R} (op : Op R) : Prop :=
  match op with
  | OpAppend i _ | OpSyncFile i => i ∈ hs
  | OpSyncDir _ | OpRead _ => True
  | OpCreate p => p = framed_tmp sid
  | OpRename s t => s = framed_tmp sid ∧ t = final_path sid
  | OpRemove p => p = active_path sid
  | _ => False
  end.

Definition opens {R} (op : Op R) : R → list N :=
  match op with OpCreate _ => λ r, match r with Some i => [i] | None => [] end | _ => λ _, [] end.

(** A program of such calls, and what it answers. *)
Fixpoint tame {A} (hs : list N) (Q : A → Prop) (p : Prog A) : Prop :=
  match p with
  | Ret a => Q a
  | Step op k => own_op hs op ∧ ∀ r, tame (opens op r ++ hs) Q (k r)
  end.

Lemma own_op_more hs hs' {R} (op : Op R) : hs ⊆ hs' → own_op hs op → own_op hs' op.
Proof. destruct op; cbn; auto. Qed.

Lemma tame_more {A} hs hs' (Q Q' : A → Prop) p :
  hs ⊆ hs' → (∀ a, Q a → Q' a) → tame hs Q p → tame hs' Q' p.
Proof.
  intros Hs HQ. revert hs hs' Hs. induction p as [a|R op k IH]; cbn [tame]; [auto|]. intros hs hs' Hs [Ho Hk].
  split; [by eapply own_op_more|]. intros r. eapply IH, Hk. set_solver.
Qed.

Lemma tame_bind {A B} hs (Q : B → Prop) p (f : A → Prog B) :
  tame hs (λ a, tame hs Q (f a)) p → tame hs Q (prog_bind p f).
Proof.
  assert (∀ hs', hs ⊆ hs' → tame hs' (λ a, tame hs Q (f a)) p → tame hs' Q (prog_bind p f)) as H; [|by apply H].
  induction p as [a|R op k IH]; intros hs' Hs; cbn [tame prog_bind].
  - apply tame_more; auto.
  - intros [Ho Hk]. split; [done|]. intros r. apply IH; [set_solver|apply Hk].
Qed.

End Tame.

Section Torn.
Context (ids : list rstr) (sealed : list (rstr * list batch)) (sid : rstr).
Context (Hid : sid ∈ ids) (Hsealed : ∀ S, (sid, S) ∉ sealed).

(** The open files [hs] and the temporary file are the segment's alone. *)
Record claimed (hs : list N) d : Prop := mkClaimed {
  cl_inv : wal_inv ids sealed d;
  cl_open i : i ∈ hs → only (own sid) i d;
  cl_tmp i : live d !! framed_tmp sid = Some i → only (own sid) i d;
}.

Lemma claimed_put hs i nd d : only (own sid) i d → claimed hs d → claimed hs (set_inode i nd d).
Proof. intros Ho []. split; [by apply (inv_inode ids sealed sid)|done..]. Qed.

Lemma claimed_exec hs {R} (op : Op R) r d d' :
  own_op sid hs op → claimed hs d → exec d op r d' → claimed (opens op r ++ hs) d'.
Proof.
  intros Ho Hc He. pose proof Hc as [Hi Hop Ht]. destruct op; cbn [own_op] in Ho; try done; inv_exec He; cbn [opens app]; try done.
  - assert (only (own sid) i d) as Hj by (eapply only_mono; [|by apply Hi]; done).
    set (d1 := set_inode i (mkInode [] 0) d).
    assert (∀ j, only (own sid) j d → only (own sid) j (change (Link (framed_tmp sid) i) d1)) as Hk.
    { intros j Hd. apply only_change; [done|]. intros _. unfold own. auto. }
    split; [|intros j [->|Hin]%elem_of_cons; auto|].
    + apply (inv_change ids sealed sid); [done..| |by intros D|by cbn; rewrite lookup_insert_eq; eexists|by apply (inv_inode ids sealed sid)].
      intros p ->%list_elem_of_singleton. unfold own. auto.
    + intros j. cbn. rewrite lookup_insert_eq. intros [= <-]. auto.
  - destruct (claimed_put hs i (mkInode [] 0) d) as [Hi' Hop' Ht']; [by apply Ht|done|].
    split; [done| |done]. intros j [->|Hin]%elem_of_cons; auto.
  - apply claimed_put; auto.
  - apply claimed_put; auto.
  - split; [by apply inv_sync| |]; intros; apply only_sync; auto.
  - destruct Ho as [-> ->].
    assert (∀ j, only (own sid) j d → only (own sid) j (change (Move (framed_tmp sid) (final_path sid) i) d)) as Hk.
    { intros j Hd. apply only_change; [done|]. intros _. unfold own. auto. }
    split; [|auto|].
    + apply (inv_change ids sealed sid); [done..| |by intros D ?| |done].
      * intros p. cbn. rewrite !elem_of_cons, elem_of_nil. unfold own. naive_solver.
      * destruct (inodes d !! i) eqn:E; [by eexists|]. exfalso.
        by eapply (only_live (λ _, False)); [apply Hi|by apply (inv_alloc _ _ _ Hi)|].
    + intros j. cbn. rewrite lookup_insert_ne by (intros E; by apply final_not_tmp in E). by rewrite lookup_delete_eq.
  - assert (∀ j, only (own sid) j d → only (own sid) j (change (Unlink (active_path sid)) d)) as Hk.
    { intros j Hd. by apply only_change. }
    split; [|auto|].
    + apply (inv_change ids sealed sid); try done. intros p ->%list_elem_of_singleton. by left.
    + intros j. cbn. rewrite lookup_delete_ne by done. auto.
Qed.

Lemma tame_always {A} hs (Q : A → Prop) p d :
  claimed hs d → tame sid hs Q p → always (wal_inv ids sealed) (λ a d', Q a ∧ claimed hs d') p d.
Proof.
  assert (∀ hs', hs ⊆ hs' → claimed hs' d → tame sid hs' Q p → always (wal_inv ids sealed) (λ a d', Q a ∧ claimed hs d') p d) as H;
    [|by apply H].
  revert d. induction p as [a|R op k IH]; intros d hs' Hs Hc; cbn [tame always].
  - destruct Hc. intros. split_and!; try done. split; auto.
  - intros [Ho Hk]. split; [apply Hc|]. intros r d' He. eapply IH; [|by eapply claimed_exec|apply Hk]. set_solver.
Qed.
End Torn.

Ltac tame_call := cbn [call prog_bind tame opens app own_op]; split.

(** The writer's operations on such a segment. *)
Section TornCalls.
Context (a : ActiveSegment).
Local Abbreviation tame_a := (tame (id a) [ino a]).

Lemma tame_flush b : tame_a (λ _, True) (flush_buf (ino a) b).
Proof. destruct b; [done|]. by tame_call; [left|]. Qed.

Lemma tame_buf_write b piece : tame_a (λ _, True) (buf_write_all (ino a) b piece).
Proof.
  unfold buf_write_all. destruct (_ <? _); [done|]. apply tame_bind.
  eapply (tame_more _ [ino a] _ (λ _, True)); [done| |destruct (_ <? _); [apply tame_flush|done]].
  intros r _. destruct (negb _); [done|]. destruct (_ <=? _); [|done]. by tame_call; [left|].
Qed.

Lemma tame_pieces b pieces : tame_a (λ _, True) (write_pieces (ino a) b pieces).
Proof.
  revert b. induction pieces as [|piece pieces IH]; intros b; [done|]. cbn [write_pieces]. apply tame_bind.
  eapply tame_more; [done| |apply tame_buf_write]. intros r _. by destruct (r.2).
Qed.

Lemma tame_publish w : tame_a (λ _, True) (publish_sealed (batch:=batch) w a).
Proof.
  unfold publish_sealed. tame_call; [done|]. intros [raw|]; [|done]. destruct (get_range _ _ _) as [body|]; [|done].
  destruct (if _ <=? _ then _ else _) as [mn mx]. tame_call; [done|]. intros [j|]; [|done]. tame_call; [by left|].
  intros k. destruct (_ <? _)%nat; [done|]. tame_call; [by left|]. intros [u|]; [|done]. tame_call; [done|].
  intros [u'|]; [|done]. tame_call; [done|]. intros [u''|]; [|done]. by tame_call.
Qed.

Lemma tame_seal w : current w = Some a → tame_a (λ x, x.1 = with_current w None) (seal (batch:=batch) w).
Proof.
  intros Hw. unfold seal. rewrite Hw. destruct (_ =? _); [done|]. apply tame_bind.
  eapply tame_more; [done| |apply tame_pieces]. intros r _. destruct (negb _); [done|]. apply tame_bind.
  eapply tame_more; [done| |apply tame_flush]. intros r' _. destruct (negb _); [done|]. tame_call; [by left|].
  intros [s|]; [|done]. apply tame_bind.
  by eapply tame_more; [done| |apply tame_publish].
Qed.

End TornCalls.

(** The segment is still the open one, or no segment is. *)
Definition still (a : ActiveSegment) (w : WalWriter) : Prop :=
  uuid_ok (table_uuid w) ∧
  match current w with Some a' => id a' = id a ∧ ino a' = ino a | None => True end.

Section Still.
Context (a : ActiveSegment) (w : WalWriter) (Hu : uuid_ok (table_uuid w)).
Local Abbreviation tame_w p := (tame (id a) [ino a] (λ x, still a x.1) p).

Lemma tame_append aged b : tame_w (append_current aged b w a).
Proof.
  unfold append_current. apply tame_bind. eapply tame_more; [done| |apply tame_pieces]. intros r _.
  destruct (negb _); [done|]. destruct (match batch_ts_min_max b with Some _ => _ | None => _ end) as [mn mx].
  cbn [ino buf with_buf]. apply tame_bind. eapply tame_more; [done| |apply tame_flush]. intros r' _. destruct (negb _); [done|].
  destruct (_ || _); [|done]. set (a' := with_buf _ _).
  eapply (tame_more _ [ino a']); [done| |by apply (tame_seal a')].
  by intros x ->.
Qed.

Context (Hw : current w = Some a).

Lemma still_self : still a w.
Proof. split; [done|]. by rewrite Hw. Qed.

Lemma tame_closed : tame_w (seal (batch:=batch) w).
Proof. eapply tame_more; [done| |by apply tame_seal]. by intros x ->. Qed.

Lemma tame_sync : tame_w (sync_active w).
Proof.
  unfold sync_active. rewrite Hw. destruct (_ =? _); [apply still_self|]. apply tame_bind.
  eapply tame_more; [done| |apply tame_flush]. intros r _. destruct (negb _); [done|]. cbn [ino with_buf].
  tame_call; [by left|]. intros [u|]; [|done]. destruct (dir_synced _); [done|]. tame_call; [done|]. by intros [u'|].
Qed.

Lemma tame_mirror : tame_w (flush_active_for_mirror w).
Proof.
  unfold flush_active_for_mirror. rewrite Hw. destruct (_ =? _); [apply still_self|]. apply tame_bind.
  eapply tame_more; [done| |apply tame_flush]. intros r _. destruct (negb _); [done|].
  tame_call; [done|]. by intros [u|].
Qed.

Lemma tame_tick aged : tame_w (tick (batch:=batch) aged w).
Proof. unfold tick. rewrite Hw. destruct (_ && _); [apply tame_closed|apply still_self]. Qed.

Lemma tame_bind_uuid u : uuid_ok u → tame_w (bind_table_uuid (batch:=batch) u w).
Proof.
  intros Hu'. unfold bind_table_uuid. case_bool_decide; [apply still_self|]. apply tame_bind.
  eapply tame_more; [done| |apply tame_closed]. intros x [? ?]. by destruct (x.2).
Qed.
End Still.

Lemma opened_claimed ids sealed sid i o L acked sy c d :
  wal_inv ids sealed d → opened sid i o L acked sy c d → claimed ids sealed sid [i] d.
Proof.
  intros Hi Ho. split; [done|..].
  - intros j ->%list_elem_of_singleton. eapply only_mono; [|apply Ho]. intros p <-. by left.
  - intros j. by rewrite (untouched_live _ _ (inv_consistent _ _ _ Hi) (op_tmp _ _ _ _ _ _ _ _ Ho)).
Qed.

(** ** Appending *)

(** How an append ends.  After an error with the segment still open only what
    [claimed] says is known of it. *)
Definition append_post (ids : list rstr) sealed (sid : rstr) L acked (b : batch) w
    (x : WalWriter * option (option WalSegment)) d : Prop :=
  ingester_id x.1 = ingester_id w ∧ table_uuid x.1 = table_uuid w ∧
  match current x.1 with
  | Some a => id a = sid ∧
      (x.2 = None ∧ claimed ids sealed sid [ino a] d
       ∨ x.2 = Some None ∧ wal_inv ids sealed d ∧ current_ok ids sealed (L ++ [b]) acked d a)
  | None => wal_inv ids (let_go sid (match x.2 with Some (Some _) => L ++ [b] | _ => acked end) sealed) d
  end.

Lemma append_current_always ids sealed L acked aged b w a d :
  wal_inv ids sealed d → current_ok ids sealed L acked d a → body_fits (L ++ [b]) →
  always (safe ids sealed (id a) acked) (append_post ids sealed (id a) L acked b w)
    (append_current aged b w a) d.
Proof.
  intros Hi Hc Hfit. pose proof Hc as []. destruct co_open0 as (sy & c & Ho & E).
  set (hdr := open_header (owner a)) in *. set (T := hdr ++ ipc_body (L ++ [b]) []).
  assert (T `prefix_of` hdr ++ ipc_body (L ++ [b]) ipc_eos) as HT by apply body_prefix.
  assert ((c ++ buf a) ++ concat (batch_pieces b) = T) as HT'.
  { rewrite E, batch_pieces_ok. unfold T. rewrite ipc_body_app, (ipc_body_nil L (_ ++ _)).
    cbn [fmap list_fmap concat]. by rewrite !app_nil_r, (assoc_L (++)). }
  assert (∀ d', writing (ino a) sy d c T d' → safe ids sealed (id a) acked d') as Hsafe.
  { intros d'. eapply writing_safe; [done..|by eexists|done]. }
  unfold append_current. rewrite <- (put_self (ino a) c sy d) by apply Ho. apply always_bind.
  eapply always_mono; [exact Hsafe| |apply write_pieces_always; [done|by rewrite HT']].
  rewrite HT'. intros [b1 ok] d1 Hw1 (c1 & H1 & H2 & -> & E1). cbn [fst snd] in *.
  assert (∀ c', c `prefix_of` c' → c' `prefix_of` T → claimed ids sealed (id a) [ino a] (put (ino a) c' sy d)) as Hcl.
  { intros c' ??. eapply (opened_claimed _ _ _ _ _ (L ++ [b])); [by eapply opened_inode_inv|].
    eapply opened_put; [exact Ho|by eexists|done|by etransitivity]. }
  destruct ok; cbn [negb]; [|apply always_ret; [by apply Hsafe|by do 3 (split; [done|]); left; auto]]. specialize (E1 eq_refl).
  destruct (match batch_ts_min_max b with Some _ => _ | None => _ end) as [mn mx].
  cbn [ino buf with_buf]. apply always_bind.
  eapply always_mono; [exact Hsafe| |apply flush_buf_always; [exact H1|by rewrite E1]].
  intros [b2 ok] d2 Hw2 (c2 & H3 & H4 & -> & E2 & Hb2). cbn [fst snd] in *. rewrite E1 in E2.
  destruct ok; cbn [negb]; [|apply always_ret; [by apply Hsafe|by do 3 (split; [done|]); left; auto]].
  set (a' := with_buf _ b2). set (w' := with_current w (Some a')).
  assert (wal_inv ids sealed (put (ino a) c2 sy d)) as Hi2 by (by eapply opened_inode_inv).
  assert (current_ok ids sealed (L ++ [b]) acked (put (ino a) c2 sy d) a') as Hc'.
  { split; cbn [id ino buf owner rows dir_synced with_buf a']; try done.
    - exists sy, c2. split; [|done]. eapply opened_put; [exact Ho|by eexists|done|by etransitivity].
    - pose proof (num_rows_nonneg b). lia.
    - intros Hne. specialize (co_acked0 Hne). pose proof (num_rows_nonneg b). lia. }
  destruct (_ || aged).
  - eapply (always_mono (safe ids sealed (id a') acked)); [done| |by eapply (seal_always ids sealed (L ++ [b]) acked w' a')].
    intros [x1 x2] d' _ [Ex Hx]. cbn [fst] in Ex. subst x1. by split_and!.
  - apply always_ret; [by apply Hsafe|]. by do 3 (split; [done|]); right.
Qed.

(** ** The explicit sync *)

Definition sync_post (ids : list rstr) sealed L acked w (x : WalWriter * option bool) d : Prop :=
  ingester_id x.1 = ingester_id w ∧ table_uuid x.1 = table_uuid w ∧ wal_inv ids sealed d ∧
  ∃ a, current x.1 = Some a
    ∧ current_ok ids sealed L (match x.2 with Some true => L | _ => acked end) d a.

(** Once the directory is synced too, everything appended is acknowledged. *)
Lemma sync_acked ids sealed L acked w a a' d d' :
  current_ok ids sealed L acked d a → rows a ≠ 0 → wal_inv ids sealed d' →
  let T := open_header (owner a) ++ ipc_body L [] in
  opened (id a) (ino a) (owner a) L acked (length T) T d' → fixed (active_path (id a)) (ino a) d' →
  id a' = id a → ino a' = ino a → owner a' = owner a → rows a' = rows a → buf a' = [] →
  sync_post ids sealed L acked w (with_current w (Some a'), Some true) d'.
Proof.
  intros [] Hrows Hi T Ho Hf Ei En Eo Er Eb. split_and!; try done. exists a'. split; [done|].
  split; rewrite ?Ei, ?En, ?Eo, ?Er, ?Eb; try done. exists (length T), T. split; [by eapply opened_ack|by rewrite app_nil_r].
Qed.

Lemma sync_active_always ids sealed L acked w a d :
  wal_inv ids sealed d → current w = Some a → current_ok ids sealed L acked d a →
  always (safe ids sealed (id a) acked) (sync_post ids sealed L acked w) (sync_active w) d.
Proof.
  intros Hi Hw Hc. pose proof (current_safe _ _ _ _ _ _ Hi Hc) as Hs. pose proof Hc as [].
  unfold sync_active. rewrite Hw. destruct (Z.eqb_spec (rows a) 0) as [H0|H0].
  { apply always_ret; [done|]. split_and!; try done. by exists a. }
  destruct co_open0 as (sy & c & Ho & E). set (T := open_header (owner a) ++ ipc_body L []) in *.
  assert (∀ d', writing (ino a) sy d c T d' → safe ids sealed (id a) acked d') as Hsafe.
  { intros d'. eapply writing_safe; [done..|apply body_prefix]. }
  rewrite <- (put_self (ino a) c sy d) by apply Ho. apply always_bind.
  eapply always_mono; [exact Hsafe| |apply flush_buf_always; [done|by rewrite E]].
  intros [b1 ok] d1 Hw1 (c1 & H1 & H2 & -> & E1 & Hb1). cbn [fst snd] in *. rewrite E in E1.
  assert (wal_inv ids sealed (put (ino a) c1 sy d)) as Hi1 by (by eapply opened_inode_inv).
  assert (opened (id a) (ino a) (owner a) L acked sy c1 (put (ino a) c1 sy d)) as Ho1.
  { eapply opened_put; [exact Ho|done..|]. etransitivity; [exact H2|apply body_prefix]. }
  assert (∀ r, r ≠ Some true →
    sync_post ids sealed L acked w (with_current w (Some (with_buf a b1)), r) (put (ino a) c1 sy d)) as Hsame.
  { intros r Hr. split_and!; try done. exists (with_buf a b1). split; [done|].
    assert (match r with Some true => L | _ => acked end = acked) as Er by (by destruct r as [[]|]).
    cbn [snd]. rewrite Er. split; try done. by exists sy, c1. }
  destruct ok; cbn [negb]; [|apply always_ret; [by apply Hsafe|by apply Hsame]].
  rewrite (Hb1 eq_refl), app_nil_r in E1. subst c1.
  cbn [ino with_buf id dir_synced]. always_op He; [by apply Hsafe|apply always_ret; [by apply Hsafe|by apply Hsame]|].
  rewrite (op_inode _ _ _ _ _ _ _ _ Ho1) in *. simplify_eq. cbn [data].
  pose proof (opened_sync_file _ _ _ _ _ _ _ _ Ho1) as Ho2.
  set (T := open_header (owner a) ++ ipc_body L []) in *.
  set (d2 := put (ino a) T (length T) (put (ino a) T sy d)) in *.
  change (set_inode (ino a) (mkInode T (length T)) (put (ino a) T sy d)) with d2.
  assert (wal_inv ids sealed d2) as Hi2 by (by eapply opened_inode_inv).
  pose proof (opened_safe _ _ _ _ _ _ _ _ _ _ Hi2 Ho2) as Hs2.
  destruct (dir_synced a) eqn:Ed.
  { apply always_ret; [done|]. apply (sync_acked ids sealed L acked w a _ d); try done; [by apply co_dir0|by apply Hb1]. }
  always_op He.
  - apply always_ret; [done|]. split_and!; try done. exists (with_buf a b1). split; [done|].
    split; cbn [id ino buf owner rows dir_synced with_buf]; try done; [|by rewrite Ed].
    eexists _, _. split; [exact Ho2|]. by rewrite (Hb1 eq_refl), app_nil_r.
  - pose proof (inv_sync ids sealed ActiveDir _ Hi2) as Hi3.
    pose proof (opened_sync_dir _ _ _ _ _ _ _ ActiveDir _ Ho2) as Ho3.
    apply always_ret; [by eapply opened_safe|]. apply (sync_acked ids sealed L acked w a _ d); try done; [|by apply Hb1].
    apply (sync_fixes (active_path (id a))); [apply Hi2|apply Ho2].
Qed.

Lemma flush_active_always ids sealed L acked w a d :
  wal_inv ids sealed d → current w = Some a → current_ok ids sealed L acked d a →
  always (safe ids sealed (id a) acked)
    (λ x d', table_uuid x.1 = table_uuid w ∧ wal_inv ids sealed d'
       ∧ ∃ a', current x.1 = Some a' ∧ current_ok ids sealed L acked d' a')
    (flush_active_for_mirror w) d.
Proof.
  intros Hi Hw Hc. pose proof (current_safe _ _ _ _ _ _ Hi Hc) as Hs. pose proof Hc as [].
  unfold flush_active_for_mirror. rewrite Hw. destruct (Z.eqb_spec (rows a) 0) as [H0|H0].
  { apply always_ret; [done|]. eauto. }
  destruct co_open0 as (sy & c & Ho & E). set (T := open_header (owner a) ++ ipc_body L []) in *.
  assert (∀ d', writing (ino a) sy d c T d' → safe ids sealed (id a) acked d') as Hsafe.
  { intros d'. eapply writing_safe; [done..|apply body_prefix]. }
  rewrite <- (put_self (ino a) c sy d) by apply Ho. apply always_bind.
  eapply always_mono; [exact Hsafe| |apply flush_buf_always; [done|by rewrite E]].
  intros [b1 ok] d1 Hw1 (c1 & H1 & H2 & -> & E1 & Hb1). cbn [fst snd] in *. rewrite E in E1.
  set (w' := with_current w (Some (with_buf a b1))). set (d' := put (ino a) c1 sy d).
  assert (table_uuid w' = table_uuid w ∧ wal_inv ids sealed d'
       ∧ ∃ a', current w' = Some a' ∧ current_ok ids sealed L acked d' a') as Hpost.
  { split; [done|]. split; [by eapply opened_inode_inv|]. exists (with_buf a b1). split; [done|]. split; try done.
    exists sy, c1. split; [|done]. eapply opened_put; [exact Ho|done..|]. etransitivity; [exact H2|apply body_prefix]. }
  pose proof (Hsafe _ Hw1). destruct ok; cbn [negb]; [|by apply always_ret].
  always_op He.
Qed.

(** * Runs of calls *)

Inductive Call :=
  | CallAppend (uuid : rstr) (aged : bool) (b : batch)
  | CallSync
  | CallFlush
  | CallTick (aged : bool)
  | CallSeal
  | CallBind (uuid : option Uuid).

Definition answer {A B} (f : A → B) (p : Prog (WalWriter * A)) : Prog (WalWriter * B) :=
  let! x := p in Ret (x.1, f x.2).

Definition do_call (c : Call) (w : WalWriter) : Prog (WalWriter * Reply) :=
  match c with
  | CallAppend uuid aged b => answer inl (append_batch uuid aged b w)
  | CallSync => answer inr (sync_active w)
  | CallFlush => answer (λ r, inr ((λ _, false) <$> r)) (flush_active_for_mirror w)
  | CallTick aged => answer inl (tick (batch:=batch) aged w)
  | CallSeal => answer inl (seal (batch:=batch) w)
  | CallBind uuid => answer inl (bind_table_uuid (batch:=batch) uuid w)
  end.

(** What a run of calls owes: the batches of the open segment ([None]: an append
    failed in it and left it open), those of them acknowledged, and the batches
    acknowledged in the segments that were closed. *)
Record Ledger := mkLedger {
  led_open : option (list batch); led_acked : list batch; led_closed : list batch;
}.

Definition close_ledger (S : list batch) (g : Ledger) : Ledger := mkLedger (Some []) [] (S ++ led_closed g).

(** What a call adds: a [sync_active] that answered [true] acknowledges the
    whole open segment, a returned segment all its batches. *)
Definition after (c : Call) (x : WalWriter * Reply) (g : Ledger) : Ledger :=
  match led_open g with
  | None => if current x.1 then g else close_ledger [] g
  | Some L =>
      match c, x.2 with
      | CallAppend _ _ b, inl (Some (Some _)) => close_ledger (L ++ [b]) g
      | CallAppend _ _ b, inl r =>
          if current x.1 then
            match r with
            | Some _ => mkLedger (Some (L ++ [b])) (led_acked g) (led_closed g)
            | None => mkLedger None [] (led_closed g)
            end
          else close_ledger (led_acked g) g
      | CallSync, inr (Some true) => mkLedger (Some L) L (led_closed g)
      | _, inl (Some (Some _)) => close_ledger L g
      | _, _ => if current x.1 then g else close_ledger (led_acked g) g
      end
  end.

(** The UUIDs of new segments are new, and no segment outgrows a [Vec]. *)
Definition admissible (ids : list rstr) (g : Ledger) (w : WalWriter) (c : Call) : Prop :=
  (∀ L, led_open g = Some L → body_fits L) ∧
  match c with
  | CallAppend uuid _ b => (∀ L, led_open g = Some L → body_fits (L ++ [b])) ∧ (current w = None → new_id w uuid ∉ ids)
  | CallBind uuid => uuid_ok uuid
  | _ => True
  end.

Definition begun (ids : list rstr) (w : WalWriter) (c : Call) : list rstr :=
  match c, current w with CallAppend uuid _ _, None => new_id w uuid :: ids | _, _ => ids end.

Definition released sealed (b : batch) : Prop := ∃ sid S, (sid, S) ∈ sealed ∧ b ∈ S.

Definition state_ok (ids : list rstr) sealed (g : Ledger) w d : Prop :=
  uuid_ok (table_uuid w) ∧ wal_inv ids sealed d ∧ (∀ b, b ∈ led_closed g → released sealed b) ∧
  match current w, led_open g with
  | Some a, Some L => current_ok ids sealed L (led_acked g) d a
  | Some a, None => id a ∈ ids ∧ (∀ S, (id a, S) ∉ sealed) ∧ claimed ids sealed (id a) [ino a] d ∧ led_acked g = []
  | None, o => o = Some [] ∧ led_acked g = []
  end.

Definition kept_safe (g : Ledger) d : Prop :=
  ∀ b, b ∈ led_acked g ∨ b ∈ led_closed g → ∃ sid S, b ∈ S ∧ held d sid S.

Definition call_post (ids : list rstr) (g : Ledger) (c : Call) (x : WalWriter * Reply) d : Prop :=
  ∃ sealed, state_ok ids sealed (after c x g) x.1 d.

Lemma safe_kept ids sealed sid g d :
  (∀ b, b ∈ led_closed g → released sealed b) → safe ids sealed sid (led_acked g) d → kept_safe g d.
Proof.
  intros Hg [Hi Hh] b [Hb|(s & S & Hin & Hb)%Hg].
  - exists sid, (led_acked g). split; [done|]. apply Hh. by intros E; rewrite E in Hb; apply elem_of_nil in Hb.
  - exists s, S. split; [done|]. by apply (inv_held _ _ _ Hi).
Qed.

Lemma inv_kept ids sealed g d :
  (∀ b, b ∈ led_closed g → released sealed b) → led_acked g = [] → wal_inv ids sealed d → kept_safe g d.
Proof. intros Hg Ha Hi. apply (safe_kept ids sealed []); [done|]. by rewrite Ha. Qed.

Lemma released_let_go sealed sid (S : list batch) b : b ∈ S ∨ released sealed b → released (let_go sid S sealed) b.
Proof.
  intros [H|(s & S' & H1 & H2)].
  - exists sid, S. split; [|done]. destruct S; [by apply elem_of_nil in H|left].
  - exists s, S'. split; [|done]. destruct S; [done|by right].
Qed.

(** A segment closed owing [S]. *)
Lemma closed_ok ids sealed sid S g w d :
  uuid_ok (table_uuid w) → current w = None → (∀ b, b ∈ led_closed g → released sealed b) →
  wal_inv ids (let_go sid S sealed) d → state_ok ids (let_go sid S sealed) (close_ledger S g) w d.
Proof.
  intros Hu Hw Hg Hi. unfold state_ok. rewrite Hw. split_and!; try done. cbn [led_closed close_ledger].
  intros b [Hb|Hb]%elem_of_app; apply released_let_go; auto.
Qed.

Lemma state_kept ids sealed g w d : state_ok ids sealed g w d → kept_safe g d.
Proof.
  intros (_ & Hi & Hg & Hc). destruct (current w) as [a|]; [destruct (led_open g)|].
  - by eapply safe_kept, current_safe.
  - destruct Hc as (_ & _ & _ & Ha). by eapply inv_kept.
  - destruct Hc as [_ Ha]. by eapply inv_kept.
Qed.

Lemma answer_always {A B} I (Q : WalWriter * B → Disk → Prop) (f : A → B) p d :
  always I (λ x d', I d' → Q (x.1, f x.2) d') p d → always I Q (answer f p) d.
Proof.
  intros H. apply always_bind. eapply always_mono; [done| |exact H]. cbn. intros x d' Hd HQ.
  apply always_ret; auto.
Qed.

(** ** The open segment is sound *)

Lemma append_open ids sealed L uuid aged b g w a d :
  wal_inv ids sealed d → uuid_ok (table_uuid w) → (∀ b, b ∈ led_closed g → released sealed b) →
  led_open g = Some L → current_ok ids sealed L (led_acked g) d a → body_fits (L ++ [b]) →
  always (kept_safe g) (λ x d', call_post ids g (CallAppend uuid aged b) (x.1, inl x.2) d') (append_current aged b w a) d.
Proof.
  intros Hi Hu Hg Hl Hc Hfit. eapply always_mono; [| |by apply append_current_always].
  { intros d'. by apply safe_kept. }
  intros [w' r] d' _ (_ & Hu' & Hx). cbn [fst snd] in *. rewrite <- Hu' in Hu. unfold call_post, after.
  rewrite Hl. cbn [fst snd]. destruct (current w') as [a'|] eqn:Ew.
  - exists sealed. unfold state_ok. cbn [fst]. rewrite Ew.
    destruct Hx as [Ei [[-> Hcl]|(-> & Hi' & Hc')]]; cbn [led_open led_acked led_closed]; [|done].
    rewrite Ei. by split_and!; [done|apply Hcl|done|apply Hc|apply Hc|done|done].
  - destruct r as [[seg|]|]; eexists; by apply closed_ok.
Qed.

(** A seal, whoever asked for it. *)
Lemma seal_call ids sealed L g c w a d :
  state_ok ids sealed g w d → current w = Some a → led_open g = Some L → body_fits L →
  (∀ u aged b, c ≠ CallAppend u aged b) → c ≠ CallSync →
  always (kept_safe g)
    (λ x d', x.1 = with_current w None ∧ ∀ u, uuid_ok u →
       call_post ids g c (mkWriter (ingester_id w) (max_events w) None (mirror_subdir w) u, inl x.2) d')
    (seal (batch:=batch) w) d.
Proof.
  intros (_ & Hi & Hg & Hc) Hw Hl Hfit Hc1 Hc2. rewrite Hw, Hl in Hc.
  eapply always_mono; [| |by eapply seal_always]; [intros d'; by apply safe_kept|].
  intros [x1 r] d' _ [-> Hx]. split; [done|]. intros u Hu. cbn [fst snd] in *. unfold call_post, after. rewrite Hl.
  cbn [fst snd current]. destruct c; try done; [by destruct (Hc1 uuid aged b)|..]; destruct r as [[seg|]|]; eexists; by apply closed_ok.
Qed.

(** A call that answers and leaves the segment as it is. *)
Lemma idle_post ids sealed g c r w d :
  state_ok ids sealed g w d → (∀ u aged b, c ≠ CallAppend u aged b) →
  (∀ s, r ≠ inl (Some (Some s))) → r ≠ inr (Some true) → call_post ids g c (w, r) d.
Proof.
  intros Hs Hc Hr1 Hr2. exists sealed.
  assert (after c (w, r) g = (if current w then g else close_ledger (led_acked g) g)
          ∨ current w = None ∧ after c (w, r) g = close_ledger [] g) as HE.
  { unfold after. cbn [fst snd]. destruct (led_open g) as [L|]; [|destruct (current w); auto].
    left. destruct c; [by destruct (Hc uuid aged b)|..]; destruct r as [[[s|]|]|[[]|]]; try done; by destruct (Hr1 s). }
  pose proof Hs as (? & ? & ? & Hw). cbn [fst]. destruct (current w) eqn:Ew.
  - destruct HE as [->|[? _]]; [done|done].
  - destruct Hw as [Ho Ha]. rewrite Ha in HE. assert (after c (w, r) g = close_ledger [] g) as -> by (by destruct HE as [?|[_ ?]]).
    unfold state_ok. by rewrite Ew.
Qed.

(** ** Any call *)

Lemma torn_call ids sealed c g w a d :
  state_ok ids sealed g w d → led_open g = None → current w = Some a → admissible ids g w c →
  always (kept_safe g) (call_post ids g c) (do_call c w) d.
Proof.
  intros (Hu & Hi & Hg & Hc) Hl Hw [_ Ha]. rewrite Hw, Hl in Hc. destruct Hc as (Hid & Hsl & Hcl & Hn).
  assert (tame (id a) [ino a] (λ x, still a x.1) (do_call c w)) as Ht.
  { destruct c; apply tame_bind; (eapply tame_more; [done| |]);
      [|unfold append_batch; rewrite Hw; by apply tame_append| |by apply tame_sync| |by apply tame_mirror
      | |by apply tame_tick| |by apply tame_closed| |by apply tame_bind_uuid]; done. }
  eapply always_mono; [| |by eapply tame_always]; [intros d'; by apply inv_kept|].
  intros x d' _ [[Hu' Hx] Hcl']. exists sealed. unfold after, state_ok. rewrite Hl.
  destruct (current x.1) as [a'|]; [|by split_and!; [|apply Hcl'|..]].
  destruct Hx as [Ei En]. rewrite Hl, Ei, En. split_and!; try done. apply Hcl'.
Qed.

Lemma append_call ids sealed uuid aged b g w d :
  let c := CallAppend uuid aged b in
  state_ok ids sealed g w d → (current w ≠ None → led_open g ≠ None) → admissible ids g w c →
  always (kept_safe g) (call_post (begun ids w c) g c) (do_call c w) d.
Proof.
  intros c (Hu & Hi & Hg & Hc) Ho (_ & Hf & Hid). apply answer_always. unfold append_batch, begun, c.
  destruct (current w) as [a|] eqn:Ew.
  { destruct (led_open g) as [L|] eqn:El; [|by destruct Ho].
    eapply always_mono; [done| |by eapply append_open with (uuid := uuid); eauto]. auto. }
  destruct Hc as [El Ea]. specialize (Hid eq_refl). apply always_bind.
  eapply always_mono; [| |by apply start_segment_always]; [intros d'; by apply inv_kept|].
  intros [w1 [u|]] d1 Hi1 Hx; cbn [fst snd] in *.
  - destruct Hx as (a & -> & _ & _ & Hc). cbn [current with_current].
    eapply always_mono; [done| |eapply append_open with (uuid := uuid) (L := []); try done; [by rewrite Ea|by apply Hf]]. auto.
  - subst w1. apply always_ret; [by eapply inv_kept|]. intros _. exists sealed. unfold state_ok, after.
    cbn [fst snd]. rewrite El, Ew, Ea. by split_and!.
Qed.

Section SoundCalls.
Context (ids : list rstr) (sealed : list (rstr * list batch)) (L : list batch) (g : Ledger) (w : WalWriter) (a : ActiveSegment) (d : Disk).
Context (Hs : state_ok ids sealed g w d) (Hw : current w = Some a) (Hl : led_open g = Some L).

Lemma sound_open : wal_inv ids sealed d ∧ current_ok ids sealed L (led_acked g) d a ∧ ∀ b, b ∈ led_closed g → released sealed b.
Proof. destruct Hs as (_ & Hi & Hg & Hc). rewrite Hw, Hl in Hc. done. Qed.

Lemma sync_call : always (kept_safe g) (call_post ids g CallSync) (do_call CallSync w) d.
Proof.
  destruct sound_open as (Hi & Hc & Hg). apply answer_always.
  eapply always_mono; [| |by eapply sync_active_always]; [intros d'; by apply safe_kept|].
  intros [w' r] d' _ (_ & Hu & Hi' & a' & Ew & Hc') _. cbn [fst snd] in *.
  exists sealed. unfold state_ok, after. cbn [fst snd]. rewrite Hl, Hu, Ew.
  destruct r as [[]|]; cbn [led_open led_acked led_closed]; rewrite ?Hl; by split_and!; [apply Hs|..].
Qed.

Lemma mirror_call : always (kept_safe g) (call_post ids g CallFlush) (do_call CallFlush w) d.
Proof.
  destruct sound_open as (Hi & Hc & Hg). apply answer_always.
  eapply always_mono; [| |by eapply flush_active_always]; [intros d'; by apply safe_kept|].
  intros [w' r] d' _ (Hu & Hi' & a' & Ew & Hc') _. cbn [fst snd] in *. apply (idle_post ids sealed); [|done|done|by destruct r].
  unfold state_ok. rewrite Hu, Ew, Hl. by split_and!; [apply Hs|..].
Qed.

Context (Hf : body_fits L).

Lemma seal_answer : always (kept_safe g) (call_post ids g CallSeal) (do_call CallSeal w) d.
Proof.
  apply answer_always. eapply always_mono; [done| |by eapply (seal_call _ _ _ _ CallSeal)].
  intros [w' r] d' _ [-> Hp] _. apply Hp, Hs.
Qed.

Lemma tick_call aged : always (kept_safe g) (call_post ids g (CallTick aged)) (do_call (CallTick aged) w) d.
Proof.
  apply answer_always. unfold tick. rewrite Hw. destruct (_ && _).
  - eapply always_mono; [done| |by eapply (seal_call _ _ _ _ (CallTick aged))].
    intros [w' r] d' _ [-> Hp] _. apply Hp, Hs.
  - apply always_ret; [by eapply state_kept|]. intros _. by eapply idle_post.
Qed.
End SoundCalls.

Lemma bind_call ids sealed u g w d :
  state_ok ids sealed g w d → (current w ≠ None → ∃ L, led_open g = Some L ∧ body_fits L) → uuid_ok u →
  always (kept_safe g) (call_post ids g (CallBind u)) (do_call (CallBind u) w) d.
Proof.
  intros Hs Hf Hu. pose proof (state_kept _ _ _ _ _ Hs) as Hk. apply answer_always. unfold bind_table_uuid.
  case_bool_decide; [by apply always_ret; [|intros _; eapply idle_post]|].
  apply always_bind. destruct (current w) as [a|] eqn:Ew.
  - destruct Hf as (L & Hl & Hf); [done|]. eapply always_mono; [done| |by eapply (seal_call _ _ _ _ (CallBind u))].
    intros [w' r] d' Hk' [-> Hp]. cbn [fst snd]. destruct r as [seg|]; (apply always_ret; [done|]); intros _; apply Hp; [done|apply Hs].
  - unfold seal. rewrite Ew. apply always_ret; [done|]. cbn [fst snd]. apply always_ret; [done|]. intros _.
    apply (idle_post ids sealed); try done. destruct Hs as (_ & ? & ? & Hs). unfold state_ok. cbn [table_uuid current]. rewrite Ew in Hs |- *. done.
Qed.

Lemma call_always ids sealed c g w d :
  state_ok ids sealed g w d → admissible ids g w c →
  always (kept_safe g) (call_post (begun ids w c) g c) (do_call c w) d.
Proof.
  intros Hs Ha. destruct (current w) as [a|] eqn:Ew; [destruct (led_open g) as [L|] eqn:El|].
  2: { assert (begun ids w c = ids) as -> by (unfold begun; rewrite Ew; by destruct c). by eapply torn_call. }
  - destruct c as [uuid aged b| | |aged| |u]; [by eapply append_call; rewrite ?El|..]; cbn [begun];
      destruct Ha as [Hf Ha]; specialize (Hf _ El).
    + by eapply sync_call.
    + by eapply mirror_call.
    + by eapply tick_call.
    + by eapply seal_answer.
    + eapply bind_call; eauto.
  - destruct c as [uuid aged b| | |aged| |u]; [by eapply append_call; rewrite ?Ew|..]; cbn [begun].
    5: { eapply bind_call; [done|by rewrite Ew|apply Ha]. }
    all: apply answer_always; unfold sync_active, flush_active_for_mirror, tick, seal; rewrite Ew;
      apply always_ret; [by eapply state_kept|]; intros _; by eapply idle_post.
Qed.
End Ops.
