(* ===== verification/WalCrash.v ===== *)
(** The life of a WAL directory across power losses: every run of calls on a
    writer, and the recovery pass ([recover_orphaned_partials]) of the writer
    that opens the directory next. *)

From stdpp Require Import prelude gmap strings.
From Stdlib Require Import ZArith Lia.
From S2P Require Import Prelude RustStr WalFrame WalDisk WalLifecycle WalWriter WalDurable WalSurvive.

Section Runs.
Context {batch : Type} `{!ArrowIpc batch, !ArrowIpcLaws batch, !WalBatch batch, !WalBatchLaws batch}.
Implicit Types (L S P : list batch) (d : Disk) (w : WalWriter).

Definition empty_disk : Disk := mkDisk ∅ ∅ ∅ [].

(** What a writer that began with an empty directory has done: the disk, the
    segments begun, the writer, and what it owes. *)
Inductive trace : Disk → list rstr → WalWriter → Ledger → Prop :=
  | trace_new w : current w = None → uuid_ok (table_uuid w) → trace empty_disk [] w (mkLedger (Some []) [] [])
  | trace_call d ids w g c x d' :
      trace d ids w g → admissible ids g w c → rtc step (d, do_call c w) (d', Ret x) →
      trace d' (begun ids w c) x.1 (after c x g).

(** On the disk a power loss left, segment [sid] reads back [S] at least. *)
Definition recoverable (d : Disk) (sid : rstr) S : Prop :=
  ∃ i nd l,
    (live d !! final_path sid = Some i
     ∨ live d !! final_path sid = None ∧ live d !! active_path sid = Some i)
    ∧ inodes d !! i = Some nd ∧ WAL_FRAME_HEADER_LEN < len (data nd)
    ∧ read_segment None (data nd) = inr l ∧ S `prefix_of` l.

Lemma held_recoverable d d' sid S : held d sid S → crash d d' → recoverable d' sid S.
Proof.
  intros Hh Hc. destruct Hc as [d ns cut Hs]. destruct (Hh ns Hs) as (i & nd & Hn & Hi & Hok).
  destruct (Hok (Nat.max (synced nd) (cut i))) as (Hl & l & Hr & Hp); [lia|].
  eexists i, _, l. split; [exact Hn|]. split; [cbn; rewrite map_lookup_imap, Hi; reflexivity|done].
Qed.

Lemma empty_inv : wal_inv [] [] empty_disk.
Proof.
  split; try done.
  - intros id acked Hin. by apply elem_of_nil in Hin.
Qed.

Lemma trace_state d ids w g : trace d ids w g → ∃ sealed, state_ok ids sealed g w d.
Proof.
  induction 1 as [w Hw Hu|d ids w g c x d' _ (sealed & Hs) Ha Hr].
  - exists []. unfold state_ok. rewrite Hw. split_and!; [done|apply empty_inv| |done|done].
    intros b Hb. by apply elem_of_nil in Hb.
  - pose proof (always_run _ _ _ _ _ _ Hr (call_always _ _ _ _ _ _ Hs Ha)) as [_ Hpost]. exact Hpost.
Qed.

(** C1. Acknowledged batches survive.  A writer begins with an empty WAL
    directory and takes any sequence of calls (append, sync, flush for the
    mirror, tick, seal, bind), any file-system call of which may fail; the power
    goes at any point of the next one.  Every batch acknowledged so far, by a
    [sync_active] that answered [true] or by a call that returned the sealed
    segment, is in a segment file that is named, complete and readable, unless
    an append returned an error and left the batch's own segment open
    ([after] strikes that segment's batches out; [torn_append_poisons] shows
    that they can be lost).  Such a failure harms no other segment. *)
Theorem wal_acked_rows_survive d ids w g c d1 p d2 b :
  trace d ids w g → admissible ids g w c →
  rtc step (d, do_call c w) (d1, p) → crash d1 d2 → b ∈ led_acked g ∨ b ∈ led_closed g →
  ∃ sid S, b ∈ S ∧ recoverable d2 sid S.
Proof.
  intros Ht Ha Hr Hc Hb. destruct (trace_state _ _ _ _ Ht) as (sealed & Hs).
  pose proof (always_run _ _ _ _ _ _ Hr (call_always _ _ _ _ _ _ Hs Ha)) as Hal.
  destruct (always_here _ _ _ _ Hal b Hb) as (sid & S & Hin & Hh).
  exists sid, S. split; [done|]. by eapply held_recoverable.
Qed.
End Runs.

(** * Recovery *)

Section Recovery.
Context {batch : Type} `{!ArrowIpc batch}.
Context (owner : rstr) (idle : rstr → bool) (sid : rstr) (S : list batch) (i : N) (nd : Inode).
Context (Hok : file_ok nd S) (Hsy : synced nd = length (data nd)).
Implicit Types d : Disk.

(** Named as sealed: durably, or with the rename still pending. *)
Definition renamed d : Prop :=
  live d !! final_path sid = Some i ∧ live d !! active_path sid = None
  ∧ ∀ ns, survives (pending d) (durable d) ns →
      ns !! final_path sid = Some i ∨ ns !! final_path sid = None ∧ ns !! active_path sid = Some i.

(** Where the segment is after [n] renames; [fin] when its name was passed. *)
Record recovering (fin : bool) (n : nat) d : Prop := mkRecovering {
  rc_consistent : consistent d;
  rc_inode : inodes d !! i = Some nd;
  rc_where : fixed (final_path sid) i d ∨ (renamed d ∧ (0 < n)%nat)
             ∨ (fin = false ∧ untouched (final_path sid) d ∧ fixed (active_path sid) i d);
}.

Lemma recovering_held fin n d : recovering fin n d → held d sid S.
Proof.
  intros [_ Hi [Hf|[[(_ & _ & Hr) _]|(_ & Hu & Ha)]]] ns Hs; exists i, nd; (split; [|done]).
  - left. by apply (proj1 (anchored_spec _ _ _) (fixed_anchored _ _ _ Hf)).
  - by apply Hr.
  - right. split; [by eapply untouched_survives|].
    by apply (proj1 (anchored_spec _ _ _) (fixed_anchored _ _ _ Ha)).
Qed.

Lemma recovering_weaken fin n n' d : (n ≤ n')%nat → recovering fin n d → recovering fin n' d.
Proof. intros Hn [? ? Hw]. split; [done..|]. destruct Hw as [?|[[? ?]|?]]; auto with lia. Qed.

(** A change of other names. *)
Lemma recovering_change fin n op d :
  active_path sid ∉ touches op → final_path sid ∉ touches op →
  recovering fin n d → recovering fin n (change op d).
Proof.
  intros Ha Hf [Hc Hi Hw]. split; [by apply consistent_change|done|].
  destruct Hw as [Hw|[[(Hl & Hl' & Hr) Hn]|(? & Hu & Hw)]].
  - left. by apply fixed_frame.
  - right; left. split; [|done]. unfold renamed. cbn [live change]. rewrite !apply_op_other by done. split; [done|]. split; [done|].
    intros ns Hs. apply survives_app in Hs as (m & Hm & Hs).
    rewrite !(survives_other _ [op] m ns) by (done || by apply Forall_singleton). by apply Hr.
  - right; right. split; [done|]. split; [by apply untouched_change|by apply fixed_frame].
Qed.

Lemma recovering_rename n d :
  recovering false n d → untouched (final_path sid) d → fixed (active_path sid) i d →
  recovering true (Datatypes.S n) (change (Move (active_path sid) (final_path sid) i) d).
Proof.
  intros [Hc Hi _] Hu Ha. split; [by apply consistent_change|done|]. right; left. split; [|lia].
  split; [cbn; by rewrite lookup_insert_eq|].
  split; [cbn; by rewrite lookup_insert_ne, lookup_delete_eq|].
  intros ns Hs. apply survives_app in Hs as (m & Hm & Hs).
  pose proof (untouched_survives _ _ _ Hu Hm) as Hfin.
  pose proof (proj1 (anchored_spec _ _ _) (fixed_anchored _ _ _ Ha) m Hm) as Hact.
  apply survives_one_inv in Hs as [->|[->|(?&?&?&?&->)]]; simplify_eq; [by right|left..];
    cbn; by rewrite lookup_insert_eq.
Qed.

(** The fsyncs at the end of the pass: first where the names now are. *)
Lemma recovering_landed fin n d : recovering fin n d → recovering fin 0 (sync_dir SealedDir d).
Proof.
  intros [Hc Hi Hw]. split; [by apply consistent_sync|done|].
  destruct Hw as [Hw|[[(Hl & _ & Hr) Hn]|(? & Hu & Hw)]].
  - left. by apply fixed_sync.
  - left. by apply (sync_fixes (final_path sid)).
  - right; right. split; [done|]. split; [by apply untouched_sync|by apply fixed_sync].
Qed.

Lemma recovering_sync fin D d : recovering fin 0 d → recovering fin 0 (sync_dir D d).
Proof.
  intros [Hc Hi Hw]. split; [by apply consistent_sync|done|].
  destruct Hw as [Hw|[[_ ?]|(? & Hu & Hw)]]; [left; by apply fixed_sync|lia|].
  right; right. split; [done|]. split; [by apply untouched_sync|by apply fixed_sync].
Qed.

(** One partial of the pass. *)
Definition passed (name : rstr) : bool :=
  bool_decide (name = (active_path sid).2) && is_prefix_of (owner ++ lit "-") sid.

Definition partial_post (fin : bool) (r : option nat) d : Prop :=
  match r with Some n => recovering fin n d | None => True end.

Lemma remove_other fin n p d :
  active_path sid ≠ p → final_path sid ≠ p → recovering fin n d →
  always (λ d', held d' sid S) (partial_post fin) (let! _ := call (OpRemove p) in Ret (Some n)) d.
Proof.
  intros Ha Hf Hr. pose proof (recovering_held _ _ _ Hr). always_op He.
  assert (recovering fin n (change (Unlink p) d)) as Hr'.
  { apply recovering_change; [by intros ?%list_elem_of_singleton..|done]. }
  apply always_ret; [by eapply recovering_held|done].
Qed.

Lemma recover_foreign fin n stem file d :
  stem ≠ sid → recovering fin n d →
  always (λ d', held d' sid S) (partial_post fin) (recover_read (owner ++ lit "-") idle n stem file) d.
Proof.
  intros Hne Hr. pose proof (recovering_held _ _ _ Hr). unfold recover_read.
  assert (active_path sid ≠ active_path stem ∧ final_path sid ≠ final_path stem) as [Ha Hf].
  { split; intros E; injection E as E; apply Hne; symmetry; by simplify_list_eq. }
  destruct (_ && _); [by apply always_ret|]. destruct (_ || _); [by apply remove_other|].
  always_op He. case_bool_decide; [by apply remove_other|]. always_op He.
  assert (recovering fin n (change (Move (active_path stem) (final_path stem) i0) d)) as Hr'.
  { apply recovering_change; [cbn; rewrite !elem_of_cons, elem_of_nil; naive_solver..|done]. }
  apply always_ret; [by eapply recovering_held|]. eapply recovering_weaken; [|done]. lia.
Qed.

(** Its own partial, still the only copy. *)
Lemma recover_own n d :
  recovering false n d → untouched (final_path sid) d → fixed (active_path sid) i d →
  always (λ d', held d' sid S) (partial_post (is_prefix_of (owner ++ lit "-") sid))
    (recover_read (owner ++ lit "-") idle n sid (data nd)) d.
Proof.
  intros Hr Hu Ha. pose proof (recovering_held _ _ _ Hr). pose proof (rc_consistent _ _ _ Hr) as Hc.
  destruct (Hok (length (data nd))) as [Hl _]; [lia|]. rewrite take_ge in Hl by done.
  unfold recover_read. destruct (is_prefix_of _ _) eqn:Ep; cbn [negb andb];
    [|destruct (idle sid); cbn [negb]; [|by apply always_ret]].
  all: unfold WAL_FRAME_HEADER_LEN in *; rewrite (proj2 (Z.eqb_neq _ _)), (proj2 (Z.leb_gt _ _)) by lia;
    cbn [andb orb]; always_op He; rewrite bool_decide_false by (by rewrite (untouched_live _ _ Hc Hu); intros []).
  all: assert (live d !! active_path sid = Some i) as Hla
    by (apply Ha || (rewrite <- Hc; by rewrite replay_other; apply Ha)).
  all: always_op He; simplify_eq; pose proof (recovering_rename n d Hr Hu Ha) as Hr';
    apply always_ret; [by eapply recovering_held|]; try done.
  destruct Hr' as [? ? [?|[?|[? _]]]]; [..|done]; split; auto.
Qed.

Lemma fixed_live p j d : consistent d → fixed p j d → live d !! p = Some j.
Proof. intros Hc [Hd Hp]. rewrite <- Hc. by rewrite replay_other. Qed.

(** Its own partial, with the sealed file in place. *)
Lemma recover_fixed fin n file d :
  consistent d → inodes d !! i = Some nd → fixed (final_path sid) i d →
  always (λ d', held d' sid S) (partial_post fin) (recover_read (owner ++ lit "-") idle n sid file) d.
Proof.
  intros Hc Hi Hf.
  assert (∀ d', consistent d' → inodes d' !! i = Some nd → fixed (final_path sid) i d' → recovering fin n d') as Hrec.
  { intros d' ? ? ?. split; auto. }
  assert (always (λ d', held d' sid S) (partial_post fin)
            (let! _ := call (OpRemove (active_path sid)) in Ret (Some n)) d) as Hrm.
  { pose proof (recovering_held _ _ _ (Hrec d Hc Hi Hf)). always_op He; [by apply always_ret; [|apply Hrec]|].
    assert (recovering fin n (change (Unlink (active_path sid)) d)) as Hr.
    { apply Hrec; [by apply consistent_change|done|]. apply fixed_frame; [|done]. by intros ?%list_elem_of_singleton. }
    apply always_ret; [by eapply recovering_held|done]. }
  pose proof (recovering_held _ _ _ (Hrec d Hc Hi Hf)). unfold recover_read.
  destruct (_ && _); [by apply always_ret; [|apply Hrec]|]. destruct (_ || _); [done|].
  always_op He. rewrite bool_decide_true; [done|]. by rewrite (fixed_live _ _ _ Hc Hf).
Qed.

Lemma recover_partial_always fin n name d :
  recovering fin n d →
  always (λ d', held d' sid S) (partial_post (fin || passed name))
    (recover_partial (owner ++ lit "-") idle n name) d.
Proof.
  intros Hr. pose proof (recovering_held _ _ _ Hr) as Hh. unfold recover_partial.
  destruct (strip_suffix name DOT_PARTIAL) as [stem|] eqn:Es; last first.
  { apply always_ret; [done|]. unfold passed. rewrite bool_decide_false; [by rewrite andb_false_l, orb_false_r|].
    intros E. cbn in E. apply (proj2 (strip_suffix_Some _ _ _)) in E. congruence. }
  apply strip_suffix_Some in Es as ->. always_op He.
  change (ActiveDir, stem ++ DOT_PARTIAL) with (active_path stem) in *.
  destruct (decide (stem = sid)) as [->|Hne].
  - assert (passed (sid ++ DOT_PARTIAL) = is_prefix_of (owner ++ lit "-") sid) as ->.
    { unfold passed. by rewrite bool_decide_true. }
    destruct Hr as [Hc Hi [Hf|[[(_ & Hla & _) _]|(-> & Hu & Ha)]]].
    + by apply recover_fixed.
    + congruence.
    + rewrite (fixed_live _ _ _ Hc Ha) in *. simplify_eq. apply recover_own; try done. split; auto.
  - assert (passed (stem ++ DOT_PARTIAL) = false) as ->.
    { unfold passed. rewrite bool_decide_false; [done|]. intros E. cbn in E. by simplify_list_eq. }
    rewrite orb_false_r. by apply recover_foreign.
Qed.

Lemma recover_all_always names fin n d :
  recovering fin n d →
  always (λ d', held d' sid S) (partial_post (fin || existsb passed names))
    (prog_each (recover_partial (owner ++ lit "-") idle) names n) d.
Proof.
  revert fin n d. induction names as [|name names IH]; intros fin n d Hr; cbn [prog_each existsb].
  - apply always_ret; [by eapply recovering_held|]. by rewrite orb_false_r.
  - apply always_bind. eapply (always_mono (λ d', held d' sid S)); [done| |by apply recover_partial_always].
    cbn beta. intros [n'|] d' Hh Hp; [|by apply always_ret]. rewrite orb_assoc. by apply IH.
Qed.

(** The whole pass. *)
Lemma recover_pass_always d :
  recovering false 0 d →
  always (λ d', held d' sid S)
    (λ r d', is_Some r → is_prefix_of (owner ++ lit "-") sid = true → recovering true 0 d')
    (recover_orphaned_partials owner idle) d.
Proof.
  intros Hr. pose proof (recovering_held _ _ _ Hr) as Hh. unfold recover_orphaned_partials.
  assert (∀ (r : option nat) d', r = None → is_Some r → is_prefix_of (owner ++ lit "-") sid = true →
            recovering true 0 d') as Hnone by (by intros ? ? -> []).
  do 2 always_op He.
  assert (∀ n, n ∈ names ↔ is_Some (live d !! (ActiveDir, n))) as Hnames by done.
  assert (∃ fin, recovering fin 0 d ∧ (is_prefix_of (owner ++ lit "-") sid = true → fin || existsb passed names = true))
    as (fin & Hr' & Hfin).
  { pose proof Hr as [Hc Hi [Hf|[[_ ?]|(_ & Hu & Ha)]]]; [|lia|].
    - exists true. split; [split; auto|done].
    - exists false. split; [done|]. intros Ho. apply existsb_exists. exists (active_path sid).2.
      split; [|unfold passed; by rewrite bool_decide_true, Ho]. apply list_elem_of_In, Hnames.
      exists i. by apply (fixed_live (active_path sid) _ _ Hc Ha). }
  apply always_bind. eapply (always_mono (λ d', held d' sid S)); [done| |by apply (recover_all_always names fin)].
  intros [n|] d1 Hh1 Hr1; [|apply always_ret; [done|by apply Hnone]]. cbn [partial_post] in Hr1.
  assert (∀ d', recovering (fin || existsb passed names) 0 d' →
    always (λ d', held d' sid S)
      (λ r d', is_Some r → is_prefix_of (owner ++ lit "-") sid = true → recovering true 0 d')
      (Ret (Some n)) d') as Hend.
  { intros d' Hd. apply always_ret; [by eapply recovering_held|]. intros _ Ho. by rewrite <- (Hfin Ho). }
  destruct (Nat.ltb_spec 0 n) as [Hn|Hn].
  - clear He. always_op He. pose proof (recovering_held _ _ _ (recovering_landed _ _ _ Hr1)). always_op He.
    apply Hend, recovering_sync. by eapply recovering_landed.
  - apply Hend. by replace n with 0%nat in Hr1 by lia.
Qed.
End Recovery.

Section Pass.
Context {batch : Type} `{!ArrowIpc batch}.

(** C2. Recovery keeps what it finds, under power losses of its own.  On a disk
    a power loss left, with segment [sid] readable under its sealed or its
    active name, the recovery pass may itself be cut at any point, any of its
    calls failing: what the second power loss leaves still holds the segment.
    A pass that returns has it durably under its sealed name when the partial
    was the writer's own. *)
Theorem recovery_power_loss owner idle d d1 sid (S : list batch) d2 p d3 :
  crash d d1 → recoverable d1 sid S →
  rtc step (d1, recover_orphaned_partials owner idle) (d2, p) → crash d2 d3 →
  recoverable d3 sid S
  ∧ ∀ n, p = Ret (Some n) → is_prefix_of (owner ++ lit "-") sid = true →
      ∃ j, live d2 !! final_path sid = Some j ∧ live d3 !! final_path sid = Some j.
Proof.
  intros Hc (i & nd & l & Hn & Hi & Hlen & Hrd & Hp) Hr Hc3.
  assert (synced nd = length (data nd) ∧ settled d1) as [Hsy Hset].
  { destruct Hc as [d ns cut Hs]. split; [|done]. cbn in Hi. rewrite map_lookup_imap in Hi.
    destruct (inodes d !! i) as [x|]; cbn in Hi; [|done]. unfold torn in Hi. by injection Hi as <-. }
  assert (file_ok nd S) as Hok.
  { intros k Hk. rewrite take_ge by lia. eauto. }
  assert (recovering sid i nd false 0 d1) as Hrec.
  { split; [by apply settled_consistent|done|]. destruct Hn as [Hf|[Hf Ha]].
    - left. by apply settled_fixed.
    - right; right. split; [done|]. split; [|by apply settled_fixed]. destruct Hset as [Hpe Hd]. split; [by rewrite Hd|by rewrite Hpe]. }
  pose proof (always_run _ _ _ _ _ _ Hr (recover_pass_always owner idle sid S i nd Hok Hsy d1 Hrec)) as Hal.
  split; [eapply held_recoverable; [exact (always_here _ _ _ _ Hal)|done]|].
  intros n -> Ho. destruct Hal as [_ Hpost]. destruct (Hpost ltac:(by eexists) Ho) as [Hcc _ [Hf|[[_ ?]|[? _]]]]; [|lia|done].
  exists i. split; [by apply fixed_live|]. destruct Hc3 as [d2 ns cut Hs].
  by apply (proj1 (anchored_spec _ _ _) (fixed_anchored _ _ _ Hf)).
Qed.
End Pass.

(** * A concrete life *)

#[local] Existing Instance sample_arrow.
#[local] Existing Instance sample_arrow_laws.

#[local] Instance sample_batch : WalBatch bool := {|
  schema_pieces := [ipc_schema (batch:=bool)];
  batch_pieces b := [ipc_batch b];
  eos_pieces := [ipc_eos (batch:=bool)];
  num_rows _ := 1;
  batch_nanos _ := None;
|}.

#[local] Instance sample_batch_laws : WalBatchLaws bool.
Proof. split; try done; intros; cbn [concat batch_pieces sample_batch schema_pieces eos_pieces]; by rewrite ?app_nil_r. Qed.

Definition sample_writer : WalWriter := mkWriter (lit "pod-a") 100 None None (Some sample_uuid).
Definition sample_id : rstr := lit "pod-a-018f".

Definition sample_file (b : bool) : bytes := open_header (Some sample_uuid) ++ ipc_body [b] [].

(** One batch appended and synced. *)
Definition synced_disk : Disk :=
  mkDisk {[ 0%N := mkInode (sample_file true) (length (sample_file true)) ]}
    {[ active_path sample_id := 0%N ]} {[ active_path sample_id := 0%N ]} [].

(** The run a script describes, evaluated by the kernel's machine. *)
Ltac run_script script :=
  apply (runs_step _ script); match goal with |- _ = ?v => vm_cast_no_check (eq_refl v) end.

Lemma sample_trace :
  ∃ w, let g := mkLedger (Some [true]) [true] [] in trace synced_disk [sample_id] w g ∧ admissible [sample_id] g w CallSeal.
Proof.
  set (d0 := mkDisk {[ 0%N := mkInode (sample_file true) 0 ]}
    {[ active_path sample_id := 0%N ]} ∅ [Link (active_path sample_id) 0%N]).
  set (w1 := with_current sample_writer (Some (mkActive sample_id 0%N [] 1 I64_MAX I64_MIN (Some sample_uuid) false))).
  assert (trace d0 [sample_id] w1 (mkLedger (Some [true]) [] [])) as H1.
  { apply (trace_call empty_disk [] sample_writer (mkLedger (Some []) [] []) (CallAppend (lit "018f") false true)
             (w1, inl (Some None)) d0).
    - by apply (trace_new sample_writer).
    - split; [by intros L [= <-]|]. split; [by intros L [= <-]|]. intros _ E. by apply elem_of_nil in E.
    - run_script (@nil (bool * nat)). }
  set (w2 := with_current sample_writer (Some (mkActive sample_id 0%N [] 1 I64_MAX I64_MIN (Some sample_uuid) true))).
  exists w2. split; [|by split; [intros L [= <-]|]].
  apply (trace_call d0 [sample_id] w1 (mkLedger (Some [true]) [] []) CallSync (w2, inr (Some true)) synced_disk);
    [done|by split; [intros L [= <-]|]|].
  run_script (@nil (bool * nat)).
Qed.

Lemma wal_acked_rows_survive_witness :
  ∃ d2 sid (S : list bool), crash synced_disk d2 ∧ true ∈ S ∧ recoverable d2 sid S.
Proof.
  destruct sample_trace as (w & Ht & Ha).
  assert (crash synced_disk (mkDisk (map_imap (torn (λ _, 0%nat)) (inodes synced_disk))
            (durable synced_disk) (durable synced_disk) [])) as Hc by (apply crash_intro, sv_nil).
  destruct (wal_acked_rows_survive _ _ _ _ CallSeal _ _ _ true Ht Ha (rtc_refl _ _) Hc) as (sid & S & HS & Hr);
    [by left; left|]. by eexists _, sid, S.
Defined.

(** A power loss with nothing to lose. *)
Lemma quiet_crash d :
  settled d → map_imap (torn (λ _, 0%nat)) (inodes d) = inodes d → crash d d.
Proof.
  intros [Hp Hd] E. assert (d = mkDisk (map_imap (torn (λ _, 0%nat)) (inodes d)) (durable d) (durable d) []) as Ed.
  { rewrite E. destruct d; cbn in *. by subst. }
  rewrite Ed at 2. apply crash_intro. rewrite Hp. apply sv_nil.
Qed.

Lemma recovery_power_loss_witness :
  ∃ d2 d3, crash d2 d3 ∧ recoverable d3 sample_id [true] ∧ live d3 !! final_path sample_id = Some 0%N.
Proof.
  assert (crash synced_disk synced_disk) as Hc by (by apply quiet_crash).
  assert (recoverable synced_disk sample_id [true]) as Hr.
  { eexists 0%N, _, [true]. split; [right; by split|]. split; [reflexivity|].
    split; [reflexivity|]. split; [vm_compute; reflexivity|done]. }
  set (d2 := mkDisk (inodes synced_disk) {[ final_path sample_id := 0%N ]} {[ final_path sample_id := 0%N ]} []).
  assert (rtc step (synced_disk, recover_orphaned_partials (lit "pod-a") (λ _, false)) (d2, Ret (Some 1%nat))) as Hrun.
  { apply (runs_step _ []). vm_compute. reflexivity. }
  assert (crash d2 d2) as Hc2 by (by apply quiet_crash).
  destruct (recovery_power_loss (lit "pod-a") (λ _, false) synced_disk synced_disk sample_id [true] d2 _ d2
              Hc Hr Hrun Hc2) as [Hrec Hfin].
  exists d2, d2. split_and!; try done.
Defined.

(** * A write that fails in the middle of a batch *)

(** Batches of which one does not fit the writer's buffer. *)
Definition big_message (b : bool) : bytes * bytes :=
  if b then (sample_message [1] [], [1]) else (sample_message [3] [], replicate 8192 0).

Fixpoint big_decode (fuel : nat) (bs : bytes) : list bool :=
  match fuel, bs with
  | S fuel, _ :: _ :: _ :: _ :: _ :: _ :: _ :: _ :: 1 :: 1 :: rest => true :: big_decode fuel rest
  | S fuel, _ :: _ :: _ :: _ :: _ :: _ :: _ :: _ :: 3 :: rest => false :: big_decode fuel (drop 8192 rest)
  | _, _ => []
  end.

Definition big_arrow : ArrowIpc bool := {|
  root_as_message meta :=
    match meta with [1] => Some 1 | [2] => Some 0 | [3] => Some 8192 | _ => None end;
  decode_ipc_stream bs := Some (big_decode (length bs) (drop 9 bs));
  ipc_schema := sample_message [2] [];
  ipc_batch b := (big_message b).1 ++ (big_message b).2;
  ipc_eos := IPC_CONTINUATION_MARKER ++ to_le 4 0;
  zstd_encode bs := 0x28 :: bs;
  zstd_decode bs := match bs with [] => None | _ :: raw => Some raw end;
|}.

Definition big_batch : @WalBatch bool big_arrow := {|
  schema_pieces := [sample_message [2] []];
  batch_pieces b := [(big_message b).1; (big_message b).2];
  eos_pieces := [IPC_CONTINUATION_MARKER ++ to_le 4 0];
  num_rows _ := 1;
  batch_nanos _ := None;
|}.

Definition torn_state (r : option (Disk * (WalWriter * Reply))) : Disk * WalWriter :=
  match r with Some (d, (w, _)) => (d, w) | None => (empty_disk, sample_writer) end.

Abbreviation big_call := (@do_call bool big_arrow big_batch).
Definition first_append : Prog (WalWriter * Reply) := big_call (CallAppend (lit "018f") false true) sample_writer.
Definition torn_1 := Eval vm_compute in torn_state (runs first_append [] empty_disk).
Definition torn_append : Prog (WalWriter * Reply) := big_call (CallAppend (lit "0190") false false) torn_1.2.
Definition torn_script : list (bool * nat) := [(true, 0%nat); (false, 5%nat)].
Definition torn_2 := Eval vm_compute in torn_state (runs torn_append torn_script torn_1.1).
Definition torn_seal : Prog (WalWriter * Reply) := big_call CallSeal torn_2.2.
Definition torn_3 := Eval vm_compute in torn_state (runs torn_seal [] torn_2.1).

(** A write that fails in the middle of a batch poisons the segment.  A
    batch is appended; the write of the next, larger than the writer's buffer,
    fails after some of its bytes; the append reports the error, the writer
    keeps the segment open, and the seal that follows returns it as sealed.
    The sealed file carries a good checksum over a torn message, and reading
    it is refused: the first batch cannot be read back. *)
Theorem torn_append_poisons :
  ∃ d1 w1 d2 w2 d3 w3 seg i nd off,
    rtc step (empty_disk, big_call (CallAppend (lit "018f") false true) sample_writer) (d1, Ret (w1, inl (Some None)))
    ∧ rtc step (d1, big_call (CallAppend (lit "0190") false false) w1) (d2, Ret (w2, inl None))
    ∧ rtc step (d2, big_call CallSeal w2) (d3, Ret (w3, inl (Some (Some seg))))
    ∧ live d3 !! final_path sample_id = Some i ∧ inodes d3 !! i = Some nd
    ∧ @read_segment bool big_arrow None (data nd) = inl (IpcFraming off).
Proof.
  exists torn_1.1, torn_1.2, torn_2.1, torn_2.2, torn_3.1, torn_3.2. do 4 eexists.
  split; [run_script (@nil (bool * nat))|]. split; [run_script torn_script|].
  split; [eapply (runs_step torn_seal []); vm_compute; reflexivity|].
  split; [vm_compute; reflexivity|]. split; [vm_compute; reflexivity|]. vm_compute. reflexivity.
Qed.
