(* ===== verification/WalConsumer.v ===== *)
(** Secondary consumers of a WAL directory (loglake-wal, [consumer.rs] and the
    listings and the retention sweep of [lib.rs]).

    A [SegmentConsumer] polls the segments after its cursor in [sealed/],
    [processing/] and [committed/], reads them and commits a position; the
    compactor's sweep of [committed/] waits for the published positions.  The
    age of a file is what the sweep observes of its mtime.  [serde_json] is a
    codec with its round trip. *)

From stdpp Require Import prelude gmap strings sorting.
From Stdlib Require Import ZArith Lia.
From S2P Require Import Prelude RustStr BTree WalFrame WalDisk WalLifecycle.

(** * Listings *)

Definition path_le (p q : path) : Prop := lex_le p.2 q.2.

#[global] Instance path_le_dec : RelDecision path_le.
Proof. unfold RelDecision, path_le. apply _. Defined.

Definition list_segments (sub : Dir) : Prog (option (list path)) :=
  let? names := call (OpReadDir sub) in
  Ret (Some (merge_sort path_le ((λ n, (sub, n)) <$> filter (λ n, is_arrow n = true) names))).

Definition list_sealed : Prog (option (list path)) := list_segments SealedDir.
Definition list_orphaned : Prog (option (list path)) := list_segments OrphansDir.
Definition list_committed : Prog (option (list path)) := list_segments CommittedDir.
Definition list_poisoned : Prog (option (list path)) := list_segments PoisonDir.

Definition add_names (by_name : btree path) (l : list path) : btree path :=
  bt_of_list ((λ p, (p.2, p)) <$> l) by_name.

Definition list_visible : Prog (option (list path)) :=
  let? by_name := prog_each (λ m sub, let? l := list_segments sub in Ret (Some (add_names m l)))
                    [SealedDir; ProcessingDir; CommittedDir] [] in
  Ret (Some by_name.*2).

(** * Consumers *)

Record SegmentRef := mkRef { name : rstr; seg_path : path }.
Record CursorState := mkCursor { last_segment_name : option rstr; updated_at : option Z }.
Record SegmentConsumer := mkConsumer { consumer_id : rstr; state : CursorState; misdirected : bool }.

(** [serde_json] on [CursorState]. *)
Class CursorJson := {
  to_vec_pretty : CursorState → option bytes;
  from_slice : bytes → option CursorState;
}.

Class CursorJsonLaws `{!CursorJson} : Prop := {
  cursor_roundtrip s bs : to_vec_pretty s = Some bs → from_slice bs = Some s;
}.

Definition id_char (c : Z) : bool := is_ascii_alphanumeric c || (c =? 0x2D) || (c =? 0x5F).
Definition valid_consumer_id (s : rstr) : bool := negb (bool_decide (s = [])) && forallb id_char s.

Definition cursor_path (c : rstr) : path := (StateDir c, lit "cursor.json").
Definition cursor_tmp (c : rstr) : path := (StateDir c, lit "cursor.json.tmp").

Section Consumer.
Context `{!CursorJson}.

(** [below]: whether some directory under the WAL directory has segments. *)
Definition open (below : bool) (consumer_id : rstr) : Prog (option SegmentConsumer) :=
  if negb (valid_consumer_id consumer_id) then Ret None else
  let? _ := call (OpMkdir (StateDir consumer_id)) in
  let! e := call (OpExists (cursor_path consumer_id)) in
  let? state :=
    (if e : bool then
       let? bs := call (OpRead (cursor_path consumer_id)) in
       Ret (from_slice bs)
     else Ret (Some (mkCursor None None))) in
  let! l := list_visible in
  let misdirected := match l with Some (_ :: _) => false | _ => true end && below in
  Ret (Some (mkConsumer consumer_id state misdirected)).

Definition looks_misdirected (c : SegmentConsumer) : bool := misdirected c.
Definition position (c : SegmentConsumer) : option rstr := last_segment_name (state c).

(** Past the cursor [last]. *)
Definition after_cursor (last : option rstr) (n : rstr) : bool :=
  match last with Some l => negb (lex_leb n l) | None => true end.

Definition name_le (a b : SegmentRef) : Prop := lex_le (name a) (name b).

#[global] Instance name_le_dec : RelDecision name_le.
Proof. unfold RelDecision, name_le. apply _. Defined.

Definition poll (c : SegmentConsumer) : Prog (option (list SegmentRef)) :=
  let? l := list_visible in
  let out := (λ p, mkRef p.2 p) <$> filter (λ p : path, after_cursor (position c) p.2 = true) l in
  Ret (Some (merge_sort name_le out)).

Definition persist (c : SegmentConsumer) (s : CursorState) : Prog (option unit) :=
  match to_vec_pretty s with
  | None => Ret None
  | Some bs => publish_file (cursor_path (consumer_id c)) (cursor_tmp (consumer_id c)) bs
  end.

(** [now]: the clock, for the diagnostic field. *)
Definition commit_name (now : Z) (n : rstr) (c : SegmentConsumer) : Prog (SegmentConsumer * option unit) :=
  if match position c with Some last => lex_leb n last | None => false end then Ret (c, Some tt) else
  let next_state := mkCursor (Some n) (Some now) in
  let! r := persist c next_state in
  match r with
  | None => Ret (c, None)
  | Some _ =>
      let c := mkConsumer (consumer_id c) next_state (misdirected c) in
      let! _ := publish_consumer_watermark (consumer_id c) n in
      Ret (c, Some tt)
  end.

Definition commit (now : Z) (segment : SegmentRef) (c : SegmentConsumer) : Prog (SegmentConsumer * option unit) :=
  commit_name now (name segment) c.
End Consumer.

Section Read.
Context {batch : Type} `{!ArrowIpc batch}.

(** [read_segment], from a path. *)
Definition read_segment_file (p : path) : Prog (option (list batch)) :=
  let? file := call (OpRead p) in
  if is_framed file then Ret (match decode_wal_frame file with inr l => Some l | inl _ => None end) else
  let! sidecar := call (OpRead (crc_sidecar_path p)) in
  Ret (match read_segment sidecar file with inr l => Some l | inl _ => None end).

Definition read (segment : SegmentRef) : Prog (option (list batch)) :=
  let! first := read_segment_file (seg_path segment) in
  match first with
  | Some batches => Ret (Some batches)
  | None =>
      let? l := list_visible in
      match list_find (λ p : path, p.2 = name segment) l with
      | Some (_, candidate) => read_segment_file candidate
      | None => Ret None
      end
  end.
End Read.

(** * Programs among others *)

(** A program with other processes at work on the disk: [E] is what they may do
    between two of its calls. *)
Definition istep {A} (E : Disk → Disk → Prop) (x y : Disk * Prog A) : Prop :=
  step x y ∨ (E x.1 y.1 ∧ y.2 = x.2).

Lemma istep_quiet {A} (x y : Disk * Prog A) : rtc step x y → rtc (istep eq) x y.
Proof. apply rtc_subrel. intros ? ?. by left. Qed.

Lemma istep_call {A R} E d (op : Op R) (k : R → Prog A) r d' z :
  exec d op r d' → rtc (istep E) (d', k r) z → rtc (istep E) (d, Step op k) z.
Proof. intros He. apply rtc_l. left. exists r. auto. Qed.

Lemma istep_env {A} (E : Disk → Disk → Prop) d d' (p : Prog A) z :
  E d d' → rtc (istep E) (d', p) z → rtc (istep E) (d, p) z.
Proof. intros He. apply rtc_l. by right. Qed.

Lemma irun_step {A R} E d (op : Op R) (k : R → Prog A) d' a :
  rtc (istep E) (d, Step op k) (d', Ret a) →
  ∃ d1 r d2, rtc E d d1 ∧ exec d1 op r d2 ∧ rtc (istep E) (d2, k r) (d', Ret a).
Proof.
  intros H. remember (d, Step op k) as x eqn:Ex. remember (d', Ret a) as y eqn:Ey.
  revert d Ex. induction H as [x|x [d1 p1] y Hs Hr IH]; intros d ->; [congruence|].
  destruct Hs as [(r & He & Hp)|[HE Hp]]; cbn in Hp; subst p1.
  - exists d, r, d1. split; [apply rtc_refl|]. by split.
  - destruct (IH Ey d1 eq_refl) as (d2 & r & d3 & ? & ? & ?). exists d2, r, d3.
    split; [by eapply rtc_l|done].
Qed.

Lemma irun_ret {A} E d (a : A) d' b : rtc (istep E) (d, Ret a) (d', Ret b) → a = b ∧ rtc E d d'.
Proof.
  intros H. remember (d, Ret a) as x eqn:Ex. remember (d', Ret b) as y eqn:Ey.
  revert d Ex. induction H as [x|x [d1 p1] y Hs Hr IH]; intros d ->; [by simplify_eq|].
  destruct Hs as [[]|[HE Hp]]. cbn in Hp. subst p1. destruct (IH Ey d1 eq_refl). split; [done|]. by eapply rtc_l.
Qed.

(** ** Listings among moves *)

Definition segments_of (sub : Dir) (names : list rstr) : list path :=
  merge_sort path_le ((λ n, (sub, n)) <$> filter (λ n, is_arrow n = true) names).

Lemma segments_of_names sub names n :
  n ∈ (segments_of sub names).*2 ↔ is_arrow n = true ∧ n ∈ names.
Proof.
  unfold segments_of. rewrite (merge_sort_Permutation _ _), <- list_fmap_compose.
  rewrite list_elem_of_fmap. cbn. setoid_rewrite list_elem_of_filter. naive_solver.
Qed.

Lemma add_names_keys m l n : n ∈ (add_names m l).*1 ↔ n ∈ m.*1 ∨ n ∈ l.*2.
Proof.
  unfold add_names, bt_of_list. revert m. induction l as [|p l IH]; intros m; cbn.
  - rewrite elem_of_nil. tauto.
  - rewrite IH. cbn. rewrite bt_insert_keys, elem_of_cons. tauto.
Qed.

Lemma add_names_self m l :
  Forall (λ e : rstr * path, e.1 = e.2.2) m → Forall (λ e : rstr * path, e.1 = e.2.2) (add_names m l).
Proof.
  unfold add_names, bt_of_list. revert m. induction l as [|p l IH]; intros m Hm; cbn; [done|].
  apply IH. by apply bt_insert_Forall.
Qed.

Lemma self_names (m : btree path) : Forall (λ e : rstr * path, e.1 = e.2.2) m → m.*2.*2 = m.*1.
Proof. induction 1 as [|e m He _ IH]; [done|]. cbn. by rewrite IH, He. Qed.

Lemma add_names_wf m l : bt_wf m → bt_wf (add_names m l).
Proof. apply bt_of_list_wf. Qed.

(** What a listing shows: one look at each of the three directories. *)
Lemma list_visible_run {B} E d (k : option (list path) → Prog B) d' b :
  rtc (istep E) (d, prog_bind list_visible k) (d', Ret b) →
  ∃ d1 d2 d3 r, rtc E d d1 ∧ rtc E d1 d2 ∧ rtc E d2 d3 ∧ rtc (istep E) (d3, k r) (d', Ret b)
    ∧ ∀ l, r = Some l → StronglySorted lex_lt l.*2 ∧
        ∀ n, n ∈ l.*2 ↔ is_arrow n = true ∧
          (is_Some (live d1 !! (SealedDir, n)) ∨ is_Some (live d2 !! (ProcessingDir, n))
           ∨ is_Some (live d3 !! (CommittedDir, n))).
Proof.
  intros H. apply irun_step in H as (d1 & r1 & e1 & HE1 & He1 & H). inv_exec He1.
  { exists d1, d1, d1, None. split_and!; try done; apply rtc_refl. }
  rename names into n1, He1 into Hn1.
  apply irun_step in H as (d2 & r2 & e2 & HE2 & He2 & H). inv_exec He2.
  { exists d1, d2, d2, None. split_and!; try done; apply rtc_refl. }
  rename names into n2, He2 into Hn2.
  apply irun_step in H as (d3 & r3 & e3 & HE3 & He3 & H). inv_exec He3.
  { exists d1, d2, d3, None. by split_and!. }
  rename names into n3, He3 into Hn3.
  exists d1, d2, d3. eexists. split_and!; [done..|exact H|]. intros l [= <-].
  fold (segments_of SealedDir n1) (segments_of ProcessingDir n2) (segments_of CommittedDir n3).
  rewrite self_names by (by repeat apply add_names_self). split.
  - repeat apply add_names_wf. apply bt_wf_nil.
  - intros n. rewrite !add_names_keys, !segments_of_names, Hn1, Hn2, Hn3. cbn. rewrite elem_of_nil. tauto.
Qed.

(** ** Polls *)

Definition stage (k : nat) : option Dir := [SealedDir; ProcessingDir; CommittedDir] !! k.
Definition at_stage (n : rstr) (k : nat) (d : Disk) : Prop :=
  ∃ D, stage k = Some D ∧ is_Some (live d !! (D, n)).

(** The segment may move on, not back and not away. *)
Definition forward (n : rstr) (d d' : Disk) : Prop :=
  ∀ k, at_stage n k d → ∃ k', (k ≤ k')%nat ∧ at_stage n k' d'.

Lemma forward_rtc n d d' : rtc (forward n) d d' → forward n d d'.
Proof.
  induction 1 as [d|d d1 d' H _ IH]; intros k Hk; [eauto|].
  destruct (H k Hk) as (k1 & ? & Hk1). destruct (IH k1 Hk1) as (k2 & ? & ?). exists k2. auto with lia.
Qed.

Lemma ref_names (l : list path) : name <$> ((λ p : path, mkRef p.2 p) <$> l) = l.*2.
Proof. by rewrite <- list_fmap_compose. Qed.

Lemma sorted_names (l : list path) (P : path → Prop) `{!∀ p, Decision (P p)} :
  StronglySorted lex_lt l.*2 → StronglySorted lex_lt (filter P l).*2.
Proof.
  induction l as [|p l IH]; intros Hs; [constructor|]. cbn in Hs. apply StronglySorted_inv in Hs as [Hs Hp].
  rewrite filter_cons. case_decide; [|by apply IH]. cbn. constructor; [by apply IH|].
  rewrite Forall_forall in *. intros n (q & -> & [_ Hq]%list_elem_of_filter)%list_elem_of_fmap.
  apply Hp. apply list_elem_of_fmap. eauto.
Qed.

#[global] Instance lex_le_antisymm : AntiSymm (=) lex_le.
Proof.
  intros a b [Hab|?]%lex_le_lt_eq [Hba|?]%lex_le_lt_eq; try done.
  destruct (lex_lt_irrefl a). by eapply lex_lt_trans.
Qed.

#[global] Instance name_le_trans : Transitive name_le.
Proof. intros a b c. apply (transitivity (R:=lex_le)). Qed.

#[global] Instance name_le_total : Total name_le.
Proof. intros a b. apply (total lex_le). Qed.

Lemma lex_sorted_NoDup l : StronglySorted lex_lt l → NoDup l.
Proof.
  induction 1 as [|n l _ IH Hn]; [constructor|]. constructor; [|done]. intros Hin.
  rewrite Forall_forall in Hn. by apply (lex_lt_irrefl n), Hn.
Qed.

(** A sorted list of references is left as it is. *)
Lemma sort_sorted (l : list SegmentRef) :
  StronglySorted lex_lt (name <$> l) → merge_sort name_le l = l.
Proof.
  intros Hs. eapply StronglySorted_unique_strong; [|apply StronglySorted_merge_sort; apply _| |apply merge_sort_Permutation].
  - intros a b Ha Hb Hab Hba. rewrite merge_sort_Permutation in Ha.
    assert (name a = name b) as E by (by apply (anti_symm lex_le)).
    apply lex_sorted_NoDup in Hs. apply list_elem_of_lookup in Ha as [i Hi], Hb as [j Hj].
    assert (i = j) as ->; [|congruence].
    eapply NoDup_lookup; [exact Hs|rewrite list_lookup_fmap, Hi; done|]. by rewrite list_lookup_fmap, Hj, E.
  - induction l as [|a l IH]; [constructor|]. apply StronglySorted_inv in Hs as [Hs Ha]. constructor; [by apply IH|].
    apply (Forall_fmap name) in Ha. eapply Forall_impl; [exact Ha|]. intros b Hb. apply lex_le_lt_eq. by left.
Qed.

(** Strings are ordered by the first byte they differ in. *)
Lemma lex_leb_common p (x y : Z) (a b : bytes) : x < y → lex_leb (p ++ x :: a) (p ++ y :: b) = true.
Proof.
  intros H. unfold lex_leb. induction p as [|z p IH]; cbn [app lex_cmp].
  - by rewrite (proj2 (Z.compare_lt_iff x y) H).
  - by rewrite Z.compare_refl.
Qed.

Section Poll.
Context `{!CursorJson}.

Lemma poll_run E c d d' l :
  rtc (istep E) (d, poll c) (d', Ret (Some l)) →
  ∃ d1 d2 d3, rtc E d d1 ∧ rtc E d1 d2 ∧ rtc E d2 d3
    ∧ StronglySorted lex_lt (name <$> l)
    ∧ ∀ n, n ∈ name <$> l ↔ after_cursor (position c) n = true ∧ is_arrow n = true ∧
          (is_Some (live d1 !! (SealedDir, n)) ∨ is_Some (live d2 !! (ProcessingDir, n))
           ∨ is_Some (live d3 !! (CommittedDir, n))).
Proof.
  intros Hr. apply list_visible_run in Hr as (d1 & d2 & d3 & [m|] & ? & ? & ? & Hr & Hl); last first.
  { by apply irun_ret in Hr as [? _]. }
  apply irun_ret in Hr as [[= <-] _]. destruct (Hl m eq_refl) as [Hs Hn]. exists d1, d2, d3.
  split_and!; try done; rewrite sort_sorted, ref_names by (rewrite ref_names; by apply sorted_names).
  - by apply sorted_names.
  - intros n. rewrite <- Hn, list_elem_of_fmap. setoid_rewrite list_elem_of_filter.
    rewrite list_elem_of_fmap. naive_solver.
Qed.

(** C22. No segment is missed or seen twice because of a rename.  A poll among
    other processes at work in the WAL directory, whatever they do as long as
    they only move the segment [n] on ([sealed] to [processing] to [committed]):
    a segment past the cursor that was there when the poll began is in the
    answer, and the answer is strictly ascending by name. *)
Theorem poll_never_misses E c n d d' l k :
  (∀ x y, E x y → forward n x y) →
  rtc (istep E) (d, poll c) (d', Ret (Some l)) →
  at_stage n k d → is_arrow n = true → after_cursor (position c) n = true →
  n ∈ name <$> l ∧ StronglySorted lex_lt (name <$> l).
Proof.
  intros HE Hr Hk Ha Hc. apply poll_run in Hr as (d1 & d2 & d3 & H1 & H2 & H3 & Hs & Hn). split; [|done].
  apply Hn. split_and!; try done.
  assert (∀ x y, rtc E x y → forward n x y) as Hfw.
  { intros x y Hxy. apply forward_rtc. by apply (rtc_subrel E). }
  destruct (Hfw _ _ H1 k Hk) as (k1 & _ & Hk1). destruct k1 as [|k1].
  { left. by destruct Hk1 as (D & [= <-] & ?). }
  destruct (Hfw _ _ H2 _ Hk1) as (k2 & ? & Hk2). destruct k2 as [|[|k2]]; [lia| |].
  { right; left. by destruct Hk2 as (D & [= <-] & ?). }
  destruct (Hfw _ _ H3 _ Hk2) as (k3 & ? & Hk3). destruct k3 as [|[|[|k3]]]; [lia|lia| |].
  { right; right. by destruct Hk3 as (D & [= <-] & ?). }
  by destruct Hk3 as (D & ? & _).
Qed.

(** A quiet poll is exact: with nothing else at work it lists, in name
    order and once each, exactly the segment files of the three directories
    that are past the cursor, and changes nothing. *)
Theorem poll_exact c d d' l :
  rtc step (d, poll c) (d', Ret (Some l)) →
  StronglySorted lex_lt (name <$> l)
  ∧ ∀ n, n ∈ name <$> l ↔ after_cursor (position c) n = true ∧ is_arrow n = true ∧ ∃ k, at_stage n k d.
Proof.
  intros Hr%istep_quiet. apply poll_run in Hr as (d1 & d2 & d3 & H1 & H2 & H3 & Hs & Hn). split; [done|].
  assert (∀ x y : Disk, rtc eq x y → x = y) as Heq by (by induction 1; subst).
  apply Heq in H1, H2, H3. subst d1 d2 d3. intros n. rewrite Hn. unfold at_stage.
  assert ((∃ k D, stage k = Some D ∧ is_Some (live d !! (D, n))) ↔
     is_Some (live d !! (SealedDir, n)) ∨ is_Some (live d !! (ProcessingDir, n)) ∨ is_Some (live d !! (CommittedDir, n))) as ->; [|done].
  split; [intros ([|[|[|k]]] & D & [= <-] & ?); auto|].
  intros [?|[?|?]]; [exists 0%nat, SealedDir|exists 1%nat, ProcessingDir|exists 2%nat, CommittedDir]; done.
Qed.

(** C40. Segments of another ingester can be skipped for good.  Segment names
    are the ingester, a dash and a UUIDv7, and they are compared as strings.
    Where the names of two ingesters first differ, let [x] be the byte of the
    one and [y] the larger byte of the other: a consumer whose cursor stands on
    a segment of the second never sees a segment of the first again, whenever
    it was sealed and whatever happens during the poll. *)
Theorem poll_skips_ingester E c common x y i j u v d d' l :
  x < y → position c = Some ((common ++ y :: j) ++ lit "-" ++ u) →
  rtc (istep E) (d, poll c) (d', Ret (Some l)) →
  ((common ++ x :: i) ++ lit "-" ++ v) ∉ name <$> l.
Proof.
  intros Hxy Hc Hr Hin. apply poll_run in Hr as (d1 & d2 & d3 & _ & _ & _ & _ & Hn).
  apply Hn in Hin as [Ha _]. rewrite Hc in Ha. cbn [after_cursor] in Ha.
  rewrite <- !app_assoc in Ha. cbn [app] in Ha. by rewrite lex_leb_common in Ha.
Qed.
End Poll.

(** * Disks without hard links *)

(** No two names of one file, and no name without its file. *)
Record sane (d : Disk) : Prop := mkSane {
  sane_consistent : consistent d;
  sane_alloc p i : live d !! p = Some i → is_Some (inodes d !! i);
  sane_inj p q i : live d !! p = Some i → live d !! q = Some i → p = q;
}.

Lemma sane_inode i nd d : sane d → sane (set_inode i nd d).
Proof.
  intros [Hc Ha Hj]. split; [done| |done]. intros p j Hp. cbn. destruct (decide (i = j)) as [->|].
  - rewrite lookup_insert_eq. eauto.
  - rewrite lookup_insert_ne by done. by eapply Ha.
Qed.

Lemma exec_sane {R} d (op : Op R) r d' : exec d op r d' → sane d → sane d'.
Proof.
  intros He Hs. pose proof Hs as [Hc Ha Hj]. pose proof (exec_consistent _ _ _ _ He Hc) as Hc'.
  destruct op; inv_exec He; try done; try (by apply sane_inode).
  - split; [done|..]; cbn.
    + intros q x. rewrite !lookup_insert. repeat case_decide; intros; simplify_eq; eauto.
    + intros q q' x. rewrite !lookup_insert. repeat case_decide; intros; simplify_eq; try done; [..|by eapply Hj];
        exfalso; match goal with Hq : live d !! _ = Some ?k, Hn : inodes d !! ?k = None |- _ =>
          apply Ha in Hq as [? ?]; congruence end.
  - split; [done|..]; cbn.
    + intros q x. rewrite lookup_insert, lookup_delete. repeat case_decide; intros; simplify_eq; eauto.
    + intros q q' x. rewrite !lookup_insert, !lookup_delete. repeat case_decide; intros; simplify_eq; try done;
        [exfalso; naive_solver..|eauto].
  - split; [done|..]; cbn.
    + intros q x. rewrite lookup_delete. case_decide; [done|]. eauto.
    + intros q q' x. rewrite !lookup_delete. repeat case_decide; try done. eauto.
Qed.

(** * A poll beside the compactor *)

(** Two programs, one call of either at a time. *)
Definition interleave {A B} (x y : Disk * Prog A * Prog B) : Prop :=
  (step (x.1.1, x.1.2) (y.1.1, y.1.2) ∧ y.2 = x.2) ∨ (step (x.1.1, x.2) (y.1.1, y.2) ∧ y.1.2 = x.1.2).

Lemma interleave_l {A B R} d (op : Op R) k r d' (q : Prog B) (z : Disk * Prog A * Prog B) :
  exec d op r d' → rtc interleave (d', k r, q) z → rtc interleave (d, Step op k, q) z.
Proof. intros He. apply rtc_l. left. split; [|done]. exists r. auto. Qed.

Lemma interleave_r {A B R} d (op : Op R) k r d' (p : Prog A) (z : Disk * Prog A * Prog B) :
  exec d op r d' → rtc interleave (d', p, k r) z → rtc interleave (d, p, Step op k) z.
Proof. intros He. apply rtc_l. right. split; [|done]. exists r. auto. Qed.

Lemma listing_one D d n i :
  live d = {[ (D, n) := i ]} → exec d (OpReadDir D) (Some [n]) d.
Proof.
  intros Hd. split; [done|]. right. exists [n]. split_and!; [done|apply NoDup_singleton|].
  intros m. rewrite Hd, list_elem_of_singleton, lookup_singleton. case_decide as E.
  - injection E as <-. split; [by eexists|done].
  - split; [by intros ->|by intros [? ?]].
Qed.

Lemma listing_none D E d n i : live d = {[ (E, n) := i ]} → D ≠ E → exec d (OpReadDir D) (Some []) d.
Proof.
  intros Hd HE. split; [done|]. right. exists []. split_and!; [done|constructor|].
  intros m. rewrite Hd, elem_of_nil, lookup_singleton. case_decide as Eq; [congruence|]. split; [done|by intros [? ?]].
Qed.

(** A poll can miss a segment that is there throughout.  A claimed segment
    that the compactor gives back ([release_segment]) between the poll's look
    at [sealed/] and its look at [processing/] is in neither, so the answer is
    empty; no file was deleted and the segment is in a listed directory before,
    during and after. *)
Theorem poll_misses_released `{!CursorJson} c :
  ∃ d d' l, at_stage sample_name 1 d ∧ at_stage sample_name 0 d'
    ∧ rtc interleave (d, poll c, release_segment (ProcessingDir, sample_name))
                     (d', Ret (Some l), Ret (Some (SealedDir, sample_name)))
    ∧ l = [].
Proof.
  exists (sample_disk ProcessingDir), (sample_disk SealedDir). eexists.
  split_and!; [by exists ProcessingDir; split; [|eexists]|by exists SealedDir; split; [|eexists]| |].
  - set (d1 := change (Move (ProcessingDir, sample_name) (SealedDir, sample_name) 1%N) (sample_disk ProcessingDir)).
    eapply (interleave_l _ _ _ (Some [])); [by eapply (listing_none SealedDir ProcessingDir)|].
    eapply (interleave_r _ _ _ (Some tt) d1); [right; by exists 1%N|].
    eapply (interleave_l _ _ _ (Some [])); [by eapply (listing_none ProcessingDir SealedDir)|].
    eapply (interleave_l _ _ _ (Some [])); [by eapply (listing_none CommittedDir SealedDir)|].
    eapply (interleave_r _ _ _ false d1); [by split|].
    eapply (interleave_r _ _ _ (Some tt)); [by right|].
    eapply (interleave_r _ _ _ (Some tt)); [by right|]. apply rtc_refl.
  - done.
Qed.

(** * Witnesses *)

#[local] Instance sample_json : CursorJson := {|
  to_vec_pretty s :=
    Some (match updated_at s with None => [0] | Some z => [1; z] end
          ++ match last_segment_name s with None => [0] | Some n => 1 :: n end);
  from_slice bs :=
    match bs with
    | 0 :: 0 :: _ => Some (mkCursor None None)
    | 0 :: _ :: n => Some (mkCursor (Some n) None)
    | _ :: z :: 0 :: _ => Some (mkCursor None (Some z))
    | _ :: z :: _ :: n => Some (mkCursor (Some n) (Some z))
    | _ => None
    end;
|}.

#[local] Instance sample_json_laws : CursorJsonLaws.
Proof. split. intros [[n|] [z|]] bs [= <-]; done. Qed.

Definition sample_consumer (last : option rstr) : SegmentConsumer :=
  mkConsumer (lit "det") (mkCursor last None) false.

(** A poll while the compactor claims the only segment. *)
Lemma poll_never_misses_witness :
  ∃ l, sample_name ∈ name <$> l ∧ StronglySorted lex_lt (name <$> l).
Proof.
  set (E := λ x y, exec x (OpRename (SealedDir, sample_name) (ProcessingDir, sample_name)) (Some tt) y).
  assert (∀ x y, E x y → forward sample_name x y) as HE.
  { intros x y He k (D & HD & Hl). destruct He as [[? _]|(i & _ & Hi & ->)]; [done|].
    destruct (decide (k ≤ 1)%nat) as [Hk|Hk].
    - exists 1%nat. split; [done|]. exists ProcessingDir. split; [done|]. cbn. rewrite lookup_insert_eq. by eexists.
    - exists k. split; [done|]. exists D. split; [done|]. destruct k as [|[|[|k]]]; [lia|lia| |done].
      injection HD as <-. cbn. by rewrite lookup_insert_ne, lookup_delete_ne. }
  set (d1 := change (Move (SealedDir, sample_name) (ProcessingDir, sample_name) 1%N) (sample_disk SealedDir)).
  assert (∃ l, rtc (istep E) (sample_disk SealedDir, poll (sample_consumer None)) (d1, Ret (Some l))) as [l Hl].
  { eexists. eapply (istep_call _ _ _ _ (Some [sample_name])); [by eapply (listing_one SealedDir)|].
    apply (istep_env _ _ d1); [right; by exists 1%N|].
    eapply (istep_call _ _ _ _ (Some [sample_name])); [by eapply (listing_one ProcessingDir)|].
    eapply (istep_call _ _ _ _ (Some [])); [by eapply (listing_none CommittedDir ProcessingDir)|].
    apply rtc_refl. }
  exists l. apply (poll_never_misses E (sample_consumer None) sample_name (sample_disk SealedDir) d1 l 0%nat); try done.
  exists SealedDir. split; [done|]. by eexists.
Defined.

Lemma poll_exact_witness :
  ∃ l : list SegmentRef, ∀ n, n ∈ name <$> l ↔ after_cursor None n = true ∧ is_arrow n = true
                              ∧ ∃ k, at_stage n k (sample_disk SealedDir).
Proof.
  assert (∃ l, rtc step (sample_disk SealedDir, poll (sample_consumer None)) (sample_disk SealedDir, Ret (Some l))) as [l Hl].
  { eexists. run_call (Some [sample_name]); [by eapply (listing_one SealedDir)|].
    run_call (@Some (list rstr) []); [by eapply (listing_none ProcessingDir SealedDir)|].
    run_call (@Some (list rstr) []); [by eapply (listing_none CommittedDir SealedDir)|]. apply rtc_refl. }
  exists l. apply (poll_exact (sample_consumer None) _ _ _ Hl).
Defined.

Definition sample_later : rstr := Eval vm_compute in lit "ingester-0-0199.arrow".

(** The segment is there and sealed after the one the cursor stands on. *)
Lemma poll_skips_ingester_witness :
  let c := sample_consumer (Some (lit "ingester-1-0188.arrow")) in
  let d := mkDisk {[1%N := sample_inode]} {[(SealedDir, sample_later) := 1%N]} {[(SealedDir, sample_later) := 1%N]} [] in
  ∃ l, rtc step (d, poll c) (d, Ret (Some l)) ∧ sample_later ∉ name <$> l.
Proof.
  intros c d. assert (∃ l, rtc step (d, poll c) (d, Ret (Some l))) as [l Hl].
  { eexists. run_call (Some [sample_later]); [by eapply (listing_one SealedDir)|].
    run_call (@Some (list rstr) []); [by eapply (listing_none ProcessingDir SealedDir)|].
    run_call (@Some (list rstr) []); [by eapply (listing_none CommittedDir SealedDir)|]. apply rtc_refl. }
  exists l. split; [done|].
  apply (poll_skips_ingester eq c (lit "ingester-") 0x30 0x31 [] [] (lit "0188.arrow") (lit "0199.arrow") d d l);
    [done|done|]. by apply istep_quiet.
Defined.
