(* ===== verification/WalCursor.v ===== *)
(** The durable position of a secondary consumer ([SegmentConsumer] of
    loglake-wal, [consumer.rs]): a life of commits, each of whose calls may
    fail, and the power loss that ends it. *)

From stdpp Require Import prelude gmap strings.
From Stdlib Require Import ZArith Lia.
From S2P Require Import Prelude RustStr WalFrame WalDisk WalLifecycle WalConsumer.

(** * The names of a file after a power loss *)

(** The files that may have the name [p] after a power loss ([None]: no file). *)
Definition maybe (p : path) (X : option N → Prop) (d : Disk) : Prop :=
  X (durable d !! p) ∧
  Forall (λ op, match op with
                | Link q i => q = p → X (Some i)
                | Unlink q => q = p → X None
                | Move s t i => (t = p → X (Some i)) ∧ (s = p → X None)
                end) (pending d).

Lemma maybe_survives p X d ns : maybe p X d → survives (pending d) (durable d) ns → X (ns !! p).
Proof.
  intros [Hd Hp] Hs. induction Hs as [ns|op l ns ns' _ IH|op l ns ns' _ IH|s t i l ns ns' _ IH];
    [done|inversion Hp as [|?? Ho Hl]; subst; apply IH; try done..].
  - destruct op as [q i|q|s t i]; cbn; rewrite ?lookup_insert, ?lookup_delete; repeat case_decide; naive_solver.
  - rewrite lookup_insert. case_decide; [|done]. by apply Ho.
Qed.

Lemma maybe_mono p (X Y : option N → Prop) d : (∀ o, X o → Y o) → maybe p X d → maybe p Y d.
Proof. intros HXY [Hd Hp]. split; [auto|]. eapply Forall_impl; [exact Hp|]. intros []; cbn; naive_solver. Qed.

Lemma maybe_and p (X Y : option N → Prop) d : maybe p X d → maybe p Y d → maybe p (λ o, X o ∧ Y o) d.
Proof.
  intros [Hd Hp] [Hd' Hp']. split; [done|]. rewrite Forall_forall in *. intros op Hin.
  specialize (Hp op Hin). specialize (Hp' op Hin). destruct op; naive_solver.
Qed.

Lemma maybe_change p X op d :
  match op with
  | Link q i => q = p → X (Some i)
  | Unlink q => q = p → X None
  | Move s t i => (t = p → X (Some i)) ∧ (s = p → X None)
  end → maybe p X d → maybe p X (change op d).
Proof. intros Ho [Hd Hp]. split; [done|]. apply Forall_app. by rewrite Forall_singleton. Qed.

Lemma maybe_sync p X D d : maybe p X d → maybe p X (sync_dir D d).
Proof.
  intros [Hd Hp].
  assert (∀ op', (∃ op, op ∈ pending d ∧ (op' ∈ flushed D op ∨ op' ∈ kept D op)) →
    match op' with
    | Link q i => q = p → X (Some i)
    | Unlink q => q = p → X None
    | Move s t i => (t = p → X (Some i)) ∧ (s = p → X None)
    end) as Hop.
  { rewrite Forall_forall in Hp. intros op' (op & Hin & Hk). specialize (Hp op Hin).
    destruct op, Hk as [Hk|Hk]; cbn in Hk; repeat case_decide; rewrite ?list_elem_of_singleton, ?elem_of_nil in Hk;
      subst; try done; naive_solver. }
  split.
  - cbn [durable sync_dir]. apply (maybe_survives p X (mkDisk ∅ ∅ (durable d) (pending d ≫= flushed D))); [|apply survives_replay].
    split; [done|]. apply Forall_forall. intros op' (op & ? & ?)%list_elem_of_bind. apply Hop. eauto.
  - apply Forall_forall. cbn. intros op' (op & ? & ?)%list_elem_of_bind. apply Hop. eauto.
Qed.

Lemma fixed_maybe p i d : fixed p i d → maybe p (eq (Some i)) d.
Proof.
  intros [Hd Hp]. split; [done|]. eapply Forall_impl; [exact Hp|]. intros []; cbn; set_solver.
Qed.

Section Cursor.
Context `{!CursorJson, !CursorJsonLaws}.
Context (cid : rstr).
Abbreviation cur := (cursor_path cid).
Abbreviation tmp := (cursor_tmp cid).

(** A file, whole and durable, with a position of [P] in it. *)
Definition holds (P : option rstr → Prop) (nd : Inode) : Prop :=
  synced nd = length (data nd) ∧ ∃ st, from_slice (data nd) = Some st ∧ P (last_segment_name st).

(** What may be found under the cursor's name: a file of no other name that
    holds a position of [P], or none when [P] has the start. *)
Definition candidate (P : option rstr → Prop) (d : Disk) (o : option N) : Prop :=
  match o with
  | None => P None
  | Some i => (∃ nd, inodes d !! i = Some nd ∧ holds P nd) ∧ ∀ p, live d !! p = Some i → p = cur
  end.

(** Whatever a power loss leaves, the cursor is one of the positions [P]. *)
Record cursor_at (P : option rstr → Prop) (d : Disk) : Prop := mkCursorAt {
  ca_sane : sane d;
  ca_maybe : maybe cur (candidate P d) d;
}.

Lemma candidate_mono (P Q : option rstr → Prop) d o : (∀ s, P s → Q s) → candidate P d o → candidate Q d o.
Proof.
  intros HPQ. destruct o as [i|]; [|apply HPQ]. intros [(nd & Hi & Hsy & st & Hst & HP) Hl]. split; [|done].
  exists nd. split; [done|]. split; [done|]. eauto.
Qed.

Lemma cursor_mono (P Q : option rstr → Prop) d : (∀ s, P s → Q s) → cursor_at P d → cursor_at Q d.
Proof. intros HPQ []. split; [done|]. eapply maybe_mono; [|done]. intros o. by apply candidate_mono. Qed.

(** ** Calls that leave the cursor alone *)

Definition away (d : Disk) {R} (op : Op R) : Prop :=
  match op with
  | OpCreate p | OpRemove p => p ≠ cur
  | OpRename p q => p ≠ cur ∧ q ≠ cur
  | OpAppend j _ => ∃ p, p ≠ cur ∧ live d !! p = Some j
  | _ => True
  end.

Lemma cursor_change P op d :
  sane (change op d) → cur ∉ touches op →
  match op with
  | Link _ i => maybe cur (λ o, o ≠ Some i) d
  | Move s _ i => live d !! s = Some i
  | Unlink _ => True
  end → cursor_at P d → cursor_at P (change op d).
Proof.
  intros Hs Ht Hop [Hsn Hm]. split; [done|]. apply maybe_change; [destruct op; cbn in Ht; set_solver|].
  eapply (maybe_mono _ (λ o, candidate P d o ∧ match op with Link _ i => o ≠ Some i | _ => True end)).
  2: { apply maybe_and; [done|]. destruct op; [done|..]; by eapply (maybe_mono _ _ (λ _, True)). }
  intros [i|]; [|by intros [? _]]. intros [[Hnd Hl] Hn]. split; [done|].
  intros p. destruct op as [q j|q|s t j]; cbn [live change apply_op]; rewrite ?lookup_insert, ?lookup_delete;
    repeat case_decide; intros; simplify_eq; auto.
  exfalso. apply Ht. cbn. assert (s = cur) as -> by auto. left.
Qed.

Lemma cursor_inode P j nd' d :
  (∀ nd, candidate P d (Some j) → inodes d !! j = Some nd → holds P nd → holds P nd') →
  cursor_at P d → cursor_at P (set_inode j nd' d).
Proof.
  intros Hj [Hsn Hm]. split; [by apply sane_inode|]. eapply maybe_mono; [|exact Hm].
  intros [i|]; [|done]. intros Hcand. pose proof Hcand as [(nd & Hi & Hh) Hl]. split; [|done].
  cbn. destruct (decide (j = i)) as [->|].
  - rewrite lookup_insert_eq. eauto.
  - rewrite lookup_insert_ne by done. eauto.
Qed.

Lemma cursor_away {R} P (op : Op R) d r d' : away d op → exec d op r d' → cursor_at P d → cursor_at P d'.
Proof.
  intros Hw He Ho. pose proof (exec_sane _ _ _ _ He (ca_sane _ _ Ho)) as Hs.
  assert (∀ p j, p ≠ cur → live d !! p = Some j → ¬ candidate P d (Some j)) as Hother.
  { intros p j Hp Hj [_ Hl]. auto. }
  destruct op; cbn [away] in Hw; inv_exec He; try done.
  - apply cursor_change; [done|by intros ?%list_elem_of_singleton| |].
    + eapply maybe_mono; [|apply Ho]. intros [k|]; [|done]. intros [(nd & Hk & _) _] E. congruence.
    + apply cursor_inode; [|done]. intros nd [(nd' & ? & _) _]. congruence.
  - apply cursor_inode; [|done]. intros nd Hcd. by destruct (Hother p i).
  - destruct Hw as (p & Hp & Hl). apply cursor_inode; [|done]. intros nd' Hcd. by destruct (Hother p i).
  - apply cursor_inode; [|done]. intros nd' _ Hi [Hsy Hst]. simplify_eq. by split.
  - split; [done|]. apply maybe_sync, Ho.
  - destruct Hw. apply cursor_change; [done| |done|done]. cbn. rewrite !elem_of_cons, elem_of_nil. naive_solver.
  - apply cursor_change; [done|by intros ?%list_elem_of_singleton|done|done].
Qed.

(** ** Publishing *)

Lemma write_sync_away P p bs d :
  p ≠ cur → cursor_at P d →
  always (cursor_at P)
    (λ r d', r = Some tt → ∃ j, live d' !! p = Some j ∧ inodes d' !! j = Some (mkInode bs (length bs)))
    (write_sync p bs) d.
Proof.
  intros Hp Ho. apply always_op; [done|]. intros r d1 He.
  pose proof (cursor_away P (OpCreate p) _ _ _ Hp He Ho) as Ho1. destruct r as [j|]; [|by apply always_ret].
  assert (live d1 !! p = Some j ∧ inodes d1 !! j = Some (mkInode [] 0)) as [Hl Hi].
  { inv_exec He; cbn; rewrite ?lookup_insert_eq; done. }
  clear He. apply always_op; [done|]. intros k d2 He.
  pose proof (cursor_away P (OpAppend j bs) _ _ _ ltac:(by exists p) He Ho1) as Ho2. inv_exec He.
  rewrite app_nil_l in *. destruct (Nat.ltb_spec k (length bs)) as [Hk|Hk]; [by apply always_ret|].
  rewrite take_ge in * by done. apply always_call; [done|]. intros r d3 He.
  split; [by eapply (cursor_away P (OpSyncFile j))|]. intros ->. exists j.
  cbn [exec] in He. destruct He as [[? _]|(nd & _ & Hnd & ->)]; [done|].
  cbn in Hnd. rewrite lookup_insert_eq in Hnd. injection Hnd as <-. cbn. by rewrite lookup_insert_eq.
Qed.

Lemma publish_away P p t bs d :
  p ≠ cur → t ≠ cur → cursor_at P d → always (cursor_at P) (λ _ _, True) (publish_file p t bs) d.
Proof.
  intros Hp Ht Ho. apply always_bind. eapply (always_mono (cursor_at P)); [done| |by apply write_sync_away].
  intros [[]|] d1 Ho1 _; [|by apply always_ret]. apply always_op; [done|]. intros r d2 He.
  assert (cursor_at P d2) as Ho2 by (by eapply (cursor_away P (OpRename t p))).
  destruct r as [[]|]; [|by apply always_ret]. apply always_call; [done|]. intros r d3 He3.
  split; [|done]. by eapply (cursor_away P (OpSyncDir p.1)).
Qed.

(** The rename into place, not yet durable: one more candidate. *)
Lemma cursor_renamed (P Q : option rstr → Prop) j nd d :
  (∀ s, P s → Q s) → cursor_at P d → live d !! tmp = Some j → inodes d !! j = Some nd → holds Q nd →
  cursor_at Q (change (Move tmp cur j) d).
Proof.
  intros HPQ [Hs Hm] Hl Hj Hh.
  assert (sane (change (Move tmp cur j) d)) as Hs'.
  { eapply (exec_sane d (OpRename tmp cur) (Some tt)); [|done]. right. by exists j. }
  split; [done|]. apply maybe_change.
  - split; [|done]. intros _. split; [by exists nd|]. intros p Hp. symmetry.
    apply (sane_inj _ Hs' _ _ j); [|done]. cbn. by rewrite lookup_insert_eq.
  - eapply maybe_mono; [|exact Hm]. intros [i|] Hc; [|by apply HPQ]. apply (candidate_mono _ _ _ _ HPQ) in Hc as [Hi Hp].
    split; [done|]. intros p. cbn. rewrite lookup_insert, lookup_delete. repeat case_decide; auto; done.
Qed.

Lemma publish_cursor P st bs d :
  cursor_at P d → from_slice bs = Some st →
  always (cursor_at (λ s, P s ∨ s = last_segment_name st))
    (λ r d', r = Some tt → cursor_at (eq (last_segment_name st)) d') (publish_file cur tmp bs) d.
Proof.
  intros Ho Hbs. set (Q := λ s, P s ∨ s = last_segment_name st).
  assert (∀ s, P s → Q s) as HPQ by (by left). pose proof (cursor_mono P Q d HPQ Ho) as HoQ.
  apply always_bind. eapply (always_mono (cursor_at P)); [intros d'; by apply cursor_mono| |by apply write_sync_away].
  intros [[]|] d1 Ho1 Hw; [|apply always_ret; [by eapply cursor_mono|done]].
  destruct (Hw eq_refl) as (j & Hl & Hj). clear Hw. apply always_op; [by eapply cursor_mono|]. intros r d2 He.
  inv_exec He; [apply always_ret; [by eapply cursor_mono|done]|].
  assert (holds Q (mkInode bs (length bs))) as Hh by (split; [done|]; exists st; split; [done|by right]).
  pose proof (cursor_renamed P Q j _ d1 HPQ Ho1 Hl Hj Hh) as Ho2.
  apply always_call; [done|]. intros r d3 He.
  split; [by eapply (cursor_away Q (OpSyncDir cur.1))|]. intros ->. pose proof (exec_sane _ _ _ _ He (ca_sane _ _ Ho2)) as Hs3.
  inv_exec He. split; [done|]. eapply maybe_mono; [|apply fixed_maybe, sync_fixes; [apply Ho2|cbn; by rewrite lookup_insert_eq]].
  intros o <-. split; [eexists; split; [exact Hj|]; split; [done|by exists st]|].
  intros p Hp. apply (sane_inj _ Hs3 _ _ j); [done|]. cbn. by rewrite lookup_insert_eq.
Qed.

(** ** What an [open] finds *)

Definition found (d : Disk) (s : option rstr) : Prop :=
  match live d !! cur with
  | None => s = None
  | Some i => ∃ nd st, inodes d !! i = Some nd ∧ from_slice (data nd) = Some st ∧ last_segment_name st = s
  end.

Lemma cursor_crash P d d' : cursor_at P d → crash d d' → ∃ s, P s ∧ found d' s.
Proof.
  intros [_ Hm] Hc. destruct Hc as [d ns cut Hs]. pose proof (maybe_survives _ _ _ _ Hm Hs) as HX.
  unfold found. cbn [live]. destruct (ns !! cur) as [i|]; [|by exists None].
  destruct HX as [(nd & Hi & Hsy & st & Hst & HP) _]. exists (last_segment_name st). split; [done|].
  eexists _, st. split; [cbn; rewrite map_lookup_imap, Hi; reflexivity|]. cbn [data]. by rewrite take_ge by lia.
Qed.
End Cursor.

Lemma list_visible_quiet d : always (eq d) (λ _ _, True) list_visible d.
Proof. do 2 (always_op He; clear He). always_op He. Qed.

(** * A life of commits *)

Section Commit.
Context `{!CursorJson, !CursorJsonLaws} (cid : rstr).

Lemma open_found below d :
  always (eq d) (λ r _, ∀ c, r = Some c → consumer_id c = cid ∧ found cid d (position c)) (open below cid) d.
Proof.
  unfold open. destruct (negb _); [by apply always_ret|]. always_op He. always_op He.
  assert (∀ st, found cid d (last_segment_name st) →
    always (eq d) (λ r _, ∀ c, r = Some c → consumer_id c = cid ∧ found cid d (position c))
    (let! l := list_visible in
     let mis := match l with Some (_ :: _) => false | _ => true end && below in
     Ret (Some (mkConsumer cid st mis))) d) as Hend.
  { intros st Hst. apply always_bind. eapply (always_mono (eq d)); [done| |by apply list_visible_quiet].
    intros l d' <- _. apply always_ret; [done|]. by intros c [= <-]. }
  unfold found in *. destruct (live d !! cursor_path cid) as [i|] eqn:El; last first.
  { rewrite bool_decide_eq_false_2 by (by intros [? ?]). by apply Hend. }
  rewrite bool_decide_eq_true_2 by (by eexists). always_op He. simplify_eq.
  destruct (from_slice _) as [st|] eqn:Es; [|by apply always_ret]. apply Hend. eauto.
Qed.

Lemma found_unique d s s' : found cid d s → found cid d s' → s = s'.
Proof. unfold found. destruct (live d !! _) as [i|]; [|congruence]. intros (?&?&?&?&?) (?&?&?&?&?). congruence. Qed.

(** Nothing on its way to the cursor file, which is whole if it is there. *)
Definition booted (d : Disk) : Prop :=
  sane d ∧ Forall (λ op, cursor_path cid ∉ touches op) (pending d) ∧
  ∀ i nd, live d !! cursor_path cid = Some i → inodes d !! i = Some nd → synced nd = length (data nd).

(** A consumer opened on such a disk, its commits (those that failed since the
    position last moved are kept), and calls of others that leave the cursor
    file alone. *)
Inductive life : Disk → SegmentConsumer → list rstr → Prop :=
  | life_open below d d' c :
      booted d → rtc step (d, open below cid) (d', Ret (Some c)) → life d' c []
  | life_commit now n d c tried d' c' r :
      life d c tried → rtc step (d, commit_name now n c) (d', Ret (c', r)) →
      life d' c' (match r with
                  | None => n :: tried
                  | Some _ => if after_cursor (position c) n then [] else tried
                  end)
  | life_other {R} (op : Op R) r d c tried d' :
      life d c tried → away cid d op → exec d op r d' → life d' c tried.

(** Where a commit of [n] takes the cursor: never back. *)
Definition advance (last : option rstr) (n : rstr) : option rstr :=
  if after_cursor last n then Some n else last.

(** The positions a power loss may leave. *)
Definition reached (last : option rstr) (tried : list rstr) (s : option rstr) : Prop :=
  s = last ∨ ∃ m, m ∈ tried ∧ s = Some m ∧ after_cursor last m = true.

Lemma booted_cursor d s : booted d → found cid d s → cursor_at cid (eq s) d.
Proof.
  intros (Hs & Hp & Hw) Hf. split; [done|]. pose proof (sane_consistent _ Hs) as Hc.
  assert (durable d !! cursor_path cid = live d !! cursor_path cid) as Hd by (by rewrite <- Hc, replay_other).
  eapply (maybe_mono _ (eq (live d !! cursor_path cid))).
  - intros o <-. unfold found in Hf. destruct (live d !! cursor_path cid) as [i|] eqn:El; [|done].
    destruct Hf as (nd & st & Hi & Hst & E). split; [exists nd; split; [done|]; split; [by eapply Hw|by exists st]|].
    intros p Hl. by apply (sane_inj _ Hs _ _ i).
  - split; [done|]. eapply Forall_impl; [exact Hp|]. intros []; cbn; set_solver.
Qed.

Lemma watermark_away P id n d :
  cursor_at cid P d → always (cursor_at cid P) (λ _ _, True) (publish_consumer_watermark id n) d.
Proof.
  intros Ho. apply always_op; [done|]. intros r d' He.
  assert (cursor_at cid P d') by (by eapply (cursor_away cid P (OpMkdir ConsumersDir))).
  destruct r; [|by apply always_ret]. by apply publish_away.
Qed.

Lemma commit_always now n c tried d :
  consumer_id c = cid → cursor_at cid (reached (position c) tried) d →
  always (cursor_at cid (reached (position c) (n :: tried)))
    (λ x d', consumer_id x.1 = cid ∧
       match x.2 with
       | None => position x.1 = position c ∧ cursor_at cid (reached (position c) (n :: tried)) d'
       | Some _ => position x.1 = advance (position c) n ∧
           cursor_at cid (if after_cursor (position c) n then eq (Some n) else reached (position c) tried) d'
       end)
    (commit_name now n c) d.
Proof.
  intros Hid Ho. set (P := reached (position c) tried) in *. set (Q := reached (position c) (n :: tried)).
  assert (∀ s, P s → Q s) as HPQ by (intros s [->|(m & ? & ?)]; [by left|right; exists m; split; [by right|done]]).
  pose proof (cursor_mono cid P Q d HPQ Ho) as HoQ. unfold commit_name, advance.
  assert (match position c with Some last => lex_leb n last | None => false end = negb (after_cursor (position c) n)) as ->.
  { unfold after_cursor. destruct (position c); [by rewrite negb_involutive|done]. }
  destruct (after_cursor (position c) n) eqn:Ea; cbn [negb]; [|by apply always_ret].
  assert (∀ s, s = Some n → Q s) as Hn by (intros s ->; right; exists n; split; [left|done]).
  apply always_bind. unfold persist. destruct (to_vec_pretty _) as [bs|] eqn:Ej; [|by do 2 (apply always_ret; [done|])].
  apply cursor_roundtrip in Ej. rewrite Hid.
  eapply (always_mono (cursor_at cid (λ s, P s ∨ s = Some n))); [| |by apply (publish_cursor cid P _ bs _ Ho Ej)].
  { intros d'. apply cursor_mono. intros s [?|?]; auto. }
  intros [[]|] d1 Hs1 Hp.
  - specialize (Hp eq_refl). cbn [last_segment_name consumer_id] in *. apply always_bind.
    eapply (always_mono (cursor_at cid (eq (Some n)))); [| |by apply watermark_away].
    + intros d'. apply cursor_mono. intros s <-. auto.
    + intros r d2 Ho2 _. by apply always_ret; [eapply cursor_mono; [|exact Ho2]; intros s <-; auto|].
  - assert (cursor_at cid Q d1) by (eapply cursor_mono; [|exact Hs1]; intros s [?|?]; auto). by apply always_ret.
Qed.

Lemma life_cursor d c tried :
  life d c tried → consumer_id c = cid ∧ cursor_at cid (reached (position c) tried) d.
Proof.
  induction 1 as [below d d' c Hb Hr|now n d c tried d' c' r _ [Hid Hc] Hr|R op r d c tried d' _ [Hid Hc] Hw He].
  - pose proof (always_run _ _ _ _ _ _ Hr (open_found below d)) as [<- Hf]. destruct (Hf c eq_refl) as [? Hfd].
    split; [done|]. eapply cursor_mono; [|by eapply booted_cursor]. intros s <-. by left.
  - pose proof (always_run _ _ _ _ _ _ Hr (commit_always now n c tried d Hid Hc)) as (_ & Hid' & Hp). cbn [fst snd] in *.
    split; [done|]. destruct r as [u|]; destruct Hp as [Hp Hc']; rewrite Hp; [|done]. unfold advance.
    destruct (after_cursor (position c) n); [|done]. eapply cursor_mono; [|exact Hc']. intros s <-. by left.
  - split; [done|]. by eapply cursor_away.
Qed.

(** C10. The cursor is durable and never goes back.  A consumer is opened on a
    disk at rest ([booted]: nothing pending on the cursor file, which is whole
    if it is there, and no file under two names) and commits any names in any order, any file-system call of a
    commit failing (the fsync after the rename included); other programs may
    touch any other file meanwhile; the power goes at any point of the next
    commit.  The consumer opened next finds a cursor file it can read, and
    stands at the position of the last commit that moved the cursor and
    returned, or at a name past it whose commit failed since or was under way;
    at exactly the committed name when that commit moved the cursor and had
    returned. *)
Theorem cursor_power_loss d c tried now n d1 p d2 :
  life d c tried → rtc step (d, commit_name now n c) (d1, p) → crash d1 d2 →
  ∃ s, reached (position c) (n :: tried) s ∧ found cid d2 s
    ∧ (∀ c1, p = Ret (c1, Some tt) → position c1 = advance (position c) n
         ∧ if after_cursor (position c) n then s = Some n else reached (position c) tried s)
    ∧ ∀ below d3 c', rtc step (d2, open below cid) (d3, Ret (Some c')) → position c' = s.
Proof.
  intros Hl Hr Hc. destruct (life_cursor _ _ _ Hl) as [Hid Hat].
  pose proof (always_run _ _ _ _ _ _ Hr (commit_always now n c tried d Hid Hat)) as Hal.
  destruct (cursor_crash _ _ _ _ (always_here _ _ _ _ Hal) Hc) as (s & Hs & Hf). exists s. split; [done|]. split; [done|]. split.
  - intros c1 ->. destruct Hal as (_ & _ & Hp & Hat1). split; [done|].
    destruct (cursor_crash _ _ _ _ Hat1 Hc) as (s' & Hs' & Hf'). rewrite <- (found_unique _ _ _ Hf Hf') in Hs'.
    by destruct (after_cursor (position c) n).
  - intros below d3 c' Ho. pose proof (always_run _ _ _ _ _ _ Ho (open_found below d2)) as [_ Hp].
    destruct (Hp c' eq_refl) as [_ Hf']. by eapply found_unique.
Qed.
End Commit.

(** * Witness *)

#[local] Existing Instance sample_json.
#[local] Existing Instance sample_json_laws.

Definition det : rstr := Eval vm_compute in lit "det".
Definition first_name : rstr := Eval vm_compute in lit "ingester-0-0188.arrow".
Definition second_name : rstr := Eval vm_compute in lit "ingester-0-0199.arrow".
Definition blank : Disk := mkDisk ∅ ∅ ∅ [].

(** A consumer on an empty directory; its first commit fails in the fsync of the
    directory, the second returns. *)
Definition failing : list (bool * nat) := replicate 4 (true, 0%nat) ++ [(false, 0%nat)].
Definition consumer_0 : SegmentConsumer := Eval vm_compute in mkConsumer det (mkCursor None None) false.
Definition failed_disk : Disk := Eval vm_compute in
  match runs (commit_name 7 first_name consumer_0) failing blank with Some (d, _) => d | None => blank end.
Definition consumer_1 : SegmentConsumer := Eval vm_compute in mkConsumer det (mkCursor (Some second_name) (Some 8)) false.
Definition done_disk : Disk := Eval vm_compute in
  match runs (commit_name 8 second_name consumer_0) [] failed_disk with Some (d, _) => d | None => blank end.

Lemma sample_life : life det failed_disk consumer_0 [first_name].
Proof.
  apply (life_commit det 7 first_name blank consumer_0 [] failed_disk consumer_0 None).
  - apply (life_open det false blank blank); [|apply (runs_step _ []); vm_compute; reflexivity].
    split; [|split; [constructor|done]]. by split.
  - apply (runs_step _ failing). vm_compute. reflexivity.
Qed.

Lemma cursor_power_loss_witness :
  ∃ d2, rtc step (failed_disk, commit_name 8 second_name consumer_0) (done_disk, Ret (consumer_1, Some tt))
    ∧ crash done_disk d2 ∧ found det d2 (Some second_name).
Proof.
  assert (rtc step (failed_disk, commit_name 8 second_name consumer_0) (done_disk, Ret (consumer_1, Some tt))) as Hr.
  { apply (runs_step _ []). vm_compute. reflexivity. }
  assert (crash done_disk (mkDisk (map_imap (torn (λ _, 0%nat)) (inodes done_disk)) (durable done_disk) (durable done_disk) [])) as Hc.
  { apply crash_intro. repeat constructor. }
  destruct (cursor_power_loss det failed_disk consumer_0 [first_name] 8 second_name done_disk _ _ sample_life Hr Hc)
    as (s & _ & Hf & Hret & _).
  eexists. split; [done|]. split; [exact Hc|].
  destruct (Hret consumer_1 eq_refl) as [_ Hs]. vm_compute in Hs. by subst s.
Defined.
