(* ===== verification/WalRetention.v ===== *)
(** Retention of committed segments (loglake-wal, [lib.rs]): the lowest
    watermark of the fresh consumers and the sweep of [committed/] it gates.

    [age] is the age a pass observes of a file.  A removal that fails is told
    from a file another pass removed first by looking again. *)

From stdpp Require Import prelude gmap strings sorting.
From Stdlib Require Import ZArith Lia.
From S2P Require Import Prelude RustStr BTree WalFrame WalDisk WalLifecycle WalConsumer.

(** * The pass *)

Definition min_watermark (min : option rstr) (wm : rstr) : option rstr :=
  match min with
  | Some cur => if lex_leb cur wm then Some cur else Some wm
  | None => Some wm
  end.

Definition hidden (n : rstr) : bool := match n with 0x2E :: _ => true | _ => false end.

Definition watermark_of (age : path → Z) (stale_after : Z) (min : option rstr) (n : rstr)
    : Prog (option (option rstr)) :=
  if hidden n then Ret (Some min) else
  if stale_after <=? age (ConsumersDir, n) then Ret (Some min) else
  let? bs := call (OpRead (ConsumersDir, n)) in
  match from_utf8 bs with
  | None => Ret None
  | Some wm => Ret (Some (min_watermark min (trim wm)))
  end.

Definition min_consumer_watermark (age : path → Z) (stale_after : Z) : Prog (option (option rstr)) :=
  let? names := call (OpReadDir ConsumersDir) in
  prog_each (watermark_of age stale_after) names None.

Record CommittedSweep := mkSweep { deleted : nat; unmarked : nat }.

Section Sweep.
Context (age : path → Z) (retention max_retention : Z) (marked : option (list rstr)).

Definition expired (n : rstr) : bool := max_retention <=? age (CommittedDir, n).
Definition gated (n : rstr) : bool :=
  match marked with Some set => negb (bool_decide (n ∈ set)) | None => false end.
Definition consumed (watermark : option rstr) (n : rstr) : bool :=
  match watermark with Some wm => lex_leb n wm | None => true end.

Definition sweep_one (watermark : option rstr) (swept : CommittedSweep) (n : rstr)
    : Prog (option CommittedSweep) :=
  let p := (CommittedDir, n) in
  if negb (is_arrow n) then Ret (Some swept) else
  if negb (expired n || ((retention <=? age p) && consumed watermark n)) then Ret (Some swept) else
  if gated n && negb (expired n) then Ret (Some swept) else
  let! r := call (OpRemove p) in
  match r with
  | Some _ =>
      let! _ := remove_sidecar p in
      Ret (Some (mkSweep (S (deleted swept)) (if gated n then S (unmarked swept) else unmarked swept)))
  | None =>
      let! e := call (OpExists p) in
      if e : bool then Ret None else Ret (Some swept)
  end.

Definition sweep_committed_gated (stale_after : Z) : Prog (option CommittedSweep) :=
  let? watermark := min_consumer_watermark age stale_after in
  let? names := call (OpReadDir CommittedDir) in
  prog_each (sweep_one watermark) names (mkSweep 0 0).
End Sweep.

Definition sweep_committed_coordinated (age : path → Z) (retention max_retention stale_after : Z)
    : Prog (option nat) :=
  let? s := sweep_committed_gated age retention max_retention None stale_after in
  Ret (Some (deleted s)).

Definition sweep_committed (age : path → Z) (retention : Z) : Prog (option nat) :=
  sweep_committed_coordinated age retention retention 0.

(** * What a pass removes *)

Section Spec.
Context (age : path → Z) (retention max_retention stale_after : Z) (marked : option (list rstr)).
Context (d0 : Disk).

(** [w] is the watermark of a consumer whose file is fresh. *)
Definition fresh_watermark (w : rstr) : Prop :=
  ∃ n i nd, hidden n = false ∧ age (ConsumersDir, n) < stale_after
    ∧ live d0 !! (ConsumersDir, n) = Some i ∧ inodes d0 !! i = Some nd ∧ trim (data nd) = w.

(** A segment the pass may remove: past the ceiling, or past the floor, passed
    by every fresh consumer and marked where a mark is asked for. *)
Definition removable (n : rstr) : Prop :=
  max_retention ≤ age (CommittedDir, n)
  ∨ (retention ≤ age (CommittedDir, n) ∧ (∀ w, fresh_watermark w → lex_le n w)
     ∧ match marked with Some set => n ∈ set | None => True end).

(** What holds of the disk all along: only removable segments and sidecars of
    [committed/] are missing. *)
Definition only_removable (d : Disk) : Prop :=
  inodes d = inodes d0 ∧
  ∀ p, live d !! p = live d0 !! p
       ∨ live d !! p = None ∧ ∃ n, is_arrow n = true ∧ removable n
           ∧ (p = (CommittedDir, n) ∨ p = crc_sidecar_path (CommittedDir, n)).

(** ** The lowest watermark *)

Lemma consumed_min min w n :
  consumed (min_watermark min w) n = true ↔ consumed min n = true ∧ lex_le n w.
Proof.
  unfold min_watermark. destruct min as [m|]; cbn [consumed]; [|tauto].
  destruct (lex_leb m w) eqn:E; cbn [consumed]; fold (lex_le m w) in E.
  - split; [|tauto]. intros Hn. split; [done|]. by apply (transitivity (R:=lex_le) (y:=m)).
  - apply lex_leb_false in E. split; [|tauto]. intros Hn. split; [|done].
    apply (transitivity (R:=lex_le) (y:=w)); [exact Hn|]. apply lex_le_lt_eq. by left.
Qed.

Definition fresh_in (names : list rstr) (w : rstr) : Prop :=
  ∃ n i nd, n ∈ names ∧ hidden n = false ∧ age (ConsumersDir, n) < stale_after
    ∧ live d0 !! (ConsumersDir, n) = Some i ∧ inodes d0 !! i = Some nd ∧ trim (data nd) = w.

Lemma watermark_of_always min n :
  always (eq d0)
    (λ r _, ∀ min', r = Some min' → ∀ x,
       consumed min' x = true ↔ consumed min x = true ∧ ∀ w, fresh_in [n] w → lex_le x w)
    (watermark_of age stale_after min n) d0.
Proof.
  assert (∀ min x, (∀ w, ¬ fresh_in [n] w) →
    consumed min x = true ↔ consumed min x = true ∧ ∀ w, fresh_in [n] w → lex_le x w) as Hskip.
  { intros m x Hno. split; [|tauto]. intros Hx. split; [done|]. intros w Hw. by destruct (Hno w). }
  unfold watermark_of. destruct (hidden n) eqn:Eh.
  { apply always_ret; [done|]. intros ? [= <-] x. apply Hskip. intros w (? & ? & ? & ->%list_elem_of_singleton & ? & _). congruence. }
  destruct (Z.leb_spec stale_after (age (ConsumersDir, n))).
  { apply always_ret; [done|]. intros ? [= <-] x. apply Hskip. intros w (? & ? & ? & ->%list_elem_of_singleton & ? & ? & _). lia. }
  always_op He. destruct (from_utf8 (data nd)) as [wm|] eqn:Eu; [|by apply always_ret].
  apply from_utf8_Some in Eu as [-> _]. apply always_ret; [done|]. intros ? [= <-] x. rewrite consumed_min.
  split; intros [Hx Hw]; (split; [done|]).
  - intros w (? & ? & ? & ->%list_elem_of_singleton & _ & _ & ? & ? & <-). by simplify_eq.
  - apply Hw. exists n, i, nd. split_and!; try done. by left.
Qed.

Lemma watermarks_always names min :
  always (eq d0)
    (λ r _, ∀ min', r = Some min' → ∀ x,
       consumed min' x = true ↔ consumed min x = true ∧ ∀ w, fresh_in names w → lex_le x w)
    (prog_each (watermark_of age stale_after) names min) d0.
Proof.
  revert min. induction names as [|n names IH]; intros min; cbn [prog_each].
  - apply always_ret; [done|]. intros ? [= <-] x. split; [|tauto]. intros Hx. split; [done|].
    intros w (? & ? & ? & Hin & _). by apply elem_of_nil in Hin.
  - apply always_bind. eapply (always_mono (eq d0)); [done| |apply watermark_of_always].
    intros [m|] d' <- Hm; [|by apply always_ret]. eapply (always_mono (eq d0)); [done| |apply IH].
    intros r d' <- Hr min' -> x. rewrite (Hr min' eq_refl x), (Hm m eq_refl x). unfold fresh_in.
    setoid_rewrite elem_of_cons. setoid_rewrite elem_of_nil. clear. naive_solver.
Qed.

Lemma min_watermark_always :
  always (eq d0)
    (λ r _, ∀ min, r = Some min → ∀ x, consumed min x = true ↔ ∀ w, fresh_watermark w → lex_le x w)
    (min_consumer_watermark age stale_after) d0.
Proof.
  unfold min_consumer_watermark. always_op He. eapply (always_mono (eq d0)); [done| |apply watermarks_always].
  intros r d' <- Hr min -> x. rewrite (Hr min eq_refl x). cbn [consumed]. unfold fresh_in, fresh_watermark.
  split; [|].
  - intros [_ Hw] w (n & i & nd & ? & ? & Hl & ?). apply Hw. exists n, i, nd. split; [|done]. apply He. by exists i.
  - intros Hw. split; [done|]. intros w (n & i & nd & _ & ?). apply Hw. by exists n, i, nd.
Qed.

(** ** The sweep *)

Context (watermark : option rstr).
Context (Hwm : ∀ x, consumed watermark x = true ↔ ∀ w, fresh_watermark w → lex_le x w).

Definition removes (n : rstr) : bool :=
  is_arrow n && (expired age max_retention n || ((retention <=? age (CommittedDir, n)) && consumed watermark n))
  && negb (gated marked n && negb (expired age max_retention n)).

Lemma removes_spec n : removes n = true ↔ is_arrow n = true ∧ removable n.
Proof.
  unfold removes, removable, expired, gated. rewrite <- Hwm.
  destruct (is_arrow n); cbn [andb]; [|naive_solver].
  destruct (Z.leb_spec max_retention (age (CommittedDir, n))) as [He|He]; cbn [orb andb negb].
  - rewrite andb_false_r. cbn. split; [intros _; split; [done|by left]|done].
  - rewrite andb_true_r. destruct (Z.leb_spec retention (age (CommittedDir, n))); cbn [andb];
      [|split; [done|]; intros [_ [?|[? _]]]; lia].
    destruct (consumed watermark n); cbn [andb].
    + destruct marked as [set|]; [|naive_solver]. rewrite negb_involutive, bool_decide_eq_true.
      split; [intros; split; [done|]; by right|]. intros [_ [?|(_ & _ & ?)]]; [lia|done].
    + split; [done|]. intros [_ [?|(_ & ? & _)]]; [lia|done].
Qed.

(** After the names [seen] of the listing. *)
Record sweeping (seen : list rstr) (s : CommittedSweep) (d : Disk) : Prop := mkSweeping {
  sw_only : only_removable d;
  sw_live n : is_arrow n = true →
    live d !! (CommittedDir, n) = if bool_decide (n ∈ seen) && removes n then None else live d0 !! (CommittedDir, n);
  sw_deleted : deleted s = length (filter (λ n, removes n = true) seen);
  sw_unmarked : unmarked s = length (filter (λ n, gated marked n = true ∧ removes n = true) seen);
}.

Lemma other_ext_not_arrow n ext : last ext ≠ None → last ext ≠ last DOT_ARROW → is_arrow (n ++ ext) = false.
Proof.
  intros H1 H2. unfold is_arrow. destruct (strip_suffix (n ++ ext) DOT_ARROW) as [r|] eqn:E; [|done].
  apply strip_suffix_Some, (f_equal last) in E. rewrite !last_app in E. by destruct (last ext).
Qed.

Lemma sidecar_not_arrow n : is_arrow (n ++ DOT_CRC) = false.
Proof. by apply other_ext_not_arrow. Qed.

Lemma only_removable_unlink n p d :
  is_arrow n = true → removable n → p = (CommittedDir, n) ∨ p = crc_sidecar_path (CommittedDir, n) →
  only_removable d → only_removable (change (Unlink p) d).
Proof.
  intros Ha Hr Hp [Hi Ho]. split; [done|]. intros q. cbn. rewrite lookup_delete. case_decide as E; [|apply Ho].
  right. split; [done|]. exists n. subst q. auto.
Qed.

Lemma filter_snoc {A} (P : A → Prop) `{!∀ x, Decision (P x)} l x :
  filter P (l ++ [x]) = filter P l ++ (if decide (P x) then [x] else []).
Proof. by rewrite filter_app, filter_cons, filter_nil. Qed.

Lemma sweeping_skip seen s n d : removes n = false → sweeping seen s d → sweeping (seen ++ [n]) s d.
Proof.
  intros Hn [Ho Hl Hd Hu]. split; [done| | |].
  - intros m Hm. rewrite (Hl m Hm). destruct (removes m) eqn:Em; [|by rewrite !andb_false_r]. rewrite !andb_true_r.
    assert (m ≠ n) by congruence. f_equal. by rewrite (bool_decide_ext (m ∈ seen ++ [n]) (m ∈ seen)) by set_solver.
  - rewrite filter_snoc, decide_False, app_nil_r; [done|]. by rewrite Hn.
  - rewrite filter_snoc, decide_False, app_nil_r; [done|]. rewrite Hn. by intros [_ ?].
Qed.

Lemma sweeping_remove seen s n d :
  removes n = true → n ∉ seen → sweeping seen s d →
  let s' := mkSweep (S (deleted s)) (if gated marked n then S (unmarked s) else unmarked s) in
  sweeping (seen ++ [n]) s' (change (Unlink (CommittedDir, n)) d)
  ∧ sweeping (seen ++ [n]) s'
      (change (Unlink (crc_sidecar_path (CommittedDir, n))) (change (Unlink (CommittedDir, n)) d)).
Proof.
  intros Hn Hin [Ho Hl Hd Hu] s'. pose proof (proj1 (removes_spec n) Hn) as [Ha Hr].
  assert (deleted s' = length (filter (λ n, removes n = true) (seen ++ [n]))) as Hd'.
  { rewrite filter_snoc, decide_True, length_app by done. cbn. lia. }
  assert (unmarked s' = length (filter (λ n, gated marked n = true ∧ removes n = true) (seen ++ [n]))) as Hu'.
  { rewrite filter_snoc, length_app. cbn. destruct (gated marked n) eqn:Eg.
    - rewrite decide_True by done. cbn. lia.
    - rewrite decide_False by (by intros [? _]). cbn. lia. }
  assert (∀ m, is_arrow m = true → live (change (Unlink (CommittedDir, n)) d) !! (CommittedDir, m)
    = if bool_decide (m ∈ seen ++ [n]) && removes m then None else live d0 !! (CommittedDir, m)) as Hl'.
  { intros m Hm. cbn. rewrite lookup_delete. case_decide as E.
    - injection E as <-. rewrite Hn, bool_decide_true by set_solver. done.
    - rewrite (Hl m Hm). assert (m ≠ n) by congruence.
      by rewrite (bool_decide_ext (m ∈ seen ++ [n]) (m ∈ seen)) by set_solver. }
  assert (only_removable (change (Unlink (CommittedDir, n)) d)) as Ho1 by (apply (only_removable_unlink n); auto).
  split; (split; [|intros m Hm|done|done]).
  - done.
  - by apply Hl'.
  - apply (only_removable_unlink n); auto.
  - rewrite <- (Hl' m Hm). cbn. apply lookup_delete_ne. intros E. injection E as E.
    rewrite <- E, sidecar_not_arrow in Hm. done.
Qed.

Lemma sweep_one_always seen s n d :
  sweeping seen s d → n ∉ seen → is_Some (live d0 !! (CommittedDir, n)) →
  always only_removable (λ r d', ∀ s', r = Some s' → sweeping (seen ++ [n]) s' d')
    (sweep_one age retention max_retention marked watermark s n) d.
Proof.
  intros Hs Hn Hex. pose proof (sw_only _ _ _ Hs) as Ho.
  assert (removes n = false → always only_removable (λ r d', ∀ s', r = Some s' → sweeping (seen ++ [n]) s' d')
    (Ret (Some s)) d) as Hskip.
  { intros Hr. apply always_ret; [done|]. intros ? [= <-]. by apply sweeping_skip. }
  unfold sweep_one. unfold removes in Hskip. destruct (is_arrow n) eqn:Ha; cbn [negb andb] in *; [|by apply Hskip].
  destruct (_ || _) eqn:E1; cbn [negb andb] in *; [|by apply Hskip].
  destruct (gated marked n && _) eqn:E2; cbn [negb] in *; [by apply Hskip|].
  assert (removes n = true) as Hr by (unfold removes; by rewrite Ha, E1, E2).
  destruct (sweeping_remove _ _ _ _ Hr Hn Hs) as [H1 H2].
  pose proof (sw_only _ _ _ H1). pose proof (sw_only _ _ _ H2). clear Hskip. always_op He.
  - assert (is_Some (live d !! (CommittedDir, n))) as Hl by (by rewrite (sw_live _ _ _ Hs n Ha), bool_decide_false).
    always_op He. rewrite bool_decide_true by done. by apply always_ret.
  - unfold remove_sidecar. always_op He; (apply always_ret; [done|]); by intros ? [= <-].
Qed.

Lemma sweep_all_always names seen s d :
  sweeping seen s d → NoDup (seen ++ names) → (∀ n, n ∈ names → is_Some (live d0 !! (CommittedDir, n))) →
  always only_removable (λ r d', ∀ s', r = Some s' → sweeping (seen ++ names) s' d')
    (prog_each (sweep_one age retention max_retention marked watermark) names s) d.
Proof.
  revert seen s d. induction names as [|n names IH]; intros seen s d Hs Hnd Hex; cbn [prog_each].
  - apply always_ret; [apply Hs|]. intros ? [= <-]. by rewrite app_nil_r.
  - rewrite cons_middle, app_assoc in Hnd |- *. apply always_bind.
    eapply (always_mono only_removable); [done| |apply (sweep_one_always seen); [done| |apply Hex; left]].
    + intros [s1|] d1 Ho H1; [|by apply always_ret]. apply IH; [by apply H1|done|]. intros m Hm. apply Hex. by right.
    + rewrite <- app_assoc in Hnd. apply NoDup_app in Hnd as (_ & Hd & _). intros Hin. apply (Hd n Hin). left.
Qed.
End Spec.

(** * The theorem *)

(** A pass from [d] that returned [s] on [d']. *)
Definition swept_exactly age retention max_retention stale_after marked d (s : CommittedSweep) d' : Prop :=
  ∃ gone, NoDup gone
    ∧ (∀ n, n ∈ gone ↔ is_arrow n = true ∧ is_Some (live d !! (CommittedDir, n))
         ∧ removable age retention max_retention stale_after marked d n)
    ∧ (∀ n, is_arrow n = true → live d' !! (CommittedDir, n) = None ↔ live d !! (CommittedDir, n) = None ∨ n ∈ gone)
    ∧ deleted s = length gone ∧ unmarked s = length (filter (λ n, gated marked n = true) gone).

Lemma swept_all age retention max_retention stale_after marked d wm names s d' :
  (∀ x, consumed wm x = true ↔ ∀ w, fresh_watermark age stale_after d w → lex_le x w) →
  NoDup names → (∀ n, n ∈ names ↔ is_Some (live d !! (CommittedDir, n))) →
  sweeping age retention max_retention stale_after marked d wm names s d' →
  swept_exactly age retention max_retention stale_after marked d s d'.
Proof.
  intros Hwm Hnd Hnames [_ Hl Hd Hu].
  exists (filter (λ n, removes age retention max_retention marked wm n = true) names).
  assert (∀ n, n ∈ filter (λ n, removes age retention max_retention marked wm n = true) names
    ↔ is_arrow n = true ∧ is_Some (live d !! (CommittedDir, n))
      ∧ removable age retention max_retention stale_after marked d n) as Hg.
  { intros n. rewrite list_elem_of_filter, (removes_spec _ _ _ stale_after _ d _ Hwm), Hnames. tauto. }
  split_and!; [by apply NoDup_filter|done| |done|by rewrite Hu, list_filter_filter].
  intros n Hn. rewrite (Hl n Hn), list_elem_of_filter.
  destruct (removes _ _ _ _ _ n) eqn:Er; [|rewrite andb_false_r; naive_solver]. rewrite andb_true_r.
  case_bool_decide as Hin; [naive_solver|]. rewrite Hnames in *. split; [by left|]. intros [?|[_ ?]]; done.
Qed.

(** C21. A sweep removes exactly what retention allows.  At every point of a
    pass only removable segments of [committed/] and their sidecars are gone: a
    segment below the hard ceiling stays until it is past the floor, passed by
    every consumer with a fresh watermark and, where marks are asked for,
    marked.  A pass that returns has removed every removable segment, counts
    each once, and counts the ones that went unmarked. *)
Theorem sweep_exact age retention max_retention stale_after marked d d' p :
  rtc step (d, sweep_committed_gated age retention max_retention marked stale_after) (d', p) →
  only_removable age retention max_retention stale_after marked d d'
  ∧ ∀ s, p = Ret (Some s) → swept_exactly age retention max_retention stale_after marked d s d'.
Proof.
  set (only := only_removable age retention max_retention stale_after marked d).
  set (fin := λ (r : option CommittedSweep) d', ∀ s, r = Some s →
                swept_exactly age retention max_retention stale_after marked d s d').
  assert (only d) as Ho by (split; [done|by left]).
  intros Hr. assert (always only fin (sweep_committed_gated age retention max_retention marked stale_after) d) as Hal.
  { apply always_bind. eapply (always_mono (eq d)); [by intros ? <-| |apply min_watermark_always].
    intros [wm|] d1 <- Hwm; [|by apply always_ret]. specialize (Hwm wm eq_refl). always_op He.
    eapply (always_mono only); [done| |apply (sweep_all_always _ _ _ _ _ _ _ Hwm names [])].
    - intros r d1 _ Hs s ->. by eapply swept_all; [exact Hwm|done|exact He|apply (Hs s eq_refl)].
    - split; [done| |done|done]. intros n _. by rewrite bool_decide_false by (by apply not_elem_of_nil).
    - done.
    - intros n. by apply He. }
  pose proof (always_run _ _ _ _ _ _ Hr Hal) as Hfin. split; [by apply (always_here _ _ _ _ Hfin)|].
  intros s ->. destruct Hfin as [_ Hf]. by apply Hf.
Qed.

(** * A pass over one old segment *)

Lemma sweep_exact_witness :
  ∃ s d', swept_exactly (λ _, 100) 10 50 5 None (sample_disk CommittedDir) s d'.
Proof.
  set (d' := change (Unlink (CommittedDir, sample_name)) (sample_disk CommittedDir)).
  assert (∃ s, rtc step (sample_disk CommittedDir, sweep_committed_gated (λ _, 100) 10 50 None 5) (d', Ret (Some s)))
    as [s Hs].
  { eexists. run_call (@Some (list rstr) []); [by eapply (listing_none ConsumersDir CommittedDir)|].
    run_call (Some [sample_name]); [by eapply (listing_one CommittedDir)|].
    run_call (Some tt); [right; by exists 1%N|].
    run_call (@None unit); [by left|]. apply rtc_refl. }
  exists s, d'. apply (proj2 (sweep_exact (λ _, 100) 10 50 5 None _ _ _ Hs) s eq_refl).
Defined.
