(* ===== verification/WalBuffer.v ===== *)
(** The query server's WAL buffer ([crates/loglake-query-server/src/wal_buffer.rs]):
    the sealed segments a query reads beside the Iceberg snapshot it was given.

    A buffer read lists [sealed/], [processing/] and the recent part of
    [committed/], leaves out the segments the snapshot names as consumed, and
    reads the rest one file after the other, while drains move the files.  The
    age of a file is what the read observes of its mtime; carrier mapping and
    alignment to the table's schema ([conform]) are Arrow's. *)

From stdpp Require Import prelude gmap strings sorting.
From Stdlib Require Import ZArith Lia.
From S2P Require Import Prelude RustStr BTree WalFrame WalDisk WalLifecycle WalConsumer.

(** * Listing *)

(** Nanoseconds. *)
Definition RECENT_COMMITTED_WINDOW : Z := 300 * 1000000000.

Definition dir_name (D : Dir) : rstr :=
  match D with
  | SealedDir => lit "sealed" | ProcessingDir => lit "processing" | CommittedDir => lit "committed"
  | _ => []
  end.

(** The order of [PathBuf]s under one directory, by component. *)
Definition listed_le (p q : path) : Prop :=
  lex_lt (dir_name p.1) (dir_name q.1) ∨ dir_name p.1 = dir_name q.1 ∧ lex_le p.2 q.2.

#[global] Instance listed_le_dec : RelDecision listed_le.
Proof. unfold RelDecision, listed_le. apply _. Defined.

Record Listing := mkListing { out : list path; excluded : nat; pruned : nat }.

Definition read_meta (p : path) : Prog (option WalFrameMeta) :=
  let! file := call (OpRead p) in Ret (file ≫= read_segment_meta).

(** Entirely outside the half-open window. *)
Definition outside_window (w : Z * Z) (m : WalFrameMeta) : bool :=
  (max_ts_nanos m <? w.1) || (w.2 <=? min_ts_nanos m).

Section Buffer.
Context (age : path → option Z) (to_string : Uuid → rstr).

Definition recent (p : path) : bool :=
  match age p with Some a => a <? RECENT_COMMITTED_WINDOW | None => false end.

Definition list_entry (exclude : list rstr) (time_bound : option (Z * Z)) (sub : Dir) (l : Listing) (n : rstr)
    : Prog (option Listing) :=
  let p := (sub, n) in
  let keep := mkListing (out l ++ [p]) (excluded l) (pruned l) in
  if negb (is_arrow n) then Ret (Some l) else
  if bool_decide (sub = CommittedDir) && negb (recent p) then Ret (Some l) else
  if bool_decide (n ∈ exclude) then Ret (Some (mkListing (out l) (S (excluded l)) (pruned l))) else
  match time_bound with
  | None => Ret (Some keep)
  | Some w =>
      let! meta := read_meta p in
      Ret (Some (match meta with
                 | Some m => if outside_window w m then mkListing (out l) (excluded l) (S (pruned l)) else keep
                 | None => keep
                 end))
  end.

Definition list_uncommitted_segments (exclude : list rstr) (time_bound : option (Z * Z)) : Prog (option Listing) :=
  let? l := prog_each (λ l sub, let? names := call (OpReadDir sub) in
                                prog_each (list_entry exclude time_bound sub) names l)
              [SealedDir; ProcessingDir; CommittedDir] (mkListing [] 0 0) in
  Ret (Some (mkListing (merge_sort listed_le (out l)) (excluded l) (pruned l))).

Definition has_unserved_segments (exclude : list rstr) : Prog bool :=
  let! l := list_uncommitted_segments exclude None in
  Ret (match l with Some l => match out l with [] => false | _ => true end | None => true end).

(** ** Ownership *)

Fixpoint retain_owned (uuid : rstr) (segments : list path) : Prog (list path) :=
  match segments with
  | [] => Ret []
  | p :: segments =>
      let! o := classify_segment_owner to_string p uuid in
      let! rest := retain_owned uuid segments in
      Ret (match o with Owned | Unmarked => p :: rest | Stale _ => rest end)
  end.

Definition retain_owned_segments (segments : list path) (owner : option rstr) : Prog (list path) :=
  match owner with None => Ret segments | Some uuid => retain_owned uuid segments end.

Definition wal_dir_serves_table (table_uuid : rstr) : Prog bool :=
  let! o := classify_wal_owner table_uuid in
  Ret (match o with Owned | Unmarked => true | Stale _ => false end).

Definition uncommitted_segment_names_with_bound (exclude : list rstr) (time_bound : option (Z * Z))
    (owner : option rstr) : Prog (option (list rstr)) :=
  let? l := list_uncommitted_segments exclude time_bound in
  let! segments := retain_owned_segments (out l) owner in
  Ret (Some (merge_sort lex_le (snd <$> segments))).

Definition uncommitted_segment_names (exclude : list rstr) (owner : option rstr) : Prog (option (list rstr)) :=
  uncommitted_segment_names_with_bound exclude None owner.

Definition owned_uncommitted_segment_names (exclude : list rstr) (owner : option rstr)
    : Prog (option (list rstr)) :=
  let! serves := match owner with Some uuid => wal_dir_serves_table uuid | None => Ret true end in
  if serves : bool then uncommitted_segment_names exclude owner else Ret (Some []).

(** ** The decode budget *)

(** One entry of the sizing walk: [inl] is its early return. *)
Definition size_entry (exclude : list rstr) (time_bound : option (Z * Z)) (max : Z) (seg_cap : Z) (sub : Dir)
    (s : Z * Z) (n : rstr) : Prog (Z + Z * Z) :=
  let '(total, examined) := s in
  let p := (sub, n) in
  if negb (is_arrow n) || bool_decide (n ∈ exclude) then Ret (inr s) else
  let examined := examined + 1 in
  if (0 <? seg_cap) && (seg_cap <? examined) then Ret (inl total) else
  let! outside := match time_bound with
                  | Some w => let! m := read_meta p in
                              Ret (match m with Some m => outside_window w m | None => false end)
                  | None => Ret false
                  end in
  if outside : bool then Ret (inr (total, examined)) else
  let! file := call (OpRead p) in
  let total := saturating_add 64 total (match file with Some f => len f | None => 0 end) in
  if (0 <? max) && (max <? total) then Ret (inl total) else Ret (inr (total, examined)).

Fixpoint size_entries (exclude : list rstr) (time_bound : option (Z * Z)) (max seg_cap : Z) (sub : Dir)
    (names : list rstr) (s : Z * Z) : Prog (Z + Z * Z) :=
  match names with
  | [] => Ret (inr s)
  | n :: names =>
      let! r := size_entry exclude time_bound max seg_cap sub s n in
      match r with
      | inl total => Ret (inl total)
      | inr s => size_entries exclude time_bound max seg_cap sub names s
      end
  end.

Fixpoint size_dirs (exclude : list rstr) (time_bound : option (Z * Z)) (max seg_cap : Z) (subs : list Dir)
    (s : Z * Z) : Prog (bool * Z) :=
  match subs with
  | [] => Ret (true, s.1)
  | sub :: subs =>
      let! names := call (OpReadDir sub) in
      match names with
      | None => Ret (false, s.1)
      | Some names =>
          let! r := size_entries exclude time_bound max seg_cap sub names s in
          match r with
          | inl total => Ret (false, total)
          | inr s => size_dirs exclude time_bound max seg_cap subs s
          end
      end
  end.

Definition size_until_decided_capped (exclude : list rstr) (time_bound : option (Z * Z)) (max seg_cap : Z)
    : Prog (bool * Z) :=
  size_dirs exclude time_bound max seg_cap [SealedDir; ProcessingDir; CommittedDir] (0, 0).

Definition buffer_within_budget_with_max (seg_cap : Z) (exclude : list rstr) (time_bound : option (Z * Z)) (max : Z)
    : Prog (bool * Z) :=
  let! first := match time_bound with
                | Some _ => let! r := size_until_decided_capped exclude None max seg_cap in Ret (Some r)
                | None => Ret None
                end in
  match first with
  | Some (true, total) => Ret (true, total)
  | _ => size_until_decided_capped exclude time_bound max seg_cap
  end.

(** * Reading *)

Section Read.
Context {batch : Type} `{!ArrowIpc batch} (num_rows : batch → Z).
Context {schema carrier : Type} `{!EqDecision schema, !EqDecision carrier}.
(** [map_carrier_batch] and [align_batch_to_schema]. *)
Context (conform : schema → option carrier → batch → option batch).

(** One segment's batches, as the table has them; an empty one is skipped. *)
Fixpoint conform_all (s : schema) (c : option carrier) (bs : list batch) : option (list batch) :=
  match bs with
  | [] => Some []
  | b :: bs =>
      if num_rows b =? 0 then conform_all s c bs else
      b ← conform s c b; bs ← conform_all s c bs; Some (b :: bs)
  end.

Fixpoint read_all (s : schema) (c : option carrier) (segments : list path) (acc : list batch * list rstr)
    : Prog (option (list batch * list rstr)) :=
  match segments with
  | [] => Ret (Some acc)
  | p :: segments =>
      let! r := read_segment_file p in
      match r with
      | None => read_all s c segments acc
      | Some bs =>
          match conform_all s c bs with
          | None => Ret None
          | Some bs => read_all s c segments (acc.1 ++ bs, acc.2 ++ [p.2])
          end
      end
  end.

Definition read_buffer_batches_keyed (s : schema) (exclude : list rstr) (time_bound : option (Z * Z))
    (c : option carrier) (owner : option rstr) : Prog (option (list batch * list rstr)) :=
  let? l := list_uncommitted_segments exclude time_bound in
  let! segments := retain_owned_segments (out l) owner in
  let? r := read_all s c segments ([], []) in
  Ret (Some (r.1, merge_sort lex_le r.2)).

(** ** The cache of decoded batches *)

Record BufferDeltaCacheEntry := mkEntry {
  entry_names : list rstr;
  entry_schema : schema;
  entry_carrier : option carrier;
  entry_owner : option rstr;
  entry_batches : list batch;
}.

(** The directory's slot. *)
Abbreviation Slot := (option BufferDeltaCacheEntry) (only parsing).

Definition get (slot : Slot) (ns : list rstr) (s : schema) (c : option carrier) (owner : option rstr)
    : option (list batch) :=
  e ← slot;
  if bool_decide (entry_names e = ns) && bool_decide (entry_schema e = s) && bool_decide (entry_carrier e = c)
     && bool_decide (entry_owner e = owner)
  then Some (entry_batches e) else None.

(** What a request does to the slot. *)
Inductive Update := Leave | Evict | Insert (e : BufferDeltaCacheEntry).

Definition update (u : Update) (slot : Slot) : Slot :=
  match u with Leave => slot | Evict => None | Insert e => Some e end.

(** [first] and [second] are the slot as the two lookups find it; other
    requests use it in between. *)
Definition get_or_load_for_query_keyed (first second : Slot) (s : schema) (exclude : list rstr)
    (time_bound : option (Z * Z)) (c : option carrier) (owner : option rstr)
    : Prog (option (list batch * list rstr) * Update) :=
  let! ns := uncommitted_segment_names_with_bound exclude time_bound owner in
  match ns with
  | None => Ret (None, Leave)
  | Some [] => Ret (Some ([], []), match time_bound with None => Evict | Some _ => Leave end)
  | Some ns =>
      match get first ns s c owner with
      | Some cached => Ret (Some (cached, ns), Leave)
      | None =>
          let! wider :=
            match time_bound with
            | None => Ret (Some None)
            | Some _ =>
                let? all_names := uncommitted_segment_names exclude owner in
                Ret (Some (if bool_decide (all_names = ns) then None
                           else cached ← get second all_names s c owner; Some (cached, all_names)))
            end in
          match wider with
          | None => Ret (None, Leave)
          | Some (Some hit) => Ret (Some hit, Leave)
          | Some None =>
              let! r := read_buffer_batches_keyed s exclude time_bound c owner in
              Ret (match r with
                   | None => (None, Leave)
                   | Some (bs, read_names) => (Some (bs, read_names), Insert (mkEntry read_names s c owner bs))
                   end)
          end
      end
  end.
End Read.
End Buffer.

(** * Programs among others *)

Section Among.
(** The outcomes of a call, and what others may do before it. *)
Context (X : ∀ R, Disk → Op R → R → Disk → Prop) (E : Disk → Disk → Prop).

Definition mstep {A} (x y : Disk * Prog A) : Prop :=
  match x.2 with Ret _ => False | Step op k => ∃ r, X _ x.1 op r y.1 ∧ y.2 = k r end
  ∨ (E x.1 y.1 ∧ y.2 = x.2).

(** [Q] of the answer, whenever there is one. *)
Fixpoint among {A} (Q : A → Disk → Prop) (p : Prog A) (d : Disk) : Prop :=
  match p with
  | Ret a => ∀ d', rtc E d d' → Q a d'
  | Step op k => ∀ d1 r d2, rtc E d d1 → X _ d1 op r d2 → among Q (k r) d2
  end.

Lemma among_env {A} Q (p : Prog A) d d' : rtc E d d' → among Q p d → among Q p d'.
Proof.
  destruct p as [a|R op k]; simpl; intros Hd H.
  - intros d2 H2. apply H. by transitivity d'.
  - intros d1 r d2 H1 Hx. apply (H d1 r d2); [by transitivity d'|done].
Qed.

Lemma among_sound {A} Q (p : Prog A) d d' a :
  rtc mstep (d, p) (d', Ret a) → among Q p d → Q a d'.
Proof.
  intros Hr. remember (d, p) as x eqn:Ex. remember (d', Ret a) as y eqn:Ey. revert d p Ex.
  induction Hr as [x|x [d1 p1] y Hs _ IH]; intros d p ->.
  - simplify_eq. intros H. by apply H.
  - intros H. apply (IH Ey d1 p1 eq_refl). destruct Hs as [Hs|[HE Hp]]; cbn in *.
    + destruct p as [b|R op k]; [done|]. destruct Hs as (r & Hx & ->). by apply (H d r d1).
    + subst p1. eapply among_env; [by apply rtc_once|done].
Qed.

Lemma among_mono {A} (Q Q' : A → Disk → Prop) (p : Prog A) d :
  (∀ a d, Q a d → Q' a d) → among Q p d → among Q' p d.
Proof. intros HQ. revert d. induction p as [a|R op k IH]; simpl; intros d H; [auto|]. intros. eapply IH; eauto. Qed.

Lemma among_bind {A B} (Q : B → Disk → Prop) (p : Prog A) (f : A → Prog B) d :
  among (λ a d', among Q (f a) d') p d → among Q (prog_bind p f) d.
Proof.
  revert d. induction p as [a|R op k IH]; simpl; intros d H; [by apply H|]. intros d1 r d2 H1 Hx. by eapply IH, H.
Qed.

Lemma among_and {A} (Q Q' : A → Disk → Prop) (p : Prog A) d :
  among Q p d → among Q' p d → among (λ a d, Q a d ∧ Q' a d) p d.
Proof. revert d. induction p as [a|R op k IH]; simpl; intros d H H'; [auto|]. intros. eapply IH; eauto. Qed.

(** [for x in l { .. }]: [P] of the items to come and what was gathered. *)
Lemma among_each {A S} (f : S → A → Prog (option S)) (P : list A → S → Disk → Prop) (Q : option S → Disk → Prop) l s d :
  (∀ x l s d, P (x :: l) s d → among (λ r d', match r with Some s => P l s d' | None => Q None d' end) (f s x) d) →
  (∀ s d d', P [] s d → rtc E d d' → Q (Some s) d') →
  (∀ d d', Q None d → rtc E d d' → Q None d') →
  P l s d → among Q (prog_each f l s) d.
Proof.
  intros Hf Hend Hnone. revert s d. induction l as [|x l IH]; intros s d HP; simpl; [by intros; eapply Hend|].
  apply among_bind. eapply among_mono; [|by apply Hf]. intros [s'|] d1 H; simpl; [by apply IH|]. by intros; eapply Hnone.
Qed.
End Among.

(** [istep] is one instance. *)
Lemma istep_mstep {A} E (x y : Disk * Prog A) : rtc (istep E) x y → rtc (mstep (λ R d op r d', exec d op r d') E) x y.
Proof. apply rtc_subrel. intros [d p] [d' p'] [Hs|[HE Hp]]; [left|right]; done. Qed.

(** Calls that work: a directory can be read, and a file that is there. *)
Definition works (R : Type) (d : Disk) (op : Op R) (r : R) (d' : Disk) : Prop :=
  exec d op r d' ∧
  match op in Op R return R → Prop with
  | OpRead p => λ r, r = None → live d !! p ≫= (λ i, inodes d !! i) = None
  | OpReadDir _ => λ r, r ≠ None
  | _ => λ _, True
  end r.

Lemma works_exec R d (op : Op R) r d' : works R d op r d' → exec d op r d'.
Proof. by intros [? _]. Qed.

(** * Looking around *)

Lemma stage_cases k D :
  stage k = Some D → k = 0%nat ∧ D = SealedDir ∨ k = 1%nat ∧ D = ProcessingDir ∨ k = 2%nat ∧ D = CommittedDir.
Proof. destruct k as [|[|[|k]]]; intros [= <-]; auto. Qed.

(** Segments sorted by path come committed first, sealed last. *)
Lemma listed_later p q k j :
  listed_le p q → p ≠ q → p.2 = q.2 → stage k = Some p.1 → stage j = Some q.1 → (j < k)%nat.
Proof.
  intros Hle Hne En Hk Hj. destruct p as [D n], q as [D' n']. simpl in *. subst n'.
  destruct (stage_cases k D Hk) as [[-> ->]|[[-> ->]|[-> ->]]], (stage_cases j D' Hj) as [[-> ->]|[[-> ->]|[-> ->]]];
    try done; try lia; exfalso; destruct Hle as [Hle|[Hle _]]; revert Hle; by vm_compute.
Qed.

Lemma mapM_snoc {A B} (f : A → option B) l parts x y :
  mapM f l = Some parts → f x = Some y → mapM f (l ++ [x]) = Some (parts ++ [y]).
Proof. rewrite !mapM_Some. intros. apply Forall2_app; [done|]. by repeat constructor. Qed.

Section Looking.
Context (age : path → option Z) (to_string : Uuid → rstr).
Context (X : ∀ R, Disk → Op R → R → Disk → Prop) (E : Disk → Disk → Prop).
Context (HX : ∀ R d (op : Op R) r d', X R d op r d' → exec d op r d').
Abbreviation Am := (among X E) (only parsing).

(** A call that only looks leaves the disk. *)
Lemma looks_same {R} d (op : Op R) r d' : looks op → X R d op r d' → d' = d.
Proof. intros Hl Hx%HX. destruct op; try done; by inv_exec Hx. Qed.

(** The programs of the buffer. *)
Lemma looking_among {A} (p : Prog A) d : looking p → Am (λ _ d', rtc E d d') p d.
Proof.
  intros Hp. assert (∀ d0, rtc E d0 d → Am (λ _ d', rtc E d0 d') p d) as H; [|by apply H].
  revert d. induction p as [a|R op k IH]; simpl; intros d d0 H0; [by intros; transitivity d|].
  destruct Hp as [Hl Hk]. intros d1 r d2 H1 Hx. apply (looks_same _ _ _ _ Hl) in Hx as ->.
  apply IH; [done|]. by transitivity d.
Qed.

(** ** Listings *)

Section Listings.
Context (exclude : list rstr) (time_bound : option (Z * Z)).

Definition listable (p : path) : Prop := (p.2 ∉ exclude) ∧ is_arrow p.2 = true ∧ ∃ k, stage k = Some p.1.

Record listing_ok (l : list path) : Prop := {
  listing_nodup : NoDup l;
  listing_listable p : p ∈ l → listable p;
}.

Lemma list_entry_among sub k l n d :
  stage k = Some sub → listing_ok (out l) → (sub, n) ∉ out l →
  Am (λ r _, ∀ l', r = Some l' → listing_ok (out l') ∧ ∀ p, p ∈ out l' → p ∈ out l ∨ p = (sub, n))
    (list_entry age exclude time_bound sub l n) d.
Proof.
  intros Hk Hl Hn. unfold list_entry.
  assert (∀ x, listing_ok (out l) ∧ ∀ p, p ∈ out l → p ∈ out l ∨ p = (sub, x)) as Hsame by auto.
  destruct (is_arrow n) eqn:Ea; simpl; [|by intros ? _ ? [= <-]].
  destruct (bool_decide (sub = CommittedDir) && negb (recent age (sub, n))); [by intros ? _ ? [= <-]|].
  case_bool_decide as Hx; [by intros ? _ ? [= <-]|].
  assert (listing_ok (out l ++ [(sub, n)]) ∧ ∀ p, p ∈ out l ++ [(sub, n)] → p ∈ out l ∨ p = (sub, n)) as Hpush.
  { split; [|intros p [?|?%list_elem_of_singleton]%elem_of_app; auto]. destruct Hl as [Hnd Hok]. split.
    - apply NoDup_app. split_and!; [done| |apply NoDup_singleton]. intros p Hp ->%list_elem_of_singleton. done.
    - intros p [?| ->%list_elem_of_singleton]%elem_of_app; [auto|]. split_and!; eauto. }
  destruct time_bound as [w|]; simpl; [|by intros ? _ ? [= <-]].
  intros d1 r d2 _ _ d3 _ l' [= <-]. by destruct (r ≫= read_segment_meta) as [m|]; [destruct (outside_window w m)|].
Qed.

(** One directory, then all three. *)
Definition fresh_for (subs : list Dir) (l : Listing) : Prop := listing_ok (out l) ∧ ∀ p, p ∈ out l → p.1 ∉ subs.

Lemma list_dir_among sub k subs l d :
  stage k = Some sub → sub ∉ subs → fresh_for (sub :: subs) l →
  Am (λ r _, ∀ l', r = Some l' → fresh_for subs l')
    (let? names := call (OpReadDir sub) in prog_each (list_entry age exclude time_bound sub) names l) d.
Proof.
  intros Hk Hsub [Hl Hf]. simpl. intros d1 r d2 _ Hx%HX. inv_exec Hx; [by intros ? _|]. rename names into ns.
  apply (among_each _ _ _ (λ ns l _, NoDup ns ∧ fresh_for subs l ∧ ∀ n, n ∈ ns → (sub, n) ∉ out l)).
  - intros n ns' l1 d3 ([Hn Hnd]%NoDup_cons & [Hl1 Hf1] & Hout). eapply among_mono; [|by apply (list_entry_among sub k); auto using list_elem_of_here].
    intros [l2|] _ H; [|done]. destruct (H l2 eq_refl) as [Hl2 Hin]. split_and!; [done| |].
    + split; [done|]. intros p [?| ->]%Hin; auto.
    + intros m Hm [Hp|[= ->]]%Hin; [|done]. by apply (Hout m); [right|].
  - intros l1 ? ? (_ & Hfr & _) _ ? [= <-]. done.
  - done.
  - split_and!; [done| |].
    + split; [done|]. intros p Hp. specialize (Hf p Hp). set_solver.
    + intros n _ Hp. apply (Hf _ Hp). left.
Qed.

#[local] Instance listed_le_trans : Transitive listed_le.
Proof.
  intros p q r [H1|[H1 H1']] [H2|[H2 H2']]; unfold listed_le.
  - left. by eapply lex_lt_trans.
  - left. congruence.
  - left. congruence.
  - right. split; [congruence|]. by eapply (transitivity (R := lex_le)).
Qed.

#[local] Instance listed_le_total : Total listed_le.
Proof.
  intros p q. unfold listed_le. destruct (total lex_le (dir_name p.1) (dir_name q.1)) as [[?|Hd]%lex_le_lt_eq|[?|Hd]%lex_le_lt_eq];
    [auto| |auto|]; (destruct (total lex_le p.2 q.2); [left; right|right; right]; by rewrite Hd).
Qed.

Lemma list_uncommitted_among d :
  Am (λ r _, ∀ l, r = Some l → listing_ok (out l) ∧ StronglySorted listed_le (out l))
    (list_uncommitted_segments age exclude time_bound) d.
Proof.
  unfold list_uncommitted_segments. apply among_bind.
  apply (among_each _ _ _ (λ subs l _, fresh_for subs l ∧ NoDup subs ∧ ∀ D, D ∈ subs → ∃ k, stage k = Some D)).
  - intros sub subs l d1 (Hf & [Hn Hnd]%NoDup_cons & Hst). destruct (Hst sub) as [k Hk]; [left|].
    eapply among_mono; [|by apply (list_dir_among sub k subs)]. intros [l'|] d2 H; [|by intros ? _].
    split_and!; [by apply H|done|]. intros D HD. apply Hst. by right.
  - intros l d1 d2 ([[Hnd Hok] _] & _) _ d3 _ l' [= <-]. simpl. split; [|apply StronglySorted_merge_sort; apply _].
    split; [|intros p]; rewrite (merge_sort_Permutation _ _); auto.
  - intros d1 d2 H _. simpl in *. intros ? _ ? [=].
  - split_and!; [by split; [split; [constructor|by intros ? ?%elem_of_nil]|by intros ? ?%elem_of_nil]| |].
    + by apply (bool_decide_eq_true_1 _).
    + intros D. rewrite !elem_of_cons, elem_of_nil. intros [->|[->|[->|[]]]]; [by exists 0%nat|by exists 1%nat|by exists 2%nat].
Qed.
End Listings.

Lemma sorted_sublist (l l' : list path) : l `sublist_of` l' → StronglySorted listed_le l' → StronglySorted listed_le l.
Proof.
  induction 1 as [|p l l' Hl IH|p l l' Hl IH]; [done| |].
  - intros [Hs Hp]%StronglySorted_inv. constructor; [auto|]. rewrite Forall_forall in *.
    intros q Hq. apply Hp. eapply elem_of_submseteq; [exact Hq|by apply sublist_submseteq].
  - intros [Hs Hp]%StronglySorted_inv. auto.
Qed.

Lemma retain_owned_among owner l d : Am (λ r _, r `sublist_of` l) (retain_owned_segments to_string l owner) d.
Proof.
  destruct owner as [uuid|]; [|by intros ? _]. simpl. revert d. induction l as [|p l IH]; intros d; simpl; [by intros ? _|].
  intros d1 r d2 _ _. apply among_bind. eapply among_mono; [|apply IH]. intros l' d3 Hl d4 _.
  destruct (match r with Some _ => _ | None => _ end); [destruct (bool_decide _)|]; (by constructor) || (by apply sublist_skip).
Qed.

Lemma looking_read {batch : Type} `{!ArrowIpc batch} p : looking (read_segment_file (batch := batch) p).
Proof.
  split; [done|]. intros [f|]; [|done]. destruct (is_framed f) eqn:Ef; cbn; rewrite Ef; [done|]. split; [done|]. by intros.
Qed.

Lemma looking_list exclude time_bound : looking (list_uncommitted_segments age exclude time_bound).
Proof.
  apply calls_bind; [|by intros [?|]]. apply calls_each. intros l sub. split; [done|]. intros [ns|]; [|done].
  apply calls_each. intros l' n. unfold list_entry. repeat case_match; done.
Qed.

Lemma looking_retain l owner : looking (retain_owned_segments to_string l owner).
Proof.
  destruct owner as [uuid|]; [|done]. simpl. induction l as [|p l IH]; [done|]. simpl. split; [done|]. intros r.
  by apply calls_bind.
Qed.
End Looking.

(** * What a read returns *)

Section Spec.
Context (age : path → option Z) (to_string : Uuid → rstr).
Context {batch : Type} `{!ArrowIpc batch} (num_rows : batch → Z).
Context {schema carrier : Type} `{!EqDecision schema, !EqDecision carrier}.
Context (conform : schema → option carrier → batch → option batch).
(** Sealed segments do not change: a name stands for what its file decodes to. *)
Context (content : rstr → Res (list batch)).

(** A segment is in one directory at a time, and holds what its name says. *)
Record segments_ok (d : Disk) : Prop := {
  single n k k' : at_stage n k d → at_stage n k' d → k = k';
  contents n k D i : stage k = Some D → live d !! (D, n) = Some i →
    ∃ nd, inodes d !! i = Some nd ∧ is_framed (data nd) = true ∧ decode_wal_frame (data nd) = content n;
}.

Definition conformed (s : schema) (c : option carrier) (n : rstr) : option (list batch) :=
  match content n with inr bs => conform_all num_rows conform s c bs | inl _ => None end.

(** [bs] are the batches of the segments [ns], one segment after the other. *)
Definition batches_of (s : schema) (c : option carrier) (ns : list rstr) (bs : list batch) : Prop :=
  ∃ l parts, l ≡ₚ ns ∧ mapM (conformed s c) l = Some parts ∧ concat parts = bs.

Context (X : ∀ R, Disk → Op R → R → Disk → Prop) (E : Disk → Disk → Prop).
Context (HX : ∀ R d (op : Op R) r d', X R d op r d' → exec d op r d').
Context (HE : ∀ x y, E x y → segments_ok x → segments_ok y ∧ ∀ n, forward n x y).

Lemma env_ok d d' : rtc E d d' → segments_ok d → segments_ok d' ∧ ∀ n, forward n d d'.
Proof.
  induction 1 as [d|d d1 d' H _ IH]; intros Hd; [split; [done|]; intros n k Hk; eauto|].
  destruct (HE _ _ H Hd) as [Hd1 Hf1]. destruct (IH Hd1) as [Hd' Hf']. split; [done|].
  intros n k Hk. destruct (Hf1 n k Hk) as (k1 & ? & Hk1). destruct (Hf' n k1 Hk1) as (k2 & ? & ?). exists k2. auto with lia.
Qed.

Abbreviation Am := (among X E) (only parsing).

(** A read that succeeds found the file. *)
Lemma read_file_among p d :
  segments_ok d → (∃ k, stage k = Some p.1) →
  Am (λ r d', ∃ d1, rtc E d d1 ∧ rtc E d1 d' ∧ ∀ bs, r = Some bs → is_Some (live d1 !! p) ∧ content p.2 = inr bs)
    (read_segment_file p) d.
Proof.
  intros Hd [k Hk]. simpl. intros d1 r d2 H1 Hx%HX. inv_exec Hx.
  { intros d2 H2. exists d1. split_and!; [done..|]. by intros. }
  destruct (env_ok d d1 H1 Hd) as [Hd1 _]. destruct (contents d1 Hd1 p.2 k p.1 i) as (nd' & ? & Hfr & Hc); [done|by rewrite <- surjective_pairing|].
  simplify_eq. rewrite Hfr. simpl. intros d2 H2. exists d1. split_and!; [done..|]. intros bs Hbs. split; [by eexists|].
  rewrite <- Hc. by destruct (decode_wal_frame (data nd)) as [|l]; simplify_eq.
Qed.

(** ** Reading, latest directory first *)

Record read_inv (segments : list path) (ns : list rstr) (d : Disk) : Prop := {
  ri_ok : segments_ok d;
  ri_nodup : NoDup ns;
  ri_later n : n ∈ ns → ∃ k, at_stage n k d ∧ ∀ p j, p ∈ segments → p.2 = n → stage j = Some p.1 → (j < k)%nat;
}.

Lemma read_inv_env segments ns d d' : rtc E d d' → read_inv segments ns d → read_inv segments ns d'.
Proof.
  intros Hd [Hok Hnd Hl]. destruct (env_ok d d' Hd Hok) as [Hok' Hf]. split; [done..|]. intros n Hn.
  destruct (Hl n Hn) as (k & Hk & Hp). destruct (Hf n k Hk) as (k' & ? & Hk'). exists k'. split; [done|].
  intros p j ???. assert (j < k)%nat by eauto. lia.
Qed.

Lemma read_inv_skip p segments ns d : read_inv (p :: segments) ns d → read_inv segments ns d.
Proof.
  intros [Hok Hnd Hl]. split; [done..|]. intros n Hn. destruct (Hl n Hn) as (k & Hk & Hp). exists k. split; [done|].
  intros q j ??. apply Hp; [by right|done].
Qed.

Lemma read_inv_push p segments ns d :
  StronglySorted listed_le (p :: segments) → NoDup (p :: segments) → (∃ k, stage k = Some p.1) → is_Some (live d !! p) →
  read_inv (p :: segments) ns d → read_inv segments (ns ++ [p.2]) d.
Proof.
  intros [_ Hs]%StronglySorted_inv [Hp _]%NoDup_cons [k Hk] Hlive [Hok Hnd Hl].
  assert (at_stage p.2 k d) as Hat by (exists p.1; split; [done|]; by rewrite <- surjective_pairing).
  assert (p.2 ∉ ns) as Hnew.
  { intros Hin. destruct (Hl _ Hin) as (k' & Hk' & Hlt). assert (k < k')%nat by (by eapply Hlt; [left|..]).
    assert (k = k') by (by eapply single). lia. }
  split; [done| |].
  - apply NoDup_app. split_and!; [done| |apply NoDup_singleton]. by intros n Hn ->%list_elem_of_singleton.
  - intros n [Hn|Hn%list_elem_of_singleton]%elem_of_app.
    + destruct (Hl n Hn) as (k' & Hk' & Hlt). exists k'. split; [done|]. intros q j ??. apply Hlt; [by right|done].
    + exists k. rewrite Hn. split; [done|]. intros q j Hq En Hj. rewrite Forall_forall in Hs.
      eapply (listed_later p q); eauto. by intros ->.
Qed.

(** What was read so far, in the order it was read. *)
Definition so_far (s : schema) (c : option carrier) (acc : list batch * list rstr) : Prop :=
  ∃ parts, mapM (conformed s c) acc.2 = Some parts ∧ concat parts = acc.1.

Lemma read_all_among s c segments acc d :
  StronglySorted listed_le segments → NoDup segments → (∀ p, p ∈ segments → ∃ k, stage k = Some p.1) →
  read_inv segments acc.2 d → so_far s c acc →
  Am (λ r _, ∀ acc', r = Some acc' → NoDup acc'.2 ∧ so_far s c acc' ∧ ∀ n, n ∈ acc'.2 → n ∈ acc.2 ∨ n ∈ segments.*2)
    (read_all num_rows conform s c segments acc) d.
Proof.
  revert acc d. induction segments as [|p segments IH]; intros acc d Hs Hnd Hst Hi Hsf.
  { intros d' _ ? [= <-]. split_and!; [apply Hi|done|auto]. }
  assert (StronglySorted listed_le segments) as Hs' by (by apply StronglySorted_inv in Hs as []).
  assert (NoDup segments) as Hnd' by (by apply NoDup_cons in Hnd as []).
  assert (∀ q, q ∈ segments → ∃ k, stage k = Some q.1) as Hst' by (intros; apply Hst; by right).
  cbn [read_all]. apply among_bind. eapply among_mono; [|apply read_file_among; [apply Hi|apply Hst; left]].
  intros r d' (d1 & H1 & H2 & Hr).
  assert (∀ acc', (∀ n, n ∈ acc'.2 → n ∈ acc.2 ∨ n = p.2) → read_inv segments acc'.2 d' → so_far s c acc' →
    Am (λ r _, ∀ acc', r = Some acc' → NoDup acc'.2 ∧ so_far s c acc' ∧ ∀ n, n ∈ acc'.2 → n ∈ acc.2 ∨ n ∈ (p :: segments).*2)
      (read_all num_rows conform s c segments acc') d') as Hgo.
  { intros acc' Hsub Hi' Hsf'. eapply among_mono; [|by apply IH]. intros r' d2 Hr' acc2 E2. destruct (Hr' acc2 E2) as (? & ? & Hin).
    split_and!; [done..|]. intros n [[?| ->]%Hsub|?]%Hin; [by left|right; left|right; by right]. }
  destruct r as [bs|].
  - destruct (Hr bs eq_refl) as [Hlive Hc]. destruct (conform_all num_rows conform s c bs) as [bs'|] eqn:Eb; [|by intros ? _ ?].
    apply Hgo; simpl.
    + intros n. rewrite elem_of_app, list_elem_of_singleton. auto.
    + eapply read_inv_env; [exact H2|]. apply read_inv_push; [done..|apply Hst; left|done|]. by eapply read_inv_env.
    + destruct Hsf as (parts & Hm & Hcc). exists (parts ++ [bs']). split.
      * apply mapM_snoc; [done|]. unfold conformed. by rewrite Hc.
      * simpl. rewrite concat_app, Hcc. simpl. by rewrite app_nil_r.
  - apply Hgo; [auto| |done]. eapply read_inv_env; [exact H2|]. eapply read_inv_env; [exact H1|]. by eapply read_inv_skip.
Qed.

Lemma read_buffer_among s exclude time_bound c owner d :
  segments_ok d →
  Am (λ r _, ∀ bs ns, r = Some (bs, ns) → NoDup ns ∧ batches_of s c ns bs ∧ ∀ n, n ∈ ns → (n ∉ exclude) ∧ is_arrow n = true)
    (read_buffer_batches_keyed age to_string num_rows conform s exclude time_bound c owner) d.
Proof.
  intros Hd. unfold read_buffer_batches_keyed. apply among_bind.
  eapply among_mono; [|apply among_and; [apply (looking_among X E HX _ d), looking_list|by apply list_uncommitted_among]].
  intros [l|] d1 [H1 Hl]; [|by intros ? _ ?]. destruct (Hl l eq_refl) as [[Hnd Hok] Hs]. clear Hl.
  apply among_bind. eapply among_mono; [|apply among_and; [apply (looking_among X E HX _ d1), looking_retain|apply retain_owned_among]].
  intros segments d2 [H2 Hsub]. assert (∀ p, p ∈ segments → listable exclude p) as Hlist.
  { intros p Hp. apply Hok. eapply elem_of_submseteq; [exact Hp|by apply sublist_submseteq]. }
  apply among_bind. eapply among_mono; [|apply read_all_among].
  - intros [[bs ns]|] d3 Hr; [|by intros ? _ ?]. destruct (Hr _ eq_refl) as (Hn & (parts & Hm & Hc) & Hin). simpl in *.
    intros d4 _ bs' ns' [= <- <-]. split_and!.
    + by rewrite (merge_sort_Permutation _ _).
    + exists ns, parts. by rewrite (merge_sort_Permutation _ _).
    + intros n. rewrite (merge_sort_Permutation _ _). intros [?%elem_of_nil|Hp]%Hin; [done|].
      apply list_elem_of_fmap in Hp as (p & -> & Hp). by destruct (Hlist p Hp) as (? & ? & _).
  - by eapply sorted_sublist.
  - eapply sublist_NoDup; [exact Hnd|done].
  - intros p Hp. by destruct (Hlist p Hp) as (_ & _ & ?).
  - split; [|constructor|by intros ? ?%elem_of_nil]. apply (env_ok d d2); [by transitivity d1|done].
  - by exists [].
Qed.

(** ** The cache *)

Definition honest (slot : option (BufferDeltaCacheEntry (batch := batch) (schema := schema) (carrier := carrier))) : Prop :=
  ∀ e, slot = Some e → NoDup (entry_names e) ∧ batches_of (entry_schema e) (entry_carrier e) (entry_names e) (entry_batches e).

Lemma honest_get slot ns s c owner bs :
  honest slot → get slot ns s c owner = Some bs → NoDup ns ∧ batches_of s c ns bs.
Proof.
  intros Hh. destruct slot as [e|]; [|done]. simpl. destruct (Hh e eq_refl) as [Hnd Hb].
  repeat (case_bool_decide; simpl; [|done]). intros [= <-]. by simplify_eq.
Qed.

Lemma looking_names exclude time_bound owner : looking (uncommitted_segment_names_with_bound age to_string exclude time_bound owner).
Proof. apply calls_bind; [apply looking_list|]. intros [l|]; [|done]. apply calls_bind; [apply looking_retain|done]. Qed.

Lemma names_among exclude time_bound owner d :
  Am (λ r d', rtc E d d' ∧ ∀ ns, r = Some ns → ∀ n, n ∈ ns → n ∉ exclude)
    (uncommitted_segment_names_with_bound age to_string exclude time_bound owner) d.
Proof.
  apply among_and; [apply (looking_among X E HX _ d), looking_names|].
  apply among_bind. eapply among_mono; [|by apply list_uncommitted_among]. intros [l|] d1 Hl; [|by intros ? _ ?].
  destruct (Hl l eq_refl) as [[_ Hok] _]. apply among_bind. eapply among_mono; [|apply retain_owned_among].
  intros segments d2 Hsub d3 _ ? [= <-] n. rewrite (merge_sort_Permutation _ _). intros (p & -> & Hp)%list_elem_of_fmap.
  apply (Hok p). eapply elem_of_submseteq; [exact Hp|by apply sublist_submseteq].
Qed.

Definition answer_ok (s : schema) (exclude : list rstr) (c : option carrier) (r : list batch * list rstr) : Prop :=
  NoDup r.2 ∧ batches_of s c r.2 r.1 ∧ ∀ n, n ∈ r.2 → n ∉ exclude.

Lemma cache_among first second s exclude time_bound c owner d :
  segments_ok d → honest first → honest second →
  Am (λ r _, (∀ a, r.1 = Some a → answer_ok s exclude c a) ∧ ∀ slot, honest slot → honest (update r.2 slot))
    (get_or_load_for_query_keyed age to_string num_rows conform first second s exclude time_bound c owner) d.
Proof.
  intros Hd H1 H2. unfold get_or_load_for_query_keyed. apply among_bind. eapply among_mono; [|apply names_among].
  intros [ns|] d1 [Hd1 Hns]; [|by intros ? _; split].
  assert (answer_ok s exclude c ([], [])) as Hnil.
  { split_and!; simpl; [constructor|by exists [], []|by intros ? ?%elem_of_nil]. }
  specialize (Hns ns eq_refl). destruct ns as [|n ns].
  { intros d2 _. split; [by intros ? [= <-]|]. intros slot Hs. by destruct time_bound. }
  destruct (get first (n :: ns) s c owner) as [cached|] eqn:Eg.
  { intros d2 _. split; [|done]. intros ? [= <-]. destruct (honest_get _ _ _ _ _ _ H1 Eg). by split_and!. }
  apply among_bind. eapply (among_mono _ _ (λ r d2, rtc E d d2 ∧ ∀ hit, r = Some (Some hit) → answer_ok s exclude c hit)).
  - intros [[hit|]|] d2 [Hd2 Hhit]; [intros d3 _; split; [|done]; intros ? [= <-]; by apply Hhit| |by intros ? _; split].
    destruct (env_ok d d2 Hd2 Hd) as [Hok2 _]. apply among_bind. eapply among_mono; [|by apply read_buffer_among].
    intros [[bs rn]|] d3 Hr; [|by intros ? _; split]. destruct (Hr bs rn eq_refl) as (Hnd & Hb & Hx). intros d4 _. split.
    + intros ? [= <-]. split_and!; [done..|]. intros m Hm. by destruct (Hx m Hm).
    + intros slot _ e [= <-]. done.
  - destruct time_bound as [w|]; [|by intros d2 Hd2; split; [transitivity d1|]].
    apply among_bind. eapply among_mono; [|apply names_among]. intros [all|] d2 [Hd2 Hall]; [|intros d3 Hd3; split; [|done]].
    2: { transitivity d1; [done|]. by transitivity d2. }
    intros d3 Hd3. split; [transitivity d1; [done|]; by transitivity d2|]. intros hit. case_bool_decide; [done|].
    destruct (get second all s c owner) as [cached|] eqn:Eg2; [|done]. intros [= <-].
    destruct (honest_get _ _ _ _ _ _ H2 Eg2). split_and!; [done..|]. by apply Hall.
Qed.
End Spec.

(** * A segment nobody moves *)

Section Still.
Context (D : Dir) (n : rstr) (nd : Inode).

(** The segment [n] is in [D] alone, with the contents of [nd]. *)
Definition stays (d : Disk) : Prop :=
  (∃ k, stage k = Some D) ∧ (∃ i, live d !! (D, n) = Some i ∧ inodes d !! i = Some nd)
  ∧ ∀ k D', stage k = Some D' → D' ≠ D → live d !! (D', n) = None.

Context (E : Disk → Disk → Prop) (HE : ∀ x y, E x y → stays x → stays y).
Abbreviation Am := (among works E) (only parsing).

Lemma stays_env d d' : rtc E d d' → stays d → stays d'.
Proof. induction 1; eauto. Qed.

Section Listed.
Context (age : path → option Z) (exclude : list rstr) (time_bound : option (Z * Z)).

Definition listed : Prop :=
  is_arrow n = true ∧ (D = CommittedDir → recent age (D, n) = true) ∧ (n ∉ exclude)
  ∧ ∀ w m, time_bound = Some w → read_segment_meta (data nd) = Some m → outside_window w m = false.

Lemma still_entry sub m l d :
  stays d →
  Am (λ r d', stays d' ∧ ∀ l', r = Some l' →
        ((D, n) ∈ out l' ↔ (D, n) ∈ out l ∨ ((sub, m) = (D, n) ∧ listed)))
    (list_entry age exclude time_bound sub l m) d.
Proof.
  intros Hd. unfold list_entry.
  assert (∀ d' : Disk, rtc E d d' → stays d') as Henv by (intros; by eapply stays_env).
  assert (((sub, m) = (D, n) → ¬ listed) → (D, n) ∈ out l ↔ (D, n) ∈ out l ∨ ((sub, m) = (D, n) ∧ listed)) as Hskip by tauto.
  destruct (is_arrow m) eqn:Ea; simpl.
  2: { intros d' Hd'. split; [auto|]. intros ? [= <-]. apply Hskip. intros [= -> ->] [? _]. congruence. }
  destruct (bool_decide (sub = CommittedDir) && negb (recent age (sub, m))) eqn:Er.
  { intros d' Hd'. split; [auto|]. intros ? [= <-]. apply Hskip. intros [= -> ->] (_ & Hr & _).
    apply andb_true_iff in Er as [Ec%bool_decide_eq_true Er]. by rewrite Hr in Er. }
  destruct (decide (m ∈ exclude)) as [Hx|Hx]; [rewrite bool_decide_true by done|rewrite bool_decide_false by done].
  { intros d' Hd'. split; [auto|]. intros ? [= <-]. apply Hskip. intros [= -> ->] (_ & _ & ? & _). done. }
  assert (((sub, m) = (D, n) → listed) → (D, n) ∈ out l ++ [(sub, m)] ↔ (D, n) ∈ out l ∨ ((sub, m) = (D, n) ∧ listed)) as Hpush.
  { intros Hl. rewrite elem_of_app, list_elem_of_singleton. naive_solver. }
  assert ((sub, m) = (D, n) → (∀ w' m', time_bound = Some w' → read_segment_meta (data nd) = Some m' → outside_window w' m' = false) → listed) as Hlisted.
  { intros [= -> ->] Hw. split_and!; try done. intros Ec. apply andb_false_iff in Er as [Er%bool_decide_eq_false|Er]; [done|].
    by apply negb_false_iff in Er. }
  destruct time_bound as [w|] eqn:Et; simpl.
  2: { intros d' Hd'. split; [auto|]. intros ? [= <-]. apply Hpush. intros Em. by apply Hlisted; rewrite ?Et. }
  intros d1 r d2 H1 [Hx1 Hw] d3 H3. pose proof (Henv d1 H1) as Hd1. destruct Hd1 as (_ & (i & Hli & Hin) & _).
  assert (d2 = d1) as -> by (by inv_exec Hx1). split; [apply Henv; by transitivity d1|].
  assert ((sub, m) = (D, n) → r ≫= read_segment_meta = read_segment_meta (data nd)) as Hmeta.
  { intros [= -> ->]. destruct r as [f|]; [|by rewrite Hli in Hw; simpl in Hw; rewrite Hin in Hw; specialize (Hw eq_refl)]. inv_exec Hx1. by simplify_eq. }
  intros l' [= <-]. destruct (r ≫= read_segment_meta) as [m'|] eqn:Em; [destruct (outside_window w m') eqn:Eo|].
  - apply Hskip. intros Ep (_ & _ & _ & Hl). rewrite (Hl w m') in Eo; [done|done|by rewrite <- Hmeta].
  - apply Hpush. intros Ep. apply Hlisted; [done|]. intros ?? [= <-] Hm. rewrite <- Hmeta in Hm by done. congruence.
  - apply Hpush. intros Ep. apply Hlisted; [done|]. intros ?? [= <-] Hm. rewrite <- Hmeta in Hm by done. congruence.
Qed.

Lemma still_dir sub l d :
  stays d → (sub = D → (D, n) ∉ out l) →
  Am (λ r d', stays d' ∧ ∀ l', r = Some l' → ((D, n) ∈ out l' ↔ (D, n) ∈ out l ∨ (sub = D ∧ listed)))
    (let? names := call (OpReadDir sub) in prog_each (list_entry age exclude time_bound sub) names l) d.
Proof.
  intros Hd Hout. simpl. intros d1 r d2 H1 [Hx Hw]. pose proof (stays_env d d1 H1 Hd) as Hd1.
  inv_exec Hx. rename names into ns, Hx into Hns.
  assert (sub = D → n ∈ ns) as Hin. { intros ->. apply Hns. destruct Hd1 as (_ & (i & ? & _) & _). by exists i. }
  apply (among_each _ _ _ (λ ns' l' d, stays d ∧ NoDup ns' ∧ (∀ m, m ∈ ns' → m ∈ ns) ∧
    ((D, n) ∈ out l' ↔ (D, n) ∈ out l ∨ (sub = D ∧ (n ∉ ns') ∧ listed)))).
  - intros m ns' l' d2 (Hd2 & [Hm Hnd]%NoDup_cons & Hsub & Hl'). eapply among_mono; [|by apply still_entry].
    intros [l2|] d3 [Hd3 Hl2]; [|done]. split_and!; [done|done|intros; apply Hsub; by right|].
    rewrite (Hl2 l2 eq_refl), Hl'. destruct (decide (m = n)) as [->|Hmn]; [set_solver|].
    rewrite not_elem_of_cons. naive_solver.
  - intros l' d2 d3 (Hd2 & _ & _ & Hl') H3. split; [by eapply stays_env|]. intros ? [= <-]. rewrite Hl'.
    pose proof (not_elem_of_nil n). naive_solver.
  - intros d2 d3 [Hd2 _] H3. split; [by eapply stays_env|done].
  - split_and!; [done|done|done|]. split; [by left|]. intros [?|(-> & Hn & _)]; [done|]. by destruct Hn; apply Hin.
Qed.

Lemma still_list d :
  stays d →
  Am (λ r d', stays d' ∧ ∀ l, r = Some l → ((D, n) ∈ out l ↔ listed)) (list_uncommitted_segments age exclude time_bound) d.
Proof.
  intros Hd. apply among_bind.
  apply (among_each _ _ _ (λ subs l d, stays d ∧ NoDup subs ∧ (∀ D', D' ∈ subs → D' ∈ [SealedDir; ProcessingDir; CommittedDir]) ∧
    ((D, n) ∈ out l ↔ (D ∉ subs) ∧ listed))).
  - intros sub subs l d1 (Hd1 & [Hn Hnd]%NoDup_cons & Hsub & Hl). eapply among_mono; [|apply still_dir; [done|]].
    + intros [l'|] d2 [Hd2 Hl']; [|by intros d3 H3; split; [by eapply stays_env|]]. split_and!; [done|done|intros; apply Hsub; by right|].
      rewrite (Hl' l' eq_refl), Hl, not_elem_of_cons. destruct (decide (sub = D)) as [->|]; naive_solver.
    + intros <- [Hx _]%Hl. apply Hx. left.
  - intros l d1 d2 (Hd1 & _ & _ & Hl) H2 d3 H3. split; [eapply stays_env; [by transitivity d2|done]|].
    intros ? [= <-]. simpl. rewrite (merge_sort_Permutation _ _), Hl. pose proof (not_elem_of_nil D). naive_solver.
  - intros d1 d2 H H2. by eapply among_env.
  - split_and!; [done|by apply (bool_decide_eq_true_1 _)|done|]. split; [by intros ?%elem_of_nil|]. intros [Hx _]. destruct Hx.
    destruct Hd as ((k & Hk) & _). destruct (stage_cases k D Hk) as [[_ ->]|[[_ ->]|[_ ->]]]; set_solver.
Qed.
End Listed.

(** ** Ownership and the read *)

Section Owned.
Context (to_string : Uuid → rstr).

Definition owner_ok (owner : option rstr) : Prop :=
  ∀ uuid u, owner = Some uuid → WAL_FRAME_HEADER_LEN ≤ len (data nd) →
    segment_owner_from_bytes (take 52 (data nd)) = Some u → to_string u = uuid.

Lemma still_retain owner l d :
  stays d → Am (λ r d', stays d' ∧ ((D, n) ∈ r ↔ (D, n) ∈ l ∧ owner_ok owner)) (retain_owned_segments to_string l owner) d.
Proof.
  intros Hd. destruct owner as [uuid|]; simpl.
  2: { intros d' Hd'. split; [by eapply stays_env|]. unfold owner_ok. naive_solver. }
  revert d Hd. induction l as [|p l IH]; intros d Hd; simpl.
  { intros d' Hd'. split; [by eapply stays_env|]. set_solver. }
  intros d1 r d2 H1 [Hx Hw]. pose proof (stays_env d d1 H1 Hd) as Hd1. assert (d2 = d1) as -> by (by inv_exec Hx).
  apply among_bind. eapply among_mono; [|by apply IH]. intros l' d2 [Hd2 Hl'] d3 H3. split; [by eapply stays_env|].
  set (o := match r with Some _ => _ | None => _ end). assert (p = (D, n) →
    o = if len (data nd) <? WAL_FRAME_HEADER_LEN then None else segment_owner_from_bytes (take 52 (data nd))) as Ho.
  { intros ->. destruct Hd1 as (_ & (i & Hli & Hin) & _). destruct r as [f|]; [|by rewrite Hli in Hw; simpl in Hw; rewrite Hin in Hw; specialize (Hw eq_refl)]. inv_exec Hx. by simplify_eq. }
  clearbody o. destruct (decide (p = (D, n))) as [->|Hne].
  2: { assert (∀ r, (D, n) ∈ p :: r ↔ (D, n) ∈ r) as Hc by (intros r'; rewrite elem_of_cons; naive_solver).
       destruct o; [destruct (bool_decide _)|]; by rewrite ?Hc, Hl'. }
  assert (∀ r, (D, n) ∈ (D, n) :: r) as Hh by (intros; left). rewrite (Ho eq_refl). unfold owner_ok in *.
  destruct (Z.ltb_spec (len (data nd)) WAL_FRAME_HEADER_LEN) as [Hlt|Hge].
  { split; [|done]. intros _. split; [done|]. intros ??? Hlen. lia. }
  destruct (segment_owner_from_bytes _) as [u|] eqn:Eu; [|split; [|done]; by intros _].
  case_bool_decide as Hu.
  - split; [|done]. intros _. split; [done|]. by intros ?? [= <-] _ [= <-].
  - rewrite Hl'. split; [by intros [_ ?]; split|]. intros [_ Hok]. destruct Hu. by apply (Hok uuid u).
Qed.

End Owned.

Section Reads.
Context {batch : Type} `{!ArrowIpc batch} (num_rows : batch → Z).
Context {schema carrier : Type} `{!EqDecision schema, !EqDecision carrier}.
Context (conform : schema → option carrier → batch → option batch).

Definition decodes : Prop := is_framed (data nd) = true ∧ ∃ bs : list batch, decode_wal_frame (data nd) = inr bs.

(** A read finds the segment in [D] and nowhere else. *)
Lemma still_read p d :
  stays d → is_framed (data nd) = true → (∃ k, stage k = Some p.1) → p.2 = n →
  Am (λ r d', stays d' ∧ (is_Some r ↔ p = (D, n) ∧ decodes)) (read_segment_file (batch := batch) p) d.
Proof.
  intros Hd Hfr [k Hk] Hp. simpl. intros d1 r d2 H1 [Hx Hw]. pose proof (stays_env d d1 H1 Hd) as Hd1.
  assert (d2 = d1) as -> by (by inv_exec Hx). destruct (decide (p = (D, n))) as [->|Hne].
  - pose proof Hd1 as (_ & (i & Hli & Hin) & _). destruct r as [f|]; [|by rewrite Hli in Hw; simpl in Hw; rewrite Hin in Hw; specialize (Hw eq_refl)]. inv_exec Hx. simplify_eq.
    rewrite Hfr. simpl. intros d2 H2. split; [by eapply stays_env|]. unfold decodes.
    destruct (decode_wal_frame (data nd)); split; [by intros [? ?]|intros (_ & _ & ? & ?); done|eauto|by eexists].
  - assert (live d1 !! p = None) as Hno.
    { destruct Hd1 as (_ & _ & Ho). rewrite (surjective_pairing p), Hp. eapply Ho; [exact Hk|]. intros <-. apply Hne.
      by rewrite (surjective_pairing p), Hp. }
    inv_exec Hx. simpl. intros d2 H2. split; [by eapply stays_env|]. split; [by intros [? ?]|naive_solver].
Qed.

Lemma still_read_all s c segments acc d :
  stays d → is_framed (data nd) = true → (∀ p, p ∈ segments → ∃ k, stage k = Some p.1) →
  Am (λ r _, ∀ acc', r = Some acc' → (n ∈ acc'.2 ↔ n ∈ acc.2 ∨ ((D, n) ∈ segments ∧ decodes)))
    (read_all num_rows conform s c segments acc) d.
Proof.
  intros Hd Hfr. revert acc d Hd. induction segments as [|p segments IH]; intros acc d Hd Hst.
  { intros d' _ ? [= <-]. pose proof (not_elem_of_nil (D, n)). tauto. }
  assert (∀ q, q ∈ segments → ∃ k, stage k = Some q.1) as Hst' by (intros; apply Hst; by right).
  cbn [read_all]. apply among_bind. destruct (decide (p.2 = n)) as [Hp|Hp].
  - eapply among_mono; [|apply (still_read p d Hd Hfr (Hst p (list_elem_of_here _ _)) Hp)].
    intros [bs|] d1 [Hd1 Hr].
    + destruct (conform_all num_rows conform s c bs) as [bs'|]; [|by intros ? _ ?].
      eapply among_mono; [|by apply IH]. intros r d2 Hr2 acc' Ea. rewrite (Hr2 acc' Ea). simpl.
      rewrite elem_of_app, list_elem_of_singleton, elem_of_cons. destruct Hr as [Hr _]. destruct (Hr (mk_is_Some _ _ eq_refl)) as [-> ?].
      naive_solver.
    + eapply among_mono; [|by apply IH]. intros r d2 Hr2 acc' Ea. rewrite (Hr2 acc' Ea), elem_of_cons.
      assert (¬ (p = (D, n) ∧ decodes)) by (intros H%Hr; by destruct H). naive_solver.
  - eapply among_mono; [|apply (looking_among works E works_exec _ d), looking_read].
    intros r d1 H1. assert (stays d1) as Hd1 by exact (stays_env d d1 H1 Hd). assert (p ≠ (D, n)) by (by intros ->).
    destruct r as [bs|].
    + destruct (conform_all num_rows conform s c bs) as [bs'|]; [|by intros ? _ ?].
      eapply among_mono; [|by apply IH]. intros r d2 Hr2 acc' Ea. rewrite (Hr2 acc' Ea). simpl.
      rewrite elem_of_app, list_elem_of_singleton, elem_of_cons. naive_solver.
    + eapply among_mono; [|by apply IH]. intros r d2 Hr2 acc' Ea. rewrite (Hr2 acc' Ea), elem_of_cons. naive_solver.
Qed.
End Reads.
End Still.

(** * The budget *)

Section Budget.
Context (exclude : list rstr) (max seg_cap : Z) (d : Disk).
Context (Hmax : 0 < max < 2 ^ 64 - 1).
Abbreviation Am := (among works eq) (only parsing).

Definition file_len (p : path) : Z :=
  match live d !! p ≫= λ i, inodes d !! i with Some nd => len (data nd) | None => 0 end.

Definition counted (n : rstr) : bool := is_arrow n && negb (bool_decide (n ∈ exclude)).

Definition dir_len (sub : Dir) (ns : list rstr) : Z :=
  sumZ ((λ n, file_len (sub, n)) <$> filter (λ n, counted n = true) ns).

Lemma file_len_nonneg p : 0 ≤ file_len p.
Proof. unfold file_len. case_match; [apply len_nonneg|done]. Qed.

Lemma quiet_env (x y : Disk) : rtc eq x y → x = y.
Proof. by induction 1; subst. Qed.

Lemma size_entry_among sub s n :
  0 ≤ s.1 →
  Am (λ r d', d' = d ∧ ∀ s', r = inr s' → s'.1 = s.1 + dir_len sub [n] ∧ (s.1 ≤ max → s'.1 ≤ max))
    (size_entry exclude None max seg_cap sub s n) d.
Proof.
  intros Hs. destruct s as [total examined]. unfold size_entry, dir_len. rewrite filter_cons, filter_nil. simpl in *.
  unfold counted. destruct (is_arrow n) eqn:Ea; simpl.
  2: { intros d' <-%quiet_env. split; [done|]. intros ? [= <-]. unfold sumZ. simpl. lia. }
  case_bool_decide as Hx; simpl.
  { intros d' <-%quiet_env. split; [done|]. intros ? [= <-]. unfold sumZ. simpl. lia. }
  destruct ((0 <? seg_cap) && (seg_cap <? examined + 1)); [by intros d' <-%quiet_env|].
  simpl. intros d1 r d2 <-%quiet_env [He Hw].
  assert (d2 = d) as -> by (by inv_exec He).
  assert (match r with Some f => len f | None => 0 end = file_len (sub, n)) as Hr.
  { unfold file_len. destruct r as [f|]; [|by rewrite (Hw eq_refl)]. inv_exec He.
    match goal with Hl : live d !! _ = Some _, Hi : inodes d !! _ = Some _ |- _ => rewrite Hl; simpl; by rewrite Hi end. }
  rewrite Hr. pose proof (file_len_nonneg (sub, n)). unfold saturating_add.
  rewrite (proj2 (Z.ltb_lt 0 max)) by lia. simpl.
  destruct (Z.ltb_spec max (Z.min (total + file_len (sub, n)) (2 ^ 64 - 1))).
  { by intros d' <-%quiet_env. }
  intros d' <-%quiet_env. split; [done|]. intros ? [= <-]. unfold sumZ. simpl. lia.
Qed.

Lemma dir_len_cons sub n ns : dir_len sub (n :: ns) = dir_len sub [n] + dir_len sub ns.
Proof. unfold dir_len. change (n :: ns) with ([n] ++ ns). by rewrite filter_app, fmap_app, sumZ_app. Qed.

Lemma dir_len_nonneg sub ns : 0 ≤ dir_len sub ns.
Proof. apply sumZ_nonneg, Forall_fmap, Forall_true. intros n. apply file_len_nonneg. Qed.

Lemma size_entries_among sub ns s :
  0 ≤ s.1 →
  Am (λ r d', d' = d ∧ ∀ s', r = inr s' → s'.1 = s.1 + dir_len sub ns ∧ (s.1 ≤ max → s'.1 ≤ max))
    (size_entries exclude None max seg_cap sub ns s) d.
Proof.
  revert s. induction ns as [|n ns IH]; intros s Hs; cbn [size_entries].
  { intros d' <-%quiet_env. split; [done|]. intros ? [= <-]. unfold dir_len, sumZ. simpl. lia. }
  apply among_bind. eapply among_mono; [|by apply size_entry_among]. intros [t|s1] d1 [-> H1]; [by intros d' <-%quiet_env|].
  destruct (H1 s1 eq_refl) as [E1 Hle1]. pose proof (dir_len_nonneg sub [n]).
  eapply among_mono; [|apply IH; lia]. intros r d2 [-> H2]. split; [done|]. intros s' ->.
  destruct (H2 s' eq_refl) as [E2 Hle2]. rewrite dir_len_cons. split; [lia|auto].
Qed.

(** What a listing of the directories shows. *)
Definition shows (sub : Dir) (ns : list rstr) : Prop := NoDup ns ∧ ∀ n, n ∈ ns ↔ is_Some (live d !! (sub, n)).

Lemma size_dirs_among subs s :
  0 ≤ s.1 →
  Am (λ r _, r.1 = true → ∃ nss, Forall2 shows subs nss ∧ r.2 = s.1 + sumZ (zip_with dir_len subs nss) ∧ (s.1 ≤ max → r.2 ≤ max))
    (size_dirs exclude None max seg_cap subs s) d.
Proof.
  revert s. induction subs as [|sub subs IH]; intros s Hs; cbn [size_dirs].
  { intros d' _ _. exists []. unfold sumZ. simpl. split_and!; [done|lia|done]. }
  simpl. intros d1 r d2 <-%quiet_env [He Hw]. inv_exec He. rename names into ns.
  apply among_bind. eapply among_mono; [|by apply (size_entries_among sub)]. intros [t|s1] d1 [-> H1]; [by intros ? _|].
  destruct (H1 s1 eq_refl) as [E1 Hle1]. pose proof (dir_len_nonneg sub ns).
  eapply among_mono; [|apply IH; lia]. intros r d2 Hr Ht. destruct (Hr Ht) as (nss & Hn & E2 & Hle2).
  exists (ns :: nss). split_and!; [by constructor| |auto]. unfold sumZ in *. simpl. lia.
Qed.

Lemma sumZ_submseteq (f : path → Z) l L : (∀ p, 0 ≤ f p) → l ⊆+ L → sumZ (f <$> l) ≤ sumZ (f <$> L).
Proof.
  intros Hf. induction 1 as [|x l1 l2 _ IH|x y l1|x l1 l2 _ IH|l1 l2 l3 _ IH1 _ IH2]; unfold sumZ in *; cbn;
    [done|lia|lia|specialize (Hf x); lia|lia].
Qed.

(** The segments a read of the buffer may decode. *)
Definition bufferable (p : path) : Prop :=
  p.1 ∈ [SealedDir; ProcessingDir; CommittedDir] ∧ counted p.2 = true ∧ is_Some (live d !! p).

Lemma bufferable_fits nss l :
  Forall2 shows [SealedDir; ProcessingDir; CommittedDir] nss → NoDup l → (∀ p, p ∈ l → bufferable p) →
  sumZ (file_len <$> l) ≤ sumZ (zip_with dir_len [SealedDir; ProcessingDir; CommittedDir] nss).
Proof.
  intros Hn Hnd Hl. set (L := mjoin (zip_with (λ sub ns, pair sub <$> filter (λ n, counted n = true) ns) [SealedDir; ProcessingDir; CommittedDir] nss)).
  assert (sumZ (zip_with dir_len [SealedDir; ProcessingDir; CommittedDir] nss) = sumZ (file_len <$> L)) as ->.
  { subst L. generalize [SealedDir; ProcessingDir; CommittedDir]. intros subs. clear. revert nss.
    induction subs as [|sub subs IH]; intros [|ns nss]; [done..|]. cbn [zip_with mjoin list_join]. rewrite fmap_app, sumZ_app, <- IH.
    unfold dir_len at 1, sumZ. cbn [foldr]. f_equal. by rewrite <- list_fmap_compose. }
  apply sumZ_submseteq; [apply file_len_nonneg|]. apply NoDup_submseteq; [done|]. intros [sub n] Hp.
  destruct (Hl _ Hp) as (Hsub & Hc & Hlive). cbn [fst snd] in *. apply list_elem_of_lookup_1 in Hsub as [k Hk].
  destruct (Forall2_lookup_l _ _ _ _ _ Hn Hk) as (ns & Hns & _ & Hiff). subst L. apply list_elem_of_join.
  exists (pair sub <$> filter (λ n, counted n = true) ns). split.
  - apply list_elem_of_fmap. exists n. split; [done|]. apply list_elem_of_filter. split; [done|]. by apply Hiff.
  - apply list_elem_of_lookup. exists k. by rewrite lookup_zip_with, Hk, Hns.
Qed.
End Budget.

(** * The theorems *)

(** C23. A buffer read counts no segment twice.  While other processes seal new
    segments and move the ones there on ([sealed] to [processing] to
    [committed]), so that the listing may show one segment in two directories,
    and whatever calls fail: the segments read are distinct, none is among those
    the query's snapshot already has, and the batches are exactly theirs, each
    segment's whole and in order. *)
Theorem buffer_reads_once age to_string {batch} `{!ArrowIpc batch} (num_rows : batch → Z) {schema carrier}
    `{!EqDecision schema, !EqDecision carrier} (conform : schema → option carrier → batch → option batch)
    content E s exclude time_bound c owner d d' bs ns :
  (∀ x y, E x y → segments_ok content x → segments_ok content y ∧ ∀ n, forward n x y) →
  segments_ok content d →
  rtc (istep E) (d, read_buffer_batches_keyed age to_string num_rows conform s exclude time_bound c owner)
                (d', Ret (Some (bs, ns))) →
  NoDup ns ∧ batches_of num_rows conform content s c ns bs ∧ ∀ n, n ∈ ns → n ∉ exclude.
Proof.
  intros HE Hd Hr%istep_mstep.
  pose proof (read_buffer_among age to_string num_rows conform content _ E (λ _ _ _ _ _ H, H) HE s exclude time_bound c owner d Hd) as Ha.
  destruct (among_sound _ _ _ _ _ _ _ Hr Ha bs ns eq_refl) as (? & ? & Hn). split_and!; [done..|].
  intros n Hin. by destruct (Hn n Hin).
Qed.

(** C24. The cache of decoded buffers changes no answer.  While every segment is
    a framed file in one of the three directories at a time and other processes
    seal new ones and only move those there on ([sealed] to [processing] to
    [committed]), and whatever calls fail: if the slot a request finds, at either
    of its lookups, holds the batches of the segments it names, then what the
    request returns, hit or miss, are the batches of distinct segments the
    snapshot does not have, under the schema and mapping asked for; and what it
    puts into the slot holds the batches of the segments it names.
    ([buffer_read_doubles_released]: a segment given back to [sealed/] meanwhile
    can be read twice.) *)
Theorem buffer_cache_exact age to_string {batch} `{!ArrowIpc batch} (num_rows : batch → Z) {schema carrier}
    `{!EqDecision schema, !EqDecision carrier} (conform : schema → option carrier → batch → option batch)
    content E first second s exclude time_bound c owner d d' r u :
  (∀ x y, E x y → segments_ok content x → segments_ok content y ∧ ∀ n, forward n x y) →
  segments_ok content d → honest num_rows conform content first → honest num_rows conform content second →
  rtc (istep E) (d, get_or_load_for_query_keyed age to_string num_rows conform first second s exclude time_bound c owner)
                (d', Ret (r, u)) →
  (∀ bs ns, r = Some (bs, ns) →
     NoDup ns ∧ batches_of num_rows conform content s c ns bs ∧ ∀ n, n ∈ ns → n ∉ exclude) ∧
  ∀ slot, honest num_rows conform content slot → honest num_rows conform content (update u slot).
Proof.
  intros HE Hd H1 H2 Hr%istep_mstep.
  pose proof (cache_among age to_string num_rows conform content _ E (λ _ _ _ _ _ H, H) HE first second s exclude time_bound c owner d Hd H1 H2) as Ha.
  destruct (among_sound _ _ _ _ _ _ _ Hr Ha) as [Hok Hh]. split; [|done]. intros bs ns E1. apply (Hok (bs, ns) E1).
Qed.

(** C25. A buffer read misses no segment that stays where it is.  Whatever others
    do to the other segments, in a read none of whose own calls fails: a framed
    file that is in one of the three directories and not moved during the read
    is read exactly when it is a segment file that decodes, that the snapshot
    does not have, that is recent if it is committed (a segment that has been in
    [committed/] for longer is not read), not outside the query's time window by
    its header, and not another table's. *)
Theorem buffer_read_complete age to_string {batch} `{!ArrowIpc batch} (num_rows : batch → Z) {schema carrier}
    `{!EqDecision schema, !EqDecision carrier} (conform : schema → option carrier → batch → option batch)
    E D n nd s exclude time_bound c owner d d' bs ns :
  (∀ x y, E x y → stays D n nd x → stays D n nd y) → stays D n nd d → is_framed (data nd) = true →
  rtc (mstep works E) (d, read_buffer_batches_keyed age to_string num_rows conform s exclude time_bound c owner)
                      (d', Ret (Some (bs, ns))) →
  n ∈ ns ↔ listed D n nd age exclude time_bound ∧ owner_ok nd to_string owner ∧ decodes nd (batch := batch).
Proof.
  intros HE Hd Hfr Hr. eapply (among_sound works E (λ r _, ∀ bs ns, r = Some (bs, ns) → (n ∈ ns ↔ _))); [exact Hr| |done].
  apply among_bind. eapply among_mono; [|apply among_and; [by apply (still_list D n nd E HE)|by apply (list_uncommitted_among age works E works_exec)]].
  intros [l|] d1 [[Hd1 Hl] Hok]; [|by intros ? _ ?]. destruct (Hok l eq_refl) as [[_ Hlist] _].
  apply among_bind. eapply among_mono; [|apply among_and; [by apply (still_retain D n nd E HE)|apply retain_owned_among]].
  intros segments d2 [[Hd2 Hseg] Hsub]. apply among_bind.
  eapply among_mono; [|apply (still_read_all D n nd E HE num_rows conform s c segments ([], []) d2 Hd2 Hfr)].
  - intros [r|] d3 Hr3; [|by intros ? _ ?]. intros d4 _ ? ? [= <- <-]. rewrite (merge_sort_Permutation _ _), (Hr3 r eq_refl).
    rewrite Hseg, (Hl l eq_refl). pose proof (not_elem_of_nil n). tauto.
  - intros p Hp. apply Hlist. eapply elem_of_submseteq; [exact Hp|by apply sublist_submseteq].
Qed.

(** The budget bounds what a read decodes.  When the gate passes a directory
    under a ceiling of [max] bytes, with nothing moving meanwhile, the files of
    any set of segments that the buffer could read there are together within
    [max]. *)
Theorem buffer_budget_bounds exclude seg_cap max d d' total l :
  0 < max < 2 ^ 64 - 1 →
  rtc (mstep works eq) (d, buffer_within_budget_with_max seg_cap exclude None max) (d', Ret (true, total)) →
  NoDup l → (∀ p, p ∈ l → bufferable exclude d p) →
  sumZ (file_len d <$> l) ≤ total ≤ max.
Proof.
  intros Hm Hr Hnd Hl.
  destruct (among_sound works eq _ _ _ _ _ Hr (size_dirs_among exclude max seg_cap d Hm _ (0, 0) (Z.le_refl 0)) eq_refl) as (nss & Hn & Ht & Hle).
  cbn [fst snd] in *. assert (total ≤ max) by (apply Hle; lia). pose proof (bufferable_fits exclude d nss l Hn Hnd Hl). lia.
Qed.

(** * Runs *)

(** Two programs, whose turn it is by the list; every call succeeds. *)
Fixpoint scheduled {A B} (turns : list bool) (d : Disk) (p : Prog A) (q : Prog B) : option (Disk * Prog A * Prog B) :=
  match turns with
  | [] => Some (d, p, q)
  | true :: turns =>
      match p with
      | Step op k => match perform d true 0 op with Some (r, d) => scheduled turns d (k r) q | None => None end
      | Ret _ => None
      end
  | false :: turns =>
      match q with
      | Step op k => match perform d true 0 op with Some (r, d) => scheduled turns d p (k r) | None => None end
      | Ret _ => None
      end
  end.

Lemma scheduled_sound {A B} turns d (p : Prog A) (q : Prog B) z : scheduled turns d p q = Some z → rtc interleave (d, p, q) z.
Proof.
  revert d p q. induction turns as [|[] turns IH]; intros d p q; simpl; [by intros [= ->]| |].
  - destruct p as [a|R op k]; [done|]. destruct (perform d true 0 op) as [[r d']|] eqn:Ep; [|done].
    intros Hz. eapply interleave_l; [by eapply perform_exec|by apply IH].
  - destruct q as [b|R op k]; [done|]. destruct (perform d true 0 op) as [[r d']|] eqn:Ep; [|done].
    intros Hz. eapply interleave_r; [by eapply perform_exec|by apply IH].
Qed.

#[local] Existing Instance sample_arrow.

Definition sample_frame : bytes :=
  Eval vm_compute in
  (let ipc := ipc_body [true; false] (ipc_eos (batch := bool)) in build_wal_frame 0 0 9 None ipc (Crc32.crc32 ipc)).

Definition held : rstr := Eval vm_compute in lit "ingester-0-0001.arrow".

(** One segment, in [D]. *)
Definition one_segment (D : Dir) : Disk :=
  mkDisk {[1%N := mkInode sample_frame (length sample_frame)]} {[(D, held) := 1%N]} {[(D, held) := 1%N]} [].

(** A read of every batch as it is; no file is too old. *)
Definition sample_read (exclude : list rstr) : Prog (option (list bool * list rstr)) :=
  read_buffer_batches_keyed (schema := unit) (carrier := unit) (λ _, Some 0) (λ u, u) (λ _, 1) (λ _ _ b, Some b)
    tt exclude None None None.

Definition ended {A B} (p : path) (z : Disk * Prog A * Prog B) : option (option N * A * B) :=
  match z with (d, Ret a, Ret b) => Some (live d !! p, a, b) | _ => None end.

(** The drain's half of the races. *)
Definition drain_claims : Prog (option path) := claim_segment (SealedDir, held).
Definition drain_claims_and_releases : Prog (option path) :=
  let? p := claim_segment (SealedDir, held) in release_segment p.

(** Alone, the read returns the segment wherever it is. *)
Lemma sample_read_alone D :
  D ∈ [SealedDir; ProcessingDir; CommittedDir] →
  snd <$> runs (sample_read []) [] (one_segment D) = Some (Some ([true; false], [held])).
Proof.
  rewrite !elem_of_cons, elem_of_nil. intros [->|[->|[->|[]]]]; vm_compute; reflexivity.
Qed.

(** A segment that is claimed while a query reads is missing from the answer.
    The segment is sealed, readable and not in the query's snapshot; the drain's
    claim renames it between the listing and the read, the read of the old path
    fails and is skipped, and the query returns without its rows, although it
    is in a buffered directory before, during and after. *)
Theorem buffer_read_loses_claimed :
  ∃ d', at_stage held 0 (one_segment SealedDir) ∧ at_stage held 1 d' ∧
    snd <$> runs (sample_read []) [] (one_segment SealedDir) = Some (Some ([true; false], [held])) ∧
    rtc interleave (one_segment SealedDir, sample_read [], drain_claims)
                   (d', Ret (Some ([], [])), Ret (Some (ProcessingDir, held))).
Proof.
  assert (ended (ProcessingDir, held) <$> scheduled [true; true; true; false; false; true; false; false; false]
            (one_segment SealedDir) (sample_read []) drain_claims
          = Some (Some (Some 1%N, Some ([], []), Some (ProcessingDir, held)))) as Hz by (vm_compute; reflexivity).
  destruct (scheduled _ _ _ _) as [z|] eqn:Ez in Hz; [|done]. apply scheduled_sound in Ez. destruct z as [[d' [r|? ? ?]] [q|? ? ?]]; simpl in Hz; try done.
  injection Hz as Hl -> ->. exists d'. split_and!; [by exists SealedDir; split; [|eexists]| |apply sample_read_alone; left|done].
  exists ProcessingDir. split; [done|]. rewrite Hl. by eexists.
Qed.

(** A segment that is released while a query reads is counted twice.  The
    listing shows the segment in [sealed/] and, claimed meanwhile, in
    [processing/]; the read takes it from [processing/], the drain gives it back,
    and the read takes it from [sealed/] again. *)
Theorem buffer_read_doubles_released :
  ∃ d', at_stage held 0 (one_segment SealedDir) ∧ at_stage held 0 d' ∧
    rtc interleave (one_segment SealedDir, sample_read [], drain_claims_and_releases)
                   (d', Ret (Some ([true; false; true; false], [held; held])), Ret (Some (SealedDir, held))).
Proof.
  assert (ended (SealedDir, held) <$> scheduled ([true] ++ replicate 5 false ++ replicate 3 true ++ [false; true] ++ replicate 3 false)
            (one_segment SealedDir) (sample_read []) drain_claims_and_releases
          = Some (Some (Some 1%N, Some ([true; false; true; false], [held; held]), Some (SealedDir, held))))
    as Hz by (vm_compute; reflexivity).
  destruct (scheduled _ _ _ _) as [z|] eqn:Ez in Hz; [|done]. apply scheduled_sound in Ez. destruct z as [[d' [r|? ? ?]] [q|? ? ?]]; simpl in Hz; try done.
  injection Hz as Hl -> ->. exists d'. split_and!; [by exists SealedDir; split; [|eexists]| |done].
  exists SealedDir. split; [done|]. rewrite Hl. by eexists.
Qed.

Definition sample_content (n : rstr) : Res (list bool) := inr [true; false].

Lemma one_segment_stage D m k : at_stage m k (one_segment D) ↔ m = held ∧ stage k = Some D.
Proof.
  unfold at_stage, one_segment, live. setoid_rewrite lookup_singleton_is_Some. split.
  - intros (D' & Hk & [= -> ->]). done.
  - intros [-> Hk]. by exists D.
Qed.

Lemma one_segment_ok D : segments_ok sample_content (one_segment D).
Proof.
  split.
  - intros m k k' [_ Hk]%one_segment_stage [_ Hk']%one_segment_stage.
    destruct (stage_cases k D Hk) as [[-> ->]|[[-> ->]|[-> ->]]], (stage_cases k' _ Hk') as [[-> ?]|[[-> ?]|[-> ?]]]; done.
  - intros n k D' i _ Hl. cbn [one_segment live] in Hl. apply lookup_singleton_Some in Hl as [[= <- <-] <-]. exists (mkInode sample_frame (length sample_frame)).
    split_and!; [done|by vm_compute|by vm_compute].
Qed.

(** The segment is claimed between the looks at [sealed/] and [processing/]. *)
Definition claimed_meanwhile (x y : Disk) : Prop := x = one_segment SealedDir ∧ y = one_segment ProcessingDir.

Lemma claimed_meanwhile_ok x y :
  claimed_meanwhile x y → segments_ok sample_content x → segments_ok sample_content y ∧ ∀ n, forward n x y.
Proof.
  intros [-> ->] _. split; [apply one_segment_ok|]. intros n k [-> Hk]%one_segment_stage. exists 1%nat.
  split; [|by apply one_segment_stage]. destruct (stage_cases k _ Hk) as [[-> _]|[[_ ?]|[_ ?]]]; [lia|done..].
Qed.

Lemma runs_istep {A} E (p : Prog A) script d a :
  snd <$> runs p script d = Some a → ∃ d', rtc (istep E) (d, p) (d', Ret a).
Proof.
  destruct (runs p script d) as [[d' b]|] eqn:Er; [|done]. intros [= ->]. exists d'. apply runs_step in Er.
  eapply rtc_subrel; [|exact Er]. intros ? ?. by left.
Qed.

Lemma sample_run_among : ∃ d', rtc (istep claimed_meanwhile) (one_segment SealedDir, sample_read []) (d', Ret (Some ([true; false], [held]))).
Proof.
  assert (∃ d', rtc (istep claimed_meanwhile) (one_segment ProcessingDir,
    match sample_read [] with Step op k => match op in Op R return (R → _) → _ with OpReadDir _ => λ k, k (Some [held]) | _ => λ _, Ret None end k | Ret _ => Ret None end)
    (d', Ret (Some ([true; false], [held])))) as [d' Hd'].
  { apply (runs_istep _ _ []). vm_compute. reflexivity. }
  exists d'. eapply (istep_call _ _ _ _ (Some [held])); [by eapply (listing_one SealedDir)|]. eapply istep_env; [by split|]. exact Hd'.
Qed.

Lemma runs_works {A} E (p : Prog A) d d' a : runs p [] d = Some (d', a) → rtc (mstep works E) (d, p) (d', Ret a).
Proof.
  revert d. induction p as [b|R op k IH]; intros d; cbn [runs]; [intros [= -> ->]; apply rtc_refl|]. simpl.
  destruct (perform d true 0 op) as [[r d1]|] eqn:Ep; [|done]. intros Hr%IH. eapply rtc_l; [|exact Hr]. left. exists r.
  split; [|done]. split; [by eapply perform_exec|]. destruct op; simpl in *; try done; [|by repeat case_match; simplify_eq].
  by destruct (live d !! p ≫= _); simplify_eq.
Qed.

Lemma buffer_reads_once_witness :
  NoDup [held] ∧ batches_of (schema := unit) (carrier := unit) (λ _, 1) (λ _ _ b, Some b) sample_content tt None [held] [true; false].
Proof.
  destruct sample_run_among as [d' Hd'].
  destruct (buffer_reads_once (schema := unit) (carrier := unit) (λ _, Some 0) (λ u, u) (λ _, 1) (λ _ _ b, Some b)
    sample_content claimed_meanwhile tt [] None None None (one_segment SealedDir) d' [true; false] [held]
    claimed_meanwhile_ok (one_segment_ok SealedDir) Hd') as (? & ? & _). done.
Defined.

Lemma buffer_read_complete_witness :
  held ∈ [held] ↔ listed SealedDir held (mkInode sample_frame (length sample_frame)) (λ _, Some 0) [] None
    ∧ owner_ok (mkInode sample_frame (length sample_frame)) (λ u, u) None
    ∧ decodes (batch := bool) (mkInode sample_frame (length sample_frame)).
Proof.
  assert (snd <$> runs (sample_read []) [] (one_segment SealedDir) = Some (Some ([true; false], [held]))) as Hr
    by (apply sample_read_alone; left).
  destruct (runs (sample_read []) [] (one_segment SealedDir)) as [[d' r]|] eqn:Er; [|done]. injection Hr as ->.
  apply (runs_works eq) in Er.
  apply (buffer_read_complete (schema := unit) (carrier := unit) (λ _, Some 0) (λ u, u) (λ _, 1) (λ _ _ b, Some b) eq SealedDir held
    (mkInode sample_frame (length sample_frame)) tt [] None None None (one_segment SealedDir) d' [true; false] [held]);
    [by intros ? ? ->| |by vm_compute|exact Er].
  split_and!; [by exists 0%nat|by exists 1%N|]. intros k D' _ HD. cbn [one_segment live]. apply lookup_singleton_ne. congruence.
Defined.

(** A second request finds the first one's batches in the slot. *)
Lemma buffer_cache_exact_witness :
  NoDup [held] ∧ batches_of (schema := unit) (carrier := unit) (λ _, 1) (λ _ _ b, Some b) sample_content tt None [held] [true; false].
Proof.
  set (e := mkEntry [held] tt None None [true; false] : BufferDeltaCacheEntry (schema := unit) (carrier := unit)).
  assert (honest (λ _, 1) (λ _ _ b, Some b) sample_content (Some e)) as He.
  { intros ? [= <-]. split; [apply NoDup_singleton|]. by exists [held], [[true; false]]. }
  set (p := get_or_load_for_query_keyed (λ _, Some 0) (λ u, u) (λ _, 1) (λ _ _ b, Some b) (Some e) (Some e) tt [] None None None).
  assert (snd <$> runs p [] (one_segment SealedDir) = Some (Some ([true; false], [held]), Leave)) as Hr by (vm_compute; reflexivity).
  apply (runs_istep claimed_meanwhile) in Hr as [d' Hr].
  destruct (buffer_cache_exact (schema := unit) (carrier := unit) (λ _, Some 0) (λ u, u) (λ _, 1) (λ _ _ b, Some b)
    sample_content claimed_meanwhile (Some e) (Some e) tt [] None None None (one_segment SealedDir) d' _ _
    claimed_meanwhile_ok (one_segment_ok SealedDir) He He Hr) as [Ha _]. by destruct (Ha _ _ eq_refl) as (? & ? & _).
Defined.

Lemma buffer_budget_bounds_witness : sumZ (file_len (one_segment SealedDir) <$> [(SealedDir, held)]) ≤ 89 ≤ 200.
Proof.
  assert (snd <$> runs (buffer_within_budget_with_max 4096 [] None 200) [] (one_segment SealedDir) = Some (true, 89)) as Hr
    by (vm_compute; reflexivity).
  destruct (runs _ [] (one_segment SealedDir)) as [[d' r]|] eqn:Er in Hr; [|done]. injection Hr as ->. apply (runs_works eq) in Er.
  apply (buffer_budget_bounds [] 4096 200 (one_segment SealedDir) d' 89 [(SealedDir, held)]); [lia|exact Er|apply NoDup_singleton|].
  intros p ->%list_elem_of_singleton. split_and!; [left|by vm_compute|by exists 1%N].
Defined.
