(* ===== verification/Eff.v ===== *)
(** Processes that share state (the catalog database, the Iceberg tables) and
    act on it one atomic statement at a time.

    A statement is a function of the clock and of the state.  It may fail
    without an effect, and its effect may be kept while the answer is lost, as
    a connection that breaks after the commit does.  [Err] is the early return
    of [?]. *)

From stdpp Require Import prelude.
From Stdlib Require Import ZArith Lia.
From S2P Require Import Prelude.

(** What a statement talks to. *)
Inductive Label := Sql | Append | ProofRead | Outside | Local.

Inductive Outcome := Done | Lost | Refused.

#[global] Instance label_eq_dec : EqDecision Label.
Proof. solve_decision. Defined.

#[global] Instance outcome_eq_dec : EqDecision Outcome.
Proof. solve_decision. Defined.

Inductive Eff (Σ A : Type) : Type :=
| Ret (a : A)
| Err
| Stmt (l : Label) (B : Set) (f : Z → Σ → B * Σ) (k : option B → Eff Σ A).
Arguments Ret {_ _} _.
Arguments Err {_ _}.
Arguments Stmt {_ _} _ {_} _ _.

Section Programs.
Context {Σ : Type}.

Fixpoint bind {A B} (p : Eff Σ A) (q : A → Eff Σ B) : Eff Σ B :=
  match p with
  | Ret a => q a
  | Err => Err
  | Stmt l f k => Stmt l f (λ r, bind (k r) q)
  end.

(** The [Result] of [p], as a value. *)
Fixpoint catch {A} (p : Eff Σ A) : Eff Σ (option A) :=
  match p with
  | Ret a => Ret (Some a)
  | Err => Ret None
  | Stmt l f k => Stmt l f (λ r, catch (k r))
  end.

Definition stmt (l : Label) {B : Set} (f : Z → Σ → B * Σ) : Eff Σ B :=
  Stmt l f (λ r, match r with Some b => Ret b | None => Err end).

(** A statement that only reads. *)
Definition query (l : Label) {B : Set} (f : Z → Σ → B) : Eff Σ B := stmt l (λ now s, (f now s, s)).

Definition ignore {A} (p : Eff Σ A) : Eff Σ unit := bind p (λ _, Ret tt).

(** [for x in l { acc = body(acc, x)? }] *)
Fixpoint each {A X} (body : A → X → Eff Σ A) (l : list X) (acc : A) : Eff Σ A :=
  match l with
  | [] => Ret acc
  | x :: l => bind (body acc x) (each body l)
  end.

Definition each_ {X} (body : X → Eff Σ unit) (l : list X) : Eff Σ unit := each (λ _ x, body x) l tt.

(** What a statement answers and leaves. *)
Definition perform {B} (o : Outcome) (now : Z) (f : Z → Σ → B * Σ) (s : Σ) : option B * Σ :=
  match o with
  | Done => (Some (f now s).1, (f now s).2)
  | Lost => (None, (f now s).2)
  | Refused => (None, s)
  end.

(** A run by itself: a time and an outcome for each statement.  [inl] is the
    program that is left when the script ends before it. *)
Fixpoint run {A} (script : list (Z * Outcome)) (p : Eff Σ A) (s : Σ) : (Eff Σ A + option A) * Σ :=
  match p, script with
  | Ret a, _ => (inr (Some a), s)
  | Err, _ => (inr None, s)
  | Stmt l f k, [] => (inl (Stmt l f k), s)
  | Stmt l f k, (now, o) :: script => let '(r, s) := perform o now f s in run script (k r) s
  end.

(** A run by itself in which nothing fails. *)
Fixpoint solo {A} (now : Z) (p : Eff Σ A) (s : Σ) : option A * Σ :=
  match p with
  | Ret a => (Some a, s)
  | Err => (None, s)
  | Stmt l f k => solo now (k (Some (f now s).1)) (f now s).2
  end.

Lemma solo_bind {A B} now (p : Eff Σ A) (q : A → Eff Σ B) s :
  solo now (bind p q) s = match solo now p s with (Some a, s) => solo now (q a) s | (None, s) => (None, s) end.
Proof. revert s. induction p as [a| |l C f k IH]; intros s; simpl; [done..|apply IH]. Qed.

Lemma run_err {A} script s : run script (Err (A:=A)) s = (inr None, s).
Proof. by destruct script. Qed.

Lemma run_ret {A} script (v : A) s : run script (Ret v) s = (inr (Some v), s).
Proof. by destruct script. Qed.

(** Programs that only read. *)
Fixpoint reads_only {A} (p : Eff Σ A) : Prop :=
  match p with
  | Ret _ | Err => True
  | Stmt _ f k => (∀ now s, (f now s).2 = s) ∧ ∀ r, reads_only (k r)
  end.

Lemma reads_only_bind {A B} (p : Eff Σ A) (q : A → Eff Σ B) : reads_only p → (∀ v, reads_only (q v)) → reads_only (bind p q).
Proof. intros Hp Hq. induction p as [v| |l C f k IH]; simpl; [apply Hq|done|]. destruct Hp as [? Hk]. split; [done|]. auto. Qed.

Lemma reads_catch {A} (p : Eff Σ A) : reads_only p → reads_only (catch p).
Proof. induction p as [v| |l C f k IH]; simpl; [done..|]. intros [? Hk]. split; auto. Qed.

Lemma reads_query l {B : Set} (f : Z → Σ → B) : reads_only (query l f).
Proof. split; [done|]. by intros []. Qed.

Lemma reads_each {A X} (body : A → X → Eff Σ A) l acc : (∀ acc x, reads_only (body acc x)) → reads_only (each body l acc).
Proof. intros Hb. revert acc. induction l as [|x l IH]; intros acc; simpl; [done|]. by apply reads_only_bind. Qed.

(** What follows a program that only reads begins where it began. *)
Lemma run_reads {A B} (p : Eff Σ A) (q : A → Eff Σ B) script s :
  reads_only p → (run script (bind p q) s).2 ≠ s →
  ∃ pre post v, script = pre ++ post ∧ run pre p s = (inr (Some v), s) ∧ run script (bind p q) s = run post (q v) s.
Proof.
  revert script s. induction p as [v| |l C f k IH]; intros script s Hp; cbn [bind run].
  - intros _. by exists [], script, v.
  - intros []. by destruct script.
  - destruct script as [|[now o] script]; [by intros []|]. destruct Hp as [Hf Hk].
    assert (perform o now f s = ((perform o now f s).1, s)) as Ep by (destruct o; simpl; by rewrite ?Hf).
    change (run ((now, o) :: script) (Stmt l f (λ r, bind (k r) q)) s) with
      (let '(r, s) := perform o now f s in run script (bind (k r) q) s). rewrite Ep. cbn zeta beta iota.
    intros (pre & post & v & -> & Hr & E)%IH; [|apply Hk]. exists ((now, o) :: pre), post, v. split_and!; [done| |done].
    simpl. by rewrite Ep.
Qed.
End Programs.

Declare Scope eff_scope.
Delimit Scope eff_scope with eff.
Notation "'let*' x ':=' p 'in' q" := (bind p (λ x, q))
  (at level 10, x pattern, p at level 200, q at level 200, right associativity) : eff_scope.
#[global] Open Scope eff_scope.
