(* ===== verification/RelyGuarantee.v ===== *)
(** Rely/guarantee reasoning for the processes of [Eff].

    Processes run concurrently, statement by statement, under a clock that does
    not go back.  A process of actor [a] is [safe] when, whatever its
    compatible rivals did within their guarantees before each statement of its
    own, the statement keeps the invariant and stays within [a]'s guarantee.
    Safe processes, started and killed at any time, keep the invariant. *)

From stdpp Require Import prelude relations.
From Stdlib Require Import ZArith Lia.
From S2P Require Import Prelude Eff.

Section Logic.
Context {Σ Act : Type}.

(** The clock and the shared state. *)
Abbreviation St := (Z * Σ)%type (only parsing).

Context (I : St → Prop).
(** Which outcomes a statement of an actor may have, after the last step's
    time and at its own. *)
Context (allowed : Act → Z → Z → Label → Outcome → Prop).
(** Which actors may run at the same time. *)
Context (compat : Act → Act → Prop).
Context (G : Act → St → St → Prop).

Definition others (a : Act) (x y : St) : Prop := I x ∧ I y ∧ x.1 ≤ y.1 ∧ ∃ b, compat a b ∧ G b x y.
Definition rely (a : Act) : St → St → Prop := rtc (others a).

Fixpoint safe (a : Act) {A} (p : Eff Σ A) (Q : option A → St → Prop) (x : St) : Prop :=
  match p with
  | Ret v => Q (Some v) x
  | Err => Q None x
  | Stmt l f k =>
      ∀ y, rely a x y → I y → ∀ now o, y.1 ≤ now → allowed a y.1 now l o →
        let r := perform o now f y.2 in
        I (now, r.2) ∧ G a y (now, r.2) ∧ safe a (k r.1) Q (now, r.2)
  end.

(** * Rules *)

Lemma safe_mono a {A} (p : Eff Σ A) (Q Q' : option A → St → Prop) x :
  (∀ r y, Q r y → Q' r y) → safe a p Q x → safe a p Q' x.
Proof.
  intros HQ. revert x. induction p as [v| |l B f k IH]; intros x; simpl; [apply HQ..|].
  intros H y Hr Hi now o Hle Ha. destruct (H y Hr Hi now o Hle Ha) as (? & ? & ?). split_and!; [done..|].
  by apply IH.
Qed.

Lemma safe_bind a {A B} (p : Eff Σ A) (q : A → Eff Σ B) Q x :
  safe a p (λ r y, match r with Some v => safe a (q v) Q y | None => Q None y end) x →
  safe a (bind p q) Q x.
Proof.
  revert x. induction p as [v| |l C f k IH]; intros x; simpl; [done..|].
  intros H y Hr Hi now o Hle Ha. destruct (H y Hr Hi now o Hle Ha) as (? & ? & ?). split_and!; [done..|].
  by apply IH.
Qed.

Lemma safe_catch a {A} (p : Eff Σ A) Q x :
  safe a p (λ r y, Q (Some r) y) x → safe a (catch p) Q x.
Proof.
  revert x. induction p as [v| |l C f k IH]; intros x; simpl; [done..|].
  intros H y Hr Hi now o Hle Ha. destruct (H y Hr Hi now o Hle Ha) as (? & ? & ?). split_and!; [done..|].
  by apply IH.
Qed.

(** One statement: what it must keep, what is known after it. *)
Lemma safe_stmt a l {B : Set} (f : Z → Σ → B * Σ) Q x :
  (∀ y, rely a x y → I y → ∀ now o, y.1 ≤ now → allowed a y.1 now l o →
     let r := perform o now f y.2 in I (now, r.2) ∧ G a y (now, r.2) ∧ Q r.1 (now, r.2)) →
  safe a (stmt l f) Q x.
Proof.
  simpl. intros H y Hr Hi now o Hle Ha. destruct (H y Hr Hi now o Hle Ha) as (? & ? & ?).
  split_and!; [done..|]. by destruct o.
Qed.

(** Loops: [P] holds of the accumulator and the items to come. *)
Lemma safe_each a {A X} (body : A → X → Eff Σ A) (P : A → list X → St → Prop) Q l acc x :
  (∀ acc i l x, P acc (i :: l) x →
     safe a (body acc i) (λ r y, match r with Some acc => P acc l y | None => Q None y end) x) →
  (∀ acc x, P acc [] x → Q (Some acc) x) →
  P acc l x → safe a (each body l acc) Q x.
Proof.
  intros Hb Hend. revert acc x. induction l as [|i l IH]; intros acc x HP; simpl; [by apply Hend|].
  apply safe_bind. eapply safe_mono; [|by apply Hb]. intros [acc'|] y; simpl; [apply IH|done].
Qed.

(** What is safe among more rivals, within a narrower guarantee, is safe for
    another actor. *)
Lemma safe_actor a b {A} (p : Eff Σ A) Q x :
  (∀ c, compat b c → ∃ c', compat a c' ∧ ∀ x y, G c x y → G c' x y) →
  (∀ x y, I x → I y → G a x y → G b x y) →
  (∀ t now l o, allowed b t now l o → allowed a t now l o) →
  safe a p Q x → safe b p Q x.
Proof.
  intros Hc Hg Ha. assert (∀ x y, rely b x y → rely a x y) as Hr.
  { intros y z. apply rtc_subrel. intros u v (? & ? & ? & c & Hbc & ?). destruct (Hc c Hbc) as (c' & ? & ?).
    split_and!; eauto. }
  revert x. induction p as [v| |l B f k IH]; intros x; simpl; [done..|].
  intros H y Hxy Hi now o Hle Hal. destruct (H y (Hr _ _ Hxy) Hi now o Hle (Ha _ _ _ _ Hal)) as (? & ? & ?).
  split_and!; [done|by apply Hg|by apply IH].
Qed.

(** * Processes in parallel *)

Record Proc := mkProc { actor : Act; prog : Eff Σ unit }.
Definition Config : Type := Z * list Proc * Σ.

Context (startable : Act → Eff Σ unit → Prop).

Inductive pstep : Config → Config → Prop :=
| pstep_stmt clock pre a l (B : Set) (f : Z → Σ → B * Σ) k post s now o r s' :
    clock ≤ now → allowed a clock now l o → perform o now f s = (r, s') →
    pstep (clock, pre ++ mkProc a (Stmt l f k) :: post, s) (now, pre ++ mkProc a (k r) :: post, s')
| pstep_start clock pool a p s :
    startable a p → Forall (λ q, compat a (actor q) ∧ compat (actor q) a) pool →
    pstep (clock, pool, s) (clock, mkProc a p :: pool, s)
| pstep_stop clock pre q post s :
    pstep (clock, pre ++ q :: post, s) (clock, pre ++ post, s).

(** A script that [a] may follow, and the time at which it ends. *)
Fixpoint legal (a : Act) {A} (clock : Z) (script : list (Z * Outcome)) (p : Eff Σ A) (s : Σ) : Prop :=
  match p, script with
  | Stmt l f k, (now, o) :: script =>
      clock ≤ now ∧ allowed a clock now l o ∧
      legal a now script (k (perform o now f s).1) (perform o now f s).2
  | _, _ => True
  end.

Fixpoint run_time {A} (clock : Z) (script : list (Z * Outcome)) (p : Eff Σ A) (s : Σ) : Z :=
  match p, script with
  | Stmt l f k, (now, o) :: script => run_time now script (k (perform o now f s).1) (perform o now f s).2
  | _, _ => clock
  end.

(** A process that runs by itself and then stops. *)
Lemma run_reach a clock script p s :
  startable a p → legal a clock script p s →
  rtc pstep (clock, [], s) (run_time clock script p s, [], (run script p s).2).
Proof.
  intros Hst Hl. eapply rtc_l; [by apply pstep_start|]. clear Hst. revert clock script s Hl.
  induction p as [v| |l B f k IH]; intros clock [|[now o] script] s Hl; simpl in *;
    try by apply rtc_once, (pstep_stop _ []).
  destruct Hl as (Hle & Ha & Hl). destruct (perform o now f s) as [r s'] eqn:Ep. simpl in *.
  eapply rtc_l; [by apply (pstep_stmt clock [] a l B f k [] s now o r s')|]. simpl. by apply IH.
Qed.

(** Processes that may all run at once can be started one after the other. *)
Lemma start_all clock (pool : list Proc) s :
  Forall (λ q, startable (actor q) (prog q)) pool →
  ForallOrdPairs (λ a b, compat a b ∧ compat b a) (actor <$> pool) →
  rtc pstep (clock, [], s) (clock, pool, s).
Proof.
  induction pool as [|[a p] pool IH]; [intros; apply rtc_refl|]. intros [Hp Hall]%Forall_cons Hc.
  simpl in Hc. inversion Hc as [|? ? Hq Hrest]; subst. eapply rtc_r; [by apply IH|]. apply pstep_start; [done|].
  by rewrite Forall_fmap in Hq.
Qed.

(** A schedule: which process of the pool acts, when, and with what outcome. *)
Section Schedules.
Context (allowedb : Act → Z → Z → Label → Outcome → bool).

Fixpoint legalb (a : Act) {A} (clock : Z) (script : list (Z * Outcome)) (p : Eff Σ A) (s : Σ) : bool :=
  match p, script with
  | Stmt l f k, (now, o) :: script =>
      (clock <=? now) && allowedb a clock now l o &&
      legalb a now script (k (perform o now f s).1) (perform o now f s).2
  | _, _ => true
  end.

Lemma legalb_ok a {A} clock script (p : Eff Σ A) s :
  (∀ a t now l o, allowedb a t now l o = true → allowed a t now l o) →
  legalb a clock script p s = true → legal a clock script p s.
Proof.
  intros Hb. revert clock p s. induction script as [|[now o] script IH]; intros clock [v| |l B f k] s; simpl; try done.
  rewrite !andb_true_iff, Z.leb_le. intros [[??] ?]. split_and!; [done|by apply Hb|by apply IH].
Qed.

Fixpoint exec (clock : Z) (pool : list Proc) (s : Σ) (schedule : list (nat * Z * Outcome)) : option Config :=
  match schedule with
  | [] => Some (clock, pool, s)
  | (i, now, o) :: schedule =>
      match pool !! i with
      | Some (mkProc a (Stmt l f k)) =>
          if (clock <=? now) && allowedb a clock now l o
          then exec now (<[i := mkProc a (k (perform o now f s).1)]> pool) (perform o now f s).2 schedule
          else None
      | _ => None
      end
  end.

Lemma exec_reach clock pool s schedule c :
  (∀ a t now l o, allowedb a t now l o = true → allowed a t now l o) →
  exec clock pool s schedule = Some c → rtc pstep (clock, pool, s) c.
Proof.
  intros Hb. revert clock pool s. induction schedule as [|[[i now] o] schedule IH]; intros clock pool s; simpl.
  { intros [= <-]. apply rtc_refl. }
  destruct (pool !! i) as [[a [v| |l B f k]]|] eqn:Ei; try done.
  destruct ((clock <=? now) && allowedb a clock now l o) eqn:E; [|done]. apply andb_true_iff in E as [Hle%Z.leb_le Ha].
  intros Hrest. eapply rtc_l; [|by apply IH]. rewrite insert_take_drop by (by eapply lookup_lt_Some).
  rewrite <- (take_drop_middle pool i _ Ei) at 1. eapply pstep_stmt; [done|by apply Hb|by destruct (perform o now f s)].
Qed.
End Schedules.

(** The pool's actors are pairwise compatible. *)
Definition pairwise (pool : list Proc) : Prop :=
  ∀ i j p q, pool !! i = Some p → pool !! j = Some q → i ≠ j → compat (actor p) (actor q).

Definition proc_ok (x : St) (q : Proc) : Prop :=
  ∃ x0, rely (actor q) x0 x ∧ safe (actor q) (prog q) (λ _ _, True) x0.

Definition config_ok (c : Config) : Prop :=
  I (c.1.1, c.2) ∧ pairwise c.1.2 ∧ Forall (proc_ok (c.1.1, c.2)) c.1.2.

Hypothesis start_safe : ∀ a p x, startable a p → I x → safe a p (λ _ _, True) x.

Lemma proc_ok_rely x y q b :
  proc_ok x q → I x → I y → x.1 ≤ y.1 → compat (actor q) b → G b x y → proc_ok y q.
Proof.
  intros (x0 & Hr & Hs) ?????. exists x0. split; [|done]. eapply rtc_r; [exact Hr|]. split_and!; eauto.
Qed.

Lemma pairwise_replace pre q q' post :
  actor q = actor q' → pairwise (pre ++ q :: post) → pairwise (pre ++ q' :: post).
Proof.
  intros Ha H i j u v Hi Hj Hij.
  assert (∀ n w, (pre ++ q' :: post) !! n = Some w →
            ∃ w0, (pre ++ q :: post) !! n = Some w0 ∧ actor w0 = actor w) as Hlook.
  { intros n w Hn. destruct (decide (n = length pre)) as [->|Hne].
    - rewrite lookup_app_r, Nat.sub_diag in Hn |- * by lia. injection Hn as <-. eauto.
    - exists w. split; [|done]. rewrite <- Hn. destruct (decide (n < length pre)%nat).
      + by rewrite !lookup_app_l by lia.
      + rewrite !lookup_app_r by lia. destruct (n - length pre)%nat eqn:E; [lia|done]. }
  destruct (Hlook i u Hi) as (u0 & Hu & <-), (Hlook j v Hj) as (v0 & Hv & <-). by eapply H.
Qed.

Lemma pairwise_cons q pool :
  Forall (λ p, compat (actor q) (actor p) ∧ compat (actor p) (actor q)) pool → pairwise pool → pairwise (q :: pool).
Proof.
  rewrite Forall_lookup. intros Hq Hp [|i] [|j] u v Hu Hv Hij; simplify_eq/=; [by eapply Hq..|].
  by eapply Hp; [exact Hu|exact Hv|lia].
Qed.

Lemma pairwise_delete pre q post : pairwise (pre ++ q :: post) → pairwise (pre ++ post).
Proof.
  intros H i j u v Hi Hj Hij. set (up := λ n, if decide (n < length pre)%nat then n else S n).
  assert (∀ n w, (pre ++ post) !! n = Some w → (pre ++ q :: post) !! (up n) = Some w) as Hup.
  { intros n w Hn. unfold up. case_decide.
    - rewrite lookup_app_l in Hn |- * by lia. done.
    - rewrite lookup_app_r in Hn |- * by lia. by replace (S n - length pre)%nat with (S (n - length pre)) by lia. }
  eapply H; [by apply Hup|by apply Hup|]. unfold up. repeat case_decide; lia.
Qed.

Lemma pairwise_mid pre q post p :
  pairwise (pre ++ q :: post) → p ∈ pre ++ post → compat (actor p) (actor q).
Proof.
  intros H [[i Hi]%list_elem_of_lookup|[i Hi]%list_elem_of_lookup]%elem_of_app.
  - apply (H i (length pre)); [by apply lookup_app_l_Some| |].
    + rewrite lookup_app_r by lia. by rewrite Nat.sub_diag.
    + apply lookup_lt_Some in Hi. lia.
  - apply (H (S (length pre + i)) (length pre)); [| |lia].
    + rewrite lookup_app_r by lia. by replace (S (length pre + i) - length pre)%nat with (S i) by lia.
    + rewrite lookup_app_r by lia. by rewrite Nat.sub_diag.
Qed.

Lemma pstep_ok c c' : pstep c c' → config_ok c → config_ok c'.
Proof.
  destruct 1 as [clock pre a l B f k post s now o r s' Hle Ha Hp|clock pool a p s Hst Hc|clock pre q post s];
    intros (Hi & Hpw & Hall); simpl in *.
  - apply Forall_app in Hall as [Hpre [(x0 & Hr & Hs) Hpost]%Forall_cons]. simpl in *.
    destruct (Hs _ Hr Hi now o Hle Ha) as (Hi' & Hg & Hs'). simpl in *. rewrite Hp in *. simpl in *.
    assert (∀ u, u ∈ pre ++ post → proc_ok (clock, s) u → proc_ok (now, s') u) as Hothers.
    { intros u Hu Hok. apply (proc_ok_rely (clock, s) _ u a); try done.
      by apply (pairwise_mid pre (mkProc a (Stmt l f k)) post). }
    split_and!; simpl; [done|by apply (pairwise_replace pre (mkProc a (Stmt l f k)))|].
    rewrite Forall_forall in Hpre, Hpost. apply Forall_app. split; [|constructor].
    + apply Forall_forall. intros u Hu. apply Hothers; [set_solver|auto].
    + exists (now, s'). by split; [apply rtc_refl|].
    + apply Forall_forall. intros u Hu. apply Hothers; [set_solver|auto].
  - split_and!; simpl; [done|by apply pairwise_cons|]. constructor; [|done]. exists (clock, s). split; [apply rtc_refl|].
    by apply start_safe.
  - split_and!; simpl; [done|by eapply pairwise_delete|].
    apply Forall_app in Hall as [? [_ ?]%Forall_cons]. by apply Forall_app.
Qed.

Lemma reachable_ok clock s c : I (clock, s) → rtc pstep (clock, [], s) c → config_ok c.
Proof.
  intros Hi Hs. assert (config_ok (clock, [], s)) as Hok by (split_and!; simpl; [done|by intros []|constructor]).
  clear Hi. induction Hs as [|c1 c2 c3 H12 _ IH]; [done|]. apply IH. by eapply pstep_ok.
Qed.

Lemma pool_invariant clock s c :
  I (clock, s) → rtc pstep (clock, [], s) c → I (c.1.1, c.2).
Proof.
  intros Hi Hs. by destruct (reachable_ok clock s c Hi Hs) as [? _].
Qed.

(** Every step is within the guarantee of the actor that takes it. *)
Lemma pool_guarantee clock s c c' :
  I (clock, s) → rtc pstep (clock, [], s) c → pstep c c' → c'.2 = c.2 ∨ ∃ a, G a (c.1.1, c.2) (c'.1.1, c'.2).
Proof.
  intros Hi Hs Hstep. destruct (reachable_ok clock s c Hi Hs) as (Hic & _ & Hall).
  destruct Hstep as [now0 pre a l B f k post s0 now o r s' Hle Ha Hp|now0 pool a p s0 ??|now0 pre q post s0];
    simpl in *; [|by left..].
  right. exists a. apply Forall_app in Hall as [_ [(x0 & Hr & Hsafe) _]%Forall_cons]. simpl in *.
  destruct (Hsafe _ Hr Hic now o Hle Ha) as (_ & Hg & _). simpl in *. by rewrite Hp in Hg.
Qed.
End Logic.

(** * Processes that may break out

    As above, but a statement may also do something [bad] to the state, after
    which nothing more is claimed. *)
Section Escape.
Context {Σ Act : Type} (I : Z * Σ → Prop) (allowed : Act → Z → Z → Label → Outcome → Prop)
  (compat : Act → Act → Prop) (G : Act → Z * Σ → Z * Σ → Prop) (bad : Σ → Σ → Prop).

Fixpoint safe_or (a : Act) {A} (p : Eff Σ A) (x : Z * Σ) : Prop :=
  match p with
  | Ret _ | Err => True
  | Stmt l f k =>
      ∀ y, rely I compat G a x y → I y → ∀ now o, y.1 ≤ now → allowed a y.1 now l o →
        let r := perform o now f y.2 in
        bad y.2 r.2 ∨ I (now, r.2) ∧ G a y (now, r.2) ∧ safe_or a (k r.1) (now, r.2)
  end.

Lemma safe_safe_or a {A} (p : Eff Σ A) Q x : safe I allowed compat G a p Q x → safe_or a p x.
Proof.
  revert x. induction p as [v| |l B f k IH]; intros x; simpl; [done..|].
  intros H y Hr Hi now o Hle Ha. right. destruct (H y Hr Hi now o Hle Ha) as (? & ? & ?). auto.
Qed.

Context (startable : Act → Eff Σ unit → Prop).
Hypothesis start_safe_or : ∀ a p x, startable a p → I x → safe_or a p x.

Definition config_or (c : Config) : Prop :=
  I (c.1.1, c.2) ∧ pairwise compat c.1.2 ∧
  Forall (λ q, ∃ x0, rely I compat G (actor q) x0 (c.1.1, c.2) ∧ safe_or (actor q) (prog q) x0) c.1.2.

Lemma pstep_or c c' : pstep allowed compat startable c c' → config_or c → bad c.2 c'.2 ∨ config_or c'.
Proof.
  destruct 1 as [clock pre a l B f k post s now o r s' Hle Ha Hp|clock pool a p s Hst Hc|clock pre q post s];
    intros (Hi & Hpw & Hall); simpl in *.
  - apply Forall_app in Hall as [Hpre [(x0 & Hr & Hs) Hpost]%Forall_cons]. simpl in *.
    specialize (Hs _ Hr Hi now o Hle Ha). simpl in Hs. rewrite Hp in Hs. simpl in Hs.
    destruct Hs as [Hb|(Hi' & Hg & Hs')]; [by left|right].
    assert (∀ u, u ∈ pre ++ post →
      (∃ x0, rely I compat G (actor u) x0 (clock, s) ∧ safe_or (actor u) (prog u) x0) →
      ∃ x0, rely I compat G (actor u) x0 (now, s') ∧ safe_or (actor u) (prog u) x0) as Hothers.
    { intros u Hu (x1 & Hr1 & Hs1). exists x1. split; [|done]. eapply rtc_r; [exact Hr1|]. split_and!; try done.
      exists a. split; [|done]. by apply (pairwise_mid _ pre (mkProc a (Stmt l f k)) post). }
    split_and!; simpl; [done|by apply (pairwise_replace _ pre (mkProc a (Stmt l f k)))|].
    rewrite Forall_forall in Hpre, Hpost. apply Forall_app. split; [|constructor].
    + apply Forall_forall. intros u Hu. apply Hothers; [set_solver|auto].
    + exists (now, s'). by split; [apply rtc_refl|].
    + apply Forall_forall. intros u Hu. apply Hothers; [set_solver|auto].
  - right. split_and!; simpl; [done|by apply pairwise_cons|]. constructor; [|done]. exists (clock, s). split; [apply rtc_refl|].
    by apply start_safe_or.
  - right. split_and!; simpl; [done|by eapply pairwise_delete|].
    apply Forall_app in Hall as [? [_ ?]%Forall_cons]. by apply Forall_app.
Qed.

(** The invariant holds, or some step of the run was bad. *)
Lemma pool_invariant_or clock s c :
  I (clock, s) → rtc (pstep allowed compat startable) (clock, [], s) c →
  I (c.1.1, c.2) ∨
  ∃ c1 c2, rtc (pstep allowed compat startable) (clock, [], s) c1 ∧ pstep allowed compat startable c1 c2 ∧
    rtc (pstep allowed compat startable) c2 c ∧ bad c1.2 c2.2.
Proof.
  intros Hi Hs. assert (config_or (clock, [], s)) as Hok by (split_and!; simpl; [done|by intros []|constructor]). clear Hi.
  set (start := (clock, [], s)) in *. clearbody start. induction Hs as [c|c1 c2 c3 H12 H23 IH]; [by left; destruct Hok|].
  destruct (pstep_or _ _ H12 Hok) as [Hb|Hok2]; [right; exists c1, c2; by split_and!; [apply rtc_refl|..]|].
  destruct (IH Hok2) as [?|(d1 & d2 & ? & ? & ? & ?)]; [by left|right]. exists d1, d2. split_and!; try done. by eapply rtc_l.
Qed.
End Escape.

Lemma safe_or_mono {Σ Act} (I : Z * Σ → Prop) allowed compat G (bad bad' : Σ → Σ → Prop) (a : Act) {A} (p : Eff Σ A) x :
  (∀ s s', bad s s' → bad' s s') → safe_or I allowed compat G bad a p x → safe_or I allowed compat G bad' a p x.
Proof.
  intros Hb. revert x. induction p as [v| |l B f k IH]; intros x; simpl; [done..|].
  intros H y Hr Hi now o Hle Ha. destruct (H y Hr Hi now o Hle Ha) as [?|(? & ? & ?)]; [left; auto|right; auto].
Qed.
