(* ===== verification/Triples.v ===== *)
(** Triples for the processes of [Eff] among rivals: what holds before a program
    runs, whatever its rivals do meanwhile, and what holds of its result.

    [T] bounds what the program and its rivals do to the state, step by step. *)

From stdpp Require Import prelude relations.
From Stdlib Require Import ZArith Lia.
From S2P Require Import Prelude Eff RelyGuarantee.

(** What steps within [T] keep. *)
Definition stable_under {Σ : Type} (T : Σ → Σ → Prop) (P : Σ → Prop) : Prop := ∀ s s', T s s' → P s → P s'.

Section Triples.
Context {Σ Act : Type} {I : Z * Σ → Prop} {allowed : Act → Z → Z → Label → Outcome → Prop}
  {compat : Act → Act → Prop} {G : Act → Z * Σ → Z * Σ → Prop} {T : Σ → Σ → Prop} `{!PreOrder T}.

Definition triple (a : Act) {A} (P : Σ → Prop) (p : Eff Σ A) (Φ : option A → Σ → Prop) : Prop :=
  ∀ x, P x.2 → safe I allowed compat G a p (λ r y, T x.2 y.2 ∧ Φ r y.2) x.

Section Rules.
Context (a : Act).

(** One statement, after what rivals may have done. *)
Lemma hoare_step (others : Σ → Σ → Prop) l {B : Set} (f : Z → Σ → B * Σ) P (Φ : option B → Σ → Prop) :
  (∀ x y, rely I compat G a x y → others x.2 y.2) → (∀ s s', others s s' → T s s') → stable_under others P →
  (∀ y now o, I y → allowed a y.1 now l o → P y.2 →
     let r := perform o now f y.2 in I (now, r.2) ∧ G a y (now, r.2) ∧ T y.2 r.2 ∧ Φ r.1 r.2) →
  triple a P (stmt l f) Φ.
Proof.
  intros Hr Ht HP H x Hx. apply safe_stmt. intros y Hy Hi now o _ Ho. pose proof (Hr _ _ Hy) as Hxy.
  destruct (H y now o Hi Ho (HP _ _ Hxy Hx)) as (? & ? & ? & ?). split_and!; try done. etrans; [by apply Ht|done].
Qed.

Lemma hoare_ret {A} (v : A) P Φ : (∀ s, P s → Φ (Some v) s) → triple a P (Ret v) Φ.
Proof. intros H x Hx. split; [reflexivity|auto]. Qed.

Lemma hoare_err {A} P (Φ : option A → Σ → Prop) : (∀ s, P s → Φ None s) → triple a P Err Φ.
Proof. intros H x Hx. split; [reflexivity|auto]. Qed.

Lemma hoare_bind {A B} (p : Eff Σ A) (q : A → Eff Σ B) P Ψ Φ :
  triple a P p Ψ → (∀ v, triple a (Ψ (Some v)) (q v) Φ) → (∀ s, Ψ None s → Φ None s) → triple a P (bind p q) Φ.
Proof.
  intros Hp Hq Hn x Hx. apply safe_bind. eapply safe_mono; [|by apply Hp]. intros [v|] y [Hg Hy]; [|auto].
  eapply safe_mono; [|by apply Hq]. intros r z [Hg' ?]. split; [by etrans|done].
Qed.

Lemma hoare_catch {A} (p : Eff Σ A) P Φ : triple a P p (λ r s, Φ (Some r) s) → triple a P (catch p) Φ.
Proof. intros Hp x Hx. apply safe_catch. by apply Hp. Qed.

(** A program that does not end in an error. *)
Definition yields {A} (Ψ : A → Σ → Prop) (r : option A) (s : Σ) : Prop :=
  match r with Some v => Ψ v s | None => False end.

Lemma hoare_then {A B} (p : Eff Σ A) (q : A → Eff Σ B) P Ψ Φ :
  triple a P p (yields Ψ) → (∀ v, triple a (Ψ v) (q v) Φ) → triple a P (bind p q) Φ.
Proof. intros Hp Hq. by eapply hoare_bind; [exact Hp|exact Hq|]. Qed.

Lemma hoare_caught {A} (p : Eff Σ A) P Ψ : triple a P p Ψ → triple a P (catch p) (yields Ψ).
Proof. intros Hp. by apply hoare_catch. Qed.

Lemma hoare_mono {A} (p : Eff Σ A) (P P' : Σ → Prop) (Φ Φ' : option A → Σ → Prop) :
  (∀ s, P' s → P s) → (∀ r s, Φ r s → Φ' r s) → triple a P p Φ → triple a P' p Φ'.
Proof. intros HP HΦ H x Hx. eapply safe_mono; [|by apply H, HP]. intros r y [? ?]. auto. Qed.

(** Under what is known at the start. *)
Lemma hoare_from {A} (p : Eff Σ A) (P P' : Σ → Prop) (Φ Φ' : option A → Σ → Prop) :
  (∀ s, P' s → P s ∧ (triple a P p Φ)) → (∀ r s, Φ r s → Φ' r s) → triple a P' p Φ'.
Proof. intros HP HΦ x Hx. destruct (HP _ Hx) as [? H]. by apply (hoare_mono p P P Φ Φ'). Qed.

Lemma hoare_extract {A} (φ : Prop) (p : Eff Σ A) P Φ : (∀ s, P s → φ) → (φ → triple a P p Φ) → triple a P p Φ.
Proof. intros Hφ H x Hx. apply H; eauto. Qed.

Lemma hoare_ex {A X} (p : Eff Σ A) (P : X → Σ → Prop) Φ : (∀ v, triple a (P v) p Φ) → triple a (λ s, ∃ v, P v s) p Φ.
Proof. intros H x [v Hx]. by apply (H v). Qed.

Lemma hoare_frame {A} (p : Eff Σ A) P Φ R :
  stable_under T R → triple a P p Φ → triple a (λ s, P s ∧ R s) p (λ r s, Φ r s ∧ R s).
Proof. intros HR H x [Hx Hr]. eapply safe_mono; [|by apply H]. intros r y [? ?]. split_and!; [done..|by eapply HR]. Qed.

Lemma hoare_fact {A} (φ : Prop) (p : Eff Σ A) P Φ : (φ → triple a P p Φ) → triple a (λ s, P s ∧ φ) p Φ.
Proof. intros H x [Hx Hφ]. by apply H. Qed.

Lemma hoare_each {A X} (turn : A → X → Eff Σ A) (P : A → list X → Σ → Prop) Φ l acc :
  (∀ acc i l, triple a (P acc (i :: l)) (turn acc i) (λ r s, match r with Some acc => P acc l s | None => Φ None s end)) →
  (∀ acc s, P acc [] s → Φ (Some acc) s) → triple a (P acc l) (each turn l acc) Φ.
Proof.
  intros Hb Hend. revert acc. induction l as [|i l IH]; intros acc; simpl; [by apply hoare_ret, Hend|].
  eapply hoare_bind; [apply Hb|intros v; apply IH|done].
Qed.
End Rules.

Lemma stable_true : stable_under T (λ _, True).
Proof. by intros s s' _. Qed.

Lemma stable_pure φ : stable_under T (λ _, φ).
Proof. by intros s s' _. Qed.

Lemma stable_and P Q : stable_under T P → stable_under T Q → stable_under T (λ s, P s ∧ Q s).
Proof. intros HP HQ s s' Hg [? ?]. eauto. Qed.

Lemma stable_all {X} (P : X → Σ → Prop) : (∀ x, stable_under T (P x)) → stable_under T (λ s, ∀ x, P x s).
Proof. intros HP s s' Hg Hs x. by eapply HP. Qed.

Lemma stable_impl (φ : Prop) P : stable_under T P → stable_under T (λ s, φ → P s).
Proof. intros HP s s' Hg Hs H. eapply HP; eauto. Qed.

End Triples.
#[global] Arguments triple {_ _} I allowed compat G T a {_} P p Φ.

(** An invariant may be strengthened by what a process's own steps keep. *)
Lemma safe_extend {Σ Act} (I I' : Z * Σ → Prop) allowed compat (G : Act → Z * Σ → Z * Σ → Prop) a {A} (p : Eff Σ A) Q x :
  (∀ x, I' x → I x) → (∀ x y, I' x → I y → G a x y → I' y) →
  safe I allowed compat G a p Q x → safe I' allowed compat G a p Q x.
Proof.
  intros Hsub Hkeep. assert (∀ x y, rely I' compat G a x y → rely I compat G a x y) as Hr.
  { intros u v. apply rtc_subrel. intros u' v' (? & ? & ? & b & ? & ?). split_and!; eauto. }
  revert x. induction p as [v| |l B f k IH]; intros x; simpl; [done..|].
  intros H y Hxy Hi now o Hle Ho. destruct (H y (Hr _ _ Hxy) (Hsub _ Hi) now o Hle Ho) as (? & ? & ?).
  split_and!; [by eapply Hkeep|done|by apply IH].
Qed.
