(* ===== verification/Catalog.v ===== *)
(** The segment catalog (loglake-storage, [catalog_claim.rs]): the
    [wal_segments] table through which drains claim sealed segments, the
    consumed-proof watermarks, the maintenance leases and the mirror cursors.

    A table is its list of rows in scan order; [ORDER BY] sorts stably, so a tie
    falls by scan order.  One SQL statement, or one transaction, is one
    statement of [Eff]; the clock is read with it.  Times and durations are
    milliseconds.  [sqlx]'s connection and the two dialects' syntax are not
    modelled; where the code branches on the dialect so does the model. *)

From stdpp Require Import prelude gmap sorting.
From Stdlib Require Import ZArith Lia.
From S2P Require Import Prelude RustStr Eff.

(** * Tables *)

Inductive Status := Sealed | Processing | Committed | Quarantined.

#[global] Instance status_eq_dec : EqDecision Status.
Proof. solve_decision. Defined.

(** The columns [register] writes and nothing changes. *)
Record Segment := mkSegment {
  id : rstr; tenant : rstr; index_id : rstr; segment_url : rstr; bytes_col : Z; rows_col : Z;
}.

Record Row := mkRow {
  seg : Segment;
  status : Status;
  attempts : Z;
  not_before_ms : option Z;
  row_claimer : option rstr;
  row_claimed_at : option Z;
  committed_at_ms : option Z;
  registered_at_ms : Z;
}.

Record ClaimedSegment := mkClaimed { claimed_seg : Segment; claimed_at : Z }.

Record ConsumedProofWatermark := mkWatermark { watermark_ms : Z; watermark_uuid : option rstr }.

Record Lease := mkLease { holder : rstr; purpose : rstr; acquired_at_ms : Z; expires_at_ms : Z }.

Record MirrorSyncCursor := mkMirrorCursor {
  last_key : option rstr;
  rotation : Z;
  rotation_started_at_ms : option Z;
  rotation_objects_examined : Z;
  last_completed_at_ms : option Z;
}.

(** [(tenant, index_id)]: an Iceberg target. *)
Abbreviation Target := (rstr * rstr)%type (only parsing).

Record Db := mkDb {
  wal_segments : list Row;
  consumed_proof_watermarks : gmap Target ConsumedProofWatermark;
  table_leases : gmap rstr Lease;
  mirror_sync_cursors : gmap rstr MirrorSyncCursor;
}.

Definition set_rows (rows : list Row) (db : Db) : Db :=
  mkDb rows (consumed_proof_watermarks db) (table_leases db) (mirror_sync_cursors db).
Definition set_watermarks (w : gmap Target ConsumedProofWatermark) (db : Db) : Db :=
  mkDb (wal_segments db) w (table_leases db) (mirror_sync_cursors db).
Definition set_leases (l : gmap rstr Lease) (db : Db) : Db :=
  mkDb (wal_segments db) (consumed_proof_watermarks db) l (mirror_sync_cursors db).
Definition set_cursors (c : gmap rstr MirrorSyncCursor) (db : Db) : Db :=
  mkDb (wal_segments db) (consumed_proof_watermarks db) (table_leases db) c.

Definition row_id (r : Row) : rstr := id (seg r).
Definition target (r : Row) : Target := (tenant (seg r), index_id (seg r)).

Definition is_status (s : Status) (r : Row) : bool := bool_decide (status r = s).
Definition id_in (ids : list rstr) (r : Row) : bool := bool_decide (row_id r ∈ ids).
Definition claimed_by (c : rstr) (r : Row) : bool := bool_decide (row_claimer r = Some c).

(** [UPDATE wal_segments SET set WHERE cond]: the number of rows it hits. *)
Definition update_where (cond : Row → bool) (set : Row → Row) (db : Db) : Z * Db :=
  (len (filter (λ r, cond r = true) (wal_segments db)),
   set_rows ((λ r, if cond r then set r else r) <$> wal_segments db) db).

(** [DELETE FROM wal_segments WHERE cond] *)
Definition delete_where (cond : Row → bool) (db : Db) : Z * Db :=
  (len (filter (λ r, cond r = true) (wal_segments db)),
   set_rows (filter (λ r, cond r = false) (wal_segments db)) db).

(** [ORDER BY key ASC LIMIT n] *)
Definition by_key (key : Row → Z) (a b : Row) : Prop := key a ≤ key b.

#[global] Instance by_key_dec key : RelDecision (by_key key).
Proof. unfold RelDecision, by_key. apply _. Defined.

Definition oldest_first (key : Row → Z) (n : Z) (rows : list Row) : list Row :=
  take (Z.to_nat n) (merge_sort (by_key key) rows).

(** Row transitions, one for each [SET] clause. *)
Definition claim_row (claimer : rstr) (now : Z) (r : Row) : Row :=
  mkRow (seg r) Processing (attempts r) (not_before_ms r) (Some claimer) (Some now) (committed_at_ms r)
    (registered_at_ms r).

Definition commit_row (now : Z) (r : Row) : Row :=
  mkRow (seg r) Committed (attempts r) (not_before_ms r) (row_claimer r) (row_claimed_at r) (Some now)
    (registered_at_ms r).

Definition requeue_row (r : Row) : Row :=
  mkRow (seg r) Sealed (attempts r) (not_before_ms r) None None (committed_at_ms r) (registered_at_ms r).

Definition backoff_ms (attempts : Z) : Z := if 8 <=? attempts then 300000 else 1000 * Z.shiftl 1 attempts.

Definition release_row (max_attempts now : Z) (r : Row) : Row :=
  mkRow (seg r) (if max_attempts <=? attempts r + 1 then Quarantined else Sealed) (attempts r + 1)
    (Some (now + backoff_ms (attempts r))) None None (committed_at_ms r) (registered_at_ms r).

(** * Provenance *)

Abbreviation ProofProvenance := (gmap Target rstr) (only parsing).

Definition record (tenant index_id table_uuid : rstr) (p : ProofProvenance) : ProofProvenance :=
  if bool_decide (index_id = []) then p else <[(tenant, index_id) := table_uuid]> p.

(** * Statements *)

(** A state with a catalog in it. *)
Class HasDb (Σ : Type) := { get_db : Σ → Db; set_db : Db → Σ → Σ }.

#[global] Instance db_has_db : HasDb Db := {| get_db := λ db, db; set_db := λ db _, db |}.

Section Ops.
Context {Σ : Type} `{!HasDb Σ}.

Definition sql {B : Set} (f : Z → Db → B * Db) : Eff Σ B :=
  stmt Sql (λ now s, let r := f now (get_db s) in (r.1, set_db r.2 s)).

Definition sqlq {B : Set} (f : Z → Db → B) : Eff Σ B := query Sql (λ now s, f now (get_db s)).

(** * Registration *)

Definition register (s : Segment) : Eff Σ bool :=
  sql (λ now db,
    if bool_decide (id s ∈ row_id <$> wal_segments db) then (false, db)
    else (true, set_rows (wal_segments db ++ [mkRow s Sealed 0 None None None None now]) db)).

(** * Claims *)

Inductive Dialect := Sqlite | Postgres.

Definition RELEASE_MAX_ATTEMPTS : Z := 12.

(** [chunks(256)] *)
Fixpoint chunks_go {A} (fuel : nat) (l : list A) : list (list A) :=
  match fuel, l with
  | O, _ | _, [] => []
  | S fuel, _ => take 256 l :: chunks_go fuel (drop 256 l)
  end.

Definition chunks {A} (l : list A) : list (list A) := chunks_go (length l) l.

(** FNV-1a. *)
Definition index_shard (index_id : rstr) (shard_count : Z) : Z :=
  foldl (λ h b, wrap 64 (Z.lxor h b * 0x100000001b3)) 0xcbf29ce484222325 index_id `mod` shard_count.

Definition due (now : Z) (r : Row) : bool :=
  is_status Sealed r && match not_before_ms r with Some t => t <=? now | None => true end.

(** [locked]: the rows [FOR UPDATE SKIP LOCKED] passes over. *)
Definition candidates (locked : rstr → bool) (now batch : Z) (db : Db) : list Row :=
  oldest_first registered_at_ms batch
    (filter (λ r, due now r = true ∧ locked (row_id r) = false) (wal_segments db)).

Section Claims.
Context (claimer : rstr) (dialect : Dialect).

Definition mine (r : Row) : bool := is_status Processing r && claimed_by claimer r.

Definition release_with_backoff (id : rstr) (max_attempts : Z) : Eff Σ unit :=
  let* _ := sql (λ now, update_where (λ r, id_in [id] r && mine r) (release_row max_attempts now)) in
  let* _ := catch (sqlq (B := option Z) (λ _ db,
              attempts <$> head (filter (λ r, id_in [id] r = true ∧ status r = Quarantined) (wal_segments db)))) in
  Ret tt.

Definition release (id : rstr) : Eff Σ unit := release_with_backoff id RELEASE_MAX_ATTEMPTS.

Definition quarantine_row (r : Row) : Row :=
  mkRow (seg r) Quarantined (attempts r + 1) None None None (committed_at_ms r) (registered_at_ms r).

Definition quarantine_terminal (id : rstr) : Eff Σ bool :=
  let* n := sql (λ _, update_where (λ r, id_in [id] r && mine r) quarantine_row) in
  if n =? 0 then Ret false else
  let* _ := catch (sqlq (B := option Z) (λ _ db, attempts <$> head (filter (λ r, id_in [id] r = true) (wal_segments db)))) in
  Ret true.

(** [UPDATE ... WHERE id IN (...) RETURNING ...], with the time it used. *)
Definition claim_stmt (ids : Db → list rstr) (now : Z) (db : Db) : (list Segment * Z) * Db :=
  let cand := ids db in
  ((seg <$> filter (λ r, id_in cand r = true) (wal_segments db), now),
   (update_where (id_in cand) (claim_row claimer now) db).2).

Definition in_shard (shard_index shard_count : Z) (s : Segment) : bool :=
  (shard_count =? 1) || (index_shard (index_id s) shard_count =? shard_index).

Definition saturating_mul (a b : Z) : Z := Z.min (a * b) (2 ^ 64 - 1).

Definition try_claim_sharded (locked : rstr → bool) (batch shard_index shard_count : Z)
    : Eff Σ (list ClaimedSegment) :=
  if batch =? 0 then Ret [] else
  let shard_count := Z.max shard_count 1 in
  let shard_index := if shard_count =? 1 then 0 else shard_index `mod` shard_count in
  let batch := Z.min (saturating_mul batch shard_count) (saturating_mul batch 16) in
  match dialect with
  | Postgres =>
      let* (claimed, now) := sql (λ now, claim_stmt (λ db, row_id <$> candidates locked now batch db) now) in
      let mine := filter (λ s, in_shard shard_index shard_count s = true) claimed in
      let theirs := filter (λ s, in_shard shard_index shard_count s = false) claimed in
      let* _ := each_ (λ s, let* _ := catch (release (id s)) in Ret tt) theirs in
      Ret ((λ s, mkClaimed s now) <$> mine)
  | Sqlite =>
      let* cands := sqlq (B := list Segment) (λ now db, seg <$> candidates (λ _, false) now batch db) in
      each (λ out s,
        let* (n, now) := sql (λ now db,
          let u := update_where (λ r, id_in [id s] r && is_status Sealed r) (claim_row claimer now) db in
          ((u.1, now), u.2)) in
        Ret (if n =? 1 then out ++ [mkClaimed s now] else out))
        (filter (λ s, in_shard shard_index shard_count s = true) cands) []
  end.

Definition try_claim (locked : rstr → bool) (batch : Z) : Eff Σ (list ClaimedSegment) :=
  try_claim_sharded locked batch 0 1.

Definition try_claim_eligible (locked : rstr → bool) (batch target_bytes max_age : Z) : Eff Σ (list ClaimedSegment) :=
  match dialect with
  | Sqlite => Ret []
  | Postgres =>
      if batch =? 0 then Ret [] else
      let* (claimed, now) := sql (λ now, claim_stmt (λ db,
        let cand := candidates locked now batch db in
        let total_bytes := sumZ ((λ r, bytes_col (seg r)) <$> cand) in
        let oldest := foldr Z.min (match registered_at_ms <$> cand with [] => now | t :: _ => t end)
                        (registered_at_ms <$> cand) in
        if (target_bytes <=? total_bytes) || (max_age <=? now - oldest) then row_id <$> cand else []) now) in
      Ret ((λ s, mkClaimed s now) <$> claimed)
  end.
End Claims.

(** * Watermarks *)

Definition i64_min : Z := - 2 ^ 63.

Definition min_opt (l : list Z) : option Z := match l with [] => None | x :: l => Some (foldl Z.min x l) end.
Definition max_opt (l : list Z) : option Z := match l with [] => None | x :: l => Some (foldl Z.max x l) end.

(** [COALESCE(claimed_at_ms, committed_at_ms, registered_at_ms)] *)
Definition terminal_time (r : Row) : Z :=
  match row_claimed_at r, committed_at_ms r with
  | Some t, _ | None, Some t => t
  | None, None => registered_at_ms r
  end.

(** [WATERMARK_CANDIDATE_SQL] and the boundary it gives. *)
Definition watermark_candidate (g : Target) (rows : list Row) : option Z :=
  let here := filter (λ r, target r = g) rows in
  match min_opt (registered_at_ms <$> filter (λ r, status r ≠ Committed) here) with
  | Some registered_at => Some (Z.max i64_min (registered_at - 1))
  | None => max_opt (terminal_time <$> filter (λ r, status r = Committed) here)
  end.

Definition advance_consumed_proof_watermark_in (g : Target) (table_uuid : option rstr) (db : Db) : Db :=
  match watermark_candidate g (wal_segments db) with
  | None => db
  | Some candidate =>
      let ws := consumed_proof_watermarks db in
      match ws !! g with
      | Some current =>
          if bool_decide (watermark_uuid current = table_uuid) then
            if watermark_ms current <? candidate then
              set_watermarks (<[g := mkWatermark candidate (watermark_uuid current)]> ws) db
            else db
          else set_watermarks (<[g := mkWatermark candidate table_uuid]> ws) db
      | None => set_watermarks (<[g := mkWatermark candidate table_uuid]> ws) db
      end
  end.

Definition consumed_proof_watermark (tenant index_id : rstr) : Eff Σ (option ConsumedProofWatermark) :=
  sqlq (λ _ db, consumed_proof_watermarks db !! (tenant, index_id)).

(** [SELECT DISTINCT tenant, index_id ... WHERE id IN (...)] *)
Definition targets_of (ids : list rstr) (db : Db) : list Target :=
  remove_dups (target <$> filter (λ r, id_in ids r = true) (wal_segments db)).

Definition advance_all (provenance : ProofProvenance) (gs : list Target) (db : Db) : Db :=
  foldl (λ db g, advance_consumed_proof_watermark_in g (provenance !! g) db) db gs.

(** * Terminal transitions

    [mark_committed_batch] and [mark_reclaimed_committed] run one transaction
    per chunk, and a chunk is one atomic step of the model, [mark_chunk] and
    [reclaim_chunk].  That is what SQLite gives: the transaction opens with an
    UPDATE, which holds the write lock until the commit.  PostgreSQL's READ
    COMMITTED lets two transactions that advance one target interleave between
    the read of the boundary and its UPDATE; the comment in
    [advance_consumed_proof_watermark_in] allows for a lost advance and for a
    stored boundary that moves back.  Those schedules are outside the model.
    [now_millis] is read before the UPDATE is sent and here together with it. *)

Section Commit.
Context (claimer : rstr).

Definition mark_committed (i : rstr) : Eff Σ unit :=
  let* n := sql (λ now, update_where (λ r, id_in [i] r && mine claimer r) (commit_row now)) in
  if n =? 1 then Ret tt else Err.

Definition mark_chunk (provenance : ProofProvenance) (chunk : list rstr) (now : Z) (db : Db) : Z * Db :=
  let u := update_where (λ r, id_in chunk r && mine claimer r) (commit_row now) db in
  (u.1, advance_all provenance (targets_of chunk u.2) u.2).

Definition mark_committed_batch (ids : list rstr) (provenance : ProofProvenance) : Eff Σ unit :=
  each_ (λ chunk, let* _ := sql (mark_chunk provenance chunk) in Ret tt) (chunks ids).
End Commit.

Definition commit_reclaimed_row (now : Z) (r : Row) : Row :=
  mkRow (seg r) Committed (attempts r) (not_before_ms r) None (row_claimed_at r) (Some now) (registered_at_ms r).

Definition reclaim_chunk (provenance : ProofProvenance) (chunk : list rstr) (now : Z) (db : Db) : Z * Db :=
  let u := update_where (λ r, id_in chunk r && is_status Processing r) (commit_reclaimed_row now) db in
  (u.1, advance_all provenance (targets_of chunk u.2) u.2).

Definition mark_reclaimed_committed (ids : list rstr) (provenance : ProofProvenance) : Eff Σ Z :=
  each (λ n chunk, let* k := sql (reclaim_chunk provenance chunk) in Ret (n + k)) (chunks ids) 0.

(** [LocalCommittedSegment] has no row count. *)
Definition local_commit_row (now : Z) (r : Row) : Row :=
  mkRow (seg r) Committed (attempts r) (not_before_ms r) (row_claimer r) (row_claimed_at r)
    (Some (default now (committed_at_ms r))) (registered_at_ms r).

Definition insert_local (s : Segment) (now : Z) (db : Db) : Z * Db :=
  if bool_decide (id s ∈ row_id <$> wal_segments db) then (0, db)
  else (1, set_rows (wal_segments db ++
              [mkRow (mkSegment (id s) (tenant s) (index_id s) (segment_url s) (bytes_col s) 0)
                 Committed 0 None None None (Some now) now]) db).

Definition mark_committed_local (segments : list Segment) : Eff Σ (list rstr) :=
  each (λ durable chunk,
    let ids := id <$> chunk in
    let* _ := sql (λ now,
      update_where (λ r, id_in ids r && (is_status Sealed r || is_status Committed r)) (local_commit_row now)) in
    let* marked := sqlq (B := list rstr) (λ _ db,
      row_id <$> filter (λ r, id_in ids r = true ∧ status r = Committed) (wal_segments db)) in
    each (λ durable s,
      if bool_decide (id s ∈ marked) then Ret (durable ++ [id s]) else
      let* n := sql (insert_local s) in
      Ret (if 0 <? n then durable ++ [id s] else durable)) chunk durable)
    (chunks segments) [].

(** * Reclaiming claims *)

Definition abandoned (cutoff : Z) (r : Row) : bool :=
  is_status Processing r && match row_claimed_at r with Some t => t <? cutoff | None => false end.

Definition claimed_or (r : Row) : Z := default 0 (row_claimed_at r).

Definition abandoned_claims (max_age limit : Z) : Eff Σ (list ClaimedSegment) :=
  sqlq (B := list ClaimedSegment) (λ now db,
    (λ r, mkClaimed (seg r) (claimed_or r)) <$>
      oldest_first claimed_or limit (filter (λ r, abandoned (now - max_age) r = true) (wal_segments db))).

Definition requeue_claims (ids : list rstr) : Eff Σ Z :=
  each (λ n i,
    let* k := sql (λ _, update_where (λ r, id_in [i] r && is_status Processing r) requeue_row) in
    Ret (n + k)) ids 0.

Definition reclaim_abandoned (max_age : Z) : Eff Σ Z :=
  sql (λ now, update_where (abandoned (now - max_age)) requeue_row).

Definition quarantined_count : Eff Σ Z :=
  sqlq (λ _ db, len (filter (λ r, status r = Quarantined) (wal_segments db))).

Definition unquarantine_row (r : Row) : Row :=
  mkRow (seg r) Sealed 0 None (row_claimer r) (row_claimed_at r) (committed_at_ms r) (registered_at_ms r).

Definition requeue_quarantined : Eff Σ Z := sql (λ _, update_where (is_status Quarantined) unquarantine_row).

(** * The queue's depth *)

Record PendingStats := mkPending { segments : Z; pending_bytes : Z; pending_rows : Z; oldest_age : Z }.

Definition pending_stats (now : Z) (rows : list Row) : PendingStats :=
  mkPending (len rows)
    (Z.max 0 (sumZ ((λ r, bytes_col (seg r)) <$> rows)))
    (Z.max 0 (sumZ ((λ r, rows_col (seg r)) <$> rows)))
    (match min_opt (registered_at_ms <$> rows) with Some t => Z.max 0 (now - t) | None => 0 end).

Definition peek_pending : Eff Σ PendingStats :=
  sqlq (λ now db, pending_stats now (filter (λ r, status r = Sealed) (wal_segments db))).

Definition peek_activation_depth (reclaim_cutoff : Z) : Eff Σ PendingStats :=
  sqlq (λ now db, pending_stats now
    (filter (λ r, is_status Sealed r || abandoned (now - reclaim_cutoff) r = true) (wal_segments db))).

(** * Retention *)

Definition committed_before (cutoff : Z) (r : Row) : bool :=
  is_status Committed r && match committed_at_ms r with Some t => t <? cutoff | None => false end.

Definition committed_or (r : Row) : Z := default 0 (committed_at_ms r).

Definition purgeable_committed (max_age limit : Z) : Eff Σ (list (rstr * rstr)) :=
  sqlq (B := list (rstr * rstr)) (λ now db,
    (λ r, (row_id r, segment_url (seg r))) <$>
      oldest_first committed_or limit (filter (λ r, committed_before (now - max_age) r = true) (wal_segments db))).

Definition committed_segment_ids (tenant index_id : rstr) (ids : list rstr) : Eff Σ (list rstr) :=
  each (λ committed chunk,
    let* l := sqlq (B := list rstr) (λ _ db,
      row_id <$> filter (λ r, target r = (tenant, index_id) ∧ status r = Committed ∧ id_in chunk r = true)
                   (wal_segments db)) in
    Ret (committed ++ l)) (chunks ids) [].

Definition committed_and_settled (ids : list rstr) (settled_for : Z) : Eff Σ (list rstr) :=
  if bool_decide (ids = []) then Ret [] else
  sqlq (B := list rstr) (λ now db,
    row_id <$> filter (λ r, committed_before (now - settled_for) r = true ∧ id_in ids r = true) (wal_segments db)).

Definition purge_committed_ids (ids : list rstr) : Eff Σ Z :=
  each (λ n chunk,
    let* k := sql (λ _, delete_where (λ r, is_status Committed r && id_in chunk r)) in Ret (n + k))
    (chunks ids) 0.

Definition purge_committed (max_age : Z) : Eff Σ Z :=
  sql (λ now, delete_where (committed_before (now - max_age))).

(** * Leases *)

Section Leases.
Context (claimer : rstr).

Definition acquire_stmt (table_id why : rstr) (ttl now : Z) (db : Db) : bool * Db :=
  let mine := mkLease claimer why now (now + ttl) in
  match table_leases db !! table_id with
  | None => (true, set_leases (<[table_id := mine]> (table_leases db)) db)
  | Some l =>
      if (expires_at_ms l <? now) || bool_decide (holder l = claimer)
      then (true, set_leases (<[table_id := mine]> (table_leases db)) db)
      else (false, db)
  end.

Definition acquire_table_lease (table_id why : rstr) (ttl : Z) : Eff Σ bool := sql (acquire_stmt table_id why ttl).

Definition release_stmt (table_id : rstr) (db : Db) : unit * Db :=
  match table_leases db !! table_id with
  | Some l => if bool_decide (holder l = claimer)
              then (tt, set_leases (delete table_id (table_leases db)) db) else (tt, db)
  | None => (tt, db)
  end.

Definition release_table_lease (table_id : rstr) : Eff Σ unit := sql (λ _, release_stmt table_id).
End Leases.

(** * Mirror cursors *)

Definition default_cursor : MirrorSyncCursor := mkMirrorCursor None 0 None 0 None.

Definition i64_max : Z := 2 ^ 63 - 1.

Definition mirror_sync_cursor (cursor_id : rstr) : Eff Σ MirrorSyncCursor :=
  let* row := sqlq (λ _ db, mirror_sync_cursors db !! cursor_id) in
  match row with
  | None => Ret default_cursor
  | Some c => if (rotation c <? 0) || (rotation_objects_examined c <? 0) then Err else Ret c
  end.

Definition cas_cursor (cursor_id : rstr) (expected next : MirrorSyncCursor) (db : Db) : bool * Db :=
  let cs := mirror_sync_cursors db in
  match cs !! cursor_id with
  | None => (true, set_cursors (<[cursor_id := next]> cs) db)
  | Some c =>
      if (rotation c =? rotation expected) && bool_decide (last_key c = last_key expected)
      then (true, set_cursors (<[cursor_id := next]> cs) db) else (false, db)
  end.

Definition compare_and_set_mirror_sync_cursor (cursor_id : rstr) (expected : MirrorSyncCursor)
    (next_last_key : option rstr) (completed_rotation : bool) (page_objects_examined : Z) : Eff Σ bool :=
  if completed_rotation && bool_decide (next_last_key ≠ None) then Err else
  if i64_max <? rotation expected then Err else
  let next_rotation := rotation expected + Z.b2z completed_rotation in
  if i64_max <? next_rotation then Err else
  let previous := match last_key expected with Some _ => rotation_objects_examined expected | None => 0 end in
  let examined := previous + page_objects_examined in
  if i64_max <? examined then Err else
  sql (λ now, cas_cursor cursor_id expected
    (mkMirrorCursor next_last_key next_rotation
       (if completed_rotation then None else Some (default now (rotation_started_at_ms expected)))
       examined
       (if completed_rotation then Some now else last_completed_at_ms expected))).
End Ops.

(** * Chunks and aggregates *)

Lemma concat_chunks {A} (l : list A) : concat (chunks l) = l.
Proof.
  unfold chunks. assert (∀ n (l : list A), (length l ≤ n)%nat → concat (chunks_go n l) = l) as Hgo; [|by apply Hgo].
  intros n. induction n as [|n IH]; intros [|x k] Hn; try done; [simpl in Hn; lia|].
  change (take 256 (x :: k) ++ concat (chunks_go n (drop 256 (x :: k))) = x :: k). rewrite IH.
  - apply take_drop.
  - rewrite length_drop. simpl in *. lia.
Qed.

Lemma foldl_min_spec l x : foldl Z.min x l ∈ x :: l ∧ ∀ y, y ∈ x :: l → foldl Z.min x l ≤ y.
Proof.
  revert x. induction l as [|z l IH]; intros x; simpl.
  - split; [left|]. intros y ->%list_elem_of_singleton. lia.
  - destruct (IH (Z.min x z)) as [Hin Hle]. split.
    + destruct (Z.min_spec x z) as [[_ E]|[_ E]]; rewrite E in *; set_solver.
    + assert (foldl Z.min (x `min` z) l ≤ x `min` z) by (apply Hle; left).
      intros y [->|[->|Hy]%elem_of_cons]%elem_of_cons; [lia|lia|]. apply Hle. by right.
Qed.

Lemma min_opt_Some l m : min_opt l = Some m → m ∈ l ∧ ∀ x, x ∈ l → m ≤ x.
Proof. destruct l as [|x l]; simpl; [done|]. intros [= <-]. apply foldl_min_spec. Qed.

Lemma min_opt_None l : min_opt l = None → l = [].
Proof. by destruct l. Qed.

Lemma max_opt_Some l m : max_opt l = Some m → m ∈ l.
Proof.
  destruct l as [|x l]; simpl; [done|]. intros [= <-]. revert x. induction l as [|z l IH]; intros x; simpl; [left|].
  specialize (IH (Z.max x z)). destruct (Z.max_spec x z) as [[_ E]|[_ E]]; rewrite E in *; set_solver.
Qed.
