(* ===== verification/CatalogInv.v ===== *)
(** The catalog under any number of concurrent clients: the columns of a row
    agree with its status, and a row only moves along the claim lifecycle.
    Every public operation of [SqlSegmentClaim] that writes is a client call. *)

From stdpp Require Import prelude gmap sorting relations.
From Stdlib Require Import ZArith Lia.
From S2P Require Import Prelude RustStr Eff RelyGuarantee Catalog.

(** * Rows *)

Definition row_ok (r : Row) : Prop :=
  match status r with
  | Sealed =>
      row_claimer r = None ∧ row_claimed_at r = None ∧ committed_at_ms r = None ∧
      0 ≤ attempts r < RELEASE_MAX_ATTEMPTS
  | Processing =>
      is_Some (row_claimer r) ∧ is_Some (row_claimed_at r) ∧ committed_at_ms r = None ∧
      0 ≤ attempts r < RELEASE_MAX_ATTEMPTS
  | Committed => is_Some (committed_at_ms r) ∧ 0 ≤ attempts r < RELEASE_MAX_ATTEMPTS
  | Quarantined =>
      row_claimer r = None ∧ row_claimed_at r = None ∧ committed_at_ms r = None ∧
      1 ≤ attempts r ≤ RELEASE_MAX_ATTEMPTS
  end.

Definition rows_ok (rows : list Row) : Prop := NoDup (row_id <$> rows) ∧ Forall row_ok rows.

(** The edges of the lifecycle. *)
Definition edge (s s' : Status) : bool :=
  match s, s' with
  | Sealed, Processing | Processing, Sealed | Processing, Committed | Processing, Quarantined
  | Quarantined, Sealed | Sealed, Committed | Committed, Committed => true
  | _, _ => false
  end.

Definition moves_to (r r' : Row) : Prop :=
  r' = r ∨ seg r' = seg r ∧ registered_at_ms r' = registered_at_ms r ∧ edge (status r) (status r') = true.

(** From [rows] to [rows']: a row follows an edge or, when it is committed, is
    purged; a new row is sealed, or committed by the local drain. *)
Definition rows_move (rows rows' : list Row) : Prop :=
  (∀ r, r ∈ rows → (∃ r', r' ∈ rows' ∧ moves_to r r') ∨ status r = Committed) ∧
  (∀ r', r' ∈ rows' → (∃ r, r ∈ rows ∧ moves_to r r') ∨
     row_id r' ∉ row_id <$> rows ∧ attempts r' = 0 ∧ (status r' = Sealed ∨ status r' = Committed)).

(** * Client calls *)

Inductive Call :=
| CRegister (s : Segment)
| CTryClaim (claimer : rstr) (d : Dialect) (locked : rstr → bool) (batch shard_index shard_count : Z)
| CTryClaimEligible (claimer : rstr) (d : Dialect) (locked : rstr → bool) (batch target_bytes max_age : Z)
| CRelease (claimer i : rstr)
| CQuarantineTerminal (claimer i : rstr)
| CMarkCommitted (claimer i : rstr)
| CMarkCommittedBatch (claimer : rstr) (ids : list rstr) (p : gmap (rstr * rstr) rstr)
| CMarkCommittedLocal (l : list Segment)
| CMarkReclaimedCommitted (ids : list rstr) (p : gmap (rstr * rstr) rstr)
| CRequeueClaims (ids : list rstr)
| CReclaimAbandoned (max_age : Z)
| CRequeueQuarantined
| CPurgeCommittedIds (ids : list rstr)
| CPurgeCommitted (max_age : Z)
| CAcquireLease (claimer table_id why : rstr) (ttl : Z)
| CReleaseLease (claimer table_id : rstr)
| CCasCursor (cursor_id : rstr) (expected : MirrorSyncCursor) (next : option rstr) (done : bool) (n : Z).

Definition do_call (c : Call) : Eff Db unit :=
  match c with
  | CRegister s => ignore (register s)
  | CTryClaim claimer d locked batch i n => ignore (try_claim_sharded claimer d locked batch i n)
  | CTryClaimEligible claimer d locked batch b a => ignore (try_claim_eligible claimer d locked batch b a)
  | CRelease claimer i => release claimer i
  | CQuarantineTerminal claimer i => ignore (quarantine_terminal claimer i)
  | CMarkCommitted claimer i => mark_committed claimer i
  | CMarkCommittedBatch claimer ids p => mark_committed_batch claimer ids p
  | CMarkCommittedLocal l => ignore (mark_committed_local l)
  | CMarkReclaimedCommitted ids p => ignore (mark_reclaimed_committed ids p)
  | CRequeueClaims ids => ignore (requeue_claims ids)
  | CReclaimAbandoned max_age => ignore (reclaim_abandoned max_age)
  | CRequeueQuarantined => ignore requeue_quarantined
  | CPurgeCommittedIds ids => ignore (purge_committed_ids ids)
  | CPurgeCommitted max_age => ignore (purge_committed max_age)
  | CAcquireLease claimer t w ttl => ignore (acquire_table_lease claimer t w ttl)
  | CReleaseLease claimer t => release_table_lease claimer t
  | CCasCursor c e next d n => ignore (compare_and_set_mirror_sync_cursor c e next d n)
  end.

(** A client call is a process of its own; any number of them run at once, and
    any statement may fail or lose its answer. *)
Definition catalog_step : Config (Σ := Db) (Act := unit) → Config → Prop :=
  pstep (λ _ _ _ _ _, True) (λ _ _, True) (λ _ p, ∃ c, p = do_call c).

Definition empty_db : Db := mkDb [] ∅ ∅ ∅.

(** * Statements *)

Definition stmt_ok (db db' : Db) : Prop :=
  rows_ok (wal_segments db) → rows_ok (wal_segments db') ∧ rows_move (wal_segments db) (wal_segments db').

(** Every statement of a program stays within [R]. *)
Fixpoint stmts (R : Db → Db → Prop) {A} (p : Eff Db A) : Prop :=
  match p with
  | Ret _ | Err => True
  | Stmt l f k => (∀ now db, R db (f now db).2) ∧ ∀ r, stmts R (k r)
  end.

Section Stmts.
Context (R : Db → Db → Prop).

Lemma stmts_bind {A B} (p : Eff Db A) (q : A → Eff Db B) : stmts R p → (∀ a, stmts R (q a)) → stmts R (bind p q).
Proof. intros Hp Hq. induction p as [| |l C f k IH]; simpl in *; [done..|]. destruct Hp. split; auto. Qed.

Lemma stmts_catch {A} (p : Eff Db A) : stmts R p → stmts R (catch p).
Proof. intros Hp. induction p as [| |l C f k IH]; simpl in *; [done..|]. destruct Hp. split; auto. Qed.

Lemma stmts_each {A X} (body : A → X → Eff Db A) l acc : (∀ a x, stmts R (body a x)) → stmts R (each body l acc).
Proof. intros Hb. revert acc. induction l as [|x l IH]; intros acc; simpl; [done|]. by apply stmts_bind. Qed.

Lemma stmts_sql {B : Set} (f : Z → Db → B * Db) : (∀ now db, R db (f now db).2) → stmts R (sql f).
Proof. intros Hf. split; [exact Hf|]. by intros []. Qed.

Lemma stmts_query `{!Reflexive R} l {B : Set} (f : Z → Db → B) : stmts R (query l f).
Proof. split; [intros now db; simpl; reflexivity|]. by intros []. Qed.
End Stmts.

Ltac calm :=
  repeat match goal with
  | |- stmts _ (bind _ _) => apply stmts_bind; [|intros ?]
  | |- stmts _ (catch _) => apply stmts_catch
  | |- stmts _ (each_ _ _) => unfold each_
  | |- stmts _ (each _ _ _) => apply stmts_each; intros ??
  | |- stmts _ (sqlq _) => exact (stmts_query _ _ _)
  | |- stmts _ (sql _) => apply stmts_sql; intros ??
  | |- stmts _ (Ret _) => exact I
  | |- stmts _ Err => exact I
  | |- stmts _ (match _ with _ => _ end) => case_match
  end.

(** The rows stay well formed. *)
Abbreviation calm := (stmts stmt_ok).

Lemma rows_move_refl rows : rows_move rows rows.
Proof. split; intros r Hr; left; exists r; (split; [done|by left]). Qed.

Lemma stmt_ok_same db db' : wal_segments db' = wal_segments db → stmt_ok db db'.
Proof. intros E H. rewrite E. split; [done|apply rows_move_refl]. Qed.

#[export] Instance stmt_ok_refl : Reflexive stmt_ok.
Proof. intros db. by apply stmt_ok_same. Qed.

(** A column update that keeps the key. *)
Lemma update_stmt_ok cond set db :
  (∀ r, r ∈ wal_segments db → row_ok r → cond r = true → row_ok (set r) ∧ moves_to r (set r)) →
  stmt_ok db (update_where cond set db).2.
Proof.
  intros Hset [Hnd Hok]. simpl. set (u := λ r, if cond r then set r else r).
  assert (∀ r, r ∈ wal_segments db → row_ok (u r) ∧ moves_to r (u r)) as Hu.
  { intros r Hr. rewrite Forall_forall in Hok. unfold u. destruct (cond r) eqn:E; [auto|].
    split; [auto|by left]. }
  assert (∀ r, moves_to r (u r) → row_id (u r) = row_id r) as Hid.
  { intros r [->|[E _]]; unfold row_id; [done|by rewrite E]. }
  split; [split|split].
  - rewrite <- list_fmap_compose. erewrite Forall_fmap_ext_1; [exact Hnd|].
    apply Forall_forall. intros r Hr. apply Hid. by apply Hu.
  - rewrite Forall_fmap. apply Forall_forall. intros r Hr. by apply Hu.
  - intros r Hr. left. exists (u r). split; [by apply list_elem_of_fmap_2|by apply Hu].
  - intros r' (r & -> & Hr)%list_elem_of_fmap. left. exists r. split; [done|by apply Hu].
Qed.

Lemma delete_stmt_ok cond db :
  (∀ r, cond r = true → status r = Committed) → stmt_ok db (delete_where cond db).2.
Proof.
  intros Hc [Hnd Hok]. simpl. split; [split|split].
  - eapply sublist_NoDup; [exact Hnd|]. apply fmap_sublist, sublist_filter.
  - rewrite Forall_forall in *. intros r [_ ?]%list_elem_of_filter. auto.
  - intros r Hr. destruct (cond r) eqn:E; [right; auto|left]. exists r. split; [|by left].
    by apply list_elem_of_filter.
  - intros r [_ Hr]%list_elem_of_filter. left. exists r. split; [done|by left].
Qed.

Lemma insert_stmt_ok r db :
  row_id r ∉ row_id <$> wal_segments db → row_ok r → attempts r = 0 → status r = Sealed ∨ status r = Committed →
  stmt_ok db (set_rows (wal_segments db ++ [r]) db).
Proof.
  intros Hid Hr Ha Hs [Hnd Hok]. simpl. split; [split|split].
  - rewrite fmap_app. apply NoDup_app. split_and!; [done| |apply NoDup_singleton]. simpl. set_solver.
  - apply Forall_app. by repeat constructor.
  - intros r0 Hr0. left. exists r0. split; [set_solver|by left].
  - intros r' [Hr'| ->%list_elem_of_singleton]%elem_of_app; [left|by right]. exists r'. split; [done|by left].
Qed.

Lemma advance_rows g u db : wal_segments (advance_consumed_proof_watermark_in g u db) = wal_segments db.
Proof. unfold advance_consumed_proof_watermark_in. by repeat case_match. Qed.

Lemma advance_all_rows p gs db : wal_segments (advance_all p gs db) = wal_segments db.
Proof.
  unfold advance_all. revert db. induction gs as [|g gs IH]; intros db; simpl; [done|].
  rewrite IH. apply advance_rows.
Qed.

(** * Operations *)

(** A [SET] clause on a row whose status is known. *)
Ltac row_move :=
  unfold row_ok; intros Hr Hs; rewrite Hs in Hr; destruct_and! Hr; unfold RELEASE_MAX_ATTEMPTS in *;
  split; [split_and!; simpl; eauto; lia|right; by rewrite Hs].

Lemma claim_row_ok c now r :
  row_ok r → status r = Sealed → row_ok (claim_row c now r) ∧ moves_to r (claim_row c now r).
Proof. row_move. Qed.

Lemma commit_row_ok now r :
  row_ok r → status r = Processing → row_ok (commit_row now r) ∧ moves_to r (commit_row now r).
Proof. row_move. Qed.

Lemma commit_reclaimed_row_ok now r :
  row_ok r → status r = Processing → row_ok (commit_reclaimed_row now r) ∧ moves_to r (commit_reclaimed_row now r).
Proof. row_move. Qed.

Lemma requeue_row_ok r :
  row_ok r → status r = Processing → row_ok (requeue_row r) ∧ moves_to r (requeue_row r).
Proof. row_move. Qed.

Lemma release_row_ok now r :
  row_ok r → status r = Processing →
  row_ok (release_row RELEASE_MAX_ATTEMPTS now r) ∧ moves_to r (release_row RELEASE_MAX_ATTEMPTS now r).
Proof.
  unfold row_ok. intros Hr Hs. rewrite Hs in Hr. destruct_and! Hr. unfold RELEASE_MAX_ATTEMPTS, release_row in *.
  simpl. destruct (Z.leb_spec 12 (attempts r + 1)); (split; [split_and!; simpl; eauto; lia|]);
    right; simpl; by rewrite Hs.
Qed.

Lemma quarantine_row_ok r :
  row_ok r → status r = Processing → row_ok (quarantine_row r) ∧ moves_to r (quarantine_row r).
Proof. row_move. Qed.

Lemma unquarantine_row_ok r :
  row_ok r → status r = Quarantined → row_ok (unquarantine_row r) ∧ moves_to r (unquarantine_row r).
Proof. row_move. Qed.

Lemma local_commit_row_ok now r :
  row_ok r → status r = Sealed ∨ status r = Committed →
  row_ok (local_commit_row now r) ∧ moves_to r (local_commit_row now r).
Proof.
  unfold row_ok. intros Hr Hs. unfold moves_to, local_commit_row. simpl.
  destruct Hs as [Hs|Hs]; rewrite Hs in Hr; destruct_and! Hr; (split; [split_and!; simpl; eauto; lia|]); right; by rewrite Hs.
Qed.

Lemma mine_processing c r : mine c r = true → status r = Processing.
Proof. unfold mine, is_status. rewrite andb_true_iff, bool_decide_eq_true. tauto. Qed.

Lemma is_status_spec s r : is_status s r = true ↔ status r = s.
Proof. unfold is_status. by rewrite bool_decide_eq_true. Qed.

Create HintDb catalog.
#[export] Hint Resolve claim_row_ok commit_row_ok commit_reclaimed_row_ok requeue_row_ok release_row_ok
  quarantine_row_ok unquarantine_row_ok local_commit_row_ok mine_processing : catalog.

Lemma candidates_sealed locked now batch db r :
  r ∈ candidates locked now batch db → r ∈ wal_segments db ∧ status r = Sealed.
Proof.
  unfold candidates, oldest_first. intros Hr%elem_of_take. destruct Hr as (i & Hr & _).
  apply list_elem_of_lookup_2 in Hr. rewrite merge_sort_Permutation in Hr.
  apply list_elem_of_filter in Hr as [[Hd _] ?]. split; [done|].
  unfold due in Hd. apply andb_true_iff in Hd as [Hd _]. by apply is_status_spec.
Qed.

(** A row found by the id of a sealed row of the same table is that row. *)
Lemma same_row rows r r' : NoDup (row_id <$> rows) → r ∈ rows → r' ∈ rows → row_id r = row_id r' → r = r'.
Proof.
  intros Hnd [i Hi]%list_elem_of_lookup [j Hj]%list_elem_of_lookup E.
  assert (i = j) as ->; [|by simplify_eq]. eapply NoDup_lookup; [exact Hnd|..]; rewrite list_lookup_fmap.
  - rewrite Hi. done.
  - rewrite Hj. simpl. by rewrite E.
Qed.

Lemma claim_stmt_ok c (ids : Db → list rstr) now db :
  (∀ i, i ∈ ids db → ∃ r, r ∈ wal_segments db ∧ row_id r = i ∧ status r = Sealed) →
  stmt_ok db (claim_stmt c ids now db).2.
Proof.
  intros Hids Hok. apply update_stmt_ok; [|done]. intros r Hr Hrok Hin. apply claim_row_ok; [done|].
  unfold id_in in Hin. rewrite bool_decide_eq_true in Hin. destruct (Hids _ Hin) as (r' & Hr' & E & Hs).
  by rewrite <- (same_row (wal_segments db) r' r (proj1 Hok) Hr' Hr E).
Qed.

Lemma candidates_ids locked now batch db i :
  i ∈ row_id <$> candidates locked now batch db → ∃ r, r ∈ wal_segments db ∧ row_id r = i ∧ status r = Sealed.
Proof. intros (r & -> & [??]%candidates_sealed)%list_elem_of_fmap. eauto. Qed.

Lemma calm_release c i : calm (release c i).
Proof.
  unfold release, release_with_backoff. calm. apply update_stmt_ok. intros r _ ? [_ ?]%andb_true_iff. eauto with catalog.
Qed.

Lemma calm_try_claim c d locked batch i n : calm (try_claim_sharded c d locked batch i n).
Proof.
  unfold try_claim_sharded. case_match; [done|]. destruct d.
  - calm. apply update_stmt_ok. intros r _ ? [_ ?%is_status_spec]%andb_true_iff. by apply claim_row_ok.
  - calm; [|apply calm_release]. apply claim_stmt_ok. apply candidates_ids.
Qed.

Lemma calm_try_claim_eligible c d locked batch b m : calm (try_claim_eligible c d locked batch b m).
Proof.
  unfold try_claim_eligible. destruct d; [done|]. case_match; [done|]. calm. apply claim_stmt_ok.
  intros i. case_match; [apply candidates_ids|]. by intros ?%elem_of_nil.
Qed.

Lemma mark_stmt_ok c p chunk now db : stmt_ok db (mark_chunk c p chunk now db).2.
Proof.
  intros Hok. unfold mark_chunk. cbn [snd]. rewrite advance_all_rows. revert Hok. apply update_stmt_ok.
  intros r _ ? [_ ?]%andb_true_iff. eauto with catalog.
Qed.

Lemma reclaim_stmt_ok p chunk now db : stmt_ok db (reclaim_chunk p chunk now db).2.
Proof.
  intros Hok. unfold reclaim_chunk. cbn [snd]. rewrite advance_all_rows. revert Hok. apply update_stmt_ok.
  intros r _ ? [_ ?%is_status_spec]%andb_true_iff. eauto with catalog.
Qed.

Lemma insert_local_ok s now db : stmt_ok db (insert_local s now db).2.
Proof.
  unfold insert_local. case_bool_decide; [by apply stmt_ok_same|]. apply insert_stmt_ok; [done| |done|by right].
  split; simpl; [eauto|unfold RELEASE_MAX_ATTEMPTS; lia].
Qed.

Lemma calm_mark_committed_local l : calm (mark_committed_local l).
Proof.
  unfold mark_committed_local. calm; [|apply insert_local_ok]. apply update_stmt_ok.
  intros r _ ? [_ [?%is_status_spec|?%is_status_spec]%orb_true_iff]%andb_true_iff; eauto with catalog.
Qed.

Lemma calm_requeue ids : calm (requeue_claims ids).
Proof.
  unfold requeue_claims. calm. apply update_stmt_ok. intros r _ ? [_ ?%is_status_spec]%andb_true_iff. eauto with catalog.
Qed.

Lemma calm_lease_cas c t w ttl i e nx dn n :
  calm (acquire_table_lease c t w ttl) ∧ calm (release_table_lease c t) ∧
  calm (compare_and_set_mirror_sync_cursor i e nx dn n).
Proof.
  split_and!; [apply stmts_sql; intros ??..|unfold compare_and_set_mirror_sync_cursor; calm]; apply stmt_ok_same;
    unfold acquire_stmt, release_stmt, cas_cursor; by repeat case_match.
Qed.

Lemma calm_call c : calm (do_call c).
Proof.
  destruct c; cbn [do_call]; unfold ignore;
    try match goal with |- stmts _ (bind _ _) => apply stmts_bind; [|done] end.
  - apply stmts_sql. intros now db. case_bool_decide; [by apply stmt_ok_same|]. apply insert_stmt_ok; [done| |done|by left].
    repeat split; unfold RELEASE_MAX_ATTEMPTS; simpl; lia.
  - apply calm_try_claim.
  - apply calm_try_claim_eligible.
  - apply calm_release.
  - unfold quarantine_terminal. calm. apply update_stmt_ok. intros r _ ? [_ ?]%andb_true_iff. eauto with catalog.
  - unfold mark_committed. calm. apply update_stmt_ok. intros r _ ? [_ ?]%andb_true_iff. eauto with catalog.
  - unfold mark_committed_batch. calm. apply mark_stmt_ok.
  - apply calm_mark_committed_local.
  - unfold mark_reclaimed_committed. calm. apply reclaim_stmt_ok.
  - apply calm_requeue.
  - apply stmts_sql. intros now db. apply update_stmt_ok.
    intros r _ ? [?%is_status_spec _]%andb_true_iff. eauto with catalog.
  - apply stmts_sql. intros now db. apply update_stmt_ok. intros r _ ? ?%is_status_spec. eauto with catalog.
  - unfold purge_committed_ids. calm. apply delete_stmt_ok. intros r [?%is_status_spec _]%andb_true_iff. done.
  - apply stmts_sql. intros now db. apply delete_stmt_ok. intros r [?%is_status_spec _]%andb_true_iff. done.
  - apply (calm_lease_cas _ _ _ _ [] default_cursor None false 0).
  - apply (calm_lease_cas _ _ [] 0 [] default_cursor None false 0).
  - apply (calm_lease_cas [] [] [] 0).
Qed.

(** * The lifecycle *)

Definition db_ok (x : Z * Db) : Prop := rows_ok (wal_segments x.2).
Definition db_moves (_ : unit) (x y : Z * Db) : Prop := rows_move (wal_segments x.2) (wal_segments y.2).

Lemma calm_safe {A} (p : Eff Db A) x :
  calm p → safe db_ok (λ _ _ _ _ _, True) (λ _ _, True) db_moves tt p (λ _ _, True) x.
Proof.
  revert x. induction p as [| |l B f k IH]; intros x; simpl; [done..|]. intros [Hf Hk] y _ Hi now o _ _.
  destruct (Hf now y.2 Hi) as [Hok Hmv]. unfold db_ok, db_moves in *.
  destruct o; simpl; (split_and!; [done| |by apply IH]); done || apply rows_move_refl.
Qed.

Lemma catalog_ok c :
  rtc catalog_step (0, [], empty_db) c → db_ok (c.1.1, c.2).
Proof.
  apply pool_invariant with (G := db_moves); [|by repeat constructor].
  intros [] p x [cl ->] _. apply calm_safe, calm_call.
Qed.

(** C14. However many clients call the catalog at once, their statements
    interleaved in any order, failing or losing their answers: ids stay unique;
    a row is claimed, with its claimer and the time, exactly while it is
    processing, and a committed one has its commit time; a row that was given
    back [RELEASE_MAX_ATTEMPTS] times is quarantined; and each step moves each
    row along an edge of the lifecycle, so nothing leaves [committed] but by a
    purge and nothing enters it but from a claim or the local drain. *)
Theorem catalog_lifecycle c c' :
  rtc catalog_step (0, [], empty_db) c → catalog_step c c' →
  rows_ok (wal_segments c'.2) ∧ rows_move (wal_segments c.2) (wal_segments c'.2).
Proof.
  intros Hc Hs. split.
  - apply (catalog_ok c'). by eapply rtc_r.
  - destruct (pool_guarantee db_ok (λ _ _ _ _ _, True) (λ _ _, True) db_moves (λ _ p, ∃ cl, p = do_call cl))
      with (clock := 0) (s := empty_db) (c := c) (c' := c') as [->|[[] ?]]; try done; [|by repeat constructor|apply rows_move_refl].
    intros [] p x [cl ->] _. apply calm_safe, calm_call.
Qed.

(** A segment is registered and claimed. *)
Definition sample_register : Call := CRegister (mkSegment [1] [2] [] [3] 4 5).
Definition sample_claim : Call := CTryClaim [9] Postgres (λ _, false) 1 0 1.
Definition sample_registered : Db := (run [(10, Done)] (do_call sample_register) empty_db).2.
Definition sample_claimed : Db := (run [(11, Done)] (do_call sample_claim) sample_registered).2.

Lemma catalog_lifecycle_witness :
  status <$> wal_segments sample_registered = [Sealed] ∧ status <$> wal_segments sample_claimed = [Processing] ∧
  rows_ok (wal_segments sample_claimed) ∧ rows_move (wal_segments sample_registered) (wal_segments sample_claimed).
Proof.
  split; [done|]. split; [done|].
  refine (catalog_lifecycle (10, [mkProc tt (do_call sample_claim)], sample_registered) (11, [mkProc tt _], sample_claimed) _ _).
  - eapply rtc_r; [|apply pstep_start; [by exists sample_claim|by apply Forall_nil]].
    apply (run_reach _ _ _ tt 0 [(10, Done)] (do_call sample_register)); [by exists sample_register|by repeat constructor].
  - by eapply (pstep_stmt _ _ _ 10 [] tt _ _ _ _ [] _ 11 Done).
Defined.
