(* ===== verification/MirrorSync.v ===== *)
(** Registering mirrored segments: the uploader's registration (loglake-wal,
    [mirror.rs]) and the recovery scan that registers what an ingester did not
    live to register (loglake-compactor, [lib.rs]).

    The scan lists the mirror a page at a time behind a durable cursor that
    wraps around.  The store's listing is an argument: the objects under the
    prefix at a time, by path and length.  A path is the bytes of its UTF-8, and
    [/] is one byte. *)

From stdpp Require Import prelude gmap strings sorting relations.
From Stdlib Require Import ZArith Lia.
From S2P Require Import Prelude RustStr Eff RelyGuarantee Catalog CatalogInv.

(** * Keys *)

Definition is_slash : Z → bool := Z.eqb 0x2F.

(** [trim_start_matches('/')] and [trim_matches('/')] *)
Definition trim_start_slashes (s : rstr) : rstr := drop_while is_slash s.
Definition trim_slashes (s : rstr) : rstr := reverse (drop_while is_slash (reverse (drop_while is_slash s))).

(** [split('/')] and [rsplit('/').next()] *)
Definition components (s : rstr) : list rstr := split_list is_slash s.
Definition file_name (s : rstr) : rstr := default s (last (components s)).

Definition strip_prefix (s t : rstr) : option rstr := if is_prefix_of t s then Some (drop (length t) s) else None.

(** [trim_end_matches(t)], [t] not empty *)
Fixpoint trim_end_go (fuel : nat) (s t : rstr) : rstr :=
  match fuel with
  | O => s
  | S fuel => match strip_suffix s t with Some s => trim_end_go fuel s t | None => s end
  end.

Definition trim_end_matches (s t : rstr) : rstr := trim_end_go (length s) s t.

Definition DEFAULT : rstr := lit "default".

Definition mirror_key (prefix suffix : rstr) : rstr :=
  let prefix := trim_slashes prefix in
  if bool_decide (prefix = []) then trim_start_slashes suffix else prefix ++ lit "/" ++ trim_start_slashes suffix.

(** The layout: [<file>], [<tenant>/<file>] or [<tenant>/<index>/<file>]. *)
Definition tenant_and_index (parts : list rstr) : rstr * rstr :=
  match parts with
  | [t; _] => (t, [])
  | [t; i; _] => (t, i)
  | _ => (DEFAULT, [])
  end.

Definition parse_mirror_key_suffix (suffix : rstr) : rstr * rstr := tenant_and_index (components (trim_slashes suffix)).

(** [notify_uploaded]: what the uploader hands to the registrar. *)
Definition notify_uploaded (prefix suffix : rstr) (bytes rows : Z) : Segment :=
  let '(tenant, index) := parse_mirror_key_suffix suffix in
  mkSegment (trim_end_matches (file_name suffix) (lit ".arrow")) tenant index (mirror_key prefix suffix) bytes rows.

(** * A page of the mirror *)

Record MirrorSyncObject := mkObject { path : rstr; object_segment : Segment }.

(** A sealed object's path names its segment; [register] is given no row count. *)
Definition mirror_sync_object (path : rstr) (content_length : Z) (trimmed : rstr) : option MirrorSyncObject :=
  if contains path (lit "/_active/") || is_prefix_of (lit "_active/") path then None else
  id ← strip_suffix (file_name path) (lit ".arrow");
  let rel := trim_start_slashes (default path (strip_prefix path trimmed)) in
  let '(tenant, index) := tenant_and_index (components rel) in
  Some (mkObject path (mkSegment id tenant index (trimmed ++ lit "/" ++ rel) content_length 0)).

Record MirrorSyncPage := mkPage { objects : list MirrorSyncObject; end_of_prefix : bool }.

Definition by_path (a b : MirrorSyncObject) : Prop := lex_le (path a) (path b).

#[global] Instance by_path_dec : RelDecision by_path.
Proof. unfold RelDecision, by_path. intros a b. apply lex_le_dec. Defined.

(** [path > last_key], every path where there is no key *)
Definition beyond (start_after : option rstr) (path : rstr) : bool :=
  match start_after with Some last => negb (lex_leb path last) | None => true end.

(** The page made of a listing; [native] is a store that lists from a key on. *)
Definition list_mirror_sync_page (native : bool) (prefix : rstr) (start_after : option rstr) (object_budget : Z)
    (listing : list (rstr * Z)) : MirrorSyncPage :=
  let budget := Z.max object_budget 1 in
  let found := omap (λ e, mirror_sync_object e.1 e.2 (trim_slashes prefix)) listing in
  if native then
    let l := take (Z.to_nat budget) found in mkPage l (negb (len l =? budget))
  else
    let l := merge_sort by_path
               (filter (λ o, beyond start_after (path o) = true) found) in
    mkPage (take (Z.to_nat budget) l) (len l <=? budget).

(** * The scan *)

Section Sync.
Context {Σ : Type} `{!HasDb Σ}.

(** A clock before the epoch reads as zero. *)
Definition unix_timestamp_millis : Eff Σ Z := Stmt Outside (λ now s, (now, s)) (λ r, Ret (default 0 r)).

(** The scan from the cursor it read on: list, register, move the cursor. *)
Definition sync_page (lister : option rstr → Eff Σ (list (rstr * Z))) (native : bool)
    (cursor_id prefix : rstr) (object_budget : Z) (cursor : MirrorSyncCursor) : Eff Σ unit :=
  let* listing := lister (last_key cursor) in
  let page := list_mirror_sync_page native prefix (last_key cursor) object_budget listing in
  let previous := match last_key cursor with Some _ => rotation_objects_examined cursor | None => 0 end in
  if 2 ^ 64 <=? previous + len (objects page) then Err else
  let* _ := each_ (λ o, let* _ := register (object_segment o) in Ret tt) (objects page) in
  let next := if end_of_prefix page then None else path <$> last (objects page) in
  let* won := compare_and_set_mirror_sync_cursor cursor_id cursor next (end_of_prefix page) (len (objects page)) in
  if won : bool then Ret tt else Err.

Definition sync_mirror_to_catalog (lister : option rstr → Eff Σ (list (rstr * Z))) (native : bool)
    (cursor_id prefix : rstr) (object_budget : Z) : Eff Σ unit :=
  let* cursor := mirror_sync_cursor cursor_id in
  let* started := match rotation_started_at_ms cursor with Some t => Ret t | None => unix_timestamp_millis end in
  sync_page lister native cursor_id prefix object_budget
    (mkMirrorCursor (last_key cursor) (rotation cursor) (Some started) (rotation_objects_examined cursor)
       (last_completed_at_ms cursor)).
End Sync.

(** * Two registrations of one segment *)

Lemma drop_while_id (s : rstr) : (∀ x l, s = x :: l → is_slash x = false) → drop_while is_slash s = s.
Proof. destruct s as [|x s]; [done|]. simpl. intros H. by rewrite (H x s eq_refl). Qed.

Lemma components_free s : 0x2F ∉ s → components s = [s].
Proof.
  intros Hs. induction s as [|x s IH]; [done|]. unfold components in *. simpl.
  apply not_elem_of_cons in Hs as [Hx Hs]. unfold is_slash at 1. rewrite (proj2 (Z.eqb_neq 0x2F x)) by done. by rewrite IH.
Qed.

Lemma components_ne s : components s ≠ [].
Proof. unfold components. destruct s as [|x s]; simpl; [done|]. repeat case_match; done. Qed.

Lemma components_app s k : components (s ++ 0x2F :: k) = components s ++ components k.
Proof.
  induction s as [|x s IH]; [done|]. unfold components in *. simpl. rewrite IH. case_match; [done|].
  pose proof (components_ne s) as Hne. unfold components in Hne. by destruct (split_list is_slash s).
Qed.

Lemma file_name_app s k : file_name (s ++ 0x2F :: k) = file_name k.
Proof.
  unfold file_name. rewrite components_app, last_app. pose proof (components_ne k) as Hne.
  destruct (last (components k)) as [w|] eqn:E; [done|]. by apply last_None in E.
Qed.

Lemma file_name_free s : 0x2F ∉ s → file_name s = s.
Proof. intros. unfold file_name. by rewrite components_free. Qed.

Lemma trim_end_once i : strip_suffix i (lit ".arrow") = None → trim_end_matches (i ++ lit ".arrow") (lit ".arrow") = i.
Proof.
  intros Hi. assert (∀ n, trim_end_go n i (lit ".arrow") = i) as Hstop by (intros [|n]; [done|]; cbn [trim_end_go]; by rewrite Hi).
  unfold trim_end_matches. replace (length (i ++ lit ".arrow")) with (S (length i + 5)) by (rewrite length_app; simpl; lia).
  cbn [trim_end_go]. by rewrite (proj2 (strip_suffix_Some _ _ i) eq_refl).
Qed.

Lemma file_name_suffix s : ∃ k, s = k ++ file_name s.
Proof.
  induction s as [s IH] using (induction_ltof1 _ (@length Z)). destruct (decide (0x2F ∈ s)) as [Hin|Hin].
  - apply list_elem_of_split in Hin as (a & b & ->). rewrite file_name_app.
    destruct (IH b) as [k E]; [unfold ltof; rewrite length_app; simpl; lia|].
    exists (a ++ 0x2F :: k). rewrite E at 1. by rewrite <- app_assoc.
  - exists []. by rewrite file_name_free.
Qed.

(** A suffix that starts with no slash and names a file ends with none. *)
Lemma trim_slashes_file s i :
  trim_start_slashes s = s → file_name s = i ++ lit ".arrow" → trim_slashes s = s.
Proof.
  intros Hs Hf. unfold trim_slashes. unfold trim_start_slashes in Hs. rewrite Hs.
  enough (∃ k, s = k ++ [0x77]) as [k ->] by (rewrite reverse_snoc; simpl; by rewrite reverse_cons, reverse_involutive).
  destruct (file_name_suffix s) as [k E]. rewrite E, Hf. exists (k ++ i ++ lit ".arro"). by rewrite <- !app_assoc.
Qed.

(** The recovery scan registers an uploaded object exactly as its uploader
    does, for every layout of the suffix: the same segment id, tenant, index and
    object key, so that whichever registration comes second finds the row of the
    first.  (The uploader strips every trailing [.arrow], the scan one: an id
    that itself ends in [.arrow] is excluded; the uploader alone knows the row
    count.) *)
Theorem registrations_agree prefix suffix i n :
  trim_slashes prefix ≠ [] → trim_start_slashes suffix = suffix →
  file_name suffix = i ++ lit ".arrow" → strip_suffix i (lit ".arrow") = None →
  contains (mirror_key prefix suffix) (lit "/_active/") = false →
  is_prefix_of (lit "_active/") (mirror_key prefix suffix) = false →
  mirror_sync_object (mirror_key prefix suffix) n (trim_slashes prefix) =
    Some (mkObject (mirror_key prefix suffix) (notify_uploaded prefix suffix n 0)).
Proof.
  intros Hp Hs Hf Hi Ha1 Ha2. unfold mirror_sync_object. rewrite Ha1, Ha2. simpl orb. cbv iota.
  unfold notify_uploaded, parse_mirror_key_suffix. rewrite (trim_slashes_file suffix i Hs Hf), Hf, (trim_end_once i Hi).
  unfold mirror_key in *. rewrite bool_decide_false, Hs in * by done.
  change (lit "/" ++ suffix) with (0x2F :: suffix) in *. rewrite file_name_app, Hf.
  rewrite (proj2 (strip_suffix_Some _ _ i) eq_refl). simpl.
  unfold strip_prefix. rewrite (proj2 (is_prefix_of_spec _ _)) by eauto. rewrite drop_app_length. simpl.
  change (trim_start_slashes (47 :: suffix)) with (trim_start_slashes suffix). rewrite Hs.
  by destruct (tenant_and_index (components suffix)).
Qed.

(** * Rotations of the cursor *)

Lemma sorted_filter (P : rstr * Z → Prop) `{!∀ e, Decision (P e)} (l : list (rstr * Z)) :
  StronglySorted lex_le l.*1 → StronglySorted lex_le (filter P l).*1.
Proof.
  induction l as [|e l IH]; simpl; [done|]. intros [Hl He]%StronglySorted_inv. rewrite filter_cons. case_decide; [|by apply IH].
  simpl. constructor; [by apply IH|]. rewrite Forall_forall in *. intros p (e' & -> & [_ He']%list_elem_of_filter)%list_elem_of_fmap.
  apply He. by apply list_elem_of_fmap_2.
Qed.

Section Rotation.
Context (listing : Z → list (rstr * Z)) (native : bool) (cursor_id prefix : rstr) (budget : Z).

(** A store that lists from a key on does so in key order. *)
Hypothesis ordered : native = true → ∀ now, StronglySorted lex_le (listing now).*1.

Definition lister (start_after : option rstr) : Eff Db (list (rstr * Z)) :=
  query Outside (λ now _, if native then filter (λ e, beyond start_after e.1 = true) (listing now) else listing now).

Definition scan : Eff Db unit := sync_mirror_to_catalog lister native cursor_id prefix budget.

Definition cursor_of (db : Db) : MirrorSyncCursor := default default_cursor (mirror_sync_cursors db !! cursor_id).

(** The other clients: this cursor is the scans'. *)
Definition client (c : Call) : Prop := match c with CCasCursor i _ _ _ _ => i ≠ cursor_id | _ => True end.

Definition is_purge (c : Call) : bool :=
  match c with CPurgeCommittedIds _ | CPurgeCommitted _ => true | _ => false end.

(** [purges]: whether committed rows are purged meanwhile. *)
Definition scan_step (purges : bool) : Config (Σ := Db) (Act := unit) → Config → Prop :=
  pstep (λ _ _ _ _ _, True) (λ _ _, True)
    (λ _ p, p = scan ∨ ∃ c, client c ∧ (is_purge c = true → purges = true) ∧ p = do_call c).

(** A sealed object that stays in the mirror, and its segment's id. *)
Definition stays (p i : rstr) : Prop :=
  (∀ now, ∃ n, (p, n) ∈ listing now) ∧
  ∀ n, ∃ o, mirror_sync_object p n (trim_slashes prefix) = Some o ∧ id (object_segment o) = i.

Definition registered (db : Db) (i : rstr) : Prop := i ∈ row_id <$> wal_segments db.

(** ** The page *)

Lemma object_path p n t o : mirror_sync_object p n t = Some o → path o = p.
Proof.
  unfold mirror_sync_object. case_match; [done|]. destruct (strip_suffix (file_name p) (lit ".arrow")); [|done]. simpl.
  by destruct (tenant_and_index _) as [??]; intros [= <-].
Qed.

Lemma sorted_objects (l : list (rstr * Z)) t :
  StronglySorted lex_le l.*1 → StronglySorted by_path (omap (λ e, mirror_sync_object e.1 e.2 t) l).
Proof.
  induction l as [|[p n] l IH]; simpl; [constructor|]. intros [Hl Hp]%StronglySorted_inv. specialize (IH Hl).
  destruct (mirror_sync_object p n t) as [o|] eqn:E; [|done]. constructor; [done|]. apply Forall_forall.
  intros o' ([q m] & Hin & Hq)%list_elem_of_omap. unfold by_path. simpl in Hq.
  rewrite (object_path _ _ _ _ E), (object_path _ _ _ _ Hq). rewrite Forall_forall in Hp. apply Hp.
  apply list_elem_of_fmap. by exists (q, m).
Qed.

Lemma take_upto (l : list MirrorSyncObject) n o last_o :
  StronglySorted by_path l → o ∈ l → last (take n l) = Some last_o → lex_lt (path o) (path last_o) → o ∈ take n l.
Proof.
  revert n. induction l as [|x l IH]; intros [|n] Hs Hin; simpl; try done. apply StronglySorted_inv in Hs as [Hs Hx].
  apply elem_of_cons in Hin as [->|Hin]; [left|]. destruct (take n l) as [|y k] eqn:E.
  - intros [= <-] Hlt. exfalso. rewrite Forall_forall in Hx. specialize (Hx o Hin). unfold by_path in Hx.
    apply lex_le_lt_eq in Hx as [Hx|Hx]; [|rewrite Hx in Hlt]; eapply lex_lt_irrefl; [etransitivity; [exact Hlt|exact Hx]|exact Hlt].
  - intros Hlast Hlt. right. rewrite <- E in *. apply IH; try done. rewrite <- Hlast, E. done.
Qed.

Definition answer (now : Z) (k : option rstr) : list (rstr * Z) :=
  if native then filter (λ e, beyond k e.1 = true) (listing now) else listing now.

(** Every page is a cut of the objects beyond the key, in path order. *)
Lemma page_shape now k :
  let page := list_mirror_sync_page native prefix k budget (answer now k) in
  ∃ l n, objects page = take n l ∧ StronglySorted by_path l ∧ (end_of_prefix page = true → take n l = l) ∧
    (∀ p m o, (p, m) ∈ listing now → beyond k p = true → mirror_sync_object p m (trim_slashes prefix) = Some o → o ∈ l) ∧
    ∀ o, o ∈ l → ∃ m, mirror_sync_object (path o) m (trim_slashes prefix) = Some o.
Proof.
  unfold list_mirror_sync_page, answer. set (B := Z.max budget 1). set (f := λ e : rstr * Z, mirror_sync_object e.1 e.2 (trim_slashes prefix)).
  assert (∀ o (k : list (rstr * Z)), o ∈ omap f k → ∃ m, mirror_sync_object (path o) m (trim_slashes prefix) = Some o) as Hof.
  { intros o l ([p m] & _ & Ho)%list_elem_of_omap. exists m. unfold f in Ho. simpl in Ho. by rewrite (object_path _ _ _ _ Ho). }
  destruct native.
  - exists (omap f (filter (λ e, beyond k e.1 = true) (listing now))), (Z.to_nat B). simpl. split_and!; [done| | | |].
    + apply sorted_objects, sorted_filter. by apply ordered.
    + intros Hend%negb_true_iff%Z.eqb_neq. apply take_ge. unfold len in Hend. rewrite length_take in Hend. unfold B in *. lia.
    + intros p m o Hin Hb Ho. apply list_elem_of_omap. exists (p, m). split; [|done]. by apply list_elem_of_filter.
    + intros o. apply Hof.
  - exists (merge_sort by_path (filter (λ o, beyond k (path o) = true) (omap f (listing now)))), (Z.to_nat B).
    simpl. split_and!; [done| | | |].
    + apply StronglySorted_merge_sort; [intros a b c; unfold by_path; apply transitivity|intros a b; apply (total lex_le)].
    + intros Hend%Z.leb_le. apply take_ge. unfold len in Hend. lia.
    + intros p m o Hin Hb Ho. rewrite merge_sort_Permutation. apply list_elem_of_filter.
      split; [by rewrite (object_path _ _ _ _ Ho)|]. apply list_elem_of_omap. by exists (p, m).
    + intros o. rewrite merge_sort_Permutation. intros [_ Ho]%list_elem_of_filter. by eapply Hof.
Qed.

Lemma page_covers now k p i :
  let page := list_mirror_sync_page native prefix k budget (answer now k) in
  stays p i → beyond k p = true → (end_of_prefix page = true ∨ ∃ q, path <$> last (objects page) = Some q ∧ lex_le p q) →
  ∃ o, o ∈ objects page ∧ id (object_segment o) = i.
Proof.
  intros page [Hin Hobj] Hb Hend. destruct (page_shape now k) as (l & n & El & Hs & Hall & Hmem & Hof). fold page in El, Hall. rewrite El in *.
  destruct (Hin now) as [m Hm]. destruct (Hobj m) as (o & Ho & Hid). pose proof (Hmem p m o Hm Hb Ho) as Hol.
  destruct Hend as [Hend|(q & Hq & Hle)]; [exists o; by rewrite (Hall Hend)|].
  destruct (last (take n l)) as [lo|] eqn:Elast; [|done]. injection Hq as <-.
  apply lex_le_lt_eq in Hle as [Hlt|Heq].
  - exists o. split; [|done]. eapply take_upto; [done|done|exact Elast|]. by rewrite (object_path _ _ _ _ Ho).
  - exists lo. assert (lo ∈ take n l) as Hlo by (by apply last_Some_elem_of). split; [done|].
    destruct (Hof lo) as [m' Hlo']; [by eapply subseteq_take|]. rewrite <- Heq in Hlo'.
    destruct (Hobj m') as (o' & Ho' & <-). by simplify_eq.
Qed.

(** ** The invariant *)

Section Safety.
Context (first : Z) (key sid : rstr) (Hkey : stays key sid).

(** The object is done once the cursor is past its path, or after the first
    rotation. *)
Definition scanned (x : Z * Db) : Prop :=
  first ≤ rotation (cursor_of x.2) ∧
  (first < rotation (cursor_of x.2) ∨ beyond (last_key (cursor_of x.2)) key = false → registered x.2 sid).

Definition grows (db db' : Db) : Prop :=
  (registered db sid → registered db' sid) ∧
  (is_Some (mirror_sync_cursors db !! cursor_id) → is_Some (mirror_sync_cursors db' !! cursor_id)).

Definition bystander (db db' : Db) : Prop :=
  (∀ i, registered db i → registered db' i) ∧ mirror_sync_cursors db' !! cursor_id = mirror_sync_cursors db !! cursor_id.

Local Abbreviation safe := (safe scanned (λ _ _ _ _ _, True) (λ _ _, True) (λ (_ : unit) x y, grows x.2 y.2) tt).
Local Abbreviation rely := (rely scanned (λ _ _, True) (λ (_ : unit) x y, grows x.2 y.2) tt).

#[local] Instance bystander_refl : Reflexive bystander.
Proof. by intros db. Qed.

Lemma bystander_ok clock now db db' : bystander db db' → scanned (clock, db) → scanned (now, db') ∧ grows db db'.
Proof.
  intros [Hi Hc] [Hf Hs]. unfold scanned, cursor_of, grows in *. simpl in *. rewrite Hc.
  split_and!; [done|intros H; by apply Hi, Hs|by apply Hi|done].
Qed.

Lemma grows_refl db : grows db db.
Proof. by split. Qed.

Lemma safe_bystander {A} (p : Eff Db A) (x : Z * Db) : stmts bystander p → safe p (λ _ _, True) x.
Proof.
  revert x. induction p as [| |l B f k IH]; intros x; simpl; [done..|]. intros [Hf Hk] y _ Hi now o _ _.
  destruct y as [clock db]. simpl in *.
  destruct (bystander_ok clock now db _ (Hf now db) Hi), (bystander_ok clock now db db (reflexivity db) Hi).
  destruct o; simpl; (split_and!; [done|done|by apply IH]).
Qed.

(** One statement of a bystander's, with what it leaves. *)
Lemma safe_bystander_stmt l {B : Set} (f : Z → Db → B * Db) Q (x : Z * Db) :
  (∀ now db, bystander db (f now db).2) →
  (∀ clock now db, rely x (clock, db) → Q (Some (f now db).1) (now, (f now db).2)) →
  (∀ y, Q None y) → safe (stmt l f) Q x.
Proof.
  intros Hf HQ HN. apply safe_stmt. intros [clock db] Hr Hi now o _ _. simpl in *.
  destruct (bystander_ok clock now db _ (Hf now db) Hi), (bystander_ok clock now db db (reflexivity db) Hi).
  destruct o; simpl; (split_and!; [done|done|eauto]).
Qed.

Definition knows (P : Db → Prop) : Prop := ∀ db db', grows db db' → P db → P db'.

Lemma rely_knows P x y : knows P → rely x y → P x.2 → P y.2.
Proof. intros HP Hr. induction Hr as [|x y z (_ & _ & _ & _ & _ & Hg) _ IH]; [done|]. intros Hx. apply IH. by eapply HP. Qed.

(** What a scan remembers: the cursor it read, and what it registered. *)
Definition read_cursor (c : MirrorSyncCursor) (db : Db) : Prop :=
  is_Some (mirror_sync_cursors db !! cursor_id) ∨ rotation c = 0 ∧ last_key c = None.

Definition did (c : MirrorSyncCursor) (l : list MirrorSyncObject) (db : Db) : Prop :=
  read_cursor c db ∧ ∀ o, o ∈ l → id (object_segment o) = sid → registered db sid.

Lemma knows_did c l : knows (did c l).
Proof. intros db db' [Hi Hc] [[?|?] Hl]; (split; [|intros o Ho E; by apply Hi, (Hl o)]); [left; auto|by right]. Qed.

(** The cursor's compare and set. *)
Lemma cas_scanned clock now db c next :
  scanned (clock, db) → read_cursor c db → rotation c ≤ rotation next →
  (first < rotation next ∨ beyond (last_key next) key = false →
     registered db sid ∨ first < rotation c ∨ beyond (last_key c) key = false) →
  scanned (now, (cas_cursor cursor_id c next db).2) ∧ grows db (cas_cursor cursor_id c next db).2.
Proof.
  intros [Hf Hs] Hread Hrot Hnext. unfold cas_cursor.
  set (db' := set_cursors (<[cursor_id:=next]> (mirror_sync_cursors db)) db).
  assert (rotation (cursor_of db) = rotation c → last_key (cursor_of db) = last_key c → scanned (now, db') ∧ grows db db') as Hwon.
  { intros Er Ek. assert (cursor_of db' = next) as En by (unfold cursor_of; simpl; by rewrite lookup_insert_eq).
    simpl in *. split; [split; simpl; rewrite En; [lia|]|split; simpl; [done|by rewrite lookup_insert_eq]].
    intros H. destruct (Hnext H) as [?|H']; [done|]. apply Hs. by rewrite Er, Ek. }
  destruct (mirror_sync_cursors db !! cursor_id) as [c'|] eqn:Ec.
  - destruct ((rotation c' =? rotation c) && bool_decide (last_key c' = last_key c)) eqn:E; [|by split; [|apply grows_refl]].
    apply andb_true_iff in E as [?%Z.eqb_eq ?%bool_decide_eq_true]. apply Hwon; unfold cursor_of; by rewrite Ec.
  - destruct Hread as [[? Hsome]|[Hr Hk]]; [by rewrite Ec in Hsome|]. apply Hwon; unfold cursor_of; by rewrite Ec.
Qed.

Lemma register_bystander sg now db :
  let r := if bool_decide (id sg ∈ row_id <$> wal_segments db) then (false, db)
           else (true, set_rows (wal_segments db ++ [mkRow sg Sealed 0 None None None None now]) db) in
  bystander db r.2 ∧ registered r.2 (id sg).
Proof.
  simpl. case_bool_decide as Hin; [by split|]. unfold bystander, registered. simpl. rewrite fmap_app. set_solver.
Qed.

Lemma safe_register_all c l (x : Z * Db) :
  read_cursor c x.2 →
  safe (each_ (λ o, let* _ := register (object_segment o) in Ret tt) l)
    (λ r y, match r with Some _ => did c l y.2 | None => True end) x.
Proof.
  intros Hx. unfold each_.
  apply (safe_each _ _ _ _ _ _ (λ _ k y, ∃ pre, l = pre ++ k ∧ did c pre y.2)).
  - intros _ o k y (pre & E & Hy). apply safe_bind, safe_bystander_stmt; [intros now db; by apply register_bystander| |done].
    intros clock now db Hr. apply (rely_knows _ _ _ (knows_did c pre) Hr) in Hy. simpl in Hy.
    destruct (register_bystander (object_segment o) now db) as [[Hi Hc] Hnew].
    exists (pre ++ [o]). rewrite <- app_assoc. split; [done|].
    destruct (knows_did c pre db (if bool_decide (id (object_segment o) ∈ row_id <$> wal_segments db) then (false, db)
      else (true, set_rows (wal_segments db ++ [mkRow (object_segment o) Sealed 0 None None None None now]) db)).2) as [Hrc Hl];
      [split; [by apply Hi|]; intros ?; by rewrite Hc|done|].
    split; [done|]. intros o' [?| ->%list_elem_of_singleton]%elem_of_app E'; [by apply (Hl o')|rewrite <- E'; exact Hnew].
  - intros _ y (pre & E & Hy). rewrite app_nil_r in E. by subst.
  - exists []. split; [done|]. split; [done|]. by intros o ?%elem_of_nil.
Qed.

(** What a page that was registered lets the cursor say. *)
Lemma page_next now c :
  let page := list_mirror_sync_page native prefix (last_key c) budget (answer now (last_key c)) in
  let next := if end_of_prefix page then None else path <$> last (objects page) in
  beyond (last_key c) key = true → (end_of_prefix page = true ∨ beyond next key = false) → ∃ o, o ∈ objects page ∧ id (object_segment o) = sid.
Proof.
  intros page next Hb Hend. eapply page_covers; [exact Hkey|exact Hb|]. destruct (end_of_prefix page) eqn:E; [by left|right].
  destruct Hend as [?|Hend]; [done|]. unfold next in Hend.
  destruct (path <$> last (objects page)) as [q|] eqn:Eq; [|done]. exists q. split; [done|]. simpl in Hend. by apply negb_false_iff in Hend.
Qed.

Lemma safe_page c (x : Z * Db) :
  read_cursor c x.2 → safe (sync_page lister native cursor_id prefix budget c) (λ _ _, True) x.
Proof.
  intros Hx. unfold sync_page, lister. apply safe_bind, safe_bystander_stmt; [done| |done]. intros clock0 now0 db0 Hr0. cbn [fst snd].
  change (if native then filter (λ e, beyond (last_key c) e.1 = true) (listing now0) else listing now0) with (answer now0 (last_key c)).
  pose proof (page_next now0 c) as Hnext. cbv zeta in Hnext |- *.
  set (page := list_mirror_sync_page native prefix (last_key c) budget (answer now0 (last_key c))) in *.
  set (next := if end_of_prefix page then None else path <$> last (objects page)) in *.
  case_match; [done|]. apply safe_bind. eapply safe_mono; [|apply (safe_register_all c (objects page))].
  2:{ destruct (rely_knows (did c []) _ _ (knows_did c []) Hr0) as [? _]; [split; [done|]; by intros o ?%elem_of_nil|done]. }
  intros [_u|] y Hy; [|done]. apply safe_bind. unfold compare_and_set_mirror_sync_cursor. cbv zeta.
  do 4 match goal with |- RelyGuarantee.safe _ _ _ _ _ (if ?b then _ else _) _ _ => destruct b; [done|] end.
  apply safe_stmt. intros [clock db] Hr Hi now o _ _. destruct (rely_knows _ _ _ (knows_did c (objects page)) Hr Hy) as [Hrc Hreg].
  pose (nx := mkMirrorCursor next (rotation c + Z.b2z (end_of_prefix page))
    (if end_of_prefix page then None else Some (default now (rotation_started_at_ms c)))
    (match last_key c with Some _ => rotation_objects_examined c | None => 0 end + len (objects page))
    (if end_of_prefix page then Some now else last_completed_at_ms c)).
  destruct (cas_scanned clock now db c nx Hi Hrc) as [Hs Hg].
  - unfold nx. simpl. destruct (end_of_prefix page); simpl; lia.
  - intros H'. destruct (decide (first < rotation c)) as [|Hf]; [by right; left|].
    destruct (beyond (last_key c) key) eqn:Hb; [left|by right; right].
    destruct (Hnext eq_refl) as (o' & Ho' & E'); [|by apply (Hreg o')].
    unfold nx in H'. simpl in H'. destruct (end_of_prefix page); [by left|right]. simpl in H'. destruct H' as [?|?]; [lia|done].
  - destruct (bystander_ok clock now db db (reflexivity db) Hi).
    destruct o; (split_and!; [exact Hs || done|exact Hg || done|]); [|done|done].
    change (safe (if (cas_cursor cursor_id c nx db).1 then Ret () else Err) (λ _ _, True) (now, (cas_cursor cursor_id c nx db).2)).
    by destruct (cas_cursor cursor_id c nx db) as [[] ?].
Qed.

Lemma safe_scan (x : Z * Db) : safe scan (λ _ _, True) x.
Proof.
  unfold scan, sync_mirror_to_catalog, mirror_sync_cursor.
  apply safe_bind, safe_bind, safe_bystander_stmt; [done| |done]. intros clock0 now0 db0 _. cbn [fst snd get_db db_has_db].
  assert (∀ c, read_cursor c db0 → safe
    (let* started := match rotation_started_at_ms c with Some t => Ret t | None => unix_timestamp_millis end in
     sync_page lister native cursor_id prefix budget
       (mkMirrorCursor (last_key c) (rotation c) (Some started) (rotation_objects_examined c) (last_completed_at_ms c)))
    (λ _ _, True) (now0, db0)) as Hmain.
  { intros c Hc. destruct (rotation_started_at_ms c) as [t|]; [exact (safe_page (mkMirrorCursor (last_key c) (rotation c) _ _ _) (now0, db0) Hc)|]. cbn.
    intros [clock db] Hr Hi now o _ _. destruct (bystander_ok clock now db db (reflexivity db) Hi).
    assert (read_cursor c db) as Hc' by (by destruct (rely_knows (did c []) _ _ (knows_did c []) Hr); [split; [done|]; by intros o' ?%elem_of_nil|]).
    destruct o; cbn [perform fst snd]; (split_and!; [done|done|]); exact (safe_page (mkMirrorCursor (last_key c) (rotation c) _ _ _) (now, db) Hc'). }
  destruct (mirror_sync_cursors db0 !! cursor_id) as [c|] eqn:Ec.
  - assert (read_cursor c db0) as Hc by (left; by rewrite Ec).
    destruct ((rotation c <? 0) || (rotation_objects_examined c <? 0)); [done|exact (Hmain c Hc)].
  - exact (Hmain default_cursor (or_intror (conj eq_refl eq_refl))).
Qed.
End Safety.

End Rotation.

(** ** The other clients *)

Section Clients.
Context (cursor_id : rstr).
Local Abbreviation bystander := (MirrorSync.bystander cursor_id).

Lemma update_bystander cond set db : (∀ r, row_id (set r) = row_id r) → bystander db (update_where cond set db).2.
Proof.
  intros Hset. split; [|done]. unfold registered. simpl. rewrite <- list_fmap_compose. intros i (r & -> & Hr)%list_elem_of_fmap.
  apply list_elem_of_fmap. exists r. simpl. split; [|done]. by destruct (cond r).
Qed.

Lemma mark_bystander cond set p gs db :
  (∀ r, row_id (set r) = row_id r) → bystander db (advance_all p gs (update_where cond set db).2).
Proof.
  intros Hset. destruct (update_bystander cond set db Hset) as [Hi _]. split.
  - unfold registered in *. rewrite advance_all_rows. done.
  - unfold advance_all. assert (∀ db', mirror_sync_cursors (foldl (λ db g, advance_consumed_proof_watermark_in g (p !! g) db) db' gs) = mirror_sync_cursors db') as ->; [|done].
    induction gs as [|g gs IH]; intros db'; simpl; [done|]. rewrite IH. unfold advance_consumed_proof_watermark_in. by repeat case_match.
Qed.

Lemma insert_bystander r db : bystander db (set_rows (wal_segments db ++ [r]) db).
Proof. split; [|done]. unfold registered. simpl. rewrite fmap_app. set_solver. Qed.

#[local] Instance bystander_reflexive : Reflexive bystander.
Proof. by intros db. Qed.

Lemma bystander_release c i : stmts bystander (release c i).
Proof. unfold release, release_with_backoff. calm. by apply update_bystander. Qed.

Lemma bystander_call c : client cursor_id c → is_purge c = false → stmts bystander (do_call c).
Proof.
  intros Hc Hn. destruct c; try done; cbn [do_call]; unfold ignore; try (apply stmts_bind; [|done]); try done.
  - apply stmts_sql. intros now db. case_bool_decide; [done|apply insert_bystander].
  - unfold try_claim_sharded. case_match; [done|]. destruct d; calm; [by apply update_bystander..|apply bystander_release].
  - unfold try_claim_eligible. destruct d; [done|]. case_match; [done|]. calm. by apply update_bystander.
  - apply bystander_release.
  - unfold quarantine_terminal. calm. by apply update_bystander.
  - unfold mark_committed. calm. by apply update_bystander.
  - unfold mark_committed_batch. calm. by apply mark_bystander.
  - unfold mark_committed_local. calm; [by apply update_bystander|].
    unfold insert_local. match goal with |- bystander _ (snd (if ?b then _ else _)) => destruct b end; [done|apply insert_bystander].
  - unfold mark_reclaimed_committed. calm. by apply mark_bystander.
  - unfold requeue_claims. calm. by apply update_bystander.
  - apply stmts_sql. intros now db. by apply update_bystander.
  - apply stmts_sql. intros now db. by apply update_bystander.
  - apply stmts_sql. intros now db. unfold acquire_stmt. by repeat case_match.
  - apply stmts_sql. intros now db. unfold release_stmt. by repeat case_match.
  - simpl in Hc. unfold compare_and_set_mirror_sync_cursor. calm. unfold cas_cursor.
    repeat case_match; split; try done; simpl; by rewrite lookup_insert_ne.
Qed.

(** A purge leaves the cursor alone. *)
Definition same_cursor (db db' : Db) : Prop :=
  mirror_sync_cursors db' !! cursor_id = mirror_sync_cursors db !! cursor_id.

Lemma same_cursor_purge c : is_purge c = true → stmts same_cursor (do_call c).
Proof.
  assert (∀ cond db, same_cursor db (delete_where cond db).2) as Hdel by done.
  destruct c; try done; intros _; cbn [do_call]; unfold ignore, purge_committed_ids, purge_committed; calm; apply Hdel.
Qed.
End Clients.

#[global] Instance registered_dec db i : Decision (registered db i).
Proof. unfold registered. apply _. Defined.

(** The step deletes the row of [i]. *)
Definition unregisters (i : rstr) (db db' : Db) : Prop := registered db i ∧ ¬ registered db' i.

Section Jobs.
Context (listing : Z → list (rstr * Z)) (native : bool) (cursor_id prefix : rstr) (budget : Z).
Context (purges : bool) (first : Z) (p i : rstr).
Local Abbreviation safe_or := (safe_or (scanned cursor_id first p i) (λ _ _ _ _ _, True) (λ _ _, True)
  (λ (_ : unit) x y, grows cursor_id i x.2 y.2)).

Lemma same_cursor_ok clock now db db' :
  same_cursor cursor_id db db' → scanned cursor_id first p i (clock, db) →
  unregisters i db db' ∨ scanned cursor_id first p i (now, db') ∧ grows cursor_id i db db'.
Proof.
  intros Hc [Hf Hs]. destruct (decide (registered db i)) as [Hr|Hr]; [destruct (decide (registered db' i)) as [Hr'|Hr']|].
  - right. unfold scanned, grows, cursor_of in *. simpl in *. by rewrite Hc.
  - by left.
  - right. unfold scanned, grows, cursor_of in *. simpl in *. rewrite Hc. split_and!; [done| |done|done]. intros H. by destruct Hr; apply Hs.
Qed.

Lemma safe_or_purge {A} (q : Eff Db A) x : stmts (same_cursor cursor_id) q → safe_or (unregisters i) tt q x.
Proof.
  revert x. induction q as [| |l B f k IH]; intros x; simpl; [done..|]. intros [Hf Hk] [clock db] _ Hi now o _ _. simpl in *.
  assert (same_cursor cursor_id db (perform o now f db).2) as Hc by (destruct o; simpl; [apply Hf|apply Hf|done]).
  destruct (same_cursor_ok clock now _ _ Hc Hi) as [?|[? ?]]; [by left|right]. split_and!; [done..|]. by apply IH.
Qed.

Lemma jobs_safe_or :
  (native = true → ∀ now, StronglySorted lex_le (listing now).*1) → stays listing prefix p i →
  ∀ (a : unit) q x, (q = scan listing native cursor_id prefix budget ∨
      ∃ c, client cursor_id c ∧ (is_purge c = true → purges = true) ∧ q = do_call c) →
    scanned cursor_id first p i x → safe_or (λ s s', purges = true ∧ unregisters i s s') a q x.
Proof.
  intros Hord Hp [] q x [->|(c & Hc & Hpg & ->)] _; [by eapply safe_safe_or, safe_scan|].
  destruct (is_purge c) eqn:E; [|by eapply safe_safe_or, safe_bystander, bystander_call].
  eapply safe_or_mono; [|by apply safe_or_purge, same_cursor_purge]. auto.
Qed.
End Jobs.

(** C11. The recovery scan misses nothing.  Let any number of scans of one
    mirror prefix run at once, each reading the durable cursor, listing a page,
    registering it and moving the cursor by compare-and-set, among registrations,
    claims, marks, releases, leases and purges of committed rows, any statement
    failing or losing its answer and any process dying at any point; no other
    process moves this cursor.  Whenever the rotation counter has passed the
    rotation that was about to begin at the start, every sealed object that stayed
    in the mirror is registered, or its row was there and a step of the run deleted
    it, which needs a purge. *)
Theorem mirror_rotation_complete (listing : Z → list (rstr * Z)) native cursor_id prefix budget purges clock db c p i :
  (native = true → ∀ now, StronglySorted lex_le (listing now).*1) →
  last_key (cursor_of cursor_id db) = None →
  let step := scan_step listing native cursor_id prefix budget purges in
  rtc step (clock, [], db) c → rotation (cursor_of cursor_id db) < rotation (cursor_of cursor_id c.2) →
  stays listing prefix p i →
  registered c.2 i ∨
  purges = true ∧ ∃ c1 c2, rtc step (clock, [], db) c1 ∧ step c1 c2 ∧ rtc step c2 c ∧ registered c1.2 i ∧ ¬ registered c2.2 i.
Proof.
  intros Hord Hk step Hrun Hrot Hp. set (first := rotation (cursor_of cursor_id db)).
  assert (scanned cursor_id first p i (clock, db)) as Hi.
  { split; simpl; [apply Z.le_refl|]. intros [?%Z.lt_irrefl|Hb]; [done|]. by rewrite Hk in Hb. }
  destruct (pool_invariant_or (scanned cursor_id first p i) _ _ (λ (_ : unit) x y, grows cursor_id i x.2 y.2)
    (λ x y, purges = true ∧ unregisters i x y) _ (jobs_safe_or listing native cursor_id prefix budget purges first p i Hord Hp)
    clock db c Hi Hrun) as [[_ Hs]|(c1 & c2 & ? & ? & ? & ? & ? & ?)].
  - left. apply Hs. left. exact Hrot.
  - right. split; [done|]. exists c1, c2. by split_and!.
Qed.

(** * Witnesses *)

Lemma registrations_agree_witness :
  mirror_sync_object (lit "wal-mirror/acme/logs/i-01.arrow") 9 (lit "wal-mirror") =
    Some (mkObject (lit "wal-mirror/acme/logs/i-01.arrow")
      (mkSegment (lit "i-01") (lit "acme") (lit "logs") (lit "wal-mirror/acme/logs/i-01.arrow") 9 0)).
Proof. apply (registrations_agree (lit "/wal-mirror/") (lit "acme/logs/i-01.arrow") (lit "i-01") 9); by vm_compute. Defined.

(** Three objects, pages of two. *)
Definition sample_listing (_ : Z) : list (rstr * Z) :=
  [(lit "m/a/1.arrow", 5); (lit "m/a/2.arrow", 5); (lit "m/b/3.arrow", 5)].

Definition sample_scan : Eff Db unit := scan sample_listing true (lit "c") (lit "m") 2.
Definition sample_script : list (Z * Outcome) := repeat (10, Done) 8.
Definition sample_first : Db := (run sample_script sample_scan empty_db).2.
Definition sample_second : Db := (run sample_script sample_scan sample_first).2.

Lemma legal_const {A} t n (p : Eff Db A) s : legal (λ (_ : unit) _ _ _ _, True) tt t (repeat (t, Done) n) p s.
Proof. revert p s. induction n as [|n IH]; intros [] s; simpl; try done. Qed.

Lemma sample_scan_run d : run_time 10 sample_script sample_scan d = 10 →
  rtc (scan_step sample_listing true (lit "c") (lit "m") 2 false) (10, [], d) (10, [], (run sample_script sample_scan d).2).
Proof. intros E. rewrite <- E at 2. apply run_reach with (a := tt); [by left|]. apply legal_const. Qed.

Lemma mirror_rotation_complete_witness : registered sample_second (lit "3").
Proof.
  destruct (mirror_rotation_complete sample_listing true (lit "c") (lit "m") 2 false 10 empty_db (10, [], sample_second)
    (lit "m/b/3.arrow") (lit "3")) as [?|[? _]]; [| | | | |done|done].
  - intros _ now. repeat constructor.
  - done.
  - eapply rtc_trans; [apply (sample_scan_run empty_db)|apply (sample_scan_run sample_first)]; by vm_compute.
  - by vm_compute.
  - split; [intros now; exists 5; set_solver|]. intros n. eexists. split; [by vm_compute|done].
Defined.
