(* ===== verification/ConsumedProof.v ===== *)
(** The durable proof that a WAL segment was committed (loglake-storage,
    [consumed_proof.rs] and the transactions of [iceberg.rs] that carry it).

    A drain's Iceberg transaction publishes rows and the ids of the segments
    they came from together.  The proof is a table property: a map from segment
    ids to claim times, with the watermark below which every claim is settled.
    [serde_json] is a codec with its round trip; of Iceberg's table metadata the
    model keeps the uuid, this property and the snapshots' summaries. *)

From stdpp Require Import prelude gmap strings sorting.
From Stdlib Require Import ZArith Lia.
From S2P Require Import Prelude RustStr BTree.

Definition CONSUMED_PROOF_MAX_BYTES : Z := 1024 * 1024.
Definition FORMAT_VERSION : Z := 1.

Record ConsumedProofEntry := mkEntry { segment_id : rstr; claimed_at_ms : Z }.

Record ConsumedProof := mkProof {
  coverage_start_ms : option Z;
  acknowledged_through_ms : option Z;
  proof_entries : btree Z;
}.

(** The messages of [ConsumedProofError::Corrupt]. *)
Inductive Corruption := EmptyId | BadJson | BadVersion (v : Z) | DuplicateId (id : rstr).
Inductive ConsumedProofError := Oversize (bytes max_bytes : Z) | Corrupt (why : Corruption).
Inductive ConsumedProofRead := Absent | Valid (p : ConsumedProof) | CorruptRead (e : ConsumedProofError).

Abbreviation PRes A := (ConsumedProofError + A)%type (only parsing).

#[global] Instance segment_id_eq_dec : EqDecision ConsumedProofEntry.
Proof. solve_decision. Defined.

(** * Operations *)

Definition empty (coverage : option Z) : ConsumedProof := mkProof coverage None [].

Definition entries (p : ConsumedProof) : list ConsumedProofEntry :=
  (λ kv, mkEntry kv.1 kv.2) <$> proof_entries p.

Definition entry_count (p : ConsumedProof) : Z := len (proof_entries p).
Definition contains (id : rstr) (p : ConsumedProof) : bool := bool_decide (is_Some (bt_get id (proof_entries p))).

Definition compact_through (through : Z) (p : ConsumedProof) : ConsumedProof :=
  let watermark := match acknowledged_through_ms p with Some current => Z.max current through | None => through end in
  mkProof (coverage_start_ms p) (Some watermark) (filter (λ kv, watermark < kv.2) (proof_entries p)).

Definition prune_terminal_entries (terminal : list rstr) (p : ConsumedProof) : ConsumedProof :=
  mkProof (coverage_start_ms p) (acknowledged_through_ms p) (filter (λ kv, kv.1 ∉ terminal) (proof_entries p)).

Definition insert (e : ConsumedProofEntry) (p : ConsumedProof) : PRes ConsumedProof :=
  if bool_decide (segment_id e = []) then inl (Corrupt EmptyId) else
  let t := match bt_get (segment_id e) (proof_entries p) with
           | Some existing => Z.min existing (claimed_at_ms e)
           | None => claimed_at_ms e
           end in
  inr (mkProof (coverage_start_ms p) (acknowledged_through_ms p) (bt_insert (segment_id e) t (proof_entries p))).

(** [for entry in l { proof.insert(entry)? }] *)
Fixpoint insert_all (l : list ConsumedProofEntry) (p : ConsumedProof) : PRes ConsumedProof :=
  match l with
  | [] => inr p
  | e :: l => match insert e p with inl err => inl err | inr p => insert_all l p end
  end.

(** * The property's value *)

Record WireProof := mkWire {
  wire_version : Z;
  wire_coverage_start_ms : option Z;
  wire_acknowledged_through_ms : option Z;
  wire_entries : list ConsumedProofEntry;
}.

(** [serde_json] on [WireProof]. *)
Class ProofJson := {
  to_string : WireProof → option bytes;
  from_str : bytes → option WireProof;
}.

Class ProofJsonLaws `{!ProofJson} : Prop := {
  wire_roundtrip w s : to_string w = Some s → from_str s = Some w;
}.

Fixpoint decode_entries (seen : list rstr) (l : list ConsumedProofEntry) (m : btree Z) : PRes (btree Z) :=
  match l with
  | [] => inr m
  | e :: l =>
      if bool_decide (segment_id e = []) then inl (Corrupt EmptyId) else
      if bool_decide (segment_id e ∈ seen) then inl (Corrupt (DuplicateId (segment_id e))) else
      decode_entries (segment_id e :: seen) l (bt_insert (segment_id e) (claimed_at_ms e) m)
  end.

Section Codec.
Context `{!ProofJson}.

Definition decode (value : bytes) : PRes ConsumedProof :=
  if CONSUMED_PROOF_MAX_BYTES <? len value then inl (Oversize (len value) CONSUMED_PROOF_MAX_BYTES) else
  match from_str value with
  | None => inl (Corrupt BadJson)
  | Some wire =>
      if negb (wire_version wire =? FORMAT_VERSION) then inl (Corrupt (BadVersion (wire_version wire))) else
      match decode_entries [] (wire_entries wire) [] with
      | inl e => inl e
      | inr m => inr (mkProof (wire_coverage_start_ms wire) (wire_acknowledged_through_ms wire) m)
      end
  end.

Definition encode (p : ConsumedProof) : PRes bytes :=
  match to_string (mkWire FORMAT_VERSION (coverage_start_ms p) (acknowledged_through_ms p) (entries p)) with
  | None => inl (Corrupt BadJson)
  | Some value =>
      if CONSUMED_PROOF_MAX_BYTES <? len value then inl (Oversize (len value) CONSUMED_PROOF_MAX_BYTES)
      else inr value
  end.
End Codec.

(** * Tables *)

Record Snapshot := mkSnapshot { timestamp_ms : Z; consumed_segments : option rstr }.

Record Table := mkTable {
  table_uuid : rstr;
  proof_property : option bytes;
  snapshots : list Snapshot;
}.

Definition minimum (l : list Z) : option Z :=
  foldr (λ x acc, Some (match acc with Some y => Z.min x y | None => x end)) None l.

Definition retained_history_floor (t : Table) : option Z := minimum (timestamp_ms <$> snapshots t).

(** [ids.join(",")] and [s.split(',').filter(|id| !id.is_empty())] *)
Fixpoint join_commas (ids : list rstr) : rstr :=
  match ids with
  | [] => []
  | [i] => i
  | i :: ids => i ++ 0x2C :: join_commas ids
  end.

Definition split_commas (s : rstr) : list rstr := filter (λ w, w ≠ []) (split_list (Z.eqb 0x2C) s).

Definition consumed_by (s : Snapshot) : list rstr :=
  match consumed_segments s with Some c => split_commas c | None => [] end.

Definition seed_from_retained_history (t : Table) : PRes ConsumedProof :=
  insert_all (snapshots t ≫= λ s, (λ id, mkEntry id (timestamp_ms s)) <$> consumed_by s)
    (empty (retained_history_floor t)).

Definition cumulative_consumed_segments (t : Table) : list rstr := snapshots t ≫= consumed_by.

Record MergeConsumedProofAction := mkAction {
  additions : list ConsumedProofEntry;
  action_through_ms : option Z;
  terminal_segment_ids : list rstr;
}.

Inductive IceError := IncarnationMismatch | ActionFailed (e : ConsumedProofError).

Definition ensure_incarnation (expected : option rstr) (live : rstr) : bool :=
  match expected with None => true | Some u => bool_decide (u = live) end.

Section Transactions.
Context `{!ProofJson}.

(** The proof a transaction starts from. *)
Definition current_proof (t : Table) : PRes ConsumedProof :=
  match proof_property t with Some value => decode value | None => seed_from_retained_history t end.

(** [MergeConsumedProofAction::commit]: run on the table each attempt of the
    transaction is based on; the value the property is set to. *)
Definition commit (a : MergeConsumedProofAction) (t : Table) : PRes bytes :=
  match current_proof t with
  | inl e => inl e
  | inr p =>
      let p := match action_through_ms a with Some w => compact_through w p | None => p end in
      let p := prune_terminal_entries (terminal_segment_ids a) p in
      match insert_all (additions a) p with inl e => inl e | inr p => encode p end
  end.

Definition proof_from_table (t : Table) : PRes (option ConsumedProof) :=
  match proof_property t with
  | None => inr None
  | Some value => match decode value with inl e => inl e | inr p => inr (Some p) end
  end.

Definition durable_consumed_proof (t : Table) : ConsumedProofRead :=
  match proof_from_table t with
  | inr (Some p) => Valid p
  | inr None => Absent
  | inl e => CorruptRead e
  end.

(** [append_batch_with_consumed_proof_pruning] and its index twin, as the table
    sees them: one transaction that adds the snapshot and sets the property. *)
Definition append_with_consumed_proof (now : Z) (consumed : list ConsumedProofEntry) (through : option Z)
    (terminal : list rstr) (expect : option rstr) (t : Table) : IceError + Table :=
  if negb (ensure_incarnation expect (table_uuid t)) then inl IncarnationMismatch else
  match commit (mkAction consumed through terminal) t with
  | inl e => inl (ActionFailed e)
  | inr value =>
      let summary := if bool_decide (consumed = []) then None else Some (join_commas (segment_id <$> consumed)) in
      inr (mkTable (table_uuid t) (Some value) (mkSnapshot now summary :: snapshots t))
  end.

(** [proof.acknowledged_through_ms >= Some(through)] *)
Definition reached (p : ConsumedProof) (through : Z) : bool :=
  match acknowledged_through_ms p with Some a => through <=? a | None => false end.

Definition compact_consumed_proof_pruning (through : Z) (terminal : list rstr) (expect : option rstr) (t : Table)
    : IceError + (bool * Table) :=
  if negb (ensure_incarnation expect (table_uuid t)) then inl IncarnationMismatch else
  if match proof_from_table t with
     | inr (Some p) => reached p through && negb (existsb (λ id, contains id p) terminal)
     | _ => false
     end then inr (false, t) else
  match commit (mkAction [] (Some through) terminal) t with
  | inl e => inl (ActionFailed e)
  | inr value => inr (true, mkTable (table_uuid t) (Some value) (snapshots t))
  end.
End Transactions.

(** * What the operations do to an entry *)

Definition entry_time (p : ConsumedProof) (id : rstr) : option Z := bt_get id (proof_entries p).

Definition proof_wf (p : ConsumedProof) : Prop :=
  bt_wf (proof_entries p) ∧ Forall (λ kv, kv.1 ≠ []) (proof_entries p).

(** The earliest claim time [l] gives for [id]. *)
Definition added_time (l : list ConsumedProofEntry) (id : rstr) : option Z :=
  minimum (claimed_at_ms <$> filter (λ e, segment_id e = id) l).

(** The earlier of two times that may be missing. *)
Definition earliest (a b : option Z) : option Z := union_with (λ x y, Some (Z.min x y)) a b.

Lemma contains_time id p : contains id p = true ↔ is_Some (entry_time p id).
Proof. unfold contains, entry_time. by rewrite bool_decide_eq_true. Qed.

Lemma empty_wf c : proof_wf (empty c).
Proof. split; [apply bt_wf_nil|constructor]. Qed.

Lemma filter_proof_wf (P : rstr * Z → Prop) `{!∀ x, Decision (P x)} c a p :
  proof_wf p → proof_wf (mkProof c a (filter P (proof_entries p))).
Proof.
  intros [Hwf Hne]. split; simpl; [by apply bt_filter_wf|].
  rewrite Forall_forall in *. intros kv [_ ?]%list_elem_of_filter. auto.
Qed.

Lemma compact_through_time w p id :
  proof_wf p →
  entry_time (compact_through w p) id =
    t ← entry_time p id; if decide (default w (acknowledged_through_ms p) `max` w < t) then Some t else None.
Proof.
  intros [Hwf _]. unfold entry_time, compact_through. simpl. rewrite bt_get_filter by done.
  destruct (acknowledged_through_ms p); simpl; [done|]. by rewrite Z.max_id.
Qed.

Lemma prune_terminal_time ids p id :
  proof_wf p →
  entry_time (prune_terminal_entries ids p) id = if decide (id ∈ ids) then None else entry_time p id.
Proof.
  intros [Hwf _]. unfold entry_time, prune_terminal_entries. simpl. rewrite bt_get_filter by done.
  destruct (bt_get id (proof_entries p)); simpl; repeat case_decide; done.
Qed.

Lemma insert_spec e p p' :
  insert e p = inr p' → proof_wf p →
  proof_wf p' ∧ coverage_start_ms p' = coverage_start_ms p ∧
  acknowledged_through_ms p' = acknowledged_through_ms p ∧
  ∀ id, entry_time p' id = earliest (entry_time p id) (added_time [e] id).
Proof.
  unfold insert. case_bool_decide as Hne; [done|]. intros [= <-] [Hwf Hnes]. split_and!; try done; simpl.
  - split; simpl; [by apply bt_insert_wf|]. by apply bt_insert_Forall.
  - intros id. unfold entry_time, added_time. simpl. rewrite filter_cons, filter_nil.
    case_decide as Hid; simpl.
    + subst id. rewrite bt_get_insert. by destruct (bt_get _ _).
    + rewrite bt_get_insert_ne by done. by destruct (bt_get _ _).
Qed.

Lemma earliest_assoc a b c : earliest (earliest a b) c = earliest a (earliest b c).
Proof. destruct a, b, c; simpl; try done. f_equal. lia. Qed.

Lemma minimum_app l k : minimum (l ++ k) = earliest (minimum l) (minimum k).
Proof.
  induction l as [|x l IH]; simpl; [by destruct (minimum k)|]. rewrite IH.
  destruct (minimum l), (minimum k); simpl; try done. f_equal. lia.
Qed.

Lemma added_time_app l k id : added_time (l ++ k) id = earliest (added_time l id) (added_time k id).
Proof. unfold added_time. by rewrite filter_app, fmap_app, minimum_app. Qed.

Lemma added_time_None l id : id ∉ segment_id <$> l → added_time l id = None.
Proof.
  unfold added_time. induction l as [|e l IH]; [done|]. rewrite fmap_cons, not_elem_of_cons. intros [Hne Hl].
  rewrite filter_cons_False by congruence. by apply IH.
Qed.

Lemma added_time_elem l e : NoDup (segment_id <$> l) → e ∈ l → added_time l (segment_id e) = Some (claimed_at_ms e).
Proof.
  intros Hnd [l1 [l2 ->]]%list_elem_of_split. rewrite fmap_app, fmap_cons in Hnd.
  apply NoDup_app in Hnd as (_ & H1 & [H2 _]%NoDup_cons). rewrite added_time_app. change (e :: l2) with ([e] ++ l2). rewrite added_time_app.
  rewrite (added_time_None l1), (added_time_None l2); [| done|].
  - unfold added_time. rewrite filter_cons_True by done. done.
  - intros Hin. apply (H1 _ Hin). left.
Qed.

Lemma insert_all_spec l p p' :
  insert_all l p = inr p' → proof_wf p →
  proof_wf p' ∧ coverage_start_ms p' = coverage_start_ms p ∧
  acknowledged_through_ms p' = acknowledged_through_ms p ∧
  ∀ id, entry_time p' id = earliest (entry_time p id) (added_time l id).
Proof.
  revert p. induction l as [|e l IH]; intros p; simpl.
  - intros [= <-] Hwf. split_and!; try done. intros id. by destruct (entry_time p id).
  - destruct (insert e p) as [err|p1] eqn:E; [done|]. intros H Hwf.
    destruct (insert_spec e p p1 E Hwf) as (Hwf1 & Hc & Ha & Ht).
    destruct (IH p1 H Hwf1) as (Hwf' & Hc' & Ha' & Ht'). split_and!; [done|congruence|congruence|].
    intros id. rewrite Ht', Ht, earliest_assoc. f_equal. symmetry. apply (added_time_app [e]).
Qed.

Lemma insert_all_ok l p : Forall (λ e, segment_id e ≠ []) l → ∃ p', insert_all l p = inr p'.
Proof.
  intros Hl. revert p. induction Hl as [|e l He Hl IH]; intros p; simpl; [eauto|].
  unfold insert. rewrite bool_decide_false by done. apply IH.
Qed.

(** * Summaries *)

Lemma split_list_free {A} (p : A → bool) l : Forall (λ x, p x = false) l → split_list p l = [l].
Proof. induction 1 as [|x l Hx Hl IH]; simpl; [done|]. by rewrite Hx, IH. Qed.

Lemma split_list_sep {A} (p : A → bool) l c k :
  Forall (λ x, p x = false) l → p c = true → split_list p (l ++ c :: k) = l :: split_list p k.
Proof. intros Hl Hc. induction Hl as [|x l Hx Hl IH]; simpl; [by rewrite Hc|]. by rewrite Hx, IH. Qed.

(** Reading a summary back gives the ids that were joined. *)
Lemma split_join ids : Forall (λ i, i ≠ [] ∧ 0x2C ∉ i) ids → split_commas (join_commas ids) = ids.
Proof.
  intros Hids. assert (∀ i, 0x2C ∉ i → Forall (λ x, Z.eqb 0x2C x = false) i) as Hfree.
  { intros i Hi. apply Forall_forall. intros x Hx. apply Z.eqb_neq. by intros <-. }
  destruct ids as [|i ids]; [done|]. unfold split_commas. revert i Hids.
  induction ids as [|j ids IH]; intros i [[Hne Hi] Hids]%Forall_cons.
  - simpl. rewrite split_list_free by auto. by rewrite filter_cons_True.
  - change (join_commas (i :: j :: ids)) with (i ++ 0x2C :: join_commas (j :: ids)).
    rewrite split_list_sep by auto. rewrite filter_cons_True by done. by rewrite IH.
Qed.

(** * The codec *)

Lemma decode_entries_spec seen l m m' :
  decode_entries seen l m = inr m' →
  m' = bt_of_list ((λ e, (segment_id e, claimed_at_ms e)) <$> l) m ∧ Forall (λ e, segment_id e ≠ []) l.
Proof.
  revert seen m. induction l as [|e l IH]; intros seen m; simpl.
  - intros [= <-]. by split.
  - repeat case_bool_decide; try done. intros (-> & ?)%IH. split; [done|]. by constructor.
Qed.

Lemma decode_entries_ok seen l m :
  Forall (λ e, segment_id e ≠ [] ∧ segment_id e ∉ seen) l → NoDup (segment_id <$> l) →
  decode_entries seen l m = inr (bt_of_list ((λ e, (segment_id e, claimed_at_ms e)) <$> l) m).
Proof.
  revert seen m. induction l as [|e l IH]; intros seen m; simpl; [done|].
  intros [[Hne Hseen] Hl]%Forall_cons [Hnot Hnd]%NoDup_cons. rewrite !bool_decide_false by done.
  apply IH; [|done]. rewrite Forall_forall in *. intros x Hx. destruct (Hl x Hx) as [??]. split; [done|].
  rewrite not_elem_of_cons. split; [|done]. intros Heq. apply Hnot. rewrite <- Heq. apply list_elem_of_fmap. eauto.
Qed.

Lemma bt_of_list_ne (l m : btree Z) :
  Forall (λ kv, kv.1 ≠ []) l → Forall (λ kv, kv.1 ≠ []) m → Forall (λ kv, kv.1 ≠ []) (bt_of_list l m).
Proof.
  intros Hl. revert m. induction Hl as [|[k v] l Hk Hl IH]; intros m Hm; simpl; [done|].
  apply IH. by apply bt_insert_Forall.
Qed.

Lemma entries_pairs p : (λ e, (segment_id e, claimed_at_ms e)) <$> entries p = proof_entries p.
Proof. unfold entries. rewrite <- list_fmap_compose. erewrite list_fmap_ext; [apply list_fmap_id|]. by intros ? [] ?. Qed.

Lemma entries_ids p : segment_id <$> entries p = (proof_entries p).*1.
Proof. unfold entries. rewrite <- list_fmap_compose. done. Qed.

Section CodecFacts.
Context `{!ProofJson, !ProofJsonLaws}.

Lemma decode_wf value p : decode value = inr p → proof_wf p.
Proof.
  unfold decode. case_match; [done|]. destruct (from_str value) as [w|]; [|done]. case_match; [done|].
  destruct (decode_entries [] (wire_entries w) []) as [|m] eqn:E; [done|]. intros [= <-].
  apply decode_entries_spec in E as [-> Hne]. split; simpl.
  - apply bt_of_list_wf, bt_wf_nil.
  - apply bt_of_list_ne; [|constructor]. by rewrite Forall_fmap.
Qed.

Lemma decode_encode p value : encode p = inr value → proof_wf p → decode value = inr p.
Proof.
  unfold encode, decode. destruct (to_string _) as [s|] eqn:E; [|done].
  destruct (Z.ltb_spec CONSUMED_PROOF_MAX_BYTES (len s)) as [|Hlen]; [done|]. intros [= <-] [Hwf Hne].
  replace (CONSUMED_PROOF_MAX_BYTES <? len s) with false by (symmetry; apply Z.ltb_ge; lia).
  rewrite (wire_roundtrip _ _ E). simpl. rewrite decode_entries_ok.
  - rewrite entries_pairs, bt_of_list_sorted by done. by destruct p.
  - unfold entries. rewrite Forall_fmap. eapply Forall_impl; [exact Hne|]. intros kv ?. split; [done|]. apply not_elem_of_nil.
  - rewrite entries_ids. by apply (sorted_NoDup lex_lt).
Qed.

Lemma current_proof_wf t p : current_proof t = inr p → proof_wf p.
Proof.
  unfold current_proof. destruct (proof_property t); [apply decode_wf|].
  intros Hs. by eapply insert_all_spec in Hs as [? _]; [|apply empty_wf].
Qed.

(** The time an action leaves for [id], from the one it found. *)
Definition merged_time (a : MergeConsumedProofAction) (p : ConsumedProof) (id : rstr) : option Z :=
  let kept := t ← entry_time p id;
    if decide (id ∈ terminal_segment_ids a) then None else
    match action_through_ms a with
    | Some w => if decide (default w (acknowledged_through_ms p) `max` w < t) then Some t else None
    | None => Some t
    end in
  earliest kept (added_time (additions a) id).

Definition merged_through (a : MergeConsumedProofAction) (p : ConsumedProof) : option Z :=
  match action_through_ms a with
  | Some w => Some (default w (acknowledged_through_ms p) `max` w)
  | None => acknowledged_through_ms p
  end.

Lemma commit_spec a t value :
  commit a t = inr value →
  ∃ p p', current_proof t = inr p ∧ decode value = inr p' ∧
    coverage_start_ms p' = coverage_start_ms p ∧ acknowledged_through_ms p' = merged_through a p ∧
    ∀ id, entry_time p' id = merged_time a p id.
Proof.
  unfold commit. destruct (current_proof t) as [|p] eqn:E; [done|]. apply current_proof_wf in E as Hwf.
  set (p1 := match action_through_ms a with Some w => compact_through w p | None => p end).
  assert (proof_wf p1) as Hwf1 by (unfold p1; case_match; [by apply filter_proof_wf|done]).
  destruct (insert_all (additions a) _) as [|p'] eqn:Hi; [done|]. intros Henc.
  destruct (insert_all_spec _ _ _ Hi) as (Hwf' & Hc & Ha & Ht); [by apply filter_proof_wf|].
  exists p, p'. split_and!; [done|by apply decode_encode| | |].
  - rewrite Hc. unfold p1. simpl. by case_match.
  - rewrite Ha. unfold p1, merged_through. simpl. case_match; [|done]. simpl.
    destruct (acknowledged_through_ms p); simpl; [done|]. by rewrite Z.max_id.
  - intros id. rewrite Ht, prune_terminal_time by done. unfold merged_time. f_equal. unfold p1.
    destruct (action_through_ms a).
    + rewrite compact_through_time by done. destruct (entry_time p id); simpl; repeat case_decide; done.
    + destruct (entry_time p id); simpl; repeat case_decide; done.
Qed.
End CodecFacts.

(** * A codec that satisfies the law *)

Definition sample_option (z : option Z) : bytes := match z with Some z => [1; z] | None => [0] end.
Definition sample_entry (e : ConsumedProofEntry) : bytes := len (segment_id e) :: segment_id e ++ [claimed_at_ms e].

Definition take_option (bs : bytes) : option (option Z * bytes) :=
  match bs with
  | 0 :: bs => Some (None, bs)
  | 1 :: z :: bs => Some (Some z, bs)
  | _ => None
  end.

Fixpoint take_entries (fuel : nat) (bs : bytes) : option (list ConsumedProofEntry) :=
  match fuel, bs with
  | _, [] => Some []
  | S fuel, n :: bs =>
      match drop (Z.to_nat n) bs with
      | t :: rest => cons (mkEntry (take (Z.to_nat n) bs) t) <$> take_entries fuel rest
      | [] => None
      end
  | O, _ => None
  end.

Definition sample_json : ProofJson := {|
  to_string w := Some (wire_version w :: sample_option (wire_coverage_start_ms w) ++
                   sample_option (wire_acknowledged_through_ms w) ++ (wire_entries w ≫= sample_entry));
  from_str bs :=
    match bs with
    | v :: bs =>
        '(c, bs) ← take_option bs;
        '(a, bs) ← take_option bs;
        mkWire v c a <$> take_entries (length bs) bs
    | [] => None
    end;
|}.

Lemma take_sample_option z bs : take_option (sample_option z ++ bs) = Some (z, bs).
Proof. by destruct z. Qed.

Lemma take_sample_entries l fuel : (length (l ≫= sample_entry) ≤ fuel)%nat → take_entries fuel (l ≫= sample_entry) = Some l.
Proof.
  revert fuel. induction l as [|[i t] l IH]; intros fuel Hf; simpl; [by destruct fuel|].
  simpl in Hf. rewrite !length_app in Hf. destruct fuel as [|fuel]; [simpl in Hf; lia|]. cbn [take_entries].
  change (take_entries (S fuel) (len i :: (i ++ [t]) ++ (l ≫= sample_entry)) = Some (mkEntry i t :: l)). cbn [take_entries].
  rewrite to_nat_len, <- app_assoc, drop_app_length, take_app_length. simpl. rewrite IH; [done|].
  simpl in Hf. change (list_bind ConsumedProofEntry Z sample_entry l) with (l ≫= sample_entry) in Hf. lia.
Qed.

Lemma sample_json_laws : @ProofJsonLaws sample_json.
Proof.
  split. intros [v c a l] bs [= <-]. simpl. rewrite take_sample_option. simpl. rewrite take_sample_option. simpl.
  by rewrite take_sample_entries.
Qed.

(** * What a transaction leaves *)

Lemma insert_all_error l p e : insert_all l p = inl e → e = Corrupt EmptyId ∧ ∃ x, x ∈ l ∧ segment_id x = [].
Proof.
  revert p. induction l as [|x l IH]; intros p; simpl; [done|]. unfold insert at 1. case_bool_decide as Hx.
  - intros [= <-]. split; [done|]. exists x. split; [left|done].
  - intros (-> & y & Hy & Ey)%IH. split; [done|]. exists y. split; [by right|done].
Qed.

(** C15. A transaction that merges a drain's segments into a table's consumed
    proof writes a value within the size limit that decodes to exactly this:
    the earlier entries that are above the watermark the transaction was given
    and not named as settled, and the new segments, each with the earliest claim
    time it was ever given; the watermark never goes back.  It fails only for an
    unreadable proof, an empty segment id, a value the JSON serializer refuses,
    or one that is too large. *)
Theorem consumed_proof_commit_exact `{!ProofJson, !ProofJsonLaws} (a : MergeConsumedProofAction) (t : Table) :
  match commit a t with
  | inr value => ∃ p p', current_proof t = inr p ∧ decode value = inr p' ∧ len value ≤ CONSUMED_PROOF_MAX_BYTES ∧
      coverage_start_ms p' = coverage_start_ms p ∧
      (∀ w, acknowledged_through_ms p = Some w → ∃ w', acknowledged_through_ms p' = Some w' ∧ w ≤ w') ∧
      ∀ i, entry_time p' i = merged_time a p i
  | inl e =>
      current_proof t = inl e ∨
      e = Corrupt EmptyId ∧ (∃ x, x ∈ additions a ∧ segment_id x = []) ∨
      e = Corrupt BadJson ∨ ∃ n, e = Oversize n CONSUMED_PROOF_MAX_BYTES ∧ CONSUMED_PROOF_MAX_BYTES < n
  end.
Proof.
  destruct (commit a t) as [e|value] eqn:E.
  - unfold commit in E. destruct (current_proof t) as [e'|p]; [left; congruence|right].
    destruct (insert_all (additions a) _) as [e'|p'] eqn:Hi; [left; injection E as ->; by eapply insert_all_error|right].
    unfold encode in E. destruct (to_string _) as [v|]; [|left; congruence]. right. case_match eqn:Hlen; [|done].
    injection E as <-. exists (len v). split; [done|by apply Z.ltb_lt].
  - destruct (commit_spec a t value E) as (p & p' & Hp & Hd & Hc & Ha & He). exists p, p'. split_and!; try done.
    + unfold decode in Hd. case_match eqn:Hlen; [done|]. by apply Z.ltb_ge in Hlen.
    + intros w Hw. rewrite Ha. unfold merged_through. rewrite Hw. simpl. case_match; eauto with lia.
Qed.

Definition sample_action : MergeConsumedProofAction :=
  mkAction [mkEntry (lit "a.arrow") 7; mkEntry (lit "a.arrow") 5] (Some 6) [lit "b.arrow"].

Lemma consumed_proof_commit_exact_witness :
  match commit (H := sample_json) sample_action (mkTable [] None [mkSnapshot 9 (Some (lit "b.arrow,c.arrow"))]) with
  | inr value => ∃ p p', current_proof (H := sample_json) (mkTable [] None [mkSnapshot 9 (Some (lit "b.arrow,c.arrow"))]) = inr p ∧
      decode (H := sample_json) value = inr p' ∧ entry_time p' (lit "a.arrow") = Some 5 ∧ entry_time p' (lit "b.arrow") = None ∧
      entry_time p' (lit "c.arrow") = Some 9
  | inl _ => False
  end.
Proof.
  pose proof (@consumed_proof_commit_exact sample_json sample_json_laws sample_action
    (mkTable [] None [mkSnapshot 9 (Some (lit "b.arrow,c.arrow"))])) as Hc.
  destruct (commit sample_action _) as [e|value] eqn:E; [by vm_compute in E|].
  destruct Hc as (p & p' & Hp & Hd & _ & _ & _ & He). exists p, p'. rewrite !He.
  vm_compute in Hp. injection Hp as <-. by split_and!.
Defined.
