(* ===== verification/DrainCycle.v ===== *)
(** The catalog drain (loglake-compactor, [lib.rs]): one cycle claims sealed
    segments, fetches them from the mirror, appends each table's group in one
    Iceberg transaction and marks the claims committed; the reclaim pass settles
    the claims of dead workers by the tables' consumed proofs.

    The shared state is the catalog and, for each target, the generations of its
    Iceberg table, the newest first with the time each became current; [log]
    records what the appends published.  What the outside answers (object reads,
    namespace and index resolution, owner markers, the age of a cached table
    entry) is a function of time. *)

From stdpp Require Import prelude gmap strings sorting.
From Stdlib Require Import ZArith Lia.
From S2P Require Import Prelude RustStr BTree WalFrame ConsumedProof Eff Catalog.

(** * State *)

Inductive WalDirClaim := DirOwned (uuid : rstr) | DirOwnedStrict (uuid : rstr) | Unidentified | DirRefused.

Record World := mkWorld {
  (** [ensure_index] and [get_index] *)
  index_resolves : rstr → rstr → bool;
  (** [claim_mirrored_index]; [None] is its error. *)
  mirrored_index : rstr → rstr → option WalDirClaim;
  (** [store.read] *)
  object : rstr → option bytes;
  (** [map_carrier_batch_with_stats] and [concat_batches_unified] succeed. *)
  maps : Target → list rstr → bool;
  (** How many generations the cached table entry is behind, at most. *)
  cache_lag : Target → nat;
}.

Record Sys := mkSys {
  db : Db;
  tables : Target → list (Z * Table);
  log : list (Target * rstr);
  world : Z → World;
  (** [table_cache_ttl() * STALE_TABLE_CACHE_CEILING_MULT] *)
  cache_ceiling : Z;
}.

#[global] Instance sys_has_db : HasDb Sys :=
  {| get_db := db; set_db := λ d s, mkSys d (tables s) (log s) (world s) (cache_ceiling s) |}.

Definition set_table (g : Target) (now : Z) (t : Table) (ids : list rstr) (s : Sys) : Sys :=
  mkSys (db s) (λ h, if decide (h = g) then (now, t) :: tables s h else tables s h)
    (log s ++ ((λ i, (g, i)) <$> ids)) (world s) (cache_ceiling s).

Definition ask {B : Set} (f : World → B) : Eff Sys B := query Outside (λ now s, f (world s now)).

(** [load_table] *)
Definition live_table (g : Target) (s : Sys) : option Table := snd <$> head (tables s g).

(** [cached_table_entry]: an entry loaded at [oldest] or later holds a
    generation that was superseded, if at all, from then on. *)
Fixpoint generation (oldest : Z) (lag : nat) (h : list (Z * Table)) {struct h} : option Table :=
  match h with
  | [] => None
  | [(_, t)] => Some t
  | (since, t) :: h =>
      match lag with
      | O => Some t
      | S lag => if oldest <=? since then generation oldest lag h else Some t
      end
  end.

Definition cached_table (g : Target) (now : Z) (s : Sys) : option Table :=
  generation (now - cache_ceiling s) (cache_lag (world s now) g) (tables s g).

Definition DEFAULT_TENANT : rstr := lit "default".

(** [format!("{}.arrow", id)] *)
Definition arrow (i : rstr) : rstr := i ++ lit ".arrow".

(** [for_namespace]; the default tenant's is open. *)
Definition open_namespace (tenant : rstr) : Eff Sys (option unit) :=
  if decide (tenant = DEFAULT_TENANT) then Ret (Some tt) else catch (ask (λ _, tt)).

Definition group_of (c : ClaimedSegment) : Target := (tenant (claimed_seg c), index_id (claimed_seg c)).
Definition claimed_id (c : ClaimedSegment) : rstr := id (claimed_seg c).

(** * Consumed proofs *)

Section Proofs.
Context `{!ProofJson}.

(** [durable_consumed_proof] by a cached entry. *)
Definition read_durable_proof (g : Target) : Eff Sys ConsumedProofRead :=
  let* t := query ProofRead (cached_table g) in
  match t with Some t => Ret (durable_consumed_proof t) | None => Err end.

Record ReclaimProofSources := mkSources {
  durable : ConsumedProofRead;
  retained : list rstr;
  retained_history_floor_ms : option Z;
  sources_uuid : rstr;
}.

Definition sources_of (t : Table) : ReclaimProofSources :=
  mkSources (durable_consumed_proof t) (cumulative_consumed_segments t) (retained_history_floor t) (table_uuid t).

Definition reclaim_proof_sources (g : Target) : Eff Sys ReclaimProofSources :=
  let* t := query ProofRead (cached_table g) in
  match t with Some t => Ret (sources_of t) | None => Err end.

Definition catalog_id (property_id : rstr) : rstr := default property_id (strip_suffix property_id (lit ".arrow")).

Definition terminal_consumed_proof_entries (g : Target) : Eff Sys (list rstr) :=
  let* p := read_durable_proof g in
  match p with
  | Valid proof =>
      let ids := segment_id <$> entries proof in
      let* committed := committed_segment_ids g.1 g.2 (remove_dups (catalog_id <$> ids)) in
      Ret (remove_dups committed ≫= λ i, filter (λ p, catalog_id p = i) ids)
  | _ => Ret []
  end.

Definition watermark_for_incarnation (w : option ConsumedProofWatermark) (verified : option rstr) : option Z :=
  match w with
  | Some w => if bool_decide (watermark_uuid w = verified) then Some (watermark_ms w) else None
  | None => None
  end.

(** One target of [compact_acknowledged_proofs]; the metadata-only transaction
    appends no rows. *)
Definition compact_acknowledged_proof (g : Target) : Eff Sys bool :=
  let* w := consumed_proof_watermark g.1 g.2 in
  match w with
  | None => Ret false
  | Some w =>
      if bool_decide (g.2 ≠ [] ∧ watermark_uuid w = None) then Ret false else
      let* terminal := terminal_consumed_proof_entries g in
      let* r := stmt Append (λ now s,
        match live_table g s with
        | None => (None, s)
        | Some t =>
            match compact_consumed_proof_pruning (watermark_ms w) terminal (watermark_uuid w) t with
            | inl IncarnationMismatch => (Some false, s)
            | inl (ActionFailed _) => (None, s)
            | inr (did, t) => (Some did, if did then set_table g now t [] s else s)
            end
        end) in
      match r with Some did => Ret did | None => Err end
  end.
End Proofs.

(** * Snapshot expiry *)

(** The walk of [main]'s ancestry, which is the whole history of a table with
    no other ref: a snapshot stays while fewer than [min_to_keep] were kept or
    it is not older than [cutoff]. *)
Fixpoint retain_branch (min_to_keep cutoff kept_count : Z) (l : list Snapshot) : list Snapshot :=
  match l with
  | [] => []
  | sn :: l =>
      if (kept_count <? min_to_keep) || (cutoff <=? timestamp_ms sn)
      then sn :: retain_branch min_to_keep cutoff (kept_count + 1) l
      else retain_branch min_to_keep cutoff kept_count l
  end.

(** How many snapshots were planned for removal; the commit plans again on the
    table it is based on. *)
Definition expire_snapshots_inner (g : Target) (retain_last : Z) (older_than_ms : option Z) : Eff Sys Z :=
  let keep t := retain_branch (Z.max retain_last 1) (default i64_max older_than_ms) 0 (snapshots t) in
  let* t := query ProofRead (λ _, live_table g) in
  match t with
  | None => Err
  | Some t =>
      let n := len (snapshots t) - len (keep t) in
      if n =? 0 then Ret 0 else
      let* r := stmt Append (λ now s,
        match live_table g s with
        | None => (false, s)
        | Some t => (true, if len (keep t) =? len (snapshots t) then s
                           else set_table g now (mkTable (table_uuid t) (proof_property t) (keep t)) [] s)
        end) in
      if r : bool then Ret n else Err
  end.

(** * Reclaiming abandoned claims *)

Section Reclaim.
Context `{!ProofJson}.

(** An unreadable table is [None]. *)
Definition reclaim_proof_for (g : Target) : Eff Sys (option ReclaimProofSources) :=
  let* opens := open_namespace g.1 in
  match opens with Some _ => catch (reclaim_proof_sources g) | None => Ret None end.

Definition HISTORY_SKEW_MARGIN_MS : Z := 5000.

Definition proves_committed (proof : ReclaimProofSources) (i : rstr) : bool :=
  match durable proof with
  | Valid p => ConsumedProof.contains (arrow i) p || ConsumedProof.contains i p
  | _ => false
  end || bool_decide (arrow i ∈ retained proof) || bool_decide (i ∈ retained proof).

(** Absence from the proof is evidence about a claim of this time. *)
Definition covers (proof : ReclaimProofSources) (claimed_at : Z) : bool :=
  let durable_floor := match durable proof with Valid p => Some (default i64_min (coverage_start_ms p)) | _ => None end in
  let combined_floor :=
    match durable_floor, retained_history_floor_ms proof with
    | Some d, Some r => Some (Z.min d r)
    | Some d, None => Some d
    | None, r => r
    end in
  match combined_floor with
  | None => match durable proof with Absent => true | _ => false end
  | Some floor => Z.min (floor + HISTORY_SKEW_MARGIN_MS) i64_max <=? claimed_at
  end.

(** The key the proofs are kept by: [format!("{}/{}", tenant, index_id)]. *)
Definition proof_key (g : Target) : rstr := g.1 ++ lit "/" ++ g.2.

Record ReclaimState := mkReclaim {
  proofs : list (rstr * option ReclaimProofSources);
  to_commit : list rstr;
  to_requeue : list rstr;
  unprovable : Z;
  reclaim_provenance : gmap Target rstr;
}.

Definition dispose (c : ClaimedSegment) (proof : option ReclaimProofSources) (st : ReclaimState) : ReclaimState :=
  let i := claimed_id c in
  match proof with
  | None => mkReclaim (proofs st) (to_commit st) (to_requeue st ++ [i]) (unprovable st + 1) (reclaim_provenance st)
  | Some proof =>
      if proves_committed proof i then
        mkReclaim (proofs st) (to_commit st ++ [i]) (to_requeue st) (unprovable st)
          (record (group_of c).1 (group_of c).2 (sources_uuid proof) (reclaim_provenance st))
      else
        mkReclaim (proofs st) (to_commit st) (to_requeue st ++ [i])
          (if covers proof (claimed_at c) then unprovable st else unprovable st + 1) (reclaim_provenance st)
  end.

Definition known_proof (key : rstr) (st : ReclaimState) : option (option ReclaimProofSources) :=
  snd <$> head (filter (λ kp, kp.1 = key) (proofs st)).

Definition reclaim_one (st : ReclaimState) (c : ClaimedSegment) : Eff Sys ReclaimState :=
  let key := proof_key (group_of c) in
  match known_proof key st with
  | Some proof => Ret (dispose c proof st)
  | None =>
      let* proof := reclaim_proof_for (group_of c) in
      Ret (dispose c proof (mkReclaim ((key, proof) :: proofs st) (to_commit st) (to_requeue st) (unprovable st)
                              (reclaim_provenance st)))
  end.

(** How many rows were marked, requeued, and requeued without proof. *)
Definition reclaim_with_proof_older_than (max_age : Z) : Eff Sys (Z * Z * Z) :=
  let* abandoned := abandoned_claims max_age 1024 in
  if bool_decide (length abandoned = 0%nat) then Ret (0, 0, 0) else
  let* st := each reclaim_one abandoned (mkReclaim [] [] [] 0 ∅) in
  let* m := mark_reclaimed_committed (to_commit st) (reclaim_provenance st) in
  let* r := requeue_claims (to_requeue st) in
  Ret (m, r, unprovable st).
End Reclaim.

(** * The drain cycle *)

Record DrainConfig := mkDrain {
  claimer : rstr;
  dialect : Dialect;
  batch_size : Z;
  shard_index : Z;
  shard_count : Z;
  (** [CommitBatchPolicy]: target bytes and maximal age. *)
  commit_batch : option (Z * Z);
}.

Definition ready (policy : Z * Z) (bytes oldest_age : Z) : bool := (policy.1 <=? bytes) || (policy.2 <=? oldest_age).

Definition commit_deferred (policy : option (Z * Z)) (bytes oldest_age : Z) : bool :=
  match policy with
  | Some p => (0 <? bytes) && negb (ready p bytes oldest_age)
  | None => false
  end.

(** [by_group]: the targets in key order, each with its claims in claim order. *)
Definition target_le (g h : Target) : Prop := lex_lt g.1 h.1 ∨ g.1 = h.1 ∧ lex_le g.2 h.2.

#[global] Instance target_le_dec : RelDecision target_le.
Proof. unfold RelDecision, target_le. apply _. Defined.

Definition by_group (claimed : list ClaimedSegment) : list (Target * list ClaimedSegment) :=
  (λ g, (g, filter (λ c, group_of c = g) claimed)) <$> merge_sort target_le (remove_dups (group_of <$> claimed)).

Record CycleState := mkCycle {
  committed_ids : list rstr;
  released_ids : list rstr;
  provenance : gmap Target rstr;
}.

(** How a group leaves the loop: on to the next one, or [break 'outer]. *)
Inductive Flow := Continue (st : CycleState) | Break (st : CycleState).

Section Cycle.
Context `{!ProofJson} {batch : Type} `{!ArrowIpc batch} (uuid_string : bytes → rstr).
Context (cfg : DrainConfig).

Inductive SegmentFetch := Ready (bs : list batch) | RefusedSegment.

(** One segment's fetch-and-classify step, on the object's bytes. *)
Definition classify (owner : option rstr) (strict : bool) (body : option bytes) : option SegmentFetch :=
  match body with
  | None => None
  | Some body =>
      let refused :=
        match owner with
        | None => false
        | Some uuid =>
            match classify_segment_owner_bytes uuid_string body uuid with
            | Stale _ => true
            | Unmarked => strict
            | Owned => false
            end
        end in
      if refused then Some RefusedSegment else
      match read_segment_from_bytes body with inr bs => Some (Ready bs) | inl _ => None end
  end.

Record Fetched := mkFetched {
  batches : list batch;
  consumed : list ConsumedProofEntry;
  refused : list rstr;
  fetch_failed : bool;
}.

(** The loop over the fetched results, up to the first error. *)
Fixpoint gather (group : list ClaimedSegment) (results : list (option SegmentFetch)) (f : Fetched) : Fetched :=
  match group, results with
  | c :: group, Some (Ready bs) :: results =>
      gather group results
        (mkFetched (batches f ++ bs) (consumed f ++ [mkEntry (arrow (claimed_id c)) (claimed_at c)]) (refused f) false)
  | c :: group, Some RefusedSegment :: results =>
      gather group results (mkFetched (batches f) (consumed f) (refused f ++ [claimed_id c]) false)
  | _ :: _, None :: _ => mkFetched (batches f) (consumed f) (refused f) true
  | _, _ => f
  end.

Definition release_all (ids : list rstr) : Eff Sys unit :=
  each_ (λ i, let* _ := catch (release (claimer cfg) i) in Ret tt) ids.

(** How an append ends: [AppendIncarnationMismatch] is told from other errors. *)
Inductive Appended := AppendDone | AppendMismatch | AppendFailed.

Definition append_batches (g : Target) (used : list ConsumedProofEntry) (through : option Z)
    (terminal : list rstr) (expect : option rstr) : Eff Sys Appended :=
  stmt Append (λ now s,
    match live_table g s with
    | None => (AppendFailed, s)
    | Some t =>
        match append_with_consumed_proof now used through terminal expect t with
        | inl IncarnationMismatch => (AppendMismatch, s)
        | inl (ActionFailed _) => (AppendFailed, s)
        | inr t => (AppendDone, set_table g now t (segment_id <$> used) s)
        end
    end).

(** [commit_batches] by its effects: nothing for an empty batch list, else one
    append. *)
Definition commit_outcome (g : Target) (bs : list batch) (used : list ConsumedProofEntry) (through : option Z)
    (terminal : list rstr) (expect : option rstr) : Eff Sys Appended :=
  match bs with
  | [] => Ret AppendDone
  | _ =>
      let* ok := ask (λ w, maps w g (segment_id <$> used)) in
      if negb ok then Err else append_batches g used through terminal expect
  end.

Definition commit_batches (g : Target) (bs : list batch) (used : list ConsumedProofEntry) (through : option Z)
    (terminal : list rstr) (expect : option rstr) : Eff Sys unit :=
  let* r := commit_outcome g bs used through terminal expect in
  match r with AppendDone => Ret tt | _ => Err end.

(** Fetch, watermark, append: a group whose table is resolved. *)
Definition drain_resolved (g : Target) (group : list ClaimedSegment) (owner : option rstr) (strict : bool)
    (st : CycleState) : Eff Sys Flow :=
  let* bodies := each (λ acc c, let* b := catch (ask (λ w, object w (segment_url (claimed_seg c)))) in
                                Ret (acc ++ [default None b])) group [] in
  let f := gather group (classify owner strict <$> bodies) (mkFetched [] [] [] false) in
  let* _ := each_ (λ i, let* _ := catch (quarantine_terminal (claimer cfg) i) in Ret tt) (refused f) in
  let st := mkCycle (committed_ids st) (released_ids st ++ refused f) (provenance st) in
  let group := filter (λ c, claimed_id c ∉ refused f) group in
  if bool_decide (length group = 0%nat) then Ret (Continue st) else
  if fetch_failed f then Ret (Break st) else
  let* stored := consumed_proof_watermark g.1 g.2 in
  let* terminal := terminal_consumed_proof_entries g in
  let* r := catch (commit_batches g (batches f) (consumed f) (watermark_for_incarnation stored owner) terminal owner) in
  match r with
  | None => Ret (Break st)
  | Some _ =>
      Ret (Continue (mkCycle (committed_ids st ++ (claimed_id <$> group)) (released_ids st)
             (match owner with Some u => record g.1 g.2 u (provenance st) | None => provenance st end)))
  end.

(** An unresolved index or an unverified owner gives the group back. *)
Definition give_back (group : list ClaimedSegment) (st : CycleState) : Eff Sys Flow :=
  let* _ := release_all (claimed_id <$> group) in
  Ret (Continue (mkCycle (committed_ids st) (released_ids st ++ (claimed_id <$> group)) (provenance st))).

Definition drain_group (st : CycleState) (gg : Target * list ClaimedSegment) : Eff Sys Flow :=
  let '(g, group) := gg in
  let* opens := open_namespace g.1 in
  if bool_decide (opens = None) then Ret (Break st) else
  if decide (g.2 = []) then drain_resolved g group None false st else
  let* resolves := catch (ask (λ w, index_resolves w g.1 g.2)) in
  if negb (default false resolves) then give_back group st else
  let* claim := catch (ask (λ w, mirrored_index w g.1 g.2)) in
  match default None claim with
  | Some (DirOwned uuid) => drain_resolved g group (Some uuid) false st
  | Some (DirOwnedStrict uuid) => drain_resolved g group (Some uuid) true st
  | Some Unidentified => drain_resolved g group None false st
  | Some DirRefused | None => give_back group st
  end.

Fixpoint drain_groups (st : CycleState) (groups : list (Target * list ClaimedSegment)) : Eff Sys Flow :=
  match groups with
  | [] => Ret (Continue st)
  | gg :: groups =>
      let* r := drain_group st gg in
      match r with Continue st => drain_groups st groups | Break st => Ret (Break st) end
  end.

(** [run_once_catalog] from the queue peek on: the number of segments committed. *)
Definition drain_pass (locked : rstr → bool) : Eff Sys Z :=
  let* _ := catch quarantined_count in
  let* peeked := catch peek_pending in
  if match peeked with Some p => commit_deferred (commit_batch cfg) (pending_bytes p) (oldest_age p) | None => false end then Ret 0 else
  let* claimed := try_claim_sharded (claimer cfg) (dialect cfg) locked (batch_size cfg) (shard_index cfg) (shard_count cfg) in
  if bool_decide (length claimed = 0%nat) then Ret 0 else
  let* r := drain_groups (mkCycle [] [] ∅) (by_group claimed) in
  match r with
  | Break st =>
      let* _ := release_all (filter (λ i, i ∉ committed_ids st ∧ i ∉ released_ids st) (claimed_id <$> claimed)) in
      let* _ := catch (mark_committed_batch (claimer cfg) (committed_ids st) (provenance st)) in
      Err
  | Continue st =>
      let* _ := catch (mark_committed_batch (claimer cfg) (committed_ids st) (provenance st)) in
      Ret (len (committed_ids st))
  end.
End Cycle.
