(* ===== verification/DrainInv.v ===== *)
(** The invariant of the catalog drain: what the catalog's rows, the tables'
    consumed proofs and the log of appends say about each other, and what each
    process may do to the others' claims. *)

From stdpp Require Import prelude gmap strings sorting relations.
From Stdlib Require Import ZArith Lia.
From S2P Require Import Prelude RustStr BTree WalFrame ConsumedProof Eff RelyGuarantee Catalog CatalogInv DrainCycle.

(** * Times

    A drain cycle ends, or its process is dead, [work] after its start; a
    cached table entry is at most [stale] old; reclaim takes the claims that
    are older than [max_age].  [LOGLAKE_CLAIM_RECLAIM_MAX_AGE_SECS] has to be
    sized so that [work + stale <= max_age]. *)
Record Timing := mkTiming { work : Z; stale : Z; max_age : Z }.

Definition timing_ok (tm : Timing) : Prop := 0 ≤ work tm ∧ 0 ≤ stale tm ∧ work tm + stale tm ≤ max_age tm.

Inductive Actor := ADrain (claimer : rstr) (start : Z) | AReclaim | AOther.

(** Drains have claimer ids of their own; reclaim passes do not overlap. *)
Definition compat (a b : Actor) : Prop :=
  match a, b with
  | ADrain c _, ADrain c' _ => c ≠ c'
  | AReclaim, AReclaim => False
  | _, _ => True
  end.

Section Invariant.
Context {PJ : ProofJson} {PL : ProofJsonLaws} {batch : Type} `{!ArrowIpc batch} (tm : Timing).

Abbreviation St := (Z * Sys)%type (only parsing).

(** A drain's statements are in time; a read of the outside takes a tick of the
    clock; the answer of an Iceberg commit is not lost; the reclaim pass can
    read the tables. *)
Definition allowed (a : Actor) (prev now : Z) (l : Label) (o : Outcome) : Prop :=
  (∀ c start, a = ADrain c start → start ≤ now ≤ start + work tm) ∧
  (l = Outside → prev < now) ∧
  (l = Append → o ≠ Lost) ∧
  (a = AReclaim → l = ProofRead ∨ l = Outside → o = Done).

(** * Rows, proofs and the log *)

Definition rows (s : Sys) : list Row := wal_segments (db s).
Definition logged (s : Sys) (r : Row) : Prop := (target r, arrow (row_id r)) ∈ log s.

(** Segment ids are file stems; a tenant is a path component. *)
Definition name_ok (s : Segment) : Prop :=
  0x2C ∉ id s ∧ (∀ x, id s ≠ arrow x) ∧ 0x2F ∉ tenant s.

(** Generation [t] proves that the segment of [r] is consumed, with a time the
    settled watermarks cannot reach. *)
Definition proven_in (r : Row) (t : Table) : Prop :=
  ∃ value p τ, proof_property t = Some value ∧ decode value = inr p ∧
    entry_time p (arrow (row_id r)) = Some τ ∧ registered_at_ms r ≤ τ.

(** A logged row that is not committed is a claim in flight whose append is in
    every generation from its own on. *)
Definition in_flight (s : Sys) (r : Row) : Prop :=
  status r = Processing ∧
  ∃ newer gen older t, tables s (target r) = newer ++ gen :: older ∧
    row_claimed_at r = Some t ∧ gen.1 ≤ t + work tm ∧ Forall (λ g, proven_in r g.2) (gen :: newer).

Definition empty_segment (s : Sys) (r : Row) : Prop :=
  ∃ now body, object (world s now) (segment_url (seg r)) = Some body ∧ read_segment_from_bytes (batch := batch) body = inr [].

Definition row_times (clock : Z) (r : Row) : Prop :=
  0 ≤ registered_at_ms r ≤ clock ∧
  (∀ t, row_claimed_at r = Some t → registered_at_ms r ≤ t ≤ clock) ∧
  (status r = Committed → ∃ t, row_claimed_at r = Some t ∧ t < clock).

Record row_inv (clock : Z) (s : Sys) (r : Row) : Prop := {
  row_inv_ok : row_ok r;
  row_inv_name : name_ok (seg r);
  row_inv_times : row_times clock r;
  row_inv_logged : logged s r → status r ≠ Committed → in_flight s r;
  row_inv_committed : status r = Committed → logged s r ∨ empty_segment s r;
}.

(** A watermark that covers no claim that is still open, or to come. *)
Definition safe_mark (clock : Z) (s : Sys) (g : Target) (w : Z) : Prop :=
  w < clock ∧ ∀ r, r ∈ rows s → target r = g → status r ≠ Committed → w < registered_at_ms r.

(** What a table may claim. *)
Record table_inv (s : Sys) (g : Target) (t : Table) : Prop := {
  table_proof : ∃ p, current_proof t = inr p ∧ ∀ i τ, entry_time p i = Some τ → (g, i) ∈ log s;
  table_summaries : ∀ i, i ∈ cumulative_consumed_segments t → (g, i) ∈ log s;
}.

(** The newest generation's own watermark. *)
Definition head_marks (clock : Z) (s : Sys) : Prop :=
  ∀ g since t h p w, tables s g = (since, t) :: h → current_proof t = inr p →
    acknowledged_through_ms p = Some w → safe_mark clock s g w.

Record inv (x : St) : Prop := {
  inv_clock : 0 ≤ x.1;
  inv_ids : NoDup (row_id <$> rows x.2);
  inv_rows : ∀ r, r ∈ rows x.2 → row_inv x.1 x.2 r;
  inv_marks : ∀ g w, consumed_proof_watermarks (db x.2) !! g = Some w → safe_mark x.1 x.2 g (watermark_ms w);
  inv_tables : ∀ g t, t ∈ tables x.2 g → table_inv x.2 g t.2;
  inv_heads : head_marks x.1 x.2;
  inv_log_rows : ∀ g i, (g, i) ∈ log x.2 → ∃ r, r ∈ rows x.2 ∧ target r = g ∧ i = arrow (row_id r);
  inv_once : NoDup (log x.2);
  inv_ceiling : cache_ceiling x.2 = stale tm;
}.

(** * What a process does to the rows of others *)

Definition touch (a : Actor) (now : Z) (r : Row) : Prop :=
  match a with
  | ADrain c _ => row_claimer r = Some c ∧ ∀ t, row_claimed_at r = Some t → now ≤ t + work tm
  | AReclaim => ∀ t, row_claimed_at r = Some t → t + max_age tm < now
  | AOther => False
  end.

Record guar (a : Actor) (x y : St) : Prop := {
  guar_world : world y.2 = world x.2;
  guar_log : ∀ e, e ∈ log x.2 → e ∈ log y.2;
  guar_keep : ∀ r, r ∈ rows x.2 → ∃ r', r' ∈ rows y.2 ∧ seg r' = seg r;
  guar_claims : ∀ r, r ∈ rows x.2 → status r = Processing →
    r ∈ rows y.2 ∧ (logged y.2 r → logged x.2 r) ∨ touch a y.1 r;
  guar_committed : ∀ r, r ∈ rows x.2 → status r = Committed →
    ∃ r', r' ∈ rows y.2 ∧ seg r' = seg r ∧ status r' = Committed;
  guar_open : ∀ r', r' ∈ rows y.2 → status r' ≠ Committed →
    (∃ r, r ∈ rows x.2 ∧ seg r = seg r' ∧ registered_at_ms r = registered_at_ms r' ∧ status r ≠ Committed) ∨
    x.1 ≤ registered_at_ms r';
}.
(** * Statements that change nothing, or only the catalog *)

Lemma row_inv_mono clock now s r : clock ≤ now → row_inv clock s r → row_inv now s r.
Proof.
  intros Hle [Hok Hn (Hr & Ht & Hc) Hl Hcm]. constructor; try done. split_and!; [lia|lia| |].
  - intros t E. specialize (Ht t E). lia.
  - intros E. destruct (Hc E) as (t & ? & ?). exists t. split; [done|lia].
Qed.

Lemma row_inv_db clock d s r : row_inv clock s r → row_inv clock (set_db d s) r.
Proof. by intros []. Qed.

Lemma table_inv_db d s g t : table_inv s g t → table_inv (set_db d s) g t.
Proof. by intros []. Qed.

(** Open rows of [s'] were open in [s], or are newer than the mark. *)
Definition open_from (clock : Z) (s s' : Sys) : Prop :=
  ∀ r', r' ∈ rows s' → status r' ≠ Committed →
    (∃ r, r ∈ rows s ∧ seg r = seg r' ∧ registered_at_ms r = registered_at_ms r' ∧ status r ≠ Committed) ∨
    clock ≤ registered_at_ms r'.

Lemma seg_target r r' : seg r = seg r' → target r = target r'.
Proof. unfold target. by intros ->. Qed.

Lemma seg_id r r' : seg r = seg r' → row_id r = row_id r'.
Proof. unfold row_id. by intros ->. Qed.

Lemma safe_mark_step clock now s s' g w :
  safe_mark clock s g w → clock ≤ now → open_from clock s s' → safe_mark now s' g w.
Proof.
  intros [Hw Ho] Hle Hfrom. split; [lia|]. intros r' Hr' Hg Hs.
  destruct (Hfrom r' Hr' Hs) as [(r & Hr & Hseg & <- & Hst)|?]; [|lia]. apply Ho; [done| |done].
  by rewrite (seg_target r r' Hseg).
Qed.

Lemma open_from_refl clock s s' : rows s' = rows s → open_from clock s s'.
Proof. intros E r Hr Hs. left. exists r. by rewrite <- E. Qed.

(** The catalog changes: rows keep their identity, marks stay safe. *)
Lemma inv_db clock now d s :
  inv (clock, s) → clock ≤ now → NoDup (row_id <$> wal_segments d) →
  (∀ r, r ∈ wal_segments d → row_inv now s r) →
  open_from clock s (set_db d s) →
  (∀ r, r ∈ rows s → ∃ r', r' ∈ wal_segments d ∧ seg r' = seg r) →
  (∀ g w, consumed_proof_watermarks d !! g = Some w → safe_mark now (set_db d s) g (watermark_ms w)) →
  inv (now, set_db d s).
Proof.
  intros [Hc Hids Hrows Hm Ht Hh Hl Ho Hce] Hle Hnd Hnew Hfrom Hkeep Hmarks. simpl in *. constructor; simpl; try done.
  - lia.
  - intros r Hr. apply row_inv_db. auto.
  - intros g t Hin. apply table_inv_db. auto.
  - intros g since t h p w Hg Hp Hw. eapply safe_mark_step; [by eapply Hh|done|done].
  - intros g i Hi. destruct (Hl g i Hi) as (r & Hr & <- & ->). destruct (Hkeep r Hr) as (r' & Hr' & E).
    exists r'. rewrite (seg_target r' r E), (seg_id r' r E). done.
Qed.

Lemma inv_tick clock now s : inv (clock, s) → clock ≤ now → inv (now, s).
Proof.
  intros Hi Hle. pose proof Hi as [Hc Hids Hrows Hm Ht Hh Hl Ho Hce]. simpl in *. constructor; simpl; try done.
  - lia.
  - intros r Hr. eapply row_inv_mono; eauto.
  - intros g w Hg. eapply safe_mark_step; [by apply Hm|done|by apply open_from_refl].
  - intros g since t h p w Hg Hp Hw. eapply safe_mark_step; [by eapply Hh|done|by apply open_from_refl].
Qed.

Lemma guar_tick a clock now s : guar a (clock, s) (now, s).
Proof.
  constructor; simpl; try done.
  - intros r Hr. by exists r.
  - intros r Hr _. by left.
  - intros r Hr Hs. by exists r.
  - intros r Hr Hs. left. by exists r.
Qed.

(** An [UPDATE]. *)
Definition updated (cond : Row → bool) (set : Row → Row) (r : Row) : Row := if cond r then set r else r.

Lemma rows_update cond set (s : Sys) :
  wal_segments (update_where cond set (db s)).2 = updated cond set <$> rows s.
Proof. done. Qed.

(** What an [UPDATE] must respect on the rows it hits. *)
Definition good_update (a : Actor) (now : Z) (s : Sys) (cond : Row → bool) (set : Row → Row) : Prop :=
  ∀ r, r ∈ rows s → cond r = true →
    seg (set r) = seg r ∧ registered_at_ms (set r) = registered_at_ms r ∧ row_inv now s (set r) ∧
    status r ≠ Committed ∧ (status r = Processing → touch a now r).

Section Update.
Context (a : Actor) (clock now : Z) (s : Sys) (cond : Row → bool) (set : Row → Row).
Hypothesis (Hi : inv (clock, s)) (Hle : clock ≤ now) (Hgood : good_update a now s cond set).

Lemma updated_spec r :
  r ∈ rows s →
  seg (updated cond set r) = seg r ∧ registered_at_ms (updated cond set r) = registered_at_ms r ∧
  row_inv now s (updated cond set r) ∧ (status r = Committed → updated cond set r = r).
Proof.
  intros Hr. unfold updated. destruct (cond r) eqn:E.
  - destruct (Hgood r Hr E) as (? & ? & ? & ? & _). by split_and!.
  - split_and!; try done. eapply row_inv_mono; [exact Hle|]. by apply (inv_rows _ Hi).
Qed.

Lemma update_open_from d : wal_segments d = updated cond set <$> rows s → open_from clock s (set_db d s).
Proof.
  intros E r'. unfold rows at 1. simpl. rewrite E. intros (r & -> & Hr)%list_elem_of_fmap Hs. left. exists r.
  destruct (updated_spec r Hr) as (-> & -> & _ & Hc). split_and!; try done. intros Hst. apply Hs. by rewrite Hc.
Qed.

(** The marks may be advanced in the same transaction. *)
Lemma update_inv d :
  wal_segments d = updated cond set <$> rows s →
  (∀ g w, consumed_proof_watermarks d !! g = Some w → safe_mark now (set_db d s) g (watermark_ms w)) →
  inv (now, set_db d s).
Proof.
  intros E Hm. eapply inv_db; try done.
  - rewrite E, <- list_fmap_compose. erewrite Forall_fmap_ext_1; [apply (inv_ids _ Hi)|].
    apply Forall_forall. intros r Hr. apply seg_id. by apply updated_spec.
  - rewrite E. intros r' (r & -> & Hr)%list_elem_of_fmap. by apply updated_spec.
  - by apply update_open_from.
  - intros r Hr. exists (updated cond set r). rewrite E. split; [by apply list_elem_of_fmap_2|by apply updated_spec].
Qed.

Lemma update_guar d : wal_segments d = updated cond set <$> rows s → guar a (clock, s) (now, set_db d s).
Proof.
  intros E. constructor; simpl; try done.
  - intros r Hr. exists (updated cond set r). unfold rows. simpl. rewrite E.
    split; [by apply list_elem_of_fmap_2|by apply updated_spec].
  - intros r Hr Hs. unfold rows. simpl. rewrite E. destruct (cond r) eqn:Ec.
    + right. by apply Hgood.
    + left. split; [|done]. replace r with (updated cond set r) by (unfold updated; by rewrite Ec).
      by apply list_elem_of_fmap_2.
  - intros r Hr Hs. exists r. unfold rows. simpl. rewrite E. split; [|done].
    destruct (updated_spec r Hr) as (_ & _ & _ & Hc). rewrite <- (Hc Hs) at 1. by apply list_elem_of_fmap_2.
  - by apply update_open_from.
Qed.

Lemma update_marks g w :
  consumed_proof_watermarks (db s) !! g = Some w →
  ∀ d, wal_segments d = updated cond set <$> rows s → safe_mark now (set_db d s) g (watermark_ms w).
Proof. intros Hg d E. eapply safe_mark_step; [by apply (inv_marks _ Hi)|done|by apply update_open_from]. Qed.
End Update.

(** * Registration *)

Lemma inv_register clock now s sg :
  inv (clock, s) → clock ≤ now → name_ok sg → id sg ∉ row_id <$> rows s →
  let d := set_rows (rows s ++ [mkRow sg Sealed 0 None None None None now]) (db s) in
  inv (now, set_db d s) ∧ guar AOther (clock, s) (now, set_db d s).
Proof.
  intros Hi Hle Hname Hid d. set (r0 := mkRow sg Sealed 0 None None None None now).
  assert (∀ r, r ∈ rows (set_db d s) → r ∈ rows s ∨ r = r0) as Hin.
  { intros r [?|?%list_elem_of_singleton]%elem_of_app; auto. }
  assert (open_from clock s (set_db d s)) as Hfrom.
  { intros r [Hr| ->]%Hin Hs; [left; by exists r|]. right. simpl. lia. }
  split.
  - eapply inv_db; try done.
    + simpl. rewrite fmap_app. apply NoDup_app. split_and!; [apply (inv_ids _ Hi)| |apply NoDup_singleton]. simpl. set_solver.
    + intros r [Hr| ->]%Hin; [eapply row_inv_mono; [exact Hle|]; by apply (inv_rows _ Hi)|].
      pose proof (inv_clock _ Hi). simpl in *. constructor; simpl; try done.
      * split_and!; simpl; [lia|lia|done|done].
      * intros Hl. destruct (inv_log_rows _ Hi _ _ Hl) as (r & Hr & _ & E). exfalso. apply Hid.
        apply list_elem_of_fmap. exists r. split; [|done]. unfold arrow, row_id in E. simpl in E.
        by apply app_inj_2 in E as [-> _].
    + intros r Hr. exists r. split; [|done]. apply elem_of_app. by left.
    + intros g w Hg. eapply safe_mark_step; [by apply (inv_marks _ Hi)|done|done].
  - constructor; simpl; try done.
    + intros r Hr. exists r. split; [|done]. apply elem_of_app. by left.
    + intros r Hr _. left. split; [|done]. apply elem_of_app. by left.
    + intros r Hr Hs. exists r. split; [|done]. apply elem_of_app. by left.
Qed.

(** * Advancing a watermark *)

Lemma safe_mark_rows now s s' g w : rows s' = rows s → safe_mark now s g w → safe_mark now s' g w.
Proof. unfold safe_mark. by intros ->. Qed.

Lemma watermark_candidate_safe now s g w :
  0 ≤ now → (∀ r, r ∈ rows s → row_times now r) →
  watermark_candidate g (rows s) = Some w → safe_mark now s g w.
Proof.
  intros Hnow Htimes. unfold watermark_candidate.
  set (here := filter (λ r, target r = g) (rows s)).
  destruct (min_opt _) as [m|] eqn:E.
  - intros [= <-]. apply min_opt_Some in E as [(r & -> & [Hs [Hg Hr]%list_elem_of_filter]%list_elem_of_filter)%list_elem_of_fmap Hmin].
    destruct (Htimes r Hr) as ((Hr0 & Hrn) & _). unfold i64_min.
    split; [lia|]. intros r' Hr' Hg' Hs'. enough (registered_at_ms r ≤ registered_at_ms r').
    { destruct (Htimes r' Hr') as ((? & ?) & _). lia. }
    apply Hmin. apply list_elem_of_fmap_2. apply list_elem_of_filter. split; [done|]. by apply list_elem_of_filter.
  - apply min_opt_None in E. intros Hmax.
    assert (∀ r, r ∈ rows s → target r = g → status r = Committed) as Hall.
    { intros r Hr Hg. destruct (decide (status r = Committed)); [done|]. exfalso.
      assert (registered_at_ms r ∈ registered_at_ms <$> filter (λ r, status r ≠ Committed) here) as Hin.
      { apply list_elem_of_fmap_2. apply list_elem_of_filter. split; [done|]. by apply list_elem_of_filter. }
      rewrite E in Hin. by apply elem_of_nil in Hin. }
    apply max_opt_Some in Hmax as (r & -> & [Hs [Hg Hr]%list_elem_of_filter]%list_elem_of_filter)%list_elem_of_fmap.
    destruct (Htimes r Hr) as (_ & _ & Hc). destruct (Hc Hs) as (t & Ht & Hlt). split.
    + unfold terminal_time. by rewrite Ht.
    + intros r' Hr' Hg' []. auto.
Qed.

Lemma advance_marks now s g u d :
  0 ≤ now → (∀ r, r ∈ wal_segments d → row_times now r) →
  (∀ g w, consumed_proof_watermarks d !! g = Some w → safe_mark now (set_db d s) g (watermark_ms w)) →
  let d' := advance_consumed_proof_watermark_in g u d in
  ∀ g w, consumed_proof_watermarks d' !! g = Some w → safe_mark now (set_db d' s) g (watermark_ms w).
Proof.
  intros Hnow Htimes Hm d' h w Hw. apply (safe_mark_rows now (set_db d s)); [apply advance_rows|].
  revert Hw. unfold d', advance_consumed_proof_watermark_in.
  destruct (watermark_candidate g (wal_segments d)) as [cand|] eqn:E; [|by apply Hm].
  assert (safe_mark now (set_db d s) g cand) as Hcand by (by apply watermark_candidate_safe).
  assert (∀ v, watermark_ms v = cand → (<[g:=v]> (consumed_proof_watermarks d)) !! h = Some w →
            safe_mark now (set_db d s) h (watermark_ms w)) as Hins.
  { intros v Hv. destruct (decide (h = g)) as [->|Hne].
    - rewrite lookup_insert_eq. intros [= <-]. by rewrite Hv.
    - rewrite lookup_insert_ne by done. apply Hm. }
  repeat case_match; simpl; (by apply Hm) || (by eapply Hins).
Qed.

Lemma advance_all_marks now s p gs d :
  0 ≤ now → (∀ r, r ∈ wal_segments d → row_times now r) →
  (∀ g w, consumed_proof_watermarks d !! g = Some w → safe_mark now (set_db d s) g (watermark_ms w)) →
  let d' := advance_all p gs d in
  ∀ g w, consumed_proof_watermarks d' !! g = Some w → safe_mark now (set_db d' s) g (watermark_ms w).
Proof.
  intros Hnow. revert d. induction gs as [|g gs IH]; intros d Htimes Hm; simpl; [done|].
  apply IH; [by rewrite advance_rows|]. by apply advance_marks.
Qed.

(** A marking transaction: an [UPDATE] and the watermarks it advances. *)
Lemma mark_inv a clock now s cond set p gs :
  inv (clock, s) → clock ≤ now → good_update a now s cond set →
  let d := advance_all p gs (update_where cond set (db s)).2 in
  inv (now, set_db d s) ∧ guar a (clock, s) (now, set_db d s).
Proof.
  intros Hi Hle Hg d. assert (wal_segments d = updated cond set <$> rows s) as E by apply advance_all_rows.
  split; [|by apply (update_guar a clock now s cond set)].
  apply (update_inv a clock now s cond set); try done. apply advance_all_marks.
  - pose proof (inv_clock _ Hi). simpl in *. lia.
  - intros r' (r & -> & Hr)%list_elem_of_fmap. eapply row_inv_times, (updated_spec a clock now s cond set Hi Hle Hg), Hr.
  - intros g w Hw. by apply (update_marks a clock now s cond set).
Qed.
(** * A new generation of a table *)

Lemma same_id x r r' : inv x → r ∈ rows x.2 → r' ∈ rows x.2 → arrow (row_id r) = arrow (row_id r') → r = r'.
Proof. intros Hi Hr Hr' E. apply app_inj_2 in E as [E _]; [|done]. eapply same_row; eauto using inv_ids. Qed.

(** The transaction's action and the table it leaves. *)
Record good_commit (now : Z) (s : Sys) (g : Target) (t : Table) (a : MergeConsumedProofAction) (t' : Table) : Prop := {
  commit_live : live_table g s = Some t;
  commit_value : ∃ value, commit a t = inr value ∧ proof_property t' = Some value;
  commit_summaries : ∀ i, i ∈ cumulative_consumed_segments t' →
    i ∈ cumulative_consumed_segments t ∨ i ∈ segment_id <$> additions a;
  commit_through : ∀ w, action_through_ms a = Some w → safe_mark now s g w;
  commit_terminal : ∀ r, r ∈ rows s → target r = g → arrow (row_id r) ∈ terminal_segment_ids a → status r = Committed;
  commit_nodup : NoDup (segment_id <$> additions a);
  commit_claims : ∀ e, e ∈ additions a → ∃ r, r ∈ rows s ∧ target r = g ∧ segment_id e = arrow (row_id r) ∧
    status r = Processing ∧ row_claimed_at r = Some (claimed_at_ms e) ∧ now ≤ claimed_at_ms e + work tm ∧ ¬ logged s r;
}.

Section Commit.
Context (clock now : Z) (s : Sys) (g : Target) (t : Table) (a : MergeConsumedProofAction) (t' : Table).
Hypothesis (Hi : inv (clock, s)) (Hle : clock ≤ now) (Hc : good_commit now s g t a t').

Local Abbreviation s' := (set_table g now t' (segment_id <$> additions a) s).

Lemma live_history : ∃ since h, tables s g = (since, t) :: h.
Proof.
  pose proof (commit_live _ _ _ _ _ _ Hc) as Hl. unfold live_table in Hl.
  destruct (tables s g) as [|[since u] h]; [done|]. injection Hl as ->. eauto.
Qed.

(** The proofs before and after. *)
Lemma commit_proofs : ∃ value p p',
  proof_property t' = Some value ∧ current_proof t = inr p ∧ decode value = inr p' ∧
  acknowledged_through_ms p' = merged_through a p ∧ (∀ i, entry_time p' i = merged_time a p i) ∧
  (∀ w, acknowledged_through_ms p = Some w → safe_mark now s g w) ∧
  (∀ i τ, entry_time p i = Some τ → (g, i) ∈ log s).
Proof.
  destruct (commit_value _ _ _ _ _ _ Hc) as (value & Hv & Hp). destruct (commit_spec _ _ _ Hv) as (p & p' & Hcur & Hd & _ & Ha & He).
  exists value, p, p'. destruct live_history as (since & h & Hh). split_and!; try done.
  - intros w Hw. eapply safe_mark_step; [by eapply (inv_heads _ Hi)|done|by apply open_from_refl].
  - assert ((since, t) ∈ tables s g) as Hin by (rewrite Hh; left).
    destruct (inv_tables _ Hi g (since, t) Hin) as [(p0 & Hp0 & Hs) _]. simpl in *.
    by assert (p0 = p) as -> by congruence.
Qed.

Lemma logged_cases r : logged s' r → logged s r ∨ target r = g ∧ arrow (row_id r) ∈ segment_id <$> additions a.
Proof.
  unfold logged. simpl. intros [?|(i & E & ?)%list_elem_of_fmap]%elem_of_app; [by left|]. right. by simplify_eq.
Qed.

(** The proof of an open segment outlives the commit. *)
Lemma proven_kept r :
  r ∈ rows s → target r = g → status r ≠ Committed → logged s r → proven_in r t → proven_in r t'.
Proof.
  intros Hr Hg Hs Hl (value0 & p0 & τ & Hv0 & Hd0 & Hτ & Hreg).
  destruct commit_proofs as (value & p & p' & Hv & Hp & Hd & _ & He & Hack & _).
  assert (p0 = p) as -> by (unfold current_proof in Hp; rewrite Hv0 in Hp; congruence).
  exists value, p', τ. split_and!; try done. rewrite He. unfold merged_time. rewrite Hτ. simpl.
  rewrite decide_False by (intros Hin; apply Hs; by apply (commit_terminal _ _ _ _ _ _ Hc)).
  rewrite added_time_None.
  - destruct (action_through_ms a) as [w|] eqn:Ew; [|done]. rewrite decide_True; [done|].
    destruct (commit_through _ _ _ _ _ _ Hc w Ew) as [_ Hw]. specialize (Hw r Hr Hg Hs).
    destruct (acknowledged_through_ms p) as [v|] eqn:Ev; simpl; [|lia].
    destruct (Hack v eq_refl) as [_ Hv']. specialize (Hv' r Hr Hg Hs). lia.
  - intros (e & E & He')%list_elem_of_fmap. destruct (commit_claims _ _ _ _ _ _ Hc e He') as (r' & Hr' & _ & E' & _ & _ & _ & Hnl).
    apply Hnl. by rewrite <- (same_id (clock, s) r r' Hi Hr Hr') by congruence.
Qed.

(** An added segment is proven from this generation on. *)
Lemma proven_added r :
  r ∈ rows s → target r = g → arrow (row_id r) ∈ segment_id <$> additions a →
  status r = Processing ∧ proven_in r t' ∧ ∃ c, row_claimed_at r = Some c ∧ now ≤ c + work tm.
Proof.
  intros Hr Hg (e & E & He)%list_elem_of_fmap.
  destruct (commit_claims _ _ _ _ _ _ Hc e He) as (r' & Hr' & _ & E' & Hs & Ht & Hw & Hnl).
  assert (r' = r) as -> by (apply (same_id (clock, s)); simpl; congruence).
  destruct commit_proofs as (value & p & p' & Hv & Hp & Hd & _ & Het & _ & Hsound).
  split_and!; [done| |eauto]. exists value, p', (claimed_at_ms e). split_and!; try done.
  - rewrite Het. unfold merged_time. destruct (entry_time p (arrow (row_id r))) as [τ|] eqn:Eτ.
    + exfalso. apply Hnl. unfold logged. rewrite Hg. by eapply Hsound.
    + simpl. rewrite E, added_time_elem; [done| |done]. apply (commit_nodup _ _ _ _ _ _ Hc).
  - destruct (inv_rows _ Hi r Hr) as [_ _ (_ & Htm & _) _ _]. by apply Htm.
Qed.

Lemma tables_other h : h ≠ g → tables s' h = tables s h.
Proof. intros. simpl. by rewrite decide_False. Qed.

Lemma tables_self : tables s' g = (now, t') :: tables s g.
Proof. simpl. by rewrite decide_True. Qed.

Lemma commit_row_inv r : r ∈ rows s → row_inv now s' r.
Proof.
  intros Hr. destruct (row_inv_mono clock now s r Hle (inv_rows _ Hi r Hr)) as [Hok Hn Ht Hl Hcm]. constructor; try done.
  - intros [Hlog|[Hg Hadd]]%logged_cases Hs.
    + destruct (Hl Hlog Hs) as (Hp & newer & gen & older & c & Hh & Hclaim & Htime & Hall). split; [done|].
      destruct (decide (target r = g)) as [Hg|Hg].
      * exists ((now, t') :: newer), gen, older, c. rewrite Hg in *. rewrite tables_self, Hh. split_and!; try done.
        rewrite !Forall_cons in *. destruct Hall. split_and!; try done. simpl. apply proven_kept; try done.
        destruct live_history as (since & h & Hlive). rewrite Hh in Hlive.
        destruct newer as [|n newer]; simplify_eq/=; [done|]. by match goal with H : Forall _ (_ :: _) |- _ => inversion H end.
      * exists newer, gen, older, c. by rewrite tables_other.
    + destruct (proven_added r Hr Hg Hadd) as (Hp & Hproven & c & Hclaim & Hwork). split; [done|].
      exists [], (now, t'), (tables s g), c. rewrite Hg, tables_self. split_and!; try done. by repeat constructor.
  - intros Hs. destruct (Hcm Hs) as [?|?]; [left|by right]. unfold logged. simpl. apply elem_of_app. by left.
Qed.

Lemma commit_table_inv h u : u ∈ tables s' h → table_inv s' h u.2.
Proof.
  assert (∀ u, table_inv s h u → table_inv s' h u) as Hold.
  { intros v [(p & Hp & Hs) Hsum]. constructor.
    - exists p. split; [done|]. intros i τ Hi'. simpl. apply elem_of_app. left. by eapply Hs.
    - intros i Hi'. simpl. apply elem_of_app. left. by apply Hsum. }
  destruct (decide (h = g)) as [->|Hne]; [|rewrite tables_other by done; intros Hu; by apply Hold, (inv_tables _ Hi)].
  rewrite tables_self. intros [->|Hu]%elem_of_cons; [|by apply Hold, (inv_tables _ Hi)]. simpl.
  destruct commit_proofs as (value & p & p' & Hv & Hp & Hd & _ & Het & _ & Hsound). constructor.
  - exists p'. split; [unfold current_proof; by rewrite Hv|]. intros i τ. rewrite Het. intros Hm. simpl. apply elem_of_app.
    destruct (decide (i ∈ segment_id <$> additions a)) as [|Hni]; [right; by apply list_elem_of_fmap_2|left].
    unfold merged_time in Hm. rewrite added_time_None in Hm by done.
    destruct (entry_time p i) as [τ0|] eqn:E; [by eapply Hsound|]. done.
  - intros i Hin. simpl. apply elem_of_app. destruct (commit_summaries _ _ _ _ _ _ Hc i Hin) as [Hin'|?].
    + left. destruct live_history as (since & hist & Hh). assert ((since, t) ∈ tables s g) as Hlive by (rewrite Hh; left).
      by apply (table_summaries _ _ _ (inv_tables _ Hi g _ Hlive)).
    + right. by apply list_elem_of_fmap_2.
Qed.

Lemma commit_head_marks : head_marks now s'.
Proof.
  intros h since u hist p w. destruct (decide (h = g)) as [->|Hne].
  - rewrite tables_self. intros [= <- <- <-] Hp Hw.
    destruct commit_proofs as (value & q & q' & Hv & Hq & Hd & Ha & _ & Hack & _).
    unfold current_proof in Hp. rewrite Hv in Hp. assert (p = q') as -> by congruence. rewrite Ha in Hw.
    unfold merged_through in Hw. destruct (action_through_ms a) as [v|] eqn:Ev; [|by apply Hack].
    pose proof (commit_through _ _ _ _ _ _ Hc v Ev) as Hmark. injection Hw as <-.
    destruct (acknowledged_through_ms q) as [v'|]; simpl; [|by rewrite Z.max_id].
    specialize (Hack v' eq_refl). by destruct (Z.max_spec v' v) as [[_ ->]|[_ ->]].
  - rewrite tables_other by done. intros Hh Hp Hw.
    eapply (safe_mark_step clock now s); [by eapply (inv_heads _ Hi)|done|by apply open_from_refl].
Qed.

Lemma commit_inv : inv (now, s').
Proof.
  constructor; simpl; try apply Hi.
  - pose proof (inv_clock _ Hi). simpl in *. lia.
  - apply commit_row_inv.
  - intros h w Hw. eapply (safe_mark_step clock now s); [by apply (inv_marks _ Hi)|done|by apply open_from_refl].
  - intros h u. apply commit_table_inv.
  - apply commit_head_marks.
  - intros h i [Hl|(j & E & (e & -> & He)%list_elem_of_fmap)%list_elem_of_fmap]%elem_of_app; [by apply (inv_log_rows _ Hi)|].
    simplify_eq. destruct (commit_claims _ _ _ _ _ _ Hc e He) as (r & ? & ? & ? & _). by exists r.
  - apply NoDup_app. split_and!; [apply (inv_once _ Hi)| |].
    + intros [h i] Hl (j & E & (e & -> & He)%list_elem_of_fmap)%list_elem_of_fmap. simplify_eq.
      destruct (commit_claims _ _ _ _ _ _ Hc e He) as (r & ? & Hg & E & _ & _ & _ & []). unfold logged. by rewrite Hg, <- E.
    + apply NoDup_fmap_2; [by intros ?? [=]|]. apply (commit_nodup _ _ _ _ _ _ Hc).
Qed.

Lemma commit_guar act :
  (∀ r, r ∈ rows s → status r = Processing → target r = g → arrow (row_id r) ∈ segment_id <$> additions a → touch act now r) →
  guar act (clock, s) (now, s').
Proof.
  intros Htouch. constructor; simpl; try done.
  - intros e He. apply elem_of_app. by left.
  - intros r Hr. by exists r.
  - intros r Hr Hs. destruct (decide (target r = g ∧ arrow (row_id r) ∈ segment_id <$> additions a)) as [[??]|Hn].
    + right. by apply Htouch.
    + left. split; [done|]. by intros [?|?]%logged_cases.
  - intros r Hr Hs. by exists r.
  - intros r Hr Hs. left. by exists r.
Qed.
End Commit.

(** * The two transactions *)

Lemma arrow_ne i : arrow i ≠ [].
Proof. unfold arrow. by destruct i. Qed.

Lemma arrow_comma_free i : 0x2C ∉ i → 0x2C ∉ arrow i.
Proof. intros Hi. unfold arrow. rewrite not_elem_of_app. split; [done|]. by apply (bool_decide_eq_false_1 (0x2C ∈ lit ".arrow")). Qed.

Lemma append_good now s g t used through terminal expect t' :
  append_with_consumed_proof now used through terminal expect t = inr t' →
  live_table g s = Some t →
  (∀ r, r ∈ rows s → name_ok (seg r)) →
  (∀ w, through = Some w → safe_mark now s g w) →
  (∀ r, r ∈ rows s → target r = g → arrow (row_id r) ∈ terminal → status r = Committed) →
  NoDup (segment_id <$> used) →
  (∀ e, e ∈ used → ∃ r, r ∈ rows s ∧ target r = g ∧ segment_id e = arrow (row_id r) ∧
    status r = Processing ∧ row_claimed_at r = Some (claimed_at_ms e) ∧ now ≤ claimed_at_ms e + work tm ∧ ¬ logged s r) →
  good_commit now s g t (mkAction used through terminal) t'.
Proof.
  unfold append_with_consumed_proof. case_match; [done|].
  destruct (commit _ t) as [|value] eqn:Hv; [done|]. intros [= <-] Hlive Hnames Hthrough Hterm Hnd Hclaims.
  constructor; simpl; try done; [by exists value|].
  intros i [Hi|Hi]%elem_of_app; [right|by left]. unfold consumed_by in Hi. simpl in Hi.
  case_bool_decide; [by apply elem_of_nil in Hi|]. rewrite split_join in Hi; [done|].
  rewrite Forall_fmap. apply Forall_forall. intros e He. destruct (Hclaims e He) as (r & Hr & _ & E & _). simpl. rewrite E.
  split; [apply arrow_ne|]. apply arrow_comma_free. by destruct (Hnames r Hr).
Qed.

Lemma compact_good now s g t through terminal expect t' :
  compact_consumed_proof_pruning through terminal expect t = inr (true, t') →
  live_table g s = Some t → safe_mark now s g through →
  (∀ r, r ∈ rows s → target r = g → arrow (row_id r) ∈ terminal → status r = Committed) →
  good_commit now s g t (mkAction [] (Some through) terminal) t'.
Proof.
  unfold compact_consumed_proof_pruning. case_match; [done|]. case_match; [done|].
  destruct (commit _ t) as [|value] eqn:Hv; [done|]. intros [= <-] Hlive Hmark Hterm.
  constructor; simpl; try done; [by exists value|by left|by intros w [= <-]|apply NoDup_nil_2|].
  by intros e ?%elem_of_nil.
Qed.

(** * What a reclaim pass reads *)

Lemma split_order {A} (l1 k1 : list A) x y l2 k2 : l1 ++ x :: l2 = k1 ++ y :: k2 → x ∈ y :: k1 ∨ y ∈ l1.
Proof.
  revert k1. induction l1 as [|z l1 IH]; intros [|u k1]; simpl; intros E; simplify_eq.
  - left. left.
  - left. right. left.
  - right. left.
  - destruct (IH k1) as [|]; [done|left; set_solver|right; by right].
Qed.

Lemma generation_spec oldest lag h t :
  generation oldest lag h = Some t →
  ∃ newer since older, h = newer ++ (since, t) :: older ∧ Forall (λ g, oldest ≤ g.1) newer.
Proof.
  revert lag. induction h as [|[since u] h IH]; intros lag; simpl; [done|]. destruct h as [|v h].
  - intros [= <-]. by exists [], since, [].
  - destruct lag as [|lag]; [intros [= <-]; by exists [], since, (v :: h)|].
    destruct (Z.leb_spec oldest since) as [Hle|Hlt]; [|intros [= <-]; by exists [], since, (v :: h)].
    intros (newer & since' & older & E & Hall)%IH. exists ((since, u) :: newer), since', older.
    split; [by rewrite E|]. by constructor.
Qed.

Lemma generation_None oldest lag h : generation oldest lag h = None → h = [].
Proof.
  revert lag. induction h as [|[since u] h IH]; intros lag; simpl; [done|]. destruct h as [|v h]; [done|].
  destruct lag; [done|]. case_match; [|done]. intros E%IH. done.
Qed.

(** A generation read for an old claim proves its append, if there was one. *)
Lemma read_proves clock now s g t r c :
  inv (clock, s) → timing_ok tm → cached_table g now s = Some t →
  r ∈ rows s → target r = g → status r ≠ Committed → row_claimed_at r = Some c → c + max_age tm < now →
  logged s r → proven_in r t.
Proof.
  intros Hi (Hw & Hst & Hma) Hcached Hr Hg Hs Hc Hold Hl.
  destruct (row_inv_logged _ _ _ (inv_rows _ Hi r Hr) Hl Hs) as (_ & newer' & gen & older' & c' & Hh & Hc' & Htime & Hall).
  simplify_eq. pose proof (inv_ceiling _ Hi) as Hceil. simpl in Hceil. unfold cached_table in Hcached. rewrite Hceil in Hcached.
  destruct (generation_spec _ _ _ _ Hcached) as (newer & since & older & Hh' & Hnewer). simpl in Hh. rewrite Hh in Hh'.
  symmetry in Hh'. destruct (split_order _ _ _ _ _ _ Hh') as [Hin|Hin].
  - rewrite Forall_forall in Hall. by apply (Hall (since, t)).
  - rewrite Forall_forall in Hnewer. specialize (Hnewer gen Hin). simpl in Hnewer. lia.
Qed.

(** ... and proves nothing that is not in the log. *)
Lemma read_sound clock now s g t i :
  inv (clock, s) → cached_table g now s = Some t → (∀ x, i ≠ arrow x) → proves_committed (sources_of t) i = true →
  (g, arrow i) ∈ log s.
Proof.
  intros Hi Hcached Hnot. destruct (generation_spec _ _ _ _ Hcached) as (newer & since & older & Hh & _).
  assert ((since, t) ∈ tables s g) as Hin by (rewrite Hh; set_solver).
  destruct (inv_tables _ Hi g _ Hin) as [(p & Hp & Hsound) Hsum]. simpl in *.
  assert (∀ j, (g, j) ∈ log s → j = arrow i ∨ j = i → (g, arrow i) ∈ log s) as Hlog.
  { intros j Hj [->| ->]; [done|]. destruct (inv_log_rows _ Hi _ _ Hj) as (r & _ & _ & E). by destruct (Hnot (row_id r)). }
  unfold proves_committed. simpl. rewrite !orb_true_iff, !bool_decide_eq_true. intros [[Hd|Hd]|Hd]; [|by eauto..].
  unfold durable_consumed_proof, proof_from_table in Hd. unfold current_proof in Hp.
  destruct (proof_property t) as [value|]; [|done]. rewrite Hp in Hd. simpl in Hd.
  apply orb_true_iff in Hd as [[τ Hτ]%contains_time|[τ Hτ]%contains_time]; eauto.
Qed.
End Invariant.
