(* ===== verification/DrainSafe.v ===== *)
(** A drain cycle among others: what it knows of its claims between two
    statements, and that each of its statements keeps the invariant. *)

From stdpp Require Import prelude gmap strings sorting relations.
From Stdlib Require Import ZArith Lia.
From S2P Require Import Prelude RustStr BTree WalFrame ConsumedProof Eff RelyGuarantee Catalog CatalogInv DrainCycle DrainInv.

Section Safe.
Context {PJ : ProofJson} {PL : ProofJsonLaws} {batch : Type} `{!ArrowIpc batch} (tm : Timing) (Htm : timing_ok tm).

Abbreviation St := (Z * Sys)%type (only parsing).
Local Abbreviation inv := (DrainInv.inv (batch := batch) tm).
Local Abbreviation guar := (DrainInv.guar tm).
Local Abbreviation rely := (RelyGuarantee.rely inv compat guar).
Local Abbreviation safe := (RelyGuarantee.safe inv (allowed tm) compat guar).

(** * Reads and failed statements *)

Lemma safe_query a l {B : Set} (f : Z → Sys → B) Q (x : St) :
  (∀ clock s now, rely a x (clock, s) → inv (clock, s) → clock ≤ now → allowed tm a clock now l Done →
     Q (Some (f now s)) (now, s)) →
  (∀ clock s now o, rely a x (clock, s) → inv (clock, s) → clock ≤ now → allowed tm a clock now l o → o ≠ Done →
     Q None (now, s)) →
  safe a (query l f) Q x.
Proof.
  intros Hdone Hfail. apply safe_stmt. intros [clock s] Hr Hi now o Hle Ha. simpl in *.
  assert (inv (now, s) ∧ guar a (clock, s) (now, s)) as [??] by (split; [by eapply inv_tick|apply guar_tick]).
  destruct o; simpl; (split_and!; [done|done|]); [by eapply Hdone|by eapply Hfail..].
Qed.

(** A statement on the catalog: what it leaves, unless it is refused. *)
Lemma safe_sql a {B : Set} (f : Z → Db → B * Db) Q (x : St) :
  (∀ clock s now, rely a x (clock, s) → inv (clock, s) → clock ≤ now → allowed tm a clock now Sql Done →
     let y := (now, set_db (f now (db s)).2 s) in
     inv y ∧ guar a (clock, s) y ∧ Q (Some (f now (db s)).1) y ∧ Q None y) →
  (∀ clock s now, rely a x (clock, s) → inv (clock, s) → clock ≤ now → Q None (now, s)) →
  safe a (sql f) Q x.
Proof.
  intros Hdone Hfail. apply safe_stmt. intros [clock s] Hr Hi now o Hle Ha. simpl in *.
  assert (allowed tm a clock now Sql Done) as Ha'.
  { destruct Ha as (H1 & H2 & H3 & H4). by split_and!. }
  destruct (Hdone clock s now Hr Hi Hle Ha') as (? & ? & ? & ?).
  destruct o; simpl; [done|done|]. split_and!; [by eapply inv_tick|apply guar_tick|by eapply Hfail].
Qed.

(** The common case: an [UPDATE]. *)
Lemma safe_update a cond set Q (x : St) :
  (∀ clock s now, rely a x (clock, s) → inv (clock, s) → clock ≤ now → allowed tm a clock now Sql Done →
     good_update (batch := batch) tm a now s cond (set now) ∧
     let u := update_where cond (set now) (db s) in
     let y := (now, set_db u.2 s) in
     Q (Some u.1) y ∧ Q None y) →
  (∀ clock s now, rely a x (clock, s) → inv (clock, s) → clock ≤ now → Q None (now, s)) →
  safe a (sql (λ now, update_where cond (set now))) Q x.
Proof.
  intros Hdone Hfail. apply safe_sql; [|done]. intros clock s now Hr Hi Hle Ha.
  destruct (Hdone clock s now Hr Hi Hle Ha) as (Hg & ? & ?).
  split_and!; [|by apply (update_guar tm a clock now s cond (set now))|done|done].
  apply (update_inv tm a clock now s cond (set now)); try done.
  intros g w Hw. by apply (update_marks tm a clock now s cond (set now)).
Qed.

(** * Knowledge that interference keeps *)

Lemma rely_ind_stable a (P : St → Prop) (x y : St) :
  (∀ x y, inv x → inv y → x.1 ≤ y.1 → ∀ b, compat a b → guar b x y → P x → P y) →
  rely a x y → P x → P y.
Proof.
  intros Hst Hr. induction Hr as [|x y z (Hix & Hiy & Hle & b & Hc & Hg) _ IH]; [done|]. intros HP. apply IH. by apply (Hst x y Hix Hiy Hle b).
Qed.

Lemma rely_clock a (x y : St) : rely a x y → x.1 ≤ y.1.
Proof. intros Hr. induction Hr as [|x y z (_ & _ & ? & _) _ IH]; lia. Qed.

(** The watermark of a target covers no open claim. *)
Lemma rely_mark a g w (x y : St) : rely a x y → safe_mark x.1 x.2 g w → safe_mark y.1 y.2 g w.
Proof.
  apply (rely_ind_stable a (λ x, safe_mark x.1 x.2 g w)). clear x y. intros x y _ _ Hle b _ Hg Hm.
  eapply safe_mark_step; [exact Hm|done|]. exact (guar_open _ _ _ _ Hg).
Qed.

(** Some row of [g] with this id is committed. *)
Definition settled_id (g : Target) (i : rstr) (x : St) : Prop :=
  ∃ r, r ∈ rows x.2 ∧ target r = g ∧ row_id r = i ∧ status r = Committed.

Lemma rely_settled_id a g i (x y : St) : rely a x y → settled_id g i x → settled_id g i y.
Proof.
  apply (rely_ind_stable a (settled_id g i)). clear x y. intros x y _ _ _ b _ Hg (r & Hr & <- & <- & Hs).
  destruct (guar_committed _ _ _ _ Hg r Hr Hs) as (r' & Hr' & E & Hs').
  exists r'. by rewrite (seg_target r' r E), (seg_id r' r E).
Qed.

(** Some row is of this segment. *)
Definition present (sg : Segment) (x : St) : Prop := ∃ r, r ∈ rows x.2 ∧ seg r = sg.

Lemma rely_present a sg (x y : St) : rely a x y → present sg x → present sg y.
Proof.
  apply (rely_ind_stable a (present sg)). clear x y. intros x y _ _ _ b _ Hg (r & Hr & <-).
  destruct (guar_keep _ _ _ _ Hg r Hr) as (r' & ? & ?). by exists r'.
Qed.

(** What time, the outside and a log that only grows cannot undo. *)
Definition eternal (E : St → Prop) : Prop :=
  ∀ x y : St, x.1 ≤ y.1 → world y.2 = world x.2 → (∀ e, e ∈ log x.2 → e ∈ log y.2) → E x → E y.

Lemma rely_eternal a E (x y : St) : eternal E → rely a x y → E x → E y.
Proof.
  intros HE. apply (rely_ind_stable a E). clear x y. intros x y _ _ Hle b _ Hg.
  apply HE; [done|apply (guar_world _ _ _ _ Hg)|apply (guar_log _ _ _ _ Hg)].
Qed.

(** * A drain's claims *)

Section Drain.
Context (c : rstr) (start : Z) (Know : St → Prop) (HKnow : eternal Know).
Local Abbreviation me := (ADrain c start).

(** While the cycle is in time the claim is in the catalog under this claimer
    and, unless its append has [landed], not in the log. *)
Definition holds (landed : bool) (cs : ClaimedSegment) (x : St) : Prop :=
  start ≤ claimed_at cs ≤ x.1 ∧
  (x.1 ≤ start + work tm →
   ∃ r, r ∈ rows x.2 ∧ seg r = claimed_seg cs ∧ status r = Processing ∧ row_claimer r = Some c ∧
     row_claimed_at r = Some (claimed_at cs) ∧ (landed = false → ¬ logged x.2 r)).

Lemma rely_holds landed cs (x y : St) : rely me x y → holds landed cs x → holds landed cs y.
Proof.
  apply (rely_ind_stable me (holds landed cs)). clear x y. intros x y _ _ Hle b Hc Hg [Ht H]. split; [lia|].
  intros Hin. destruct H as (r & Hr & Hseg & Hs & Hcl & Hat & Hl); [lia|].
  destruct (guar_claims _ _ _ _ Hg r Hr Hs) as [[Hr' Hlog]|Htouch].
  - exists r. split_and!; try done. intros Hf Hy. by apply Hl; [|apply Hlog].
  - exfalso. destruct b as [c' st'| |]; simpl in *.
    + destruct Htouch as [Hcl' _]. congruence.
    + specialize (Htouch _ Hat). destruct Htm as (? & ? & ?). lia.
    + done.
Qed.

Lemma tick_holds landed cs clock now s : clock ≤ now → holds landed cs (clock, s) → holds landed cs (now, s).
Proof. intros Hle [Ht H]. split; simpl in *; [lia|]. intros Hin. apply H. lia. Qed.

(** The row behind a claim, at a statement of the drain's own. *)
Lemma holds_row landed cs clock now s r :
  inv (clock, s) → clock ≤ now → allowed tm me clock now Sql Done → holds landed cs (clock, s) →
  r ∈ rows s → row_id r = claimed_id cs →
  seg r = claimed_seg cs ∧ status r = Processing ∧ row_claimer r = Some c ∧ row_claimed_at r = Some (claimed_at cs) ∧
  (landed = false → ¬ logged s r) ∧ touch tm me now r.
Proof.
  intros Hi Hle (Hin & _) [Ht H] Hr E. destruct (Hin c start eq_refl) as [_ Htime]. simpl in *.
  destruct H as (r' & Hr' & Hseg & Hs & Hcl & Hat & Hl); [lia|].
  assert (r' = r) as ->.
  { eapply same_row; [apply (inv_ids _ _ Hi)|done..|]. rewrite E. unfold row_id, claimed_id. by rewrite Hseg. }
  split_and!; try done. intros t Ht'. simplify_eq. lia.
Qed.

(** An [UPDATE] of other rows. *)
Lemma update_holds landed cs clock now s cond set d :
  clock ≤ now → wal_segments d = updated cond set <$> rows s →
  (∀ r, r ∈ rows s → cond r = true → row_id r ≠ claimed_id cs) →
  holds landed cs (clock, s) → holds landed cs (now, set_db d s).
Proof.
  intros Hle E Hother [Ht H]. split; simpl in *; [lia|]. intros Hin.
  destruct H as (r & Hr & Hseg & Hs & Hcl & Hat & Hl); [lia|]. exists r. split_and!; try done.
  unfold rows. simpl. rewrite E. replace r with (updated cond set r); [by apply list_elem_of_fmap_2|].
  unfold updated. destruct (cond r) eqn:Ec; [|done]. exfalso. apply (Hother r Hr Ec).
  unfold row_id, claimed_id. by rewrite Hseg.
Qed.

(** The rows of a claim's segment are in its table, or there were none. *)
Definition landed (cs : ClaimedSegment) (x : St) : Prop :=
  claimed_at cs < x.1 ∧
  ((group_of cs, arrow (claimed_id cs)) ∈ log x.2 ∨
   ∃ t body, object (world x.2 t) (segment_url (claimed_seg cs)) = Some body ∧
     read_segment_from_bytes (batch := batch) body = inr []).

(** The cycle's claims: those still to append, and those whose append is in;
    [Know] is what else the cycle knows. *)
Definition owns (F D : list ClaimedSegment) (x : St) : Prop :=
  Know x ∧ NoDup (claimed_id <$> F ++ D) ∧ Forall (λ cs, holds false cs x) F ∧ Forall (λ cs, holds true cs x ∧ landed cs x) D.

Lemma eternal_landed cs : eternal (landed cs).
Proof. intros x y Hle Hw Hl [Ht H]. split; [lia|]. rewrite Hw. destruct H; [left; auto|by right]. Qed.

Lemma owns_impl F D (x y : St) :
  (∀ b cs, cs ∈ F ++ D → holds b cs x → holds b cs y) → (∀ E, eternal E → E x → E y) → owns F D x → owns F D y.
Proof.
  intros Hh Hl (He & Hnd & HF & HD). rewrite Forall_forall in HF, HD. split_and!; [by apply Hl|done|..];
    apply Forall_forall; intros cs Hcs.
  - apply Hh; [set_solver|auto].
  - destruct (HD cs Hcs). split; [apply Hh; [set_solver|done]|]. by apply (Hl _ (eternal_landed cs)).
Qed.

Lemma rely_owns F D (x y : St) : rely me x y → owns F D x → owns F D y.
Proof. intros Hr. apply owns_impl; [intros b cs _; by apply rely_holds|intros E' HE'; by apply (rely_eternal me)]. Qed.

Lemma tick_owns F D clock now s : clock ≤ now → owns F D (clock, s) → owns F D (now, s).
Proof. intros Hle. apply owns_impl; [intros b cs _; by apply tick_holds|intros E' HE'; by apply HE']. Qed.

Lemma update_owns F D clock now s cond set d :
  clock ≤ now → wal_segments d = updated cond set <$> rows s →
  (∀ r cs, r ∈ rows s → cond r = true → cs ∈ F ++ D → row_id r ≠ claimed_id cs) →
  owns F D (clock, s) → owns F D (now, set_db d s).
Proof.
  intros Hle Ed Hother. apply owns_impl; [|intros E' HE'; by apply HE'].
  intros b cs Hcs. eapply update_holds; [done|exact Ed|]. intros r Hr Hc. by apply (Hother r cs).
Qed.

Lemma owns_perm F F' D x : F ≡ₚ F' → owns F D x → owns F' D x.
Proof. unfold owns. by intros ->. Qed.

Lemma owns_drop F1 F2 D1 D2 x : owns (F1 ++ F2) (D1 ++ D2) x → owns F2 D2 x.
Proof.
  intros (He & Hnd & [_ HF]%Forall_app & [_ HD]%Forall_app). split_and!; [done| |done|done].
  eapply sublist_NoDup; [exact Hnd|]. apply fmap_sublist. rewrite <- (app_assoc F1).
  apply sublist_inserts_l, sublist_app; [done|]. by apply sublist_inserts_l.
Qed.

(** * Giving claims up *)

Lemma row_inv_open clock now s r r' :
  row_inv (batch := batch) tm clock s r → clock ≤ now → seg r' = seg r → registered_at_ms r' = registered_at_ms r →
  row_claimed_at r' = None → status r' ≠ Committed → row_ok r' → ¬ logged s r → row_inv (batch := batch) tm now s r'.
Proof.
  intros [Hok Hn ((H0 & H1) & _) _ _] Hle Hseg Hreg Hcl Hst Hok' Hnl. constructor; try done.
  - by rewrite Hseg.
  - split_and!; [by rewrite Hreg|rewrite Hreg; lia|intros t; by rewrite Hcl|done].
  - intros Hl. exfalso. apply Hnl. unfold logged in *. by rewrite (seg_target r r'), (seg_id r r').
Qed.

(** An [UPDATE] that gives one of the cycle's claims up. *)
Lemma safe_unclaim (set : Z → Row → Row) cs F D (x : St) (Q : option Z → St → Prop) :
  (∀ now r, row_ok r → status r = Processing → row_ok (set now r) ∧ status (set now r) ≠ Committed) →
  (∀ now r, seg (set now r) = seg r ∧ registered_at_ms (set now r) = registered_at_ms r ∧ row_claimed_at (set now r) = None) →
  owns (cs :: F) D x → (∀ r y, owns F D y → Q r y) →
  safe me (sql (λ now, update_where (λ r, id_in [claimed_id cs] r && mine c r) (set now))) Q x.
Proof.
  intros Hset Hkeep Hx HQ.
  assert (∀ y, owns (cs :: F) D y → owns F D y) as Hdrop by (intros y; apply (owns_drop [cs] F [] D)).
  apply safe_update.
  - intros clock s now Hr Hi Hle Ha. apply (rely_owns _ _ _ _ Hr) in Hx.
    pose proof Hx as (_ & Hnd & [Hcs _]%Forall_cons & _).
    assert (good_update (batch := batch) tm me now s (λ r, id_in [claimed_id cs] r && mine c r) (set now)) as Hg.
    { intros r Hr' [Hid%bool_decide_eq_true _]%andb_true_iff. apply list_elem_of_singleton in Hid.
      destruct (holds_row false cs clock now s r Hi Hle Ha Hcs Hr' Hid) as (_ & Hs & _ & _ & Hnl & Htouch).
      destruct (Hkeep now r) as (Hk1 & Hk2 & Hk3). pose proof (inv_rows _ _ Hi r Hr') as Hrow.
      destruct (Hset now r (row_inv_ok _ _ _ _ Hrow) Hs). split_and!; try done; [|congruence].
      eapply row_inv_open; eauto. }
    split; [done|]. split; apply HQ.
    all: eapply update_owns; [exact Hle|apply rows_update| |by apply Hdrop].
    all: intros r cs' _ [Hid%bool_decide_eq_true _]%andb_true_iff Hcs' E; apply list_elem_of_singleton in Hid.
    all: apply NoDup_cons in Hnd as [Hnot _]; apply Hnot; rewrite <- Hid, E; by apply list_elem_of_fmap_2.
  - intros clock s now Hr Hi Hle. apply HQ, Hdrop. eapply tick_owns; [exact Hle|]. by eapply rely_owns.
Qed.

Lemma safe_release cs F D (x : St) : owns (cs :: F) D x → safe me (release c (claimed_id cs)) (λ _ y, owns F D y) x.
Proof.
  intros Hx. unfold release, release_with_backoff. apply safe_bind.
  apply (safe_unclaim (release_row RELEASE_MAX_ATTEMPTS) cs F D); try done.
  - intros now r Hok Hs. split; [by apply release_row_ok|]. simpl. by case_match.
  - intros [n|] y Hy; [|done]. apply safe_bind, safe_catch, safe_query.
    + intros clock s now Hr _ Hle _. simpl. eapply tick_owns; [exact Hle|]. by eapply rely_owns.
    + intros clock s now o Hr _ Hle _ _. simpl. eapply tick_owns; [exact Hle|]. by eapply rely_owns.
Qed.

Lemma safe_quarantine cs F D (x : St) :
  owns (cs :: F) D x → safe me (quarantine_terminal c (claimed_id cs)) (λ _ y, owns F D y) x.
Proof.
  intros Hx. unfold quarantine_terminal. apply safe_bind.
  apply (safe_unclaim (λ _, quarantine_row) cs F D); try done.
  - intros now r Hok Hs. split; [by apply quarantine_row_ok|done].
  - intros [n|] y Hy; [|done]. case_match; [done|]. apply safe_bind, safe_catch, safe_query.
    + intros clock s now Hr _ Hle _. simpl. eapply tick_owns; [exact Hle|]. by eapply rely_owns.
    + intros clock s now o Hr _ Hle _ _. simpl. eapply tick_owns; [exact Hle|]. by eapply rely_owns.
Qed.

(** Giving up a list of claims, each failure stepped over. *)
Lemma safe_give_up {A X} (body : rstr → Eff Sys A) (name : X → rstr) l G F D (x : St) :
  (∀ cs F x, owns (cs :: F) D x → safe me (body (claimed_id cs)) (λ _ y, owns F D y) x) →
  name <$> l = claimed_id <$> G → owns (G ++ F) D x →
  safe me (each_ (λ i, let* _ := catch (body (name i)) in Ret tt) l) (λ r y, r = Some tt ∧ owns F D y) x.
Proof.
  intros Hbody HG Hx. unfold each_.
  apply (safe_each _ _ _ _ _ _ (λ _ l y, ∃ G, name <$> l = claimed_id <$> G ∧ owns (G ++ F) D y)).
  - intros _ i ids y ([|cs G'] & E & Hy); [done|]. injection E as -> E. apply safe_bind, safe_catch.
    eapply safe_mono; [|by apply Hbody]. intros r z Hz. simpl. by exists G'.
  - intros [] y ([|cs G'] & E & Hy); [|done]. by split.
  - by exists G.
Qed.

(** * Claiming *)

Lemma owns_nil x : Know x → owns [] [] x.
Proof. intros. split_and!; [done|constructor..]. Qed.

(** The claim [UPDATE] hits sealed rows. *)
Lemma claim_good clock now s (cond : Row → bool) :
  inv (clock, s) → clock ≤ now → (∀ r, r ∈ rows s → cond r = true → status r = Sealed) →
  good_update (batch := batch) tm me now s cond (claim_row c now).
Proof.
  intros Hi Hle Hs r Hr Hc. specialize (Hs r Hr Hc). pose proof (inv_rows _ _ Hi r Hr) as Hrow.
  split_and!; try done; [|congruence|congruence].
  destruct Hrow as [Hok Hn ((H0 & H1) & _) Hl _]. simpl in *. constructor; try done.
  - by apply claim_row_ok.
  - split_and!; simpl; [done|lia| |done]. intros t [= <-]. lia.
  - intros Hlog _. destruct (Hl Hlog) as [? _]; congruence.
Qed.

Lemma sealed_not_logged clock s r : inv (clock, s) → r ∈ rows s → status r = Sealed → ¬ logged s r.
Proof.
  intros Hi Hr Hs Hl. destruct (row_inv_logged _ _ _ _ (inv_rows _ _ Hi r Hr) Hl) as [? _]; congruence.
Qed.

(** A row it hits is held from then on. *)
Lemma claim_holds clock now s cond d r :
  inv (clock, s) → allowed tm me clock now Sql Done → wal_segments d = updated cond (claim_row c now) <$> rows s →
  r ∈ rows s → cond r = true → status r = Sealed →
  holds false (mkClaimed (seg r) now) (now, set_db d s).
Proof.
  intros Hi (Hin & _) E Hr Hc Hs. destruct (Hin c start eq_refl) as [Hstart _].
  split; [simpl; lia|]. intros _. exists (claim_row c now r). split_and!; try done.
  - unfold rows. simpl. rewrite E. apply list_elem_of_fmap. exists r. split; [|done]. unfold updated. by rewrite Hc.
  - intros _. exact (sealed_not_logged clock s r Hi Hr Hs).
Qed.

Lemma safe_claim_stmt (locked : rstr → bool) (n : Z) (x : St) :
  Know x →
  safe me (sql (λ now, claim_stmt c (λ db, row_id <$> candidates locked now n db) now))
    (λ r y, match r with Some (l, now) => owns ((λ s, mkClaimed s now) <$> l) [] y | None => True end) x.
Proof.
  intros Hx. apply safe_sql; [|done]. intros clock s now Hr Hi Hle Ha. pose proof (rely_eternal me Know _ _ HKnow Hr Hx) as Hx'. simpl.
  set (cand := row_id <$> candidates locked now n (db s)).
  assert (∀ r, r ∈ rows s → id_in cand r = true → status r = Sealed) as Hsealed.
  { intros r Hr' Hid%bool_decide_eq_true. destruct (candidates_ids _ _ _ _ _ Hid) as (r' & Hr'' & E & Hs).
    by rewrite <- (same_row (rows s) r' r (inv_ids _ _ Hi) Hr'' Hr' E). }
  pose proof (claim_good clock now s (id_in cand) Hi Hle Hsealed) as Hg.
  split_and!; [| | |done].
  - apply (update_inv tm me clock now s (id_in cand) (claim_row c now)); try done.
    intros g w Hw. by apply (update_marks tm me clock now s (id_in cand) (claim_row c now)).
  - by apply (update_guar tm me clock now s (id_in cand) (claim_row c now)).
  - split_and!; [by apply (HKnow (clock, s))| |apply Forall_fmap, Forall_fmap, Forall_forall|constructor].
    + rewrite app_nil_r, <- !list_fmap_compose. eapply sublist_NoDup; [apply (inv_ids _ _ Hi)|].
      apply fmap_sublist, sublist_filter.
    + intros r [Hid Hr']%list_elem_of_filter. simpl. by apply (claim_holds clock now s (id_in cand)); auto.
Qed.

Lemma filter_split {A} (f : A → bool) l : filter (λ x, f x = false) l ++ filter (λ x, f x = true) l ≡ₚ l.
Proof.
  induction l as [|x l IH]; [done|]. rewrite !filter_cons.
  destruct (f x); repeat case_decide; try done; simpl; rewrite <- ?Permutation_middle; by rewrite IH.
Qed.

(** One candidate of the portable loop. *)
Lemma safe_claim_one sg out (x : St) :
  owns out [] x → id sg ∉ claimed_id <$> out → present sg x →
  safe me (sql (λ now db,
      let u := update_where (λ r, id_in [id sg] r && is_status Sealed r) (claim_row c now) db in ((u.1, now), u.2)))
    (λ r y, match r with
            | Some (n, now) => owns (if n =? 1 then out ++ [mkClaimed sg now] else out) [] y ∧
                               ∀ sg, present sg x → present sg y
            | None => True
            end) x.
Proof.
  intros Hx Hnew Hp. pose proof Hp as Hp0. apply safe_sql; [|done]. intros clock s now Hr Hi Hle Ha. cbv zeta.
  apply (rely_owns _ _ _ _ Hr) in Hx. apply (rely_present _ _ _ _ Hr) in Hp as (r0 & Hr0 & Hseg). simpl in Hr0.
  set (cond := λ r, id_in [id sg] r && is_status Sealed r).
  assert (∀ r, cond r = true → row_id r = id sg ∧ status r = Sealed) as Hcond.
  { intros r [Hid%bool_decide_eq_true Hs%is_status_spec]%andb_true_iff. split; [by apply list_elem_of_singleton in Hid|done]. }
  assert (good_update (batch := batch) tm me now s cond (claim_row c now)) as Hg.
  { eapply claim_good; [exact Hi|done|]. intros r _ Hc. by apply Hcond. }
  pose proof (update_guar tm me clock now s cond (claim_row c now) Hi Hle Hg
    (update_where cond (claim_row c now) (db s)).2 eq_refl) as Hguar.
  split_and!; [|done|split; [|]|done].
  - apply (update_inv tm me clock now s cond (claim_row c now)); try done.
    intros g w Hw. by apply (update_marks tm me clock now s cond (claim_row c now)).
  - change (owns (if (update_where cond (claim_row c now) (db s)).1 =? 1 then out ++ [mkClaimed sg now] else out) []
              (now, set_db (update_where cond (claim_row c now) (db s)).2 s)).
    assert (owns out [] (now, set_db (update_where cond (claim_row c now) (db s)).2 s)) as Hout.
    { eapply update_owns; [exact Hle|apply rows_update| |done]. intros r cs _ [E _]%Hcond Hcs E'.
      apply Hnew. rewrite <- E, E'. apply list_elem_of_fmap_2. by rewrite app_nil_r in Hcs. }
    destruct (Z.eqb_spec (update_where cond (claim_row c now) (db s)).1 1) as [Hn|]; [|done]. simpl in Hn.
    destruct (filter (λ r, cond r = true) (wal_segments (db s))) as [|r l] eqn:Ef; [done|].
    assert (r ∈ filter (λ r, cond r = true) (wal_segments (db s))) as [Hc Hin]%list_elem_of_filter by (rewrite Ef; left).
    destruct (Hcond r Hc) as [E Hs].
    assert (r = r0) as -> by (apply (same_row (rows s)); [apply (inv_ids _ _ Hi)|done..|]; rewrite E; unfold row_id; by rewrite Hseg).
    destruct Hout as (Hk & Hnd & HF & _). rewrite app_nil_r in Hnd. split_and!; [done| |apply Forall_app; split; [done|]|constructor].
    + rewrite app_nil_r, fmap_app. apply NoDup_app. split_and!; [done| |apply NoDup_singleton]. simpl. set_solver.
    + constructor; [|constructor]. rewrite <- Hseg. by apply (claim_holds clock now s cond).
  - intros sg' (r & Hr' & <-)%(rely_present _ _ _ _ Hr). destruct (guar_keep _ _ _ _ Hguar r Hr') as (r' & ? & ?). by exists r'.
Qed.

Lemma candidates_segments locked now n (s : Sys) clock :
  inv (clock, s) →
  NoDup (id <$> (seg <$> candidates locked now n (db s))) ∧
  Forall (λ sg, present sg (clock, s)) (seg <$> candidates locked now n (db s)).
Proof.
  intros Hi. split.
  - rewrite <- list_fmap_compose. unfold candidates, oldest_first. eapply sublist_NoDup; [|apply fmap_sublist, sublist_take].
    rewrite merge_sort_Permutation. eapply sublist_NoDup; [apply (inv_ids _ _ Hi)|]. apply fmap_sublist, sublist_filter.
  - apply Forall_fmap, Forall_forall. intros r [Hr _]%candidates_sealed. by exists r.
Qed.

Lemma safe_try_claim d locked n i k (x : St) :
  Know x →
  safe me (try_claim_sharded c d locked n i k) (λ r y, match r with Some l => owns l [] y | None => True end) x.
Proof.
  intros Hx. unfold try_claim_sharded. case_match; [by apply owns_nil|]. cbv zeta.
  set (kk := Z.max k 1). set (ii := if kk =? 1 then 0 else i `mod` kk). destruct d; apply safe_bind.
  - apply safe_query; [|done]. intros clock s now Hr Hi Hle Ha.
    destruct (candidates_segments (λ _, false) now (Z.min (saturating_mul n kk) (saturating_mul n 16)) s now)
      as [Hnd Hp]; [by eapply inv_tick|].
    apply (safe_each _ _ _ _ _ _ (λ out l y, owns out [] y ∧ NoDup ((claimed_id <$> out) ++ (id <$> l)) ∧
             Forall (λ sg, present sg y) l)).
    + intros out sg l y (Hy & Hnd' & [Hps Hpl]%Forall_cons). apply safe_bind.
      apply NoDup_app in Hnd' as (Hnd1 & Hdis & [Hsg Hnd2]%NoDup_cons).
      eapply safe_mono; [|apply (safe_claim_one sg out y); try done].
      * intros [[m now']|] z; [|done]. intros [Ho Hpres]. split_and!; [done| |].
        -- case_match; [|apply NoDup_app; split_and!; [done|set_solver|done]].
           rewrite fmap_app, <- app_assoc. apply NoDup_app. simpl. split_and!; [done|set_solver|by apply NoDup_cons].
        -- eapply Forall_impl; [exact Hpl|]. auto.
      * intros Hin. apply (Hdis _ Hin). left.
    + by intros out y [? _].
    + pose proof (rely_eternal me Know _ _ HKnow Hr Hx) as Hx'. split_and!; [by apply owns_nil, (HKnow (clock, s))| |].
      * simpl. eapply sublist_NoDup; [exact Hnd|]. apply fmap_sublist, sublist_filter.
      * rewrite Forall_forall in *. intros sg [_ ?]%list_elem_of_filter. auto.
  - eapply safe_mono; [|by apply safe_claim_stmt]. intros [[l now]|] y Hy; [|done]. apply safe_bind.
    eapply safe_mono; [|apply (safe_give_up (release c) id _ ((λ s, mkClaimed s now) <$> filter (λ s, in_shard ii kk s = false) l)
                            ((λ s, mkClaimed s now) <$> filter (λ s, in_shard ii kk s = true) l) [])].
    + intros r z [-> Hz]. exact Hz.
    + intros cs F z. apply safe_release.
    + by rewrite <- list_fmap_compose.
    + rewrite <- fmap_app. eapply owns_perm; [|exact Hy]. by rewrite filter_split.
Qed.

(** * Marking *)

Lemma commit_good clock now s D chunk :
  inv (clock, s) → clock ≤ now → allowed tm me clock now Sql Done → owns [] D (clock, s) → chunk ⊆ claimed_id <$> D →
  good_update (batch := batch) tm me now s (λ r, id_in chunk r && mine c r) (commit_row now).
Proof.
  intros Hi Hle Ha (_ & _ & _ & HD) Hsub r Hr [Hid%bool_decide_eq_true _]%andb_true_iff.
  apply Hsub in Hid. apply list_elem_of_fmap in Hid as (cs & E & Hcs). rewrite Forall_forall in HD.
  destruct (HD cs Hcs) as [Hh [Ht Hl]].
  destruct (holds_row true cs clock now s r Hi Hle Ha Hh Hr E) as (Hseg & Hs & _ & Hat & _ & Htouch).
  pose proof (inv_rows _ _ Hi r Hr) as Hrow. split_and!; try done; [|congruence].
  destruct (row_inv_mono _ clock now s r Hle Hrow) as [Hok Hn (Hreg & Htm' & _) _ _].
  constructor; try done.
  - by apply commit_row_ok.
  - split_and!; try apply Hreg; try apply Htm'. intros _. exists (claimed_at cs). split; [done|]. simpl in *. lia.
  - intros _. unfold logged, empty_segment. simpl. rewrite Hseg. destruct Hl as [Hl|Hl]; [left|by right].
    unfold target, row_id. simpl. by rewrite Hseg.
Qed.

Lemma safe_mark_batch D ids p (x : St) :
  ids = claimed_id <$> D → owns [] D x → safe me (mark_committed_batch c ids p) (λ _ _, True) x.
Proof.
  intros Hids Hx. unfold mark_committed_batch, each_.
  apply (safe_each _ _ _ _ _ _ (λ _ l y, ∃ D, concat l = claimed_id <$> D ∧ owns [] D y)); [|done|].
  - intros _ chunk l y (D' & E & Hy). simpl in E. symmetry in E. apply fmap_app_inv in E as (D1 & D2 & E1 & E2 & ->).
    apply safe_bind, safe_sql; [|done]. intros clock s now Hr Hi Hle Ha. apply (rely_owns _ _ _ _ Hr) in Hy.
    assert (good_update (batch := batch) tm me now s (λ r, id_in chunk r && mine c r) (commit_row now)) as Hg.
    { eapply commit_good; [done|done|done|exact Hy|]. rewrite E1, fmap_app. set_solver. }
    destruct (mark_inv tm me clock now s _ (commit_row now) p
      (targets_of chunk (update_where (λ r, id_in chunk r && mine c r) (commit_row now) (db s)).2) Hi Hle Hg) as [Hinv Hguar].
    split_and!; [exact Hinv|exact Hguar| |done]. simpl. exists D2. split; [done|].
    eapply (update_owns [] D2 clock now s (λ r, id_in chunk r && mine c r) (commit_row now)); [done|apply advance_all_rows| |].
    + intros r cs _ [Hid%bool_decide_eq_true _]%andb_true_iff Hcs E'. destruct Hy as (_ & Hnd & _ & _). simpl in Hnd.
      rewrite fmap_app in Hnd. apply NoDup_app in Hnd as (_ & Hdis & _). rewrite E1 in Hid. apply (Hdis _ Hid). rewrite E'.
      by apply list_elem_of_fmap_2.
    + by apply (owns_drop [] [] D1 D2).
  - exists D. by rewrite concat_chunks.
Qed.
End Drain.
End Safe.
