(* ===== verification/DrainPass.v ===== *)
(** One whole drain cycle, from the claim to the marks, is safe. *)

From stdpp Require Import prelude gmap strings sorting relations.
From Stdlib Require Import ZArith Lia.
From S2P Require Import Prelude RustStr BTree WalFrame ConsumedProof Eff RelyGuarantee Catalog CatalogInv DrainCycle DrainInv DrainSafe.

Section Pass.
Context {PJ : ProofJson} {PL : ProofJsonLaws} {batch : Type} `{!ArrowIpc batch} (tm : Timing) (Htm : timing_ok tm).

Abbreviation St := (Z * Sys)%type (only parsing).
Local Abbreviation inv := (DrainInv.inv (batch := batch) tm).
Local Abbreviation guar := (DrainInv.guar tm).
Local Abbreviation rely := (RelyGuarantee.rely inv compat guar).
Local Abbreviation safe := (RelyGuarantee.safe inv (allowed tm) compat guar).

(** * Reading what the append needs *)

(** Knowledge that neither time nor the other processes take away. *)
Definition steady (a : Actor) (P : St → Prop) : Prop :=
  (∀ x y, rely a x y → P x → P y) ∧ ∀ clock now s, clock ≤ now → P (clock, s) → P (now, s).

Lemma steady_read a P clock now s x : steady a P → rely a x (clock, s) → clock ≤ now → P x → P (now, s).
Proof. intros [Hr Ht] Hrely Hle HP. eapply Ht; [exact Hle|]. by eapply Hr. Qed.

Lemma steady_and a P P' : steady a P → steady a P' → steady a (λ x, P x ∧ P' x).
Proof. intros [Hr Ht] [Hr' Ht']. split; [intros x y ? [??]|intros clock now s ? [??]]; split; eauto. Qed.

(** Every id of [l] belongs to a committed segment of [g]. *)
Definition terminal_ok (g : Target) (l : list rstr) (x : St) : Prop := ∀ i, i ∈ l → settled_id g (catalog_id i) x.

Lemma steady_settled a g i : steady a (settled_id g i).
Proof. split; [intros x y; apply rely_settled_id|]. by intros clock now s _ (r & ?); exists r. Qed.

Lemma steady_terminal a g l : steady a (terminal_ok g l).
Proof.
  split; [intros x y Hr H i Hi|intros clock now s Hle H i Hi]; specialize (H i Hi).
  - by eapply (proj1 (steady_settled a g _)).
  - by eapply (proj2 (steady_settled a g _)).
Qed.

Lemma steady_mark a g w : steady a (λ x, safe_mark x.1 x.2 g w).
Proof.
  split; [intros x y; apply rely_mark|]. intros clock now s Hle Hm. eapply safe_mark_step; [exact Hm|done|].
  by apply open_from_refl.
Qed.

Lemma catalog_id_arrow i : catalog_id (arrow i) = i.
Proof.
  unfold catalog_id. destruct (strip_suffix (arrow i) (lit ".arrow")) as [r|] eqn:E.
  - apply strip_suffix_Some in E. unfold arrow in E. by apply app_inj_2 in E as [-> _].
  - exfalso. assert (strip_suffix (arrow i) (lit ".arrow") = Some i) as E' by (by apply strip_suffix_Some). congruence.
Qed.

(** A committed row is meant by every id that strips to its own. *)
Lemma terminal_committed clock s g l r :
  inv (clock, s) → terminal_ok g l (clock, s) → r ∈ rows s → arrow (row_id r) ∈ l → status r = Committed.
Proof.
  intros Hi Hl Hr Hin. destruct (Hl _ Hin) as (r' & Hr' & _ & E & Hs). rewrite catalog_id_arrow in E.
  by rewrite <- (same_row (rows s) r' r (inv_ids _ _ Hi) Hr' Hr E).
Qed.

Lemma safe_committed_ids a (P : St → Prop) g ids (x : St) :
  steady a P → P x →
  safe a (committed_segment_ids g.1 g.2 ids)
    (λ r y, P y ∧ match r with Some l => ∀ i, i ∈ l → settled_id g i y | None => True end) x.
Proof.
  intros HP Hx. unfold committed_segment_ids.
  apply (safe_each _ _ _ _ _ _ (λ acc _ y, P y ∧ ∀ i, i ∈ acc → settled_id g i y)); [|done|].
  - intros acc chunk l y [Hy Hacc]. apply safe_bind, safe_query.
    + intros clock s now Hr Hi Hle _. split; [by eapply steady_read|]. intros i [Hin|Hin]%elem_of_app.
      * eapply steady_read; [apply steady_settled|exact Hr|done|auto].
      * apply list_elem_of_fmap in Hin as (r & -> & [(Hg & Hs & _) Hr']%list_elem_of_filter). exists r. split_and!; try done.
        by destruct g.
    + intros clock s now o Hr Hi Hle _ _. split; [by eapply steady_read|done].
  - split; [done|]. by intros i ?%elem_of_nil.
Qed.

Lemma safe_terminal a (P : St → Prop) g (x : St) :
  steady a P → P x →
  safe a (terminal_consumed_proof_entries g)
    (λ r y, P y ∧ match r with Some l => terminal_ok g l y | None => True end) x.
Proof.
  intros HP Hx. unfold terminal_consumed_proof_entries, read_durable_proof. apply safe_bind, safe_bind, safe_query.
  - intros clock s now Hr Hi Hle _. assert (P (now, s)) as Hy by (by eapply steady_read).
    assert (terminal_ok g [] (now, s)) as Hnil by (by intros i ?%elem_of_nil).
    destruct (cached_table g now s) as [t|]; simpl; [|done]. destruct (durable_consumed_proof t) as [|p|]; [done| |done].
    apply safe_bind. eapply safe_mono; [|by apply (safe_committed_ids a P g)]. intros [l|] y [Hy' Hl]; [|done]. split; [done|].
    intros i (j & [<- _]%list_elem_of_filter & Hj)%list_elem_of_bind. apply Hl. by apply elem_of_remove_dups.
  - intros clock s now o Hr Hi Hle _ _. simpl. split; [by eapply steady_read|done].
Qed.

Lemma safe_watermark a (P : St → Prop) g (x : St) :
  steady a P → P x →
  safe a (consumed_proof_watermark g.1 g.2)
    (λ r y, P y ∧ match r with Some (Some w) => safe_mark y.1 y.2 g (watermark_ms w) | _ => True end) x.
Proof.
  intros HP Hx. apply safe_query.
  - intros clock s now Hr Hi Hle _. split; [by eapply steady_read|]. destruct g as [t i]. simpl.
    destruct (consumed_proof_watermarks (db s) !! (t, i)) as [w|] eqn:E; [|done].
    eapply (proj2 (steady_mark a _ _)); [exact Hle|]. by apply (inv_marks _ _ Hi).
  - intros clock s now o Hr Hi Hle _ _. split; [by eapply steady_read|done].
Qed.

(** * The append *)

Section Append.
Context (c : rstr) (start : Z) (Know : St → Prop) (HKnow : eternal Know).
Local Abbreviation me := (ADrain c start).
Local Abbreviation owns := (DrainSafe.owns (batch := batch) tm c start Know).
Local Abbreviation holds := (DrainSafe.holds tm c start).
Local Abbreviation landed := (DrainSafe.landed (batch := batch)).

Lemma steady_owns F D : steady me (owns F D).
Proof. split; [intros x y; by apply rely_owns|intros clock now s; by apply tick_owns]. Qed.

Definition entry_of (cs : ClaimedSegment) : ConsumedProofEntry := mkEntry (arrow (claimed_id cs)) (claimed_at cs).

Lemma entry_ids (K : list ClaimedSegment) : segment_id <$> (entry_of <$> K) = arrow <$> (claimed_id <$> K).
Proof. by rewrite <- !list_fmap_compose. Qed.

Lemma holds_weaken cs x : holds false cs x → holds true cs x.
Proof. intros [Ht H]. split; [done|]. intros Hin. destruct (H Hin) as (r & ? & ? & ? & ? & ? & _). by exists r. Qed.

(** What an append in time may say of the cycle's claims. *)
Lemma append_claims clock now s K F D :
  inv (clock, s) → clock ≤ now → allowed tm me clock now Append Done → owns (K ++ F) D (clock, s) →
  ∀ e, e ∈ entry_of <$> K → ∃ cs r, cs ∈ K ∧ e = entry_of cs ∧ r ∈ rows s ∧ seg r = claimed_seg cs ∧
    status r = Processing ∧ row_claimer r = Some c ∧ row_claimed_at r = Some (claimed_at_ms e) ∧
    now ≤ claimed_at_ms e + work tm ∧ ¬ logged s r.
Proof.
  intros Hi Hle (Hin & _) (_ & _ & [HK _]%Forall_app & _) e (cs & -> & Hcs)%list_elem_of_fmap.
  destruct (Hin c start eq_refl) as [_ Htime]. rewrite Forall_forall in HK. destruct (HK cs Hcs) as [Ht Hh]. simpl in *.
  destruct Hh as (r & Hr & Hseg & Hs & Hcl & Hat & Hnl); [lia|]. exists cs, r. split_and!; try done; [lia|by apply Hnl].
Qed.

Lemma NoDup_arrow (l : list rstr) : NoDup l → NoDup (arrow <$> l).
Proof. apply NoDup_fmap_2. intros i j E. by apply app_inj_2 in E as [-> _]. Qed.

Lemma append_commit_good clock now s g t t' K F D through terminal owner :
  inv (clock, s) → clock ≤ now → allowed tm me clock now Append Done → owns (K ++ F) D (clock, s) →
  Forall (λ cs, group_of cs = g) K →
  (∀ w, through = Some w → safe_mark clock s g w) → terminal_ok g terminal (clock, s) →
  live_table g s = Some t → append_with_consumed_proof now (entry_of <$> K) through terminal owner t = inr t' →
  good_commit tm now s g t (mkAction (entry_of <$> K) through terminal) t'.
Proof.
  intros Hi Hle Ha Ho HK Hthrough Hterm Hlive Happ. eapply append_good; [exact Happ|done|..].
  - intros r Hr. apply (row_inv_name _ _ _ _ (inv_rows _ _ Hi r Hr)).
  - intros w Hw. eapply (proj2 (steady_mark me _ _)); [exact Hle|]. by apply Hthrough.
  - intros r Hr _ Hin. by eapply terminal_committed.
  - rewrite entry_ids. apply NoDup_arrow. destruct Ho as (_ & Hnd & _). rewrite !fmap_app in Hnd.
    by apply NoDup_app in Hnd as [[? _]%NoDup_app _].
  - intros e He. destruct (append_claims clock now s K F D Hi Hle Ha Ho e He) as (cs & r & Hcs & -> & Hr & Hseg & Hs & _ & Hat & Hw & Hnl).
    rewrite Forall_forall in HK. exists r. split_and!; try done.
    + rewrite <- (HK cs Hcs). unfold target, group_of. by rewrite Hseg.
    + simpl. unfold row_id, claimed_id. by rewrite Hseg.
Qed.

(** After it the group's claims are landed. *)
Lemma append_owns clock now s g t' K F D :
  clock ≤ now → owns (K ++ F) D (clock, s) → Forall (λ cs, group_of cs = g) K → Forall (λ cs, claimed_at cs < clock) K →
  owns F (K ++ D) (now, set_table g now t' (segment_id <$> (entry_of <$> K)) s).
Proof.
  intros Hle (Hk & Hnd & [HK HF]%Forall_app & HD) Hg Hlt. rewrite entry_ids.
  set (y := (now, set_table g now t' (arrow <$> (claimed_id <$> K)) s)).
  assert (∀ b cs, holds b cs (clock, s) → (b = false → claimed_id cs ∉ claimed_id <$> K) → holds b cs y) as Hkeep.
  { intros b cs [Ht Hh] Hnot. split; [simpl in *; lia|]. intros Hin. destruct Hh as (r & Hr & Hseg & ? & ? & ? & Hnl); [simpl in *; lia|].
    exists r. split_and!; try done. intros Hb. unfold logged. simpl.
    intros [Hl|(i & E & (j & -> & Hj)%list_elem_of_fmap)%list_elem_of_fmap]%elem_of_app; [by apply Hnl|].
    injection E as _ E. apply app_inj_2 in E as [<- _]; [|done]. apply (Hnot Hb).
    replace (claimed_id cs) with (row_id r); [done|]. unfold row_id, claimed_id. by rewrite Hseg. }
  assert (∀ E, eternal E → E (clock, s) → E y) as Hland.
  { intros E HE. apply HE; [done|done|]. intros e He. apply elem_of_app. by left. }
  rewrite Forall_forall in HK, HF, HD, Hg, Hlt. split_and!; [by apply Hland|..].
  - rewrite (Permutation_app_comm K D), (app_assoc F D). rewrite <- (Permutation_app_comm K), app_assoc. done.
  - apply Forall_forall. intros cs Hcs. apply Hkeep; [auto|]. intros _ Hin.
    rewrite !fmap_app in Hnd. apply NoDup_app in Hnd as [(_ & Hdis & _)%NoDup_app _]. apply (Hdis _ Hin). by apply list_elem_of_fmap_2.
  - apply Forall_forall. intros cs [Hcs|Hcs]%elem_of_app.
    + split; [apply Hkeep; [apply holds_weaken; auto|done]|]. split; [specialize (Hlt cs Hcs); simpl; lia|]. left. simpl.
      apply elem_of_app. right. rewrite (Hg cs Hcs). apply list_elem_of_fmap_2, list_elem_of_fmap_2. by apply list_elem_of_fmap_2.
    + destruct (HD cs Hcs). split; [by apply Hkeep|]. by apply (Hland _ (eternal_landed cs)).
Qed.

(** What is known when a group's append starts. *)
Definition armed (g : Target) (K F D : list ClaimedSegment) (through : option Z) (terminal : list rstr) (x : St) : Prop :=
  owns (K ++ F) D x ∧ Forall (λ cs, claimed_at cs < x.1) K ∧
  (∀ w, through = Some w → safe_mark x.1 x.2 g w) ∧ terminal_ok g terminal x.

Lemma steady_armed g K F D through terminal : steady me (armed g K F D through terminal).
Proof.
  apply steady_and; [apply steady_owns|]. apply steady_and; [|apply steady_and; [|apply steady_terminal]].
  - split; [intros x y Hr%rely_clock|intros clock now s Hle]; intros H; (eapply Forall_impl; [exact H|]); simpl in *; lia.
  - split; [intros x y Hr|intros clock now s Hle]; intros H w Hw; specialize (H w Hw).
    + by eapply (proj1 (steady_mark me g w)).
    + by eapply (proj2 (steady_mark me g w)).
Qed.

Definition empty_object (cs : ClaimedSegment) (x : St) : Prop :=
  ∃ t body, object (world x.2 t) (segment_url (claimed_seg cs)) = Some body ∧ read_segment_from_bytes (batch := batch) body = inr [].

Lemma empty_owns K F D x :
  owns (K ++ F) D x → Forall (λ cs, claimed_at cs < x.1) K → Forall (λ cs, empty_object cs x) K → owns F (K ++ D) x.
Proof.
  intros (Hk & Hnd & [HK HF]%Forall_app & HD) Hlt He. split_and!; [done| |done|].
  - rewrite (Permutation_app_comm K D), (app_assoc F D). rewrite <- (Permutation_app_comm K), app_assoc. done.
  - apply Forall_app. split; [|done]. rewrite Forall_forall in *. intros cs Hcs. split; [by apply holds_weaken, HK|].
    split; [by apply Hlt|]. right. by apply He.
Qed.

Lemma safe_append g K F D through terminal owner (x : St) :
  Forall (λ cs, group_of cs = g) K → armed g K F D through terminal x →
  safe me (append_batches g (entry_of <$> K) through terminal owner)
    (λ r y, match r with Some AppendDone => owns F (K ++ D) y | _ => owns (K ++ F) D y end) x.
Proof.
  intros Hg Hx. apply safe_stmt. intros [clock s] Hr Hi now o Hle Ha. simpl in Hle, Ha. assert (o ≠ Lost) by (by apply Ha).
  apply (proj1 (steady_armed g K F D through terminal) _ _ Hr) in Hx. clear Hr.
  assert (owns (K ++ F) D (now, s)) as Hback by (by apply (proj2 (steady_armed g K F D through terminal) _ _ _ Hle Hx)).
  assert (inv (now, s) ∧ guar me (clock, s) (now, s)) as [??] by (split; [by eapply inv_tick|apply guar_tick]).
  destruct o; [|done|by split_and!]. simpl. destruct (live_table g s) as [t|] eqn:Hlive; [|by split_and!].
  destruct (append_with_consumed_proof now (entry_of <$> K) through terminal owner t) as [[|err]|t'] eqn:Happ; [by split_and!..|].
  destruct Hx as (Ho & Hlt & Hthrough & Hterm). simpl.
  pose proof (append_commit_good clock now s g t t' K F D through terminal owner Hi Hle Ha Ho Hg Hthrough Hterm Hlive Happ) as Hgood.
  split_and!; [exact (commit_inv tm clock now s g t _ t' Hi Hle Hgood)| |by apply (append_owns clock)].
  refine (commit_guar tm clock now s g t _ t' Hgood me _). simpl. intros r Hr' Hs' Hgr (e & E & He)%list_elem_of_fmap.
  destruct (append_claims clock now s K F D Hi Hle Ha Ho e He) as (cs & r' & Hcs & -> & Hr'' & Hseg & _ & Hcl & Hat & Hw & _).
  assert (r = r') as ->; [|split; [done|]; intros u Hu; simplify_eq; done].
  apply (same_id tm (clock, s)); try done. rewrite E. simpl. unfold row_id, claimed_id. by rewrite Hseg.
Qed.

Lemma safe_commit_batches g (bs : list batch) K F D through terminal owner (x : St) :
  Forall (λ cs, group_of cs = g) K → armed g K F D through terminal x →
  (bs = [] → Forall (λ cs, empty_object cs x) K) →
  safe me (commit_batches g bs (entry_of <$> K) through terminal owner)
    (λ r y, match r with Some _ => owns F (K ++ D) y | None => owns (K ++ F) D y end) x.
Proof.
  intros Hg Hx Hempty. unfold commit_batches, commit_outcome. destruct bs as [|b bs].
  { destruct Hx as (Ho & Hlt & _). by apply empty_owns; [..|apply Hempty]. }
  apply safe_bind, safe_bind, safe_query.
  - intros clock s now Hr _ Hle _. pose proof (steady_read _ _ _ _ _ _ (steady_armed g K F D through terminal) Hr Hle Hx) as Hy.
    case_match; [by apply Hy|]. eapply safe_mono; [|by apply safe_append]. by intros [[]|] y ?.
  - intros clock s now o Hr _ Hle _ _. by apply (steady_read _ _ _ _ _ _ (steady_armed g K F D through terminal) Hr Hle Hx).
Qed.

End Append.

(** * Fetching *)

Section Cycle.
Context (uuid_string : bytes → rstr) (cfg : DrainConfig) (start : Z).
Local Abbreviation c := (claimer cfg).
Local Abbreviation me := (ADrain c start).
Local Abbreviation owns := (DrainSafe.owns (batch := batch) tm c start).

(** A body that came back is what the mirror answered at some time. *)
Definition fetched_from (cs : ClaimedSegment) (body : option bytes) (x : St) : Prop :=
  ∀ b, body = Some b → ∃ t, object (world x.2 t) (segment_url (claimed_seg cs)) = Some b.

Lemma steady_fetched l bodies : steady me (λ x, Forall2 (λ cs b, fetched_from cs b x) l bodies).
Proof.
  split; [|done]. intros x y Hr. apply (rely_ind_stable tm me (λ x, Forall2 (λ cs b, fetched_from cs b x) l bodies) x y); [|done].
  clear x y Hr. intros x y _ _ _ b _ Hg H. eapply Forall2_impl; [exact H|]. intros cs body Hf b' Hb.
  destruct (Hf b' Hb) as [t Ht]. exists t. by rewrite (guar_world _ _ _ _ Hg).
Qed.

Lemma safe_fetch (P : St → Prop) group (x : St) :
  steady me P → P x → group ≠ [] → Forall (λ cs, claimed_at cs ≤ x.1) group →
  safe me (each (λ acc cs, let* b := catch (ask (λ w, object w (segment_url (claimed_seg cs)))) in
                           Ret (acc ++ [default None b])) group [])
    (λ r y, match r with
            | Some bodies => P y ∧ Forall2 (λ cs b, fetched_from cs b y) group bodies ∧
                             Forall (λ cs, claimed_at cs < y.1) group
            | None => False
            end) x.
Proof.
  intros HP Hx Hne Hat.
  apply (safe_each _ _ _ _ _ _ (λ acc l y, ∃ pre, group = pre ++ l ∧ P y ∧ Forall2 (λ cs b, fetched_from cs b y) pre acc ∧
     Forall (λ cs, claimed_at cs ≤ y.1) group ∧ (pre ≠ [] → Forall (λ cs, claimed_at cs < y.1) group))).
  - intros acc cs l y (pre & E & Hy & Hf & Hle & _). apply safe_bind, safe_catch.
    assert (∀ clock s now o (b : option (option bytes)), rely me y (clock, s) → clock ≤ now → allowed tm me clock now Outside o →
      (∀ b', default None b = Some b' → object (world s now) (segment_url (claimed_seg cs)) = Some b') →
      ∃ pre, group = pre ++ l ∧ P (now, s) ∧ Forall2 (λ cs b, fetched_from cs b (now, s)) pre (acc ++ [default None b]) ∧
        Forall (λ cs, claimed_at cs ≤ now) group ∧ (pre ≠ [] → Forall (λ cs, claimed_at cs < now) group)) as Hstep.
    { intros clock s now o b Hr Hlen (_ & Htick & _) Hb. apply rely_clock in Hr as Hc. simpl in Hc. specialize (Htick eq_refl).
      exists (pre ++ [cs]). rewrite <- app_assoc. split_and!; [done|by eapply steady_read| | |].
      - apply Forall2_app; [|constructor; [|constructor]].
        + eapply (steady_read me); [apply steady_fetched|exact Hr|done|exact Hf].
        + intros b' Hb'. exists now. auto.
      - eapply Forall_impl; [exact Hle|]. simpl. lia.
      - intros _. eapply Forall_impl; [exact Hle|]. simpl. lia. }
    apply safe_query.
    + intros clock s now Hr _ Hlen Ha. by eapply Hstep.
    + intros clock s now o Hr _ Hlen Ha _. by eapply (Hstep clock s now o None).
  - intros acc y (pre & E & Hy & Hf & _ & Hlt). rewrite app_nil_r in E. subst pre. auto.
  - exists []. by split_and!.
Qed.

(** * Sorting the fetched segments *)

Lemma gather_group_spec group results f :
  fetch_failed f = false → length results = length group →
  ∃ K R, let f' := gather (batch := batch) group results f in
    consumed f' = consumed f ++ (entry_of <$> K) ∧ refused f' = refused f ++ (claimed_id <$> R) ∧
    R `sublist_of` group ∧ (fetch_failed f' = false → K ++ R ≡ₚ group) ∧
    (batches f' = [] → ∀ cs, cs ∈ K → ∃ i, group !! i = Some cs ∧ results !! i = Some (Some (Ready []))).
Proof.
  revert results f. induction group as [|cs group IH]; intros [|res results] f Hf Hlen; try done.
  { exists [], []. simpl. rewrite !app_nil_r. split_and!; try done. by intros _ cs ?%elem_of_nil. }
  simpl in Hlen. destruct res as [[bs|]|].
  - destruct (IH results (mkFetched (batches f ++ bs) (consumed f ++ [entry_of cs]) (refused f) false)) as
      (K & R & Hc & Hr & Hsub & Hperm & Hb); [done|lia|]. exists (cs :: K), R. simpl in *. split_and!.
    + etrans; [exact Hc|]. by rewrite <- app_assoc.
    + done.
    + by apply sublist_cons.
    + intros Hfail. by rewrite (Hperm Hfail).
    + intros E cs' [->|Hin]%elem_of_cons; [|by destruct (Hb E cs' Hin) as [i ?]; exists (S i)].
      exists 0%nat. split; [done|]. simpl. do 3 f_equal.
      assert (∀ l r (g : Fetched (batch := batch)), batches (gather l r g) = [] → batches g = []) as Hmono.
      { clear. intros l. induction l as [|x l IH]; intros [|[[bs|]|] r] g; simpl; try done; intros E%IH; simpl in E; try done.
        by apply app_nil in E as [? _]. }
      apply Hmono in E. simpl in E. by apply app_nil in E as [_ ->].
  - destruct (IH results (mkFetched (batches f) (consumed f) (refused f ++ [claimed_id cs]) false)) as
      (K & R & Hc & Hr & Hsub & Hperm & Hb); [done|lia|]. exists K, (cs :: R). simpl in *. split_and!.
    + done.
    + etrans; [exact Hr|]. by rewrite <- app_assoc.
    + by apply sublist_skip.
    + intros Hfail. by rewrite <- Permutation_middle, (Hperm Hfail).
    + intros E cs' Hin. destruct (Hb E cs' Hin) as [i ?]. by exists (S i).
  - exists [], []. simpl. rewrite !app_nil_r. split_and!; try done; [apply sublist_nil_l|]. by intros _ cs' ?%elem_of_nil.
Qed.

(** * A group *)

Lemma owns_perm2 Know F F' D D' x : F ≡ₚ F' → D ≡ₚ D' → owns Know F D x → owns Know F' D' x.
Proof. unfold DrainSafe.owns. by intros -> ->. Qed.

Lemma owns_know (Know Know' : St → Prop) F D x : Know' x → owns Know F D x → owns Know' F D x.
Proof. by intros ? (_ & ?). Qed.

Definition anything (x : St) : Prop := True.

Lemma eternal_anything : eternal anything.
Proof. done. Qed.

(** What the cycle knows once a group's objects are read. *)
Definition fetched (group : list ClaimedSegment) (bodies : list (option bytes)) (x : St) : Prop :=
  Forall2 (λ cs b, fetched_from cs b x) group bodies ∧ Forall (λ cs, claimed_at cs < x.1) group.

Lemma eternal_fetched group bodies : eternal (fetched group bodies).
Proof.
  intros x y Hle Hw _ [Hf Hlt]. split.
  - eapply Forall2_impl; [exact Hf|]. intros cs b H b' Hb. destruct (H b' Hb) as [t ?]. exists t. by rewrite Hw.
  - eapply Forall_impl; [exact Hlt|]. simpl. lia.
Qed.

(** The segments read as empty are empty in the mirror. *)
Lemma fetched_empty group bodies owner strict K x :
  fetched group bodies x →
  (∀ cs, cs ∈ K → ∃ i, group !! i = Some cs ∧
     (classify (batch := batch) uuid_string owner strict <$> bodies) !! i = Some (Some (Ready []))) →
  Forall (λ cs, empty_object cs x) K.
Proof.
  intros [Hf _] HK. apply Forall_forall. intros cs Hcs. destruct (HK cs Hcs) as (i & Hi & Hres).
  rewrite list_lookup_fmap in Hres. destruct (bodies !! i) as [body|] eqn:Hb; [|done]. injection Hres as Hres.
  pose proof (Forall2_lookup_lr _ _ _ _ _ _ Hf Hi Hb) as Hfrom.
  destruct body as [b|]; [|done]. simpl in Hres. destruct (Hfrom b eq_refl) as [t Ht]. exists t, b. split; [done|].
  repeat case_match; simplify_eq; done.
Qed.

(** The claims that are neither committed nor released, and their state. *)
Context (claimed : list ClaimedSegment).

Definition cycle_ok (st : CycleState) (F : list ClaimedSegment) (x : St) : Prop :=
  ∃ D, owns anything F D x ∧ committed_ids st = claimed_id <$> D ∧
    ∀ cs, cs ∈ claimed → claimed_id cs ∉ committed_ids st → claimed_id cs ∉ released_ids st → cs ∈ F.

Definition flow_ok (F : list ClaimedSegment) (r : option Flow) (x : St) : Prop :=
  match r with
  | Some (Continue st) => cycle_ok st F x
  | Some (Break st) => ∃ F, cycle_ok st F x
  | None => True
  end.

(** Claims that were given up are released; the others of the group go on. *)
Lemma cycle_release st F D (group R K : list ClaimedSegment) x :
  owns anything (K ++ F) D x → committed_ids st = claimed_id <$> D → group ≡ₚ R ++ K →
  (∀ cs, cs ∈ claimed → claimed_id cs ∉ committed_ids st → claimed_id cs ∉ released_ids st → cs ∈ group ++ F) →
  cycle_ok (mkCycle (committed_ids st) (released_ids st ++ (claimed_id <$> R)) (provenance st)) (K ++ F) x.
Proof.
  intros Ho Hc Hp Hcov. exists D. split_and!; try done. simpl. intros cs Hcs Hnc Hnr. rewrite elem_of_app in Hnr.
  specialize (Hcov cs Hcs Hnc). rewrite Hp in Hcov. assert (cs ∉ R) by (intros HR; apply Hnr; right; by apply list_elem_of_fmap_2).
  set_solver.
Qed.

(** Claims that were appended are committed. *)
Lemma cycle_commit st F D K prov x :
  owns anything F (K ++ D) x → committed_ids st = claimed_id <$> D →
  (∀ cs, cs ∈ claimed → claimed_id cs ∉ committed_ids st → claimed_id cs ∉ released_ids st → cs ∈ K ++ F) →
  cycle_ok (mkCycle (committed_ids st ++ (claimed_id <$> K)) (released_ids st) prov) F x.
Proof.
  intros Ho Hc Hcov. exists (D ++ K). split_and!.
  - eapply owns_perm2; [done|apply Permutation_app_comm|done].
  - simpl. by rewrite Hc, fmap_app.
  - simpl. intros cs Hcs Hnc Hnr. rewrite elem_of_app in Hnc. destruct (elem_of_app K F cs) as [Hin _].
    destruct Hin as [HK|]; [apply Hcov; tauto| |done]. exfalso. apply Hnc. right. by apply list_elem_of_fmap_2.
Qed.

Lemma filter_refused (group R K : list ClaimedSegment) :
  group ≡ₚ R ++ K → NoDup (claimed_id <$> group) → filter (λ cs, claimed_id cs ∉ claimed_id <$> R) group ≡ₚ K.
Proof.
  intros Hp Hnd. rewrite Hp in Hnd. rewrite fmap_app in Hnd. apply NoDup_app in Hnd as (_ & Hdis & _).
  rewrite Hp, filter_app. assert (filter (λ cs, claimed_id cs ∉ claimed_id <$> R) R = []) as ->.
  { clear. assert (∀ R', R' ⊆ R → filter (λ cs, claimed_id cs ∉ claimed_id <$> R) R' = []) as H; [|by apply H].
    intros R'. induction R' as [|cs R' IH]; intros Hsub; [done|]. rewrite filter_cons_False; [apply IH; set_solver|].
    intros Hn. apply Hn. apply list_elem_of_fmap_2. set_solver. }
  simpl. clear Hp. induction K as [|cs K IH]; [done|]. rewrite filter_cons_True.
  - rewrite IH; [done|]. intros i Hi Hk. apply (Hdis i Hi). by right.
  - intros Hin. apply (Hdis _ Hin). left.
Qed.

(** From the watermark to the append, for the claims [K] of a group. *)
Lemma safe_resolved_append Know g (bs : list batch) K F D owner st group (x : St) :
  eternal Know → owns Know (K ++ F) D x → Forall (λ cs, group_of cs = g) K →
  (∀ y, Know y → Forall (λ cs, claimed_at cs < y.1) K ∧ (bs = [] → Forall (λ cs, empty_object cs y) K)) →
  K ≡ₚ group → committed_ids st = claimed_id <$> D →
  (∀ cs, cs ∈ claimed → claimed_id cs ∉ committed_ids st → claimed_id cs ∉ released_ids st → cs ∈ K ++ F) →
  safe me
    (let* stored := consumed_proof_watermark g.1 g.2 in
     let* terminal := terminal_consumed_proof_entries g in
     let* r := catch (commit_batches g bs (entry_of <$> K) (watermark_for_incarnation stored owner) terminal owner) in
     match r with
     | None => Ret (Break st)
     | Some _ =>
         Ret (Continue (mkCycle (committed_ids st ++ (claimed_id <$> group)) (released_ids st)
                (match owner with Some u => record g.1 g.2 u (provenance st) | None => provenance st end)))
     end) (flow_ok F) x.
Proof.
  intros HKnow Hx Hg Hk Hperm Hc Hcov.
  apply safe_bind. eapply safe_mono; [|apply (safe_watermark me _ g x (steady_owns c start Know HKnow _ _) Hx)].
  intros [stored|] y [Hy Hmark]; [|done]. apply safe_bind.
  set (Q := λ z : St, owns Know (K ++ F) D z ∧ ∀ w, watermark_for_incarnation stored owner = Some w → safe_mark z.1 z.2 g w).
  assert (steady me Q) as HQ.
  { apply steady_and; [by apply steady_owns|]. split; [intros u v Hr|intros clock now s Hle]; intros H w Hw; specialize (H w Hw).
    - by eapply (proj1 (steady_mark me g w)).
    - by eapply (proj2 (steady_mark me g w)). }
  eapply safe_mono; [|apply (safe_terminal me Q g y HQ)].
  2:{ split; [done|]. intros w Hw. unfold watermark_for_incarnation in Hw. destruct stored as [sw|]; [|done].
      case_bool_decide; [|done]. by injection Hw as <-. }
  intros [terminal|] z [[Hz Hm] Ht]; [|done]. apply safe_bind, safe_catch.
  assert (Know z) as Hkz by apply Hz. destruct (Hk z Hkz) as [Hlt Hempty].
  eapply safe_mono; [|apply (safe_commit_batches c start Know HKnow g bs K F D _ terminal owner z Hg)]; [|by split_and!|done].
  intros [[]|] u Hu; simpl.
  - eapply cycle_commit; [|exact Hc|].
    + eapply owns_know; [done|]. eapply owns_perm2; [done| |exact Hu]. by rewrite Hperm.
    + intros cs H1 H2 H3. specialize (Hcov cs H1 H2 H3). by rewrite Hperm in Hcov.
  - exists (K ++ F), D. split_and!; [by eapply owns_know|done|done].
Qed.

Lemma safe_resolved g group owner strict st F (x : St) :
  cycle_ok st (group ++ F) x → group ≠ [] → Forall (λ cs, group_of cs = g) group →
  safe me (drain_resolved uuid_string cfg g group owner strict st) (flow_ok F) x.
Proof.
  intros (D & Hx & Hc & Hcov) Hne Hg. unfold drain_resolved. apply safe_bind.
  assert (Forall (λ cs, claimed_at cs ≤ x.1) group) as Hat.
  { destruct Hx as (_ & _ & [HG _]%Forall_app & _). eapply Forall_impl; [exact HG|]. intros cs [? _]. lia. }
  eapply safe_mono; [|apply (safe_fetch _ group x (steady_owns c start anything eternal_anything _ _) Hx Hne Hat)].
  intros [bodies|] y; [|done]. intros (Hy & Hf & Hlt). cbv zeta.
  assert (NoDup (claimed_id <$> group)) as Hnd.
  { destruct Hy as (_ & Hnd & _). rewrite <- app_assoc, fmap_app in Hnd. by apply NoDup_app in Hnd as [? _]. }
  destruct (gather_group_spec group (classify uuid_string owner strict <$> bodies) (mkFetched [] [] [] false)) as
    (K & R & HK & HR & Hsub & Hperm & Hb); [done|rewrite length_fmap; symmetry; by eapply Forall2_length|].
  set (f := gather _ _ _) in *. simpl in HK, HR. apply sublist_submseteq, submseteq_Permutation in Hsub as [K' HK'].
  rewrite HK, HR. apply safe_bind.
  assert (owns (fetched group bodies) (R ++ (K' ++ F)) D y) as Hy'.
  { eapply owns_know; [by split|]. eapply owns_perm2; [|done|exact Hy]. by rewrite HK', app_assoc. }
  eapply safe_mono; [|apply (safe_give_up tm c start (fetched group bodies) (quarantine_terminal c) (λ i, i) _ R (K' ++ F) D y); [|by rewrite list_fmap_id|exact Hy']].
  2:{ intros cs F' z. apply safe_quarantine; [done|apply eternal_fetched]. }
  intros [[]|] z [Er Hz]; [|done]. clear Er.
  pose proof (filter_refused group R K' HK' Hnd) as Hgroup.
  assert (cycle_ok (mkCycle (committed_ids st) (released_ids st ++ (claimed_id <$> R)) (provenance st)) (K' ++ F) z) as Hst.
  { eapply cycle_release; [by eapply owns_know|done|exact HK'|done]. }
  case_bool_decide as Hlen.
  { simpl. apply nil_length_inv in Hlen. rewrite Hlen in Hgroup. by apply Permutation_nil in Hgroup as ->. }
  case_match eqn:Hfail; [by exists (K' ++ F)|].
  assert (K ≡ₚ K') as HKK'.
  { specialize (Hperm eq_refl). rewrite HK', (Permutation_app_comm R K') in Hperm. by apply Permutation_app_inv_r in Hperm. }
  destruct Hst as (D' & Ho' & Hc' & Hcov'). simpl in *.
  apply (safe_resolved_append (fetched group bodies) g (batches f) K F D owner
    (mkCycle (committed_ids st) (released_ids st ++ (claimed_id <$> R)) (provenance st))).
  - apply eternal_fetched.
  - eapply owns_perm2; [|done|exact Hz]. by rewrite HKK'.
  - rewrite HKK'. rewrite HK' in Hg. by apply Forall_app in Hg as [_ ?].
  - intros u Hu. split; [|intros E; eapply fetched_empty; [exact Hu|by apply Hb]]. destruct Hu as [_ Hu]. rewrite HKK'.
    rewrite HK' in Hu. by apply Forall_app in Hu as [_ ?].
  - by rewrite HKK', Hgroup.
  - done.
  - intros cs H1 H2 H3. rewrite HKK'. by apply Hcov'.
Qed.

Lemma safe_release_all Know G F D (x : St) :
  eternal Know → owns Know (G ++ F) D x →
  safe me (release_all cfg (claimed_id <$> G)) (λ r y, r = Some tt ∧ owns Know F D y) x.
Proof.
  intros HKnow Hx. apply (safe_give_up tm c start Know (release c) (λ i, i) _ G F D x); [|by rewrite list_fmap_id|done].
  intros cs F' z. by apply safe_release.
Qed.

Lemma safe_give_back group st F (x : St) :
  cycle_ok st (group ++ F) x → safe me (give_back cfg group st) (flow_ok F) x.
Proof.
  intros (D & Hx & Hc & Hcov). unfold give_back. apply safe_bind.
  eapply safe_mono; [|by apply (safe_release_all anything group F D)]. intros r y [-> Hy]. simpl.
  apply (cycle_release st F D group group [] y); try done. by rewrite app_nil_r.
Qed.

Lemma steady_cycle st F : steady me (cycle_ok st F).
Proof.
  split; [intros x y Hr|intros clock now s Hle]; intros (D & Ho & ?); exists D; (split; [|done]).
  - by eapply (proj1 (steady_owns c start anything eternal_anything F D)).
  - by eapply (proj2 (steady_owns c start anything eternal_anything F D)).
Qed.

(** A question to the outside, its failure a value. *)
Lemma safe_ask (P : St → Prop) {B : Set} (f : World → B) (x : St) :
  steady me P → P x → safe me (catch (ask f)) (λ r y, match r with Some _ => P y | None => False end) x.
Proof.
  intros HP Hx. apply safe_catch, safe_query; [intros clock s now Hr _ Hle _|intros clock s now o Hr _ Hle _ _];
    by eapply steady_read.
Qed.

Lemma safe_open_namespace (P : St → Prop) t (x : St) :
  steady me P → P x → safe me (open_namespace t) (λ r y, match r with Some _ => P y | None => False end) x.
Proof. intros HP Hx. unfold open_namespace. case_decide; [done|]. by apply safe_ask. Qed.

Lemma safe_group g group st F (x : St) :
  cycle_ok st (group ++ F) x → group ≠ [] → Forall (λ cs, group_of cs = g) group →
  safe me (drain_group uuid_string cfg st (g, group)) (flow_ok F) x.
Proof.
  intros Hx Hne Hg. unfold drain_group. apply safe_bind.
  eapply safe_mono; [|by apply (safe_open_namespace _ g.1 x (steady_cycle st (group ++ F)))].
  intros [opens|] y Hy; [|done]. case_bool_decide; [simpl; by exists (group ++ F)|].
  case_decide; [by apply safe_resolved|]. apply safe_bind.
  eapply safe_mono; [|by apply (safe_ask _ _ y (steady_cycle st (group ++ F)))].
  intros [resolves|] z Hz; [|done]. case_match; [by apply safe_give_back|]. apply safe_bind.
  eapply safe_mono; [|by apply (safe_ask _ _ z (steady_cycle st (group ++ F)))].
  intros [claim|] u Hu; [|done]. destruct (default None claim) as [[]|];
    [by apply safe_resolved..|by apply safe_give_back|by apply safe_give_back].
Qed.

Lemma safe_groups st groups (x : St) :
  cycle_ok st (groups ≫= snd) x → Forall (λ gg, gg.2 ≠ [] ∧ Forall (λ cs, group_of cs = gg.1) gg.2) groups →
  safe me (drain_groups uuid_string cfg st groups) (flow_ok []) x.
Proof.
  revert st x. induction groups as [|[g group] groups IH]; intros st x Hx Hall; simpl; [done|].
  apply Forall_cons in Hall as [[Hne Hg] Hall]. apply safe_bind.
  eapply safe_mono; [|by apply (safe_group g group st (groups ≫= snd))].
  intros [[st'|st']|] y Hy; simpl in *; [by apply IH|done|done].
Qed.
End Cycle.

(** * The groups of a claim *)

Lemma filter_partition {A} (P : A → Prop) `{!∀ x, Decision (P x)} l :
  filter P l ++ filter (λ x, ¬ P x) l ≡ₚ l.
Proof.
  induction l as [|x l IH]; [done|]. rewrite !filter_cons.
  repeat case_decide; try done; simpl; rewrite <- ?Permutation_middle; by rewrite IH.
Qed.

Lemma filter_other (g h : Target) (l : list ClaimedSegment) :
  h ≠ g → filter (λ cs, group_of cs = h) (filter (λ cs, ¬ group_of cs = g) l) = filter (λ cs, group_of cs = h) l.
Proof.
  intros Hne. induction l as [|cs l IH]; [done|]. rewrite !filter_cons. repeat case_decide; rewrite ?filter_cons, ?IH;
    repeat case_decide; congruence.
Qed.

Lemma group_bind gs (claimed : list ClaimedSegment) :
  NoDup gs → (∀ cs, cs ∈ claimed → group_of cs ∈ gs) → (gs ≫= λ g, filter (λ cs, group_of cs = g) claimed) ≡ₚ claimed.
Proof.
  intros Hnd. revert claimed. induction Hnd as [|g gs Hg Hnd IH]; intros claimed Hin.
  - destruct claimed as [|cs claimed]; [done|]. specialize (Hin cs). set_solver.
  - simpl. etrans; [|apply (filter_partition (λ cs, group_of cs = g))]. apply Permutation_app_head.
    rewrite <- (IH (filter (λ cs, ¬ group_of cs = g) claimed)).
    + assert (∀ hs, g ∉ hs → (hs ≫= λ h, filter (λ cs, group_of cs = h) claimed) =
        (hs ≫= λ h, filter (λ cs, group_of cs = h) (filter (λ cs, ¬ group_of cs = g) claimed))) as Hext; [|by rewrite Hext].
      intros hs. induction hs as [|h hs IHh]; [done|]. rewrite not_elem_of_cons. intros [??]. simpl.
      f_equal; [by rewrite filter_other|by apply IHh].
    + intros cs [Hne Hcs]%list_elem_of_filter. specialize (Hin cs Hcs). set_solver.
Qed.

Lemma by_group_spec claimed :
  (by_group claimed ≫= snd) ≡ₚ claimed ∧
  Forall (λ gg, gg.2 ≠ [] ∧ Forall (λ cs, group_of cs = gg.1) gg.2) (by_group claimed).
Proof.
  unfold by_group. set (gs := merge_sort target_le (remove_dups (group_of <$> claimed))).
  assert (∀ g, g ∈ gs ↔ g ∈ group_of <$> claimed) as Hgs.
  { intros g. unfold gs. by rewrite merge_sort_Permutation, elem_of_remove_dups. }
  split.
  - rewrite list_fmap_bind. apply group_bind.
    + unfold gs. rewrite merge_sort_Permutation. apply NoDup_remove_dups.
    + intros cs Hcs. apply Hgs. by apply list_elem_of_fmap_2.
  - apply Forall_fmap, Forall_forall. intros g Hg. simpl. split.
    + apply Hgs in Hg. apply list_elem_of_fmap in Hg as (cs & -> & Hcs). intros E.
      assert (cs ∈ filter (λ cs', group_of cs' = group_of cs) claimed) as Hin by (by apply list_elem_of_filter).
      rewrite E in Hin. by apply elem_of_nil in Hin.
    + apply Forall_forall. by intros cs [? _]%list_elem_of_filter.
Qed.

(** * The pass *)

(** The ids a failed pass gives back are claims it still holds. *)
Lemma left_over c start claimed F D (y z : St) (committed released : list rstr) :
  DrainSafe.owns (batch := batch) tm c start anything claimed [] y →
  DrainSafe.owns (batch := batch) tm c start anything F D z →
  (∀ cs, cs ∈ claimed → claimed_id cs ∉ committed → claimed_id cs ∉ released → cs ∈ F) →
  ∃ G F', filter (λ i, i ∉ committed ∧ i ∉ released) (claimed_id <$> claimed) = claimed_id <$> G ∧ F ≡ₚ G ++ F'.
Proof.
  intros (_ & Hnd & _) _ Hcov. rewrite app_nil_r in Hnd.
  set (G := filter (λ cs, claimed_id cs ∉ committed ∧ claimed_id cs ∉ released) claimed).
  assert (NoDup G) as HG.
  { eapply (sublist_NoDup _ claimed); [by eapply NoDup_fmap_1|apply sublist_filter]. }
  assert (G ⊆+ F) as [F' HF]%submseteq_Permutation.
  { apply NoDup_submseteq; [done|]. intros cs [[??] ?]%list_elem_of_filter. auto. }
  exists G, F'. split; [|done]. unfold G. clear.
  induction claimed as [|cs l IH]; [done|]. rewrite fmap_cons, !filter_cons. case_decide; [|done]. by rewrite IH.
Qed.

Lemma safe_pass uuid_string cfg start locked (x : St) :
  safe (ADrain (claimer cfg) start) (drain_pass uuid_string cfg locked) (λ _ _, True) x.
Proof.
  unfold drain_pass. set (me := ADrain (claimer cfg) start).
  assert (∀ (B : Set) (f : Z → Db → B) (x : St) (Q : option (option B) → St → Prop),
    (∀ r y, Q (Some r) y) → safe me (catch (sqlq f)) Q x) as Hpeek.
  { intros B f x0 Q HQ. apply safe_catch, safe_query; intros; apply HQ. }
  apply safe_bind, Hpeek. intros _ y1. apply safe_bind, Hpeek. intros peeked y2. case_match; [done|].
  apply safe_bind. eapply safe_mono; [|by apply (safe_try_claim tm Htm (claimer cfg) start anything eternal_anything)].
  intros [claimed|] y Hy; [|done]. case_bool_decide; [done|]. apply safe_bind.
  destruct (by_group_spec claimed) as [Hperm Hall].
  eapply safe_mono; [|apply (safe_groups uuid_string cfg start claimed (mkCycle [] [] ∅) (by_group claimed) y); [|done]].
  2:{ exists []. split_and!; [|done|]. { eapply owns_perm2; [|done|exact Hy]. by rewrite Hperm. }
      intros cs Hcs _ _. by rewrite Hperm. }
  intros [[st|st]|] z Hz; simpl in Hz; [| |done].
  - destruct Hz as (D & Ho & Hc & _). apply safe_bind, safe_catch.
    eapply safe_mono; [|by apply (safe_mark_batch tm Htm (claimer cfg) start anything eternal_anything D)]. by intros [[]|].
  - destruct Hz as (F & D & Ho & Hc & Hcov). apply safe_bind.
    destruct (left_over (claimer cfg) start claimed F D y z _ _ Hy Ho Hcov) as (G & F' & -> & HF).
    eapply safe_mono; [|apply (safe_release_all cfg start anything G F' D); [done|]].
    2:{ eapply owns_perm2; [exact HF|done|done]. }
    intros r u [-> Hu]. apply safe_bind, safe_catch. rewrite <- (app_nil_r F') in Hu.
    apply (owns_drop _ _ _ _ F' [] [] D) in Hu.
    eapply safe_mono; [|by apply (safe_mark_batch tm Htm (claimer cfg) start anything eternal_anything D)]. by intros [[]|].
Qed.
End Pass.
