(* ===== verification/DrainReclaim.v ===== *)
(** The reclaim pass among the drains: what it decides of an abandoned claim is
    what the log says of it, and stays so until the pass acts on it. *)

From stdpp Require Import prelude gmap strings sorting relations.
From Stdlib Require Import ZArith Lia.
From S2P Require Import Prelude RustStr BTree WalFrame ConsumedProof Eff RelyGuarantee Catalog CatalogInv DrainCycle DrainInv DrainSafe DrainPass.

Section ReclaimPass.
Context {PJ : ProofJson} {PL : ProofJsonLaws} {batch : Type} `{!ArrowIpc batch} (tm : Timing) (Htm : timing_ok tm).

Abbreviation St := (Z * Sys)%type (only parsing).
Local Abbreviation inv := (DrainInv.inv (batch := batch) tm).
Local Abbreviation guar := (DrainInv.guar tm).
Local Abbreviation rely := (RelyGuarantee.rely inv compat guar).
Local Abbreviation safe := (RelyGuarantee.safe inv (allowed tm) compat guar).
Local Abbreviation steady := (DrainPass.steady (batch := batch) tm).

(** * Abandoned claims *)

(** The claim is still in the catalog, too old for its owner to act on;
    [verdict] is whether its rows are in the table. *)
Definition stuck (verdict : option bool) (cs : ClaimedSegment) (x : St) : Prop :=
  claimed_at cs + max_age tm < x.1 ∧
  ∃ r, r ∈ rows x.2 ∧ seg r = claimed_seg cs ∧ status r = Processing ∧ row_claimed_at r = Some (claimed_at cs) ∧
    ∀ v, verdict = Some v → (logged x.2 r ↔ v = true).

Lemma stuck_weaken v cs x : stuck v cs x → stuck None cs x.
Proof. intros (Ht & r & ? & ? & ? & ? & _). split; [done|]. by exists r. Qed.

Lemma steady_stuck v cs : steady AReclaim (stuck v cs).
Proof.
  split; [|intros clock now s Hle [Ht H]; split; [simpl in *; lia|done]].
  intros x y. apply (rely_ind_stable tm AReclaim (stuck v cs)). clear x y.
  intros x y _ _ Hle b Hc Hg (Ht & r & Hr & Hseg & Hs & Hat & Hv). split; [lia|].
  destruct (guar_claims _ _ _ _ Hg r Hr Hs) as [[Hr' Hlog]|Htouch].
  - exists r. split_and!; try done. intros b' Hb. rewrite <- (Hv b' Hb). split; [done|]. apply (guar_log _ _ _ _ Hg).
  - exfalso. destruct b as [c st| |]; simpl in *; [|done..]. destruct Htouch as [_ Htouch].
    specialize (Htouch _ Hat). destruct Htm as (? & ? & ?). lia.
Qed.

Lemma steady_Forall a {X} (P : X → St → Prop) (l : list X) :
  (∀ i, steady a (P i)) → steady a (λ x, Forall (λ i, P i x) l).
Proof.
  intros HP. split; [intros x y Hr|intros clock now s Hle]; intros H; (eapply Forall_impl; [exact H|]); intros i.
  - by apply (proj1 (HP i)).
  - by apply (proj2 (HP i)).
Qed.

Lemma stuck_row v cs clock s r :
  inv (clock, s) → stuck v cs (clock, s) → r ∈ rows s → row_id r = claimed_id cs →
  seg r = claimed_seg cs ∧ status r = Processing ∧ row_claimed_at r = Some (claimed_at cs) ∧
  claimed_at cs + max_age tm < clock ∧ ∀ b, v = Some b → (logged s r ↔ b = true).
Proof.
  intros Hi (Ht & r' & Hr' & Hseg & Hs & Hat & Hv) Hr E. simpl in *.
  assert (r' = r) as ->; [|by split_and!].
  eapply same_row; [apply (inv_ids _ _ Hi)|done..|]. rewrite E. unfold row_id, claimed_id. by rewrite Hseg.
Qed.

(** An [UPDATE] of other rows. *)
Lemma update_stuck v cs clock now s cond set d :
  clock ≤ now → wal_segments d = updated cond set <$> rows s →
  (∀ r, r ∈ rows s → cond r = true → row_id r ≠ claimed_id cs) →
  stuck v cs (clock, s) → stuck v cs (now, set_db d s).
Proof.
  intros Hle E Hother (Ht & r & Hr & Hseg & Hs & Hat & Hv). split; [simpl in *; lia|]. exists r. split_and!; try done.
  unfold rows. simpl. rewrite E. replace r with (updated cond set r); [by apply list_elem_of_fmap_2|].
  unfold updated. destruct (cond r) eqn:Ec; [|done]. exfalso. apply (Hother r Hr Ec).
  unfold row_id, claimed_id. by rewrite Hseg.
Qed.

Lemma safe_abandoned limit (x : St) :
  safe AReclaim (abandoned_claims (max_age tm) limit)
    (λ r y, match r with
            | Some l => NoDup (claimed_id <$> l) ∧ Forall (λ cs, stuck None cs y) l
            | None => True
            end) x.
Proof.
  apply safe_query; [|done]. intros clock s now _ Hi Hle _.
  set (l := filter (λ r, abandoned (now - max_age tm) r = true) (rows s)).
  assert (∀ r, r ∈ oldest_first claimed_or limit l → r ∈ l) as Hsub.
  { intros r Hr. rewrite <- (merge_sort_Permutation (by_key claimed_or) l). by apply subseteq_take in Hr. }
  split.
  - change (NoDup (claimed_id <$> ((λ r, mkClaimed (seg r) (claimed_or r)) <$> oldest_first claimed_or limit l))).
    rewrite <- list_fmap_compose. change (NoDup (row_id <$> oldest_first claimed_or limit l)).
    eapply sublist_NoDup; [|apply fmap_sublist, sublist_take]. rewrite merge_sort_Permutation.
    eapply sublist_NoDup; [apply (inv_ids _ _ Hi)|]. apply fmap_sublist, sublist_filter.
  - apply Forall_fmap, Forall_forall. intros r [Ha Hr]%Hsub%list_elem_of_filter.
    apply andb_true_iff in Ha as [Hs%is_status_spec Ht]. simpl. unfold claimed_or.
    destruct (row_claimed_at r) as [t|] eqn:Et; [|done]. apply Z.ltb_lt in Ht. split; [simpl; lia|].
    exists r. by split_and!.
Qed.

(** * Reading the proofs *)

(** What the pass makes of a claim by the proof of its table. *)
Definition verdict (proof : option ReclaimProofSources) (cs : ClaimedSegment) : bool :=
  match proof with Some p => proves_committed p (claimed_id cs) | None => false end.

Lemma proof_key_inj (g h : Target) : 0x2F ∉ g.1 → 0x2F ∉ h.1 → proof_key g = proof_key h → g = h.
Proof.
  destruct g as [t i], h as [u j]. unfold proof_key. simpl. intros Ht Hu. revert u Hu.
  induction t as [|a t IH]; intros [|b u] Hu E; simplify_eq/=; [done|set_solver..|].
  assert ((t, i) = (u, j)) as [= -> ->]; [|done]. apply IH; [set_solver|set_solver|done].
Qed.

Lemma proven_proves r t i : proven_in r t → i = row_id r → proves_committed (sources_of t) i = true.
Proof.
  intros (value & p & τ & Hv & Hd & Hτ & _) ->. unfold proves_committed. simpl.
  unfold durable_consumed_proof, proof_from_table. rewrite Hv, Hd.
  replace (ConsumedProof.contains (arrow (row_id r)) p) with true; [done|]. symmetry. apply contains_time. by rewrite Hτ.
Qed.

(** The proof read for a target decides its abandoned claims. *)
Lemma read_verdict clock now s g cs :
  inv (clock, s) → clock ≤ now → stuck None cs (clock, s) → group_of cs = g →
  stuck (Some (verdict (sources_of <$> cached_table g now s) cs)) cs (now, s).
Proof.
  intros Hi Hle (Ht & r & Hr & Hseg & Hs & Hat & _) Hg. simpl in *. split; [simpl; lia|]. exists r. split_and!; try done.
  assert (target r = g) as Hgr by (rewrite <- Hg; unfold target, group_of; by rewrite Hseg).
  assert (row_id r = claimed_id cs) as Hid by (unfold row_id, claimed_id; by rewrite Hseg).
  pose proof (inv_rows _ _ Hi r Hr) as Hrow. simpl in Hrow.
  assert (status r ≠ Committed) as Hopen by (by rewrite Hs).
  intros v [= <-]. destruct (cached_table g now s) as [t|] eqn:Et; simpl.
  - split.
    + intros Hl. eapply proven_proves; [|done]. by eapply (read_proves tm clock now s g t r (claimed_at cs)); [..|lia|].
    + intros Hp. unfold logged. rewrite Hgr, Hid. eapply (read_sound tm clock now s g t); try done.
      rewrite <- Hid. by destruct (row_inv_name _ _ _ _ Hrow) as (_ & ? & _).
  - split; [|done]. intros Hl. destruct (row_inv_logged _ _ _ _ Hrow Hl Hopen) as (_ & newer & gen & older & t & Hh & _).
    apply generation_None in Et. rewrite Hgr, Et in Hh. by destruct newer.
Qed.

Lemma stuck_tenant v cs clock s : inv (clock, s) → stuck v cs (clock, s) → 0x2F ∉ (group_of cs).1.
Proof.
  intros Hi (_ & r & Hr & Hseg & _). destruct (row_inv_name _ _ _ _ (inv_rows _ _ Hi r Hr)) as (_ & _ & Hn).
  simpl. by rewrite <- Hseg.
Qed.

Section Claims.
Context (all : list ClaimedSegment).

(** The proofs kept so far decide every claim of their targets. *)
Definition proofs_ok (proofs : list (rstr * option ReclaimProofSources)) (x : St) : Prop :=
  Forall (λ kp, Forall (λ cs, proof_key (group_of cs) = kp.1 → stuck (Some (verdict kp.2 cs)) cs x) all) proofs.

Lemma steady_proofs proofs : steady AReclaim (proofs_ok proofs).
Proof.
  apply steady_Forall. intros kp. apply steady_Forall. intros cs.
  split; [intros x y Hr H E|intros clock now s Hle H E].
  - by eapply (proj1 (steady_stuck _ cs)); [|apply H].
  - by eapply (proj2 (steady_stuck _ cs)); [|apply H].
Qed.

Definition waiting (proofs : list (rstr * option ReclaimProofSources)) (C R : list ClaimedSegment) (x : St) : Prop :=
  Forall (λ cs, stuck None cs x) all ∧ proofs_ok proofs x ∧
  Forall (λ cs, stuck (Some true) cs x) C ∧ Forall (λ cs, stuck (Some false) cs x) R.

Lemma steady_waiting proofs C R : steady AReclaim (waiting proofs C R).
Proof.
  repeat apply steady_and; [|apply steady_proofs|..]; apply steady_Forall; intros cs; apply steady_stuck.
Qed.

Lemma safe_reclaim_proof cs proofs C R (x : St) :
  cs ∈ all → waiting proofs C R x →
  safe AReclaim (reclaim_proof_for (group_of cs))
    (λ r y, match r with
            | Some proof => waiting ((proof_key (group_of cs), proof) :: proofs) C R y
            | None => True
            end) x.
Proof.
  intros Hcs Hx. unfold reclaim_proof_for.
  assert (∀ x, waiting proofs C R x → safe AReclaim (catch (reclaim_proof_sources (group_of cs)))
    (λ r y, match r with
            | Some proof => waiting ((proof_key (group_of cs), proof) :: proofs) C R y
            | None => True
            end) x) as Hread.
  { intros y Hy. unfold reclaim_proof_sources. apply safe_catch, safe_bind, safe_query; cycle 1.
    { intros clock s now o _ _ _ (_ & _ & _ & Ha) Hne. destruct Hne. auto. }
    intros clock s now Hr Hi Hle _. apply (proj1 (steady_waiting proofs C R) _ _ Hr) in Hy.
    assert (waiting ((proof_key (group_of cs), sources_of <$> cached_table (group_of cs) now s) :: proofs) C R (now, s)) as Hz.
    { pose proof Hy as (Hall & _). destruct (proj2 (steady_waiting proofs C R) _ _ _ Hle Hy) as (Ha & Hp & HC & HR).
      split_and!; try done. constructor; [|done]. rewrite Forall_forall in Hall |- *. intros cs' Hcs' E. simpl in E |- *.
      assert (group_of cs' = group_of cs) as Eg.
      { apply proof_key_inj; [by eapply stuck_tenant; [|apply Hall]..|done]. }
      rewrite <- Eg. by apply (read_verdict clock); auto. }
    by destruct (cached_table (group_of cs) now s). }
  apply safe_bind. unfold open_namespace. case_decide; [by apply Hread|]. apply safe_catch, safe_query.
  - intros clock s now Hr _ Hle _. apply Hread. eapply (steady_read tm AReclaim); [apply steady_waiting|exact Hr|done|done].
  - intros clock s now o _ _ _ (_ & _ & _ & Ha) Hne. destruct Hne. auto.
Qed.

(** What the loop has sorted so far. *)
Definition sorted_so_far (st : ReclaimState) (l : list ClaimedSegment) (x : St) : Prop :=
  ∃ C R, to_commit st = claimed_id <$> C ∧ to_requeue st = claimed_id <$> R ∧ C ++ R ++ l ≡ₚ all ∧ waiting (proofs st) C R x.

Lemma dispose_sorted cs st l proof (x : St) :
  sorted_so_far st (cs :: l) x → (proof_key (group_of cs), proof) ∈ proofs st → sorted_so_far (dispose cs proof st) l x.
Proof.
  intros (C & R & EC & ER & Hperm & Hall & Hp & HC & HR) Hin.
  assert (cs ∈ all) as Hcs by (rewrite <- Hperm; set_solver).
  assert (stuck (Some (verdict proof cs)) cs x) as Hv.
  { unfold proofs_ok in Hp. rewrite Forall_forall in Hp. specialize (Hp _ Hin). rewrite Forall_forall in Hp. by apply Hp. }
  assert (stuck (Some false) cs x → ∃ R', R' = R ++ [cs] ∧ to_requeue st ++ [claimed_id cs] = claimed_id <$> R' ∧
    C ++ R' ++ l ≡ₚ all ∧ waiting (proofs st) C R' x) as Hback.
  { intros Hno. exists (R ++ [cs]). split_and!; [done|by rewrite ER, fmap_app|by rewrite <- (app_assoc R)|].
    split_and!; try done. apply Forall_app. split; [done|]. by apply Forall_singleton. }
  unfold dispose. destruct proof as [p|]; simpl in Hv.
  - destruct (proves_committed p (claimed_id cs)).
    + exists (C ++ [cs]), R. simpl. split_and!; [by rewrite EC, fmap_app|done| |].
      * rewrite <- Hperm, <- app_assoc. simpl. by rewrite Permutation_middle.
      * split_and!; try done. apply Forall_app. split; [done|]. by apply Forall_singleton.
    + destruct (Hback Hv) as (R' & _ & ? & ? & ?). by exists C, R'.
  - destruct (Hback Hv) as (R' & _ & ? & ? & ?). by exists C, R'.
Qed.

Lemma safe_reclaim_one st cs l (x : St) :
  sorted_so_far st (cs :: l) x →
  safe AReclaim (reclaim_one st cs) (λ r y, match r with Some st => sorted_so_far st l y | None => True end) x.
Proof.
  intros Hx. unfold reclaim_one, known_proof.
  destruct (filter (λ kp, kp.1 = proof_key (group_of cs)) (proofs st)) as [|[key proof] k] eqn:Ef; simpl.
  - apply safe_bind. destruct Hx as (C & R & EC & ER & Hperm & Hw).
    eapply safe_mono; [|apply (safe_reclaim_proof cs (proofs st) C R x); [rewrite <- Hperm; set_solver|done]].
    intros [proof|] y Hy; [|done]. simpl. apply dispose_sorted; [by exists C, R|left].
  - apply dispose_sorted; [done|].
    assert ((key, proof) ∈ filter (λ kp, kp.1 = proof_key (group_of cs)) (proofs st)) as [Ek Hin]%list_elem_of_filter
      by (rewrite Ef; left). simpl in Ek. by rewrite <- Ek.
Qed.
End Claims.

(** * Acting on the verdicts *)

Definition disposed (C R : list ClaimedSegment) (x : St) : Prop :=
  Forall (λ cs, stuck (Some true) cs x) C ∧ Forall (λ cs, stuck (Some false) cs x) R.

Lemma steady_disposed C R : steady AReclaim (disposed C R).
Proof. apply steady_and; apply steady_Forall; intros cs; apply steady_stuck. Qed.

Lemma update_disposed C R clock now s cond set d :
  clock ≤ now → wal_segments d = updated cond set <$> rows s →
  (∀ r cs, r ∈ rows s → cond r = true → cs ∈ C ++ R → row_id r ≠ claimed_id cs) →
  disposed C R (clock, s) → disposed C R (now, set_db d s).
Proof.
  intros Hle E Hother [HC HR]. rewrite Forall_forall in HC, HR. split; apply Forall_forall; intros cs Hcs;
    (eapply update_stuck; [exact Hle|exact E| |auto]); intros r Hr Hc; (apply (Hother r cs); [done|done|set_solver]).
Qed.

Lemma reclaim_good clock now s C chunk :
  inv (clock, s) → clock ≤ now → Forall (λ cs, stuck (Some true) cs (clock, s)) C → chunk ⊆ claimed_id <$> C →
  good_update (batch := batch) tm AReclaim now s (λ r, id_in chunk r && is_status Processing r) (commit_reclaimed_row now).
Proof.
  intros Hi Hle HC Hsub r Hr [Hid%bool_decide_eq_true Hst%is_status_spec]%andb_true_iff.
  apply Hsub in Hid. apply list_elem_of_fmap in Hid as (cs & E & Hcs). rewrite Forall_forall in HC.
  destruct (stuck_row _ cs clock s r Hi (HC cs Hcs) Hr E) as (Hseg & Hs & Hat & Hold & Hv).
  pose proof (inv_rows _ _ Hi r Hr) as Hrow. destruct Htm as (? & ? & ?).
  split_and!; try done; [|congruence|intros _ t Ht; simplify_eq; lia].
  destruct (row_inv_mono _ clock now s r Hle Hrow) as [Hok Hn (Hreg & Htm' & _) _ _]. constructor; try done.
  - by apply commit_reclaimed_row_ok.
  - split_and!; try apply Hreg; try apply Htm'. intros _. exists (claimed_at cs). split; [done|]. simpl in *. lia.
  - intros _. left. unfold logged. apply (Hv true eq_refl). done.
Qed.

Lemma safe_mark_reclaimed C R p (x : St) :
  NoDup (claimed_id <$> C ++ R) → disposed C R x →
  safe AReclaim (mark_reclaimed_committed (claimed_id <$> C) p)
    (λ r y, match r with Some _ => disposed [] R y | None => True end) x.
Proof.
  intros Hnd Hx. unfold mark_reclaimed_committed.
  apply (safe_each _ _ _ _ _ _ (λ _ l y, ∃ C, concat l = claimed_id <$> C ∧ NoDup (claimed_id <$> C ++ R) ∧ disposed C R y)).
  - intros n chunk l y (C' & E & Hnd' & Hy). simpl in E. symmetry in E. apply fmap_app_inv in E as (C1 & C2 & E1 & E2 & ->).
    apply safe_bind, safe_sql; [|done]. intros clock s now Hr Hi Hle Ha. apply (proj1 (steady_disposed _ _) _ _ Hr) in Hy.
    assert (good_update (batch := batch) tm AReclaim now s (λ r, id_in chunk r && is_status Processing r) (commit_reclaimed_row now)) as Hg.
    { eapply (reclaim_good clock); [done|done|apply Hy|]. rewrite E1, fmap_app. set_solver. }
    destruct (mark_inv tm AReclaim clock now s _ (commit_reclaimed_row now) p
      (targets_of chunk (update_where (λ r, id_in chunk r && is_status Processing r) (commit_reclaimed_row now) (db s)).2)
      Hi Hle Hg) as [Hinv Hguar].
    rewrite <- (app_assoc C1), fmap_app in Hnd'. apply NoDup_app in Hnd' as (_ & Hdis & Hnd').
    split_and!; [exact Hinv|exact Hguar| |done]. simpl. exists C2. split_and!; [done|done|].
    eapply (update_disposed C2 R clock now s (λ r, id_in chunk r && is_status Processing r) (commit_reclaimed_row now));
      [done|apply advance_all_rows| |].
    + intros r cs _ [Hid%bool_decide_eq_true _]%andb_true_iff Hcs E'. rewrite E1 in Hid. apply (Hdis _ Hid). rewrite E'.
      by apply list_elem_of_fmap_2.
    + destruct Hy as [[_ HC]%Forall_app HR]. by split.
  - intros n y (C' & E & _ & Hy). by destruct C'.
  - exists C. by rewrite concat_chunks.
Qed.

Lemma safe_requeue R (x : St) :
  NoDup (claimed_id <$> R) → disposed [] R x → safe AReclaim (requeue_claims (claimed_id <$> R)) (λ _ _, True) x.
Proof.
  intros Hnd Hx. unfold requeue_claims.
  apply (safe_each _ _ _ _ _ _ (λ _ l y, ∃ R, l = claimed_id <$> R ∧ NoDup (claimed_id <$> R) ∧ disposed [] R y));
    [|done|by exists R].
  intros n i l y ([|cs R'] & E & Hnd' & Hy); [done|]. injection E as -> ->.
  apply safe_bind, (safe_update tm AReclaim _ (λ _, requeue_row)); [|done].
  intros clock s now Hr Hi Hle Ha. apply (proj1 (steady_disposed _ _) _ _ Hr) in Hy. pose proof Hy as [_ [Hcs HR]%Forall_cons].
  apply NoDup_cons in Hnd' as [Hnot Hnd']. split; [|split; [|done]].
  - intros r Hr' [Hid%bool_decide_eq_true Hst%is_status_spec]%andb_true_iff. apply list_elem_of_singleton in Hid.
    destruct (stuck_row _ cs clock s r Hi Hcs Hr' Hid) as (Hseg & Hs & Hat & Hold & Hv).
    pose proof (inv_rows _ _ Hi r Hr') as Hrow.
    split_and!; try done; [|congruence|intros _ t Ht; simplify_eq; lia].
    eapply row_inv_open; try done; [by apply requeue_row_ok; [apply Hrow|]|]. intros Hl. by apply (Hv false) in Hl.
  - exists R'. split_and!; [done|done|].
    eapply update_disposed; [exact Hle|apply rows_update| |by split].
    intros r cs' _ [Hid%bool_decide_eq_true _]%andb_true_iff Hcs' E. apply list_elem_of_singleton in Hid.
    apply Hnot. rewrite <- Hid, E. by apply list_elem_of_fmap_2.
Qed.

Lemma safe_reclaim (x : St) : safe AReclaim (reclaim_with_proof_older_than (max_age tm)) (λ _ _, True) x.
Proof.
  unfold reclaim_with_proof_older_than. apply safe_bind. eapply safe_mono; [|apply safe_abandoned].
  intros [all|] y; [|done]. intros [Hnd Hall]. case_bool_decide; [done|]. apply safe_bind.
  apply (safe_each _ _ _ _ _ _ (sorted_so_far all)).
  - intros st cs l z Hz. eapply safe_mono; [|by apply safe_reclaim_one]. by intros [?|].
  - intros st z (C & R & EC & ER & Hperm & _ & _ & HC & HR). rewrite app_nil_r in Hperm.
    assert (NoDup (claimed_id <$> C ++ R)) as Hnd' by (by rewrite Hperm).
    apply safe_bind. rewrite EC, ER. eapply safe_mono; [|by apply (safe_mark_reclaimed C R)].
    intros [m|] u Hu; [|done]. apply safe_bind. rewrite fmap_app in Hnd'. apply NoDup_app in Hnd' as (_ & _ & HndR).
    eapply safe_mono; [|by apply (safe_requeue R)]. by intros [?|].
  - exists [], []. split_and!; [done..|]. split_and!; [done|constructor..].
Qed.
End ReclaimPass.
