(* ===== verification/DrainOther.v ===== *)
(** The other processes beside drains and reclaim passes: registrations and the
    mirror scan, the operator's requeue, the compaction of consumed proofs,
    snapshot expiry, leases.  None of them touches a claim. *)

From stdpp Require Import prelude gmap strings sorting relations.
From Stdlib Require Import ZArith Lia.
From S2P Require Import Prelude RustStr BTree WalFrame ConsumedProof Eff RelyGuarantee Catalog CatalogInv MirrorSync DrainCycle DrainInv DrainSafe DrainPass.

Section Others.
Context {PJ : ProofJson} {PL : ProofJsonLaws} {batch : Type} `{!ArrowIpc batch} (tm : Timing).

Abbreviation St := (Z * Sys)%type (only parsing).
Local Abbreviation inv := (DrainInv.inv (batch := batch) tm).
Local Abbreviation guar := (DrainInv.guar tm).
Local Abbreviation safe := (RelyGuarantee.safe inv (allowed tm) compat guar).

(** * Catalog statements *)

Lemma safe_register sg (x : St) : name_ok sg → safe AOther (register sg) (λ _ _, True) x.
Proof.
  intros Hn. apply safe_sql; [|done]. intros clock s now _ Hi Hle _. simpl get_db.
  case_bool_decide as Hin; cbv zeta; simpl snd.
  - replace (set_db (db s) s) with s by (by destruct s). split_and!; [by eapply inv_tick|apply guar_tick|done|done].
  - destruct (inv_register tm clock now s sg Hi Hle Hn Hin). by split_and!.
Qed.

Lemma safe_requeue_quarantined (x : St) : safe AOther requeue_quarantined (λ _ _, True) x.
Proof.
  apply (safe_update tm AOther _ (λ _, unquarantine_row)); [|done]. intros clock s now _ Hi Hle _. split; [|done].
  intros r Hr Hs%is_status_spec. pose proof (inv_rows _ _ Hi r Hr) as Hrow.
  split_and!; try done; [|congruence|congruence].
  pose proof (row_inv_ok _ _ _ _ Hrow) as Hok. eapply row_inv_open; try done.
  - unfold row_ok in Hok. rewrite Hs in Hok. tauto.
  - by apply unquarantine_row_ok.
  - intros Hl. destruct (row_inv_logged _ _ _ _ Hrow Hl) as [? _]; congruence.
Qed.

(** A statement that leaves rows and watermarks alone. *)
Lemma safe_quiet {B : Set} (f : Z → Db → B * Db) (x : St) :
  (∀ now d, wal_segments (f now d).2 = wal_segments d ∧ consumed_proof_watermarks (f now d).2 = consumed_proof_watermarks d) →
  safe AOther (sql f) (λ _ _, True) x.
Proof.
  intros Hf. apply safe_sql; [|done]. intros clock s now _ Hi Hle _. destruct (Hf now (db s)) as [Er Ew].
  assert (wal_segments (f now (db s)).2 = updated (λ _, false) (λ r, r) <$> rows s) as E by (rewrite Er; symmetry; apply list_fmap_id).
  assert (good_update (batch := batch) tm AOther now s (λ _, false) (λ r, r)) as Hg by done.
  split_and!; [|by apply (update_guar tm AOther clock now s (λ _, false) (λ r, r))|done|done].
  apply (update_inv tm AOther clock now s (λ _, false) (λ r, r)); try done. rewrite Ew. intros g w Hw.
  by apply (update_marks tm AOther clock now s (λ _, false) (λ r, r)).
Qed.

Lemma safe_lease c t why ttl (x : St) : safe AOther (acquire_table_lease c t why ttl) (λ _ _, True) x.
Proof. apply safe_quiet. intros now d. unfold acquire_stmt. by repeat case_match. Qed.

Lemma safe_unlease c t (x : St) : safe AOther (release_table_lease c t) (λ _ _, True) x.
Proof. apply (safe_quiet (λ _, release_stmt c t)). intros now d. unfold release_stmt. by repeat case_match. Qed.

(** * The mirror scan *)

Lemma safe_any {A} (p : Eff Sys A) (Q : option A → St → Prop) (x : St) :
  (∀ r y, Q r y) → safe AOther p (λ _ _, True) x → safe AOther p Q x.
Proof. intros HQ. apply safe_mono. auto. Qed.

Lemma page_segments native prefix k budget (listing : list (rstr * Z)) o :
  o ∈ objects (list_mirror_sync_page native prefix k budget listing) →
  ∃ e, e ∈ listing ∧ mirror_sync_object e.1 e.2 (trim_slashes prefix) = Some o.
Proof.
  unfold list_mirror_sync_page. destruct native; simpl; intros Ho%subseteq_take.
  - by apply list_elem_of_omap in Ho.
  - rewrite merge_sort_Permutation in Ho. by apply list_elem_of_filter in Ho as [_ ?%list_elem_of_omap].
Qed.

Lemma safe_sync (store : option rstr → Z → Sys → list (rstr * Z)) native cid prefix budget (x : St) :
  (∀ k now s e o, e ∈ store k now s → mirror_sync_object e.1 e.2 (trim_slashes prefix) = Some o → name_ok (object_segment o)) →
  safe AOther (sync_mirror_to_catalog (λ k, query Outside (store k)) native cid prefix budget) (λ _ _, True) x.
Proof.
  intros Hn. unfold sync_mirror_to_catalog, mirror_sync_cursor.
  assert (∀ c (y : St), safe AOther (sync_page (λ k, query Outside (store k)) native cid prefix budget c) (λ _ _, True) y) as Hpage.
  { intros c y. unfold sync_page. apply safe_bind, safe_query; [|done]. intros clock s now _ _ _ _. cbv zeta.
    case_match; [done|]. apply safe_bind. set (page := list_mirror_sync_page native prefix (last_key c) budget (store (last_key c) now s)).
    apply (safe_each _ _ _ _ _ _ (λ _ l _, l ⊆ objects page)); [| |done].
    - intros _ o l z Hl. apply safe_bind. eapply safe_any; [intros [?|] u; [|done]; simpl; set_solver|].
      apply safe_register. destruct (page_segments _ _ _ _ _ o (Hl o ltac:(left))) as (e & He & Ho). by eapply Hn.
    - intros _ z _. apply safe_bind. unfold compare_and_set_mirror_sync_cursor.
      repeat match goal with |- context [if ?b then Err else _] => destruct b; [done|] end.
      eapply safe_any; [by intros [[]|]|]. apply safe_quiet. intros t d. unfold cas_cursor. by repeat case_match. }
  apply safe_bind, safe_bind, safe_query; [|done]. intros clock s now _ _ _ _.
  assert (∀ c, safe AOther
    (let* started := match rotation_started_at_ms c with Some t => Ret t | None => unix_timestamp_millis end in
     sync_page (λ k, query Outside (store k)) native cid prefix budget
       (mkMirrorCursor (last_key c) (rotation c) (Some started) (rotation_objects_examined c) (last_completed_at_ms c)))
    (λ _ _, True) (now, s)) as Hmain.
  { intros c. destruct (rotation_started_at_ms c); [apply Hpage|]. intros [cl s'] Hr Hi t o Hle Ha. simpl in Hle.
    destruct o; (split_and!; [by eapply inv_tick|apply guar_tick|apply Hpage]). }
  destruct (mirror_sync_cursors (get_db s) !! cid) as [c|]; [|exact (Hmain default_cursor)].
  destruct (_ || _); [done|exact (Hmain c)].
Qed.

(** * Compaction of a consumed proof *)

Lemma safe_compact g (x : St) : safe AOther (compact_acknowledged_proof g) (λ _ _, True) x.
Proof.
  assert (steady (batch := batch) tm AOther (λ _, True)) as Htrue by done.
  unfold compact_acknowledged_proof. apply safe_bind. eapply safe_mono; [|by apply (safe_watermark tm AOther (λ _, True) g)].
  intros [[w|]|] y [_ Hw]; [|done..]. case_bool_decide; [done|]. apply safe_bind.
  eapply safe_mono; [|by apply (safe_terminal tm AOther _ g y (steady_mark tm AOther g (watermark_ms w)))].
  intros [terminal|] z [Hm Ht]; [|done]. apply safe_bind, safe_stmt. intros [clock s] Hr Hi now o Hle Ha. simpl in Hle, Ha. assert (o ≠ Lost) by (by apply Ha).
  apply (proj1 (steady_mark tm AOther g (watermark_ms w)) _ _ Hr) in Hm. apply (proj1 (steady_terminal tm AOther g terminal) _ _ Hr) in Ht.
  assert (inv (now, s) ∧ guar AOther (clock, s) (now, s)) as [??] by (split; [by eapply inv_tick|apply guar_tick]).
  destruct o; [|done|by split_and!]. cbn [perform fst snd].
  destruct (live_table g s) as [t|] eqn:Hlive; [|by split_and!].
  destruct (compact_consumed_proof_pruning (watermark_ms w) terminal (watermark_uuid w) t) as [[]|[[] t']] eqn:Hc; try by split_and!.
  assert (good_commit tm now s g t (mkAction [] (Some (watermark_ms w)) terminal) t') as Hgood.
  { eapply compact_good; [exact Hc|done| |].
    - eapply (proj2 (steady_mark tm AOther g _)); [exact Hle|exact Hm].
    - intros r Hr' _ Hin. by eapply terminal_committed. }
  cbn [fst snd]. split_and!; [exact (commit_inv tm clock now s g t _ t' Hi Hle Hgood)| |done].
  refine (commit_guar tm clock now s g t _ t' Hgood AOther _). simpl. by intros r _ _ _ ?%elem_of_nil.
Qed.

(** * Snapshot expiry *)

Lemma retain_branch_sub n c k l : retain_branch n c k l `sublist_of` l.
Proof. revert k. induction l as [|sn l IH]; intros k; simpl; [done|]. case_match; [by apply sublist_skip|by apply sublist_cons]. Qed.

(** A generation with fewer snapshots and the same property. *)
Section Expiry.
Context (clock now : Z) (s : Sys) (g : Target) (t t' : Table).
Hypothesis (Hi : inv (clock, s)) (Hle : clock ≤ now) (Hlive : live_table g s = Some t).
Hypothesis (Hprop : proof_property t' = proof_property t) (Hsub : snapshots t' `sublist_of` snapshots t).

Local Abbreviation s' := (set_table g now t' [] s).

Lemma expiry_history : ∃ since h, tables s g = (since, t) :: h.
Proof.
  unfold live_table in Hlive. destruct (tables s g) as [|[since u] h]; [done|]. injection Hlive as ->. eauto.
Qed.

Lemma expiry_tables h : tables s' h = if decide (h = g) then (now, t') :: tables s h else tables s h.
Proof. done. Qed.

Lemma expiry_log : log s' = log s.
Proof. simpl. by rewrite app_nil_r. Qed.

Lemma expiry_summaries i : i ∈ cumulative_consumed_segments t' → i ∈ cumulative_consumed_segments t.
Proof.
  unfold cumulative_consumed_segments. intros (sn & Hi' & Hsn)%list_elem_of_bind. apply list_elem_of_bind. exists sn. split; [done|].
  by eapply elem_of_sublist.
Qed.

(** A proof seeded from what is left is seeded from less. *)
Lemma expiry_table_inv : table_inv s g t → table_inv s g t'.
Proof.
  intros [(p & Hp & Hs) Hsum]. constructor; [|intros i Hin; by apply Hsum, expiry_summaries].
  unfold current_proof in *. rewrite Hprop. destruct (proof_property t) as [v|]; [by exists p|].
  set (l := snapshots t' ≫= λ sn, (λ i, mkEntry i (timestamp_ms sn)) <$> consumed_by sn).
  assert (∀ e, e ∈ l → segment_id e ∈ cumulative_consumed_segments t' ∧ segment_id e ≠ []) as Hl.
  { intros e (sn & (i & -> & Hi')%list_elem_of_fmap & Hsn)%list_elem_of_bind. simpl. split; [apply list_elem_of_bind; eauto|].
    unfold consumed_by in Hi'. destruct (consumed_segments sn); [|by apply elem_of_nil in Hi'].
    unfold split_commas in Hi'. by apply list_elem_of_filter in Hi' as [? _]. }
  destruct (insert_all_ok l (ConsumedProof.empty (retained_history_floor t'))) as [p' Hp'].
  { apply Forall_forall. intros e He. by apply Hl. }
  exists p'. split; [exact Hp'|]. destruct (insert_all_spec _ _ _ Hp' (empty_wf _)) as (_ & _ & _ & Ht).
  intros i τ. rewrite Ht. unfold entry_time at 1. simpl. destruct (decide (i ∈ segment_id <$> l)) as [Hin|Hn].
  - intros _. apply list_elem_of_fmap in Hin as (e & -> & He). apply Hsum, expiry_summaries. by apply Hl.
  - by rewrite added_time_None.
Qed.

Lemma expiry_row_inv r : row_inv (batch := batch) tm clock s r → row_inv (batch := batch) tm now s' r.
Proof.
  intros Hr. destruct (row_inv_mono _ clock now s r Hle Hr) as [Hok Hn Ht Hl Hc].
  assert (logged s' r ↔ logged s r) as Elog by (unfold logged; by rewrite expiry_log).
  constructor; try done; [|by rewrite Elog]. rewrite Elog. intros Hlog Hs.
  destruct (Hl Hlog Hs) as (Hp & newer & gen & older & c & Hh & Hcl & Htime & Hall). split; [done|].
  rewrite expiry_tables. case_decide as Eg; [|by exists newer, gen, older, c].
  exists ((now, t') :: newer), gen, older, c. rewrite Hh. split_and!; try done. rewrite !Forall_cons in *.
  destruct Hall as [Hgen Hnewer]. split_and!; try done. simpl.
  destruct expiry_history as (since & h & Eh). rewrite <- Eg, Hh in Eh.
  assert (proven_in r t) as (v & p & τ & Hv & ?) by (destruct newer; simplify_eq/=; [done|by inversion Hnewer]).
  exists v, p, τ. by rewrite Hprop.
Qed.

Lemma expiry_head_marks : head_marks now s'.
Proof.
  intros h since u hist p w. rewrite expiry_tables. case_decide as Eg.
  - subst h. intros [= <- <- <-] Hp Hw. destruct expiry_history as (since0 & h & Eh).
    assert (∃ p0, current_proof t = inr p0 ∧ acknowledged_through_ms p0 = Some w) as (p0 & Hp0 & Hw0).
    { unfold current_proof in *. rewrite Hprop in Hp. destruct (proof_property t); [by exists p|].
      destruct (insert_all_spec _ _ _ Hp (empty_wf _)) as (_ & _ & Ea & _). by rewrite Ea in Hw. }
    eapply (safe_mark_step clock now s); [by eapply (inv_heads _ _ Hi)|done|by apply open_from_refl].
  - intros Hh Hp Hw. eapply (safe_mark_step clock now s); [by eapply (inv_heads _ _ Hi)|done|by apply open_from_refl].
Qed.

Lemma expiry_inv : inv (now, s') ∧ guar AOther (clock, s) (now, s').
Proof.
  assert (∀ h u, table_inv s h u → table_inv s' h u) as Htab.
  { intros h u [(p & Hp & Hs) Hsum]. constructor; rewrite expiry_log; [by exists p|done]. }
  split.
  - constructor; cbn [fst snd]; rewrite ?expiry_log; try apply Hi.
    + pose proof (inv_clock _ _ Hi). simpl in *. lia.
    + intros r Hr. by apply expiry_row_inv, (inv_rows _ _ Hi).
    + intros h w Hw. eapply (safe_mark_step clock now s); [by apply (inv_marks _ _ Hi)|done|by apply open_from_refl].
    + intros h u. rewrite expiry_tables. case_decide as Eg; [|intros Hu; by apply Htab, (inv_tables _ _ Hi)].
      subst h. intros [->|Hu]%elem_of_cons; [|by apply Htab, (inv_tables _ _ Hi)]. apply Htab. simpl. apply expiry_table_inv.
      destruct expiry_history as (since & h & Eh). apply (inv_tables _ _ Hi g (since, t)). simpl. rewrite Eh. left.
    + apply expiry_head_marks.
  - constructor; cbn [fst snd]; try done.
    + by rewrite expiry_log.
    + intros r Hr. by exists r.
    + intros r Hr _. left. split; [done|]. unfold logged. by rewrite expiry_log.
    + intros r Hr Hs. by exists r.
    + intros r Hr Hs. left. by exists r.
Qed.
End Expiry.

Lemma safe_expire g retain_last older_than (x : St) : safe AOther (expire_snapshots_inner g retain_last older_than) (λ _ _, True) x.
Proof.
  unfold expire_snapshots_inner. cbv zeta. apply safe_bind, safe_query; [|done]. intros clock0 s0 now0 _ _ _ _.
  destruct (live_table g s0) as [t0|]; [|done]. case_match; [done|]. apply safe_bind, safe_stmt.
  intros [clock s] Hr Hi now o Hle Ha. simpl in Hle, Ha. assert (o ≠ Lost) by (by apply Ha).
  assert (inv (now, s) ∧ guar AOther (clock, s) (now, s)) as [??] by (split; [by eapply inv_tick|apply guar_tick]).
  destruct o; [|done|by split_and!]. cbn [perform fst snd]. destruct (live_table g s) as [t|] eqn:Hlive; [|by split_and!].
  cbn [fst snd]. case_match; [by split_and!|]. set (t' := mkTable _ _ _).
  destruct (expiry_inv clock now s g t t' Hi Hle Hlive eq_refl (retain_branch_sub _ _ _ _)). by split_and!.
Qed.
End Others.
