(* ===== verification/DrainSystem.v ===== *)
(** The system of drains, reclaim passes and the processes beside them: every
    segment reaches its table once, and a segment that is marked committed is in
    its table. *)

From stdpp Require Import prelude gmap strings sorting relations.
From Stdlib Require Import ZArith Lia.
From S2P Require Import Prelude RustStr BTree Crc32 WalFrame ConsumedProof Eff RelyGuarantee Catalog CatalogInv MirrorSync.
From S2P Require Import DrainCycle DrainInv DrainSafe DrainPass DrainReclaim DrainOther.

Section System.
Context {PJ : ProofJson} {batch : Type} `{!ArrowIpc batch} (tm : Timing).

Abbreviation St := (Z * Sys)%type (only parsing).

(** What a process of the system runs.  One pass of [run_once_catalog] is a
    reclaim pass, a mirror scan and a drain cycle, in this order. *)
Inductive job : Actor → Eff Sys unit → Prop :=
| JDrain uuid_string cfg start locked :
    job (ADrain (claimer cfg) start) (ignore (drain_pass (batch := batch) uuid_string cfg locked))
| JReclaim : job AReclaim (ignore (reclaim_with_proof_older_than (max_age tm)))
| JRegister sg : name_ok sg → job AOther (ignore (register sg))
| JSync (store : option rstr → Z → Sys → list (rstr * Z)) native cid prefix budget :
    (∀ k now s e o, e ∈ store k now s → mirror_sync_object e.1 e.2 (trim_slashes prefix) = Some o → name_ok (object_segment o)) →
    job AOther (sync_mirror_to_catalog (λ k, query Outside (store k)) native cid prefix budget)
| JRequeueQuarantined : job AOther (ignore requeue_quarantined)
| JCompact g : job AOther (ignore (compact_acknowledged_proof g))
| JExpire g retain_last older_than : job AOther (ignore (expire_snapshots_inner g retain_last older_than))
| JAcquire c t why ttl : job AOther (ignore (acquire_table_lease c t why ttl))
| JRelease c t : job AOther (release_table_lease c t).

Definition drain_step : Config → Config → Prop := pstep (allowed tm) compat job.

(** An empty catalog and tables that no drain has written. *)
Record fresh (s : Sys) : Prop := {
  fresh_rows : rows s = [];
  fresh_marks : consumed_proof_watermarks (db s) = ∅;
  fresh_log : log s = [];
  fresh_tables : ∀ g t, t ∈ tables s g → proof_property t.2 = None ∧ cumulative_consumed_segments t.2 = [];
  fresh_ceiling : cache_ceiling s = stale tm;
}.

Lemma fresh_inv clock s : 0 ≤ clock → fresh s → inv (batch := batch) tm (clock, s).
Proof.
  intros Hc [Hr Hm Hl Ht Hce].
  assert (∀ g t, t ∈ tables s g → current_proof t.2 = inr (ConsumedProof.empty (retained_history_floor t.2))) as Hp.
  { intros g t Hin. destruct (Ht g t Hin) as [E1 E2]. unfold current_proof, seed_from_retained_history. rewrite E1.
    replace (snapshots t.2 ≫= λ sn, (λ i, mkEntry i (timestamp_ms sn)) <$> consumed_by sn) with (@nil ConsumedProofEntry); [done|].
    unfold cumulative_consumed_segments in E2. induction (snapshots t.2) as [|sn l IH]; [done|]. simpl in *.
    apply app_nil in E2 as [E2 E3]. rewrite E2. exact (IH E3). }
  constructor; simpl; rewrite ?Hr, ?Hl; try done.
  - constructor.
  - by intros r ?%elem_of_nil.
  - by rewrite Hm.
  - intros g t Hin. destruct (Ht g t Hin) as [_ E2]. constructor; rewrite ?E2; [|by intros i ?%elem_of_nil].
    eexists. split; [by eapply Hp|]. done.
  - intros g since t h p w Eh Hcur Hw. specialize (Hp g (since, t)). rewrite Eh in Hp. simpl in Hp.
    rewrite Hp in Hcur by left. injection Hcur as <-. done.
  - by intros g i ?%elem_of_nil.
  - constructor.
Qed.

Context {PL : ProofJsonLaws} (Htm : timing_ok tm).

Lemma job_safe a p x : job a p → inv (batch := batch) tm x → safe (inv (batch := batch) tm) (allowed tm) compat (guar tm) a p (λ _ _, True) x.
Proof.
  assert (∀ a A (p : Eff Sys A) x, safe (inv (batch := batch) tm) (allowed tm) compat (guar tm) a p (λ _ _, True) x →
    safe (inv (batch := batch) tm) (allowed tm) compat (guar tm) a (ignore p) (λ _ _, True) x) as Hig.
  { intros b A q y Hq. apply safe_bind. eapply safe_mono; [|exact Hq]. by intros [?|]. }
  intros [] _; try apply Hig.
  - by apply safe_pass.
  - by apply safe_reclaim.
  - by apply safe_register.
  - by apply safe_sync.
  - by apply safe_requeue_quarantined.
  - by apply safe_compact.
  - by apply safe_expire.
  - by apply safe_lease.
  - by apply safe_unlease.
Qed.

Lemma system_inv clock s c : 0 ≤ clock → fresh s → rtc drain_step (clock, [], s) c → inv (batch := batch) tm (c.1.1, c.2).
Proof. intros Hc Hf. apply pool_invariant with (G := guar tm); [apply job_safe|by apply fresh_inv]. Qed.
End System.


(** * A run of the system *)

Definition allowedb (tm : Timing) (a : Actor) (prev now : Z) (l : Label) (o : Outcome) : bool :=
  match a with ADrain _ start => (start <=? now) && (now <=? start + work tm) | _ => true end &&
  match l with Outside => prev <? now | _ => true end &&
  match l, o with Append, Lost => false | _, _ => true end &&
  match a, l, o with
  | AReclaim, (ProofRead | Outside), Done => true
  | AReclaim, (ProofRead | Outside), _ => false
  | _, _, _ => true
  end.

Lemma allowedb_ok tm a prev now l o : allowedb tm a prev now l o = true → allowed tm a prev now l o.
Proof.
  unfold allowedb, allowed. rewrite !andb_true_iff. intros [[[Ha Hl] Hlo] Hr]. split_and!.
  - intros c start ->. rewrite andb_true_iff, !Z.leb_le in Ha. done.
  - intros ->. by apply Z.ltb_lt.
  - intros -> ->. done.
  - by intros -> [->| ->]; destruct o.
Qed.

(** Statements at these times, none failing. *)
Definition ticks (from : Z) (n : nat) : list (Z * Outcome) := (λ i, (from + Z.of_nat i, Done)) <$> seq 0 n.

Definition sample_timing : Timing := mkTiming 100 10 200.
Definition sample_segment (name : rstr) : Segment := mkSegment name DEFAULT_TENANT [] (lit "wal/" ++ name ++ lit ".arrow") 9 1.

#[local] Existing Instance sample_json.
#[local] Existing Instance sample_json_laws.
#[local] Existing Instance sample_arrow.

Definition sample_body : bytes :=
  let ipc := ipc_body [true; false] (ipc_eos (batch := bool)) in build_wal_frame 0 0 0 None ipc (crc32 ipc).

Definition sample_world : World :=
  mkWorld (λ _ _, true) (λ _ _, Some Unidentified) (λ _, Some sample_body) (λ _ _, true) (λ _, O).

Definition sample_sys : Sys :=
  mkSys empty_db (λ g, if decide (g = (DEFAULT_TENANT, [])) then [(0, mkTable (lit "t") None [])] else []) []
    (λ _, sample_world) (stale sample_timing).

Definition sample_drain (c : rstr) : DrainConfig := mkDrain c Postgres 8 0 1 None.

Lemma sample_fresh : fresh sample_timing sample_sys.
Proof.
  constructor; try done. intros g t. simpl. case_decide; [|by intros ?%elem_of_nil]. by intros ->%list_elem_of_singleton.
Qed.

Definition register_job : Eff Sys unit := ignore (register (sample_segment (lit "seg-1"))).
Definition drain_job (c : rstr) : Eff Sys unit := ignore (drain_pass (batch := bool) (λ u, u) (sample_drain c) (λ _, false)).


(** A segment is registered, then drained. *)
Definition sample_registered : Sys := (run (ticks 10 1) register_job sample_sys).2.
Definition sample_drained : Sys := (run (ticks 11 20) (drain_job (lit "w1")) sample_registered).2.

Definition sample_end : Z := run_time 10 (ticks 11 20) (drain_job (lit "w1")) sample_registered.

Lemma sample_name_ok name : 0x2C ∉ name → strip_suffix name (lit ".arrow") = None → name_ok (sample_segment name).
Proof.
  intros Hc Hs. split_and!; simpl; [done| |].
  - intros x E. unfold arrow in E. apply strip_suffix_Some in E. congruence.
  - by apply (bool_decide_eq_false_1 (0x2F ∈ DEFAULT_TENANT)).
Qed.

Lemma sample_run : rtc (drain_step (batch := bool) sample_timing) (5, [], sample_sys)
  (sample_end, [], sample_drained).
Proof.
  eapply rtc_trans; [apply (run_reach _ _ _ AOther 5 (ticks 10 1) register_job sample_sys)|].
  - apply JRegister, sample_name_ok; [by apply (bool_decide_eq_false_1 _)|by vm_compute].
  - apply (legalb_ok _ (allowedb sample_timing)); [apply allowedb_ok|by vm_compute].
  - apply (run_reach _ _ _ (ADrain (lit "w1") 11) 10 (ticks 11 20) (drain_job (lit "w1")) sample_registered).
    + apply (JDrain _ _ (sample_drain (lit "w1"))).
    + apply (legalb_ok _ (allowedb sample_timing)); [apply allowedb_ok|by vm_compute].
Qed.

