(* ===== verification/DrainRaces.v ===== *)
(** What the drain system does when the assumptions of its main theorem fail,
    and where the catalog's own bookkeeping goes wrong: concrete runs. *)

From stdpp Require Import prelude gmap strings sorting relations.
From Stdlib Require Import ZArith Lia.
From S2P Require Import Prelude RustStr BTree Crc32 WalFrame ConsumedProof Eff RelyGuarantee Catalog CatalogInv MirrorSync.
From S2P Require Import DrainCycle DrainInv DrainSafe DrainPass DrainReclaim DrainOther DrainSystem.

#[local] Existing Instance sample_json.
#[local] Existing Instance sample_arrow.

(** Statements of one process of the pool, at these times, none failing. *)
Definition steps (i : nat) (from : Z) (n : nat) : list (nat * Z * Outcome) := (λ t, (i, t.1, t.2)) <$> ticks from n.

Definition reclaim_job : Eff Sys unit := ignore (reclaim_with_proof_older_than (max_age sample_timing)).

Definition race_pool : list (Proc (Σ := Sys)) :=
  [mkProc AOther register_job; mkProc (ADrain (lit "w0") 11) (drain_job (lit "w0"));
   mkProc AReclaim reclaim_job; mkProc AReclaim reclaim_job;
   mkProc (ADrain (lit "w1") 310) (drain_job (lit "w1")); mkProc (ADrain (lit "w2") 340) (drain_job (lit "w2"))].

Definition race_schedule : list (nat * Z * Outcome) :=
  steps 0 10 1 ++ steps 1 11 3 ++ steps 2 300 2 ++ steps 3 302 2 ++ steps 2 304 1 ++
  steps 4 310 8 ++ steps 3 330 1 ++ steps 5 340 9.

(** * Overlapping reclaim passes *)

(** Only the drains' ids are distinct. *)
Definition overlapping (a b : Actor) : Prop :=
  match a, b with ADrain c _, ADrain c' _ => c ≠ c' | _, _ => True end.

Ltac compatible :=
  repeat first [apply FOP_nil | apply Forall_nil; exact I | apply FOP_cons | apply Forall_cons; split | split | exact I
    | intros E; vm_compute in E; discriminate E].

Lemma race_start clock s :
  rtc (pstep (allowed sample_timing) overlapping (job (batch := bool) sample_timing)) (clock, [], s) (clock, race_pool, s).
Proof.
  apply start_all.
  - unfold race_pool. repeat (apply Forall_cons; split); [..|by apply Forall_nil]; simpl.
    + apply JRegister, sample_name_ok; [by apply (bool_decide_eq_false_1 _)|by vm_compute].
    + apply (JDrain _ _ (sample_drain (lit "w0"))).
    + apply JReclaim.
    + apply JReclaim.
    + apply (JDrain _ _ (sample_drain (lit "w1"))).
    + apply (JDrain _ _ (sample_drain (lit "w2"))).
  - simpl. compatible.
Qed.

(** C38. Two reclaim passes that overlap append a segment twice.  A worker dies
    holding a claim; two passes list it as abandoned and read the table, which
    proves nothing; the first requeues the row, a healthy drain claims it anew
    and appends it; the second pass's [UPDATE], which asks only for a row that is
    processing, takes the fresh claim away, and the next drain appends the
    segment again.  Every drain runs its own reclaim passes, unelected. *)
Theorem reclaim_race_duplicates : ∃ c,
  rtc (pstep (allowed sample_timing) overlapping (job (batch := bool) sample_timing)) (5, [], sample_sys) c ∧
  log c.2 = [((DEFAULT_TENANT, []), lit "seg-1.arrow"); ((DEFAULT_TENANT, []), lit "seg-1.arrow")].
Proof.
  assert ((λ c, log c.2) <$> exec (allowedb sample_timing) 5 race_pool sample_sys race_schedule =
    Some [((DEFAULT_TENANT, []), lit "seg-1.arrow"); ((DEFAULT_TENANT, []), lit "seg-1.arrow")]) as El by (vm_compute; reflexivity).
  destruct (exec (allowedb sample_timing) 5 race_pool sample_sys race_schedule) as [c|] eqn:E; [|done].
  exists c. split; [|by injection El]. eapply rtc_trans; [apply race_start|]. eapply exec_reach; [|exact E]. apply allowedb_ok.
Qed.

(** * An append whose answer is lost *)

(** The answer of an Iceberg commit may be lost like any other. *)
Definition lossy (tm : Timing) (a : Actor) (prev now : Z) (l : Label) (o : Outcome) : Prop :=
  allowed tm a prev now l (if decide (l = Append) then Done else o).

Definition lossyb (tm : Timing) (a : Actor) (prev now : Z) (l : Label) (o : Outcome) : bool :=
  allowedb tm a prev now l (if decide (l = Append) then Done else o).

Definition lost_pool : list (Proc (Σ := Sys)) :=
  [mkProc AOther register_job; mkProc (ADrain (lit "w1") 11) (drain_job (lit "w1"));
   mkProc (ADrain (lit "w2") 2000) (drain_job (lit "w2"))].

Definition lost_schedule : list (nat * Z * Outcome) :=
  steps 0 10 1 ++ steps 1 11 7 ++ [(1%nat, 18, Lost)] ++ steps 1 19 2 ++ steps 2 2000 9.

Lemma lost_start clock s :
  rtc (pstep (lossy sample_timing) compat (job (batch := bool) sample_timing)) (clock, [], s) (clock, lost_pool, s).
Proof.
  apply start_all.
  - unfold lost_pool. repeat (apply Forall_cons; split); [..|by apply Forall_nil]; simpl.
    + apply JRegister, sample_name_ok; [by apply (bool_decide_eq_false_1 _)|by vm_compute].
    + apply (JDrain _ _ (sample_drain (lit "w1"))).
    + apply (JDrain _ _ (sample_drain (lit "w2"))).
  - simpl. compatible.
Qed.

(** C39. An append whose commit landed while its answer was lost is drained
    again: the cycle takes the error for a failed append and releases the claims
    without asking the table's consumed proof, and the next drain appends the
    same segment a second time. *)
Theorem lost_answer_duplicates : ∃ c,
  rtc (pstep (lossy sample_timing) compat (job (batch := bool) sample_timing)) (5, [], sample_sys) c ∧
  log c.2 = [((DEFAULT_TENANT, []), lit "seg-1.arrow"); ((DEFAULT_TENANT, []), lit "seg-1.arrow")].
Proof.
  assert ((λ c, log c.2) <$> exec (lossyb sample_timing) 5 lost_pool sample_sys lost_schedule =
    Some [((DEFAULT_TENANT, []), lit "seg-1.arrow"); ((DEFAULT_TENANT, []), lit "seg-1.arrow")]) as El by (vm_compute; reflexivity).
  destruct (exec (lossyb sample_timing) 5 lost_pool sample_sys lost_schedule) as [c|] eqn:E; [|done].
  exists c. split; [|by injection El]. eapply rtc_trans; [apply lost_start|]. eapply exec_reach; [|exact E].
  intros a t now l o. apply allowedb_ok.
Qed.

(** * A cycle that ends in the middle *)

Definition other_segment : Segment := mkSegment (lit "seg-2") (lit "tenant-2") [] (lit "wal/tenant-2/seg-2.arrow") 9 1.

Definition two_groups : Sys := (run (ticks 11 1) (ignore (register other_segment)) sample_registered).2.

(** The whole cycle; the statement that reads the second group's watermark is
    refused. *)
Definition leaky_script : list (Z * Outcome) := ticks 12 10 ++ [(22, Refused)] ++ ticks 23 10.

Definition leaked : (Eff Sys unit + option unit) * Sys := run leaky_script (drain_job (lit "w1")) two_groups.

(** A drain cycle that cannot read a group's watermark ends at once: the
    group it had already appended is not marked committed, and the claims of the
    others are not released, although the cycle's error path does both for every
    other failure.  The rows stay claimed until a reclaim pass finds them. *)
Theorem watermark_error_strands_claims :
  (match leaked.1 with inr r => r = None | inl _ => False end) ∧
  log leaked.2 = [((DEFAULT_TENANT, []), lit "seg-1.arrow")] ∧
  (λ r, (row_id r, status r, row_claimer r)) <$> rows leaked.2 =
    [(lit "seg-1", Processing, Some (lit "w1")); (lit "seg-2", Processing, Some (lit "w1"))].
Proof. vm_compute. by split_and!. Qed.

(** * Foreign shards *)

Definition shard_segment : Segment := mkSegment (lit "seg-1") DEFAULT_TENANT (lit "logs") (lit "wal/default/logs/seg-1.arrow") 9 1.

(** Passes of the worker of shard 1 of 2, ten minutes apart; nothing fails. *)
Definition foreign_pass (now : Z) (d : Db) : Db := (solo now (try_claim_sharded (lit "w0") Postgres (λ _, false) 8 1 2) d).2.

Definition foreign_passes (n : nat) : Db :=
  foldl (λ d i, foreign_pass (1000 + 600000 * Z.of_nat i) d) (solo 10 (register shard_segment) empty_db).2 (seq 0 n).

(** A healthy segment is quarantined by workers of another shard.  The claim
    statement takes rows of every shard and gives the foreign ones back through
    [release], which counts an attempt; after twelve passes of the other shard's
    worker, in which nothing failed and nothing was fetched, the segment is
    quarantined and no worker claims it any more. *)
Theorem foreign_shard_quarantines :
  in_shard 0 2 shard_segment = true ∧
  (λ r, (status r, attempts r)) <$> wal_segments (foreign_passes 11) = [(Sealed, 11)] ∧
  (λ r, (status r, attempts r)) <$> wal_segments (foreign_passes 12) = [(Quarantined, 12)] ∧
  (solo 10000000 (try_claim_sharded (lit "w1") Postgres (λ _, false) 8 0 2) (foreign_passes 12)).1 = Some [].
Proof. vm_compute. by split_and!. Qed.

(** * A segment that cannot be read *)

(** The second segment's object is damaged. *)
Definition poison_world : World :=
  mkWorld (λ _ _, true) (λ _ _, Some Unidentified)
    (λ url, if bool_decide (url = lit "wal/seg-2.arrow") then Some (sample_body ++ [0]) else Some sample_body) (λ _ _, true) (λ _, O).

Definition poison_sys : Sys :=
  let s := (solo 11 (register (sample_segment (lit "seg-2"))) (solo 10 register_job sample_sys).2).2 in
  mkSys (db s) (tables s) (log s) (λ _, poison_world) (cache_ceiling s).

(** Whole cycles, ten minutes apart, in which no statement fails. *)
Definition poison_passes (n : nat) : Sys :=
  foldl (λ s i, (solo (1000 + 600000 * Z.of_nat i) (drain_job (lit "w1")) s).2) poison_sys (seq 0 n).

(** One unreadable object quarantines the healthy segments it is claimed
    with.  A fetch error ends the cycle, which gives back every claim of it with
    an attempt counted, so the segments of the damaged one's group come due
    together with it and are claimed with it again; after twelve cycles all of
    them are quarantined and none of the healthy rows is in the table. *)
Theorem poison_quarantines_neighbours :
  read_segment_from_bytes (batch := bool) sample_body = inr [true; false] ∧
  log (poison_passes 12) = [] ∧
  (λ r, (row_id r, status r)) <$> rows (poison_passes 12) = [(lit "seg-1", Quarantined); (lit "seg-2", Quarantined)].
Proof. vm_compute. by split_and!. Qed.
