(* ===== verification/MirrorKeys.v ===== *)
(** Keys of the mirror and what a restore reads off them: the names a tenant
    and an index may have (loglake-core), the key a sealed segment and its active
    copy are uploaded under, the destination a listed key restores to, the
    evidence of the mirror's root and the check against the ledger (loglake-wal,
    [mirror.rs]).

    Paths under the WAL root are lists of components.  Reports' texts are left
    out: a verdict keeps the keys, counts and prefixes they print. *)

From stdpp Require Import prelude gmap strings.
From Stdlib Require Import ZArith Lia.
From S2P Require Import Prelude RustStr WalWriter Eff RelyGuarantee Catalog CatalogInv MirrorSync.

(** * Names of tenants and indexes *)

Definition MAX_TENANT_ID_LEN : Z := 128.

Definition RESERVED_WAL_LAYOUT_DIRS : list rstr :=
  [lit "active"; lit "sealed"; lit "processing"; lit "committed"; lit "consumers"].

Definition eq_ignore_ascii_case (s t : rstr) : bool := bool_decide (to_ascii_lowercase s = to_ascii_lowercase t).

Definition tenant_char (c : Z) : bool := is_ascii_alphanumeric c || (c =? 0x2D) || (c =? 0x5F).

Definition sanitize_tenant (raw : rstr) : option rstr :=
  let t := trim raw in
  if bool_decide (t = []) || (MAX_TENANT_ID_LEN <? len t) || negb (forallb tenant_char (chars t)) then None else
  if existsb (λ r, eq_ignore_ascii_case r t) RESERVED_WAL_LAYOUT_DIRS then None else
  Some t.

Inductive IndexConfigError := ReservedIndexId | InvalidIndexId | ReservedWalLayoutDir.

Definition index_char (c : Z) : bool := is_ascii_lower c || is_ascii_digit c || (c =? 0x5F) || (c =? 0x2D).

Definition validate_index_id (index_id : rstr) : IndexConfigError + unit :=
  if is_prefix_of (lit "_") index_id then inl ReservedIndexId else
  match chars index_id with
  | [] => inl InvalidIndexId
  | first :: rest =>
    if (128 <? len index_id) || (negb (is_ascii_lower first) && negb (is_ascii_digit first)) then inl InvalidIndexId else
    if existsb (λ c, negb (index_char c)) rest then inl InvalidIndexId else
    if bool_decide (index_id ∈ RESERVED_WAL_LAYOUT_DIRS) then inl ReservedWalLayoutDir else
    inr tt
  end.

(** * The uploader's keys *)

Definition EVENTS_INDEX_ID : rstr := lit "events".

(** The subdirectory a tenant's writer stamps onto its keys. *)
Definition lane_subdir (tenant index : rstr) : rstr :=
  if bool_decide (index = EVENTS_INDEX_ID) then tenant else tenant ++ lit "/" ++ index.

Definition active_partial_key (prefix sealed_suffix : rstr) : option rstr :=
  stem ← strip_suffix sealed_suffix (lit ".arrow");
  Some (mirror_key prefix (lit "_active/" ++ stem ++ lit ".arrow.partial")).

(** * Destinations *)

Record RecoveryTarget := mkTarget {
  target_tenant : rstr; target_index : option rstr;
  rel : list rstr; discovery : option (list rstr);
  stem : rstr; partial : bool;
}.

Definition SEALED_DIR : rstr := lit "sealed".

Definition split_last {A} (l : list A) : option (A * list A) := x ← last l; Some (x, removelast l).

(** [split('/').filter(|p| !p.is_empty())] *)
Definition parts_of (s : rstr) : list rstr := filter (λ p, p ≠ []) (components s).

Definition segment_stem (filename : rstr) : option rstr :=
  match strip_suffix filename (lit ".arrow.partial") with
  | Some s => Some s
  | None => strip_suffix filename (lit ".arrow")
  end.

Definition place (partial : bool) (dirs : list rstr) (filename : rstr) : option RecoveryTarget :=
  stem ← segment_stem filename;
  '(tenant, index) ← match dirs with
                     | [] => Some (DEFAULT, None)
                     | [tenant] => Some (tenant, None)
                     | [tenant; index] => Some (tenant, Some index)
                     | _ => None
                     end;
  let discovery := match index with Some _ => Some [tenant; SEALED_DIR] | None => None end in
  Some (mkTarget tenant index ([tenant] ++ option_list index ++ [SEALED_DIR; stem ++ lit ".arrow"]) discovery stem partial).

Definition recovery_target (suffix : rstr) : option RecoveryTarget :=
  let suffix := trim_slashes suffix in
  if bool_decide (suffix = []) then None else
  let '(partial, body) :=
    match strip_prefix suffix (lit "_active/") with Some rest => (true, rest) | None => (false, suffix) end in
  '(filename, dirs) ← split_last (parts_of body);
  place partial dirs filename.

(** * Markers *)

Inductive RootEvidence := AtRoot | OneDeeper (directory : rstr).

Definition OWNER_FILE : rstr := lit "owner".

Definition root_evidence (suffix : rstr) : option RootEvidence :=
  let parts := parts_of (trim_slashes suffix) in
  last_part ← last parts;
  let n := len parts in
  let part i := default [] (parts !! i) in
  match strip_suffix last_part (lit ".arrow.partial") with
  | Some _ =>
    if bool_decide (part 0%nat = lit "_active") && (2 <=? n) then Some AtRoot else
    if (3 <=? n) && bool_decide (part 1%nat = lit "_active") then Some (OneDeeper (part 0%nat)) else None
  | None =>
    if bool_decide (last_part = OWNER_FILE) then
      if n =? 3 then Some AtRoot else if n =? 4 then Some (OneDeeper (part 0%nat)) else None
    else None
  end.

Inductive RootVerdict :=
| RootConfirmed (evidence : rstr)
| RootContradicted (evidence directory : rstr) (also_confirmed : option rstr)
| RootUnverified.

(** * The ledger's rows *)

Record LedgerRoute := mkRoute { route_tenant : rstr; route_index : rstr }.
Record LedgerRow := mkLedgerRow { ledger_tenant : rstr; ledger_index : rstr; ledger_url : rstr }.
Record ListedSegment := mkListed { listed_key : rstr; listed_id : rstr; listed_route : option LedgerRoute }.

Inductive LedgerConflict := Routing | UrlTail | KeyCarriesPrefix | PrefixSplit (expected found : rstr).

Record LedgerDisagreement := mkDisagreement {
  d_key : rstr; inferred : option LedgerRoute; d_row : LedgerRow; conflict : LedgerConflict;
}.

Inductive LedgerVerdict :=
| Confirmed (matched uncertified : Z) (sample_uncertified : option rstr) (prefix evidence : rstr)
| Contradicted (disagreements : list LedgerDisagreement) (agreed uncertified : Z) (directory : option rstr)
| Silent (listed : Z)
| Unavailable (reason : rstr).

Definition refuses (v : LedgerVerdict) : bool :=
  match v with Contradicted _ _ _ _ | Unavailable _ => true | _ => false end.

#[global] Instance LedgerRoute_eq_dec : EqDecision LedgerRoute.
Proof. solve_decision. Defined.

Definition sealed_form (key : rstr) : rstr :=
  let body := trim_slashes key in
  let body := default body (strip_prefix body (lit "_active/")) in
  default body (strip_suffix body (lit ".partial")).

Definition segment_id (key : rstr) : option rstr := segment_stem (file_name (trim_slashes key)).

Definition prefix_above (segment_url key : rstr) : option rstr :=
  let url := trim_slashes segment_url in
  let key := sealed_form key in
  if bool_decide (url = key) then Some [] else
  rest ← strip_suffix url key;
  rest ← strip_suffix rest (lit "/");
  Some (trim_slashes rest).

Definition route_of (t : RecoveryTarget) : LedgerRoute := mkRoute (target_tenant t) (default [] (target_index t)).

(** What a restore's listing keeps of a key for the ledger. *)
Definition listed_segment (suffix : rstr) : option ListedSegment :=
  id ← segment_id suffix;
  Some (mkListed suffix id (route_of <$> recovery_target suffix)).

Definition directory_to_pass (ds : list LedgerDisagreement) : option rstr :=
  dir ← head (omap (λ d, match components (trim_slashes (d_key d)) with
                         | p :: _ :: _ => Some p
                         | _ => None
                         end) ds);
  if bool_decide (dir = []) then None else Some dir.

(** One listed object against its row: a conflict, or the prefix they agree on. *)
Definition judge (item : ListedSegment) (row : LedgerRow) : LedgerConflict + rstr :=
  let disagrees := match listed_route item with
                   | Some r => negb (bool_decide (r = mkRoute (ledger_tenant row) (ledger_index row)))
                   | None => false
                   end in
  match prefix_above (ledger_url row) (listed_key item), disagrees with
  | _, true => inl Routing
  | None, _ => inl UrlTail
  | Some [], _ => inl KeyCarriesPrefix
  | Some p, _ => inr p
  end.

(** The loop's locals. *)
Record Tally := mkTally {
  disagreements : list LedgerDisagreement; agreed : list (rstr * rstr);
  uncertified : Z; sample_uncertified : option rstr;
}.

Definition tally_item (rows : gmap rstr LedgerRow) (t : Tally) (item : ListedSegment) : Tally :=
  match rows !! listed_id item with
  | None =>
    mkTally (disagreements t) (agreed t) (uncertified t + 1)
      (Some (default (listed_key item) (sample_uncertified t)))
  | Some row =>
    match judge item row with
    | inl c =>
      mkTally (disagreements t ++ [mkDisagreement (listed_key item) (listed_route item) row c])
        (agreed t) (uncertified t) (sample_uncertified t)
    | inr p =>
      mkTally (disagreements t) (agreed t ++ [(listed_key item, p)]) (uncertified t) (sample_uncertified t)
    end
  end.

Definition tally (listed : list ListedSegment) (rows : gmap rstr LedgerRow) : Tally :=
  foldl (tally_item rows) (mkTally [] [] 0 None) listed.

Definition ledger_verdict (listed : list ListedSegment) (rows : gmap rstr LedgerRow) : LedgerVerdict :=
  let t := tally listed rows in
  match disagreements t, agreed t with
  | _ :: _, _ => Contradicted (disagreements t) (len (agreed t)) (uncertified t) (directory_to_pass (disagreements t))
  | [], [] => Silent (len listed)
  | [], (first_key, first_prefix) :: _ =>
    match list_find (λ kp, kp.2 ≠ first_prefix) (agreed t) with
    | Some (_, (key, found)) =>
      let row := default (mkLedgerRow [] [] found) (rows !! default [] (segment_id key)) in
      Contradicted [mkDisagreement key None row (PrefixSplit first_prefix found)]
        (len (agreed t)) (uncertified t) None
    | None => Confirmed (len (agreed t)) (uncertified t) (sample_uncertified t) first_prefix first_key
    end
  end.

(** * Paths *)

(** A path component: not empty, no slash in it. *)
Definition component (s : rstr) : Prop := s ≠ [] ∧ 0x2F ∉ s.

Fixpoint join (parts : list rstr) : rstr :=
  match parts with
  | [] => []
  | [p] => p
  | p :: parts => p ++ 0x2F :: join parts
  end.

Lemma join_cons p q parts : join (p :: q :: parts) = p ++ 0x2F :: join (q :: parts).
Proof. done. Qed.

Lemma components_join parts : parts ≠ [] → Forall component parts → components (join parts) = parts.
Proof.
  intros Hne H. induction H as [|p parts [_ Hp] Hps IH]; [done|]. destruct parts as [|q parts].
  - by apply components_free.
  - rewrite join_cons, components_app, (components_free _ Hp), IH by done. done.
Qed.

Lemma parts_of_join parts : parts ≠ [] → Forall component parts → parts_of (join parts) = parts.
Proof.
  intros Hne H. unfold parts_of. rewrite components_join by done. clear Hne.
  induction H as [|p parts [Hp _] _ IH]; [done|]. by rewrite filter_cons, decide_True, IH.
Qed.

Lemma join_snoc dirs f : dirs ≠ [] → join (dirs ++ [f]) = join dirs ++ 0x2F :: f.
Proof.
  intros Hne. induction dirs as [|p [|q dirs] IH]; [done|done|].
  change ((p :: q :: dirs) ++ [f]) with (p :: q :: (dirs ++ [f])). rewrite !join_cons.
  change (q :: (dirs ++ [f])) with ((q :: dirs) ++ [f]). rewrite IH by done. by rewrite <- app_assoc.
Qed.

Lemma component_head s : component s → ∃ x s', s = x :: s' ∧ is_slash x = false.
Proof.
  intros [Hne Hs]. destruct s as [|x s]; [done|]. exists x, s. split; [done|]. unfold is_slash.
  apply Z.eqb_neq. intros <-. apply Hs. by left.
Qed.

Lemma component_reverse s : component s → component (reverse s).
Proof.
  intros [Hne Hs]. split; [|by rewrite elem_of_reverse]. intros E. apply Hne.
  by rewrite <- (reverse_involutive s), E.
Qed.

Lemma drop_slashes_app s k : component s → drop_while is_slash (s ++ k) = s ++ k.
Proof. intros (x & s' & -> & Hx)%component_head. simpl. by rewrite Hx. Qed.

Lemma join_head p parts : ∃ k, join (p :: parts) = p ++ k.
Proof. destruct parts as [|q parts]; [exists []; by rewrite app_nil_r|by eexists]. Qed.

Lemma join_last dirs f : ∃ k, join (dirs ++ [f]) = k ++ f.
Proof.
  destruct dirs as [|p dirs]; [by exists []|]. rewrite join_snoc by done. exists (join (p :: dirs) ++ [0x2F]).
  by rewrite <- app_assoc.
Qed.

Lemma trim_slashes_between a f b k : a ++ f = b ++ k → component b → component f → trim_slashes (a ++ f) = a ++ f.
Proof.
  intros E Hb Hf. unfold trim_slashes. rewrite E at 1. rewrite drop_slashes_app, <- E by done. rewrite reverse_app.
  rewrite drop_slashes_app by by apply component_reverse. by rewrite <- reverse_app, reverse_involutive.
Qed.

Lemma trim_slashes_join parts : Forall component parts → trim_slashes (join parts) = join parts.
Proof.
  intros H. destruct parts as [|p parts]; [done|]. destruct (join_head p parts) as [k Ek].
  pose proof (Forall_inv H) as Hp. destruct (exists_last (l := p :: parts)) as (dirs & f & E); [done|]. rewrite E in *.
  destruct (join_last dirs f) as [a Ea]. rewrite Ea in *. eapply trim_slashes_between; [exact Ek|done|].
  apply Forall_app in H as [_ H]. by apply Forall_inv in H.
Qed.

Lemma split_last_snoc {A} (l : list A) x : split_last (l ++ [x]) = Some (x, l).
Proof. unfold split_last. rewrite last_snoc, removelast_last. done. Qed.

Lemma strip_prefix_app t s : strip_prefix (t ++ s) t = Some s.
Proof. unfold strip_prefix. rewrite (proj2 (is_prefix_of_spec _ _)) by eauto. by rewrite drop_app_length. Qed.

Lemma strip_prefix_inv s t r : strip_prefix s t = Some r → s = t ++ r.
Proof.
  unfold strip_prefix. case_match eqn:E; [|done]. apply is_prefix_of_spec in E as [u ->]. rewrite drop_app_length. by intros [= ->].
Qed.

Lemma strip_suffix_app s t : strip_suffix (s ++ t) t = Some s.
Proof. by apply strip_suffix_Some. Qed.

(** A file name of a segment, sealed or active. *)
Lemma sealed_not_partial i : strip_suffix (i ++ lit ".arrow") (lit ".arrow.partial") = None.
Proof.
  destruct (strip_suffix _ _) as [s|] eqn:E; [|done]. apply strip_suffix_Some, (f_equal last) in E. by rewrite !last_app in E.
Qed.

Lemma segment_stem_sealed i : segment_stem (i ++ lit ".arrow") = Some i.
Proof. unfold segment_stem. by rewrite sealed_not_partial, strip_suffix_app. Qed.

Lemma segment_stem_active i : segment_stem (i ++ lit ".arrow.partial") = Some i.
Proof. unfold segment_stem. by rewrite strip_suffix_app. Qed.

Section Keys.
Context (dirs : list rstr) (file : rstr).
Hypothesis parts : Forall component (dirs ++ [file]).

Abbreviation key := (join (dirs ++ [file])) (only parsing).
Abbreviation active_key := (lit "_active/" ++ key) (only parsing).

Lemma key_ne : key ≠ [].
Proof.
  destruct (join_last dirs file) as [k ->]. apply Forall_app in parts as [_ [[Hne _] _]%Forall_cons].
  by intros [_ ?]%app_eq_nil.
Qed.

Lemma active_key_join : active_key = join (lit "_active" :: dirs ++ [file]).
Proof. clear parts. destruct dirs as [|d ds]; [done|]. simpl app. by rewrite (join_cons (lit "_active")). Qed.

Lemma active_component : component (lit "_active").
Proof. split; [done|]. refine (bool_decide_unpack _ _). by vm_compute. Qed.

Lemma trim_active_key : trim_slashes active_key = active_key.
Proof. rewrite active_key_join. apply trim_slashes_join. constructor; [apply active_component|done]. Qed.

Lemma not_active_prefix : head (dirs ++ [file]) ≠ Some (lit "_active") → strip_prefix key (lit "_active/") = None.
Proof.
  intros Hh. destruct (strip_prefix _ _) as [r|] eqn:E; [|done]. exfalso. apply strip_prefix_inv, (f_equal components) in E.
  rewrite components_join in E; [|by destruct dirs|done].
  change (lit "_active/" ++ r) with (lit "_active" ++ 0x2F :: r) in E. rewrite components_app in E.
  apply Hh. by rewrite E.
Qed.

Lemma recovery_target_key : head (dirs ++ [file]) ≠ Some (lit "_active") → recovery_target key = place false dirs file.
Proof.
  intros Hh. unfold recovery_target. rewrite trim_slashes_join, bool_decide_false, not_active_prefix; [|done|apply key_ne|done].
  by rewrite parts_of_join, split_last_snoc by (done || by destruct dirs).
Qed.

Lemma recovery_target_active : recovery_target active_key = place true dirs file.
Proof.
  unfold recovery_target. rewrite trim_active_key, strip_prefix_app, bool_decide_false by done.
  by rewrite parts_of_join, split_last_snoc by (done || by destruct dirs).
Qed.

Lemma file_name_key : file_name key = file.
Proof.
  unfold file_name. rewrite components_join by (done || by destruct dirs). by rewrite last_snoc.
Qed.

Lemma evidence_key i : file = i ++ lit ".arrow" → root_evidence key = None.
Proof.
  intros E. unfold root_evidence. rewrite trim_slashes_join, parts_of_join by (done || by destruct dirs).
  rewrite last_snoc. cbn [mbind option_bind]. rewrite E, sealed_not_partial, bool_decide_false; [done|].
  intros Eq%(f_equal last). by rewrite last_app in Eq.
Qed.

Lemma evidence_active_key i : file = i ++ lit ".arrow.partial" → root_evidence active_key = Some AtRoot.
Proof.
  intros E. unfold root_evidence. rewrite trim_active_key, active_key_join, parts_of_join; [|done|].
  - rewrite app_comm_cons, last_snoc. cbn [mbind option_bind]. rewrite E, strip_suffix_app, bool_decide_true by done.
    rewrite (proj2 (Z.leb_le _ _)); [done|]. unfold len. rewrite length_app. simpl. lia.
  - constructor; [apply active_component|done].
Qed.

Lemma sealed_form_partial f : file = f ++ lit ".partial" → sealed_form active_key = join (dirs ++ [f]).
Proof.
  intros E. unfold sealed_form. rewrite trim_active_key, strip_prefix_app. cbn [from_option Datatypes.id].
  replace (join (dirs ++ [file])) with (join (dirs ++ [f]) ++ lit ".partial"); [by rewrite strip_suffix_app|].
  rewrite E. clear parts. destruct dirs as [|p ds]; [done|]. rewrite !join_snoc by done. by rewrite <- app_assoc.
Qed.

End Keys.

(** * Names are components *)

Lemma ascii_chars s : valid_str s → Forall (λ c, 0 ≤ c < 0x80) (chars s) → chars s = s.
Proof.
  intros (cs & Hcs & ->). rewrite chars_encode by done. intros Ha. by rewrite utf8_encode_ascii.
Qed.

Lemma tenant_char_ascii c : tenant_char c = true → 0 ≤ c < 0x80 ∧ c ≠ 0x2F.
Proof.
  unfold tenant_char, is_ascii_alphanumeric, is_ascii_digit, is_ascii_upper, is_ascii_lower.
  rewrite !orb_true_iff, !between_true, !Z.eqb_eq. lia.
Qed.

Lemma index_char_tenant c : index_char c = true → tenant_char c = true.
Proof.
  unfold index_char, tenant_char, is_ascii_alphanumeric. destruct (is_ascii_lower c), (is_ascii_digit c), (c =? 0x5F), (c =? 0x2D); simpl;
    rewrite ?orb_true_r; done.
Qed.

Lemma tenant_chars_component s : valid_str s → s ≠ [] → Forall (λ c, tenant_char c = true) (chars s) → component s.
Proof.
  intros Hs Hne H. rewrite ascii_chars in H; [|done|].
  - split; [done|]. intros Hin. rewrite Forall_forall in H. by destruct (tenant_char_ascii _ (H _ Hin)).
  - eapply Forall_impl; [exact H|]. simpl. intros c Hc. by apply tenant_char_ascii.
Qed.

Lemma sanitize_tenant_component raw t : valid_str raw → sanitize_tenant raw = Some t → component t.
Proof.
  intros Hv. unfold sanitize_tenant. case_match eqn:E; [done|]. case_match; [done|]. intros [= <-].
  apply orb_false_iff in E as [[Hne Hl]%orb_false_iff Hc]. apply negb_false_iff, Is_true_true, forallb_True in Hc.
  apply tenant_chars_component; [by apply trim_valid|by apply bool_decide_eq_false in Hne|].
  eapply Forall_impl; [exact Hc|]. intros c ?. by apply Is_true_true.
Qed.

Lemma validate_index_component i : valid_str i → validate_index_id i = inr tt → component i.
Proof.
  intros Hv. unfold validate_index_id. case_match; [done|]. destruct (chars i) as [|c cs] eqn:Ec; [done|].
  case_match eqn:Ef; [done|]. case_match eqn:Er; [done|]. case_match; [done|]. intros _.
  apply tenant_chars_component; [done|by intros ->|]. rewrite Ec. apply orb_false_iff in Ef as [_ Ef]. constructor.
  - apply index_char_tenant. unfold index_char. by destruct (is_ascii_lower c), (is_ascii_digit c).
  - apply Forall_forall. intros x Hx. apply index_char_tenant. destruct (index_char x) eqn:E; [done|].
    apply not_true_iff_false in Er as []. apply existsb_exists. exists x. rewrite E. split; [by apply list_elem_of_In|done].
Qed.

(** A lane: a tenant's events, or one of its indexes. *)
Definition valid_lane (tenant index : rstr) : Prop :=
  (∃ raw, valid_str raw ∧ sanitize_tenant raw = Some tenant) ∧
  (index = EVENTS_INDEX_ID ∨ valid_str index ∧ validate_index_id index = inr tt).

Definition lane_index (index : rstr) : option rstr := if bool_decide (index = EVENTS_INDEX_ID) then None else Some index.

Definition lane_dirs (tenant index : rstr) : list rstr := [tenant] ++ option_list (lane_index index).

(** The suffixes a lane's writer gives a segment, sealed and active. *)
Definition sealed_suffix (tenant index i : rstr) : rstr := lane_subdir tenant index ++ lit "/" ++ i ++ lit ".arrow".
Definition active_suffix (tenant index i : rstr) : rstr :=
  lit "_active/" ++ lane_subdir tenant index ++ lit "/" ++ i ++ lit ".arrow.partial".

Lemma lane_dirs_component t ix : valid_lane t ix → Forall component (lane_dirs t ix).
Proof.
  intros [(raw & Hraw & Ht) Hi]. unfold lane_dirs, lane_index. constructor; [by eapply sanitize_tenant_component|].
  case_bool_decide; [constructor|]. destruct Hi as [?|[??]]; [done|]. constructor; [by apply validate_index_component|constructor].
Qed.

Lemma lane_subdir_join t ix : lane_subdir t ix = join (lane_dirs t ix).
Proof. unfold lane_subdir, lane_dirs, lane_index. by case_bool_decide. Qed.

Lemma lane_suffix_join t ix f : lane_subdir t ix ++ lit "/" ++ f = join (lane_dirs t ix ++ [f]).
Proof. rewrite lane_subdir_join, join_snoc; [done|]. by unfold lane_dirs. Qed.

Lemma lane_file_component t ix i e :
  valid_lane t ix → 0x2F ∉ i → component e → Forall component (lane_dirs t ix ++ [i ++ e]).
Proof.
  intros Hl Hi [Hne He]. apply Forall_app. split; [by apply lane_dirs_component|]. constructor; [|constructor].
  split; [by intros [_ ?]%app_eq_nil|]. by rewrite elem_of_app; intros [?|?].
Qed.

Lemma arrow_component : component (lit ".arrow").
Proof. split; [done|]. refine (bool_decide_unpack _ _). by vm_compute. Qed.

Lemma partial_component : component (lit ".arrow.partial").
Proof. split; [done|]. refine (bool_decide_unpack _ _). by vm_compute. Qed.

(** * Routing *)

Definition lane_target (tenant index i : rstr) (partial : bool) : RecoveryTarget :=
  mkTarget tenant (lane_index index) (lane_dirs tenant index ++ [SEALED_DIR; i ++ lit ".arrow"])
    ((λ _, [tenant; SEALED_DIR]) <$> lane_index index) i partial.

Lemma place_lane t ix i e b : segment_stem (i ++ e) = Some i → place b (lane_dirs t ix) (i ++ e) = Some (lane_target t ix i b).
Proof. intros He. unfold place. rewrite He. unfold lane_target, lane_dirs, lane_index. simpl. by case_bool_decide. Qed.

Lemma lane_head t ix f : head (lane_dirs t ix ++ [f]) = Some t.
Proof. done. Qed.

Section Lane.
Context (t ix i : rstr).
Hypotheses (lane : valid_lane t ix) (slashless : 0x2F ∉ i).

Abbreviation sealed := (sealed_suffix t ix i) (only parsing).
Abbreviation active := (active_suffix t ix i) (only parsing).

Lemma sealed_file : Forall component (lane_dirs t ix ++ [i ++ lit ".arrow"]).
Proof. by apply lane_file_component, arrow_component. Qed.

Lemma active_file : Forall component (lane_dirs t ix ++ [i ++ lit ".arrow.partial"]).
Proof. by apply lane_file_component, partial_component. Qed.

Lemma sealed_join : sealed = join (lane_dirs t ix ++ [i ++ lit ".arrow"]).
Proof. apply lane_suffix_join. Qed.

Lemma active_join : active = lit "_active/" ++ join (lane_dirs t ix ++ [i ++ lit ".arrow.partial"]).
Proof. unfold active_suffix. by rewrite lane_suffix_join. Qed.

Lemma trim_sealed : trim_slashes sealed = sealed.
Proof. rewrite sealed_join. apply trim_slashes_join, sealed_file. Qed.

Lemma trim_active : trim_slashes active = active.
Proof. rewrite active_join. apply trim_active_key, active_file. Qed.

Lemma target_sealed : t ≠ lit "_active" → recovery_target sealed = Some (lane_target t ix i false).
Proof.
  intros Ht. rewrite sealed_join, recovery_target_key; [apply place_lane, segment_stem_sealed|apply sealed_file|].
  rewrite lane_head. congruence.
Qed.

Lemma target_active : recovery_target active = Some (lane_target t ix i true).
Proof. rewrite active_join, recovery_target_active by apply active_file. apply place_lane, segment_stem_active. Qed.

Lemma id_sealed : segment_id sealed = Some i.
Proof.
  unfold segment_id. rewrite trim_sealed, sealed_join, file_name_key by apply sealed_file. apply segment_stem_sealed.
Qed.

Lemma id_active : segment_id active = Some i.
Proof.
  unfold segment_id. rewrite trim_active, active_join. change (lit "_active/") with (lit "_active" ++ [0x2F]).
  rewrite <- app_assoc. cbn [app]. rewrite file_name_app, file_name_key by apply active_file. apply segment_stem_active.
Qed.

Lemma sealed_form_active : sealed_form active = sealed.
Proof.
  rewrite active_join, sealed_join. apply sealed_form_partial; [apply active_file|]. by rewrite <- app_assoc.
Qed.

Lemma sealed_form_sealed : t ≠ lit "_active" → sealed_form sealed = sealed.
Proof.
  intros Ht. unfold sealed_form. rewrite trim_sealed, sealed_join, not_active_prefix; [|apply sealed_file|rewrite lane_head; congruence].
  cbn [from_option Datatypes.id]. destruct (strip_suffix _ _) as [s|] eqn:E; [|done]. exfalso.
  destruct (join_last (lane_dirs t ix) (i ++ lit ".arrow")) as [k Ek]. rewrite Ek in E.
  apply strip_suffix_Some, (f_equal last) in E. rewrite app_assoc in E. by rewrite !last_app in E.
Qed.

Lemma parse_sealed : parse_mirror_key_suffix sealed = (t, default [] (lane_index ix)).
Proof.
  unfold parse_mirror_key_suffix. rewrite trim_sealed, sealed_join, components_join; [|done|apply sealed_file].
  unfold lane_dirs, lane_index. by case_bool_decide.
Qed.

Lemma active_sibling prefix : active_partial_key prefix sealed = Some (mirror_key prefix active).
Proof.
  unfold active_partial_key, sealed_suffix. replace (lane_subdir t ix ++ lit "/" ++ i ++ lit ".arrow")
    with ((lane_subdir t ix ++ lit "/" ++ i) ++ lit ".arrow") by by rewrite <- !app_assoc.
  rewrite strip_suffix_app. cbn [mbind option_bind]. unfold active_suffix. by rewrite <- !app_assoc.
Qed.

Lemma evidence_sealed : root_evidence sealed = None.
Proof. rewrite sealed_join. by eapply evidence_key; [apply sealed_file|]. Qed.

Lemma evidence_active : root_evidence active = Some AtRoot.
Proof. rewrite active_join. by eapply evidence_active_key; [apply active_file|]. Qed.

End Lane.

(** * The tally *)

Definition conflict_of (rows : gmap rstr LedgerRow) (item : ListedSegment) : option LedgerDisagreement :=
  row ← rows !! listed_id item;
  match judge item row with
  | inl c => Some (mkDisagreement (listed_key item) (listed_route item) row c)
  | inr _ => None
  end.

Definition agreement_of (rows : gmap rstr LedgerRow) (item : ListedSegment) : option (rstr * rstr) :=
  row ← rows !! listed_id item;
  match judge item row with inl _ => None | inr p => Some (listed_key item, p) end.

Lemma tally_spec listed rows :
  disagreements (tally listed rows) = omap (conflict_of rows) listed ∧
  agreed (tally listed rows) = omap (agreement_of rows) listed ∧
  uncertified (tally listed rows) = len (filter (λ it, rows !! listed_id it = None) listed).
Proof.
  unfold tally. induction listed as [|it listed IH] using rev_ind; [done|].
  rewrite foldl_app, !omap_app, filter_app, len_app. destruct IH as (Hd & Ha & Hu).
  set (t := foldl _ _ _) in *. cbn [foldl omap list_omap]. unfold tally_item, conflict_of, agreement_of.
  rewrite filter_cons. destruct (rows !! listed_id it) as [row|]; cbn [mbind option_bind].
  - rewrite decide_False by done. destruct (judge it row); simpl; rewrite ?app_nil_r, Hd, Ha, Hu; unfold len; simpl; auto with lia.
  - rewrite decide_True by done. simpl. rewrite ?app_nil_r, Hd, Ha, Hu. unfold len; simpl; auto with lia.
Qed.

Lemma omap_nil {A B} (f : A → option B) l : omap f l = [] ↔ ∀ x, x ∈ l → f x = None.
Proof.
  split.
  - intros E x Hx. destruct (f x) as [y|] eqn:Ey; [|done]. assert (y ∈ omap f l) as H by (apply list_elem_of_omap; eauto).
    rewrite E in H. by apply elem_of_nil in H.
  - induction l as [|x l IH]; [done|]. intros H. simpl. rewrite (H x) by set_solver. apply IH. set_solver.
Qed.

Lemma strip_suffix_longer s t : (length s < length t)%nat → strip_suffix s t = None.
Proof.
  intros Hl. destruct (strip_suffix s t) as [r|] eqn:E; [|done]. apply strip_suffix_Some in E as ->. rewrite length_app in Hl. lia.
Qed.

Lemma judge_agrees it row p :
  judge it row = inr p →
  (∀ r, listed_route it = Some r → r = mkRoute (ledger_tenant row) (ledger_index row)) ∧
  prefix_above (ledger_url row) (listed_key it) = Some p.
Proof.
  unfold judge. destruct (listed_route it) as [r|]; [case_bool_decide|]; destruct (prefix_above _ _) as [[|x k]|]; simpl;
    intros; simplify_eq; split; (done || congruence).
Qed.

Lemma judge_prefix it row p : judge it row = inr p → p ≠ [].
Proof.
  unfold judge. intros H ->. destruct (prefix_above _ _) as [[|x k]|], (match listed_route it with Some _ => _ | None => _ end); done.
Qed.

(** ** Trimmed prefixes *)

Lemma drop_slashes_head s x k : drop_while is_slash s = x :: k → is_slash x = false.
Proof. induction s as [|y s IH]; [done|]. simpl. case_match eqn:E; [done|]. by intros [= <- <-]. Qed.

Lemma slash_component x : is_slash x = false → component [x].
Proof. intros Hx. split; [done|]. intros <-%list_elem_of_singleton. done. Qed.

Lemma trim_slashes_ends s :
  trim_slashes s ≠ [] →
  (∃ x k, trim_slashes s = [x] ++ k ∧ component [x]) ∧ (∃ k y, trim_slashes s = k ++ [y] ∧ component [y]).
Proof.
  intros Hne. split.
  - destruct (drop_while_suffix is_slash (reverse (drop_while is_slash s))) as [a Ha].
    apply (f_equal reverse) in Ha. rewrite reverse_involutive, reverse_app in Ha. fold (trim_slashes s) in Ha.
    destruct (trim_slashes s) as [|x k] eqn:E; [done|]. exists x, k. split; [done|]. eapply slash_component, drop_slashes_head. exact Ha.
  - unfold trim_slashes in *. destruct (drop_while is_slash (reverse (drop_while is_slash s))) as [|y k] eqn:E; [done|].
    exists (reverse k), y. split; [by rewrite reverse_cons|]. eapply slash_component, drop_slashes_head. exact E.
Qed.

Lemma trim_slashes_idemp s : trim_slashes (trim_slashes s) = trim_slashes s.
Proof.
  destruct (decide (trim_slashes s = [])) as [->|Hne]; [done|].
  destruct (trim_slashes_ends s Hne) as [(x & k & Ex & Hx) (l & y & Ey & Hy)]. rewrite Ey in *.
  eapply trim_slashes_between; [exact Ex|done|done].
Qed.

(** ** Verdicts *)

(** The listed objects the ledger knows. *)
Definition matched (rows : gmap rstr LedgerRow) (listed : list ListedSegment) : list ListedSegment :=
  filter (λ it, is_Some (rows !! listed_id it)) listed.

Lemma matched_unmatched rows listed :
  len (filter (λ it, rows !! listed_id it = None) listed) = len listed - len (matched rows listed).
Proof.
  unfold matched. induction listed as [|it listed IH]; [done|]. rewrite !filter_cons. destruct (rows !! listed_id it) as [row|].
  - rewrite decide_False, decide_True by eauto. unfold len in *. simpl. lia.
  - rewrite decide_True, decide_False by (done || by intros [??]). unfold len in *. simpl. lia.
Qed.

Lemma agreed_all rows listed p :
  (∀ it row, it ∈ listed → rows !! listed_id it = Some row → judge it row = inr p) →
  omap (conflict_of rows) listed = [] ∧
  omap (agreement_of rows) listed = (λ it, (listed_key it, p)) <$> matched rows listed.
Proof.
  unfold matched. induction listed as [|it listed IH]; [done|]. intros H. destruct IH as [Hc Ha].
  { intros it' row ?. apply H. by right. }
  rewrite filter_cons. cbn [omap list_omap]. unfold conflict_of at 1, agreement_of at 1.
  destruct (rows !! listed_id it) as [row|] eqn:E; cbn [mbind option_bind].
  - rewrite (H it row) by (done || by left). rewrite decide_True by eauto. rewrite fmap_cons. by rewrite Ha.
  - rewrite decide_False by by intros [??]. done.
Qed.

Lemma verdict_agreed rows listed p :
  (∀ it row, it ∈ listed → rows !! listed_id it = Some row → judge it row = inr p) →
  match matched rows listed with
  | [] => ledger_verdict listed rows = Silent (len listed)
  | it :: _ => ∃ sample, ledger_verdict listed rows =
      Confirmed (len (matched rows listed)) (len listed - len (matched rows listed)) sample p (listed_key it)
  end.
Proof.
  intros H. destruct (agreed_all rows listed p H) as [Hc Ha]. destruct (tally_spec listed rows) as (Hd & Hg & Hu).
  rewrite Hc in Hd. rewrite Ha in Hg. rewrite matched_unmatched in Hu. unfold ledger_verdict. rewrite Hd, Hg, Hu.
  destruct (matched rows listed) as [|it its] eqn:E; [done|]. rewrite fmap_cons. cbn [fst snd].
  destruct (list_find _ _) as [[n [k p']]|] eqn:Ef.
  - apply list_find_Some in Ef as (Hn%list_elem_of_lookup_2 & Hne & _).
    change ((k, p') ∈ (λ it, (listed_key it, p)) <$> (it :: its)) in Hn. apply list_elem_of_fmap in Hn as (? & ? & _). by simplify_eq/=.
  - eexists. f_equal. unfold len. by rewrite length_cons, length_fmap, length_cons.
Qed.

Lemma verdict_conflict rows listed it row c :
  it ∈ listed → rows !! listed_id it = Some row → judge it row = inl c →
  ledger_verdict listed rows =
    Contradicted (omap (conflict_of rows) listed) (len (omap (agreement_of rows) listed))
      (len listed - len (matched rows listed)) (directory_to_pass (omap (conflict_of rows) listed)).
Proof.
  intros Hin Hrow Hj. destruct (tally_spec listed rows) as (Hd & Hg & Hu). rewrite matched_unmatched in Hu.
  unfold ledger_verdict. rewrite Hd, Hg, Hu. destruct (omap (conflict_of rows) listed) eqn:E; [|done]. exfalso.
  rewrite omap_nil in E. specialize (E it Hin). unfold conflict_of in E. rewrite Hrow in E. cbn [mbind option_bind] in E. by rewrite Hj in E.
Qed.

(** * The ledger at a mirror's root *)

(** The columns of a row that a segment's registration writes. *)
Definition ledger_row (s : Segment) : LedgerRow := mkLedgerRow (tenant s) (index_id s) (segment_url s).

Section Ledger.

(** The prefix segments are uploaded under, and the lane of each segment. *)
Context (prefix : rstr) (lanes : gmap rstr (rstr * rstr)).

Hypothesis mirrored_on : trim_slashes prefix ≠ [].
Hypothesis lanes_ok : ∀ i t ix, lanes !! i = Some (t, ix) → valid_lane t ix ∧ 0x2F ∉ i ∧ t ≠ lit "_active".

(** A key under the root: a segment's sealed or active object. *)
Definition mirrored (key : rstr) : Prop :=
  ∃ i t ix, lanes !! i = Some (t, ix) ∧ (key = sealed_suffix t ix i ∨ key = active_suffix t ix i).

(** Rows as the uploads registered them. *)
Definition registered_rows (rows : gmap rstr LedgerRow) : Prop :=
  ∀ i row, rows !! i = Some row → ∃ t ix n r,
    lanes !! i = Some (t, ix) ∧ row = ledger_row (notify_uploaded prefix (sealed_suffix t ix i) n r).

Lemma sealed_last t ix i : ∃ k, sealed_suffix t ix i = k ++ i ++ lit ".arrow".
Proof. unfold sealed_suffix. exists (lane_subdir t ix ++ lit "/"). by rewrite <- app_assoc. Qed.

Lemma trim_start_sealed t ix i : valid_lane t ix → trim_start_slashes (sealed_suffix t ix i) = sealed_suffix t ix i.
Proof.
  intros Hl. pose proof (Forall_inv (lane_dirs_component _ _ Hl)) as Ht. unfold sealed_suffix, lane_subdir.
  case_bool_decide; rewrite <- ?app_assoc; by apply drop_slashes_app.
Qed.

Lemma registered_row t ix i n r :
  valid_lane t ix → 0x2F ∉ i →
  ledger_row (notify_uploaded prefix (sealed_suffix t ix i) n r) =
    mkLedgerRow t (default [] (lane_index ix)) (trim_slashes prefix ++ lit "/" ++ sealed_suffix t ix i).
Proof.
  intros Hl Hi. unfold notify_uploaded. rewrite parse_sealed by done. unfold ledger_row, mirror_key. simpl.
  by rewrite bool_decide_false, trim_start_sealed.
Qed.

Lemma trim_url t ix i : trim_slashes (trim_slashes prefix ++ lit "/" ++ sealed_suffix t ix i) = trim_slashes prefix ++ lit "/" ++ sealed_suffix t ix i.
Proof.
  destruct (trim_slashes_ends prefix mirrored_on) as [(x & k & Ex & Hx) _]. destruct (sealed_last t ix i) as [a Ea].
  rewrite Ea. replace (trim_slashes prefix ++ lit "/" ++ a ++ i ++ lit ".arrow")
    with ((trim_slashes prefix ++ lit "/" ++ a ++ i) ++ lit ".arrow") by by rewrite <- !app_assoc.
  apply (trim_slashes_between _ _ [x] (k ++ lit "/" ++ a ++ i ++ lit ".arrow"));
    [rewrite Ex, <- !app_assoc; done|done|apply arrow_component].
Qed.

Lemma prefix_above_root t ix i key :
  sealed_form key = sealed_suffix t ix i →
  prefix_above (trim_slashes prefix ++ lit "/" ++ sealed_suffix t ix i) key = Some (trim_slashes prefix).
Proof.
  intros Hk. unfold prefix_above. rewrite trim_url, Hk, bool_decide_false.
  - rewrite (app_assoc (trim_slashes prefix)). rewrite strip_suffix_app. cbn [mbind option_bind]. rewrite strip_suffix_app.
    cbn [mbind option_bind]. by rewrite trim_slashes_idemp.
  - intros E%(f_equal length). rewrite !length_app in E. simpl in E. lia.
Qed.

Lemma listed_mirrored key :
  mirrored key → ∃ i t ix,
    lanes !! i = Some (t, ix) ∧ sealed_form key = sealed_suffix t ix i ∧
    listed_segment key = Some (mkListed key i (Some (mkRoute t (default [] (lane_index ix))))).
Proof.
  intros (i & t & ix & Hlane & Hk). destruct (lanes_ok _ _ _ Hlane) as (Hl & Hi & Ht). exists i, t, ix. split; [done|].
  unfold listed_segment. destruct Hk as [->| ->].
  - rewrite id_sealed, target_sealed by done. split; [by apply sealed_form_sealed|done].
  - rewrite id_active, target_active by done. split; [by apply sealed_form_active|done].
Qed.

Lemma judge_root rows key it row :
  registered_rows rows → mirrored key → listed_segment key = Some it → rows !! listed_id it = Some row →
  judge it row = inr (trim_slashes prefix).
Proof.
  intros Hr (i & t & ix & Hlane & Hf & Hs)%listed_mirrored. rewrite Hs. intros [= <-] Hrow. simpl in Hrow.
  destruct (Hr _ _ Hrow) as (t' & ix' & n & r & Hlane' & ->). simplify_eq. destruct (lanes_ok _ _ _ Hlane) as (Hl & Hi & Ht).
  rewrite registered_row by done. unfold judge. cbn [listed_route listed_key ledger_tenant ledger_index ledger_url].
  rewrite bool_decide_true by done. rewrite prefix_above_root by done. by destruct (trim_slashes prefix).
Qed.

(** ** One component above *)

Context (d : rstr).
Hypothesis prefix_is : trim_slashes prefix = d.
Hypotheses (d_component : component d) (d_not_active : d ≠ lit "_active").

Definition above (key : rstr) : rstr := d ++ lit "/" ++ key.

Lemma above_join p parts : above (join (p :: parts)) = join (d :: p :: parts).
Proof. done. Qed.

Lemma above_sealed t ix i : above (sealed_suffix t ix i) = join ((d :: lane_dirs t ix) ++ [i ++ lit ".arrow"]).
Proof. rewrite sealed_join. done. Qed.

Lemma above_active t ix i : above (active_suffix t ix i) = join ((d :: lit "_active" :: lane_dirs t ix) ++ [i ++ lit ".arrow.partial"]).
Proof. rewrite active_join, active_key_join. done. Qed.

Lemma segment_id_above key : trim_slashes key = key → trim_slashes (above key) = above key → segment_id (above key) = segment_id key.
Proof. intros Hk Ha. unfold segment_id. rewrite Hk, Ha. unfold above. change (lit "/" ++ key) with (0x2F :: key). by rewrite file_name_app. Qed.

Lemma above_parts dirs f : Forall component (dirs ++ [f]) → Forall component ((d :: dirs) ++ [f]).
Proof. intros H. by constructor. Qed.

Lemma above_active_parts t ix i :
  valid_lane t ix → 0x2F ∉ i → Forall component ((d :: lit "_active" :: lane_dirs t ix) ++ [i ++ lit ".arrow.partial"]).
Proof. intros. constructor; [done|]. constructor; [apply active_component|by apply active_file]. Qed.

Lemma above_sealed_parts t ix i :
  valid_lane t ix → 0x2F ∉ i → Forall component ((d :: lane_dirs t ix) ++ [i ++ lit ".arrow"]).
Proof. intros. constructor; [done|]. by apply sealed_file. Qed.

Lemma sealed_form_above t ix i :
  valid_lane t ix → 0x2F ∉ i → sealed_form (above (sealed_suffix t ix i)) = above (sealed_suffix t ix i).
Proof.
  intros Hl Hi. pose proof (above_sealed_parts t ix i Hl Hi) as Hp. unfold sealed_form. rewrite above_sealed, trim_slashes_join by done.
  rewrite not_active_prefix; [|done|simpl; congruence]. cbn [from_option Datatypes.id].
  rewrite <- above_sealed. destruct (sealed_last t ix i) as [k ->]. destruct (strip_suffix _ _) as [s|] eqn:E; [|done]. exfalso.
  apply strip_suffix_Some, (f_equal last) in E. unfold above in E. by rewrite !last_app in E.
Qed.

Lemma sealed_form_above_active t ix i :
  valid_lane t ix → 0x2F ∉ i →
  sealed_form (above (active_suffix t ix i)) = above (lit "_active/" ++ sealed_suffix t ix i).
Proof.
  intros Hl Hi. pose proof (above_active_parts t ix i Hl Hi) as Hp. unfold sealed_form. rewrite above_active, trim_slashes_join by done.
  rewrite not_active_prefix; [|done|simpl; congruence]. cbn [from_option Datatypes.id]. rewrite <- above_active.
  replace (above (active_suffix t ix i)) with (above (lit "_active/" ++ sealed_suffix t ix i) ++ lit ".partial");
    [by rewrite strip_suffix_app|]. unfold above, active_suffix, sealed_suffix. by rewrite <- !app_assoc.
Qed.

Lemma judge_above_sealed t ix i row :
  valid_lane t ix → 0x2F ∉ i → row = mkLedgerRow t (default [] (lane_index ix)) (d ++ lit "/" ++ sealed_suffix t ix i) →
  ∃ c, judge (mkListed (above (sealed_suffix t ix i)) i (route_of <$> recovery_target (above (sealed_suffix t ix i)))) row = inl c.
Proof.
  intros Hl Hi ->. pose proof (above_sealed_parts t ix i Hl Hi) as Hp. unfold judge.
  cbn [listed_route listed_key ledger_tenant ledger_index ledger_url].
  assert (prefix_above (d ++ lit "/" ++ sealed_suffix t ix i) (above (sealed_suffix t ix i)) = Some []) as ->.
  { unfold prefix_above. rewrite sealed_form_above by done. rewrite <- prefix_is, trim_url, prefix_is by done. by rewrite bool_decide_true. }
  case_match eqn:E; eauto.
Qed.

Lemma judge_above_active t ix i row :
  valid_lane t ix → 0x2F ∉ i → row = mkLedgerRow t (default [] (lane_index ix)) (d ++ lit "/" ++ sealed_suffix t ix i) →
  ∃ c, judge (mkListed (above (active_suffix t ix i)) i (route_of <$> recovery_target (above (active_suffix t ix i)))) row = inl c.
Proof.
  intros Hl Hi ->. pose proof (above_active_parts t ix i Hl Hi) as Hp. unfold judge.
  cbn [listed_route listed_key ledger_tenant ledger_index ledger_url].
  assert (prefix_above (d ++ lit "/" ++ sealed_suffix t ix i) (above (active_suffix t ix i)) = None) as ->.
  { unfold prefix_above. rewrite sealed_form_above_active by done. rewrite <- prefix_is, trim_url, prefix_is by done.
    assert (length (d ++ lit "/" ++ sealed_suffix t ix i) < length (above (lit "_active/" ++ sealed_suffix t ix i)))%nat as Hlen.
    { unfold above. rewrite !length_app. simpl. lia. }
    rewrite bool_decide_false by (intros Eq; rewrite Eq in Hlen; lia). by rewrite strip_suffix_longer. }
  case_match; eauto.
Qed.

Lemma listed_above rows key it :
  registered_rows rows → mirrored key → listed_segment key = Some it →
  ∃ it', listed_segment (above key) = Some it' ∧ listed_id it' = listed_id it ∧ listed_key it' = above key ∧
    ∀ row, rows !! listed_id it = Some row → ∃ c, judge it' row = inl c.
Proof.
  intros Hr Hm Hs. pose proof Hm as (i' & t' & ix' & Hlane' & _ & Hs')%listed_mirrored. rewrite Hs in Hs'. simplify_eq.
  destruct Hm as (i & t & ix & Hlane & Hk). destruct (lanes_ok _ _ _ Hlane) as (Hl & Hi & Ht).
  assert (i' = i ∧ segment_id (above key) = Some i) as [-> Hid].
  { assert (segment_id key = Some i ∧ trim_slashes key = key ∧ trim_slashes (above key) = above key) as (Hid & Hk1 & Hk2).
    { destruct Hk as [->| ->]; split_and!.
      - by apply id_sealed.
      - by apply trim_sealed.
      - rewrite above_sealed. by apply trim_slashes_join, above_sealed_parts.
      - by apply id_active.
      - by apply trim_active.
      - rewrite above_active. by apply trim_slashes_join, above_active_parts. }
    rewrite segment_id_above by done. unfold listed_segment in Hs. rewrite Hid in Hs. simpl in Hs. by simplify_eq. }
  unfold listed_segment. rewrite Hid. eexists. split; [done|]. cbn [listed_id listed_key]. do 2 (split; [done|]). intros row Hrow.
  destruct (Hr _ _ Hrow) as (t'' & ix'' & n & r & Hlane'' & ->). simplify_eq.
  rewrite registered_row, prefix_is by done. destruct Hk as [->| ->]; [by apply judge_above_sealed|by apply judge_above_active].
Qed.

End Ledger.

(** * Properties *)

(** C17. A key leads back to the segment it was made from.  For a tenant the
    ingester accepts other than [_active] ([active_tenant_misrouted]: that one is
    misrouted), an index it accepts and a segment of that lane, the sealed object and
    its active sibling both restore to the lane's own [sealed] directory under
    the segment's name, marked as what they are; both carry the segment's id; the
    uploader registers the same lane; an active key's sealed form is the sealed
    key, and neither misleads the search for the root. *)
Theorem recovery_routes raw t ix i w :
  valid_str raw → sanitize_tenant raw = Some t → t ≠ lit "_active" →
  ix = EVENTS_INDEX_ID ∨ valid_str ix ∧ validate_index_id ix = inr tt → 0x2F ∉ i →
  let sealed := WalWriter.mirror_key (set_mirror_subdir (Some (lane_subdir t ix)) w) (i ++ lit ".arrow") in
  ∃ active,
    active_partial_key [] sealed = Some active ∧
    recovery_target sealed = Some (lane_target t ix i false) ∧
    recovery_target active = Some (lane_target t ix i true) ∧
    segment_id sealed = Some i ∧ segment_id active = Some i ∧ sealed_form active = sealed ∧
    parse_mirror_key_suffix sealed = (t, default [] (lane_index ix)) ∧
    root_evidence sealed = None ∧ root_evidence active = Some AtRoot.
Proof.
  intros Hv Hs Ht Hx Hi. assert (valid_lane t ix) as Hl by (split; eauto). intros sealed.
  assert (sealed = sealed_suffix t ix i) as ->.
  { unfold sealed, WalWriter.mirror_key. simpl. change (WalWriter.trim_slashes ?s) with (trim_slashes s).
    rewrite lane_subdir_join, trim_slashes_join, <- lane_subdir_join by by apply lane_dirs_component.
    pose proof (Forall_inv (lane_dirs_component _ _ Hl)) as (x & k & -> & _)%component_head.
    unfold sealed_suffix, lane_subdir. by case_bool_decide. }
  exists (active_suffix t ix i). rewrite active_sibling, target_sealed, target_active, id_sealed, id_active by done.
  by rewrite sealed_form_active, parse_sealed, evidence_sealed, evidence_active.
Qed.

Lemma listed_mirrored_all lanes keys :
  (∀ i t ix, lanes !! i = Some (t, ix) → valid_lane t ix ∧ 0x2F ∉ i ∧ t ≠ lit "_active") →
  Forall (mirrored lanes) keys → len (omap listed_segment keys) = len keys.
Proof.
  intros Hok. induction 1 as [|key keys Hk _ IH]; [done|].
  apply (listed_mirrored _ Hok) in Hk as (i & t & ix & _ & _ & Hs). cbn [omap list_omap]. rewrite Hs, !len_cons. by rewrite IH.
Qed.

Lemma directory_above d ds :
  component d → ds ≠ [] → (∀ e, e ∈ ds → ∃ key, d_key e = above d key ∧ trim_slashes (above d key) = above d key) →
  directory_to_pass ds = Some d.
Proof.
  intros [Hne Hd] Hds H. destruct ds as [|e ds]; [done|]. unfold directory_to_pass. cbn [omap list_omap].
  destruct (H e) as (key & -> & ->); [by left|]. unfold above. change (lit "/" ++ key) with (0x2F :: key).
  rewrite components_app, components_free by done. pose proof (components_ne key) as Hk.
  destruct (components key) as [|q qs]; [done|]. simpl. by rewrite bool_decide_false.
Qed.

Lemma trim_above lanes d key :
  (∀ i t ix, lanes !! i = Some (t, ix) → valid_lane t ix ∧ 0x2F ∉ i ∧ t ≠ lit "_active") →
  component d → mirrored lanes key → trim_slashes (above d key) = above d key.
Proof.
  intros Hok Hd (i & t & ix & Hlane & Hk). destruct (Hok _ _ _ Hlane) as (Hl & Hi & _). destruct Hk as [->| ->].
  - rewrite above_sealed. by apply trim_slashes_join, above_sealed_parts.
  - rewrite above_active. by apply trim_slashes_join, above_active_parts.
Qed.

Lemma verdict_above prefix lanes keys rows :
  trim_slashes prefix ≠ [] →
  (∀ i t ix, lanes !! i = Some (t, ix) → valid_lane t ix ∧ 0x2F ∉ i ∧ t ≠ lit "_active") →
  Forall (mirrored lanes) keys → registered_rows prefix lanes rows →
  component (trim_slashes prefix) → trim_slashes prefix ≠ lit "_active" → matched rows (omap listed_segment keys) ≠ [] →
  ∃ ds a u, ledger_verdict (omap listed_segment (above (trim_slashes prefix) <$> keys)) rows =
    Contradicted ds a u (Some (trim_slashes prefix)).
Proof.
  intros Hp Hok Hkeys Hr Hd Hda Hm. set (d := trim_slashes prefix) in *. rewrite Forall_forall in Hkeys.
  destruct (matched _ _) as [|it its] eqn:E; [done|]. assert (it ∈ matched rows (omap listed_segment keys)) as Hit by (rewrite E; by left).
  apply list_elem_of_filter in Hit as [[row Hrow] (key & Hkey & Hs)%list_elem_of_omap].
  destruct (listed_above prefix lanes Hp Hok d eq_refl Hd Hda rows key it Hr (Hkeys _ Hkey) Hs) as (it' & Hs' & Hid & Hk' & Hj).
  destruct (Hj row Hrow) as [c Hc]. assert (it' ∈ omap listed_segment (above d <$> keys)) as Hin.
  { apply list_elem_of_omap. exists (above d key). split; [by apply list_elem_of_fmap_2|done]. }
  rewrite <- Hid in Hrow. pose proof (verdict_conflict rows _ it' row c Hin Hrow Hc) as ->.
  rewrite (directory_above d); [eauto|done| |].
  - intros Hnil. rewrite omap_nil in Hnil. specialize (Hnil it' Hin). unfold conflict_of in Hnil. rewrite Hrow in Hnil.
    cbn [mbind option_bind] in Hnil. by rewrite Hc in Hnil.
  - intros e (it0 & (key0 & Hk0 & Hs0)%list_elem_of_omap & He)%list_elem_of_omap.
    apply list_elem_of_fmap in Hk0 as (k1 & -> & Hk1). exists k1. split; [|by apply (trim_above lanes); auto].
    unfold conflict_of in He. destruct (rows !! listed_id it0); [|done]. cbn [mbind option_bind] in He.
    destruct (judge it0 _); [|done]. injection He as <-. cbn [d_key]. unfold listed_segment in Hs0.
    destruct (segment_id (above d k1)); [|done]. cbn [mbind option_bind] in Hs0. by injection Hs0 as <-.
Qed.

(** The ledger recognises the mirror's root.  Where the rows are those the
    uploads registered under a prefix, a listing taken at the mirror's root,
    sealed and active objects alike, is never refused: the verdict is Silent when
    no row matches and otherwise Confirmed with every match counted and the
    prefix itself.  Where the prefix is one component, the same listing taken one
    component too high is Contradicted as soon as one row matches, and the
    refusal names that component as the directory to pass. *)
Theorem ledger_finds_root prefix lanes keys rows :
  trim_slashes prefix ≠ [] →
  (∀ i t ix, lanes !! i = Some (t, ix) → valid_lane t ix ∧ 0x2F ∉ i ∧ t ≠ lit "_active") →
  Forall (mirrored lanes) keys → registered_rows prefix lanes rows →
  let hits := matched rows (omap listed_segment keys) in
  match hits with
  | [] => ledger_verdict (omap listed_segment keys) rows = Silent (len keys)
  | it :: _ => ∃ sample, ledger_verdict (omap listed_segment keys) rows =
      Confirmed (len hits) (len keys - len hits) sample (trim_slashes prefix) (listed_key it)
  end ∧
  (component (trim_slashes prefix) → trim_slashes prefix ≠ lit "_active" → hits ≠ [] →
   ∃ ds a u, ledger_verdict (omap listed_segment (above (trim_slashes prefix) <$> keys)) rows =
     Contradicted ds a u (Some (trim_slashes prefix))).
Proof.
  intros Hp Hok Hkeys Hr hits. split; [|by apply (verdict_above prefix lanes)].
  rewrite <- (listed_mirrored_all lanes keys) by done. apply verdict_agreed. rewrite Forall_forall in Hkeys.
  intros it row (key & Hkey & Hs)%list_elem_of_omap Hrow. by eapply judge_root; eauto.
Qed.


(** C35. A tenant may be named [_active], and its sealed objects then restore
    into other tenants' lanes: its events segments into those of [default], those
    of its index [ix] into the events of a tenant [ix], both taken for active
    copies. *)
Theorem active_tenant_misrouted ix i :
  valid_str ix → validate_index_id ix = inr tt → ix ≠ EVENTS_INDEX_ID → 0x2F ∉ i →
  sanitize_tenant (lit "_active") = Some (lit "_active") ∧
  recovery_target (sealed_suffix (lit "_active") EVENTS_INDEX_ID i) = Some (lane_target DEFAULT EVENTS_INDEX_ID i true) ∧
  recovery_target (sealed_suffix (lit "_active") ix i) = Some (lane_target ix EVENTS_INDEX_ID i true).
Proof.
  intros Hv Hx Hne Hi. pose proof (validate_index_component ix Hv Hx) as Hc.
  assert (component (i ++ lit ".arrow")) as Hf.
  { destruct arrow_component as [? Ha]. split; [by intros [_ ?]%app_eq_nil|]. by rewrite elem_of_app; intros [?|?]. }
  split; [by vm_compute|]. split.
  - change (sealed_suffix _ _ _) with (lit "_active/" ++ join ([] ++ [i ++ lit ".arrow"])).
    rewrite recovery_target_active by (constructor; [done|constructor]). unfold place. rewrite segment_stem_sealed. done.
  - assert (sealed_suffix (lit "_active") ix i = lit "_active/" ++ join ([ix] ++ [i ++ lit ".arrow"])) as ->.
    { unfold sealed_suffix, lane_subdir. by rewrite bool_decide_false. }
    rewrite recovery_target_active by (constructor; [done|constructor; [done|constructor]]). unfold place. rewrite segment_stem_sealed. done.
Qed.

(** Where the prefix has two components and the mirror holds only index
    segments, a listing one component too high is Confirmed: no key routes
    anywhere, so nothing restores, and the ledger still vouches for the root. *)
Theorem nested_prefix_confirmed :
  let prefix := lit "lake/wal-mirror" in
  let suffix := sealed_suffix (lit "acme") (lit "orders") (lit "x") in
  let key := above (lit "wal-mirror") suffix in
  recovery_target key = None ∧
  ledger_verdict (omap listed_segment [key])
    {[ lit "x" := ledger_row (notify_uploaded prefix suffix 1 1) ]} = Confirmed 1 0 None (lit "lake") key.
Proof. split; by vm_compute. Qed.

(** * Witnesses *)

Definition acme_writer : WalWriter := mkWriter (lit "ing-1") 100 None None None.

Lemma ascii_lit s : forallb (λ c, (0 <=? c) && (c <? 0x80)) s = true → valid_str s.
Proof.
  intros H. apply ascii_valid. apply Is_true_true, forallb_True in H. eapply Forall_impl; [exact H|]. simpl.
  intros c Hc%Is_true_true. apply andb_true_iff in Hc as [?%Z.leb_le ?%Z.ltb_lt]. lia.
Qed.

Lemma recovery_routes_witness :
  ∃ active,
    active_partial_key [] (lit "acme/orders/x.arrow") = Some active ∧
    recovery_target active = Some (lane_target (lit "acme") (lit "orders") (lit "x") true).
Proof.
  destruct (recovery_routes (lit " acme ") (lit "acme") (lit "orders") (lit "x") acme_writer) as (active & Ha & _ & Hr & _).
  - by apply ascii_lit; vm_compute.
  - by vm_compute.
  - by vm_compute.
  - right. split; [by apply ascii_lit; vm_compute|by vm_compute].
  - refine (bool_decide_unpack _ _). by vm_compute.
  - exists active. split; [exact Ha|exact Hr].
Defined.

Definition acme_lanes : gmap rstr (rstr * rstr) := {[ lit "x" := (lit "acme", EVENTS_INDEX_ID) ]}.

Definition acme_keys : list rstr :=
  [sealed_suffix (lit "acme") EVENTS_INDEX_ID (lit "x"); active_suffix (lit "acme") EVENTS_INDEX_ID (lit "x")].

Definition acme_rows : gmap rstr LedgerRow :=
  {[ lit "x" := ledger_row (notify_uploaded (lit "/wal-mirror/") (sealed_suffix (lit "acme") EVENTS_INDEX_ID (lit "x")) 10 1) ]}.

Lemma ledger_finds_root_witness :
  ∃ ds a u, ledger_verdict (omap listed_segment (above (lit "wal-mirror") <$> acme_keys)) acme_rows =
    Contradicted ds a u (Some (lit "wal-mirror")).
Proof.
  destruct (ledger_finds_root (lit "/wal-mirror/") acme_lanes acme_keys acme_rows) as [_ Hhigh].
  - by vm_compute.
  - unfold acme_lanes. intros i t ix [<- [= <- <-]]%lookup_singleton_Some. split; [|split].
    + split; [exists (lit "acme"); split; [by apply ascii_lit; vm_compute|by vm_compute]|by left].
    + refine (bool_decide_unpack _ _). by vm_compute.
    + by vm_compute.
  - repeat constructor; (exists (lit "x"), (lit "acme"), EVENTS_INDEX_ID); (split; [by apply lookup_singleton_Some|auto]).
  - unfold acme_rows. intros i row [<- <-]%lookup_singleton_Some. exists (lit "acme"), EVENTS_INDEX_ID, 10, 1. split; [|done]. by apply lookup_singleton_Some.
  - apply Hhigh; [|by vm_compute|by vm_compute]. split; [by vm_compute|]. refine (bool_decide_unpack _ _). by vm_compute.
Defined.


Lemma active_tenant_misrouted_witness :
  recovery_target (lit "_active/orders/x.arrow") = Some (lane_target (lit "orders") EVENTS_INDEX_ID (lit "x") true).
Proof.
  destruct (active_tenant_misrouted (lit "orders") (lit "x")) as (_ & _ & H); [..|exact H].
  - by apply ascii_lit; vm_compute.
  - by vm_compute.
  - by vm_compute.
  - refine (bool_decide_unpack _ _). by vm_compute.
Defined.
