(* ===== verification/MirrorUpload.v ===== *)
(** Mirroring segments to an object store (loglake-wal, [mirror.rs]): the pins
    that keep a sealed segment for its upload, the upload worker, the catch-up
    sweep and the snapshots of active segments.

    The state is a WAL root's files, by path, and the store's objects, by key.  A
    hard link is a second path with the same contents: files the mirror reads are
    never written again under their names, so contents are per path.  A statement
    is one system call or one request; any of them may fail, and a request may
    have its effect and lose its answer.  Whether a pin survives a power failure
    is the business of the file system's model (WalDisk); here a process may stop
    at any statement. *)

From stdpp Require Import prelude gmap strings sorting relations.
From Stdlib Require Import ZArith Lia.
From S2P Require Import Prelude RustStr WalLifecycle WalWriter Eff RelyGuarantee Catalog CatalogInv MirrorSync MirrorKeys.

(** * State *)

(** A path under the WAL root, component by component. *)
Abbreviation Path := (list rstr) (only parsing).

(** A sealed segment as its writer hands it over; its file is
    [<lane>/sealed/<name>]. *)
Record Handed := mkHanded { lane : list rstr; name : rstr; suffix : rstr; handed_rows : Z }.

(** What a restore reports. *)
Record RecoverySummary := mkSummary {
  pulled : Z; skipped : Z; already_present : Z; unreadable : Z;
  sample_skipped_key : option rstr; sample_unreadable_key : option rstr;
}.

(** A finished restore: the objects and the volume it began with, the volume it
    left, and its result. *)
Record Restore := mkRestore {
  began_objects : gmap rstr bytes; began_files : gmap (list rstr) bytes; ended_files : gmap (list rstr) bytes;
  outcome : option RecoverySummary;
}.

Record Site := mkSite {
  objects : gmap rstr bytes;
  files : gmap (list rstr) bytes;
  dirs : gset (list rstr);
  queue : list Handed;
  (** What was sent to the registrar. *)
  registrations : list Segment;
  (** Ghost: the keys an object has been stored under, the keys reclaimed, and
      the segments that were pinned. *)
  stored : gset rstr;
  reclaimed : gset rstr;
  owed : gset (list rstr * rstr);
  (** Ghost: what complete sweeps had found pinned. *)
  swept : list (list (list rstr * rstr));
  (** The volume a mirror is restored onto, and the restores so far. *)
  restored : gmap (list rstr) bytes;
  restored_dirs : gset (list rstr);
  restores : list Restore;
}.

Definition set_objects (v : gmap rstr bytes) (s : Site) : Site :=
  mkSite v (files s) (dirs s) (queue s) (registrations s) (stored s) (reclaimed s) (owed s) (swept s) (restored s) (restored_dirs s) (restores s).
Definition set_files (v : gmap (list rstr) bytes) (s : Site) : Site :=
  mkSite (objects s) v (dirs s) (queue s) (registrations s) (stored s) (reclaimed s) (owed s) (swept s) (restored s) (restored_dirs s) (restores s).
Definition set_dirs (v : gset (list rstr)) (s : Site) : Site :=
  mkSite (objects s) (files s) v (queue s) (registrations s) (stored s) (reclaimed s) (owed s) (swept s) (restored s) (restored_dirs s) (restores s).
Definition set_queue (v : list Handed) (s : Site) : Site :=
  mkSite (objects s) (files s) (dirs s) v (registrations s) (stored s) (reclaimed s) (owed s) (swept s) (restored s) (restored_dirs s) (restores s).
Definition set_registrations (v : list Segment) (s : Site) : Site :=
  mkSite (objects s) (files s) (dirs s) (queue s) v (stored s) (reclaimed s) (owed s) (swept s) (restored s) (restored_dirs s) (restores s).
Definition set_stored (v : gset rstr) (s : Site) : Site :=
  mkSite (objects s) (files s) (dirs s) (queue s) (registrations s) v (reclaimed s) (owed s) (swept s) (restored s) (restored_dirs s) (restores s).
Definition set_reclaimed (v : gset rstr) (s : Site) : Site :=
  mkSite (objects s) (files s) (dirs s) (queue s) (registrations s) (stored s) v (owed s) (swept s) (restored s) (restored_dirs s) (restores s).
Definition set_owed (v : gset (list rstr * rstr)) (s : Site) : Site :=
  mkSite (objects s) (files s) (dirs s) (queue s) (registrations s) (stored s) (reclaimed s) v (swept s) (restored s) (restored_dirs s) (restores s).
Definition set_swept (v : list (list (list rstr * rstr))) (s : Site) : Site :=
  mkSite (objects s) (files s) (dirs s) (queue s) (registrations s) (stored s) (reclaimed s) (owed s) v (restored s) (restored_dirs s) (restores s).
Definition set_restored (v : gmap (list rstr) bytes) (s : Site) : Site :=
  mkSite (objects s) (files s) (dirs s) (queue s) (registrations s) (stored s) (reclaimed s) (owed s) (swept s) v (restored_dirs s) (restores s).
Definition set_restored_dirs (v : gset (list rstr)) (s : Site) : Site :=
  mkSite (objects s) (files s) (dirs s) (queue s) (registrations s) (stored s) (reclaimed s) (owed s) (swept s) (restored s) v (restores s).
Definition set_restores (v : list Restore) (s : Site) : Site :=
  mkSite (objects s) (files s) (dirs s) (queue s) (registrations s) (stored s) (reclaimed s) (owed s) (swept s) (restored s) (restored_dirs s) v.

Definition PROCESSING_DIR : rstr := lit "processing".
Definition COMMITTED_DIR : rstr := lit "committed".
Definition MIRROR_PENDING_DIR : rstr := lit "mirror-pending".

Definition sealed_path (lane : list rstr) (name : rstr) : Path := lane ++ [SEALED_DIR; name].
Definition processing_path (lane : list rstr) (name : rstr) : Path := lane ++ [PROCESSING_DIR; name].
Definition committed_path (lane : list rstr) (name : rstr) : Path := lane ++ [COMMITTED_DIR; name].
Definition pending_path (lane : list rstr) (name : rstr) : Path := lane ++ [MIRROR_PENDING_DIR; name].

(** * Statements *)

(** [Path::exists], which answers [false] when it fails. *)
Definition exists_ (p : Path) : Eff Site bool :=
  let* r := catch (query Local (λ _ s, bool_decide (is_Some (files s !! p)))) in Ret (default false r).

(** A read: [None] is an error, [Some None] is [NotFound]. *)
Definition read_file (p : Path) : Eff Site (option (option bytes)) := catch (query Local (λ _ s, files s !! p)).
Definition get (key : rstr) : Eff Site (option (option bytes)) := catch (query Outside (λ _ s, objects s !! key)).
Definition stat (key : rstr) : Eff Site (option (option Z)) := catch (query Outside (λ _ s, match objects s !! key with Some b => Some (len b) | None => None end)).

(** [Operator::write] and [Operator::delete].  A write is whole or not there, as
    on an object store; opendal's file-system service, which creates the target
    in place, is not such a store. *)
Definition put (key : rstr) (b : bytes) : Eff Site unit :=
  stmt Outside (λ _ s, (tt, set_stored ({[key]} ∪ stored s) (set_objects (<[key := b]> (objects s)) s))).
Definition delete (key : rstr) : Eff Site unit := stmt Outside (λ _ s, (tt, set_objects (base.delete key (objects s)) s)).

Definition create_wal_dir (p : Path) : Eff Site unit := stmt Local (λ _ s, (tt, set_dirs ({[p]} ∪ dirs s) s)).
Definition sync_dir (p : Path) : Eff Site unit := query Local (λ _ _, tt).

Definition send (m : list Segment) : Eff Site unit :=
  ignore (catch (stmt Local (λ _ s, (tt, set_registrations (registrations s ++ m) s)))).

(** * Pins *)

(** The names a segment may have, in the order they are tried. *)
Definition local_names (q : Handed) : list Path :=
  [sealed_path (lane q) (name q); processing_path (lane q) (name q);
   committed_path (lane q) (name q); pending_path (lane q) (name q)].

Fixpoint first_existing (ps : list Path) : Eff Site (option Path) :=
  match ps with
  | [] => Ret None
  | p :: ps => let* e := exists_ p in if e then Ret (Some p) else first_existing ps
  end.

Definition find_segment (q : Handed) : Eff Site (option Path) := first_existing (local_names q).

Inductive Link := Linked | AlreadyExists | SourceGone.

Definition hard_link (q : Handed) (source pending : Path) : Eff Site Link :=
  stmt Local (λ _ s,
    match files s !! source, files s !! pending with
    | None, _ => (SourceGone, s)
    | _, Some _ => (AlreadyExists, s)
    | Some b, None => (Linked, set_owed ({[(lane q, name q)]} ∪ owed s) (set_files (<[pending := b]> (files s)) s))
    end).

Fixpoint pin_attempts (attempts : nat) (q : Handed) : Eff Site unit :=
  match attempts with
  | O => Err
  | S attempts =>
      let* source := find_segment q in
      match source with
      | None => Err
      | Some source =>
          let* r := hard_link q source (pending_path (lane q) (name q)) in
          match r with
          | Linked => sync_dir (lane q ++ [MIRROR_PENDING_DIR])
          | AlreadyExists => Ret tt
          | SourceGone => pin_attempts attempts q
          end
      end
  end.

Definition pin_segment (q : Handed) : Eff Site unit :=
  let* _ := create_wal_dir (lane q ++ [MIRROR_PENDING_DIR]) in pin_attempts 3 q.

Definition remove_file (p : Path) : Eff Site bool :=
  stmt Local (λ _ s, match files s !! p with Some _ => (true, set_files (base.delete p (files s)) s) | None => (false, s) end).

Definition remove_pin (q : Handed) : Eff Site unit :=
  let* found := remove_file (pending_path (lane q) (name q)) in
  if found then sync_dir (lane q ++ [MIRROR_PENDING_DIR]) else Ret tt.

(** [enqueue]: a failed pin is only counted. *)
Definition enqueue (q : Handed) : Eff Site unit :=
  let* _ := catch (pin_segment q) in
  ignore (catch (stmt Local (λ _ s, (tt, set_queue (queue s ++ [q]) s)))).

(** * The worker *)

Section Worker.
(** The prefix, whether uploads are announced, and whether active copies are
    cleaned up. *)
Context (prefix : rstr) (announce cleanup : bool).

Definition ACTIVE_CLEANUP_ATTEMPTS : nat := 3.
Definition MIRROR_UPLOAD_ATTEMPTS : nat := 5.

Fixpoint delete_attempts (attempts : nat) (key : rstr) : Eff Site unit :=
  match attempts with
  | O => Ret tt
  | S attempts => let* r := catch (delete key) in match r with Some _ => Ret tt | None => delete_attempts attempts key end
  end.

Definition cleanup_active_partial (sealed_suffix : rstr) : Eff Site unit :=
  match active_partial_key prefix sealed_suffix with
  | Some key => delete_attempts ACTIVE_CLEANUP_ATTEMPTS key
  | None => Ret tt
  end.

Inductive Upload := Uploaded (bytes : Z) | LocalNotFound | OtherError.

Definition upload (q : Handed) : Eff Site Upload :=
  let given := sealed_path (lane q) (name q) in
  let* there := exists_ given in
  let* found := if there then Ret (Some given) else find_segment q in
  match found with
  | None => Ret LocalNotFound
  | Some p =>
      let* b := read_file p in
      match b with
      | Some None => Ret LocalNotFound
      | None => Ret OtherError
      | Some (Some b) =>
          let* r := catch (put (mirror_key prefix (suffix q)) b) in
          Ret (match r with Some _ => Uploaded (len b) | None => OtherError end)
      end
  end.

(** What follows once the object is known to be there. *)
Definition settle (q : Handed) (bytes : Z) : Eff Site unit :=
  let* _ := if announce then send [notify_uploaded prefix (suffix q) bytes (handed_rows q)] else Ret tt in
  let* _ := if cleanup then cleanup_active_partial (suffix q) else Ret tt in
  ignore (catch (remove_pin q)).

Definition check_after_failure (q : Handed) : Eff Site unit :=
  let* r := stat (mirror_key prefix (suffix q)) in
  match r with Some (Some bytes) => settle q bytes | _ => Ret tt end.

Fixpoint upload_attempts (attempts : nat) (q : Handed) : Eff Site unit :=
  match attempts with
  | O => check_after_failure q
  | S attempts =>
      let* r := upload q in
      match r with
      | Uploaded bytes => settle q bytes
      | LocalNotFound => check_after_failure q
      | OtherError => upload_attempts attempts q
      end
  end.

Definition upload_and_notify (q : Handed) : Eff Site unit := upload_attempts MIRROR_UPLOAD_ATTEMPTS q.

(** One turn of [run]. *)
Definition worker_turn : Eff Site unit :=
  let* q := stmt Local (λ _ s, match queue s with q :: qs => (Some q, set_queue qs s) | [] => (None, s) end) in
  match q with Some q => upload_and_notify q | None => Ret tt end.

(** * The active snapshots *)

(** A flushed writer's file, its length then, and its subdirectory; [seen] is
    what the loop last uploaded. *)
Record ActiveSnapshot := mkSnapshot { snapshot_path : Path; snapshot_bytes : Z; subdir : option rstr }.

Definition snapshot_suffix (sub : option rstr) (sealed_name : rstr) : rstr :=
  match sub with Some (c :: sub) => (c :: sub) ++ lit "/" ++ sealed_name | _ => sealed_name end.

Definition mirror_snapshot (seen : gmap (list rstr) Z) (snap : ActiveSnapshot) : Eff Site (gmap (list rstr) Z) :=
  if bool_decide (seen !! snapshot_path snap = Some (snapshot_bytes snap)) then Ret seen else
  match last (snapshot_path snap) with
  | None => Ret seen
  | Some filename =>
      let* body := read_file (snapshot_path snap) in
      match body, strip_suffix filename (lit ".partial") with
      | Some (Some body), Some sealed_name =>
          let sealed_suffix := snapshot_suffix (subdir snap) sealed_name in
          match active_partial_key prefix sealed_suffix with
          | None => Ret seen
          | Some key =>
              let* r := catch (put key body) in
              match r with
              | None => Ret seen
              | Some _ =>
                  let* st := stat (mirror_key prefix sealed_suffix) in
                  let* _ := match st with Some (Some _) => cleanup_active_partial sealed_suffix | _ => Ret tt end in
                  Ret (<[snapshot_path snap := len body]> seen)
              end
          end
      | _, _ => Ret seen
      end
  end.

(** One tick, given what the sources flushed. *)
Definition active_tick (seen : gmap (list rstr) Z) (snapshots : list ActiveSnapshot) : Eff Site (gmap (list rstr) Z) :=
  let* seen := each mirror_snapshot snapshots seen in
  Ret (filter (λ e, e.1 ∈ snapshot_path <$> snapshots) seen).
End Worker.

(** * The catch-up sweep *)

(** The children of a root that hold segments. *)
Definition layout_names (root : list rstr) (d : gset (list rstr)) : list rstr :=
  merge_sort lex_le
    (omap (λ p, '(sub, p) ← split_last p; '(n, p) ← split_last p;
                if bool_decide (sub = SEALED_DIR ∧ p = root ∧ n ∉ RESERVED_WAL_LAYOUT_DIRS) then Some n else None)
       (elements d)).

Definition list_layout_dirs (root : list rstr) : Eff Site (list rstr) := query Local (λ _ s, layout_names root (dirs s)).
Definition list_tenant_dirs : Eff Site (list rstr) := list_layout_dirs [].
Definition list_index_dirs (tenant : rstr) : Eff Site (list rstr) := list_layout_dirs [tenant].

(** The root itself, the tenants and their indexes. *)
Definition sweep_roots : Eff Site (list (list rstr)) :=
  let* tenants := catch list_tenant_dirs in
  each (λ acc t, let* indexes := catch (list_index_dirs t) in
                 Ret (acc ++ [t] :: ((λ i, [t; i]) <$> default [] indexes))) (default [] tenants) [[]].

Definition names_in (dir : list rstr) (f : gmap (list rstr) bytes) : list rstr :=
  merge_sort lex_le
    (omap (λ p, '(n, d) ← split_last p; if bool_decide (d = dir) && is_arrow n then Some n else None) (map_to_list f).*1).

(** [list_pending(..).unwrap_or_default()], and the same of [list_sealed] *)
Definition list_dir (dir : Path) : Eff Site (list rstr) :=
  let* r := catch (query Local (λ _ s, names_in dir (files s))) in Ret (default [] r).

Record Candidate := mkCandidate { c_lane : list rstr; c_path : Path; c_name : rstr; c_key : rstr; pinned : bool }.

Section Sweep.
Context (prefix : rstr) (cleanup : bool).

Definition suffix_of (lane : list rstr) (name : rstr) : rstr :=
  match join lane with [] => name | c :: sub => (c :: sub) ++ lit "/" ++ name end.

Definition candidate_key (lane : list rstr) (name : rstr) : rstr := trim_slashes prefix ++ lit "/" ++ suffix_of lane name.

(** One directory's candidates; a key that is there already is dropped. *)
Definition add_candidates (lane : list rstr) (dir : rstr) (pin : bool) (acc : list Candidate) (names : list rstr) : list Candidate :=
  foldl (λ acc n,
    let key := candidate_key lane n in
    if bool_decide (key ∈ c_key <$> acc) then acc
    else acc ++ [mkCandidate lane (lane ++ [dir; n]) n key pin]) acc names.

Definition sweep_candidates : Eff Site (list Candidate) :=
  let* roots := sweep_roots in
  each (λ acc lane,
    let* pending := list_dir (lane ++ [MIRROR_PENDING_DIR]) in
    let* sealed := list_dir (lane ++ [SEALED_DIR]) in
    Ret (add_candidates lane SEALED_DIR false (add_candidates lane MIRROR_PENDING_DIR true acc pending) sealed)) roots [].

Inductive SweepCandidateRead := Bytes (b : bytes) | LocallyCommitted.

Definition read_sweep_candidate (c : Candidate) : Eff Site SweepCandidateRead :=
  let* r := read_file (c_path c) in
  match r with
  | None => Err
  | Some (Some b) => Ret (Bytes b)
  | Some None =>
      let* r := read_file (processing_path (c_lane c) (c_name c)) in
      match r with
      | None => Err
      | Some (Some b) => Ret (Bytes b)
      | Some None =>
          let* committed := exists_ (committed_path (c_lane c) (c_name c)) in
          if committed then Ret LocallyCommitted else
          let* r := read_file (c_path c) in
          match r with Some (Some b) => Ret (Bytes b) | _ => Err end
      end
  end.

Definition remove_candidate_pin (c : Candidate) : Eff Site unit :=
  ignore (catch (let* found := remove_file (c_path c) in
                 if found then sync_dir (c_lane c ++ [MIRROR_PENDING_DIR]) else Ret tt)).

Definition sweep_segment (c : Candidate) (bytes : Z) : Segment :=
  let '(tenant, index) := parse_mirror_key_suffix (suffix_of (c_lane c) (c_name c)) in
  mkSegment (trim_end_matches (c_name c) (lit ".arrow")) tenant index (trim_start_slashes (c_key c)) bytes 0.

(** One checked candidate: what is to be registered, and whether the sweep goes
    on. *)
Definition sweep_candidate (uploaded : list Segment) (c : Candidate) (checked : option (option Z)) : Eff Site (list Segment * bool) :=
  let clean := if cleanup then cleanup_active_partial prefix (suffix_of (c_lane c) (c_name c)) else Ret tt in
  match checked with
  | None => Ret (uploaded, false)
  | Some (Some bytes) =>
      if pinned c then
        let* _ := remove_candidate_pin c in
        let* _ := clean in
        Ret (uploaded ++ [sweep_segment c bytes], true)
      else let* _ := clean in Ret (uploaded, true)
  | Some None =>
      let* r := catch (read_sweep_candidate c) in
      match r with
      | None | Some LocallyCommitted => Ret (uploaded, true)
      | Some (Bytes b) =>
          let* r := catch (put (c_key c) b) in
          match r with
          | None => Ret (uploaded, false)
          | Some _ =>
              let* _ := if pinned c then remove_candidate_pin c else Ret tt in
              let* _ := clean in
              Ret (uploaded ++ [sweep_segment c (len b)], true)
          end
      end
  end.

Definition MAX_CONCURRENT_EXISTENCE_CHECKS : nat := 16.

Fixpoint check_ahead (n : nat) (todo : list Candidate) (ready : list (Candidate * option (option Z))) :
    Eff Site (list Candidate * list (Candidate * option (option Z))) :=
  match n, todo with
  | S n, c :: todo => let* r := stat (c_key c) in check_ahead n todo (ready ++ [(c, r)])
  | _, _ => Ret (todo, ready)
  end.

(** [ahead] says how many more checks were answered before a candidate is
    handled: checks run up to [MAX_CONCURRENT_EXISTENCE_CHECKS] at a time, in
    order. *)
Context (ahead : nat → nat).

Fixpoint sweep_loop (fuel : nat) (todo : list Candidate) (ready : list (Candidate * option (option Z)))
    (uploaded : list Segment) : Eff Site (list Segment) :=
  match fuel with
  | O => Ret uploaded
  | S fuel =>
      let room := (MAX_CONCURRENT_EXISTENCE_CHECKS - length ready)%nat in
      let least := match ready with [] => 1%nat | _ => 0%nat end in
      let* checked := check_ahead (least `max` (ahead fuel `min` room)) todo ready in
      match checked.2 with
      | [] => Ret uploaded
      | (c, r) :: ready =>
          let* next := sweep_candidate uploaded c r in
          if next.2 then sweep_loop fuel checked.1 ready next.1 else Ret next.1
      end
  end.

Definition catch_up_sweep_configured : Eff Site (list Segment) :=
  let* candidates := sweep_candidates in sweep_loop (length candidates) candidates [] [].

(** The pass around it hands the rows on to registration. *)
Definition sweep_and_send : Eff Site unit := let* l := catch_up_sweep_configured in send l.
End Sweep.
