(* ===== verification/MirrorOwner.v ===== *)
(** The mark of the table a mirror prefix belongs to (loglake-wal, [mirror.rs])
    and the drain's claim on a prefix (loglake-compactor): which tables a prefix
    has named decides whether its unmarked segments may be adopted. *)

From stdpp Require Import prelude gmap strings sorting relations.
From Stdlib Require Import ZArith Lia.
From S2P Require Import Prelude RustStr WalFrame ConsumedProof Eff Catalog DrainCycle MirrorSync MirrorKeys MirrorUpload.

(** * Text *)

(** The bytes one U+FFFD stands for: the longest start of a character. *)
Definition bad_len (bs : bytes) : nat :=
  match bs with
  | b0 :: b1 :: rest =>
      let lo := if b0 =? 0xE0 then 0xA0 else if b0 =? 0xF0 then 0x90 else 0x80 in
      let hi := if b0 =? 0xED then 0x9F else if b0 =? 0xF4 then 0x8F else 0xBF in
      if between 0xE0 b0 0xEF && between lo b1 hi then 2%nat else
      if between 0xF0 b0 0xF4 && between lo b1 hi
      then match rest with b2 :: _ => if between 0x80 b2 0xBF then 3%nat else 2%nat | [] => 2%nat end
      else 1%nat
  | _ => 1%nat
  end.

Fixpoint lossy_go (fuel : nat) (bs : bytes) : rstr :=
  match fuel, bs with
  | _, [] | O, _ => []
  | S fuel, _ =>
      match utf8_next bs with
      | Some (c, rest) => encode_char c ++ lossy_go fuel rest
      | None => [0xEF; 0xBF; 0xBD] ++ lossy_go fuel (drop (bad_len bs) bs)
      end
  end.

(** [String::from_utf8_lossy] *)
Definition from_utf8_lossy (bs : bytes) : rstr := lossy_go (length bs) bs.

(** [str::lines] *)
Definition lines (s : rstr) : list rstr :=
  let pieces := str_split (λ c, c =? 10) s in
  (λ l, default l (strip_suffix l [13])) <$> match last pieces with Some [] => removelast pieces | _ => pieces end.

(** * The marker *)

Definition mirror_owner_key (prefix tenant index : rstr) : rstr :=
  trim_slashes prefix ++ lit "/" ++ tenant ++ lit "/" ++ index ++ lit "/owner".

Record MirrorOwner := mkOwner { owner_state : WalOwner; superseded : list rstr }.

Definition MIRROR_OWNER_HISTORY : nat := 15.

Definition marker_lines (raw : rstr) : list rstr := filter (λ l, l ≠ []) (trim <$> lines raw).

Definition classify_mirror_owner (prefix tenant index expected : rstr) : Eff Site MirrorOwner :=
  let* r := get (mirror_owner_key prefix tenant index) in
  match r with
  | None => Err
  | Some body =>
      match marker_lines (match body with Some b => from_utf8_lossy b | None => [] end) with
      | [] => Ret (mkOwner Unmarked [])
      | current :: rest => Ret (mkOwner (if bool_decide (current = expected) then Owned else Stale current) rest)
      end
  end.

Definition marker_body (owner : rstr) (superseded : list rstr) : bytes :=
  owner ++ [10] ++ concat ((λ u, u ++ [10]) <$> take MIRROR_OWNER_HISTORY superseded).

Definition write_mirror_owner (prefix tenant index owner : rstr) (superseded : list rstr) : Eff Site unit :=
  put (mirror_owner_key prefix tenant index) (marker_body owner superseded).

Definition stamp_mirror_owner (prefix tenant index owner : rstr) : Eff Site unit :=
  write_mirror_owner prefix tenant index owner [].

Definition restamp_mirror_owner (prefix tenant index owner : rstr) (superseded : list rstr) : Eff Site unit :=
  write_mirror_owner prefix tenant index owner superseded.

(** [index_table_uuid] answers [table_uuid]. *)
Definition claim_mirrored_index (prefix tenant index : rstr) (table_uuid : option rstr) : Eff Site WalDirClaim :=
  let* uuid := query Outside (λ _ _, table_uuid) in
  match uuid with
  | None => Ret Unidentified
  | Some uuid =>
      let* marker := classify_mirror_owner prefix tenant index uuid in
      match owner_state marker with
      | Owned => Ret (if bool_decide (superseded marker = []) then DirOwned uuid else DirOwnedStrict uuid)
      | Unmarked => let* _ := stamp_mirror_owner prefix tenant index uuid in Ret (DirOwned uuid)
      | Stale previous =>
          let* _ := restamp_mirror_owner prefix tenant index uuid (previous :: filter (λ u, u ≠ previous) (superseded marker)) in
          Ret (DirOwnedStrict uuid)
      end
  end.

(** * Reading back *)

(** The text of a table's id. *)
Definition uuid_text (u : rstr) : Prop := u ≠ [] ∧ Forall (λ c, is_ascii_alphanumeric c || (c =? 0x2D) = true) u.

Definition marker_text (us : list rstr) : bytes := concat ((λ u, u ++ [10]) <$> us).

Lemma uuid_char c : is_ascii_alphanumeric c || (c =? 0x2D) = true → 0 ≤ c < 0x80 ∧ is_whitespace c = false ∧ c ≠ 10 ∧ c ≠ 13.
Proof.
  intros H. assert (0x2D ≤ c < 0x80) as Hc.
  { unfold is_ascii_alphanumeric, is_ascii_digit, is_ascii_upper, is_ascii_lower, between in H.
    rewrite !orb_true_iff, !andb_true_iff, !Z.leb_le, Z.eqb_eq in H. lia. }
  split_and!; [lia|lia| |lia|lia]. unfold is_whitespace, between. rewrite !orb_false_iff, !andb_false_iff, !Z.leb_gt, ?Z.eqb_neq. lia.
Qed.

Lemma marker_text_ascii us : Forall uuid_text us → Forall (λ c, 0 ≤ c < 0x80) (marker_text us).
Proof.
  unfold marker_text. induction 1 as [|u us [_ Hu] _ IH]; [constructor|]. simpl. apply Forall_app. split; [|done].
  apply Forall_app. split; [|by repeat constructor]. eapply Forall_impl; [exact Hu|]. intros c Hc%uuid_char. tauto.
Qed.

Lemma lossy_ascii bs : Forall (λ c, 0 ≤ c < 0x80) bs → from_utf8_lossy bs = bs.
Proof.
  unfold from_utf8_lossy. induction 1 as [|b bs Hb _ IH]; [done|]. cbn [length lossy_go].
  assert (utf8_next (b :: bs) = Some (b, bs)) as ->.
  { unfold utf8_next, between. rewrite (proj2 (Z.leb_le 0 b)), (proj2 (Z.leb_le b 0x7F)) by lia. done. }
  rewrite IH. unfold encode_char. by rewrite (proj2 (Z.ltb_lt b 0x80)) by lia.
Qed.

Lemma marker_lines_text us : Forall uuid_text us → marker_lines (marker_text us) = us.
Proof.
  intros Hus. assert (str_split (λ c, c =? 10) (marker_text us) = us ++ [[]]) as Hsplit.
  { unfold str_split. rewrite chars_ascii by by apply marker_text_ascii.
    assert (split_list (λ c, c =? 10) (marker_text us) = us ++ [[]]) as ->.
    { induction Hus as [|u us [_ Hu] _ IH]; [done|]. change (marker_text (u :: us)) with ((u ++ [10]) ++ marker_text us).
      rewrite <- app_assoc. cbn [app]. rewrite split_list_sep; [by rewrite IH| |done]. eapply Forall_impl; [exact Hu|]. intros c Hc%uuid_char. apply Z.eqb_neq. tauto. }
    rewrite <- (list_fmap_id (us ++ [[]])) at 2. apply list_fmap_ext. intros j u Hj%list_elem_of_lookup_2. apply utf8_encode_ascii.
    apply elem_of_app in Hj as [Hu| ->%list_elem_of_singleton]; [|constructor]. rewrite Forall_forall in Hus. destruct (Hus u Hu) as [_ Ht].
    eapply Forall_impl; [exact Ht|]. intros c Hc%uuid_char. tauto. }
  unfold marker_lines, lines. rewrite Hsplit, last_app. simpl. rewrite removelast_last, <- list_fmap_compose.
  assert ((trim ∘ (λ l, default l (strip_suffix l [13]))) <$> us = us) as ->.
  { rewrite <- (list_fmap_id us) at 2. apply list_fmap_ext. intros j u Hj%list_elem_of_lookup_2. rewrite Forall_forall in Hus.
    destruct (Hus u Hj) as [_ Ht]. simpl. assert (strip_suffix u [13] = None) as ->.
    { destruct (strip_suffix u [13]) as [v|] eqn:E; [|done]. apply strip_suffix_Some in E as ->. apply Forall_app in Ht as [_ Ht%Forall_inv].
      by apply uuid_char in Ht as (_ & _ & _ & ?). }
    apply trim_id. eapply Forall_impl; [exact Ht|]. intros c Hc%uuid_char. tauto. }
  clear Hsplit. induction Hus as [|u us [Hne _] _ IH]; [done|]. by rewrite filter_cons_True, IH.
Qed.

Lemma marker_body_text u l : marker_body u l = marker_text (u :: take MIRROR_OWNER_HISTORY l).
Proof. unfold marker_body, marker_text. rewrite fmap_cons. cbn [concat]. by rewrite <- app_assoc. Qed.

(** * Claims in turn *)

Section Claims.
Context (prefix tenant index : rstr).

Abbreviation key := (mirror_owner_key prefix tenant index).
Abbreviation claim := (claim_mirrored_index prefix tenant index).

(** A claim: the table it is made for, and how its requests go. *)
Abbreviation Claim := (rstr * list (Z * Outcome))%type (only parsing).

Definition after_claim (c : Claim) (s : Site) : Site := (run c.2 (claim (Some c.1)) s).2.

(** The tables whose claims left their mark. *)
Fixpoint claims (history : list Claim) (s : Site) (marked : list rstr) : Site * list rstr :=
  match history with
  | [] => (s, marked)
  | c :: history =>
      let s' := after_claim c s in
      claims history s' (if bool_decide (objects s' !! key = objects s !! key) then marked else c.1 :: marked)
  end.

(** The marker knows whether it ever named another table. *)
Definition remembers (s : Site) (marked : list rstr) : Prop :=
  match objects s !! key with
  | None => marked = []
  | Some b => ∃ current rest, b = marker_text (current :: rest) ∧ Forall uuid_text (current :: rest) ∧ current ∈ marked ∧
      (rest = [] ↔ ∀ v, v ∈ marked → v = current)
  end.

Definition verdict_for (u : rstr) (marked : list rstr) : WalDirClaim :=
  if bool_decide (Forall (λ v, v = u) marked) then DirOwned u else DirOwnedStrict u.

Lemma remembers_stale s' marked u p rest :
  uuid_text u → p ≠ u → Forall uuid_text (p :: rest) → p ∈ marked →
  objects s' !! key = Some (marker_body u (p :: filter (λ v, v ≠ p) rest)) → remembers s' (u :: marked).
Proof.
  intros Hu Hne [Hp Hrest]%Forall_cons Hin E. unfold remembers. rewrite E.
  exists u, (p :: take 14 (filter (λ v, v ≠ p) rest)). split; [apply marker_body_text|]. split; [|split; [by left|]].
  - constructor; [done|]. constructor; [done|]. apply Forall_take, Forall_forall. intros v [_ Hv]%list_elem_of_filter.
    by eapply Forall_forall in Hrest.
  - split; [done|]. intros H. destruct Hne. apply H. by right.
Qed.

Lemma remembers_fresh s' u : uuid_text u → objects s' !! key = Some (marker_body u []) → remembers s' [u].
Proof.
  intros Hu E. unfold remembers. rewrite E. exists u, []. split; [apply marker_body_text|]. split; [by constructor|].
  split; [by left|]. split; [|done]. by intros _ v ->%list_elem_of_singleton.
Qed.

(** The write a claim makes, if it makes one, and its answer. *)
Lemma claim_outcome u script s marked :
  uuid_text u → remembers s marked →
  let r := run script (claim (Some u)) s in
  (objects r.2 !! key = objects s !! key ∨ remembers r.2 (u :: marked)) ∧ (∀ v, r.1 = inr (Some v) → v = verdict_for u marked).
Proof.
  intros Hu Hm. unfold remembers in Hm.
  assert (∀ b, objects s !! key = b →
    (b = None ∧ marked = []) ∨ ∃ current rest, b = Some (marker_text (current :: rest)) ∧ Forall uuid_text (current :: rest) ∧ current ∈ marked ∧
      (rest = [] ↔ ∀ v, v ∈ marked → v = current)) as Hcases.
  { intros b Eb. rewrite Eb in Hm. destruct b as [b|]; [right|by left]. destruct Hm as (c & rest & -> & ?). by exists c, rest. }
  assert (∀ v : rstr, (∀ w, w ∈ marked → w = v) ↔ Forall (λ w, w = v) marked) as Hall by (intros v; by rewrite Forall_forall).
  destruct script as [|[t1 o1] script]; [by split; [left|]|]. simpl.
  destruct o1; simpl; rewrite ?run_err; [|by split; [left|]..].
  destruct script as [|[t2 o2] script]; [by split; [left|]|]. simpl.
  destruct o2; simpl; rewrite ?run_err; [|by split; [left|]..].
  destruct (Hcases _ eq_refl) as [[En ->]|(c & rest & Eb & Ht & Hin & Hr)].
  - rewrite En. change (marker_lines []) with (@nil rstr). simpl.
    destruct script as [|[t3 o3] script]; [by split; [left|]|]. destruct o3; simpl; rewrite ?run_err, ?run_ret; simpl.
    + split; [right; apply remembers_fresh; [done|]; simpl; by rewrite lookup_insert_eq|]. by intros v [= <-].
    + split; [right; apply remembers_fresh; [done|]; simpl; by rewrite lookup_insert_eq|done].
    + split; [by left|done].
  - rewrite Eb, lossy_ascii, marker_lines_text by (by try apply marker_text_ascii). simpl. case_bool_decide as Hc; simpl.
    + subst c. rewrite run_ret. split; [by left|]. intros v [= <-]. unfold verdict_for. by rewrite (bool_decide_ext _ _ (iff_trans Hr (Hall u))).
    + assert (verdict_for u marked = DirOwnedStrict u) as ->.
      { unfold verdict_for. rewrite bool_decide_false; [done|]. rewrite Forall_forall. intros H. by apply Hc, H. }
      destruct script as [|[t3 o3] script]; [by split; [left|]|]. destruct o3; simpl; rewrite ?run_err, ?run_ret; simpl.
      * split; [right; eapply remembers_stale; [done..|]; simpl; by rewrite lookup_insert_eq|]. by intros v [= <-].
      * split; [right; eapply remembers_stale; [done..|]; simpl; by rewrite lookup_insert_eq|done].
      * split; [by left|done].
Qed.

Lemma claims_remember history s marked :
  Forall (λ c, uuid_text c.1) history → remembers s marked → let r := claims history s marked in remembers r.1 r.2.
Proof.
  intros Hh. revert s marked. induction Hh as [|c history Hc _ IH]; intros s marked Hm; [done|]. simpl. apply IH.
  destruct (claim_outcome c.1 c.2 s marked Hc Hm) as [Hw _]. fold (after_claim c s) in Hw. case_bool_decide as E.
  - unfold remembers. by rewrite E.
  - by destruct Hw.
Qed.

(** C20. A mirror prefix's marker remembers.  Whatever claims were made for a
    prefix that had no marker, in turn, for whichever tables and however their
    requests failed: a claim that is answered says that its table owns the prefix
    outright exactly when no claim for another table ever left its mark, and
    otherwise that segments without an identity of their own are not its own. *)
Theorem owner_marker_remembers history s script u v s' :
  objects s !! key = None → Forall (λ c, uuid_text c.1) history → uuid_text u →
  run script (claim (Some u)) (claims history s []).1 = (inr (Some v), s') →
  v = if bool_decide (Forall (λ w, w = u) (claims history s []).2) then DirOwned u else DirOwnedStrict u.
Proof.
  intros Hs Hh Hu Hr. assert (remembers s []) as Hm by (unfold remembers; by rewrite Hs).
  destruct (claim_outcome u script _ _ Hu (claims_remember history s [] Hh Hm)) as [_ Hv]. apply Hv. by rewrite Hr.
Qed.
End Claims.

(** * Witness *)

Definition unmarked_site : Site := mkSite ∅ ∅ ∅ [] [] ∅ ∅ ∅ [] ∅ ∅ [].

(** A table, then its successor, whose answer is lost. *)
Definition two_tables : list (rstr * list (Z * Outcome)) :=
  [(lit "0a-1", replicate 3 (0, Done)); (lit "0b-2", [(0, Done); (0, Done); (0, Lost)])].
Definition marked_twice : Site * list rstr := claims (lit "m") (lit "t") (lit "i") two_tables unmarked_site [].

Lemma owner_marker_remembers_witness : bool_decide (Forall (λ w, w = lit "0b-2") marked_twice.2) = false.
Proof.
  pose proof (owner_marker_remembers (lit "m") (lit "t") (lit "i") two_tables unmarked_site (replicate 2 (0, Done)) (lit "0b-2")
    (DirOwnedStrict (lit "0b-2")) (run (replicate 2 (0, Done)) (claim_mirrored_index (lit "m") (lit "t") (lit "i") (Some (lit "0b-2"))) marked_twice.1).2) as H.
  fold marked_twice in H. destruct (bool_decide (Forall _ marked_twice.2)); [|reflexivity]. exfalso. discriminate H.
  - reflexivity.
  - repeat constructor; discriminate.
  - repeat constructor; discriminate.
  - destruct (run _ _ marked_twice.1) as [r s'] eqn:E. apply (f_equal fst) in E. cbn [fst snd] in *. by rewrite <- E.
Defined.
