(* ===== verification/MirrorSafe.v ===== *)
(** Mirroring among everything else that happens at a WAL root: writers sealing
    and flushing, the local drain renaming segments and retention removing them,
    several workers and sweeps at once, and processes that stop anywhere.

    A pinned segment is never lost to the mirror: its pin goes only after its
    object was stored. *)

From stdpp Require Import prelude gmap strings sorting relations.
From Stdlib Require Import ZArith Lia.
From S2P Require Import Prelude RustStr WalLifecycle WalWriter Eff RelyGuarantee Triples Catalog CatalogInv MirrorSync MirrorKeys MirrorUpload MirrorOwner.

Create HintDb stable.

Section Mirroring.

(** The bytes each key's segment is sealed with, the prefixes of it an active
    key may hold, and each segment's lane: names are unique. *)
Context (prefix : rstr) (body : rstr → bytes) (flushed : rstr → bytes → Prop) (home : rstr → list rstr).

(** Lanes writers make: the root, a tenant or a tenant's index. *)
Definition writable (l : list rstr) : Prop := (length l ≤ 2)%nat ∧ Forall (λ p, p ∉ RESERVED_WAL_LAYOUT_DIRS) l.

Hypothesis mirrored_on : trim_slashes prefix ≠ [].
Hypothesis homes : ∀ n, writable (home n) ∧ head (home n) ≠ Some (lit "_active").

Definition ACTIVE_DIR : rstr := lit "active".

Definition key_of (lane : list rstr) (name : rstr) : rstr := mirror_key prefix (suffix_of lane name).

(** A segment's place: components, a name that ends in [.arrow], its lane. *)
Definition good_place (lane : list rstr) (name : rstr) : Prop :=
  Forall component (lane ++ [name]) ∧ is_arrow name = true ∧ home name = lane.

Definition good_handed (q : Handed) : Prop := good_place (lane q) (name q) ∧ suffix q = suffix_of (lane q) (name q).

(** A lane the sweep enumerates. *)
Definition enumerated (d : gset (list rstr)) (lane : list rstr) : Prop :=
  match lane with
  | [] => True
  | [t] => [t; SEALED_DIR] ∈ d ∧ t ∉ RESERVED_WAL_LAYOUT_DIRS
  | [t; i] => [t; SEALED_DIR] ∈ d ∧ t ∉ RESERVED_WAL_LAYOUT_DIRS ∧ [t; i; SEALED_DIR] ∈ d ∧ i ∉ RESERVED_WAL_LAYOUT_DIRS
  | _ => False
  end.

Definition stage (d : rstr) : Prop := d ∈ [SEALED_DIR; PROCESSING_DIR; COMMITTED_DIR; MIRROR_PENDING_DIR].

(** * The other programs *)

(** A writer seals a segment and hands it over. *)
Definition hand_over (q : Handed) : Eff Site unit :=
  let* _ := create_wal_dir (take 1 (lane q) ++ [SEALED_DIR]) in
  let* _ := create_wal_dir (lane q ++ [SEALED_DIR]) in
  let* _ := stmt Local (λ _ s, (tt, set_files (<[sealed_path (lane q) (name q) := body (key_of (lane q) (name q))]> (files s)) s)) in
  enqueue q.

(** A writer's flush of its active file. *)
Definition flush (lane : list rstr) (name : rstr) (b : bytes) : Eff Site unit :=
  stmt Local (λ _ s, (tt, set_files (<[lane ++ [ACTIVE_DIR; name ++ lit ".partial"] := b]> (files s)) s)).

(** The drain and retention: a rename between two of a segment's names, and the
    removal of one; never of a pin. *)
Definition move (lane : list rstr) (from to name : rstr) : Eff Site unit :=
  stmt Local (λ _ s,
    match files s !! (lane ++ [from; name]) with
    | Some b => (tt, set_files (<[lane ++ [to; name] := b]> (base.delete (lane ++ [from; name]) (files s))) s)
    | None => (tt, s)
    end).

Definition unlink (lane : list rstr) (from name : rstr) : Eff Site unit :=
  stmt Local (λ _ s, (tt, set_files (base.delete (lane ++ [from; name]) (files s)) s)).

(** Reclamation of a mirrored object. *)
Definition reclaim (key : rstr) : Eff Site unit :=
  stmt Outside (λ _ s, (tt, set_reclaimed ({[key]} ∪ reclaimed s) (set_objects (base.delete key (objects s)) s))).

(** The pins, and a sweep with a record of those it began with. *)
Definition pins (s : Site) : list (list rstr * rstr) :=
  omap (λ p, '(n, p) ← split_last p; '(d, lane) ← split_last p;
             if bool_decide (d = MIRROR_PENDING_DIR) && is_arrow n then Some (lane, n) else None) (map_to_list (files s)).*1.

Definition checked_sweep (cleanup : bool) (ahead : nat → nat) : Eff Site unit :=
  let* before := query Local (λ _ s, pins s) in
  let* _ := sweep_and_send prefix cleanup ahead in
  stmt Local (λ _ s, (tt, set_swept (before :: swept s) s)).

(** * Invariant and guarantee *)

Abbreviation St := (Z * Site)%type (only parsing).

Definition registered_well (s : Site) (m : Segment) : Prop :=
  ∃ lane name r, good_place lane name ∧ key_of lane name ∈ stored s ∧
    m = notify_uploaded prefix (suffix_of lane name) (len (body (key_of lane name))) r.

(** The prefix of a table's index. *)
Definition owned_prefix (t i : rstr) : Prop := component t ∧ component i ∧ t ≠ lit "_active".

(** What the mirror holds: segments, their active copies and owner markers. *)
Definition held_key (k : rstr) : Prop :=
  (∃ lane n, good_place lane n ∧ (k = key_of lane n ∨ active_partial_key prefix (suffix_of lane n) = Some k)) ∨
  ∃ t i, owned_prefix t i ∧ k = mirror_owner_key prefix t i.

Record site_inv (s : Site) : Prop := {
  si_paths p b : files s !! p = Some b → Forall component p;
  si_dirs p : p ∈ dirs s → Forall component p;
  si_files lane d n b : stage d → good_place lane n → files s !! (lane ++ [d; n]) = Some b → b = body (key_of lane n);
  si_active lane n b :
    good_place lane n → files s !! (lane ++ [ACTIVE_DIR; n ++ lit ".partial"]) = Some b →
    ∀ k, active_partial_key prefix (suffix_of lane n) = Some k → flushed k b;
  si_objects lane n b : good_place lane n → objects s !! key_of lane n = Some b → b = body (key_of lane n);
  si_partials lane n k b :
    good_place lane n → active_partial_key prefix (suffix_of lane n) = Some k → objects s !! k = Some b → flushed k b;
  si_stored k : is_Some (objects s !! k) → k ∈ stored s;
  si_keys k : is_Some (objects s !! k) → held_key k;
  si_persist lane n : good_place lane n → key_of lane n ∈ stored s → is_Some (objects s !! key_of lane n) ∨ key_of lane n ∈ reclaimed s;
  si_home lane d n : stage d → is_arrow n = true → is_Some (files s !! (lane ++ [d; n])) → home n = lane;
  si_lanes lane d n : stage d → good_place lane n → is_Some (files s !! (lane ++ [d; n])) → enumerated (dirs s) lane;
  si_owed lane n : (lane, n) ∈ owed s → good_place lane n ∧ (is_Some (files s !! pending_path lane n) ∨ key_of lane n ∈ stored s);
  si_queue q : q ∈ queue s → good_handed q ∧ enumerated (dirs s) (lane q);
  si_registered m : m ∈ registrations s → registered_well s m;
  si_swept l lane n : l ∈ swept s → (lane, n) ∈ l → key_of lane n ∈ stored s;
}.

Record site_guar (s s' : Site) : Prop := {
  sg_stored : stored s ⊆ stored s';
  sg_dirs : dirs s ⊆ dirs s';
  sg_pins lane n : good_place lane n → is_Some (files s !! pending_path lane n) →
    is_Some (files s' !! pending_path lane n) ∨ key_of lane n ∈ stored s';
  sg_reclaimed : reclaimed s ⊆ reclaimed s';
  sg_partials lane n k : good_place lane n → active_partial_key prefix (suffix_of lane n) = Some k →
    is_Some (objects s !! k) → is_Some (objects s' !! k) ∨ key_of lane n ∈ stored s';
}.

(** Nothing was restored meanwhile. *)
Definition untouched (s s' : Site) : Prop :=
  restored s' = restored s ∧ restored_dirs s' = restored_dirs s ∧ restores s' = restores s.

(** * Keys *)

Lemma good_suffix lane n : good_place lane n → suffix_of lane n = join (lane ++ [n]).
Proof.
  intros [Hc _]. unfold suffix_of. destruct lane as [|p lane]; [done|]. apply Forall_app in Hc as [Hl _].
  rewrite join_snoc by done. destruct (join_head p lane) as [k Ek]. rewrite Ek.
  apply Forall_inv, component_head in Hl as (x & s & -> & _). done.
Qed.

Lemma good_key lane n : good_place lane n → key_of lane n = trim_slashes prefix ++ lit "/" ++ join (lane ++ [n]).
Proof.
  intros Hg. unfold key_of, mirror_key. rewrite bool_decide_false, good_suffix by done. do 2 f_equal.
  destruct Hg as [Hc _]. destruct (lane ++ [n]) as [|p ps] eqn:E; [by destruct lane|]. destruct (join_head p ps) as [k ->].
  apply drop_slashes_app. by apply Forall_inv in Hc.
Qed.

Lemma good_candidate_key lane n : good_place lane n → candidate_key prefix lane n = key_of lane n.
Proof. intros Hg. rewrite good_key by done. unfold candidate_key. by rewrite good_suffix. Qed.

Lemma key_of_inj lane n lane' n' : good_place lane n → good_place lane' n' → key_of lane n = key_of lane' n' → lane = lane' ∧ n = n'.
Proof.
  intros Hg Hg'. rewrite !good_key by done. intros E%app_inv_head%app_inv_head. apply (f_equal components) in E.
  destruct Hg as [Hc _], Hg' as [Hc' _]. rewrite !components_join in E by (done || by intros [_ ?]%app_eq_nil).
  by apply app_inj_tail.
Qed.

Lemma last_mirror_key s c : last s = Some c → is_slash c = false → last (mirror_key prefix s) = Some c.
Proof.
  intros Hs Hc. assert (last (trim_start_slashes s) = Some c) as Ht.
  { unfold trim_start_slashes. induction s as [|x s IH]; [done|]. simpl. destruct (is_slash x) eqn:Ex; [|done]. apply IH.
    destruct s; [|done]. simpl in Hs. congruence. }
  unfold mirror_key. case_bool_decide; [done|]. by rewrite !last_app, Ht.
Qed.

Lemma is_arrow_spec n : is_arrow n = true → ∃ i, n = i ++ lit ".arrow" ∧ i ≠ [].
Proof.
  unfold is_arrow. destruct (strip_suffix n DOT_ARROW) as [[|x i]|] eqn:E; try done. intros _.
  apply strip_suffix_Some in E. by exists (x :: i).
Qed.

Lemma key_last lane n : good_place lane n → last (key_of lane n) = Some 0x77.
Proof.
  intros Hg. unfold key_of. apply last_mirror_key; [|done]. rewrite good_suffix by done. destruct (join_last lane n) as [k ->].
  destruct Hg as (_ & (i & -> & _)%is_arrow_spec & _). by rewrite !last_app.
Qed.

Lemma partial_last s k : active_partial_key prefix s = Some k → last k = Some 0x6C.
Proof.
  unfold active_partial_key. destruct (strip_suffix s _) as [t|]; [|done]. cbn [mbind option_bind]. intros <-%(inj Some).
  apply last_mirror_key; [|done]. by rewrite !last_app.
Qed.

Lemma key_not_partial lane n s k : good_place lane n → active_partial_key prefix s = Some k → key_of lane n ≠ k.
Proof. intros Hk%key_last Hp%partial_last <-. congruence. Qed.

Lemma active_key_inj lane n lane' n' k :
  good_place lane n → good_place lane' n' → active_partial_key prefix (suffix_of lane n) = Some k →
  active_partial_key prefix (suffix_of lane' n') = Some k → lane = lane' ∧ n = n'.
Proof.
  intros Hg Hg'. unfold active_partial_key. destruct (strip_suffix (suffix_of lane n) _) as [t|] eqn:E; [|done].
  destruct (strip_suffix (suffix_of lane' n') _) as [t'|] eqn:E'; [|done]. cbn [mbind option_bind].
  intros <-%(inj Some) Ek%(inj Some). apply strip_suffix_Some in E, E'. apply key_of_inj; [done..|].
  unfold key_of, mirror_key in *. rewrite !bool_decide_false in * by done. apply app_inv_head, app_inv_head in Ek.
  change (trim_start_slashes (lit "_active/" ++ ?s)) with (lit "_active/" ++ s) in Ek. apply app_inv_head in Ek.
  change (lit ".arrow.partial") with (lit ".arrow" ++ lit ".partial") in Ek. rewrite !app_assoc in Ek. apply app_inv_tail in Ek.
  by rewrite E, E', Ek.
Qed.

Lemma path_inj {A} (l l' : list A) d d' n n' : l ++ [d; n] = l' ++ [d'; n'] → l = l' ∧ d = d' ∧ n = n'.
Proof. intros [-> [= -> ->]]%app_inj_2; done. Qed.

Lemma stage_not_active d : stage d → d ≠ ACTIVE_DIR.
Proof. intros Hd ->. revert Hd. refine (bool_decide_unpack _ _). by vm_compute. Qed.

Lemma stage_component d : stage d → component d.
Proof.
  intros Hd. unfold stage in Hd. rewrite !elem_of_cons, elem_of_nil in Hd.
  destruct Hd as [->|[->|[->|[->|[]]]]]; (split; [done|refine (bool_decide_unpack _ _); by vm_compute]).
Qed.

Lemma enumerated_mono d d' l : d ⊆ d' → enumerated d l → enumerated d' l.
Proof. clear. intros Hd. destruct l as [|t [|i [|]]]; simpl; set_solver. Qed.

(** * Steps *)

Definition fine (s s' : Site) : Prop := site_inv s' ∧ site_guar s s' ∧ untouched s s'.

Lemma guar_refl s : site_guar s s.
Proof. split; auto. Qed.

Lemma guar_same s s' :
  stored s' = stored s → dirs s' = dirs s → files s' = files s → reclaimed s' = reclaimed s → objects s' = objects s → site_guar s s'.
Proof. intros E1 E2 E3 E4 E5. split; rewrite ?E1, ?E2, ?E3, ?E4, ?E5; auto. Qed.

Lemma registered_mono s s' m : stored s ⊆ stored s' → registered_well s m → registered_well s' m.
Proof. intros Hs (l & n & r & Hg & Hk & ->). exists l, n, r. split_and!; [done|set_solver|done]. Qed.

(** What a step leaves alone need not be proved again. *)
Ltac keeps Hi := destruct Hi; constructor; simpl; try done.

Lemma fine_put_sealed s lane n :
  site_inv s → good_place lane n →
  fine s (set_stored ({[key_of lane n]} ∪ stored s) (set_objects (<[key_of lane n := body (key_of lane n)]> (objects s)) s)).
Proof.
  intros Hi Hg. split; [|split; [|done]].
  - keeps Hi.
    + intros l m b Hm. destruct (decide (key_of l m = key_of lane n)) as [->|Hne].
      * rewrite lookup_insert_eq. congruence.
      * rewrite lookup_insert_ne by done. by apply si_objects0.
    + intros l m k b Hm Hk. rewrite lookup_insert_ne by by eapply key_not_partial. by eapply si_partials0.
    + intros k. rewrite lookup_insert_is_Some'. set_solver.
    + intros k. rewrite lookup_insert_is_Some'. intros [<-|?]; [by left; exists lane, n; auto|by apply si_keys0].
    + intros l m Hm. rewrite lookup_insert_is_Some'. intros [E%elem_of_singleton|Hk]%elem_of_union; [by auto|].
      destruct (si_persist0 l m Hm Hk); auto.
    + intros l m Ho. destruct (si_owed0 l m Ho) as [? [?|?]]; split; auto; set_solver.
    + intros m Hm. eapply registered_mono; [|by apply si_registered0]. simpl. set_solver.
    + intros ls l m Hl Hm. specialize (si_swept0 ls l m Hl Hm). set_solver.
  - split; simpl; [set_solver|done|auto|done|]. intros l m k _ _ Hk. left. apply lookup_insert_is_Some'. by right.
Qed.

Lemma fine_put_active s lane n k b :
  site_inv s → good_place lane n → active_partial_key prefix (suffix_of lane n) = Some k → flushed k b →
  fine s (set_stored ({[k]} ∪ stored s) (set_objects (<[k := b]> (objects s)) s)).
Proof.
  intros Hi Hg Hk Hb. split; [|split; [|done]].
  - keeps Hi.
    + intros l m b' Hm. rewrite lookup_insert_ne by (intros Eq; by eapply key_not_partial). by apply si_objects0.
    + intros l m k' b' Hm Hk'. destruct (decide (k = k')) as [->|Hne].
      * rewrite lookup_insert_eq. congruence.
      * rewrite lookup_insert_ne by done. by eapply si_partials0.
    + intros k'. rewrite lookup_insert_is_Some'. set_solver.
    + intros k'. rewrite lookup_insert_is_Some'. intros [<-|?]; [by left; exists lane, n; auto|by apply si_keys0].
    + intros l m Hm. rewrite lookup_insert_is_Some'. intros [E%elem_of_singleton|Hst]%elem_of_union; [by auto|].
      destruct (si_persist0 l m Hm Hst); auto.
    + intros l m Ho. destruct (si_owed0 l m Ho) as [? [?|?]]; split; auto; set_solver.
    + intros m Hm. eapply registered_mono; [|by apply si_registered0]. simpl. set_solver.
    + intros ls l m Hl Hm. specialize (si_swept0 ls l m Hl Hm). set_solver.
  - split; simpl; [set_solver|done|auto|done|]. intros l m k' _ _ Hk'. left. apply lookup_insert_is_Some'. by right.
Qed.

Lemma owner_last t i : last (mirror_owner_key prefix t i) = Some 0x72.
Proof. unfold mirror_owner_key. by rewrite !last_app. Qed.

Lemma fine_put_owner s t i b :
  site_inv s → owned_prefix t i →
  fine s (set_stored ({[mirror_owner_key prefix t i]} ∪ stored s) (set_objects (<[mirror_owner_key prefix t i := b]> (objects s)) s)).
Proof.
  intros Hi Ho. set (k := mirror_owner_key prefix t i). assert (last k = Some 0x72) as Hl by apply owner_last.
  assert (∀ l m, good_place l m → k ≠ key_of l m) as Hk by (intros l m Hm%key_last E; rewrite <- E in Hm; congruence).
  assert (∀ l m k', active_partial_key prefix (suffix_of l m) = Some k' → k ≠ k') as Hp by (intros l m k' Hm%partial_last E; rewrite <- E in Hm; congruence).
  split; [|split; [|done]].
  - keeps Hi.
    + intros l m b' Hm. rewrite lookup_insert_ne by auto. by apply si_objects0.
    + intros l m k' b' Hm Hk'. rewrite lookup_insert_ne by eauto. by eapply si_partials0.
    + intros k'. rewrite lookup_insert_is_Some'. set_solver.
    + intros k'. rewrite lookup_insert_is_Some'. intros [<-|?]; [by right; exists t, i|by apply si_keys0].
    + intros l m Hm. rewrite lookup_insert_ne by auto. intros [E%elem_of_singleton|Hst]%elem_of_union; [by destruct (Hk l m)|].
      by apply si_persist0.
    + intros l m Hw. destruct (si_owed0 l m Hw) as [? [?|?]]; split; auto; set_solver.
    + intros m Hm. eapply registered_mono; [|by apply si_registered0]. simpl. set_solver.
    + intros ls l m Hls Hm. specialize (si_swept0 ls l m Hls Hm). set_solver.
  - split; simpl; [set_solver|done|auto|done|]. intros l m k' _ _ Hk'. left. apply lookup_insert_is_Some'. by right.
Qed.

(** An active copy goes once the sealed object was stored. *)
Lemma fine_delete s lane n k :
  site_inv s → good_place lane n → active_partial_key prefix (suffix_of lane n) = Some k → key_of lane n ∈ stored s →
  fine s (set_objects (base.delete k (objects s)) s).
Proof.
  intros Hi Hg Hk Hst. split; [|split; [|done]].
  - keeps Hi.
    + intros l m b Hm [_ ?]%lookup_delete_Some. by apply si_objects0.
    + intros l m k' b Hm Hk' [_ ?]%lookup_delete_Some. by eapply si_partials0.
    + intros k' [b [_ ?]%lookup_delete_Some]. apply si_stored0. eauto.
    + intros k' [b [_ ?]%lookup_delete_Some]. apply si_keys0. eauto.
    + intros l m Hm. rewrite lookup_delete_ne; [by apply si_persist0|]. intros Eq. by eapply key_not_partial.
  - split; simpl; [done|done|auto|done|]. intros l m k' Hm Hk' Hp. destruct (decide (k = k')) as [<-|Hne].
    + right. destruct (active_key_inj lane n l m k) as [-> ->]; done.
    + left. by rewrite lookup_delete_ne.
Qed.

Lemma fine_reclaim s lane n :
  site_inv s → good_place lane n →
  fine s (set_reclaimed ({[key_of lane n]} ∪ reclaimed s) (set_objects (base.delete (key_of lane n) (objects s)) s)).
Proof.
  intros Hi Hg. split; [|split; [|done]].
  - keeps Hi.
    + intros l m b Hm [_ ?]%lookup_delete_Some. by apply si_objects0.
    + intros l m k' b Hm Hk' [_ ?]%lookup_delete_Some. by eapply si_partials0.
    + intros k' [b [_ ?]%lookup_delete_Some]. apply si_stored0. eauto.
    + intros k' [b [_ ?]%lookup_delete_Some]. apply si_keys0. eauto.
    + intros l m Hm Hst. destruct (decide (key_of lane n = key_of l m)) as [->|Hne]; [right; set_solver|].
      rewrite lookup_delete_ne by done. destruct (si_persist0 l m Hm Hst); [by left|right; set_solver].
  - split; simpl; [done|done|auto|set_solver|]. intros l m k' Hm Hk' Hp. left.
    rewrite lookup_delete_ne by by eapply key_not_partial. done.
Qed.

Lemma fine_dir s p : site_inv s → Forall component p → fine s (set_dirs ({[p]} ∪ dirs s) s).
Proof.
  intros Hi Hp. assert (dirs s ⊆ {[p]} ∪ dirs s) as Hd by set_solver. split; [|split; [split; simpl; auto|done]].
  keeps Hi.
  - set_solver.
  - intros l d n ? ? ?. eapply enumerated_mono; eauto.
  - intros q Hq. destruct (si_queue0 q Hq). split; [done|]. eapply enumerated_mono; eauto.
Qed.

(** A file of a segment appears. *)
Lemma fine_insert s lane d n :
  site_inv s → stage d → good_place lane n → enumerated (dirs s) lane →
  fine s (set_files (<[lane ++ [d; n] := body (key_of lane n)]> (files s)) s).
Proof.
  intros Hi Hd Hg He. split; [|split; [|done]].
  - keeps Hi.
    + intros p b [[<- _]|[_ Hp]]%lookup_insert_Some; [|by eauto]. destruct Hg as [Hc _]. apply Forall_app in Hc as [? Hn].
      apply Forall_app. split; [done|]. constructor; [by apply stage_component|done].
    + intros l d' m b Hd' Hm [[(-> & -> & ->)%path_inj <-]|[_ Hp]]%lookup_insert_Some; [done|]. by eapply si_files0.
    + intros l m b Hm [[(-> & -> & ->)%path_inj <-]|[_ Hp]]%lookup_insert_Some; [by apply stage_not_active in Hd|]. by eapply si_active0.
    + intros l d' m Hd' Hm [b [[(-> & -> & ->)%path_inj <-]|[_ Hp]]%lookup_insert_Some]; [by destruct Hg as (_ & _ & ?)|].
      eapply si_home0; eauto.
    + intros l d' m Hd' Hm [b [[(-> & -> & ->)%path_inj <-]|[_ Hp]]%lookup_insert_Some]; [done|]. eapply si_lanes0; eauto.
    + intros l m Ho. destruct (si_owed0 l m Ho) as [? [?|?]]; (split; [done|]); [left|by right].
      apply lookup_insert_is_Some'. by right.
  - split; simpl; auto. intros l m Hm Hp. left. apply lookup_insert_is_Some'. by right.
Qed.

(** A flush of an active file. *)
Lemma fine_flush s lane n b k :
  site_inv s → good_place lane n → active_partial_key prefix (suffix_of lane n) = Some k → flushed k b →
  fine s (set_files (<[lane ++ [ACTIVE_DIR; n ++ lit ".partial"] := b]> (files s)) s).
Proof.
  intros Hi Hg Hk Hb. split; [|split; [|done]].
  - keeps Hi.
    + intros p b' [[<- _]|[_ Hp]]%lookup_insert_Some; [|by eauto]. destruct Hg as [Hc _]. apply Forall_app in Hc as [? Hn%Forall_inv].
      apply Forall_app. split; [done|]. repeat constructor; [done| |by intros [? ?]%app_eq_nil|].
      * refine (bool_decide_unpack _ _). by vm_compute.
      * rewrite elem_of_app. intros [?|Hin]; [by destruct Hn|]. revert Hin. refine (bool_decide_unpack _ _). by vm_compute.
    + intros l d' m b' Hd' Hm [[(-> & <- & <-)%path_inj <-]|[_ Hp]]%lookup_insert_Some; [by apply stage_not_active in Hd'|]. by eapply si_files0.
    + intros l m b' Hm [[(-> & _ & E)%path_inj <-]|[_ Hp]]%lookup_insert_Some; [|by eapply si_active0].
      apply app_inv_tail in E as ->. intros k' Hk'. congruence.
    + intros l d' m Hd' Hm [b' [[(-> & <- & <-)%path_inj <-]|[_ Hp]]%lookup_insert_Some]; [by apply stage_not_active in Hd'|].
      eapply si_home0; eauto.
    + intros l d' m Hd' Hm [b' [[(-> & <- & <-)%path_inj <-]|[_ Hp]]%lookup_insert_Some]; [by apply stage_not_active in Hd'|].
      eapply si_lanes0; eauto.
    + intros l m Ho. destruct (si_owed0 l m Ho) as [? [?|?]]; (split; [done|]); [left|by right].
      apply lookup_insert_is_Some'. by right.
  - split; simpl; auto. intros l m Hm Hp. left. apply lookup_insert_is_Some'. by right.
Qed.

(** A file goes; a pin only when its object was stored. *)
Lemma fine_remove s lane d n :
  site_inv s → (d = MIRROR_PENDING_DIR → key_of lane n ∈ stored s) →
  fine s (set_files (base.delete (lane ++ [d; n]) (files s)) s).
Proof.
  intros Hi Hd. split; [|split; [|done]].
  - keeps Hi.
    + intros p b [_ ?]%lookup_delete_Some. eauto.
    + intros l d' m b ? ? [_ ?]%lookup_delete_Some. by eapply si_files0.
    + intros l m b ? [_ ?]%lookup_delete_Some. by eapply si_active0.
    + intros l d' m ? ? [b [_ ?]%lookup_delete_Some]. eapply si_home0; eauto.
    + intros l d' m ? ? [b [_ ?]%lookup_delete_Some]. eapply si_lanes0; eauto.
    + intros l m Ho. destruct (si_owed0 l m Ho) as [? [?|?]]; (split; [done|]); [|by right].
      destruct (decide (lane ++ [d; n] = pending_path l m)) as [(-> & -> & ->)%path_inj|]; [by right; apply Hd|].
      left. by rewrite lookup_delete_ne.
  - split; simpl; auto. intros l m Hm Hp.
    destruct (decide (lane ++ [d; n] = pending_path l m)) as [(-> & -> & ->)%path_inj|]; [by right; apply Hd|].
    left. by rewrite lookup_delete_ne.
Qed.

Lemma fine_queue s l : site_inv s → (∀ q, q ∈ l → good_handed q ∧ enumerated (dirs s) (lane q)) → fine s (set_queue l s).
Proof. intros Hi Hl. split; [|by split; [apply guar_same|]]. by keeps Hi. Qed.

Lemma fine_send s l : site_inv s → (∀ m, m ∈ l → registered_well s m) → fine s (set_registrations (registrations s ++ l) s).
Proof.
  intros Hi Hl. split; [|by split; [apply guar_same|]]. keeps Hi.
  intros m Hm. apply (registered_mono s); [done|]. apply elem_of_app in Hm as [?|?]; auto.
Qed.

Lemma fine_owed s lane n :
  site_inv s → good_place lane n → is_Some (files s !! pending_path lane n) → fine s (set_owed ({[(lane, n)]} ∪ owed s) s).
Proof.
  intros Hi Hg Hp. split; [|by split; [apply guar_same|]]. keeps Hi.
  intros l m [[= -> ->]%elem_of_singleton|?]%elem_of_union; auto.
Qed.

Lemma fine_swept s l : site_inv s → (∀ lane n, (lane, n) ∈ l → key_of lane n ∈ stored s) → fine s (set_swept (l :: swept s) s).
Proof.
  intros Hi Hl. split; [|by split; [apply guar_same|]]. keeps Hi.
  intros ls lane n [->|?]%elem_of_cons; eauto.
Qed.

Lemma guar_trans s s' s'' : site_guar s s' → site_guar s' s'' → site_guar s s''.
Proof.
  intros [] []. split; [set_solver..| |set_solver|].
  - intros l n Hg Hp. destruct (sg_pins0 l n Hg Hp) as [Hp'|?]; [by apply sg_pins1|right; set_solver].
  - intros l n k Hg Hk Hp. destruct (sg_partials0 l n k Hg Hk Hp) as [Hp'|?]; [by eapply sg_partials1|right; set_solver].
Qed.

Lemma untouched_trans s s' s'' : untouched s s' → untouched s' s'' → untouched s s''.
Proof. unfold untouched. intros (? & ? & ?) (? & ? & ?). split_and!; congruence. Qed.

Lemma fine_refl s : site_inv s → fine s s.
Proof. intros Hi. split; [done|]. split; [apply guar_refl|done]. Qed.

Lemma fine_trans s s' s'' : fine s s' → fine s' s'' → fine s s''.
Proof. intros (_ & ? & ?) (? & ? & ?). split; [done|]. split; [by eapply guar_trans|by eapply untouched_trans]. Qed.

(** * Triples *)

(** [AChecked] is a process none of whose statements fails; a restore may be
    one, and there is one restore at a time. *)
Inductive MirrorActor := AMirror | AChecked | ARestore (checked : bool).

Definition restoring (a : MirrorActor) : bool := match a with ARestore _ => true | _ => false end.

Definition mirror_allowed (a : MirrorActor) (_ _ : Z) (_ : Label) (o : Outcome) : Prop :=
  a = AChecked ∨ a = ARestore true → o = Done.
Definition mirror_compat (a b : MirrorActor) : Prop := restoring a && restoring b = false.
Definition mirror_inv (x : St) : Prop := site_inv x.2.
Definition mirror_guar (a : MirrorActor) (x y : St) : Prop :=
  site_guar x.2 y.2 ∧ (restoring a = false → untouched x.2 y.2).

Abbreviation Safe := (safe mirror_inv mirror_allowed mirror_compat mirror_guar).

#[local] Instance guar_preorder : PreOrder site_guar.
Proof. split; [intros s; apply guar_refl|intros s s' s''; apply guar_trans]. Qed.

Abbreviation stable := (stable_under site_guar).
Abbreviation hoare := (triple mirror_inv mirror_allowed mirror_compat mirror_guar site_guar).

Lemma rely_guar a x y : rely mirror_inv mirror_compat mirror_guar a x y → site_guar x.2 y.2.
Proof. induction 1 as [|x y z (_ & _ & _ & b & _ & Hg & _) _ IH]; [apply guar_refl|]. by eapply guar_trans. Qed.

Section Rules.
Context (a : MirrorActor).

Lemma hoare_stmt l {B : Set} (f : Z → Site → B * Site) P (Φ : option B → Site → Prop) :
  stable P →
  (∀ now s, site_inv s → P s → fine s (f now s).2 ∧ Φ (Some (f now s).1) (f now s).2 ∧ (a ≠ AChecked → Φ None (f now s).2 ∧ Φ None s)) →
  hoare a P (stmt l f) Φ.
Proof.
  intros HP H. apply (hoare_step a site_guar); [apply rely_guar|done|done|]. intros y now o Hi Ho Hs.
  destruct (H now y.2 Hi Hs) as ((Hi' & Hg & Hu) & Hd & Hn).
  assert (o ≠ Done → a ≠ AChecked) as Hf by (intros Hne ->; by apply Hne, Ho; left).
  destruct o; (split; [done|]); split; [done| |done| |split; [reflexivity|done]|]; (split; [done || reflexivity|]); [done|by apply Hn, Hf..].
Qed.

Lemma hoare_query l {B : Set} (f : Z → Site → B) P (Φ : option B → Site → Prop) :
  stable P →
  (∀ now s, site_inv s → P s → Φ (Some (f now s)) s ∧ (a ≠ AChecked → Φ None s)) → hoare a P (query l f) Φ.
Proof.
  intros HP H. apply hoare_stmt; [done|]. intros now s Hi Hs. destruct (H now s Hi Hs) as [? Hn]. simpl.
  split_and!; [by apply fine_refl|done|]. auto.
Qed.

End Rules.

Lemma stable_stored k : stable (λ s, k ∈ stored s).
Proof. intros s s' [] ?. set_solver. Qed.

Lemma stable_enumerated l : stable (λ s, enumerated (dirs s) l).
Proof. intros s s' [] ?. by eapply enumerated_mono. Qed.

Definition pin_or_stored (lane : list rstr) (n : rstr) (s : Site) : Prop :=
  is_Some (files s !! pending_path lane n) ∨ key_of lane n ∈ stored s.

Lemma stable_pin lane n : good_place lane n → stable (pin_or_stored lane n).
Proof. intros Hg s s' [] [?|?]; [by apply sg_pins0|right; set_solver]. Qed.

Lemma stable_registered m : stable (λ s, registered_well s m).
Proof. intros s s' [] ?. by eapply registered_mono. Qed.

#[local] Hint Resolve stable_true stable_pure stable_and stable_all stable_impl stable_stored stable_enumerated stable_pin
  stable_registered : stable.

(** * Pins *)

Section Pins.
Context (a : MirrorActor).

Lemma hoare_exists P p : stable P → hoare a P (exists_ p) (yields (λ _, P)).
Proof.
  intros HP. eapply hoare_then; [apply hoare_caught, (hoare_query _ _ _ _ (λ _, P)); auto|]. intros v. by apply hoare_ret.
Qed.

(** Reading a segment's file. *)
Lemma hoare_read P lane d n :
  stable P → stage d → good_place lane n →
  hoare a P (read_file (lane ++ [d; n]))
    (yields (λ r s, P s ∧ (∀ b, r = Some (Some b) → b = body (key_of lane n)) ∧ (r = None → a ≠ AChecked))).
Proof.
  intros HP Hd Hg. apply hoare_caught, hoare_query; [done|]. intros now s Hi Hs. simpl. split; [|by intros].
  split_and!; [done| |done]. intros b [= Hb]. by eapply si_files.
Qed.

Lemma hoare_stat P lane n :
  stable P → good_place lane n →
  hoare a P (stat (key_of lane n))
    (yields (λ r s, P s ∧ (∀ m, r = Some (Some m) → key_of lane n ∈ stored s ∧ m = len (body (key_of lane n))) ∧ (r = None → a ≠ AChecked))).
Proof.
  intros HP Hg. apply hoare_caught, hoare_query; [done|]. intros now s Hi Hs. split; [|by intros].
  split_and!; [done| |done]. intros m. destruct (objects s !! _) as [b|] eqn:E; [|done]. intros [= <-].
  split; [apply si_stored; [done|by eexists]|]. by rewrite (si_objects _ Hi _ _ _ Hg E).
Qed.

Lemma hoare_first P ps : stable P → hoare a P (first_existing ps) (yields (λ r s, P s ∧ ∀ p, r = Some p → p ∈ ps)).
Proof.
  intros HP. induction ps as [|p ps IH]; cbn [first_existing]; [by apply hoare_ret|]. eapply hoare_then; [by apply hoare_exists|].
  intros [|]; [apply hoare_ret; intros s Hs; simpl; split; [done|]; intros q [= <-]; by left|].
  eapply hoare_mono; [| |exact IH]; [done|]. intros [r|] s; [|done]. simpl. intros [? Hr]. split; [done|].
  intros q Hq. right. by apply Hr.
Qed.

Lemma local_names_stage q p : p ∈ local_names q → ∃ d, stage d ∧ p = lane q ++ [d; name q].
Proof.
  unfold local_names, stage. rewrite !elem_of_cons, elem_of_nil. intros [->|[->|[->|[->|[]]]]]; eexists; (split; [|reflexivity]); set_solver.
Qed.

Lemma hoare_find P q :
  stable P → hoare a P (find_segment q) (yields (λ r s, P s ∧ ∀ p, r = Some p → ∃ d, stage d ∧ p = lane q ++ [d; name q])).
Proof.
  intros HP. eapply hoare_mono; [| |by apply hoare_first]; [done|]. intros [r|] s; [|done]. simpl. intros [? Hr].
  split; [done|]. intros p ?. by apply local_names_stage, Hr.
Qed.

Lemma pending_stage : stage MIRROR_PENDING_DIR.
Proof. unfold stage. set_solver. Qed.

Lemma sealed_stage : stage SEALED_DIR.
Proof. unfold stage. set_solver. Qed.

Lemma processing_stage : stage PROCESSING_DIR.
Proof. unfold stage. set_solver. Qed.

Lemma hoare_link q d P :
  stable P → good_handed q → stage d →
  hoare a P (hard_link q (lane q ++ [d; name q]) (pending_path (lane q) (name q))) (λ _, P).
Proof.
  intros HP [Hg _] Hd. apply hoare_stmt; [done|]. intros now s Hi Hs.
  assert (∀ s', fine s s' → fine s s' ∧ P s' ∧ (a ≠ AChecked → P s' ∧ P s)) as Hdone.
  { intros s' Hf. pose proof Hf as (? & Hgu & ?). split_and!; [done|by eapply HP|]. intros _. split; [by eapply HP|done]. }
  destruct (files s !! (lane q ++ [d; name q])) as [b|] eqn:Eb; [|by apply Hdone, fine_refl].
  destruct (files s !! pending_path _ _) as [b'|] eqn:Ep; [by apply Hdone, fine_refl|]. apply Hdone. simpl.
  rewrite (si_files _ Hi _ _ _ _ Hd Hg Eb). eapply fine_trans.
  - apply (fine_insert s (lane q) MIRROR_PENDING_DIR (name q)); [done|apply pending_stage|done|].
    eapply si_lanes; [done|exact Hd|exact Hg|by eexists].
  - apply (fine_owed (set_files _ s)); [|done|].
    + apply fine_insert; [done|apply pending_stage|done|]. eapply si_lanes; [done|exact Hd|exact Hg|by eexists].
    + simpl. rewrite lookup_insert_eq. eauto.
Qed.

Lemma hoare_skip P l {B : Set} (v : B) : stable P → hoare a P (query l (λ _ _, v)) (λ _, P).
Proof. intros HP. apply hoare_query; auto. Qed.

Lemma hoare_pins P q n : stable P → good_handed q → hoare a P (pin_attempts n q) (λ _, P).
Proof.
  intros HP Hq. induction n as [|n IH]; cbn [pin_attempts]; [by apply hoare_err|]. eapply hoare_then; [by apply hoare_find|].
  intros [source|]; apply hoare_fact; intros Hs; [|by apply hoare_err]. destruct (Hs _ eq_refl) as (d & Hd & ->).
  eapply hoare_bind; [by apply hoare_link| |done]. intros [| |]; [by apply hoare_skip|by apply hoare_ret|apply IH].
Qed.

Lemma hoare_dir P p : stable P → Forall component p → hoare a P (create_wal_dir p) (λ _ s, P s).
Proof.
  intros HP Hp. apply hoare_stmt; [done|]. intros now s Hi Hs. destruct (fine_dir s p Hi Hp) as (? & Hg & ?). simpl.
  split_and!; [done|by eapply HP|]. intros _. split; [by eapply HP|done].
Qed.

Lemma hoare_pin P q : stable P → good_handed q → hoare a P (pin_segment q) (λ _, P).
Proof.
  intros HP Hq. pose proof Hq as [[Hc _] _]. apply Forall_app in Hc as [Hl _].
  apply (hoare_bind _ _ _ _ (λ _, P)); [|intros v; by apply hoare_pins|done]. apply hoare_dir; [done|].
  apply Forall_app. split; [done|]. constructor; [apply stage_component, pending_stage|constructor].
Qed.

Lemma hoare_enqueue q :
  good_handed q → hoare a (λ s, enumerated (dirs s) (lane q)) (enqueue q) (yields (λ _ _, True)).
Proof.
  intros Hq. eapply hoare_then; [apply hoare_caught, hoare_pin; [apply stable_enumerated|done]|]. intros ?.
  unfold ignore. apply (hoare_then _ _ _ _ (λ _ _, True)); [|intros w; by apply hoare_ret]. apply hoare_caught, hoare_stmt; [apply stable_enumerated|].
  intros now s Hi Hs. split; [|done]. apply fine_queue; [done|]. intros q' [?| ->%list_elem_of_singleton]%elem_of_app; [|done].
  by apply si_queue.
Qed.

(** A pin goes once its object was stored. *)
Lemma hoare_unpin P lane n :
  stable P → (∀ s, P s → key_of lane n ∈ stored s) → hoare a P (remove_file (pending_path lane n)) (λ _, P).
Proof.
  intros HP Hk. apply hoare_stmt; [done|]. intros now s Hi Hs. destruct (files s !! pending_path lane n).
  - destruct (fine_remove s lane MIRROR_PENDING_DIR n Hi) as (? & Hg & ?); [by intros _; apply Hk|]. simpl.
    split_and!; [done|by eapply HP|]. intros _. split; [by eapply HP|done].
  - simpl. split_and!; [by apply fine_refl|done|done].
Qed.

Lemma hoare_remove_pin P lane n d :
  stable P → (∀ s, P s → key_of lane n ∈ stored s) →
  hoare a P (let* found := remove_file (pending_path lane n) in if found then sync_dir d else Ret tt) (λ _, P).
Proof.
  intros HP Hk. eapply hoare_bind; [by apply hoare_unpin| |done]. intros [|]; [by apply hoare_skip|by apply hoare_ret].
Qed.

(** * The worker *)

Lemma hoare_effect P l {B : Set} (f : Z → Site → B * Site) :
  stable P → (∀ now s, site_inv s → P s → fine s (f now s).2) → hoare a P (stmt l f) (λ _, P).
Proof.
  intros HP H. apply hoare_stmt; [done|]. intros now s Hi Hs. destruct (H now s Hi Hs) as (? & Hg & ?).
  split_and!; [done|by eapply HP|]. intros _. split; [by eapply HP|done].
Qed.

Lemma hoare_quiet {A} (p : Eff Site A) P : hoare a P p (λ _, P) → hoare a P (ignore (catch p)) (yields (λ _, P)).
Proof. intros Hp. eapply hoare_then; [by apply hoare_caught|]. intros v. by apply hoare_ret. Qed.

Lemma hoare_send P l :
  stable P → (∀ s m, P s → m ∈ l → registered_well s m) → hoare a P (send l) (yields (λ _, P)).
Proof. intros HP Hl. apply hoare_quiet, hoare_effect; [done|]. intros now s Hi Hs. apply fine_send; eauto. Qed.

Lemma hoare_cleanup P l m :
  stable P → good_place l m → (∀ s, P s → key_of l m ∈ stored s) →
  hoare a P (cleanup_active_partial prefix (suffix_of l m)) (yields (λ _, P)).
Proof.
  intros HP Hg Hk. unfold cleanup_active_partial. destruct (active_partial_key _ _) as [k|] eqn:Ek; [|by apply hoare_ret].
  generalize ACTIVE_CLEANUP_ATTEMPTS. intros n. induction n as [|n IH]; cbn [delete_attempts]; [by apply hoare_ret|].
  apply (hoare_then _ _ _ _ (λ _, P)).
  - apply hoare_caught, hoare_effect; [done|]. intros now s Hi Hs. apply (fine_delete s l m); auto.
  - intros [|]; [by apply hoare_ret|done].
Qed.

Lemma hoare_put P lane n :
  stable P → good_place lane n →
  hoare a P (put (key_of lane n) (body (key_of lane n))) (λ r s, P s ∧ (r ≠ None → key_of lane n ∈ stored s) ∧ (r = None → a ≠ AChecked)).
Proof.
  intros HP Hg. apply hoare_stmt; [done|]. intros now s Hi Hs. destruct (fine_put_sealed s lane n Hi Hg) as (? & Hgu & ?).
  pose proof (HP _ _ Hgu Hs). simpl. split_and!; try done. intros _. set_solver.
Qed.

Definition uploaded_well (q : Handed) (u : Upload) (s : Site) : Prop :=
  ∀ m, u = Uploaded m → key_of (lane q) (name q) ∈ stored s ∧ m = len (body (key_of (lane q) (name q))).

Lemma hoare_upload P q :
  stable P → good_handed q → hoare a P (upload prefix q) (yields (λ u s, P s ∧ uploaded_well q u s)).
Proof.
  intros HP [Hg Hs]. unfold upload. eapply hoare_then; [by apply hoare_exists|]. intros there.
  apply (hoare_then _ _ _ _ (λ r s, P s ∧ ∀ p, r = Some p → ∃ d, stage d ∧ p = lane q ++ [d; name q])).
  { destruct there; [|by apply hoare_find]. apply hoare_ret. intros s ?. split; [done|]. intros p [= <-].
    exists SEALED_DIR. split; [apply sealed_stage|done]. }
  intros [p|]; apply hoare_fact; intros Hp; [|by apply hoare_ret]. destruct (Hp _ eq_refl) as (d & Hd & ->).
  eapply hoare_then; [by apply hoare_read|]. intros [[b|]|]; apply hoare_fact; intros [Hb _]; [|by apply hoare_ret..].
  rewrite (Hb _ eq_refl), Hs. eapply hoare_then; [apply hoare_caught; by apply (hoare_put P)|]. intros r. apply hoare_ret.
  intros s (Hps & Hst & _). split; [done|]. destruct r; intros m; [|done]. intros [= <-]. by split; [apply Hst|].
Qed.

Lemma hoare_settle announce cleanup P q m :
  stable P → good_handed q → (∀ s, P s → key_of (lane q) (name q) ∈ stored s) → m = len (body (key_of (lane q) (name q))) →
  hoare a P (settle prefix announce cleanup q m) (yields (λ _, P)).
Proof.
  intros HP [Hg Hs] Hk ->. unfold settle. apply (hoare_then _ _ _ _ (λ _, P)).
  { destruct announce; [|by apply hoare_ret]. apply hoare_send; [done|]. intros s m Hps ->%list_elem_of_singleton.
    exists (lane q), (name q), (handed_rows q). rewrite Hs. auto. }
  intros ?. apply (hoare_then _ _ _ _ (λ _, P)); [destruct cleanup; [rewrite Hs; by apply hoare_cleanup|by apply hoare_ret]|].
  intros ?. by apply hoare_quiet, hoare_remove_pin.
Qed.

Lemma hoare_check announce cleanup q :
  good_handed q → hoare a (λ _, True) (check_after_failure prefix announce cleanup q) (yields (λ _ _, True)).
Proof.
  intros Hq. pose proof Hq as [Hg Hs]. unfold check_after_failure. rewrite Hs. eapply hoare_then; [by apply (hoare_stat (λ _, True))|].
  intros [[m|]|]; [|by apply hoare_ret..].
  apply (hoare_from _ _ (λ s, key_of (lane q) (name q) ∈ stored s) _ (yields (λ _ s, key_of (lane q) (name q) ∈ stored s)));
    [|by intros []]. intros s (_ & Hm & _). destruct (Hm _ eq_refl) as [Hk ->].
  split; [exact Hk|]. by apply (hoare_settle announce cleanup (λ s, key_of (lane q) (name q) ∈ stored s)); [apply stable_stored|..].
Qed.

Lemma hoare_attempts announce cleanup n q :
  good_handed q → hoare a (λ _, True) (upload_attempts prefix announce cleanup n q) (yields (λ _ _, True)).
Proof.
  intros Hq. induction n as [|n IH]; cbn [upload_attempts]; [by apply hoare_check|].
  eapply hoare_then; [by apply (hoare_upload (λ _, True))|]. intros [m| |].
  - apply (hoare_from _ _ (λ s, key_of (lane q) (name q) ∈ stored s) _ (yields (λ _ s, key_of (lane q) (name q) ∈ stored s)));
      [|by intros []]. intros s (_ & Hm). destruct (Hm _ eq_refl) as [Hk ->].
    split; [exact Hk|]. by apply (hoare_settle announce cleanup (λ s, key_of (lane q) (name q) ∈ stored s)); [apply stable_stored|..].
  - eapply hoare_mono; [| |by apply hoare_check]; done.
  - eapply hoare_mono; [| |exact IH]; done.
Qed.

Lemma hoare_worker announce cleanup : hoare a (λ _, True) (worker_turn prefix announce cleanup) (λ _ _, True).
Proof.
  unfold worker_turn. apply (hoare_bind _ _ _ _ (λ r _, ∀ q, r = Some (Some q) → good_handed q)); [| |done].
  - apply hoare_stmt; [apply stable_true|]. intros now s Hi _. destruct (queue s) as [|q qs] eqn:E; simpl.
    + split_and!; [by apply fine_refl|by intros|by intros].
    + split_and!; [|intros q' [= <-]; apply (si_queue _ Hi); rewrite E; by left|by intros].
      apply fine_queue; [done|]. intros q' ?. apply (si_queue _ Hi). rewrite E. by right.
  - intros [q|]; [|by apply hoare_ret]. apply (hoare_from _ _ (λ _, True) _ (yields (λ _ _, True))); [|done].
    intros s Hq. split; [done|]. by apply hoare_attempts, Hq.
Qed.

(** * Active snapshots *)

(** A snapshot as a writer describes it. *)
Definition good_snapshot (snap : ActiveSnapshot) : Prop :=
  ∃ lane n, good_place lane n ∧ snapshot_path snap = lane ++ [ACTIVE_DIR; n ++ lit ".partial"] ∧
    subdir snap = (if bool_decide (lane = []) then None else Some (join lane)).

Lemma snapshot_suffix_of lane n :
  good_place lane n → snapshot_suffix (if bool_decide (lane = []) then None else Some (join lane)) n = suffix_of lane n.
Proof.
  intros _. unfold suffix_of, snapshot_suffix. case_bool_decide as E; [by subst|]. by destruct (join lane).
Qed.

Lemma hoare_snapshot seen snap : good_snapshot snap → hoare a (λ _, True) (mirror_snapshot prefix seen snap) (λ _ _, True).
Proof.
  intros (lane & n & Hg & Hp & Hsub). unfold mirror_snapshot. destruct (bool_decide (seen !! _ = _)); [by apply hoare_ret|]. rewrite Hp, Hsub.
  change (lane ++ [ACTIVE_DIR; n ++ lit ".partial"]) with (lane ++ [ACTIVE_DIR] ++ [n ++ lit ".partial"]).
  rewrite app_assoc, last_snoc, <- app_assoc, strip_suffix_app, snapshot_suffix_of by done. cbn [app].
  destruct (active_partial_key prefix (suffix_of lane n)) as [k|] eqn:Ek.
  - apply (hoare_then _ _ _ _ (λ r _, ∀ b, r = Some (Some b) → flushed k b)).
    { apply hoare_caught, hoare_query; [apply stable_true|]. intros now s Hi _. split; [|by intros]. intros b [= Hb]. by eapply si_active. }
    intros [[b|]|]; [|by apply hoare_ret..]. apply (hoare_from _ _ (λ _, True) _ (λ _ _, True)); [|done].
    intros s0 Hb. specialize (Hb _ eq_refl). split; [done|]. apply (hoare_then _ _ _ _ (λ _ _, True)).
    { apply hoare_caught, hoare_effect; [apply stable_true|]. intros now s Hi _. by eapply fine_put_active. }
    intros [[]|]; [|by apply hoare_ret]. eapply hoare_then; [by apply (hoare_stat (λ _, True))|]. intros st.
    apply (hoare_then _ _ _ _ (λ _ _, True)); [|intros ?; by apply hoare_ret].
    destruct st as [[]|]; [|by apply hoare_ret..].
    apply (hoare_mono _ _ (λ s, key_of lane n ∈ stored s) _ (yields (λ _ s, key_of lane n ∈ stored s))); [|by intros []|].
    + intros s (_ & Hm & _). by destruct (Hm _ eq_refl).
    + by apply hoare_cleanup; [apply stable_stored|..].
  - eapply hoare_then; [by apply hoare_caught, (hoare_query _ _ _ (λ _, True) (λ _ _, True))|].
    intros [[|]|]; by apply hoare_ret.
Qed.

Lemma hoare_tick seen snaps : Forall good_snapshot snaps → hoare a (λ _, True) (active_tick prefix seen snaps) (λ _ _, True).
Proof.
  intros Hs. unfold active_tick. eapply (hoare_bind _ _ _ _ (λ _ _, True)); [|intros ?; by apply hoare_ret|done].
  apply (hoare_mono _ _ (λ _, Forall good_snapshot snaps) _ (λ _ _, True)); [intros s _; exact Hs|done|].
  apply (hoare_each _ _ (λ _ l _, Forall good_snapshot l)); [|done]. intros acc i l.
  apply (hoare_from _ _ (λ _, True) _ (λ _ _, Forall good_snapshot l)); [|by intros []].
  intros s [Hi Hl]%Forall_cons. split; [done|].
  by apply (hoare_mono _ _ (λ _, True) _ (λ _ _, True)); [..|apply hoare_snapshot].
Qed.

(** * The sweep's candidates *)

Lemma split_last_Some {A} (l : list A) x k : split_last l = Some (x, k) ↔ l = k ++ [x].
Proof.
  split; [|intros ->; apply split_last_snoc]. destruct l as [|y l _] using rev_ind; [done|]. rewrite split_last_snoc. by intros [= -> ->].
Qed.

Lemma layout_names_spec root d n : n ∈ layout_names root d ↔ root ++ [n; SEALED_DIR] ∈ d ∧ n ∉ RESERVED_WAL_LAYOUT_DIRS.
Proof.
  unfold layout_names. rewrite merge_sort_Permutation, list_elem_of_omap. setoid_rewrite elem_of_elements. split.
  - intros (p & Hp & Hn). destruct (split_last p) as [[sub p']|] eqn:E1; [|done]. cbn [mbind option_bind] in Hn.
    destruct (split_last p') as [[n' p'']|] eqn:E2; [|done]. cbn [mbind option_bind] in Hn. case_bool_decide as E; [|done].
    destruct E as (-> & -> & Hr). injection Hn as ->. apply split_last_Some in E1 as ->, E2 as ->. by rewrite <- app_assoc in Hp.
  - intros [Hp Hr]. exists (root ++ [n; SEALED_DIR]). split; [done|].
    change [n; SEALED_DIR] with ([n] ++ [SEALED_DIR]). rewrite app_assoc, split_last_snoc. cbn [mbind option_bind].
    rewrite split_last_snoc. cbn [mbind option_bind]. by rewrite bool_decide_true.
Qed.

Lemma mirror_names_spec dir f n : n ∈ names_in dir f ↔ is_Some (f !! (dir ++ [n])) ∧ is_arrow n = true.
Proof.
  unfold names_in. rewrite merge_sort_Permutation, list_elem_of_omap. split.
  - intros (p & ([p' b] & -> & Hb%elem_of_map_to_list)%list_elem_of_fmap & Hn). simpl in Hn.
    destruct (split_last p') as [[n' d]|] eqn:E; [|done]. cbn [mbind option_bind] in Hn. apply split_last_Some in E as ->.
    case_bool_decide as Hd; [|done]. simpl in Hn. destruct (is_arrow n') eqn:Ea; [|done]. injection Hn as ->. subst. eauto.
  - intros [[b Hb] Ha]. exists (dir ++ [n]). split.
    + apply list_elem_of_fmap. exists (dir ++ [n], b). split; [done|]. by apply elem_of_map_to_list.
    + rewrite split_last_snoc. cbn [mbind option_bind]. by rewrite bool_decide_true, Ha.
Qed.

Definition reaches (ts : list rstr) (acc : list (list rstr)) (l : list rstr) : Prop :=
  match l with [] => True | t :: _ => t ∈ ts ∨ l ∈ acc end.

Section Before.
(** The pins a sweep begins with. *)
Context (before : list (list rstr * rstr)).

Definition begun (s : Site) : Prop :=
  ∀ l n, (l, n) ∈ before → good_place l n ∧ pin_or_stored l n s ∧ enumerated (dirs s) l.

Lemma stable_begun : stable begun.
Proof.
  intros s s' Hg Hb l n Hin. destruct (Hb l n Hin) as (Hgp & Hp & He).
  split_and!; [done|by eapply stable_pin|by eapply (stable_enumerated l)].
Qed.
#[local] Hint Resolve stable_begun : stable.

Lemma hoare_layout P root :
  stable P →
  hoare a P (catch (list_layout_dirs root))
    (yields (λ r s, P s ∧ (r = None → a ≠ AChecked) ∧ ∀ ns, r = Some ns → Forall component ns ∧
       ∀ n, root ++ [n; SEALED_DIR] ∈ dirs s → n ∉ RESERVED_WAL_LAYOUT_DIRS → n ∈ ns)).
Proof.
  intros HP. apply hoare_caught, hoare_query; [done|]. intros now s Hi Hs. split; [|by intros].
  split_and!; [done|done|]. intros ns [= <-]. split; [|intros n ??; by apply layout_names_spec].
  apply Forall_forall. intros n [Hn%(si_dirs _ Hi) _]%layout_names_spec. apply Forall_app in Hn as [_ Hn]. by apply Forall_inv in Hn.
Qed.

Definition rooted (acc : list (list rstr)) (ts : list rstr) (s : Site) : Prop :=
  begun s ∧ Forall component ts ∧ Forall (Forall component) acc ∧ [] ∈ acc ∧
  (a = AChecked → ∀ l n, (l, n) ∈ before → reaches ts acc l).

Lemma stable_rooted acc ts : stable (rooted acc ts).
Proof. apply stable_and; [apply stable_begun|apply stable_pure]. Qed.

Lemma hoare_tenant acc t ts :
  hoare a (rooted acc (t :: ts))
    (let* indexes := catch (list_index_dirs t) in Ret (acc ++ [t] :: ((λ i, [t; i]) <$> default [] indexes)))
    (λ r s, match r with Some acc => rooted acc ts s | None => False end).
Proof.
  eapply hoare_then; [apply (hoare_layout _ [t]), (stable_rooted acc (t :: ts))|]. intros r. apply hoare_ret.
  intros s ((Hb & [Ht Hts]%Forall_cons & Hacc & Hnil & Hreach) & Hnone & Hns). split_and!; [done|done| |set_solver|].
  - apply Forall_app. split; [done|]. constructor; [by constructor|]. apply Forall_fmap. destruct r as [ns|]; [|constructor].
    destruct (Hns _ eq_refl) as [Hc _]. eapply Forall_impl; [exact Hc|]. intros i Hi. by repeat constructor; try apply Ht; try apply Hi.
  - intros Ea l n Hin. specialize (Hreach Ea l n Hin). destruct l as [|t' l]; [done|]. simpl in *.
    destruct Hreach as [[->|?]%elem_of_cons|?]; [|by left|right; set_solver]. right. apply elem_of_app. right.
    destruct (Hb _ _ Hin) as (_ & _ & He). destruct l as [|i [|]]; simpl in He; [by left| |done]. right.
    destruct He as (_ & _ & Hd & Hr). destruct r as [ns|]; [|by destruct (Hnone eq_refl Ea)]. destruct (Hns _ eq_refl) as [_ Hall].
    apply list_elem_of_fmap. exists i. split; [done|by apply Hall].
Qed.

Lemma hoare_roots :
  hoare a begun sweep_roots
    (yields (λ roots s, begun s ∧ Forall (Forall component) roots ∧ (a = AChecked → ∀ l n, (l, n) ∈ before → l ∈ roots))).
Proof.
  eapply hoare_then; [apply (hoare_layout _ []), stable_begun|]. intros r.
  apply (hoare_mono _ _ (rooted [[]] (default [] r)) _ (λ r s, match r with Some acc => rooted acc [] s | None => False end)).
  - intros s (Hb & Hnone & Hns). split_and!; [done| |by repeat constructor|by left|].
    + destruct r as [ns|]; [by apply (Hns _ eq_refl)|constructor].
    + intros Ea l n Hin. destruct (Hb _ _ Hin) as (_ & _ & He). destruct l as [|t l]; [done|]. left.
      destruct r as [ns|]; [|by destruct (Hnone eq_refl Ea)]. apply (Hns _ eq_refl); by destruct l as [|? [|]]; simpl in He; destruct_and?.
  - intros [roots|] s; [|done]. intros (Hb & _ & Hacc & Hnil & Hreach). split_and!; [done..|].
    intros Ea l n Hin. specialize (Hreach Ea l n Hin). destruct l; [done|]. simpl in Hreach. set_solver.
  - apply (hoare_each _ _ rooted); [|done]. intros acc t ts. apply hoare_tenant.
Qed.

Lemma hoare_list P l d :
  stable P → stage d → Forall component l →
  hoare a P (list_dir (l ++ [d]))
    (yields (λ ns s, P s ∧ Forall (good_place l) ns ∧ (∀ n, n ∈ ns → is_Some (files s !! (l ++ [d; n]))) ∧
       (a = AChecked → ∀ n, good_place l n → is_Some (files s !! (l ++ [d; n])) → n ∈ ns))).
Proof.
  intros HP Hd Hl. assert (∀ n, (l ++ [d]) ++ [n] = l ++ [d; n]) as Hpath by (intros n; by rewrite <- app_assoc).
  eapply hoare_then.
  - apply hoare_caught, (hoare_query _ _ _ P (λ r s, P s ∧ (∀ ns, r = Some ns → Forall (good_place l) ns ∧
      ∀ n, n ∈ ns ↔ is_Some (files s !! (l ++ [d; n])) ∧ is_arrow n = true) ∧ (r = None → a ≠ AChecked))); [done|].
    intros now s Hi Hs. split; [|by intros]. split_and!; [done| |done]. intros ns [= <-]. split.
    + apply Forall_forall. intros n [[b Hb] Ha]%mirror_names_spec. rewrite Hpath in Hb.
      pose proof (si_home _ Hi l d n Hd Ha (ex_intro _ b Hb)) as Hh. apply (si_paths _ Hi) in Hb. split; [|done]. apply Forall_app in Hb as [? Hb]. apply Forall_app. split; [done|]. by inversion Hb.
    + intros n. by rewrite mirror_names_spec, Hpath.
  - intros r. apply hoare_ret. intros s (Hs & Hns & Hnone). destruct r as [ns|]; simpl.
    + destruct (Hns _ eq_refl) as [Hgood Hall]. split_and!; [done|done| |]; [intros; by apply Hall|].
      intros _ n (? & ? & ?) ?. by apply Hall.
    + split_and!; [done|constructor|by intros ? ?%elem_of_nil|]. intros Ea. by destruct (Hnone eq_refl).
Qed.

(** A candidate, and what is known of its pin. *)
Definition good_candidate (c : Candidate) : Prop :=
  good_place (c_lane c) (c_name c) ∧ c_key c = key_of (c_lane c) (c_name c) ∧
  c_path c = c_lane c ++ [if pinned c then MIRROR_PENDING_DIR else SEALED_DIR; c_name c].

Definition pin_known (s : Site) (c : Candidate) : Prop := pinned c = true → pin_or_stored (c_lane c) (c_name c) s.

Lemma stable_known c : good_candidate c → stable (λ s, pin_known s c).
Proof. intros (Hg & _) s s' Hgu Hp Hc. eapply stable_pin; eauto. Qed.

Lemma stable_known_all cs : Forall good_candidate cs → stable (λ s, Forall (pin_known s) cs).
Proof.
  intros Hcs s s' Hg. rewrite !Forall_forall. intros Hk c Hc. rewrite Forall_forall in Hcs. eapply stable_known; eauto.
Qed.

Lemma add_candidates_spec l d pin acc ns :
  ∃ new, add_candidates prefix l d pin acc ns = acc ++ new ∧
    (∀ c, c ∈ new → ∃ n, n ∈ ns ∧ c = mkCandidate l (l ++ [d; n]) n (candidate_key prefix l n) pin) ∧
    ∀ n, n ∈ ns → ∃ c, c ∈ acc ++ new ∧ c_key c = candidate_key prefix l n.
Proof.
  unfold add_candidates. revert acc. induction ns as [|n ns IH]; intros acc; simpl.
  { exists []. rewrite app_nil_r. split_and!; [done| |]; by intros ? ?%elem_of_nil. }
  case_bool_decide as Hin.
  - destruct (IH acc) as (new & E & Hnew & Hall). exists new. rewrite E. split_and!; [done|set_solver|].
    intros m [->|Hm]%elem_of_cons; [|by apply Hall]. apply list_elem_of_fmap in Hin as (c & -> & Hc). set_solver.
  - set (c0 := mkCandidate l (l ++ [d; n]) n (candidate_key prefix l n) pin).
    destruct (IH (acc ++ [c0])) as (new & E & Hnew & Hall). exists (c0 :: new). rewrite E, <- app_assoc. split_and!; [done| |].
    + intros c [->|Hc]%elem_of_cons; [exists n; split; [by left|done]|]. destruct (Hnew _ Hc) as (m & ? & ->). set_solver.
    + intros m [->|Hm]%elem_of_cons; [exists c0; split; [set_solver|done]|]. destruct (Hall _ Hm) as (c & Hc & ?).
      rewrite <- app_assoc in Hc. eauto.
Qed.

(** A pin the sweep began with is stored, or there is a candidate for it. *)
Definition attended (cs : list Candidate) (s : Site) (l : list rstr) (n : rstr) : Prop :=
  key_of l n ∈ stored s ∨ ∃ c, c ∈ cs ∧ pinned c = true ∧ c_key c = key_of l n.

Lemma attended_mono cs cs' s s' l n : cs ⊆ cs' → site_guar s s' → attended cs s l n → attended cs' s' l n.
Proof. intros Hc [] [?|(c & ? & ?)]; [left; set_solver|right; exists c; set_solver]. Qed.

(** The candidates after the lanes [visited]. *)
Definition gathered (visited : list (list rstr)) (acc : list Candidate) (rest : list (list rstr)) (s : Site) : Prop :=
  (begun s ∧ Forall (pin_known s) acc ∧ (a = AChecked → ∀ l n, (l, n) ∈ before → l ∈ visited → attended acc s l n)) ∧
  Forall good_candidate acc ∧ Forall (Forall component) rest ∧ (∀ c, c ∈ acc → c_lane c ∈ visited) ∧
  (a = AChecked → ∀ l n, (l, n) ∈ before → l ∈ visited ∨ l ∈ rest).

Lemma stable_gathered visited acc rest : stable (gathered visited acc rest).
Proof.
  intros s s' Hg ((Hb & Hk & Ha) & Hgood & ?). split; [|done]. split_and!; [by eapply stable_begun|by eapply (stable_known_all acc)|].
  intros Ea l n Hin Hl. eapply attended_mono; [done|done|by apply Ha].
Qed.

Lemma gathered_pending visited acc l rest s ns :
  gathered visited acc (l :: rest) s → Forall (good_place l) ns → (∀ n, n ∈ ns → is_Some (files s !! (l ++ [MIRROR_PENDING_DIR; n]))) →
  (a = AChecked → ∀ n, good_place l n → is_Some (files s !! (l ++ [MIRROR_PENDING_DIR; n])) → n ∈ ns) →
  gathered (l :: visited) (add_candidates prefix l MIRROR_PENDING_DIR true acc ns) rest s.
Proof.
  intros ((Hb & Hk & Ha) & Hgood & [Hl Hrest]%Forall_cons & Hvis & Hall) Hns Hfiles Hcomplete.
  destruct (add_candidates_spec l MIRROR_PENDING_DIR true acc ns) as (new & -> & Hnew & Hkeys). rewrite Forall_forall in Hns.
  assert (∀ c, c ∈ new → good_candidate c ∧ c_lane c = l ∧ pinned c = true ∧ pin_known s c) as Hn.
  { intros c (n & Hin & ->)%Hnew. unfold good_candidate, pin_known. simpl. split_and!; auto.
    - by apply good_candidate_key, Hns.
    - intros _. left. by apply Hfiles. }
  split_and!; [done| | | |done| |].
  - apply Forall_app. split; [done|]. apply Forall_forall. intros c Hc. by apply Hn.
  - intros Ea l' n Hin [->|Hv]%elem_of_cons; [|eapply attended_mono; [|apply guar_refl|by apply Ha]; set_solver].
    destruct (Hb _ _ Hin) as (Hg & [Hp|?] & _); [|by left]. destruct (Hkeys n) as (c & Hc & Ec); [by apply Hcomplete|].
    rewrite good_candidate_key in Ec by done. apply elem_of_app in Hc as [Hc|Hc]; [|right; exists c; split_and!; [set_solver|by apply Hn|done]].
    rewrite Forall_forall in Hgood. destruct (Hgood _ Hc) as (Hg' & Ek & _). rewrite Ek in Ec.
    apply key_of_inj in Ec as [<- <-]; [|done..]. eapply attended_mono; [|apply guar_refl|apply Ha; eauto]. set_solver.
  - apply Forall_app. split; [done|]. apply Forall_forall. intros c Hc. by apply Hn.
  - intros c [Hc|Hc]%elem_of_app; [right; by apply Hvis|]. destruct (Hn _ Hc) as (_ & -> & _). by left.
  - intros Ea l' n Hin. destruct (Hall Ea _ _ Hin) as [?|[->|?]%elem_of_cons]; [left; by right|left; by left|by right].
Qed.

Lemma gathered_sealed visited acc l rest s ns :
  gathered (l :: visited) acc rest s → Forall (good_place l) ns →
  gathered (l :: visited) (add_candidates prefix l SEALED_DIR false acc ns) rest s.
Proof.
  intros ((Hb & Hk & Ha) & Hgood & Hrest & Hvis & Hall) Hns. rewrite Forall_forall in Hns.
  destruct (add_candidates_spec l SEALED_DIR false acc ns) as (new & -> & Hnew & _).
  assert (∀ c, c ∈ new → good_candidate c ∧ c_lane c = l ∧ pin_known s c) as Hn.
  { intros c (n & Hin & ->)%Hnew. unfold good_candidate, pin_known. simpl. split_and!; auto; try done. by apply good_candidate_key, Hns. }
  split_and!; [done| | | |done| |done].
  - apply Forall_app. split; [done|]. apply Forall_forall. intros c Hc. by apply Hn.
  - intros Ea l' n Hin Hl. eapply attended_mono; [|apply guar_refl|by apply Ha]. set_solver.
  - apply Forall_app. split; [done|]. apply Forall_forall. intros c Hc. by apply Hn.
  - intros c [Hc|Hc]%elem_of_app; [by apply Hvis|]. destruct (Hn _ Hc) as (_ & -> & _). by left.
Qed.

Lemma hoare_lane acc l rest :
  hoare a (λ s, ∃ visited, gathered visited acc (l :: rest) s)
    (let* pending := list_dir (l ++ [MIRROR_PENDING_DIR]) in
     let* sealed := list_dir (l ++ [SEALED_DIR]) in
     Ret (add_candidates prefix l SEALED_DIR false (add_candidates prefix l MIRROR_PENDING_DIR true acc pending) sealed))
    (λ r s, match r with Some acc => ∃ visited, gathered visited acc rest s | None => False end).
Proof.
  apply hoare_ex. intros visited. apply (hoare_extract _ (Forall component l)).
  { intros s (_ & _ & Hl & _). by apply Forall_inv in Hl. }
  intros Hl. apply (hoare_then _ _ _ _ (λ ns s, gathered (l :: visited) (add_candidates prefix l MIRROR_PENDING_DIR true acc ns) rest s)).
  - eapply hoare_mono; [| |apply (hoare_list (gathered visited acc (l :: rest)) l MIRROR_PENDING_DIR); [apply stable_gathered|apply pending_stage|done]]; [done|].
    intros [ns|] s; [|done]. intros (Hg & Hns & Hf & Hc). by apply gathered_pending.
  - intros ns. eapply hoare_then; [apply hoare_list; [apply stable_gathered|apply sealed_stage|done]|]. intros ns'. apply hoare_ret.
    intros s (Hg & Hns & _). exists (l :: visited). by apply gathered_sealed.
Qed.

Lemma hoare_candidates :
  hoare a begun (sweep_candidates prefix)
    (yields (λ cs s, Forall good_candidate cs ∧ Forall (pin_known s) cs ∧ (a = AChecked → ∀ l n, (l, n) ∈ before → attended cs s l n))).
Proof.
  unfold sweep_candidates. eapply hoare_then; [apply hoare_roots|]. intros roots.
  apply (hoare_mono _ _ (λ s, ∃ visited, gathered visited [] roots s) _
           (λ r s, match r with Some acc => ∃ visited, gathered visited acc [] s | None => False end)).
  - intros s (Hb & Hc & Hall). exists []. split_and!.
    + done.
    + constructor.
    + by intros Ea l n Hin ?%elem_of_nil.
    + constructor.
    + done.
    + by intros ? ?%elem_of_nil.
    + intros Ea l n Hin. right. by eapply Hall.
  - intros [cs|] s; [|done]. intros (visited & (_ & Hk & Ha) & Hg & _ & _ & Hall). split_and!; [done..|].
    intros Ea l n Hin. apply Ha; [done..|]. destruct (Hall Ea l n Hin) as [?|?%elem_of_nil]; done.
  - apply (hoare_each _ _ (λ acc rest s, ∃ visited, gathered visited acc rest s)); [|done]. intros acc l rest. apply hoare_lane.
Qed.

(** * Candidates in turn *)

Definition checked_well (s : Site) (cr : Candidate * option (option Z)) : Prop :=
  (∀ m, cr.2 = Some (Some m) → c_key cr.1 ∈ stored s ∧ m = len (body (c_key cr.1))) ∧ (cr.2 = None → a ≠ AChecked).

Lemma stable_checked rs : stable (λ s, Forall (checked_well s) rs).
Proof.
  intros s s' [] H. eapply Forall_impl; [exact H|]. intros [c r] [Hc Hn]. split; [|done]. intros m Hm. destruct (Hc m Hm). set_solver.
Qed.

Lemma sweep_segment_well s c :
  good_candidate c → c_key c ∈ stored s → registered_well s (sweep_segment c (len (body (c_key c)))).
Proof.
  intros (Hg & Ek & _) Hst. exists (c_lane c), (c_name c), 0. rewrite <- Ek. split_and!; [done..|].
  unfold sweep_segment, notify_uploaded. destruct (parse_mirror_key_suffix _) as [t ix]. f_equal.
  - f_equal. rewrite good_suffix by done. destruct Hg as [Hc _]. by rewrite file_name_key.
  - rewrite Ek. unfold key_of, mirror_key. rewrite bool_decide_false by done.
    destruct (trim_slashes_ends prefix mirrored_on) as [(x & k & Ex & Hx) _]. rewrite Ex, <- app_assoc. by apply drop_slashes_app.
Qed.

Lemma hoare_clean P cleanup c :
  stable P → good_candidate c → (∀ s, P s → c_key c ∈ stored s) →
  hoare a P (if cleanup : bool then cleanup_active_partial prefix (suffix_of (c_lane c) (c_name c)) else Ret tt) (yields (λ _, P)).
Proof.
  intros HP (Hg & Ek & _) Hk. rewrite Ek in Hk. destruct cleanup; [by apply hoare_cleanup|by apply hoare_ret].
Qed.

Lemma hoare_candidate_pin P c :
  stable P → good_candidate c → pinned c = true → (∀ s, P s → c_key c ∈ stored s) →
  hoare a P (remove_candidate_pin c) (yields (λ _, P)).
Proof.
  intros HP (Hg & Ek & Ep) Hpin Hk. unfold remove_candidate_pin. rewrite Ep, Hpin. apply hoare_quiet, hoare_remove_pin; [done|].
  intros s Hs. rewrite <- Ek. by apply Hk.
Qed.

(** Reading a candidate: its bytes, or its pin's object was stored. *)
Definition read_well (c : Candidate) (r : option SweepCandidateRead) (s : Site) : Prop :=
  (∀ b, r = Some (Bytes b) → b = body (c_key c)) ∧
  (a = AChecked → pinned c = true → (∀ b, r ≠ Some (Bytes b)) → c_key c ∈ stored s).

Definition gone_stored (c : Candidate) (s : Site) : Prop := pinned c = true → c_key c ∈ stored s.

Lemma candidate_stage c : stage (if pinned c then MIRROR_PENDING_DIR else SEALED_DIR).
Proof. destruct (pinned c); [apply pending_stage|apply sealed_stage]. Qed.

Lemma hoare_first_read c :
  good_candidate c →
  hoare a (λ s, pin_known s c) (read_file (c_path c))
    (yields (λ r s, (∀ b, r = Some (Some b) → b = body (c_key c)) ∧ (r = None → a ≠ AChecked) ∧ (r = Some None → gone_stored c s))).
Proof.
  intros Hc. pose proof Hc as (Hg & Ek & Ep). apply hoare_caught, hoare_query; [by apply stable_known|].
  intros now s Hi Hk. split; [|by intros]. split_and!; [|done|].
  - intros b [= Hb]. rewrite Ek. rewrite Ep in Hb. eapply si_files; [done|apply candidate_stage|done|exact Hb].
  - intros [= Hnone] Hpin. destruct (Hk Hpin) as [[b Hb]|?]; [|by rewrite Ek]. rewrite Ep, Hpin in Hnone.
    unfold pending_path in Hb. congruence.
Qed.

Lemma hoare_read_candidate c :
  good_candidate c → hoare a (λ s, pin_known s c) (read_sweep_candidate c) (read_well c).
Proof.
  intros Hc. pose proof Hc as (Hg & Ek & Ep). unfold read_sweep_candidate.
  assert (stable (gone_stored c)) as HK by (apply stable_impl, stable_stored).
  assert (∀ r, (∀ b, r ≠ Some (Bytes b)) → ∀ s, gone_stored c s → read_well c r s) as Hgone.
  { intros r Hr s Hs. split; [intros b ?; by destruct (Hr b)|]. intros _ Hp _. by apply Hs. }
  assert (∀ b s, b = body (c_key c) → read_well c (Some (Bytes b)) s) as Hbytes.
  { intros b s ->. split; [by intros ? [= <-]|]. intros _ _ H. by destruct (H (body (c_key c))). }
  eapply hoare_then; [by apply hoare_first_read|]. intros [[b|]|].
  - apply hoare_ret. intros s [Hb _]. by apply Hbytes, Hb.
  - eapply hoare_mono; [intros s (_ & _ & Hs); exact (Hs eq_refl)|done|].
    eapply hoare_then; [apply (hoare_read (gone_stored c)); [done|apply processing_stage|done]|]. intros [[b|]|].
    + apply hoare_ret. intros s (_ & Hb & _). rewrite <- Ek in Hb. by apply Hbytes, Hb.
    + eapply hoare_mono; [intros s (Hs & _); exact Hs|done|]. eapply hoare_then; [by apply hoare_exists|].
      intros [|]; [apply hoare_ret; intros s Hs; by apply Hgone|]. rewrite Ep.
      eapply hoare_then; [apply (hoare_read (gone_stored c)); [done|apply candidate_stage|done]|].
      intros [[b|]|]; [|apply hoare_err; intros s (Hs & _); by apply Hgone..].
      apply hoare_ret. intros s (_ & Hb & _). rewrite <- Ek in Hb. by apply Hbytes, Hb.
    + apply hoare_err. intros s (Hs & _). by apply Hgone.
  - apply hoare_err. intros s (_ & Hn & _). split; [done|]. intros Ea. by destruct (Hn eq_refl).
Qed.

(** A candidate handled: what it adds, whether the sweep goes on, and that its
    pin's object is stored. *)
Lemma hoare_candidate cleanup P c r uploaded :
  stable P → good_candidate c →
  hoare a (λ s, P s ∧ pin_known s c ∧ checked_well s (c, r) ∧ (∀ m, m ∈ uploaded → registered_well s m))
    (sweep_candidate prefix cleanup uploaded c r)
    (yields (λ next s, P s ∧ (∀ m, m ∈ next.1 → registered_well s m) ∧ (a = AChecked → next.2 = true ∧ gone_stored c s))).
Proof.
  intros HP Hc. set (R := λ s, P s ∧ ∀ m, m ∈ uploaded → registered_well s m).
  assert (stable R) as HR.
  { apply stable_and; [done|]. apply stable_all. intros m. apply stable_impl, stable_registered. }
  assert (stable (λ s, R s ∧ c_key c ∈ stored s)) as HRk by (apply stable_and; [done|apply stable_stored]).
  assert (∀ s, R s ∧ c_key c ∈ stored s → ∀ m, m ∈ uploaded ++ [sweep_segment c (len (body (c_key c)))] → registered_well s m) as Hadd.
  { intros s [[_ Hu] Hk] m [?| ->%list_elem_of_singleton]%elem_of_app; [by apply Hu|by apply sweep_segment_well]. }
  unfold sweep_candidate. destruct r as [[n|]|].
  - apply (hoare_from _ _ (λ s, R s ∧ c_key c ∈ stored s) _
      (yields (λ next s, (R s ∧ c_key c ∈ stored s) ∧ next.2 = true ∧ ∀ m, m ∈ next.1 → registered_well s m))).
    2: { intros [next|] s; [|done]. intros ([[? _] ?] & Ht & ?). split_and!; [done..|]. intros _. by split; [|intros _]. }
    intros s0 (Hps & _ & [Hck _] & Hu). destruct (Hck _ eq_refl) as [Hk ->]. split; [done|]. destruct (pinned c) eqn:Epin.
    + eapply hoare_then; [apply hoare_candidate_pin; [done..|]; by intros s [_ ?]|]. intros ?.
      eapply hoare_then; [apply hoare_clean; [done|done|by intros s [_ ?]]|]. intros ?. apply hoare_ret. intros s Hs. split; [done|]. split; [done|]. by apply Hadd.
    + eapply hoare_then; [apply hoare_clean; [done|done|by intros s [_ ?]]|]. intros ?. apply hoare_ret. intros s Hs. split; [done|]. split; [done|]. by apply Hs.
  - apply (hoare_then _ _ _ _ (λ r s, read_well c r s ∧ R s)).
    { apply hoare_caught. eapply hoare_mono; [| |exact (hoare_frame _ _ _ _ R HR (hoare_read_candidate c Hc))]; [|done]. by intros s (? & ? & _ & ?). }
    intros r. assert ((∀ b, r ≠ Some (Bytes b)) ∨ ∃ b, r = Some (Bytes b)) as [Hr|[b ->]] by (destruct r as [[b|]|]; eauto).
    + replace (match r with Some (Bytes b) => _ | _ => _ end) with (Ret (Σ := Site) (uploaded, true)) by (destruct r as [[b|]|]; try done; by destruct (Hr b)).
      apply hoare_ret. intros s ([_ Hg] & Hps & Hu). split_and!; [done..|]. intros Ea. split; [done|]. intros Hp. by apply Hg.
    + apply (hoare_extract _ (b = body (c_key c))); [intros s [[Hb _] _]; by apply Hb|]. intros ->.
      pose proof Hc as (Hg & Ek & _). apply (hoare_then _ _ _ _ (λ r s, R s ∧ (r ≠ None → c_key c ∈ stored s) ∧ (r = None → a ≠ AChecked))).
      { apply hoare_caught. rewrite Ek. eapply hoare_mono; [| |by apply (hoare_put R)]; [by intros s [_ ?]|done]. }
      intros [[]|]; [|apply hoare_ret; intros s ([? ?] & _ & Hn); split_and!; [done..|]; intros Ea; by destruct (Hn eq_refl)].
      apply (hoare_then _ _ _ _ (λ _ s, R s ∧ c_key c ∈ stored s)).
      { eapply (hoare_mono _ _ (λ s, R s ∧ c_key c ∈ stored s)); [intros s (? & Hk & _); split; [done|by apply Hk]|done|].
        destruct (pinned c) eqn:Epin; [|by apply hoare_ret]. apply hoare_candidate_pin; [done..|]. by intros s [_ ?]. }
      intros ?. eapply hoare_then; [apply hoare_clean; [done|done|by intros s [_ ?]]|]. intros ?. apply hoare_ret. intros s Hs. split_and!; [by apply Hs|by apply Hadd|].
      intros _. split; [done|]. intros _. by apply Hs.
  - apply hoare_ret. intros s (? & _ & [_ Hn] & ?). split_and!; [done..|]. intros Ea. by destruct (Hn eq_refl).
Qed.

Lemma hoare_ahead P n todo ready :
  stable P → Forall good_candidate todo →
  hoare a (λ s, P s ∧ Forall (checked_well s) ready) (check_ahead n todo ready)
    (yields (λ cr s, (P s ∧ Forall (checked_well s) cr.2) ∧ cr.2.*1 ++ cr.1 = ready.*1 ++ todo ∧
                     (n ≠ 0%nat → todo ≠ [] → cr.2 ≠ []) ∧ (ready ≠ [] → cr.2 ≠ []))).
Proof.
  intros HP. revert todo ready. induction n as [|n IH]; intros todo ready Htodo; cbn [check_ahead]; [by apply hoare_ret|].
  destruct todo as [|c todo]; [by apply hoare_ret|]. apply Forall_cons in Htodo as [(Hg & Ek & _) Htodo].
  apply (hoare_then _ _ _ _ (λ r s, P s ∧ Forall (checked_well s) (ready ++ [(c, r)]))).
  { rewrite Ek. eapply hoare_mono; [| |apply (hoare_stat (λ s, P s ∧ Forall (checked_well s) ready)); [|done]]; [done| |].
    - intros [r|] s; [|done]. intros ([? ?] & Hm & Hn). split; [done|]. apply Forall_app. split; [done|]. constructor; [|constructor].
      split; simpl; [by rewrite Ek|done].
    - apply stable_and; [done|apply stable_checked]. }
  intros r. eapply hoare_mono; [| |by apply (IH todo (ready ++ [(c, r)]))]; [done|]. intros [cr|] s; [|done].
  intros (? & E & _ & Hne). assert (cr.2 ≠ []) by (apply Hne; by intros [_ ?]%app_eq_nil). split; [done|].
  split; [by rewrite E, fmap_app, <- app_assoc|done].
Qed.

Definition sweeping (todo : list Candidate) (ready : list (Candidate * option (option Z))) (s : Site) : Prop :=
  Forall (pin_known s) (ready.*1 ++ todo) ∧ (a = AChecked → ∀ l n, (l, n) ∈ before → attended (ready.*1 ++ todo) s l n).

Lemma stable_sweeping todo ready : Forall good_candidate (ready.*1 ++ todo) → stable (sweeping todo ready).
Proof.
  intros Hg. apply stable_and; [by apply stable_known_all|]. intros s s' Hgu H Ea l n Hin.
  eapply attended_mono; [done|done|by apply H].
Qed.

Lemma hoare_sweep_loop cleanup ahead fuel todo ready uploaded :
  Forall good_candidate (ready.*1 ++ todo) → (length (ready.*1 ++ todo) ≤ fuel)%nat →
  hoare a (λ s, sweeping todo ready s ∧ Forall (checked_well s) ready ∧ ∀ m, m ∈ uploaded → registered_well s m)
    (sweep_loop prefix cleanup ahead fuel todo ready uploaded)
    (yields (λ l s, (∀ m, m ∈ l → registered_well s m) ∧ (a = AChecked → ∀ l n, (l, n) ∈ before → key_of l n ∈ stored s))).
Proof.
  revert todo ready uploaded. induction fuel as [|fuel IH]; intros todo ready uploaded Hgood Hfuel; cbn [sweep_loop].
  { apply hoare_ret. intros s ([_ Ha] & _ & Hu). split; [done|]. intros Ea l n Hin.
    destruct (ready.*1 ++ todo); [|simpl in Hfuel; lia]. destruct (Ha Ea l n Hin) as [?|(c & ?%elem_of_nil & _)]; done. }
  assert (Forall good_candidate todo) as Htodo by by apply Forall_app in Hgood as [_ ?].
  set (R := λ s, sweeping todo ready s ∧ ∀ m, m ∈ uploaded → registered_well s m).
  assert (stable R) as HR.
  { apply stable_and; [by apply stable_sweeping|]. apply stable_all. intros m. apply stable_impl, stable_registered. }
  eapply hoare_then.
  { eapply hoare_mono; [| |by apply (hoare_ahead R)]; [by intros s (? & ? & ?)|done]. }
  intros [todo' ready']. apply (hoare_extract _ (ready'.*1 ++ todo' = ready.*1 ++ todo ∧ (ready' = [] → ready.*1 ++ todo = []))).
  { intros s (_ & E & Hn & Hr). split; [done|]. simpl in *. intros ->. destruct ready as [|]; [|by destruct Hr]. destruct todo; [done|].
    destruct Hn; [|done..]. lia. }
  intros [E Hnil]. cbn [fst snd]. destruct ready' as [|[c r] ready'].
  - apply hoare_ret. intros s ((([_ Ha] & Hu) & _) & _). split; [done|]. intros Ea l n Hin. rewrite (Hnil eq_refl) in Ha.
    destruct (Ha Ea l n Hin) as [?|(c & ?%elem_of_nil & _)]; done.
  - rewrite <- E in Hgood, Hfuel. apply Forall_cons in Hgood as [Hc Hgood].
    change (S (length (ready'.*1 ++ todo')) ≤ S fuel)%nat in Hfuel.
    set (P := λ s, Forall (pin_known s) (ready'.*1 ++ todo') ∧ Forall (checked_well s) ready' ∧
                   (a = AChecked → ∀ l n, (l, n) ∈ before → attended (c :: ready'.*1 ++ todo') s l n)).
    assert (stable P) as HP.
    { apply stable_and; [by apply stable_known_all|]. apply stable_and; [apply stable_checked|]. intros s s' Hgu H Ea l n Hin.
      eapply attended_mono; [done|done|by apply H]. }
    eapply hoare_then.
    { eapply hoare_mono; [| |by apply (hoare_candidate cleanup P c r uploaded)]; [|done]. unfold R, sweeping. rewrite <- E.
      intros s [[[[Hks Ha] Hu] Hch] _]. apply Forall_cons in Hks as [? ?], Hch as [? ?]. done. }
    intros [l' [|]]; cbn [fst snd].
    + eapply hoare_mono; [| |by apply (IH todo' ready' l'); [|lia]]; [|done]. intros s ((Hk & Hch & Ha) & Hl & Hgone).
      split; [split; [done|]|done]. intros Ea l n Hin. destruct (Hgone Ea) as [_ Hst].
      destruct (Ha Ea l n Hin) as [?|(c' & [->|Hc']%elem_of_cons & Hp & Ek)]; [by left| |right; eauto].
      left. rewrite <- Ek. by apply Hst.
    + apply hoare_ret. intros s (_ & Hl & Hgone). split; [done|]. intros Ea. by destruct (Hgone Ea).
Qed.

Lemma hoare_sweep cleanup ahead :
  hoare a begun (sweep_and_send prefix cleanup ahead)
    (yields (λ _ s, a = AChecked → ∀ l n, (l, n) ∈ before → key_of l n ∈ stored s)).
Proof.
  unfold sweep_and_send, catch_up_sweep_configured. eapply (hoare_then _ _ _ _
    (λ l s, (∀ m, m ∈ l → registered_well s m) ∧ (a = AChecked → ∀ l n, (l, n) ∈ before → key_of l n ∈ stored s))).
  - eapply hoare_then; [apply hoare_candidates|]. intros cs. apply (hoare_extract _ (Forall good_candidate cs)); [by intros s [? _]|].
    intros Hcs. eapply hoare_mono; [| |by apply (hoare_sweep_loop cleanup ahead (length cs) cs [] [])]; [|done].
    intros s (_ & Hk & Ha). split; [done|]. split; [constructor|by intros ? ?%elem_of_nil].
  - intros l. eapply hoare_mono; [| |apply (hoare_send (λ s, (∀ m, m ∈ l → registered_well s m) ∧
      (a = AChecked → ∀ l n, (l, n) ∈ before → key_of l n ∈ stored s)) l)]; [done| | |].
    + intros [[]|] s; [|done]. by intros [_ ?].
    + apply stable_and; [apply stable_all; intros m; apply stable_impl, stable_registered|]. apply stable_impl.
      apply stable_all. intros l'. apply stable_all. intros n. apply stable_impl, stable_stored.
    + intros s m [Hl _]. apply Hl.
Qed.

End Before.

(** * The other programs *)

Lemma hoare_new_dir P p : stable P → Forall component p → hoare a P (create_wal_dir p) (λ r s, P s ∧ (r ≠ None → p ∈ dirs s)).
Proof.
  intros HP Hp. apply hoare_stmt; [done|]. intros now s Hi Hs. destruct (fine_dir s p Hi Hp) as (? & Hg & ?). pose proof (HP _ _ Hg Hs).
  simpl. split_and!; try done. intros _. set_solver.
Qed.

Lemma writable_enumerated d l : writable l → take 1 l ++ [SEALED_DIR] ∈ d → l ++ [SEALED_DIR] ∈ d → enumerated d l.
Proof.
  intros [Hlen Hr] Ht Hl. destruct l as [|t [|i [|]]]; simpl in *; [done| | |lia].
  - apply Forall_cons in Hr as [? _]. done.
  - apply Forall_cons in Hr as [? [? _]%Forall_cons]. done.
Qed.

Lemma stable_dir p : stable (λ s, p ∈ dirs s).
Proof. intros s s' [] ?. set_solver. Qed.

Lemma hoare_hand_over q : good_handed q → hoare a (λ _, True) (hand_over q) (λ _ _, True).
Proof.
  intros Hq. pose proof Hq as [Hg _]. pose proof Hg as ([Hl _]%Forall_app & _ & Hh).
  assert (writable (lane q)) as Hw by (rewrite <- Hh; apply homes).
  assert (component SEALED_DIR) as Hsd by apply stage_component, sealed_stage.
  unfold hand_over. eapply hoare_bind; [apply (hoare_new_dir (λ _, True)); [apply stable_true|]| |done].
  { apply Forall_app. split; [by apply Forall_take|by constructor]. }
  intros ?. apply (hoare_from _ _ (λ s, take 1 (lane q) ++ [SEALED_DIR] ∈ dirs s) _ (λ _ _, True)); [|done].
  intros s0 [_ Hd]. split; [by apply Hd|]. clear s0 Hd.
  eapply hoare_bind; [apply hoare_new_dir; [apply stable_dir|apply Forall_app; split; [done|by constructor]]| |done].
  intros ?. apply (hoare_from _ _ (λ s, enumerated (dirs s) (lane q)) _ (λ _ _, True)); [|done].
  intros s0 [Hd1 Hd2]. split; [by apply writable_enumerated; [|..|apply Hd2]|]. clear s0 Hd1 Hd2.
  eapply hoare_bind; [apply (hoare_effect (λ s, enumerated (dirs s) (lane q)))| |done].
  - apply stable_enumerated.
  - intros now s Hi He. apply fine_insert; [done|apply sealed_stage|done|done].
  - intros ?. eapply hoare_mono; [| |by apply hoare_enqueue]; done.
Qed.

Lemma hoare_flush l n b k :
  good_place l n → active_partial_key prefix (suffix_of l n) = Some k → flushed k b → hoare a (λ _, True) (flush l n b) (λ _ _, True).
Proof. intros Hg Hk Hb. apply hoare_effect; [apply stable_true|]. intros now s Hi _. by eapply fine_flush. Qed.

Lemma hoare_claim t i u : owned_prefix t i → hoare a (λ _, True) (claim_mirrored_index prefix t i u) (λ _ _, True).
Proof.
  intros Ho. eapply hoare_bind; [by apply (hoare_skip (λ _, True))| |done]. intros [uuid|]; [|by apply hoare_ret].
  assert (∀ (w : DrainCycle.WalDirClaim) l, hoare a (λ _, True) (let* _ := write_mirror_owner prefix t i uuid l in Ret w) (λ _ _, True)) as Hw.
  { intros w l. eapply hoare_bind; [apply (hoare_effect (λ _, True)); [apply stable_true|]|intros ?; by apply hoare_ret|done].
    intros now s Hi _. by apply fine_put_owner. }
  eapply (hoare_bind _ _ _ _ (λ _ _, True)); [|intros [[| |p] l]; [apply Hw|by apply hoare_ret|apply Hw]|done].
  apply (hoare_then _ _ _ _ (λ _ _, True)); [apply hoare_caught, hoare_query; [apply stable_true|done]|].
  intros [b|]; [|by apply hoare_err]. destruct (marker_lines _); by apply hoare_ret.
Qed.

Lemma hoare_unlink l d n : d ≠ MIRROR_PENDING_DIR → hoare a (λ _, True) (unlink l d n) (λ _ _, True).
Proof. intros Hd. apply hoare_effect; [apply stable_true|]. intros now s Hi _. by apply fine_remove. Qed.

Lemma hoare_move l d d' n :
  good_place l n → stage d → stage d' → d ≠ MIRROR_PENDING_DIR → hoare a (λ _, True) (move l d d' n) (λ _ _, True).
Proof.
  intros Hg Hd Hd' Hne. apply hoare_effect; [apply stable_true|]. intros now s Hi _.
  destruct (files s !! (l ++ [d; n])) as [b|] eqn:E; [|by apply fine_refl]. simpl.
  rewrite (si_files _ Hi _ _ _ _ Hd Hg E). pose proof (fine_remove s l d n Hi) as Hrm. specialize (Hrm ltac:(done)).
  eapply fine_trans; [exact Hrm|]. destruct Hrm as [Hi' _].
  assert (enumerated (dirs s) l) as He by (eapply si_lanes; [exact Hi|exact Hd|exact Hg|by eexists]).
  exact (fine_insert (set_files (base.delete (l ++ [d; n]) (files s)) s) l d' n Hi' Hd' Hg He).
Qed.

Lemma pins_spec s l n : (l, n) ∈ pins s ↔ is_Some (files s !! pending_path l n) ∧ is_arrow n = true.
Proof.
  unfold pins. rewrite list_elem_of_omap. split.
  - intros (p & ([p' b] & -> & Hb%elem_of_map_to_list)%list_elem_of_fmap & Hn). simpl in Hn.
    destruct (split_last p') as [[n' p'']|] eqn:E1; [|done]. cbn [mbind option_bind] in Hn.
    destruct (split_last p'') as [[d l']|] eqn:E2; [|done]. cbn [mbind option_bind] in Hn.
    apply split_last_Some in E1 as ->, E2 as ->. case_bool_decide as Hd; [|done]. simpl in Hn.
    destruct (is_arrow n') eqn:Ea; [|done]. injection Hn as -> ->. subst d. unfold pending_path. rewrite <- app_assoc in Hb. eauto.
  - intros [[b Hb] Ha]. exists (pending_path l n). split.
    + apply list_elem_of_fmap. exists (pending_path l n, b). split; [done|]. by apply elem_of_map_to_list.
    + unfold pending_path. change [MIRROR_PENDING_DIR; n] with ([MIRROR_PENDING_DIR] ++ [n]). rewrite app_assoc, split_last_snoc.
      cbn [mbind option_bind]. rewrite split_last_snoc. cbn [mbind option_bind]. by rewrite bool_decide_true, Ha.
Qed.

Lemma pins_begun s : site_inv s → begun (pins s) s.
Proof.
  intros Hi l n [Hp Ha]%pins_spec. assert (good_place l n) as Hg.
  { pose proof (si_home _ Hi l MIRROR_PENDING_DIR n pending_stage Ha Hp) as Hh.
    destruct Hp as [b Hb]. apply (si_paths _ Hi) in Hb. split; [|done]. apply Forall_app in Hb as [? Hb]. apply Forall_app.
    split; [done|]. by inversion Hb. }
  split_and!; [done|by left|]. by eapply si_lanes; [done|apply pending_stage|done|exact Hp].
Qed.

Lemma hoare_checked cleanup ahead : a = AChecked → hoare a (λ _, True) (checked_sweep cleanup ahead) (λ _ _, True).
Proof.
  intros Ea. unfold checked_sweep. apply (hoare_bind _ _ _ _ (λ r s, ∀ v, r = Some v → begun v s)); [| |done].
  { apply hoare_query; [apply stable_true|]. intros now s Hi _. split; [|done]. intros v [= <-]. by apply pins_begun. }
  intros before. eapply hoare_then.
  { eapply hoare_mono; [| |apply (hoare_sweep before)]; [|done]. intros s Hs. by apply Hs. }
  intros ?. apply (hoare_mono _ _ (λ s, ∀ l n, (l, n) ∈ before → key_of l n ∈ stored s) _
    (λ _ s, ∀ l n, (l, n) ∈ before → key_of l n ∈ stored s)); [by intros s Hs; apply Hs|done|].
  apply hoare_effect.
  - apply stable_all. intros l. apply stable_all. intros n. apply stable_impl, stable_stored.
  - intros now s Hi Hs. by apply fine_swept.
Qed.
End Pins.

(** * The site *)

Definition empty_site : Site := mkSite ∅ ∅ ∅ [] [] ∅ ∅ ∅ [] ∅ ∅ [].

Lemma empty_site_inv : site_inv empty_site.
Proof. constructor; simpl; try set_solver; try (intros; by rewrite lookup_empty in *). all: by intros; destruct_or?; eapply is_Some_None; eauto. Qed.

Inductive starts : MirrorActor → Eff Site unit → Prop :=
| starts_seal q : good_handed q → starts AMirror (hand_over q)
| starts_flush l n b k :
    good_place l n → active_partial_key prefix (suffix_of l n) = Some k → flushed k b → starts AMirror (flush l n b)
| starts_move l d d' n : good_place l n → stage d → stage d' → d ≠ MIRROR_PENDING_DIR → starts AMirror (move l d d' n)
| starts_unlink l d n : d ≠ MIRROR_PENDING_DIR → starts AMirror (unlink l d n)
| starts_reclaim l n : good_place l n → starts AMirror (reclaim (key_of l n))
| starts_claim t i u : owned_prefix t i → starts AMirror (ignore (claim_mirrored_index prefix t i u))
| starts_worker announce cleanup : starts AMirror (worker_turn prefix announce cleanup)
| starts_sweep cleanup ahead : starts AMirror (sweep_and_send prefix cleanup ahead)
| starts_tick seen snaps : Forall good_snapshot snaps → starts AMirror (ignore (active_tick prefix seen snaps))
| starts_checked cleanup ahead : starts AChecked (checked_sweep cleanup ahead).

Lemma starts_safe a p x : starts a p → mirror_inv x → Safe a p (λ _ _, True) x.
Proof.
  intros Hs _. assert (hoare a (λ _, True) p (λ _ _, True)) as Hh; [|by eapply safe_mono; [|by apply (Hh x)]].
  destruct Hs.
  - by apply hoare_hand_over.
  - by eapply hoare_flush.
  - by apply hoare_move.
  - by apply hoare_unlink.
  - apply hoare_effect; [apply stable_true|]. intros now s Hi _. by apply fine_reclaim.
  - unfold ignore. eapply hoare_bind; [by apply hoare_claim|intros ?; by apply hoare_ret|done].
  - apply hoare_worker.
  - eapply hoare_mono; [| |apply (hoare_sweep _ [])]; [|done]. by intros s _ l n ?%elem_of_nil.
  - unfold ignore. eapply hoare_bind; [by apply hoare_tick|intros ?; by apply hoare_ret|done].
  - by apply hoare_checked.
Qed.

Definition site_step : Config (Σ := Site) (Act := MirrorActor) → Config → Prop := pstep mirror_allowed mirror_compat starts.

(** C12. A pinned segment is not lost to the mirror.  From an empty site, under
    any interleaving of writers, drain, retention, reclamation, claims of prefixes,
    workers, sweeps and active snapshots, any failures, and processes that stop anywhere:
    every segment that was ever pinned still has its bytes under its pin or had
    its object stored; an object under a segment's key holds that segment's bytes;
    every registration is that of a segment whose object was stored, with its
    length; and a sweep that met no failure leaves nothing it found pinned
    without an object having been stored. *)
Theorem pinned_until_stored clock clock' pool s :
  rtc site_step (clock, [], empty_site) (clock', pool, s) →
  (∀ l n, (l, n) ∈ owed s → files s !! pending_path l n = Some (body (key_of l n)) ∨ key_of l n ∈ stored s) ∧
  (∀ l n b, good_place l n → objects s !! key_of l n = Some b → b = body (key_of l n)) ∧
  (∀ m, m ∈ registrations s → ∃ l n r, good_place l n ∧ key_of l n ∈ stored s ∧
     m = notify_uploaded prefix (suffix_of l n) (len (body (key_of l n))) r) ∧
  (∀ before l n, before ∈ swept s → (l, n) ∈ before → key_of l n ∈ stored s).
Proof.
  intros Hr. apply (pool_invariant mirror_inv _ _ mirror_guar) in Hr as Hi; [|apply starts_safe|apply empty_site_inv]. change (site_inv s) in Hi.
  split_and!; [|apply Hi..]. intros l n [Hg [[b Hb]|?]]%(si_owed _ Hi); [left|by right].
  rewrite Hb. f_equal. by eapply si_files; [done|apply pending_stage|done|exact Hb].
Qed.
End Mirroring.

(** * Witness *)

Definition sample_prefix : rstr := lit "wal-mirror".
Definition sample_body : rstr → bytes := λ _, [1; 2; 3].
Definition sample_handed : Handed := mkHanded [lit "acme"] (lit "x.arrow") (lit "acme/x.arrow") 3.

Definition all_done (n : nat) : list (Z * Outcome) := replicate n (0, Done).

Definition sealed_site : Site := (run (all_done 40) (hand_over sample_prefix sample_body sample_handed) empty_site).2.
Definition swept_site : Site := (run (all_done 40) (checked_sweep sample_prefix true (λ _, 3%nat)) sealed_site).2.

Definition mirror_allowedb (a : MirrorActor) (_ _ : Z) (_ : Label) (o : Outcome) : bool :=
  match a, o with (AChecked | ARestore true), Done => true | (AChecked | ARestore true), _ => false | _, _ => true end.

Lemma mirror_allowedb_ok a t now l o : mirror_allowedb a t now l o = true → mirror_allowed a t now l o.
Proof. by intros H [->| ->]; destruct o. Qed.

Lemma all_done_reach (starts : MirrorActor → Eff Site unit → Prop) a (p : Eff Site unit) (s : Site) :
  starts a p → legalb mirror_allowedb a 0 (all_done 40) p s = true → run_time 0 (all_done 40) p s = 0 →
  rtc (pstep mirror_allowed mirror_compat starts) (0, [], s) (0, [], (run (all_done 40) p s).2).
Proof.
  intros Hs Hl E. rewrite <- E at 2. apply (run_reach mirror_allowed mirror_compat starts a); [done|]. eapply legalb_ok, Hl. apply mirror_allowedb_ok.
Qed.

Definition sample_home : rstr → list rstr := λ _, [lit "acme"].

Lemma sample_homes n : writable (sample_home n) ∧ head (sample_home n) ≠ Some (lit "_active").
Proof.
  split; [split; [simpl; lia|]|by vm_compute]. repeat constructor. refine (bool_decide_unpack _ _). by vm_compute.
Qed.

Lemma sample_good : good_handed sample_home sample_handed.
Proof.
  split; [split; [|split]|]; [|by vm_compute..]. repeat constructor; try done; refine (bool_decide_unpack _ _); by vm_compute.
Qed.

Lemma sample_on : trim_slashes sample_prefix ≠ [].
Proof. by vm_compute. Qed.

Lemma pinned_until_stored_witness : key_of sample_prefix [lit "acme"] (lit "x.arrow") ∈ stored swept_site.
Proof.
  destruct (pinned_until_stored sample_prefix sample_body (λ _ _, True) sample_home sample_on sample_homes 0 0 [] swept_site) as (_ & _ & _ & H).
  - etrans; [apply (all_done_reach _ AMirror (hand_over sample_prefix sample_body sample_handed))|
      apply (all_done_reach _ AChecked (checked_sweep sample_prefix true (λ _, 3%nat)))];
      [|by vm_compute|by vm_compute|constructor|by vm_compute|by vm_compute]. apply starts_seal, sample_good.
  - apply (H [([lit "acme"], lit "x.arrow")]); [|by left].
    assert (swept swept_site = [[([lit "acme"], lit "x.arrow")]]) as -> by by vm_compute. by left.
Defined.
