(* ===== verification/MirrorRecover.v ===== *)
(** Restoring a WAL root from its mirror (loglake-wal, [mirror.rs], and the
    [wal-recover] command): the plan made of a listing, the ledger's word on it,
    and its application to a volume.

    The listing is made page by page: a request answers with the keys there are
    in one interval at that moment, and [cuts] are the keys the pages end with.
    Keys are written in full: an operator rooted at [root] (a directory, with its
    slash) shows and takes them without it, and all that is done with a key, the
    prefix stripped, the order, the key of a sibling, is the same either way.
    [publish_file] is one statement here, which
    leaves the file whole under its name or nothing (WalDurable); directories are
    made with their parents.  The counts of the plan's groups are kept, the texts
    it prints are not. *)

From stdpp Require Import prelude gmap strings sorting relations.
From Stdlib Require Import ZArith Lia.
From S2P Require Import Prelude RustStr WalFrame WalLifecycle WalWriter Eff RelyGuarantee Catalog CatalogInv MirrorSync MirrorKeys.
From S2P Require Import MirrorUpload MirrorSafe.

(** * Data *)

Record PlanGroup := mkGroup { segments : Z; group_bytes : option Z; sample_key : rstr; group_present : Z }.

Record RecoveryCandidate := mkRecovery { cand_key : rstr; sealed_key : option rstr; target : RecoveryTarget }.

Record RecoveryPlan := mkPlan {
  groups : gmap (rstr * option rstr) PlanGroup;
  plan_skipped : Z; plan_sample : option rstr;
  plan_unreadable : list rstr;
  verdict : RootVerdict;
  plan_listed : list ListedSegment;
  candidates : list RecoveryCandidate;
  ledger : option LedgerVerdict;
}.

Record RecoveryRead := mkRead { read_key : rstr; read_body : bytes; read_partial : bool }.

(** [refused] and [attach_ledger] *)
Definition refused (p : RecoveryPlan) : bool :=
  match verdict p with RootContradicted _ _ _ => true | _ => false end ||
  match ledger p with Some l => refuses l | None => false end.

Definition attach_ledger (l : LedgerVerdict) (p : RecoveryPlan) : RecoveryPlan :=
  mkPlan (groups p) (plan_skipped p) (plan_sample p) (plan_unreadable p) (verdict p) (plan_listed p) (candidates p) (Some l).

(** [RecoveryPlan::segments] *)
Definition plan_segments (p : RecoveryPlan) : Z := foldr (λ g n, segments g.2 + n) 0 (map_to_list (groups p)).

(** * The listing *)

(** The locals of [plan_recovery]'s first loop. *)
Record Scan := mkScan {
  found : gmap rstr (rstr * Z * RecoveryTarget);
  scan_skipped : Z; scan_sample : option rstr;
  at_root : option rstr; one_deeper : option (rstr * rstr);
  scan_listed : list ListedSegment;
}.

Definition note_evidence (sc : Scan) (path suffix : rstr) : Scan :=
  match root_evidence suffix with
  | Some AtRoot => mkScan (found sc) (scan_skipped sc) (scan_sample sc) (Some (default path (at_root sc))) (one_deeper sc) (scan_listed sc)
  | Some (OneDeeper dir) =>
      mkScan (found sc) (scan_skipped sc) (scan_sample sc) (at_root sc) (Some (default (path, dir) (one_deeper sc))) (scan_listed sc)
  | None => sc
  end.

Definition note_listed (sc : Scan) (suffix : rstr) : Scan :=
  mkScan (found sc) (scan_skipped sc) (scan_sample sc) (at_root sc) (one_deeper sc)
    (scan_listed sc ++ option_list (listed_segment suffix)).

Definition note_target (sc : Scan) (path : rstr) (bytes : Z) (t : option RecoveryTarget) : Scan :=
  match t with
  | None => mkScan (found sc) (scan_skipped sc + 1) (Some (default path (scan_sample sc))) (at_root sc) (one_deeper sc) (scan_listed sc)
  | Some t =>
      match found sc !! stem t with
      | Some (_, _, existing) =>
          if negb (partial existing) then sc
          else mkScan (<[stem t := (path, bytes, t)]> (found sc)) (scan_skipped sc) (scan_sample sc) (at_root sc) (one_deeper sc) (scan_listed sc)
      | None => mkScan (<[stem t := (path, bytes, t)]> (found sc)) (scan_skipped sc) (scan_sample sc) (at_root sc) (one_deeper sc) (scan_listed sc)
      end
  end.

Definition scan_entry (listing_prefix : rstr) (sc : Scan) (entry : rstr * Z) : Scan :=
  match strip_prefix entry.1 listing_prefix with
  | None => sc
  | Some suffix => note_target (note_listed (note_evidence sc entry.1 suffix) suffix) entry.1 entry.2 (recovery_target suffix)
  end.

Definition scan_listing (listing_prefix : rstr) (l : list (rstr * Z)) : Scan :=
  foldl (scan_entry listing_prefix) (mkScan ∅ 0 None None None []) l.

Definition root_verdict (sc : Scan) : RootVerdict :=
  match one_deeper sc, at_root sc with
  | Some (evidence, directory), also => RootContradicted evidence directory also
  | None, Some evidence => RootConfirmed evidence
  | None, None => RootUnverified
  end.

Definition listing_prefix_of (prefix : rstr) : rstr :=
  match trim_slashes prefix with [] => [] | c :: p => (c :: p) ++ lit "/" end.

(** * The plan *)

Section Recover.
Context {batch : Type} `{!ArrowIpc batch} (num_rows : batch → Z).

Definition segment_rows (b : bytes) : option Z :=
  match read_segment_from_bytes b with
  | inl _ => None
  | inr bs => let rows := foldr (λ b n, num_rows b + n) 0 bs in if rows =? 0 then None else Some rows
  end.

Definition read_recovery_candidate (c : RecoveryCandidate) : Eff Site RecoveryRead :=
  let listed :=
    let* r := get (cand_key c) in
    match r with
    | None => Err
    | Some (Some b) => Ret (mkRead (cand_key c) b (partial (target c)))
    | Some None =>
        match sealed_key c with
        | None => Err
        | Some sealed =>
            let* r := get sealed in
            match r with Some (Some b) => Ret (mkRead sealed b false) | _ => Err end
        end
    end in
  match sealed_key c with
  | None => listed
  | Some sealed =>
      let* r := get sealed in
      match r with
      | None => Err
      | Some (Some b) => Ret (mkRead sealed b false)
      | Some None => listed
      end
  end.

(** [dest.exists()] and [is_dir()], which answer [false] when they fail. *)
Definition dest_exists (p : list rstr) : Eff Site bool :=
  let* r := catch (query Local (λ _ s, bool_decide (is_Some (restored s !! p)))) in Ret (default false r).
Definition dest_is_dir (p : list rstr) : Eff Site bool :=
  let* r := catch (query Local (λ _ s, bool_decide (p ∈ restored_dirs s))) in Ret (default false r).

Definition make_dir (p : list rstr) : Eff Site unit := stmt Local (λ _ s, (tt, set_restored_dirs ({[p]} ∪ restored_dirs s) s)).
Definition publish_file (p : list rstr) (b : bytes) : Eff Site unit :=
  stmt Local (λ _ s, (tt, set_restored (<[p := b]> (restored s)) s)).

(** The locals of the second loop: the groups, the work and the unreadable. *)
Record Proposal := mkProposal {
  p_groups : gmap (rstr * option rstr) PlanGroup; work : list RecoveryCandidate; p_unreadable : list rstr;
}.

Definition add_to_group (key : rstr) (bytes : Z) (present : bool) (t : RecoveryTarget) (gs : gmap (rstr * option rstr) PlanGroup) :
    gmap (rstr * option rstr) PlanGroup :=
  let g := default (mkGroup 0 None key 0) (gs !! (target_tenant t, target_index t)) in
  <[(target_tenant t, target_index t) :=
      mkGroup (segments g + 1) (if 0 <? bytes then Some (default 0 (group_bytes g) + bytes) else group_bytes g)
        (if lex_leb (sample_key g) key then sample_key g else key) (group_present g + Z.b2z present)]> gs.

Definition candidate_of (listing_prefix key : rstr) (t : RecoveryTarget) : RecoveryCandidate :=
  mkRecovery key
    (if partial t then Some (listing_prefix ++ sealed_form (default key (strip_prefix key listing_prefix))) else None) t.

Definition propose (listing_prefix : rstr) (check_bodies : bool) (acc : Proposal) (f : rstr * Z * RecoveryTarget) : Eff Site Proposal :=
  let '(key, bytes, t) := f in
  let c := candidate_of listing_prefix key t in
  let take :=
    let* present := dest_exists (rel t) in
    Ret (mkProposal (add_to_group key bytes present t (p_groups acc)) (work acc ++ [c]) (p_unreadable acc)) in
  let* present := if check_bodies then dest_exists (rel t) else Ret true in
  if present then take else
  let* selected := read_recovery_candidate c in
  match segment_rows (read_body selected) with
  | Some _ => take
  | None => Ret (mkProposal (p_groups acc) (work acc) (p_unreadable acc ++ [read_key selected]))
  end.

Definition by_key (a b : RecoveryCandidate) : Prop := lex_le (cand_key a) (cand_key b).

#[global] Instance by_key_dec : RelDecision by_key.
Proof. unfold RelDecision, by_key. intros x y. apply lex_le_dec. Defined.

(** [lister_with(..).recursive(true)]: one page after the other. *)
Definition in_page (listing_prefix : rstr) (start_after upto : option rstr) (k : rstr) : bool :=
  is_prefix_of listing_prefix k && beyond start_after k && match upto with Some last => lex_leb k last | None => true end.

Definition list_page (listing_prefix : rstr) (start_after upto : option rstr) : Eff Site (list (rstr * Z)) :=
  query Outside (λ _ s,
    map (λ e : rstr * bytes, (e.1, len e.2)) (filter (λ e, in_page listing_prefix start_after upto e.1 = true) (map_to_list (objects s)))).

Fixpoint list_mirror (listing_prefix : rstr) (start_after : option rstr) (cuts : list rstr) : Eff Site (list (rstr * Z)) :=
  match cuts with
  | [] => list_page listing_prefix start_after None
  | last :: cuts =>
      let* page := list_page listing_prefix start_after (Some last) in
      let* rest := list_mirror listing_prefix (Some last) cuts in
      Ret (page ++ rest)
  end.

Definition plan_recovery (root prefix : rstr) (cuts : list rstr) : Eff Site RecoveryPlan :=
  let listing_prefix := root ++ listing_prefix_of prefix in
  let* listing := list_mirror listing_prefix None cuts in
  let sc := scan_listing listing_prefix listing in
  let v := root_verdict sc in
  let check_bodies := match v with RootContradicted _ _ _ => false | _ => true end in
  let* p := each (propose listing_prefix check_bodies) (map_to_list (found sc)).*2 (mkProposal ∅ [] []) in
  Ret (mkPlan (p_groups p) (scan_skipped sc) (scan_sample sc) (merge_sort lex_le (p_unreadable p)) v (scan_listed sc)
         (merge_sort by_key (work p)) None).

(** * The application *)

Definition ensure_discovery_dir (t : RecoveryTarget) : Eff Site unit :=
  match discovery t with
  | None => Ret tt
  | Some d => let* there := dest_is_dir d in if there then Ret tt else make_dir d
  end.

Definition apply_candidate (sm : RecoverySummary) (c : RecoveryCandidate) : Eff Site RecoverySummary :=
  let t := target c in
  let* present := dest_exists (rel t) in
  if present then
    let* _ := ensure_discovery_dir t in
    Ret (mkSummary (pulled sm) (skipped sm) (already_present sm + 1) (unreadable sm) (sample_skipped_key sm) (sample_unreadable_key sm))
  else
    let* selected := read_recovery_candidate c in
    match segment_rows (read_body selected) with
    | None =>
        Ret (mkSummary (pulled sm) (skipped sm) (already_present sm) (unreadable sm + 1) (sample_skipped_key sm)
               (Some (default (read_key selected) (sample_unreadable_key sm))))
    | Some _ =>
        let* _ := ensure_discovery_dir t in
        let* _ := make_dir (removelast (rel t)) in
        let* _ := publish_file (rel t) (read_body selected) in
        Ret (mkSummary (pulled sm + 1) (skipped sm) (already_present sm) (unreadable sm) (sample_skipped_key sm) (sample_unreadable_key sm))
    end.

Definition apply_plan (p : RecoveryPlan) : Eff Site RecoverySummary :=
  if refused p then Err else
  let* _ := make_dir [] in
  each apply_candidate (candidates p)
    (mkSummary 0 (plan_skipped p) 0 (len (plan_unreadable p)) (plan_sample p) (head (plan_unreadable p))).

Definition recover_from_object_store (root prefix : rstr) (cuts : list rstr) : Eff Site RecoverySummary :=
  let* p := plan_recovery root prefix cuts in apply_plan p.

(** [attach_catalog_verdict]: [lookup] is what the ledger answers to the listed
    ids, its rows or that it could not be read. *)
Definition attach_catalog_verdict (lookup : list rstr → option (gmap rstr LedgerRow)) (p : RecoveryPlan) : RecoveryPlan :=
  match lookup (listed_id <$> plan_listed p) with
  | None => attach_ledger (Unavailable []) p
  | Some rows => attach_ledger (ledger_verdict (plan_listed p) rows) p
  end.

(** [wal-recover], whose store is rooted at [--from], the mirror.  [opened]:
    [--from] parses and opens; [to] is the last component of [--to]. *)
Definition run_wal_recover (root : rstr) (opened : bool) (to : option rstr) (apply : bool)
    (catalog : option (list rstr → option (gmap rstr LedgerRow))) (cuts : list rstr) : Eff Site (option RecoverySummary) :=
  if negb opened then Err else
  if bool_decide (to = Some SEALED_DIR) then Err else
  let* p := plan_recovery root [] cuts in
  let p := match catalog with Some lookup => attach_catalog_verdict lookup p | None => p end in
  match ledger p with
  | Some (Unavailable _) => Err
  | _ =>
      if (plan_segments p =? 0) && negb (bool_decide (plan_unreadable p = [])) && negb (refused p) then Err else
      if (plan_segments p =? 0) && (0 <? plan_skipped p) && bool_decide (plan_unreadable p = []) && negb (refused p) then Err else
      if negb apply then if refused p then Err else Ret None
      else
        let* sm := apply_plan p in
        if (pulled sm =? 0) && (already_present sm =? 0) && (0 <? unreadable sm) then Err else Ret (Some sm)
  end.

(** A restore with a record of what it began with. *)
Definition checked_restore (root prefix : rstr) (cuts : list rstr) : Eff Site unit :=
  let* begun := query Local (λ _ s, (objects s, restored s)) in
  let* r := catch (recover_from_object_store root prefix cuts) in
  stmt Local (λ _ s, (tt, set_restores (mkRestore begun.1 begun.2 (restored s) r :: restores s) s)).

(** The same of [wal-recover], where it reports a summary. *)
Definition checked_wal_recover (root : rstr) (opened : bool) (to : option rstr) (apply : bool)
    (catalog : option (list rstr → option (gmap rstr LedgerRow))) (cuts : list rstr) : Eff Site unit :=
  let* begun := query Local (λ _ s, (objects s, restored s)) in
  let* r := catch (run_wal_recover root opened to apply catalog cuts) in
  match r with
  | Some (Some sm) =>
      stmt Local (λ _ s, (tt, set_restores (mkRestore begun.1 begun.2 (restored s) (Some sm) :: restores s) s))
  | _ => Ret tt
  end.

(** * What may write *)

Lemma reads_get k : reads_only (get k).
Proof. apply reads_catch, reads_query. Qed.

Lemma reads_exists p : reads_only (dest_exists p).
Proof. apply reads_only_bind; [apply reads_catch, reads_query|done]. Qed.

Lemma reads_candidate c : reads_only (read_recovery_candidate c).
Proof.
  unfold read_recovery_candidate. destruct (sealed_key c);
    repeat (first [apply reads_only_bind; [apply reads_get|intros [[?|]|]] | done]).
Qed.

Lemma reads_propose lp check acc f : reads_only (propose lp check acc f).
Proof.
  destruct f as [[k b] t]. unfold propose. apply reads_only_bind; [destruct check; [apply reads_exists|done]|].
  intros [|]; [|apply reads_only_bind; [apply reads_candidate|intros rd; destruct (segment_rows _); [|done]]];
    (apply reads_only_bind; [apply reads_exists|done]).
Qed.

Lemma reads_listing lp after cuts : reads_only (list_mirror lp after cuts).
Proof.
  revert after. induction cuts as [|c cuts IH]; intros after; cbn [list_mirror]; [apply reads_query|].
  apply reads_only_bind; [apply reads_query|intros page]. by apply reads_only_bind.
Qed.

Lemma reads_plan root prefix cuts : reads_only (plan_recovery root prefix cuts).
Proof.
  unfold plan_recovery. apply reads_only_bind; [apply reads_listing|]. intros l.
  apply reads_only_bind; [apply reads_each, reads_propose|done].
Qed.

(** C19. What it takes for [wal-recover] to change anything: [--apply], a WAL root
    to write under, and a plan, made of the site as it still was, that the
    listing did not contradict and, if the catalog was asked, that the ledger
    answered and did not refuse.  Without [--apply], or with any of these
    missing, nothing is created or changed, whatever fails and wherever it
    stops. *)
Theorem wal_recover_guarded root opened to apply catalog cuts script s :
  (run script (run_wal_recover root opened to apply catalog cuts) s).2 ≠ s →
  apply = true ∧ to ≠ Some SEALED_DIR ∧
  ∃ pre post p, script = pre ++ post ∧ run pre (plan_recovery root [] cuts) s = (inr (Some p), s) ∧
    (∀ e d also, verdict p ≠ RootContradicted e d also) ∧
    (∀ lookup, catalog = Some lookup → ∃ rows, lookup (listed_id <$> plan_listed p) = Some rows ∧
       refuses (ledger_verdict (plan_listed p) rows) = false).
Proof.
  unfold run_wal_recover. destruct opened; cbn [negb]; [|by rewrite run_err]. case_bool_decide as Hto; [by rewrite run_err|].
  intros Hw. pose proof Hw as (pre & post & p & -> & Hp & E)%run_reads; [|apply reads_plan]. rewrite E in Hw. clear E.
  set (p' := match catalog with Some lookup => attach_catalog_verdict lookup p | None => p end) in *.
  assert (apply = true ∧ refused p' = false ∧ ∀ r, ledger p' ≠ Some (Unavailable r)) as (-> & Hr & Hu).
  { cbv zeta in Hw. unfold apply_plan in Hw.
    destruct (ledger p') as [[]|], apply, (refused p'); cbn [negb bind] in Hw; try done;
      repeat case_match; by rewrite ?run_err, ?run_ret in Hw. }
  split_and!; [done|done|]. exists pre, post, p. split_and!; [done|done| |].
  - intros e d also Ev. unfold refused in Hr. apply orb_false_iff in Hr as [Hv _].
    assert (verdict p' = verdict p) as Ep; [|by rewrite Ep, Ev in Hv].
    unfold p', attach_catalog_verdict. destruct catalog as [lookup|]; [|done]. by destruct (lookup _).
  - intros lookup ->. unfold p', attach_catalog_verdict in *. destruct (lookup _) as [rows|]; [|by destruct (Hu [])].
    exists rows. split; [done|]. by apply orb_false_iff in Hr as [_ ?].
Qed.
End Recover.

(** * Witness *)

#[local] Existing Instance sample_arrow.

Definition restored_body : rstr → bytes := λ _, ipc_schema (batch:=bool) ++ ipc_batch true ++ ipc_eos (batch:=bool).
Definition one_row : bool → Z := λ _, 1.

Definition rooted_site : Site := set_objects {[lit "acme/x.arrow" := restored_body []]} empty_site.
Definition sample_ledger : list rstr → option (gmap rstr LedgerRow) := λ _, Some ∅.

Lemma wal_recover_guarded_witness :
  ∃ pre post p, all_done 40 = pre ++ post ∧ run pre (plan_recovery one_row [] [] [lit "b"]) rooted_site = (inr (Some p), rooted_site).
Proof.
  destruct (wal_recover_guarded one_row [] true (Some (lit "wal")) true (Some sample_ledger) [lit "b"] (all_done 40) rooted_site)
    as (_ & _ & pre & post & p & ? & ? & _); [|by exists pre, post, p].
  intros E%(f_equal (λ s, restored s !! [lit "acme"; SEALED_DIR; lit "x.arrow"])). by vm_compute in E.
Defined.
