(* ===== verification/MirrorRestore.v ===== *)
(** Restoring among uploads, sweeps, cleanups and reclamation.

    A restore none of whose statements fails brings back every segment whose
    object was there when it began and was not reclaimed, from the sealed object
    where there was one; whatever fails, what it leaves on the volume is under
    the segment's own name, readable, and in a place the drain visits. *)

From stdpp Require Import prelude gmap strings sorting relations.
From Stdlib Require Import ZArith Lia.
From S2P Require Import Prelude RustStr WalFrame WalLifecycle WalWriter Eff RelyGuarantee Triples Catalog CatalogInv MirrorSync MirrorKeys.
From S2P Require Import MirrorUpload MirrorOwner MirrorSafe MirrorRecover.

Lemma lex_cmp_app a b c : lex_cmp (a ++ b) (a ++ c) = lex_cmp b c.
Proof. induction a as [|x a IH]; [done|]. simpl. by rewrite Z.compare_refl. Qed.

Section Restoring.
Context {batch : Type} `{!ArrowIpc batch} (num_rows : batch → Z).
Context (prefix : rstr) (body : rstr → bytes) (flushed : rstr → bytes → Prop) (home : rstr → list rstr).

Hypothesis mirrored_on : trim_slashes prefix ≠ [].
Hypothesis homes : ∀ n, writable (home n) ∧ head (home n) ≠ Some (lit "_active").

Abbreviation Key := (key_of prefix).
Abbreviation Good := (good_place home).
Abbreviation lp := (listing_prefix_of prefix).
Abbreviation Active := (λ l n k, active_partial_key prefix (suffix_of l n) = Some k).

(** An operator rooted at [root] and the prefix [rp] under it show the mirror:
    the uploader's own, or [wal-recover]'s, rooted in the mirror. *)
Definition sees (root rp : rstr) : Prop := root ++ listing_prefix_of rp = lp.

(** The root's own segments are restored as those of [default]. *)
Definition dest_lane (l : list rstr) : list rstr := match l with [] => [DEFAULT] | _ => l end.
Definition dest (l : list rstr) (n : rstr) : list rstr := sealed_path (dest_lane l) n.

Definition restore_target (l : list rstr) (i : rstr) (b : bool) : RecoveryTarget :=
  let file := i ++ lit ".arrow" in
  match l with
  | t :: ix :: _ => mkTarget t (Some ix) [t; ix; SEALED_DIR; file] (Some [t; SEALED_DIR]) i b
  | [t] => mkTarget t None [t; SEALED_DIR; file] None i b
  | [] => mkTarget DEFAULT None [DEFAULT; SEALED_DIR; file] None i b
  end.

(** * Keys and the scan *)

Lemma listing_prefix_is : lp = trim_slashes prefix ++ lit "/".
Proof. unfold listing_prefix_of. by destruct (trim_slashes prefix). Qed.

Lemma good_home l n : Good l n → (length l ≤ 2)%nat ∧ head (l ++ [n]) ≠ Some (lit "_active").
Proof.
  intros (Hc & (i & -> & Hi)%is_arrow_spec & <-). destruct (homes (i ++ lit ".arrow")) as [[? _] Hh]. split; [done|].
  destruct (home (i ++ lit ".arrow")); [|done]. simpl. intros [= E%(f_equal last)]. by rewrite last_app in E.
Qed.

Lemma good_stem l n : Good l n → ∃ i, n = i ++ lit ".arrow".
Proof. intros (_ & (i & -> & _)%is_arrow_spec & _). eauto. Qed.

Lemma place_restore b l f i : (length l ≤ 2)%nat → segment_stem f = Some i → place b l f = Some (restore_target l i b).
Proof. intros Hl Hf. unfold place. rewrite Hf. destruct l as [|t [|ix [|]]]; simpl in *; [done..|lia]. Qed.

Lemma restore_rel l i b : (length l ≤ 2)%nat → rel (restore_target l i b) = dest l (i ++ lit ".arrow").
Proof. intros Hl. destruct l as [|t [|ix [|]]]; simpl in *; [done..|lia]. Qed.

Lemma restore_stem l i b : stem (restore_target l i b) = i.
Proof. by destruct l as [|t [|ix l]]. Qed.

Lemma restore_partial l i b : partial (restore_target l i b) = b.
Proof. by destruct l as [|t [|ix l]]. Qed.

Lemma key_suffix l n : Good l n → strip_prefix (Key l n) lp = Some (join (l ++ [n])).
Proof. intros Hg. rewrite (good_key prefix home mirrored_on) by done. rewrite listing_prefix_is, app_assoc. apply strip_prefix_app. Qed.

Lemma active_suffix_of l n k : Good l n → Active l n k → k = lp ++ lit "_active/" ++ join (l ++ [n ++ lit ".partial"]).
Proof.
  intros Hg. destruct (good_stem l n Hg) as [i ->]. unfold active_partial_key. rewrite (good_suffix home) by done.
  assert (∀ e, join (l ++ [i ++ e]) = join (l ++ [i]) ++ e) as Hj.
  { intros e. destruct l as [|p l]; [done|]. rewrite !join_snoc by done. by rewrite <- app_assoc. }
  rewrite Hj, strip_suffix_app. cbn [mbind option_bind]. intros <-%(inj Some). unfold mirror_key.
  rewrite bool_decide_false, listing_prefix_is by done. rewrite <- !app_assoc. do 2 f_equal.
  change (trim_start_slashes (lit "_active/" ++ ?s)) with (lit "_active/" ++ s). f_equal.
  change (lit ".arrow.partial") with (lit ".arrow" ++ lit ".partial"). by rewrite <- Hj.
Qed.

Lemma partial_components l n : Good l n → Forall component (l ++ [n ++ lit ".partial"]).
Proof.
  intros ([Hl Hn%Forall_inv]%Forall_app & _). apply Forall_app. split; [done|]. constructor; [|constructor].
  destruct Hn as [? Hn]. split; [by intros [? ?]%app_eq_nil|]. rewrite elem_of_app. intros [?|Hin]; [done|].
  revert Hin. refine (bool_decide_unpack _ _). by vm_compute.
Qed.

Lemma target_of_key l i : Good l (i ++ lit ".arrow") → recovery_target (join (l ++ [i ++ lit ".arrow"])) = Some (restore_target l i false).
Proof.
  intros Hg. destruct (good_home _ _ Hg) as [Hl Hh]. rewrite recovery_target_key; [|apply Hg|done].
  apply place_restore; [done|apply segment_stem_sealed].
Qed.

Lemma target_of_active l i :
  Good l (i ++ lit ".arrow") →
  recovery_target (lit "_active/" ++ join (l ++ [(i ++ lit ".arrow") ++ lit ".partial"])) = Some (restore_target l i true).
Proof.
  intros Hg. destruct (good_home _ _ Hg) as [Hl _]. rewrite recovery_target_active by by apply partial_components.
  apply place_restore; [done|]. rewrite <- app_assoc. apply segment_stem_active.
Qed.

(** What the scan has of the keys [done]. *)
Definition classified (listed : list rstr) (i k : rstr) (t : RecoveryTarget) : Prop :=
  ∃ l, Good l (i ++ lit ".arrow") ∧
    ((k = Key l (i ++ lit ".arrow") ∧ t = restore_target l i false) ∨
     (Active l (i ++ lit ".arrow") k ∧ t = restore_target l i true ∧ Key l (i ++ lit ".arrow") ∉ listed)).

Record scanned (listed : list rstr) (sc : Scan) : Prop := {
  sc_deeper : one_deeper sc = None;
  sc_found i k b t : found sc !! i = Some (k, b, t) → k ∈ listed ∧ classified listed i k t;
  sc_sealed l i : Good l (i ++ lit ".arrow") → Key l (i ++ lit ".arrow") ∈ listed → is_Some (found sc !! i);
  sc_active l i k : Good l (i ++ lit ".arrow") → Active l (i ++ lit ".arrow") k → k ∈ listed → is_Some (found sc !! i);
}.

Abbreviation mirror_object := (held_key prefix home).

Lemma segment_held l n k : Good l n → k = Key l n ∨ Active l n k → mirror_object k.
Proof. intros Hg Hk. left. by exists l, n. Qed.

Lemma same_home l l' n : Good l n → Good l' n → l = l'.
Proof. intros (_ & _ & <-) (_ & _ & <-). done. Qed.

(** The effect of one recognised key. *)
Lemma note_target_found sc k b t :
  let sc' := note_target sc k b (Some t) in
  one_deeper sc' = one_deeper sc ∧
  ((∃ k' b' e, found sc !! stem t = Some (k', b', e) ∧ partial e = false ∧ found sc' = found sc) ∨
   ((∀ k' b' e, found sc !! stem t = Some (k', b', e) → partial e = true) ∧ found sc' = <[stem t := (k, b, t)]> (found sc))).
Proof.
  simpl. destruct (found sc !! stem t) as [[[k' b'] e]|] eqn:E; [destruct (partial e) eqn:Ep|]; simpl; split_and!; try done.
  - right. split; [|done]. by intros ??? [= <- <- <-].
  - left. by exists k', b', e.
  - right. by split; [intros|].
Qed.

Lemma key_inj l i l' i' : Good l (i ++ lit ".arrow") → Good l' (i' ++ lit ".arrow") → Key l (i ++ lit ".arrow") = Key l' (i' ++ lit ".arrow") → l = l' ∧ i = i'.
Proof. intros Hg Hg' E. apply (key_of_inj prefix home mirrored_on) in E as [-> E]; [|done..]. by apply app_inv_tail in E. Qed.

Lemma active_inj l i l' i' k :
  Good l (i ++ lit ".arrow") → Good l' (i' ++ lit ".arrow") → Active l (i ++ lit ".arrow") k → Active l' (i' ++ lit ".arrow") k → l = l' ∧ i = i'.
Proof.
  intros Hg Hg' Hk Hk'. destruct (active_key_inj prefix home mirrored_on _ _ _ _ _ Hg Hg' Hk Hk') as [-> E]. by apply app_inv_tail in E.
Qed.

Lemma key_not_active l n l' n' : Good l n → ¬ Active l' n' (Key l n).
Proof. intros Hg Ha. by apply (key_not_partial prefix home _ _ _ _ Hg Ha). Qed.

Lemma scanned_step listed sc k b l i pb :
  scanned listed sc → Good l (i ++ lit ".arrow") →
  (if pb : bool then Active l (i ++ lit ".arrow") k else k = Key l (i ++ lit ".arrow")) →
  scanned (listed ++ [k]) (note_target sc k b (Some (restore_target l i pb))).
Proof.
  intros [] Hg Hk. destruct (note_target_found sc k b (restore_target l i pb)) as (Hd & Hf). rewrite restore_stem in Hf.
  assert (∀ i' k' t, i' ≠ i → classified listed i' k' t → classified (listed ++ [k]) i' k' t) as Hother.
  { intros i' k' t Hne (l' & Hg' & [?|(Ha & Ht & Hn)]); exists l'; (split; [done|]); [by left|right]. split_and!; [done..|].
    rewrite elem_of_app, list_elem_of_singleton. intros [?| E]; [done|]. destruct pb.
    - subst k. by eapply key_not_active.
    - rewrite <- E in Hk. by apply key_inj in Hk as [_ ?]. }
  assert (∀ l' i', Good l' (i' ++ lit ".arrow") → Key l' (i' ++ lit ".arrow") ∈ listed ++ [k] → is_Some (found sc !! i') ∨ i' = i) as Hsl.
  { intros l' i' Hg' [?|E%list_elem_of_singleton]%elem_of_app; [left; eauto|right]. destruct pb.
    - subst k. by destruct (key_not_active l' (i' ++ lit ".arrow") l (i ++ lit ".arrow") Hg').
    - rewrite Hk in E. by apply key_inj in E as [_ ?]. }
  assert (∀ l' i' k', Good l' (i' ++ lit ".arrow") → Active l' (i' ++ lit ".arrow") k' → k' ∈ listed ++ [k] → is_Some (found sc !! i') ∨ i' = i) as Hac.
  { intros l' i' k' Hg' Ha [?| ->%list_elem_of_singleton]%elem_of_app; [left; eauto|right]. destruct pb.
    - by destruct (active_inj l' i' l i k).
    - subst k. by destruct (key_not_active l (i ++ lit ".arrow") l' (i' ++ lit ".arrow") Hg). }
  split; [by rewrite Hd| | |].
  - intros i' k' b' t' Hf'. destruct Hf as [(k0 & b0 & e & He & Hp & Ef)|[Hpart Ef]]; rewrite Ef in Hf'.
    + destruct (sc_found0 _ _ _ _ Hf') as [Hin Hc]. split; [set_solver|]. destruct (decide (i' = i)) as [->|Hne]; [|by apply Hother].
      rewrite Hf' in He. injection He as -> -> ->. destruct Hc as (l' & Hg' & [?|(_ & -> & _)]); [by exists l'; auto|].
      by rewrite restore_partial in Hp.
    + apply lookup_insert_Some in Hf' as [[<- [= <- <- <-]]|[Hne Hf']].
      * split; [set_solver|]. exists l. split; [done|]. destruct pb; [right|by left]. split_and!; [done..|].
        intros Hin. assert (Key l (i ++ lit ".arrow") ∈ listed) as Hin'.
        { apply elem_of_app in Hin as [?|E%list_elem_of_singleton]; [done|]. subst k. by destruct (key_not_active l (i ++ lit ".arrow") l (i ++ lit ".arrow") Hg). }
        destruct (sc_sealed0 l i Hg Hin') as [[[k0 b0] e] He]. specialize (Hpart _ _ _ He).
        destruct (sc_found0 _ _ _ _ He) as [_ (l' & Hg' & [[_ ->]|(_ & _ & Hn)])]; [by rewrite restore_partial in Hpart|].
        by rewrite (same_home l' l _ Hg' Hg) in Hn.
      * destruct (sc_found0 _ _ _ _ Hf') as [Hin Hc]. split; [set_solver|]. by apply Hother.
  - intros l' i' Hg' Hin. destruct (Hsl l' i' Hg' Hin) as [?| ->].
    + destruct Hf as [(? & ? & ? & ? & ? & Ef)|[_ Ef]]; rewrite Ef; [done|]. apply lookup_insert_is_Some'. by right.
    + destruct Hf as [(? & ? & ? & ? & ? & Ef)|[_ Ef]]; rewrite Ef; [by eexists|]. rewrite lookup_insert_eq. eauto.
  - intros l' i' k' Hg' Ha Hin. destruct (Hac l' i' k' Hg' Ha Hin) as [?| ->].
    + destruct Hf as [(? & ? & ? & ? & ? & Ef)|[_ Ef]]; rewrite Ef; [done|]. apply lookup_insert_is_Some'. by right.
    + destruct Hf as [(? & ? & ? & ? & ? & Ef)|[_ Ef]]; rewrite Ef; [by eexists|]. rewrite lookup_insert_eq. eauto.
Qed.

Lemma scanned_fields listed sc sc' :
  one_deeper sc' = one_deeper sc → found sc' = found sc → scanned listed sc → scanned listed sc'.
Proof. intros E1 E2 []. split; rewrite ?E1, ?E2; done. Qed.

(** An owner marker is evidence for the root and no segment. *)
Lemma owner_suffix t i : mirror_owner_key prefix t i = lp ++ join [t; i; OWNER_FILE].
Proof. rewrite listing_prefix_is. unfold mirror_owner_key. simpl. by rewrite <- !app_assoc. Qed.

Lemma owner_components t i : owned_prefix t i → Forall component [t; i; OWNER_FILE].
Proof.
  intros (? & ? & _). do 2 (constructor; [done|]). constructor; [|constructor]. split; [done|]. refine (bool_decide_unpack _ _). by vm_compute.
Qed.

Lemma scanned_owner listed sc t i b :
  scanned listed sc → owned_prefix t i → scanned (listed ++ [mirror_owner_key prefix t i]) (scan_entry lp sc (mirror_owner_key prefix t i, b)).
Proof.
  intros [] Ho. pose proof (owner_components t i Ho) as Hc. pose proof (owner_last prefix t i) as Hl.
  assert (∀ l n, Good l n → mirror_owner_key prefix t i ≠ Key l n) as Hk.
  { intros l n Hg%(key_last prefix home) E. rewrite <- E in Hg. congruence. }
  assert (∀ l n, ¬ Active l n (mirror_owner_key prefix t i)) as Ha by (intros l n Hn%partial_last; congruence).
  unfold scan_entry. cbn [fst snd]. rewrite owner_suffix at 2. rewrite strip_prefix_app.
  assert (recovery_target (join [t; i; OWNER_FILE]) = None) as ->.
  { etrans; [apply (recovery_target_key [t; i] OWNER_FILE Hc)|done]. destruct Ho as (_ & _ & Hne). by intros [= ?]. }
  assert (root_evidence (join [t; i; OWNER_FILE]) = Some AtRoot) as Ev.
  { unfold root_evidence. by rewrite trim_slashes_join, parts_of_join by done. }
  assert (∀ sc', one_deeper sc' = one_deeper sc → found sc' = found sc → scanned (listed ++ [mirror_owner_key prefix t i]) sc') as Hsame.
  { intros sc' E1 E2. split; rewrite ?E1, ?E2; [done|..].
    - intros i' k b' t' Hf. destruct (sc_found0 _ _ _ _ Hf) as [? (l & Hg & Hcl)]. split; [set_solver|]. exists l. split; [done|].
      destruct Hcl as [?|(? & ? & Hn)]; [by left|right]. split_and!; [done..|]. rewrite elem_of_app, list_elem_of_singleton.
      intros [?|E]; [done|]. by destruct (Hk l (i' ++ lit ".arrow") Hg).
    - intros l i' Hg [?|E%list_elem_of_singleton]%elem_of_app; [eauto|]. by destruct (Hk l (i' ++ lit ".arrow") Hg).
    - intros l i' k Hg Hac [?|E%list_elem_of_singleton]%elem_of_app; [eauto|]. subst k. by destruct (Ha l (i' ++ lit ".arrow")). }
  apply Hsame; unfold note_listed, note_evidence; rewrite Ev; done.
Qed.

Lemma scanned_entry listed sc k b : scanned listed sc → mirror_object k → scanned (listed ++ [k]) (scan_entry lp sc (k, b)).
Proof.
  intros Hsc [(l & n & Hg & Hk)|(t & i & Ho & ->)]; [|by apply scanned_owner].
  destruct (good_stem l n Hg) as [i ->]. unfold scan_entry. cbn [fst snd]. destruct Hk as [->|Ha].
  - rewrite key_suffix, target_of_key by done. apply (scanned_step _ _ _ _ l i false); [|done|done].
    eapply scanned_fields; [..|exact Hsc]; unfold note_listed, note_evidence;
      rewrite (evidence_key l (i ++ lit ".arrow") (proj1 Hg) i eq_refl); done.
  - assert (strip_prefix k lp = Some (lit "_active/" ++ join (l ++ [(i ++ lit ".arrow") ++ lit ".partial"]))) as ->.
    { rewrite (active_suffix_of _ _ _ Hg Ha). apply strip_prefix_app. }
    rewrite target_of_active by done.
    apply (scanned_step _ _ _ _ l i true); [|done|done]. eapply scanned_fields; [..|exact Hsc]; unfold note_listed, note_evidence;
      rewrite (evidence_active_key l ((i ++ lit ".arrow") ++ lit ".partial") (partial_components _ _ Hg) i) by (by rewrite <- app_assoc); done.
Qed.

Lemma scanned_listing L : Forall mirror_object L.*1 → scanned L.*1 (scan_listing lp L).
Proof.
  unfold scan_listing. induction L as [|[k b] L IH] using rev_ind; intros HL.
  { split; simpl; [done| |by intros l i _ ?%elem_of_nil|by intros l i k _ _ ?%elem_of_nil].
    intros i k b t. by rewrite lookup_empty. }
  rewrite fmap_app in *. apply Forall_app in HL as [HL Hk%Forall_inv]. rewrite foldl_app. simpl. by apply scanned_entry; [apply IH|].
Qed.

(** * Invariant *)

Abbreviation St := (Z * Site)%type (only parsing).
Abbreviation Inv := (site_inv prefix body flushed home).
Abbreviation Guar := (site_guar prefix home).

Definition readable (b : bytes) : Prop := is_Some (segment_rows num_rows b).

(** A restored file: a segment's own place, which the drain visits; the sealed
    bytes, or those of an active copy. *)
Definition restored_well (s : Site) (p : list rstr) (b : bytes) : Prop :=
  ∃ l n, Good l n ∧ p = dest l n ∧ readable b ∧ enumerated (restored_dirs s) (dest_lane l) ∧
    (b = body (Key l n) ∨ ∃ k, Active l n k ∧ flushed k b).

(** The volume [F0], restored from the objects [O], to [F]. *)
Definition brought_back (s : Site) (O : gmap rstr bytes) (F0 F : gmap (list rstr) bytes) : Prop :=
  (∀ l n, Good l n → is_Some (O !! Key l n) → readable (body (Key l n)) →
     Key l n ∈ reclaimed s ∨ ∃ b, F !! dest l n = Some b ∧ (F0 !! dest l n = None → b = body (Key l n))) ∧
  (∀ l n k, Good l n → Active l n k → lex_lt k (Key l n) → is_Some (O !! k) → readable (body (Key l n)) → (∀ b, flushed k b → readable b) →
     Key l n ∈ reclaimed s ∨ is_Some (F !! dest l n)).

Definition restore_ok (s : Site) (r : Restore) : Prop :=
  began_files r ⊆ ended_files r ∧
  match outcome r with
  | Some sm =>
      Z.of_nat (size (ended_files r)) = Z.of_nat (size (began_files r)) + pulled sm ∧
      brought_back s (began_objects r) (began_files r) (ended_files r)
  | None => ∃ l n, Good l n ∧ Key l n ∈ reclaimed s
  end.

Record restore_inv (s : Site) : Prop := {
  ri_files p b : restored s !! p = Some b → restored_well s p b;
  ri_records r : r ∈ restores s → restore_ok s r;
}.

Definition full_inv (x : St) : Prop := Inv x.2 ∧ restore_inv x.2.

Lemma restore_ok_mono s s' r : reclaimed s ⊆ reclaimed s' → restore_ok s r → restore_ok s' r.
Proof.
  intros Hr [? H]. split; [done|]. destruct (outcome r); [|destruct H as (l & n & ? & ?); exists l, n; set_solver].
  destruct H as (? & Hs & Ha). split; [done|]. split.
  - intros l n Hg Ho Hb. destruct (Hs l n Hg Ho Hb); [left; set_solver|by right].
  - intros l n k Hg Hk Hlt Ho Hb Hf. destruct (Ha l n k Hg Hk Hlt Ho Hb Hf); [left; set_solver|by right].
Qed.

Lemma restore_inv_untouched s s' : Guar s s' → untouched s s' → restore_inv s → restore_inv s'.
Proof.
  intros [] (E1 & E2 & E3) []. split.
  - rewrite E1. intros p b Hb. destruct (ri_files0 p b Hb) as (l & n & ? & ? & ? & ? & ?). exists l, n. by rewrite E2.
  - rewrite E3. intros r Hr. by eapply restore_ok_mono; [|apply ri_records0].
Qed.

(** The other processes keep it. *)
Lemma other_safe a (p : Eff Site unit) x :
  starts prefix body flushed home a p → full_inv x → safe full_inv mirror_allowed mirror_compat (mirror_guar prefix home) a p (λ _ _, True) x.
Proof.
  intros Hs Hi. assert (restoring a = false) as Ha by by destruct Hs.
  apply (safe_extend (mirror_inv prefix body flushed home)); [by intros y [? _]| |].
  - intros y z [_ Hy] Hz [Hg Hu]. split; [done|]. by eapply restore_inv_untouched; [|apply Hu|].
  - by apply (starts_safe prefix body flushed home mirrored_on homes); [|apply Hi].
Qed.

(** * Triples *)

#[local] Instance restore_preorder : PreOrder Guar.
Proof. split; [intros s; apply guar_refl|intros s s' s'' ? ?; by eapply guar_trans]. Qed.

Definition others_do (s s' : Site) : Prop := Guar s s' ∧ untouched s s'.
Abbreviation stable := (stable_under others_do).

Lemma rely_untouched c x y : rely full_inv mirror_compat (mirror_guar prefix home) (ARestore c) x y → others_do x.2 y.2.
Proof.
  induction 1 as [|x y z (_ & _ & _ & b & Hb & Hg & Hu) _ [Hg' Hu']]; [split; [apply guar_refl|done]|].
  split; [by eapply guar_trans|]. eapply untouched_trans; [by apply Hu; destruct b|done].
Qed.

Section Checked.
(** [checked]: no statement fails. *)
Context (checked : bool).

Abbreviation rtriple := (triple full_inv mirror_allowed mirror_compat (mirror_guar prefix home) Guar (ARestore checked)).

Lemma rtriple_stmt l {B : Set} (f : Z → Site → B * Site) P (Φ : option B → Site → Prop) :
  stable P →
  (∀ now s, Inv s → restore_inv s → P s →
     (Inv (f now s).2 ∧ restore_inv (f now s).2 ∧ Guar s (f now s).2) ∧ Φ (Some (f now s).1) (f now s).2 ∧
     (checked = false → Φ None (f now s).2 ∧ Φ None s)) →
  rtriple P (stmt l f) Φ.
Proof.
  intros HP H. apply (hoare_step _ others_do); [apply rely_untouched|by intros ?? [? _]|done|]. intros y now o [Hi Hri] Ho Hs.
  destruct (H now y.2 Hi Hri Hs) as ((Hi' & Hri' & Hg) & Hd & Hn).
  assert (o ≠ Done → checked = false) as Hf.
  { intros Hne. destruct checked; [|done]. by destruct Hne; apply Ho; right. }
  destruct o; (split; [done|]); split; [split; [done|done]| |split; [done|done]| |split; [reflexivity|done]|];
    (split; [done || reflexivity|]); [done|by apply Hn, Hf..].
Qed.

Lemma rtriple_query l {B : Set} (f : Z → Site → B) P (Φ : option B → Site → Prop) :
  stable P → (∀ now s, Inv s → restore_inv s → P s → Φ (Some (f now s)) s ∧ (checked = false → Φ None s)) →
  rtriple P (query l f) Φ.
Proof.
  intros HP H. apply rtriple_stmt; [done|]. intros now s Hi Hri Hs. destruct (H now s Hi Hri Hs) as [? Hn]. simpl.
  split_and!; [done|done|reflexivity|done|]. auto.
Qed.

Lemma kept_stable P : stable_under Guar P → stable P.
Proof. intros HP s s' [? _]. by apply HP. Qed.

Lemma kept_stored k : stable_under Guar (λ s, k ∈ stored s).
Proof. intros s s' [Hs _ _ _ _]. apply Hs. Qed.

Definition active_or_stored (l : list rstr) (n k : rstr) (s : Site) : Prop := is_Some (objects s !! k) ∨ Key l n ∈ stored s.

Lemma kept_active l n k : Good l n → Active l n k → stable_under Guar (active_or_stored l n k).
Proof. intros Hg Hk s s' [] [?|?]; [by eapply sg_partials|right; set_solver]. Qed.

(** * Reading a candidate *)

Lemma rtriple_get P k :
  stable P → rtriple P (get k) (yields (λ r s, P s ∧ Inv s ∧ (r = None → checked = false) ∧ (∀ b, r = Some b → objects s !! k = b))).
Proof.
  intros HP. apply hoare_caught, rtriple_query; [done|]. intros now s Hi _ Hs. split; [|done].
  split_and!; [done..|]. by intros b [= <-].
Qed.

(** A candidate of the segment [i] of lane [l]: sealed, or active. *)
Record candidate_ok (l : list rstr) (i : rstr) (pb : bool) (c : RecoveryCandidate) : Prop := {
  co_good : Good l (i ++ lit ".arrow");
  co_target : target c = restore_target l i pb;
  co_key : if pb then Active l (i ++ lit ".arrow") (cand_key c) else cand_key c = Key l (i ++ lit ".arrow");
  co_sealed : sealed_key c = if pb then Some (Key l (i ++ lit ".arrow")) else None;
}.

Definition known (l : list rstr) (i : rstr) (pb : bool) (k : rstr) (s : Site) : Prop :=
  if pb then active_or_stored l (i ++ lit ".arrow") k s else Key l (i ++ lit ".arrow") ∈ stored s.

Lemma kept_candidate l i pb c : candidate_ok l i pb c → stable_under Guar (known l i pb (cand_key c)).
Proof. intros []. destruct pb; [by apply kept_active|apply kept_stored]. Qed.

(** What a read of it gives. *)
Definition read_ok (l : list rstr) (i : rstr) (pb : bool) (c : RecoveryCandidate) (r : option RecoveryRead) (s : Site) : Prop :=
  match r with
  | Some rd => read_body rd = body (Key l (i ++ lit ".arrow")) ∨ pb = true ∧ flushed (cand_key c) (read_body rd)
  | None => checked = true → Key l (i ++ lit ".arrow") ∈ reclaimed s
  end.

Lemma gone_reclaimed s l n : Inv s → Good l n → Key l n ∈ stored s → objects s !! Key l n = None → Key l n ∈ reclaimed s.
Proof. intros Hi Hg Hs Hn. destruct (si_persist _ _ _ _ _ Hi _ _ Hg Hs) as [[b Hb]|?]; [congruence|done]. Qed.

(** The read of the key that was listed, and of the sealed one again. *)
Lemma rtriple_read R c l i pb :
  stable R → candidate_ok l i pb c →
  rtriple (λ s, R s ∧ known l i pb (cand_key c) s) (read_recovery_candidate c) (λ r s, R s ∧ read_ok l i pb c r s).
Proof.
  intros HR Hc. pose proof Hc as [Hg Ht Hk Hsk]. set (n := i ++ lit ".arrow") in *.
  assert (stable (λ s, R s ∧ known l i pb (cand_key c) s)) as HRk by (apply stable_and; [done|by apply kept_stable, kept_candidate]).
  assert (stable (λ s, R s ∧ Key l n ∈ stored s)) as HRs by (apply stable_and; [done|apply kept_stable, kept_stored]).
  assert (∀ s b, Inv s → objects s !! Key l n = Some b → b = body (Key l n)) as Hsealed by (intros; by eapply si_objects).
  assert (∀ s, R s → (checked = true → Key l n ∈ reclaimed s) → R s ∧ read_ok l i pb c None s) as Herr by auto.
  assert (∀ s rd, R s → R s ∧ read_ok l i pb c (Some (mkRead rd (body (Key l n)) false)) s) as Hret by (intros; split; [done|by left]).
  unfold read_recovery_candidate. rewrite Hsk. destruct pb; simpl in Hk.
  - eapply hoare_then; [by apply rtriple_get|]. intros [[b|]|].
    + apply hoare_ret. intros s ([? _] & Hi & _ & Hb). rewrite (Hsealed s b Hi) by by apply Hb. by apply Hret.
    + apply (hoare_mono _ _ (λ s, R s ∧ known l i true (cand_key c) s) _ (λ r s, R s ∧ read_ok l i true c r s)); [by intros s (Hs & _)|done|].
      eapply hoare_then; [by apply rtriple_get|]. intros [[b|]|].
      * apply hoare_ret. intros s ([? _] & Hi & _ & Hb). split; [done|right]. split; [done|]. simpl. eapply si_partials; [done..|by apply Hb].
      * apply (hoare_mono _ _ (λ s, R s ∧ Key l n ∈ stored s) _ (λ r s, R s ∧ read_ok l i true c r s)); [|done|].
        { intros s ([? [[b Hb]|?]] & _ & _ & Hnone); [|done]. rewrite (Hnone _ eq_refl) in Hb. done. }
        eapply hoare_then; [by apply rtriple_get|]. intros [[b|]|].
        -- apply hoare_ret. intros s ([? _] & Hi & _ & Hb). rewrite (Hsealed s b Hi) by by apply Hb. by apply Hret.
        -- apply hoare_err. intros s ([? ?] & Hi & _ & Hb). apply Herr; [done|]. intros _. by apply gone_reclaimed; [..|apply Hb].
        -- apply hoare_err. intros s ([? _] & _ & Hn & _). apply Herr; [done|]. intros Ec. rewrite Hn in Ec; done.
      * apply hoare_err. intros s ([? _] & _ & Hn & _). apply Herr; [done|]. intros Ec. rewrite Hn in Ec; done.
    + apply hoare_err. intros s ([? _] & _ & Hn & _). apply Herr; [done|]. intros Ec. rewrite Hn in Ec; done.
  - rewrite Hk in *. eapply hoare_then; [by apply rtriple_get|]. intros [[b|]|].
    + apply hoare_ret. intros s ([? _] & Hi & _ & Hb). split; [done|left]. by eapply Hsealed, Hb.
    + apply hoare_err. intros s ([? ?] & Hi & _ & Hb). apply Herr; [done|]. intros _. by apply gone_reclaimed; [..|apply Hb].
    + apply hoare_err. intros s ([? _] & _ & Hn & _). apply Herr; [done|]. intros Ec. rewrite Hn in Ec; done.
Qed.

(** * The plan *)

Lemma rtriple_exists P p :
  stable P →
  rtriple P (dest_exists p)
    (yields (λ e s, P s ∧ (e = true → is_Some (restored s !! p)) ∧ (checked = true → e = false → restored s !! p = None))).
Proof.
  intros HP. eapply hoare_then.
  - apply hoare_caught, (rtriple_query _ _ _ (λ r s, P s ∧ (∀ e, r = Some e → e = bool_decide (is_Some (restored s !! p))) ∧ (r = None → checked = false)));
      [done|]. intros now s _ _ Hs. split; [|done]. split_and!; [done| |done]. by intros e [= <-].
  - intros r. apply hoare_ret. intros s (Hs & He & Hn). split_and!; [done| |].
    + destruct r as [e|]; [|done]. rewrite (He _ eq_refl). apply bool_decide_eq_true.
    + intros Ec. destruct r as [e|]; simpl; [|by rewrite Hn in Ec]. rewrite (He _ eq_refl). intros Hb%bool_decide_eq_false.
      by apply eq_None_not_Some.
Qed.

(** An entry of the scan, for a segment. *)
Record item_ok (l : list rstr) (i : rstr) (pb : bool) (f : rstr * Z * RecoveryTarget) : Prop := {
  io_good : Good l (i ++ lit ".arrow");
  io_target : f.2 = restore_target l i pb;
  io_key : if pb then Active l (i ++ lit ".arrow") f.1.1 else f.1.1 = Key l (i ++ lit ".arrow");
}.

Abbreviation cand := (λ f : rstr * Z * RecoveryTarget, candidate_of lp f.1.1 f.2).

Lemma candidate_of_ok l i pb f : item_ok l i pb f → candidate_ok l i pb (cand f).
Proof.
  intros []. split; [done|done|done|]. unfold candidate_of. simpl. rewrite io_target0, restore_partial. destruct pb; [|done].
  rewrite (active_suffix_of _ _ _ io_good0 io_key0), strip_prefix_app. cbn [from_option Datatypes.id].
  rewrite (sealed_form_partial l _ (partial_components _ _ io_good0) (i ++ lit ".arrow")) by done.
  by rewrite (good_key prefix home mirrored_on _ _ io_good0), listing_prefix_is, <- app_assoc.
Qed.

(** A segment any read of which decodes. *)
Definition sound_body (l : list rstr) (i : rstr) (pb : bool) (k : rstr) : Prop :=
  readable (body (Key l (i ++ lit ".arrow"))) ∧ (pb = true → ∀ b, flushed k b → readable b).

Lemma sound_read l i pb c rd s : sound_body l i pb (cand_key c) → read_ok l i pb c (Some rd) s → readable (read_body rd).
Proof. intros [Hb Hf] [->|[-> ?]]; [done|]. by apply Hf. Qed.

Record planned (items : list (rstr * Z * RecoveryTarget)) (acc : Proposal) (rest : list (rstr * Z * RecoveryTarget)) (s : Site) : Prop := {
  pl_rest f : f ∈ rest → ∃ l i pb, item_ok l i pb f ∧ known l i pb f.1.1 s;
  pl_work c : c ∈ work acc → ∃ l i pb, candidate_ok l i pb c ∧ known l i pb (cand_key c) s;
  pl_once : NoDup (((λ c, stem (target c)) <$> work acc) ++ ((λ f, stem f.2) <$> rest));
  pl_items f : f ∈ items → f ∈ rest ∨ ∀ l i pb, item_ok l i pb f → sound_body l i pb f.1.1 → cand f ∈ work acc;
}.

Lemma stable_planned items acc rest : stable (planned items acc rest).
Proof.
  apply kept_stable. intros s s' Ho []. split; [| |done|done].
  - intros f Hf. destruct (pl_rest0 f Hf) as (l & i & pb & Hok & Hk). exists l, i, pb. split; [done|].
    exact (kept_candidate _ _ _ _ (candidate_of_ok _ _ _ _ Hok) s s' Ho Hk).
  - intros c Hc. destruct (pl_work0 c Hc) as (l & i & pb & Hok & Hk). exists l, i, pb. split; [done|].
    by eapply kept_candidate.
Qed.

Lemma planned_take items acc f rest s gs :
  planned items acc (f :: rest) s → planned items (mkProposal gs (work acc ++ [cand f]) (p_unreadable acc)) rest s.
Proof.
  intros []. split; simpl.
  - intros f' ?. apply pl_rest0. by right.
  - intros c [?| ->%list_elem_of_singleton]%elem_of_app; [by apply pl_work0|].
    destruct (pl_rest0 f) as (l & i & pb & Hok & Hk); [by left|]. exists l, i, pb. split; [by apply candidate_of_ok|done].
  - rewrite fmap_app, <- app_assoc. exact pl_once0.
  - intros f' Hf'. destruct (pl_items0 f' Hf') as [[->|?]%elem_of_cons|Hw]; [right|by left|right].
    + intros l i pb _ _. set_solver.
    + intros l i pb Hok Hs. specialize (Hw l i pb Hok Hs). set_solver.
Qed.

Lemma planned_drop items acc f rest s u :
  planned items acc (f :: rest) s → (∀ l i pb, item_ok l i pb f → ¬ sound_body l i pb f.1.1) →
  planned items (mkProposal (p_groups acc) (work acc) u) rest s.
Proof.
  intros [] Hno. split; simpl.
  - intros f' ?. apply pl_rest0. by right.
  - done.
  - eapply sublist_NoDup; [exact pl_once0|]. apply sublist_app; [done|]. by constructor.
  - intros f' Hf'. destruct (pl_items0 f' Hf') as [[->|?]%elem_of_cons|Hw]; [right|by left|by right].
    intros l i pb Hok Hs. by destruct (Hno l i pb Hok).
Qed.

Definition some_reclaimed (s : Site) : Prop := ∃ l n, Good l n ∧ Key l n ∈ reclaimed s.

Lemma item_unique l i pb l' i' pb' f : item_ok l i pb f → item_ok l' i' pb' f → l = l' ∧ i = i' ∧ pb = pb'.
Proof.
  intros [Hg Ht _] [Hg' Ht' _]. rewrite Ht in Ht'. pose proof (f_equal stem Ht') as Hi. pose proof (f_equal partial Ht') as Hp.
  rewrite !restore_stem in Hi. rewrite !restore_partial in Hp. subst. split_and!; [|done..]. by eapply same_home.
Qed.

Lemma rtriple_propose R items acc f rest check :
  stable R →
  rtriple (λ s, R s ∧ planned items acc (f :: rest) s) (propose num_rows lp check acc f)
    (λ r s, match r with Some acc => R s ∧ planned items acc rest s | None => R s ∧ (checked = true → some_reclaimed s) end).
Proof.
  intros HR. destruct f as [[k b] t]. unfold propose. set (f := (k, b, t)).
  assert (stable (λ s, R s ∧ planned items acc (f :: rest) s)) as HRP by (apply stable_and; [done|apply stable_planned]).
  assert (rtriple (λ s, R s ∧ planned items acc (f :: rest) s)
    (let* present := dest_exists (rel t) in
     Ret (mkProposal (add_to_group k b present t (p_groups acc)) (work acc ++ [candidate_of lp k t]) (p_unreadable acc)))
    (λ r s, match r with Some acc => R s ∧ planned items acc rest s | None => R s ∧ (checked = true → some_reclaimed s) end)) as Htake.
  { eapply hoare_then; [by apply rtriple_exists|]. intros present. apply hoare_ret. intros s ([? Hp] & _). split; [done|].
    by apply (planned_take _ _ f). }
  apply (hoare_then _ _ _ _ (λ _ s, R s ∧ planned items acc (f :: rest) s)).
  { destruct check; [|by apply hoare_ret]. eapply hoare_mono; [| |by apply rtriple_exists]; [done|].
    intros [e|] s; [|done]. by intros [? _]. }
  intros [|]; [done|].
  apply (hoare_extract _ (∃ l i pb, item_ok l i pb f)).
  { intros s [_ []]. destruct (pl_rest0 f) as (l & i & pb & ? & _); [by left|]. eauto. }
  intros (l & i & pb & Hok). pose proof (candidate_of_ok _ _ _ _ Hok) as Hc.
  eapply (hoare_bind _ _ _ _ (λ r s, (R s ∧ planned items acc (f :: rest) s) ∧ read_ok l i pb (cand f) r s)).
  - eapply hoare_mono; [| |by apply (rtriple_read (λ s, R s ∧ planned items acc (f :: rest) s))]; [|done].
    intros s [? Hp]. split; [done|]. destruct (pl_rest _ _ _ _ Hp f) as (l' & i' & pb' & Hok' & Hk); [by left|].
    by destruct (item_unique _ _ _ _ _ _ _ Hok Hok') as (<- & <- & <-).
  - intros rd. destruct (segment_rows num_rows (read_body rd)) eqn:Er; [eapply hoare_mono; [| |exact Htake]; [by intros s [? _]|done]|].
    apply hoare_ret. intros s ([? Hp] & Hread). split; [done|]. eapply planned_drop; [done|]. intros l' i' pb' Hok' Hs.
    destruct (item_unique _ _ _ _ _ _ _ Hok Hok') as (<- & <- & <-). destruct (sound_read l i pb (cand f) rd s Hs Hread). congruence.
  - intros s ([? _] & Hread). split; [done|]. intros Ec. exists l, (i ++ lit ".arrow"). split; [apply Hok|by apply Hread].
Qed.

(** ** From the objects a restore began with *)

Section Begun.
Context (O : gmap rstr bytes) (F0 : gmap (list rstr) bytes).

Definition begun_with (s : Site) : Prop :=
  (∀ l n, Good l n → is_Some (O !! Key l n) → Key l n ∈ stored s) ∧
  (∀ l n k, Good l n → Active l n k → is_Some (O !! k) → active_or_stored l n k s) ∧ restored s = F0.

Lemma stable_begun_with : stable begun_with.
Proof.
  intros s s' [Ho (Er & _)] (Hs & Ha & Hr). split_and!; [| |by rewrite Er].
  - intros l n Hg Hl. by apply (kept_stored _ s), Hs.
  - intros l n k Hg Hk Hl. by apply (kept_active l n k Hg Hk s), Ha.
Qed.

(** Each of them is in the list, unless it was reclaimed. *)
Definition all_listed (items : list (rstr * Z * RecoveryTarget)) (s : Site) : Prop :=
  (∀ l i, Good l (i ++ lit ".arrow") → is_Some (O !! Key l (i ++ lit ".arrow")) →
     Key l (i ++ lit ".arrow") ∈ reclaimed s ∨ ∃ f, f ∈ items ∧ item_ok l i false f) ∧
  (∀ l i k, Good l (i ++ lit ".arrow") → Active l (i ++ lit ".arrow") k → lex_lt k (Key l (i ++ lit ".arrow")) → is_Some (O !! k) →
     Key l (i ++ lit ".arrow") ∈ reclaimed s ∨ ∃ f pb, f ∈ items ∧ item_ok l i pb f ∧ (pb = true → f.1.1 = k)).

Lemma stable_listed items : stable (all_listed items).
Proof.
  intros s s' [[] _] [Hs Ha]. split.
  - intros l i Hg Ho. destruct (Hs l i Hg Ho); [left; set_solver|by right].
  - intros l i k Hg Hk Hlt Ho. destruct (Ha l i k Hg Hk Hlt Ho); [left; set_solver|by right].
Qed.

(** The pages so far; what [pend] holds of is to come. *)
Record listed_so_far (pend : rstr → Prop) (L : list (rstr * Z)) (s : Site) : Prop := {
  lf_known k : k ∈ L.*1 → mirror_object k ∧ (∀ l n, Good l n → k = Key l n → k ∈ stored s) ∧
    ∀ l n, Good l n → Active l n k → active_or_stored l n k s;
  lf_sealed l n : Good l n → is_Some (O !! Key l n) → Key l n ∈ reclaimed s ∨ Key l n ∈ L.*1 ∨ pend (Key l n);
  lf_active l n k : Good l n → Active l n k → lex_lt k (Key l n) → is_Some (O !! k) →
    Key l n ∈ reclaimed s ∨ k ∈ L.*1 ∨ Key l n ∈ L.*1 ∨ pend k ∨ (Key l n ∈ stored s ∧ pend (Key l n));
}.

Lemma stable_so_far pend L : stable (listed_so_far pend L).
Proof.
  intros s s' [Hg _] [Hk Hs Ha]. pose proof Hg as [Hst _ _ Hre _]. split.
  - intros k Hin. destruct (Hk k Hin) as (? & Hsk & Hak). split_and!; [done|by intros; eapply Hst, Hsk|]. intros l n Hgo Hac.
    by apply (kept_active l n k Hgo Hac s), Hak.
  - intros l n Hgo Ho. destruct (Hs l n Hgo Ho) as [?|?]; [left; by apply Hre|by right].
  - intros l n k Hgo Hac Hlt Ho. destruct (Ha l n k Hgo Hac Hlt Ho) as [?|[?|[?|[?|[? ?]]]]]; auto 7.
Qed.

Abbreviation page s P := (map (λ e : rstr * bytes, (e.1, len e.2)) (filter (λ e, P e.1 = true) (map_to_list (objects s)))).

Lemma page_keys s (P : rstr → bool) k : k ∈ (page s P).*1 ↔ P k = true ∧ is_Some (objects s !! k).
Proof.
  rewrite list_elem_of_fmap. split.
  - intros ([k' n] & -> & ([k2 b] & [= -> ->] & [? Hb%elem_of_map_to_list]%list_elem_of_filter)%list_elem_of_fmap). simpl. eauto.
  - intros [Hp [b Hb]]. exists (k, len b). split; [done|]. apply list_elem_of_fmap. exists (k, b). split; [done|].
    apply list_elem_of_filter. split; [done|]. by apply elem_of_map_to_list.
Qed.

Lemma mirror_object_prefix k : mirror_object k → is_prefix_of lp k = true.
Proof.
  intros [(l & n & Hg & [->|Ha])|(t & i & _ & ->)]; apply is_prefix_of_spec.
  - rewrite (good_key prefix home mirrored_on _ _ Hg), listing_prefix_is, app_assoc. eauto.
  - rewrite (active_suffix_of _ _ _ Hg Ha). eauto.
  - rewrite owner_suffix. eauto.
Qed.

(** One more page.  Keys are listed in order, so that a sealed key is listed
    after an active one that sorts before it. *)
Lemma so_far_page (pend pend' : rstr → Prop) (P : rstr → bool) acc s :
  Inv s → begun_with s → listed_so_far pend acc s →
  (∀ k, mirror_object k → pend k → P k = true ∨ pend' k) → (∀ k k', lex_lt k k' → pend k → pend k') →
  listed_so_far pend' (acc ++ page s P) s.
Proof.
  intros Hi (Hbs & Hba & _) [Hk Hs Ha] Hpage Hup.
  assert (∀ l n, Good l n → Key l n ∈ stored s → pend (Key l n) →
    Key l n ∈ reclaimed s ∨ Key l n ∈ (acc ++ page s P).*1 ∨ pend' (Key l n)) as Hsealed.
  { intros l n Hg Hst Hp. destruct (si_persist _ _ _ _ _ Hi _ _ Hg Hst) as [Ho|?]; [|by left].
    destruct (Hpage (Key l n)) as [?|?]; [by apply (segment_held l n); auto|done| |by auto]. right; left. rewrite fmap_app, elem_of_app, page_keys. auto. }
  split.
  - intros k. rewrite fmap_app, elem_of_app, page_keys. intros [?|[_ Ho]]; [by apply Hk|].
    split_and!; [by apply (si_keys _ _ _ _ _ Hi)|by intros; apply (si_stored _ _ _ _ _ Hi)|by left].
  - intros l n Hg Ho. destruct (Hs l n Hg Ho) as [?|[?|?]]; [by left|right; left; set_solver|]. by apply Hsealed; [|apply Hbs|].
  - intros l n k Hg Hac Hlt Ho. destruct (Ha l n k Hg Hac Hlt Ho) as [?|[?|[?|[Hp|[Hst Hp]]]]]; [by left|right; left; set_solver|right; right; left; set_solver| |].
    + destruct (Hpage k) as [Hin|?]; [by apply (segment_held l n); auto|done| |by auto 6]. destruct (Hba l n k Hg Hac Ho) as [Hk'|Hst].
      * right; left. rewrite fmap_app, elem_of_app, page_keys. auto.
      * destruct (Hsealed l n Hg Hst) as [?|[?|?]]; [by eapply Hup|auto 7..].
    + destruct (Hsealed l n Hg Hst Hp) as [?|[?|?]]; auto 7.
Qed.

Lemma beyond_up after k k' : lex_lt k k' → beyond after k = true → beyond after k' = true.
Proof.
  unfold beyond. destruct after as [a|]; [|done]. intros Hlt Hk%negb_true_iff%lex_leb_false. apply negb_true_iff, lex_leb_false. by etransitivity.
Qed.

Lemma rtriple_page acc after upto (pend' : rstr → Prop) :
  (∀ k, beyond after k = true → match upto with Some h => lex_leb k h = true | None => True end ∨ pend' k) →
  rtriple (λ s, begun_with s ∧ listed_so_far (λ k, beyond after k = true) acc s) (list_page lp after upto)
    (λ r s, begun_with s ∧ match r with Some L => listed_so_far pend' (acc ++ L) s | None => checked = false end).
Proof.
  intros Hp. apply rtriple_query; [apply stable_and; [apply stable_begun_with|apply stable_so_far]|].
  intros now s Hi _ [Hb Hl]. split; [|done]. split; [done|]. eapply so_far_page; [done|done|exact Hl| |intros; by eapply beyond_up].
  intros k Hk Hpe. destruct (Hp k Hpe) as [?|?]; [left|by right]. unfold in_page. rewrite mirror_object_prefix, Hpe by done. by destruct upto.
Qed.

Lemma rtriple_listing cuts acc after :
  rtriple (λ s, begun_with s ∧ listed_so_far (λ k, beyond after k = true) acc s) (list_mirror lp after cuts)
    (λ r s, begun_with s ∧ match r with Some L => listed_so_far (λ _, False) (acc ++ L) s | None => checked = false end).
Proof.
  revert acc after. induction cuts as [|c cuts IH]; intros acc after; cbn [list_mirror]; [apply rtriple_page; by left|].
  eapply hoare_bind; [apply (rtriple_page _ _ _ (λ k, beyond (Some c) k = true))| |by intros s].
  - intros k _. unfold beyond. destruct (lex_leb k c); auto.
  - intros page. eapply hoare_bind; [apply (IH (acc ++ page))| |by intros s]. intros rest. apply hoare_ret. intros s. by rewrite app_assoc.
Qed.

(** * The scan of a listing *)

Section Listed.
Context (L : list (rstr * Z)) (s : Site).
Hypothesis Hlisted : listed_so_far (λ _, False) L s.

Lemma listing_scanned : scanned L.*1 (scan_listing lp L).
Proof. apply scanned_listing, Forall_forall. intros k Hk. by apply (lf_known _ _ _ Hlisted). Qed.

Lemma found_item i k b t :
  found (scan_listing lp L) !! i = Some (k, b, t) →
  ∃ l pb, item_ok l i pb (k, b, t) ∧ known l i pb k s ∧ (pb = true → Key l (i ++ lit ".arrow") ∉ L.*1).
Proof.
  intros Hf. destruct (sc_found _ _ listing_scanned _ _ _ _ Hf) as [Hin (l & Hg & Hk)].
  destruct (lf_known _ _ _ Hlisted k Hin) as (_ & Hst & Hac).
  destruct Hk as [[Ek ->]|(Ha & -> & Hn)]; [exists l, false|exists l, true]; (split; [done|]); (split; [|done]); simpl; [|by apply Hac].
  rewrite <- Ek. by eapply Hst.
Qed.

Lemma listing_planned :
  let items := (map_to_list (found (scan_listing lp L))).*2 in planned items (mkProposal ∅ [] []) items s.
Proof.
  split; simpl; [|by intros c ?%elem_of_nil| |by left].
  - intros f ([i [[k b] t]] & -> & Hf%elem_of_map_to_list)%list_elem_of_fmap. simpl.
    destruct (found_item i k b t Hf) as (l & pb & Hok & Hk & _). by exists l, i, pb.
  - match goal with |- NoDup ?l => assert (l = (map_to_list (found (scan_listing lp L))).*1) as ->; [|apply NoDup_fst_map_to_list] end.
    rewrite <- list_fmap_compose. apply list_fmap_ext. intros j [i [[k b] t]] Hj%list_elem_of_lookup_2. simpl.
    apply elem_of_map_to_list in Hj. destruct (found_item i k b t Hj) as (l & pb & Hok & _).
    pose proof (io_target _ _ _ _ Hok) as Ht. simpl in Ht. rewrite Ht. apply restore_stem.
Qed.

Lemma listing_all : all_listed (map_to_list (found (scan_listing lp L))).*2 s.
Proof.
  assert (∀ i f, found (scan_listing lp L) !! i = Some f → f ∈ (map_to_list (found (scan_listing lp L))).*2) as Hin.
  { intros i f Hf. apply list_elem_of_fmap. exists (i, f). split; [done|]. by apply elem_of_map_to_list. }
  assert (∀ l i, Good l (i ++ lit ".arrow") → Key l (i ++ lit ".arrow") ∈ L.*1 →
    ∃ f, f ∈ (map_to_list (found (scan_listing lp L))).*2 ∧ item_ok l i false f) as Hsealed.
  { intros l i Hg Hl. destruct (sc_sealed _ _ listing_scanned l i Hg Hl) as [[[k b] t] Hf].
    exists (k, b, t). split; [by eapply Hin|]. destruct (found_item i k b t Hf) as (l' & [|] & Hok & _ & Hn).
    - rewrite (same_home l' l _ (io_good _ _ _ _ Hok) Hg) in Hn. by destruct Hn.
    - by rewrite (same_home l' l _ (io_good _ _ _ _ Hok) Hg) in Hok. }
  split.
  - intros l i Hg Ho. destruct (lf_sealed _ _ _ Hlisted l _ Hg Ho) as [?|[?|[]]]; [by left|right]. by apply Hsealed.
  - intros l i k Hg Hk Hlt Ho. destruct (lf_active _ _ _ Hlisted l _ k Hg Hk Hlt Ho) as [?|[Hl|[Hl|[[]|[_ []]]]]]; [by left| |].
    + right. destruct (sc_active _ _ listing_scanned l i k Hg Hk Hl) as [[[k' b] t] Hf].
      destruct (found_item i k' b t Hf) as (l' & pb & Hok & _). rewrite (same_home l' l _ (io_good _ _ _ _ Hok) Hg) in Hok.
      exists (k', b, t), pb. split; [by eapply Hin|]. split; [done|]. intros ->. pose proof (io_key _ _ _ _ Hok) as Hk'. simpl in *. congruence.
    + right. destruct (Hsealed l i Hg Hl) as (f & ? & ?). by exists f, false.
Qed.
End Listed.

(** What a plan of it promises. *)
Record plan_ok (p : RecoveryPlan) (s : Site) : Prop := {
  po_refused : refused p = false;
  po_known c : c ∈ candidates p → ∃ l i pb, candidate_ok l i pb c ∧ known l i pb (cand_key c) s;
  po_once : NoDup ((λ c, stem (target c)) <$> candidates p);
  po_sealed l i : Good l (i ++ lit ".arrow") → is_Some (O !! Key l (i ++ lit ".arrow")) → readable (body (Key l (i ++ lit ".arrow"))) →
    Key l (i ++ lit ".arrow") ∈ reclaimed s ∨ ∃ c, c ∈ candidates p ∧ candidate_ok l i false c;
  po_active l i k : Good l (i ++ lit ".arrow") → Active l (i ++ lit ".arrow") k → lex_lt k (Key l (i ++ lit ".arrow")) → is_Some (O !! k) →
    readable (body (Key l (i ++ lit ".arrow"))) → (∀ b, flushed k b → readable b) →
    Key l (i ++ lit ".arrow") ∈ reclaimed s ∨ ∃ c pb, c ∈ candidates p ∧ candidate_ok l i pb c ∧ (pb = true → cand_key c = k);
}.

Lemma planned_ok items acc p s :
  planned items acc [] s → all_listed items s → refused p = false → candidates p ≡ₚ work acc → plan_ok p s.
Proof.
  intros Hp [Hs Ha] Hr Hw. assert (∀ f l i pb, f ∈ items → item_ok l i pb f → sound_body l i pb f.1.1 → cand f ∈ candidates p) as Hin.
  { intros f l i pb Hf Hok Hso. rewrite Hw. destruct (pl_items _ _ _ _ Hp f Hf) as [?%elem_of_nil|H]; [done|]. by eapply H. }
  split.
  - done.
  - intros c. rewrite Hw. apply (pl_work _ _ _ _ Hp).
  - rewrite Hw. pose proof (pl_once _ _ _ _ Hp) as Ho. by rewrite app_nil_r in Ho.
  - intros l i Hg Ho Hb. destruct (Hs l i Hg Ho) as [?|(f & Hf & Hok)]; [by left|right]. exists (cand f).
    split; [|by apply candidate_of_ok]. by eapply Hin.
  - intros l i k Hg Hk Hlt Ho Hb Hfl. destruct (Ha l i k Hg Hk Hlt Ho) as [?|(f & pb & Hf & Hok & Hfk)]; [by left|right]. exists (cand f), pb.
    split_and!; [|by apply candidate_of_ok|done]. eapply Hin; [done..|]. split; [done|]. intros ->. by rewrite Hfk.
Qed.

Lemma so_far_none s : begun_with s → listed_so_far (λ k, beyond None k = true) [] s.
Proof. intros _. split; [by intros k ?%elem_of_nil|by auto..]. Qed.

Lemma rtriple_plan root rp cuts :
  sees root rp →
  rtriple begun_with (plan_recovery num_rows root rp cuts)
    (λ r s, begun_with s ∧ match r with Some p => plan_ok p s | None => checked = true → some_reclaimed s end).
Proof.
  intros Hsees. unfold plan_recovery. rewrite Hsees. cbv zeta.
  apply (hoare_bind _ _ _ _ (λ r s, begun_with s ∧ match r with
    | Some L => one_deeper (scan_listing lp L) = None ∧
        let items := (map_to_list (found (scan_listing lp L))).*2 in planned items (mkProposal ∅ [] []) items s ∧ all_listed items s
    | None => checked = false end)).
  - eapply hoare_mono; [| |apply (rtriple_listing cuts [] None)]; [by intros s Hs; split; [|apply so_far_none]|].
    intros [L|] s [Hb Hl]; (split; [done|]); [|done]. split; [eapply sc_deeper; by eapply listing_scanned|].
    split; [by apply listing_planned|by apply listing_all].
  - intros L. set (items := (map_to_list (found (scan_listing lp L))).*2).
    apply (hoare_extract _ (one_deeper (scan_listing lp L) = None)); [by intros s (_ & ? & _)|]. intros Hd.
    apply (hoare_bind _ _ _ _ (λ r s, match r with
      | Some acc => (begun_with s ∧ all_listed items s) ∧ planned items acc [] s
      | None => begun_with s ∧ (checked = true → some_reclaimed s) end)).
    + apply (hoare_mono _ _ (λ s, (begun_with s ∧ all_listed items s) ∧ planned items (mkProposal ∅ [] []) items s) _
        (λ r s, match r with
          | Some acc => (begun_with s ∧ all_listed items s) ∧ planned items acc [] s
          | None => begun_with s ∧ (checked = true → some_reclaimed s) end)); [by intros s (? & _ & ? & ?)|by intros r s|].
      apply (hoare_each _ _ (λ acc rest s, (begun_with s ∧ all_listed items s) ∧ planned items acc rest s)); [|by intros acc' s].
      intros acc f rest. eapply hoare_mono; [| |apply (rtriple_propose (λ s, begun_with s ∧ all_listed items s) items acc f rest)]; [by intros s| |].
      * intros [acc'|] s; [done|]. by intros [[? _] ?].
      * apply stable_and; [apply stable_begun_with|apply stable_listed].
    + intros acc. apply hoare_ret. intros s [[? ?] ?]. split; [done|]. eapply planned_ok; [eassumption..| |apply merge_sort_Permutation].
      unfold refused, root_verdict. simpl. rewrite Hd. by destruct (at_root _).
    + done.
  - intros s [? ->]. done.
Qed.


Lemma kept_plan p : stable_under Guar (plan_ok p).
Proof.
  intros s s' Ho []. pose proof Ho as [_ _ _ Hre _]. split; [done| |done| |].
  - intros c Hc. destruct (po_known0 c Hc) as (l & i & pb & Hok & Hk). exists l, i, pb. split; [done|]. by eapply kept_candidate.
  - intros l i Hg Hi Hb. destruct (po_sealed0 l i Hg Hi Hb) as [?|?]; [left; by apply Hre|by right].
  - intros l i k Hg Hk Hlt Hi Hb Hf. destruct (po_active0 l i k Hg Hk Hlt Hi Hb Hf) as [?|?]; [left; by apply Hre|by right].
Qed.

(** * The application *)

(** What making a directory, and other processes, leave. *)
Definition settled (s s' : Site) : Prop := Guar s s' ∧ restored s' = restored s ∧ restored_dirs s ⊆ restored_dirs s'.
Abbreviation lasting := (stable_under settled).

Lemma lasting_stable P : lasting P → stable P.
Proof. intros HP s s' [Hg (Er & Ed & _)]. apply HP. split_and!; [done..|by rewrite Ed]. Qed.

Lemma lasting_dir d : lasting (λ s, d ∈ restored_dirs s).
Proof. intros s s' (_ & _ & Hd). apply Hd. Qed.

Lemma dirs_settled s d :
  Inv s → restore_inv s → let s' := set_restored_dirs ({[d]} ∪ restored_dirs s) s in Inv s' ∧ restore_inv s' ∧ settled s s'.
Proof.
  intros Hi [Hf Hr]. simpl. split; [by destruct Hi; constructor|]. split.
  - split; [|exact Hr]. intros p b Hb. destruct (Hf p b Hb) as (l & n & ? & ? & ? & He & ?). exists l, n. split_and!; try done.
    eapply enumerated_mono; [|exact He]. apply union_subseteq_r.
  - split_and!; [by apply guar_same|done|]. apply union_subseteq_r.
Qed.

Lemma rtriple_make P d :
  lasting P → rtriple P (make_dir d) (λ r s, P s ∧ match r with Some _ => d ∈ restored_dirs s | None => checked = false end).
Proof.
  intros HP. apply rtriple_stmt; [by apply lasting_stable|]. intros now s Hi Hri Hs. destruct (dirs_settled s d Hi Hri) as (? & ? & Hse).
  pose proof (HP _ _ Hse Hs) as Hs'. pose proof Hse as [? _]. split; [done|]. split; [|by auto]. split; [done|]. simpl. set_solver.
Qed.

Lemma rtriple_ensure P t :
  lasting P →
  rtriple P (ensure_discovery_dir t)
    (λ r s, P s ∧ match r with Some _ => ∀ d, discovery t = Some d → d ∈ restored_dirs s | None => checked = false end).
Proof.
  intros HP. unfold ensure_discovery_dir. destruct (discovery t) as [d|]; [|by apply hoare_ret]. unfold dest_is_dir.
  eapply hoare_then.
  - eapply hoare_then; [apply hoare_caught, (rtriple_query _ _ _ (λ r s, P s ∧ (r = Some true → d ∈ restored_dirs s)))|].
    + by apply lasting_stable.
    + intros now s _ _ Hs. split; [|done]. split; [done|]. intros [= Hd]. by apply bool_decide_eq_true in Hd.
    + intros r. apply (hoare_ret _ _ _ (yields (λ v s, P s ∧ (v = true → d ∈ restored_dirs s)))). intros s [? Hd]. split; [done|].
      destruct r as [[|]|]; [by intros _; apply Hd|done..].
  - intros [|].
    + apply hoare_ret. intros s [? Hd]. split; [done|]. intros d' [= <-]. by apply Hd.
    + eapply hoare_mono; [| |by apply (rtriple_make P)]; [by intros s [? _]|]. intros [v|] s [? Hd]; (split; [done|]); [|done].
      by intros d' [= <-].
Qed.

(** The candidates [rest] of [cs] are to be applied. *)
Record applying (cs : list RecoveryCandidate) (sm : RecoverySummary) (rest : list RecoveryCandidate) (s : Site) : Prop := {
  ap_rest c : c ∈ rest → ∃ l i pb, candidate_ok l i pb c ∧ known l i pb (cand_key c) s;
  ap_once : NoDup ((λ c, stem (target c)) <$> rest);
  ap_kept : checked = true → F0 ⊆ restored s;
  ap_count : checked = true → Z.of_nat (size (restored s)) = Z.of_nat (size F0) + pulled sm;
  ap_fresh c : checked = true → c ∈ rest → restored s !! rel (target c) = F0 !! rel (target c);
  ap_done c l i pb : checked = true → c ∈ cs → candidate_ok l i pb c → sound_body l i pb (cand_key c) →
    c ∈ rest ∨ ∃ b, restored s !! dest l (i ++ lit ".arrow") = Some b ∧
      (pb = false → F0 !! dest l (i ++ lit ".arrow") = None → b = body (Key l (i ++ lit ".arrow")));
}.

Lemma lasting_applying cs sm rest : lasting (applying cs sm rest).
Proof.
  intros s s' (Hg & Er & _) []. split; rewrite ?Er; try done.
  intros c Hc. destruct (ap_rest0 c Hc) as (l & i & pb & Hok & Hk). exists l, i, pb. split; [done|]. by eapply kept_candidate.
Qed.

Lemma candidate_unique l i pb l' i' pb' c : candidate_ok l i pb c → candidate_ok l' i' pb' c → l = l' ∧ i = i' ∧ pb = pb'.
Proof.
  intros [Hg Ht _ _] [Hg' Ht' _ _]. rewrite Ht in Ht'. pose proof (f_equal stem Ht') as Hi. pose proof (f_equal partial Ht') as Hp.
  rewrite !restore_stem in Hi. rewrite !restore_partial in Hp. subst. split_and!; [|done..]. by eapply same_home.
Qed.

Lemma candidate_rel l i pb c : candidate_ok l i pb c → rel (target c) = dest l (i ++ lit ".arrow").
Proof. intros [Hg -> _ _]. apply restore_rel. by apply (good_home _ _ Hg). Qed.

Lemma candidate_stem l i pb c : candidate_ok l i pb c → stem (target c) = i.
Proof. intros [_ -> _ _]. apply restore_stem. Qed.

Lemma dest_name l n l' n' : dest l n = dest l' n' → n = n'.
Proof. intros E%(f_equal last). unfold dest, sealed_path in E. rewrite !last_app in E. by injection E. Qed.

Lemma applying_drop cs sm sm' c rest s :
  applying cs sm (c :: rest) s → pulled sm' = pulled sm →
  (∀ l i pb, checked = true → candidate_ok l i pb c → sound_body l i pb (cand_key c) → ∃ b, restored s !! dest l (i ++ lit ".arrow") = Some b ∧
      (pb = false → F0 !! dest l (i ++ lit ".arrow") = None → b = body (Key l (i ++ lit ".arrow")))) →
  applying cs sm' rest s.
Proof.
  intros [] Ep Hc. rewrite fmap_cons in ap_once0. apply NoDup_cons in ap_once0 as [_ Hn]. split; [|done|done|by rewrite Ep| |].
  - intros c' ?. apply ap_rest0. by right.
  - intros c' ? ?. apply ap_fresh0; [done|]. by right.
  - intros c' l i pb Hch Hin Hok Hso. destruct (ap_done0 c' l i pb Hch Hin Hok Hso) as [[->|?]%elem_of_cons|?]; [right; by apply Hc|by left|by right].
Qed.

Lemma applying_publish cs sm sm' c rest s b l i pb :
  applying cs sm (c :: rest) s → candidate_ok l i pb c → (checked = true → restored s !! rel (target c) = None) →
  (pb = false → b = body (Key l (i ++ lit ".arrow"))) → pulled sm' = pulled sm + 1 →
  applying cs sm' rest (set_restored (<[rel (target c) := b]> (restored s)) s).
Proof.
  intros [] Hc Hnone Hb Ep. rewrite fmap_cons in ap_once0. apply NoDup_cons in ap_once0 as [Hnew Hn].
  pose proof (candidate_rel _ _ _ _ Hc) as Hrel. split; simpl.
  - intros c' ?. apply ap_rest0. by right.
  - done.
  - intros Hch. etrans; [by apply ap_kept0|]. by apply insert_subseteq, Hnone.
  - intros Hch. rewrite map_size_insert_None by auto. specialize (ap_count0 Hch). lia.
  - intros c' Hch Hin. destruct (ap_rest0 c') as (l' & i' & pb' & Hok & _); [by right|]. rewrite lookup_insert_ne; [by apply ap_fresh0; [|right]|].
    rewrite Hrel, (candidate_rel _ _ _ _ Hok). intros <-%dest_name%app_inv_tail. apply Hnew. rewrite (candidate_stem _ _ _ _ Hc).
    rewrite <- (candidate_stem _ _ _ _ Hok). by apply (list_elem_of_fmap_2 (λ c, stem (target c))).
  - intros c' l' i' pb' Hch Hin Hok Hso. destruct (ap_done0 c' l' i' pb' Hch Hin Hok Hso) as [[->|?]%elem_of_cons|(b' & Hb' & Hf)]; [right|by left|right].
    + destruct (candidate_unique _ _ _ _ _ _ _ Hc Hok) as (<- & <- & <-). exists b. rewrite Hrel, lookup_insert_eq. auto.
    + exists b'. split; [|done]. rewrite lookup_insert_ne; [done|]. intros E. rewrite <- E, Hnone in Hb' by done. done.
Qed.

Lemma lane_enumerated d l i pb c :
  candidate_ok l i pb c → (∀ p, discovery (target c) = Some p → p ∈ d) → removelast (rel (target c)) ∈ d → enumerated d (dest_lane l).
Proof.
  intros [Hg -> _ _] Hd Hr. destruct Hg as (_ & _ & Eh). destruct (homes (i ++ lit ".arrow")) as [[Hl Hres] _]. rewrite Eh in *.
  destruct l as [|t [|ix [|]]]; simpl in *; [|by inversion Hres| |lia].
  - split; [done|]. refine (bool_decide_unpack _ _). by vm_compute.
  - inversion Hres as [|? ? ? Hix]. inversion Hix. split_and!; [by apply Hd|done..].
Qed.

(** The file appears, in a place the drain visits. *)
Lemma rtriple_publish P Φ l i pb c rd :
  stable P → candidate_ok l i pb c → readable (read_body rd) →
  (∀ s, P s → read_ok l i pb c (Some rd) s ∧ (∀ p, discovery (target c) = Some p → p ∈ restored_dirs s) ∧ removelast (rel (target c)) ∈ restored_dirs s) →
  (∀ s, P s → Φ (Some tt) (set_restored (<[rel (target c) := read_body rd]> (restored s)) s)) → (checked = false → ∀ s, Φ None s) →
  rtriple P (publish_file (rel (target c)) (read_body rd)) Φ.
Proof.
  intros HP Hc Hb Hd HS HN. apply rtriple_stmt; [done|]. intros now s Hi [Hf Hr] Hs. destruct (Hd s Hs) as (Hread & Hdisc & Hpar). simpl.
  split; [split_and!|split; [by apply HS|auto]].
  - by destruct Hi; constructor.
  - split; [|exact Hr]. simpl. intros p b [[<- <-]|[_ Hp]]%lookup_insert_Some; [|by apply Hf].
    exists l, (i ++ lit ".arrow"). split_and!; [apply Hc|by eapply candidate_rel|done|by eapply lane_enumerated|].
    destruct Hread as [?|[-> ?]]; [by left|right]. exists (cand_key c). split; [apply Hc|done].
  - by apply guar_same.
Qed.

(** A file read whole and published. *)
Lemma rtriple_write cs sm c rest l i pb rd :
  candidate_ok l i pb c → readable (read_body rd) →
  let P s := (applying cs sm (c :: rest) s ∧ (checked = true → restored s !! rel (target c) = None)) ∧ read_ok l i pb c (Some rd) s in
  rtriple P
    (let* _ := ensure_discovery_dir (target c) in
     let* _ := make_dir (removelast (rel (target c))) in
     let* _ := publish_file (rel (target c)) (read_body rd) in
     Ret (mkSummary (pulled sm + 1) (skipped sm) (already_present sm) (unreadable sm) (sample_skipped_key sm) (sample_unreadable_key sm)))
    (λ r s, match r with Some sm => applying cs sm rest s | None => checked = true → F0 ⊆ restored s ∧ some_reclaimed s end).
Proof.
  intros Hc Hb P. assert (lasting P) as HP.
  { apply stable_and; [apply stable_and; [apply lasting_applying|]|by apply stable_pure]. intros s s' (_ & -> & _). done. }
  assert (∀ φ : Prop, checked = false → checked = true → φ) as Hno by (intros φ ->; done).
  eapply hoare_bind; [by apply (rtriple_ensure P)| |intros s [_ ?]; by apply Hno]. intros ?.
  set (P' := λ s, P s ∧ ∀ d, discovery (target c) = Some d → d ∈ restored_dirs s).
  assert (lasting P') as HP' by (apply stable_and; [done|]; apply stable_all; intros d; apply stable_impl, lasting_dir).
  eapply hoare_bind; [by apply (rtriple_make P')| |intros s [_ ?]; by apply Hno]. intros ?.
  eapply (hoare_bind _ _ _ _ (λ r s, match r with
    | Some _ => applying cs (mkSummary (pulled sm + 1) (skipped sm) (already_present sm) (unreadable sm) (sample_skipped_key sm) (sample_unreadable_key sm)) rest s
    | None => checked = false end)).
  - apply (rtriple_publish _ _ l i pb c rd); [|done|done| | |by intros ->].
    + apply lasting_stable, stable_and; [done|apply lasting_dir].
    + intros s (((_ & ?) & ?) & ?). done.
    + intros s ((([Ha Hn] & Hr) & _) & _). eapply applying_publish; [done..| |done]. intros ->. by destruct Hr as [?|[? _]].
  - intros []. by apply hoare_ret.
  - intros s ?. by apply Hno.
Qed.

Lemma rtriple_apply cs sm c rest :
  rtriple (applying cs sm (c :: rest)) (apply_candidate num_rows sm c)
    (λ r s, match r with Some sm => applying cs sm rest s | None => checked = true → F0 ⊆ restored s ∧ some_reclaimed s end).
Proof.
  unfold apply_candidate. eapply hoare_then; [apply rtriple_exists, lasting_stable, lasting_applying|]. intros [|].
  - set (P := λ s, applying cs sm (c :: rest) s ∧ is_Some (restored s !! rel (target c))).
    assert (lasting P) as HP by (apply stable_and; [apply lasting_applying|]; intros s s' (_ & -> & _); done).
    eapply hoare_mono; [| |eapply (hoare_bind _ _ _ P); [by apply (rtriple_ensure P)| |]];
      [by intros s (? & Hp & _); split; [|apply Hp]|by intros r s H; exact H| |by intros s [_ ->]].
    intros ?. apply hoare_ret. intros s [[Ha [b Hb]] _]. eapply applying_drop; [done|done|]. intros l i pb Hch Hok _.
    rewrite <- (candidate_rel _ _ _ _ Hok). exists b. split; [done|]. intros _ Hf. rewrite (ap_fresh _ _ _ _ Ha c Hch) in Hb by by left. congruence.
  - apply (hoare_extract _ (∃ l i pb, candidate_ok l i pb c)).
    { intros s ([] & _). destruct (ap_rest0 c) as (l & i & pb & ? & _); [by left|]. eauto. }
    intros (l & i & pb & Hok). set (R := λ s, applying cs sm (c :: rest) s ∧ (checked = true → restored s !! rel (target c) = None)).
    assert (stable R) as HR.
    { apply lasting_stable, stable_and; [apply lasting_applying|]. intros s s' (_ & -> & _). done. }
    apply (hoare_bind _ _ _ _ (λ r s, R s ∧ read_ok l i pb c r s)).
    + eapply hoare_mono; [| |by apply (rtriple_read R)]; [|by intros r s H; exact H]. intros s (Ha & _ & Hn). split; [split; auto|].
      destruct (ap_rest _ _ _ _ Ha c) as (l' & i' & pb' & Hok' & Hk); [by left|]. by destruct (candidate_unique _ _ _ _ _ _ _ Hok Hok') as (<- & <- & <-).
    + intros rd. destruct (segment_rows num_rows (read_body rd)) eqn:Er; [by apply (rtriple_write cs sm c rest l i pb rd); [|eexists]|].
      apply hoare_ret. intros s ([Ha _] & Hread). eapply applying_drop; [done|done|]. intros l' i' pb' _ Hok' Hs.
      destruct (candidate_unique _ _ _ _ _ _ _ Hok Hok') as (<- & <- & <-). destruct (sound_read l i pb c rd s Hs Hread). congruence.
    + intros s ([Ha _] & Hread) Hch. split; [by apply (ap_kept _ _ _ _ Ha)|]. exists l, (i ++ lit ".arrow"). split; [apply Hok|by apply Hread].
Qed.

Lemma applied_back p sm s :
  checked = true → plan_ok p s → applying (candidates p) sm [] s → brought_back s O F0 (restored s).
Proof.
  intros Hch Hp Ha. split.
  - intros l n Hg Ho Hb. destruct (good_stem l n Hg) as [i ->]. destruct (po_sealed _ _ Hp l i Hg Ho Hb) as [?|(c & Hc & Hok)]; [by left|right].
    destruct (ap_done _ _ _ _ Ha c l i false Hch Hc Hok) as [?%elem_of_nil|(b & ? & Hf)]; [by split|done|]. eauto.
  - intros l n k Hg Hk Hlt Ho Hb Hfl. destruct (good_stem l n Hg) as [i ->].
    destruct (po_active _ _ Hp l i k Hg Hk Hlt Ho Hb Hfl) as [?|(c & pb & Hc & Hok & Hck)]; [by left|right].
    destruct (ap_done _ _ _ _ Ha c l i pb Hch Hc Hok) as [?%elem_of_nil|(b & ? & _)]; [|done|by eexists].
    split; [done|]. intros ->. by rewrite Hck.
Qed.

Lemma rtriple_apply_plan p p' :
  candidates p' = candidates p →
  rtriple (λ s, begun_with s ∧ plan_ok p s) (apply_plan num_rows p')
    (λ r s, checked = true →
       match r with
       | Some sm => restore_ok s (mkRestore O F0 (restored s) (Some sm))
       | None => refused p' = true ∨ F0 ⊆ restored s ∧ some_reclaimed s
       end).
Proof.
  intros Ec. unfold apply_plan. rewrite Ec. destruct (refused p'); [apply hoare_err; by left|].
  set (sm0 := mkSummary 0 _ 0 _ _ _).
  eapply (hoare_mono _ _ (λ s, applying (candidates p) sm0 (candidates p) s ∧ plan_ok p s)); [| |apply (hoare_frame _ _ _ (λ r s,
      match r with Some sm => applying (candidates p) sm [] s | None => checked = true → F0 ⊆ restored s ∧ some_reclaimed s end)); [apply kept_plan|]].
  - intros s [(_ & _ & Er) Hp]. split; [|done]. destruct Hp. split; rewrite ?Er; try done; simpl; [lia|by auto].
  - intros [sm|] s [Ha Hp] Hch; [|right; by apply Ha]. split; [by apply (ap_kept _ _ _ _ Ha)|]. simpl.
    split; [by apply (ap_count _ _ _ _ Ha)|]. by eapply applied_back.
  - eapply hoare_bind; [apply rtriple_make, lasting_applying| |].
    + intros ?. eapply hoare_mono; [| |apply hoare_each with (P := applying (candidates p))]; [by intros s [? _]|by intros r s H; exact H| |].
      * intros acc c rest. apply rtriple_apply.
      * done.
    + by intros s [_ ->].
Qed.

Lemma rtriple_recover root rp cuts :
  sees root rp →
  rtriple begun_with (recover_from_object_store num_rows root rp cuts)
    (λ r s, checked = true → restore_ok s (mkRestore O F0 (restored s) r)).
Proof.
  intros Hsees. unfold recover_from_object_store. eapply hoare_bind; [by apply rtriple_plan| |].
  - intros p. apply (hoare_extract _ (refused p = false)); [by intros s [_ []]|]. intros Hr.
    eapply hoare_mono; [| |by apply (rtriple_apply_plan p p)]; [done|]. intros [sm|] s H Hch; [by apply H|].
    destruct (H Hch) as [?|[? ?]]; [congruence|done].
  - intros s [(_ & _ & Er) Hn] Hch. split; simpl; [by rewrite Er|]. by apply Hn.
Qed.

(** [wal-recover] that reports a summary. *)
Lemma rtriple_wal_recover root opened to apply catalog cuts :
  sees root [] →
  rtriple begun_with (run_wal_recover num_rows root opened to apply catalog cuts)
    (λ r s, checked = true → ∀ sm, r = Some (Some sm) → restore_ok s (mkRestore O F0 (restored s) (Some sm))).
Proof.
  intros Hsees. unfold run_wal_recover. destruct (negb opened); [by apply hoare_err|]. case_bool_decide; [by apply hoare_err|].
  eapply hoare_bind; [by apply rtriple_plan| |done]. intros p. cbv zeta.
  set (p' := match catalog with Some lookup => attach_catalog_verdict lookup p | None => p end).
  assert (candidates p' = candidates p) as Ec.
  { unfold p', attach_catalog_verdict. destruct catalog as [lookup|]; [|done]. by destruct (lookup _). }
  assert (rtriple (λ s, begun_with s ∧ plan_ok p s)
    (let* sm := apply_plan num_rows p' in
     if (pulled sm =? 0) && (already_present sm =? 0) && (0 <? unreadable sm) then Err else Ret (Some sm))
    (λ r s, checked = true → ∀ sm, r = Some (Some sm) → restore_ok s (mkRestore O F0 (restored s) (Some sm)))) as Happly.
  { eapply hoare_bind; [by apply rtriple_apply_plan| |done]. intros sm. destruct (_ && _); [by apply hoare_err|].
    apply hoare_ret. intros s Hok Hch sm' [= <-]. by apply Hok. }
  clearbody p'. destruct (ledger p') as [[]|]; first [by apply hoare_err|idtac];
    (destruct (_ && _ && negb (refused p')); [by apply hoare_err|]);
    (destruct (_ && _ && _ && _); [by apply hoare_err|]); (destruct (negb apply); [|exact Happly]);
    (destruct (refused p'); [by apply hoare_err|by apply hoare_ret]).
Qed.
End Begun.

(** The active copies of lanes past ['_'] are listed first. *)
Lemma active_first l n k :
  Good l n → Active l n k → (∀ c, head (join (l ++ [n])) = Some c → 0x5F < c) → lex_lt k (Key l n).
Proof.
  intros Hg Hk Hc. rewrite (active_suffix_of _ _ _ Hg Hk), (good_key prefix home mirrored_on _ _ Hg), listing_prefix_is, <- app_assoc.
  unfold lex_lt. rewrite !lex_cmp_app. destruct (join (l ++ [n])) as [|c j] eqn:E; [|specialize (Hc c eq_refl)].
  - destruct Hg as [Hco _]. destruct (l ++ [n]) as [|q qs] eqn:El; [by destruct l|]. destruct (join_head q qs) as [k' Ej]. rewrite Ej in E.
    apply app_eq_nil in E as [-> _]. by apply Forall_inv in Hco as [? _].
  - change (lit "_active/" ++ ?t) with (0x5F :: lit "active/" ++ t). cbn [lex_cmp]. by rewrite (proj2 (Z.compare_lt_iff _ _)).
Qed.

Lemma begun_now s : Inv s → begun_with (objects s) (restored s) s.
Proof. intros Hi. split_and!; [|by left|done]. intros l n _ Ho. by apply (si_stored _ _ _ _ _ Hi). Qed.

Lemma rtriple_record O F0 r :
  rtriple (λ s, restore_ok s (mkRestore O F0 (restored s) r))
    (stmt Local (λ _ s, (tt, set_restores (mkRestore O F0 (restored s) r :: restores s) s))) (λ _ _, True).
Proof.
  apply rtriple_stmt.
  - intros s s' [[] (Er & _)] Hok. rewrite Er. by eapply restore_ok_mono; [|apply Hok].
  - intros now s Hi [Hf Hr] Hok. simpl. split; [|done]. split_and!; [by destruct Hi; constructor| |by apply guar_same].
    split; [exact Hf|]. simpl. intros r' [->|?]%elem_of_cons; [by apply Hok|by apply Hr].
Qed.

Lemma rtriple_begin {A} (p : gmap rstr bytes * gmap (list rstr) bytes → Eff Site A) :
  (∀ O F0, rtriple (begun_with O F0) (p (O, F0)) (λ _ _, True)) →
  rtriple (λ _, True) (let* begun := query Local (λ _ s, (objects s, restored s)) in p begun) (λ _ _, True).
Proof.
  intros Hp. apply (hoare_bind _ _ _ _ (λ r s, ∀ v, r = Some v → begun_with v.1 v.2 s)); [| |done].
  - apply rtriple_query; [apply stable_true|]. intros now s Hi _ _. split; [|done]. intros v [= <-]. by apply begun_now.
  - intros [O F0]. eapply hoare_mono; [| |apply (Hp O F0)]; [|done]. intros s Hs. by apply (Hs (O, F0)).
Qed.

Lemma rtriple_restore root rp cuts :
  sees root rp → checked = true → rtriple (λ _, True) (checked_restore num_rows root rp cuts) (λ _ _, True).
Proof.
  intros Hsees Hch. apply rtriple_begin. intros O F0. cbn [fst snd].
  eapply hoare_then; [by apply hoare_caught, (rtriple_recover O F0)|]. intros r.
  eapply hoare_mono; [| |apply rtriple_record]; [|done]. intros s H. by apply H.
Qed.

Lemma rtriple_wal_restore root opened to apply catalog cuts :
  sees root [] → checked = true →
  rtriple (λ _, True) (checked_wal_recover num_rows root opened to apply catalog cuts) (λ _ _, True).
Proof.
  intros Hsees Hch. apply rtriple_begin. intros O F0. cbn [fst snd].
  eapply hoare_then; [by apply hoare_caught, (rtriple_wal_recover O F0)|]. intros [[sm|]|]; [|by apply hoare_ret..].
  eapply hoare_mono; [| |apply rtriple_record]; [|done]. intros s H. by apply H.
Qed.
End Checked.

(** * The site with restores *)

Inductive restarts : MirrorActor → Eff Site unit → Prop :=
| restarts_other a p : starts prefix body flushed home a p → restarts a p
| restarts_recover root rp cuts : sees root rp → restarts (ARestore false) (ignore (catch (recover_from_object_store num_rows root rp cuts)))
| restarts_checked root rp cuts : sees root rp → restarts (ARestore true) (checked_restore num_rows root rp cuts)
| restarts_command root opened to apply catalog cuts :
    sees root [] → restarts (ARestore false) (ignore (catch (run_wal_recover num_rows root opened to apply catalog cuts)))
| restarts_checked_command root opened to apply catalog cuts :
    sees root [] → restarts (ARestore true) (checked_wal_recover num_rows root opened to apply catalog cuts).

Lemma unchecked_safe {A} (p : Eff Site A) Φ x :
  full_inv x →
  triple full_inv mirror_allowed mirror_compat (mirror_guar prefix home) Guar (ARestore false) (begun_with (objects x.2) (restored x.2)) p Φ →
  safe full_inv mirror_allowed mirror_compat (mirror_guar prefix home) (ARestore false) (ignore (catch p)) (λ _ _, True) x.
Proof.
  intros Hi Hp. assert (triple full_inv mirror_allowed mirror_compat (mirror_guar prefix home) Guar (ARestore false)
    (begun_with (objects x.2) (restored x.2)) (ignore (catch p)) (λ _ _, True)) as Ht.
  { unfold ignore. eapply hoare_then; [by apply hoare_caught|intros ?; by apply hoare_ret]. }
  eapply safe_mono; [|apply Ht, begun_now, Hi]. done.
Qed.

Lemma restarts_safe a p x :
  restarts a p → full_inv x → safe full_inv mirror_allowed mirror_compat (mirror_guar prefix home) a p (λ _ _, True) x.
Proof.
  intros [] Hi; [by apply other_safe|..].
  - by eapply unchecked_safe, rtriple_recover.
  - eapply safe_mono; [|by apply (rtriple_restore true root rp cuts)]. done.
  - by eapply unchecked_safe, rtriple_wal_recover.
  - eapply safe_mono; [|by apply (rtriple_wal_restore true root opened to apply catalog cuts)]. done.
Qed.

Definition restore_step : Config (Σ := Site) (Act := MirrorActor) → Config → Prop := pstep mirror_allowed mirror_compat restarts.

(** C13. A restore brings the mirror back.  Segments are uploaded under a non-empty
    prefix, and no tenant is named [_active] ([mirrored_on], [homes];
    [active_tenant_misrouted] shows what such a tenant does); restores list the
    mirror under that prefix, or, as [wal-recover] does, through an operator rooted
    in it.  From an empty site and an empty volume, among writers, drain, claims of
    prefixes, uploads, sweeps, active snapshots and reclamation, with failures and
    stops anywhere: every file a restore left on the volume is under its own
    segment's name, in a lane the drain visits, and holds that segment's sealed
    bytes or a readable flush of it; and a restore none of whose requests failed (of
    [wal-recover], one that reported a summary) kept the files there were, reports
    as pulled exactly the files it added, and has every segment whose sealed object
    was in the mirror when it began, with its sealed bytes, and every segment with
    an active copy that is listed before its sealed key, unless its object was
    reclaimed meanwhile; [recover_from_object_store] ends in an error only if some
    object was reclaimed.  The listing may be cut into pages anywhere. *)
Theorem restore_brings_back clock clock' pool s :
  rtc restore_step (clock, [], empty_site) (clock', pool, s) →
  (∀ p b, restored s !! p = Some b → restored_well s p b) ∧ (∀ r, r ∈ restores s → restore_ok s r).
Proof.
  intros Hr. apply (pool_invariant full_inv _ _ (mirror_guar prefix home)) in Hr as [_ Hi]; [|apply restarts_safe|].
  - by destruct Hi.
  - split; [by apply (empty_site_inv prefix body flushed home)|]. split; [|by intros r ?%elem_of_nil]. intros p b. simpl. by rewrite lookup_empty.
Qed.
End Restoring.

(** * Witness *)

#[local] Existing Instance sample_arrow.

Definition handed_site : Site := (run (all_done 40) (hand_over sample_prefix restored_body sample_handed) empty_site).2.
Definition mirrored_site : Site := (run (all_done 40) (checked_sweep sample_prefix true (λ _, 3%nat)) handed_site).2.
Definition recovered_site : Site := (run (all_done 40) (checked_restore one_row (lit "wal-mirror/") [] [lit "wal-mirror/b"]) mirrored_site).2.

Lemma restore_brings_back_witness :
  restored recovered_site !! [lit "acme"; SEALED_DIR; lit "x.arrow"] = Some (restored_body []) ∧
  ∃ r sm, restores recovered_site = [r] ∧ outcome r = Some sm ∧ pulled sm = 1 ∧
    restored_well one_row sample_prefix restored_body (λ _ _, False) sample_home recovered_site [lit "acme"; SEALED_DIR; lit "x.arrow"] (restored_body []).
Proof.
  destruct (restore_brings_back one_row sample_prefix restored_body (λ _ _, False) sample_home sample_on sample_homes 0 0 [] recovered_site) as [H _].
  - transitivity (0, [] : list (Proc (Σ := Site) (Act := MirrorActor)), handed_site);
      [|transitivity (0, [] : list (Proc (Σ := Site) (Act := MirrorActor)), mirrored_site)].
    + apply (all_done_reach _ AMirror (hand_over sample_prefix restored_body sample_handed)); [|by vm_compute..].
      apply restarts_other, starts_seal, sample_good.
    + apply (all_done_reach _ AChecked (checked_sweep sample_prefix true (λ _, 3%nat))); [|by vm_compute..].
      apply restarts_other, starts_checked.
    + apply (all_done_reach _ (ARestore true) (checked_restore one_row (lit "wal-mirror/") [] [lit "wal-mirror/b"])); [|by vm_compute..].
      by apply restarts_checked.
  - assert (restored recovered_site !! [lit "acme"; SEALED_DIR; lit "x.arrow"] = Some (restored_body [])) as E by (vm_compute; reflexivity).
    split; [exact E|]. specialize (H _ _ E).
    assert ((λ r, pulled <$> outcome r) <$> restores recovered_site = [Some 1]) as Ho by (vm_compute; reflexivity). clear E.
    destruct (restores recovered_site) as [|r [|]]; [discriminate Ho| |discriminate Ho]. injection Ho as Ho.
    destruct (outcome r) as [sm|] eqn:Eo; [|discriminate Ho]. injection Ho as Hp. exists r, sm. by split_and!.
Defined.
