(* ===== verification/MirrorRaces.v ===== *)
(** A run of a restore beside an upload in which it misses a segment. *)

From stdpp Require Import prelude gmap strings sorting relations.
From Stdlib Require Import ZArith Lia.
From S2P Require Import Prelude RustStr WalFrame WalLifecycle Eff RelyGuarantee MirrorSync MirrorKeys MirrorUpload MirrorSafe MirrorRecover.
From S2P Require Import MirrorRestore.

#[local] Existing Instance sample_arrow.

(** * A segment between two pages *)

Definition upper_home : rstr → list rstr := λ _, [lit "ACME"].
Definition upper_handed : Handed := mkHanded [lit "ACME"] (lit "x.arrow") (lit "ACME/x.arrow") 3.
Definition upper_snapshot : ActiveSnapshot := mkSnapshot [lit "ACME"; ACTIVE_DIR; lit "x.arrow.partial"] 1 (Some (lit "ACME")).
Definition upper_active : rstr := lit "wal-mirror/_active/ACME/x.arrow.partial".

(** A flush, its active copy, and the seal. *)
Definition flush_upper : Eff Site unit := flush [lit "ACME"] (lit "x.arrow") (restored_body []).
Definition tick_upper : Eff Site unit := ignore (active_tick sample_prefix ∅ [upper_snapshot]).
Definition flushed_site : Site := (run (all_done 40) flush_upper empty_site).2.
Definition active_site : Site := (run (all_done 40) tick_upper flushed_site).2.
Definition sealing_site : Site := (run (all_done 40) (hand_over sample_prefix restored_body upper_handed) active_site).2.

(** The upload and the cleanup fall between the two pages. *)
Definition paged_pool : list Proc :=
  [mkProc (ARestore true) (checked_restore one_row [] sample_prefix [lit "wal-mirror/B"]); mkProc AMirror (worker_turn sample_prefix true true)].
Definition paged_schedule : list (nat * Z * Outcome) :=
  replicate 2 (0%nat, 0, Done) ++ replicate 8 (1%nat, 0, Done) ++ replicate 3 (0%nat, 0, Done).
Definition missed (s : Site) : Prop :=
  ∃ r sm, restores s = [r] ∧ is_Some (began_objects r !! upper_active) ∧ outcome r = Some sm ∧ pulled sm = 0 ∧
    objects s !! key_of sample_prefix [lit "ACME"] (lit "x.arrow") = Some (restored_body []) ∧ restored s = ∅ ∧ reclaimed s = ∅.

Lemma upper_good : good_handed upper_home upper_handed.
Proof.
  split; [split; [|split]|]; [|by vm_compute..]. repeat constructor; try done; refine (bool_decide_unpack _ _); by vm_compute.
Qed.

Lemma upper_start : rtc (restore_step one_row sample_prefix restored_body (λ _ _, True) upper_home) (0, [], empty_site) (0, paged_pool, sealing_site).
Proof.
  transitivity (0, [] : list (Proc (Σ := Site) (Act := MirrorActor)), flushed_site); [|transitivity (0, [] : list (Proc (Σ := Site) (Act := MirrorActor)), active_site);
    [|transitivity (0, [] : list (Proc (Σ := Site) (Act := MirrorActor)), sealing_site)]].
  - apply (all_done_reach _ AMirror flush_upper); [|by vm_compute..]. apply restarts_other.
    apply (starts_flush _ _ _ _ [lit "ACME"] (lit "x.arrow") (restored_body []) upper_active); [apply upper_good|by vm_compute|done].
  - apply (all_done_reach _ AMirror tick_upper); [|by vm_compute..]. apply restarts_other, starts_tick.
    constructor; [|constructor]. exists [lit "ACME"], (lit "x.arrow"). split_and!; [apply upper_good|by vm_compute..].
  - apply (all_done_reach _ AMirror (hand_over sample_prefix restored_body upper_handed)); [|by vm_compute..].
    apply restarts_other, starts_seal, upper_good.
  - apply start_all; [|by repeat constructor]. apply Forall_cons; split; [by apply restarts_checked|]. apply Forall_singleton, restarts_other, starts_worker.
Qed.

(** C34. A segment can be missed by a restore although its bytes were in the
    mirror throughout and no request failed.  The listing is made page by page;
    for a tenant whose name sorts before [_active] the sealed key belongs to an
    earlier page than the active copy, and an upload with its cleanup between
    the two pages leaves neither in the listing.  The restore reports success. *)
Theorem paged_listing_misses : ∃ pool s,
  rtc (restore_step one_row sample_prefix restored_body (λ _ _, True) upper_home) (0, [], empty_site) (0, pool, s) ∧ missed s.
Proof.
  assert (match exec mirror_allowedb 0 paged_pool sealing_site paged_schedule with
    | Some (t, _, s) => Some (t, bool_decide (restored s = ∅), bool_decide (reclaimed s = ∅),
        objects s !! key_of sample_prefix [lit "ACME"] (lit "x.arrow"),
        (λ r, (bool_decide (is_Some (began_objects r !! upper_active)), pulled <$> outcome r)) <$> restores s)
    | None => None end = Some (0, true, true, Some (restored_body []), [(true, Some 0)])) as H by (vm_compute; reflexivity).
  destruct (exec mirror_allowedb 0 paged_pool sealing_site paged_schedule) as [[[t pool] s]|] eqn:E; [|discriminate H].
  injection H as -> Hf%bool_decide_eq_true Hr%bool_decide_eq_true Ho Hm. exists pool, s. split.
  - etrans; [exact upper_start|]. eapply exec_reach; [|exact E]. apply mirror_allowedb_ok.
  - clear E. destruct (restores s) as [|r [|]] eqn:Er; [discriminate Hm| |discriminate Hm]. injection Hm as Hb%bool_decide_eq_true Hp.
    destruct (outcome r) as [sm|] eqn:Eo; [|discriminate Hp]. injection Hp as Hp. exists r, sm. by split_and!.
Qed.
