(* ===== verification/TableCache.v ===== *)
(** The cache of table metadata (loglake-storage, [iceberg.rs]): entries are
    served while they are young, refreshed in the background when they are not,
    and dropped by commits.  A refresh that was overtaken by an invalidation or
    another publication is fenced by an epoch.

    One key of the cache, one process; commits may be anybody's.  A step under the
    cache's write guard is one statement, as are a load of the table and the
    construction of its provider, which may fail.  The bound proved here on what a
    call may answer is what the drains rely on. *)

From stdpp Require Import prelude sorting relations.
From Stdlib Require Import ZArith Lia.
From S2P Require Import Prelude RustStr ConsumedProof Eff RelyGuarantee DrainCycle.

(** * State *)

(** [version] says which generation of the table the entry holds (they are
    numbered from 1) and [loaded_at] when it was loaded; the code does not keep
    these. *)
Record CachedTableEntry := mkCached { table : Table; refreshed_at : Z; version : nat; loaded_at : Z }.

(** A call of [cached_table_entry] that answered: when it began, the number of
    generations at the last invalidation before that, and the answer. *)
Record Call := mkCall { began : Z; began_floor : nat; answer : CachedTableEntry }.

Record Cache := mkCache {
  (** The generations of the table, newest first, with their times. *)
  hist : list (Z * Table);
  slot : option CachedTableEntry;
  epoch : Z;
  (** How many generations there were at the last invalidation. *)
  floor : nat;
  calls : list Call;
}.

Definition set_slot (e : option CachedTableEntry) (c : Cache) : Cache := mkCache (hist c) e (epoch c) (floor c) (calls c).
Definition bump_table_cache_epoch (c : Cache) : Cache := mkCache (hist c) (slot c) (epoch c + 1) (floor c) (calls c).

Definition STALE_TABLE_CACHE_CEILING_MULT : Z := 12.
Definition TABLE_CACHE_REFRESH_ATTEMPTS : nat := 3.

(** * Operations *)

Definition invalidate : Eff Cache unit :=
  stmt Local (λ _ c, let c := bump_table_cache_epoch c in (tt, mkCache (hist c) None (epoch c) (length (hist c)) (calls c))).

Definition table_cache_epoch : Eff Cache Z := query Local (λ _, epoch).

(** [load_table], with the version and the time. *)
Definition load_table : Eff Cache (Table * nat * Z) :=
  let* t := query Outside (λ now c, match hist c with g :: _ => Some (g.2, length (hist c), now) | [] => None end) in
  match t with Some t => Ret t | None => Err end.

Inductive Fence := Renewed (e : CachedTableEntry) | Superseded (e : CachedTableEntry) | Reload | Build.

Section Refresh.
(** The current snapshot and schema of a table, which are compared for equality
    only. *)
Context (snapshot_id : Table → option Z) (schema_id : Table → Z).

Definition same_generation (a b : Table) : bool :=
  bool_decide (table_uuid a = table_uuid b ∧ snapshot_id a = snapshot_id b ∧ schema_id a = schema_id b ∧
               length (snapshots a) = length (snapshots b)).

(** The first look under the write guard. *)
Definition renew (last : bool) (seen : Z) (l : Table * nat * Z) : Eff Cache Fence :=
  stmt Local (λ now c,
    if epoch c =? seen then
      match slot c with
      | Some existing =>
          if same_generation (table existing) l.1.1
          then let e := mkCached l.1.1 now l.1.2 l.2 in (Renewed e, set_slot (Some e) c)
          else (Build, c)
      | None => (Build, c)
      end
    else match slot c with
         | Some existing => (Superseded existing, c)
         | None => (if last then Build else Reload, c)
         end).

(** The second one: [Build] hands out what is not published. *)
Definition publish (last : bool) (seen : Z) (e : CachedTableEntry) : Eff Cache Fence :=
  stmt Local (λ _ c,
    if epoch c =? seen then (Renewed e, set_slot (Some e) (bump_table_cache_epoch c))
    else match slot c with
         | Some existing => (Superseded existing, c)
         | None => (if last then Build else Reload, c)
         end).

Fixpoint refresh_attempts (attempts : nat) : Eff Cache CachedTableEntry :=
  match attempts with
  | O => Err
  | S attempts =>
      let last := bool_decide (attempts = 0%nat) in
      let* seen := table_cache_epoch in
      let* l := load_table in
      let* f := renew last seen l in
      match f with
      | Renewed e | Superseded e => Ret e
      | Reload => refresh_attempts attempts
      | Build =>
          let* _ := query Outside (λ _ _, tt) in
          let* built := query Local (λ now _, now) in
          let e := mkCached l.1.1 built l.1.2 l.2 in
          let* f := publish last seen e in
          match f with
          | Renewed e | Superseded e => Ret e
          | Reload => refresh_attempts attempts
          | Build => Ret e
          end
      end
  end.

Definition refresh_table_cache_entry : Eff Cache CachedTableEntry := refresh_attempts TABLE_CACHE_REFRESH_ATTEMPTS.

(** An entry past [ttl] is served too, and refreshed by a process of its own. *)
Definition cached_table_entry (ttl : Z) : Eff Cache CachedTableEntry :=
  let* hit := query Local (λ now c,
    match slot c with
    | Some e =>
        let age := now - refreshed_at e in
        if age <? ttl then Some e else
        if age <? ttl * STALE_TABLE_CACHE_CEILING_MULT then Some e else None
    | None => None
    end) in
  match hit with Some e => Ret e | None => refresh_table_cache_entry end.

(** A call with its beginning and its answer on record. *)
Definition observed_call (ttl : Z) : Eff Cache unit :=
  let* b := query Local (λ now c, (now, floor c)) in
  let* e := cached_table_entry ttl in
  stmt Local (λ _ c, (tt, mkCache (hist c) (slot c) (epoch c) (floor c) (mkCall b.1 b.2 e :: calls c))).
End Refresh.

(** Anybody's commit. *)
Definition commit_table (t : Table) : Eff Cache unit :=
  stmt Append (λ now c, (tt, mkCache ((now, t) :: hist c) (slot c) (epoch c) (floor c) (calls c))).

(** * What a call may answer *)

(** A call takes at most [work]; [limit] is how long an entry is served. *)
Inductive CacheActor := ACall (start : Z) | AAny.

Definition cache_compat (a b : CacheActor) : Prop := True.

Section Bounds.
Context (snapshot_id : Table → option Z) (schema_id : Table → Z) (ttl work : Z).

Abbreviation St := (Z * Cache)%type (only parsing).

Definition cache_allowed (a : CacheActor) (prev now : Z) (l : Label) (o : Outcome) : Prop :=
  (l = Local → o = Done) ∧ ∀ start, a = ACall start → start ≤ now ≤ start + work.

(** The entry holds the generation [version e], and was current at [loaded_at e]. *)
Definition entry_ok (x : St) (e : CachedTableEntry) : Prop :=
  loaded_at e ≤ x.1 ∧
  ∃ newer since older, hist x.2 = newer ++ (since, table e) :: older ∧ version e = S (length older) ∧
    Forall (λ g, loaded_at e ≤ g.1) newer.

Definition limit : Z := Z.max ttl (ttl * STALE_TABLE_CACHE_CEILING_MULT).

Definition answer_ok (b : Z) (fl : nat) (x : St) (e : CachedTableEntry) : Prop :=
  entry_ok x e ∧ (fl ≤ version e)%nat ∧ b - limit - work ≤ loaded_at e.

Record cache_inv (x : St) : Prop := {
  ci_floor : (floor x.2 ≤ length (hist x.2))%nat;
  ci_slot e : slot x.2 = Some e → entry_ok x e ∧ (floor x.2 ≤ version e)%nat ∧ refreshed_at e ≤ loaded_at e + work;
  ci_calls k : k ∈ calls x.2 → answer_ok (began k) (began_floor k) x (answer k);
}.

Record cache_guar (a : CacheActor) (x y : St) : Prop := {
  cg_hist : ∃ new, hist y.2 = new ++ hist x.2 ∧ Forall (λ g, x.1 ≤ g.1) new;
  cg_epoch : epoch x.2 ≤ epoch y.2;
  cg_floor : (floor x.2 ≤ floor y.2)%nat;
  cg_fence : epoch y.2 = epoch x.2 → floor y.2 = floor x.2;
  cg_slot : (slot y.2 = slot x.2 ∧ epoch y.2 = epoch x.2) ∨ ∀ e, slot y.2 = Some e → y.1 - work ≤ loaded_at e;
}.

Abbreviation Safe := (safe cache_inv cache_allowed cache_compat cache_guar).
Abbreviation Rely := (rely cache_inv cache_compat cache_guar).

(** What any number of steps do. *)
Record evolves (x y : St) : Prop := {
  ev_time : x.1 ≤ y.1;
  ev_hist : ∃ new, hist y.2 = new ++ hist x.2 ∧ Forall (λ g, x.1 ≤ g.1) new;
  ev_epoch : epoch x.2 ≤ epoch y.2;
  ev_floor : (floor x.2 ≤ floor y.2)%nat;
  ev_fence : epoch y.2 = epoch x.2 → floor y.2 = floor x.2;
}.

Lemma evolves_refl x : evolves x x.
Proof. split; try done. by exists []. Qed.

Lemma evolves_step a x y : x.1 ≤ y.1 → cache_guar a x y → evolves x y.
Proof. intros Hle []. by split. Qed.

(** What every step keeps, rivals keep. *)
Lemma rely_keeps (P : St → Prop) a x y :
  (∀ b x y, x.1 ≤ y.1 → cache_guar b x y → P x → P y) → Rely a x y → P x → P y.
Proof. intros HP. induction 1 as [|x y z (_ & _ & Hle & b & _ & Hg) _ IH]; eauto. Qed.

Lemma cache_guar_tick a t now c : cache_guar a (t, c) (now, c).
Proof. split; try done; [by exists []|by left]. Qed.

Lemma entry_evolves x y e : evolves x y → entry_ok x e → entry_ok y e.
Proof.
  intros [Ht (new & E & F) _ _ _] (Hl & newer & since & older & Eh & Ev & Fn). split; [lia|].
  exists (new ++ newer), since, older. split_and!; [by rewrite E, Eh, app_assoc|done|]. apply Forall_app. split; [|done].
  eapply Forall_impl; [exact F|]. simpl. intros. lia.
Qed.

Lemma answer_evolves b fl x y e : evolves x y → answer_ok b fl x e → answer_ok b fl y e.
Proof. intros He (? & ? & ?). split_and!; [by eapply entry_evolves|done..]. Qed.

(** A step that keeps the entry and the calls. *)
Lemma cache_inv_step x y :
  evolves x y → slot y.2 = slot x.2 → floor y.2 = floor x.2 → calls y.2 = calls x.2 → cache_inv x → cache_inv y.
Proof.
  intros He Es Ef Ec []. destruct (ev_hist _ _ He) as (new & Eh & _). split.
  - rewrite Ef, Eh, length_app. lia.
  - intros e. rewrite Es, Ef. intros (? & ? & ?)%ci_slot0. split_and!; [by eapply entry_evolves|done..].
  - intros k. rewrite Ec. intros Hk%ci_calls0. by eapply answer_evolves.
Qed.

Lemma cache_inv_tick t now c : t ≤ now → cache_inv (t, c) → cache_inv (now, c).
Proof. intros Hle. apply cache_inv_step; try done. eapply (evolves_step AAny); [done|apply cache_guar_tick]. Qed.

Definition in_time (a : CacheActor) (now : Z) : Prop := ∀ start, a = ACall start → start ≤ now ≤ start + work.

(** A statement that only looks, under an assertion that every step keeps. *)
Lemma safe_look (P : St → Prop) a l {B : Set} (f : Z → Cache → B) Q x :
  (∀ b x y, x.1 ≤ y.1 → cache_guar b x y → P x → P y) → P x →
  (∀ c now, P (now, c) → cache_inv (now, c) → in_time a now → Q (Some (f now c)) (now, c)) → (l ≠ Local → ∀ y, Q None y) →
  Safe a (query l f) Q x.
Proof.
  intros HP Hx HQ HN. apply safe_stmt. intros [t c] Hr Hi now o Hle [Hal Hin]. cbn in *.
  assert (P (now, c)) as Hnow by (eapply (HP AAny (t, c)); [done|apply cache_guar_tick|by eapply rely_keeps]).
  pose proof (cache_inv_tick t now c Hle Hi) as Hi'.
  destruct o; cbn; (split_and!; [done|apply cache_guar_tick|]); [by apply HQ|..]; apply HN; intros ->; by discriminate (Hal eq_refl).
Qed.

(** ** A refresh *)

Section Call.
Context (start b : Z) (fl : nat) (Hwork : 0 ≤ work) (Httl : 0 ≤ ttl).

Definition ready (x : St) : Prop := b ≤ x.1 ∧ (fl ≤ floor x.2)%nat.

Lemma ready_keeps c x y : x.1 ≤ y.1 → cache_guar c x y → ready x → ready y.
Proof. intros Hle [_ _ ? _ _] [? ?]. split; lia. Qed.

(** After the epoch [seen] was read at [te]: the entry published since is not
    older than a call. *)
Definition fenced (seen te : Z) (x : St) : Prop :=
  b ≤ te ≤ x.1 ∧ seen ≤ epoch x.2 ∧ (epoch x.2 = seen ∨ ∀ e, slot x.2 = Some e → te - work ≤ loaded_at e).

Lemma fenced_keeps seen te c x y : x.1 ≤ y.1 → cache_guar c x y → fenced seen te x → fenced seen te y.
Proof.
  intros Hle [_ He _ _ Hs] ([? ?] & Hse & Hf). split_and!; [lia..|].
  destruct Hs as [[Es Ee]|Hs]; [rewrite Es, Ee; exact Hf|right]. intros e Hy. specialize (Hs e Hy). lia.
Qed.

(** After the load: publishing is safe while the epoch is [seen]. *)
Definition loaded (seen te : Z) (l : Table * nat * Z) (x : St) : Prop :=
  ready x ∧ fenced seen te x ∧ te ≤ l.2 ∧ start ≤ l.2 ∧ (fl ≤ l.1.2)%nat ∧
  entry_ok x (mkCached l.1.1 0 l.1.2 l.2) ∧ (epoch x.2 = seen → (floor x.2 ≤ l.1.2)%nat).

Lemma loaded_keeps seen te l c x y : x.1 ≤ y.1 → cache_guar c x y → loaded seen te l x → loaded seen te l y.
Proof.
  intros Hle Hg (Hr & Hf & ? & ? & ? & He & Hfl). pose proof Hg as [_ Hep _ Hfe _]. split_and!; try done.
  - by eapply ready_keeps.
  - by eapply fenced_keeps.
  - eapply entry_evolves; [by eapply evolves_step|done].
  - intros E. destruct Hf as (_ & ? & _). rewrite Hfe; [apply Hfl|]; lia.
Qed.

Abbreviation Answer := (λ r y, ∀ e, r = Some e → answer_ok b fl y e).

Lemma limit_nonneg : 0 ≤ limit.
Proof using Httl. unfold limit, STALE_TABLE_CACHE_CEILING_MULT. lia. Qed.

Lemma loaded_answer seen te l x built : loaded seen te l x → answer_ok b fl x (mkCached l.1.1 built l.1.2 l.2).
Proof using Hwork Httl.
  intros ([? _] & ([? ?] & _) & ? & ? & ? & He & _). pose proof limit_nonneg. split_and!; [exact He|done|simpl; lia].
Qed.

(** The entry that overtook a refresh. *)
Lemma superseded_answer seen te x e :
  ready x → fenced seen te x → cache_inv x → epoch x.2 ≠ seen → slot x.2 = Some e → answer_ok b fl x e.
Proof using Httl.
  intros [_ Hfl] ([? ?] & _ & [?|Hs]) Hi Hne Hse; [done|]. destruct (ci_slot _ Hi e Hse) as (? & ? & _). specialize (Hs e Hse).
  pose proof limit_nonneg. split_and!; [done|lia|lia].
Qed.

Lemma safe_renew last seen te l x :
  loaded seen te l x →
  Safe (ACall start) (renew snapshot_id schema_id last seen l)
    (λ r y, match r with
            | Some (Renewed e | Superseded e) => answer_ok b fl y e
            | Some Reload => ready y
            | Some Build => loaded seen te l y
            | None => True
            end) x.
Proof using Hwork Httl.
  intros Hx. apply safe_stmt. intros [t c] Hr Hi now o Hle [Hal Hin]. rewrite (Hal eq_refl). cbn in Hle. cbn.
  assert (loaded seen te l (now, c)) as Hl.
  { eapply (loaded_keeps _ _ _ AAny (t, c)); [done|apply cache_guar_tick|]. eapply rely_keeps; [|done..]. intros *. apply loaded_keeps. }
  pose proof (cache_inv_tick t now c Hle Hi) as Hi'. pose proof Hl as (Hrd & Hfe & ? & ? & ? & He & Hfl).
  assert (cache_inv (now, c) ∧ cache_guar (ACall start) (t, c) (now, c)) as [??] by (split; [done|apply cache_guar_tick]).
  destruct (epoch c =? seen) eqn:Ee; [apply Z.eqb_eq in Ee|apply Z.eqb_neq in Ee].
  - destruct (slot c) as [existing|] eqn:Es; [|by split_and!]. destruct (same_generation _ _ _ _); [|by split_and!]. cbn.
    destruct (Hin start eq_refl). split_and!.
    + split; cbn; [apply Hi'| |].
      * intros e [= <-]. split_and!; [exact He|by apply Hfl|cbn; lia].
      * intros k Hk. by apply (ci_calls _ Hi').
    + split; cbn; try done; [by exists []|]. right. intros e [= <-]. cbn. lia.
    + exact (loaded_answer seen te l (now, c) now Hl).
  - destruct (slot c) as [existing|] eqn:Es; cbn; split_and!; try done.
    + by eapply superseded_answer.
    + by destruct last.
Qed.

Lemma safe_publish last seen te l built x :
  loaded seen te l x → built ≤ start + work →
  Safe (ACall start) (publish last seen (mkCached l.1.1 built l.1.2 l.2))
    (λ r y, match r with
            | Some (Renewed e | Superseded e) => answer_ok b fl y e
            | Some Reload => ready y
            | Some Build => answer_ok b fl y (mkCached l.1.1 built l.1.2 l.2)
            | None => True
            end) x.
Proof using Hwork Httl.
  intros Hx Hb. apply safe_stmt. intros [t c] Hr Hi now o Hle [Hal Hin]. rewrite (Hal eq_refl). cbn in Hle. cbn.
  assert (loaded seen te l (now, c)) as Hl.
  { eapply (loaded_keeps _ _ _ AAny (t, c)); [done|apply cache_guar_tick|]. eapply rely_keeps; [|done..]. intros *. apply loaded_keeps. }
  pose proof (cache_inv_tick t now c Hle Hi) as Hi'. pose proof Hl as (Hrd & Hfe & ? & ? & ? & He & Hfl).
  destruct (epoch c =? seen) eqn:Ee; [apply Z.eqb_eq in Ee|apply Z.eqb_neq in Ee].
  - cbn. destruct (Hin start eq_refl). split_and!.
    + split; cbn; [apply Hi'| |].
      * intros e [= <-]. split_and!; [exact He|by apply Hfl|cbn; lia].
      * intros k Hk. by apply (ci_calls _ Hi').
    + split; cbn; try done; [by exists []|lia|]. right. intros e [= <-]. cbn. lia.
    + exact (loaded_answer seen te l (now, c) built Hl).
  - destruct (slot c) as [existing|] eqn:Es; cbn; (split_and!; [done|apply cache_guar_tick|]).
    + by eapply superseded_answer.
    + destruct last; [|done]. exact (loaded_answer seen te l (now, c) built Hl).
Qed.

Lemma loaded_start seen te tl c since u older :
  hist c = (since, u) :: older → ready (tl, c) → fenced seen te (tl, c) → cache_inv (tl, c) → start ≤ tl →
  loaded seen te (u, S (length older), tl) (tl, c).
Proof.
  intros Eh Hr Hf Hi Hs. pose proof (ci_floor _ Hi) as Hfl. cbn in Hfl. rewrite Eh in Hfl. cbn in Hfl.
  pose proof Hr as [_ ?]. pose proof Hf as ([_ ?] & _). cbn in *. split; [done|]. split; [done|]. split; [done|]. split; [done|].
  split; [cbn; lia|]. split; [|by intros _]. split; [done|]. exists [], since, older. by split_and!.
Qed.

Lemma safe_refresh attempts x :
  ready x → Safe (ACall start) (refresh_attempts snapshot_id schema_id attempts) (λ r y, ∀ e, r = Some e → answer_ok b fl y e) x.
Proof using Hwork Httl.
  revert x. induction attempts as [|attempts IH]; intros x Hx; [done|]. cbn [refresh_attempts]. cbv zeta.
  apply safe_bind, (safe_look ready); [apply ready_keeps|done| |done]. intros c te Hr Hi Ht.
  assert (ready (te, c) ∧ fenced (epoch c) te (te, c)) as HP by (split; [done|]; split_and!; [apply Hr|done|done|by left]).
  apply safe_bind, safe_bind, (safe_look (λ x, ready x ∧ fenced (epoch c) te x)); [|exact HP| |done].
  { intros a y z Hle Hg [? ?]. split; [by eapply ready_keeps|by eapply fenced_keeps]. }
  intros c1 tl [Hr1 Hf1] Hi1 Ht1. destruct (hist c1) as [|[since u] older] eqn:Eh; [done|].
  pose proof (loaded_start (epoch c) te tl c1 since u older Eh Hr1 Hf1 Hi1 (proj1 (Ht1 start eq_refl))) as Hl.
  apply safe_bind. eapply safe_mono; [|by apply safe_renew].
  intros [[e|e| |]|] y Hy; [by intros ? [= <-]..|by apply IH| |done].
  apply safe_bind, (safe_look (loaded (epoch c) te (u, S (length older), tl))); [intros *; apply loaded_keeps|done| |done].
  intros c2 t2 Hl2 _ _. apply safe_bind, (safe_look (loaded (epoch c) te (u, S (length older), tl))); [intros *; apply loaded_keeps|done| |done].
  intros c3 t3 Hl3 _ Ht3. cbv zeta. apply safe_bind. eapply safe_mono; [|apply (safe_publish _ _ te _ t3); [exact Hl3|by apply Ht3]].
  intros [[e|e| |]|] z Hz; [by intros ? [= <-]..|by apply IH|by intros ? [= <-]|done].
Qed.

Lemma safe_cached_table_entry x : ready x → Safe (ACall start) (cached_table_entry snapshot_id schema_id ttl)
  (λ r y, ∀ e, r = Some e → answer_ok b fl y e) x.
Proof using Hwork Httl.
  intros Hx. apply safe_bind, (safe_look ready); [apply ready_keeps|done| |done]. intros c now [Hb Hf] Hi Ht.
  assert (∀ e, slot c = Some e → now - refreshed_at e < limit → answer_ok b fl (now, c) e) as Hhit.
  { intros e Es Hage. destruct (ci_slot _ Hi e Es) as (? & ? & ?). cbn in *. split_and!; [done|lia|lia]. }
  destruct (slot c) as [e|] eqn:Es; [|by apply safe_refresh]. unfold limit in Hhit. cbn [refreshed_at].
  destruct (now - refreshed_at e <? ttl) eqn:E1; [apply Z.ltb_lt in E1; intros ? [= <-]; apply Hhit; [done|lia]|].
  destruct (now - refreshed_at e <? ttl * STALE_TABLE_CACHE_CEILING_MULT) eqn:E2; [|by apply safe_refresh].
  apply Z.ltb_lt in E2. intros ? [= <-]. apply Hhit; [done|lia].
Qed.
End Call.

(** ** The processes *)

Inductive cache_job : CacheActor → Eff Cache unit → Prop :=
| JCommitTable t : cache_job AAny (commit_table t)
| JInvalidate : cache_job AAny invalidate
| JBackground start : cache_job (ACall start) (ignore (refresh_table_cache_entry snapshot_id schema_id))
| JCall start : cache_job (ACall start) (observed_call snapshot_id schema_id ttl).

Definition cache_step : Config → Config → Prop := pstep cache_allowed cache_compat cache_job.

Lemma safe_commit_table t x : Safe AAny (commit_table t) (λ _ _, True) x.
Proof.
  apply safe_stmt. intros [t0 c] _ Hi now o Hle _. cbn in Hle.
  set (c' := mkCache ((now, t) :: hist c) (slot c) (epoch c) (floor c) (calls c)).
  assert (cache_guar AAny (t0, c) (now, c')) as Hg.
  { split; cbn; try done; [|by left]. exists [(now, t)]. split; [done|]. by repeat constructor. }
  assert (cache_inv (now, c')) as Hi' by (apply (cache_inv_step (t0, c)); [by eapply evolves_step|done..]).
  pose proof (cache_inv_tick t0 now c Hle Hi). destruct o; cbn; (split_and!; [done| |done]); [exact Hg|exact Hg|apply cache_guar_tick].
Qed.

Lemma safe_invalidate_table x : Safe AAny invalidate (λ _ _, True) x.
Proof.
  apply safe_stmt. intros [t0 c] _ Hi now o Hle [Hal _]. rewrite (Hal eq_refl). cbn in Hle. cbn.
  pose proof (cache_inv_tick t0 now c Hle Hi) as Hi'. split; [|split; [|done]].
  - constructor; cbn; [done|done|]. intros k Hk. by apply (ci_calls _ Hi').
  - constructor; cbn; [by exists []|lia|apply Hi|lia|by right].
Qed.

Lemma safe_observed start x : 0 ≤ work → 0 ≤ ttl → Safe (ACall start) (observed_call snapshot_id schema_id ttl) (λ _ _, True) x.
Proof.
  intros Hw Ht. apply safe_bind, (safe_look (λ _, True)); [done..| |done]. intros c now _ Hi _. apply safe_bind.
  eapply safe_mono; [|apply (safe_cached_table_entry start now (floor c)); [done..|by split]]. intros [e|] y Hy; [|done].
  specialize (Hy e eq_refl). apply safe_stmt. intros [t1 c1] Hr Hi1 t2 o Hle [Hal _]. rewrite (Hal eq_refl). cbn in Hle. cbn.
  assert (answer_ok now (floor c) (t2, c1) e) as Ha.
  { eapply (answer_evolves _ _ (t1, c1)); [eapply (evolves_step AAny); [done|apply cache_guar_tick]|].
    eapply (rely_keeps (λ y, answer_ok now (floor c) y e)); [|exact Hr|done].
    intros d z w Hzw Hg. apply answer_evolves. by eapply evolves_step. }
  pose proof (cache_inv_tick t1 t2 c1 Hle Hi1) as Hi2. split; [|split; [|done]].
  - constructor; cbn; [apply Hi2|apply Hi2|]. intros k [->|Hk]%elem_of_cons; [exact Ha|by apply (ci_calls _ Hi2)].
  - constructor; cbn; try done; [by exists []|by left].
Qed.

Lemma cache_job_safe a p x : 0 ≤ work → 0 ≤ ttl → cache_job a p → cache_inv x → Safe a p (λ _ _, True) x.
Proof.
  intros Hw Ht [] _.
  - apply safe_commit_table.
  - apply safe_invalidate_table.
  - apply safe_bind. eapply safe_mono; [|apply (safe_refresh start x.1 0); [done..|split; [done|lia]]]. by intros [?|].
  - by apply safe_observed.
Qed.
End Bounds.

(** An entry that was current at [oldest] or later is what the drains' model of a
    cached read allows. *)
Lemma generation_newer oldest newer since t older :
  Forall (λ g, oldest ≤ g.1) newer → generation oldest (length newer) (newer ++ (since, t) :: older) = Some t.
Proof.
  induction 1 as [|[s u] newer Hs _ IH]; simpl; [by destruct older|]. simpl in Hs.
  rewrite (proj2 (Z.leb_le _ _) Hs), IH. by destruct newer.
Qed.

(** C16. What a cached read of a table answers.  Calls, background refreshes,
    invalidations and commits of any process interleave, loads fail, and processes
    die anywhere; a call and a refresh take at most [work] each.  Then every answer
    is a generation of the table that is not older than the last invalidation
    before the call began, and that was current within twelve times the entry's
    lifetime, and [work], of that beginning: one of those the drains' model of the
    read ([generation]) may answer. *)
Theorem cached_reads_refine snapshot_id schema_id ttl work clock c clock' pool c' :
  0 ≤ work → 0 ≤ ttl → slot c = None → calls c = [] → (floor c ≤ length (hist c))%nat →
  rtc (cache_step snapshot_id schema_id ttl work) (clock, [], c) (clock', pool, c') →
  ∀ k, k ∈ calls c' →
    ∃ lag, (lag + began_floor k ≤ length (hist c'))%nat ∧
      generation (began k - limit ttl - work) lag (hist c') = Some (table (answer k)).
Proof.
  intros Hw Ht Hs Hk Hf Hrun k Hin.
  assert (cache_inv ttl work (clock, c)) as Hi.
  { split; cbn; [done|by rewrite Hs|]. rewrite Hk. by intros ? ?%elem_of_nil. }
  pose proof (pool_invariant (cache_inv ttl work) _ _ _ _ (λ a p x, cache_job_safe _ _ ttl work a p x Hw Ht) _ _ _ Hi Hrun) as Hi'.
  destruct (ci_calls _ _ _ Hi' k Hin) as ((_ & newer & since & older & Eh & Ev & Fn) & Hfl & Hold). cbn in Eh.
  exists (length newer). rewrite Eh. split; [rewrite length_app; simpl; lia|]. apply generation_newer.
  eapply Forall_impl; [exact Fn|]. simpl. intros. lia.
Qed.

(** * A run *)

Definition cache_allowedb (work : Z) (a : CacheActor) (prev now : Z) (l : Label) (o : Outcome) : bool :=
  match l, o with Local, Done => true | Local, _ => false | _, _ => true end &&
  match a with ACall start => (start <=? now) && (now <=? start + work) | AAny => true end.

Lemma cache_allowedb_ok work a prev now l o : cache_allowedb work a prev now l o = true → cache_allowed work a prev now l o.
Proof.
  unfold cache_allowedb. rewrite andb_true_iff. intros [Hl Ha]. split; [by intros ->; destruct o|].
  intros start ->. by rewrite andb_true_iff, !Z.leb_le in Ha.
Qed.

Definition sample_table (uuid : rstr) : Table := mkTable uuid None [].
Definition sample_cache : Cache := mkCache [(0, sample_table [1])] None 0 0 [].

(** A call that loads the table, a commit, and a call that is served the entry
    from before it while another refresh waits for its load. *)
Definition cache_pool : list (Proc (Σ := Cache)) :=
  [mkProc (ACall 10) (observed_call (λ _, None) (λ _, 0) 5); mkProc AAny (commit_table (sample_table [2]));
   mkProc (ACall 20) (observed_call (λ _, None) (λ _, 0) 5);
   mkProc (ACall 21) (ignore (refresh_table_cache_entry (λ _, None) (λ _, 0)))].

Definition cache_schedule : list (nat * Z * Outcome) :=
  [(0%nat, 10, Done); (0%nat, 10, Done); (0%nat, 11, Done); (0%nat, 12, Done); (0%nat, 12, Done); (0%nat, 12, Done);
   (0%nat, 13, Done); (0%nat, 13, Done); (0%nat, 13, Done); (1%nat, 15, Done); (2%nat, 20, Done); (3%nat, 21, Done); (3%nat, 22, Done);
   (2%nat, 23, Done); (2%nat, 23, Done)].

Definition cache_end : option Config := exec (cache_allowedb 5) 5 cache_pool sample_cache cache_schedule.

Lemma cache_run c : cache_end = Some c → rtc (cache_step (λ _, None) (λ _, 0) 5 5) (5, [], sample_cache) c.
Proof.
  intros E. eapply rtc_trans; [apply (start_all _ _ _ 5 cache_pool)|].
  - unfold cache_pool. repeat (apply Forall_cons; split); [apply JCall|apply JCommitTable|apply JCall|apply JBackground|by apply Forall_nil].
  - by repeat constructor.
  - eapply exec_reach; [apply cache_allowedb_ok|exact E].
Qed.

Lemma cached_reads_refine_witness : ∃ clock' pool c' k, cache_end = Some (clock', pool, c') ∧ k ∈ calls c' ∧ began k = 20 ∧
  ∃ lag, (lag + began_floor k ≤ length (hist c'))%nat ∧
    generation (began k - limit 5 - 5) lag (hist c') = Some (table (answer k)).
Proof.
  assert ((λ c, began <$> calls c.2) <$> cache_end = Some [20; 10]) as El by (vm_compute; reflexivity).
  destruct cache_end as [[[clock' pool] c']|] eqn:E; [|done]. injection El as El. cbn [snd] in El.
  destruct (calls c') as [|k l] eqn:Ek; [done|]. injection El as El _.
  exists clock', pool, c', k. split; [done|]. split; [rewrite Ek; by left|]. split; [done|].
  apply (cached_reads_refine (λ _, None) (λ _, 0) 5 5 5 sample_cache clock' pool c'); try done; [cbn; lia|by apply cache_run|].
  rewrite Ek. by left.
Defined.
