(* ===== verification/FsDrain.v ===== *)
(** The file-system drain (loglake-compactor, [lib.rs]): one cycle disposes of
    the orphans, claims sealed segments by renaming them, commits bounded batches
    to the Iceberg table concurrently, finishes or releases what it claimed and
    sweeps [committed/].

    One WAL directory and the table it drains into.  The process acts on both one
    statement at a time: a file-system call of the [Prog]s of loglake-wal, a read
    or a commit of the table.  What the machine answers (which calls fail, ages
    of files, the mirror ledger's marks) is a function of time.  The commits in
    flight are polled by [FuturesUnordered::next] only; a schedule says which one
    acts. *)

From stdpp Require Import prelude gmap strings sorting.
From Stdlib Require Import ZArith Lia.
From S2P Require Import Prelude RustStr BTree WalFrame WalDisk WalLifecycle WalConsumer WalRetention.

(** * Moves of several segments *)

(** [retain_owned_sealed] for a known owner. *)
Fixpoint refuse_stale (to_string : Uuid → rstr) (uuid : rstr) (sealed : list path) : Prog (list path) :=
  match sealed with
  | [] => Ret []
  | p :: sealed =>
      let! o := classify_segment_owner to_string p uuid in
      match o with
      | Stale dropped =>
          let! _ := quarantine_stale_segment p dropped in
          refuse_stale to_string uuid sealed
      | _ => let! kept := refuse_stale to_string uuid sealed in Ret (p :: kept)
      end
  end.

Definition retain_owned_sealed (to_string : Uuid → rstr) (sealed : list path) (owner : option rstr) : Prog (list path) :=
  match owner with None => Ret sealed | Some uuid => refuse_stale to_string uuid sealed end.

Fixpoint release_segments (claimed : list path) : Prog unit :=
  match claimed with
  | [] => Ret tt
  | c :: claimed => let! _ := release_segment c in release_segments claimed
  end.

(** Claims a batch, or none of it. *)
Fixpoint claim_batch (selected claimed : list path) : Prog (option (list path)) :=
  match selected with
  | [] => Ret (Some claimed)
  | s :: selected =>
      let! r := claim_segment s in
      match r with
      | Some p => claim_batch selected (claimed ++ [p])
      | None => let! _ := release_segments claimed in Ret None
      end
  end.

Fixpoint finish_segments (claimed : list path) : Prog unit :=
  match claimed with
  | [] => Ret tt
  | c :: claimed => let! _ := finish_segment c in finish_segments claimed
  end.

From S2P Require Import ConsumedProof Eff Catalog DrainCycle.

(** * The host *)

Record Answers := mkAnswers {
  (** Whether a call succeeds, and how much of a short write gets through. *)
  succeeds : bool;
  written : nat;
  ages : path → Z;
  (** [mark_mirror_ledger_at] *)
  ledger_marks : option (list rstr);
}.

Record Host := mkHost {
  sys : Sys;
  disk : Disk;
  (** The segments that writers have sealed so far, with their contents. *)
  sealed : gmap rstr bytes;
  (** When a segment's file was last written; a rename keeps it. *)
  mtime : rstr → Z;
  (** Process memory: how many generations the table had when the process last
      emptied its cache, how long the log was when it started, and the read
      failures charged to segments. *)
  loaded : nat;
  booted : nat;
  failures : gmap rstr Z;
  answers : Z → Answers;
}.

Definition set_sys (s : Sys) (h : Host) : Host :=
  mkHost s (disk h) (sealed h) (mtime h) (loaded h) (booted h) (failures h) (answers h).
Definition set_disk (d : Disk) (h : Host) : Host :=
  mkHost (sys h) d (sealed h) (mtime h) (loaded h) (booted h) (failures h) (answers h).
Definition set_loaded (k : nat) (h : Host) : Host :=
  mkHost (sys h) (disk h) (sealed h) (mtime h) k (booted h) (failures h) (answers h).
Definition set_failures (f : gmap rstr Z) (h : Host) : Host :=
  mkHost (sys h) (disk h) (sealed h) (mtime h) (loaded h) (booted h) f (answers h).

(** ** Statements *)

Definition through {R : Set} (op : Op R) (failed : R) {A} (k : R → Eff Host A) : Eff Host A :=
  Stmt Local
    (λ now h, match WalDisk.perform (disk h) (succeeds (answers h now)) (written (answers h now)) op with
              | Some (r, d) => (r, set_disk d h)
              | None => (failed, h)
              end)
    (λ r, match r with Some r => k r | None => Err end).

Definition syscall {R : Type} (op : Op R) {A} : (R → Eff Host A) → Eff Host A :=
  match op in Op R return (R → Eff Host A) → Eff Host A with
  | OpExists p => through (OpExists p) false
  | OpCreate p => through (OpCreate p) None
  | OpAppend i bs => through (OpAppend i bs) 0%nat
  | OpSyncFile i => through (OpSyncFile i) None
  | OpSyncDir D => through (OpSyncDir D) None
  | OpRename s t => through (OpRename s t) None
  | OpRemove p => through (OpRemove p) None
  | OpMkdir D => through (OpMkdir D) None
  | OpRead p => through (OpRead p) None
  | OpReadDir D => through (OpReadDir D) None
  end.

(** A program of loglake-wal. *)
Fixpoint io {A} (p : Prog A) : Eff Host A :=
  match p with
  | WalDisk.Ret a => Ret a
  | Step op k => syscall op (λ r, io (k r))
  end.

(** A program of the table side. *)
Fixpoint on_sys {A} (p : Eff Sys A) : Eff Host A :=
  match p with
  | Ret a => Ret a
  | Err => Err
  | Stmt l f k => Stmt l (λ now h, let '(b, s) := f now (sys h) in (b, set_sys s h)) (λ r, on_sys (k r))
  end.

(** The [?] operator. *)
Definition must {A} (p : Eff Host (option A)) : Eff Host A :=
  let* r := p in match r with Some a => Ret a | None => Err end.

Definition clock : Eff Host Z := query Local (λ now _, now).

(** [std::fs::metadata]: length and mtime. *)
Definition stat (p : path) : Eff Host (option (Z * Z)) :=
  query Local (λ now h,
    match live (disk h) !! p ≫= λ i, inodes (disk h) !! i with
    | Some nd => if succeeds (answers h now) then Some (len (data nd), mtime h p.2) else None
    | None => None
    end).

(** [cached_table_entry]: not older than what was current when the cache was
    last emptied. *)
Definition cached_entry (g : Target) : Eff Host (option Table) :=
  query ProofRead (λ now h,
    let gens := tables (sys h) g in
    let lag := Nat.min (cache_lag (world (sys h) now) g) (length gens - loaded h) in
    generation (now - cache_ceiling (sys h)) lag gens).

Definition invalidate_cached_table (g : Target) : Eff Host unit :=
  stmt Local (λ _ h, (tt, set_loaded (length (tables (sys h) g)) h)).

(** * Decisions *)

Record FsConfig := mkFs {
  max_segments : Z;
  max_bytes : Z;
  fs_commit_batch : option (Z * Z);
  workers : nat;
  cycle_budget : Z;
  inflight_budget : Z;
  poison_limit : Z;
  retention : Z;
}.

Definition CONSUMER_MAX_RETENTION : Z := 3600 * 1000.
Definition CONSUMER_STALE_AFTER : Z := 300 * 1000.
Definition MAX_PASS_CLAIM_ATTEMPTS : Z := 3.

Definition admit_batch (inflight_len workers : nat) (inflight_bytes batch_bytes budget_bytes : Z) : bool :=
  if (workers <=? inflight_len)%nat then false else
  if (inflight_len =? 0)%nat then true else
  saturating_add 64 inflight_bytes batch_bytes <=? budget_bytes.

Definition charge_pass_attempt (attempts : gmap rstr Z) (p : path) : gmap rstr Z :=
  <[p.2 := saturating_add 32 (default 0 (attempts !! p.2)) 1]> attempts.

Definition withhold_spent_segment (attempts : gmap rstr Z) (p : path) : bool * gmap rstr Z :=
  match attempts !! p.2 with
  | None => (false, attempts)
  | Some spent =>
      if spent <? MAX_PASS_CLAIM_ATTEMPTS then (false, attempts) else
      (true, if spent =? MAX_PASS_CLAIM_ATTEMPTS then <[p.2 := spent + 1]> attempts else attempts)
  end.

(** [fresh.retain(..)] *)
Fixpoint retain_unspent (attempts : gmap rstr Z) (fresh : list path) : list path * gmap rstr Z :=
  match fresh with
  | [] => ([], attempts)
  | p :: fresh =>
      let '(withheld, attempts) := withhold_spent_segment attempts p in
      let '(kept, attempts) := retain_unspent attempts fresh in
      (if withheld then kept else p :: kept, attempts)
  end.

(** The orphan's absence from the consumed set is evidence. *)
Definition covered (floor sealed_at : option Z) : bool :=
  match floor, sealed_at with
  | None, _ => true
  | Some floor, Some sealed_at => floor + HISTORY_SKEW_MARGIN_MS <=? sealed_at
  | Some _, None => false
  end.

(** * The cycle *)

Section Drain.
Context `{!ProofJson} {batch : Type} `{!ArrowIpc batch} (to_string : Uuid → rstr).
(** The serialized [PoisonNote] and the process id in its temporary name. *)
Context (note : path → Z → bytes) (pid : rstr).
Context (cfg : FsConfig) (g : Target) (owner : option rstr).

(** ** Orphans *)

Definition quarantine_processing_orphans : Eff Host unit :=
  let* _ := io recover_orphaned_processing in Ret tt.

(** [consumed_segments_and_history_floor] *)
Definition consumed_segments_and_history_floor : Eff Host (list rstr * option Z) :=
  let* t := must (cached_entry g) in
  Ret (cumulative_consumed_segments t, retained_history_floor t).

Definition classify_orphan (consumed : list rstr) (floor : option Z) (p : path) : Eff Host unit :=
  if bool_decide (p.2 ∈ consumed) then must (io (call (OpRemove p))) else
  let* m := stat p in
  if negb (covered floor (snd <$> m)) then Ret tt else
  let dest := (SealedDir, p.2) in
  let* e := io (call (OpExists dest)) in
  if e : bool then Ret tt else must (io (call (OpRename p dest))).

Definition dispose_orphans_at : Eff Host unit :=
  let* orphans := must (io list_orphaned) in
  if bool_decide (length orphans = 0%nat) then Ret tt else
  let* known := consumed_segments_and_history_floor in
  let* _ := must (io (call (OpMkdir SealedDir))) in
  each_ (classify_orphan known.1 known.2) orphans.

(** ** Commits *)

Inductive CommitResult := CommitOk (segments : Z) | UnreadableSegments (l : list path) | CommitMismatch | CommitFailed.

Definition filesystem_terminal_consumed_proof_entries : Eff Host (list rstr) :=
  let* t := must (cached_entry g) in
  match durable_consumed_proof t with
  | Valid proof =>
      let* visible := must (io list_visible) in
      let* orphans := must (io list_orphaned) in
      let* poisoned := must (io list_poisoned) in
      let protected := (snd <$> filter (λ p : path, p.1 ≠ CommittedDir) visible) ++ (snd <$> orphans ++ poisoned) in
      Ret (filter (λ i, i ∉ protected) (segment_id <$> entries proof))
  | _ => Ret []
  end.

Definition read_claimed (claimed : list path) : Eff Host (list (path * option (list batch))) :=
  each (λ acc p, let* r := io (read_segment_file p) in Ret (acc ++ [(p, r)])) claimed [].

Definition commit_claimed (claimed : list path) : Eff Host CommitResult :=
  let* results := read_claimed claimed in
  let unreadable := fst <$> filter (λ r, r.2 = None) results in
  if bool_decide (length unreadable ≠ 0%nat) then Ret (UnreadableSegments unreadable) else
  let bs := results ≫= λ r, default [] r.2 in
  match bs with
  | [] => Ret (CommitOk (len claimed))
  | _ =>
      let* claimed_at := clock in
      let used := (λ p : path, mkEntry p.2 claimed_at) <$> claimed in
      let* terminal := catch filesystem_terminal_consumed_proof_entries in
      match terminal with
      | None => Ret CommitFailed
      | Some terminal =>
          let* r := catch (on_sys (commit_outcome g bs used None terminal owner)) in
          match r with
          | Some AppendDone => let* _ := invalidate_cached_table g in Ret (CommitOk (len claimed))
          | Some AppendMismatch => Ret CommitMismatch
          | _ => Ret CommitFailed
          end
      end
  end.

(** A commit in flight answers with its claims and their bytes. *)
Abbreviation Task := (Eff Host (list path * Z * CommitResult)) (only parsing).

Definition commit_task (claimed : list path) (bytes : Z) : Task :=
  let* r := commit_claimed claimed in Ret (claimed, bytes, r).

(** [FuturesUnordered::next], as far as the schedule goes: [None] when no commit
    has come back by then. *)
Fixpoint next (schedule : list nat) (inflight : list Task) : Eff Host (option (list path * Z * CommitResult * list Task)) :=
  match schedule with
  | [] => Ret None
  | i :: schedule =>
      match inflight !! i with
      | None => next schedule inflight
      | Some (Ret r) => Ret (Some (r, delete i inflight))
      | Some Err => Err
      | Some (Stmt l f k) => Stmt l f (λ r, next schedule (<[i := k r]> inflight))
      end
  end.

(** ** Failed reads *)

(** Charges one failed read. *)
Definition charge_failure (n : rstr) : Eff Host Z :=
  stmt Local (λ _ h,
    let attempts := saturating_add 32 (default 0 (failures h !! n)) 1 in
    (attempts, set_failures (<[n := attempts]> (failures h)) h)).

Definition forget_failures (ns : list rstr) : Eff Host unit :=
  stmt Local (λ _ h, (tt, set_failures (foldr delete (failures h) ns) h)).

Definition set_aside_one (set_aside : list path) (p : path) : Eff Host (list path) :=
  let* attempts := charge_failure p.2 in
  if (poison_limit cfg =? 0) || (attempts <? poison_limit cfg) then Ret set_aside else
  let* r := io (quarantine_poison_segment (note p attempts) pid p) in
  match r with
  | Some _ => let* _ := forget_failures [p.2] in Ret (set_aside ++ [p])
  | None => Ret set_aside
  end.

(** What stays in the batch, and how many were set aside. *)
Definition set_aside_unreadable (claimed : list path) (r : CommitResult) : Eff Host (list path * nat) :=
  match r with
  | UnreadableSegments l =>
      let* set_aside := each set_aside_one l [] in
      Ret (filter (λ c, c ∉ set_aside) claimed, length set_aside)
  | _ => Ret (claimed, 0%nat)
  end.

(** ** Admission *)

Definition fs_pending_stats (paths : list path) : Eff Host (Z * Z) :=
  each (λ (acc : Z * Z) p,
          let* m := stat p in
          match m with
          | None => Ret acc
          | Some (n, modified) =>
              let* now := clock in
              Ret (saturating_add 64 acc.1 n, if modified <=? now then Z.max acc.2 (now - modified) else acc.2)
          end) paths (0, 0).

Definition deferred (paths : list path) : Eff Host bool :=
  match fs_commit_batch cfg with
  | None => Ret false
  | Some _ =>
      let* stats := fs_pending_stats paths in
      Ret (commit_deferred (fs_commit_batch cfg) stats.1 stats.2)
  end.

Fixpoint select_sealed_for_cycle (queue : list path) (selected : list path) (total : Z) : Eff Host (list path) :=
  match queue with
  | [] => Ret selected
  | p :: queue =>
      let* m := must (stat p) in
      let hit_segment_limit := (0 <? max_segments cfg) && (max_segments cfg <=? len selected) in
      let hit_byte_limit := (0 <? max_bytes cfg) && (max_bytes cfg <? saturating_add 64 total m.1) in
      if negb (bool_decide (selected = [])) && (hit_segment_limit || hit_byte_limit) then Ret selected else
      select_sealed_for_cycle queue (selected ++ [p]) (saturating_add 64 total m.1)
  end.

Definition selected_bytes (selected : list path) : Eff Host Z :=
  each (λ acc p, let* m := must (stat p) in Ret (acc + m.1)) selected 0.

(** ** The pass *)

(** [queue] is what [offset] has left of it. *)
Record Pass := mkPass {
  queue : list path;
  pass_attempts : gmap rstr Z;
  inflight : list Task;
  inflight_bytes : Z;
  committed_segments : Z;
  first_err : bool;
  stop_top_up : bool;
}.

Definition list_owned : Eff Host (list path) :=
  let* l := must (io list_sealed) in io (retain_owned_sealed to_string l owner).

(** The exhausted queue is listed again; [inl] breaks the loop. *)
Definition refill (st : Pass) : Eff Host (Pass + Pass) :=
  let set q a := mkPass q a (inflight st) (inflight_bytes st) (committed_segments st) (first_err st) (stop_top_up st) in
  match queue st with
  | _ :: _ => Ret (inr st)
  | [] =>
      let* listed := list_owned in
      let '(fresh, attempts) := retain_unspent (pass_attempts st) listed in
      if bool_decide (fresh = []) then Ret (inl (set [] attempts)) else
      let* wait := deferred fresh in
      if wait : bool then Ret (inl (set [] attempts)) else Ret (inr (set fresh attempts))
  end.

Definition take_batch (st : Pass) : Eff Host (Pass + Pass) :=
  let* selected := select_sealed_for_cycle (queue st) [] 0 in
  if bool_decide (selected = []) then Ret (inl st) else
  let* bytes := selected_bytes selected in
  if negb (admit_batch (length (inflight st)) (workers cfg) (inflight_bytes st) bytes (inflight_budget cfg))
  then Ret (inl st) else
  let rest := drop (length selected) (queue st) in
  let attempts := foldl charge_pass_attempt (pass_attempts st) selected in
  let* claimed := io (claim_batch selected []) in
  match claimed with
  | None =>
      Ret (inl (mkPass rest attempts (inflight st) (inflight_bytes st) (committed_segments st) true (stop_top_up st)))
  | Some claimed =>
      Ret (inr (mkPass rest attempts (inflight st ++ [commit_task claimed bytes])
                  (saturating_add 64 (inflight_bytes st) bytes) (committed_segments st) (first_err st) (stop_top_up st)))
  end.

(** At most one commit per free worker. *)
Fixpoint top_up (slots : nat) (deadline : Z) (st : Pass) : Eff Host Pass :=
  match slots with
  | O => Ret st
  | S slots =>
      if stop_top_up st then Ret st else
      let* now := clock in
      if deadline <=? now then Ret st else
      let* r := refill st in
      match r with
      | inl st => Ret st
      | inr st =>
          let* r := take_batch st in
          match r with inl st => Ret st | inr st => top_up slots deadline st end
      end
  end.

Definition settle (st : Pass) (claimed : list path) (r : CommitResult) : Eff Host Pass :=
  match r with
  | CommitOk n =>
      let* _ := io (finish_segments claimed) in
      let* _ := forget_failures (snd <$> claimed) in
      Ret (mkPass (queue st) (pass_attempts st) (inflight st) (inflight_bytes st) (committed_segments st + n)
             (first_err st) (stop_top_up st))
  | _ =>
      let* kept := set_aside_unreadable claimed r in
      let attempts := if (0 <? kept.2)%nat then foldr delete (pass_attempts st) (snd <$> kept.1) else pass_attempts st in
      let* _ := io (release_segments kept.1) in
      Ret (mkPass (queue st) attempts (inflight st) (inflight_bytes st) (committed_segments st) true
             (stop_top_up st || match r with CommitMismatch => true | _ => false end))
  end.

(** The dispatch loop, as far as the schedules go. *)
Fixpoint dispatch (schedules : list (list nat)) (deadline : Z) (st : Pass) : Eff Host (option Pass) :=
  match schedules with
  | [] => Ret None
  | schedule :: schedules =>
      let* st := top_up (workers cfg - length (inflight st)) deadline st in
      if bool_decide (length (inflight st) = 0%nat) then Ret (Some st) else
      let* r := next schedule (inflight st) in
      match r with
      | None => Ret None
      | Some (claimed, bytes, res, rest) =>
          let st := mkPass (queue st) (pass_attempts st) rest (saturating_sub (inflight_bytes st) bytes)
                      (committed_segments st) (first_err st) (stop_top_up st) in
          let* st := settle st claimed res in
          dispatch schedules deadline st
      end
  end.

Definition sweep_retention_at : Eff Host unit :=
  let* marked := query Local (λ now h, ledger_marks (answers h now)) in
  let* age := query Local (λ now h, ages (answers h now)) in
  let* _ := io (sweep_committed_gated age (retention cfg) CONSUMER_MAX_RETENTION marked CONSUMER_STALE_AFTER) in
  Ret tt.

(** [None]: the schedules ended first. *)
Definition run_once_at (schedules : list (list nat)) : Eff Host (option Z) :=
  let* cycle_start := clock in
  let* _ := catch dispose_orphans_at in
  let* listed := list_owned in
  if bool_decide (listed = []) then let* _ := sweep_retention_at in Ret (Some 0) else
  let* wait := deferred listed in
  if wait : bool then let* _ := sweep_retention_at in Ret (Some 0) else
  let* r := dispatch schedules (cycle_start + cycle_budget cfg) (mkPass listed ∅ [] 0 0 false false) in
  match r with
  | None => Ret None
  | Some st =>
      let* _ := sweep_retention_at in
      if (committed_segments st =? 0) && first_err st then Err else Ret (Some (committed_segments st))
  end.

(** ** The process *)

(** At most [k] statements of [p]; the rest is dropped. *)
Fixpoint cut {A} (k : nat) (p : Eff Host A) : Eff Host (option A) :=
  match p with
  | Ret a => Ret (Some a)
  | Err => Err
  | Stmt l f c => match k with O => Ret None | S k => Stmt l f (λ r, cut k (c r)) end
  end.

(** One cycle per entry: its schedules, and where the watchdog cuts it short. *)
Fixpoint run_loop (cycles : list (list (list nat) * option nat)) : Eff Host unit :=
  match cycles with
  | [] => Ret tt
  | (schedules, trip) :: cycles =>
      let cycle := catch (run_once_at schedules) in
      let* r := match trip with None => let* r := cycle in Ret (Some r) | Some k => cut k cycle end in
      match r with
      | None => let* _ := quarantine_processing_orphans in run_loop cycles
      | Some (Some None) => Ret tt
      | Some _ => run_loop cycles
      end
  end.

(** A new process: its memory is empty, and it quarantines what another left in
    [processing/]. *)
Definition start : Eff Host unit :=
  stmt Local (λ _ h, (tt, mkHost (sys h) (disk h) (sealed h) (mtime h) (length (tables (sys h) g)) (length (log (sys h))) ∅
                            (answers h))).

Definition compactor (cycles : list (list (list nat) * option nat)) : Eff Host unit :=
  let* _ := start in
  let* _ := quarantine_processing_orphans in
  run_loop cycles.
End Drain.
