(* ===== verification/FsInv.v ===== *)
(** The invariant of the file-system drain: where a segment's file is, what the
    table says about it, and what the processes may do to each other's segments. *)

From stdpp Require Import prelude gmap strings sorting relations.
From Stdlib Require Import ZArith Lia.
From S2P Require Import Prelude RustStr BTree WalFrame WalDisk WalLifecycle WalConsumer WalRetention.

(** * Segments on disk *)

(** The directories a sealed segment moves between. *)
Definition drain_dir (D : Dir) : Prop :=
  match D with
  | SealedDir | ProcessingDir | OrphansDir | PoisonDir | CommittedDir | StaleDir _ => True
  | _ => False
  end.

Definition segp (p : path) : Prop := drain_dir p.1 ∧ is_arrow p.2 = true.

(** Nothing happens to segments. *)
Record steady (d d' : Disk) : Prop := mkSteady {
  steady_sane : sane d';
  steady_live p : segp p → live d' !! p = live d !! p;
  steady_data p i : segp p → live d !! p = Some i → data <$> inodes d' !! i = data <$> inodes d !! i;
  steady_alloc i : is_Some (inodes d !! i) → is_Some (inodes d' !! i);
}.

(** A call that concerns no segment. *)
Definition quiet {R} (op : Op R) : Prop :=
  match op with
  | OpCreate p | OpRemove p => ¬ segp p
  | OpRename s t => ¬ segp s ∧ ¬ segp t
  | OpAppend _ _ => False
  | _ => True
  end.

Abbreviation hushed := (calls (@quiet)).

(** An inode that is no segment's. *)
Definition spare (i : N) (d : Disk) : Prop := is_Some (inodes d !! i) ∧ ∀ p, segp p → live d !! p ≠ Some i.

Lemma steady_refl d : sane d → steady d d.
Proof. by split. Qed.

Lemma steady_inode d i nd nd' :
  sane d → inodes d !! i = Some nd' → data nd = data nd' ∨ (∀ p, segp p → live d !! p ≠ Some i) →
  steady d (set_inode i nd d).
Proof.
  intros Hs Hi Hnd. split; [by apply sane_inode|done| |].
  - intros p j Hp Hj. cbn. rewrite lookup_insert. case_decide as E; [|done]. subst j. rewrite Hi. cbn. f_equal.
    destruct Hnd as [?|Hn]; [done|]. by destruct (Hn p Hp).
  - intros j Hj. cbn. rewrite lookup_insert. by case_decide.
Qed.

Lemma quiet_steady {R} d (op : Op R) r d' : quiet op → exec d op r d' → sane d → steady d d'.
Proof.
  intros Hq He Hs. pose proof (exec_sane _ _ _ _ He Hs) as Hs'.
  destruct op; cbn [quiet] in Hq; inv_exec He; try (by apply steady_refl); try done.
  - split; [done|..]; cbn.
    + intros q Hq'. rewrite lookup_insert_ne; [done|]. by intros ->.
    + intros q j Hq' Hj. rewrite lookup_insert_ne; [done|]. intros ->. destruct (sane_alloc _ Hs _ _ Hj). congruence.
    + intros j Hj. rewrite lookup_insert. by case_decide.
  - match goal with H : live d !! p = Some ?i |- _ => destruct (sane_alloc _ Hs _ _ H) as [nd Hnd] end.
    eapply steady_inode; [done|done|]. right. intros q Hq' E. apply Hq.
    by rewrite (sane_inj _ Hs p q _ ltac:(eassumption) E).
  - eapply steady_inode; [done|eassumption|by left].
  - destruct Hq as [Hq1 Hq2]. split; [done|..]; cbn; try done.
    intros q Hq'. rewrite lookup_insert_ne, lookup_delete_ne; [done|..]; by intros ->.
  - split; [done|..]; cbn; try done. intros q Hq'. rewrite lookup_delete_ne; [done|]. by intros ->.
Qed.

From S2P Require Import ConsumedProof Eff RelyGuarantee Catalog DrainCycle FsDrain.

(** * The invariant *)

Section Invariant.
Context {batch : Type} `{!ArrowIpc batch} (g : Target).

Abbreviation St := (Z * Host)%type (only parsing).

Definition logged (h : Host) (n : rstr) : Prop := (g, n) ∈ log (sys h).

(** Logged by an earlier process. *)
Definition old (h : Host) (n : rstr) : Prop := (g, n) ∈ take (booted h) (log (sys h)).

Definition at_dir (h : Host) (D : Dir) (n : rstr) : Prop := is_Some (live (disk h) !! (D, n)).

(** A segment that decodes to no batch. *)
Definition no_rows (body : bytes) : Prop :=
  decode_wal_frame (batch := batch) body = inr [] ∨ ∃ sidecar, read_segment (batch := batch) sidecar body = inr [].

Definition settled_segment (h : Host) (n : rstr) : Prop :=
  logged h n ∨ ∃ body, sealed h !! n = Some body ∧ no_rows body.

(** [t] proves that [n] is consumed, or keeps no snapshot as old as [n]. *)
Definition shown (h : Host) (n : rstr) (t : Table) : Prop :=
  n ∈ cumulative_consumed_segments t ∨
  snapshots t ≠ [] ∧ ∀ sn, sn ∈ snapshots t → mtime h n < timestamp_ms sn + HISTORY_SKEW_MARGIN_MS.

Record table_ok (clock : Z) (logged : rstr → Prop) (mtime : rstr → Z) (t : Table) : Prop := {
  table_sorted : StronglySorted (λ a b, timestamp_ms b ≤ timestamp_ms a) (snapshots t);
  table_past sn : sn ∈ snapshots t → timestamp_ms sn ≤ clock;
  table_names sn n : sn ∈ snapshots t → n ∈ consumed_by sn →
    logged n ∧ mtime n < timestamp_ms sn + HISTORY_SKEW_MARGIN_MS;
}.

Definition generations (h : Host) : list (Z * Table) := tables (sys h) g.

(** What the process's cache may hold. *)
Definition visible (h : Host) (t : Table) : Prop :=
  ∃ k since, (k ≤ length (generations h) - loaded h)%nat ∧ generations h !! k = Some (since, t).

Record inv (x : St) : Prop := mkInv {
  inv_sane : sane (disk x.2);
  inv_place n D D' : is_arrow n = true → drain_dir D → drain_dir D' → at_dir x.2 D n → at_dir x.2 D' n → D = D';
  inv_data p i : segp p → live (disk x.2) !! p = Some i →
    ∃ nd, inodes (disk x.2) !! i = Some nd ∧ sealed x.2 !! p.2 = Some (data nd);
  inv_names n body : sealed x.2 !! n = Some body →
    is_arrow n = true ∧ 0x2C ∉ n ∧ mtime x.2 n < x.1 + HISTORY_SKEW_MARGIN_MS;
  inv_kept n body : sealed x.2 !! n = Some body →
    (∃ D, drain_dir D ∧ at_dir x.2 D n) ∨ settled_segment x.2 n;
  inv_sealed n : logged x.2 n → is_Some (sealed x.2 !! n);
  inv_where n D : logged x.2 n → drain_dir D → at_dir x.2 D n →
    D = ProcessingDir ∨ D = CommittedDir ∨ D = OrphansDir ∧ old x.2 n;
  inv_committed n : is_arrow n = true → at_dir x.2 CommittedDir n → settled_segment x.2 n;
  inv_once : NoDup (log (sys x.2));
  inv_target e : e ∈ log (sys x.2) → e.1 = g;
  inv_booted : (booted x.2 ≤ length (log (sys x.2)))%nat;
  inv_tables since t : (since, t) ∈ generations x.2 → table_ok x.1 (logged x.2) (mtime x.2) t;
  inv_head since t older n : generations x.2 = (since, t) :: older → logged x.2 n → shown x.2 n t;
  inv_visible n t : visible x.2 t → old x.2 n → shown x.2 n t;
}.

(** * What processes do to segments *)

Record mono (x y : St) : Prop := {
  mono_sealed : sealed x.2 ⊆ sealed y.2;
  mono_mtime : mtime y.2 = mtime x.2;
  mono_log : log (sys x.2) `prefix_of` log (sys y.2);
  mono_alloc i : is_Some (inodes (disk x.2) !! i) → is_Some (inodes (disk y.2) !! i);
  mono_inodes p i : segp p → live (disk y.2) !! p = Some i →
    (∃ q, segp q ∧ live (disk x.2) !! q = Some i) ∨ inodes (disk x.2) !! i = None;
}.

Definition same (n : rstr) (x y : St) : Prop :=
  (∀ D, drain_dir D → live (disk y.2) !! (D, n) = live (disk x.2) !! (D, n)) ∧ (logged y.2 n → logged x.2 n).

(** [AMine ns] is a part of the compactor that touches the segments [ns] only,
    [ATask ns] a commit in flight of [ns], which moves no file. *)
Inductive Actor := ACompactor | AMine (ns : rstr → Prop) | ATask (ns : rstr → Prop) | AOther.

Definition compat (a b : Actor) : Prop :=
  match a, b with
  | _, AOther => True
  | AOther, ACompactor => True
  | ATask ns, AMine ms | ATask ns, ATask ms => ∀ n, ns n → ms n → False
  | _, _ => False
  end.

Definition guar (a : Actor) (x y : St) : Prop :=
  mono x y ∧
  match a with
  | ACompactor => True
  | AMine ns => ∀ n, is_arrow n = true → ¬ ns n → same n x y
  | ATask ns => disk y.2 = disk x.2 ∧ ∀ n, is_arrow n = true → ¬ ns n → same n x y
  | AOther =>
      log (sys y.2) = log (sys x.2) ∧ booted y.2 = booted x.2 ∧
      ∀ n D, is_arrow n = true → drain_dir D → D ≠ PoisonDir → at_dir x.2 D n → same n x y
  end.

(** The machine's own statements take a tick and answer; the answer of an
    Iceberg commit is not lost. *)
Definition allowed (a : Actor) (prev now : Z) (l : Label) (o : Outcome) : Prop :=
  (l = Local → o = Done ∧ prev < now) ∧ (l = Append → o ≠ Lost).

(** ** Steps *)

Lemma mono_refl clock now h : mono (clock, h) (now, h).
Proof. split; try done. intros p i Hp Hi. left. eauto. Qed.

Lemma same_refl n clock now h : same n (clock, h) (now, h).
Proof. done. Qed.

(** A step that is nobody's. *)
Lemma guar_still a clock now h : guar a (clock, h) (now, h).
Proof. split; [apply mono_refl|]. by destruct a. Qed.

Lemma inv_later clock now h : clock ≤ now → inv (clock, h) → inv (now, h).
Proof.
  intros Hle []. split; try done.
  - intros n body Hn. destruct (inv_names0 n body Hn) as (? & ? & ?). simpl in *. split_and!; [done..|lia].
  - intros since t Ht. destruct (inv_tables0 since t Ht) as [? Hp ?]. split; [done| |done].
    intros sn Hsn. specialize (Hp sn Hsn). simpl in *. lia.
Qed.

Lemma inv_steady clock now h d' :
  inv (clock, h) → clock ≤ now → steady (disk h) d' →
  inv (now, set_disk d' h) ∧ ∀ a, (∀ ns, a ≠ ATask ns) → guar a (clock, h) (now, set_disk d' h).
Proof.
  intros Hi Hle [Hs Hl Hd Ha]. pose proof (inv_later _ _ _ Hle Hi) as []. split.
  - assert (∀ D n, drain_dir D → is_arrow n = true → at_dir (set_disk d' h) D n ↔ at_dir h D n) as Hat.
    { intros D n ??. unfold at_dir. cbn. by rewrite Hl by (by split). }
    split; simpl in *; try done.
    + intros n D D' ???. rewrite !Hat by done. eauto.
    + intros q i Hq Hi'. rewrite Hl in Hi' by done. destruct (inv_data0 q i Hq Hi') as (nd & Hnd & Hb).
      specialize (Hd q i Hq Hi'). rewrite Hnd in Hd. apply fmap_Some in Hd as (nd' & Hnd' & E). exists nd'. by rewrite <- E.
    + intros n body Hn. destruct (inv_names0 n body Hn) as (Har & _). destruct (inv_kept0 n body Hn) as [(D & HD & Hn')|]; [left|by right].
      exists D. by rewrite Hat.
    + intros n D Hn HD. destruct (inv_sealed0 n Hn) as [b Hb]. destruct (inv_names0 n b Hb) as (? & _).
      rewrite Hat by done. eauto.
    + intros n Hn. rewrite Hat by done. eauto.
  - intros a Hat. split.
    + split; try done. intros q i Hq. cbn. rewrite Hl by done. eauto.
    + assert (∀ n, is_arrow n = true → same n (clock, h) (now, set_disk d' h)) as Hsame.
      { intros n Hn. split; [|done]. intros D HD. cbn. by rewrite Hl by (by split). }
      destruct a as [|ns|ns|]; [done|by auto|by destruct (Hat ns)|]. split_and!; try done. intros. by apply Hsame.
Qed.

(** A segment is in one place. *)
Lemma inv_place_move clock h n D i E j :
  inv (clock, h) → is_arrow n = true → drain_dir D → live (disk h) !! (D, n) = Some i →
  drain_dir E → live (disk h) !! (E, n) = Some j → E = D ∧ j = i.
Proof.
  intros Hi Hn HD Hl HE Hj. assert (E = D) as -> by (eapply (inv_place _ Hi n); unfold at_dir; eauto).
  split; [done|congruence].
Qed.

Section Move.
Context (clock now : Z) (h : Host) (n : rstr) (D : Dir) (i : N).
Context (Hi : inv (clock, h)) (Hle : clock ≤ now).
Context (Hn : is_arrow n = true) (HD : drain_dir D) (Hl : live (disk h) !! (D, n) = Some i).

(** The segment's new place, if any. *)
Context (to : option Dir) (d' : Disk).
Context (Hto : ∀ E, to = Some E → drain_dir E ∧ E ≠ D).
Context (Hsane : sane d') (Hinodes : inodes d' = inodes (disk h)).
Context (Hlive : ∀ E m, drain_dir E →
  live d' !! (E, m) = if decide (m = n) then (if decide (to = Some E) then Some i else None) else live (disk h) !! (E, m)).
Context (Hlogged : logged h n → ∀ E, to = Some E → E = ProcessingDir ∨ E = CommittedDir ∨ E = OrphansDir ∧ old h n).
Context (Hset : to = None ∨ to = Some CommittedDir → settled_segment h n).

Lemma inv_moved : inv (now, set_disk d' h).
Proof using All.
  assert (∀ E m, drain_dir E → at_dir (set_disk d' h) E m ↔ if decide (m = n) then to = Some E else at_dir h E m) as Hat.
  { intros E m HE. unfold at_dir. cbn. rewrite Hlive by done. repeat case_decide; try done; split; try done; by intros []. }
  pose proof (inv_later _ _ _ Hle Hi) as []. split; simpl in *; try done.
  - intros m E E' Hm HE HE'. rewrite !Hat by done. case_decide; [congruence|]. eauto.
  - intros [E m] j [HE Hm] Hj. cbn in *. rewrite Hlive in Hj by done. rewrite Hinodes.
    destruct (decide (m = n)) as [->|Hne]; [|by apply (inv_data0 (E, m))]. case_decide; [|done]. injection Hj as <-.
    by apply (inv_data0 (D, n)).
  - intros m body Hm. destruct (inv_kept0 m body Hm) as [(E & HE & Hat')|?]; [|by right].
    destruct (decide (m = n)) as [->|Hne].
    + destruct to as [T|] eqn:ET; [|by right; auto]. left. exists T. destruct (Hto T eq_refl). split; [done|].
      apply Hat; [done|]. by case_decide.
    + left. exists E. split; [done|]. apply Hat; [done|]. by case_decide.
  - intros m E Hm HE. rewrite Hat by done. case_decide; [subst|eauto]. intros ->. eauto.
  - intros m Hm. rewrite Hat by done. case_decide; [subst|eauto]. intros ->. auto.
Qed.

Lemma guar_moved : guar (AMine (eq n)) (clock, h) (now, set_disk d' h).
Proof using All.
  split.
  - split; try done; cbn; rewrite ?Hinodes; try done. intros [E m] j [HE Hm] Hj. cbn in *. rewrite Hlive in Hj by done.
    left. destruct (decide (m = n)) as [->|Hne]; [|by exists (E, m)]. case_decide; [|done]. injection Hj as <-.
    by exists (D, n).
  - intros m _ Hm. split; [|done]. intros E HE. cbn. rewrite Hlive by done. case_decide; [|done]. by subst.
Qed.
End Move.

(** A rename of a segment. *)
Lemma inv_rename clock now h n D D' i :
  inv (clock, h) → clock ≤ now → is_arrow n = true → drain_dir D → drain_dir D' → D' ≠ D →
  live (disk h) !! (D, n) = Some i →
  (logged h n → D' = ProcessingDir ∨ D' = CommittedDir ∨ D' = OrphansDir ∧ old h n) →
  (D' = CommittedDir → settled_segment h n) →
  let y := (now, set_disk (change (Move (D, n) (D', n) i) (disk h)) h) in
  inv y ∧ guar (AMine (eq n)) (clock, h) y.
Proof.
  intros Hi Hle Hn HD HD' Hne Hl Hlog Hset y.
  assert (sane (change (Move (D, n) (D', n) i) (disk h))) as Hs.
  { eapply (exec_sane (disk h) (OpRename (D, n) (D', n)) (Some tt)); [|apply (inv_sane _ Hi)]. right. by exists i. }
  assert (∀ E m, drain_dir E → live (change (Move (D, n) (D', n) i) (disk h)) !! (E, m) =
    if decide (m = n) then (if decide (Some D' = Some E) then Some i else None) else live (disk h) !! (E, m)) as Hlive.
  { intros E m HE. cbn. rewrite lookup_insert, lookup_delete. destruct (decide (m = n)) as [->|Hm].
    - repeat case_decide; simplify_eq; try done. destruct (live (disk h) !! (E, n)) as [j|] eqn:Ej; [|done].
      destruct (inv_place_move clock h n D i E j) as [-> _]; try done.
    - repeat case_decide; simplify_eq; done. }
  split; [apply (inv_moved clock now h n D i) with (to := Some D')|apply (guar_moved clock now h n D i) with (to := Some D')]; try done.
  all: try (by intros E [= <-]). all: try (intros Hlg E [= <-]; by auto).
  all: intros [[=]|[= ->]]; by auto.
Qed.

(** The removal of a segment. *)
Lemma inv_unlink clock now h n D i :
  inv (clock, h) → clock ≤ now → is_arrow n = true → drain_dir D → live (disk h) !! (D, n) = Some i →
  settled_segment h n →
  let y := (now, set_disk (change (Unlink (D, n)) (disk h)) h) in
  inv y ∧ guar (AMine (eq n)) (clock, h) y.
Proof.
  intros Hi Hle Hn HD Hl Hset y.
  assert (sane (change (Unlink (D, n)) (disk h))) as Hs.
  { eapply (exec_sane (disk h) (OpRemove (D, n)) (Some tt)); [|apply (inv_sane _ Hi)]. right. by exists i. }
  assert (∀ E m, drain_dir E → live (change (Unlink (D, n)) (disk h)) !! (E, m) =
    if decide (m = n) then (if decide (None = Some E) then Some i else None) else live (disk h) !! (E, m)) as Hlive.
  { intros E m HE. cbn. rewrite lookup_delete. destruct (decide (m = n)) as [->|Hm].
    - rewrite (decide_False (P := None = Some E)) by done. case_decide; [done|].
      destruct (live (disk h) !! (E, n)) as [j|] eqn:Ej; [|done]. destruct (inv_place_move clock h n D i E j) as [-> _]; done.
    - case_decide; [simplify_eq|done]. }
  split; [apply (inv_moved clock now h n D i) with (to := None)|apply (guar_moved clock now h n D i) with (to := None)]; done.
Qed.
(** ** New generations of the table *)

Definition publish (now : Z) (t : Table) (ids : list rstr) (h : Host) : Host := set_sys (set_table g now t ids (sys h)) h.

Lemma publish_generations now t ids h : generations (publish now t ids h) = (now, t) :: generations h.
Proof. unfold generations, publish. simpl. by rewrite decide_True. Qed.

Lemma publish_logged now t ids h n : logged (publish now t ids h) n ↔ logged h n ∨ n ∈ ids.
Proof.
  unfold logged. simpl. rewrite elem_of_app, list_elem_of_fmap. split; intros [?|?]; auto; [|right; eauto].
  right. destruct_and?. by destruct H as (? & [= ->] & ?).
Qed.

Lemma mono_publish clock now h t ids : mono (clock, h) (now, publish now t ids h).
Proof.
  split; try done; simpl; [by apply prefix_app_r|]. intros p i Hp Hl. left. eauto.
Qed.

Lemma guar_publish clock now h t ids : guar (ATask (λ n, n ∈ ids)) (clock, h) (now, publish now t ids h).
Proof.
  split; [apply mono_publish|]. split; [done|]. intros n _ Hn. split; [done|]. simpl. rewrite publish_logged. tauto.
Qed.

Lemma guar_publish_other clock now h t ids : ids = [] → guar AOther (clock, h) (now, publish now t ids h).
Proof.
  intros ->. split; [apply mono_publish|]. simpl. rewrite app_nil_r. split_and!; [done..|]. intros n D _ _ _ _. split; [done|].
  simpl. rewrite publish_logged. set_solver.
Qed.
Section Publish.
Context (clock now : Z) (h : Host) (t : Table) (ids : list rstr).
Context (Hi : inv (clock, h)) (Hle : clock ≤ now) (Hnd : NoDup ids).
Context (Hids : ∀ n, n ∈ ids → ¬ logged h n ∧ is_Some (sealed h !! n) ∧ ∀ D, drain_dir D → at_dir h D n → D = ProcessingDir).
Context (Ht : table_ok now (λ n, logged h n ∨ n ∈ ids) (mtime h) t).
Context (Hshown : ∀ n, logged h n ∨ n ∈ ids → shown h n t).

Lemma publish_old n : old (publish now t ids h) n ↔ old h n.
Proof using Hi. unfold old. simpl. by rewrite take_app_le by apply (inv_booted _ Hi). Qed.

Lemma inv_publish : inv (now, publish now t ids h).
Proof using All.
  pose proof (inv_later _ _ _ Hle Hi) as []. split; simpl in *; try done.
  - intros n body Hn. destruct (inv_kept0 n body Hn) as [?|[?|?]]; [by left|right..]; [left|by right].
    apply publish_logged. by left.
  - intros n [?|Hn]%publish_logged; [by auto|]. by destruct (Hids n Hn) as (_ & ? & _).
  - intros n D [Hn|Hn]%publish_logged HD Hat; [|left; by apply (Hids n Hn)]. rewrite publish_old. eauto.
  - intros n Hn Hat. destruct (inv_committed0 n Hn Hat) as [?|?]; [left|by right]. apply publish_logged. by left.
  - apply NoDup_app. split_and!; [done| |by apply (NoDup_fmap_2 _)]. intros e He (n & -> & Hn)%list_elem_of_fmap.
    by destruct (Hids n Hn) as [[] _].
  - intros e [?|(n & -> & _)%list_elem_of_fmap]%elem_of_app; auto.
  - rewrite length_app. lia.
  - intros since u. rewrite publish_generations. intros [[= -> ->]|Hu]%elem_of_cons.
    + destruct Ht as [? ? Hn]. split; try done. intros sn n Hsn Hin. rewrite publish_logged. by eapply Hn.
    + destruct (inv_tables0 since u Hu) as [? ? Hn]. split; try done. intros sn n Hsn Hin. rewrite publish_logged.
      destruct (Hn sn n Hsn Hin). auto.
  - intros since u older n. rewrite publish_generations. intros [= <- <- <-] Hn%publish_logged. by apply Hshown.
  - intros n u (k & since & Hk & Hu) Hn%publish_old. rewrite publish_generations in Hk, Hu. destruct k as [|k]; simpl in *.
    + injection Hu as <- <-. apply Hshown. left. unfold old in Hn. apply elem_of_take in Hn as (j & ? & _).
      by eapply list_elem_of_lookup_2.
    + eapply inv_visible0; [|exact Hn]. exists k, since. split; [lia|done].
Qed.

End Publish.

(** A new snapshot on top. *)
Lemma table_ok_snapshot clock now h t t' ids sn :
  inv (clock, h) → clock ≤ now → table_ok clock (logged h) (mtime h) t →
  snapshots t' = sn :: snapshots t → timestamp_ms sn = now → consumed_by sn = ids →
  (∀ n, n ∈ ids → is_Some (sealed h !! n)) →
  table_ok now (λ n, logged h n ∨ n ∈ ids) (mtime h) t'.
Proof.
  intros Hi Hle [Hs Hp Hn] E Ets Ec Hids. split; rewrite E.
  - constructor; [done|]. apply Forall_forall. intros s Hin. specialize (Hp s Hin). lia.
  - intros s [->|Hin]%elem_of_cons; [lia|]. specialize (Hp s Hin). lia.
  - intros s n [->|Hin]%elem_of_cons Hc.
    + rewrite Ec in Hc. split; [by right|]. destruct (Hids n Hc) as [b Hb].
      destruct (inv_names _ Hi n b Hb) as (_ & _ & ?). simpl in *. lia.
    + destruct (Hn s n Hin Hc). auto.
Qed.

Lemma shown_snapshot clock now h t t' sn n :
  inv (clock, h) → clock ≤ now → snapshots t' = sn :: snapshots t → timestamp_ms sn = now →
  logged h n → shown h n t → shown h n t'.
Proof.
  intros Hi Hle E Ets Hn Hs. destruct (inv_sealed _ Hi n Hn) as [b Hb]. destruct (inv_names _ Hi n b Hb) as (_ & _ & Hm).
  simpl in Hm. unfold shown, cumulative_consumed_segments in *. rewrite E. simpl. rewrite elem_of_app.
  destruct Hs as [?|[Hne Ha]]; [by auto|right]. split; [done|]. intros s [->|?]%elem_of_cons; [lia|by auto].
Qed.

(** Snapshots dropped from the old end. *)
Lemma table_ok_prefix clock now P m t t' l :
  clock ≤ now → snapshots t = snapshots t' ++ l → table_ok clock P m t → table_ok now P m t'.
Proof.
  intros Hle E [Hs Hp Hn]. rewrite E in *. split.
  - by eapply StronglySorted_app_1_l.
  - intros sn Hin. specialize (Hp sn ltac:(set_solver)). lia.
  - intros sn n Hin. apply Hn. set_solver.
Qed.

Lemma shown_prefix clock h t t' l n :
  table_ok clock (logged h) (mtime h) t → snapshots t = snapshots t' ++ l → (snapshots t' = [] → l = []) →
  shown h n t → shown h n t'.
Proof.
  intros [Hs _ Hn] E Hl. unfold shown, cumulative_consumed_segments. rewrite E in *.
  intros [(sn & Hc & [Hin|Hin]%elem_of_app)%list_elem_of_bind|[Hne Ha]].
  - left. apply list_elem_of_bind. eauto.
  - right. split; [intros E'; rewrite Hl in Hin by done; by apply elem_of_nil in Hin|]. intros s Hin'.
    destruct (Hn sn n ltac:(set_solver) Hc) as [_ Hm].
    assert (timestamp_ms sn ≤ timestamp_ms s) by exact (StronglySorted_app_1_elem_of _ _ _ s sn Hs Hin' Hin). lia.
  - right. split; [intros E'; rewrite E', Hl in Hne by done; done|]. intros s Hin. apply Ha. set_solver.
Qed.

Lemma retain_branch_prefix k cutoff kept l :
  StronglySorted (λ a b, timestamp_ms b ≤ timestamp_ms a) l →
  ∃ l', l = retain_branch k cutoff kept l ++ l'.
Proof.
  revert kept. induction l as [|sn l IH]; intros kept Hs; [by exists []|]. inversion_clear Hs as [|?? Hs' Ha]. simpl.
  destruct ((kept <? k) || (cutoff <=? timestamp_ms sn)) eqn:E.
  - destruct (IH (kept + 1) Hs') as [l' E']. exists l'. simpl. by rewrite <- E'.
  - exists (sn :: l). apply orb_false_iff in E as [E1%Z.ltb_ge E2%Z.leb_gt].
    assert (∀ l, Forall (λ b, timestamp_ms b ≤ timestamp_ms sn) l → retain_branch k cutoff kept l = []) as Hnone.
    { clear -E1 E2. induction 1 as [|b l Hb _ IH]; [done|]. simpl. rewrite IH.
      by rewrite (proj2 (Z.ltb_ge kept k)), (proj2 (Z.leb_gt cutoff (timestamp_ms b))) by lia. }
    by rewrite Hnone.
Qed.
End Invariant.
