(* ===== verification/FsSafe.v ===== *)
(** The parts of the file-system drain are safe: every statement keeps the
    invariant and touches only the segments it is about. *)

From stdpp Require Import prelude gmap strings sorting relations.
From Stdlib Require Import ZArith Lia.
From S2P Require Import Prelude RustStr BTree WalFrame ConsumedProof Eff RelyGuarantee Catalog DrainCycle.
From S2P Require Import WalDisk WalLifecycle WalConsumer WalRetention FsDrain FsInv.

Section Safe.
Context {batch : Type} `{!ArrowIpc batch} (g : Target).

Abbreviation St := (Z * Host)%type (only parsing).
Abbreviation Inv := (inv (batch := batch) g).
Abbreviation Rely := (rely Inv compat (guar g)).
Abbreviation Safe := (safe Inv allowed compat (guar g)).

Lemma set_disk_id h : set_disk (disk h) h = h.
Proof. by destruct h. Qed.

Lemma set_sys_id h : set_sys (sys h) h = h.
Proof. by destruct h. Qed.

(** * Interference *)

Lemma mono_trans x y z : mono x y → mono y z → mono x z.
Proof.
  intros [] []. split.
  - by etrans.
  - congruence.
  - by etrans.
  - auto.
  - intros p i Hp Hl. destruct (mono_inodes0 p i Hp Hl) as [(q & Hq & Hlq)|Hn]; [by eapply mono_inodes|right].
    destruct (inodes (disk x.2) !! i) eqn:E; [|done]. destruct (mono_alloc i) as [? ?]; [done|]. congruence.
Qed.

Lemma rely_mono a x y : Rely a x y → mono x y.
Proof.
  induction 1 as [[]|x y z (_ & _ & _ & b & _ & Hm & _) _ IH]; [apply mono_refl|]. by eapply mono_trans.
Qed.

Lemma rely_later a x y : Rely a x y → x.1 ≤ y.1.
Proof. induction 1 as [|x y z (_ & _ & ? & _) _ IH]; lia. Qed.

Lemma rely_inv a x y : Rely a x y → Inv x → Inv y.
Proof. by induction 1 as [|x y z (_ & ? & _) _ IH]; auto. Qed.

(** The compactor's own statements, commits in flight aside. *)
Definition main (a : Actor) : Prop := match a with ACompactor | AMine _ => True | _ => False end.

Lemma rely_others a x y : main a → others Inv compat (guar g) a x y → guar g AOther x y.
Proof. intros Ha (_ & _ & _ & b & Hc & Hg). by destruct a, b. Qed.

Lemma rely_log a x y : main a → Rely a x y → log (sys y.2) = log (sys x.2) ∧ booted y.2 = booted x.2.
Proof.
  intros Ha. induction 1 as [|x y z Hxy _ IH]; [done|]. apply (rely_others a) in Hxy as (_ & ? & ? & _); [|done].
  destruct IH. split; congruence.
Qed.

(** A segment that is somewhere but in [poison/] stays there. *)
Lemma rely_at a x y D n :
  main a → Rely a x y → is_arrow n = true → drain_dir D → D ≠ PoisonDir → at_dir x.2 D n → at_dir y.2 D n.
Proof.
  intros Ha Hr Hn HD Hp. induction Hr as [|x y z Hxy _ IH]; [done|]. intros Hat. apply IH.
  apply (rely_others a) in Hxy as (_ & _ & _ & Hs); [|done]. destruct (Hs n D Hn HD Hp Hat) as [Hl _]. unfold at_dir.
  by rewrite Hl.
Qed.

Lemma settled_mono x y n : mono x y → settled_segment (batch := batch) g x.2 n → settled_segment (batch := batch) g y.2 n.
Proof.
  intros Hm [Hl|(b & Hb & ?)]; [left|right].
  - unfold logged in *. destruct (mono_log _ _ Hm) as [k ->]. apply elem_of_app. by left.
  - exists b. split; [|done]. eapply lookup_weaken; [exact Hb|apply Hm].
Qed.

Lemma guar_mine_mono (ns ms : rstr → Prop) x y : (∀ n, ns n → ms n) → guar g (AMine ns) x y → guar g (AMine ms) x y.
Proof. intros Hs [Hm Hg]. split; [done|]. intros n Hn Hms. apply Hg; auto. Qed.

Lemma safe_mine_mono (ns ms : rstr → Prop) {A} (p : Eff Host A) Q x :
  (∀ n, ns n → ms n) → Safe (AMine ns) p Q x → Safe (AMine ms) p Q x.
Proof.
  intros Hs. apply safe_actor; [|intros ? ? _ _; by apply guar_mine_mono|done].
  intros c Hc. exists AOther. by destruct c.
Qed.

(** * Statements *)

Lemma safe_read a l {B : Set} (f : Z → Host → B) Q x :
  (∀ y now, Rely a x y → Inv y → y.1 ≤ now → Q (Some (f now y.2)) (now, y.2) ∧ (l ≠ Local → Q None (now, y.2))) →
  Safe a (query l f) Q x.
Proof.
  intros H. apply safe_stmt. intros [t h] Hr Hi now o Hle [Hal _]. cbn. destruct (H (t, h) now Hr Hi Hle) as [Hs Hn].
  destruct o; simpl; (split; [by eapply inv_later|split; [apply guar_still|]]); [done|..];
    apply Hn; intros ->; by destruct (Hal eq_refl).
Qed.

(** What a file-system call may answer. *)
Definition ran {R} (op : Op R) (d : Disk) (r : R) (d' : Disk) : Prop :=
  WalDisk.exec d op r d' ∨ d' = d ∧ match op in Op R return R → Prop with OpAppend _ _ => λ _, True | _ => λ _, False end r.

Lemma safe_syscall a {R A} (op : Op R) (k : R → Eff Host A) Q x :
  (∀ t h now r d', Rely a x (t, h) → Inv (t, h) → t < now → ran op (disk h) r d' →
     Inv (now, set_disk d' h) ∧ guar g a (t, h) (now, set_disk d' h) ∧ Safe a (k r) Q (now, set_disk d' h)) →
  Safe a (syscall op k) Q x.
Proof.
  intros H.
  assert (∀ (B : Set) (o : Op B) (failed : B) (k' : B → Eff Host A),
    (∀ t h now r d', Rely a x (t, h) → Inv (t, h) → t < now →
       WalDisk.exec (disk h) o r d' ∨ d' = disk h ∧ (∃ ok n, WalDisk.perform (disk h) ok n o = None) →
       Inv (now, set_disk d' h) ∧ guar g a (t, h) (now, set_disk d' h) ∧ Safe a (k' r) Q (now, set_disk d' h)) →
    Safe a (through o failed k') Q x) as Hthrough.
  { intros B o failed k' Hk [t h] Hr Hi now oc Hle [Hal _]. destruct (Hal eq_refl) as [-> Hlt]. simpl in *.
    destruct (WalDisk.perform (disk h) (succeeds (answers h now)) (written (answers h now)) o) as [[r d']|] eqn:E; simpl.
    - apply perform_exec in E. by apply Hk; auto.
    - assert (∀ P : Host → Prop, P (set_disk (disk h) h) → P h) as Hid by (intros P; by rewrite set_disk_id).
      apply (Hid (λ h', Inv (now, h') ∧ guar g a (t, h) (now, h') ∧ Safe a (k' failed) Q (now, h'))). apply Hk; eauto. }
  destruct op; apply Hthrough; intros t h now r d' Hr Hi Hlt Hx; (apply H; [done..|]);
    (destruct Hx as [?|(-> & ok & n & E)]; [by left|]); try (by right); exfalso;
    cbn [WalDisk.perform] in E; repeat case_match; done.
Qed.

(** * Programs of loglake-wal *)

Definition does (a : Actor) {A} (p : Prog A) (Q : A → St → Prop) (x : St) : Prop :=
  Safe a (io p) (λ r y, ∃ v, r = Some v ∧ Q v y) x.

Lemma does_ret a {A} (v : A) (Q : A → St → Prop) x : Q v x → does a (WalDisk.Ret v) Q x.
Proof. unfold does. simpl. eauto. Qed.

Lemma does_mono a {A} (p : Prog A) (Q Q' : A → St → Prop) x :
  (∀ v y, Q v y → Q' v y) → does a p Q x → does a p Q' x.
Proof. intros H. apply safe_mono. intros r y (v & -> & Hv). eauto. Qed.

Lemma does_step a {R A} (op : Op R) (k : R → Prog A) Q x :
  (∀ t h now r d', Rely a x (t, h) → Inv (t, h) → t < now → ran op (disk h) r d' →
     Inv (now, set_disk d' h) ∧ guar g a (t, h) (now, set_disk d' h) ∧ does a (k r) Q (now, set_disk d' h)) →
  does a (Step op k) Q x.
Proof. apply (safe_syscall a op (λ r, io (k r))). Qed.

(** Reasoning about a program call by call. *)
Lemma does_steps a {A} (p : Prog A) (P : Prog A → St → Prop) Q x :
  (∀ v y, P (WalDisk.Ret v) y → Q v y) →
  (∀ R (op : Op R) k y, P (Step op k) y →
     ∀ t h now r d', Rely a y (t, h) → Inv (t, h) → t < now → ran op (disk h) r d' →
       Inv (now, set_disk d' h) ∧ guar g a (t, h) (now, set_disk d' h) ∧ P (k r) (now, set_disk d' h)) →
  P p x → does a p Q x.
Proof.
  intros Hret Hstep. revert x. induction p as [v|R op k IH]; intros x HP; [apply does_ret; auto|].
  apply does_step. intros t h now r d' Hr Hi Hlt Hx. destruct (Hstep R op k x HP t h now r d') as (? & ? & ?); auto.
Qed.

Lemma does_bind a {A B} (p : Prog A) (f : A → Prog B) Q x :
  does a p (λ v y, does a (f v) Q y) x → does a (prog_bind p f) Q x.
Proof.
  revert x. induction p as [v|R op k IH]; intros x; [by intros (? & [= <-] & ?)|].
  unfold does. simpl. destruct op; simpl; intros H y Hr Hi now o Hle Ha; destruct (H y Hr Hi now o Hle Ha) as (? & ? & Hs);
    (split_and!; [done..|]); (destruct o; [by apply IH|..]); destruct Ha as [Ha _]; by destruct (Ha eq_refl).
Qed.

Lemma does_call a {R} (op : Op R) Q x :
  (∀ t h now r d', Rely a x (t, h) → Inv (t, h) → t < now → ran op (disk h) r d' →
     Inv (now, set_disk d' h) ∧ guar g a (t, h) (now, set_disk d' h) ∧ Q r (now, set_disk d' h)) →
  does a (call op) Q x.
Proof.
  intros H. apply does_step. intros t h now r d' Hr Hi Hlt Hx. destruct (H t h now r d') as (? & ? & ?); [done..|].
  split_and!; [done..|]. by apply does_ret.
Qed.

(** What a part of the compactor that touches no segment leaves as it was. *)
Record kept_by (x y : St) : Prop := {
  kept_mono : mono x y;
  kept_log : log (sys y.2) = log (sys x.2);
  kept_booted : booted y.2 = booted x.2;
  kept_at D n : is_arrow n = true → drain_dir D → D ≠ PoisonDir → at_dir x.2 D n → at_dir y.2 D n;
}.

Lemma kept_refl x : kept_by x x.
Proof. destruct x. split; try done. apply mono_refl. Qed.

Lemma kept_trans x y z : kept_by x y → kept_by y z → kept_by x z.
Proof. intros [] []. split; [by eapply mono_trans|congruence..|auto]. Qed.

Lemma kept_rely a x y : main a → Rely a x y → kept_by x y.
Proof.
  intros Ha Hr. destruct (rely_log a x y Ha Hr). split; [by eapply rely_mono|done..|]. intros. by eapply rely_at.
Qed.

Lemma kept_steady a t h now d' :
  main a → Inv (t, h) → t ≤ now → steady (disk h) d' →
  Inv (now, set_disk d' h) ∧ guar g a (t, h) (now, set_disk d' h) ∧ kept_by (t, h) (now, set_disk d' h).
Proof.
  intros Ha Hi Hle Hs. destruct (inv_steady g t now h d' Hi Hle Hs) as [Hi' Hg]. split_and!; [done|apply Hg; by destruct a|].
  split; try done; [by destruct (Hg AOther)|]. intros D n Hn HD _ Hat. unfold at_dir in *. cbn. by rewrite (steady_live _ _ Hs).
Qed.

Lemma quiet_ran a {R} (op : Op R) t h now r d' :
  main a → quiet op → Inv (t, h) → t < now → ran op (disk h) r d' →
  Inv (now, set_disk d' h) ∧ guar g a (t, h) (now, set_disk d' h) ∧ kept_by (t, h) (now, set_disk d' h) ∧
  WalDisk.exec (disk h) op r d'.
Proof.
  intros Ha Hq Hi Hlt [Hx|[-> Hx]]; [|by destruct op]. destruct (kept_steady a t h now d') as (? & ? & ?); try done; [lia|].
  eapply quiet_steady; [done..|]. apply (inv_sane _ _ Hi).
Qed.

Lemma does_hushed a {A} (p : Prog A) x : main a → hushed p → does a p (λ _ y, kept_by x y) x.
Proof.
  intros Ha Hh. apply (does_steps a p (λ p y, hushed p ∧ kept_by x y)).
  - by intros ? ? [_ ?].
  - intros R op k y [[Hq Hk] Hx] t h now r d' Hr Hi Hlt Hran.
    destruct (quiet_ran a op t h now r d') as (? & ? & ? & _); [done..|]. split_and!; try done.
    eapply kept_trans; [exact Hx|]. eapply kept_trans; [by eapply kept_rely|done].
  - split; [done|apply kept_refl].
Qed.

(** One call that concerns no segment, with what it answers. *)
Lemma does_quiet a {R} (op : Op R) Q x :
  main a → quiet op →
  (∀ t h now r d', Rely a x (t, h) → Inv (t, h) → t < now → WalDisk.exec (disk h) op r d' →
     kept_by x (now, set_disk d' h) → Q r (now, set_disk d' h)) →
  does a (call op) Q x.
Proof.
  intros Ha Hq H. apply does_call. intros t h now r d' Hr Hi Hlt Hx.
  destruct (quiet_ran a op t h now r d') as (? & ? & ? & ?); [done..|]. split_and!; try done. eapply H; try done.
  eapply kept_trans; [by eapply kept_rely|done].
Qed.

(** A part whose result does not matter. *)
Lemma does_skip a {A B} (p : Prog A) (f : A → Prog B) Q x :
  main a → hushed p → (∀ v y, kept_by x y → does a (f v) Q y) → does a (prog_bind p f) Q x.
Proof. intros Ha Hh H. apply does_bind. eapply does_mono; [|by apply does_hushed]. simpl. auto. Qed.
(** * Moves *)

Lemma not_segp p : is_arrow p.2 = false → ¬ segp p.
Proof. intros E [_ H]. congruence. Qed.

Lemma quiet_sidecars p q : quiet (OpRename (crc_sidecar_path p) (crc_sidecar_path q)).
Proof. split; apply not_segp, sidecar_not_arrow. Qed.

Lemma hushed_sidecar p q : hushed (move_sidecar p q).
Proof. split; [done|]. intros []; [|done]. split; [apply quiet_sidecars|done]. Qed.

Lemma hushed_persist D E : hushed (persist_move D E).
Proof. split; [done|]. by intros [[]|]. Qed.

Lemma hushed_remove_sidecar p : hushed (remove_sidecar p).
Proof. split; [apply not_segp, sidecar_not_arrow|done]. Qed.

(** The log, and what it says about a segment, across the compactor's moves. *)
Definition log_kept (x y : St) : Prop := mono x y ∧ log (sys y.2) = log (sys x.2) ∧ booted y.2 = booted x.2.

Lemma kept_log_kept x y : kept_by x y → log_kept x y.
Proof. by intros []. Qed.

Lemma log_kept_trans x y z : log_kept x y → log_kept y z → log_kept x z.
Proof. intros (? & ? & ?) (? & ? & ?). split_and!; [by eapply mono_trans|congruence..]. Qed.

Lemma log_kept_unlogged x y n : log_kept x y → ¬ logged g x.2 n → ¬ logged g y.2 n.
Proof. intros (_ & E & _). unfold logged. by rewrite E. Qed.

Lemma log_kept_settled x y n : log_kept x y → settled_segment (batch := batch) g x.2 n → settled_segment (batch := batch) g y.2 n.
Proof. intros (? & _). by apply settled_mono. Qed.

Lemma rely_log_kept a x y : main a → Rely a x y → log_kept x y.
Proof. intros. by eapply kept_log_kept, kept_rely. Qed.

Lemma does_rename (ns : rstr → Prop) n D D' Q x :
  ns n → is_arrow n = true → drain_dir D → drain_dir D' → D' ≠ D →
  (∀ t h, Rely (AMine ns) x (t, h) → Inv (t, h) → at_dir h D n →
     (logged g h n → D' = ProcessingDir ∨ D' = CommittedDir ∨ D' = OrphansDir ∧ old g h n) ∧
     (D' = CommittedDir → settled_segment (batch := batch) g h n)) →
  (∀ y, log_kept x y → Q None y) →
  (∀ t h y, Inv (t, h) → at_dir h D n → log_kept x (t, h) → log_kept (t, h) y → at_dir y.2 D' n → Q (Some tt) y) →
  does (AMine ns) (call (OpRename (D, n) (D', n))) Q x.
Proof.
  intros Hns Hn HD HD' Hne Hok Hnone Hsome. apply does_call. intros t h now r d' Hr Hi Hlt [Hx|[_ []]].
  assert (log_kept x (t, h)) as Hk by exact (rely_log_kept (AMine ns) x (t, h) I Hr). assert (t ≤ now) as Hle by lia.
  inv_exec Hx.
  - rewrite set_disk_id. split_and!; [by eapply inv_later|apply guar_still|]. apply Hnone.
    eapply log_kept_trans; [exact Hk|]. split; [apply mono_refl|done].
  - assert (at_dir h D n) as Hat by (by eexists). destruct (Hok t h Hr Hi Hat) as [Hlg Hset].
    destruct (inv_rename g t now h n D D' i) as [Hi' Hg]; try done. split_and!; [done|by eapply guar_mine_mono; [|exact Hg]; intros ? <-|].
    apply (Hsome t h); [done..|split; [by destruct Hg|done]|]. unfold at_dir. cbn. rewrite lookup_insert_eq. eauto.
Qed.

Lemma inv_unlogged t h n D :
  Inv (t, h) → drain_dir D → D ≠ ProcessingDir → D ≠ CommittedDir → D ≠ OrphansDir → at_dir h D n → ¬ logged g h n.
Proof. intros Hi HD ??? Hat Hl. destruct (inv_where _ _ Hi n D Hl HD Hat) as [?|[?|[? _]]]; done. Qed.

Section Mine.
Context (ns : rstr → Prop) (n : rstr) (Hns : ns n) (Hn : is_arrow n = true).

(** [release_segment]: a claim that was not committed goes back. *)
Lemma does_release x : ¬ logged g x.2 n → does (AMine ns) (release_segment (ProcessingDir, n)) (λ _ y, log_kept x y) x.
Proof using Hns Hn.
  intros Hl. apply does_bind. apply does_rename; try done.
  - intros t h Hr _ _. split; [|done]. intros Hlog. exfalso. by apply (log_kept_unlogged x (t, h) n); [exact (rely_log_kept (AMine ns) x (t, h) I Hr)|..].
  - intros y Hy. by apply does_ret.
  - intros t h y Hi Hat Hx Hy _. assert (log_kept x y) as Hxy by (by eapply log_kept_trans).
    eapply does_mono; [|apply does_hushed; [done|]].
    + intros v z Hz%kept_log_kept. by eapply log_kept_trans.
    + apply calls_bind; [apply hushed_sidecar|]. intros _. apply calls_bind; [apply hushed_persist|]. by intros [|].
Qed.

Lemma does_claim x :
  does (AMine ns) (claim_segment (SealedDir, n))
    (λ r y, log_kept x y ∧ ∀ p, r = Some p → p = (ProcessingDir, n) ∧ ¬ logged g y.2 n ∧ at_dir y.2 ProcessingDir n) x.
Proof using Hns Hn.
  apply does_bind. apply does_quiet; [done..|]. intros t h now r d' Hr Hi Hlt He Hk. inv_exec He; [|].
  all: try (apply does_ret; split; [by apply kept_log_kept|done]).
  apply does_bind. apply does_rename; try done.
  - intros u k Hu Hiu Hat. split; [by intros _; left|done].
  - intros y Hy. apply does_ret. split; [|done]. eapply log_kept_trans; [by apply kept_log_kept|done].
  - intros u k y Hiu Hat Hx Hy Hat'.
    assert (log_kept x y) as Hxy by (eapply log_kept_trans; [by apply kept_log_kept|by eapply log_kept_trans]).
    assert (¬ logged g y.2 n) as Hlog.
    { apply (log_kept_unlogged (u, k) y n Hy). eapply (inv_unlogged u k n SealedDir); done. }
    apply does_skip; [done|apply hushed_sidecar|]. intros _ z Hz. apply does_skip; [done|apply hushed_persist|].
    intros v w Hw. assert (kept_by y w) as Hyw by (by eapply kept_trans).
    assert (log_kept x w) as Hxw by (eapply log_kept_trans; [exact Hxy|by apply kept_log_kept]).
    assert (¬ logged g w.2 n) as Hlw by (eapply log_kept_unlogged; [by apply kept_log_kept|done]).
    destruct v as [[]|].
    + apply does_ret. split; [done|]. intros p [= <-]. split_and!; [done..|]. by eapply (kept_at _ _ Hyw).
    + apply does_bind. eapply does_mono; [|by apply does_release]. intros ? q Hq. apply does_ret. split; [|done].
      by eapply log_kept_trans.
Qed.

Lemma does_finish x :
  settled_segment (batch := batch) g x.2 n → does (AMine ns) (finish_segment (ProcessingDir, n)) (λ _ y, log_kept x y) x.
Proof using Hns Hn.
  intros Hs. apply does_bind. apply does_quiet; [done..|]. intros t h now r d' Hr Hi Hlt He Hk. inv_exec He; [|].
  all: try (apply does_ret; by apply kept_log_kept).
  apply does_bind. apply does_rename; try done.
  - intros u k Hu Hiu Hat. split; [by auto|]. intros _. eapply (log_kept_settled x (u, k)); [|done].
    eapply log_kept_trans; [by apply kept_log_kept|exact (rely_log_kept (AMine ns) _ _ I Hu)].
  - intros y Hy. apply does_ret. eapply log_kept_trans; [by apply kept_log_kept|done].
  - intros u k y Hiu Hat Hx Hy _.
    assert (log_kept x y) as Hxy by (eapply log_kept_trans; [by apply kept_log_kept|by eapply log_kept_trans]).
    eapply does_mono; [|apply does_hushed; [done|]].
    + intros v z Hz%kept_log_kept. by eapply log_kept_trans.
    + apply calls_bind; [apply hushed_sidecar|]. intros _. apply calls_bind; [apply hushed_persist|]. by intros [|].
Qed.

Lemma does_remove D Q x :
  drain_dir D →
  (∀ t h, Rely (AMine ns) x (t, h) → Inv (t, h) → at_dir h D n → settled_segment (batch := batch) g h n) →
  (∀ r y, log_kept x y → Q r y) →
  does (AMine ns) (call (OpRemove (D, n))) Q x.
Proof using Hns Hn.
  intros HD Hset HQ. apply does_call. intros t h now r d' Hr Hi Hlt [Hx|[_ []]].
  assert (log_kept x (t, h)) as Hk by exact (rely_log_kept (AMine ns) x (t, h) I Hr). assert (t ≤ now) as Hle by lia.
  inv_exec Hx.
  - rewrite set_disk_id. split_and!; [by eapply inv_later|apply guar_still|]. apply HQ.
    eapply log_kept_trans; [exact Hk|]. split; [apply mono_refl|done].
  - assert (at_dir h D n) as Hat by (by eexists). destruct (inv_unlink g t now h n D i) as [Hi' Hg]; try done; [by eapply Hset|].
    split_and!; [done|by eapply guar_mine_mono; [|exact Hg]; intros ? <-|]. apply HQ. eapply log_kept_trans; [exact Hk|].
    split; [by destruct Hg|done].
Qed.

(** [quarantine_stale_segment] of a sealed segment. *)
Lemma does_quarantine_stale o x :
  does (AMine ns) (quarantine_stale_segment (SealedDir, n) o) (λ _ y, log_kept x y) x.
Proof using Hns Hn.
  apply does_bind. apply does_quiet; [done..|]. intros t h now r d' Hr Hi Hlt He Hk. apply kept_log_kept in Hk. inv_exec He; [|].
  all: try (by apply does_ret).
  apply does_bind. apply does_quiet; [done..|]. intros u k now' r d'' Hr' Hi' Hlt' He' Hk'. inv_exec He'.
  case_bool_decide as Hex.
  - apply does_bind, does_bind. apply does_remove; [done|..].
    + intros v l Hv Hiv Hat. exfalso. assert (at_dir l (StaleDir o) n) as Hst.
      { eapply (rely_at (AMine ns) (now', set_disk (disk k) k) (v, l)); done. }
      by pose proof (inv_place _ _ Hiv n SealedDir (StaleDir o) Hn I I Hat Hst).
    + intros r y Hy. assert (log_kept x y) as Hxy.
      { eapply log_kept_trans; [exact Hk|]. eapply log_kept_trans; [by apply kept_log_kept|done]. }
      destruct r as [|]; [|by apply does_ret, does_ret]. apply does_skip; [done|apply hushed_remove_sidecar|]. intros _ z Hz.
      do 2 apply does_ret. eapply log_kept_trans; [exact Hxy|by apply kept_log_kept].
  - apply does_bind. apply does_rename; try done.
    + intros v l Hv Hiv Hat. split; [|done]. intros Hl. by destruct (inv_unlogged v l n SealedDir Hiv).
    + intros y Hy. apply does_ret. eapply log_kept_trans; [exact Hk|]. eapply log_kept_trans; [by apply kept_log_kept|done].
    + intros v l y Hiv Hat Hx Hy _. assert (log_kept x y) as Hxy.
      { eapply log_kept_trans; [exact Hk|]. eapply log_kept_trans; [by apply kept_log_kept|]. by eapply log_kept_trans. }
      eapply does_mono; [|apply does_hushed; [done|]].
      * intros w z Hz%kept_log_kept. by eapply log_kept_trans.
      * apply calls_bind; [apply hushed_sidecar|]. intros _. apply calls_bind; [apply hushed_persist|]. by intros [|].
Qed.
End Mine.

(** ** Notes on poisoned segments *)

Lemma spare_mono i x y : mono x y → spare i (disk x.2) → spare i (disk y.2).
Proof.
  intros Hm [Ha Hn]. split; [by apply Hm|]. intros p Hp Hl. destruct (mono_inodes _ _ Hm p i Hp Hl) as [(q & Hq & Hlq)|E].
  - by destruct (Hn q Hq).
  - by rewrite E in Ha; destruct Ha.
Qed.

Lemma does_append a i bs Q x :
  main a → spare i (disk x.2) → (∀ r y, kept_by x y → Q r y) → does a (call (OpAppend i bs)) Q x.
Proof.
  intros Ha Hsp HQ. apply does_call. intros t h now r d' Hr Hi Hlt Hx.
  assert (spare i (disk h)) as Hsp' by (eapply (spare_mono i x (t, h)); [by eapply rely_mono|done]).
  assert (steady (disk h) d') as Hst.
  { pose proof (inv_sane _ _ Hi) as Hsane. destruct Hx as [Hx|[-> _]]; [|by apply steady_refl]. inv_exec Hx.
    eapply steady_inode; [done|done|]. right. apply Hsp'. }
  destruct (kept_steady a t h now d') as (? & ? & ?); try done; [lia|]. split_and!; try done. apply HQ.
  eapply kept_trans; [by eapply kept_rely|done].
Qed.

Lemma does_publish a p tmp bs x :
  main a → is_arrow p.2 = false → is_arrow tmp.2 = false → does a (publish_file p tmp bs) (λ _ y, kept_by x y) x.
Proof.
  intros Ha Hp%not_segp Ht%not_segp. apply does_bind, does_bind. apply does_quiet; [done..|].
  intros t h now r d' Hr Hi Hlt He Hk. destruct r as [i|]; [|by do 2 apply does_ret].
  assert (spare i d') as Hsp.
  { pose proof (inv_sane _ _ Hi) as Hs. cbn in Hs. inv_exec He; split; cbn.
    - rewrite lookup_insert_eq. eauto.
    - intros q Hq. rewrite lookup_insert_ne by (by intros ->). intros E. destruct (sane_alloc _ Hs _ _ E). congruence.
    - rewrite lookup_insert_eq. eauto.
    - intros q Hq E. apply Ht. by rewrite (sane_inj _ Hs tmp q _ ltac:(eassumption) E). }
  apply does_bind. apply does_append; [done..|]. intros k y Hy. assert (kept_by x y) as Hxy by (by eapply kept_trans).
  case_match; [by do 2 apply does_ret|].
  eapply does_mono; [|by apply does_hushed]. intros v z Hz. assert (kept_by x z) as Hxz by (by eapply kept_trans).
  destruct v as [[]|]; [|by apply does_ret]. eapply does_mono; [|apply does_hushed; [done|]].
  - intros ? w Hw. by eapply kept_trans.
  - split; [done|]. by intros [|].
Qed.

Lemma poison_names_not_arrow pid n : is_arrow (poison_note_path (PoisonDir, n)).2 = false ∧ is_arrow (poison_tmp pid n).2 = false.
Proof.
  split; [by apply other_ext_not_arrow|]. unfold poison_tmp. cbn [snd].
  rewrite !app_assoc. by apply other_ext_not_arrow.
Qed.

(** [quarantine_poison_segment] of a claim that was not committed. *)
Lemma does_quarantine_poison (ns : rstr → Prop) n nt pid x :
  ns n → is_arrow n = true → ¬ logged g x.2 n →
  does (AMine ns) (quarantine_poison_segment nt pid (ProcessingDir, n)) (λ _ y, log_kept x y) x.
Proof.
  intros Hns Hn Hl. destruct (poison_names_not_arrow pid n) as [Hnote Htmp].
  apply does_skip; [done|done|]. intros [|] y Hy; [|by apply does_ret, kept_log_kept].
  apply does_skip; [done|done|]. intros [] z Hz; [apply does_ret, kept_log_kept; by eapply kept_trans|].
  assert (kept_by x z) as Hxz by (by eapply kept_trans). clear y Hy Hz.
  apply does_bind. eapply does_mono; [|by apply does_publish]. intros r w Hw.
  assert (log_kept x w) as Hxw by (apply kept_log_kept; by eapply kept_trans).
  destruct r as [|]; [|by apply does_ret]. apply does_bind. apply does_rename; try done.
  - intros t h Hr _ _. split; [|done]. intros Hlog. exfalso. apply (log_kept_unlogged x (t, h) n); [|done..].
    eapply log_kept_trans; [exact Hxw|exact (rely_log_kept (AMine ns) _ _ I Hr)].
  - intros q Hq. apply does_ret. by eapply log_kept_trans.
  - intros t h q Hi Hat Hx Hq _. assert (log_kept x q) as Hxq by (eapply log_kept_trans; [exact Hxw|by eapply log_kept_trans]).
    eapply does_mono; [|apply does_hushed; [done|]].
    + intros v v' Hv%kept_log_kept. by eapply log_kept_trans.
    + apply calls_bind; [apply hushed_sidecar|]. intros _. apply calls_bind; [apply hushed_persist|]. by intros [|].
Qed.
(** * Frames *)

(** What the others and moves of [ns] leave alone is still so afterwards. *)
Lemma safe_frame (ns : rstr → Prop) (P : St → Prop) {A} (p : Eff Host A) Q x :
  (∀ y z, Rely (AMine ns) y z → P y → P z) →
  (∀ y z, Inv y → Inv z → y.1 ≤ z.1 → guar g (AMine ns) y z → P y → P z) →
  P x → Safe (AMine ns) p Q x → Safe (AMine ns) p (λ r y, Q r y ∧ P y) x.
Proof.
  intros Hrely Hguar. revert x. induction p as [v| |l B f k IH]; intros x HP; simpl; [done..|].
  intros H y Hr Hi now o Hle Ha. destruct (H y Hr Hi now o Hle Ha) as (Hi' & Hg & Hs). split_and!; [done..|].
  apply IH; [|done]. apply (Hguar y); [done..|]. by apply (Hrely x y).
Qed.

Lemma at_dir_frame (ns : rstr → Prop) n D {A} (p : Eff Host A) Q x :
  ¬ ns n → is_arrow n = true → drain_dir D → D ≠ PoisonDir → at_dir x.2 D n →
  Safe (AMine ns) p Q x → Safe (AMine ns) p (λ r y, Q r y ∧ at_dir y.2 D n) x.
Proof.
  intros Hns Hn HD Hp. apply (safe_frame ns (λ y, at_dir y.2 D n)).
  - intros y z Hr. by apply (rely_at (AMine ns)).
  - intros y z _ _ _ [_ Hg]. destruct (Hg n Hn Hns) as [Hl _]. unfold at_dir. by rewrite Hl.
Qed.

Lemma does_mine_mono (ns ms : rstr → Prop) {A} (p : Prog A) Q x :
  (∀ n, ns n → ms n) → does (AMine ns) p Q x → does (AMine ms) p Q x.
Proof. apply safe_mine_mono. Qed.

(** * Lists of segments *)

Definition claims : list rstr → list path := fmap (λ n, (ProcessingDir, n)).
Definition sealed_paths : list rstr → list path := fmap (λ n, (SealedDir, n)).

Definition unlogged (ns : list rstr) (x : St) : Prop := ∀ n, n ∈ ns → is_arrow n = true ∧ ¬ logged g x.2 n.

Lemma unlogged_kept ns x y : log_kept x y → unlogged ns x → unlogged ns y.
Proof. intros Hk Hu n Hn. destruct (Hu n Hn). split; [done|]. by eapply log_kept_unlogged. Qed.

Lemma does_release_all ns x :
  unlogged ns x → does (AMine (λ n, n ∈ ns)) (release_segments (claims ns)) (λ _ y, log_kept x y) x.
Proof.
  intros Hu. cut (∀ ms y, ms ⊆ ns → log_kept x y →
    does (AMine (λ n, n ∈ ns)) (release_segments (claims ms)) (λ _ z, log_kept x z) y).
  { intros H. apply H; [done|]. destruct x. split; [apply mono_refl|done]. }
  induction ms as [|n ms IH]; intros y Hsub Hy; [by apply does_ret|]. apply does_bind.
  destruct (unlogged_kept ns x y Hy Hu n) as [Hn Hl]; [set_solver|].
  eapply does_mono; [|apply does_release; [set_solver|done..]]. intros ? z Hz. apply IH; [set_solver|]. by eapply log_kept_trans.
Qed.

Lemma does_finish_all ns x :
  (∀ n, n ∈ ns → is_arrow n = true ∧ settled_segment (batch := batch) g x.2 n) →
  does (AMine (λ n, n ∈ ns)) (finish_segments (claims ns)) (λ _ y, log_kept x y) x.
Proof.
  intros Hu. cut (∀ ms y, ms ⊆ ns → log_kept x y →
    does (AMine (λ n, n ∈ ns)) (finish_segments (claims ms)) (λ _ z, log_kept x z) y).
  { intros H. apply H; [done|]. destruct x. split; [apply mono_refl|done]. }
  induction ms as [|n ms IH]; intros y Hsub Hy; [by apply does_ret|]. apply does_bind.
  destruct (Hu n) as [Hn Hs]; [set_solver|]. eapply does_mono; [|apply does_finish; [set_solver|done|by eapply log_kept_settled]].
  intros ? z Hz. apply IH; [set_solver|]. by eapply log_kept_trans.
Qed.

Definition claimed_ok (ns : list rstr) (x : St) : Prop := unlogged ns x ∧ ∀ n, n ∈ ns → at_dir x.2 ProcessingDir n.

Lemma does_claim_one ns m x :
  is_arrow m = true → m ∉ ns → claimed_ok ns x →
  does (AMine (eq m)) (claim_segment (SealedDir, m))
    (λ r y, log_kept x y ∧ claimed_ok ns y ∧ ∀ p, r = Some p → p = (ProcessingDir, m) ∧ claimed_ok (ns ++ [m]) y) x.
Proof.
  intros Hm Hn [Hu Hat].
  eapply (safe_mono _ _ _ _ _ _ (λ r y, (∃ v, r = Some v ∧ log_kept x y ∧
      ∀ p, v = Some p → p = (ProcessingDir, m) ∧ ¬ logged g y.2 m ∧ at_dir y.2 ProcessingDir m) ∧
      ∀ n, n ∈ ns → at_dir y.2 ProcessingDir n)).
  - intros r y [(v & -> & Hk & Hv) Hat']. exists v. split; [done|]. pose proof (unlogged_kept ns x y Hk Hu) as Hu'.
    split_and!; [done..|]. intros p Hp. destruct (Hv p Hp) as (? & ? & ?). split; [done|]. split.
    + intros n [?| ->%list_elem_of_singleton]%elem_of_app; auto.
    + intros n [?| ->%list_elem_of_singleton]%elem_of_app; auto.
  - apply (safe_frame (eq m) (λ y, ∀ n, n ∈ ns → at_dir y.2 ProcessingDir n)); [..|done|by apply does_claim].
    + intros y z Hr H n Hin. destruct (Hu n Hin). apply (rely_at (AMine (eq m)) y z); try done. by apply H.
    + intros y z _ _ _ [_ Hg] H n Hin. destruct (Hu n Hin) as [Har _]. destruct (Hg n Har) as [Hl _]; [by intros ->|].
      unfold at_dir in *. rewrite Hl by done. auto.
Qed.

Lemma does_claim_batch ms ns x :
  NoDup (ns ++ ms) → Forall (λ m, is_arrow m = true) ms → claimed_ok ns x →
  does (AMine (λ n, n ∈ ns ++ ms)) (claim_batch (sealed_paths ms) (claims ns))
    (λ r y, log_kept x y ∧ ∀ l, r = Some l → l = claims (ns ++ ms) ∧ claimed_ok (ns ++ ms) y) x.
Proof.
  revert ns x. induction ms as [|m ms IH]; intros ns x Hnd Hms Hc.
  { apply does_ret. rewrite app_nil_r. split; [destruct x; split; [apply mono_refl|done]|]. by intros l [= <-]. }
  apply Forall_cons in Hms as [Hm Hms]. apply does_bind.
  assert (m ∉ ns) as Hmn by (apply NoDup_app in Hnd as (_ & Hd & _); intros ?; by eapply Hd; [|left]).
  eapply does_mono; [|eapply (does_mine_mono (eq m)); [|by apply does_claim_one]]; [|intros ? <-; set_solver].
  intros r y (Hk & Hy & Hr). destruct r as [p|].
  - destruct (Hr p eq_refl) as [-> Hy']. specialize (IH (ns ++ [m]) y).
    unfold claims in IH. rewrite fmap_app, <- !app_assoc in IH. eapply does_mono; [|by apply IH].
    intros r z [Hz Hl]. split; [by eapply log_kept_trans|done].
  - apply does_bind. eapply does_mono; [|eapply (does_mine_mono (λ n, n ∈ ns)); [set_solver|by apply does_release_all, Hy]].
    intros ? z Hz. apply does_ret. split; [by eapply log_kept_trans|done].
Qed.

Lemma hushed_owner to_string p uuid : hushed (classify_segment_owner to_string p uuid).
Proof. split; [done|]. by intros [|]. Qed.

Lemma does_refuse_stale to_string uuid ms x :
  Forall (λ m, is_arrow m = true) ms →
  does (AMine (λ n, n ∈ ms)) (refuse_stale to_string uuid (sealed_paths ms))
    (λ l y, log_kept x y ∧ ∃ ks, l = sealed_paths ks ∧ ks `sublist_of` ms) x.
Proof.
  intros Hms. cut (∀ ks y, ks ⊆ ms → log_kept x y →
    does (AMine (λ n, n ∈ ms)) (refuse_stale to_string uuid (sealed_paths ks))
      (λ l z, log_kept x z ∧ ∃ k, l = sealed_paths k ∧ k `sublist_of` ks) y).
  { intros H. apply H; [done|]. destruct x. split; [apply mono_refl|done]. }
  induction ks as [|n ks IH]; intros y Hsub Hy; [apply does_ret; split; [done|by exists []]|].
  assert (is_arrow n = true) as Hn by (rewrite Forall_forall in Hms; apply Hms; set_solver).
  apply does_skip; [done|apply hushed_owner|]. intros o z Hz%kept_log_kept.
  assert (log_kept x z) as Hxz by (by eapply log_kept_trans).
  assert (∀ w, log_kept x w → does (AMine (λ n, n ∈ ms)) (refuse_stale to_string uuid (sealed_paths ks))
      (λ l z, log_kept x z ∧ ∃ k, l = sealed_paths k ∧ k `sublist_of` ks) w) as Hrest by (intros w Hw; apply IH; [set_solver|done]).
  destruct o as [| |dropped]; apply does_bind.
  1, 2: eapply does_mono; [|by apply Hrest]; intros l w (Hw & k & -> & Hk); apply does_ret; split; [done|];
    exists (n :: k); split; [done|by apply sublist_skip].
  eapply does_mono; [|apply does_quarantine_stale; [set_solver|done]]. intros ? w Hw.
  eapply does_mono; [|apply Hrest; by eapply log_kept_trans]. intros l v0 (Hv0 & k & -> & Hk). split; [done|].
  exists k. split; [done|by apply sublist_cons].
Qed.
End Safe.
