(* ===== verification/FsPass.v ===== *)
(** The compactor's process over one WAL directory is safe: quarantine and
    disposition of orphans, commits in flight, the dispatch loop, the sweep. *)

From stdpp Require Import prelude gmap strings sorting relations.
From Stdlib Require Import ZArith Lia.
From S2P Require Import Prelude RustStr BTree WalFrame ConsumedProof Eff RelyGuarantee Catalog DrainCycle.
From S2P Require Import WalDisk WalLifecycle WalConsumer WalRetention FsDrain FsInv FsSafe.

Section Safe.
Context {batch : Type} `{!ArrowIpc batch} (g : Target).

Abbreviation St := (Z * Host)%type (only parsing).
Abbreviation Inv := (inv (batch := batch) g).
Abbreviation Rely := (rely Inv compat (guar g)).
Abbreviation Safe := (safe Inv allowed compat (guar g)).
Abbreviation Does := (does (batch := batch) g).
Abbreviation everything := (λ _ : rstr, True).

Lemma log_kept_refl x : log_kept x x.
Proof. destruct x. split; [apply mono_refl|done]. Qed.

(** * Listings *)

Lemma does_list_segments a D x :
  main a → drain_dir D →
  Does a (list_segments D)
    (λ r y, log_kept x y ∧ ∀ l, r = Some l → ∃ ms z, l = (λ n, (D, n)) <$> ms ∧ NoDup ms ∧ Rely a x z ∧ Inv z ∧
       ∀ m, m ∈ ms → is_arrow m = true ∧ at_dir z.2 D m) x.
Proof.
  intros Ha HD. apply does_bind. apply does_quiet; [done..|]. intros t h now r d' Hr Hi Hlt He Hk%kept_log_kept.
  inv_exec He; apply does_ret; (split; [done|]); [done|]. intros l [= <-].
  match goal with |- context [merge_sort path_le ?k] => set (l0 := k) end.
  pose proof (merge_sort_Permutation path_le l0) as Hperm.
  assert (∀ p, p ∈ merge_sort path_le l0 → p.1 = D ∧ p.2 ∈ names ∧ is_arrow p.2 = true) as Hin.
  { intros p. rewrite Hperm. intros (n & -> & [? ?]%list_elem_of_filter)%list_elem_of_fmap. done. }
  exists (snd <$> merge_sort path_le l0), (t, h). split_and!; try done.
  - rewrite <- list_fmap_compose. rewrite <- (list_fmap_id (merge_sort path_le l0)) at 1. apply list_fmap_ext.
    intros i p Hp%list_elem_of_lookup_2. destruct (Hin p Hp) as (<- & _). by destruct p.
  - rewrite Hperm. unfold l0. rewrite <- list_fmap_compose. apply NoDup_fmap_2_strong; [by intros ? ? _ _|]. by apply NoDup_filter.
  - intros m (p & -> & Hp)%list_elem_of_fmap. destruct (Hin p Hp) as (_ & Hm & ?). split; [done|].
    match goal with H : ∀ n, n ∈ names ↔ _ |- _ => by apply H in Hm end.
Qed.

(** * Quarantine at the start *)

(** Every logged segment was logged by an earlier process. *)
Definition no_new (x : St) : Prop := ∀ n, logged g x.2 n → old g x.2 n.

Lemma no_new_kept x y : log_kept x y → no_new x → no_new y.
Proof. intros (_ & El & Eb) H n. unfold logged, old in *. rewrite El, Eb. apply H. Qed.

Lemma does_recover_one moved n x :
  no_new x → Does (AMine everything) (recover_one moved n) (λ _ y, log_kept x y) x.
Proof.
  intros Hnew. destruct (is_arrow n) eqn:Hn; last first.
  { eapply does_mono; [intros ? y; apply kept_log_kept|]. apply does_hushed; [done|].
    assert (∀ D, ¬ segp (D, n)) as Hq by (intros D; by apply not_segp). split; [done|].
    intros []; [by split; [apply Hq|]|]. split; [split; apply Hq|]. by intros [|]. }
  apply does_bind. apply does_quiet; [done..|]. intros t h now r d' Hr Hi Hlt He Hk. inv_exec He. case_bool_decide as Hex.
  - apply does_bind. apply (does_remove g everything n); [done..| |].
    + intros u k Hu Hiu Hat. exfalso. assert (at_dir k OrphansDir n) as Ho.
      { eapply (rely_at g (AMine everything) (now, set_disk (disk h) h) (u, k)); done. }
      by pose proof (inv_place _ _ Hiu n ProcessingDir OrphansDir Hn I I Hat Ho).
    + intros r y Hy. apply does_ret. eapply log_kept_trans; [by apply kept_log_kept|done].
  - apply does_bind. apply does_rename; try done.
    + intros u k Hu Hiu Hat. split; [|done]. intros Hl. right. right. split; [done|].
      apply (no_new_kept x (u, k)); [|done..]. eapply log_kept_trans; [by apply kept_log_kept|].
      exact (rely_log_kept g (AMine everything) _ _ I Hu).
    + intros y Hy. apply does_ret. eapply log_kept_trans; [by apply kept_log_kept|done].
    + intros u k y Hiu Hat Hu Hy _. apply does_ret. eapply log_kept_trans; [by apply kept_log_kept|by eapply log_kept_trans].
Qed.

Lemma does_recover x : no_new x → Does (AMine everything) recover_orphaned_processing (λ _ y, log_kept x y) x.
Proof.
  intros Hnew. apply does_skip; [done..|]. intros [|] y Hy%kept_log_kept; [|by apply does_ret].
  apply does_skip; [done..|]. intros [names|] z Hz%kept_log_kept; [|apply does_ret; by eapply log_kept_trans].
  assert (log_kept x z) as Hxz by (by eapply log_kept_trans). clear y Hy Hz. apply does_bind.
  cut (∀ l k z, log_kept x z → Does (AMine everything) (prog_each recover_one l k) (λ _ w, log_kept x w) z).
  { intros H. eapply does_mono; [|by apply H]. intros [k|] w Hw; [|by apply does_ret]. case_match; [|by apply does_ret].
    eapply does_mono; [|apply does_hushed; [done|]].
    - intros ? v Hv%kept_log_kept. by eapply log_kept_trans.
    - apply calls_bind; [apply hushed_persist|]. by intros [|]. }
  induction l as [|n l IH]; intros k w Hw; [by apply does_ret|]. apply does_bind.
  eapply does_mono; [|apply does_recover_one; by eapply no_new_kept]. intros [k'|] v Hv.
  - apply IH. by eapply log_kept_trans.
  - apply does_ret. by eapply log_kept_trans.
Qed.

(** * The sweep *)

Lemma hushed_watermark age stale_after : hushed (min_consumer_watermark age stale_after).
Proof.
  split; [done|]. intros [names|]; [|done]. apply calls_each. intros s n. unfold watermark_of.
  case_match; [done|]. case_match; [done|]. split; [done|]. intros [bs|]; [|done]. cbn. by case_match.
Qed.

Lemma does_sweep_one age keep max_keep marked wm s n x :
  Does (AMine everything) (sweep_one age keep max_keep marked wm s n) (λ _ y, log_kept x y) x.
Proof.
  unfold sweep_one. destruct (is_arrow n) eqn:Hn; cbn [negb]; [|apply does_ret, log_kept_refl].
  case_match; [apply does_ret, log_kept_refl|]. case_match; [apply does_ret, log_kept_refl|].
  apply does_bind. apply (does_remove g everything n); [done..| |].
  - intros t h _ Hi Hat. by apply (inv_committed _ _ Hi).
  - intros r y Hy. eapply does_mono; [intros ? z Hz; eapply log_kept_trans; [exact Hy|exact Hz]|].
    eapply does_mono; [intros ? z; apply kept_log_kept|]. apply does_hushed; [done|]. destruct r as [|].
    + apply calls_bind; [apply hushed_remove_sidecar|done].
    + split; [done|]. by intros [].
Qed.

Lemma does_sweep age keep max_keep marked stale_after x :
  Does (AMine everything) (sweep_committed_gated age keep max_keep marked stale_after) (λ _ y, log_kept x y) x.
Proof.
  apply does_skip; [done|apply hushed_watermark|]. intros [wm|] y Hy%kept_log_kept; [|by apply does_ret].
  apply does_skip; [done..|]. intros [names|] z Hz%kept_log_kept; [|apply does_ret; by eapply log_kept_trans].
  assert (log_kept x z) as Hxz by (by eapply log_kept_trans). clear y Hy Hz. revert z Hxz. generalize (mkSweep 0 0).
  induction names as [|n names IH]; intros s z Hz; [by apply does_ret|]. apply does_bind.
  eapply does_mono; [|apply does_sweep_one]. intros [s'|] w Hw; [apply IH|apply does_ret]; by eapply log_kept_trans.
Qed.
(** * Orphans *)

Lemma safe_must a {A} (p : Eff Host (option A)) (Q : option A → St → Prop) x :
  Safe a p (λ r y, Q (mjoin r) y) x → Safe a (must p) Q x.
Proof. intros H. apply safe_bind. eapply safe_mono; [|exact H]. by intros [[v|]|] y Hy. Qed.

Lemma safe_io a {A} (p : Prog A) (Q : option A → St → Prop) x : Does a p (λ v y, Q (Some v) y) x → Safe a (io p) Q x.
Proof. apply safe_mono. by intros r y (v & -> & ?). Qed.

Lemma generation_lookup oldest lag l t :
  generation oldest lag l = Some t → ∃ k since, (k ≤ lag)%nat ∧ l !! k = Some (since, t).
Proof.
  revert lag. induction l as [|[s1 t1] l IH]; intros lag; simpl; [done|].
  assert (Some t1 = Some t → ∃ k since, (k ≤ lag)%nat ∧ ((s1, t1) :: l) !! k = Some (since, t)) as Hhere.
  { intros [= ->]. exists 0%nat, s1. split; [lia|done]. }
  destruct l as [|e l]; [done|]. destruct lag as [|lag]; [done|]. destruct (oldest <=? s1); [|done].
  intros (k & since & ? & ?)%IH. exists (S k), since. split; [lia|done].
Qed.

(** What a cached table entry is good for. *)
Record known (t : Table) (x : St) : Prop := {
  known_consumed n : n ∈ cumulative_consumed_segments t → logged g x.2 n;
  known_shown n : old g x.2 n → shown x.2 n t;
}.

Lemma known_kept t x y : log_kept x y → known t x → known t y.
Proof.
  intros (Hm & El & Eb) [Hc Hs]. split.
  - intros n Hn. unfold logged. rewrite El. by apply Hc.
  - intros n. unfold old, shown. rewrite El, Eb, (mono_mtime _ _ Hm). apply Hs.
Qed.

Lemma visible_known t clock h : Inv (clock, h) → visible g h t → known t (clock, h).
Proof.
  intros Hi Hv. split; [|intros n; by apply (inv_visible _ _ Hi)]. destruct Hv as (k & since & _ & Hk%list_elem_of_lookup_2).
  intros n (sn & Hn & Hsn)%list_elem_of_bind. by eapply (table_names _ _ _ _ (inv_tables _ _ Hi since t Hk)).
Qed.

Lemma safe_cached a (Q : option (option Table) → St → Prop) x :
  (∀ clock now h, Rely a x (clock, h) → Inv (clock, h) → clock ≤ now → Q None (now, h) ∧ Q (Some None) (now, h)) →
  (∀ t clock now h, Rely a x (clock, h) → Inv (clock, h) → clock ≤ now → visible g h t → Inv (now, h) → Q (Some (Some t)) (now, h)) →
  Safe a (cached_entry g) Q x.
Proof.
  intros Hnone Hsome. apply safe_read. intros [clock h] now Hr Hi Hle. simpl in *.
  destruct (Hnone clock now h Hr Hi Hle). split; [|done].
  match goal with |- Q (Some ?o) _ => destruct o as [t|] eqn:E; [|done] end.
  apply generation_lookup in E as (k & since & Hk & E). eapply Hsome; try done; [|by eapply inv_later].
  exists k, since. split; [|done]. unfold generations. lia.
Qed.

Lemma minimum_elem l : match minimum l with Some f => f ∈ l | None => l = [] end.
Proof.
  induction l as [|x l IH]; [done|]. simpl. destruct (minimum l) as [f|]; [|by left].
  destruct (Z.min_spec x f) as [[_ ->]|[_ ->]]; [by left|by right].
Qed.

Lemma covered_not_shown t h n m :
  n ∉ cumulative_consumed_segments t → covered (retained_history_floor t) m = true →
  (∀ z, m = Some z → z = mtime h n) → ¬ shown h n t.
Proof.
  intros Hn Hc Hm [?|[Hne Ha]]; [done|]. unfold retained_history_floor in Hc.
  pose proof (minimum_elem (timestamp_ms <$> snapshots t)) as Hf. destruct (minimum _) as [f|].
  - apply list_elem_of_fmap in Hf as (sn & -> & Hsn). specialize (Ha sn Hsn). destruct m as [z|]; [|done].
    rewrite (Hm z eq_refl) in Hc. simpl in Hc. lia.
  - by apply fmap_nil_inv in Hf.
Qed.

Lemma safe_classify_orphan t n x :
  is_arrow n = true → known t x →
  Safe (AMine everything) (classify_orphan (cumulative_consumed_segments t) (retained_history_floor t) (OrphansDir, n))
    (λ _ y, log_kept x y) x.
Proof.
  intros Hn Hk. unfold classify_orphan. cbn [snd]. case_bool_decide as Hc.
  - apply safe_must, safe_io. apply (does_remove g everything n); [done..| |by intros].
    intros u h Hr _ _. left. apply (known_consumed t (u, h)); [|done]. eapply known_kept; [|done].
    exact (rely_log_kept g (AMine everything) _ _ I Hr).
  - apply safe_bind. apply safe_read. intros [u h] now Hr Hi Hle. cbn [fst snd] in *. split; [|done].
    assert (log_kept x (now, h)) as Hx.
    { eapply log_kept_trans; [exact (rely_log_kept g (AMine everything) _ _ I Hr)|]. split; [apply mono_refl|done]. }
    match goal with |- context [covered _ (snd <$> ?m)] => assert (∀ z, snd <$> m = Some z → z = mtime h n) as Hm end.
    { intros z. repeat case_match; simpl; congruence. }
    match goal with |- context [covered ?f ?m] => destruct (covered f m) eqn:Ecov end; cbn [negb]; [|done].
    apply safe_bind, safe_io. apply does_quiet; [done..|]. intros v k now' r d' Hv _ _ He Hk'. inv_exec He.
    assert (log_kept x (now', set_disk (disk k) k)) as Hx' by (eapply log_kept_trans; [exact Hx|by apply kept_log_kept]).
    case_bool_decide; [done|]. apply safe_must, safe_io. apply does_rename; try done.
    + intros w l Hw Hi' Hat. split; [|done]. intros Hl. exfalso.
      destruct (inv_where _ _ Hi' n OrphansDir Hl I Hat) as [?|[?|[_ Ho]]]; [done..|].
      assert (log_kept x (w, l)) as Hxl.
      { eapply log_kept_trans; [exact Hx'|]. exact (rely_log_kept g (AMine everything) _ _ I Hw). }
      eapply (covered_not_shown t l n _ Hc Ecov); [|by apply (known_kept t x (w, l))].
      intros z Hz. rewrite (Hm z Hz). assert (log_kept (now, h) (w, l)) as (Hmo & _).
      { eapply log_kept_trans; [by apply kept_log_kept|]. exact (rely_log_kept g (AMine everything) _ _ I Hw). }
      symmetry. pose proof (mono_mtime _ _ Hmo) as E. simpl in E. by rewrite E.
    + intros y Hy. by eapply log_kept_trans.
    + intros w l y _ _ Hw Hy _. eapply log_kept_trans; [exact Hx'|]. by eapply log_kept_trans.
Qed.
Lemma safe_dispose x : Safe (AMine everything) (dispose_orphans_at g) (λ _ y, log_kept x y) x.
Proof.
  unfold dispose_orphans_at. apply safe_bind, safe_must, safe_io. eapply does_mono; [|by apply does_list_segments].
  intros [l|] y [Hy Hl]; [|done]. destruct (Hl l eq_refl) as (ms & z & -> & _ & _ & _ & Hms). clear Hl.
  assert (∀ m, m ∈ ms → is_arrow m = true) as Harr by (intros m Hm; by apply Hms). clear z Hms. cbn [mjoin option_join].
  case_bool_decide; [done|]. apply safe_bind, safe_bind, safe_must, safe_cached.
  - intros clock now h Hr _ Hle. assert (log_kept x (now, h)) as Hx; [|done].
    eapply log_kept_trans; [exact Hy|]. eapply log_kept_trans; [exact (rely_log_kept g (AMine everything) _ _ I Hr)|].
    split; [apply mono_refl|done].
  - intros t clock now h Hr Hi Hle Hv Hi'.
    change (Safe (AMine everything)
      (let* _ := must (io (call (OpMkdir SealedDir))) in
       each_ (classify_orphan (cumulative_consumed_segments t) (retained_history_floor t)) ((λ n, (OrphansDir, n)) <$> ms))
      (λ _ y, log_kept x y) (now, h)).
    assert (log_kept x (now, h)) as Hx.
    { eapply log_kept_trans; [exact Hy|]. eapply log_kept_trans; [exact (rely_log_kept g (AMine everything) _ _ I Hr)|].
      split; [apply mono_refl|done]. }
    pose proof (visible_known t now h Hi' Hv) as Hkn.
    apply safe_bind, safe_must, safe_io. apply does_quiet; [done..|]. intros u k now' r d' Hu _ _ _ Hk%kept_log_kept.
    assert (log_kept x (now', set_disk d' k)) as Hx' by (by eapply log_kept_trans).
    destruct r as [|]; [|done].
    apply (safe_each _ _ _ _ _ _ (λ _ l y, log_kept x y ∧ known t y ∧ l ⊆ (λ n, (OrphansDir, n)) <$> ms)).
    + intros _ p l w (Hw & Hkw & Hsub). assert (p ∈ (λ n, (OrphansDir, n)) <$> ms) as (n & -> & Hn)%list_elem_of_fmap by set_solver.
      eapply safe_mono; [|apply safe_classify_orphan; [by apply Harr|done]]. intros r v Hv'.
      assert (log_kept x v) by (by eapply log_kept_trans). destruct r as [|]; [|done]. split_and!; [done| |set_solver].
      by apply (known_kept t w v).
    + by intros _ w (Hw & _).
    + split_and!; [done| |done]. by apply (known_kept t (now, h)).
Qed.
End Safe.
