(* ===== verification/FsTask.v ===== *)
(** Commits in flight are safe among the compactor's other work, and
    [FuturesUnordered::next] runs them side by side. *)

From stdpp Require Import prelude gmap strings sorting relations.
From Stdlib Require Import ZArith Lia.
From S2P Require Import Prelude RustStr BTree WalFrame ConsumedProof Eff RelyGuarantee Catalog DrainCycle.
From S2P Require Import WalDisk WalLifecycle WalConsumer WalRetention FsDrain FsInv FsSafe FsPass.

Section Task.
Context {PJ : ProofJson} {batch : Type} `{!ArrowIpc batch} (g : Target) (owner : option rstr).

Abbreviation St := (Z * Host)%type (only parsing).
Abbreviation Inv := (inv (batch := batch) g).
Abbreviation Rely := (rely Inv compat (guar g)).
Abbreviation Safe := (safe Inv allowed compat (guar g)).
Abbreviation Does := (does (batch := batch) g).
Abbreviation Settled := (settled_segment (batch := batch) g).
Abbreviation TaskOf ns := (ATask (λ n : rstr, n ∈ (ns : list rstr))).

(** * Interference *)

Lemma rely_still a x t h now : compat a AOther → Inv (t, h) → t ≤ now → Rely a x (t, h) → Rely a x (now, h).
Proof.
  intros Hc Hi Hle Hr. eapply rtc_r; [exact Hr|]. split_and!; [done|by eapply inv_later|done|]. exists AOther.
  split; [done|apply guar_still].
Qed.

Lemma rely_task_claimed ns x y : Rely (TaskOf ns) x y → claimed_ok g ns x → claimed_ok g ns y.
Proof.
  induction 1 as [|x y z (_ & _ & _ & b & Hc & Hg) _ IH]; [done|]. intros [Hu Hat]. apply IH.
  assert (∀ n, n ∈ ns → same g n x y) as Hs.
  { intros n Hn. destruct (Hu n Hn) as [Har _], Hg as [_ Hg]. destruct b as [|ms|ms|]; simpl in Hc; try done.
    - apply Hg; [done|]. intros ?. by eapply Hc.
    - destruct Hg as [_ Hg]. apply Hg; [done|]. intros ?. by eapply Hc.
    - destruct Hg as (_ & _ & Hg). eapply (Hg n ProcessingDir); auto. }
  split.
  - intros n Hn. destruct (Hu n Hn) as [? Hl], (Hs n Hn) as [_ Hl']. split; [done|]. by intros ?%Hl'.
  - intros n Hn. destruct (Hs n Hn) as [Hlv _]. unfold at_dir. rewrite Hlv by done. by apply Hat.
Qed.

(** * Reading *)

(** Calls that change nothing. *)
Lemma looks_ran {R} (op : Op R) d r d' :
  looks op → ran op d r d' → d' = d ∧ WalDisk.exec d op r d'.
Proof. intros Hop [Hx|[-> H]]; [|by destruct op]. split; [|done]. by destruct op; inv_exec Hx. Qed.

Lemma does_look ns {R} (op : Op R) (Q : R → St → Prop) x :
  match op with OpExists _ | OpRead _ | OpReadDir _ => True | _ => False end →
  (∀ t h now r, Inv (t, h) → t < now → WalDisk.exec (disk h) op r (disk h) → Rely (TaskOf ns) x (now, h) → Q r (now, h)) →
  Does (TaskOf ns) (call op) Q x.
Proof.
  intros Hop HQ. apply does_call. intros t h now r d' Hr Hi Hlt [-> Hx]%looks_ran; [|done]. rewrite set_disk_id.
  split_and!; [eapply inv_later; [|done]; lia|apply guar_still|]. eapply HQ; try done. eapply rely_still; [done|done|lia|done].
Qed.

Lemma does_looking ns {A} (p : Prog A) x : looking p → Does (TaskOf ns) p (λ _ y, Rely (TaskOf ns) x y) x.
Proof.
  intros Hp. apply (does_steps g (TaskOf ns) p (λ p y, looking p ∧ Rely (TaskOf ns) x y)).
  - by intros ? ? [_ ?].
  - intros R op k y [[Hop Hk] Hx] t h now r d' Hr Hi Hlt [-> _]%looks_ran; [|done]. rewrite set_disk_id.
    split_and!; [eapply inv_later; [|done]; lia|apply guar_still|done|]. eapply rely_still; [done|done|lia|].
    by etrans.
  - split; [done|apply rtc_refl].
Qed.

Lemma looking_segments D : looking (list_segments D).
Proof. split; [done|]. by intros [|]. Qed.

Lemma looking_visible : looking list_visible.
Proof.
  apply calls_bind; [|by intros [|]]. apply calls_each. intros s D. apply calls_bind; [apply looking_segments|]. by intros [|].
Qed.

(** A segment that reads as nothing has no rows. *)
Lemma does_read_claimed ns n x :
  is_arrow n = true →
  Does (TaskOf ns) (read_segment_file (batch := batch) (ProcessingDir, n))
    (λ r y, Rely (TaskOf ns) x y ∧ (r = Some [] → Settled y.2 n)) x.
Proof.
  intros Hn. apply does_bind. apply does_look; [done|]. intros t h now r Hi Hlt He Hr.
  destruct r as [file|]; [|by apply does_ret]. inv_exec He.
  match goal with H : live (disk h) !! _ = Some ?i |- _ => destruct (inv_data _ _ Hi (ProcessingDir, n) i) as (nd' & Hnd & Hs); [done..|] end.
  simpl in Hnd, Hs. simplify_eq. case_match.
  - apply does_ret. split; [done|]. intros E. right. eexists. split; [exact Hs|]. left. by case_match; simplify_eq.
  - apply does_bind. apply does_look; [done|]. intros u k now' sidecar Hi' _ _ Hr'. apply does_ret.
    split; [by etrans|]. intros E. right. eexists. split.
    + pose proof (rely_mono _ _ _ _ Hr') as Hm. eapply lookup_weaken; [exact Hs|apply (mono_sealed _ _ Hm)].
    + right. exists sidecar. by case_match; simplify_eq.
Qed.

(** * Statements of the table *)

Lemma safe_on_sys_bind a {A B} (p : Eff Sys A) (q : A → Eff Sys B) Q x :
  Safe a (bind (on_sys p) (λ v, on_sys (q v))) Q x → Safe a (on_sys (bind p q)) Q x.
Proof.
  revert x. induction p as [v| |l C f k IH]; intros x; simpl; [done..|].
  intros H y Hr Hi now o Hle Ha. destruct (H y Hr Hi now o Hle Ha) as (? & ? & ?). split_and!; [done..|]. by apply IH.
Qed.

Lemma safe_task_query ns l {B : Set} (f : Z → Sys → B) (Q : option B → St → Prop) x :
  (∀ r y, Rely (TaskOf ns) x y → Q r y) → Safe (TaskOf ns) (on_sys (query l f)) Q x.
Proof.
  intros HQ [t h] Hr Hi now o Hle Ha. simpl in *. assert (Rely (TaskOf ns) x (now, h)) as Hx by (by eapply rely_still).
  destruct o; simpl; rewrite ?set_sys_id; (split_and!; [by eapply inv_later|apply guar_still|by apply HQ]).
Qed.

Lemma append_snapshots now used through terminal expect t t' :
  append_with_consumed_proof now used through terminal expect t = inr t' →
  snapshots t' = mkSnapshot now (if bool_decide (used = []) then None else Some (join_commas (segment_id <$> used))) :: snapshots t.
Proof.
  unfold append_with_consumed_proof. destruct (negb _); [done|]. destruct (ConsumedProof.commit _ _); [done|]. by intros [= <-].
Qed.

Lemma safe_append_rows ns used terminal x :
  NoDup ns → segment_id <$> used = ns → claimed_ok g ns x →
  Safe (TaskOf ns) (on_sys (append_batches g used None terminal owner))
    (λ r y, match r with Some AppendDone => ∀ n, n ∈ ns → logged g y.2 n | _ => Rely (TaskOf ns) x y end) x.
Proof.
  intros Hnd Hused Hc [t h] Hr Hi now o Hle [_ Hal]. simpl in *.
  assert (Rely (TaskOf ns) x (now, h)) as Hx by (by eapply rely_still).
  assert (claimed_ok g ns (t, h)) as [Hu Hat] by (by eapply rely_task_claimed).
  destruct o; [|by destruct (Hal eq_refl)|split_and!; [by eapply inv_later|apply guar_still|done]].
  unfold live_table. simpl. destruct (tables (sys h) g) as [|[since tb] older] eqn:Egen; simpl.
  { rewrite set_sys_id. split_and!; [by eapply inv_later|apply guar_still|done]. }
  destruct (append_with_consumed_proof now used None terminal owner tb) as [[|]|tb'] eqn:Eapp; simpl.
  1, 2: rewrite set_sys_id; split_and!; [by eapply inv_later|apply guar_still|done].
  rewrite Hused. pose proof (append_snapshots _ _ _ _ _ _ _ Eapp) as Hsn.
  assert (∀ n, n ∈ ns → ¬ logged g h n ∧ is_Some (sealed h !! n) ∧ ∀ D, drain_dir D → at_dir h D n → D = ProcessingDir) as Hids.
  { intros n Hn. destruct (Hu n Hn) as [Har Hl]. destruct (Hat n Hn) as [i Hpi]. simpl in *. split_and!; [done|..].
    - destruct (inv_data _ _ Hi (ProcessingDir, n) i) as (nd & _ & ?); [done..|]. eauto.
    - intros D HD HatD. apply (inv_place _ _ Hi n D ProcessingDir); try done. by exists i. }
  assert (consumed_by (mkSnapshot now (if bool_decide (used = []) then None else Some (join_commas (segment_id <$> used)))) = ns) as Hby.
  { rewrite Hused. unfold consumed_by. simpl. case_bool_decide as Eu; [by subst|]. apply split_join, Forall_forall. intros n Hn.
    destruct (Hids n Hn) as (_ & [b Hb] & _). destruct (inv_names _ _ Hi n b Hb) as (Har & Hcomma & _). split; [|done].
    intros ->. done. }
  assert (table_ok t (logged g h) (mtime h) tb) as Htb by (eapply (inv_tables _ _ Hi since tb); unfold generations; simpl; rewrite Egen; by left).
  assert (∀ n, logged g h n ∨ n ∈ ns → shown h n tb') as Hshown.
  { intros n [Hl|Hn].
    - eapply (shown_snapshot g t now); try done. eapply (inv_head _ _ Hi since tb older n); [|done]. exact Egen.
    - left. unfold cumulative_consumed_segments. rewrite Hsn. simpl. rewrite Hby. apply elem_of_app. by left. }
  change (set_sys (set_table g now tb' ns (sys h)) h) with (publish g now tb' ns h).
  split_and!.
  - eapply inv_publish; try done. eapply (table_ok_snapshot g t now h tb tb'); try done. intros n Hn. by apply Hids.
  - apply guar_publish.
  - intros n Hn. simpl. apply publish_logged. by right.
Qed.
(** * A commit in flight *)

(** Every part of the compactor's memory that is not the log. *)
Lemma safe_invalidate ns x :
  Safe (TaskOf ns) (invalidate_cached_table g) (λ _ y, mono x y) x.
Proof.
  apply safe_stmt. intros [t h] Hr Hi now o Hle [Hal _]. destruct (Hal eq_refl) as [-> _]. simpl.
  pose proof (inv_later _ _ _ _ Hle Hi) as Hi'. split_and!.
  - pose proof (inv_head _ _ Hi') as Hhead. destruct Hi'. split; try done. intros n t' (k & since & Hk & Ht) Ho.
    change (k ≤ length (generations g h) - length (generations g h))%nat in Hk. change (generations g h !! k = Some (since, t')) in Ht.
    rewrite Nat.sub_diag in Hk. assert (k = 0%nat) as -> by lia.
    destruct (generations g h) as [|e older] eqn:E; [done|]. simpl in Ht. injection Ht as ->.
    apply (Hhead since t' older n E). unfold old in Ho. apply elem_of_take in Ho as (j & ? & _). by eapply list_elem_of_lookup_2.
  - split; [|done]. split; try done. intros p i Hp Hl. left. eauto.
  - eapply mono_trans; [by eapply rely_mono|]. split; try done. intros p i Hp Hl. left. eauto.
Qed.

Definition task_post (ns : list rstr) (r : option (list path * Z * CommitResult)) (y : St) : Prop :=
  match r with
  | Some (l, _, CommitOk _) => l = claims ns ∧ ∀ n, n ∈ ns → is_arrow n = true ∧ Settled y.2 n
  | Some (l, _, UnreadableSegments u) => l = claims ns ∧ unlogged g ns y ∧ u ⊆ claims ns
  | Some (l, _, _) => l = claims ns ∧ unlogged g ns y
  | None => True
  end.

Lemma safe_read_claimed ns x :
  (∀ n, n ∈ ns → is_arrow n = true) →
  Safe (TaskOf ns) (read_claimed (batch := batch) (claims ns))
    (λ r y, Rely (TaskOf ns) x y ∧ ∀ l, r = Some l → l.*1 = claims ns ∧ ∀ n, (ProcessingDir, n, Some []) ∈ l → Settled y.2 n) x.
Proof.
  intros Harr. unfold read_claimed.
  apply (safe_each _ _ _ _ _ _ (λ acc l y, Rely (TaskOf ns) x y ∧ acc.*1 ++ l = claims ns ∧
    ∀ n, (ProcessingDir, n, Some []) ∈ acc → Settled y.2 n)).
  - intros acc p l y (Hx & Hl & Hacc). apply safe_bind, safe_io.
    assert (p ∈ claims ns) as (n & -> & Hn)%list_elem_of_fmap by (rewrite <- Hl; set_solver).
    eapply does_mono; [|apply does_read_claimed; by apply Harr]. intros r z [Hz Hr]. simpl. split_and!; [by etrans|..].
    + by rewrite fmap_app, <- app_assoc.
    + intros m [Hm|[= <- <-]%list_elem_of_singleton]%elem_of_app; [|by apply Hr].
      eapply settled_mono; [by eapply rely_mono|by apply Hacc].
  - intros acc y (Hx & Hl & Hacc). split; [done|]. intros l [= <-]. by rewrite app_nil_r in Hl.
  - split_and!; [apply rtc_refl|done|]. by intros n ?%elem_of_nil.
Qed.

Lemma safe_terminal_proof ns x : Safe (TaskOf ns) (filesystem_terminal_consumed_proof_entries g) (λ _ y, Rely (TaskOf ns) x y) x.
Proof.
  unfold filesystem_terminal_consumed_proof_entries. apply safe_bind, safe_must, safe_cached.
  { intros t now h Hr Hi Hle. assert (Rely (TaskOf ns) x (now, h)) by (by eapply rely_still). done. }
  intros t u now h Hr Hi Hle _ Hi'. assert (Rely (TaskOf ns) x (now, h)) as Hx by exact (rely_still (TaskOf ns) x u h now I Hi Hle Hr).
  cbn [mjoin option_join id]. destruct (durable_consumed_proof t) as [|proof|]; [done| |done].
  apply safe_bind, safe_must, safe_io. eapply does_mono; [|apply does_looking, looking_visible].
  intros [v|] y Hy; [|simpl; by etrans]. cbn [mjoin option_join id]. apply safe_bind, safe_must, safe_io.
  eapply does_mono; [|apply does_looking, looking_segments]. intros [o|] z Hz; [|simpl; by do 2 (etrans; [done|])].
  cbn [mjoin option_join id]. apply safe_bind, safe_must, safe_io. eapply does_mono; [|apply does_looking, looking_segments].
  intros [q|] w Hw; simpl; by do 3 (etrans; [done|]).
Qed.

Lemma results_empty (ns : list rstr) (l : list (path * option (list batch))) :
  l.*1 = claims ns → length (fst <$> filter (λ r, r.2 = None) l) = 0%nat → (l ≫= λ r, default [] r.2) = [] →
  ∀ n, n ∈ ns → (ProcessingDir, n, Some []) ∈ l.
Proof.
  intros Hfst Hnone Hbind n Hn. assert ((ProcessingDir, n) ∈ l.*1) as Hin by (rewrite Hfst; by apply list_elem_of_fmap_2).
  apply list_elem_of_fmap in Hin as ([p r] & E & Hin). simpl in E. subst p. destruct r as [[|b bs]|]; [done|..].
  - exfalso. assert (b ∈ l ≫= λ r, default [] r.2) as Hb; [|rewrite Hbind in Hb; by apply elem_of_nil in Hb].
    apply list_elem_of_bind. eexists (_, _). split; [|exact Hin]. simpl. by left.
  - exfalso. rewrite length_fmap in Hnone. apply nil_length_inv in Hnone.
    assert ((ProcessingDir, n, None) ∈ filter (λ r : path * option (list batch), r.2 = None) l) as Hf by (by apply list_elem_of_filter).
    rewrite Hnone in Hf. by apply elem_of_nil in Hf.
Qed.

Lemma safe_outcome ns b bs used terminal x :
  NoDup ns → segment_id <$> used = ns → claimed_ok g ns x →
  Safe (TaskOf ns) (on_sys (commit_outcome (batch := batch) g (b :: bs) used None terminal owner))
    (λ r y, match r with Some AppendDone => ∀ n, n ∈ ns → logged g y.2 n | _ => Rely (TaskOf ns) x y end) x.
Proof.
  intros Hnd Hused Hc. apply safe_on_sys_bind, safe_bind, safe_task_query. intros [ok|] y Hy; [|done].
  destruct ok; cbn [negb]; [|done]. eapply safe_mono; [|apply (safe_append_rows ns); [done..|by eapply rely_task_claimed]].
  intros [[]|] z Hz; try done; by etrans.
Qed.

Lemma safe_commit_task ns size x :
  NoDup ns → claimed_ok g ns x → Safe (TaskOf ns) (commit_task (batch := batch) g owner (claims ns) size) (task_post ns) x.
Proof.
  intros Hnd Hc. assert (∀ n, n ∈ ns → is_arrow n = true) as Harr by (intros n Hn; by apply Hc).
  assert (∀ y, Rely (TaskOf ns) x y → unlogged g ns y) as Hun by (intros y Hy; by apply (rely_task_claimed ns x y Hy Hc)).
  apply safe_bind, safe_bind. eapply safe_mono; [|by apply safe_read_claimed]. intros [l|] y [Hy Hl]; [|done].
  destruct (Hl l eq_refl) as [Hfst Hset]. clear Hl. cbv zeta. case_bool_decide as Hun'.
  { simpl. split_and!; [done|by apply Hun|]. rewrite <- Hfst. intros p (r & -> & [_ ?]%list_elem_of_filter)%list_elem_of_fmap.
    by apply list_elem_of_fmap_2. }
  pose proof (results_empty ns l Hfst Hun') as Hempty.
  destruct (l ≫= λ r, default [] r.2) as [|b bs] eqn:Ebs.
  { simpl. split; [done|]. intros n Hn. split; [by apply Harr|]. apply Hset. by apply Hempty. }
  apply safe_bind, safe_read. intros [t h] now Hr Hi Hle. split; [|done]. cbn [fst snd] in *.
  assert (Rely (TaskOf ns) x (now, h)) as Hx by (eapply rely_still; [done|done|done|by etrans]).
  apply safe_bind, safe_catch. eapply safe_mono; [|apply safe_terminal_proof]. intros [terminal|] z Hz; last first.
  { simpl. split; [done|]. apply Hun. by etrans. }
  assert (Rely (TaskOf ns) x z) as Hxz by (by etrans).
  apply safe_bind, safe_catch. eapply safe_mono; [|apply (safe_outcome ns); [done| |by eapply rely_task_claimed]]; last first.
  { unfold claims. rewrite <- !list_fmap_compose. apply list_fmap_id. }
  intros [[]|] w Hw; try (by split; [done|apply Hun; by etrans]).
  apply safe_bind. eapply safe_mono; [|apply safe_invalidate]. intros [[]|] v Hv; [|done]. simpl. split; [done|].
  intros n Hn. split; [by apply Harr|]. eapply settled_mono; [exact Hv|]. left. by apply Hw.
Qed.
End Task.
