(* ===== verification/FsLoop.v ===== *)
(** The dispatch loop, the cycle and the compactor's process: no segment is in
    two commits, and every statement keeps the invariant. *)

From stdpp Require Import prelude gmap strings sorting relations.
From Stdlib Require Import ZArith Lia.
From S2P Require Import Prelude RustStr BTree WalFrame ConsumedProof Eff RelyGuarantee Catalog DrainCycle.
From S2P Require Import WalDisk WalLifecycle WalConsumer WalRetention FsDrain FsInv FsSafe FsPass FsTask.

Section Loop.
Context {PJ : ProofJson} {batch : Type} `{!ArrowIpc batch} (to_string : Uuid → rstr).
Context (note : path → Z → bytes) (pid : rstr) (cfg : FsConfig) (g : Target) (owner : option rstr).

Abbreviation St := (Z * Host)%type (only parsing).
Abbreviation Inv := (inv (batch := batch) g).
Abbreviation Rely := (rely Inv compat (guar g)).
Abbreviation Safe := (safe Inv allowed compat (guar g)).
Abbreviation Does := (does (batch := batch) g).
Abbreviation TaskOf ns := (ATask (λ n : rstr, n ∈ (ns : list rstr))).
Abbreviation Task := (Eff Host (list path * Z * CommitResult)).
Abbreviation Post := (task_post (batch := batch) g).

(** * Commits side by side *)

Definition task_ok (ns : list rstr) (t : Task) (x : St) : Prop := ∃ x0, Rely (TaskOf ns) x0 x ∧ Safe (TaskOf ns) t (Post ns) x0.

(** The commits [tasks] are in flight with the claims [nss]. *)
Record flight (nss : list (list rstr)) (tasks : list Task) (x : St) : Prop := {
  flight_tasks : Forall2 (λ ns t, task_ok ns t x) nss tasks;
  flight_nodup : NoDup (concat nss);
  flight_at n : n ∈ concat nss → is_arrow n = true ∧ at_dir x.2 ProcessingDir n;
}.

Lemma flight_nil x : flight [] [] x.
Proof. split; [constructor|constructor|]. by intros n ?%elem_of_nil. Qed.

Lemma task_ok_step ns t b x y :
  compat (TaskOf ns) b → guar g b x y → Inv x → Inv y → x.1 ≤ y.1 → task_ok ns t x → task_ok ns t y.
Proof. intros ????? (x0 & Hr & Hs). exists x0. split; [|done]. eapply rtc_r; [exact Hr|]. split_and!; eauto. Qed.

Lemma elem_of_concat (nss : list (list rstr)) ns n : ns ∈ nss → n ∈ ns → n ∈ concat nss.
Proof. induction 1; simpl; rewrite elem_of_app; auto. Qed.

(** A step that leaves the claims in flight alone. *)
Lemma flight_step nss tasks b x y :
  (∀ ns, ns ∈ nss → compat (TaskOf ns) b) → guar g b x y → Inv x → Inv y → x.1 ≤ y.1 →
  (∀ n, n ∈ concat nss → is_arrow n = true → at_dir x.2 ProcessingDir n → at_dir y.2 ProcessingDir n) →
  flight nss tasks x → flight nss tasks y.
Proof.
  intros Hc Hg Hx Hy Hle Hat [Ht Hnd Hf]. split; [|done|].
  - clear Hnd Hf Hat. induction Ht as [|ns t nss tasks Hok _ IH]; constructor.
    + eapply task_ok_step; try done. apply Hc. by left.
    + apply IH. intros ms Hms. apply Hc. by right.
  - intros n Hn. destruct (Hf n Hn). auto.
Qed.

Lemma flight_rely a nss tasks x y : main a → Rely a x y → flight nss tasks x → flight nss tasks y.
Proof.
  intros Ha. induction 1 as [|x y z Hxy _ IH]; [done|]. intros Hf. apply IH. pose proof (rely_others g a x y Ha Hxy) as Hg.
  destruct Hxy as (Hx & Hy & Hle & _). apply (flight_step nss tasks AOther x y); try done.
  intros n Hn Harr Hat. destruct Hg as (_ & _ & _ & Hs).
  destruct (Hs n ProcessingDir Harr I ltac:(done) Hat) as [Hl _]. unfold at_dir. by rewrite Hl.
Qed.

Lemma flight_still nss tasks t h now : Inv (t, h) → t ≤ now → flight nss tasks (t, h) → flight nss tasks (now, h).
Proof.
  intros Hi Hle. apply (flight_step nss tasks AOther (t, h) (now, h)); try done; [apply guar_still|by eapply inv_later].
Qed.

(** The compactor's own moves beside the commits. *)
Lemma safe_beside (ms : rstr → Prop) nss tasks {A} (p : Eff Host A) Q x :
  flight nss tasks x → (∀ n, n ∈ concat nss → ¬ ms n) → Safe (AMine ms) p Q x →
  Safe ACompactor p (λ r y, Q r y ∧ flight nss tasks y) x.
Proof.
  intros Hf Hd Hs. eapply (safe_actor _ _ _ _ (AMine ms)).
  - intros c Hc. exists AOther. by destruct c.
  - intros y z _ _ [Hm _]. by split.
  - done.
  - apply safe_frame; [..|done|done].
    + intros y z Hr. by apply (flight_rely (AMine ms)).
    + intros y z Hy Hz Hle Hg. apply (flight_step nss tasks (AMine ms)); try done.
      * intros ns Hns n Hn Hmn. eapply Hd; [|done]. by eapply elem_of_concat.
      * intros n Hn Harr Hat. destruct Hg as [_ Hg]. destruct (Hg n Harr (Hd n Hn)) as [Hl _]. unfold at_dir. by rewrite Hl.
Qed.

Lemma safe_main (ms : rstr → Prop) {A} (p : Eff Host A) Q x : Safe (AMine ms) p Q x → Safe ACompactor p Q x.
Proof.
  intros Hs. eapply safe_mono; [|apply (safe_beside ms [] []); [apply flight_nil|by intros n ?%elem_of_nil|done]]. by intros r y [? _].
Qed.

Lemma post_rely ns r x y : Rely (TaskOf ns) x y → Post ns r x → Post ns r y.
Proof.
  intros Hr. assert (unlogged g ns x → unlogged g ns y) as Hun.
  { induction Hr as [|x y z (_ & _ & _ & b & Hc & Hg) _ IH]; [done|]. intros Hu. apply IH. intros n Hn.
    destruct (Hu n Hn) as [Harr Hl]. split; [done|]. intros Hl'. apply Hl. destruct Hg as [_ Hg].
    destruct b as [|ms|ms|]; simpl in Hc; try done.
    - destruct (Hg n Harr (λ Hm, Hc n Hn Hm)) as [_ Hb]. by apply Hb.
    - destruct Hg as [_ Hg], (Hg n Harr (λ Hm, Hc n Hn Hm)) as [_ Hb]. by apply Hb.
    - destruct Hg as [El _]. unfold logged in *. by rewrite El in Hl'. }
  destruct r as [[[l b] []]|]; simpl; [..|done].
  - intros [? H]. split; [done|]. intros n Hn. destruct (H n Hn). split; [done|]. eapply settled_mono; [by eapply rely_mono|done].
  - intros (? & ? & ?). auto.
  - intros [? ?]. auto.
  - intros [? ?]. auto.
Qed.

Lemma concat_delete (nss : list (list rstr)) i ns : nss !! i = Some ns → concat nss ≡ₚ ns ++ concat (delete i nss).
Proof.
  revert i. induction nss as [|ms nss IH]; intros [|i] H; simplify_eq/=; [done|]. rewrite (IH i H), !app_assoc.
  f_equiv. by rewrite Permutation_app_comm.
Qed.

Lemma concat_disjoint (nss : list (list rstr)) i j ns ms n :
  NoDup (concat nss) → nss !! i = Some ns → nss !! j = Some ms → i ≠ j → n ∈ ns → n ∈ ms → False.
Proof.
  intros Hnd Hi Hj Hij Hn Hm. rewrite (concat_delete nss i ns Hi) in Hnd. apply NoDup_app in Hnd as (_ & Hd & _).
  apply (Hd n Hn). apply (elem_of_concat _ ms); [|done]. destruct (decide (j < i)%nat).
  - apply (list_elem_of_lookup_2 _ j). by rewrite list_lookup_delete_lt.
  - apply (list_elem_of_lookup_2 _ (pred j)). rewrite list_lookup_delete_ge by lia. by replace (S (pred j)) with j by lia.
Qed.

(** One statement of one commit. *)
Lemma flight_task nss tasks i ns t x y :
  flight nss tasks x → Inv x → Inv y → x.1 ≤ y.1 → nss !! i = Some ns → guar g (TaskOf ns) x y → task_ok ns t y →
  flight nss (<[i := t]> tasks) y.
Proof.
  intros [Ht Hnd Hf] Hx Hy Hle Hi Hg Hok. split; [|done|].
  - apply Forall2_same_length_lookup in Ht as [Hlen Ht]. apply Forall2_same_length_lookup. split; [by rewrite length_insert|].
    intros j ms u Hj Hu. destruct (decide (i = j)) as [->|Hne].
    + rewrite list_lookup_insert_eq in Hu by (rewrite <- Hlen; by eapply lookup_lt_Some). by simplify_eq.
    + rewrite list_lookup_insert_ne in Hu by done. eapply task_ok_step; [|exact Hg|done..|by eapply Ht].
      intros n Hn Hm. by eapply (concat_disjoint nss i j ns ms n).
  - intros n Hn. destruct (Hf n Hn), Hg as (_ & Hdisk & _). unfold at_dir. by rewrite Hdisk.
Qed.

Lemma safe_next schedule nss tasks x :
  flight nss tasks x →
  Safe ACompactor (next schedule tasks)
    (λ r y, match r with
            | Some (Some (l, size, res, rest)) =>
                ∃ ns nss', Post ns (Some (l, size, res)) y ∧ flight nss' rest y ∧ NoDup (ns ++ concat nss') ∧ concat nss ≡ₚ ns ++ concat nss'
            | _ => True
            end) x.
Proof.
  revert tasks x. induction schedule as [|i schedule IH]; intros tasks x Hf; [done|]. simpl.
  destruct (tasks !! i) as [t|] eqn:Et; [|by apply IH].
  destruct (Forall2_lookup_r _ _ _ _ _ (flight_tasks _ _ _ Hf) Et) as (ns & Hns & x0 & Hr & Hs).
  destruct t as [[[l size] res]| |lb B f k]; simpl in Hs; [|done|].
  - simpl. exists ns, (delete i nss). pose proof (flight_nodup _ _ _ Hf) as Hnd. rewrite (concat_delete nss i ns Hns) in Hnd.
    split_and!; [by eapply (post_rely ns (Some (l, size, res)))| |done|by apply concat_delete]. split.
    + apply Forall2_delete, Hf.
    + by apply NoDup_app in Hnd as (_ & _ & ?).
    + intros n Hn. apply (flight_at _ _ _ Hf). rewrite (concat_delete nss i ns Hns). apply elem_of_app. by right.
  - intros y Hxy Hi now o Hle Ha. pose proof (flight_rely ACompactor nss tasks x y I Hxy Hf) as Hfy.
    destruct (Forall2_lookup_lr _ _ _ _ _ _ (flight_tasks _ _ _ Hfy) Hns Et) as (y0 & Hr' & Hs').
    destruct (Hs' y Hr' Hi now o Hle Ha) as (Hi' & Hg & Hs''). split_and!; [done|by destruct Hg|]. apply IH.
    eapply flight_task; [exact Hfy|done..|exact Hns|exact Hg|]. eexists. split; [apply rtc_refl|done].
Qed.
(** * Settling a commit *)

(** The compactor's memory of failed reads. *)
Lemma safe_failures (ms : rstr → Prop) {B : Set} (f : Host → B * gmap rstr Z) (Q : option B → St → Prop) x :
  (∀ r y, log_kept x y → Q r y) →
  Safe (AMine ms) (stmt Local (λ _ h, ((f h).1, set_failures (f h).2 h))) Q x.
Proof.
  intros HQ. apply safe_stmt. intros [t h] Hr Hi now o Hle [Hal _]. destruct (Hal eq_refl) as [-> _]. simpl.
  assert (mono (t, h) (now, set_failures (f h).2 h)) as Hm.
  { split; try done. intros p j Hp Hl. left. eauto. }
  split_and!.
  - pose proof (inv_later _ _ _ _ Hle Hi) as []. by split.
  - by split.
  - apply HQ. eapply log_kept_trans; [exact (rely_log_kept g (AMine ms) _ _ I Hr)|]. by split.
Qed.

Lemma safe_charge (ms : rstr → Prop) n (Q : option Z → St → Prop) x :
  (∀ r y, log_kept x y → Q r y) → Safe (AMine ms) (charge_failure n) Q x.
Proof.
  exact (safe_failures ms (λ h, let a := saturating_add 32 (default 0 (failures h !! n)) 1 in (a, <[n := a]> (failures h))) Q x).
Qed.

Lemma safe_forget (ms : rstr → Prop) ns (Q : option unit → St → Prop) x :
  (∀ r y, log_kept x y → Q r y) → Safe (AMine ms) (forget_failures ns) Q x.
Proof. exact (safe_failures ms (λ h, (tt, foldr delete (failures h) ns)) Q x). Qed.

Lemma safe_set_aside_one ns acc n x :
  n ∈ ns → unlogged g ns x →
  Safe (AMine (λ n, n ∈ ns)) (set_aside_one note pid cfg acc (ProcessingDir, n)) (λ _ y, log_kept x y) x.
Proof.
  intros Hn Hu. destruct (Hu n Hn) as [Harr Hl]. apply safe_bind, safe_charge.
  intros [attempts|] y Hy; [|done]. case_match; [done|]. apply safe_bind, safe_io.
  eapply does_mono; [|apply does_quarantine_poison; [done..|by eapply log_kept_unlogged]]. intros [p|] z Hz.
  - apply safe_bind, safe_forget. intros [u|] w Hw; simpl;
      do 2 (eapply log_kept_trans; [eassumption|]); done.
  - simpl. by eapply log_kept_trans.
Qed.

Lemma filter_claims (P : path → Prop) `{!∀ p, Decision (P p)} ns : ∃ ks, filter P (claims ns) = claims ks ∧ ks ⊆ ns.
Proof.
  induction ns as [|n ns (ks & IH & Hsub)]; [by exists []|]. change (claims (n :: ns)) with ((ProcessingDir, n) :: claims ns).
  rewrite filter_cons, IH. case_decide; [exists (n :: ks)|exists ks]; (split; [done|set_solver]).
Qed.

Lemma safe_set_aside ns r x :
  unlogged g ns x → (∀ l, r = UnreadableSegments l → l ⊆ claims ns) →
  Safe (AMine (λ n, n ∈ ns)) (set_aside_unreadable note pid cfg (claims ns) r)
    (λ v y, ∀ kept, v = Some kept → log_kept x y ∧ ∃ ks, kept.1 = claims ks ∧ ks ⊆ ns) x.
Proof.
  intros Hu Hl. assert (log_kept x x) as Hx by apply log_kept_refl.
  destruct r as [|l| |]; try (by intros ? [= <-]; split; [|exists ns]). specialize (Hl l eq_refl).
  apply safe_bind. apply (safe_each _ _ _ _ _ _ (λ _ l y, log_kept x y ∧ l ⊆ claims ns)).
  - intros acc p l' y [Hy Hsub]. assert (p ∈ claims ns) as (n & -> & Hn)%list_elem_of_fmap by set_solver.
    eapply safe_mono; [|apply safe_set_aside_one; [done|by eapply unlogged_kept]]. intros [v|] z Hz; [|done].
    split; [by eapply log_kept_trans|set_solver].
  - intros acc y [Hy _] kept [= <-]. split; [done|]. apply filter_claims.
  - done.
Qed.

Lemma safe_settle nss ns st l size r x :
  flight nss (inflight st) x → NoDup (ns ++ concat nss) → Post ns (Some (l, size, r)) x →
  Safe ACompactor (settle note pid cfg st l r)
    (λ v y, ∀ st', v = Some st' → flight nss (inflight st') y ∧ inflight st' = inflight st ∧ queue st' = queue st) x.
Proof.
  intros Hf Hnd Hp. eapply (safe_mono _ _ _ _ _ _ (λ v y, (∀ st', v = Some st' → inflight st' = inflight st ∧ queue st' = queue st)
    ∧ flight nss (inflight st) y)).
  { intros v y [H Hfy] st' ->. destruct (H st' eq_refl) as [-> ?]. done. }
  apply (safe_beside (λ n, n ∈ ns)); [done|..].
  { intros n Hn Hns. apply NoDup_app in Hnd as (_ & Hd & _). by apply (Hd n). }
  assert (l = claims ns) as -> by (destruct r; apply Hp).
  assert ((∃ k, r = CommitOk k) ∨ unlogged g ns x ∧ (∀ u, r = UnreadableSegments u → u ⊆ claims ns) ∧ ∀ k, r ≠ CommitOk k)
    as [[k ->]|(Hu & Hsub & Hok)].
  { destruct r; [left; eauto|right..]; (split_and!; [apply Hp| |done]); intros u [= <-]; by apply Hp. }
  - apply safe_bind, safe_io. eapply does_mono; [|apply does_finish_all; apply Hp]. intros [] y Hy.
    apply safe_bind, safe_forget. intros [[]|] z Hz; [|done].
    simpl. by intros st' [= <-].
  - assert (∀ (q : list path * nat → Pass), Safe (AMine (λ n, n ∈ ns))
      (let* kept := set_aside_unreadable note pid cfg (claims ns) r in
       let* _ := io (release_segments kept.1) in Eff.Ret (q kept))
      (λ v y, ∀ st', v = Some st' → ∃ kept, st' = q kept) x) as Hrest.
    { intros q. apply safe_bind. eapply safe_mono; [|by apply safe_set_aside]. intros [kept|] y Hk; [|done].
      destruct (Hk kept eq_refl) as (Hy & ks & Hks & Hsub'). rewrite Hks. apply safe_bind, safe_io.
      eapply does_mono; [|apply (does_mine_mono g (λ n, n ∈ ks)); [set_solver|apply does_release_all]].
      - intros [] z _. intros st' [= <-]. eauto.
      - intros n Hn. apply (unlogged_kept g ns x y Hy Hu). by apply Hsub'. }
    destruct r as [k|u| |]; [by destruct (Hok k)|..].
    all: eapply safe_mono; [|apply Hrest]; intros v y Hv st' E; by destruct (Hv st' E) as [? ->].
Qed.
(** * Topping up *)

Abbreviation nothing := (λ _ : rstr, False).
Abbreviation everything := (λ _ : rstr, True).

(** Parts that only look around. *)
Lemma safe_asked {B : Set} {A} (f : Z → Host → B) (k : B → Eff Host A) Q x :
  (∀ v y, Safe (AMine nothing) (k v) Q y) → Safe (AMine nothing) (bind (query Local f) k) Q x.
Proof. intros Hk. apply safe_bind, safe_read. intros y now _ _ _. split; [apply Hk|done]. Qed.

Lemma safe_stats paths x : Safe (AMine nothing) (fs_pending_stats paths) (λ _ _, True) x.
Proof.
  apply (safe_each _ _ _ _ _ _ (λ _ _ _, True)); [|done..]. intros acc p l y _. apply safe_asked. intros [[n modified]|] z; [|done].
  by apply safe_asked.
Qed.

Lemma safe_deferred paths x : Safe (AMine nothing) (deferred cfg paths) (λ _ _, True) x.
Proof.
  unfold deferred. destruct (fs_commit_batch cfg); [|done]. apply safe_bind. eapply safe_mono; [|apply safe_stats]. by intros [|].
Qed.

Lemma safe_select queue selected total x :
  Safe (AMine nothing) (select_sealed_for_cycle cfg queue selected total)
    (λ r _, ∀ l, r = Some l → ∃ q1 q2, queue = q1 ++ q2 ∧ l = selected ++ q1) x.
Proof.
  revert selected total x. induction queue as [|p queue IH]; intros selected total x.
  { intros l [= <-]. exists [], []. by rewrite !app_nil_r. }
  cbn [select_sealed_for_cycle]. apply safe_bind, safe_asked. intros [m|] y; [|done]. simpl. case_match.
  - intros l [= <-]. exists [], (p :: queue). by rewrite app_nil_r.
  - eapply safe_mono; [|apply IH]. intros r z Hr l ->. destruct (Hr l eq_refl) as (q1 & q2 & -> & ->).
    exists (p :: q1), q2. by rewrite <- app_assoc.
Qed.

Lemma safe_selected_bytes selected x : Safe (AMine nothing) (selected_bytes selected) (λ _ _, True) x.
Proof.
  apply (safe_each _ _ _ _ _ _ (λ _ _ _, True)); [|done..]. intros acc p l y _. apply safe_bind, safe_asked. by intros [m|] z.
Qed.

Lemma safe_beside_nothing nss tasks {A} (p : Eff Host A) Q x :
  flight nss tasks x → Safe (AMine nothing) p Q x → Safe ACompactor p (λ r y, Q r y ∧ flight nss tasks y) x.
Proof. intros Hf Hs. apply (safe_beside nothing); [done|by intros n _ []|done]. Qed.

(** What the queue may hold while [nss] are in flight. *)
Definition queued (nss : list (list rstr)) (q : list path) : Prop :=
  ∃ ks, q = sealed_paths ks ∧ NoDup ks ∧ Forall (λ k, is_arrow k = true) ks ∧ ∀ n, n ∈ ks → n ∉ concat nss.

Lemma queued_sublist nss ks ks' :
  ks' `sublist_of` ks → NoDup ks → Forall (λ k, is_arrow k = true) ks → (∀ n, n ∈ ks → n ∉ concat nss) → queued nss (sealed_paths ks').
Proof.
  intros Hsub Hnd Harr Hd. assert (∀ n, n ∈ ks' → n ∈ ks) as Hin by (intros n Hn; by eapply elem_of_sublist).
  exists ks'. split_and!; [done|by eapply sublist_NoDup| |by auto].
  rewrite Forall_forall in *. auto.
Qed.

Lemma safe_listed nss tasks x :
  flight nss tasks x →
  Safe ACompactor (must (io list_sealed)) (λ r y, (∀ l, r = Some l → queued nss l) ∧ flight nss tasks y) x.
Proof.
  intros Hf. apply safe_beside_nothing; [done|]. apply safe_must, safe_io.
  eapply does_mono; [|by apply (does_list_segments g _ SealedDir)]. intros r y [_ Hr] l E. simpl in E. subst r.
  destruct (Hr l eq_refl) as (ms & z & -> & Hnd & Hz & Hi & Hms). exists ms. split_and!; [done..| |].
  - apply Forall_forall. intros m Hm. by apply Hms.
  - intros n Hn Hfl. destruct (Hms n Hn) as [Harr Hat]. pose proof (flight_rely (AMine nothing) nss tasks x z I Hz Hf) as Hfz.
    destruct (flight_at _ _ _ Hfz n Hfl) as [_ Hp]. by pose proof (inv_place _ _ Hi n SealedDir ProcessingDir Harr I I Hat Hp).
Qed.

Lemma safe_list_owned nss tasks x :
  flight nss tasks x →
  Safe ACompactor (list_owned to_string owner) (λ r y, ∀ l, r = Some l → queued nss l ∧ flight nss tasks y) x.
Proof.
  intros Hf. apply safe_bind. eapply safe_mono; [|by apply safe_listed]. intros [l|] y [Hl Hfy]; [|done].
  specialize (Hl l eq_refl). destruct Hl as (ks & -> & Hnd & Harr & Hd). unfold retain_owned_sealed. destruct owner as [uuid|] eqn:Eo.
  - eapply safe_mono; [|apply (safe_beside (λ n, n ∈ ks)); [exact Hfy|set_solver|by apply does_refuse_stale]].
    intros r z [(v & -> & _ & ks' & -> & Hsub) Hfz] l [= <-]. split; [by eapply queued_sublist|done].
  - intros l [= <-]. split; [by exists ks|done].
Qed.

Lemma retain_unspent_sublist attempts ks :
  ∃ ks', (retain_unspent attempts (sealed_paths ks)).1 = sealed_paths ks' ∧ ks' `sublist_of` ks.
Proof.
  revert attempts. induction ks as [|k ks IH]; intros attempts; [by exists []|]. cbn [sealed_paths fmap list_fmap retain_unspent].
  destruct (withhold_spent_segment attempts (SealedDir, k)) as [[] a]; destruct (IH a) as (ks' & E & Hsub);
    unfold sealed_paths in E; destruct (retain_unspent a _) as [kept a']; simpl in *; subst kept.
  - exists ks'. split; [done|by apply sublist_cons].
  - exists (k :: ks'). split; [done|by apply sublist_skip].
Qed.

(** The pass keeps the claims in flight and the queue apart. *)
Definition pass_ok (st : Pass) (x : St) : Prop := ∃ nss, flight nss (inflight st) x ∧ queued nss (queue st).

Definition both (r : Pass + Pass) : Pass := match r with inl st | inr st => st end.

Lemma safe_refill st x :
  pass_ok st x → Safe ACompactor (refill to_string cfg owner st) (λ r y, ∀ v, r = Some v → pass_ok (both v) y) x.
Proof.
  intros (nss & Hf & Hq). unfold refill. destruct (queue st) as [|p q] eqn:Eq; last first.
  { intros v [= <-]. exists nss. simpl. by rewrite Eq. }
  apply safe_bind. eapply safe_mono; [|by apply safe_list_owned]. intros [l|] y Hl; [|done].
  destruct (Hl l eq_refl) as [(ks & -> & Hnd & Harr & Hd) Hfy]. destruct (retain_unspent_sublist (pass_attempts st) ks) as (ks' & E & Hsub).
  destruct (retain_unspent (pass_attempts st) (sealed_paths ks)) as [fresh attempts]. simpl in E. subst fresh.
  assert (∀ a, pass_ok (mkPass [] a (inflight st) (inflight_bytes st) (committed_segments st) (first_err st) (stop_top_up st)) y) as Hnil.
  { intros a. exists nss. split; [done|]. exists []. split_and!; [done|constructor|constructor|]. by intros n ?%elem_of_nil. }
  case_bool_decide; [intros v [= <-]; apply Hnil|]. apply safe_bind.
  eapply safe_mono; [|apply safe_beside_nothing; [exact Hfy|apply safe_deferred]]. intros [[]|] z [_ Hfz]; [..|done].
  - intros v [= <-]. exists nss. split; [done|]. exists []. split_and!; [done|constructor|constructor|]. by intros n ?%elem_of_nil.
  - intros v [= <-]. exists nss. split; [done|]. by eapply queued_sublist.
Qed.
(** The batch that was claimed is in flight with the others. *)
Lemma flight_snoc nss tasks ks size x :
  flight nss tasks x → NoDup ks → (∀ n, n ∈ ks → n ∉ concat nss) → claimed_ok g ks x →
  flight (nss ++ [ks]) (tasks ++ [commit_task (batch := batch) g owner (claims ks) size]) x.
Proof.
  intros [Ht Hnd Hat] Hks Hd Hc. split.
  - apply Forall2_app; [done|]. constructor; [|constructor]. exists x. split; [apply rtc_refl|by apply safe_commit_task].
  - rewrite concat_app. simpl. rewrite app_nil_r. apply NoDup_app. split_and!; [done| |done]. intros n Hn Hk. by apply (Hd n).
  - intros n. rewrite concat_app. simpl. rewrite app_nil_r. intros [?|Hn]%elem_of_app; [by auto|]. destruct Hc as [Hu Hp].
    destruct (Hu n Hn). auto.
Qed.

Lemma safe_take_batch st x :
  pass_ok st x → Safe ACompactor (take_batch (batch := batch) cfg g owner st) (λ r y, ∀ v, r = Some v → pass_ok (both v) y) x.
Proof.
  intros (nss & Hf & Hq). unfold take_batch. apply safe_bind.
  eapply safe_mono; [|apply safe_beside_nothing; [exact Hf|apply safe_select]]. intros [sel|] y [Hsel Hfy]; [|done].
  destruct (Hsel sel eq_refl) as (q1 & q2 & Eq & Esel). simpl in Esel. subst q1.
  case_bool_decide; [intros v [= <-]; by exists nss|]. apply safe_bind.
  eapply safe_mono; [|apply safe_beside_nothing; [exact Hfy|apply safe_selected_bytes]]. intros [size|] z [_ Hfz]; [|done].
  case_match; [intros v [= <-]; by exists nss|]. cbv zeta. rewrite Eq, drop_app_length.
  destruct Hq as (ks & Ek & Hnd & Harr & Hd). rewrite Eq in Ek. unfold sealed_paths in Ek. symmetry in Ek.
  apply fmap_app_inv in Ek as (k1 & k2 & -> & -> & ->). apply NoDup_app in Hnd as (Hnd1 & H12 & Hnd2).
  apply Forall_app in Harr as [Harr1 Harr2].
  assert (queued nss (sealed_paths k2)) as Hq2 by (exists k2; split_and!; [done..|]; set_solver).
  assert (Safe ACompactor (io (claim_batch (sealed_paths k1) []))
    (λ r w, (∀ l, r = Some (Some l) → l = claims k1 ∧ claimed_ok g k1 w) ∧ flight nss (inflight st) w) z) as Hclaim.
  { apply (safe_beside (λ n, n ∈ k1)); [exact Hfz|set_solver|]. apply safe_io.
    eapply does_mono; [|apply (does_claim_batch g k1 [] z); [done..|by split; intros n ?%elem_of_nil]].
    intros r w [_ Hr] l [= ->]. by apply Hr. }
  apply safe_bind. eapply safe_mono; [|exact Hclaim]. intros [[l|]|] w [Hl Hfw]; [| |done].
  - destruct (Hl l eq_refl) as [-> Hc]. intros v [= <-]. exists (nss ++ [k1]). split; [apply flight_snoc; [done..|set_solver|done]|].
    exists k2. split_and!; [done..|]. intros n Hn. rewrite concat_app. simpl. rewrite app_nil_r, elem_of_app. set_solver.
  - intros v [= <-]. by exists nss.
Qed.

Lemma pass_still st t h now : Inv (t, h) → t ≤ now → pass_ok st (t, h) → pass_ok st (now, h).
Proof. intros Hi Hle (nss & Hf & Hq). exists nss. split; [by eapply flight_still|done]. Qed.

Lemma pass_rely st x y : Rely ACompactor x y → pass_ok st x → pass_ok st y.
Proof. intros Hr (nss & Hf & Hq). exists nss. split; [by apply (flight_rely ACompactor nss _ x y)|done]. Qed.

Lemma safe_top_up slots deadline st x :
  pass_ok st x →
  Safe ACompactor (top_up (batch := batch) to_string cfg g owner slots deadline st) (λ r y, ∀ st', r = Some st' → pass_ok st' y) x.
Proof.
  revert st x. induction slots as [|slots IH]; intros st x Hst; [by intros ? [= <-]|]. cbn [top_up].
  case_match; [by intros ? [= <-]|]. apply safe_bind, safe_read. intros [t h] now Hr Hi Hle. split; [|done].
  assert (pass_ok st (now, h)) as Hnow by (eapply pass_still; [done|done|by eapply pass_rely]). cbn [fst snd].
  case_match; [by intros ? [= <-]|]. apply safe_bind. eapply safe_mono; [|by apply safe_refill]. intros [[st1|st1]|] y Hy; [..|done].
  { intros ? [= <-]. by apply (Hy (inl st1)). }
  apply safe_bind. eapply safe_mono; [|apply safe_take_batch; by apply (Hy (inr st1))]. intros [[st2|st2]|] z Hz; [..|done].
  { intros ? [= <-]. by apply (Hz (inl st2)). }
  apply IH. by apply (Hz (inr st2)).
Qed.

Lemma safe_dispatch schedules deadline st x :
  pass_ok st x →
  Safe ACompactor (dispatch (batch := batch) to_string note pid cfg g owner schedules deadline st) (λ _ _, True) x.
Proof.
  revert st x. induction schedules as [|schedule schedules IH]; intros st x Hst; [done|]. cbn [dispatch].
  apply safe_bind. eapply safe_mono; [|by apply safe_top_up]. intros [st1|] y Hy; [|done].
  destruct (Hy st1 eq_refl) as (nss & Hf & Hq). clear Hy. case_bool_decide; [done|].
  apply safe_bind. eapply safe_mono; [|by apply (safe_next schedule nss)]. intros [[[[[l size] res] rest]|]|] z Hz; [|done..].
  destruct Hz as (ns & nss' & Hp & Hfz & Hnd & Hperm). cbv zeta. apply safe_bind.
  eapply safe_mono; [|apply (safe_settle nss' ns _ l size res); [exact Hfz|done..]].
  intros [st2|] w Hw; [|done]. apply IH. destruct (Hw st2 eq_refl) as (Hfw & _ & Eq). exists nss'. split; [done|].
  rewrite Eq. destruct Hq as (ks & ? & ? & ? & Hd). exists ks. split_and!; [done..|]. intros n Hn Hc. apply (Hd n Hn).
  rewrite Hperm. apply elem_of_app. by right.
Qed.
(** * The cycle and the process *)

Lemma safe_sweep x : Safe ACompactor (sweep_retention_at cfg) (λ _ _, True) x.
Proof.
  apply (safe_main everything). apply safe_bind, safe_read. intros y now _ _ _. split; [|done].
  apply safe_bind, safe_read. intros z now' _ _ _. split; [|done]. apply safe_bind, safe_io.
  eapply does_mono; [|apply does_sweep]. by intros [v|] w _.
Qed.

Lemma safe_then_sweep {A} (v : Eff Host A) x :
  (∀ y, Safe ACompactor v (λ _ _, True) y) → Safe ACompactor (let* _ := sweep_retention_at cfg in v) (λ _ _, True) x.
Proof. intros Hv. apply safe_bind. eapply safe_mono; [|apply safe_sweep]. by intros [[]|] y _. Qed.

Lemma safe_run_once schedules x :
  Safe ACompactor (run_once_at (batch := batch) to_string note pid cfg g owner schedules) (λ _ _, True) x.
Proof.
  apply safe_bind, safe_read. intros y now _ _ _. split; [|done]. apply safe_bind, safe_catch.
  eapply safe_mono; [|apply (safe_main everything), safe_dispose]. intros r z _.
  apply safe_bind. eapply safe_mono; [|apply safe_list_owned, flight_nil]. intros [l|] w Hl; [|done].
  destruct (Hl l eq_refl) as [Hq _]. case_bool_decide; [by apply safe_then_sweep|].
  apply safe_bind. eapply safe_mono; [|apply (safe_main nothing), safe_deferred]. intros [[]|] u _; [by apply safe_then_sweep| |done].
  apply safe_bind. eapply safe_mono; [|apply safe_dispatch; exists []; split; [apply flight_nil|exact Hq]].
  intros [[st|]|] v _; [|done..]. apply safe_then_sweep. intros t. by case_match.
Qed.

(** Without the watchdog. *)
Lemma safe_run_loop cycles x :
  Forall (λ c, c.2 = None) cycles →
  Safe ACompactor (run_loop (batch := batch) to_string note pid cfg g owner cycles) (λ _ _, True) x.
Proof.
  intros Hc. revert x. induction Hc as [|[schedules trip] cycles Ht _ IH]; intros x; [done|]. simpl in Ht. subst trip. cbn [run_loop].
  apply safe_bind, safe_bind, safe_catch. eapply safe_mono; [|apply safe_run_once]. by intros [[k|]|] y _; [apply IH| |apply IH].
Qed.

Lemma safe_start x : Safe ACompactor (start g) (λ r y, r = Some tt ∧ no_new g y) x.
Proof.
  apply safe_stmt. intros [t h] _ Hi now o Hle [Hal _]. destruct (Hal eq_refl) as [-> _]. pose proof (inv_later _ _ _ _ Hle Hi) as [].
  assert (take (length (log (sys h))) (log (sys h)) = log (sys h)) as Eall by (by apply take_ge).
  split_and!; simpl.
  - split; simpl; try done.
    + intros n D Hn HD Hat. destruct (inv_where n D Hn HD Hat) as [|[|[]]]; auto. right. right. split; [done|].
      unfold old. simpl. by rewrite Eall.
    + intros n t' (k & since & Hk & Hl) Hold. simpl in *. rewrite Nat.sub_diag in Hk. replace k with 0%nat in Hl by lia.
      unfold old in Hold. simpl in Hold. rewrite Eall in Hold. unfold generations in *. simpl in *.
      destruct (tables (sys h) g) as [|[since' t''] older] eqn:Eg; simplify_eq/=. by eapply inv_head.
  - split; [|done]. split; try done. intros p j Hp Hl. left. eauto.
  - done.
  - intros n Hn. unfold old, logged in *. simpl in *. by rewrite Eall.
Qed.

Lemma safe_compactor cycles x :
  Forall (λ c, c.2 = None) cycles →
  Safe ACompactor (compactor (batch := batch) to_string note pid cfg g owner cycles) (λ _ _, True) x.
Proof.
  intros Hc. apply safe_bind. eapply safe_mono; [|apply safe_start]. intros [[]|] y [? Hnew]; [|done].
  apply safe_bind, safe_bind. eapply safe_mono; [|apply (safe_main everything); by apply does_recover].
  intros r z (v & -> & _). by apply safe_run_loop.
Qed.
End Loop.
