(* ===== verification/FsOther.v ===== *)
(** What runs beside the compactor: WAL writers, programs that concern no
    segment, the operator's requeue of poisoned segments, snapshot expiry and
    table maintenance. *)

From stdpp Require Import prelude gmap strings sorting relations.
From Stdlib Require Import ZArith Lia.
From S2P Require Import Prelude RustStr BTree WalFrame ConsumedProof Eff RelyGuarantee Catalog DrainCycle.
From S2P Require Import WalDisk WalLifecycle WalConsumer WalRetention FsDrain FsInv FsSafe FsTask.

(** A writer publishes a segment: its file appears in [sealed/] under a name that
    was not used before, at most the skew margin ahead of the clock. *)
Definition seal_segment (n : rstr) (body : bytes) : Eff Host unit :=
  stmt Local (λ now h,
    let i := fresh (dom (inodes (disk h))) in
    if bool_decide (sealed h !! n = None ∧ mtime h n < now + HISTORY_SKEW_MARGIN_MS)
    then (tt, mkHost (sys h) (change (Link (SealedDir, n) i) (set_inode i (mkInode body (length body)) (disk h)))
                (<[n := body]> (sealed h)) (mtime h) (loaded h) (booted h) (failures h) (answers h))
    else (tt, h)).

(** A commit that appends no segment: a rewrite of data files, a delete. *)
Definition maintain (g : Target) : Eff Host unit :=
  stmt Append (λ now h,
    match live_table g (sys h) with
    | Some t => (tt, set_sys (set_table g now (mkTable (table_uuid t) (proof_property t)
                                                 (mkSnapshot now None :: snapshots t)) [] (sys h)) h)
    | None => (tt, h)
    end).

Section Others.
Context {batch : Type} `{!ArrowIpc batch} (g : Target).

Abbreviation St := (Z * Host)%type (only parsing).
Abbreviation Inv := (inv (batch := batch) g).
Abbreviation Rely := (rely Inv compat (guar g)).
Abbreviation Safe := (safe Inv allowed compat (guar g)).
Abbreviation Does := (does (batch := batch) g).

Section Seal.
Context (clock now : Z) (h : Host) (n : rstr) (i : N) (body : bytes).
Context (Hi : Inv (clock, h)) (Hle : clock ≤ now) (Hn : is_arrow n = true) (Hcomma : 0x2C ∉ n).
Context (Hfree : inodes (disk h) !! i = None).
Context (Hnew : sealed h !! n = None) (Hmt : mtime h n < now + HISTORY_SKEW_MARGIN_MS).

Definition sealed_host : Host :=
  mkHost (sys h) (change (Link (SealedDir, n) i) (set_inode i (mkInode body (length body)) (disk h)))
    (<[n := body]> (sealed h)) (mtime h) (loaded h) (booted h) (failures h) (answers h).

Lemma seal_absent D : drain_dir D → live (disk h) !! (D, n) = None.
Proof using Hi Hn Hnew.
  intros HD. destruct (live (disk h) !! (D, n)) as [j|] eqn:E; [|done].
  destruct (inv_data _ _ Hi (D, n) j ltac:(by split) E) as (? & _ & Hb). simpl in Hb. congruence.
Qed.

Lemma seal_at D m : drain_dir D → at_dir sealed_host D m ↔ (D = SealedDir ∧ m = n) ∨ (m ≠ n ∧ at_dir h D m).
Proof using Hi Hn Hnew.
  intros HD. unfold at_dir. cbn. rewrite lookup_insert. destruct (decide (m = n)) as [->|Hne].
  - rewrite seal_absent by done. case_decide as E.
    + injection E as <-. split; eauto.
    + split; [by intros []|]. by intros [[-> _]|[[] _]].
  - rewrite decide_False by congruence. split; [by auto|]. by intros [[_ ->]|[_ ?]].
Qed.

Lemma seal_settled m : settled_segment (batch := batch) g h m → settled_segment (batch := batch) g sealed_host m.
Proof using Hnew.
  intros [?|(b & Hb & ?)]; [by left|right]. exists b. split; [|done]. cbn. rewrite lookup_insert_ne; [done|congruence].
Qed.

Lemma seal_sane : sane (disk sealed_host).
Proof using Hfree Hi Hn Hnew.
  pose proof (inv_sane _ _ Hi) as Hs. set (d := disk h) in *. set (d1 := change (Link (SealedDir, n) i) (set_inode i (mkInode [] 0) d)).
  assert (sane d1) as Hs1.
  { apply (exec_sane d (OpCreate (SealedDir, n)) (Some i)); [|done]. right. exists i. split; [done|]. left. split_and!; [|done..].
    by apply seal_absent. }
  pose proof (sane_inode i (mkInode body (length body)) d1 Hs1) as Hs2.
  replace (disk sealed_host) with (set_inode i (mkInode body (length body)) d1); [done|].
  unfold d1, sealed_host, set_inode, change. cbn. by rewrite insert_insert_eq.
Qed.

Lemma inv_seal : Inv (now, sealed_host).
Proof using All.
  pose proof seal_sane as Hsane. pose proof (inv_later _ _ _ _ Hle Hi) as []. split; try done; cbn [fst snd].
  - intros m D D' Hm HD HD'. rewrite !seal_at by done. intros [[-> ->]|[? ?]] [[-> ?]|[? ?]]; try done. by eapply inv_place.
  - intros [D m] j [HD Hm] Hj. cbn in *. rewrite lookup_insert in Hj. case_decide as E.
    + injection Hj as <-. injection E as <- <-. rewrite !lookup_insert_eq. by eexists.
    + destruct (inv_data (D, m) j ltac:(by split) Hj) as (nd' & Hnd' & Hb). cbn in *. exists nd'.
      rewrite !lookup_insert_ne; [done|congruence..].
  - intros m b. cbn. rewrite lookup_insert. case_decide as E; [|apply inv_names]. by intros _; subst m.
  - intros m b. cbn. rewrite lookup_insert. case_decide as E.
    + subst m. intros _. left. exists SealedDir. split; [done|]. apply seal_at; [done|]. by left.
    + intros Hm. destruct (inv_kept m b Hm) as [(D & HD & Hat)|Hset].
      * left. exists D. split; [done|]. apply seal_at; [done|]. right. by split.
      * right. by apply seal_settled.
  - intros m Hm. cbn. rewrite lookup_insert_is_Some'. right. by apply inv_sealed.
  - intros m D Hm HD [[-> ->]|[_ Hat]]%seal_at; [|by apply inv_where|done].
    destruct (inv_sealed n Hm) as [b Hb]. cbn in Hb. congruence.
  - intros m Hm [[? _]|[_ Hat]]%seal_at; [done| |done]. by apply seal_settled, inv_committed.
Qed.

Lemma guar_seal : guar g AOther (clock, h) (now, sealed_host).
Proof using All.
  split; [split|]; try done.
  - cbn. by apply insert_subseteq.
  - intros j Hj. cbn. rewrite lookup_insert_is_Some'. by right.
  - intros p j Hp Hj. cbn in Hj. rewrite lookup_insert in Hj. case_decide; [|by eauto]. injection Hj as <-. by right.
  - split_and!; try done. intros m D Hm HD _ Hat. split; [|done]. intros E HE. cbn. apply lookup_insert_ne. intros [= <- <-].
    unfold at_dir in Hat. cbn in Hat. by rewrite seal_absent in Hat by done; destruct Hat.
Qed.
End Seal.

(** * Safety *)

Lemma safe_seal n body x : is_arrow n = true → 0x2C ∉ n → Safe AOther (seal_segment n body) (λ _ _, True) x.
Proof.
  intros Hn Hc. apply safe_stmt. intros [t h] _ Hi now o Hle [Hal _]. destruct (Hal eq_refl) as [-> _]. cbn [Eff.perform fst snd].
  case_bool_decide as Hok; cbn [fst snd].
  - destruct Hok. assert (inodes (disk h) !! fresh (dom (inodes (disk h))) = None) by (apply not_elem_of_dom, is_fresh).
    split_and!; [|by apply (guar_seal t now h n)|done]. by apply (inv_seal t).
  - split_and!; [by eapply inv_later|apply guar_still|done].
Qed.

Lemma other_steady t h now d' :
  Inv (t, h) → t ≤ now → steady (disk h) d' → Inv (now, set_disk d' h) ∧ guar g AOther (t, h) (now, set_disk d' h).
Proof. intros Hi Hle Hs. destruct (inv_steady g t now h d' Hi Hle Hs) as [? Hg]. split; [done|by apply Hg]. Qed.

(** A program that concerns no segment. *)
Lemma does_hushed_other {A} (p : Prog A) x : hushed p → Does AOther p (λ _ _, True) x.
Proof.
  intros Hh. apply (does_steps g AOther p (λ p _, hushed p)); [done| |done].
  intros R op k y [Hq Hk] t h now r d' _ Hi Hlt [Hx|[-> Hx]]; [|by destruct op].
  destruct (other_steady t h now d') as [? ?]; [done|lia| |done]. eapply quiet_steady; [done..|]. apply (inv_sane _ _ Hi).
Qed.

Lemma does_other_skip {A B} (p : Prog A) (f : A → Prog B) x :
  hushed p → (∀ v y, Does AOther (f v) (λ _ _, True) y) → Does AOther (prog_bind p f) (λ _ _, True) x.
Proof. intros Hh Hf. apply does_bind. eapply does_mono; [|by apply does_hushed_other]. auto. Qed.

Lemma hushed_or_arrow D n : ¬ segp (D, n) ∨ is_arrow n = true.
Proof. destruct (is_arrow n) eqn:E; [by right|left]. by apply not_segp. Qed.

(** [requeue_poisoned_segment] by the operator. *)
Lemma does_requeue n x : Does AOther (requeue_poisoned_segment (PoisonDir, n)) (λ _ _, True) x.
Proof.
  assert (∀ v : option unit, hushed (match v with
    | Some _ => let! _ := move_sidecar (PoisonDir, n) (SealedDir, n) in
                let? _ := persist_move SealedDir PoisonDir in
                let! e := call (OpExists (poison_note_path (PoisonDir, n))) in
                if e : bool then
                  let? _ := call (OpRemove (poison_note_path (PoisonDir, n))) in
                  let? _ := call (OpSyncDir PoisonDir) in
                  WalDisk.Ret (Some (SealedDir, n))
                else WalDisk.Ret (Some (SealedDir, n))
    | None => WalDisk.Ret None
    end)) as Hrest.
  { intros [v|]; [|done]. apply calls_bind; [apply hushed_sidecar|]. intros _. apply calls_bind; [apply hushed_persist|].
    intros [|]; [|done]. split; [done|]. intros [|]; [|done]. split; [by apply not_segp, poison_names_not_arrow|].
    intros [|]; [|done]. split; [done|]. by intros [|]. }
  apply does_other_skip; [done|]. intros [|] y; [|by apply does_ret]. apply does_other_skip; [done|].
  intros [] z; [by apply does_ret|]. destruct (is_arrow n) eqn:Hn.
  - apply does_bind, does_call. intros t h now r d' _ Hi Hlt [Hx|[_ []]]. assert (t ≤ now) as Hle by lia.
    cut (Inv (now, set_disk d' h) ∧ guar g AOther (t, h) (now, set_disk d' h)); [intros [? ?]; split_and!; [done..|]; by apply does_hushed_other|].
    inv_exec Hx; [rewrite set_disk_id; split; [by eapply inv_later|apply guar_still]|].
    assert (at_dir h PoisonDir n) as Hat by (by eexists).
    destruct (inv_rename g t now h n PoisonDir SealedDir i) as [Hi' [Hm Hg]]; try done.
    { intros Hl. by destruct (inv_where _ _ Hi n PoisonDir Hl I Hat) as [?|[?|[? _]]]. }
    split; [done|]. split; [done|]. split_and!; try done. intros m D Hm' HD HP Hatm. apply Hg; [done|]. intros <-. apply HP.
    by apply (inv_place _ _ Hi n).
  - apply does_other_skip; [|intros v w; by apply does_hushed_other]. split; [|done]. by split; apply not_segp.
Qed.

(** ** The table *)

Lemma live_generation h t : live_table g (sys h) = Some t → ∃ since older, generations g h = (since, t) :: older.
Proof. unfold live_table, generations. destruct (tables (sys h) g) as [|[since u] older]; [done|]. intros [= ->]. eauto. Qed.

(** A new generation that appends nothing. *)
Lemma other_publish clock now h t t' :
  Inv (clock, h) → clock ≤ now → live_table g (sys h) = Some t →
  (table_ok clock (logged g h) (mtime h) t →
     table_ok now (λ n, logged g h n ∨ n ∈ []) (mtime h) t' ∧ ∀ n, logged g h n → shown h n t → shown h n t') →
  Inv (now, publish g now t' [] h) ∧ guar g AOther (clock, h) (now, publish g now t' [] h).
Proof.
  intros Hi Hle (since & older & Eg)%live_generation Hok.
  destruct Hok as [Hok Hsh]; [eapply (inv_tables _ _ Hi since t); cbn; rewrite Eg; by left|].
  split; [|by apply guar_publish_other]. apply (inv_publish g clock); try done; [by constructor|..].
  - by intros n ?%elem_of_nil.
  - intros n [Hn|[]%elem_of_nil]. apply Hsh; [done|]. by eapply (inv_head _ _ Hi since t older n Eg).
Qed.

Lemma safe_maintain x : Safe AOther (maintain g) (λ _ _, True) x.
Proof.
  apply safe_stmt. intros [t h] _ Hi now o Hle [_ Hal].
  assert (Inv (now, h) ∧ guar g AOther (t, h) (now, h)) as [??] by (split; [by eapply inv_later|apply guar_still]).
  destruct o; [|by destruct (Hal eq_refl)|by split_and!]. cbn [Eff.perform fst snd].
  destruct (live_table g (sys h)) as [u|] eqn:Eu; [|by split_and!]. cbn [fst snd]. set (u' := mkTable _ _ _).
  destruct (other_publish t now h u u') as [? ?]; try done. intros Hu. split.
  - apply (table_ok_snapshot g t now h u u' [] (mkSnapshot now None)); try done. by intros n ?%elem_of_nil.
  - intros n Hn Hs. by apply (shown_snapshot g t now h u u' (mkSnapshot now None) n).
Qed.

Lemma retain_branch_head k cutoff l : 0 < k → retain_branch k cutoff 0 l = [] → l = [].
Proof. intros Hk. destruct l as [|sn l]; [done|]. simpl. by rewrite (proj2 (Z.ltb_lt 0 k)) by done. Qed.

Lemma safe_other_query l {B : Set} (f : Z → Sys → B) (Q : option B → St → Prop) x :
  (∀ r y, Q r y) → Safe AOther (on_sys (query l f)) Q x.
Proof.
  intros HQ [t h] _ Hi now o Hle _. destruct o; simpl; rewrite ?set_sys_id; (split_and!; [by eapply inv_later|apply guar_still|done]).
Qed.

Lemma safe_expiry retain_last older_than x :
  Safe AOther (on_sys (expire_snapshots_inner g retain_last older_than)) (λ _ _, True) x.
Proof.
  unfold expire_snapshots_inner. cbv zeta. apply safe_on_sys_bind, safe_bind, safe_other_query. intros [[u0|]|] y; [|done..].
  case_match; [done|]. apply safe_on_sys_bind, safe_bind. clear.
  intros [t h] _ Hi now o Hle [_ Hal]. assert (Inv (now, h) ∧ guar g AOther (t, h) (now, h)) as [??]
    by (split; [by eapply inv_later|apply guar_still]).
  destruct o; [|by destruct (Hal eq_refl)|by split_and!]. cbn. destruct (live_table g (sys h)) as [u|] eqn:Eu; cbn.
  2: { rewrite set_sys_id. by split_and!. }
  set (k := Z.max retain_last 1) in *. set (cutoff := default i64_max older_than) in *. case_match; [rewrite set_sys_id; by split_and!|].
  set (u' := mkTable _ _ _). destruct (other_publish t now h u u') as [? ?]; try done. intros Hok.
  destruct (retain_branch_prefix k cutoff 0 (snapshots u)) as [l El]; [by apply Hok|]. change (snapshots u = snapshots u' ++ l) in El. split.
  - destruct (table_ok_prefix t now (logged g h) (mtime h) u u' l Hle El Hok) as [? ? Hn]. split; try done. intros sn n Hsn Hc.
    destruct (Hn sn n Hsn Hc). auto.
  - intros n _. eapply shown_prefix; [exact Hok|exact El|]. intros E. apply retain_branch_head in E; [|lia]. rewrite E in El. symmetry in El.
    by apply app_nil in El as [_ ?].
Qed.
End Others.
