(* ===== verification/FsSystem.v ===== *)
(** The file-system drain among the processes beside it: every sealed segment
    reaches the table once, and no segment is lost. *)

From stdpp Require Import prelude gmap strings sorting relations.
From Stdlib Require Import ZArith Lia.
From S2P Require Import Prelude RustStr BTree Crc32 WalFrame ConsumedProof Eff RelyGuarantee Catalog DrainCycle.
From S2P Require Import DrainSystem.
From S2P Require Import WalDisk WalLifecycle WalConsumer WalRetention FsDrain FsInv FsSafe FsPass FsTask FsLoop FsOther.

Section System.
Context {PJ : ProofJson} {batch : Type} `{!ArrowIpc batch} (g : Target).

(** What a process of the system runs.  A compactor whose watchdog does not
    trip; a new one after another died. *)
Inductive job : Actor → Eff Host unit → Prop :=
| JCompactor to_string note pid cfg owner cycles :
    Forall (λ c, c.2 = None) cycles →
    job ACompactor (compactor (batch := batch) to_string note pid cfg g owner cycles)
| JSeal n body : is_arrow n = true → 0x2C ∉ n → job AOther (seal_segment n body)
| JRequeue n : job AOther (ignore (io (requeue_poisoned_segment (PoisonDir, n))))
| JBeside A (p : Prog A) : hushed p → job AOther (ignore (io p))
| JExpire retain_last older_than : job AOther (ignore (on_sys (expire_snapshots_inner g retain_last older_than)))
| JMaintain : job AOther (maintain g).

Definition fs_step : Config → Config → Prop := pstep allowed compat job.

(** No segment is sealed, and the table names none. *)
Record fresh (clock : Z) (h : Host) : Prop := {
  fresh_sane : sane (disk h);
  fresh_sealed : sealed h = ∅;
  fresh_files p : segp p → live (disk h) !! p = None;
  fresh_log : log (sys h) = [];
  fresh_booted : booted h = 0%nat;
  fresh_tables t : t ∈ tables (sys h) g →
    StronglySorted (λ a b, timestamp_ms b ≤ timestamp_ms a) (snapshots t.2) ∧
    Forall (λ sn, timestamp_ms sn ≤ clock ∧ consumed_by sn = []) (snapshots t.2);
}.

Lemma fs_fresh_inv clock h : fresh clock h → inv (batch := batch) g (clock, h).
Proof.
  intros [Hs Hse Hf Hl Hb Ht]. assert (∀ n D, is_arrow n = true → drain_dir D → ¬ at_dir h D n) as Hat.
  { intros n D Hn HD [i Hi]. by rewrite Hf in Hi. }
  assert (∀ n, ¬ logged g h n) as Hlog by (intros n; unfold logged; rewrite Hl; apply not_elem_of_nil).
  split; cbn [fst snd]; rewrite ?Hse, ?Hl, ?Hb; try done.
  - intros n D D' Hn HD _ Ha. by destruct (Hat n D Hn HD).
  - intros p i Hp Hi. by rewrite Hf in Hi.
  - by intros n ?%Hlog.
  - by intros n D ?%Hlog.
  - intros n Hn Ha. by destruct (Hat n CommittedDir Hn I).
  - constructor.
  - by intros e ?%elem_of_nil.
  - intros since t Hin. destruct (Ht _ Hin) as [Hsort Hall]. rewrite Forall_forall in Hall. split; [done|..].
    + intros sn Hsn. by apply Hall.
    + intros sn n Hsn. destruct (Hall sn Hsn) as [_ ->]. by intros ?%elem_of_nil.
  - intros since t older n _ ?%Hlog. done.
  - intros n t _. unfold old. rewrite Hb. by intros ?%elem_of_nil.
Qed.

Lemma fs_job_safe a p x : job a p → inv (batch := batch) g x → safe (inv (batch := batch) g) allowed compat (guar g) a p (λ _ _, True) x.
Proof.
  assert (∀ a A (p : Eff Host A) x Q, safe (inv (batch := batch) g) allowed compat (guar g) a p Q x →
    safe (inv (batch := batch) g) allowed compat (guar g) a (ignore p) (λ _ _, True) x) as Hig.
  { intros b A q y Q Hq. apply safe_bind. eapply safe_mono; [|exact Hq]. by intros [?|]. }
  intros [] _.
  - by apply safe_compactor.
  - by apply safe_seal.
  - eapply Hig, does_requeue.
  - by eapply Hig, does_hushed_other.
  - eapply Hig, safe_expiry.
  - apply safe_maintain.
Qed.

Lemma fs_system_inv clock h c : fresh clock h → rtc fs_step (clock, [], h) c → inv (batch := batch) g (c.1.1, c.2).
Proof. intros Hf. apply pool_invariant with (G := guar g); [apply fs_job_safe|by apply fs_fresh_inv]. Qed.
End System.

(** C5. Exactly once on a file system, under what the deployment has to ensure: one
    compactor at a time on the directory, whose watchdog does not trip; segments
    that appear in [sealed/] whole, by one statement each, under names used once
    and with file times at most five seconds ahead (so no writer promotes the
    leftover partial of a published segment); Iceberg commits whose answers
    arrive.  Within that, a compactor with any number of commits in flight runs
    among the writers, the operator's requeue of poisoned segments, snapshot
    expiry, commits of table maintenance and programs that touch no segment;
    statements interleave, any file-system call may fail, commits are refused or
    conflict, reads of the table see a stale entry or fail, and the compactor dies
    at any point and is started again.  Then no segment's rows are appended twice;
    what is appended is a sealed segment; a segment that is not in the table, and
    has rows, is in exactly one of the directories of the drain with the contents
    it was sealed with; and a segment in [committed/] is in the table, or has no
    rows.  [watchdog_duplicates] and [recovery_republishes] are runs outside these
    conditions. *)
Theorem fs_drain_exactly_once {PJ : ProofJson} {batch : Type} `{!ArrowIpc batch} g clock h clock' pool h' :
  fresh g clock h → rtc (fs_step (batch := batch) g) (clock, [], h) (clock', pool, h') →
  NoDup (log (sys h')) ∧
  (∀ e, e ∈ log (sys h') → e.1 = g ∧ is_Some (sealed h' !! e.2)) ∧
  (∀ n body, sealed h' !! n = Some body →
     (g, n) ∈ log (sys h') ∨ no_rows (batch := batch) body ∨
     ∃ D i nd, drain_dir D ∧ live (disk h') !! (D, n) = Some i ∧ inodes (disk h') !! i = Some nd ∧ data nd = body ∧
       ∀ D', drain_dir D' → is_Some (live (disk h') !! (D', n)) → D' = D) ∧
  (∀ n, is_arrow n = true → is_Some (live (disk h') !! (CommittedDir, n)) →
     (g, n) ∈ log (sys h') ∨ ∃ body, sealed h' !! n = Some body ∧ no_rows (batch := batch) body).
Proof.
  intros Hf Hrun. pose proof (fs_system_inv g clock h _ Hf Hrun) as Hi. split_and!.
  - apply (inv_once _ _ Hi).
  - intros [g' n] He. pose proof (inv_target _ _ Hi _ He) as E. simpl in E. subst g'. split; [done|]. by apply (inv_sealed _ _ Hi n).
  - intros n body Hn. destruct (inv_names _ _ Hi n body Hn) as (Harr & _).
    destruct (inv_kept _ _ Hi n body Hn) as [(D & HD & i & Hl)|[?|(b & Hb & ?)]]; [|by left|right; left; simpl in *; congruence].
    right. right. destruct (inv_data _ _ Hi (D, n) i) as (nd & Hnd & Hb); [done..|]. exists D, i, nd. simpl in *.
    split_and!; [done..|congruence|]. intros D' HD' Hat. by apply (inv_place _ _ Hi n); [..|eexists].
  - intros n Hn Hat. by apply (inv_committed _ _ Hi).
Qed.

(** * A run of the system *)

Definition allowedb (a : Actor) (prev now : Z) (l : Label) (o : Outcome) : bool :=
  match l, o with Local, Done => prev <? now | Local, _ => false | Append, Lost => false | _, _ => true end.

Lemma fs_allowedb_ok a prev now l o : allowedb a prev now l o = true → allowed a prev now l o.
Proof. unfold allowedb, allowed. destruct l, o; try done; rewrite ?Z.ltb_lt; done. Qed.

#[local] Existing Instance ConsumedProof.sample_json.
#[local] Existing Instance sample_arrow.

Definition sample_target : Target := (DEFAULT_TENANT, []).

Definition sample_host : Host :=
  mkHost sample_sys (mkDisk ∅ ∅ ∅ []) ∅ (λ _, 10) 0 0 ∅ (λ _, mkAnswers true 0 (λ _, 0) (Some [])).

Lemma sample_host_fresh : fresh sample_target 5 sample_host.
Proof. split; try done. intros t ->%list_elem_of_singleton. split; constructor. Qed.

Definition sample_fs : FsConfig := mkFs 8 1000000 None 2 60000 1000000 3 (3600 * 1000).

Definition one_cycle : list (list (list nat) * option nat) := [([replicate 40 0%nat; replicate 40 0%nat], None)].

Definition compactor_job (cycles : list (list (list nat) * option nat)) : Eff Host unit :=
  compactor (batch := bool) (λ u, u) (λ _ _, []) (lit "7") sample_fs sample_target None cycles.

Definition seg1 : rstr := lit "a-1.arrow".

Definition host_sealed : Host := (Eff.run (ticks 10 1) (seal_segment seg1 sample_body) sample_host).2.

(** The compactor dies once its append is done; the next one finds the orphan. *)
Definition host_died : Host := (Eff.run (ticks 11 21) (compactor_job one_cycle) host_sealed).2.
Definition host_again : Host := (Eff.run (ticks 100 50) (compactor_job one_cycle) host_died).2.

Abbreviation idle := (@nil (Proc (Σ := Host) (Act := Actor))).

(** One process runs by itself and stops. *)
Lemma alone (jobs : Actor → Eff Host unit → Prop) a p h script clock clock' :
  jobs a p → legalb allowedb a clock script p h = true → run_time clock script p h = clock' →
  rtc (pstep allowed compat jobs) (clock, idle, h) (clock', idle, (Eff.run script p h).2).
Proof. intros Hj Hl <-. apply (run_reach allowed compat _ a); [done|]. by eapply legalb_ok; [apply fs_allowedb_ok|]. Qed.

Lemma sample_fs_run : rtc (fs_step (batch := bool) sample_target) (5, [], sample_host) (116, [], host_again).
Proof.
  assert (job (batch := bool) sample_target ACompactor (compactor_job one_cycle)) as Hjob by (apply JCompactor; by repeat constructor).
  transitivity (10, idle, host_sealed); [|transitivity (31, idle, host_died)].
  - unfold host_sealed. apply (alone _ AOther); [|by vm_compute..]. apply JSeal; [by vm_compute|by apply (bool_decide_eq_false_1 _)].
  - unfold host_died. apply (alone _ ACompactor); [done|by vm_compute..].
  - unfold host_again. apply (alone _ ACompactor); [done|by vm_compute..].
Qed.

Lemma fs_drain_exactly_once_witness :
  log (sys host_again) = [(sample_target, seg1)] ∧
  is_Some (live (disk host_died) !! (ProcessingDir, seg1)) ∧
  (∀ n body, sealed host_again !! n = Some body →
     (sample_target, n) ∈ log (sys host_again) ∨ no_rows (batch := bool) body ∨
     ∃ D i nd, drain_dir D ∧ live (disk host_again) !! (D, n) = Some i ∧ inodes (disk host_again) !! i = Some nd ∧ data nd = body ∧
       ∀ D', drain_dir D' → is_Some (live (disk host_again) !! (D', n)) → D' = D).
Proof.
  split; [by vm_compute|]. split; [by apply (bool_decide_eq_true_1 (is_Some _)); vm_compute|].
  destruct (fs_drain_exactly_once sample_target 5 sample_host 116 [] host_again sample_host_fresh sample_fs_run) as (_ & _ & H & _).
  exact H.
Defined.
