(* ===== verification/FsRaces.v ===== *)
(** Runs of the file-system drain in which an assumption of its main theorem
    fails: concrete executions that append a segment twice. *)

From stdpp Require Import prelude gmap strings sorting relations.
From Stdlib Require Import ZArith Lia.
From S2P Require Import Prelude RustStr BTree Crc32 WalFrame ConsumedProof Eff RelyGuarantee Catalog DrainCycle DrainSystem WalCrash.
From S2P Require Import WalDisk WalLifecycle WalConsumer WalRetention WalWriter FsDrain FsInv FsOther FsSystem.

#[local] Existing Instance ConsumedProof.sample_json.
#[local] Existing Instance sample_arrow.
#[local] Existing Instance sample_batch.

(** * The watchdog *)

(** A compactor whose cycles may be cut short. *)
Inductive watched_job (g : Target) : Actor → Eff Host unit → Prop :=
| JUsual a p : job (batch := bool) g a p → watched_job g a p
| JWatched to_string note pid cfg owner cycles :
    watched_job g ACompactor (compactor (batch := bool) to_string note pid cfg g owner cycles).

(** The table's cached entry is the one from before the last commit. *)
Definition lagging_host : Host :=
  set_sys (mkSys (db sample_sys) (tables sample_sys) []
    (λ _, mkWorld (λ _ _, true) (λ _ _, Some Unidentified) (λ _, Some sample_body) (λ _ _, true) (λ _, 1%nat)) 60000) sample_host.

Definition cut_cycles : list (list (list nat) * option nat) :=
  [([replicate 40 0%nat], Some 18%nat); ([replicate 40 0%nat; replicate 40 0%nat], None)].

Definition cut_sealed : Host := (Eff.run (ticks 10 1) (seal_segment seg1 sample_body) lagging_host).2.
Definition cut_host : Host := (Eff.run (ticks 11 60) (compactor_job cut_cycles) cut_sealed).2.

(** C37. A tripped watchdog appends a segment twice.  The cycle is dropped after
    its commit landed and before the process forgot its cached table entry; the
    claim is quarantined, the next cycle asks the entry from before the commit,
    requeues the orphan and appends its rows again. *)
Theorem watchdog_duplicates : fresh sample_target 5 lagging_host ∧
  rtc (pstep allowed compat (watched_job sample_target)) (5, idle, lagging_host) (70, idle, cut_host) ∧
  log (sys cut_host) = [(sample_target, seg1); (sample_target, seg1)].
Proof.
  split_and!; [|transitivity (10, idle, cut_sealed)|by vm_compute].
  - split; try done. intros t ->%list_elem_of_singleton. split; constructor.
  - unfold cut_sealed. apply (alone _ AOther); [|by vm_compute..]. apply JUsual, JSeal; [by vm_compute|by apply (bool_decide_eq_false_1 _)].
  - unfold cut_host. apply (alone _ ACompactor); [apply JWatched|by vm_compute..].
Qed.

(** * A partial that outlives its segment *)

(** Writers that write a segment and seal it, and restart. *)
Inductive writing_job (g : Target) : Actor → Eff Host unit → Prop :=
| JDraining a p : job (batch := bool) g a p → writing_job g a p
| JWrite uuid b w :
    writing_job g AOther (ignore (io (let! r := append_batch uuid false b w in seal (batch := bool) r.1)))
| JRestart ingester max_events aged : writing_job g AOther (ignore (io (with_thresholds ingester max_events aged))).

Definition write_job : Eff Host unit :=
  ignore (io (let! r := append_batch (lit "1") false true (mkWriter (lit "a") 1000 None None None) in seal (batch := bool) r.1)).
Definition restart_job : Eff Host unit := ignore (io (with_thresholds (lit "a") 1000 (λ _, false))).

(** The writer dies before it removes the partial. *)
Definition partial_left : Host := (Eff.run (ticks 10 11) write_job sample_host).2.
Definition partial_drained : Host := (Eff.run (ticks 100 60) (compactor_job one_cycle) partial_left).2.
Definition partial_recovered : Host := (Eff.run (ticks 200 40) restart_job partial_drained).2.
Definition partial_again : Host := (Eff.run (ticks 300 60) (compactor_job one_cycle) partial_recovered).2.

(** C36. A writer that dies between publishing a segment and removing its partial
    has the segment committed twice: the compactor drains the published file, and
    the recovery of partials, which looks for the name in [sealed/] only, promotes
    the partial to a segment of the same name again. *)
Theorem recovery_republishes :
  rtc (pstep allowed compat (writing_job sample_target)) (5, idle, sample_host) (338, idle, partial_again) ∧
  log (sys partial_again) = [(sample_target, seg1); (sample_target, seg1)].
Proof.
  split; [|by vm_compute].
  assert (writing_job sample_target ACompactor (compactor_job one_cycle)) as Hc by (apply JDraining, JCompactor; by repeat constructor).
  transitivity (20, idle, partial_left); [|transitivity (133, idle, partial_drained); [|transitivity (210, idle, partial_recovered)]].
  - unfold partial_left. apply (alone _ AOther); [apply JWrite|by vm_compute..].
  - unfold partial_drained. apply (alone _ ACompactor); [done|by vm_compute..].
  - unfold partial_recovered. apply (alone _ AOther); [apply JRestart|by vm_compute..].
  - unfold partial_again. apply (alone _ ACompactor); [done|by vm_compute..].
Qed.
